(* ===== verification/_CoqProject ===== *)
-Q . S2P
Prelude.v
Substrate.v
BlobStores.v
Layout.v
Control.v
HeadDigest.v
Partition.v
Outboard.v
Cdc.v
ChunkPool.v
BlobChunked.v
Gc.v
Activation.v
Verified.v
Text.v
Sign.v
Envelope.v
Staging.v
Limits.v
Service.v
Catalog.v
Authorization.v
Ordered.v
Confinement.v
CasEvidence.v
Merkle.v
Topology.v
Complex.v
Sheaf.v
SheafOps.v
Share.v
Tree.v
TreeRoot.v
HeadVerify.v
Merge.v
TreeSync.v
Proposal.v
StateM.v
Derived.v
StoreFs.v
StoreFsRuns.v
StoreShare.v
StoreSave.v
StoreView.v
Checkout.v
CheckoutHost.v
CheckoutRuns.v
CheckoutSync.v
Sandbox.v
Rootfs.v
RootfsCopy.v
Worker.v
Process.v
Cgroup.v
Lifecycle.v
Backends.v
Restriction.v
