(* ===== verification/Prelude.v ===== *)
(** * Ley-line-open: a verification development

    Ley-line-open keeps a program's working state as one content-addressed image.
    A daemon writes the image into a double-buffered memory-mapped arena and
    publishes it through a small control block; readers in other processes map
    both files and check every byte against the published BLAKE3 root.  Large
    blobs are cut into content-defined chunks and kept once in a chunk pool
    inside the image.  A separate runtime starts workloads under grants, with
    resource ceilings and a receipt per run.  The program's source tree is itself
    kept in the store as a manifest of paths, written by proposals and named by a
    root that a signed head attests.  The development models the parts of the Rust
    sources under [src/rs] that carry these guarantees.

    ** Files

    - [Prelude] (this file): the result type of Rust calls (a value, an error or a
      panic), machine integers as [N] with their widths, byte buffers, the
      little-endian codec, shared tactics, hints and list lemmas.
    - [Substrate] ([ll-core/core/src/substrate.rs]): hashes, their order and
      hexadecimal form, content addressing, and the blob-store contract as a class
      ([BlobStore], [BlobStoreLaws]) that clients are proved against.
    - [BlobStores] ([core/src/blob_store.rs]): the filesystem and in-memory stores,
      shown to be instances of the contract, crash atomicity of [put], the sweep of
      stale temporaries.
    - [Layout] ([core/src/layout.rs]): the arena header, the double-buffered write
      as a sequence of byte stores, growth by replacement.
    - [Control] ([core/src/control.rs]): the control block, a seqlock with a publish
      lock, as a step function over publishers that may die and readers that may
      be anywhere; refinement of an atomic register.
    - [HeadDigest] and [Partition] ([core/src/head_digest.rs], [partition.rs]): keyed
      digests and what they bind.
    - [Outboard] ([core/src/outboard.rs]): the BLAKE3 tree kept beside a buffer,
      incremental update, inclusion proofs and their verification.
    - [Cdc] ([ll-open/cdc/src/lib.rs]): content-defined chunking, incremental
      re-chunking, range selection and reads over any lawful store.
    - [ChunkPool], [BlobChunked], [Gc], [Activation] ([ll-open/fs/src/chunk_pool.rs],
      [blob_chunked.rs], [gc.rs], [activation.rs]): the pool and its manifests as
      SQLite tables (maps, and row lists where order matters), their collection and
      their population.  [ChunkPool] discharges the blob-store contract that [Cdc]
      uses, so [BlobChunked] reuses the theorems of [Cdc].
    - [Verified] ([ll-open/fs/src/verified.rs] and the load path of [lib.rs]): a
      session that verifies each page on first use over a mapping that may change
      at every access; built on [Layout] and [Outboard].
    - [Staging] ([ll-open/fs/src/staging.rs], [MemoryGraph] of [graph.rs]): the
      copy-on-write overlay over any live graph (class [Graph], law class
      [GraphFiles]), commit as two critical sections.
    - [Limits], [Service], [Catalog] ([ll-open/runtime/src/model.rs], [error.rs],
      [service.rs], [catalog.rs]): ceilings and request checks, the run lifecycle as
      critical sections composed sequentially and interleaved, the resolver.
    - [Text]: UTF-8 decoding and its lossy form, decimal numbers, as [std] does them.
    - [Sign], [Envelope] ([ll-open/sign/src/kid.rs], [root_signer.rs],
      [ll-open/envelope/src/lib.rs]): key ids, signatures over digests, and signed
      in-toto statements.  Ed25519, JSON and base64 are classes with their laws.
    - [Authorization] ([runtime/src/authorization.rs]): what turns a spec and a grant
      into a run, with the verifier over a content-addressed store; it produces the
      value that [Service] starts.
    - [Ordered]: [std]'s orders, binary search and insertion into sorted vectors.
    - [Confinement] ([runtime/src/confinement.rs]): confinement manifests, their
      canonical form, parsing, meet and digest; discharges the class that
      [Authorization] asks of them.
    - [CasEvidence] ([runtime/src/cas_evidence.rs]): trust keys and the evidence store
      over [BlobStores], composed into the operator's verifier of [Authorization].
    - [Merkle], [Topology], [Complex], [Sheaf] ([ll-open/sheaf/src/merkle.rs],
      [topology.rs], [complex.rs] with [sparse.rs], [cache.rs] with [region.rs] and
      [learn.rs]): Merkle proofs, the restriction graph, the cell complex over IEEE
      binary32, and the cache with its cascade and reaper.
    - [SheafOps] ([cli-lib/src/daemon/sheaf_ops.rs] and the watcher's event of
      [cmd_daemon.rs]): the daemon's operations on the sheaf, on [Sheaf] and [Complex].
    - [Share] ([runtime/src/backends/libkrun/share]): the frames and the codec between a
      guest's filesystem requests and the host that serves them.
    - [Tree], [TreeRoot] ([ll-open/cli-lib/src/tree.rs], [tree_root.rs]): the store's
      manifest and the root that names it, folded through [Partition].
    - [HeadVerify] ([cli-lib/src/head_claim.rs], the verification of [tree_root.rs],
      [sign/src/root_signer.rs]): the claim of a head, its signature and the
      comparison with the store.
    - [Merge] ([cli-lib/src/merge.rs]): the verdict and the conflict ranges of the
      three-way merge.
    - [TreeSync] ([cli-lib/src/cmd_parse/tree_sync.rs] and the in-memory edits of
      [cmd_parse.rs]): the passes that bring the manifest up to what was seen.
    - [Proposal] ([cli-lib/src/source_write.rs]): the writer of the store, from grant
      and bases to the committed manifest, on [Tree], [TreeSync], [Merge] and
      [TreeRoot].
    - [StateM]: the state-and-error monad of the filesystem and the tactics that walk its
      binds against a relation between states.
    - [Derived] ([ll-open/storefs/src/derived.rs]): the scratch directory of derived paths,
      over the host calls it makes (class [Posix]).
    - [StoreFs] ([storefs/src/lib.rs]): every request of the filesystem over the store, on
      [Proposal], [Merge], [Tree] and [Derived].  [StoreFsRuns] shows that each request keeps
      the inode table and moves the store only by proposals of its scope; [StoreSave] what a
      save lands; [StoreView] what the guest sees and reads.
    - [StoreShare] ([storefs/src/share.rs], [daemon.rs]): the service that [Share] serves,
      answered by [StoreFs], and the opening of a share from a grant.
    - [Checkout] ([cli-lib/src/checkout.rs], the renames and flushes of [durable.rs], the
      checkout's entry to the parse in [cmd_parse.rs]): the reconcile of the store with a
      directory on disk whose calls may fail, on [TreeSync] and [Proposal].  [CheckoutHost]
      and [CheckoutRuns] show what each write and removal leaves and what the parse takes up;
      [CheckoutSync] composes them.
    - [Sandbox] ([runtime/src/backends/libkrun/confinement.rs]): the manifest a worker
      compiles, the capabilities each target and tier applies for it (class [Nono]), the
      port map and the socket mappings, on [Confinement].
    - [Rootfs] ([backends/libkrun/plan.rs], [volume.rs]): the host as a tree of nodes whose
      calls may fail, the verification and the private copy of a content-addressed root,
      the compiled plan.  [RootfsCopy] shows what a copy leaves and what a digest names.
    - [Worker] ([backends/libkrun/worker.rs], [backends/native.rs]): the two processes that
      check, plan, materialize and confine one run, composing [Sandbox] and [Rootfs].
    - [Process] ([backends/process.rs]): the readiness line a parent reads, and the one reaper
      and the signalling handles of a worker's process group, interleaved with the kernel.
    - [Cgroup] ([backends/cgroup.rs]): the control group of a run over a file system whose
      calls may fail.
    - [Lifecycle] (the tables and threads of [backends/native_backend.rs] and
      [libkrun/backend.rs]): runs, completions, waits and cancels as critical sections.
    - [Backends] (the same files, and the supervision of [process.rs]): the two starts, every
      call that may fail and what is cleaned up then, on [Process], [Cgroup] and [Lifecycle];
      composed with [Worker].
    - [Restriction] ([ll-open/cache/src/restriction.rs], [strategy.rs]): fact tables, the two
      review families, the keys their results are kept under and the cache, on [Partition].

    ** What the theorems show

    - Publication: an accepted snapshot is the payload of the newest completed publish,
      with the path, size and root that one request named; readers terminate; while no
      publisher dies in a publish the block refines a register ([Control]); a writer that
      dies before the header flip keeps the old image, growth is atomic ([Layout]).
    - Integrity: the outboard root is BLAKE3 of the buffer after any truthful
      edits, proofs are complete and sound ([Outboard]); reads over a hostile
      mapping serve only attested bytes or fail closed ([Verified]); digests bind
      what they hash ([HeadDigest], [Partition]).  Where soundness rests on the hash,
      the alternative in the statement is an explicit pair of different inputs of the
      hash that the code computed and that have one value, never the mere existence of
      collisions; where it rests on signatures, a signature under the trusted key of a
      digest its owner did not sign.
    - Storage: chunking tiles the stream within its bounds, re-chunking equals
      chunking from scratch, stored streams and ranges read back exactly, reads are
      all-or-nothing, collection keeps exactly what is reachable, activation
      terminates and completes.
    - Editing: the overlay refines a map from names to bytes, commit batches each
      staged node once and keeps the overlay on failure ([Staging]).
    - Execution: ceilings are accepted exactly when enforceable, narrowing is a
      preorder, guest paths stay inside, run identities are unique under every
      interleaving, logs are append-only and gap-free, and sequential operations
      refine the interleaving system.
    - Authority: an authorized run is attested for that very run by trusted
      signatures over the grant and over a statement per role, nothing in the grant's
      ceilings is left unread, a run identity names its authority ([Authorization]);
      signing encodings are prefix-free, envelopes round-trip ([Envelope]).
    - Policy: a parsed manifest keeps every rule of the builders, documents round-trip
      through the canonical form, meet is the greatest lower bound, and the policy a
      grant carries is the one a matching backend enforces ([Confinement]); what the
      operator's daemon runs is attested by stored evidence under configured keys, and
      misconfiguration is refused ([CasEvidence]).
    - Invalidation: a reported change terminates with an answer that is exactly
      determined, hop by hop, by the edges and their boundary checks, an edit of one side fires its edges or
      exhibits a collision, the reaper names exactly the moved edges ([Sheaf]); a
      topology update reports everything it changes ([SheafOps]); deltas keep the
      complex sound, so its analysis never panics ([Complex]); inclusion proofs are
      complete and sound ([Merkle]).
    - Source trees: the root determines the manifest and the parser, a verified
      head attests the tree the store holds, up to forgery and collision; an accepted proposal is applied
      exactly and leaves a tree, its grant confines it, the check decides it, a
      refusal names every moved path, a directory rename moves its subtree.
    - Guests: a share session cut and interrupted anywhere is the sequence of direct calls
      ([Share]); whatever a guest sends, the store moves only within its scope, by other
      writers and by the checkout ([StoreShare]); a flush lands or leaves everything as it was ([StoreSave]); a guest sees
      exactly its scope, its handles behave as files, and a save of a shared handle replaces no line that
      changed since any blob the handle was at ([StoreView]); scratch operations stay beneath their directory ([Derived]).
    - Checkout: whatever calls fail, a reconcile changes the store only to what the
      directory holds, the directory only to what the store holds, and the index only to
      what both hold; one that reports nothing leaves all three agreed ([CheckoutSync]).
    - Workers: a sandbox holds a rule for each clause of its manifest and nothing else
      ([Sandbox]); a root accepted under a digest is exactly what the digest names, and so is
      its private copy, whatever fails on the way ([RootfsCopy]); a prepared run is confined
      by the manifest it attests, and its root, program, environment, channels and
      descriptors are the granted ones; a native guest runs only so ([Worker]).
    - Backends: a start leaves one registered, supervised worker that declared what it was
      handed and attested the granted policy, or nothing; a worker that prepared the run is
      accepted exactly when its policy is the named one ([Backends]); a group carries its
      ceilings ([Cgroup]); a reaped process id is never signalled, and the group of a reaped worker is empty
      but for what left it or was being forked elsewhere ([Process]); each completion is handed out once and no wait is lost
      ([Lifecycle]).
    - Reviews: equal keys mean equal reviews, for public symbols always and for the calls of
      a function where its imports are not ambiguous, so the cache answers every request
      with its own review ([Restriction]).
    - Some theorems state where the code departs from its comments: a torn root
      after a crash and [set_arena] ([Control]), a refused empty read ([Cdc]), a
      receipt rewritten by a replayed grant and a cancel that commits after a
      cleanup ([Service]), a staged write lost by a concurrent commit ([Staging]), a
      cascade that depends on the order of its roots ([Sheaf]), a topology that is
      merged rather than replaced ([SheafOps]), a file out of sight that is served
      ([StoreView]), scratch bytes that are not counted ([Derived]), a failed write into the
      directory that undoes the proposal it came from ([CheckoutSync]), an environment key
      that sets the reserved variable ([Worker]), a cancelled run reported as succeeded
      ([Lifecycle]), a key that two different reviews share ([Restriction]), a repeated request that admits
      another workspace ([Authorization]), a failed worker whose group is not killed
      ([Backends]).

    ** Choices

    [u64] and [usize] are [N] with wrap-around, saturation and checks written out.
    Loops that are not structural take fuel: the number of bytes, chunks or rows
    left, or the vertices and edges not yet visited, each with a theorem that the
    result does not run out of it.  BLAKE3, its
    tree primitives, the gear hash, JSON encoding and the backends are parameters
    (classes or section variables) with the behaviour the code relies on as class
    laws; each class has an instance in the examples, so the laws are satisfiable.
    Writers die between any two byte stores; filesystem calls fail one at a time.
    Stores reach a shared mapping in program order, and a loss of power is not modelled.
    Streams end or fail after finitely many bytes, so a peer that stays silent with its
    socket open is not; neither is SQLite's limit on the length of a text.

    ** Not modelled

    SQL text, the FUSE and NFS front ends of the host, the sockets of the execution
    transport and the calls on the hypervisor, the
    parsers and language servers, the approximate indexes, and vendored code.
    The extraction passes of [cmd_parse.rs] are not modelled: what they make of the
    written files is an argument of [sync] and of [propose].
    Version control drives jujutsu's library, and its own code is glue around that.
    The interrupt slots of the control block are left out of
    [Control]. *)

From stdpp Require Export prelude gmap vector sorting strings.
From stdpp Require Export list_numbers.
From Stdlib Require Export Strings.Byte.
From Stdlib Require Import NArith Lia.

Declare Scope leyline_scope.
Delimit Scope leyline_scope with ley.
Local Open Scope N_scope.

(** ** Results

    [anyhow::Result] and the typed [Result]s of the source, plus the third way
    a Rust call can end: a panic (an out-of-range slice, a failed [assert!],
    an [unwrap] of an absent value). *)
Inductive result (E A : Type) : Type :=
| Ok (a : A)
| Err (e : E)
| Panic.
Arguments Ok {E A} a.
Arguments Err {E A} e.
Arguments Panic {E A}.

#[global] Instance result_eq_dec {E A} `{EqDecision E, EqDecision A} :
  EqDecision (result E A).
Proof. solve_decision. Defined.

#[global] Instance result_ret {E} : MRet (result E) := λ A a, Ok a.
#[global] Instance result_bind {E} : MBind (result E) := λ A B f m,
  match m with Ok a => f a | Err e => Err e | Panic => Panic end.
#[global] Instance result_fmap {E} : FMap (result E) := λ A B f m,
  match m with Ok a => Ok (f a) | Err e => Err e | Panic => Panic end.

(** [ensure!(c, e)] of [anyhow]. *)
Definition ensure {E} (c : bool) (e : E) : result E unit :=
  if c then Ok tt else Err e.

(** [assert!(c)] and the bounds checks of slice indexing. *)
Definition assert_ {E} (c : bool) : result E unit :=
  if c then Ok tt else Panic.

(** [o.context(e)?] on an option. *)
Definition ok_or {E A} (o : option A) (e : E) : result E A :=
  match o with Some a => Ok a | None => Err e end.

(** [r.map_err(f)] *)
Definition map_err {E F A} (f : E → F) (r : result E A) : result F A :=
  match r with Ok a => Ok a | Err e => Err (f e) | Panic => Panic end.

Definition is_ok {E A} (r : result E A) : bool :=
  match r with Ok _ => true | _ => false end.

Lemma bind_ok {E A B} (m : result E A) (f : A → result E B) b :
  m ≫= f = Ok b ↔ ∃ a, m = Ok a ∧ f a = Ok b.
Proof.
  destruct m as [a|e|]; unfold mbind; simpl; split.
  - eauto.
  - by intros (? & [= ->] & ?).
  - done.
  - by intros (? & ? & ?).
  - done.
  - by intros (? & ? & ?).
Qed.

Lemma bind_Ok {E A B} (a : A) (f : A → result E B) : Ok a ≫= f = f a.
Proof. done. Qed.

Lemma ensure_ok {E} c (e : E) u : ensure c e = Ok u ↔ c = true.
Proof. unfold ensure. destruct c, u; naive_solver. Qed.

Lemma ensure_not_panic {E} c (e : E) : ensure c e ≠ Panic.
Proof. unfold ensure. by destruct c. Qed.

(** Break a successful chain of binds and guards into its steps. *)
Ltac result_inv :=
  repeat match goal with
  | H : mret _ = Ok _ |- _ => injection H as H
  | H : Ok _ = Ok _ |- _ => injection H as H
  | H : Err _ = Ok _ |- _ => discriminate H
  | H : Panic = Ok _ |- _ => discriminate H
  | H : (_ ≫= _) = Ok _ |- _ =>
      let a := fresh "a" in let H1 := fresh "Hok" in
      apply bind_ok in H as (a & H1 & H)
  | H : ensure _ _ = Ok _ |- _ => apply ensure_ok in H
  | H : _ ∧ _ |- _ => destruct H
  | u : unit |- _ => destruct u
  end.

(** A [for] loop whose body can return early with [?]. *)
Fixpoint fold_result {E A S} (f : S → A → result E S) (s : S) (l : list A) : result E S :=
  match l with
  | [] => Ok s
  | a :: l => s ← f s a; fold_result f s l
  end.

Lemma fold_result_app {E A S} (f : S → A → result E S) s l l' :
  fold_result f s (l ++ l') = (s ← fold_result f s l; fold_result f s l').
Proof. revert s. induction l as [| a l IH]; intros s; [done |]. cbn [fold_result app]. destruct (f s a); [apply IH | done..]. Qed.
Lemma fold_no_panic {E A S} (f : S → A → result E S) s l :
  (∀ s a, f s a ≠ Panic) → fold_result f s l ≠ Panic.
Proof.
  intros Hf. revert s. induction l as [| a l IH]; intros s; cbn [fold_result]; [done |].
  specialize (Hf s a). destruct (f s a); [apply IH | done..].
Qed.
Lemma fold_result_inv {E A S} (P : S → Prop) (f : S → A → result E S) (s s' : S) (l : list A) :
  P s → (∀ s a s', a ∈ l → P s → f s a = Ok s' → P s') → fold_result f s l = Ok s' → P s'.
Proof.
  revert s. induction l as [| a l IH]; intros s Hs Hf; cbn [fold_result]; [by intros [= <-] |].
  intros (s1 & H1 & H2)%bind_ok. apply (IH s1); [| | done].
  - apply (Hf s a); [left | done | done].
  - intros s2 b s3 Hb. apply Hf. by right.
Qed.

(** ** Machine integers

    [u64] and (on the 64-bit targets the project builds for) [usize] are [N];
    the width is written out where an operation can leave the range. *)
Definition u8_max : N := 255.
Definition u32_max : N := 4294967295.
Definition u64_max : N := 18446744073709551615.
Definition usize_max : N := u64_max.
Definition i64_max : N := 9223372036854775807.

(** Release-profile [a + b]: wraps. *)
Definition wadd64 (a b : N) : N := (a + b) mod (u64_max + 1).
(** [a.saturating_add(b)] and [a.saturating_mul(b)]; [a.saturating_sub(b)] is
    [N]'s truncated subtraction. *)
Definition sat_add (a b : N) : N := N.min (a + b) u64_max.
Definition sat_mul (a b : N) : N := N.min (a * b) u64_max.
(** [a.checked_add(b)]. *)
Definition checked_add (a b : N) : option N :=
  if a + b <=? u64_max then Some (a + b) else None.
(** [a.div_ceil(b)]. *)
Definition div_ceil (a b : N) : N := (a + b - 1) / b.

Lemma wadd64_small a b : a + b ≤ u64_max → wadd64 a b = a + b.
Proof. unfold wadd64, u64_max. intros. apply N.mod_small. lia. Qed.

Lemma wadd64_bound a b : wadd64 a b ≤ u64_max.
Proof.
  unfold wadd64.
  pose proof (N.mod_upper_bound (a + b) (u64_max + 1)) as H.
  unfold u64_max in *. lia.
Qed.

(** ** Buffers

    A Rust byte buffer is a list; lengths and indices are [N]. *)
Definition len {A} (l : list A) : N := N.of_nat (length l).
Definition takeN {A} (n : N) (l : list A) : list A := take (N.to_nat n) l.
Definition dropN {A} (n : N) (l : list A) : list A := drop (N.to_nat n) l.
(** [l[lo..hi]] where the range is known to be in bounds. *)
Definition slice {A} (lo hi : N) (l : list A) : list A :=
  takeN (hi - lo) (dropN lo l).
(** [&l[lo..hi]] with Rust's bounds check. *)
Definition slice_checked {E A} (lo hi : N) (l : list A) : result E (list A) :=
  if (lo <=? hi) && (hi <=? len l) then Ok (slice lo hi l) else Panic.
(** [l[i]] with Rust's bounds check. *)
Definition index_checked {E A} (i : N) (l : list A) : result E A :=
  match l !! N.to_nat i with Some a => Ok a | None => Panic end.

(** [dst[off..off + src.len()].copy_from_slice(src)], in bounds. *)
Definition splice {A} (off : N) (src dst : list A) : list A :=
  takeN off dst ++ src ++ dropN (off + len src) dst.

Section buffers.
Context {A : Type}.
Implicit Types (l k : list A) (n m lo hi : N).

Lemma len_nil : len (@nil A) = 0.
Proof. done. Qed.
Lemma len_cons (x : A) l : len (x :: l) = 1 + len l.
Proof. unfold len. simpl. lia. Qed.
Lemma len_app l k : len (l ++ k) = len l + len k.
Proof. unfold len. rewrite length_app. lia. Qed.
Lemma len_takeN n l : len (takeN n l) = N.min n (len l).
Proof. unfold len, takeN. rewrite length_take. lia. Qed.
Lemma len_dropN n l : len (dropN n l) = len l - n.
Proof. unfold len, dropN. rewrite length_drop. lia. Qed.
Lemma len_slice lo hi l : hi ≤ len l → len (slice lo hi l) = hi - lo.
Proof. intros. unfold slice. rewrite len_takeN, len_dropN. lia. Qed.
Lemma len_splice off k l :
  off + len k ≤ len l → len (splice off k l) = len l.
Proof.
  intros. unfold splice. rewrite !len_app, len_takeN, len_dropN. lia.
Qed.

Lemma takeN_ge n l : len l ≤ n → takeN n l = l.
Proof. unfold len, takeN. intros. apply take_ge. lia. Qed.
Lemma dropN_ge n l : len l ≤ n → dropN n l = [].
Proof. unfold len, dropN. intros. apply drop_ge. lia. Qed.
Lemma takeN_0 l : takeN 0 l = [].
Proof. done. Qed.
Lemma dropN_0 l : dropN 0 l = l.
Proof. done. Qed.
Lemma takeN_dropN n l : takeN n l ++ dropN n l = l.
Proof. apply take_drop. Qed.
Lemma dropN_dropN n m l : dropN n (dropN m l) = dropN (m + n) l.
Proof. unfold dropN. rewrite drop_drop. f_equal. lia. Qed.
Lemma takeN_takeN n m l : takeN n (takeN m l) = takeN (N.min n m) l.
Proof. unfold takeN. rewrite take_take. f_equal. lia. Qed.
Lemma takeN_app_l n l k : n ≤ len l → takeN n (l ++ k) = takeN n l.
Proof. unfold len, takeN. intros. apply take_app_le. lia. Qed.
Lemma takeN_app_r n l k :
  len l ≤ n → takeN n (l ++ k) = l ++ takeN (n - len l) k.
Proof.
  unfold len, takeN. intros. rewrite take_app_ge by lia. do 2 f_equal. lia.
Qed.
Lemma dropN_app_l n l k : n ≤ len l → dropN n (l ++ k) = dropN n l ++ k.
Proof. unfold len, dropN. intros. apply drop_app_le. lia. Qed.
Lemma dropN_app_r n l k : len l ≤ n → dropN n (l ++ k) = dropN (n - len l) k.
Proof.
  unfold len, dropN. intros. rewrite drop_app_ge by lia. f_equal. lia.
Qed.
Lemma takeN_app_len l k : takeN (len l) (l ++ k) = l.
Proof. rewrite takeN_app_l by lia. apply takeN_ge. lia. Qed.
Lemma dropN_app_len l k : dropN (len l) (l ++ k) = k.
Proof. rewrite dropN_app_r by lia. rewrite N.sub_diag. apply dropN_0. Qed.
Lemma takeN_dropN_comm n m l :
  takeN n (dropN m l) = dropN m (takeN (m + n) l).
Proof. unfold takeN, dropN. rewrite take_drop_commute. do 2 f_equal. lia. Qed.

Lemma slice_full l : slice 0 (len l) l = l.
Proof. unfold slice. rewrite dropN_0. apply takeN_ge. lia. Qed.
Lemma slice_empty n l : slice n n l = [].
Proof. unfold slice. by rewrite N.sub_diag, takeN_0. Qed.
(** Adjacent slices concatenate. *)
Lemma slice_app lo mid hi l :
  lo ≤ mid → mid ≤ hi → slice lo mid l ++ slice mid hi l = slice lo hi l.
Proof.
  intros. unfold slice, takeN, dropN.
  replace (N.to_nat (hi - lo)) with (N.to_nat (mid - lo) + N.to_nat (hi - mid))%nat by lia.
  rewrite <- (take_drop (N.to_nat (mid - lo))
     (take (N.to_nat (mid - lo) + N.to_nat (hi - mid)) (drop (N.to_nat lo) l))).
  rewrite take_take, Nat.min_l by lia. f_equal.
  rewrite skipn_firstn_comm, drop_drop. f_equal; [lia|]. f_equal. lia.
Qed.
(** A slice of a slice. *)
Lemma slice_slice a b lo hi l :
  b ≤ hi - lo → slice a b (slice lo hi l) = slice (lo + a) (lo + b) l.
Proof.
  intros. unfold slice, takeN, dropN.
  rewrite skipn_firstn_comm, take_take, drop_drop. f_equal; [lia|].
  f_equal. lia.
Qed.
(** A slice only sees the prefix up to its end. *)
Lemma slice_takeN lo hi n l : hi ≤ n → slice lo hi (takeN n l) = slice lo hi l.
Proof.
  intros. unfold slice, takeN, dropN.
  rewrite skipn_firstn_comm, take_take. f_equal. lia.
Qed.
Lemma slice_dropN lo hi n l :
  slice lo hi (dropN n l) = slice (n + lo) (n + hi) l.
Proof.
  unfold slice. rewrite dropN_dropN. f_equal. lia.
Qed.
Lemma dropN_slice n lo hi l :
  n ≤ hi - lo → dropN n (slice lo hi l) = slice (lo + n) hi l.
Proof.
  intros. unfold slice, takeN, dropN. rewrite skipn_firstn_comm, drop_drop.
  f_equal; [lia|]. f_equal. lia.
Qed.

(** Reading back the spliced range, and ranges that do not meet it. *)
Lemma slice_splice_same off k l :
  off + len k ≤ len l → slice off (off + len k) (splice off k l) = k.
Proof.
  intros. unfold slice, splice.
  rewrite dropN_app_r by (rewrite len_takeN; lia).
  rewrite len_takeN, N.min_l by lia. rewrite N.sub_diag, dropN_0.
  replace (off + len k - off) with (len k) by lia. apply takeN_app_len.
Qed.
Lemma slice_splice_before lo hi off k l :
  hi ≤ off → off ≤ len l → slice lo hi (splice off k l) = slice lo hi l.
Proof.
  intros. unfold splice. rewrite <- (slice_takeN lo hi off) by lia.
  rewrite takeN_app_l by (rewrite len_takeN; lia).
  rewrite takeN_takeN. rewrite N.min_id. apply slice_takeN. lia.
Qed.
Lemma slice_splice_after lo hi off k l :
  off + len k ≤ lo → off + len k ≤ len l →
  slice lo hi (splice off k l) = slice lo hi l.
Proof.
  intros. unfold splice, slice. f_equal.
  rewrite app_assoc. rewrite dropN_app_r by (rewrite len_app, len_takeN; lia).
  rewrite dropN_dropN. f_equal. rewrite len_app, len_takeN. lia.
Qed.
End buffers.

Create Rewrite HintDb ley_len.
#[export] Hint Rewrite @len_nil @len_cons @len_app @len_takeN @len_dropN : ley_len.
Create HintDb leyline discriminated.
#[export] Hint Resolve takeN_ge dropN_ge : leyline.

(** [lia] after pushing lengths through the list operations. *)
Ltac len_lia := autorewrite with ley_len in *; lia.

Lemma slice_checked_ok {E A} lo hi (l : list A) :
  lo ≤ hi → hi ≤ len l → @slice_checked E A lo hi l = Ok (slice lo hi l).
Proof.
  intros. unfold slice_checked.
  by rewrite (proj2 (N.leb_le _ _)), (proj2 (N.leb_le _ _)).
Qed.

(** ** Little-endian integers

    [u64::to_le_bytes] and friends.  The project's targets are little-endian,
    so [to_ne_bytes] of the control block is the same function. *)
Definition byte_of_N (n : N) : byte :=
  match Byte.of_N (n mod 256) with Some b => b | None => x00 end.

Fixpoint le_bytes (w : nat) (z : N) : list byte :=
  match w with
  | O => []
  | S w => byte_of_N z :: le_bytes w (z / 256)
  end.

Fixpoint le_value (l : list byte) : N :=
  match l with
  | [] => 0
  | b :: l => Byte.to_N b + 256 * le_value l
  end.

Definition u32_le : N → list byte := le_bytes 4.
Definition u64_le : N → list byte := le_bytes 8.
#[global] Arguments u32_le _ : simpl never.
#[global] Arguments u64_le _ : simpl never.

#[global] Instance byte_eq_dec : EqDecision byte := Byte.byte_eq_dec.

#[global] Program Instance byte_countable : Countable byte :=
  inj_countable Byte.to_N Byte.of_N _.
Next Obligation. intros b. apply Byte.of_to_N. Qed.

Lemma to_N_bound b : Byte.to_N b < 256.
Proof. pose proof (Byte.to_N_bounded b). lia. Qed.

Lemma to_N_byte_of_N n : Byte.to_N (byte_of_N n) = n mod 256.
Proof.
  unfold byte_of_N. destruct (Byte.of_N (n mod 256)) eqn:E.
  - by apply Byte.to_of_N.
  - apply Byte.of_N_None_iff in E.
    pose proof (N.mod_upper_bound n 256). lia.
Qed.

Lemma byte_of_N_to_N b : byte_of_N (Byte.to_N b) = b.
Proof.
  unfold byte_of_N. rewrite N.mod_small by apply to_N_bound.
  by rewrite Byte.of_to_N.
Qed.

Lemma byte_to_N_inj b1 b2 : Byte.to_N b1 = Byte.to_N b2 → b1 = b2.
Proof. intros H. by rewrite <- (byte_of_N_to_N b1), H, byte_of_N_to_N. Qed.

Lemma length_le_bytes w z : length (le_bytes w z) = w.
Proof. revert z. induction w; intros; simpl; auto. Qed.

Lemma len_le_bytes w z : len (le_bytes w z) = N.of_nat w.
Proof. unfold len. by rewrite length_le_bytes. Qed.

Lemma le_value_le_bytes w z : le_value (le_bytes w z) = z mod 256 ^ N.of_nat w.
Proof.
  revert z. induction w as [|w IH]; intros z; cbn [le_bytes le_value].
  - by rewrite N.mod_1_r.
  - rewrite to_N_byte_of_N, IH.
    replace (N.of_nat (S w)) with (N.succ (N.of_nat w)) by lia.
    rewrite N.pow_succ_r by lia.
    rewrite N.Div0.mod_mul_r by lia. lia.
Qed.

Lemma le_value_bound l : le_value l < 256 ^ len l.
Proof.
  induction l as [|b l IH]; cbn [le_value]; [done|].
  rewrite len_cons, N.add_1_l, N.pow_succ_r by lia.
  pose proof (to_N_bound b). lia.
Qed.

Lemma le_bytes_le_value l : le_bytes (length l) (le_value l) = l.
Proof.
  induction l as [|b l IH]; cbn [le_bytes le_value length]; [done|].
  pose proof (to_N_bound b) as Hb. f_equal.
  - apply byte_to_N_inj. rewrite to_N_byte_of_N.
    rewrite (N.mul_comm 256), N.Div0.mod_add. by apply N.mod_small.
  - rewrite (N.mul_comm 256), N.div_add by lia.
    rewrite N.div_small by done. by rewrite N.add_0_l.
Qed.

Lemma le_bytes_inj w x y :
  x < 256 ^ N.of_nat w → y < 256 ^ N.of_nat w →
  le_bytes w x = le_bytes w y → x = y.
Proof.
  intros Hx Hy H. apply (f_equal le_value) in H.
  rewrite !le_value_le_bytes in H. by rewrite !N.mod_small in H.
Qed.

Lemma u64_le_value z : z ≤ u64_max → le_value (u64_le z) = z.
Proof.
  intros. unfold u64_le. rewrite le_value_le_bytes. apply N.mod_small.
  unfold u64_max in *. cbn. lia.
Qed.

Lemma u64_le_inj x y : x ≤ u64_max → y ≤ u64_max → u64_le x = u64_le y → x = y.
Proof.
  intros Hx Hy H. rewrite <- (u64_le_value x), <- (u64_le_value y) by done.
  by rewrite H.
Qed.

Lemma u32_le_inj x y : x ≤ u32_max → y ≤ u32_max → u32_le x = u32_le y → x = y.
Proof.
  unfold u32_le, u32_max. intros. eapply le_bytes_inj; [| |done]; cbn; lia.
Qed.

(** Two concatenations with heads of equal length agree piecewise: the step
    every injectivity proof of a fixed-width encoding repeats. *)
Lemma app_inj_len {A} (l1 l2 k1 k2 : list A) :
  length l1 = length l2 → l1 ++ k1 = l2 ++ k2 → l1 = l2 ∧ k1 = k2.
Proof. intros. by apply app_inj_1. Qed.

(** ** Filters that keep everything, or nothing *)

Lemma filter_all {A} (P : A → Prop) `{∀ x, Decision (P x)} (l : list A) :
  (∀ x, x ∈ l → P x) → filter P l = l.
Proof.
  induction l as [|x l IH]; intros Hl; [done|]. rewrite filter_cons_True by set_solver.
  f_equal. apply IH. set_solver.
Qed.

Lemma StronglySorted_filter {A} (R : relation A) (P : A → Prop) `{∀ x, Decision (P x)} (l : list A) :
  StronglySorted R l → StronglySorted R (filter P l).
Proof.
  induction 1 as [|x l Hs IH Hall]; [constructor|]. rewrite filter_cons. case_decide; [|done].
  constructor; [done|]. rewrite Forall_forall in Hall |- *.
  intros y [_ Hy]%list_elem_of_filter. by apply Hall.
Qed.
Lemma filter_none {A} (P : A → Prop) `{∀ x, Decision (P x)} (l : list A) :
  (∀ x, x ∈ l → ¬ P x) → filter P l = [].
Proof.
  induction l as [|x l IH]; intros Hl; [done|]. rewrite filter_cons_False by set_solver.
  apply IH. set_solver.
Qed.
