(* ===== verification/Substrate.v ===== *)
(** * The Merkle-CAS substrate

    [rs/ll-core/core/src/substrate.rs]: the 256-bit content address, the
    content-addressing function, and the two contracts the rest of the system
    is written against, [BlobStore] and [RootPointer].

    BLAKE3 is a crate outside the repository, so it is the parameter [Blake3].
    Nothing is assumed of it: a theorem whose conclusion needs collision
    resistance ends in a disjunct that names the two colliding inputs. *)

From S2P Require Import Prelude.
From Stdlib Require Import NArith Lia.
Local Open Scope N_scope.

(** ** Content addresses *)

(** [pub struct Hash([u8; 32])]. *)
Abbreviation Hash := (vec byte 32).

(** [Hash::ZERO], the "no root yet" sentinel. *)
Definition Hash_ZERO : Hash := vreplicate 32 x00.

(** [Hash::as_bytes]. *)
Definition as_bytes (h : Hash) : list byte := vec_to_list h.

(** [Hash::from_bytes] after the [try_into] every caller performs: a byte
    string of any other length is refused. *)
Definition Hash_try_from (l : list byte) : option Hash :=
  match decide (length l = 32%nat) with
  | left e => Some (eq_rect (length l) (λ n, vec byte n) (list_to_vec l) 32%nat e)
  | right _ => None
  end.

Lemma length_as_bytes h : length (as_bytes h) = 32%nat.
Proof. apply length_vec_to_list. Qed.

Lemma len_as_bytes h : len (as_bytes h) = 32.
Proof. unfold len. by rewrite length_as_bytes. Qed.

Lemma as_bytes_inj h1 h2 : as_bytes h1 = as_bytes h2 → h1 = h2.
Proof. apply vec_to_list_inj2. Qed.

Lemma vec_to_list_cast {n m} (e : n = m) (v : vec byte n) :
  vec_to_list (eq_rect n (λ k, vec byte k) v m e) = vec_to_list v.
Proof. by destruct e. Qed.

(** Decoding what [as_bytes] produced gives the address back, and nothing but
    32 bytes decodes. *)
Lemma Hash_try_from_as_bytes h : Hash_try_from (as_bytes h) = Some h.
Proof.
  unfold Hash_try_from. case_decide as Hd; [|by rewrite length_as_bytes in Hd].
  f_equal. apply as_bytes_inj. unfold as_bytes at 1. rewrite vec_to_list_cast.
  apply vec_to_list_to_vec.
Qed.

Lemma Hash_try_from_Some l h : Hash_try_from l = Some h → as_bytes h = l.
Proof.
  unfold Hash_try_from. case_decide as Hd; [|done]. intros [= <-].
  unfold as_bytes. rewrite vec_to_list_cast. apply vec_to_list_to_vec.
Qed.

(** *** Hexadecimal, as [Display] and the on-disk layout print it. *)

Definition hex_digit (n : N) : Ascii.ascii :=
  Ascii.ascii_of_N (if n <? 10 then 48 + n else 87 + n).

(** [write!(f, "{b:02x}")] *)
Definition hex_byte (b : byte) : string :=
  String (hex_digit (Byte.to_N b / 16)) (String (hex_digit (Byte.to_N b mod 16)) EmptyString).

Fixpoint hex_bytes (l : list byte) : string :=
  match l with
  | [] => EmptyString
  | b :: l => String.append (hex_byte b) (hex_bytes l)
  end.

(** [impl Display for Hash]. *)
Definition Hash_display (h : Hash) : string := hex_bytes (as_bytes h).

Lemma hex_digit_inj n m : n < 16 → m < 16 → hex_digit n = hex_digit m → n = m.
Proof.
  unfold hex_digit. intros Hn Hm H.
  apply (f_equal Ascii.N_of_ascii) in H.
  rewrite !Ascii.N_ascii_embedding in H
    by (repeat case_match; rewrite ?N.ltb_lt in *; lia).
  destruct (N.ltb_spec n 10), (N.ltb_spec m 10); lia.
Qed.

Lemma hex_byte_inj b1 b2 : hex_byte b1 = hex_byte b2 → b1 = b2.
Proof.
  unfold hex_byte. intros [= H1 H2].
  pose proof (to_N_bound b1). pose proof (to_N_bound b2).
  apply hex_digit_inj in H1; [|apply N.Div0.div_lt_upper_bound; lia..].
  apply hex_digit_inj in H2; [|apply N.mod_upper_bound; lia..].
  apply byte_to_N_inj.
  rewrite (N.div_mod' (Byte.to_N b1) 16), (N.div_mod' (Byte.to_N b2) 16).
  by rewrite H1, H2.
Qed.

Lemma hex_bytes_inj l1 l2 : hex_bytes l1 = hex_bytes l2 → l1 = l2.
Proof.
  revert l2. induction l1 as [|b1 l1 IH]; intros [|b2 l2]; simpl; try done.
  intros [= H1 H2 H3]. f_equal; [|by apply IH].
  apply hex_byte_inj. unfold hex_byte. by rewrite H1, H2.
Qed.

(** ** The order [derive(Ord)] gives addresses: bytewise lexicographic *)

Fixpoint bytes_leb (l1 l2 : list byte) : bool :=
  match l1, l2 with
  | [], _ => true
  | _ :: _, [] => false
  | b1 :: l1, b2 :: l2 =>
      (Byte.to_N b1 <? Byte.to_N b2)
      || ((Byte.to_N b1 =? Byte.to_N b2) && bytes_leb l1 l2)
  end.

Lemma bytes_leb_refl l : bytes_leb l l = true.
Proof. induction l as [|b l IH]; simpl; [done|]. by rewrite N.ltb_irrefl, N.eqb_refl, IH. Qed.

Lemma bytes_leb_total l1 l2 : bytes_leb l1 l2 = true ∨ bytes_leb l2 l1 = true.
Proof.
  revert l2. induction l1 as [|b1 l1 IH]; intros [|b2 l2]; simpl; auto.
  destruct (IH l2) as [H|H];
    destruct (N.ltb_spec (Byte.to_N b1) (Byte.to_N b2)),
             (N.ltb_spec (Byte.to_N b2) (Byte.to_N b1)),
             (N.eqb_spec (Byte.to_N b1) (Byte.to_N b2)),
             (N.eqb_spec (Byte.to_N b2) (Byte.to_N b1)); simpl; auto; lia.
Qed.

Lemma bytes_leb_antisym l1 l2 :
  bytes_leb l1 l2 = true → bytes_leb l2 l1 = true → l1 = l2.
Proof.
  revert l2. induction l1 as [|b1 l1 IH]; intros [|b2 l2]; simpl; try done.
  rewrite !orb_true_iff, !andb_true_iff, !N.ltb_lt, !N.eqb_eq.
  intros [?|[E1 H1]] [?|[E2 H2]]; try lia.
  f_equal; [by apply byte_to_N_inj|by apply IH].
Qed.

Lemma bytes_leb_trans l1 l2 l3 :
  bytes_leb l1 l2 = true → bytes_leb l2 l3 = true → bytes_leb l1 l3 = true.
Proof.
  revert l2 l3. induction l1 as [|b1 l1 IH]; intros [|b2 l2] [|b3 l3]; simpl; try done.
  rewrite !orb_true_iff, !andb_true_iff, !N.ltb_lt, !N.eqb_eq.
  intros [?|[E1 H1]] [?|[E2 H2]]; try (left; lia).
  right. split; [lia|by eapply IH].
Qed.

(** ** Content addressing *)

(** The BLAKE3 crate: [blake3::hash] and [Hasher::new_derive_key(ctx)] followed
    by updates and [finalize]. *)
Class Blake3 := {
  blake3 : list byte → Hash;
  blake3_derive_key : string → list byte → Hash;
}.

(** [impl ContentAddressed for [u8]]. *)
Definition content_hash `{Blake3} (bytes : list byte) : Hash := blake3 bytes.

(** A hash to evaluate examples with: it folds the bytes into 32 positions. *)
Definition toy_hash (l : list byte) : Hash :=
  vmap (λ i, byte_of_N (foldr (λ b acc, Byte.to_N b + 7 * acc + i) i l))
       (list_to_vec (N.of_nat <$> seq 0 32)).
Definition toy_blake3 : Blake3 :=
  {| blake3 := toy_hash; blake3_derive_key := λ _, toy_hash |}.

(** Two distinct inputs with one address, exhibited. *)
Definition collision {A B} (f : A → B) (x y : A) : Prop := x ≠ y ∧ f x = f y.

Lemma eq_or_collision {A B} `{EqDecision A} (f : A → B) x y :
  f x = f y → x = y ∨ collision f x y.
Proof. intros. destruct (decide (x = y)); [by left|by right]. Qed.

(** ** The [BlobStore] contract *)

Inductive store_error :=
| IntegrityViolation        (* stored bytes do not hash to their key *)
| StoreIo                   (* the medium failed *).

#[global] Instance store_error_eq_dec : EqDecision store_error.
Proof. solve_decision. Defined.

(** [trait BlobStore]: [put] takes [&mut self], so it returns the store it
    leaves behind on every path, errors included. *)
Class BlobStore (S : Type) := {
  bs_put : list byte → S → result store_error Hash * S;
  bs_get : S → Hash → result store_error (option (list byte));
  bs_contains : S → Hash → result store_error bool;
}.

(** What the trait's documentation promises of every implementation:
    verify-on-read, content addressing, (CA) a successful put can be read
    back, (IM) an entry that reads back keeps reading back the same bytes, and
    a failing or succeeding put touches no other key. *)
Class BlobStoreLaws (S : Type) `{Blake3, BlobStore S} := {
  bs_get_verified s h v : bs_get s h = Ok (Some v) → blake3 v = h;
  bs_put_hash v s h s' : bs_put v s = (Ok h, s') → h = blake3 v;
  bs_put_present v s h s' :
    bs_put v s = (Ok h, s') → ∃ v', bs_get s' h = Ok (Some v');
  bs_put_immutable v s r s' h w :
    bs_put v s = (r, s') → bs_get s h = Ok (Some w) → bs_get s' h = Ok (Some w);
  bs_put_other v s r s' h :
    bs_put v s = (r, s') → h ≠ blake3 v → bs_get s' h = bs_get s h;
}.

Section blob_store_clients.
Context `{Blake3} {S} `{!BlobStore S} `{!BlobStoreLaws S}.

(** The (CA) axiom as a client uses it. *)
Lemma bs_put_get v s h s' :
  bs_put v s = (Ok h, s') →
  bs_get s' (blake3 v) = Ok (Some v)
  ∨ ∃ v', bs_get s' (blake3 v) = Ok (Some v') ∧ collision blake3 v v'.
Proof.
  intros Hp. pose proof (bs_put_hash _ _ _ _ Hp) as ->.
  destruct (bs_put_present _ _ _ _ Hp) as [v' Hg].
  pose proof (bs_get_verified _ _ _ Hg) as He.
  destruct (decide (v = v')) as [<-|Hn]; [by left|right].
  exists v'. split; [done|]. split; [done|by symmetry].
Qed.
End blob_store_clients.
