(* ===== verification/BlobStores.v ===== *)
(** * Content-addressed blob stores

    [rs/ll-core/core/src/blob_store.rs]: [FsBlobStore], the git-shaped store on
    a filesystem, and [MemBlobStore].  A filesystem below the store root is a
    finite map from (bucket, file name) to entries.  Every system call of
    [put] may fail, and the process may die between any two of them; the fault
    argument says where, and the state returned beside the error is what a
    restarted process finds. *)

From S2P Require Import Prelude Substrate.
From stdpp Require Import pretty.
From Stdlib Require Import NArith Lia Ascii.
Local Open Scope N_scope.

(** ** The filesystem below a store root *)

(** [Unreadable]: something [File::open] or [read_to_end] fails on with an
    error other than [NotFound] (a directory, a file without permission). *)
Inductive fs_entry :=
| File (content : list byte)
| Unreadable.

Abbreviation path := (string * string)%type.

Record FsBlobStore := {
  fs_files : gmap path fs_entry;
  fs_pid : N;        (* std::process::id() *)
  fs_nonce : N;      (* TEMP_NONCE *)
}.

Definition fs_with_files (f : gmap path fs_entry) (s : FsBlobStore) : FsBlobStore :=
  {| fs_files := f; fs_pid := fs_pid s; fs_nonce := fs_nonce s |}.

(** [FsBlobStore::path_for]: first byte is the bucket, the rest the name. *)
Definition FsBlobStore_path_for (h : Hash) : path :=
  match as_bytes h with
  | [] => (EmptyString, EmptyString)
  | b :: rest => (hex_byte b, hex_bytes rest)
  end.

(** [format!(".tmp-{}-{}-{}", pid, nonce, hash)] *)
Definition tmp_name (pid nonce : N) (h : Hash) : string :=
  (".tmp-" +:+ pretty pid +:+ "-" +:+ pretty nonce +:+ "-" +:+ Hash_display h)%string.

(** [Path::exists] *)
Definition fs_exists (s : FsBlobStore) (p : path) : bool :=
  bool_decide (is_Some (fs_files s !! p)).

(** Where a [put] is interrupted, by an error or by the death of the process:
    [FailWrite n] leaves the first [n] bytes of the temp file written. *)
Inductive put_fault :=
| NoFault
| FailCreateDir
| FailCreateTemp
| FailWrite (n : N)
| FailSync
| FailRename.

#[global] Instance put_fault_eq_dec : EqDecision put_fault.
Proof. solve_decision. Defined.

Section fs_blob_store.
Context `{Blake3}.

Definition FsBlobStore_get (s : FsBlobStore) (h : Hash)
    : result store_error (option (list byte)) :=
  match fs_files s !! FsBlobStore_path_for h with
  | None => Ok None
  | Some Unreadable => Err StoreIo
  | Some (File buf) =>
      if bool_decide (content_hash buf = h) then Ok (Some buf)
      else Err IntegrityViolation
  end.

Definition FsBlobStore_contains (s : FsBlobStore) (h : Hash)
    : result store_error bool :=
  Ok (fs_exists s (FsBlobStore_path_for h)).

(** The write half of [put]: temp file in the bucket of the final path,
    fsync, rename. *)
Definition fs_write_temp_and_rename (ft : put_fault) (hash : Hash)
    (bytes : list byte) (s : FsBlobStore) : result store_error Hash * FsBlobStore :=
  let final_path := FsBlobStore_path_for hash in
  if bool_decide (ft = FailCreateDir) then (Err StoreIo, s) else
  let nonce := fs_nonce s in
  let s1 := {| fs_files := fs_files s; fs_pid := fs_pid s; fs_nonce := wadd64 nonce 1 |} in
  let tmp_path := (fst final_path, tmp_name (fs_pid s) nonce hash) in
  if bool_decide (ft = FailCreateTemp) || fs_exists s1 tmp_path then (Err StoreIo, s1) else
  let written n := fs_with_files (<[tmp_path := File (takeN n bytes)]> (fs_files s1)) s1 in
  match ft with
  | FailWrite n => (Err StoreIo, written n)
  | FailSync | FailRename => (Err StoreIo, written (len bytes))
  | _ => (Ok hash,
          fs_with_files
            (<[final_path := File (takeN (len bytes) bytes)]> (delete tmp_path (fs_files s1))) s1)
  end.

Definition FsBlobStore_put (ft : put_fault) (bytes : list byte) (s : FsBlobStore)
    : result store_error Hash * FsBlobStore :=
  let hash := content_hash bytes in
  let final_path := FsBlobStore_path_for hash in
  match (if fs_exists s final_path then FsBlobStore_get s hash else Ok None) with
  | Err e => (Err e, s)
  | Panic => (Panic, s)
  | Ok (Some _) => (Ok hash, s)
  | Ok None => fs_write_temp_and_rename ft hash bytes s
  end.

(** *** Paths *)

Lemma path_for_inj h1 h2 :
  FsBlobStore_path_for h1 = FsBlobStore_path_for h2 → h1 = h2.
Proof.
  unfold FsBlobStore_path_for. intros Hp. apply as_bytes_inj.
  pose proof (length_as_bytes h1) as L1. pose proof (length_as_bytes h2) as L2.
  destruct (as_bytes h1) as [|b1 l1], (as_bytes h2) as [|b2 l2]; try done.
  injection Hp as E1 E2 E3. f_equal; [|by apply hex_bytes_inj].
  apply hex_byte_inj. unfold hex_byte. by rewrite E1, E2.
Qed.

Lemma hex_digit_not_dot n : n < 16 → hex_digit n ≠ "."%char.
Proof.
  unfold hex_digit. intros Hn E. apply (f_equal Ascii.N_of_ascii) in E.
  rewrite Ascii.N_ascii_embedding in E
    by (case_match; rewrite ?N.ltb_lt in *; lia).
  change (Ascii.N_of_ascii "."%char) with 46 in E.
  destruct (N.ltb_spec n 10); lia.
Qed.

Lemma prefix_tmp_head c s : c ≠ "."%char → String.prefix ".tmp-" (String c s) = false.
Proof. intros Hc. cbn [String.prefix]. by destruct (ascii_dec "."%char c) as [<-|]. Qed.

(** A blob's file name never starts with a dot, so no temp name is one. *)
Lemma path_for_not_temp h : String.prefix ".tmp-" (snd (FsBlobStore_path_for h)) = false.
Proof.
  unfold FsBlobStore_path_for. pose proof (length_as_bytes h) as L.
  destruct (as_bytes h) as [|b [|b' l]]; try done.
  assert (hex_digit (Byte.to_N b' / 16) ≠ "."%char) as Hd.
  { apply hex_digit_not_dot. pose proof (to_N_bound b').
    apply N.Div0.div_lt_upper_bound. lia. }
  by apply prefix_tmp_head.
Qed.

Lemma tmp_name_temp pid nonce h : String.prefix ".tmp-" (tmp_name pid nonce h) = true.
Proof.
  unfold tmp_name. generalize (pretty pid +:+ "-" +:+ pretty nonce +:+ "-" +:+ Hash_display h)%string.
  by intros [|].
Qed.

Lemma tmp_path_ne_path_for b pid nonce h h' :
  (b, tmp_name pid nonce h) ≠ FsBlobStore_path_for h'.
Proof.
  intros E. pose proof (path_for_not_temp h') as Hf. rewrite <- E in Hf.
  cbn [snd] in Hf. by rewrite tmp_name_temp in Hf.
Qed.

(** *** What [put] does to the blob paths *)

Lemma fs_get_lookup s s' h :
  fs_files s' !! FsBlobStore_path_for h = fs_files s !! FsBlobStore_path_for h →
  FsBlobStore_get s' h = FsBlobStore_get s h.
Proof. unfold FsBlobStore_get. by intros ->. Qed.

(** The write half leaves every blob path alone, except that on success the
    final path holds the whole content. *)
Lemma fs_write_temp_lookup ft hash bytes s r s' :
  fs_write_temp_and_rename ft hash bytes s = (r, s') →
  (r = Ok hash ∧
   fs_files s' !! FsBlobStore_path_for hash = Some (File bytes) ∧
   ∀ h', h' ≠ hash →
     fs_files s' !! FsBlobStore_path_for h' = fs_files s !! FsBlobStore_path_for h')
  ∨ (r = Err StoreIo ∧
     ∀ h', fs_files s' !! FsBlobStore_path_for h' = fs_files s !! FsBlobStore_path_for h').
Proof.
  unfold fs_write_temp_and_rename, fs_with_files. intros E.
  repeat case_match; simplify_eq/=.
  all: try (right; split; [done|]; intros h';
            rewrite ?lookup_insert_ne by apply tmp_path_ne_path_for; done).
  all: left; rewrite takeN_ge by lia; split; [done|]; split;
    [by rewrite lookup_insert_eq|]; intros h' Hn.
  all: rewrite lookup_insert_ne by (intros ?%path_for_inj; done).
  all: apply lookup_delete_ne; apply tmp_path_ne_path_for.
Qed.

Lemma fs_get_verified s h v : FsBlobStore_get s h = Ok (Some v) → blake3 v = h.
Proof.
  unfold FsBlobStore_get, content_hash. intros E.
  repeat case_match; simplify_eq. by eapply bool_decide_eq_true_1.
Qed.

Lemma fs_get_exists s h v : FsBlobStore_get s h = Ok (Some v) →
  fs_exists s (FsBlobStore_path_for h) = true.
Proof.
  unfold FsBlobStore_get, fs_exists. intros E. apply bool_decide_eq_true_2.
  case_match; [eauto|done].
Qed.

Lemma fs_get_absent s h : fs_exists s (FsBlobStore_path_for h) = false →
  FsBlobStore_get s h = Ok None.
Proof.
  unfold FsBlobStore_get, fs_exists. intros E%bool_decide_eq_false_1.
  apply eq_None_not_Some in E. by rewrite E.
Qed.

(** [put] either is the write half on a key with no entry, or changes
    nothing at all. *)
Lemma fs_put_cases ft bytes s r s' :
  FsBlobStore_put ft bytes s = (r, s') →
  (fs_exists s (FsBlobStore_path_for (blake3 bytes)) = false ∧
   fs_write_temp_and_rename ft (blake3 bytes) bytes s = (r, s'))
  ∨ (s' = s ∧ ((∃ v, r = Ok (blake3 bytes) ∧ FsBlobStore_get s (blake3 bytes) = Ok (Some v))
               ∨ ∃ e, r = Err e ∧ FsBlobStore_get s (blake3 bytes) = Err e)).
Proof.
  unfold FsBlobStore_put, content_hash. intros E.
  destruct (fs_exists s _) eqn:Ex; [right|by left].
  destruct (FsBlobStore_get s (blake3 bytes)) as [[v|]|e|] eqn:G; simplify_eq; eauto 10.
  - unfold FsBlobStore_get in G. unfold fs_exists in Ex.
    apply bool_decide_eq_true_1 in Ex as [x Hx]. rewrite Hx in G.
    repeat case_match; simplify_eq.
  - unfold FsBlobStore_get in G. repeat case_match; simplify_eq.
Qed.

Definition FsBlobStore_store (ft : put_fault) : BlobStore FsBlobStore := {|
  bs_put := FsBlobStore_put ft;
  bs_get := FsBlobStore_get;
  bs_contains := FsBlobStore_contains;
|}.

(** The store honours the contract whichever system call fails. *)
Lemma FsBlobStore_laws (ft : put_fault) :
  BlobStoreLaws (H0 := FsBlobStore_store ft) FsBlobStore.
Proof.
  split; cbn [bs_put bs_get FsBlobStore_store].
  - intros. by eapply fs_get_verified.
  - intros v s h s' E. destruct (fs_put_cases _ _ _ _ _ E) as [[_ W]|[_ [(?&[= ->]&_)|(?&?&_)]]]; try done.
    destruct (fs_write_temp_lookup _ _ _ _ _ _ W) as [([= ->]&_)|[? _]]; done.
  - intros v s h s' E. destruct (fs_put_cases _ _ _ _ _ E) as [[_ W]|[-> [(x&[= ->]&G)|(?&?&_)]]]; try done; eauto.
    destruct (fs_write_temp_lookup _ _ _ _ _ _ W) as [([= ->]&L&_)|[? _]]; [|done].
    exists v. unfold FsBlobStore_get, content_hash. rewrite L. by rewrite bool_decide_true.
  - intros v s r s' h w E G.
    destruct (fs_put_cases _ _ _ _ _ E) as [[Ex W]|[-> _]]; [|done].
    assert (h ≠ blake3 v) as Hn by (intros ->; apply fs_get_exists in G; congruence).
    rewrite <- G. apply fs_get_lookup.
    destruct (fs_write_temp_lookup _ _ _ _ _ _ W) as [(_&_&L)|[_ L]]; auto.
  - intros v s r s' h E Hn. apply fs_get_lookup.
    destruct (fs_put_cases _ _ _ _ _ E) as [[Ex W]|[-> _]]; [|done].
    destruct (fs_write_temp_lookup _ _ _ _ _ _ W) as [(_&_&L)|[_ L]]; auto.
Qed.
End fs_blob_store.

(** ** The in-memory store *)

(** [Mutex<HashMap<Hash, Vec<u8>>>]; the mutex is uncontended under [&mut]. *)
Record MemBlobStore := { inner : gmap Hash (list byte) }.

Definition MemBlobStore_new : MemBlobStore := {| inner := ∅ |}.

(** [MemBlobStore::len] *)
Definition MemBlobStore_len (s : MemBlobStore) : N := N.of_nat (size (inner s)).

Section mem_blob_store.
Context `{Blake3}.

Definition MemBlobStore_get (s : MemBlobStore) (h : Hash)
    : result store_error (option (list byte)) :=
  match inner s !! h with
  | None => Ok None
  | Some bytes =>
      if bool_decide (content_hash bytes = h) then Ok (Some bytes)
      else Err IntegrityViolation
  end.

Definition MemBlobStore_put (bytes : list byte) (s : MemBlobStore)
    : result store_error Hash * MemBlobStore :=
  let hash := content_hash bytes in
  match inner s !! hash with
  | Some _ =>
      match MemBlobStore_get s hash with
      | Ok _ => (Ok hash, s)
      | Err e => (Err e, s)
      | Panic => (Panic, s)
      end
  | None => (Ok hash, {| inner := <[hash := bytes]> (inner s) |})
  end.

Definition MemBlobStore_contains (s : MemBlobStore) (h : Hash)
    : result store_error bool :=
  Ok (bool_decide (is_Some (inner s !! h))).

Definition MemBlobStore_store : BlobStore MemBlobStore := {|
  bs_put := MemBlobStore_put;
  bs_get := MemBlobStore_get;
  bs_contains := MemBlobStore_contains;
|}.

Lemma mem_put_cases bytes s r s' :
  MemBlobStore_put bytes s = (r, s') →
  (inner s !! blake3 bytes = None ∧ r = Ok (blake3 bytes) ∧
   inner s' = <[blake3 bytes := bytes]> (inner s))
  ∨ (s' = s ∧ ((∃ v, r = Ok (blake3 bytes) ∧ MemBlobStore_get s (blake3 bytes) = Ok (Some v))
               ∨ (r = Err IntegrityViolation ∧
                  MemBlobStore_get s (blake3 bytes) = Err IntegrityViolation))).
Proof.
  unfold MemBlobStore_put, MemBlobStore_get, content_hash. intros E.
  destruct (inner s !! blake3 bytes) as [v|]; [|by simplify_eq; left].
  right. repeat case_match; simplify_eq; eauto.
Qed.

Lemma MemBlobStore_laws : BlobStoreLaws (H0 := MemBlobStore_store) MemBlobStore.
Proof.
  split; cbn [bs_put bs_get MemBlobStore_store].
  - unfold MemBlobStore_get, content_hash. intros s h v E.
    repeat case_match; simplify_eq. by eapply bool_decide_eq_true_1.
  - intros v s h s' E.
    by destruct (mem_put_cases _ _ _ _ E) as [(_&[= ->]&_)|[_ [(?&[= ->]&_)|[? _]]]].
  - intros v s h s' E.
    destruct (mem_put_cases _ _ _ _ E) as [(_&[= ->]&L)|[-> [(?&[= ->]&?)|[? _]]]]; eauto; [|done].
    exists v. unfold MemBlobStore_get, content_hash. rewrite L, lookup_insert_eq.
    by rewrite bool_decide_true.
  - intros v s r s' h w E G.
    destruct (mem_put_cases _ _ _ _ E) as [(A&_&L)|[-> _]]; [|done].
    unfold MemBlobStore_get in *. rewrite L.
    destruct (decide (h = blake3 v)) as [->|]; [by rewrite A in G|].
    by rewrite lookup_insert_ne.
  - intros v s r s' h E Hn.
    destruct (mem_put_cases _ _ _ _ E) as [(A&_&L)|[-> _]]; [|done].
    unfold MemBlobStore_get in *. rewrite L. by rewrite lookup_insert_ne.
Qed.
End mem_blob_store.

(** ** Sweeping stale temp files *)

(** What [read_dir] and [metadata] report, in the order the system lists it.
    A name that is not UTF-8 is [None]; so is a modification time the system
    cannot give. *)
Record dir_entry := { de_name : option string; de_mtime : option Z }.
Record root_entry := {
  re_name : option string;
  re_is_dir : bool;
  re_listing : option (list dir_entry);
}.

(** [SweepReport]; an error keeps the path it is about. *)
Record SweepReport := { removed_paths : list path; sweep_errors : list path }.
Definition SweepReport_default : SweepReport := {| removed_paths := []; sweep_errors := [] |}.
(** [SweepReport::removed] and [SweepReport::is_clean] *)
Definition SweepReport_removed (r : SweepReport) : N := len (removed_paths r).
Definition SweepReport_is_clean (r : SweepReport) : bool :=
  bool_decide (removed_paths r = []) && bool_decide (sweep_errors r = []).

Definition report_error (p : path) (r : SweepReport) : SweepReport :=
  {| removed_paths := removed_paths r; sweep_errors := sweep_errors r ++ [p] |}.
Definition report_removed (p : path) (r : SweepReport) : SweepReport :=
  {| removed_paths := removed_paths r ++ [p]; sweep_errors := sweep_errors r |}.

(** [char::is_ascii_hexdigit] *)
Definition is_ascii_hexdigit (c : Ascii.ascii) : bool :=
  let n := Ascii.N_of_ascii c in
  ((48 <=? n) && (n <=? 57)) || ((65 <=? n) && (n <=? 70)) || ((97 <=? n) && (n <=? 102)).

Fixpoint string_forallb (f : Ascii.ascii → bool) (s : string) : bool :=
  match s with EmptyString => true | String c s => f c && string_forallb f s end.

(** Which root entries [put] could have created: two-hex-digit directories. *)
Definition is_bucket (name : string) : bool :=
  (N.of_nat (String.length name) =? 2) && string_forallb is_ascii_hexdigit name.

Section sweep.
Variables (now threshold : Z) (remove_ok : path → bool).

(** [now.duration_since(mtime)], zero when the clock went backwards. *)
Definition age (mtime : Z) : Z := Z.max 0 (now - mtime).

(** One iteration of the inner loop. *)
Definition sweep_entry (bucket : string) (e : dir_entry)
    (acc : SweepReport * gmap path fs_entry) : SweepReport * gmap path fs_entry :=
  match de_name e with
  | None => acc
  | Some name =>
      if negb (String.prefix ".tmp-" name) then acc else
      let p := (bucket, name) in
      match de_mtime e with
      | None => (report_error p (fst acc), snd acc)
      | Some mtime =>
          if (age mtime <? threshold)%Z then acc else
          if remove_ok p then (report_removed p (fst acc), delete p (snd acc))
          else (report_error p (fst acc), snd acc)
      end
  end.

(** One iteration of the outer loop. *)
Definition sweep_bucket (acc : SweepReport * gmap path fs_entry) (b : root_entry)
    : SweepReport * gmap path fs_entry :=
  if negb (re_is_dir b) then acc else
  match re_name b with
  | None => acc
  | Some bucket =>
      if negb (is_bucket bucket) then acc else
      match re_listing b with
      | None => acc
      | Some entries => foldl (λ acc e, sweep_entry bucket e acc) acc entries
      end
  end.

(** [FsBlobStore::sweep_stale_temps]; [None]: the root cannot be listed. *)
Definition FsBlobStore_sweep_stale_temps (root : option (list root_entry))
    (s : FsBlobStore) : SweepReport * FsBlobStore :=
  match root with
  | None => (SweepReport_default, s)
  | Some buckets =>
      let '(report, files) := foldl sweep_bucket (SweepReport_default, fs_files s) buckets in
      (report, fs_with_files files s)
  end.

(** What every step of the sweep keeps true: only listed temp files old
    enough are gone, and the report names exactly what is gone. *)
Definition sweep_inv (files0 : gmap path fs_entry) (old : path → Prop)
    (acc : SweepReport * gmap path fs_entry) : Prop :=
  (∀ p, p ∈ removed_paths (fst acc) → String.prefix ".tmp-" (snd p) = true ∧ old p)
  ∧ ∀ p, snd acc !! p = (if bool_decide (p ∈ removed_paths (fst acc)) then None else files0 !! p).

Lemma sweep_entry_inv files0 (old : path → Prop) bucket e acc :
  (∀ name m, de_name e = Some name → de_mtime e = Some m →
     (threshold ≤ age m)%Z → old (bucket, name)) →
  sweep_inv files0 old acc → sweep_inv files0 old (sweep_entry bucket e acc).
Proof.
  intros Hold [H1 H2]. unfold sweep_entry. repeat case_match; try done.
  split; cbn [fst snd removed_paths report_removed].
  - intros p [? | ->%list_elem_of_singleton]%elem_of_app; [by apply H1|].
    split; [by apply negb_false_iff|]. eapply Hold; [done..|].
    rewrite Z.ltb_ge in *. lia.
  - intros p. rewrite lookup_delete, H2. case_decide as Hd.
    + subst. rewrite bool_decide_true; [done|set_solver].
    + do 2 case_bool_decide; set_solver.
Qed.

(** A listed temp file whose age has reached the threshold. *)
Definition stale (buckets : list root_entry) (p : path) : Prop :=
  ∃ b l e m, b ∈ buckets ∧ re_name b = Some (fst p) ∧ re_listing b = Some l ∧
    e ∈ l ∧ de_name e = Some (snd p) ∧ de_mtime e = Some m ∧ (threshold ≤ age m)%Z.

Lemma sweep_bucket_inv files0 buckets b acc :
  b ∈ buckets → sweep_inv files0 (stale buckets) acc →
  sweep_inv files0 (stale buckets) (sweep_bucket acc b).
Proof.
  intros Hb Hi. unfold sweep_bucket.
  destruct (negb (re_is_dir b)); [done|].
  destruct (re_name b) as [bucket|] eqn:En; [|done].
  destruct (negb (is_bucket bucket)); [done|].
  destruct (re_listing b) as [l|] eqn:El; [|done].
  enough (∀ k, k ⊆ l → sweep_inv files0 (stale buckets)
            (foldl (λ acc e, sweep_entry bucket e acc) acc k)) as Hk by by apply Hk.
  intros k. revert acc Hi.
  induction k as [|e k IH]; intros acc Hi Hk; simpl; [done|].
  apply IH; [|set_solver]. apply sweep_entry_inv; [|done].
  intros name m Hn Hm Ha. exists b, l, e, m. cbn [fst snd]. set_solver.
Qed.

Lemma sweep_fold_inv files0 buckets k acc :
  k ⊆ buckets → sweep_inv files0 (stale buckets) acc →
  sweep_inv files0 (stale buckets) (foldl sweep_bucket acc k).
Proof.
  revert acc. induction k as [|b k IH]; intros acc Hk Hi; simpl; [done|].
  apply IH; [set_solver|]. apply sweep_bucket_inv; [set_solver|done].
Qed.

Lemma sweep_stale_temps_inv root s :
  sweep_inv (fs_files s) (stale (default [] root))
    (fst (FsBlobStore_sweep_stale_temps root s),
     fs_files (snd (FsBlobStore_sweep_stale_temps root s))).
Proof.
  unfold FsBlobStore_sweep_stale_temps. destruct root as [buckets|]; simpl.
  - assert (sweep_inv (fs_files s) (stale buckets) (SweepReport_default, fs_files s)) as Hi.
    { split; simpl; [set_solver|]. done. }
    apply (sweep_fold_inv _ _ buckets) in Hi; [|done]. by destruct (foldl _ _ _).
  - split; simpl; [set_solver|done].
Qed.

(** The sweep removes only stale temporaries.  Every path it reports
    removed is a [.tmp-] file older than the threshold, every other file is
    exactly as it was, and every address reads back the same before and after. *)
Theorem sweep_keeps_blobs_and_fresh_temps root s :
  let '(report, s') := FsBlobStore_sweep_stale_temps root s in
  (∀ p, p ∈ removed_paths report →
     String.prefix ".tmp-" (snd p) = true ∧ stale (default [] root) p) ∧
  (∀ p, fs_files s' !! p =
     (if bool_decide (p ∈ removed_paths report) then None else fs_files s !! p)) ∧
  (∀ `{Blake3} h, FsBlobStore_get s' h = FsBlobStore_get s h).
Proof.
  pose proof (sweep_stale_temps_inv root s) as [H1 H2].
  destruct (FsBlobStore_sweep_stale_temps root s) as [report s']; simpl in *.
  split_and!; [done..|]. intros ? h. apply fs_get_lookup.
  rewrite H2. case_bool_decide as Hd; [|done].
  apply H1 in Hd as [Hd _]. by rewrite path_for_not_temp in Hd.
Qed.

End sweep.

(** ** Properties of [put] *)

(** [put] is atomic under any failing call.  At every address the store
    holds afterwards what it held, or the whole new blob where there was none;
    a success returns the hash of the bytes and the blob then reads back and
    verifies; and with no failing call and a free temporary name it succeeds. *)
Theorem fs_put_crash_atomic `{Blake3} ft bytes s h' :
  let '(r, s') := FsBlobStore_put ft bytes s in
  (fs_files s' !! FsBlobStore_path_for h' = fs_files s !! FsBlobStore_path_for h'
   ∨ (h' = blake3 bytes ∧ fs_files s !! FsBlobStore_path_for h' = None
      ∧ fs_files s' !! FsBlobStore_path_for h' = Some (File bytes)))
  ∧ (∀ h, r = Ok h → h = blake3 bytes ∧
       ∃ v, FsBlobStore_get s' h = Ok (Some v) ∧ blake3 v = h)
  ∧ (ft = NoFault →
     (∀ e, FsBlobStore_get s (blake3 bytes) ≠ Err e) →
     fs_exists s (fst (FsBlobStore_path_for (blake3 bytes)),
                  tmp_name (fs_pid s) (fs_nonce s) (blake3 bytes)) = false →
     r = Ok (blake3 bytes)).
Proof.
  destruct (FsBlobStore_put ft bytes s) as [r s'] eqn:E.
  pose proof (FsBlobStore_laws ft) as L. split_and!.
  - destruct (fs_put_cases _ _ _ _ _ E) as [[Ex W]|[-> _]]; [|by left].
    unfold fs_exists in Ex. apply bool_decide_eq_false_1, eq_None_not_Some in Ex.
    destruct (fs_write_temp_lookup _ _ _ _ _ _ W) as [(_&Hf&Ho)|[_ Ho]]; [|by left].
    destruct (decide (h' = blake3 bytes)) as [->|Hn]; [by right|left; by apply Ho].
  - intros h ->. destruct (bs_put_present (BlobStoreLaws := L) _ _ _ _ E) as [v G].
    pose proof (bs_put_hash (BlobStoreLaws := L) _ _ _ _ E) as ->.
    pose proof (fs_get_verified _ _ _ G). by eauto.
  - intros -> Hne Hx. destruct (fs_put_cases _ _ _ _ _ E) as [[_ W]|[-> [(?&->&_)|(e&_&G)]]]; [|done|].
    + revert W. unfold fs_write_temp_and_rename. rewrite bool_decide_false by done.
      rewrite bool_decide_false by done. unfold fs_exists in *. cbn [fs_files orb] in *.
      rewrite Hx. by intros [= <- _].
    + by destruct (Hne e).
Qed.
