(* ===== verification/Layout.v ===== *)
(** * The double-buffered arena

    [rs/ll-core/core/src/layout.rs].  An arena file is a 4096-byte header page
    and two equal buffers; a writer fills the inactive one and then flips the
    header.  The mapping is the list of the file's bytes; every store the
    source makes is a [store], so a crash can be placed between any two
    bytes. *)

From S2P Require Import Prelude.
From Stdlib Require Import NArith Lia.
Local Open Scope N_scope.

(** ** The header *)

(** [#[repr(C)] struct ArenaHeader]. *)
Record ArenaHeader := {
  magic : N;          (* u32 *)
  version : N;        (* u8 *)
  active_buffer : N;  (* u8 *)
  padding : list byte;  (* [u8; 2] *)
  sequence : N;       (* u64 *)
  data_size : N;      (* u64 *)
}.

Definition MAGIC : N := 1279613232.   (* 0x4C455930, "LEY0" *)
Definition VERSION : N := 2.
Definition HEADER_SIZE : N := 4096.
(** [size_of::<ArenaHeader>()] *)
Definition HEADER_BYTES : N := 24.

(** [bytemuck::bytes_of] under [#[repr(C)]] on a little-endian target. *)
Definition header_to_bytes (h : ArenaHeader) : list byte :=
  u32_le (magic h) ++ le_bytes 1 (version h) ++ le_bytes 1 (active_buffer h)
  ++ padding h ++ u64_le (sequence h) ++ u64_le (data_size h).

(** [*bytemuck::from_bytes(&l[..24])] *)
Definition header_of_bytes (l : list byte) : ArenaHeader := {|
  magic := le_value (slice 0 4 l);
  version := le_value (slice 4 5 l);
  active_buffer := le_value (slice 5 6 l);
  padding := slice 6 8 l;
  sequence := le_value (slice 8 16 l);
  data_size := le_value (slice 16 24 l);
|}.

(** [ArenaHeader::buffer_size] *)
Definition buffer_size (file_size : N) : N := (file_size - HEADER_SIZE) / 2.

(** [ArenaHeader::active_buffer_offset] *)
Definition active_buffer_offset (h : ArenaHeader) (file_size : N) : option N :=
  if negb (magic h =? MAGIC) || negb (version h =? VERSION)
     || (1 <? active_buffer h) || (file_size <? HEADER_SIZE)
  then None
  else Some (HEADER_SIZE + active_buffer h * buffer_size file_size).

Inductive ArenaHeaderError :=
| BadMagic (m : N)
| VersionMismatch (file expected : N)
| BadActiveBuffer (b : N)
| TruncatedFile (file_size : N).

(** [ArenaHeader::validate_header] *)
Definition validate_header (h : ArenaHeader) (file_size : N) : result ArenaHeaderError N :=
  if negb (magic h =? MAGIC) then Err (BadMagic (magic h)) else
  if negb (version h =? VERSION) then Err (VersionMismatch (version h) VERSION) else
  if 1 <? active_buffer h then Err (BadActiveBuffer (active_buffer h)) else
  if file_size <? HEADER_SIZE then Err (TruncatedFile file_size) else
  Ok (HEADER_SIZE + active_buffer h * buffer_size file_size).

(** ** Stores into a mapping *)

(** [mapping[fst st..][..len (snd st)].copy_from_slice(snd st)] *)
Definition store : Type := N * list byte.

Definition store_fits (st : store) (m : list byte) : bool :=
  fst st + len (snd st) <=? len m.

Definition do_store (m : list byte) (st : store) : list byte := splice (fst st) (snd st) m.

Inductive layout_error :=
| DbTooLarge (need have : N)
| FlushFailed
| GrowRefusedErr
| LayoutIo.

(** Stores in program order; a slice out of range panics there and leaves the
    earlier stores in the mapping. *)
Fixpoint run_stores (ss : list store) (m : list byte) : result layout_error unit * list byte :=
  match ss with
  | [] => (Ok tt, m)
  | st :: ss => if store_fits st m then run_stores ss (do_store m st) else (Panic, m)
  end.

(** The same stores one byte at a time: what a mapping can look like when the
    writer dies. *)
Definition byte_stores (st : store) : list store :=
  imap (λ i b, (fst st + N.of_nat i, [b])) (snd st).

(** ** Writing an image *)

(** The header a completed write leaves. *)
Definition next_header (h : ArenaHeader) (pending data_len : N) : ArenaHeader := {|
  magic := MAGIC; version := VERSION; active_buffer := pending;
  padding := [x00; x00];
  sequence := wadd64 (sequence h) 1; data_size := data_len;
|}.

(** The buffer the next image goes to. *)
Definition pending_buffer (h : ArenaHeader) : N := if active_buffer h =? 0 then 1 else 0.

(** The two buffer stores of [write_to_arena]: the image, then the zero
    padding. *)
Definition image_stores (h : ArenaHeader) (file_size : N) (data : list byte) : list store :=
  let buf_size := buffer_size file_size in
  let offset := HEADER_SIZE + pending_buffer h * buf_size in
  [(offset, data); (offset + len data, replicate (N.to_nat (buf_size - len data)) x00)].

Definition header_store (h : ArenaHeader) (data_len : N) : store :=
  (0, header_to_bytes (next_header h (pending_buffer h) data_len)).

(** Every store of [write_to_arena] into the mapping, in program order. *)
Definition write_stores (m data : list byte) : list store :=
  let header := header_of_bytes (takeN HEADER_BYTES m) in
  image_stores header (len m) data ++ [header_store header (len data)].

(** [write_to_arena]; [flush_ok]: whether [mmap.flush()] succeeds. *)
Definition write_to_arena (flush_ok : bool) (m data : list byte)
    : result layout_error unit * list byte :=
  let file_size := len m in
  let buf_size := buffer_size file_size in
  if negb (len data <=? buf_size) then (Err (DbTooLarge (len data) buf_size), m) else
  if negb (HEADER_BYTES <=? file_size) then (Panic, m) else
  match run_stores (write_stores m data) m with
  | (Ok _, m') => ((if flush_ok then Ok tt else Err FlushFailed), m')
  | (r, m') => (r, m')
  end.

(** [File::set_len]: truncate or extend with zeros. *)
Definition set_len (n : N) (l : list byte) : list byte :=
  takeN n l ++ replicate (N.to_nat (n - len l)) x00.

(** [create_arena] on a file with content [old] (empty when it did not
    exist), its I/O succeeding. *)
Definition create_arena (old : list byte) (arena_size : N)
    : result layout_error unit * list byte :=
  let m := set_len arena_size old in
  if negb (4 <=? len m) then (Panic, m) else
  if le_value (takeN 4 m) =? 0 then
    let header := {| magic := MAGIC; version := VERSION; active_buffer := 0;
                     padding := [x00; x00]; sequence := 0; data_size := 0 |} in
    run_stores [(0, header_to_bytes header)] m
  else (Ok tt, m).

(** ** Growing *)

Definition GROW_FREE_MARGIN : N := 1073741824.

Inductive GrowRefused :=
| BeyondImageBound (target bound : N)
| BeyondFreeSpace (target available : N).

Definition max_grown_arena_size (data_len : N) : N :=
  let min_buffer := 1048576 in
  let buffer := sat_add (sat_mul data_len 2) min_buffer in
  sat_add HEADER_SIZE (sat_mul buffer 2).

Definition grow_refusal (target data_len : N) (available : option N) : option GrowRefused :=
  let bound := max_grown_arena_size data_len in
  if bound <? target then Some (BeyondImageBound target bound) else
  match available with
  | Some available =>
      if available <? sat_add target GROW_FREE_MARGIN
      then Some (BeyondFreeSpace target available) else None
  | None => None
  end.

(** The two files [write_grown_arena] touches. *)
Record grow_fs := { arena_file : option (list byte); grow_file : option (list byte) }.

(** The step of [write_grown_arena] whose system call fails. *)
Inductive grow_fault :=
| GrowNoFault | GrowOpen | GrowSetLen | GrowMap | GrowFlush | GrowSync | GrowRename | GrowDirSync.

#[global] Instance grow_fault_eq_dec : EqDecision grow_fault.
Proof. solve_decision. Defined.

(** The sequence the new arena continues from.  The 24 header bytes are read
    into a byte array, which has alignment 1; [bytemuck::from_bytes] panics
    when it does not happen to lie on an 8-byte boundary ([aligned]). *)
Definition grown_sequence (aligned : bool) (old : option (list byte)) : result layout_error N :=
  match old with
  | Some bytes =>
      if HEADER_BYTES <=? len bytes then
        if aligned then
          let header := header_of_bytes (takeN HEADER_BYTES bytes) in
          Ok (if magic header =? MAGIC then sequence header else 0)
        else Panic
      else Ok 0
  | None => Ok 0
  end.

Definition write_grown_arena (ft : grow_fault) (aligned : bool) (available : option N)
    (arena_size : N) (data : list byte) (fs : grow_fs) : result layout_error unit * grow_fs :=
  match grow_refusal arena_size (len data) available with
  | Some _ => (Err GrowRefusedErr, fs)
  | None =>
  match grown_sequence aligned (arena_file fs) with
  | Err e => (Err e, fs)
  | Panic => (Panic, fs)
  | Ok seq =>
  if bool_decide (ft = GrowOpen) then (Err LayoutIo, fs) else
  let tmp c := {| arena_file := arena_file fs; grow_file := Some c |} in
  if bool_decide (ft = GrowSetLen) then (Err LayoutIo, tmp []) else
  let m := set_len arena_size [] in
  if bool_decide (ft = GrowMap) then (Err LayoutIo, tmp m) else
  let header := {| magic := MAGIC; version := VERSION; active_buffer := 0;
                   padding := [x00; x00]; sequence := seq; data_size := 0 |} in
  match run_stores [(0, header_to_bytes header)] m with
  | (Ok _, m1) =>
      match write_to_arena (bool_decide (ft ≠ GrowFlush)) m1 data with
      | (Ok _, m2) =>
          if bool_decide (ft = GrowSync) || bool_decide (ft = GrowRename)
          then (Err LayoutIo, tmp m2) else
          let done_fs := {| arena_file := Some m2; grow_file := None |} in
          if bool_decide (ft = GrowDirSync) then (Err LayoutIo, done_fs) else (Ok tt, done_fs)
      | (r, m2) => (r, tmp m2)
      end
  | (r, m1) => (r, tmp m1)
  end
  end
  end.

(** ** Reading an image back *)

(** What a reader that validates the header sees as the published image:
    [validate_header], the [data_size] bound, and [buf[..data_size]], as
    [from_arena] in [rs/ll-open/fs/src/lib.rs] composes them. *)
Definition arena_image (m : list byte) : option (list byte) :=
  if negb (HEADER_BYTES <=? len m) then None else
  let header := header_of_bytes (takeN HEADER_BYTES m) in
  match validate_header header (len m) with
  | Ok offset =>
      if data_size header <=? buffer_size (len m)
      then Some (slice offset (offset + data_size header) m)
      else None
  | _ => None
  end.

(** A header whose fields fit their widths. *)
Definition header_wf (h : ArenaHeader) : Prop :=
  magic h ≤ u32_max ∧ version h ≤ u8_max ∧ active_buffer h ≤ u8_max ∧
  length (padding h) = 2%nat ∧ sequence h ≤ u64_max ∧ data_size h ≤ u64_max.

(** The same stores byte by byte, and the mapping a writer that dies after [k]
    of them leaves. *)
Definition write_byte_stores (m data : list byte) : list store :=
  mjoin (byte_stores <$> write_stores m data).
Definition crashed_write (k : nat) (m data : list byte) : list byte :=
  foldl do_store m (take k (write_byte_stores m data)).

(** ** Lemmas on headers and stores *)

Lemma header_of_to_bytes h : header_wf h → header_of_bytes (header_to_bytes h) = h.
Proof.
  intros (Hm & Hv & Ha & Hp & Hs & Hd). destruct h as [m v a p s d]; simpl in *.
  destruct p as [|p0 [|p1 [|]]]; try done.
  unfold header_of_bytes, header_to_bytes; simpl.
  unfold u32_max, u8_max, u64_max in *. f_equal.
  - change (le_value (u32_le m) = m). unfold u32_le.
    rewrite le_value_le_bytes. apply N.mod_small. cbn. lia.
  - change (le_value (le_bytes 1 v) = v).
    rewrite le_value_le_bytes. apply N.mod_small. cbn. lia.
  - change (le_value (le_bytes 1 a) = a).
    rewrite le_value_le_bytes. apply N.mod_small. cbn. lia.
  - change (le_value (u64_le s) = s). by apply u64_le_value.
  - change (le_value (u64_le d) = d). by apply u64_le_value.
Qed.

Lemma len_header_to_bytes h : length (padding h) = 2%nat → len (header_to_bytes h) = HEADER_BYTES.
Proof.
  intros Hp. unfold header_to_bytes, u32_le, u64_le.
  rewrite !len_app, !len_le_bytes. unfold len. rewrite Hp. done.
Qed.

Lemma next_header_wf h p n : p ≤ 1 → n ≤ u64_max → header_wf (next_header h p n).
Proof.
  unfold header_wf, next_header; simpl. intros.
  pose proof (wadd64_bound (sequence h) 1).
  unfold MAGIC, VERSION, u32_max, u8_max. split_and!; done || lia.
Qed.

Lemma pending_le_1 h : pending_buffer h ≤ 1.
Proof. unfold pending_buffer. case_match; lia. Qed.

Lemma validate_header_Ok h n off :
  validate_header h n = Ok off ↔
  magic h = MAGIC ∧ version h = VERSION ∧ active_buffer h ≤ 1 ∧ HEADER_SIZE ≤ n ∧
  off = HEADER_SIZE + active_buffer h * buffer_size n.
Proof.
  unfold validate_header.
  destruct (N.eqb_spec (magic h) MAGIC), (N.eqb_spec (version h) VERSION),
    (N.ltb_spec 1 (active_buffer h)), (N.ltb_spec n HEADER_SIZE); simpl;
    (split; [intros; simplify_eq; split_and!; done || lia|intros (?&?&?&?&->); done || lia]).
Qed.

Lemma buffer_size_twice n : HEADER_SIZE ≤ n → HEADER_SIZE + 2 * buffer_size n ≤ n.
Proof.
  intros. unfold buffer_size, HEADER_SIZE in *.
  pose proof (N.Div0.mul_div_le (n - 4096) 2). lia.
Qed.

(** A store lies inside the mapping and does not meet [a..b]. *)
Definition avoids (a b n : N) (st : store) : Prop :=
  fst st + len (snd st) ≤ n ∧ (b ≤ fst st ∨ fst st + len (snd st) ≤ a).

Lemma do_store_len m st : fst st + len (snd st) ≤ len m → len (do_store m st) = len m.
Proof. apply len_splice. Qed.

Lemma slice_do_store_avoids a b m st :
  avoids a b (len m) st → slice a b (do_store m st) = slice a b m.
Proof.
  intros [? [?|?]]; unfold do_store.
  - apply slice_splice_before; lia.
  - apply slice_splice_after; lia.
Qed.

Lemma foldl_do_store_len m ss :
  Forall (λ st, fst st + len (snd st) ≤ len m) ss → len (foldl do_store m ss) = len m.
Proof.
  revert m. induction ss as [|st ss IH]; intros m Hf; simpl; [done|].
  apply Forall_cons in Hf as [H1 H2].
  rewrite IH; rewrite do_store_len by done; done.
Qed.

Lemma foldl_do_store_avoids a b m ss :
  Forall (avoids a b (len m)) ss → slice a b (foldl do_store m ss) = slice a b m.
Proof.
  revert m. induction ss as [|st ss IH]; intros m Hf; simpl; [done|].
  apply Forall_cons in Hf as [H1 H2].
  rewrite IH; [by apply slice_do_store_avoids|].
  rewrite do_store_len; [done|apply H1].
Qed.

Lemma run_stores_ok ss m :
  Forall (λ st, fst st + len (snd st) ≤ len m) ss →
  run_stores ss m = (Ok tt, foldl do_store m ss).
Proof.
  revert m. induction ss as [|st ss IH]; intros m Hf; simpl; [done|].
  apply Forall_cons in Hf as [H1 H2].
  unfold store_fits. rewrite (proj2 (N.leb_le _ _)) by done.
  apply IH. by rewrite do_store_len.
Qed.

(** Writing a store byte by byte is writing it. *)
Lemma foldl_byte_stores m off data :
  off + len data ≤ len m → foldl do_store m (byte_stores (off, data)) = do_store m (off, data).
Proof.
  revert m off. induction data as [|b data IH] using rev_ind; intros m off Hl.
  - unfold byte_stores, do_store, splice; simpl. rewrite len_nil, N.add_0_r.
    symmetry. apply takeN_dropN.
  - unfold byte_stores in *; simpl in *. rewrite len_app in Hl. rewrite imap_app, foldl_app, IH.
    2: { lia. }
    simpl. rewrite Nat.add_0_r. fold (len data). unfold do_store; simpl.
    unfold splice. change (len [b]) with 1 in *.
    rewrite (takeN_app_r _ (takeN off m)) by len_lia.
    rewrite (takeN_app_l _ data) by len_lia.
    rewrite (takeN_ge _ data) by len_lia.
    rewrite <- !app_assoc. do 2 f_equal.
    rewrite (dropN_app_r _ (takeN off m)) by len_lia.
    rewrite (dropN_app_r _ data) by len_lia. rewrite dropN_dropN.
    f_equal. f_equal. autorewrite with ley_len. change (len [b]) with 1. lia.
Qed.

Lemma foldl_all_byte_stores ss m :
  Forall (λ st, fst st + len (snd st) ≤ len m) ss →
  foldl do_store m (mjoin (byte_stores <$> ss)) = foldl do_store m ss.
Proof.
  revert m. induction ss as [|[off data] ss IH]; intros m Hf; [done|].
  apply Forall_cons in Hf as [H1 H2]. rewrite fmap_cons. simpl. rewrite foldl_app.
  rewrite foldl_byte_stores by done. apply IH. by rewrite do_store_len.
Qed.

(** ** Writing into the pending buffer *)

Definition pending_offset (m : list byte) : N :=
  HEADER_SIZE
  + pending_buffer (header_of_bytes (takeN HEADER_BYTES m)) * buffer_size (len m).

Lemma pending_fits m :
  HEADER_SIZE ≤ len m → pending_offset m + buffer_size (len m) ≤ len m.
Proof.
  intros Hm. unfold pending_offset.
  pose proof (pending_le_1 (header_of_bytes (takeN HEADER_BYTES m))).
  pose proof (buffer_size_twice (len m) Hm). nia.
Qed.

(** Every buffer store stays inside the pending buffer. *)
Lemma image_stores_pending m data :
  len data ≤ buffer_size (len m) →
  Forall (λ st, pending_offset m ≤ fst st ∧
                fst st + len (snd st) ≤ pending_offset m + buffer_size (len m))
    (image_stores (header_of_bytes (takeN HEADER_BYTES m)) (len m) data).
Proof.
  intros Hd. unfold image_stores. fold (pending_offset m).
  repeat constructor; simpl; try lia.
  unfold len at 2. rewrite length_replicate. lia.
Qed.

Lemma byte_stores_within lo hi st :
  lo ≤ fst st → fst st + len (snd st) ≤ hi →
  Forall (λ st', lo ≤ fst st' ∧ fst st' + len (snd st') ≤ hi) (byte_stores st).
Proof.
  intros Hlo Hhi. apply Forall_lookup_2. intros i st' Hi.
  unfold byte_stores in Hi. rewrite list_lookup_imap in Hi.
  destruct (snd st !! i) as [b|] eqn:Hb; [|done]. simplify_eq/=.
  apply lookup_lt_Some in Hb. unfold len in *. simpl. lia.
Qed.

(** Up to the last byte of padding, only the pending buffer is stored to. *)
Lemma crashed_stores_pending m data k :
  len data ≤ buffer_size (len m) → N.of_nat k ≤ buffer_size (len m) →
  Forall (λ st, pending_offset m ≤ fst st ∧
                fst st + len (snd st) ≤ pending_offset m + buffer_size (len m))
    (take k (write_byte_stores m data)).
Proof.
  intros Hd Hk. unfold write_byte_stores, write_stores.
  pose proof (image_stores_pending m data Hd) as Hf. revert Hf. unfold image_stores.
  cbn [app]. rewrite !fmap_cons, fmap_nil. cbn [mjoin list_join]. rewrite app_nil_r, app_assoc. intros Hf.
  apply Forall_cons in Hf as [[H1 H2] Hf]. apply Forall_cons in Hf as [[H3 H4] _].
  rewrite take_app_le; [apply Forall_take, Forall_app; split; by apply byte_stores_within|].
  rewrite length_app. unfold byte_stores. rewrite !length_imap. cbn [snd]. rewrite length_replicate.
  unfold len in *. lia.
Qed.

(** Stores into the pending buffer leave the header page and the other buffer
    alone. *)
Lemma pending_stores_avoid m ss :
  HEADER_SIZE ≤ len m →
  Forall (λ st, pending_offset m ≤ fst st ∧
                fst st + len (snd st) ≤ pending_offset m + buffer_size (len m)) ss →
  Forall (avoids 0 HEADER_SIZE (len m)) ss ∧
  (active_buffer (header_of_bytes (takeN HEADER_BYTES m)) ≤ 1 →
   let off := HEADER_SIZE
     + active_buffer (header_of_bytes (takeN HEADER_BYTES m)) * buffer_size (len m) in
   Forall (avoids off (off + buffer_size (len m)) (len m)) ss).
Proof.
  intros Hm Hf. pose proof (pending_fits m Hm) as Hp. split; [|intros Ha off];
    (eapply Forall_impl; [exact Hf|]); intros st [H1 H2]; (split; [lia|]).
  - left. unfold pending_offset in *. lia.
  - unfold off, pending_offset, pending_buffer in *.
    destruct (N.eqb_spec (active_buffer (header_of_bytes (takeN HEADER_BYTES m))) 0) as [->|];
      [left; lia|right].
    replace (active_buffer (header_of_bytes (takeN HEADER_BYTES m))) with 1 by lia. lia.
Qed.

Lemma takeN_header_slice (m : list byte) : takeN HEADER_BYTES m = slice 0 HEADER_BYTES m.
Proof. unfold slice. by rewrite dropN_0, N.sub_0_r. Qed.

Lemma slice_sub_eq {A} a b lo hi (m m' : list A) :
  a ≤ lo → hi ≤ b → slice a b m' = slice a b m → slice lo hi m' = slice lo hi m.
Proof.
  intros Ha Hb E. destruct (N.le_gt_cases hi lo) as [Hl|Hl].
  { unfold slice. replace (hi - lo) with 0 by lia. done. }
  apply (f_equal (slice (lo - a) (hi - a))) in E.
  rewrite !slice_slice in E by lia.
  by replace (a + (lo - a)) with lo in E by lia; replace (a + (hi - a)) with hi in E by lia.
Qed.

(** A reader's image depends only on the header page and the active buffer. *)
Lemma arena_image_avoids m ss :
  HEADER_SIZE ≤ len m →
  Forall (λ st, pending_offset m ≤ fst st ∧
                fst st + len (snd st) ≤ pending_offset m + buffer_size (len m)) ss →
  arena_image (foldl do_store m ss) = arena_image m.
Proof.
  intros Hm Hf. destruct (pending_stores_avoid m ss Hm Hf) as [Hh Ho].
  assert (len (foldl do_store m ss) = len m) as Hl.
  { apply foldl_do_store_len. eapply Forall_impl; [exact Hh|]. by intros st [? _]. }
  assert (takeN HEADER_BYTES (foldl do_store m ss) = takeN HEADER_BYTES m) as Ht.
  { rewrite !takeN_header_slice. eapply slice_sub_eq; [..|by apply foldl_do_store_avoids]; done. }
  unfold arena_image. rewrite Hl, Ht. case_match; [done|].
  destruct (validate_header _ _) as [off|e|] eqn:V; [|done..].
  apply validate_header_Ok in V as (_&_&Ha&_&->).
  case_match eqn:E; [|done]. apply N.leb_le in E. f_equal.
  eapply slice_sub_eq; [done| |apply foldl_do_store_avoids, Ho, Ha]. lia.
Qed.

Lemma image_stores_fit m data :
  HEADER_SIZE ≤ len m → len data ≤ buffer_size (len m) →
  Forall (λ st, fst st + len (snd st) ≤ len m)
    (write_stores m data).
Proof.
  intros Hm Hd. unfold write_stores. apply Forall_app. split.
  - eapply Forall_impl; [by apply image_stores_pending|].
    intros st [_ ?]. pose proof (pending_fits m Hm). lia.
  - repeat constructor. simpl. rewrite len_header_to_bytes by done.
    unfold HEADER_BYTES, HEADER_SIZE in *. lia.
Qed.

Lemma write_to_arena_run flush_ok m data :
  HEADER_SIZE ≤ len m → len data ≤ buffer_size (len m) →
  write_to_arena flush_ok m data =
    (if flush_ok then Ok tt else Err FlushFailed,
     do_store (foldl do_store m (image_stores (header_of_bytes (takeN HEADER_BYTES m)) (len m) data))
       (header_store (header_of_bytes (takeN HEADER_BYTES m)) (len data))).
Proof.
  intros Hm Hd. unfold write_to_arena.
  rewrite (proj2 (N.leb_le (len data) _)) by done.
  rewrite (proj2 (N.leb_le HEADER_BYTES _)) by (unfold HEADER_BYTES, HEADER_SIZE in *; lia).
  cbn [negb]. rewrite run_stores_ok by by apply image_stores_fit.
  unfold write_stores. by rewrite foldl_app.
Qed.

Lemma written_header m data :
  HEADER_SIZE ≤ len m → len m ≤ u64_max → len data ≤ buffer_size (len m) →
  header_of_bytes (takeN HEADER_BYTES (snd (write_to_arena true m data)))
  = next_header (header_of_bytes (takeN HEADER_BYTES m))
      (pending_buffer (header_of_bytes (takeN HEADER_BYTES m))) (len data).
Proof.
  intros Hm Hu Hd. rewrite write_to_arena_run by done. cbn [snd].
  set (h := header_of_bytes (takeN HEADER_BYTES m)).
  rewrite takeN_header_slice.
  pose proof (image_stores_fit m data Hm Hd) as Hf. apply Forall_app in Hf as [Hf Hh].
  apply Forall_cons in Hh as [Hh _]. fold h in Hf, Hh.
  assert (len (header_to_bytes (next_header h (pending_buffer h) (len data))) = HEADER_BYTES)
    as Hb by by apply len_header_to_bytes.
  rewrite <- Hb, <- (N.add_0_l (len (header_to_bytes _))). unfold do_store, header_store.
  cbn [fst snd]. rewrite slice_splice_same by (rewrite foldl_do_store_len by done; exact Hh).
  apply header_of_to_bytes, next_header_wf; [apply pending_le_1|].
  unfold buffer_size in Hd. pose proof (N.Div0.div_le_upper_bound (len m - HEADER_SIZE) 2 (len m)).
  lia.
Qed.

Lemma written_buffer m data :
  HEADER_SIZE ≤ len m → len data ≤ buffer_size (len m) →
  slice (pending_offset m) (pending_offset m + len data) (snd (write_to_arena true m data)) = data.
Proof.
  intros Hm Hd. rewrite write_to_arena_run by done. cbn [snd].
  pose proof (image_stores_fit m data Hm Hd) as Hf. apply Forall_app in Hf as [Hf Hh].
  apply Forall_cons in Hh as [Hh _].
  pose proof (pending_fits m Hm) as Hp.
  rewrite slice_do_store_avoids.
  2: { split; [rewrite foldl_do_store_len; done|]. right. simpl.
       rewrite len_header_to_bytes by done. unfold pending_offset, HEADER_BYTES, HEADER_SIZE. lia. }
  unfold image_stores. fold (pending_offset m). simpl.
  rewrite slice_do_store_avoids.
  2: { split; [rewrite do_store_len; simpl; [|lia]|left; simpl; lia].
       unfold len at 2. rewrite length_replicate. lia. }
  apply slice_splice_same. simpl. lia.
Qed.

Lemma write_to_arena_spec (m data : list byte) :
  HEADER_SIZE ≤ len m → len m ≤ u64_max → len data ≤ buffer_size (len m) →
  let h := header_of_bytes (takeN HEADER_BYTES m) in
  ∃ m', write_to_arena true m data = (Ok tt, m') ∧
    len m' = len m ∧ arena_image m' = Some data ∧
    header_of_bytes (takeN HEADER_BYTES m') = next_header h (pending_buffer h) (len data) ∧
    (active_buffer h ≤ 1 →
     let off := HEADER_SIZE + active_buffer h * buffer_size (len m) in
     slice off (off + buffer_size (len m)) m' = slice off (off + buffer_size (len m)) m).
Proof.
  intros Hm Hu Hd h.
  pose proof (written_header m data Hm Hu Hd) as Hh'. fold h in Hh'.
  pose proof (written_buffer m data Hm Hd) as Hb.
  pose proof (write_to_arena_run true m data Hm Hd) as E. rewrite E in Hh', Hb. cbn [snd] in Hh', Hb.
  eexists. split; [exact E|].
  pose proof (image_stores_fit m data Hm Hd) as Hf. apply Forall_app in Hf as [Hf Hs].
  apply Forall_cons in Hs as [Hs _]. fold h in Hf, Hs, Hb |- *.
  set (m' := do_store _ _) in *.
  assert (len m' = len m) as Hl.
  { unfold m'. rewrite do_store_len; rewrite foldl_do_store_len; done. }
  split_and!; [done| |done|].
  - unfold arena_image. rewrite Hl, Hh'.
    rewrite (proj2 (N.leb_le _ _)) by (unfold HEADER_BYTES, HEADER_SIZE in *; lia).
    cbn [negb]. unfold pending_offset in Hb. fold h in Hb.
    assert (validate_header (next_header h (pending_buffer h) (len data)) (len m)
            = Ok (HEADER_SIZE + pending_buffer h * buffer_size (len m))) as ->.
    { apply validate_header_Ok. pose proof (pending_le_1 h). done. }
    cbn [data_size next_header]. by rewrite (proj2 (N.leb_le _ _)), Hb.
  - intros Ha off. unfold m'.
    pose proof (image_stores_pending m data Hd) as Hp.
    apply pending_stores_avoid in Hp as [_ Hp]; [|done]. specialize (Hp Ha).
    rewrite slice_do_store_avoids; [by apply foldl_do_store_avoids|].
    split; [rewrite foldl_do_store_len; done|]. right. simpl.
    rewrite len_header_to_bytes by done. unfold off, HEADER_BYTES, HEADER_SIZE. lia.
Qed.

Lemma write_to_arena_too_large flush_ok m data :
  buffer_size (len m) < len data →
  write_to_arena flush_ok m data = (Err (DbTooLarge (len data) (buffer_size (len m))), m).
Proof. intros. unfold write_to_arena. by rewrite (proj2 (N.leb_gt _ _)). Qed.

Lemma len_set_len n l : len (set_len n l) = n.
Proof. unfold set_len. rewrite len_app, len_takeN. unfold len at 2. rewrite length_replicate. lia. Qed.

Lemma grow_refusal_None target data_len available :
  grow_refusal target data_len available = None ↔
  target ≤ max_grown_arena_size data_len ∧
  (∀ a, available = Some a → sat_add target GROW_FREE_MARGIN ≤ a).
Proof.
  unfold grow_refusal. destruct (N.ltb_spec (max_grown_arena_size data_len) target).
  { split; [done|]. intros [? _]. lia. }
  destruct available as [a|].
  - destruct (N.ltb_spec a (sat_add target GROW_FREE_MARGIN)).
    + split; [done|]. intros [_ Ha]. specialize (Ha a eq_refl). lia.
    + split; [|done]. intros _. split; [done|]. by intros ? [= <-].
  - split; [|done]. intros _. split; done.
Qed.

(** The new arena before its first image: an initialised header over zeros. *)
Lemma fresh_header_header m seq :
  seq ≤ u64_max → HEADER_BYTES ≤ len m →
  let h := {| magic := MAGIC; version := VERSION; active_buffer := 0;
              padding := [x00; x00]; sequence := seq; data_size := 0 |} in
  header_of_bytes (takeN HEADER_BYTES (do_store m (0, header_to_bytes h))) = h.
Proof.
  intros Hs Hm h. rewrite takeN_header_slice.
  assert (len (header_to_bytes h) = HEADER_BYTES) as Hb by by apply len_header_to_bytes.
  rewrite <- Hb, <- (N.add_0_l (len _)). unfold do_store. cbn [fst snd].
  rewrite slice_splice_same by (rewrite Hb; lia).
  apply header_of_to_bytes. unfold header_wf, h; simpl.
  unfold MAGIC, VERSION, u32_max, u8_max, u64_max in *. split_and!; done || lia.
Qed.

Lemma run_header_store m bs :
  len bs = HEADER_BYTES →
  run_stores [(0, bs)] m =
    if HEADER_BYTES <=? len m then (Ok tt, do_store m (0, bs)) else (Panic, m).
Proof. intros Hb. simpl. unfold store_fits; simpl. by rewrite Hb. Qed.

(** The sequence number of an arena file, 0 when there is none to continue. *)
Definition old_sequence (old : option (list byte)) : N :=
  match grown_sequence true old with Ok s => s | _ => 0 end.

Lemma old_sequence_bound old : old_sequence old ≤ u64_max.
Proof.
  unfold old_sequence, grown_sequence. destruct old as [l|]; [|done].
  destruct (HEADER_BYTES <=? len l); [|done]. case_match; [|done].
  unfold header_of_bytes; simpl. pose proof (le_value_bound (slice 8 16 (takeN HEADER_BYTES l))).
  assert (len (slice 8 16 (takeN HEADER_BYTES l)) ≤ 8) as Hl.
  { unfold slice. rewrite len_takeN. lia. }
  pose proof (N.pow_le_mono_r 256 _ 8 (ltac:(lia)) Hl) as Hp.
  change (256 ^ 8) with (u64_max + 1) in Hp. lia.
Qed.

(** A first image written into a fresh header. *)
Lemma write_fresh_arena seq arena_size data m1 m2 flush_ok :
  arena_size ≤ u64_max → seq ≤ u64_max →
  m1 = do_store (set_len arena_size [])
         (0, header_to_bytes {| magic := MAGIC; version := VERSION; active_buffer := 0;
               padding := [x00; x00]; sequence := seq; data_size := 0 |}) →
  HEADER_BYTES ≤ arena_size →
  write_to_arena flush_ok m1 data = (Ok tt, m2) →
  arena_image m2 = Some data ∧
  sequence (header_of_bytes (takeN HEADER_BYTES m2)) = wadd64 seq 1.
Proof.
  intros Ha Hs Hm1 Hhb Hw.
  set (h := {| magic := MAGIC; version := VERSION; active_buffer := 0;
               padding := [x00; x00]; sequence := seq; data_size := 0 |}) in *.
  assert (len m1 = arena_size) as Hl.
  { rewrite Hm1, do_store_len; rewrite len_set_len; [done|].
    cbn [fst snd]. by rewrite len_header_to_bytes. }
  assert (header_of_bytes (takeN HEADER_BYTES m1) = h) as Hh.
  { rewrite Hm1. apply fresh_header_header; [done|]. by rewrite len_set_len. }
  destruct flush_ok.
  2: { unfold write_to_arena in Hw. repeat case_match; simplify_eq. }
  assert (HEADER_SIZE ≤ len m1) as Hsz.
  { revert Hw. unfold write_to_arena, write_stores. rewrite Hl, Hh.
    destruct (_ <=? buffer_size _) eqn:Eb; [|done]. cbn [negb].
    rewrite (proj2 (N.leb_le _ _)) by done. cbn [negb].
    unfold image_stores. cbn [app run_stores]. unfold store_fits at 1. cbn [fst snd].
    destruct (_ <=? len m1) eqn:E1; [|done]. intros _.
    apply N.leb_le in E1. unfold pending_buffer in E1. rewrite Hl in *. simpl in E1. lia. }
  destruct (N.le_gt_cases (len data) (buffer_size (len m1))) as [Hd|Hd].
  2: { by rewrite write_to_arena_too_large in Hw. }
  destruct (write_to_arena_spec m1 data Hsz) as (m' & E & _ & Hi & Hh' & _); [by rewrite Hl|done|].
  rewrite Hw in E. injection E as <-. rewrite Hh', Hh. done.
Qed.

Lemma write_grown_arena_succeeds available arena_size data fs :
  grow_refusal arena_size (len data) available = None →
  HEADER_SIZE ≤ arena_size → len data ≤ buffer_size arena_size →
  fst (write_grown_arena GrowNoFault true available arena_size data fs) = Ok tt.
Proof.
  intros Hg Hs Hd. unfold write_grown_arena. rewrite Hg.
  assert (∃ seq, grown_sequence true (arena_file fs) = Ok seq) as [seq ->].
  { unfold grown_sequence. repeat case_match; eauto. }
  rewrite !bool_decide_false by done.
  rewrite run_header_store by by apply len_header_to_bytes.
  rewrite len_set_len, (proj2 (N.leb_le _ _)) by (unfold HEADER_BYTES, HEADER_SIZE in *; lia).
  assert (len (do_store (set_len arena_size []) (0, header_to_bytes
     {| magic := MAGIC; version := VERSION; active_buffer := 0;
        padding := [x00; x00]; sequence := seq; data_size := 0 |})) = arena_size) as Hl.
  { rewrite do_store_len; rewrite len_set_len; [done|]. cbn [fst snd].
    rewrite len_header_to_bytes by done. unfold HEADER_BYTES, HEADER_SIZE in *. lia. }
  rewrite write_to_arena_run by (rewrite Hl; done).
  by rewrite bool_decide_true.
Qed.

(** The file at the arena's path is a complete successor of the old arena. *)
Definition grown_from (fs : grow_fs) (data : list byte) (fs' : grow_fs) : Prop :=
  ∃ m, arena_file fs' = Some m ∧ arena_image m = Some data ∧
    sequence (header_of_bytes (takeN HEADER_BYTES m)) = wadd64 (old_sequence (arena_file fs)) 1.

Lemma write_grown_arena_outcome ft aligned available arena_size (data : list byte) fs :
  let '(r, fs') := write_grown_arena ft aligned available arena_size data fs in
  (arena_file fs' = arena_file fs ∨ grown_from fs data fs') ∧
  (r = Ok tt → grown_from fs data fs' ∧ grow_file fs' = None) ∧
  (grow_refusal arena_size (len data) available ≠ None → r = Err GrowRefusedErr ∧ fs' = fs).
Proof.
  unfold write_grown_arena.
  destruct (grow_refusal arena_size (len data) available) eqn:Eg.
  { split_and!; [by left|done|done]. }
  apply grow_refusal_None in Eg as [Eg _].
  assert (arena_size ≤ u64_max) as Ha.
  { unfold max_grown_arena_size, sat_add at 1 in Eg. lia. }
  destruct (grown_sequence aligned (arena_file fs)) as [seq|e|] eqn:Es;
    [|split_and!; [by left|done|done]..].
  assert (seq = old_sequence (arena_file fs)) as Hseq.
  { unfold old_sequence, grown_sequence in *. repeat case_match; simplify_eq; done. }
  pose proof (old_sequence_bound (arena_file fs)) as Hsb. rewrite <- Hseq in *.
  destruct (bool_decide (ft = GrowOpen)); [split_and!; [by left|done|done]|].
  destruct (bool_decide (ft = GrowSetLen)); [split_and!; [by left|done|done]|].
  destruct (bool_decide (ft = GrowMap)); [split_and!; [by left|done|done]|].
  rewrite run_header_store by by apply len_header_to_bytes.
  rewrite len_set_len. destruct (N.leb_spec HEADER_BYTES arena_size) as [Hh|];
    [|split_and!; [by left|done|done]].
  destruct (write_to_arena _ _ data) as [[[]|e|] m2] eqn:Ew;
    [|split_and!; [by left|done|done]..].
  pose proof (write_fresh_arena _ _ _ _ _ _ Ha Hsb eq_refl Hh Ew) as [Hi Hq].
  destruct (_ || _); [split_and!; [by left|done|done]|].
  assert (grown_from fs data {| arena_file := Some m2; grow_file := None |}) as Hg.
  { exists m2. by rewrite <- Hseq. }
  destruct (bool_decide (ft = GrowDirSync)); split_and!; naive_solver.
Qed.

(** ** Properties *)

(** [write_to_arena] publishes exactly the image it was given.  On an arena
    at least a header page long, with an image that fits a buffer, it succeeds,
    keeps the file length, flips the active buffer, increments the sequence
    (modulo 2^64), and a reader that validates the header then sees the image
    and nothing else; the buffer that was active is byte-for-byte untouched.
    An image that does not fit is refused with the mapping unchanged. *)
Theorem write_to_arena_publishes (m data : list byte)
    (Hm : HEADER_SIZE ≤ len m) (Hu : len m ≤ u64_max) :
  let h := header_of_bytes (takeN HEADER_BYTES m) in
  let '(r, m') := write_to_arena true m data in
  let h' := header_of_bytes (takeN HEADER_BYTES m') in
  if len data <=? buffer_size (len m) then
    r = Ok tt ∧ len m' = len m ∧ arena_image m' = Some data ∧
    active_buffer h' = pending_buffer h ∧ sequence h' = wadd64 (sequence h) 1 ∧
    (active_buffer h ≤ 1 →
     let off := HEADER_SIZE + active_buffer h * buffer_size (len m) in
     slice off (off + buffer_size (len m)) m' = slice off (off + buffer_size (len m)) m)
  else r = Err (DbTooLarge (len data) (buffer_size (len m))) ∧ m' = m.
Proof.
  intros h. destruct (N.leb_spec (len data) (buffer_size (len m))) as [Hd|Hd].
  - destruct (write_to_arena_spec m data Hm Hu Hd) as (m' & -> & ? & ? & -> & ?). done.
  - by rewrite write_to_arena_too_large.
Qed.

(** C15: a writer that dies before the header flip loses nothing.
    [write_to_arena] stores the image, the padding and then the header, in that
    order, and leaves the mapping all of its stores leave, whether or not the
    flush succeeds; taken byte by byte, a writer that dies anywhere up to the
    last byte of the padding leaves a mapping in which a reader still sees the
    image that was published before, and after the last byte a reader sees the
    new image. *)
Theorem write_to_arena_crash_keeps_image (flush_ok : bool) (m data : list byte)
    (Hm : HEADER_SIZE ≤ len m) (Hu : len m ≤ u64_max) (Hd : len data ≤ buffer_size (len m)) :
  let total := length (write_byte_stores m data) in
  write_to_arena flush_ok m data
    = (if flush_ok then Ok tt else Err FlushFailed, crashed_write total m data) ∧
  N.of_nat total = buffer_size (len m) + HEADER_BYTES ∧
  (∀ k, N.of_nat k ≤ buffer_size (len m) → arena_image (crashed_write k m data) = arena_image m) ∧
  arena_image (crashed_write total m data) = Some data.
Proof.
  intros total. pose proof (image_stores_fit m data Hm Hd) as Hf.
  assert (crashed_write total m data = foldl do_store m (write_stores m data)) as E.
  { unfold crashed_write, total. rewrite firstn_all. by apply foldl_all_byte_stores. }
  assert (∀ flush_ok, write_to_arena flush_ok m data
    = (if flush_ok then Ok tt else Err FlushFailed, crashed_write total m data)) as Hrun.
  { intros b. rewrite E, write_to_arena_run by done. unfold write_stores. by rewrite foldl_app. }
  split_and!; [done| | |].
  - unfold total, write_byte_stores, write_stores, image_stores. cbn [app]. rewrite !fmap_cons, fmap_nil.
    cbn [mjoin list_join]. rewrite app_nil_r, !length_app. unfold byte_stores. rewrite !length_imap. cbn [snd].
    rewrite length_replicate. pose proof (len_header_to_bytes (next_header (header_of_bytes (takeN HEADER_BYTES m))
      (pending_buffer (header_of_bytes (takeN HEADER_BYTES m))) (len data)) eq_refl) as Hh.
    unfold header_store. cbn [snd]. unfold len in *. lia.
  - intros k Hk. apply arena_image_avoids; [done|]. by apply crashed_stores_pending.
  - destruct (write_to_arena_spec m data Hm Hu Hd) as (m' & Hw & _ & Hi & _).
    rewrite (Hrun true) in Hw. by injection Hw as ->.
Qed.

(** The two header validators agree, and the buffer they name lies inside the
    file. *)
Lemma active_buffer_offset_in_file (h : ArenaHeader) (file_size : N) :
  match active_buffer_offset h file_size with
  | Some off => validate_header h file_size = Ok off ∧
                HEADER_SIZE ≤ off ∧ off + buffer_size file_size ≤ file_size
  | None => ∃ e, validate_header h file_size = Err e
  end.
Proof.
  unfold active_buffer_offset, validate_header.
  destruct (N.eqb_spec (magic h) MAGIC), (N.eqb_spec (version h) VERSION),
    (N.ltb_spec 1 (active_buffer h)), (N.ltb_spec file_size HEADER_SIZE);
    simpl; eauto.
  split_and!; [done|lia|]. pose proof (buffer_size_twice file_size). nia.
Qed.

(** Growing replaces the arena atomically.  Whatever call fails and whether
    or not the header buffer is aligned, the file at the arena's path is either
    the one that was there or a complete new arena whose image is [data] and
    whose sequence is the old one's successor; success means the latter, a
    target that the image does not justify or the disk cannot hold is refused
    before any file is touched, and with no failing call, an aligned buffer and
    a target large enough for the image, growing succeeds. *)
Theorem write_grown_arena_atomic ft aligned available arena_size (data : list byte) fs :
  let '(r, fs') := write_grown_arena ft aligned available arena_size data fs in
  (arena_file fs' = arena_file fs ∨ grown_from fs data fs') ∧
  (r = Ok tt → grown_from fs data fs' ∧ grow_file fs' = None) ∧
  (grow_refusal arena_size (len data) available ≠ None → r = Err GrowRefusedErr ∧ fs' = fs) ∧
  (ft = GrowNoFault → aligned = true → grow_refusal arena_size (len data) available = None →
   HEADER_SIZE ≤ arena_size → len data ≤ buffer_size arena_size → r = Ok tt).
Proof.
  pose proof (write_grown_arena_outcome ft aligned available arena_size data fs) as Ho.
  pose proof (write_grown_arena_succeeds available arena_size data fs) as Hs.
  destruct (write_grown_arena ft _ _ _ _ _) as [r fs'] eqn:Er.
  destruct Ho as (?&?&?). split_and!; [done..|]. intros -> ->. by rewrite Er in Hs.
Qed.

(** ** Witnesses *)

(** A fresh arena with two four-byte buffers. *)
Definition small_arena : list byte := snd (create_arena [] 4104).

Lemma write_to_arena_publishes_witness :
  snd (write_to_arena true small_arena [x01; x02]) ≠ small_arena ∧
  arena_image (snd (write_to_arena true small_arena [x01; x02])) = Some [x01; x02].
Proof.
  pose proof (write_to_arena_publishes small_arena [x01; x02]) as H.
  split; [vm_compute; discriminate|].
  destruct (write_to_arena true small_arena [x01; x02]) as [r m'] eqn:E.
  assert (len [x01; x02] <=? buffer_size (len small_arena) = true) as Eb by reflexivity.
  cbn zeta beta iota in H. rewrite Eb in H.
  apply H; vm_compute; discriminate.
Defined.

Lemma write_to_arena_crash_keeps_image_witness :
  let m := snd (write_to_arena true small_arena [x01; x02]) in
  arena_image (crashed_write 3 m [x07; x08; x09]) = Some [x01; x02] ∧
  crashed_write 3 m [x07; x08; x09] ≠ m ∧
  arena_image (snd (write_to_arena false m [x07; x08; x09])) = Some [x07; x08; x09].
Proof.
  intros m.
  destruct (write_to_arena_crash_keeps_image false m [x07; x08; x09]) as (Hw & _ & Hk & Hi);
    [vm_compute; discriminate..|].
  split_and!.
  - rewrite Hk by (vm_compute; discriminate). reflexivity.
  - vm_compute. discriminate.
  - rewrite Hw. exact Hi.
Defined.
