(* ===== verification/Control.v ===== *)
(** * The control block and its seqlock

    [rs/ll-core/core/src/control.rs].  A 4096-byte mapped file names the live
    arena; its payload (path, size, root) is published under a sequence
    counter that is odd while a publish is in flight, and under a file lock
    that tells a live publisher from a dead one.

    The first half models the operations on a block nobody else is using.  The
    second half interleaves any number of publishers and readers at the
    granularity the source has, one volatile byte or one atomic access per
    step, with publishers dying between any two steps.  Memory is sequentially
    consistent: the Acquire/Release orderings of the source are what licenses
    that reading of it on weaker hardware. *)

From S2P Require Import Prelude.
From Stdlib Require Import NArith Lia.
Local Open Scope N_scope.

(** ** Layout of the block *)

Definition CONTROL_SIZE : N := 4096.
Definition CONTROL_MAGIC : N := 1279613251.   (* 0x4C455943, "LEYC" *)
Definition CONTROL_VERSION : N := 3.
Definition OFF_MAGIC : N := 0.
Definition OFF_VERSION : N := 4.
Definition OFF_GENERATION : N := 8.
Definition OFF_ARENA_PATH : N := 16.
Definition ARENA_PATH_LEN : N := 256.
Definition OFF_ARENA_SIZE : N := 272.
Definition OFF_CURRENT_ROOT : N := 320.
Definition CURRENT_ROOT_LEN : N := 32.

(** The mapped bytes outside the counter. *)
Definition memory : Type := N → byte.

(** [write_volatile] and a run of them. *)
Definition set_byte (m : memory) (st : N * byte) : memory :=
  λ a, if a =? fst st then snd st else m a.
Definition set_bytes (m : memory) (sts : list (N * byte)) : memory := foldl set_byte m sts.

(** The stores of [volatile_copy_in(off, src)]. *)
Definition volatile_copy_in (off : N) (src : list byte) : list (N * byte) :=
  imap (λ i b, (off + N.of_nat i, b)) src.

(** The addresses [volatile_copy_out(off, dst)] loads, in order. *)
Definition copy_addrs (off n : N) : list N := (λ i, off + N.of_nat i) <$> seq 0 (N.to_nat n).

(** ** Publishing and reading, alone *)

(** One consistent copy of the payload. *)
Record Snapshot := { sn_path : list byte; sn_size : list byte; sn_root : list byte }.

#[global] Instance Snapshot_eq_dec : EqDecision Snapshot.
Proof. solve_decision. Defined.

(** The order in which [copy_payload] reads. *)
Definition payload_addrs : list N :=
  copy_addrs OFF_ARENA_PATH ARENA_PATH_LEN ++ copy_addrs OFF_ARENA_SIZE 8
  ++ copy_addrs OFF_CURRENT_ROOT CURRENT_ROOT_LEN.

Definition Snapshot_of_bytes (l : list byte) : Snapshot := {|
  sn_path := takeN ARENA_PATH_LEN l;
  sn_size := slice ARENA_PATH_LEN (ARENA_PATH_LEN + 8) l;
  sn_root := dropN (ARENA_PATH_LEN + 8) l;
|}.

(** [Controller::copy_payload] *)
Definition copy_payload (m : memory) : Snapshot := Snapshot_of_bytes (m <$> payload_addrs).

(** What a publish is asked for; no root means [set_arena]. *)
Record publish_req := {
  rq_path : list byte;
  rq_size : N;
  rq_root : option (list byte);
}.

(** [write_path_and_size], then the two halves of the root. *)
Definition write_path_and_size (path : list byte) (size : N) : list (N * byte) :=
  volatile_copy_in OFF_ARENA_PATH path
  ++ volatile_copy_in (OFF_ARENA_PATH + len path) [x00]
  ++ volatile_copy_in OFF_ARENA_SIZE (u64_le size).

Definition write_root (root : list byte) : list (N * byte) :=
  let half := CURRENT_ROOT_LEN / 2 in
  volatile_copy_in OFF_CURRENT_ROOT (takeN half root)
  ++ volatile_copy_in (OFF_CURRENT_ROOT + half) (dropN half root).

Definition publish_stores (rq : publish_req) : list (N * byte) :=
  write_path_and_size (rq_path rq) (rq_size rq)
  ++ match rq_root rq with Some root => write_root root | None => [] end.

(** [seq_begin]: even to odd; a counter already odd was left by a publisher
    that died and stays as it is.  [seq_end]: odd to even. *)
Definition seq_begin (c : N) : N := if N.odd c then c else wadd64 c 1.
Definition seq_end (c : N) : N := wadd64 c 1.

Inductive control_error := PathTooLong | InvalidMagic (m : N) | ControlVersionMismatch (v : N).

Record block := { counter : N; mem : memory }.

(** [set_arena] and [set_arena_with_root] on a block with no other party. *)
Definition publish (rq : publish_req) (b : block) : result control_error unit * block :=
  if ARENA_PATH_LEN <=? len (rq_path rq) then (Err PathTooLong, b) else
  (Ok tt, {| counter := seq_end (seq_begin (counter b));
             mem := set_bytes (mem b) (publish_stores rq) |}).

Definition set_arena (path : list byte) (size : N) : block → result control_error unit * block :=
  publish {| rq_path := path; rq_size := size; rq_root := None |}.
Definition set_arena_with_root (path : list byte) (size : N) (root : list byte)
    : block → result control_error unit * block :=
  publish {| rq_path := path; rq_size := size; rq_root := Some root |}.

(** [bytes.iter().position(|&b| b == 0).unwrap_or(ARENA_PATH_LEN)], then the
    prefix: the bytes [arena_path] decodes. *)
Fixpoint until_nul (l : list byte) : list byte :=
  match l with
  | [] => []
  | b :: l => if bool_decide (b = x00) then [] else b :: until_nul l
  end.
Definition arena_path (s : Snapshot) : list byte := until_nul (sn_path s).
Definition arena_size (s : Snapshot) : N := le_value (sn_size s).
Definition current_root (s : Snapshot) : list byte := sn_root s.
Definition ZERO_ROOT : list byte := replicate 32 x00.
Definition published_root (s : Snapshot) : option (list byte) :=
  if bool_decide (current_root s = ZERO_ROOT) then None else Some (current_root s).

(** [open_or_create] on the content of an existing file (empty when new): the
    mapping it leaves, or why it is refused. *)
Definition open_or_create (content : list byte) : result control_error (list byte) :=
  let m := if len content <? CONTROL_SIZE
           then content ++ replicate (N.to_nat (CONTROL_SIZE - len content)) x00 else content in
  let existing_magic := le_value (slice OFF_MAGIC (OFF_MAGIC + 4) m) in
  if existing_magic =? 0 then
    Ok (splice OFF_VERSION (u32_le CONTROL_VERSION) (splice OFF_MAGIC (u32_le CONTROL_MAGIC) m))
  else if negb (existing_magic =? CONTROL_MAGIC) then Err (InvalidMagic existing_magic)
  else
    let existing_version := le_value (slice OFF_VERSION (OFF_VERSION + 4) m) in
    if negb (existing_version =? CONTROL_VERSION)
    then Err (ControlVersionMismatch existing_version) else Ok m.

(** ** Publishers and readers interleaved *)

(** Where a publisher stands.  [PWriting] carries the stores still to make and,
    for the proofs, the memory it started from. *)
Inductive pub_pc :=
| PWait (rq : publish_req)
| PLocked (rq : publish_req)
| PWriting (rq : publish_req) (base : memory) (pending : list (N * byte))
| PEnded.

(** Where a [snapshot] call stands.  [RCopy] carries the counter it loaded, the
    tick it loaded it at, the addresses still to load and the bytes loaded. *)
Inductive reader_pc :=
| RIdle
| RCopy (before tick : N) (todo : list N) (acc : list byte)
| RProbe (odd : N)
| RHeld (odd : N)
| RAbandon (todo : list N) (acc : list byte)
| RDone (answer : Snapshot).

(** A reader handle: its [last] consistent snapshot and its call. *)
Record reader := { rd_last : option Snapshot; rd_pc : reader_pc }.
Definition reader0 : reader := {| rd_last := None; rd_pc := RIdle |}.

(** The publish lock: a [flock] on the control file. *)
Inductive lock_state := Free | Exclusive (p : nat) | SharedBy (rs : gset nat).

(** One completed publish: the request, the memory it started from, and the
    payload in place when the counter became even. *)
Record publication := { pb_req : publish_req; pb_base : memory; pb_snap : Snapshot }.

(** The shared block, the lock, the parties, and the history the theorems
    speak about: [ticks] counts the counter's increments without wrapping,
    [died] records that a publisher died with the counter odd. *)
Record sys := {
  s_counter : N;
  s_mem : memory;
  s_lock : lock_state;
  s_pubs : gmap nat pub_pc;
  s_readers : gmap nat reader;
  s_ticks : N;
  s_history : list publication;
  s_died : bool;
}.

Definition set_pub (p : nat) (o : option pub_pc) (s : sys) : sys := {|
  s_counter := s_counter s; s_mem := s_mem s; s_lock := s_lock s;
  s_pubs := partial_alter (λ _, o) p (s_pubs s); s_readers := s_readers s;
  s_ticks := s_ticks s; s_history := s_history s; s_died := s_died s |}.
Definition set_lock (l : lock_state) (s : sys) : sys := {|
  s_counter := s_counter s; s_mem := s_mem s; s_lock := l;
  s_pubs := s_pubs s; s_readers := s_readers s;
  s_ticks := s_ticks s; s_history := s_history s; s_died := s_died s |}.
Definition set_mem (m : memory) (s : sys) : sys := {|
  s_counter := s_counter s; s_mem := m; s_lock := s_lock s;
  s_pubs := s_pubs s; s_readers := s_readers s;
  s_ticks := s_ticks s; s_history := s_history s; s_died := s_died s |}.
Definition set_counter (c t : N) (s : sys) : sys := {|
  s_counter := c; s_mem := s_mem s; s_lock := s_lock s;
  s_pubs := s_pubs s; s_readers := s_readers s;
  s_ticks := t; s_history := s_history s; s_died := s_died s |}.
Definition add_history (h : publication) (s : sys) : sys := {|
  s_counter := s_counter s; s_mem := s_mem s; s_lock := s_lock s;
  s_pubs := s_pubs s; s_readers := s_readers s;
  s_ticks := s_ticks s; s_history := h :: s_history s; s_died := s_died s |}.
Definition set_died (b : bool) (s : sys) : sys := {|
  s_counter := s_counter s; s_mem := s_mem s; s_lock := s_lock s;
  s_pubs := s_pubs s; s_readers := s_readers s;
  s_ticks := s_ticks s; s_history := s_history s; s_died := s_died s || b |}.
Definition set_reader (r : nat) (x : reader) (s : sys) : sys := {|
  s_counter := s_counter s; s_mem := s_mem s; s_lock := s_lock s;
  s_pubs := s_pubs s; s_readers := <[r := x]> (s_readers s);
  s_ticks := s_ticks s; s_history := s_history s; s_died := s_died s |}.
Definition get_reader (r : nat) (s : sys) : reader := default reader0 (s_readers s !! r).

(** Dropping a shared hold. *)
Definition release_shared (r : nat) (l : lock_state) : lock_state :=
  match l with
  | SharedBy rs => let rs' := rs ∖ {[r]} in if bool_decide (rs' = ∅) then Free else SharedBy rs'
  | l => l
  end.

(** What a publisher can do next. *)
Inductive pub_label :=
| LCall (rq : publish_req)   (* [set_arena*] entered, path length checked *)
| LLock                      (* [PublishLock::take] returns *)
| LBegin                     (* [seq_begin] *)
| LStore                     (* one [write_volatile] *)
| LEnd                       (* [seq_end] *)
| LUnlock                    (* the lock guard is dropped *)
| LDie.                      (* the process dies; the kernel drops its lock *)

Definition pub_step (p : nat) (l : pub_label) (s : sys) : option sys :=
  match l, s_pubs s !! p with
  | LCall rq, None =>
      if ARENA_PATH_LEN <=? len (rq_path rq) then None else Some (set_pub p (Some (PWait rq)) s)
  | LLock, Some (PWait rq) =>
      match s_lock s with
      | Free => Some (set_lock (Exclusive p) (set_pub p (Some (PLocked rq)) s))
      | _ => None
      end
  | LBegin, Some (PLocked rq) =>
      let t := if N.odd (s_counter s) then s_ticks s else s_ticks s + 1 in
      Some (set_counter (seq_begin (s_counter s)) t
              (set_pub p (Some (PWriting rq (s_mem s) (publish_stores rq))) s))
  | LStore, Some (PWriting rq base (st :: pending)) =>
      Some (set_mem (set_byte (s_mem s) st) (set_pub p (Some (PWriting rq base pending)) s))
  | LEnd, Some (PWriting rq base []) =>
      Some (add_history {| pb_req := rq; pb_base := base; pb_snap := copy_payload (s_mem s) |}
              (set_counter (seq_end (s_counter s)) (s_ticks s + 1) (set_pub p (Some PEnded) s)))
  | LUnlock, Some PEnded => Some (set_lock Free (set_pub p None s))
  | LDie, Some pc =>
      let l := match s_lock s with
               | Exclusive q => if bool_decide (q = p) then Free else Exclusive q
               | l => l end in
      let mid := match pc with PWriting _ _ _ => true | _ => false end in
      Some (set_died mid (set_lock l (set_pub p None s)))
  | _, _ => None
  end.

(** What a reader can do next: each is one iteration step of [snapshot]. *)
Inductive reader_label :=
| RLoad       (* load the counter (Acquire) and branch on its parity *)
| RRead       (* one [read_volatile] of the copy *)
| RCheck      (* reload the counter and keep or drop the copy *)
| RTryLock    (* [try_lock_shared] succeeds *)
| RLockBusy   (* [try_lock_shared] fails, for whatever reason *)
| RRecheck    (* reload the counter under the shared lock *)
| RAnswer     (* unlock, answer from [last] or with the zero root *)
| RAgain      (* a new call on the same handle *)
| RDie.       (* the reader goes away; the kernel drops its shared lock *)

Definition reader_step (r : nat) (l : reader_label) (s : sys) : option sys :=
  let x := get_reader r s in
  let goto pc := set_reader r {| rd_last := rd_last x; rd_pc := pc |} s in
  match l, rd_pc x with
  | RLoad, RIdle =>
      Some (goto (if N.odd (s_counter s) then RProbe (s_counter s)
                  else RCopy (s_counter s) (s_ticks s) payload_addrs []))
  | RRead, RCopy b t (a :: todo) acc => Some (goto (RCopy b t todo (acc ++ [s_mem s a])))
  | RCheck, RCopy b t [] acc =>
      if s_counter s =? b then
        let snap := Snapshot_of_bytes acc in
        Some (set_reader r {| rd_last := Some snap; rd_pc := RDone snap |} s)
      else Some (goto RIdle)
  | RTryLock, RProbe odd =>
      match s_lock s with
      | Free => Some (set_lock (SharedBy {[r]}) (goto (RHeld odd)))
      | SharedBy rs => Some (set_lock (SharedBy ({[r]} ∪ rs)) (goto (RHeld odd)))
      | Exclusive _ => None
      end
  | RLockBusy, RProbe _ => Some (goto RIdle)
  | RRecheck, RHeld odd =>
      if s_counter s =? odd then Some (goto (RAbandon payload_addrs []))
      else Some (set_lock (release_shared r (s_lock s)) (goto RIdle))
  | RRead, RAbandon (a :: todo) acc => Some (goto (RAbandon todo (acc ++ [s_mem s a])))
  | RAnswer, RAbandon [] acc =>
      let torn := Snapshot_of_bytes acc in
      let answer := default {| sn_path := sn_path torn; sn_size := sn_size torn;
                               sn_root := ZERO_ROOT |} (rd_last x) in
      Some (set_lock (release_shared r (s_lock s)) (goto (RDone answer)))
  | RAgain, RDone _ => Some (goto RIdle)
  | RDie, _ => Some (set_lock (release_shared r (s_lock s)) (set_reader r reader0 s))
  | _, _ => None
  end.

Inductive label := Pub (p : nat) (l : pub_label) | Rd (r : nat) (l : reader_label).

Definition step (l : label) (s : sys) : option sys :=
  match l with Pub p l => pub_step p l s | Rd r l => reader_step r l s end.

(** A schedule: the whole run, or [None] if some label was not enabled. *)
Fixpoint run (ls : list label) (s : sys) : option sys :=
  match ls with
  | [] => Some s
  | l :: ls => match step l s with Some s' => run ls s' | None => None end
  end.

(** The block as a fresh process finds it: nobody active, an even counter. *)
Definition init_sys (c : N) (m : memory) : sys := {|
  s_counter := c; s_mem := m; s_lock := Free; s_pubs := ∅; s_readers := ∅;
  s_ticks := c; s_history := []; s_died := false |}.

(** ** Lemmas on memory *)

(** The bytes of one field. *)
Definition region (m : memory) (off n : N) : list byte := m <$> copy_addrs off n.

Lemma len_region m off n : len (region m off n) = n.
Proof. unfold region, copy_addrs, len. rewrite !length_fmap, length_seq. lia. Qed.

Lemma copy_addrs_app off a b : copy_addrs off (a + b) = copy_addrs off a ++ copy_addrs (off + a) b.
Proof.
  unfold copy_addrs. rewrite N2Nat.inj_add, seq_app, fmap_app. f_equal.
  apply list_eq. intros i. rewrite !list_lookup_fmap.
  destruct (decide (i < N.to_nat b)%nat).
  - rewrite !lookup_seq_lt by done. simpl. f_equal. lia.
  - rewrite !lookup_seq_ge by lia. done.
Qed.

Lemma region_app m off a b : region m off (a + b) = region m off a ++ region m (off + a) b.
Proof. unfold region. by rewrite copy_addrs_app, fmap_app. Qed.

Lemma region_ext m m' off n :
  (∀ a, off ≤ a → a < off + n → m a = m' a) → region m off n = region m' off n.
Proof.
  intros H. unfold region, copy_addrs. rewrite <- !list_fmap_compose.
  apply list_fmap_ext. intros i x Hx. apply lookup_seq in Hx as [-> ?]. apply H; simpl; lia.
Qed.

Lemma copy_payload_regions m :
  copy_payload m = {| sn_path := region m OFF_ARENA_PATH ARENA_PATH_LEN;
                      sn_size := region m OFF_ARENA_SIZE 8;
                      sn_root := region m OFF_CURRENT_ROOT CURRENT_ROOT_LEN |}.
Proof. reflexivity. Qed.

Lemma set_bytes_app m ss1 ss2 : set_bytes m (ss1 ++ ss2) = set_bytes (set_bytes m ss1) ss2.
Proof. apply foldl_app. Qed.

Lemma set_bytes_other m ss a : Forall (λ st, fst st ≠ a) ss → set_bytes m ss a = m a.
Proof.
  revert m. induction ss as [|st ss IH]; intros m Hf; [done|].
  apply Forall_cons in Hf as [H1 H2]. unfold set_bytes in *. simpl. rewrite IH by done.
  unfold set_byte. by destruct (N.eqb_spec a (fst st)).
Qed.

Lemma volatile_copy_in_addrs off src :
  Forall (λ st, off ≤ fst st ∧ fst st < off + len src) (volatile_copy_in off src).
Proof.
  apply Forall_lookup_2. intros i st Hi. unfold volatile_copy_in in Hi.
  rewrite list_lookup_imap in Hi. destruct (src !! i) as [b|] eqn:Hb; [|done].
  simplify_eq/=. apply lookup_lt_Some in Hb. unfold len. lia.
Qed.

Lemma copy_in_other m off src a :
  a < off ∨ off + len src ≤ a → set_bytes m (volatile_copy_in off src) a = m a.
Proof.
  intros Ha. apply set_bytes_other. eapply Forall_impl; [apply volatile_copy_in_addrs|].
  intros st [? ?]. lia.
Qed.

Lemma region_copy_in_other m off src off' n :
  off' + n ≤ off ∨ off + len src ≤ off' →
  region (set_bytes m (volatile_copy_in off src)) off' n = region m off' n.
Proof. intros H. apply region_ext. intros a ? ?. apply copy_in_other. lia. Qed.

Lemma region_copy_in m off src :
  region (set_bytes m (volatile_copy_in off src)) off (len src) = src.
Proof.
  revert m. induction src as [|b src IH] using rev_ind; intros m; [done|].
  unfold volatile_copy_in in *. rewrite imap_app, set_bytes_app, len_app, region_app.
  simpl. rewrite Nat.add_0_r. fold (len src). f_equal.
  - etrans; [|apply (IH m)]. apply region_ext. intros a ? ?.
    unfold set_bytes; simpl. unfold set_byte at 1; simpl.
    destruct (N.eqb_spec a (off + len src)); [lia|done].
  - unfold region, copy_addrs, set_bytes; simpl. f_equal. unfold set_byte at 1; simpl.
    rewrite N.add_0_r. by rewrite N.eqb_refl.
Qed.

Lemma region_copy_in' m off src n :
  len src = n → region (set_bytes m (volatile_copy_in off src)) off n = src.
Proof. intros <-. apply region_copy_in. Qed.

(** *** What a whole publish leaves in the three fields *)

Lemma region_path_and_size m path size off n :
  (off + n ≤ OFF_ARENA_PATH ∨ OFF_ARENA_SIZE + 8 ≤ off) → len path < ARENA_PATH_LEN →
  region (set_bytes m (write_path_and_size path size)) off n = region m off n.
Proof.
  intros Ho Hp. unfold write_path_and_size. rewrite !set_bytes_app.
  unfold OFF_ARENA_PATH, OFF_ARENA_SIZE, ARENA_PATH_LEN in *.
  rewrite !region_copy_in_other; [done|..];
    unfold u64_le; rewrite ?len_le_bytes, ?len_cons, ?len_nil; lia.
Qed.

Lemma write_root_region m root off n :
  len root = CURRENT_ROOT_LEN → off + n ≤ OFF_CURRENT_ROOT →
  region (set_bytes m (write_root root)) off n = region m off n.
Proof.
  intros Hr Ho. unfold write_root. rewrite !set_bytes_app.
  rewrite !region_copy_in_other; [done|left; lia|left].
  change (CURRENT_ROOT_LEN / 2) with 16. lia.
Qed.

Lemma write_root_root m root :
  len root = CURRENT_ROOT_LEN →
  region (set_bytes m (write_root root)) OFF_CURRENT_ROOT CURRENT_ROOT_LEN = root.
Proof.
  intros Hr. unfold write_root. rewrite !set_bytes_app.
  change (CURRENT_ROOT_LEN / 2) with 16. unfold CURRENT_ROOT_LEN in *.
  assert (len (takeN 16 root) = 16) as H1 by (rewrite len_takeN; lia).
  assert (len (dropN 16 root) = 16) as H2 by (rewrite len_dropN; lia).
  change 32 with (16 + 16). rewrite region_app.
  rewrite region_copy_in_other by lia.
  rewrite (region_copy_in' _ _ _ 16), (region_copy_in' _ _ _ 16) by done. apply takeN_dropN.
Qed.

Lemma until_nul_app_nul path rest :
  x00 ∉ path → until_nul (path ++ x00 :: rest) = path.
Proof.
  induction path as [|b path IH]; intros Hn; simpl; [done|].
  rewrite bool_decide_false by set_solver. f_equal. apply IH. set_solver.
Qed.

(** A request the interface accepts: a path that fits with its terminator and
    holds none, a 64-bit size, a 32-byte root. *)
Definition req_wf (rq : publish_req) : Prop :=
  len (rq_path rq) < ARENA_PATH_LEN ∧ x00 ∉ rq_path rq ∧ rq_size rq ≤ u64_max ∧
  ∀ root, rq_root rq = Some root → len root = CURRENT_ROOT_LEN.

Lemma published_payload m rq :
  req_wf rq →
  let snap := copy_payload (set_bytes m (publish_stores rq)) in
  arena_path snap = rq_path rq ∧ arena_size snap = rq_size rq ∧
  current_root snap = default (current_root (copy_payload m)) (rq_root rq).
Proof.
  intros (Hp & Hn & Hs & Hr). rewrite copy_payload_regions.
  unfold publish_stores. rewrite set_bytes_app.
  set (m1 := set_bytes m (write_path_and_size (rq_path rq) (rq_size rq))).
  assert (region m1 OFF_ARENA_SIZE 8 = u64_le (rq_size rq)) as Hsize.
  { unfold m1, write_path_and_size. rewrite !set_bytes_app.
    apply region_copy_in'. apply len_le_bytes. }
  assert (∃ rest, region m1 OFF_ARENA_PATH ARENA_PATH_LEN = rq_path rq ++ x00 :: rest) as [rest Hpath].
  { unfold m1, write_path_and_size. rewrite !set_bytes_app.
    unfold OFF_ARENA_PATH, OFF_ARENA_SIZE, ARENA_PATH_LEN in *.
    rewrite region_copy_in_other by lia.
    replace 256 with (len (rq_path rq) + (1 + (255 - len (rq_path rq)))) by lia.
    rewrite region_app, (region_app _ _ 1).
    rewrite (region_copy_in_other _ (16 + len (rq_path rq))) by lia.
    rewrite region_copy_in, (region_copy_in' _ _ _ 1) by done.
    eexists. reflexivity. }
  assert (∀ m', region m' OFF_ARENA_PATH ARENA_PATH_LEN = region m1 OFF_ARENA_PATH ARENA_PATH_LEN →
    until_nul (region m' OFF_ARENA_PATH ARENA_PATH_LEN) = rq_path rq) as Hpath'.
  { intros m' ->. rewrite Hpath. by apply until_nul_app_nul. }
  assert (le_value (u64_le (rq_size rq)) = rq_size rq) as Hv by by apply u64_le_value.
  unfold arena_path, arena_size, current_root; cbn [sn_path sn_size sn_root].
  destruct (rq_root rq) as [root|] eqn:Er; cbn [from_option id].
  - specialize (Hr root eq_refl). split_and!.
    + apply Hpath', write_root_region; done.
    + by rewrite write_root_region, Hsize.
    + by apply write_root_root.
  - split_and!; [by apply Hpath'|change (set_bytes m1 []) with m1; by rewrite Hsize|].
    change (set_bytes m1 []) with m1.
    unfold m1. rewrite copy_payload_regions. cbn [sn_root].
    apply region_path_and_size; [|done]. right. done.
Qed.

(** ** The invariant of the interleaved system *)

Definition wrap : N := u64_max + 1.

(** The payload the newest completed publish left, the initial one before any. *)
Definition newest (m0 : memory) (h : list publication) : Snapshot :=
  match h with [] => copy_payload m0 | x :: _ => pb_snap x end.

(** A completed publish whose payload is exactly its stores over its base. *)
Definition whole (h : publication) : Prop :=
  len (rq_path (pb_req h)) < ARENA_PATH_LEN ∧
  pb_snap h = copy_payload (set_bytes (pb_base h) (publish_stores (pb_req h))).

Definition holds_lock (pc : pub_pc) : Prop := match pc with PWait _ => False | _ => True end.

Definition pc_req (pc : pub_pc) : option publish_req :=
  match pc with PWait rq | PLocked rq | PWriting rq _ _ => Some rq | PEnded => None end.

Record pub_inv (m0 : memory) (s : sys) : Prop := {
  inv_counter : s_counter s = s_ticks s mod wrap;
  inv_path : ∀ p pc rq, s_pubs s !! p = Some pc → pc_req pc = Some rq →
    len (rq_path rq) < ARENA_PATH_LEN;
  inv_lock : ∀ p pc, s_pubs s !! p = Some pc → holds_lock pc → s_lock s = Exclusive p;
  inv_writing : ∀ p rq base pending, s_pubs s !! p = Some (PWriting rq base pending) →
    N.odd (s_ticks s) = true ∧
    ∀ a, set_bytes (s_mem s) pending a = set_bytes base (publish_stores rq) a;
  inv_even : N.odd (s_ticks s) = false → copy_payload (s_mem s) = newest m0 (s_history s);
  inv_whole : Forall whole (s_history s);
  inv_alive : s_died s = false → N.odd (s_ticks s) = true →
    ∃ p rq base pending, s_pubs s !! p = Some (PWriting rq base pending);
  inv_base : s_died s = false → ∀ p rq base pending,
    s_pubs s !! p = Some (PWriting rq base pending) → copy_payload base = newest m0 (s_history s);
}.

Lemma odd_mod_wrap t : N.odd (t mod wrap) = N.odd t.
Proof.
  rewrite (N.div_mod' t wrap) at 2. rewrite N.odd_add, N.odd_mul.
  by replace (N.odd wrap) with false by reflexivity.
Qed.

Lemma succ_mod_wrap t : wadd64 (t mod wrap) 1 = (t + 1) mod wrap.
Proof. unfold wadd64. fold wrap. by rewrite N.Div0.add_mod_idemp_l. Qed.

Lemma copy_payload_ext m m' : (∀ a, m a = m' a) → copy_payload m = copy_payload m'.
Proof. intros H. unfold copy_payload. f_equal. by apply list_fmap_ext. Qed.

Lemma seq_begin_odd t : N.odd (seq_begin (t mod wrap)) = true.
Proof.
  unfold seq_begin. rewrite odd_mod_wrap. destruct (N.odd t) eqn:E; [by rewrite odd_mod_wrap|].
  by rewrite succ_mod_wrap, odd_mod_wrap, N.odd_add, E.
Qed.

Lemma wadd64_succ c : c ≤ u64_max → wadd64 c 1 = if c =? u64_max then 0 else c + 1.
Proof.
  intros H. destruct (N.eqb_spec c u64_max) as [->|]; [done|]. apply wadd64_small. lia.
Qed.

(** A publish always moves the counter. *)
Lemma seq_moves c : c ≤ u64_max → seq_end (seq_begin c) ≠ c.
Proof.
  intros H. unfold seq_end, seq_begin. destruct (N.odd c) eqn:Ho.
  - rewrite wadd64_succ by done. destruct (N.eqb_spec c u64_max) as [->|]; [done|lia].
  - rewrite (wadd64_succ (wadd64 c 1)) by apply wadd64_bound. rewrite wadd64_succ by done.
    destruct (N.eqb_spec c u64_max) as [->|]; [done|].
    destruct (N.eqb_spec (c + 1) u64_max); [unfold u64_max in *; lia|lia].
Qed.

(** Everything a reader's step does: it replaces the reader, and touches the
    lock only while no publisher holds it. *)
Lemma reader_step_frame r l s s' :
  reader_step r l s = Some s' →
  ∃ x lk, s' = set_lock lk (set_reader r x s) ∧
          (lk = s_lock s ∨ ∀ p, s_lock s ≠ Exclusive p).
Proof.
  unfold reader_step. intros H.
  assert (∀ x s'', s'' = set_lock (s_lock s) (set_reader r x s) →
    ∃ x lk, s'' = set_lock lk (set_reader r x s) ∧
          (lk = s_lock s ∨ ∀ p, s_lock s ≠ Exclusive p)) as Hkeep by eauto.
  assert (release_shared r (s_lock s) = s_lock s ∨ ∀ p, s_lock s ≠ Exclusive p) as Hrel.
  { destruct (s_lock s); simpl; auto. }
  repeat case_match; simplify_eq; first [by eapply Hkeep|eexists _, _; split; [reflexivity|auto]].
Qed.

Lemma pub_inv_reader m0 r l s s' :
  reader_step r l s = Some s' → pub_inv m0 s → pub_inv m0 s'.
Proof.
  intros (x & lk & -> & Hlk)%reader_step_frame [].
  split; simpl; try done.
  intros p pc Hp Hh. specialize (inv_lock0 p pc Hp Hh).
  destruct Hlk as [->|Hno]; [done|by destruct (Hno p)].
Qed.

Lemma pub_inv_unique m0 s p q pc pc' :
  pub_inv m0 s → s_pubs s !! p = Some pc → holds_lock pc →
  s_pubs s !! q = Some pc' → holds_lock pc' → p = q.
Proof.
  intros Hi Hp Hh Hq Hh'. pose proof (inv_lock _ _ Hi _ _ Hp Hh) as E.
  rewrite (inv_lock _ _ Hi _ _ Hq Hh') in E. congruence.
Qed.

(** Two publishers in [s_pubs] after one moved: the mover or a bystander. *)
Ltac split_pubs :=
  repeat match goal with
  | H : partial_alter _ ?p _ !! ?q = Some _ |- _ =>
      destruct (decide (q = p)) as [-> |];
      [rewrite lookup_partial_alter_eq in H|rewrite lookup_partial_alter_ne in H by done]
  end; simplify_eq/=.

Lemma pub_inv_call m0 s p rq :
  pub_inv m0 s → s_pubs s !! p = None → len (rq_path rq) < ARENA_PATH_LEN →
  pub_inv m0 (set_pub p (Some (PWait rq)) s).
Proof.
  intros [] Hp Hl. split; simpl; try done.
  - intros q pc rq' Hq Hr. split_pubs; eauto.
  - intros q pc Hq Hh. split_pubs; eauto. done.
  - intros q rq' b pe Hq. split_pubs; eauto.
  - intros Hd Ho. destruct (inv_alive0 Hd Ho) as (q & rq' & b & pe & Hq).
    exists q, rq', b, pe. rewrite lookup_partial_alter_ne; [done|]. by intros ->; rewrite Hp in Hq.
  - intros Hd q rq' b pe Hq. split_pubs; eauto.
Qed.

Lemma pub_inv_lock m0 s p rq :
  pub_inv m0 s → s_pubs s !! p = Some (PWait rq) → s_lock s = Free →
  pub_inv m0 (set_lock (Exclusive p) (set_pub p (Some (PLocked rq)) s)).
Proof.
  intros [] Hp Hl. split; simpl; try done.
  - intros q pc rq' Hq Hr. split_pubs; eauto.
  - intros q pc Hq Hh. split_pubs; [done|]. specialize (inv_lock0 _ _ Hq Hh). congruence.
  - intros q rq' b pe Hq. split_pubs; eauto.
  - intros Hd Ho. destruct (inv_alive0 Hd Ho) as (q & rq' & b & pe & Hq).
    exists q, rq', b, pe. rewrite lookup_partial_alter_ne; [done|]. by intros ->; rewrite Hp in Hq.
  - intros Hd q rq' b pe Hq. split_pubs; eauto.
Qed.

Lemma pub_inv_begin m0 s p rq :
  pub_inv m0 s → s_pubs s !! p = Some (PLocked rq) →
  pub_inv m0 (set_counter (seq_begin (s_counter s))
                (if N.odd (s_counter s) then s_ticks s else s_ticks s + 1)
                (set_pub p (Some (PWriting rq (s_mem s) (publish_stores rq))) s)).
Proof.
  intros Hi Hp. assert (∀ q pc, s_pubs s !! q = Some pc → holds_lock pc → q = p) as Hu.
  { intros q pc Hq Hh. by eapply (pub_inv_unique m0 s q p). }
  pose proof Hi as []. rewrite inv_counter0, odd_mod_wrap.
  assert (N.odd (if N.odd (s_ticks s) then s_ticks s else s_ticks s + 1) = true) as Ho.
  { destruct (N.odd (s_ticks s)) eqn:E; [done|]. by rewrite N.odd_add, E. }
  split; simpl.
  - unfold seq_begin. rewrite odd_mod_wrap.
    destruct (N.odd (s_ticks s)); [done|apply succ_mod_wrap].
  - intros q pc rq' Hq Hr. split_pubs; eauto.
  - intros q pc Hq Hh. split_pubs; eauto.
  - intros q rq' b pe Hq. split_pubs; [done|]. by destruct (Hu _ _ Hq I).
  - rewrite Ho. done.
  - done.
  - intros. exists p. eexists _, _, _. by rewrite lookup_partial_alter_eq.
  - intros Hd q rq' b pe Hq. split_pubs; [|by destruct (Hu _ _ Hq I)].
    apply inv_even0. apply not_true_iff_false. intros Ho'.
    destruct (inv_alive0 Hd Ho') as (q & rq2 & b & pe2 & Hq).
    rewrite (Hu _ _ Hq I) in Hq. congruence.
Qed.

Lemma pub_inv_store m0 s p rq base st pending :
  pub_inv m0 s → s_pubs s !! p = Some (PWriting rq base (st :: pending)) →
  pub_inv m0 (set_mem (set_byte (s_mem s) st) (set_pub p (Some (PWriting rq base pending)) s)).
Proof.
  intros Hi Hp. assert (∀ q pc, s_pubs s !! q = Some pc → holds_lock pc → q = p) as Hu.
  { intros q pc Hq Hh. by eapply (pub_inv_unique m0 s q p). }
  pose proof Hi as []. destruct (inv_writing0 _ _ _ _ Hp) as [Ho Hm].
  split; simpl; try done.
  - intros q pc rq' Hq Hr. split_pubs; eauto.
  - intros q pc Hq Hh. split_pubs; eauto.
  - intros q rq' b pe Hq. split_pubs; [done|]. by destruct (Hu _ _ Hq I).
  - by rewrite Ho.
  - intros. exists p. eexists _, _, _. by rewrite lookup_partial_alter_eq.
  - intros Hd q rq' b pe Hq. split_pubs; eauto.
Qed.

Lemma pub_inv_end m0 s p rq base :
  pub_inv m0 s → s_pubs s !! p = Some (PWriting rq base []) →
  pub_inv m0
    (add_history {| pb_req := rq; pb_base := base; pb_snap := copy_payload (s_mem s) |}
      (set_counter (seq_end (s_counter s)) (s_ticks s + 1) (set_pub p (Some PEnded) s))).
Proof.
  intros Hi Hp. assert (∀ q pc, s_pubs s !! q = Some pc → holds_lock pc → q = p) as Hu.
  { intros q pc Hq Hh. by eapply (pub_inv_unique m0 s q p). }
  pose proof Hi as []. destruct (inv_writing0 _ _ _ _ Hp) as [Ho Hm].
  assert (N.odd (s_ticks s + 1) = false) as He by by rewrite N.odd_add, Ho.
  split; simpl; rewrite ?He; try done.
  - rewrite inv_counter0. apply succ_mod_wrap.
  - intros q pc rq' Hq Hr. split_pubs; eauto.
  - intros q pc Hq Hh. split_pubs; eauto.
  - intros q rq' b pe Hq. split_pubs. by destruct (Hu _ _ Hq I).
  - constructor; [|done]. split; simpl; [by eapply inv_path0|]. by apply copy_payload_ext.
  - intros Hd q rq' b pe Hq. split_pubs. by destruct (Hu _ _ Hq I).
Qed.

Lemma pub_inv_unlock m0 s p :
  pub_inv m0 s → s_pubs s !! p = Some PEnded → pub_inv m0 (set_lock Free (set_pub p None s)).
Proof.
  intros Hi Hp. assert (∀ q pc, s_pubs s !! q = Some pc → holds_lock pc → q = p) as Hu.
  { intros q pc Hq Hh. by eapply (pub_inv_unique m0 s q p). }
  pose proof Hi as []. split; simpl; try done.
  - intros q pc rq' Hq Hr. split_pubs; eauto.
  - intros q pc Hq Hh. split_pubs. by destruct (Hu _ _ Hq Hh).
  - intros q rq' b pe Hq. split_pubs; eauto.
  - intros Hd Ho. destruct (inv_alive0 Hd Ho) as (q & rq' & b & pe & Hq).
    rewrite (Hu _ _ Hq I) in Hq. congruence.
  - intros Hd q rq' b pe Hq. split_pubs; eauto.
Qed.

Lemma pub_inv_die m0 s p pc :
  pub_inv m0 s → s_pubs s !! p = Some pc →
  pub_inv m0
    (set_died (match pc with PWriting _ _ _ => true | _ => false end)
      (set_lock (match s_lock s with
                 | Exclusive q => if bool_decide (q = p) then Free else Exclusive q
                 | l => l end) (set_pub p None s))).
Proof.
  intros [] Hp. split; simpl; try done.
  - intros q pc' rq' Hq Hr. split_pubs; eauto.
  - intros q pc' Hq Hh. split_pubs. rewrite (inv_lock0 _ _ Hq Hh).
    by rewrite bool_decide_false.
  - intros q rq' b pe Hq. split_pubs; eauto.
  - intros [Hd Hmid]%orb_false_iff Ho. destruct (inv_alive0 Hd Ho) as (q & rq' & b & pe & Hq).
    exists q, rq', b, pe. rewrite lookup_partial_alter_ne; [done|].
    intros ->. rewrite Hp in Hq. by simplify_eq.
  - intros [Hd Hmid]%orb_false_iff q rq' b pe Hq. split_pubs; eauto.
Qed.

#[local] Hint Resolve pub_inv_call pub_inv_lock pub_inv_begin pub_inv_store pub_inv_end
  pub_inv_unlock pub_inv_die : leyline.

Lemma pub_inv_step m0 l s s' : step l s = Some s' → pub_inv m0 s → pub_inv m0 s'.
Proof.
  destruct l as [p l|r l]; simpl; [|by apply pub_inv_reader].
  intros Hs Hi. unfold pub_step in Hs.
  destruct l, (s_pubs s !! p) as [[| |rq' base [|st pending]|]|] eqn:Hp; try discriminate Hs;
    try (injection Hs as <-;
         first [exact (pub_inv_die m0 s p _ Hi Hp)|by eauto with leyline nocore]).
  - destruct (N.leb_spec ARENA_PATH_LEN (len (rq_path rq))); simplify_eq. by eauto with leyline nocore.
  - destruct (s_lock s) eqn:El; simplify_eq. by eauto with leyline nocore.
Qed.

(** *** Readers *)

(** A payload that was in place, whole, at some even counter. *)
Definition consistent (m0 : memory) (h : list publication) (snap : Snapshot) : Prop :=
  snap ∈ copy_payload m0 :: (pb_snap <$> h).

Definition reader_ok (m0 : memory) (s : sys) (x : reader) : Prop :=
  (∀ snap, rd_last x = Some snap → consistent m0 (s_history s) snap) ∧
  match rd_pc x with
  | RCopy b t todo acc =>
      b = t mod wrap ∧ N.odd t = false ∧ t ≤ s_ticks s ∧
      ∃ seen, payload_addrs = seen ++ todo ∧ (s_ticks s = t → acc = s_mem s <$> seen)
  | RDone answer => consistent m0 (s_history s) answer ∨ sn_root answer = ZERO_ROOT
  | _ => True
  end.

(** The counter is 64 bits wide: the readers' guarantee holds until it has
    been incremented that many times. *)
Definition reader_inv (m0 : memory) (s : sys) : Prop :=
  s_ticks s ≤ u64_max → ∀ r, reader_ok m0 s (get_reader r s).

Lemma newest_consistent m0 h : consistent m0 h (newest m0 h).
Proof. unfold consistent. destruct h; simpl; set_solver. Qed.

Lemma consistent_mono m0 h h' snap :
  h ⊆ h' → consistent m0 h snap → consistent m0 h' snap.
Proof. unfold consistent. intros Hs. rewrite !elem_of_cons, !list_elem_of_fmap. naive_solver. Qed.

Lemma reader0_ok m0 s : reader_ok m0 s reader0.
Proof. done. Qed.

(** What a publisher's step leaves alone. *)
Lemma pub_step_frame m0 p l s s' :
  pub_inv m0 s → pub_step p l s = Some s' →
  s_readers s' = s_readers s ∧ s_ticks s ≤ s_ticks s' ∧ s_history s ⊆ s_history s' ∧
  (s_mem s' = s_mem s ∨ N.odd (s_ticks s') = true ∧ s_ticks s' = s_ticks s).
Proof.
  intros Hi Hs. unfold pub_step in Hs. repeat case_match; simplify_eq/=; split_and!; auto;
    try lia; try set_solver.
  right. split; [|done]. by eapply (inv_writing _ _ Hi).
Qed.

Lemma reader_inv_pub m0 p l s s' :
  pub_step p l s = Some s' → pub_inv m0 s → reader_inv m0 s → reader_inv m0 s'.
Proof.
  intros Hs Hi Hr Ht r.
  destruct (pub_step_frame _ _ _ _ _ Hi Hs) as (Er & Hm & Hh & Hmem).
  unfold get_reader. rewrite Er. destruct (Hr ltac:(lia) r) as [Hl Hpc].
  fold (get_reader r s). split; [intros; eapply consistent_mono; eauto|].
  destruct (rd_pc (get_reader r s)); try done.
  - destruct Hpc as (Hb & He & Hle & seen & Ha & Hc). split_and!; [done..|lia|].
    exists seen. split; [done|]. intros Et.
    destruct Hmem as [->|[Ho Eq]]; [apply Hc; lia|congruence].
  - destruct Hpc; [left; eapply consistent_mono; eauto|by right].
Qed.

(** A copy whose counter did not move is the newest published payload. *)
Lemma checked_copy m0 s b t acc :
  pub_inv m0 s → s_ticks s ≤ u64_max →
  b = t mod wrap → N.odd t = false → t ≤ s_ticks s → s_counter s = b →
  (s_ticks s = t → acc = s_mem s <$> payload_addrs) →
  Snapshot_of_bytes acc = newest m0 (s_history s).
Proof.
  intros Hi Hw -> He Hle Hc Hacc. rewrite (inv_counter _ _ Hi) in Hc.
  rewrite !N.mod_small in Hc by (unfold wrap; lia). rewrite Hacc by done.
  apply (inv_even _ _ Hi). by rewrite Hc.
Qed.

Lemma reader_ok_own m0 r l s s' :
  reader_step r l s = Some s' → pub_inv m0 s → s_ticks s ≤ u64_max →
  reader_ok m0 s (get_reader r s) → reader_ok m0 s' (get_reader r s').
Proof.
  intros Hs Hi Ht [Hl Hpc].
  assert (∀ x lk, get_reader r (set_lock lk (set_reader r x s)) = x) as Hx.
  { intros. unfold get_reader. simpl. by rewrite lookup_insert_eq. }
  assert (∀ x, get_reader r (set_reader r x s) = x) as Hx'.
  { intros. unfold get_reader. simpl. by rewrite lookup_insert_eq. }
  unfold reader_step in Hs. destruct l, (rd_pc (get_reader r s)) as [|b t todo acc| | |todo acc|];
    try discriminate Hs; try (injection Hs as <-; rewrite ?Hx, ?Hx'; by split).
  - injection Hs as <-. rewrite Hx'. split; [done|]. simpl.
    rewrite (inv_counter _ _ Hi), odd_mod_wrap. destruct (N.odd (s_ticks s)) eqn:E; [done|].
    split_and!; [done..|]. by exists [].
  - destruct todo as [|a todo]; [done|]. injection Hs as <-. rewrite Hx'. split; [done|]. simpl.
    destruct Hpc as (? & ? & ? & seen & Ha & Hc). split_and!; [done..|].
    exists (seen ++ [a]). rewrite Ha, <- app_assoc. split; [done|]. intros Et.
    by rewrite fmap_app, Hc.
  - destruct todo; [done|]. injection Hs as <-. rewrite Hx'. by split.
  - destruct todo; [|done]. destruct Hpc as (Hb & He & Hle & seen & Ha & Hc).
    rewrite app_nil_r in Ha. destruct (N.eqb_spec (s_counter s) b) as [E|];
      injection Hs as <-; rewrite Hx'; [|by split].
    assert (consistent m0 (s_history s) (Snapshot_of_bytes acc)) as Hcons.
    { erewrite (checked_copy m0 s b t acc); try done; [apply newest_consistent|by rewrite Ha]. }
    split; simpl; [by intros ? [= <-]|by left].
  - destruct (s_lock s); try discriminate Hs; injection Hs as <-; rewrite Hx; by split.
  - destruct (s_counter s =? odd); injection Hs as <-; rewrite ?Hx, ?Hx'; by split.
  - destruct todo; [|done]. injection Hs as <-. rewrite Hx. split; [done|]. simpl.
    destruct (rd_last (get_reader r s)) as [snap|] eqn:E; simpl; [left; by apply Hl|by right].
Qed.

Lemma reader_inv_reader m0 r l s s' :
  reader_step r l s = Some s' → pub_inv m0 s → reader_inv m0 s → reader_inv m0 s'.
Proof.
  intros Hs Hi Hr Ht q. destruct (reader_step_frame _ _ _ _ Hs) as (x & lk & -> & _).
  simpl in Ht. destruct (decide (q = r)) as [->|Hne].
  - eapply reader_ok_own; eauto.
  - unfold get_reader; simpl. rewrite lookup_insert_ne by done. apply (Hr Ht q).
Qed.

(** *** All reachable states *)

Lemma init_pub_inv c m : c ≤ u64_max → N.odd c = false → pub_inv m (init_sys c m).
Proof.
  intros Hc He. split; simpl; try done; try (by intros; simplify_map_eq).
  - rewrite N.mod_small by (unfold wrap; lia). done.
  - by rewrite He.
Qed.

Lemma init_reader_inv c m : reader_inv m (init_sys c m).
Proof. intros _ r. unfold get_reader; simpl. rewrite lookup_empty. apply reader0_ok. Qed.

Lemma run_inv m0 ls s s' :
  run ls s = Some s' → pub_inv m0 s → reader_inv m0 s → pub_inv m0 s' ∧ reader_inv m0 s'.
Proof.
  revert s. induction ls as [|l ls IH]; intros s Hr Hi Hq; simpl in Hr; [by simplify_eq|].
  destruct (step l s) as [s1|] eqn:Hs; [|done]. apply (IH s1); [done|by eapply pub_inv_step|].
  destruct l; simpl in Hs; [by eapply reader_inv_pub|by eapply reader_inv_reader].
Qed.

Lemma reachable_inv c m ls s :
  c ≤ u64_max → N.odd c = false → run ls (init_sys c m) = Some s → pub_inv m s ∧ reader_inv m s.
Proof. intros. eapply run_inv; eauto using init_pub_inv, init_reader_inv. Qed.

(** ** The abstract specification: one register *)

(** What a control block is for: a path, a size and a root, replaced at once. *)
Record register := { reg_path : list byte; reg_size : N; reg_root : list byte }.

Definition view (s : Snapshot) : register :=
  {| reg_path := arena_path s; reg_size := arena_size s; reg_root := current_root s |}.

Definition spec_publish (rq : publish_req) (g : register) : register := {|
  reg_path := rq_path rq; reg_size := rq_size rq;
  reg_root := default (reg_root g) (rq_root rq) |}.

(** What a run shows to the outside: a publish takes effect when its counter becomes even, a
    [snapshot] when it answers. *)
Inductive event := Published (rq : publish_req) | Answered (r : nat) (answer : Snapshot).
Definition event_of (l : label) (s s' : sys) : list event :=
  match l with
  | Pub p LEnd => match s_pubs s !! p with Some (PWriting rq _ _) => [Published rq] | _ => [] end
  | Rd r (RCheck | RAnswer) => match rd_pc (get_reader r s') with RDone a => [Answered r a] | _ => [] end
  | _ => []
  end.
Fixpoint trace (ls : list label) (s : sys) : list event :=
  match ls with
  | [] => []
  | l :: ls => match step l s with Some s' => event_of l s s' ++ trace ls s' | None => [] end
  end.
(** The events one register could show, and what it holds after them. *)
Fixpoint atomic (g : register) (es : list event) : Prop :=
  match es with
  | [] => True
  | Published rq :: es => atomic (spec_publish rq g) es
  | Answered _ answer :: es => view answer = g ∧ atomic g es
  end.
Definition after (g : register) (es : list event) : register :=
  foldl (λ g e, match e with Published rq => spec_publish rq g | Answered _ _ => g end) g es.

Lemma atomic_app g es1 es2 : atomic g (es1 ++ es2) ↔ atomic g es1 ∧ atomic (after g es1) es2.
Proof. revert g. induction es1 as [|[rq|r a] es1 IH]; intros g; simpl; [tauto|apply IH|rewrite IH; tauto]. Qed.

Lemma view_published m rq :
  req_wf rq →
  view (copy_payload (set_bytes m (publish_stores rq))) = spec_publish rq (view (copy_payload m)).
Proof.
  intros Hw. destruct (published_payload m rq Hw) as (Hp & Hs & Hr).
  unfold view, spec_publish. by rewrite Hp, Hs, Hr.
Qed.

(** *** No reader gives up while every publisher lives *)

Lemma get_set_reader r x s : get_reader r (set_reader r x s) = x.
Proof. unfold get_reader; simpl. by rewrite lookup_insert_eq. Qed.

Lemma get_set_lock_reader r l x s : get_reader r (set_lock l (set_reader r x s)) = x.
Proof. unfold get_reader; simpl. by rewrite lookup_insert_eq. Qed.

(** Where a reader that saw an odd counter stands: it holds a shared lock, and once it gave
    the publish up, some publisher had died. *)
Definition probe_inv (s : sys) : Prop := ∀ r,
  match rd_pc (get_reader r s) with
  | RProbe odd => N.odd odd = true
  | RHeld odd => N.odd odd = true ∧ ∃ rs, s_lock s = SharedBy rs ∧ r ∈ rs
  | RAbandon _ _ => s_died s = true
  | _ => True
  end.
Lemma probe_inv_pub m0 p l s s' : pub_step p l s = Some s' → pub_inv m0 s → probe_inv s → probe_inv s'.
Proof.
  intros Hs Hi Hp r. specialize (Hp r).
  assert (s_readers s' = s_readers s ∧ (s_died s = true → s_died s' = true) ∧ (∀ rs, s_lock s = SharedBy rs → s_lock s' = SharedBy rs)) as (Er & Hd & Hl).
  { unfold pub_step in Hs. repeat case_match; simplify_eq/=; split_and!; try done; try congruence; try (by intros ->).
    all: intros rs Hrs; first [by rewrite (inv_lock _ _ Hi p PEnded) in Hrs|done]. }
  unfold get_reader in *. rewrite Er. destruct (rd_pc _); auto. destruct Hp as (Ho & rs & Hrs & Hin). eauto.
Qed.
Lemma shared_release q r l rs : q ≠ r → l = SharedBy rs → r ∈ rs → ∃ rs', release_shared q l = SharedBy rs' ∧ r ∈ rs'.
Proof. intros Hne -> Hin. simpl. rewrite bool_decide_eq_false_2 by set_solver. eexists. split; [done|set_solver]. Qed.
Lemma probe_inv_reader m0 q l s s' : reader_step q l s = Some s' → pub_inv m0 s → probe_inv s → probe_inv s'.
Proof.
  intros Hs Hi Hp r. destruct (decide (r = q)) as [->|Hne].
  - specialize (Hp q). unfold reader_step in Hs.
    destruct l, (rd_pc (get_reader q s)) as [|b t todo acc|o|o|todo acc|a]; try discriminate Hs;
      try (injection Hs as <-; rewrite ?get_set_reader, ?get_set_lock_reader; done).
    + injection Hs as <-. rewrite get_set_reader. simpl. by destruct (N.odd (s_counter s)) eqn:E.
    + destruct todo; [done|]. injection Hs as <-. by rewrite get_set_reader.
    + destruct todo; [done|]. injection Hs as <-. by rewrite get_set_reader.
    + destruct todo; [|done]. destruct (s_counter s =? b); injection Hs as <-; by rewrite get_set_reader.
    + destruct (s_lock s); try discriminate Hs; injection Hs as <-; rewrite get_set_lock_reader; simpl; (split; [done|]); eexists; (split; [done|set_solver]).
    + destruct Hp as (Ho & rs & Hl & Hin). destruct (N.eqb_spec (s_counter s) o) as [E|E]; injection Hs as <-; rewrite ?get_set_reader, ?get_set_lock_reader; [|done]. simpl.
      apply not_false_is_true. intros Hd. destruct (inv_alive _ _ Hi Hd) as (p & rq & base & pe & Hw).
      { by rewrite <- odd_mod_wrap, <- (inv_counter _ _ Hi), E. }
      by rewrite (inv_lock _ _ Hi _ _ Hw I) in Hl.
    + destruct todo; [|done]. injection Hs as <-. by rewrite get_set_lock_reader.
  - specialize (Hp r).
    assert (∃ x lk, s' = set_lock lk (set_reader q x s) ∧ (∀ rs, s_lock s = SharedBy rs → r ∈ rs → ∃ rs', lk = SharedBy rs' ∧ r ∈ rs')) as (x & lk & -> & Hlk).
    { assert (∀ x s'', s'' = set_reader q x s → ∃ x lk, s'' = set_lock lk (set_reader q x s) ∧ (∀ rs, s_lock s = SharedBy rs → r ∈ rs → ∃ rs', lk = SharedBy rs' ∧ r ∈ rs')) as Hkeep.
      { intros x s'' ->. exists x, (s_lock s). split; [by destruct s|eauto]. }
      assert (∀ rs, s_lock s = SharedBy rs → r ∈ rs → ∃ rs', release_shared q (s_lock s) = SharedBy rs' ∧ r ∈ rs') as Hrel by (intros; eapply shared_release; eauto).
      unfold reader_step in Hs. repeat case_match; simplify_eq; first [by eapply Hkeep|eexists _, _; split; [reflexivity|]]; try congruence; auto.
      all: intros rs' Hrs Hin; try (rewrite Hrs in *; by eapply shared_release); simplify_eq;
        eexists; (split; [done|set_solver]). }
    unfold get_reader in *. simpl. rewrite lookup_insert_ne by done. destruct (rd_pc _); auto. destruct Hp as (Ho & rs & Hl & Hin). eauto.
Qed.
Lemma run_probe m0 ls s s' : run ls s = Some s' → pub_inv m0 s → probe_inv s → probe_inv s'.
Proof.
  revert s. induction ls as [|l ls IH]; intros s Hr Hi Hp; simpl in Hr; [by simplify_eq|].
  destruct (step l s) as [s1|] eqn:Hs; [|done]. apply (IH s1); [done|by eapply pub_inv_step|].
  destruct l; simpl in Hs; [by eapply probe_inv_pub|by eapply probe_inv_reader].
Qed.

(** *** The trace of a run *)

(** What one step can only add to. *)
Definition grows (s s' : sys) : Prop :=
  s_ticks s ≤ s_ticks s' ∧ (s_died s = true → s_died s' = true) ∧
  (Forall req_wf (pb_req <$> s_history s') → Forall req_wf (pb_req <$> s_history s)).
Lemma step_extends l s s' : step l s = Some s' → grows s s'.
Proof.
  destruct l as [p l|r l]; simpl; intros Hs.
  - unfold pub_step in Hs. repeat case_match; simplify_eq/=; split_and!; simpl; try done; try lia;
      first [by inversion 1|by intros ->].
  - apply reader_step_frame in Hs as (x & lk & -> & _). split_and!; simpl; [lia|done|done].
Qed.
Lemma run_extends ls s s' : run ls s = Some s' → grows s s'.
Proof.
  revert s. induction ls as [|l ls IH]; intros s Hr; simpl in Hr; [simplify_eq; split_and!; [lia|done|done]|].
  destruct (step l s) as [s1|] eqn:Hs; [|done].
  destruct (step_extends _ _ _ Hs) as (? & ? & ?), (IH _ Hr) as (? & ? & ?). split_and!; [lia|auto|auto].
Qed.

(** One step shows what the register would, and moves the register along. *)
Lemma event_atomic m0 l s s1 :
  step l s = Some s1 → pub_inv m0 s → reader_inv m0 s → probe_inv s →
  s_ticks s ≤ u64_max → s_died s = false → Forall req_wf (pb_req <$> s_history s1) →
  let g := view (newest m0 (s_history s)) in
  atomic g (event_of l s s1) ∧ after g (event_of l s s1) = view (newest m0 (s_history s1)).
Proof.
  intros Hs Hi Hq Hp Ht Hd Hw. destruct l as [p l|r l]; simpl in Hs.
  - unfold pub_step in Hs. destruct l, (s_pubs s !! p) as [[| |rq' base [|st pe]|]|] eqn:E;
      try discriminate Hs; try (injection Hs as <-; simpl; done).
    + by destruct (ARENA_PATH_LEN <=? len (rq_path rq)); simplify_eq/=.
    + by destruct (s_lock s); simplify_eq/=.
    + injection Hs as <-. simpl in *. rewrite E. split; [done|]. simpl.
      rewrite <- (inv_base _ _ Hi Hd _ _ _ _ E). apply Forall_cons in Hw as [Hw _].
      rewrite <- view_published by done. f_equal. symmetry. apply copy_payload_ext.
      apply (proj2 (inv_writing _ _ Hi _ _ _ _ E)).
  - pose proof Hs as (x & lk & E' & _)%reader_step_frame.
    assert (s_history s1 = s_history s) as -> by by rewrite E'. clear E' x lk.
    specialize (Hp r). destruct (Hq Ht r) as [_ Hpc].
    unfold event_of. destruct l; try done; unfold reader_step in Hs;
      destruct (rd_pc (get_reader r s)) as [|b t todo acc|o|o|todo acc|a]; try discriminate Hs;
      destruct todo; try discriminate Hs; [|congruence].
    destruct Hpc as (Hb & Hev & Hle & seen & Hs2 & Hacc). rewrite app_nil_r in Hs2.
    destruct (N.eqb_spec (s_counter s) b) as [E|]; injection Hs as <-;
      rewrite get_set_reader; simpl; [|done].
    rewrite (checked_copy m0 s b t acc) by (try done; by rewrite Hs2). done.
Qed.

Lemma trace_atomic m0 ls s s' :
  run ls s = Some s' → pub_inv m0 s → reader_inv m0 s → probe_inv s →
  s_ticks s' ≤ u64_max → s_died s' = false → Forall req_wf (pb_req <$> s_history s') →
  atomic (view (newest m0 (s_history s))) (trace ls s).
Proof.
  revert s. induction ls as [|l ls IH]; intros s Hr Hi Hq Hp Ht Hd Hw; [done|].
  simpl in Hr |- *. destruct (step l s) as [s1|] eqn:Hs; [|done].
  destruct (step_extends _ _ _ Hs) as (Ht1 & Hd1 & Hw1), (run_extends _ _ _ Hr) as (Ht2 & Hd2 & Hw2).
  assert (run [l] s = Some s1) as Hr1 by (simpl; by rewrite Hs).
  destruct (run_inv m0 [l] s s1) as [Hi1 Hq1]; [done..|].
  destruct (event_atomic m0 l s s1) as [Ha Hg]; [done..|lia| |auto|].
  { destruct (s_died s); [|done]. rewrite <- Hd. symmetry. auto. }
  apply atomic_app. split; [done|]. rewrite Hg. eapply IH; try done. by eapply run_probe.
Qed.

(** ** A reader running by itself *)

Lemma run_app ls1 ls2 s s1 : run ls1 s = Some s1 → run (ls1 ++ ls2) s = run ls2 s1.
Proof.
  revert s. induction ls1 as [|l ls1 IH]; intros s; simpl; [by intros [= ->]|].
  destruct (step l s); [apply IH|done].
Qed.

(** The loads of one copy, all of them. *)
Lemma run_reads r s todo pcof acc :
  rd_pc (get_reader r s) = pcof todo acc →
  (∀ s a todo acc, rd_pc (get_reader r s) = pcof (a :: todo) acc →
     reader_step r RRead s = Some (set_reader r
       {| rd_last := rd_last (get_reader r s); rd_pc := pcof todo (acc ++ [s_mem s a]) |} s)) →
  ∃ s', run (replicate (length todo) (Rd r RRead)) s = Some s' ∧
    rd_pc (get_reader r s') = pcof [] (acc ++ (s_mem s <$> todo)) ∧
    s_counter s' = s_counter s ∧ s_lock s' = s_lock s ∧
    rd_last (get_reader r s') = rd_last (get_reader r s).
Proof.
  intros Hpc Hstep. revert s acc Hpc.
  induction todo as [|a todo IH]; intros s acc Hpc; cbn [length replicate run step].
  - exists s. by rewrite app_nil_r.
  - rewrite (Hstep _ _ _ _ Hpc). set (s1 := set_reader _ _ _).
    assert (get_reader r s1 = {| rd_last := rd_last (get_reader r s);
      rd_pc := pcof todo (acc ++ [s_mem s a]) |}) as E1.
    { unfold get_reader, s1; simpl. by rewrite lookup_insert_eq. }
    destruct (IH s1 (acc ++ [s_mem s a])) as (s' & Hr & Hp & Hc & Hl & Hla).
    { by rewrite E1. }
    exists s'. rewrite Hr, Hp, Hc, Hl, Hla, E1. by rewrite <- app_assoc.
Qed.

Lemma read_copy_step r b t s a todo acc :
  rd_pc (get_reader r s) = RCopy b t (a :: todo) acc →
  reader_step r RRead s = Some (set_reader r
    {| rd_last := rd_last (get_reader r s); rd_pc := RCopy b t todo (acc ++ [s_mem s a]) |} s).
Proof. unfold reader_step. by intros ->. Qed.

Lemma read_abandon_step r s a todo acc :
  rd_pc (get_reader r s) = RAbandon (a :: todo) acc →
  reader_step r RRead s = Some (set_reader r
    {| rd_last := rd_last (get_reader r s); rd_pc := RAbandon todo (acc ++ [s_mem s a]) |} s).
Proof. unfold reader_step. by intros ->. Qed.

Lemma solo_even r s :
  rd_pc (get_reader r s) = RIdle → N.odd (s_counter s) = false →
  ∃ s', run (Rd r RLoad :: replicate (length payload_addrs) (Rd r RRead) ++ [Rd r RCheck]) s = Some s'
    ∧ rd_pc (get_reader r s') = RDone (copy_payload (s_mem s)).
Proof.
  intros Hpc He. cbn [run step]. unfold reader_step at 1. rewrite Hpc, He.
  set (s1 := set_reader _ _ _).
  destruct (run_reads r s1 payload_addrs (RCopy (s_counter s) (s_ticks s)) [])
    as (s2 & Hr & Hp & Hc & _).
  { unfold s1. by rewrite get_set_reader. }
  { intros. by apply read_copy_step. }
  rewrite (run_app _ _ _ _ Hr). cbn [run step]. unfold reader_step. rewrite Hp, Hc.
  change (s_counter s1) with (s_counter s). rewrite N.eqb_refl. eexists. split; [done|].
  by rewrite get_set_reader.
Qed.

Lemma solo_odd r s :
  rd_pc (get_reader r s) = RIdle → N.odd (s_counter s) = true →
  (∀ p, s_lock s ≠ Exclusive p) →
  ∃ s' answer,
    run ([Rd r RLoad; Rd r RTryLock; Rd r RRecheck]
         ++ replicate (length payload_addrs) (Rd r RRead) ++ [Rd r RAnswer]) s = Some s'
    ∧ rd_pc (get_reader r s') = RDone answer
    ∧ (rd_last (get_reader r s) = Some answer
       ∨ rd_last (get_reader r s) = None ∧ current_root answer = ZERO_ROOT).
Proof.
  intros Hpc Ho Hlk.
  assert (∃ lk, run [Rd r RLoad; Rd r RTryLock; Rd r RRecheck] s = Some (set_reader r
    {| rd_last := rd_last (get_reader r s); rd_pc := RAbandon payload_addrs [] |}
    (set_lock lk (set_reader r {| rd_last := rd_last (get_reader r s); rd_pc := RHeld (s_counter s) |}
      (set_reader r {| rd_last := rd_last (get_reader r s); rd_pc := RProbe (s_counter s) |} s)))))
    as [lk H1].
  { cbn [run step]. unfold reader_step at 1. rewrite Hpc, Ho.
    unfold reader_step at 1. rewrite get_set_reader. cbn [rd_pc rd_last s_lock set_reader].
    destruct (s_lock s) as [|p|rs]; [|by destruct (Hlk p)|];
      unfold reader_step; rewrite get_set_lock_reader;
      cbn [rd_pc rd_last s_counter set_reader set_lock]; rewrite N.eqb_refl; eauto. }
  rewrite (run_app _ _ _ _ H1). set (s1 := set_reader _ _ _) in *.
  destruct (run_reads r s1 payload_addrs RAbandon []) as (s2 & Hr & Hp & _ & _ & Hl).
  { unfold s1. by rewrite get_set_reader. }
  { intros. by apply read_abandon_step. }
  rewrite (run_app _ _ _ _ Hr). cbn [run step]. unfold reader_step. rewrite Hp, Hl.
  replace (rd_last (get_reader r s1)) with (rd_last (get_reader r s))
    by (unfold s1; by rewrite get_set_reader).
  eexists _, _. split; [done|]. rewrite get_set_lock_reader. cbn [rd_pc]. split; [done|].
  destruct (rd_last (get_reader r s)); [by left|by right].
Qed.

(** ** Properties *)

(** C1: in every state reachable by any interleaving of publishers (some of
    which die at any point) and readers, as long as the 64-bit counter has not
    wrapped: a [snapshot] that passes its counter check returns exactly the
    payload the newest completed publish left; that payload has the path, the
    size and, for [set_arena_with_root], the root of that one publish's request
    ([set_arena] keeps the root bytes it found, which after a death may be a
    torn root: [set_arena_after_crash_exposes_torn_root]); and every answer ever
    given is the payload at the end of some completed publish (or the initial
    one), or carries the zero root that says nothing is published. *)
Theorem snapshot_never_torn c m ls s :
  c ≤ u64_max → N.odd c = false → run ls (init_sys c m) = Some s → s_ticks s ≤ u64_max →
  (∀ r s' answer, step (Rd r RCheck) s = Some s' → rd_pc (get_reader r s') = RDone answer →
     answer = newest m (s_history s)) ∧
  (∀ x, x ∈ s_history s → whole x ∧
     (req_wf (pb_req x) → view (pb_snap x) = spec_publish (pb_req x) (view (copy_payload (pb_base x))))) ∧
  (∀ r answer, rd_pc (get_reader r s) = RDone answer →
     consistent m (s_history s) answer ∨ current_root answer = ZERO_ROOT).
Proof.
  intros Hc He Hr Ht. destruct (reachable_inv _ _ _ _ Hc He Hr) as [Hi Hq]. split_and!.
  - intros r s' answer Hs Ha. destruct (Hq Ht r) as [_ Hpc]. simpl in Hs. unfold reader_step in Hs.
    destruct (rd_pc (get_reader r s)) as [|b t todo acc| | | |]; try done.
    destruct todo; [|done]. destruct Hpc as (Hb & Hev & Hle & seen & Hs2 & Hacc).
    rewrite app_nil_r in Hs2. destruct (N.eqb_spec (s_counter s) b) as [E|];
      injection Hs as <-; rewrite get_set_reader in Ha; simplify_eq/=.
    eapply (checked_copy m s _ t acc); eauto.
  - intros x Hx. pose proof (inv_whole _ _ Hi) as Hw. rewrite Forall_forall in Hw.
    specialize (Hw x Hx). split; [done|]. intros Hq'. rewrite (proj2 Hw). by apply view_published.
  - intros r answer Ha. destruct (Hq Ht r) as [_ Hpc]. by rewrite Ha in Hpc.
Qed.

(** C2: the block refines one atomic register.  Take any run from an even
    counter in which no publisher died in the middle of a publish, every
    completed publish asked for a well-formed path, size and root, and the
    64-bit counter did not wrap.  Then the trace of the run, publishes taking
    effect when their counter becomes even and snapshots when they answer, is
    one a single register gives: every answer is the register's value at that
    very moment, [set_arena] keeping the root and [set_arena_with_root]
    replacing all three fields at once. *)
Theorem control_refines_register c m ls s :
  c ≤ u64_max → N.odd c = false → run ls (init_sys c m) = Some s → s_ticks s ≤ u64_max →
  s_died s = false → Forall req_wf (pb_req <$> s_history s) →
  atomic (view (copy_payload m)) (trace ls (init_sys c m)).
Proof.
  intros Hc He Hr Ht Hd Hw.
  apply (trace_atomic m ls (init_sys c m) s); auto using init_pub_inv, init_reader_inv.
  by intros r.
Qed.

(** A reader left to itself answers.  In every reachable state, an idle
    reader whose lock probe is not blocked by a publisher finishes one
    [snapshot] by its own steps: with the payload in place when the counter is
    even, and when a dead publisher left it odd, with its last snapshot or the
    zero root.  While a publisher is mid-publish the probe cannot succeed, so a
    live publish is never taken for an abandoned one. *)
Theorem snapshot_terminates c m ls s r :
  c ≤ u64_max → N.odd c = false → run ls (init_sys c m) = Some s →
  rd_pc (get_reader r s) = RIdle →
  ((∀ p, s_lock s ≠ Exclusive p) → ∃ own s' answer,
     Forall (λ l, ∃ a, l = Rd r a) own ∧ run own s = Some s' ∧
     rd_pc (get_reader r s') = RDone answer ∧
     if N.odd (s_counter s)
     then rd_last (get_reader r s) = Some answer
          ∨ rd_last (get_reader r s) = None ∧ current_root answer = ZERO_ROOT
     else answer = newest m (s_history s)) ∧
  (∀ p rq base pending q, s_pubs s !! p = Some (PWriting rq base pending) →
     step (Rd q RTryLock) s = None).
Proof.
  intros Hc He Hr Hpc. destruct (reachable_inv _ _ _ _ Hc He Hr) as [Hi _]. split.
  - intros Hlk. destruct (N.odd (s_counter s)) eqn:Ho.
    + destruct (solo_odd r s Hpc Ho Hlk) as (s' & answer & Hrun & Hd & Hl).
      exists ([Rd r RLoad; Rd r RTryLock; Rd r RRecheck]
         ++ replicate (length payload_addrs) (Rd r RRead) ++ [Rd r RAnswer]), s', answer.
      split_and!; [|done..]. repeat (apply Forall_app; split);
        try (apply Forall_replicate); repeat constructor; eauto.
    + destruct (solo_even r s Hpc Ho) as (s' & Hrun & Hd).
      exists (Rd r RLoad :: replicate (length payload_addrs) (Rd r RRead) ++ [Rd r RCheck]),
        s', (copy_payload (s_mem s)).
      split_and!; [|done..|].
      * constructor; [eauto|]. apply Forall_app; split; [apply Forall_replicate; eauto|].
        repeat constructor; eauto.
      * apply (inv_even _ _ Hi). by rewrite (inv_counter _ _ Hi), odd_mod_wrap in Ho.
  - intros p rq base pending q Hp. simpl. unfold reader_step.
    destruct (rd_pc (get_reader q s)); try done.
    by rewrite (inv_lock _ _ Hi _ _ Hp I).
Qed.

(** [set_arena_with_root] and [set_arena] on every branch.  A path
    that does not fit is refused and the block is untouched; any other publish
    leaves an even counter and a payload that reads back as what was asked
    for, [set_arena] keeping the previous root. *)
Theorem publish_roundtrip rq b :
  (ARENA_PATH_LEN ≤ len (rq_path rq) → publish rq b = (Err PathTooLong, b)) ∧
  (req_wf rq → counter b ≤ u64_max → ∃ b',
     publish rq b = (Ok tt, b') ∧ N.odd (counter b') = false ∧ counter b' ≠ counter b ∧
     view (copy_payload (mem b')) = spec_publish rq (view (copy_payload (mem b)))).
Proof.
  unfold publish. split.
  - intros H. by rewrite (proj2 (N.leb_le _ _) H).
  - intros Hw Hc. rewrite (proj2 (N.leb_gt _ _)) by apply Hw. eexists. split; [done|].
    cbn [counter mem]. rewrite view_published by done.
    assert (counter b = counter b mod wrap) as E by (rewrite N.mod_small; [done|unfold wrap; lia]).
    pose proof (seq_begin_odd (counter b)) as Ho. rewrite <- E in Ho.
    assert (N.odd (seq_end (seq_begin (counter b))) = false) as Hev.
    { unfold seq_end, wadd64. fold wrap. by rewrite odd_mod_wrap, N.odd_add, Ho. }
    split_and!; [done| |done]. apply seq_moves. lia.
Qed.

(** ** Concrete schedules *)

(** One publish from call to unlock, and one that dies after [n] stores. *)
Definition publish_trace (p : nat) (rq : publish_req) : list label :=
  Pub p <$> ([LCall rq; LLock; LBegin]
             ++ replicate (length (publish_stores rq)) LStore ++ [LEnd; LUnlock]).
Definition death_trace (p : nat) (rq : publish_req) (n : nat) : list label :=
  Pub p <$> ([LCall rq; LLock; LBegin] ++ replicate n LStore ++ [LDie]).
(** One uncontended [snapshot], up to its counter check, and with it. *)
Definition copy_trace (r : nat) : list label :=
  Rd r <$> (RLoad :: replicate (length payload_addrs) RRead).
Definition snapshot_trace (r : nat) : list label := copy_trace r ++ [Rd r RCheck].

Definition demo_mem : memory := λ _, x00.
Definition demo_req (root : option byte) : publish_req :=
  {| rq_path := [x61]; rq_size := 4096; rq_root := replicate 32 <$> root |}.

Definition final (ls : list label) (s : sys) : sys := default s (run ls s).

Lemma run_final ls s : is_Some (run ls s) → run ls s = Some (final ls s).
Proof. unfold final. by intros [s' ->]. Qed.

(** A publish, then another one that dies mid-root, between two snapshots. *)
Definition demo_run : list label :=
  publish_trace 1 (demo_req (Some x11)) ++ snapshot_trace 0
  ++ [Rd 0 RAgain] ++ publish_trace 2 (demo_req None) ++ copy_trace 0.
Definition demo_state : sys := final demo_run (init_sys 0 demo_mem).

Lemma demo_run_ok : run demo_run (init_sys 0 demo_mem) = Some demo_state.
Proof. apply run_final. vm_compute. eauto. Qed.

Lemma snapshot_never_torn_witness :
  ∃ s', step (Rd 0 RCheck) demo_state = Some s' ∧
    rd_pc (get_reader 0 s') = RDone (newest demo_mem (s_history demo_state)).
Proof.
  exists (final [Rd 0 RCheck] demo_state).
  destruct (snapshot_never_torn 0 demo_mem demo_run demo_state) as [H _];
    [done|done|apply demo_run_ok|by vm_compute|].
  assert (step (Rd 0 RCheck) demo_state = Some (final [Rd 0 RCheck] demo_state)) as Hs
    by (vm_compute; reflexivity).
  split; [exact Hs|].
  destruct (rd_pc (get_reader 0 (final [Rd 0 RCheck] demo_state))) as [| | | | |a] eqn:E;
    try (vm_compute in E; discriminate E).
  by rewrite (H 0%nat _ a Hs E).
Defined.

Definition demo_run2 : list label :=
  publish_trace 1 (demo_req (Some x11)) ++ snapshot_trace 0.
Definition demo_state2 : sys := final demo_run2 (init_sys 0 demo_mem).

Lemma demo_reqs_wf : Forall req_wf [demo_req (Some x11)].
Proof.
  constructor; [|done]. split_and!; [done|set_solver|done|]. by intros root [= <-].
Qed.

Lemma control_refines_register_witness :
  atomic (view (copy_payload demo_mem)) (trace demo_run2 (init_sys 0 demo_mem)) ∧
  ∃ answer, trace demo_run2 (init_sys 0 demo_mem)
    = [Published (demo_req (Some x11)); Answered 0 answer].
Proof.
  split.
  - apply (control_refines_register 0 demo_mem demo_run2 demo_state2);
      [done|done|apply run_final; vm_compute; eauto|by vm_compute|by vm_compute|].
    replace (pb_req <$> s_history demo_state2) with [demo_req (Some x11)] by (vm_compute; reflexivity).
    apply demo_reqs_wf.
  - eexists. vm_compute. reflexivity.
Defined.

(** A publisher dead in the middle of its root, with a reader about to look. *)
Definition demo_run3 : list label :=
  publish_trace 1 (demo_req (Some x11)) ++ death_trace 2 (demo_req (Some x22)) 26.
Definition demo_state3 : sys := final demo_run3 (init_sys 0 demo_mem).

Lemma snapshot_terminates_witness :
  N.odd (s_counter demo_state3) = true ∧
  ∃ own s' answer, run own demo_state3 = Some s' ∧
    rd_pc (get_reader 0 s') = RDone answer ∧ current_root answer = ZERO_ROOT.
Proof.
  split; [by vm_compute|].
  destruct (snapshot_terminates 0 demo_mem demo_run3 demo_state3 0) as [H _];
    [done|done|apply run_final; vm_compute; eauto|by vm_compute|].
  destruct H as (own & s' & answer & _ & Hr & Hd & Ho); [by vm_compute|].
  exists own, s', answer. split_and!; [done|done|].
  replace (N.odd (s_counter demo_state3)) with true in Ho by (vm_compute; reflexivity).
  destruct Ho as [Ho|[_ Ho]]; [vm_compute in Ho; discriminate Ho|done].
Defined.

Lemma publish_roundtrip_witness :
  ∃ b', publish (demo_req (Some x11)) {| counter := 6; mem := demo_mem |} = (Ok tt, b') ∧
    reg_root (view (copy_payload (mem b'))) = replicate 32 x11.
Proof.
  destruct (publish_roundtrip (demo_req (Some x11)) {| counter := 6; mem := demo_mem |}) as [_ H].
  destruct H as (b' & Hp & _ & _ & Hv).
  - pose proof demo_reqs_wf as Hw. by apply Forall_inv in Hw.
  - done.
  - exists b'. split; [done|]. by rewrite Hv.
Defined.

(** What the guarantee of [current_root] does not cover.  After a
    publisher dies between the two halves of its root, a following [set_arena]
    (which keeps the root bytes it finds) makes the counter even over them, and
    a reader then accepts a root that no [set_arena_with_root] ever asked for. *)
Theorem set_arena_after_crash_exposes_torn_root :
  let ls := publish_trace 1 (demo_req (Some x11)) ++ death_trace 2 (demo_req (Some x22)) 26
            ++ publish_trace 3 (demo_req None) ++ snapshot_trace 0 in
  ∃ s answer, run ls (init_sys 0 demo_mem) = Some s ∧
    rd_pc (get_reader 0 s) = RDone answer ∧
    current_root answer = replicate 16 x22 ++ replicate 16 x11 ∧
    ∀ p rq, Pub p (LCall rq) ∈ ls → rq_root rq ≠ Some (current_root answer).
Proof.
  intros ls. exists (final ls (init_sys 0 demo_mem)).
  destruct (rd_pc (get_reader 0 (final ls (init_sys 0 demo_mem)))) as [| | | | |a] eqn:E;
    try (vm_compute in E; discriminate E).
  assert (current_root a = replicate 16 x22 ++ replicate 16 x11) as Ha
    by (vm_compute in E; injection E as <-; vm_compute; reflexivity).
  exists a. split_and!; [apply run_final; vm_compute; eauto|done|done|].
  rewrite Ha. intros p rq Hin Hr.
  assert (forallb (λ l, match l with
    | Pub _ (LCall rq) => bool_decide (rq_root rq ≠ Some (replicate 16 x22 ++ replicate 16 x11))
    | _ => true end) ls = true) as Hall by (vm_compute; reflexivity).
  rewrite forallb_forall in Hall. apply list_elem_of_In in Hin. specialize (Hall _ Hin).
  cbv beta iota in Hall. apply bool_decide_eq_true_1 in Hall. exact (Hall Hr).
Qed.
