(* ===== verification/HeadDigest.v ===== *)
(** * The digest a signed head commits to

    [rs/ll-core/core/src/head_digest.rs]: a head's six identities, the
    constructor that refuses an unstamped head, and the canonical byte string
    whose keyed BLAKE3 is signed. *)

From S2P Require Import Prelude Substrate.
From Stdlib Require Import NArith Lia.
Local Open Scope N_scope.

Definition HEAD_DIGEST_CONTEXT : string := "leyline head digest v2".

(** [pub struct HeadClaim]; its fields are private, so a value comes from
    [HeadClaim_new] only. *)
Record HeadClaim := {
  generation : N;
  root_hash : Hash;
  parent_hash : Hash;
  parent_digest : option Hash;
  tree_root : Hash;
  parser_id : Hash;
}.

#[global] Instance HeadClaim_eq_dec : EqDecision HeadClaim.
Proof. solve_decision. Defined.

Definition HeadClaim_new (generation : N) (root_hash parent_hash : Hash)
    (parent_digest : option Hash) (tree_root parser_id : Hash) : option HeadClaim :=
  if bool_decide (tree_root = Hash_ZERO) || bool_decide (parser_id = Hash_ZERO)
     || bool_decide (parent_digest = Some Hash_ZERO)
  then None
  else Some {| generation := generation; root_hash := root_hash; parent_hash := parent_hash;
               parent_digest := parent_digest; tree_root := tree_root; parser_id := parser_id |}.

(** The bytes fed to the hasher, in order. *)
Definition head_preimage (c : HeadClaim) : list byte :=
  u64_le (generation c)
  ++ as_bytes (root_hash c)
  ++ as_bytes (parent_hash c)
  ++ as_bytes (tree_root c)
  ++ as_bytes (parser_id c)
  ++ match parent_digest c with
     | None => [x00]
     | Some d => x01 :: as_bytes d
     end.

Definition head_digest `{Blake3} (c : HeadClaim) : Hash :=
  blake3_derive_key HEAD_DIGEST_CONTEXT (head_preimage c).

(** Peel one fixed-width field off both sides of a preimage equation. *)
Ltac peel H :=
  apply app_inj_len in H as [?H H]; [|by rewrite ?length_le_bytes, ?length_as_bytes].

Lemma head_preimage_inj c1 c2 :
  generation c1 ≤ u64_max → generation c2 ≤ u64_max →
  head_preimage c1 = head_preimage c2 → c1 = c2.
Proof.
  destruct c1 as [g1 r1 p1 d1 t1 i1], c2 as [g2 r2 p2 d2 t2 i2].
  unfold head_preimage; cbn [generation root_hash parent_hash parent_digest tree_root parser_id].
  intros Hg1 Hg2 H. unfold u64_le in H. do 5 peel H.
  assert (d1 = d2) as -> by (destruct d1, d2; simplify_eq; [f_equal; by apply as_bytes_inj|done]).
  f_equal; try by apply as_bytes_inj. by apply u64_le_inj.
Qed.

(** What [HeadClaim::new] admits, and that the digest binds every field
    of it.  A claim exists exactly when the tree root and parser id are stamped
    and the parent digest is not the zero hash; and two claims with one digest
    are the same claim, all six fields, unless the two preimages are an
    explicit collision of keyed BLAKE3. *)
Theorem head_digest_binds_claim `{Blake3} g1 r1 p1 d1 t1 i1 c1 c2 :
  g1 ≤ u64_max → generation c2 ≤ u64_max →
  HeadClaim_new g1 r1 p1 d1 t1 i1 = Some c1 →
  (t1 ≠ Hash_ZERO ∧ i1 ≠ Hash_ZERO ∧ d1 ≠ Some Hash_ZERO) ∧
  (head_digest c1 = head_digest c2 →
   c2 = {| generation := g1; root_hash := r1; parent_hash := p1; parent_digest := d1;
           tree_root := t1; parser_id := i1 |}
   ∨ collision (blake3_derive_key HEAD_DIGEST_CONTEXT) (head_preimage c1) (head_preimage c2)).
Proof.
  intros Hg1 Hg2 Hn. unfold HeadClaim_new in Hn. case_match eqn:E; [done|]. injection Hn as <-.
  apply orb_false_iff in E as [[E1 E2]%orb_false_iff E3].
  apply bool_decide_eq_false_1 in E1, E2, E3. split; [done|].
  intros [He|Hc]%(eq_or_collision (blake3_derive_key HEAD_DIGEST_CONTEXT)); [left|by right].
  symmetry. by apply head_preimage_inj.
Qed.

Definition demo_hash (b : byte) : Hash := vreplicate 32 b.

Lemma head_digest_binds_claim_witness :
  ∃ c1, HeadClaim_new 7 (demo_hash x01) (demo_hash x02) None (demo_hash x04) (demo_hash x06) = Some c1
    ∧ (@head_digest toy_blake3 c1 = @head_digest toy_blake3 c1 → parent_digest c1 = None).
Proof.
  destruct (HeadClaim_new 7 (demo_hash x01) (demo_hash x02) None (demo_hash x04) (demo_hash x06))
    as [c1|] eqn:E; [|vm_compute in E; discriminate E].
  exists c1. split; [done|].
  destruct (@head_digest_binds_claim toy_blake3 7 (demo_hash x01) (demo_hash x02) None
     (demo_hash x04) (demo_hash x06) c1 c1) as [_ H]; [done| |exact E|].
  { vm_compute in E. injection E as <-. done. }
  intros He. destruct (H He) as [->|[Hn _]]; done.
Defined.
