(* ===== verification/Partition.v ===== *)
(** * Declared decompositions

    [rs/ll-core/core/src/partition.rs]: an address is a keyed hash over a
    declared cut of a value into parts.  Interval domains commit to the order
    of the parts; set domains sort them first, so that only the multiset is
    committed. *)

From S2P Require Import Prelude Substrate.
From Stdlib Require Import NArith Lia.
Local Open Scope N_scope.

Inductive Domain := ByteStream | ChunkSet | RowSet.

Record Entry := { addr : Hash; ea : N; eb : N }.

Record PartitionSpec := {
  domain : Domain;
  scheme : list byte;     (* the UTF-8 bytes of the scheme string *)
  params : list byte;
  canon_version : N;
}.

#[global] Instance Domain_eq_dec : EqDecision Domain.
Proof. solve_decision. Defined.
#[global] Instance Entry_eq_dec : EqDecision Entry.
Proof. solve_decision. Defined.

Definition PARTITION_CONTEXT : string := "leyline partition fold v1".

Definition tag (d : Domain) : byte :=
  match d with ByteStream => x01 | ChunkSet => x02 | RowSet => x03 end.

Definition is_ordered (d : Domain) : bool :=
  match d with ByteStream => true | _ => false end.

(** The sort key [(e.addr, e.a, e.b)], compared lexicographically. *)
Definition entry_leb (x y : Entry) : bool :=
  if bool_decide (addr x = addr y) then
    (ea x <? ea y) || ((ea x =? ea y) && (eb x <=? eb y))
  else bytes_leb (as_bytes (addr x)) (as_bytes (addr y)).
Definition entry_le (x y : Entry) : Prop := entry_leb x y = true.

#[global] Instance entry_le_dec : RelDecision entry_le := λ x y, decide (entry_leb x y = true).

Definition entry_bytes (e : Entry) : list byte :=
  as_bytes (addr e) ++ u64_le (ea e) ++ u64_le (eb e).

(** Everything before the entries. *)
Definition spec_bytes (s : PartitionSpec) (n : N) : list byte :=
  [tag (domain s)] ++ u32_le (canon_version s)
  ++ u64_le (len (scheme s)) ++ scheme s
  ++ u64_le (len (params s)) ++ params s
  ++ u64_le n.

(** The entries in the order they are folded: [sort_unstable_by_key] over a
    total key of all fields, so stability is not observable. *)
Definition canonical_entries (s : PartitionSpec) (entries : list Entry) : list Entry :=
  if is_ordered (domain s) then entries else merge_sort entry_le entries.

Definition address_preimage (s : PartitionSpec) (entries : list Entry) : list byte :=
  spec_bytes s (len entries) ++ concat (entry_bytes <$> canonical_entries s entries).

(** [PartitionSpec::address] *)
Definition address `{Blake3} (s : PartitionSpec) (entries : list Entry) : Hash :=
  blake3_derive_key PARTITION_CONTEXT (address_preimage s entries).

(** ** The order is total, so sorting picks one representative per multiset *)

Lemma entry_le_spec x y :
  entry_le x y ↔
  (addr x = addr y ∧ (ea x < ea y ∨ ea x = ea y ∧ eb x ≤ eb y)) ∨
  (addr x ≠ addr y ∧ bytes_leb (as_bytes (addr x)) (as_bytes (addr y)) = true).
Proof.
  unfold entry_le, entry_leb. case_bool_decide as E; [|naive_solver].
  rewrite orb_true_iff, andb_true_iff, N.ltb_lt, N.eqb_eq, N.leb_le. naive_solver.
Qed.

#[global] Instance entry_le_trans : Transitive entry_le.
Proof.
  intros x y z. rewrite !entry_le_spec.
  intros [[E1 H1]|[E1 H1]] [[E2 H2]|[E2 H2]].
  - left. split; [congruence|lia].
  - right. by rewrite E1.
  - right. by rewrite <- E2.
  - right. split; [|by eapply bytes_leb_trans].
    intros E. apply E1. rewrite E in H1. apply as_bytes_inj. rewrite E. by apply bytes_leb_antisym.
Qed.

#[global] Instance entry_le_total : Total entry_le.
Proof.
  intros x y. rewrite !entry_le_spec. destruct (decide (addr x = addr y)) as [E|E].
  - assert ((ea x < ea y ∨ ea x = ea y ∧ eb x ≤ eb y) ∨ (ea y < ea x ∨ ea y = ea x ∧ eb y ≤ eb x))
      as [?|?] by lia; [left|right]; left; auto.
  - destruct (bytes_leb_total (as_bytes (addr x)) (as_bytes (addr y))); [left|right]; right; auto.
Qed.

#[global] Instance entry_le_antisym : AntiSymm (=) entry_le.
Proof.
  intros [h a b] [h' a' b']. rewrite !entry_le_spec; simpl.
  intros [[E1 H1]|[E1 H1]] [[E2 H2]|[E2 H2]]; try congruence.
  - subst. f_equal; lia.
  - exfalso. apply E1, as_bytes_inj. by apply bytes_leb_antisym.
Qed.

Lemma merge_sort_unique l k : l ≡ₚ k ↔ merge_sort entry_le l = merge_sort entry_le k.
Proof.
  split.
  - intros Hp. apply (Sorted_unique entry_le); [apply Sorted_merge_sort, _..|].
    by rewrite !merge_sort_Permutation.
  - intros E. by rewrite <- (merge_sort_Permutation entry_le l), E, merge_sort_Permutation.
Qed.

(** ** The preimage determines the decomposition *)

Definition entry_wf (e : Entry) : Prop := ea e ≤ u64_max ∧ eb e ≤ u64_max.

(** The ranges Rust's types give the fields. *)
Definition decomposition_wf (s : PartitionSpec) (entries : list Entry) : Prop :=
  canon_version s ≤ u32_max ∧ len (scheme s) ≤ u64_max ∧ len (params s) ≤ u64_max ∧
  len entries ≤ u64_max ∧ Forall entry_wf entries.

Lemma tag_inj d1 d2 : tag d1 = tag d2 → d1 = d2.
Proof. by destruct d1, d2. Qed.

Lemma length_entry_bytes e : length (entry_bytes e) = 48%nat.
Proof.
  unfold entry_bytes, u64_le. by rewrite !length_app, length_as_bytes, !length_le_bytes.
Qed.

Lemma entry_bytes_inj e1 e2 : entry_wf e1 → entry_wf e2 → entry_bytes e1 = entry_bytes e2 → e1 = e2.
Proof.
  destruct e1, e2; unfold entry_wf, entry_bytes; cbn [addr ea eb]. intros [W1 W2] [W3 W4] H.
  apply app_inj_len in H as [H1 H]; [|by rewrite !length_as_bytes].
  apply app_inj_len in H as [H2 H]; [|unfold u64_le; by rewrite !length_le_bytes].
  f_equal; [by apply as_bytes_inj|by apply u64_le_inj..].
Qed.

Lemma concat_entries_inj l1 l2 :
  Forall entry_wf l1 → Forall entry_wf l2 →
  concat (entry_bytes <$> l1) = concat (entry_bytes <$> l2) → l1 = l2.
Proof.
  revert l2. induction l1 as [|e1 l1 IH]; intros [|e2 l2] W1 W2 H; simpl in H; [done| | |].
  - apply (f_equal length) in H. rewrite length_app, length_entry_bytes in H. done.
  - apply (f_equal length) in H. rewrite length_app, length_entry_bytes in H. done.
  - apply Forall_cons in W1 as [? ?], W2 as [? ?].
    apply app_inj_len in H as [He Hl]; [|by rewrite !length_entry_bytes].
    f_equal; [by apply entry_bytes_inj|by apply IH].
Qed.

(** A length-prefixed field can be peeled off. *)
Lemma prefixed_inj l1 l2 k1 k2 :
  len l1 ≤ u64_max → len l2 ≤ u64_max →
  u64_le (len l1) ++ l1 ++ k1 = u64_le (len l2) ++ l2 ++ k2 → l1 = l2 ∧ k1 = k2.
Proof.
  intros H1 H2 H. apply app_inj_len in H as [Hl H]; [|unfold u64_le; by rewrite !length_le_bytes].
  apply u64_le_inj in Hl; [|done..]. apply app_inj_len in H; [done|]. unfold len in Hl. lia.
Qed.

Lemma spec_bytes_inj s1 s2 n1 n2 r1 r2 :
  canon_version s1 ≤ u32_max → canon_version s2 ≤ u32_max →
  len (scheme s1) ≤ u64_max → len (scheme s2) ≤ u64_max →
  len (params s1) ≤ u64_max → len (params s2) ≤ u64_max →
  spec_bytes s1 n1 ++ r1 = spec_bytes s2 n2 ++ r2 → s1 = s2 ∧ r1 = r2.
Proof.
  intros V1 V2 S1 S2 P1 P2 H. destruct s1 as [d1 sc1 p1 v1], s2 as [d2 sc2 p2 v2].
  unfold spec_bytes in H. cbn [domain scheme params canon_version] in *.
  rewrite <- !app_assoc in H. apply app_inj_len in H as [Ht H]; [|done]. injection Ht as Ht.
  apply app_inj_len in H as [Hv H]; [|unfold u32_le; by rewrite !length_le_bytes].
  apply prefixed_inj in H as [-> H]; [|done..]. apply prefixed_inj in H as [-> H]; [|done..].
  apply app_inj_len in H as [_ ->]; [|unfold u64_le; by rewrite !length_le_bytes].
  apply tag_inj in Ht as ->. apply u32_le_inj in Hv as ->; done.
Qed.

(** What an address stands for: the spec, and the entries up to the order a
    set domain does not have. *)
Definition same_decomposition (s1 : PartitionSpec) (l1 : list Entry)
    (s2 : PartitionSpec) (l2 : list Entry) : Prop :=
  s1 = s2 ∧ if is_ordered (domain s1) then l1 = l2 else l1 ≡ₚ l2.

Lemma canonical_entries_wf s l : Forall entry_wf l → Forall entry_wf (canonical_entries s l).
Proof.
  unfold canonical_entries. destruct (is_ordered _); [done|]. by rewrite merge_sort_Permutation.
Qed.

Lemma preimage_same s1 l1 s2 l2 :
  decomposition_wf s1 l1 → decomposition_wf s2 l2 →
  address_preimage s1 l1 = address_preimage s2 l2 ↔ same_decomposition s1 l1 s2 l2.
Proof.
  intros (V1&S1&P1&N1&W1) (V2&S2&P2&N2&W2). unfold same_decomposition. split.
  - intros H. apply spec_bytes_inj in H as [-> H]; [|done..]. split; [done|].
    apply concat_entries_inj in H; [|by apply canonical_entries_wf..].
    unfold canonical_entries in H. destruct (is_ordered _); [done|]. by apply merge_sort_unique.
  - intros [-> H]. unfold address_preimage, canonical_entries.
    destruct (is_ordered _); [by subst|]. apply merge_sort_unique in H as E. rewrite E.
    unfold len. by rewrite H.
Qed.

(** An address is a function of the declared decomposition and of
    nothing else: reordering the entries of a set domain never moves it, and
    two decompositions with one address agree in domain, scheme, parameters,
    version and entries (as a sequence for [ByteStream], as a multiset for
    [ChunkSet] and [RowSet]) or exhibit a collision of keyed BLAKE3. *)
Theorem address_commits_decomposition `{Blake3} s1 l1 s2 l2 :
  decomposition_wf s1 l1 → decomposition_wf s2 l2 →
  (same_decomposition s1 l1 s2 l2 → address s1 l1 = address s2 l2) ∧
  (address s1 l1 = address s2 l2 →
   same_decomposition s1 l1 s2 l2 ∨
   collision (blake3_derive_key PARTITION_CONTEXT) (address_preimage s1 l1) (address_preimage s2 l2)).
Proof.
  intros W1 W2. split.
  - intros Hs. unfold address. by rewrite (proj2 (preimage_same s1 l1 s2 l2 W1 W2) Hs).
  - intros [He|Hc]%(eq_or_collision (blake3_derive_key PARTITION_CONTEXT)); [left|by right].
    by apply preimage_same.
Qed.

(** Two parts of a row set, listed both ways. *)
Definition demo_spec : PartitionSpec :=
  {| domain := RowSet; scheme := [x61; x62]; params := [x63]; canon_version := 1 |}.
Definition demo_entries : list Entry :=
  [{| addr := vreplicate 32 x02; ea := 3; eb := 4 |}; {| addr := vreplicate 32 x01; ea := 9; eb := 9 |}].
Lemma address_commits_decomposition_witness :
  @address toy_blake3 demo_spec demo_entries = @address toy_blake3 demo_spec (reverse demo_entries).
Proof.
  apply (@address_commits_decomposition toy_blake3 demo_spec demo_entries demo_spec (reverse demo_entries)).
  - split_and!; try done. repeat constructor; done.
  - split_and!; try done. repeat constructor; done.
  - split; [done|]. simpl. by rewrite reverse_Permutation.
Defined.
