(* ===== verification/Outboard.v ===== *)
(** * The outboard BLAKE3 tree

    [rs/ll-core/core/src/outboard.rs]: the leaf layer and interior cache that
    keep a buffer's BLAKE3 root current under edits, and the per-chunk
    inclusion proofs a page fault is checked with.

    The tree primitives come from the [blake3] crate's [hazmat] module, so they
    are the parameter [Hazmat]; [HazmatLaws] states what that module documents:
    the shape of the tree and that merging the two halves of a subtree gives
    the subtree. *)

From S2P Require Import Prelude Substrate.
From Stdlib Require Import NArith Lia.
Local Open Scope N_scope.

Definition CHUNK_LEN : N := 1024.

(** ** [blake3::hazmat] *)

Class Hazmat := {
  (** [Hasher::new()], [set_input_offset(off)], [update(bytes)],
      [finalize_non_root()]: the chaining value of the subtree over [bytes] at
      input offset [off]. *)
  chain : N → list byte → Hash;
  merge_subtrees_non_root : Hash → Hash → Hash;
  merge_subtrees_root : Hash → Hash → Hash;
  left_subtree_len : N → N;
}.

(** [n] bytes at offset [off] are a subtree: they fit a power-of-two number of
    chunks to which the offset is aligned. *)
Definition subtree_at (off n : N) : Prop :=
  ∃ k q, n ≤ CHUNK_LEN * 2 ^ k ∧ off = q * (CHUNK_LEN * 2 ^ k).

Class HazmatLaws `{Blake3, Hazmat} := {
  left_subtree_len_spec n : CHUNK_LEN < n →
    ∃ k, left_subtree_len n = CHUNK_LEN * 2 ^ k ∧ CHUNK_LEN * 2 ^ k < n ∧
         n ≤ 2 * (CHUNK_LEN * 2 ^ k);
  chain_merge off d : CHUNK_LEN < len d → subtree_at off (len d) →
    let l := left_subtree_len (len d) in
    chain off d = merge_subtrees_non_root (chain off (takeN l d)) (chain (off + l) (dropN l d));
  blake3_merge d : CHUNK_LEN < len d →
    let l := left_subtree_len (len d) in
    blake3 d = merge_subtrees_root (chain 0 (takeN l d)) (chain l (dropN l d));
}.

(** ** The structure *)

Record ProofStep := { sibling : Hash; sibling_is_left : bool }.

(** [merges] is threaded as a result of the operations that count. *)
Record Outboard := {
  levels : list (list Hash);
  ob_len : N;
  small_root : option Hash;
}.

Inductive outboard_error :=
| DirtyOutOfRange | IndexOutOfRange | WrongChunkLength
| UnexpectedProof | MissingProof | ChunkMismatch | ProofMismatch.

#[global] Instance ProofStep_eq_dec : EqDecision ProofStep.
Proof. solve_decision. Defined.
#[global] Instance outboard_error_eq_dec : EqDecision outboard_error.
Proof. solve_decision. Defined.

(** [usize::is_power_of_two] and [trailing_zeros]. *)
Fixpoint pos_trailing_zeros (p : positive) : N :=
  match p with xO p => 1 + pos_trailing_zeros p | _ => 0 end.
Definition trailing_zeros (n : N) : N :=
  match n with 0 => 64 | Npos p => pos_trailing_zeros p end.
Definition is_power_of_two (n : N) : bool := (0 <? n) && (2 ^ trailing_zeros n =? n).

(** [lo..hi] *)
Definition range (lo hi : N) : list N := (λ i, lo + N.of_nat i) <$> seq 0 (N.to_nat (hi - lo)).

Section operations.
Context `{Blake3, Hazmat}.

Definition leaf_cv (index : N) (bytes : list byte) : Hash := chain (index * CHUNK_LEN) bytes.

(** [leaf_cv(index, &data[start..end])] for chunk [index] of [data], with
    [end] clamped to the buffer. *)
Definition chunk_cv (data : list byte) (index : N) : result outboard_error Hash :=
  let start := index * CHUNK_LEN in
  let stop := N.min (len data) (sat_add start CHUNK_LEN) in
  bytes ← slice_checked start stop data;
  mret (leaf_cv index bytes).

Definition n_chunks (lv : list (list Hash)) : N := len (default [] (lv !! 0%nat)).

Definition refresh_small_root (lv : list (list Hash)) (data : list byte) : option Hash :=
  if n_chunks lv <=? 1 then Some (blake3 data) else None.

(** [merge_subtrees_non_root(&prev[2 * i], &prev[2 * i + 1])] *)
Definition merge_pair (prev : list Hash) (i : N) : result outboard_error Hash :=
  l ← index_checked (2 * i) prev;
  r ← index_checked (2 * i + 1) prev;
  mret (merge_subtrees_non_root l r).

Fixpoint mapR {E A B} (f : A → result E B) (l : list A) : result E (list B) :=
  match l with
  | [] => Ok []
  | x :: l => y ← f x; ys ← mapR f l; mret (y :: ys)
  end.

(** The loop of [rebuild_parents_from] from level [k] up, given the level below
    and the old levels from [k] on.  Each turn halves the level, so the length
    of the level below bounds the turns. *)
Fixpoint rebuild_levels (fuel : nat) (k first_leaf : N) (prev : list Hash)
    (old : list (list Hash)) : result outboard_error (list (list Hash)) :=
  match fuel with
  | O => Ok []
  | S fuel =>
      let len_k := len prev / 2 in
      if len_k =? 0 then Ok [] else
      let lo := N.min (N.shiftr first_leaf k) len_k in
      pushed ← mapR (merge_pair prev) (range lo len_k);
      let cur := takeN lo (default [] (head old)) ++ pushed in
      rest ← rebuild_levels fuel (k + 1) first_leaf cur (tail old);
      mret (cur :: rest)
  end.

Definition rebuild_parents_from (first_leaf : N) (lv : list (list Hash))
    : result outboard_error (list (list Hash)) :=
  match lv with
  | [] => Panic
  | leaves :: old =>
      above ← rebuild_levels (S (length leaves)) 1 first_leaf leaves old;
      mret (leaves :: above)
  end.

(** [data.chunks(CHUNK_LEN).enumerate()], each hashed. *)
Definition build_leaves (data : list byte) : result outboard_error (list Hash) :=
  mapR (chunk_cv data) (range 0 (div_ceil (len data) CHUNK_LEN)).

Definition build (data : list byte) : result outboard_error Outboard :=
  leaves ← build_leaves data;
  lv ← rebuild_parents_from 0 [leaves];
  mret {| levels := lv; ob_len := len data; small_root := refresh_small_root lv data |}.

(** [cur[i] = v] *)
Definition assign (cur : list Hash) (i : N) (v : Hash) : result outboard_error (list Hash) :=
  if i <? len cur then Ok (<[N.to_nat i := v]> cur) else Panic.

(** [for i in idx { cur[i] = f(i) }] *)
Fixpoint assign_all (f : N → result outboard_error Hash) (idx : list N) (cur : list Hash)
    : result outboard_error (list Hash) :=
  match idx with
  | [] => Ok cur
  | i :: idx => v ← f i; cur ← assign cur i v; assign_all f idx cur
  end.

(** The loop of [propagate] over the levels above [prev]; counts its merges.
    (An empty level is skipped in the source; its range is empty here.) *)
Fixpoint propagate_levels (k lo_leaf hi_leaf : N) (prev : list Hash) (above : list (list Hash))
    : result outboard_error (list (list Hash) * N) :=
  match above with
  | [] => Ok ([], 0)
  | cur :: above =>
      let lo := N.min (N.shiftr lo_leaf k) (len cur) in
      let hi := N.min (N.shiftr (hi_leaf - 1) k + 1) (len cur) in
      cur' ← assign_all (merge_pair prev) (range lo hi) cur;
      '(rest, merges) ← propagate_levels (k + 1) lo_leaf hi_leaf cur' above;
      mret (cur' :: rest, (hi - lo) + merges)
  end.

Definition propagate (lo_leaf hi_leaf : N) (lv : list (list Hash))
    : result outboard_error (list (list Hash) * N) :=
  if hi_leaf <=? lo_leaf then Ok (lv, 0) else
  match lv with
  | [] => Ok ([], 0)
  | leaves :: above =>
      '(above', merges) ← propagate_levels 1 lo_leaf hi_leaf leaves above;
      mret (leaves :: above', merges)
  end.

(** The interior-cache probe of [cached_cv]. *)
Definition cache_lookup (lv : list (list Hash)) (start_chunk count : N) : option Hash :=
  if is_power_of_two count && (start_chunk mod count =? 0) then
    let k := trailing_zeros count in
    lvl ← lv !! N.to_nat k; lvl !! N.to_nat (N.shiftr start_chunk k)
  else None.

(** [cached_cv(start_chunk, count, byte_len)] and the merges it counted. *)
Fixpoint cached_cv (fuel : nat) (lv : list (list Hash)) (start_chunk count byte_len : N) : Hash * N :=
  match cache_lookup lv start_chunk count, fuel with
  | Some cv, _ => (cv, 0)
  | None, O => (Hash_ZERO, 0)
  | None, S fuel =>
      let left_bytes := left_subtree_len byte_len in
      let left_chunks := left_bytes / CHUNK_LEN in
      let '(l, m1) := cached_cv fuel lv start_chunk left_chunks left_bytes in
      let '(r, m2) := cached_cv fuel lv (start_chunk + left_chunks) (count - left_chunks)
                        (byte_len - left_bytes) in
      (merge_subtrees_non_root l r, 1 + m1 + m2)
  end.

(** [Outboard::update]: the number of chunks hashed and the parent merges. *)
Definition update (data : list byte) (dirty_start dirty_end : N) (ob : Outboard)
    : result outboard_error (N * N * Outboard) :=
  _ ← ensure ((dirty_start <=? dirty_end) && (dirty_end <=? len data)) DirtyOutOfRange;
  let first_chunk := dirty_start / CHUNK_LEN in
  let n := div_ceil (len data) CHUNK_LEN in
  let leaves := default [] (levels ob !! 0%nat) in
  '(rehashed, merges, lv) ←
    if len data =? ob_len ob then
      let last_chunk_exclusive :=
        if dirty_start =? dirty_end then first_chunk
        else N.min ((dirty_end - 1) / CHUNK_LEN + 1) n in
      leaves' ← assign_all (chunk_cv data) (range first_chunk last_chunk_exclusive) leaves;
      '(lv, merges) ← propagate first_chunk last_chunk_exclusive (leaves' :: tail (levels ob));
      mret (last_chunk_exclusive - first_chunk, merges, lv)
    else
      let first := N.min first_chunk n in
      pushed ← mapR (chunk_cv data) (range first n);
      lv ← rebuild_parents_from first ((takeN first leaves ++ pushed) :: tail (levels ob));
      mret (n - first, 0, lv);
  mret (rehashed, merges,
        {| levels := lv; ob_len := len data; small_root := refresh_small_root lv data |}).

(** [Outboard::root] and [merges_since_last_root] right after it. *)
Definition root (ob : Outboard) : Hash * N :=
  match small_root ob with
  | Some small => (small, 0)
  | None =>
      let left_bytes := left_subtree_len (ob_len ob) in
      let left_chunks := left_bytes / CHUNK_LEN in
      let n := n_chunks (levels ob) in
      let fuel := N.to_nat n in
      let '(l, m1) := cached_cv fuel (levels ob) 0 left_chunks left_bytes in
      let '(r, m2) := cached_cv fuel (levels ob) left_chunks (n - left_chunks)
                        (ob_len ob - left_bytes) in
      (merge_subtrees_root l r, 1 + m1 + m2)
  end.

(** [collect_proof], top step first. *)
Fixpoint collect_proof (fuel : nat) (lv : list (list Hash)) (start count byte_len index : N)
    : list ProofStep :=
  match fuel with
  | O => []
  | S fuel =>
      if count =? 1 then [] else
      let left_bytes := left_subtree_len byte_len in
      let left_chunks := left_bytes / CHUNK_LEN in
      if index <? left_chunks then
        {| sibling := fst (cached_cv fuel lv (start + left_chunks) (count - left_chunks)
                             (byte_len - left_bytes));
           sibling_is_left := false |}
        :: collect_proof fuel lv start left_chunks left_bytes index
      else
        {| sibling := fst (cached_cv fuel lv start left_chunks left_bytes);
           sibling_is_left := true |}
        :: collect_proof fuel lv (start + left_chunks) (count - left_chunks)
             (byte_len - left_bytes) (index - left_chunks)
  end.

Definition prove (ob : Outboard) (index : N) : result outboard_error (list ProofStep) :=
  let n := n_chunks (levels ob) in
  _ ← ensure (index <? N.max n 1) IndexOutOfRange;
  if n <=? 1 then Ok [] else
  mret (reverse (collect_proof (N.to_nat n) (levels ob) 0 n (ob_len ob) index)).

(** The fold of [verify_chunk] over the proof, leaf up. *)
Fixpoint verify_fold (root cv : Hash) (proof : list ProofStep) : result outboard_error unit :=
  match proof with
  | [] => Panic
  | step :: proof =>
      let '(l, r) := if sibling_is_left step then (sibling step, cv) else (cv, sibling step) in
      match proof with
      | [] => ensure (bool_decide (merge_subtrees_root l r = root)) ProofMismatch
      | _ => verify_fold root (merge_subtrees_non_root l r) proof
      end
  end.

Definition verify_chunk (root : Hash) (total_len index : N) (chunk_bytes : list byte)
    (proof : list ProofStep) : result outboard_error unit :=
  let n := N.max (div_ceil total_len CHUNK_LEN) 1 in
  _ ← ensure (index <? n) IndexOutOfRange;
  let expected_len := if index + 1 =? n then total_len - index * CHUNK_LEN else CHUNK_LEN in
  _ ← ensure (len chunk_bytes =? expected_len) WrongChunkLength;
  if n =? 1 then
    _ ← ensure (bool_decide (proof = [])) UnexpectedProof;
    ensure (bool_decide (blake3 chunk_bytes = root)) ChunkMismatch
  else
    _ ← ensure (negb (bool_decide (proof = []))) MissingProof;
    verify_fold root (leaf_cv index chunk_bytes) proof.

End operations.

(** ** Ranges, powers of two and loops *)

Lemma lookup_range lo hi j : lo + N.of_nat j < hi → range lo hi !! j = Some (lo + N.of_nat j).
Proof. intros. unfold range. rewrite list_lookup_fmap, lookup_seq_lt by lia. done. Qed.

Lemma length_range lo hi : length (range lo hi) = N.to_nat (hi - lo).
Proof. unfold range. by rewrite length_fmap, length_seq. Qed.

Lemma elem_of_range i lo hi : i ∈ range lo hi ↔ lo ≤ i ∧ i < hi.
Proof.
  unfold range. rewrite list_elem_of_fmap. setoid_rewrite elem_of_seq. split.
  - intros (j & -> & ?). lia.
  - intros [? ?]. exists (N.to_nat (i - lo)). lia.
Qed.

Lemma lookup_map_range {A} (g : N → A) n j :
  (g <$> range 0 n) !! j = if N.of_nat j <? n then Some (g (N.of_nat j)) else None.
Proof.
  rewrite list_lookup_fmap. destruct (N.ltb_spec (N.of_nat j) n).
  - by rewrite lookup_range by lia.
  - rewrite lookup_ge_None_2; [done|]. rewrite length_range. lia.
Qed.

Lemma len_map_range {A} (g : N → A) lo n : len (g <$> range lo n) = n - lo.
Proof. unfold len. rewrite length_fmap, length_range. lia. Qed.

Lemma mapR_ok {E A B} (f : A → result E B) g l :
  (∀ x, x ∈ l → f x = Ok (g x)) → mapR f l = Ok (g <$> l).
Proof.
  induction l as [|x l IH]; intros Hf; [done|]. simpl.
  rewrite Hf by set_solver. simpl. rewrite IH by set_solver. done.
Qed.

Lemma assign_all_ok f g idx cur :
  (∀ i, i ∈ idx → i < len cur ∧ f i = Ok (g i)) →
  ∃ cur', assign_all f idx cur = Ok cur' ∧ length cur' = length cur ∧
    ∀ j, (j < length cur)%nat →
      cur' !! j = if bool_decide (N.of_nat j ∈ idx) then Some (g (N.of_nat j)) else cur !! j.
Proof.
  revert cur. induction idx as [|i idx IH]; intros cur Hf.
  - exists cur. split_and!; [done..|]. intros. by rewrite bool_decide_false by set_solver.
  - destruct (Hf i) as [Hi Hg]; [set_solver|]. simpl. rewrite Hg. simpl. unfold assign.
    rewrite (proj2 (N.ltb_lt _ _) Hi). simpl.
    destruct (IH (<[N.to_nat i := g i]> cur)) as (cur' & Hr & Hl & Hlk).
    { intros i' Hi'. unfold len. rewrite length_insert. apply Hf. set_solver. }
    rewrite length_insert in Hl, Hlk. exists cur'. split_and!; [done..|].
    intros j Hj. rewrite Hlk by done. destruct (decide (N.of_nat j ∈ idx)).
    + rewrite !bool_decide_true by set_solver. done.
    + rewrite (bool_decide_false (_ ∈ idx)) by done. destruct (decide (i = N.of_nat j)) as [->|].
      * rewrite Nat2N.id, list_lookup_insert_eq by done. by rewrite bool_decide_true by set_solver.
      * rewrite list_lookup_insert_ne by lia. by rewrite bool_decide_false by set_solver.
Qed.

Lemma assign_all_map f g0 g1 lo hi n :
  hi ≤ n → (∀ i, lo ≤ i → i < hi → f i = Ok (g1 i)) →
  (∀ i, i < n → i < lo ∨ hi ≤ i → g0 i = g1 i) →
  assign_all f (range lo hi) (g0 <$> range 0 n) = Ok (g1 <$> range 0 n).
Proof.
  intros Hn Hf Heq. destruct (assign_all_ok f g1 (range lo hi) (g0 <$> range 0 n))
    as (cur & -> & Hl & Hlk).
  { intros i [? ?]%elem_of_range. rewrite len_map_range. split; [lia|by apply Hf]. }
  f_equal. apply list_eq. intros j. rewrite length_fmap, length_range in Hl, Hlk.
  destruct (decide (j < N.to_nat (n - 0))%nat) as [Hj|Hj].
  - rewrite Hlk by done. rewrite !lookup_map_range, (proj2 (N.ltb_lt _ _)) by lia.
    case_bool_decide as Hr; [done|]. rewrite elem_of_range in Hr. f_equal. apply Heq; lia.
  - rewrite !lookup_ge_None_2; [done|rewrite length_fmap, length_range; lia|lia].
Qed.

Lemma pow2_pos k : 1 ≤ 2 ^ k.
Proof. pose proof (N.pow_nonzero 2 k). lia. Qed.

Lemma pos_trailing_zeros_pow k : pos_trailing_zeros (Pos.pow 2 k) = Npos k.
Proof.
  induction k as [|k IH] using Pos.peano_ind; [done|].
  rewrite Pos.pow_succ_r.
  change (pos_trailing_zeros (2 * 2 ^ k)) with (1 + pos_trailing_zeros (2 ^ k)).
  rewrite IH. lia.
Qed.

Lemma trailing_zeros_pow k : trailing_zeros (2 ^ k) = k.
Proof. destruct k as [|k]; [done|]. simpl. apply pos_trailing_zeros_pow. Qed.

Lemma is_power_of_two_spec n : is_power_of_two n = true ↔ n = 2 ^ trailing_zeros n.
Proof.
  unfold is_power_of_two. rewrite andb_true_iff, N.ltb_lt, N.eqb_eq. split; [lia|].
  intros E. split; [|done]. rewrite E. pose proof (pow2_pos (trailing_zeros n)). lia.
Qed.

Lemma is_power_of_two_pow k : is_power_of_two (2 ^ k) = true.
Proof. apply is_power_of_two_spec. by rewrite trailing_zeros_pow. Qed.

(** The tree shape: how many chunks, and where a subtree divides. *)
Lemma div_ceil_bounds n :
  CHUNK_LEN * div_ceil n CHUNK_LEN < n + CHUNK_LEN ∧ n ≤ CHUNK_LEN * div_ceil n CHUNK_LEN.
Proof.
  unfold div_ceil, CHUNK_LEN.
  pose proof (N.div_mod' (n + 1024 - 1) 1024) as Hd.
  pose proof (N.mod_lt (n + 1024 - 1) 1024 ltac:(done)) as Hm.
  generalize dependent ((n + 1024 - 1) mod 1024). intros r. lia.
Qed.

Lemma div_ceil_unique n c :
  CHUNK_LEN * c < n + CHUNK_LEN → n ≤ CHUNK_LEN * c → div_ceil n CHUNK_LEN = c.
Proof. pose proof (div_ceil_bounds n). unfold CHUNK_LEN in *. lia. Qed.

(** The power of two in the half-open octave below [n] is unique. *)
Lemma pow2_octave n k j :
  CHUNK_LEN * 2 ^ k < n → n ≤ 2 * (CHUNK_LEN * 2 ^ k) →
  CHUNK_LEN * 2 ^ j < n → n ≤ 2 * (CHUNK_LEN * 2 ^ j) → k = j.
Proof.
  unfold CHUNK_LEN. intros H1 H2 H3 H4.
  destruct (N.lt_trichotomy k j) as [Hl|[->|Hl]]; [|done|]; exfalso.
  - pose proof (N.pow_le_mono_r 2 (N.succ k) j). rewrite N.pow_succ_r in *; lia.
  - pose proof (N.pow_le_mono_r 2 (N.succ j) k). rewrite N.pow_succ_r in *; lia.
Qed.

Section tree.
Context `{B3 : Blake3} `{HZ : Hazmat} `{BL : !HazmatLaws}.

Lemma left_subtree_len_eq n k :
  CHUNK_LEN * 2 ^ k < n → n ≤ 2 * (CHUNK_LEN * 2 ^ k) → left_subtree_len n = CHUNK_LEN * 2 ^ k.
Proof.
  intros Hl Hu. pose proof (pow2_pos k).
  destruct (left_subtree_len_spec n) as (j & -> & Hj1 & Hj2); [unfold CHUNK_LEN in *; lia|].
  by rewrite (pow2_octave n k j).
Qed.

(** *** Reference values *)

Definition span (k : N) : N := CHUNK_LEN * 2 ^ k.
Definition node (d : list byte) (k i : N) : Hash :=
  chain (i * span k) (slice (i * span k) ((i + 1) * span k) d).
Definition nch (d : list byte) : N := div_ceil (len d) CHUNK_LEN.
(** How many perfect subtrees of [2 ^ k] chunks the buffer has. *)
Definition width (d : list byte) (k : N) : N := nch d / 2 ^ k.
Definition level (d : list byte) (k : N) : list Hash := node d k <$> range 0 (width d k).

Lemma span_succ k : span (k + 1) = 2 * span k.
Proof. unfold span. rewrite N.add_1_r, N.pow_succ_r'. lia. Qed.

Lemma span_pos k : 1024 ≤ span k.
Proof. unfold span. pose proof (pow2_pos k). unfold CHUNK_LEN. lia. Qed.

(** A cached parent covers bytes in both halves. *)
Lemma pair_in_range d k i : i < width d (k + 1) → (2 * i + 1) * span k < len d.
Proof.
  intros Hi. pose proof (pow2_pos k) as Hp.
  pose proof (div_ceil_bounds (len d)) as [Hlt _]. fold (nch d) in Hlt.
  assert ((i + 1) * 2 ^ (k + 1) ≤ nch d) as Hle.
  { rewrite N.mul_comm. etrans; [apply N.mul_le_mono_l with (m := width d (k + 1)); lia|].
    apply N.Div0.mul_div_le. }
  rewrite (N.add_1_r k), N.pow_succ_r' in Hle. unfold span, CHUNK_LEN in *.
  assert ((i + 1) * (2 * 2 ^ k) = 2 * (i * 2 ^ k) + 2 * 2 ^ k) as E1 by lia.
  assert ((2 * i + 1) * (1024 * 2 ^ k) = 2048 * (i * 2 ^ k) + 1024 * 2 ^ k) as -> by lia. lia.
Qed.

Lemma node_merge d k i :
  (2 * i + 1) * span k < len d →
  node d (k + 1) i = merge_subtrees_non_root (node d k (2 * i)) (node d k (2 * i + 1)).
Proof.
  intros Hi. pose proof (span_pos k) as Hs. unfold node. rewrite span_succ.
  set (D := slice (i * (2 * span k)) ((i + 1) * (2 * span k)) d).
  assert (len D = N.min (2 * span k) (len d - i * (2 * span k))) as HD.
  { unfold D, slice. rewrite len_takeN, len_dropN. f_equal. lia. }
  assert (span k < len D ∧ len D ≤ 2 * span k) as [HD1 HD2] by (rewrite HD; lia).
  assert (left_subtree_len (len D) = span k) as HL by (by apply left_subtree_len_eq).
  rewrite chain_merge; [|unfold CHUNK_LEN; lia|].
  2:{ exists (k + 1), i. fold (span (k + 1)). rewrite span_succ. lia. }
  rewrite HL. f_equal; f_equal; try lia.
  - unfold D, slice, takeN. rewrite take_take. f_equal; [lia|]. f_equal. lia.
  - unfold D. rewrite dropN_slice by lia. f_equal; lia.
Qed.

Lemma span_0 : span 0 = CHUNK_LEN.
Proof. reflexivity. Qed.

Lemma slice_clamp lo hi (d : list byte) : slice lo (N.min (len d) hi) d = slice lo hi d.
Proof.
  unfold slice. destruct (N.le_ge_cases hi (len d)) as [Hh|Hh].
  - by rewrite N.min_r.
  - rewrite N.min_l by done. rewrite !takeN_ge; [done|rewrite len_dropN; lia..].
Qed.

Lemma chunk_cv_ok d i : len d ≤ u64_max → i < nch d → chunk_cv d i = Ok (node d 0 i).
Proof.
  intros Hd Hi. pose proof (div_ceil_bounds (len d)) as [Hb _]. fold (nch d) in Hb.
  unfold chunk_cv, sat_add. rewrite slice_checked_ok by (unfold CHUNK_LEN, u64_max in *; lia).
  unfold mbind, result_bind, mret, result_ret, leaf_cv, node. rewrite span_0. do 2 f_equal.
  replace (N.min (len d) (N.min (i * CHUNK_LEN + CHUNK_LEN) u64_max))
    with (N.min (len d) ((i + 1) * CHUNK_LEN)) by (unfold CHUNK_LEN, u64_max in *; lia).
  apply slice_clamp.
Qed.

Lemma len_level d k : len (level d k) = width d k.
Proof. unfold level. by rewrite len_map_range, N.sub_0_r. Qed.

Lemma lookup_level d k i : i < width d k → level d k !! N.to_nat i = Some (node d k i).
Proof.
  intros. unfold level. rewrite lookup_map_range, N2Nat.id. by rewrite (proj2 (N.ltb_lt _ _)).
Qed.

Lemma half_level d k : width d (k + 1) = width d k / 2.
Proof. unfold width. rewrite N.add_1_r, N.pow_succ_r'. rewrite N.mul_comm. by rewrite N.Div0.div_div. Qed.

Lemma merge_pair_ok d k i :
  i < width d (k + 1) → merge_pair (level d k) i = Ok (node d (k + 1) i).
Proof.
  intros Hi. unfold merge_pair, index_checked. pose proof Hi as Hi'. rewrite half_level in Hi'.
  pose proof (N.Div0.mul_div_le (width d k) 2).
  rewrite !lookup_level by lia. unfold mbind, result_bind, mret, result_ret. f_equal.
  symmetry. by apply node_merge, pair_in_range.
Qed.

(** The levels from [k] up, exactly. *)
Definition above_ok (d : list byte) (k : N) (l : list (list Hash)) : Prop :=
  ∀ j : nat, l !! j = if 0 <? width d (k + N.of_nat j)
                      then Some (level d (k + N.of_nat j)) else None.

Lemma level_zero_above d k j : width d k = 0 → width d (k + j) = 0.
Proof. unfold width. intros Hz. rewrite N.pow_add_r, <- N.Div0.div_div, Hz. by rewrite N.Div0.div_0_l. Qed.

Lemma above_ok_nil d k : width d k = 0 → above_ok d k [].
Proof. intros Hz j. by rewrite level_zero_above. Qed.

Lemma above_ok_cons d k l :
  0 < width d k → above_ok d (k + 1) l → above_ok d k (level d k :: l).
Proof.
  intros Hp Hl [|j].
  - rewrite N.add_0_r. by rewrite (proj2 (N.ltb_lt _ _)).
  - specialize (Hl j). simpl lookup. rewrite Hl.
    by replace (k + 1 + N.of_nat j) with (k + N.of_nat (S j)) by lia.
Qed.

Lemma above_ok_tail d k l : above_ok d k l → above_ok d (k + 1) (tail l).
Proof.
  intros Hl j. specialize (Hl (S j)).
  replace (k + N.of_nat (S j)) with (k + 1 + N.of_nat j) in Hl by lia.
  rewrite <- Hl. by destruct l.
Qed.

Lemma above_ok_head d k l :
  above_ok d k l → default [] (head l) = if 0 <? width d k then level d k else [].
Proof.
  intros Hl. specialize (Hl 0%nat). rewrite N.add_0_r in Hl.
  destruct l as [|x l]; simpl in *; by destruct (0 <? _); simplify_eq.
Qed.

(** *** Rebuilding after the grid moved *)

Lemma rebuild_levels_ok d0 d1 first fuel k old :
  above_ok d0 (k + 1) old →
  (∀ j, N.shiftr first j ≤ width d0 j) →
  (∀ j i, i < N.shiftr first j → node d0 j i = node d1 j i) →
  (N.to_nat (width d1 k) < fuel)%nat →
  ∃ l, rebuild_levels fuel (k + 1) first (level d1 k) old = Ok l ∧ above_ok d1 (k + 1) l.
Proof.
  intros Hold Hfirst Heq. revert k old Hold.
  induction fuel as [|fuel IH]; intros k old Hold Hf; [lia|].
  cbn [rebuild_levels]. rewrite len_level, <- half_level.
  destruct (N.eqb_spec (width d1 (k + 1)) 0) as [Hz|Hz].
  { exists []. split; [done|]. by apply above_ok_nil. }
  set (n := width d1 (k + 1)) in *. set (lo := N.min (N.shiftr first (k + 1)) n).
  rewrite (mapR_ok _ (node d1 (k + 1))).
  2:{ intros i [? ?]%elem_of_range. by apply merge_pair_ok. }
  assert (takeN lo (default [] (head old)) ++ (node d1 (k + 1) <$> range lo n) = level d1 (k + 1))
    as Hcur.
  { rewrite (above_ok_head d0 (k + 1)) by done. specialize (Hfirst (k + 1)).
    apply list_eq. intros j. unfold level at 2. fold n. rewrite lookup_map_range.
    assert (length (takeN lo (if 0 <? width d0 (k + 1) then level d0 (k + 1) else []))
            = N.to_nat lo) as Hlen.
    { enough (len (takeN lo (if 0 <? width d0 (k + 1) then level d0 (k + 1) else [])) = lo)
        as E by (unfold len in E; lia).
      rewrite len_takeN. destruct (N.ltb_spec 0 (width d0 (k + 1)));
        rewrite ?len_level, ?len_nil; lia. }
    destruct (decide (j < N.to_nat lo)%nat) as [Hj|Hj].
    - rewrite lookup_app_l by lia. unfold takeN. rewrite lookup_take_lt by done.
      destruct (N.ltb_spec 0 (width d0 (k + 1))); [|lia].
      unfold level. rewrite lookup_map_range, !(proj2 (N.ltb_lt _ _)) by lia.
      f_equal. apply Heq. lia.
    - rewrite lookup_app_r by lia. rewrite Hlen, list_lookup_fmap.
      destruct (N.ltb_spec (N.of_nat j) n).
      + rewrite lookup_range by lia. simpl. do 2 f_equal. lia.
      + rewrite lookup_ge_None_2; [done|]. rewrite length_range. lia. }
  unfold mbind, result_bind. rewrite Hcur.
  destruct (IH (k + 1) (tail old)) as (l & -> & Hl).
  { by apply above_ok_tail. }
  { pose proof (N.Div0.mul_div_le (width d1 k) 2) as Hh. rewrite <- half_level in Hh. fold n in Hh |- *.
    lia. }
  eexists. split; [done|]. apply above_ok_cons; [lia|done].
Qed.

(** *** Refreshing the dirty path *)

Lemma propagate_levels_ok d0 d1 lo hi k above :
  above_ok d0 (k + 1) above → nch d0 = nch d1 → lo < hi →
  (∀ j i, i < N.shiftr lo j ∨ N.shiftr (hi - 1) j < i → node d0 j i = node d1 j i) →
  ∃ l m, propagate_levels (k + 1) lo hi (level d1 k) above = Ok (l, m) ∧ above_ok d1 (k + 1) l.
Proof.
  intros Ha Hn Hlt Heq. assert (∀ k, width d0 k = width d1 k) as Hw by (intros; unfold width; by rewrite Hn).
  revert k Ha.
  induction above as [|cur above IH]; intros k Ha; cbn [propagate_levels].
  - exists [], 0. split; [done|]. intros j. rewrite <- Hw. specialize (Ha j). simpl in Ha.
    destruct (0 <? _); [done|done].
  - pose proof (Ha 0%nat) as Hc. rewrite N.add_0_r in Hc. simpl in Hc.
    destruct (N.ltb_spec 0 (width d0 (k + 1))) as [Hp|]; [|done]. injection Hc as ->.
    rewrite len_level, Hw.
    replace (level d0 (k + 1)) with (node d0 (k + 1) <$> range 0 (width d1 (k + 1)))
      by (unfold level; by rewrite Hw).
    rewrite (assign_all_map _ _ (node d1 (k + 1))).
    + unfold mbind, result_bind. fold (level d1 (k + 1)).
      destruct (IH (k + 1)) as (l & m & -> & Hl); [by apply above_ok_tail in Ha|].
      eexists _, _. split; [done|]. apply above_ok_cons; [by rewrite <- Hw|done].
    + lia.
    + intros i Hi1 Hi2. apply merge_pair_ok. lia.
    + intros i Hi Hor. apply Heq. lia.
Qed.

(** ** The invariant, and what keeps it *)

Definition outboard_ok (d : list byte) (ob : Outboard) : Prop :=
  ob_len ob = len d ∧
  small_root ob = (if nch d <=? 1 then Some (blake3 d) else None) ∧
  ∃ above, levels ob = level d 0 :: above ∧ above_ok d 1 above.

Lemma width_0 d : width d 0 = nch d.
Proof. unfold width. apply N.div_1_r. Qed.

Lemma n_chunks_level d above : n_chunks (level d 0 :: above) = nch d.
Proof. unfold n_chunks. simpl. by rewrite len_level, width_0. Qed.

Lemma level_0 d : len d ≤ u64_max → build_leaves d = Ok (level d 0).
Proof.
  intros Hd. unfold build_leaves, level. fold (nch d). rewrite width_0.
  apply mapR_ok. intros i [_ Hi]%elem_of_range. by apply chunk_cv_ok.
Qed.

Lemma build_ok d : len d ≤ u64_max → ∃ ob, build d = Ok ob ∧ outboard_ok d ob.
Proof.
  intros Hd. unfold build. rewrite level_0 by done. unfold rebuild_parents_from, mbind, result_bind.
  destruct (rebuild_levels_ok [] d 0 (S (length (level d 0))) 0 []) as (above & Hr & Ha).
  - by apply above_ok_nil.
  - intros j. rewrite N.shiftr_0_l. lia.
  - intros j i. rewrite N.shiftr_0_l. lia.
  - pose proof (len_level d 0). unfold len in *. lia.
  - rewrite N.add_0_l in Hr, Ha. rewrite Hr. eexists. split; [done|].
    split_and!; [done| |by eexists]. unfold refresh_small_root. cbn [levels small_root].
    by rewrite n_chunks_level.
Qed.

(** The caller reports the edit truthfully: nothing before the dirty range
    changed, and nothing after it when the length is the same. *)
Definition truthful (d0 d1 : list byte) (dirty_start dirty_end : N) : Prop :=
  takeN dirty_start d0 = takeN dirty_start d1 ∧
  (len d0 = len d1 → dropN dirty_end d0 = dropN dirty_end d1).

Lemma slice_before (d0 d1 : list byte) n lo hi :
  takeN n d0 = takeN n d1 → hi ≤ n → slice lo hi d0 = slice lo hi d1.
Proof.
  intros E Hn. by rewrite <- (slice_takeN lo hi n d0), E, slice_takeN.
Qed.

Lemma slice_after (d0 d1 : list byte) n lo hi :
  dropN n d0 = dropN n d1 → n ≤ lo → slice lo hi d0 = slice lo hi d1.
Proof.
  intros E Hn. unfold slice. f_equal. replace lo with (n + (lo - n)) by lia.
  by rewrite <- !dropN_dropN, E.
Qed.

Lemma shiftr_span first j i : i < N.shiftr first j → (i + 1) * span j ≤ first * CHUNK_LEN.
Proof.
  rewrite N.shiftr_div_pow2. intros Hi. unfold span.
  assert ((i + 1) * 2 ^ j ≤ first); [|unfold CHUNK_LEN; lia].
  etrans; [apply N.mul_le_mono_r with (m := first / 2 ^ j); lia|].
  rewrite N.mul_comm. apply N.Div0.mul_div_le.
Qed.

Lemma shiftr_span_gt last j i : N.shiftr last j < i → (last + 1) * CHUNK_LEN ≤ i * span j.
Proof.
  rewrite N.shiftr_div_pow2. intros Hi. unfold span.
  assert (last < i * 2 ^ j); [|unfold CHUNK_LEN; lia].
  pose proof (pow2_pos j).
  eapply N.lt_le_trans; [apply (N.mul_succ_div_gt last (2 ^ j)); lia|].
  rewrite N.mul_comm. apply N.mul_le_mono_r. lia.
Qed.

Lemma chunk_floor n : n / CHUNK_LEN * CHUNK_LEN ≤ n ∧ n < (n / CHUNK_LEN + 1) * CHUNK_LEN.
Proof.
  pose proof (N.div_mod' n CHUNK_LEN) as Hd. pose proof (N.mod_lt n CHUNK_LEN ltac:(done)) as Hm.
  generalize dependent (n mod CHUNK_LEN). generalize dependent (n / CHUNK_LEN).
  unfold CHUNK_LEN. lia.
Qed.

Lemma update_in_place d0 d1 ob ds de :
  outboard_ok d0 ob → truthful d0 d1 ds de → len d1 ≤ u64_max →
  ds ≤ de → de ≤ len d1 → len d1 = len d0 →
  ∃ m ob', update d1 ds de ob =
    Ok ((if ds =? de then 0 else (de - 1) / CHUNK_LEN + 1 - ds / CHUNK_LEN), m, ob')
    ∧ outboard_ok d1 ob'.
Proof.
  intros (Hl & Hs & above & Hlv & Ha) [Ht Hd] Hb H1 H2 Elen. specialize (Hd (eq_sym Elen)).
  assert (nch d0 = nch d1) as Hn by (unfold nch; by rewrite Elen).
  unfold update. rewrite (proj2 (N.leb_le _ _) H1), (proj2 (N.leb_le _ _) H2).
  cbn [andb ensure mbind result_bind]. rewrite (proj2 (N.eqb_eq (len d1) (ob_len ob))) by congruence.
  rewrite Hlv. fold (nch d1).
  cbn [lookup list_lookup default from_option id tail].
  destruct (N.eqb_spec ds de) as [<-|Hne].
  - assert (d0 = d1) as <-.
    { by rewrite <- (takeN_dropN ds d0), <- (takeN_dropN ds d1), Ht, Hd. }
    unfold range. rewrite N.sub_diag. cbn [N.to_nat seq fmap list_fmap assign_all mbind result_bind].
    unfold propagate. rewrite (proj2 (N.leb_le _ _)) by lia. cbn [mbind result_bind].
    eexists _, _. split; [done|]. split_and!; [done| |by eexists].
    unfold refresh_small_root. cbn [small_root]. by rewrite n_chunks_level.
  - pose proof (chunk_floor ds) as Hf. pose proof (chunk_floor (de - 1)) as Hg.
    pose proof (div_ceil_bounds (len d1)) as [_ Hc]. fold (nch d1) in Hc.
    assert ((de - 1) / CHUNK_LEN + 1 ≤ nch d1) as Hle by (unfold CHUNK_LEN in *; lia).
    assert (ds / CHUNK_LEN < (de - 1) / CHUNK_LEN + 1) as Hlt
      by (enough (ds / CHUNK_LEN ≤ (de - 1) / CHUNK_LEN) by lia; apply N.Div0.div_le_mono; lia).
    rewrite (N.min_l _ (nch d1)) by done.
    set (first := ds / CHUNK_LEN) in *. set (last := (de - 1) / CHUNK_LEN + 1) in *.
    assert (∀ j i, i < N.shiftr first j ∨ N.shiftr (last - 1) j < i → node d0 j i = node d1 j i) as Hnode.
    { intros j i Hi. unfold node. f_equal. destruct Hi as [Hi|Hi].
      - apply (slice_before _ _ ds); [done|]. apply shiftr_span in Hi. lia.
      - apply (slice_after _ _ de); [done|]. apply shiftr_span_gt in Hi. unfold last in *. lia. }
    assert (assign_all (chunk_cv d1) (range first last) (level d0 0) = Ok (level d1 0)) as Has.
    { unfold level. rewrite !width_0, Hn. apply assign_all_map; [done| |].
      - intros i ? ?. apply chunk_cv_ok; [done|lia].
      - intros i ? Hi. apply Hnode. rewrite !N.shiftr_0_r. lia. }
    rewrite Has. cbn [mbind result_bind]. unfold propagate. rewrite (proj2 (N.leb_gt _ _)) by done.
    destruct (propagate_levels_ok d0 d1 first last 0 above) as (l & m & Hp & Hl'); try done.
    rewrite N.add_0_l in Hp, Hl'. rewrite Hp. cbn [mbind result_bind].
    eexists _, _. split; [done|]. split_and!; [done| |by eexists].
    unfold refresh_small_root. cbn [small_root]. by rewrite n_chunks_level.
Qed.

Lemma update_resized d0 d1 ob ds de :
  outboard_ok d0 ob → truthful d0 d1 ds de → len d1 ≤ u64_max →
  ds ≤ de → de ≤ len d1 → len d1 ≠ len d0 →
  ∃ ob', update d1 ds de ob = Ok (nch d1 - ds / CHUNK_LEN, 0, ob') ∧ outboard_ok d1 ob'.
Proof.
  intros (Hl & Hs & above & Hlv & Ha) [Ht _] Hb H1 H2 Elen.
  unfold update. rewrite (proj2 (N.leb_le _ _) H1), (proj2 (N.leb_le _ _) H2).
  cbn [andb ensure mbind result_bind]. rewrite Hl, (proj2 (N.eqb_neq _ _) Elen), Hlv. fold (nch d1).
  cbn [lookup list_lookup default from_option id tail].
  pose proof (chunk_floor ds) as [Hf _].
  assert (ds ≤ len d0) as Hds.
  { apply (f_equal len) in Ht. rewrite !len_takeN in Ht. lia. }
  pose proof (div_ceil_bounds (len d0)) as [_ Hc0]. fold (nch d0) in Hc0.
  pose proof (div_ceil_bounds (len d1)) as [_ Hc1]. fold (nch d1) in Hc1.
  assert (ds / CHUNK_LEN ≤ nch d1 ∧ ds / CHUNK_LEN ≤ nch d0) as [Hn1 Hn0]
    by (unfold CHUNK_LEN in *; lia).
  rewrite (N.min_l _ (nch d1)) by done. set (first := ds / CHUNK_LEN) in *.
  assert (∀ j i, i < N.shiftr first j → node d0 j i = node d1 j i) as Hnode.
  { intros j i Hi. unfold node. f_equal. apply (slice_before _ _ ds); [done|].
    apply shiftr_span in Hi. lia. }
  rewrite (mapR_ok _ (node d1 0)).
  2:{ intros i [_ Hi]%elem_of_range. by apply chunk_cv_ok. }
  assert (takeN first (level d0 0) ++ (node d1 0 <$> range first (nch d1)) = level d1 0) as Hlev.
  { assert (length (takeN first (level d0 0)) = N.to_nat first) as El.
    { enough (len (takeN first (level d0 0)) = first) as E by (unfold len in E; lia).
      rewrite len_takeN, len_level, width_0. lia. }
    apply list_eq. intros j. unfold level at 2. rewrite width_0, lookup_map_range.
    destruct (decide (j < N.to_nat first)%nat).
    - rewrite lookup_app_l by lia. unfold takeN. rewrite lookup_take_lt by done.
      unfold level. rewrite lookup_map_range, width_0, !(proj2 (N.ltb_lt _ _)) by lia.
      f_equal. apply Hnode. rewrite N.shiftr_0_r. lia.
    - rewrite lookup_app_r by lia. rewrite El, list_lookup_fmap.
      destruct (N.ltb_spec (N.of_nat j) (nch d1)).
      + rewrite lookup_range by lia. simpl. do 2 f_equal. lia.
      + rewrite lookup_ge_None_2; [done|]. rewrite length_range. lia. }
  cbn [mbind result_bind]. rewrite Hlev. unfold rebuild_parents_from.
  destruct (rebuild_levels_ok d0 d1 first (S (length (level d1 0))) 0 above) as (l & Hr & Hl').
  - done.
  - intros j. rewrite N.shiftr_div_pow2. apply N.Div0.div_le_mono. done.
  - done.
  - pose proof (len_level d1 0). unfold len in *. lia.
  - rewrite N.add_0_l in Hr, Hl'. rewrite Hr. cbn [mbind result_bind].
    eexists. split; [done|]. split_and!; [done| |by eexists].
    unfold refresh_small_root. cbn [small_root]. by rewrite n_chunks_level.
Qed.

(** ** Reading the cache *)

Definition levels_ok (d : list byte) (lv : list (list Hash)) : Prop :=
  ∃ above, lv = level d 0 :: above ∧ above_ok d 1 above.

Lemma levels_lookup d lv k :
  levels_ok d lv →
  lv !! N.to_nat k = if (k =? 0) || (0 <? width d k) then Some (level d k) else None.
Proof.
  intros (above & -> & Ha). destruct (N.eqb_spec k 0) as [->|Hk]; [done|].
  replace (N.to_nat k) with (S (N.to_nat (k - 1))) by lia. simpl. rewrite Ha.
  by replace (1 + N.of_nat (N.to_nat (k - 1))) with k by lia.
Qed.

(** A subtree of the buffer: [count] chunks from chunk [start], [bl] bytes,
    aligned, and partial only at the end of the buffer. *)
Record subtree (d : list byte) (start count bl : N) : Prop := {
  st_pos : 0 < bl;
  st_count : div_ceil bl CHUNK_LEN = count;
  st_in : start * CHUNK_LEN + bl ≤ len d;
  st_end : start * CHUNK_LEN + bl = len d ∨ bl = count * CHUNK_LEN;
  st_aligned : ∃ k q, count ≤ 2 ^ k ∧ start = q * 2 ^ k;
}.

(** The chaining value BLAKE3 gives it. *)
Definition subtree_cv (d : list byte) (start bl : N) : Hash :=
  chain (start * CHUNK_LEN) (slice (start * CHUNK_LEN) (start * CHUNK_LEN + bl) d).

Lemma subtree_count_pos d start count bl : subtree d start count bl → 0 < count.
Proof. intros []. pose proof (div_ceil_bounds bl). unfold CHUNK_LEN in *. lia. Qed.

Lemma subtree_end_chunk d start count bl : subtree d start count bl → start + count ≤ nch d.
Proof.
  intros []. pose proof (div_ceil_bounds bl) as [? _]. pose proof (div_ceil_bounds (len d)) as [_ ?].
  fold (nch d) in *. unfold CHUNK_LEN in *. lia.
Qed.

Lemma subtree_cv_node d k q bl :
  subtree d (q * 2 ^ k) (2 ^ k) bl → subtree_cv d (q * 2 ^ k) bl = node d k q.
Proof.
  intros []. unfold subtree_cv, node, span. pose proof (div_ceil_bounds bl) as [? ?].
  rewrite st_count0 in *.
  replace (q * (CHUNK_LEN * 2 ^ k)) with (q * 2 ^ k * CHUNK_LEN) by lia. f_equal.
  replace ((q + 1) * (CHUNK_LEN * 2 ^ k)) with (q * 2 ^ k * CHUNK_LEN + CHUNK_LEN * 2 ^ k) by lia.
  destruct st_end0 as [E| ->]; [|f_equal; lia].
  rewrite <- slice_clamp, <- (slice_clamp _ (_ + CHUNK_LEN * _)). f_equal. lia.
Qed.

(** A perfect aligned subtree is always in the cache. *)
Lemma cache_hit d lv k q bl :
  levels_ok d lv → subtree d (q * 2 ^ k) (2 ^ k) bl →
  cache_lookup lv (q * 2 ^ k) (2 ^ k) = Some (subtree_cv d (q * 2 ^ k) bl).
Proof.
  intros Hlv Hst. rewrite subtree_cv_node by done. unfold cache_lookup.
  pose proof (pow2_pos k). rewrite is_power_of_two_pow, N.Div0.mod_mul, trailing_zeros_pow. simpl.
  assert (q < width d k) as Hq.
  { unfold width. apply subtree_end_chunk in Hst.
    enough (q + 1 ≤ nch d / 2 ^ k) by lia. apply N.div_le_lower_bound; lia. }
  rewrite (levels_lookup d) by done. rewrite (proj2 (N.ltb_lt 0 (width d k))) by lia.
  rewrite orb_true_r. simpl. rewrite N.shiftr_div_pow2, N.div_mul by lia. by apply lookup_level.
Qed.

(** Whatever the cache returns for a subtree is that subtree's value. *)
Lemma cache_sound d lv start count bl cv :
  levels_ok d lv → subtree d start count bl → cache_lookup lv start count = Some cv →
  cv = subtree_cv d start bl.
Proof.
  intros Hlv Hst Hc. pose proof Hc as Hc'. unfold cache_lookup in Hc'.
  destruct (is_power_of_two count) eqn:Hp; [|done].
  destruct (N.eqb_spec (start mod count) 0) as [Hm|]; [|done].
  apply is_power_of_two_spec in Hp. clear Hc'. set (k := trailing_zeros count) in *.
  assert (start = start / 2 ^ k * 2 ^ k) as Hs.
  { rewrite <- Hp. pose proof (N.div_mod' start count). lia. }
  rewrite Hs, Hp in Hst, Hc. rewrite (cache_hit d) with (bl := bl) in Hc by done.
  rewrite Hs. by injection Hc.
Qed.

(** Where a subtree of more than one chunk divides. *)
Lemma subtree_split d start count bl :
  subtree d start count bl → 1 < count →
  ∃ k, left_subtree_len bl = span k ∧ span k / CHUNK_LEN = 2 ^ k ∧
    2 ^ k < count ∧ count ≤ 2 * 2 ^ k ∧ (∃ q, start = q * 2 ^ k) ∧
    subtree d start (2 ^ k) (span k) ∧
    subtree d (start + 2 ^ k) (count - 2 ^ k) (bl - span k).
Proof.
  intros [Hp Hc Hi He (k' & q & Hk & ->)] H1. pose proof (div_ceil_bounds bl) as [Hb1 Hb2].
  rewrite Hc in *. destruct (left_subtree_len_spec bl) as (k & HL & Hk1 & Hk2).
  { unfold CHUNK_LEN in *. lia. }
  fold (span k) in *. pose proof (pow2_pos k).
  assert (2 ^ k < count ∧ count ≤ 2 * 2 ^ k) as [Hlt Hle] by (unfold span, CHUNK_LEN in *; lia).
  assert (k + 1 ≤ k') as Hkk.
  { enough (k < k') by lia. apply (N.pow_lt_mono_r_iff 2); lia. }
  assert (∃ q0, q * 2 ^ k' = q0 * 2 ^ k) as [q0 Hq].
  { exists (q * 2 ^ (k' - k)). replace k' with (k' - k + k) at 1 by lia. rewrite N.pow_add_r. lia. }
  rewrite Hq in *. exists k. split_and!; [done| |done|done|by exists q0| |].
  - unfold span. rewrite N.mul_comm. by apply N.div_mul.
  - split; [unfold span, CHUNK_LEN; lia| |lia|right; unfold span; lia|by exists k, q0].
    apply div_ceil_unique; unfold span, CHUNK_LEN; lia.
  - assert (div_ceil (bl - span k) CHUNK_LEN = count - 2 ^ k) as Hdc.
    { apply div_ceil_unique; unfold span, CHUNK_LEN in *; lia. }
    split; [lia|done|unfold span in *; lia| |].
    + unfold span, CHUNK_LEN in *. lia.
    + exists k, (q0 + 1). lia.
Qed.

Lemma subtree_cv_merge d start count bl k :
  subtree d start count bl → 1 < count → left_subtree_len bl = span k →
  subtree_cv d start bl =
    merge_subtrees_non_root (subtree_cv d start (span k)) (subtree_cv d (start + 2 ^ k) (bl - span k)).
Proof.
  intros Hst H1 HL. pose proof Hst as [Hp Hc Hi He (k' & q & Hk & Es)].
  pose proof (div_ceil_bounds bl) as [Hb1 Hb2]. rewrite Hc in *.
  assert (span k < bl) as Hlt.
  { destruct (left_subtree_len_spec bl) as (j & HL' & ? & _); [unfold CHUNK_LEN in *; lia|].
    rewrite HL in HL'. rewrite HL'. done. }
  unfold subtree_cv. set (D := slice (start * CHUNK_LEN) (start * CHUNK_LEN + bl) d).
  assert (len D = bl) as HD by (unfold D; rewrite len_slice; lia).
  rewrite chain_merge.
  - rewrite HD, HL. f_equal; f_equal; try (unfold span, CHUNK_LEN in *; lia).
    + unfold D, slice, takeN. rewrite take_take. f_equal. lia.
    + unfold D. rewrite dropN_slice by lia. unfold span in *. f_equal; lia.
  - rewrite HD. unfold CHUNK_LEN in *. lia.
  - rewrite HD. exists k', q. unfold CHUNK_LEN in *. lia.
Qed.

Lemma single_chunk_is_pow d start bl : subtree d start 1 bl → start = start * 2 ^ 0 ∧ 1 = 2 ^ 0.
Proof. intros _. rewrite N.pow_0_r. lia. Qed.

(** [cached_cv] returns the subtree's value, by at most [log2] merges. *)
Lemma cached_cv_ok d lv fuel start count bl :
  levels_ok d lv → subtree d start count bl → (N.to_nat count ≤ fuel)%nat →
  fst (cached_cv fuel lv start count bl) = subtree_cv d start bl ∧
  snd (cached_cv fuel lv start count bl) ≤ N.log2 count.
Proof.
  intros Hlv. revert start count bl. induction fuel as [|fuel IH]; intros start count bl Hst Hf.
  { apply subtree_count_pos in Hst. lia. }
  cbn [cached_cv]. destruct (cache_lookup lv start count) as [cv|] eqn:Hc.
  { simpl. split; [by eapply cache_sound|lia]. }
  pose proof (subtree_count_pos _ _ _ _ Hst) as Hpos.
  assert (1 < count) as H1.
  { enough (count ≠ 1) by lia. intros ->. pose proof (single_chunk_is_pow _ _ _ Hst) as [E1 E2].
    rewrite E1, E2 in Hst, Hc. by rewrite (cache_hit d) with (bl := bl) in Hc. }
  destruct (subtree_split _ _ _ _ Hst H1) as (k & HL & HC & Hlt & Hle & (q & Hq) & Hleft & Hright).
  rewrite HL, HC. pose proof (pow2_pos k).
  assert (cached_cv fuel lv start (2 ^ k) (span k) = (subtree_cv d start (span k), 0)) as ->.
  { destruct fuel; [lia|]. cbn [cached_cv]. rewrite Hq in *. by rewrite (cache_hit d) with (bl := span k). }
  destruct (IH _ _ _ Hright) as [E2 Hm]; [lia|].
  destruct (cached_cv fuel lv (start + 2 ^ k) (count - 2 ^ k) (bl - span k)) as [r m2].
  simpl in E2, Hm |- *. subst r. split; [symmetry; by eapply subtree_cv_merge|].
  assert (count < 2 * 2 ^ k) as Hno.
  { enough (count ≠ 2 * 2 ^ k) by lia. intros E. rewrite <- N.pow_succ_r' in E.
    destruct (st_aligned _ _ _ _ Hst) as (k' & q' & Hk' & Es).
    assert (N.succ k ≤ k') as Hkk by (apply (N.pow_le_mono_r_iff 2); lia).
    assert (start = q' * 2 ^ (k' - N.succ k) * 2 ^ N.succ k) as Es'.
    { rewrite <- N.mul_assoc, <- N.pow_add_r. by replace (k' - N.succ k + N.succ k) with k' by lia. }
    rewrite Es', E in Hst, Hc. by rewrite (cache_hit d) with (bl := bl) in Hc. }
  assert (N.log2 (count - 2 ^ k) < k) by (apply N.log2_lt_pow2; lia).
  assert (N.log2 count = k) as ->.
  { apply N.log2_unique; [lia|]. rewrite N.pow_succ_r'. lia. }
  lia.
Qed.

Lemma outboard_levels_ok d ob : outboard_ok d ob → levels_ok d (levels ob).
Proof. by intros (_ & _ & ?). Qed.

Lemma whole_buffer_subtree d : 0 < len d → subtree d 0 (nch d) (len d).
Proof.
  intros. split; [done|done|lia|left; lia|]. exists (nch d), 0. split; [|done].
  apply N.lt_le_incl, N.pow_gt_lin_r. lia.
Qed.

(** The top of the tree: the buffer's root from its two halves. *)
Lemma blake3_halves d k :
  1 < nch d → left_subtree_len (len d) = span k → span k < len d →
  blake3 d = merge_subtrees_root (subtree_cv d 0 (span k)) (subtree_cv d (2 ^ k) (len d - span k)).
Proof.
  intros H1 HL Hlt. pose proof (div_ceil_bounds (len d)) as [Hb1 Hb2]. fold (nch d) in Hb1, Hb2.
  rewrite blake3_merge by (unfold CHUNK_LEN in *; lia). rewrite HL. unfold subtree_cv.
  rewrite N.mul_0_l, N.add_0_l. f_equal; f_equal; unfold span in *.
  - unfold slice. by rewrite dropN_0, N.sub_0_r.
  - lia.
  - unfold slice. rewrite takeN_ge; [f_equal; lia|]. rewrite len_dropN. unfold CHUNK_LEN in *. lia.
Qed.
(** The identity the module exists for, and its cost. *)
Lemma root_ok d ob :
  outboard_ok d ob → fst (root ob) = blake3 d ∧ snd (root ob) ≤ N.log2 (nch d) + 1.
Proof.
  intros Hok. pose proof (outboard_levels_ok _ _ Hok) as Hlv. destruct Hok as (Hl & Hs & above & El & Ha).
  unfold root. rewrite Hs. destruct (N.leb_spec (nch d) 1) as [|H1]; [simpl; split; [done|lia]|].
  rewrite Hl, El, n_chunks_level, <- El.
  pose proof (div_ceil_bounds (len d)) as [Hb1 Hb2]. fold (nch d) in Hb1, Hb2.
  assert (subtree d 0 (nch d) (len d)) as Hst
    by (apply whole_buffer_subtree; unfold CHUNK_LEN in *; lia).
  destruct (subtree_split _ _ _ _ Hst H1) as (k & HL & HC & Hlt & Hle & _ & Hleft & Hright).
  rewrite HL, HC.
  destruct (cached_cv_ok d (levels ob) (N.to_nat (nch d)) _ _ _ Hlv Hleft) as [E1 M1]; [lia|].
  destruct (cached_cv_ok d (levels ob) (N.to_nat (nch d)) _ _ _ Hlv Hright) as [E2 M2]; [lia|].
  rewrite N.add_0_l in E2, M2.
  assert (snd (cached_cv (N.to_nat (nch d)) (levels ob) 0 (2 ^ k) (span k)) = 0) as M1'.
  { pose proof (pow2_pos k). destruct (N.to_nat (nch d)) eqn:En; [lia|]. cbn [cached_cv].
    replace 0 with (0 * 2 ^ k) at 1 by lia. by rewrite (cache_hit d) with (bl := span k). }
  destruct (cached_cv _ _ 0 _ _) as [l m1], (cached_cv _ _ (2 ^ k) _ _) as [r m2].
  simpl in *. subst. split.
  - symmetry. apply blake3_halves; [done..|]. pose proof (st_pos _ _ _ _ Hright). lia.
  - assert (N.log2 (nch d - 2 ^ k) ≤ N.log2 (nch d)) by (apply N.log2_le_mono; lia). lia.
Qed.

(** ** Inclusion proofs *)

(** The bytes of chunk [i]. *)
Definition chunk_of (d : list byte) (i : N) : list byte :=
  slice (i * CHUNK_LEN) ((i + 1) * CHUNK_LEN) d.

(** One step of the fold below the root, and at it. *)
Definition combine (merge : Hash → Hash → Hash) (st : ProofStep) (cv : Hash) : Hash :=
  if sibling_is_left st then merge (sibling st) cv else merge cv (sibling st).

Lemma verify_fold_snoc rt cv l st :
  verify_fold rt cv (l ++ [st]) =
    ensure (bool_decide
      (combine merge_subtrees_root st (foldl (flip (combine merge_subtrees_non_root)) cv l) = rt))
      ProofMismatch.
Proof.
  revert cv. induction l as [|s l IH]; intros cv; simpl.
  - unfold combine. by destruct (sibling_is_left st).
  - destruct (l ++ [st]) as [|x y] eqn:E; [by destruct l|]. rewrite <- IH.
    unfold flip, combine. by destruct (sibling_is_left s).
Qed.

Lemma foldl_flip_reverse {A B} (f : A → B → B) b l : foldl (flip f) b (reverse l) = foldr f b l.
Proof.
  induction l as [|a l IH]; [done|]. rewrite reverse_cons, foldl_app. simpl. by rewrite IH.
Qed.

Lemma verify_fold_reverse rt cv st l :
  verify_fold rt cv (reverse (st :: l)) =
    ensure (bool_decide
      (combine merge_subtrees_root st (foldr (combine merge_subtrees_non_root) cv l) = rt))
      ProofMismatch.
Proof. rewrite reverse_cons, verify_fold_snoc. by rewrite foldl_flip_reverse. Qed.

Lemma leaf_subtree d start bl :
  subtree d start 1 bl → subtree_cv d start bl = leaf_cv start (chunk_of d start).
Proof.
  intros Hst. pose proof (single_chunk_is_pow _ _ _ Hst) as [E1 E2]. rewrite E1, E2 in Hst.
  rewrite E1. rewrite subtree_cv_node by done. unfold node, leaf_cv, chunk_of.
  by rewrite span_0, N.pow_0_r, N.mul_1_r.
Qed.

Lemma collect_proof_ok d lv fuel start count bl index :
  levels_ok d lv → subtree d start count bl → index < count → (N.to_nat count ≤ fuel)%nat →
  foldr (combine merge_subtrees_non_root) (leaf_cv (start + index) (chunk_of d (start + index)))
    (collect_proof fuel lv start count bl index) = subtree_cv d start bl.
Proof.
  intros Hlv. revert start count bl index.
  induction fuel as [|fuel IH]; intros start count bl index Hst Hi Hf; [lia|].
  cbn [collect_proof]. destruct (N.eqb_spec count 1) as [->|Hne].
  { simpl. rewrite (leaf_subtree d start bl) by done. by replace (start + index) with start by lia. }
  assert (1 < count) as H1 by lia.
  destruct (subtree_split _ _ _ _ Hst H1) as (k & HL & HC & Hlt & Hle & _ & Hleft & Hright).
  rewrite HL, HC, (subtree_cv_merge d start count bl k) by done. pose proof (pow2_pos k).
  destruct (N.ltb_spec index (2 ^ k)); simpl; unfold combine at 1; simpl.
  - rewrite IH by (done || lia). f_equal. by apply cached_cv_ok; [|exact Hright|lia].
  - replace (start + index) with (start + 2 ^ k + (index - 2 ^ k)) by lia.
    rewrite IH by (done || lia). f_equal. by apply cached_cv_ok; [|exact Hleft|lia].
Qed.


Lemma len_chunk_of d i :
  i < N.max (nch d) 1 →
  len (chunk_of d i) = if i + 1 =? N.max (nch d) 1 then len d - i * CHUNK_LEN else CHUNK_LEN.
Proof.
  intros Hi. pose proof (div_ceil_bounds (len d)) as [Hb1 Hb2]. fold (nch d) in Hb1, Hb2.
  unfold chunk_of, slice. rewrite len_takeN, len_dropN. unfold CHUNK_LEN in *.
  destruct (N.eqb_spec (i + 1) (N.max (nch d) 1)); lia.
Qed.

Lemma chunk_of_single d : nch d ≤ 1 → chunk_of d 0 = d.
Proof.
  intros Hn. pose proof (div_ceil_bounds (len d)) as [Hb1 Hb2]. fold (nch d) in Hb1, Hb2.
  unfold chunk_of, slice. rewrite N.mul_0_l, dropN_0. apply takeN_ge. unfold CHUNK_LEN in *. lia.
Qed.

Lemma prove_verifies d ob i :
  outboard_ok d ob → i < N.max (nch d) 1 →
  ∃ proof, prove ob i = Ok proof ∧ verify_chunk (blake3 d) (len d) i (chunk_of d i) proof = Ok tt.
Proof.
  intros Hok Hi. pose proof (outboard_levels_ok _ _ Hok) as Hlv.
  destruct Hok as (Hl & _ & above & El & _).
  unfold prove, verify_chunk. rewrite El, n_chunks_level, <- El, Hl. fold (nch d).
  rewrite (proj2 (N.ltb_lt _ _) Hi), len_chunk_of, N.eqb_refl by done.
  cbn [ensure mbind result_bind]. destruct (N.leb_spec (nch d) 1) as [H1|H1].
  - exists []. split; [done|]. replace (N.max (nch d) 1) with 1 in * by lia. simpl.
    replace i with 0 by lia. rewrite chunk_of_single by done. by rewrite bool_decide_true.
  - replace (N.max (nch d) 1) with (nch d) in * by lia.
    rewrite (proj2 (N.eqb_neq _ _)) by lia. eexists. split; [done|].
    pose proof (div_ceil_bounds (len d)) as [Hb1 Hb2]. fold (nch d) in Hb1, Hb2.
    assert (subtree d 0 (nch d) (len d)) as Hst
      by (apply whole_buffer_subtree; unfold CHUNK_LEN in *; lia).
    destruct (subtree_split _ _ _ _ Hst H1) as (k & HL & HC & Hlt & Hle & _ & Hleft & Hright).
    pose proof (st_pos _ _ _ _ Hright). pose proof (pow2_pos k). rewrite N.add_0_l in Hright.
    rewrite (blake3_halves d k) by (done || lia).
    destruct (N.to_nat (nch d)) as [|fuel] eqn:Ef; [lia|]. cbn [collect_proof].
    rewrite (proj2 (N.eqb_neq _ _)) by lia. rewrite HL, HC, N.add_0_l.
    destruct (N.ltb_spec i (2 ^ k)) as [Hik|Hik]; rewrite bool_decide_false
      by (intros E; apply (f_equal length) in E; rewrite length_reverse in E; done);
      cbn [negb ensure mbind result_bind]; rewrite verify_fold_reverse;
      unfold combine at 1; cbn [sibling sibling_is_left].
    + pose proof (collect_proof_ok d (levels ob) fuel 0 (2 ^ k) (span k) i) as E.
      rewrite N.add_0_l in E. rewrite E by (done || lia).
      rewrite (proj1 (cached_cv_ok d (levels ob) fuel _ _ _ Hlv Hright ltac:(lia))).
      by rewrite bool_decide_true.
    + pose proof (collect_proof_ok d (levels ob) fuel (2 ^ k) (nch d - 2 ^ k) (len d - span k)
        (i - 2 ^ k)) as E.
      replace (2 ^ k + (i - 2 ^ k)) with i in E by lia. rewrite E by (done || lia).
      rewrite (proj1 (cached_cv_ok d (levels ob) fuel _ _ _ Hlv Hleft ltac:(lia))).
      by rewrite bool_decide_true.
Qed.

(** A node of a hash tree by what BLAKE3 is given for it: a chunk at its offset or
    two values inside the tree, and a chunk or two values at its root.  Two
    different nodes are two different inputs of the compression function. *)
Inductive tree_node :=
| NLeaf (off : N) (bytes : list byte)
| NParent (l r : Hash)
| NRootLeaf (bytes : list byte)
| NRootParent (l r : Hash).
Definition node_value (n : tree_node) : Hash :=
  match n with
  | NLeaf off b => chain off b
  | NParent l r => merge_subtrees_non_root l r
  | NRootLeaf b => blake3 b
  | NRootParent l r => merge_subtrees_root l r
  end.

#[local] Instance tree_node_eq_dec : EqDecision tree_node.
Proof. solve_decision. Defined.

(** The nodes a verification computes: below the root, from the top down to the
    leaf, and all of them. *)
Definition pair_with (node : Hash → Hash → tree_node) (st : ProofStep) (cv : Hash) : tree_node :=
  if sibling_is_left st then node (sibling st) cv else node cv (sibling st).
Definition fold_cv (leaf : tree_node) (down : list ProofStep) : Hash :=
  foldr (combine merge_subtrees_non_root) (node_value leaf) down.
Fixpoint path_nodes (leaf : tree_node) (down : list ProofStep) : list tree_node :=
  match down with
  | [] => [leaf]
  | st :: down => pair_with NParent st (fold_cv leaf down) :: path_nodes leaf down
  end.
Definition call_nodes (i : N) (bytes : list byte) (proof : list ProofStep) : list tree_node :=
  let leaf := NLeaf (i * CHUNK_LEN) bytes in
  match reverse proof with
  | [] => [NRootLeaf bytes]
  | st :: down => pair_with NRootParent st (fold_cv leaf down) :: path_nodes leaf down
  end.

(** The nodes of a buffer's own tree. *)
Inductive buffer_node (d : list byte) : tree_node → Prop :=
| buffer_leaf start bl :
    subtree d start 1 bl → buffer_node d (NLeaf (start * CHUNK_LEN) (chunk_of d start))
| buffer_parent start count bl k :
    subtree d start count bl → 1 < count → left_subtree_len bl = span k →
    buffer_node d (NParent (subtree_cv d start (span k)) (subtree_cv d (start + 2 ^ k) (bl - span k)))
| buffer_root_leaf : nch d ≤ 1 → buffer_node d (NRootLeaf d)
| buffer_root_parent k :
    1 < nch d → left_subtree_len (len d) = span k →
    buffer_node d (NRootParent (subtree_cv d 0 (span k)) (subtree_cv d (2 ^ k) (len d - span k))).

(** One of some nodes, and a different node of the buffer's tree, that BLAKE3
    gives the same value. *)
Definition nodes_collide (d : list byte) (ns : list tree_node) : Prop :=
  ∃ n1 n2, n1 ∈ ns ∧ buffer_node d n2 ∧ collision node_value n1 n2.
Definition path_collision (d : list byte) (i : N) (bytes : list byte) (proof : list ProofStep) : Prop :=
  nodes_collide d (call_nodes i bytes proof).

Lemma nodes_collide_cons d n ns : nodes_collide d ns → nodes_collide d (n :: ns).
Proof. intros (n1 & n2 & Hin & H). exists n1, n2. split; [by apply elem_of_cons; right|done]. Qed.

Lemma node_value_inj d n1 n2 ns :
  buffer_node d n2 → node_value n1 = node_value n2 → n1 ∈ ns → n1 = n2 ∨ nodes_collide d ns.
Proof.
  intros Hb [->|Hc]%(eq_or_collision node_value) Hin; [by left|right]. exists n1, n2. auto.
Qed.

Lemma node_value_parent st cv :
  node_value (pair_with NParent st cv) = combine merge_subtrees_non_root st cv.
Proof. unfold pair_with, combine. by destruct (sibling_is_left st). Qed.

Lemma node_value_root st cv :
  node_value (pair_with NRootParent st cv) = combine merge_subtrees_root st cv.
Proof. unfold pair_with, combine. by destruct (sibling_is_left st). Qed.

Lemma fold_sound d index bytes down start count bl :
  let leaf := NLeaf (index * CHUNK_LEN) bytes in
  subtree d start count bl → fold_cv leaf down = subtree_cv d start bl →
  bytes = chunk_of d index ∨ nodes_collide d (path_nodes leaf down).
Proof.
  intros leaf. revert start count bl.
  induction down as [|st down IH]; intros start count bl Hst Hf;
    pose proof (subtree_count_pos _ _ _ _ Hst) as Hpos; destruct (decide (count = 1)) as [->|Hne].
  - unfold fold_cv in Hf. simpl in Hf. rewrite (leaf_subtree d start bl Hst) in Hf.
    destruct (node_value_inj d leaf _ [leaf] (buffer_leaf d start bl Hst) Hf ltac:(by left))
      as [[= Ho ->]|]; [left|by right]. f_equal. unfold CHUNK_LEN in Ho. lia.
  - destruct (subtree_split _ _ _ _ Hst ltac:(lia)) as (k & HL & _).
    unfold fold_cv in Hf. simpl in Hf. rewrite (subtree_cv_merge d start count bl k) in Hf by (done || lia).
    destruct (node_value_inj d leaf _ [leaf] (buffer_parent d start count bl k Hst ltac:(lia) HL) Hf
      ltac:(by left)) as [E|]; [done|by right].
  - unfold fold_cv in Hf. cbn [foldr] in Hf. rewrite (leaf_subtree d start bl Hst), <- node_value_parent in Hf.
    destruct (node_value_inj d _ _ (path_nodes leaf (st :: down)) (buffer_leaf d start bl Hst) Hf
      ltac:(by left)) as [E|]; [|by right].
    unfold pair_with in E. by destruct (sibling_is_left st).
  - destruct (subtree_split _ _ _ _ Hst ltac:(lia)) as (k & HL & _ & _ & _ & _ & Hleft & Hright).
    rewrite (subtree_cv_merge d start count bl k) in Hf by (done || lia).
    unfold fold_cv in Hf. cbn [foldr] in Hf. rewrite <- node_value_parent in Hf.
    destruct (node_value_inj d _ _ (path_nodes leaf (st :: down))
      (buffer_parent d start count bl k Hst ltac:(lia) HL) Hf ltac:(by left)) as [E|]; [|by right].
    unfold pair_with in E. destruct (sibling_is_left st); injection E as E1 E2.
    + destruct (IH _ _ _ Hright E2); [by left|right; by apply nodes_collide_cons].
    + destruct (IH _ _ _ Hleft E1); [by left|right; by apply nodes_collide_cons].
Qed.

(** The root of a buffer of several chunks, and of one chunk. *)
Lemma verify_root_sound d i bytes st down :
  1 < nch d →
  combine merge_subtrees_root st (fold_cv (NLeaf (i * CHUNK_LEN) bytes) down) = blake3 d →
  bytes = chunk_of d i ∨
  nodes_collide d (pair_with NRootParent st (fold_cv (NLeaf (i * CHUNK_LEN) bytes) down)
                   :: path_nodes (NLeaf (i * CHUNK_LEN) bytes) down).
Proof.
  intros H1 Hv. pose proof (div_ceil_bounds (len d)) as [Hb1 Hb2]. fold (nch d) in Hb1, Hb2.
  assert (subtree d 0 (nch d) (len d)) as Hst
    by (apply whole_buffer_subtree; unfold CHUNK_LEN in *; lia).
  destruct (subtree_split _ _ _ _ Hst ltac:(lia)) as (k & HL & HC & Hlt & Hle & _ & Hleft & Hright).
  pose proof (st_pos _ _ _ _ Hright). rewrite N.add_0_l in Hright.
  rewrite (blake3_halves d k) in Hv by (done || lia). rewrite <- node_value_root in Hv.
  set (ns := _ :: _). destruct (node_value_inj d _ _ ns (buffer_root_parent d k H1 HL) Hv
    ltac:(by left)) as [E|]; [|by right].
  unfold pair_with in E. destruct (sibling_is_left st); injection E as E1 E2.
  - destruct (fold_sound _ _ _ _ _ _ _ Hright E2); [by left|right; by apply nodes_collide_cons].
  - destruct (fold_sound _ _ _ _ _ _ _ Hleft E1); [by left|right; by apply nodes_collide_cons].
Qed.

Lemma verify_sound d i bytes proof :
  verify_chunk (blake3 d) (len d) i bytes proof = Ok tt →
  bytes = chunk_of d i ∨ path_collision d i bytes proof.
Proof.
  unfold verify_chunk. fold (nch d). intros Hv. result_inv. apply N.ltb_lt in Hok.
  pose proof (div_ceil_bounds (len d)) as [Hb1 Hb2]. fold (nch d) in Hb1, Hb2.
  destruct (N.eqb_spec (N.max (nch d) 1) 1) as [E1|E1]; result_inv.
  - apply bool_decide_eq_true_1 in Hv, Hok1. subst proof. replace i with 0 in * by lia.
    destruct (node_value_inj d (NRootLeaf bytes) (NRootLeaf d) [NRootLeaf bytes]) as [[= ->]|];
      [constructor; lia|exact Hv|by left| |by right].
    left. by rewrite chunk_of_single by lia.
  - replace (N.max (nch d) 1) with (nch d) in * by lia.
    destruct proof as [|st rest _] using rev_ind; [done|].
    rewrite verify_fold_snoc in Hv. apply ensure_ok, bool_decide_eq_true_1 in Hv.
    rewrite <- (reverse_involutive rest), foldl_flip_reverse in Hv.
    unfold path_collision, call_nodes. rewrite reverse_snoc. apply verify_root_sound; [lia|exact Hv].
Qed.

(** ** Properties *)

(** One edit: the new buffer and the range reported dirty. *)
Record edit := { ed_data : list byte; ed_start : N; ed_end : N }.

Fixpoint updates (eds : list edit) (ob : Outboard) : result outboard_error Outboard :=
  match eds with
  | [] => Ok ob
  | e :: eds => '(_, _, ob) ← update (ed_data e) (ed_start e) (ed_end e) ob; updates eds ob
  end.

Fixpoint truthful_edits (d : list byte) (eds : list edit) : Prop :=
  match eds with
  | [] => True
  | e :: eds => truthful d (ed_data e) (ed_start e) (ed_end e) ∧
                ed_start e ≤ ed_end e ∧ ed_end e ≤ len (ed_data e) ∧ len (ed_data e) ≤ u64_max ∧
                truthful_edits (ed_data e) eds
  end.

Definition last_buffer (d : list byte) (eds : list edit) : list byte :=
  default d (ed_data <$> last eds).

Lemma update_ok d0 d1 ob ds de :
  outboard_ok d0 ob → truthful d0 d1 ds de → len d1 ≤ u64_max → ds ≤ de → de ≤ len d1 →
  ∃ n m ob', update d1 ds de ob = Ok (n, m, ob') ∧ outboard_ok d1 ob'.
Proof.
  intros. destruct (decide (len d1 = len d0)).
  - edestruct update_in_place as (m & ob' & -> & ?); eauto.
  - edestruct update_resized as (ob' & -> & ?); eauto.
Qed.

Lemma updates_ok d eds ob :
  outboard_ok d ob → truthful_edits d eds →
  ∃ ob', updates eds ob = Ok ob' ∧ outboard_ok (last_buffer d eds) ob'.
Proof.
  revert d ob. induction eds as [|e eds IH]; intros d ob Hok; simpl; [by eauto|].
  intros (Ht & H1 & H2 & H3 & Hrest).
  destruct (update_ok d (ed_data e) ob (ed_start e) (ed_end e)) as (n & m & ob' & -> & Hok'); try done.
  simpl. destruct (IH _ _ Hok' Hrest) as (ob2 & -> & Hok2). exists ob2. split; [done|].
  unfold last_buffer in *. destruct eds as [|e2 eds]; [done|].
  rewrite last_cons_cons. destruct (last (e2 :: eds)) eqn:El; [done|by apply last_None in El].
Qed.

(** C3: building the outboard and maintaining it through any sequence of
    truthfully reported edits never panics, and the root it returns is
    bit-identical to BLAKE3 of the current buffer, found with at most
    [log2 chunks + 1] merges. *)
Theorem outboard_root_is_blake3 d eds :
  len d ≤ u64_max → truthful_edits d eds →
  ∃ ob ob', build d = Ok ob ∧ updates eds ob = Ok ob' ∧
    fst (root ob') = blake3 (last_buffer d eds) ∧
    snd (root ob') ≤ N.log2 (nch (last_buffer d eds)) + 1.
Proof.
  intros Hd Ht. destruct (build_ok d Hd) as (ob & Hb & Hok).
  destruct (updates_ok d eds ob Hok Ht) as (ob' & Hu & Hok').
  exists ob, ob'. by destruct (root_ok _ _ Hok').
Qed.

(** [update] on every branch.  A dirty range outside the buffer is
    refused; an in-place edit re-hashes exactly the 1 KiB chunks its range
    touches; a length change re-hashes exactly the chunks from the start of the
    range on; and the cache describes the new buffer afterwards. *)
Theorem update_work d0 d1 ob ds de :
  outboard_ok d0 ob → truthful d0 d1 ds de → len d1 ≤ u64_max →
  if (ds <=? de) && (de <=? len d1) then
    ∃ merges ob', update d1 ds de ob =
      Ok (if len d1 =? len d0
          then (if ds =? de then 0 else (de - 1) / CHUNK_LEN + 1 - ds / CHUNK_LEN)
          else nch d1 - ds / CHUNK_LEN, merges, ob') ∧ outboard_ok d1 ob'
  else update d1 ds de ob = Err DirtyOutOfRange.
Proof.
  intros Hok Ht Hd. destruct ((ds <=? de) && (de <=? len d1)) eqn:E.
  - apply andb_true_iff in E as [E1%N.leb_le E2%N.leb_le].
    destruct (N.eqb_spec (len d1) (len d0)).
    + by apply (update_in_place d0).
    + edestruct update_resized as (ob' & -> & ?); eauto.
  - unfold update. by rewrite E.
Qed.

(** Every chunk of the buffer has an inclusion proof, and the proof
    verifies that chunk against the root alone. *)
Theorem prove_verify_complete d eds ob ob' i :
  len d ≤ u64_max → truthful_edits d eds → build d = Ok ob → updates eds ob = Ok ob' →
  i < N.max (nch (last_buffer d eds)) 1 →
  ∃ proof, prove ob' i = Ok proof ∧
    verify_chunk (fst (root ob')) (len (last_buffer d eds)) i (chunk_of (last_buffer d eds) i) proof
    = Ok tt.
Proof.
  intros Hd Ht Hb Hu Hi. destruct (build_ok d Hd) as (ob1 & Hb1 & Hok).
  rewrite Hb in Hb1. injection Hb1 as <-.
  destruct (updates_ok d eds ob Hok Ht) as (ob2 & Hu2 & Hok').
  rewrite Hu in Hu2. injection Hu2 as <-.
  destruct (root_ok _ _ Hok') as [-> _]. by apply prove_verifies.
Qed.

(** C4: verify-on-fault is sound.  If [verify_chunk] accepts bytes for chunk
    [i] under the root of a buffer, with any proof whatever, those are the
    buffer's bytes of that chunk, or one of the nodes the call computed and a
    different node of the buffer's own tree (as the compression function is
    given them: offset, bytes, pair of values, root or not) have one value. *)
Theorem verify_chunk_sound d i bytes proof :
  verify_chunk (blake3 d) (len d) i bytes proof = Ok tt →
  bytes = chunk_of d i ∨ path_collision d i bytes proof.
Proof. apply verify_sound. Qed.
End tree.

(** ** A checksum with the shape of the tree *)

Definition byte_sum (l : list byte) : N := foldr (λ b acc, Byte.to_N b + acc) 0 l.
Definition sum_hash (n : N) : Hash := vreplicate 32 (byte_of_N n).
Definition hash_sum (h : Hash) : N := Byte.to_N (Vector.hd h).

#[local] Instance sum_blake3 : Blake3 :=
  {| blake3 := λ d, sum_hash (byte_sum d); blake3_derive_key := λ _ d, sum_hash (byte_sum d) |}.
#[local] Instance sum_hazmat : Hazmat := {|
  chain := λ _ d, sum_hash (byte_sum d);
  merge_subtrees_non_root := λ l r, sum_hash (hash_sum l + hash_sum r);
  merge_subtrees_root := λ l r, sum_hash (hash_sum l + hash_sum r);
  left_subtree_len := λ n, CHUNK_LEN * 2 ^ N.log2 ((n - 1) / CHUNK_LEN);
|}.

Lemma hash_sum_hash n : hash_sum (sum_hash n) = n mod 256.
Proof. apply to_N_byte_of_N. Qed.

Lemma sum_hash_halves l d : sum_hash (byte_sum d) =
  sum_hash (hash_sum (sum_hash (byte_sum (takeN l d))) + hash_sum (sum_hash (byte_sum (dropN l d)))).
Proof.
  assert (byte_sum d = byte_sum (takeN l d) + byte_sum (dropN l d)) as ->.
  { rewrite <- (takeN_dropN l d) at 1. generalize (takeN l d), (dropN l d). intros a b.
    unfold byte_sum. induction a as [|x a IH]; simpl; [done|]. rewrite IH. lia. }
  rewrite !hash_sum_hash. unfold sum_hash. f_equal. apply byte_to_N_inj.
  rewrite !to_N_byte_of_N. by rewrite <- N.Div0.add_mod.
Qed.

#[local] Instance sum_laws : HazmatLaws.
Proof.
  split.
  - intros n Hn. set (q := (n - 1) / CHUNK_LEN). exists (N.log2 q). split; [done|].
    pose proof (chunk_floor (n - 1)) as [H1 H2]. fold q in H1, H2.
    assert (0 < q) as Hq by (unfold CHUNK_LEN in *; lia).
    destruct (N.log2_spec q Hq) as [H3 H4]. rewrite N.pow_succ_r' in H4. unfold CHUNK_LEN in *. lia.
  - intros off d _ _. apply sum_hash_halves.
  - intros d _. apply sum_hash_halves.
Qed.

(** Three chunks and a bit, with one byte of the second chunk then changed, then
    the tail cut off. *)
Definition demo_buffer : list byte := replicate 3100 x05.
Definition demo_edits : list edit := [
  {| ed_data := splice 1500 [x09] demo_buffer; ed_start := 1500; ed_end := 1501 |};
  {| ed_data := takeN 2500 (splice 1500 [x09] demo_buffer); ed_start := 2500; ed_end := 2500 |} ].

Lemma demo_truthful : truthful_edits demo_buffer demo_edits.
Proof.
  split_and!; try done; split; try (vm_compute; reflexivity).
Qed.

Lemma outboard_root_is_blake3_witness :
  ∃ ob ob', build demo_buffer = Ok ob ∧ updates demo_edits ob = Ok ob' ∧
    fst (root ob') = blake3 (last_buffer demo_buffer demo_edits).
Proof.
  destruct (outboard_root_is_blake3 demo_buffer demo_edits) as (ob & ob' & ? & ? & ? & _);
    [done|apply demo_truthful|eauto].
Defined.

Lemma demo_built : ∃ ob, build demo_buffer = Ok ob ∧ outboard_ok demo_buffer ob.
Proof. by apply build_ok. Qed.

Lemma update_work_witness :
  ∃ ob merges ob', build demo_buffer = Ok ob ∧
    update (splice 1500 [x09] demo_buffer) 1500 1501 ob = Ok (1, merges, ob').
Proof.
  destruct demo_built as (ob & Hb & Hok).
  pose proof (update_work demo_buffer (splice 1500 [x09] demo_buffer) ob 1500 1501 Hok
    (proj1 demo_truthful)) as Hw.
  destruct (Hw ltac:(vm_compute; discriminate)) as (m & ob' & Hu & _).
  exists ob, m, ob'. split; [exact Hb|]. rewrite Hu. do 3 f_equal.
Defined.

Lemma prove_verify_complete_witness :
  ∃ ob proof, build demo_buffer = Ok ob ∧ prove ob 2 = Ok proof ∧
    verify_chunk (fst (root ob)) 3100 2 (chunk_of demo_buffer 2) proof = Ok tt.
Proof.
  destruct demo_built as (ob & Hb & _). exists ob.
  destruct (prove_verify_complete demo_buffer [] ob ob 2) as (proof & Hp & Hv);
    [done|done|exact Hb|done|by vm_compute|].
  exists proof. by split_and!.
Defined.

Lemma verify_chunk_sound_witness :
  ∃ proof, proof ≠ [] ∧
    verify_chunk (blake3 demo_buffer) 3100 2 (chunk_of demo_buffer 2) proof = Ok tt ∧
    (chunk_of demo_buffer 2 = chunk_of demo_buffer 2
     ∨ path_collision demo_buffer 2 (chunk_of demo_buffer 2) proof).
Proof.
  destruct demo_built as (ob & Hb & _).
  destruct (prove_verify_complete demo_buffer [] ob ob 2) as (proof & Hp & Hv);
    [done|done|exact Hb|done|by vm_compute|].
  assert (fst (root ob) = blake3 demo_buffer) as Hr.
  { vm_compute in Hb. injection Hb as <-. by vm_compute. }
  rewrite Hr in Hv. exists proof. split; [|split; [exact Hv|]].
  - intros ->. vm_compute in Hv. discriminate Hv.
  - apply (verify_chunk_sound demo_buffer 2 (chunk_of demo_buffer 2) proof). exact Hv.
Defined.
