(* ===== verification/Cdc.v ===== *)
(** * Content-defined chunking

    [rs/ll-open/cdc/src/lib.rs]: cutting a byte stream at content-defined
    boundaries, re-cutting it after an edit by rescanning only what the edit
    can have moved, storing the chunks in a [BlobStore], and serving byte
    ranges from the chunks that cover them.

    The rolling hash is the [gearhash] crate, so it is the parameter [Gear];
    all that is used of it is that a match lies inside the scanned buffer. *)

From S2P Require Import Prelude Substrate BlobStores.
From Stdlib Require Import NArith ZArith Lia.
Local Open Scope N_scope.

Definition MIN_CHUNK : N := 8192.
Definition MAX_CHUNK : N := 131072.
Definition BOUNDARY_MASK : N := 18446462598732840960.   (* 0xFFFF_0000_0000_0000 *)

(** [gearhash::Hasher::default().next_match(buf, mask)] *)
Class Gear := { next_match : list byte → N → option N }.
Class GearLaws `{Gear} := {
  next_match_in_buffer buf mask rel : next_match buf mask = Some rel → rel ≤ len buf;
}.

Record Chunk := { c_hash : Hash; c_offset : N; c_len : N }.

#[global] Instance Chunk_eq_dec : EqDecision Chunk.
Proof. solve_decision. Defined.

Inductive cdc_error :=
| EditInterval | StoreChunk (e : store_error) | StoredHashDiffers
| IntervalReversed | IntervalPastEnd | EmptyWithChunks | NotCovered
| EmptySpan | SpanOverflow | SpanPastEnd | NonOverlapping | NotContiguous
| StartNotCovered | EndNotCovered | BufferTooSmall | GetChunk (e : store_error)
| ChunkMissing | ChunkLength | RangeNotCovered | TilingGap.

Section chunking.
Context `{Blake3, Gear}.

(** [next_boundary]; the argument of [next_match] is
    [data\[MIN_CHUNK..search_end\]], in bounds because [data] is longer. *)
Definition next_boundary (data : list byte) : N :=
  if len data <=? MIN_CHUNK then len data else
  let search_end := N.min MAX_CHUNK (len data) in
  match next_match (slice MIN_CHUNK search_end data) BOUNDARY_MASK with
  | Some rel => MIN_CHUNK + rel
  | None => search_end
  end.

(** One turn of the chunking loop at [start]: the chunk and the next cursor. *)
Definition cut (data : list byte) (start : N) : result cdc_error (Chunk * N) :=
  rest ← slice_checked start (len data) data;
  let n := next_boundary rest in
  bytes ← slice_checked start (start + n) data;
  let next := start + n in
  _ ← assert_ (start <? next);
  mret ({| c_hash := content_hash bytes; c_offset := start; c_len := n |}, next).

(** The loop of [chunk].  The cursor moves by at least one byte per turn, so
    the number of bytes is enough fuel; running out is a panic. *)
Fixpoint chunk_loop (fuel : nat) (data : list byte) (start : N) : result cdc_error (list Chunk) :=
  if negb (start <? len data) then Ok [] else
  match fuel with
  | O => Panic
  | S fuel =>
      '(c, next) ← cut data start;
      cs ← chunk_loop fuel data next;
      mret (c :: cs)
  end.

Definition chunk (data : list byte) : result cdc_error (list Chunk) :=
  chunk_loop (length data) data 0.

(** [pub struct Edit] and [Edit::parse]. *)
Record Edit := { ed_offset : N; ed_old_end : N; ed_old_len : N }.
Definition Edit_parse (offset old_end old_len : N) : result cdc_error Edit :=
  _ ← ensure ((offset <=? old_end) && (old_end <=? old_len)) EditInterval;
  mret {| ed_offset := offset; ed_old_end := old_end; ed_old_len := old_len |}.

Record RechunkStats := { prefix_kept : N; tail_reused : N; rehashed : N; bytes_scanned : N }.

(** The prefix loop: how many leading chunks have a decision window that ends
    at or before the edit. *)
Fixpoint keep_prefix (old : list Chunk) (edit_offset : N) : N :=
  match old with
  | c :: old => if c_offset c + MAX_CHUNK <=? edit_offset then 1 + keep_prefix old edit_offset else 0
  | [] => 0
  end.

(** [old.binary_search_by_key(&key, |c| c.offset)].  Offsets of a manifest are
    strictly increasing, so the search finds the one row with that offset. *)
Definition search_offset (old : list Chunk) (key : N) : option nat :=
  fst <$> list_find (λ c, c_offset c = key) old.

Definition shift_chunk (delta : Z) (c : Chunk) : Chunk := {|
  c_hash := c_hash c; c_offset := Z.to_N (Z.of_N (c_offset c) + delta); c_len := c_len c |}.

(** The rescan loop: chunks appended, rows reused, chunks hashed, final cursor. *)
Fixpoint rechunk_loop (fuel : nat) (old : list Chunk) (new_data : list byte) (delta : Z)
    (old_edit_end pos : N) : result cdc_error (list Chunk * N * N * N) :=
  if negb (pos <? len new_data) then Ok ([], 0, 0, pos) else
  let old_pos := (Z.of_N pos - delta)%Z in
  let resync :=
    if (Z.of_N old_edit_end <=? old_pos)%Z then search_offset old (Z.to_N old_pos) else None in
  match resync, fuel with
  | Some idx, _ =>
      Ok (shift_chunk delta <$> drop idx old, len old - N.of_nat idx, 0, pos)
  | None, O => Panic
  | None, S fuel =>
      '(c, next) ← cut new_data pos;
      '(cs, reused, hashed, final) ← rechunk_loop fuel old new_data delta old_edit_end next;
      mret (c :: cs, reused, 1 + hashed, final)
  end.

Definition rechunk_with_stats (old : list Chunk) (new_data : list byte) (edit : Edit)
    : result cdc_error (list Chunk * RechunkStats) :=
  let delta := (Z.of_N (len new_data) - Z.of_N (ed_old_len edit))%Z in
  let keep := keep_prefix old (ed_offset edit) in
  let kept := takeN keep old in
  let pos := match last kept with Some c => c_offset c + c_len c | None => 0 end in
  '(cs, reused, hashed, final) ←
     rechunk_loop (length new_data) old new_data delta (ed_old_end edit) pos;
  mret (kept ++ cs, {| prefix_kept := keep; tail_reused := reused; rehashed := hashed;
                       bytes_scanned := final - pos |}).

Definition rechunk (old : list Chunk) (new_data : list byte) (edit : Edit)
    : result cdc_error (list Chunk) :=
  fst <$> rechunk_with_stats old new_data edit.
End chunking.

(** ** Storing and reading back *)

Section reading.
Context `{Blake3} {S : Type} `{!BlobStore S}.

(** The store loop of [chunk_into]; the store keeps what was put before an
    error. *)
Fixpoint store_chunks (data : list byte) (cs : list Chunk) (st : S) : result cdc_error unit * S :=
  match cs with
  | [] => (Ok tt, st)
  | c :: cs =>
      match slice_checked (E := cdc_error) (c_offset c) (c_offset c + c_len c) data with
      | Ok bytes =>
          match bs_put bytes st with
          | (Ok stored, st) =>
              if bool_decide (stored = c_hash c) then store_chunks data cs st
              else (Err StoredHashDiffers, st)
          | (Err e, st) => (Err (StoreChunk e), st)
          | (Panic, st) => (Panic, st)
          end
      | Err e => (Err e, st)
      | Panic => (Panic, st)
      end
  end.

Definition chunk_into `{Gear} (data : list byte) (st : S) : result cdc_error (list Chunk) * S :=
  match chunk data with
  | Ok cs => let '(r, st) := store_chunks data cs st in ((λ _, cs) <$> r, st)
  | Err e => (Err e, st)
  | Panic => (Panic, st)
  end.

(** [pub struct SelectedRange]; [SelectedRange_parse] is its only constructor. *)
Record SelectedRange := { sel_chunks : list Chunk; sel_start : N; sel_end : N }.

(** The per-row checks: the ends, in order. *)
Fixpoint check_rows (source_len wanted_start wanted_end : N) (previous_end : option N)
    (cs : list Chunk) : result cdc_error (list N) :=
  match cs with
  | [] => Ok []
  | c :: cs =>
      _ ← ensure (negb (c_len c =? 0)) EmptySpan;
      chunk_end ← ok_or (checked_add (c_offset c) (c_len c)) SpanOverflow;
      _ ← ensure (chunk_end <=? source_len) SpanPastEnd;
      _ ← ensure ((c_offset c <? wanted_end) && (wanted_start <? chunk_end)) NonOverlapping;
      _ ← match previous_end with
          | Some p => ensure (c_offset c =? p) NotContiguous
          | None => Ok tt
          end;
      ends ← check_rows source_len wanted_start wanted_end (Some chunk_end) cs;
      mret (chunk_end :: ends)
  end.

Definition SelectedRange_parse (cs : list Chunk) (source_len wanted_start wanted_end : N)
    : result cdc_error SelectedRange :=
  _ ← ensure (wanted_start <=? wanted_end) IntervalReversed;
  _ ← ensure (wanted_end <=? source_len) IntervalPastEnd;
  let sel := {| sel_chunks := cs; sel_start := wanted_start; sel_end := wanted_end |} in
  if wanted_start =? wanted_end then
    _ ← ensure (bool_decide (cs = [])) EmptyWithChunks;
    mret sel
  else
    _ ← ensure (negb (bool_decide (cs = []))) NotCovered;
    ends ← check_rows source_len wanted_start wanted_end None cs;
    first ← ok_or (head cs) NotCovered;
    first_end ← ok_or (head ends) NotCovered;
    lst ← ok_or (last cs) NotCovered;
    last_end ← ok_or (last ends) NotCovered;
    _ ← ensure ((c_offset first <=? wanted_start) && (wanted_start <? first_end)) StartNotCovered;
    _ ← ensure ((c_offset lst <? wanted_end) && (wanted_end <=? last_end)) EndNotCovered;
    mret sel.

Definition sel_len (sel : SelectedRange) : N := sel_end sel - sel_start sel.

(** The accumulation loop of [read_range_into]. *)
Fixpoint gather (st : S) (start stop : N) (cs : list Chunk) : result cdc_error (list byte) :=
  match cs with
  | [] => Ok []
  | c :: cs =>
      let chunk_end := sat_add (c_offset c) (c_len c) in
      got ← match bs_get st (c_hash c) with
            | Ok o => Ok o
            | Err e => Err (GetChunk e)
            | Panic => Panic
            end;
      bytes ← ok_or got ChunkMissing;
      _ ← ensure (len bytes =? c_len c) ChunkLength;
      let lo := start - c_offset c in
      piece ← slice_checked lo (N.min stop chunk_end - c_offset c) bytes;
      rest ← gather st start stop cs;
      mret (piece ++ rest)
  end.

(** [read_range_into]: the count, and the destination buffer it leaves. *)
Definition read_range_into (sel : SelectedRange) (st : S) (out : list byte)
    : result cdc_error N * list byte :=
  let r :=
    _ ← ensure (sel_len sel <=? len out) BufferTooSmall;
    bytes ← gather st (sel_start sel) (sel_end sel) (sel_chunks sel);
    _ ← ensure (len bytes =? sel_len sel) RangeNotCovered;
    mret bytes in
  match r with
  | Ok bytes => (Ok (len bytes), splice 0 bytes out)
  | Err e => (Err e, out)
  | Panic => (Panic, out)
  end.

(** [pub struct Manifest] *)
Record Manifest := { m_chunks : list Chunk; m_source_len : N }.

Fixpoint tile_end (stop : N) (cs : list Chunk) : result cdc_error N :=
  match cs with
  | [] => Ok stop
  | c :: cs =>
      _ ← ensure (negb (c_len c =? 0)) EmptySpan;
      _ ← ensure (c_offset c =? stop) TilingGap;
      stop ← ok_or (checked_add (c_offset c) (c_len c)) SpanOverflow;
      tile_end stop cs
  end.

Definition Manifest_parse (cs : list Chunk) : result cdc_error Manifest :=
  stop ← tile_end 0 cs;
  mret {| m_chunks := cs; m_source_len := stop |}.

(** [position(|c| c.offset.saturating_add(c.len) > start).unwrap_or(len)] then
    [take_while(|c| c.offset < end)]. *)
Fixpoint skip_before (start : N) (cs : list Chunk) : list Chunk :=
  match cs with
  | [] => []
  | c :: cs' => if start <? sat_add (c_offset c) (c_len c) then cs else skip_before start cs'
  end.
Fixpoint take_overlapping (stop : N) (cs : list Chunk) : list Chunk :=
  match cs with
  | [] => []
  | c :: cs => if c_offset c <? stop then c :: take_overlapping stop cs else []
  end.

Definition read_range (m : Manifest) (st : S) (offset n : N) : result cdc_error (list byte) :=
  let source_len := m_source_len m in
  let wanted_start := N.min offset source_len in
  let wanted_end := N.min (sat_add offset n) source_len in
  let out := replicate (N.to_nat (wanted_end - wanted_start)) x00 in
  let selected := take_overlapping wanted_end (skip_before wanted_start (m_chunks m)) in
  sel ← SelectedRange_parse selected source_len wanted_start wanted_end;
  let '(r, out) := read_range_into sel st out in
  _ ← r;
  mret out.

Definition reconstruct (m : Manifest) (st : S) : result cdc_error (list byte) :=
  read_range m st 0 usize_max.
End reading.

(** ** Cutting: the reference *)

Section cutting.
Context `{B3 : Blake3} `{G : Gear} `{GL : !GearLaws}.

Lemma next_boundary_bounds data :
  data ≠ [] → 0 < next_boundary data ∧ next_boundary data ≤ len data ∧
  next_boundary data ≤ MAX_CHUNK ∧ (next_boundary data < len data → MIN_CHUNK ≤ next_boundary data).
Proof.
  intros Hne. assert (0 < len data) as Hpos.
  { destruct data; [done|]. rewrite len_cons. lia. }
  unfold next_boundary. destruct (N.leb_spec (len data) MIN_CHUNK) as [Hl|Hl].
  { unfold MIN_CHUNK, MAX_CHUNK in *. lia. }
  destruct (next_match _ _) as [rel|] eqn:Hm.
  - apply next_match_in_buffer in Hm. rewrite len_slice in Hm by lia.
    unfold MIN_CHUNK, MAX_CHUNK in *. lia.
  - unfold MIN_CHUNK, MAX_CHUNK in *. lia.
Qed.

(** The boundary is decided by the first [MAX_CHUNK] bytes. *)
Lemma next_boundary_window d1 d2 :
  takeN MAX_CHUNK d1 = takeN MAX_CHUNK d2 → MAX_CHUNK ≤ len d1 → MAX_CHUNK ≤ len d2 →
  next_boundary d1 = next_boundary d2.
Proof.
  intros E H1 H2. unfold next_boundary.
  rewrite !(proj2 (N.leb_gt _ _)) by (unfold MIN_CHUNK, MAX_CHUNK in *; lia).
  rewrite !N.min_l by done. rewrite <- (slice_takeN MIN_CHUNK MAX_CHUNK MAX_CHUNK d1) by lia.
  by rewrite E, slice_takeN.
Qed.

(** Chunks of the bytes from offset [off] on, as a function of those bytes. *)
Fixpoint chunks_fuel (fuel : nat) (off : N) (bytes : list byte) : list Chunk :=
  match fuel, bytes with
  | S fuel, _ :: _ =>
      let n := next_boundary bytes in
      {| c_hash := blake3 (takeN n bytes); c_offset := off; c_len := n |}
      :: chunks_fuel fuel (off + n) (dropN n bytes)
  | _, _ => []
  end.
Definition chunks_of (off : N) (bytes : list byte) : list Chunk :=
  chunks_fuel (length bytes) off bytes.

Lemma length_dropN_boundary bytes :
  bytes ≠ [] → (length (dropN (next_boundary bytes) bytes) < length bytes)%nat.
Proof.
  intros Hne. pose proof (next_boundary_bounds bytes Hne). unfold dropN. rewrite length_drop.
  destruct bytes; [done|]. simpl in *. lia.
Qed.

Lemma chunks_fuel_enough fuel off bytes :
  (length bytes ≤ fuel)%nat → chunks_fuel fuel off bytes = chunks_of off bytes.
Proof.
  unfold chunks_of. revert off bytes.
  assert (∀ m f f' off bytes, (length bytes ≤ m)%nat → (length bytes ≤ f)%nat →
    (length bytes ≤ f')%nat → chunks_fuel f off bytes = chunks_fuel f' off bytes) as Hgen.
  { induction m as [|m IH]; intros f f' off bytes Hm Hf Hf'.
    - destruct bytes; [by destruct f, f'|simpl in Hm; lia].
    - destruct bytes as [|b bytes]; [by destruct f, f'|].
      destruct f as [|f], f' as [|f']; try (simpl in *; lia). cbn [chunks_fuel]. f_equal.
      pose proof (length_dropN_boundary (b :: bytes) ltac:(done)) as Hd. simpl in Hd, Hm, Hf, Hf'.
      apply IH; lia. }
  intros. by eapply (Hgen (length bytes)).
Qed.

Lemma chunks_of_cons off bytes :
  bytes ≠ [] →
  chunks_of off bytes =
    {| c_hash := blake3 (takeN (next_boundary bytes) bytes); c_offset := off;
       c_len := next_boundary bytes |}
    :: chunks_of (off + next_boundary bytes) (dropN (next_boundary bytes) bytes).
Proof.
  intros Hne. pose proof (length_dropN_boundary bytes Hne) as Hd.
  unfold chunks_of at 1. destruct (length bytes) as [|n] eqn:El; [lia|].
  destruct bytes as [|b bytes]; [done|]. cbn [chunks_fuel]. f_equal.
  apply chunks_fuel_enough. lia.
Qed.

(** Induction over the cut. *)
Lemma cut_ind (P : list byte → Prop) :
  P [] → (∀ bytes, bytes ≠ [] → P (dropN (next_boundary bytes) bytes) → P bytes) → ∀ bytes, P bytes.
Proof.
  intros H0 HS bytes. remember (length bytes) as n eqn:En. revert bytes En.
  induction n as [n IH] using lt_wf_ind. intros bytes ->.
  destruct (decide (bytes = [])) as [->|Hne]; [done|]. apply HS; [done|].
  eapply IH; [|done]. by apply length_dropN_boundary.
Qed.

Lemma cut_ok data start :
  start < len data →
  let n := next_boundary (dropN start data) in
  cut data start =
    Ok ({| c_hash := blake3 (takeN n (dropN start data)); c_offset := start; c_len := n |}, start + n).
Proof.
  intros Hs n. assert (dropN start data ≠ []) as Hne.
  { intros E. apply (f_equal len) in E. rewrite len_dropN, len_nil in E. lia. }
  destruct (next_boundary_bounds _ Hne) as (H1 & H2 & _). rewrite len_dropN in H2. fold n in H1, H2.
  unfold cut. rewrite slice_checked_ok by lia. cbn [mbind result_bind].
  assert (slice start (len data) data = dropN start data) as Er.
  { unfold slice. apply takeN_ge. rewrite len_dropN. lia. }
  rewrite Er. fold n. rewrite slice_checked_ok by lia. cbn [mbind result_bind].
  unfold assert_. rewrite (proj2 (N.ltb_lt _ _)) by lia. cbn [mbind result_bind].
  unfold slice. by replace (start + n - start) with n by lia.
Qed.

Lemma dropN_advance (data : list byte) start n : dropN n (dropN start data) = dropN (start + n) data.
Proof. apply dropN_dropN. Qed.

Lemma chunk_loop_ok fuel data start :
  start ≤ len data → len data - start ≤ N.of_nat fuel →
  chunk_loop fuel data start = Ok (chunks_of start (dropN start data)).
Proof.
  revert start. induction fuel as [|fuel IH]; intros start Hs Hf; cbn [chunk_loop];
    destruct (N.ltb_spec start (len data)) as [Hlt|Hge]; cbn [negb];
    try (by rewrite dropN_ge by lia); [lia|].
  assert (dropN start data ≠ []) as Hne.
  { intros E. apply (f_equal len) in E. rewrite len_dropN, len_nil in E. lia. }
  destruct (next_boundary_bounds _ Hne) as (H1 & H2 & _). rewrite len_dropN in H2.
  rewrite cut_ok by done. cbn [mbind result_bind]. rewrite IH by lia. cbn [mbind result_bind].
  rewrite (chunks_of_cons start (dropN start data)) by done. by rewrite dropN_advance.
Qed.

Lemma chunk_ok data : chunk data = Ok (chunks_of 0 data).
Proof. unfold chunk. rewrite chunk_loop_ok; [by rewrite dropN_0|lia|unfold len; lia]. Qed.

(** ** Offsets only label chunks *)

Lemma chunks_of_shift o o' bytes :
  chunks_of o' bytes = shift_chunk (Z.of_N o' - Z.of_N o) <$> chunks_of o bytes.
Proof.
  revert o o'. induction bytes as [|bytes Hne IH] using cut_ind; intros o o'; [done|].
  rewrite !(chunks_of_cons _ bytes) by done. rewrite fmap_cons. f_equal.
  - unfold shift_chunk; simpl. f_equal. lia.
  - rewrite (IH (o + next_boundary bytes)). f_equal. f_equal. lia.
Qed.

Lemma chunks_of_suffix off bytes i c :
  chunks_of off bytes !! i = Some c →
  off ≤ c_offset c ∧ drop i (chunks_of off bytes) = chunks_of (c_offset c) (dropN (c_offset c - off) bytes).
Proof.
  revert off i. induction bytes as [|bytes Hne IH] using cut_ind; intros off i; [done|].
  rewrite (chunks_of_cons off bytes) by done. destruct i as [|i]; simpl.
  - intros [= <-]. simpl. split; [done|]. rewrite N.sub_diag, dropN_0.
    by rewrite (chunks_of_cons off bytes).
  - intros Hi. apply IH in Hi as [Hle Hd]. split; [lia|]. rewrite Hd, dropN_dropN. do 2 f_equal. lia.
Qed.

(** ** Re-cutting after an edit *)

(** Old chunks whose window ends before the edit are chunks of the new stream. *)
Lemma kept_prefix e off bo bn :
  takeN (e - off) bo = takeN (e - off) bn → e ≤ off + len bo →
  let kept := takeN (keep_prefix (chunks_of off bo) e) (chunks_of off bo) in
  let pos := match last kept with Some c => c_offset c + c_len c | None => off end in
  keep_prefix (chunks_of off bo) e ≤ len (chunks_of off bo) ∧
  off ≤ pos ∧ pos ≤ off + len bn ∧ chunks_of off bn = kept ++ chunks_of pos (dropN (pos - off) bn).
Proof.
  revert off bn. induction bo as [|bo Hne IH] using cut_ind; intros off bn Hpre He.
  { simpl. rewrite N.sub_diag, dropN_0. split_and!; try done; lia. }
  rewrite (chunks_of_cons off bo) by done. cbn [keep_prefix c_offset].
  destruct (N.leb_spec (off + MAX_CHUNK) e) as [Hw|Hw].
  2:{ rewrite takeN_0. cbn [last]. rewrite N.sub_diag, dropN_0. split_and!; try done; lia. }
  destruct (next_boundary_bounds bo Hne) as (H1 & H2 & H3 & _).
  assert (e - off ≤ len bn) as Hbn.
  { apply (f_equal len) in Hpre. rewrite !len_takeN in Hpre. lia. }
  assert (∀ m, m ≤ e - off → takeN m bo = takeN m bn) as Hm.
  { intros m Hm. rewrite <- (N.min_l m (e - off)) by done. by rewrite <- !takeN_takeN, Hpre. }
  assert (next_boundary bo = next_boundary bn) as Hnb.
  { apply next_boundary_window; [apply Hm; lia|lia..]. }
  assert (bn ≠ []) as Hne'.
  { intros ->. rewrite len_nil in Hbn. unfold MAX_CHUNK in *. lia. }
  rewrite (chunks_of_cons off bn) by done. rewrite <- Hnb. set (n := next_boundary bo) in *.
  destruct (IH (off + n) (dropN n bn)) as (Hk & Hp1 & Hp2 & Heq).
  { replace (e - (off + n)) with (e - off - n) by lia.
    rewrite !takeN_dropN_comm. replace (n + (e - off - n)) with (e - off) by lia. by rewrite Hpre. }
  { rewrite len_dropN. lia. }
  rewrite len_dropN in Hp2. set (rest := chunks_of (off + n) (dropN n bo)) in *.
  replace (takeN (1 + keep_prefix rest e) _) with
    ({| c_hash := blake3 (takeN n bo); c_offset := off; c_len := n |} :: takeN (keep_prefix rest e) rest)
    by (unfold takeN; by replace (N.to_nat (1 + keep_prefix rest e)) with (S (N.to_nat (keep_prefix rest e))) by lia).
  rewrite last_cons. set (kept := takeN (keep_prefix rest e) rest) in *.
  split; [rewrite len_cons; lia|].
  destruct (last kept) as [c|]; cbn [c_offset c_len] in *; split_and!; try lia;
    rewrite (Hm n) by lia; cbn [app]; f_equal; rewrite Heq; f_equal; rewrite dropN_dropN;
    do 2 f_equal; lia.
Qed.

Lemma search_offset_Some old key idx :
  search_offset old key = Some idx → ∃ c, old !! idx = Some c ∧ c_offset c = key.
Proof.
  unfold search_offset. intros (x & Hf & ->)%fmap_Some. destruct x as [i c].
  apply list_find_Some in Hf as (? & ? & _). eauto.
Qed.

(** The rescan produces the chunks of the new stream from the cursor on. *)
Lemma rechunk_loop_ok od nd delta oe fuel pos :
  (∀ p o, Z.of_N o = (Z.of_N p - delta)%Z → oe ≤ o → dropN p nd = dropN o od) →
  pos ≤ len nd → len nd - pos ≤ N.of_nat fuel →
  ∃ reused hashed final,
    rechunk_loop fuel (chunks_of 0 od) nd delta oe pos =
      Ok (chunks_of pos (dropN pos nd), reused, hashed, final) ∧
    hashed + reused = len (chunks_of pos (dropN pos nd)) ∧ pos ≤ final ∧ final ≤ len nd.
Proof.
  intros Hsuf. revert pos. induction fuel as [|fuel IH]; intros pos Hp Hf; cbn [rechunk_loop];
    (destruct (N.ltb_spec pos (len nd)) as [Hlt|Hge]; cbn [negb];
     [|exists 0, 0, pos; by rewrite dropN_ge by lia]); [lia|].
  destruct (if (Z.of_N oe <=? Z.of_N pos - delta)%Z then _ else None) as [idx|] eqn:Hr.
  - destruct (Z.leb_spec (Z.of_N oe) (Z.of_N pos - delta)) as [Hle|]; [|done].
    apply search_offset_Some in Hr as (c & Hc & Ho). pose proof (lookup_lt_Some _ _ _ Hc) as Hlen.
    apply chunks_of_suffix in Hc as [_ Hd]. rewrite N.sub_0_r in Hd.
    rewrite Hd. rewrite <- (Hsuf pos (c_offset c)) by lia.
    rewrite (chunks_of_shift (c_offset c) pos).
    replace (Z.of_N pos - Z.of_N (c_offset c))%Z with delta by lia.
    eexists _, _, _. split; [done|]. split; [|lia].
    rewrite (Hsuf pos (c_offset c)), <- Hd by lia. unfold len. rewrite length_fmap, length_drop. lia.
  - assert (dropN pos nd ≠ []) as Hne.
    { intros E. apply (f_equal len) in E. rewrite len_dropN, len_nil in E. lia. }
    destruct (next_boundary_bounds _ Hne) as (H1 & H2 & _). rewrite len_dropN in H2.
    rewrite cut_ok by done. cbn [mbind result_bind].
    destruct (IH (pos + next_boundary (dropN pos nd))) as (re & ha & fi & -> & Hsum & Hf1 & Hf2); [lia..|].
    cbn [mbind result_bind]. rewrite (chunks_of_cons pos (dropN pos nd)) by done.
    rewrite dropN_advance. eexists _, _, _. split; [done|]. rewrite len_cons. lia.
Qed.

Lemma suffix_after_edit (a b b' c : list byte) p o :
  Z.of_N o = (Z.of_N p - (Z.of_N (len (a ++ b' ++ c)) - Z.of_N (len (a ++ b ++ c))))%Z →
  len a + len b ≤ o → dropN p (a ++ b' ++ c) = dropN o (a ++ b ++ c).
Proof.
  rewrite !len_app. intros E Ho.
  rewrite !dropN_app_r by (rewrite ?len_app; lia). f_equal. lia.
Qed.
End cutting.

(** ** What a manifest promises *)

(** The rows cut [[off, len data)] in order, each addressing its bytes. *)
Fixpoint tiles `{Blake3} (data : list byte) (off : N) (cs : list Chunk) : Prop :=
  match cs with
  | [] => off = len data
  | c :: cs =>
      c_offset c = off ∧ 0 < c_len c ∧ off + c_len c ≤ len data ∧
      c_hash c = blake3 (slice off (off + c_len c) data) ∧ tiles data (off + c_len c) cs
  end.

Section manifests.
Context `{B3 : Blake3} `{G : Gear} `{GL : !GearLaws}.

Lemma chunks_of_tile data off :
  off ≤ len data → tiles data off (chunks_of off (dropN off data)).
Proof.
  intros Hle. remember (dropN off data) as bytes eqn:Eb. revert off Hle Eb.
  induction bytes as [|bytes Hne IH] using cut_ind; intros off Hle Eb.
  - simpl. apply (f_equal len) in Eb. rewrite len_dropN, len_nil in Eb. lia.
  - destruct (next_boundary_bounds bytes Hne) as (H1 & H2 & _).
    assert (len bytes = len data - off) as Hl by (by rewrite Eb, len_dropN).
    rewrite (chunks_of_cons off bytes) by done. cbn [tiles c_offset c_len c_hash].
    split_and!; [done|lia|lia| |].
    + unfold slice. rewrite <- Eb. by replace (off + next_boundary bytes - off) with (next_boundary bytes) by lia.
    + apply IH; [lia|]. by rewrite Eb at 2; rewrite dropN_dropN.
Qed.

Lemma chunks_of_sizes off bytes :
  Forall (λ c, c_len c ≤ MAX_CHUNK) (chunks_of off bytes) ∧
  ∀ i c c', chunks_of off bytes !! i = Some c → chunks_of off bytes !! S i = Some c' →
    MIN_CHUNK ≤ c_len c.
Proof.
  revert off. induction bytes as [|bytes Hne IH] using cut_ind; intros off; [done|].
  destruct (next_boundary_bounds bytes Hne) as (H1 & H2 & H3 & H4).
  rewrite (chunks_of_cons off bytes) by done.
  destruct (IH (off + next_boundary bytes)) as [Hmax Hmin]. split; [by constructor|].
  intros [|i] c c' Hc Hc'; simpl in Hc, Hc'; [|by eapply Hmin].
  simplify_eq/=. apply H4. destruct (decide (next_boundary bytes = len bytes)) as [E|]; [|lia].
  rewrite dropN_ge in Hc' by lia. done.
Qed.

(** C34: [chunk] always returns (its loop progresses and never indexes out
    of range), the rows it returns cut the stream without gap or overlap from 0
    to its end with each row addressing its own bytes, no row is longer than
    128 KiB, and none but the last is shorter than 8 KiB. *)
Theorem chunk_tiles_stream data :
  ∃ cs, chunk data = Ok cs ∧ tiles data 0 cs ∧
    Forall (λ c, c_len c ≤ MAX_CHUNK) cs ∧
    ∀ i c c', cs !! i = Some c → cs !! S i = Some c' → MIN_CHUNK ≤ c_len c.
Proof.
  exists (chunks_of 0 data). split; [apply chunk_ok|].
  split; [|apply chunks_of_sizes]. rewrite <- (dropN_0 data) at 2. apply chunks_of_tile. lia.
Qed.

(** C8: incremental re-chunking is exact.  For every truthful edit (the
    stream [a ++ b ++ c] becomes [a ++ b' ++ c]), re-chunking the old manifest
    returns what chunking the new stream from scratch returns, every row of it
    is accounted for as kept, re-hashed or reused, and the scan stays inside
    the new stream. *)
Theorem rechunk_exact a b b' c :
  let old_data := a ++ b ++ c in let new_data := a ++ b' ++ c in
  ∃ old edit new stats,
    chunk old_data = Ok old ∧
    Edit_parse (len a) (len a + len b) (len old_data) = Ok edit ∧
    rechunk_with_stats old new_data edit = Ok (new, stats) ∧
    chunk new_data = Ok new ∧
    prefix_kept stats + rehashed stats + tail_reused stats = len new ∧
    bytes_scanned stats ≤ len new_data.
Proof.
  intros od nd. exists (chunks_of 0 od),
    {| ed_offset := len a; ed_old_end := len a + len b; ed_old_len := len od |}.
  unfold rechunk_with_stats. cbn [ed_offset ed_old_end ed_old_len].
  destruct (kept_prefix (len a) 0 od nd) as (Hk & Hp1 & Hp2 & Heq).
  { rewrite N.sub_0_r. unfold od, nd. by rewrite !takeN_app_len. }
  { unfold od. rewrite len_app. lia. }
  rewrite N.add_0_l in Hp2. rewrite N.sub_0_r in Heq.
  set (keep := keep_prefix (chunks_of 0 od) (len a)) in *.
  set (kept := takeN keep (chunks_of 0 od)) in *.
  set (pos := match last kept with Some c0 => c_offset c0 + c_len c0 | None => 0 end) in *.
  destruct (rechunk_loop_ok od nd (Z.of_N (len nd) - Z.of_N (len od)) (len a + len b)
    (length nd) pos) as (re & ha & fi & -> & Hsum & Hf1 & Hf2).
  { intros p o E Ho. by apply suffix_after_edit. }
  { done. }
  { unfold len. lia. }
  eexists _, _. split_and!; [apply chunk_ok| |done| | |].
  - unfold Edit_parse. rewrite !(proj2 (N.leb_le _ _)); [done|unfold od; rewrite !len_app; lia|lia].
  - rewrite chunk_ok. by rewrite Heq.
  - cbn [prefix_kept rehashed tail_reused]. rewrite len_app.
    unfold kept. rewrite len_takeN. lia.
  - cbn [bytes_scanned]. lia.
Qed.
End manifests.

(** A gear that matches at the first zero byte. *)
Definition zero_gear : Gear := {|
  next_match := λ buf _, (λ x, N.of_nat (fst x) + 1) <$> list_find (λ b, b = x00) buf |}.

Lemma zero_gear_laws : @GearLaws zero_gear.
Proof.
  split. simpl. intros buf mask rel (x & Hf & ->)%fmap_Some. destruct x as [i b]. simpl.
  apply list_find_Some in Hf as (Hi%lookup_lt_Some & _). unfold len. lia.
Qed.

Lemma chunk_tiles_stream_witness :
  ∃ cs, @chunk toy_blake3 zero_gear (replicate 3 x07) = Ok cs ∧
    @tiles toy_blake3 (replicate 3 x07) 0 cs.
Proof.
  destruct (@chunk_tiles_stream toy_blake3 zero_gear zero_gear_laws (replicate 3 x07))
    as (cs & ? & ? & _). eauto.
Defined.

Lemma rechunk_exact_witness :
  ∃ old edit new stats,
    @chunk toy_blake3 zero_gear ([x01] ++ [x02] ++ [x03]) = Ok old ∧
    Edit_parse 1 2 3 = Ok edit ∧
    @rechunk_with_stats toy_blake3 zero_gear old ([x01] ++ [x09; x09] ++ [x03]) edit = Ok (new, stats) ∧
    @chunk toy_blake3 zero_gear ([x01] ++ [x09; x09] ++ [x03]) = Ok new.
Proof.
  destruct (@rechunk_exact toy_blake3 zero_gear zero_gear_laws [x01] [x02] [x09; x09] [x03])
    as (old & edit & new & stats & ? & ? & ? & ? & _). eauto 10.
Defined.

(** ** Serving ranges *)

Section serving.
Context `{B3 : Blake3} {S : Type} `{BS : !BlobStore S}.

(** The store answers a row with the bytes of [data] it covers. *)
Definition row_held (data : list byte) (st : S) (c : Chunk) : Prop :=
  bs_get st (c_hash c) = Ok (Some (slice (c_offset c) (c_offset c + c_len c) data)).

(** Non-empty rows from [o] to [e] without gap. *)
Fixpoint contig (o : N) (cs : list Chunk) (e : N) : Prop :=
  match cs with
  | [] => o = e
  | c :: cs => c_offset c = o ∧ 0 < c_len c ∧ contig (o + c_len c) cs e
  end.

Lemma contig_le o cs e : contig o cs e → o ≤ e.
Proof.
  revert o. induction cs as [|c cs IH]; intros o; simpl; [lia|].
  intros (_ & _ & H%IH). lia.
Qed.

Lemma tiles_contig data off cs : tiles data off cs → contig off cs (len data).
Proof.
  revert off. induction cs as [|c cs IH]; intros off; simpl; [done|].
  intros (? & ? & ? & ? & ?). auto.
Qed.

Lemma contig_last o cs e c : contig o cs e → last cs = Some c → c_offset c + c_len c = e.
Proof.
  revert o. induction cs as [|x cs IH]; intros o; [done|]. intros (Ho & Hl & Hc) Hlast.
  destruct cs as [|y cs].
  - simpl in *. simplify_eq. done.
  - rewrite last_cons_cons in Hlast. eauto.
Qed.

Lemma contig_end o cs e c : contig o cs e → c ∈ cs → o ≤ c_offset c ∧ c_offset c + c_len c ≤ e.
Proof.
  revert o. induction cs as [|x cs IH]; intros o; [by intros _ ?%elem_of_nil|].
  intros (Ho & Hl & Hc) [->|Hin]%elem_of_cons.
  - apply contig_le in Hc. lia.
  - apply IH in Hc; [lia|done].
Qed.

Lemma gather_ok data st start stop o cs e :
  contig o cs e → e ≤ len data → e ≤ u64_max → start ≤ stop →
  (∀ c, c ∈ cs → row_held data st c ∧ c_offset c < stop ∧ start < c_offset c + c_len c) →
  gather st start stop cs = Ok (slice (N.max start o) (N.min stop e) data).
Proof.
  intros Hc He Hu Hss. revert o Hc. induction cs as [|c cs IH]; intros o Hc Hrows.
  { simpl in *. subst o. f_equal. unfold slice.
    by replace (N.min stop e - N.max start e) with 0 by lia. }
  pose proof (contig_end _ _ _ c Hc ltac:(by left)) as [_ Hce].
  destruct Hc as (Ho & Hl & Hc). destruct (Hrows c) as (Hh & H1 & H2); [by left|].
  cbn [gather]. rewrite Hh. cbn [mbind result_bind ok_or].
  rewrite len_slice, (proj2 (N.eqb_eq _ _)) by lia. cbn [ensure mbind result_bind].
  unfold sat_add. rewrite (N.min_l _ u64_max) by lia.
  rewrite slice_checked_ok; [|lia|rewrite len_slice; lia]. cbn [mbind result_bind].
  rewrite (IH (o + c_len c)); [|done|intros; apply Hrows; by right]. cbn [mbind result_bind].
  unfold mret, result_ret. f_equal. rewrite slice_slice by lia.
  replace (c_offset c + (start - c_offset c)) with (N.max start o) by lia.
  replace (c_offset c + (N.min stop (c_offset c + c_len c) - c_offset c))
    with (N.min stop (o + c_len c)) by lia.
  destruct cs as [|c2 cs].
  - simpl in Hc. subst e. unfold slice at 2.
    replace (N.min stop (o + c_len c) - N.max start (o + c_len c)) with 0 by lia.
    by rewrite takeN_0, app_nil_r.
  - destruct (Hrows c2) as (_ & H3 & _); [by right; left|]. destruct Hc as (Ho2 & Hl2 & Hc).
    apply contig_le in Hc. replace (N.min stop (o + c_len c)) with (o + c_len c) by lia.
    replace (N.max start (o + c_len c)) with (o + c_len c) by lia. apply slice_app; lia.
Qed.

(** *** Selecting the rows a range needs *)

Lemma skip_before_ok o cs e start :
  contig o cs e → e ≤ u64_max → o ≤ start → start < e →
  ∃ c cs', skip_before start cs = c :: cs' ∧ contig (c_offset c) (c :: cs') e ∧
    c_offset c ≤ start ∧ start < c_offset c + c_len c ∧ (c :: cs') ⊆ cs.
Proof.
  revert o. induction cs as [|x cs IH]; intros o Hc Hu Hs He; [simpl in Hc; lia|].
  pose proof (contig_end _ _ _ x Hc ltac:(by left)) as [_ Hxe].
  pose proof Hc as (Ho & Hl & Hc'). cbn [skip_before]. unfold sat_add. rewrite N.min_l by lia.
  destruct (N.ltb_spec start (c_offset x + c_len x)).
  - exists x, cs. split_and!; [done| |lia|done|done]. by rewrite Ho.
  - destruct (IH (o + c_len x)) as (c & cs' & -> & ? & ? & ? & ?); [done|done|lia|lia|].
    exists c, cs'. split_and!; try done. set_solver.
Qed.

Lemma skip_before_end o cs e start :
  contig o cs e → e ≤ u64_max → e ≤ start → skip_before start cs = [].
Proof.
  revert o. induction cs as [|x cs IH]; intros o Hc Hu Hs; [done|].
  pose proof (contig_end _ _ _ x Hc ltac:(by left)) as [_ Hxe].
  destruct Hc as (Ho & Hl & Hc). cbn [skip_before]. unfold sat_add. rewrite N.min_l by lia.
  rewrite (proj2 (N.ltb_ge _ _)) by lia. by eapply IH.
Qed.

Lemma take_overlapping_ok o cs e stop :
  contig o cs e → stop ≤ e → o < stop →
  ∃ e', contig o (take_overlapping stop cs) e' ∧ stop ≤ e' ∧ e' ≤ e ∧
    take_overlapping stop cs ⊆ cs ∧ Forall (λ c, c_offset c < stop) (take_overlapping stop cs).
Proof.
  revert o. induction cs as [|x cs IH]; intros o Hc He Ho; [simpl in Hc; lia|].
  destruct Hc as (Hx & Hl & Hc). cbn [take_overlapping]. rewrite (proj2 (N.ltb_lt _ _)) by lia.
  destruct (N.lt_ge_cases (o + c_len x) stop) as [Hlt|Hge].
  - destruct (IH (o + c_len x)) as (e' & H1 & H2 & H3 & H4 & H5); [done..|].
    exists e'. split_and!; try done; [set_solver|]. constructor; [lia|done].
  - exists (o + c_len x). assert (take_overlapping stop cs = []) as ->.
    { destruct cs as [|y cs]; [done|]. destruct Hc as (Hy & _). cbn [take_overlapping].
      by rewrite (proj2 (N.ltb_ge _ _)) by lia. }
    apply contig_le in Hc. split_and!; try done; [set_solver|]. constructor; [lia|done].
Qed.

Lemma check_rows_ok sl start stop prev o cs e :
  contig o cs e → e ≤ sl → sl ≤ u64_max → prev = None ∨ prev = Some o →
  (∀ c, c ∈ cs → c_offset c < stop ∧ start < c_offset c + c_len c) →
  check_rows sl start stop prev cs = Ok ((λ c, c_offset c + c_len c) <$> cs).
Proof.
  revert o prev. induction cs as [|c cs IH]; intros o prev Hc He Hu Hp Hrows; [done|].
  pose proof (contig_end _ _ _ c Hc ltac:(by left)) as [_ Hce].
  destruct Hc as (Ho & Hl & Hc). destruct (Hrows c) as [H1 H2]; [by left|].
  cbn [check_rows]. rewrite (proj2 (N.eqb_neq _ _)) by lia. cbn [negb ensure mbind result_bind].
  unfold checked_add. rewrite (proj2 (N.leb_le _ _)) by lia. cbn [ok_or mbind result_bind].
  rewrite (proj2 (N.leb_le _ _)) by lia. cbn [ensure mbind result_bind].
  rewrite (proj2 (N.ltb_lt _ _) H1), (proj2 (N.ltb_lt _ _) H2). cbn [andb ensure mbind result_bind].
  assert ((match prev with Some p => ensure (c_offset c =? p) NotContiguous | None => Ok tt end
           : result cdc_error unit) = Ok tt) as ->.
  { destruct Hp as [->| ->]; [done|]. by rewrite Ho, N.eqb_refl. }
  cbn [mbind result_bind]. rewrite (IH (o + c_len c)); [done|done..| |].
  - right. by rewrite Ho.
  - intros. apply Hrows. by right.
Qed.

Lemma parse_ok sl start stop o cs e :
  contig o cs e → cs ≠ [] → e ≤ sl → sl ≤ u64_max → start < stop → stop ≤ sl →
  o ≤ start → start < stop → stop ≤ e → Forall (λ c, c_offset c < stop) cs →
  (∀ c, head cs = Some c → start < c_offset c + c_len c) →
  SelectedRange_parse cs sl start stop = Ok {| sel_chunks := cs; sel_start := start; sel_end := stop |}
  ∧ ∀ c, c ∈ cs → c_offset c < stop ∧ start < c_offset c + c_len c.
Proof.
  intros Hc Hne He Hu Hss Hsl Ho _ Hse Hall Hhead.
  assert (∀ c, c ∈ cs → c_offset c < stop ∧ start < c_offset c + c_len c) as Hrows.
  { intros c Hin. split; [by eapply Forall_forall in Hall|].
    destruct cs as [|x cs]; [done|]. specialize (Hhead x eq_refl).
    apply elem_of_cons in Hin as [->|Hin]; [done|]. destruct Hc as (Hx & _ & Hc).
    apply (contig_end _ _ _ c) in Hc; [lia|done]. }
  split; [|done]. unfold SelectedRange_parse.
  rewrite (proj2 (N.leb_le start stop)), (proj2 (N.leb_le stop sl)) by lia.
  cbn [ensure mbind result_bind]. rewrite (proj2 (N.eqb_neq start stop)) by lia.
  rewrite bool_decide_false by done. cbn [negb ensure mbind result_bind].
  rewrite (check_rows_ok sl start stop None o cs e) by auto. cbn [mbind result_bind].
  destruct (last cs) as [lc|] eqn:El; [|by apply last_None in El].
  pose proof (contig_last _ _ _ _ Hc El) as Hle.
  assert (c_offset lc < stop) as Hlo.
  { apply Hrows. apply last_Some in El as (? & ->). set_solver. }
  rewrite fmap_last, El. destruct cs as [|x cs]; [done|]. specialize (Hhead x eq_refl).
  destruct Hc as (Hx & _). rewrite fmap_cons.
  cbn [head hd_error fmap option_fmap option_map ok_or mbind result_bind]. unfold ok_or. simpl.
  rewrite (proj2 (N.leb_le (c_offset x) start)), (proj2 (N.ltb_lt start _) Hhead) by lia.
  cbn [andb ensure mbind result_bind].
  by rewrite (proj2 (N.ltb_lt _ _) Hlo), (proj2 (N.leb_le stop (c_offset lc + c_len lc))) by lia.
Qed.

Lemma splice_all (bytes out : list byte) : len bytes = len out → splice 0 bytes out = bytes.
Proof.
  intros E. unfold splice. rewrite takeN_0. simpl.
  rewrite dropN_ge by lia. apply app_nil_r.
Qed.

(** The rows a non-empty range selects parse, and read back its bytes. *)
Lemma select_read_ok data cs st a b out :
  tiles data 0 cs → len data ≤ u64_max → (∀ c, c ∈ cs → row_held data st c) →
  a < b → b ≤ len data → len out = b - a →
  let selected := take_overlapping b (skip_before a cs) in
  let sel := {| sel_chunks := selected; sel_start := a; sel_end := b |} in
  SelectedRange_parse selected (len data) a b = Ok sel ∧
  read_range_into sel st out = (Ok (b - a), slice a b data).
Proof.
  intros Ht Hu Hrows Hab HbL Hout. apply tiles_contig in Ht. set (L := len data) in *.
  destruct (skip_before_ok 0 cs L a) as (c & cs' & -> & Hc & Hca & Hcb & Hsub); [done|done|lia|lia|].
  destruct (take_overlapping_ok (c_offset c) (c :: cs') L b) as (e' & Hce & He1 & He2 & Hsub2 & Hall);
    [done|done|lia|].
  cbv zeta. set (sel := take_overlapping b (c :: cs')) in *.
  assert (sel = c :: take_overlapping b cs') as Esel.
  { unfold sel. cbn [take_overlapping]. by rewrite (proj2 (N.ltb_lt _ _)) by lia. }
  destruct (parse_ok L a b (c_offset c) sel e') as [-> Hov]; try done; try lia.
  { by rewrite Esel. }
  { rewrite Esel. by intros ? [= <-]. }
  split; [done|]. unfold read_range_into, sel_len. cbn [sel_start sel_end sel_chunks].
  rewrite (proj2 (N.leb_le _ _)) by lia. cbn [ensure mbind result_bind].
  rewrite (gather_ok data st a b (c_offset c) sel e'); [|done|lia|lia|lia|].
  2:{ intros x Hx. split; [apply Hrows; set_solver|by apply Hov]. }
  cbn [mbind result_bind]. replace (N.max a (c_offset c)) with a by lia.
  replace (N.min b e') with b by lia. rewrite len_slice by done.
  rewrite N.eqb_refl. cbn [ensure mbind result_bind mret result_ret]. rewrite len_slice by done. f_equal.
  apply splice_all. rewrite len_slice by done. lia.
Qed.

(** A non-empty or past-the-end read of a held manifest. *)
Lemma read_range_ok data cs st off n :
  tiles data 0 cs → len data ≤ u64_max → (∀ c, c ∈ cs → row_held data st c) →
  0 < n ∨ len data ≤ off →
  read_range {| m_chunks := cs; m_source_len := len data |} st off n =
    Ok (slice (N.min off (len data)) (N.min (off + n) (len data)) data).
Proof.
  intros Ht Hu Hrows Hn. unfold read_range. cbn [m_source_len m_chunks].
  replace (N.min (sat_add off n) (len data)) with (N.min (off + n) (len data)) by (unfold sat_add; lia).
  destruct (N.le_gt_cases (len data) off) as [Hpast|Hin].
  - rewrite !N.min_r by lia. apply tiles_contig in Ht.
    rewrite (skip_before_end 0 cs (len data)) by (done || lia). cbn [take_overlapping].
    unfold SelectedRange_parse. rewrite !N.leb_refl, N.eqb_refl.
    cbn [ensure mbind result_bind bool_decide]. rewrite bool_decide_true by done.
    cbn [ensure mbind result_bind mret result_ret]. unfold read_range_into, sel_len.
    cbn [sel_start sel_end sel_chunks gather]. by rewrite N.sub_diag, slice_empty.
  - destruct (select_read_ok data cs st (N.min off (len data)) (N.min (off + n) (len data))
      (replicate (N.to_nat (N.min (off + n) (len data) - N.min off (len data))) x00))
      as [-> E]; try done; try lia.
    { unfold len at 1. rewrite length_replicate. lia. }
    cbn [mbind result_bind]. by rewrite E.
Qed.

(** A zero-length read strictly inside a row. *)
Lemma read_range_empty_inside data cs st off :
  tiles data 0 cs → len data ≤ u64_max →
  (∃ c, c ∈ cs ∧ c_offset c < off ∧ off < c_offset c + c_len c) →
  read_range {| m_chunks := cs; m_source_len := len data |} st off 0 = Err EmptyWithChunks.
Proof.
  intros Ht Hu (c0 & Hin & H1 & H2). apply tiles_contig in Ht.
  pose proof (contig_end _ _ _ _ Ht Hin) as [_ Hend]. unfold read_range. cbn [m_source_len m_chunks].
  replace (N.min (sat_add off 0) (len data)) with off by (unfold sat_add; lia).
  replace (N.min off (len data)) with off by lia.
  destruct (skip_before_ok 0 cs (len data) off) as (c & cs' & -> & Hc & Hca & Hcb & Hsub);
    [done|done|lia|lia|].
  assert (c_offset c < off) as Hlt.
  { destruct (decide (c_offset c = off)) as [E|]; [exfalso|lia].
    clear -Ht Hin H1 H2 E Hsub Hcb. assert (c ∈ cs) as Hc by set_solver. clear Hsub.
    revert Ht Hin Hc. generalize 0. induction cs as [|x cs IH]; intros o Ht Hin Hc; [set_solver|].
    pose proof Ht as (Hx & Hl & Ht').
    apply elem_of_cons in Hin as [->|Hin], Hc as [->|Hc]; [lia| | |by eapply IH].
    - apply (contig_end _ _ _ _ Ht') in Hc. lia.
    - apply (contig_end _ _ _ _ Ht') in Hin. lia. }
  cbn [take_overlapping]. rewrite (proj2 (N.ltb_lt _ _) Hlt).
  unfold SelectedRange_parse. rewrite N.leb_refl, (proj2 (N.leb_le off (len data))), N.eqb_refl by lia.
  cbn [ensure mbind result_bind]. by rewrite bool_decide_false.
Qed.

(** *** Storing *)

Context `{BL : !BlobStoreLaws S}.

Lemma store_chunks_held data off cs st st' :
  tiles data off cs → store_chunks data cs st = (Ok tt, st') →
  (∀ h w, bs_get st h = Ok (Some w) → bs_get st' h = Ok (Some w)) ∧
  ∀ c, c ∈ cs → ∃ w, bs_get st' (c_hash c) = Ok (Some w) ∧
    blake3 w = blake3 (slice (c_offset c) (c_offset c + c_len c) data).
Proof.
  revert off st. induction cs as [|c cs IH]; intros off st Ht Hs.
  { simpl in Hs. simplify_eq. split; [done|]. by intros ? ?%elem_of_nil. }
  destruct Ht as (Ho & Hl & Hend & Hh & Ht). cbn [store_chunks] in Hs.
  rewrite slice_checked_ok in Hs by lia. destruct (bs_put _ st) as [[h|e|] st1] eqn:Hp; try done.
  case_bool_decide as Eh; [|done]. destruct (IH _ _ Ht Hs) as [Hkeep Hrows]. split.
  - intros h' w Hg. apply Hkeep. by eapply bs_put_immutable.
  - intros x [->|Hx]%elem_of_cons; [|by apply Hrows].
    destruct (bs_put_present _ _ _ _ Hp) as [w Hw]. exists w. rewrite <- Eh.
    split; [by apply Hkeep|]. rewrite (bs_get_verified _ _ _ Hw).
    by rewrite (bs_put_hash _ _ _ _ Hp).
Qed.

Lemma tile_end_ok data off cs :
  tiles data off cs → len data ≤ u64_max → tile_end off cs = Ok (len data).
Proof.
  revert off. induction cs as [|c cs IH]; intros off Ht Hu; [by rewrite <- Ht|].
  destruct Ht as (Ho & Hl & Hend & Hh & Ht). cbn [tile_end].
  rewrite (proj2 (N.eqb_neq (c_len c) 0)), Ho, N.eqb_refl by lia. cbn [negb ensure mbind result_bind].
  unfold checked_add. rewrite (proj2 (N.leb_le _ _)) by lia. cbn [ok_or mbind result_bind].
  by apply IH.
Qed.
End serving.

(** ** Properties of storing and serving *)

(** What parsing a selection establishes of each row. *)
Lemma check_rows_inv sl start stop prev cs ends :
  check_rows sl start stop prev cs = Ok ends →
  ∀ c, c ∈ cs → c_offset c + c_len c ≤ sl ∧ c_offset c < stop ∧ start < c_offset c + c_len c.
Proof.
  revert prev ends. induction cs as [|x cs IH]; intros prev ends Hr c Hin; [by apply elem_of_nil in Hin|].
  cbn [check_rows] in Hr. result_inv. unfold checked_add in Hok0.
  destruct (N.leb_spec (c_offset x + c_len x) u64_max); simplify_eq/=.
  apply N.leb_le in Hok1. apply andb_true_iff in Hok2 as [?%N.ltb_lt ?%N.ltb_lt].
  apply elem_of_cons in Hin as [->|Hin]; [done|by eapply IH].
Qed.

Lemma gather_no_panic `{Blake3} {S} `{!BlobStore S} (st : S) sl start stop cs :
  sl ≤ u64_max → start ≤ stop → (∀ h, bs_get st h ≠ Panic) →
  (∀ c, c ∈ cs → c_offset c + c_len c ≤ sl ∧ c_offset c < stop ∧ start < c_offset c + c_len c) →
  gather st start stop cs ≠ Panic.
Proof.
  intros Hu Hss Hg. induction cs as [|c cs IH]; intros Hrows; [done|]. cbn [gather].
  destruct (Hrows c) as (H1 & H2 & H3); [by left|]. specialize (Hg (c_hash c)).
  destruct (bs_get st (c_hash c)) as [[bytes|]| |]; try done. cbn [mbind result_bind ok_or].
  destruct (N.eqb_spec (len bytes) (c_len c)) as [El|]; [|done]. cbn [ensure mbind result_bind].
  unfold sat_add. rewrite (N.min_l _ u64_max) by lia.
  rewrite slice_checked_ok by lia. cbn [mbind result_bind].
  destruct (gather st start stop cs); try done. exfalso. apply IH; [|done].
  intros. apply Hrows. by right.
Qed.

Lemma parse_inv cs sl start stop sel :
  SelectedRange_parse cs sl start stop = Ok sel →
  sel = {| sel_chunks := cs; sel_start := start; sel_end := stop |} ∧ start ≤ stop ∧
  ∀ c, c ∈ cs → c_offset c + c_len c ≤ sl ∧ c_offset c < stop ∧ start < c_offset c + c_len c.
Proof.
  unfold SelectedRange_parse. intros Hp. result_inv. apply N.leb_le in Hok.
  destruct (N.eqb_spec start stop); result_inv.
  - apply bool_decide_eq_true_1 in Hok1. subst. split_and!; [done..|].
    by intros ? ?%elem_of_nil.
  - split_and!; [done..|]. by eapply check_rows_inv.
Qed.

Lemma dropN_splice_0 (k l : list byte) : len k ≤ len l → dropN (len k) (splice 0 k l) = dropN (len k) l.
Proof. intros. unfold splice. rewrite takeN_0. simpl. by rewrite dropN_app_len. Qed.

Section roundtrip.
Context `{B3 : Blake3} `{G : Gear} `{GL : !GearLaws}.
Context {S : Type} `{BS : !BlobStore S} `{BL : !BlobStoreLaws S}.

(** Storing a stream and reading it back, on any store that keeps the
    [BlobStore] contract.  If [chunk_into] succeeds, its rows parse as a
    complete manifest; the whole stream reconstructs; and every read that asks
    for bytes, or starts at or past the end, returns exactly the overlap of the
    request with the stream.  Otherwise one of the rows reads back bytes that
    collide with its own under BLAKE3. *)
Theorem chunk_store_roundtrip data (st st' : S) cs :
  len data ≤ u64_max → chunk_into data st = (Ok cs, st') →
  Manifest_parse cs = Ok {| m_chunks := cs; m_source_len := len data |} ∧
  let m := {| m_chunks := cs; m_source_len := len data |} in
  (reconstruct m st' = Ok data ∧
   ∀ off n, 0 < n ∨ len data ≤ off →
     read_range m st' off n = Ok (slice (N.min off (len data)) (N.min (off + n) (len data)) data))
  ∨ ∃ c w, c ∈ cs ∧ bs_get st' (c_hash c) = Ok (Some w) ∧
      collision blake3 w (slice (c_offset c) (c_offset c + c_len c) data).
Proof.
  intros Hu Hin. unfold chunk_into in Hin. rewrite chunk_ok in Hin.
  destruct (store_chunks data (chunks_of 0 data) st) as [[u|e|] st1] eqn:Hs; try done.
  injection Hin as <- <-. destruct u.
  assert (tiles data 0 (chunks_of 0 data)) as Ht.
  { rewrite <- (dropN_0 data) at 2. apply chunks_of_tile. lia. }
  split.
  { unfold Manifest_parse. by rewrite (tile_end_ok data). }
  destruct (store_chunks_held data 0 _ st st1 Ht Hs) as [_ Hheld].
  destruct (decide (Forall (λ c, bs_get st1 (c_hash c) =
    Ok (Some (slice (c_offset c) (c_offset c + c_len c) data))) (chunks_of 0 data))) as [Hall|Hno].
  - left. rewrite Forall_forall in Hall. split; [|intros; by apply read_range_ok].
    unfold reconstruct. rewrite read_range_ok; [|done|done|done|by left].
    rewrite N.min_l, N.min_r by (unfold usize_max, u64_max in *; lia). by rewrite slice_full.
  - right. apply not_Forall_Exists in Hno; [|intros ?; apply _].
    apply Exists_exists in Hno as (c & Hc & Hne). destruct (Hheld c Hc) as (w & Hw & Eh).
    exists c, w. split_and!; [done..|]. split; [|done]. intros ->. by apply Hne.
Qed.

(** A read into a caller's buffer either fills it or leaves it alone.
    For any rows that parse as a selection, whatever the store answers,
    [read_range_into] does not panic; an error leaves the destination exactly
    as it was; success writes exactly the interval's length at the front and
    nothing after it. *)
Theorem read_range_into_all_or_nothing cs source_len start stop sel (st : S) out :
  source_len ≤ u64_max → SelectedRange_parse cs source_len start stop = Ok sel →
  (∀ h, bs_get st h ≠ Panic) →
  match read_range_into sel st out with
  | (Ok n, out') => n = stop - start ∧ len out' = len out ∧ dropN n out' = dropN n out
  | (Err _, out') => out' = out
  | (Panic, _) => False
  end.
Proof.
  intros Hu Hp Hg. apply parse_inv in Hp as (-> & Hss & Hrows).
  unfold read_range_into, sel_len. cbn [sel_start sel_end sel_chunks].
  destruct (N.leb_spec (stop - start) (len out)) as [Hl|]; [|done]. cbn [ensure mbind result_bind].
  pose proof (gather_no_panic st source_len start stop cs Hu Hss Hg Hrows) as Hnp.
  destruct (gather st start stop cs) as [bytes|e|]; [|done|done]. cbn [mbind result_bind].
  destruct (N.eqb_spec (len bytes) (stop - start)) as [El|]; [|done]. cbn [ensure mbind result_bind].
  split_and!; [done| |by apply dropN_splice_0; lia]. apply len_splice. lia.
Qed.

(** The one read the interface gets wrong.  A read of zero bytes at an
    offset strictly inside a chunk selects that chunk, and the selection check
    for an empty interval then refuses it: the caller gets an error instead of
    the empty result that the same read gives at a chunk boundary. *)
Theorem empty_read_inside_chunk_is_refused data cs (st : S) off :
  tiles data 0 cs → len data ≤ u64_max →
  (∃ c, c ∈ cs ∧ c_offset c < off ∧ off < c_offset c + c_len c) →
  read_range {| m_chunks := cs; m_source_len := len data |} st off 0 = Err EmptyWithChunks.
Proof. apply read_range_empty_inside. Qed.
End roundtrip.

(** ** Examples on the in-memory store *)

Section examples.
#[local] Existing Instances toy_blake3 zero_gear zero_gear_laws MemBlobStore_store MemBlobStore_laws.

Definition demo_stream : list byte := [x01; x02; x03; x04].
Definition demo_stored : result cdc_error (list Chunk) * MemBlobStore :=
  chunk_into demo_stream MemBlobStore_new.
Definition demo_rows : list Chunk := chunks_of 0 demo_stream.

Lemma demo_stored_ok : demo_stored = (Ok demo_rows, snd demo_stored).
Proof. vm_compute. reflexivity. Qed.

Lemma demo_tiles : tiles demo_stream 0 demo_rows.
Proof. unfold demo_rows. rewrite <- (dropN_0 demo_stream) at 2. apply chunks_of_tile. lia. Qed.

Lemma chunk_store_roundtrip_witness :
  Manifest_parse demo_rows = Ok {| m_chunks := demo_rows; m_source_len := 4 |}.
Proof.
  exact (proj1 (chunk_store_roundtrip demo_stream MemBlobStore_new (snd demo_stored) demo_rows
    ltac:(done) demo_stored_ok)).
Defined.

Lemma read_range_into_all_or_nothing_witness :
  ∃ sel, SelectedRange_parse demo_rows 4 1 3 = Ok sel ∧
    snd (read_range_into sel MemBlobStore_new [xff; xff]) = [xff; xff].
Proof.
  destruct (SelectedRange_parse demo_rows 4 1 3) as [sel| |] eqn:Hp;
    try (vm_compute in Hp; discriminate Hp).
  exists sel. split; [done|].
  pose proof (read_range_into_all_or_nothing demo_rows 4 1 3 sel MemBlobStore_new [xff; xff]
    ltac:(done) Hp ltac:(intros h; done)) as Hr.
  destruct (read_range_into sel MemBlobStore_new [xff; xff]) as [[n|e|] out'] eqn:E; [|done..].
  exfalso. vm_compute in Hp. injection Hp as <-. vm_compute in E. discriminate E.
Defined.

Lemma empty_read_inside_chunk_is_refused_witness :
  read_range {| m_chunks := demo_rows; m_source_len := 4 |} (snd demo_stored) 2 0
  = Err EmptyWithChunks.
Proof.
  apply (empty_read_inside_chunk_is_refused demo_stream demo_rows (snd demo_stored) 2);
    [apply demo_tiles|done|].
  exists {| c_hash := toy_hash demo_stream; c_offset := 0; c_len := 4 |}.
  split_and!; [|done..]. vm_compute. left.
Defined.
End examples.
