(* ===== verification/ChunkPool.v ===== *)
(** * The shared chunk pool

    [rs/ll-open/fs/src/chunk_pool.rs]: the [content_chunks] table as a
    [BlobStore], the decoding of one manifest row, and the lower bound that
    lets a range read seek instead of scan.

    A SQLite table with a primary key is a finite map; a statement inside a
    transaction is a function on the tables.  A failing statement aborts its
    transaction, which is why the operations of this layer return no state on
    an error. *)

From S2P Require Import Prelude Substrate Cdc.
From Stdlib Require Import NArith ZArith Lia.
Local Open Scope N_scope.

(** [content_chunks(chunk_hash BLOB PRIMARY KEY, chunk_bytes BLOB)] *)
Abbreviation pool := (gmap (list byte) (list byte)).

Inductive blob_error :=
| BlobMismatch | BlobCdc (e : cdc_error) | TilesWrongLength | InsertChunk (e : store_error)
| ChunkHashDiffers | ExceedsInteger | BadHashLength | NegativeCoordinate | NoManifest
| RangeReversed | NoSuchTable | PrimaryKeyConflict | BadKeyLength | BatchSizeZero
| MissingTables | AccountingMismatch | NotMadeFresh | CountOverflow.

(** An error of the chunking crate under this layer's context. *)
Definition lift_cdc {A} (r : result cdc_error A) : result blob_error A :=
  match r with Ok a => Ok a | Err e => Err (BlobCdc e) | Panic => Panic end.

Section pool.
Context `{Blake3}.

(** [impl BlobStore for SqliteBlobStore] *)
Definition SqliteBlobStore_get (p : pool) (h : Hash) : result store_error (option (list byte)) :=
  match p !! as_bytes h with
  | None => Ok None
  | Some bytes =>
      if bool_decide (content_hash bytes = h) then Ok (Some bytes) else Err IntegrityViolation
  end.

(** [INSERT OR IGNORE], then the check of an occupied key. *)
Definition SqliteBlobStore_put (bytes : list byte) (p : pool) : result store_error Hash * pool :=
  let hash := content_hash bytes in
  match p !! as_bytes hash with
  | None => (Ok hash, <[as_bytes hash := bytes]> p)
  | Some _ =>
      match SqliteBlobStore_get p hash with
      | Ok (Some _) => (Ok hash, p)
      | Ok None => (Err StoreIo, p)
      | Err e => (Err e, p)
      | Panic => (Panic, p)
      end
  end.

Definition SqliteBlobStore_contains (p : pool) (h : Hash) : result store_error bool :=
  Ok (bool_decide (is_Some (p !! as_bytes h))).

#[global] Instance SqliteBlobStore_store : BlobStore pool := {|
  bs_put := SqliteBlobStore_put;
  bs_get := SqliteBlobStore_get;
  bs_contains := SqliteBlobStore_contains;
|}.

(** A put leaves the pool alone or fills the one key it addresses. *)
Lemma sqlite_put_cases bytes p r p' :
  SqliteBlobStore_put bytes p = (r, p') →
  (r = Ok (blake3 bytes) ∧ p !! as_bytes (blake3 bytes) = None ∧
   p' = <[as_bytes (blake3 bytes) := bytes]> p) ∨
  (p' = p ∧ ((∃ v, r = Ok (blake3 bytes) ∧ SqliteBlobStore_get p (blake3 bytes) = Ok (Some v)) ∨
             ∃ e, r = Err e)).
Proof.
  unfold SqliteBlobStore_put, SqliteBlobStore_get, content_hash. intros E.
  destruct (p !! as_bytes (blake3 bytes)) as [v|] eqn:L; [|left; by simplify_eq].
  right. case_bool_decide; simplify_eq; eauto 6.
Qed.

Lemma sqlite_get_insert p h k v :
  h ≠ k → SqliteBlobStore_get (<[as_bytes k := v]> p) h = SqliteBlobStore_get p h.
Proof.
  intros Hn. unfold SqliteBlobStore_get. rewrite lookup_insert_ne; [done|].
  by intros ?%as_bytes_inj.
Qed.

#[global] Instance SqliteBlobStore_laws : BlobStoreLaws pool.
Proof.
  split; cbn [bs_put bs_get SqliteBlobStore_store].
  - unfold SqliteBlobStore_get, content_hash. intros p h v E.
    destruct (p !! _); [|done]. case_bool_decide; by simplify_eq.
  - intros v p h p' E. destruct (sqlite_put_cases _ _ _ _ E) as [([= ->]&_)|[_ [(?&[= ->]&_)|(?&?)]]]; done.
  - intros v p h p' E.
    destruct (sqlite_put_cases _ _ _ _ E) as [([= ->]&_&->)|[-> [(x&[= ->]&G)|(?&?)]]]; [|eauto|done].
    exists v. unfold SqliteBlobStore_get, content_hash. rewrite lookup_insert_eq.
    by rewrite bool_decide_true.
  - intros v p r p' h w E G. destruct (sqlite_put_cases _ _ _ _ E) as [(_&L&->)|[-> _]]; [|done].
    rewrite sqlite_get_insert; [done|]. intros ->. unfold SqliteBlobStore_get in G. by rewrite L in G.
  - intros v p r p' h E Hn. destruct (sqlite_put_cases _ _ _ _ E) as [(_&_&->)|[-> _]]; [|done].
    by apply sqlite_get_insert.
Qed.
End pool.

(** [usize::try_from(i64)] on a 64-bit target. *)
Definition usize_of_i64 (z : Z) : result blob_error N :=
  if (0 <=? z)%Z then Ok (Z.to_N z) else Err NegativeCoordinate.

(** [decode_manifest_chunk] *)
Definition decode_manifest_chunk (hash : list byte) (offset n : Z) : result blob_error Chunk :=
  h ← ok_or (Hash_try_from hash) BadHashLength;
  o ← usize_of_i64 offset;
  l ← usize_of_i64 n;
  mret {| c_hash := h; c_offset := o; c_len := l |}.

(** [sqlite_integer]: [i64::try_from(usize)]. *)
Definition sqlite_integer (v : N) : result blob_error Z :=
  if v <=? i64_max then Ok (Z.of_N v) else Err ExceedsInteger.

(** [seek_floor] *)
Definition seek_floor (start : N) : result blob_error Z := sqlite_integer (start - MAX_CHUNK).

Lemma sqlite_integer_ok v : v ≤ i64_max → sqlite_integer v = Ok (Z.of_N v).
Proof. intros. unfold sqlite_integer. by rewrite (proj2 (N.leb_le _ _)). Qed.

(** The floor is sound: a row that overlaps the range and is no longer than the
    chunker's ceiling starts at or above it. *)
Lemma seek_floor_sound start floor (c : Chunk) :
  seek_floor start = Ok floor → c_len c ≤ MAX_CHUNK → start < c_offset c + c_len c →
  (floor ≤ Z.of_N (c_offset c))%Z.
Proof. unfold seek_floor, sqlite_integer. intros Hf. case_match; simplify_eq. lia. Qed.

Lemma decode_encode (c : Chunk) :
  decode_manifest_chunk (as_bytes (c_hash c)) (Z.of_N (c_offset c)) (Z.of_N (c_len c)) = Ok c.
Proof.
  unfold decode_manifest_chunk, usize_of_i64. rewrite Hash_try_from_as_bytes.
  cbn [ok_or mbind result_bind]. rewrite !(proj2 (Z.leb_le 0 _)) by lia.
  cbn [mbind result_bind]. rewrite !N2Z.id. by destruct c.
Qed.
