(* ===== verification/BlobChunked.v ===== *)
(** * Chunk-backed storage of whole-file blobs

    [rs/ll-open/fs/src/blob_chunked.rs]: storing a content-addressed blob as a
    manifest of spans into the chunk pool, deciding whether a complete manifest
    is present, and reading a byte range by selecting only the spans that
    overlap it.  The [BlobStore] side is used through its contract alone. *)

From S2P Require Import Prelude Substrate Cdc ChunkPool.
From Stdlib Require Import NArith ZArith Lia.
Local Open Scope N_scope.

(** One row of [blob_manifest]; the primary key is [(blob_hash, seq)]. *)
Record manifest_row := {
  r_blob : list byte; r_seq : Z; r_chunk : list byte; r_offset : Z; r_len : Z }.

#[global] Instance manifest_row_eq_dec : EqDecision manifest_row.
Proof. solve_decision. Defined.

(** The three tables of the arena database, each of which may be absent.
    [source_blobs.byte_len] is generated from [blob_bytes]. *)
Record db := {
  content_chunks : option pool;
  blob_manifest : option (list manifest_row);
  source_blobs : option (gmap (list byte) (list byte));
}.

(** [create_blob_chunked_schema], [ensure_blob_manifest_infra] *)
Definition ensure_blob_manifest_infra (d : db) : db := {|
  content_chunks := content_chunks d;
  blob_manifest := Some (default [] (blob_manifest d));
  source_blobs := source_blobs d |}.
Definition create_blob_chunked_schema (d : db) : db := ensure_blob_manifest_infra {|
  content_chunks := Some (default ∅ (content_chunks d));
  blob_manifest := blob_manifest d;
  source_blobs := source_blobs d |}.

Definition table {A} (o : option A) : result blob_error A := ok_or o NoSuchTable.

(** [SELECT … WHERE blob_hash = ?1], in table order. *)
Definition rows_of (rows : list manifest_row) (h : Hash) : list manifest_row :=
  filter (λ r, r_blob r = as_bytes h) rows.

(** [ORDER BY seq] and [ORDER BY byte_offset, seq]. *)
Definition seq_le (r1 r2 : manifest_row) : Prop := (r_seq r1 ≤ r_seq r2)%Z.
Definition span_le (r1 r2 : manifest_row) : Prop :=
  (r_offset r1 < r_offset r2 ∨ r_offset r1 = r_offset r2 ∧ r_seq r1 ≤ r_seq r2)%Z.
#[global] Instance seq_le_dec : RelDecision seq_le.
Proof. intros r1 r2. unfold seq_le. apply _. Defined.
#[global] Instance span_le_dec : RelDecision span_le.
Proof. intros r1 r2. unfold span_le. apply _. Defined.

(** [INSERT INTO blob_manifest] *)
Definition insert_row (r : manifest_row) (rows : list manifest_row)
    : result blob_error (list manifest_row) :=
  if existsb (λ x, bool_decide (r_blob x = r_blob r) && bool_decide (r_seq x = r_seq r)) rows
  then Err PrimaryKeyConflict else Ok (rows ++ [r]).

Section blob_chunked.
Context `{Blake3}.

(** The insert loop of [store_blob_chunked_in_transaction]. *)
Fixpoint put_spans (h : Hash) (bytes : list byte) (seq : N) (cs : list Chunk) (p : pool)
    (rows : list manifest_row) : result blob_error (pool * list manifest_row) :=
  match cs with
  | [] => Ok (p, rows)
  | c :: cs =>
      piece ← slice_checked (c_offset c) (c_offset c + c_len c) bytes;
      match bs_put piece p with
      | (Ok stored, p) =>
          _ ← ensure (bool_decide (stored = c_hash c)) ChunkHashDiffers;
          s ← sqlite_integer seq;
          o ← sqlite_integer (c_offset c);
          l ← sqlite_integer (c_len c);
          rows ← insert_row {| r_blob := as_bytes h; r_seq := s; r_chunk := as_bytes (c_hash c);
                               r_offset := o; r_len := l |} rows;
          put_spans h bytes (seq + 1) cs p rows
      | (Err e, _) => Err (InsertChunk e)
      | (Panic, _) => Panic
      end
  end.

Definition store_blob_chunked_in_transaction `{Gear} (d : db) (h : Hash) (bytes : list byte)
    : result blob_error (N * db) :=
  _ ← ensure (bool_decide (content_hash bytes = h)) BlobMismatch;
  cs ← lift_cdc (chunk bytes);
  m ← lift_cdc (Manifest_parse cs);
  _ ← ensure (m_source_len m =? len bytes) TilesWrongLength;
  p ← table (content_chunks d);
  rows ← table (blob_manifest d);
  let cleared := filter (λ r, r_blob r ≠ as_bytes h) rows in
  '(p, rows) ← put_spans h bytes 0 cs p cleared;
  mret (len cs, {| content_chunks := Some p; blob_manifest := Some rows;
                   source_blobs := source_blobs d |}).

Definition decode_row (r : manifest_row) : result blob_error Chunk :=
  decode_manifest_chunk (r_chunk r) (r_offset r) (r_len r).

Fixpoint decode_rows (rows : list manifest_row) : result blob_error (list Chunk) :=
  match rows with
  | [] => Ok []
  | r :: rows => c ← decode_row r; cs ← decode_rows rows; mret (c :: cs)
  end.

Definition select_blob_manifest (d : db) (h : Hash) : result blob_error (list Chunk) :=
  rows ← table (blob_manifest d);
  decode_rows (merge_sort seq_le (rows_of rows h)).

Definition has_blob_chunked (d : db) (h : Hash) : result blob_error bool :=
  sb ← table (source_blobs d);
  match sb !! as_bytes h with
  | None => Ok false
  | Some blob_bytes =>
      cs ← select_blob_manifest d h;
      match cs with
      | [] => Ok (len blob_bytes =? 0)
      | _ => match Manifest_parse cs with
             | Ok m => Ok (m_source_len m =? len blob_bytes)
             | Err _ => Ok false
             | Panic => Panic
             end
      end
  end.

(** [BLOB_OVERLAP_PREDICATE] *)
Definition overlaps (floor stop start : Z) (r : manifest_row) : Prop :=
  (floor ≤ r_offset r ∧ r_offset r < stop ∧ start < r_offset r + r_len r)%Z.
#[global] Instance overlaps_dec floor stop start r : Decision (overlaps floor stop start r).
Proof. unfold overlaps. apply _. Defined.

(** [SELECT MAX(byte_offset + byte_len)] *)
Definition max_end (rows : list manifest_row) : option Z :=
  match rows with
  | [] => None
  | r :: rows => Some (foldr (λ x acc, Z.max (r_offset x + r_len x) acc) (r_offset r + r_len r)%Z rows)
  end.

Definition blob_manifest_len (d : db) (h : Hash) : result blob_error (option N) :=
  rows ← table (blob_manifest d);
  match max_end (rows_of rows h) with
  | None => Ok None
  | Some z => Some <$> usize_of_i64 z
  end.

(** The range selection shared by the read path and the cost probe. *)
Definition select_range (d : db) (h : Hash) (start stop : N) : result blob_error (list manifest_row) :=
  rows ← table (blob_manifest d);
  e ← sqlite_integer stop;
  s ← sqlite_integer start;
  f ← seek_floor start;
  mret (filter (overlaps f e s) (rows_of rows h)).

Definition read_blob_range (d : db) (h : Hash) (start stop : N) : result blob_error (list byte) :=
  ml ← blob_manifest_len d h;
  source_len ← match ml with
               | Some n => Ok n
               | None => if bool_decide (h = content_hash []) then Ok 0 else Err NoManifest
               end;
  _ ← ensure (start <=? stop) RangeReversed;
  let wanted_start := N.min start source_len in
  let wanted_end := N.min stop source_len in
  if wanted_start =? wanted_end then Ok [] else
  rows ← select_range d h wanted_start wanted_end;
  cs ← decode_rows (merge_sort span_le rows);
  sel ← lift_cdc (SelectedRange_parse cs source_len wanted_start wanted_end);
  p ← table (content_chunks d);
  let '(r, out) := read_range_into sel p (replicate (N.to_nat (sel_len sel)) x00) in
  _ ← lift_cdc r;
  mret out.

Definition blob_chunks_touched (d : db) (h : Hash) (offset n : N) : result blob_error N :=
  rows ← select_range d h offset (sat_add offset n);
  mret (len rows).
End blob_chunked.

(** ** The rows a manifest is written as *)

Definition row_of (h : Hash) (seq : N) (c : Chunk) : manifest_row := {|
  r_blob := as_bytes h; r_seq := Z.of_N seq; r_chunk := as_bytes (c_hash c);
  r_offset := Z.of_N (c_offset c); r_len := Z.of_N (c_len c) |}.

Fixpoint enc_rows (h : Hash) (seq : N) (cs : list Chunk) : list manifest_row :=
  match cs with
  | [] => []
  | c :: cs => row_of h seq c :: enc_rows h (seq + 1) cs
  end.

Lemma decode_row_of h seq c : decode_row (row_of h seq c) = Ok c.
Proof. apply decode_encode. Qed.

Lemma decode_enc_filter h seq cs (P : manifest_row → Prop) (Q : Chunk → Prop)
    `{∀ r, Decision (P r), ∀ c, Decision (Q c)} :
  (∀ s c, c ∈ cs → P (row_of h s c) ↔ Q c) →
  decode_rows (filter P (enc_rows h seq cs)) = Ok (filter Q cs).
Proof.
  revert seq. induction cs as [|c cs IH]; intros seq Heq; [done|]. cbn [enc_rows].
  rewrite !filter_cons. pose proof (Heq seq c ltac:(by left)) as Hc.
  repeat case_decide; try tauto; [|by apply IH; intros; apply Heq; right].
  cbn [decode_rows]. rewrite decode_row_of. cbn [mbind result_bind].
  rewrite IH by (intros; apply Heq; by right). done.
Qed.

Lemma enc_rows_seq h seq cs r : r ∈ enc_rows h seq cs → (Z.of_N seq ≤ r_seq r)%Z ∧ r_blob r = as_bytes h.
Proof.
  revert seq. induction cs as [|c cs IH]; intros seq; [by intros ?%elem_of_nil|].
  intros [->|Hin]%elem_of_cons; [simpl; split; [lia|done]|]. apply IH in Hin as [? ?]. split; [lia|done].
Qed.

Lemma enc_rows_span h seq o cs e r :
  contig o cs e → r ∈ enc_rows h seq cs → (Z.of_N o ≤ r_offset r)%Z.
Proof.
  revert seq o. induction cs as [|c cs IH]; intros seq o; [by intros _ ?%elem_of_nil|].
  intros (Ho & Hl & Hc) [->|Hin]%elem_of_cons; [simpl; lia|].
  specialize (IH _ _ Hc Hin). lia.
Qed.

(** Written rows are in both orders already, strictly. *)
Lemma enc_rows_sorted h seq cs :
  StronglySorted (λ r1 r2, (r_seq r1 < r_seq r2)%Z) (enc_rows h seq cs).
Proof.
  revert seq. induction cs as [|c cs IH]; intros seq; constructor; [done|].
  apply Forall_forall. intros r [Hr _]%enc_rows_seq. simpl. lia.
Qed.

Lemma enc_rows_span_sorted h seq o cs e :
  contig o cs e → StronglySorted (λ r1 r2, (r_offset r1 < r_offset r2)%Z) (enc_rows h seq cs).
Proof.
  revert seq o. induction cs as [|c cs IH]; intros seq o; [constructor|].
  intros (Ho & Hl & Hc). constructor; [by eapply IH|].
  apply Forall_forall. intros r Hr. apply (enc_rows_span _ _ _ _ _ _ Hc) in Hr. simpl. lia.
Qed.

(** A list strictly sorted by a key of the order is what sorting returns. *)
Lemma merge_sort_sorted {A} (R : relation A) `{!RelDecision R, !Total R, !Transitive R}
    (R' : relation A) l :
  (∀ x y, R' x y → R x y) → (∀ x y, R' x y → R y x → False) →
  StronglySorted R' l → merge_sort R l = l.
Proof.
  intros Himp Hstrict Hs.
  assert (∀ x y, x ∈ l → y ∈ l → R x y → R y x → x = y) as Hanti.
  { clear -Hs Hstrict. induction Hs as [|a l Hs IH Hall]; [set_solver|].
    rewrite Forall_forall in Hall. intros x y [->|Hx]%elem_of_cons [->|Hy]%elem_of_cons Hxy Hyx; auto.
    - exfalso. by eapply Hstrict; [apply Hall|].
    - exfalso. by eapply Hstrict; [apply Hall|]. }
  apply (Sorted_unique_strong R); [|apply Sorted_merge_sort, _| |].
  - intros x y Hx Hy. rewrite merge_sort_Permutation in Hx. by apply Hanti.
  - apply StronglySorted_Sorted. clear Hanti Hstrict.
    induction Hs as [|a l Hs IH Hall]; constructor; [done|]. eapply Forall_impl; eauto.
  - by rewrite merge_sort_Permutation.
Qed.

#[global] Instance seq_le_total : Total seq_le.
Proof. intros x y. unfold seq_le. lia. Qed.
#[global] Instance seq_le_trans : Transitive seq_le.
Proof. intros x y z. unfold seq_le. lia. Qed.
#[global] Instance span_le_total : Total span_le.
Proof. intros x y. unfold span_le. lia. Qed.
#[global] Instance span_le_trans : Transitive span_le.
Proof. intros x y z. unfold span_le. lia. Qed.

(** ** The overlap predicate selects the run of rows the range needs *)

Lemma skip_before_filter o cs e start :
  contig o cs e → e ≤ u64_max → skip_before start cs = filter (λ c, start < c_offset c + c_len c) cs.
Proof.
  revert o. induction cs as [|c cs IH]; intros o Hc Hu; [done|].
  pose proof (contig_end _ _ _ c Hc ltac:(by left)) as [_ He]. destruct Hc as (Ho & Hl & Hc).
  cbn [skip_before]. rewrite filter_cons. unfold sat_add. rewrite N.min_l by lia.
  destruct (N.ltb_spec start (c_offset c + c_len c)); case_decide; try lia; [|by eapply IH].
  f_equal. symmetry. apply filter_all. intros x Hx. apply (contig_end _ _ _ x) in Hc; [lia|done].
Qed.

Lemma take_overlapping_filter o cs e stop :
  contig o cs e → take_overlapping stop cs = filter (λ c, c_offset c < stop) cs.
Proof.
  revert o. induction cs as [|c cs IH]; intros o Hc; [done|]. destruct Hc as (Ho & Hl & Hc).
  cbn [take_overlapping]. rewrite filter_cons.
  destruct (N.ltb_spec (c_offset c) stop); case_decide; try lia; [f_equal; by eapply IH|].
  symmetry. apply filter_none. intros x Hx.
  apply (contig_end _ _ _ x) in Hc; [lia|done].
Qed.

(** ** Storing *)

Section storing.
Context `{B3 : Blake3} `{G : Gear} `{GL : !GearLaws}.

(** [d] holds a complete manifest of [bytes] under [h], every span readable. *)
Definition blob_ok (d : db) (h : Hash) (bytes : list byte) : Prop :=
  ∃ p rows, content_chunks d = Some p ∧ blob_manifest d = Some rows ∧
    rows_of rows h = enc_rows h 0 (chunks_of 0 bytes) ∧
    ∀ c, c ∈ chunks_of 0 bytes → ∃ w, bs_get p (c_hash c) = Ok (Some w).

(** No key of the pool holds bytes of another address. *)
Definition pool_clean (p : pool) : Prop := ∀ k v, p !! k = Some v → k = as_bytes (blake3 v).

Lemma clean_put v p :
  pool_clean p → ∃ p', SqliteBlobStore_put v p = (Ok (blake3 v), p') ∧ pool_clean p'.
Proof.
  intros Hc. unfold SqliteBlobStore_put, SqliteBlobStore_get, content_hash.
  destruct (p !! as_bytes (blake3 v)) as [w|] eqn:L.
  - apply Hc, as_bytes_inj in L as E. rewrite bool_decide_true by done. eauto.
  - eexists. split; [done|]. intros k x [[<- <-]|[_ ?]]%lookup_insert_Some; auto.
Qed.

Lemma put_spans_spec h bytes off seq cs p rows p' rows' :
  tiles bytes off cs → put_spans h bytes seq cs p rows = Ok (p', rows') →
  rows' = rows ++ enc_rows h seq cs ∧
  (∀ k w, bs_get p k = Ok (Some w) → bs_get p' k = Ok (Some w)) ∧
  ∀ c, c ∈ cs → ∃ w, bs_get p' (c_hash c) = Ok (Some w).
Proof.
  revert off seq p rows. induction cs as [|c cs IH]; intros off seq p rows Ht Hs.
  { simpl in Hs. simplify_eq. rewrite app_nil_r. split_and!; [done..|]. by intros ? ?%elem_of_nil. }
  destruct Ht as (Ho & Hl & Hend & Hh & Ht). cbn [put_spans] in Hs.
  rewrite slice_checked_ok in Hs by lia. cbn [mbind result_bind] in Hs.
  destruct (bs_put _ p) as [[st|e|] p1] eqn:Hp; try done. result_inv.
  apply bool_decide_eq_true_1 in Hok. subst st.
  unfold sqlite_integer in *. repeat case_match; simplify_eq. unfold insert_row in *.
  case_match; simplify_eq. destruct (IH _ _ _ _ Ht Hs) as (-> & Hk & Hrows). split_and!.
  - rewrite <- app_assoc. done.
  - intros k w Hg. apply Hk. by eapply bs_put_immutable.
  - intros x [->|Hx]%elem_of_cons; [|by apply Hrows].
    destruct (bs_put_present _ _ _ _ Hp) as [w Hw]. eauto.
Qed.

Lemma put_spans_total h bytes off seq cs p rows :
  tiles bytes off cs → len bytes ≤ i64_max → seq + len cs ≤ i64_max → pool_clean p →
  (∀ r, r ∈ rows → r_blob r = as_bytes h → (r_seq r < Z.of_N seq)%Z) →
  ∃ p' rows', put_spans h bytes seq cs p rows = Ok (p', rows') ∧ pool_clean p'.
Proof.
  revert off seq p rows. induction cs as [|c cs IH]; intros off seq p rows Ht Hb Hq Hc Hr.
  { simpl. eauto. }
  destruct Ht as (Ho & Hl & Hend & Hh & Ht). rewrite len_cons in Hq. cbn [put_spans].
  rewrite slice_checked_ok by lia. cbn [mbind result_bind].
  destruct (clean_put (slice (c_offset c) (c_offset c + c_len c) bytes) p Hc) as (p1 & Hp & Hc1).
  cbn [bs_put SqliteBlobStore_store]. rewrite Hp. rewrite bool_decide_true by (by rewrite Hh, Ho).
  cbn [ensure mbind result_bind]. rewrite !sqlite_integer_ok by lia. cbn [mbind result_bind].
  unfold insert_row. cbn [r_blob r_seq]. match goal with |- context [existsb ?f rows] =>
    assert (existsb f rows = false) as -> end.
  { apply not_true_iff_false. intros (x & Hx & E)%existsb_exists. apply list_elem_of_In in Hx.
    apply andb_true_iff in E as [E1%bool_decide_eq_true_1 E2%bool_decide_eq_true_1].
    specialize (Hr x Hx E1). lia. }
  cbn [mbind result_bind]. eapply IH; [done|done|lia|done|].
  intros r [Hr'| ->%list_elem_of_singleton]%elem_of_app Hb'; [specialize (Hr r Hr' Hb'); lia|simpl; lia].
Qed.

(** Rows are never empty, so there are at most as many as bytes. *)
Lemma contig_len o cs e : contig o cs e → o + len cs ≤ e.
Proof.
  revert o. induction cs as [|c cs IH]; intros o; [simpl; rewrite len_nil; lia|].
  intros (_ & Hl & Hc%IH). rewrite len_cons. lia.
Qed.

Lemma tiles_hash bytes off cs c :
  tiles bytes off cs → c ∈ cs → c_hash c = blake3 (slice (c_offset c) (c_offset c + c_len c) bytes).
Proof.
  revert off. induction cs as [|x cs IH]; intros off; [by intros _ ?%elem_of_nil|].
  intros (Ho & _ & _ & Hh & Ht) [->|Hin]%elem_of_cons; [by rewrite Hh, Ho|by eapply IH].
Qed.

Lemma chunks_tile bytes : tiles bytes 0 (chunks_of 0 bytes).
Proof. rewrite <- (dropN_0 bytes) at 2. apply chunks_of_tile. lia. Qed.

Lemma i64_u64 n : n ≤ i64_max → n ≤ u64_max.
Proof. unfold i64_max, u64_max. lia. Qed.

Lemma filter_filter_other rows h :
  rows_of (filter (λ r, r_blob r ≠ as_bytes h) rows) h = [].
Proof. apply filter_none. intros x [? _]%list_elem_of_filter. done. Qed.

Lemma rows_of_enc h seq cs : rows_of (enc_rows h seq cs) h = enc_rows h seq cs.
Proof. apply filter_all. by intros x [_ ?]%enc_rows_seq. Qed.

Lemma rows_of_enc_other h k seq cs : h ≠ k → rows_of (enc_rows h seq cs) k = [].
Proof. intros Hn. apply filter_none. intros x [_ ->]%enc_rows_seq. by intros ?%as_bytes_inj. Qed.

Lemma store_ok_inv d h bytes n d' :
  store_blob_chunked_in_transaction d h bytes = Ok (n, d') →
  blake3 bytes = h ∧ n = len (chunks_of 0 bytes) ∧ source_blobs d' = source_blobs d ∧
  ∃ p rows p', content_chunks d = Some p ∧ blob_manifest d = Some rows ∧
    content_chunks d' = Some p' ∧
    blob_manifest d' = Some (filter (λ r, r_blob r ≠ as_bytes h) rows ++ enc_rows h 0 (chunks_of 0 bytes)) ∧
    (∀ k w, bs_get p k = Ok (Some w) → bs_get p' k = Ok (Some w)) ∧
    ∀ c, c ∈ chunks_of 0 bytes → ∃ w, bs_get p' (c_hash c) = Ok (Some w).
Proof.
  unfold store_blob_chunked_in_transaction. intros Hs. rewrite chunk_ok in Hs.
  cbn [lift_cdc] in Hs. result_inv. apply bool_decide_eq_true_1 in Hok. unfold table in *.
  destruct (content_chunks d) as [p|], (blob_manifest d) as [rows|]; simplify_eq/=.
  repeat match goal with x : (_ * _)%type |- _ => destruct x end. result_inv. simplify_eq/=.
  match goal with Hp : put_spans _ _ _ _ _ _ = _ |- _ => apply (put_spans_spec _ _ 0) in Hp;
    [|apply chunks_tile] end.
  destruct_and!. subst. split_and!; try done. eexists _, _, _. by split_and!.
Qed.

Lemma store_blob_ok d h bytes n d' :
  store_blob_chunked_in_transaction d h bytes = Ok (n, d') → blob_ok d' h bytes.
Proof.
  intros (_ & _ & _ & p & rows & p' & _ & _ & Hp & Hr & _ & Hheld)%store_ok_inv.
  eexists _, _. split_and!; [done|done| |done].
  unfold rows_of. rewrite filter_app. fold (rows_of (filter (λ r, r_blob r ≠ as_bytes h) rows) h).
  rewrite filter_filter_other. fold (rows_of (enc_rows h 0 (chunks_of 0 bytes)) h).
  by rewrite rows_of_enc.
Qed.

(** Storing one blob leaves every other complete manifest complete. *)
Lemma store_keeps_others d h bytes n d' k other :
  store_blob_chunked_in_transaction d h bytes = Ok (n, d') → h ≠ k →
  blob_ok d k other → blob_ok d' k other.
Proof.
  intros (_ & _ & _ & p & rows & p' & Hp0 & Hr0 & Hp & Hr & Hmono & _)%store_ok_inv Hn
    (q & rows2 & Hq & Hr2 & Hrows & Hheld).
  simplify_eq. eexists _, _. split_and!; [done|done| |].
  - unfold rows_of. rewrite filter_app. rewrite list_filter_filter_l.
    + fold (rows_of (enc_rows h 0 (chunks_of 0 bytes)) k). rewrite rows_of_enc_other by done.
      by rewrite app_nil_r.
    + intros x Hx E. rewrite Hx in E. by apply as_bytes_inj in E.
  - intros c Hc. destruct (Hheld c Hc) as [w Hw]. eauto.
Qed.

(** ** Reading *)

Lemma select_manifest_ok d h bytes :
  blob_ok d h bytes → select_blob_manifest d h = Ok (chunks_of 0 bytes).
Proof.
  intros (p & rows & _ & Hr & Hrows & _). unfold select_blob_manifest, table. rewrite Hr.
  cbn [ok_or mbind result_bind]. rewrite Hrows.
  rewrite (merge_sort_sorted seq_le (λ r1 r2, (r_seq r1 < r_seq r2)%Z)).
  - rewrite <- (filter_all (λ _, True) (enc_rows _ _ _)) by done.
    rewrite (decode_enc_filter _ _ _ _ (λ _, True)) by done. f_equal. by apply filter_all.
  - unfold seq_le. lia.
  - unfold seq_le. lia.
  - apply enc_rows_sorted.
Qed.

Lemma has_blob_ok d h bytes sb :
  blob_ok d h bytes → len bytes ≤ i64_max → source_blobs d = Some sb →
  sb !! as_bytes h = Some bytes → has_blob_chunked d h = Ok true.
Proof.
  intros Hb Hl Hs Hsb. unfold has_blob_chunked, table. rewrite Hs. cbn [ok_or mbind result_bind].
  rewrite Hsb, (select_manifest_ok d h bytes Hb). cbn [mbind result_bind].
  pose proof (chunks_tile bytes) as Ht.
  assert (Manifest_parse (chunks_of 0 bytes) =
    Ok {| m_chunks := chunks_of 0 bytes; m_source_len := len bytes |}) as Hp.
  { unfold Manifest_parse. by rewrite (tile_end_ok bytes) by auto using i64_u64. }
  destruct (chunks_of 0 bytes) eqn:E.
  - simpl in Ht. by rewrite <- Ht.
  - rewrite Hp. cbn [m_source_len]. by rewrite N.eqb_refl.
Qed.

Lemma max_end_eq rows e :
  (∀ r, r ∈ rows → (r_offset r + r_len r ≤ e)%Z) →
  (∃ r, r ∈ rows ∧ (r_offset r + r_len r = e)%Z) → max_end rows = Some e.
Proof.
  destruct rows as [|r rows]; [by intros _ (? & ?%elem_of_nil & _)|]. intros Hle (x & Hx & Ex).
  unfold max_end. f_equal.
  assert (∀ l, (∀ y, y ∈ l → (r_offset y + r_len y ≤ e)%Z) →
    (foldr (λ y acc, Z.max (r_offset y + r_len y) acc) (r_offset r + r_len r) l ≤ e)%Z ∧
    (r_offset r + r_len r ≤ foldr (λ y acc, Z.max (r_offset y + r_len y) acc) (r_offset r + r_len r) l)%Z ∧
    ∀ y, y ∈ l → (r_offset y + r_len y ≤ foldr (λ y acc, Z.max (r_offset y + r_len y) acc) (r_offset r + r_len r) l)%Z)
    as Hf.
  { assert (r_offset r + r_len r ≤ e)%Z by (apply Hle; by left).
    induction l as [|y l IH]; intros Hl; simpl; [split_and!; [done..|]; by intros ? ?%elem_of_nil|].
    destruct IH as (I1 & I2 & I3); [set_solver|]. specialize (Hl y ltac:(by left)).
    split_and!; [lia|lia|]. intros z [->|Hz]%elem_of_cons; [lia|]. specialize (I3 z Hz). lia. }
  destruct (Hf rows) as (H1 & H2 & H3); [intros; apply Hle; by right|].
  apply elem_of_cons in Hx as [->|Hx]; [lia|]. specialize (H3 x Hx). lia.
Qed.

Lemma enc_rows_end h seq o cs e :
  contig o cs e → cs ≠ [] → max_end (enc_rows h seq cs) = Some (Z.of_N e).
Proof.
  intros Hc Hne. apply max_end_eq.
  - clear Hne. revert seq o Hc. induction cs as [|c cs IH]; intros seq o Hc r; [by intros ?%elem_of_nil|].
    pose proof (contig_end _ _ _ c Hc ltac:(by left)) as [_ He]. destruct Hc as (Ho & Hl & Hc).
    intros [->|Hin]%elem_of_cons; [simpl; lia|]. by eapply IH.
  - destruct (last cs) as [c|] eqn:El; [|by apply last_None in El].
    pose proof (contig_last _ _ _ _ Hc El) as E. apply last_Some in El as [l ->]. clear Hc Hne.
    revert seq. induction l as [|x l IH]; intros seq; simpl.
    + exists (row_of h seq c). split; [by left|simpl; lia].
    + destruct (IH (seq + 1)) as (r & Hr & Er). exists r. split; [by right|done].
Qed.

Lemma blob_len_ok d h bytes :
  blob_ok d h bytes →
  blob_manifest_len d h = Ok (if decide (bytes = []) then None else Some (len bytes)).
Proof.
  intros (p & rows & _ & Hr & Hrows & _). unfold blob_manifest_len, table. rewrite Hr.
  cbn [ok_or mbind result_bind]. rewrite Hrows. case_decide as E; [by subst|].
  rewrite (enc_rows_end h 0 0 _ (len bytes)).
  - unfold usize_of_i64. rewrite (proj2 (Z.leb_le _ _)) by lia. simpl. by rewrite N2Z.id.
  - apply tiles_contig, chunks_tile.
  - rewrite chunks_of_cons by done. done.
Qed.

Lemma select_range_ok d h bytes a b :
  blob_ok d h bytes → len bytes ≤ i64_max → a < b → b ≤ len bytes →
  ∃ rows, select_range d h a b = Ok rows ∧
    decode_rows (merge_sort span_le rows) = Ok (take_overlapping b (skip_before a (chunks_of 0 bytes))).
Proof.
  intros (p & rows & _ & Hr & Hrows & _) Hl Hab Hb. unfold select_range, table. rewrite Hr.
  cbn [ok_or mbind result_bind]. unfold seek_floor. rewrite !sqlite_integer_ok by lia.
  cbn [mbind result_bind]. eexists. split; [done|]. rewrite Hrows.
  pose proof (tiles_contig _ _ _ (chunks_tile bytes)) as Hc.
  rewrite (merge_sort_sorted span_le (λ r1 r2, (r_offset r1 < r_offset r2)%Z)).
  - destruct (chunks_of_sizes 0 bytes) as [Hmax _]. rewrite Forall_forall in Hmax.
    rewrite (decode_enc_filter _ _ _ _ (λ c, c_offset c < b ∧ a < c_offset c + c_len c)).
    + f_equal. rewrite (skip_before_filter 0 _ (len bytes)) by auto using i64_u64.
      destruct (skip_before_ok 0 (chunks_of 0 bytes) (len bytes) a) as (c & cs' & Hsk & Hcc & _);
        [done|by apply i64_u64|lia|lia|].
      rewrite (skip_before_filter 0 _ (len bytes)) in Hsk by auto using i64_u64. rewrite Hsk.
      rewrite (take_overlapping_filter _ _ _ b Hcc), <- Hsk. by rewrite list_filter_filter.
    + intros s c Hin. specialize (Hmax c Hin). simpl in Hmax. unfold overlaps, row_of. simpl. lia.
  - unfold span_le. lia.
  - unfold span_le. lia.
  - apply StronglySorted_filter. by eapply enc_rows_span_sorted.
Qed.

(** A range read of a complete manifest returns the bytes, or a span reads back
    bytes that collide with its own. *)
Lemma read_blob_range_ok d h bytes start stop :
  blob_ok d h bytes → blake3 bytes = h → len bytes ≤ i64_max → start ≤ stop →
  read_blob_range d h start stop =
    Ok (slice (N.min start (len bytes)) (N.min stop (len bytes)) bytes)
  ∨ ∃ p c w, content_chunks d = Some p ∧ c ∈ chunks_of 0 bytes ∧ bs_get p (c_hash c) = Ok (Some w) ∧
      collision blake3 w (slice (c_offset c) (c_offset c + c_len c) bytes).
Proof.
  intros Hb Hh Hl Hss. unfold read_blob_range. rewrite (blob_len_ok d h bytes Hb).
  cbn [mbind result_bind].
  assert ((match (if decide (bytes = []) then None else Some (len bytes)) with
           | Some n => Ok n
           | None => if bool_decide (h = content_hash []) then Ok 0 else Err NoManifest
           end : result blob_error N) = Ok (len bytes)) as ->.
  { case_decide as E; [|done]. subst bytes. by rewrite bool_decide_true. }
  cbn [mbind result_bind]. rewrite (proj2 (N.leb_le _ _) Hss). cbn [ensure mbind result_bind].
  set (a := N.min start (len bytes)). set (b := N.min stop (len bytes)).
  destruct (N.eqb_spec a b) as [->|Hne]; [left; by rewrite slice_empty|].
  destruct (select_range_ok d h bytes a b) as (rows & -> & Hdec); [done|done|lia|lia|].
  pose proof Hb as (p & rows' & Hp & Hr & Hrows & Hheld). cbn [mbind result_bind]. rewrite Hdec.
  cbn [mbind result_bind].
  destruct (decide (Forall (λ c, bs_get p (c_hash c) =
    Ok (Some (slice (c_offset c) (c_offset c + c_len c) bytes))) (chunks_of 0 bytes))) as [Hall|Hno].
  - left. rewrite Forall_forall in Hall.
    destruct (select_read_ok bytes (chunks_of 0 bytes) p a b (replicate (N.to_nat (b - a)) x00))
      as [-> E]; [apply chunks_tile|by apply i64_u64|done|lia|lia| |].
    { unfold len. rewrite length_replicate. lia. }
    unfold table. rewrite Hp. cbn [lift_cdc mbind result_bind ok_or]. unfold sel_len.
    cbn [sel_start sel_end]. rewrite E. done.
  - right. apply not_Forall_Exists in Hno; [|intros ?; apply _].
    apply Exists_exists in Hno as (c & Hc & Hne'). destruct (Hheld c Hc) as (w & Hw).
    exists p, c, w. split_and!; [done..|]. split; [by intros ->|].
    rewrite (bs_get_verified _ _ _ Hw). exact (tiles_hash bytes 0 _ c (chunks_tile bytes) Hc).
Qed.

(** ** Properties *)

(** Storing a blob, on every branch.  Bytes that do not hash to the
    claimed address are refused; bytes that do are stored whenever the tables
    exist and the pool holds no corrupt entry; the answer is the number of
    spans, the blob then counts as complete if its source row is there, and
    every blob that was complete before still is. *)
Theorem store_blob_chunked_complete d h bytes p rows sb :
  content_chunks d = Some p → blob_manifest d = Some rows → source_blobs d = Some sb →
  pool_clean p → len bytes ≤ i64_max →
  if decide (blake3 bytes = h) then
    ∃ d', store_blob_chunked_in_transaction d h bytes = Ok (len (chunks_of 0 bytes), d') ∧
      blob_ok d' h bytes ∧ source_blobs d' = source_blobs d ∧
      (sb !! as_bytes h = Some bytes → has_blob_chunked d' h = Ok true) ∧
      ∀ k other, k ≠ h → blob_ok d k other → blob_ok d' k other
  else store_blob_chunked_in_transaction d h bytes = Err BlobMismatch.
Proof.
  intros Hp Hr Hsb Hc Hl. case_decide as Hh.
  2:{ unfold store_blob_chunked_in_transaction, content_hash. by rewrite bool_decide_false. }
  assert (∃ n d', store_blob_chunked_in_transaction d h bytes = Ok (n, d')) as (n & d' & Hs).
  { unfold store_blob_chunked_in_transaction, content_hash. rewrite bool_decide_true by done.
    cbn [ensure mbind result_bind]. rewrite chunk_ok. cbn [lift_cdc mbind result_bind].
    unfold Manifest_parse. rewrite (tile_end_ok bytes) by auto using chunks_tile, i64_u64.
    cbn [lift_cdc mbind result_bind mret result_ret m_source_len]. rewrite N.eqb_refl.
    unfold table. rewrite Hp, Hr. cbn [ensure mbind result_bind ok_or].
    destruct (put_spans_total h bytes 0 0 (chunks_of 0 bytes) p
      (filter (λ r, r_blob r ≠ as_bytes h) rows)) as (p' & rows' & -> & _); try done.
    - apply chunks_tile.
    - pose proof (contig_len _ _ _ (tiles_contig _ _ _ (chunks_tile bytes))). lia.
    - intros r [Hne _]%list_elem_of_filter. done.
    - by eexists _, _. }
  pose proof (store_ok_inv _ _ _ _ _ Hs) as (_ & -> & Hsrc & _).
  pose proof (store_blob_ok _ _ _ _ _ Hs) as Hok.
  exists d'. split_and!; [done..| |].
  - intros Hrow. eapply has_blob_ok; [done|done| |done]. by rewrite Hsrc.
  - intros k other Hne. by eapply store_keeps_others.
Qed.

(** C13: range reads are exact.  After a blob is stored, every range reads
    back as exactly its overlap with the blob, through the seek floor and the
    overlap predicate, or one of its spans reads back bytes that collide with
    its own under BLAKE3; a reversed range of it is refused. *)
Theorem read_blob_range_exact d h bytes n d' start stop :
  store_blob_chunked_in_transaction d h bytes = Ok (n, d') → len bytes ≤ i64_max →
  if start <=? stop then
    read_blob_range d' h start stop =
      Ok (slice (N.min start (len bytes)) (N.min stop (len bytes)) bytes)
    ∨ ∃ p c w, content_chunks d' = Some p ∧ c ∈ chunks_of 0 bytes ∧
        bs_get p (c_hash c) = Ok (Some w) ∧
        collision blake3 w (slice (c_offset c) (c_offset c + c_len c) bytes)
  else read_blob_range d' h start stop = Err RangeReversed.
Proof.
  intros Hs Hl. pose proof (store_ok_inv _ _ _ _ _ Hs) as (Hh & _).
  pose proof (store_blob_ok _ _ _ _ _ Hs) as Hok.
  destruct (N.leb_spec start stop) as [Hle|Hgt].
  - by apply read_blob_range_ok.
  - unfold read_blob_range. rewrite (blob_len_ok _ _ _ Hok). cbn [mbind result_bind].
    case_decide as E; cbn [mbind result_bind].
    + subst bytes. rewrite bool_decide_true by done. cbn [mbind result_bind].
      by rewrite (proj2 (N.leb_gt _ _) Hgt).
    + by rewrite (proj2 (N.leb_gt _ _) Hgt).
Qed.
End storing.

(** ** An example database *)

Section examples.
#[local] Existing Instances toy_blake3 zero_gear zero_gear_laws.

Definition demo_blob : list byte := [x01; x02; x03].
Definition demo_addr : Hash := toy_hash demo_blob.
Definition demo_db : db := {|
  content_chunks := Some ∅; blob_manifest := Some [];
  source_blobs := Some {[ as_bytes demo_addr := demo_blob ]} |}.

Lemma demo_pool_clean : pool_clean ∅.
Proof. intros k v E. by rewrite lookup_empty in E. Qed.

Lemma store_demo :
  ∃ n d', store_blob_chunked_in_transaction demo_db demo_addr demo_blob = Ok (n, d').
Proof. eexists _, _. vm_compute. reflexivity. Qed.

Lemma store_blob_chunked_complete_witness :
  ∃ d', store_blob_chunked_in_transaction demo_db demo_addr demo_blob = Ok (1, d') ∧
    has_blob_chunked d' demo_addr = Ok true.
Proof.
  pose proof (store_blob_chunked_complete demo_db demo_addr demo_blob ∅ []
    {[ as_bytes demo_addr := demo_blob ]} eq_refl eq_refl eq_refl demo_pool_clean ltac:(done)) as Hs.
  rewrite decide_True in Hs by reflexivity.
  destruct Hs as (d' & Hs & _ & _ & Hh & _). exists d'. split.
  - rewrite Hs. reflexivity.
  - apply Hh. apply lookup_singleton_eq.
Defined.

Lemma read_blob_range_exact_witness :
  ∃ n d', store_blob_chunked_in_transaction demo_db demo_addr demo_blob = Ok (n, d') ∧
    (read_blob_range d' demo_addr 1 3 = Ok [x02; x03]
     ∨ ∃ p c w, content_chunks d' = Some p ∧ c ∈ chunks_of 0 demo_blob ∧
         bs_get p (c_hash c) = Ok (Some w) ∧
         collision blake3 w (slice (c_offset c) (c_offset c + c_len c) demo_blob)).
Proof.
  destruct store_demo as (n & d' & Hs). exists n, d'. split; [exact Hs|].
  exact (read_blob_range_exact demo_db demo_addr demo_blob n d' 1 3 Hs ltac:(done)).
Defined.
End examples.
