(* ===== verification/Gc.v ===== *)
(** * Reachability collection of chunks

    [rs/ll-open/fs/src/gc.rs]: one explicit transaction that drops the
    manifests of deleted blobs, deletes the chunks no manifest references, and
    accounts for every row and byte.  The check that the tables have the
    expected columns is not modelled; their presence is. *)

From S2P Require Import Prelude Substrate Cdc ChunkPool BlobChunked.
From Stdlib Require Import NArith ZArith Lia.
Local Open Scope N_scope.

Record GcReport := {
  before_chunk_rows : N; before_chunk_bytes : N;
  unreachable_chunk_rows : N; unreachable_chunk_bytes : N;
  deleted_chunk_rows : N; deleted_chunk_bytes : N;
  remaining_chunk_rows : N; remaining_chunk_bytes : N;
  reaped_blob_manifest_rows : N; reaped_blob_manifest_blobs : N;
  gc_dry_run : bool;
}.

(** [SELECT COUNT( * ), COALESCE(SUM(length(chunk_bytes)), 0) … WHERE P] *)
Definition sum_lens (l : list (list byte * list byte)) : N :=
  foldr (λ x acc, len (snd x) + acc) 0 l.
Definition chunk_totals (P : list byte * list byte → Prop) `{∀ x, Decision (P x)} (p : pool) : N * N :=
  let l := filter P (map_to_list p) in (len l, sum_lens l).

(** A manifest row is dead when its blob's source row is gone; without the
    table, every row is. *)
Definition dead_row (sb : option (gmap (list byte) (list byte))) (r : manifest_row) : Prop :=
  match sb with Some sb => sb !! r_blob r = None | None => True end.
#[global] Instance dead_row_dec sb r : Decision (dead_row sb r).
Proof. unfold dead_row. destruct sb; apply _. Defined.

(** [reap_dead_blob_manifests]: rows left, spans reaped, distinct blobs reaped. *)
Definition reap_dead_blob_manifests (sb : option (gmap (list byte) (list byte)))
    (rows : list manifest_row) : list manifest_row * N * N :=
  let dead := filter (dead_row sb) rows in
  (filter (λ r, ¬ dead_row sb r) rows, len dead, len (remove_dups (r_blob <$> dead))).

(** [NOT EXISTS (SELECT 1 FROM blob_manifest WHERE chunk_hash = …)] *)
Definition unreachable (rows : list manifest_row) (x : list byte * list byte) : Prop :=
  fst x ∉ (r_chunk <$> rows).
#[global] Instance unreachable_dec rows x : Decision (unreachable rows x).
Proof. unfold unreachable. apply _. Defined.

Definition collect_unreachable_chunks (d : db) (dry_run : bool) : result blob_error (GcReport * db) :=
  _ ← ok_or (content_chunks d) MissingTables;
  let tx := ensure_blob_manifest_infra d in
  p ← table (content_chunks tx);
  let '(before_rows, before_bytes) := chunk_totals (λ _, True) p in
  rows0 ← table (blob_manifest tx);
  let '(rows, reaped_rows, reaped_blobs) := reap_dead_blob_manifests (source_blobs tx) rows0 in
  let '(un_rows, un_bytes) := chunk_totals (unreachable rows) p in
  '(del_rows, del_bytes, p') ←
    if dry_run then Ok (0, 0, p)
    else
      let kept := filter (λ x, ¬ unreachable rows x) p in
      let deleted := N.of_nat (size p) - N.of_nat (size kept) in
      _ ← ensure (deleted =? un_rows) AccountingMismatch;
      mret (deleted, un_bytes, kept);
  let '(rem_rows, rem_bytes) := chunk_totals (λ _, True) p' in
  _ ← ensure (before_rows =? del_rows + rem_rows) AccountingMismatch;
  _ ← ensure (before_bytes =? del_bytes + rem_bytes) AccountingMismatch;
  let report := {|
    before_chunk_rows := before_rows; before_chunk_bytes := before_bytes;
    unreachable_chunk_rows := un_rows; unreachable_chunk_bytes := un_bytes;
    deleted_chunk_rows := del_rows; deleted_chunk_bytes := del_bytes;
    remaining_chunk_rows := rem_rows; remaining_chunk_bytes := rem_bytes;
    reaped_blob_manifest_rows := reaped_rows; reaped_blob_manifest_blobs := reaped_blobs;
    gc_dry_run := dry_run |} in
  mret (report, if dry_run then d else
    {| content_chunks := Some p'; blob_manifest := Some rows; source_blobs := source_blobs tx |}).

(** ** Counting *)

Lemma sum_lens_app l k : sum_lens (l ++ k) = sum_lens l + sum_lens k.
Proof. unfold sum_lens. induction l as [|x l IH]; simpl; [done|]. rewrite IH. lia. Qed.

#[global] Instance sum_lens_proper : Proper ((≡ₚ) ==> (=)) sum_lens.
Proof.
  intros l k Hp. induction Hp; unfold sum_lens in *; simpl; [done|by f_equal|lia|by etrans].
Qed.

#[global] Instance len_proper {A} : Proper ((≡ₚ) ==> (=)) (@len A).
Proof. intros l k Hp. unfold len. by rewrite Hp. Qed.

Lemma map_to_list_filter (P : list byte * list byte → Prop) `{∀ x, Decision (P x)} (p : pool) :
  map_to_list (filter P p) ≡ₚ filter P (map_to_list p).
Proof.
  rewrite map_filter_alt. apply map_to_list_to_map.
  pose proof (NoDup_fst_map_to_list p) as Hn. induction (map_to_list p) as [|x l IH]; [constructor|].
  rewrite fmap_cons in Hn. apply NoDup_cons in Hn as [Hx Hn]. rewrite filter_cons. case_decide; [|auto].
  rewrite fmap_cons. constructor; [|auto].
  intros (y & E & [_ Hy]%list_elem_of_filter)%list_elem_of_fmap. apply Hx. rewrite E.
  by apply list_elem_of_fmap_2.
Qed.

Lemma totals_filter P `{∀ x, Decision (P x)} (p : pool) :
  chunk_totals (λ _, True) (filter P p) = chunk_totals P p.
Proof.
  unfold chunk_totals. rewrite filter_all by done. f_equal; by rewrite map_to_list_filter.
Qed.

Lemma totals_split P `{∀ x, Decision (P x)} (p : pool) :
  chunk_totals (λ _, True) p =
    (fst (chunk_totals P p) + fst (chunk_totals (λ x, ¬ P x) p),
     snd (chunk_totals P p) + snd (chunk_totals (λ x, ¬ P x) p)).
Proof.
  unfold chunk_totals. rewrite filter_all by done. simpl.
  rewrite <- sum_lens_app, <- len_app. f_equal; by rewrite filter_app_complement.
Qed.

Lemma size_totals (p : pool) : N.of_nat (size p) = fst (chunk_totals (λ _, True) p).
Proof.
  unfold chunk_totals. rewrite filter_all by done. unfold len; simpl. by rewrite length_map_to_list.
Qed.

(** ** What one collection does *)

Definition live_rows (d : db) : list manifest_row :=
  filter (λ r, ¬ dead_row (source_blobs d) r) (default [] (blob_manifest d)).
Definition kept_pool (d : db) (p : pool) : pool := filter (λ x, ¬ unreachable (live_rows d) x) p.

Lemma collect_ok d p dry_run :
  content_chunks d = Some p →
  let b := chunk_totals (λ _, True) p in let u := chunk_totals (unreachable (live_rows d)) p in
  let k := chunk_totals (λ _, True) (kept_pool d p) in
  let dead := filter (dead_row (source_blobs d)) (default [] (blob_manifest d)) in
  b = (fst u + fst k, snd u + snd k) ∧
  collect_unreachable_chunks d dry_run = Ok ({|
    before_chunk_rows := fst b; before_chunk_bytes := snd b;
    unreachable_chunk_rows := fst u; unreachable_chunk_bytes := snd u;
    deleted_chunk_rows := if dry_run then 0 else fst u;
    deleted_chunk_bytes := if dry_run then 0 else snd u;
    remaining_chunk_rows := if dry_run then fst b else fst k;
    remaining_chunk_bytes := if dry_run then snd b else snd k;
    reaped_blob_manifest_rows := len dead;
    reaped_blob_manifest_blobs := len (remove_dups (r_blob <$> dead));
    gc_dry_run := dry_run |},
   if dry_run then d else
     {| content_chunks := Some (kept_pool d p); blob_manifest := Some (live_rows d);
        source_blobs := source_blobs d |}).
Proof.
  intros Hp b u k dead.
  assert (b = (fst u + fst k, snd u + snd k)) as Hb.
  { unfold b, k, kept_pool. rewrite totals_filter. apply totals_split. }
  split; [done|]. unfold collect_unreachable_chunks, table. rewrite Hp. cbn [ok_or mbind result_bind].
  cbn [content_chunks blob_manifest source_blobs ensure_blob_manifest_infra]. rewrite Hp.
  cbn [ok_or mbind result_bind]. unfold reap_dead_blob_manifests. fold b (live_rows d) dead.
  destruct b as [b1 b2] eqn:Eb. fold u. destruct u as [u1 u2] eqn:Eu. cbn [fst snd] in *.
  destruct dry_run.
  - cbn [mbind result_bind]. fold b. rewrite Eb, !N.add_0_l, !N.eqb_refl. reflexivity.
  - fold (kept_pool d p).
    assert (N.of_nat (size p) - N.of_nat (size (kept_pool d p)) = u1) as ->.
    { rewrite !size_totals. fold b k. rewrite Eb. injection Hb as -> ->. simpl. lia. }
    rewrite N.eqb_refl. cbn [ensure mbind result_bind mret result_ret]. fold k.
    destruct k as [k1 k2]. cbn [fst snd] in *. injection Hb as -> ->. by rewrite !N.eqb_refl.
Qed.

Section safety.
Context `{B3 : Blake3} `{G : Gear} `{GL : !GearLaws}.

Lemma kept_lookup d p k v :
  kept_pool d p !! k = Some v ↔ p !! k = Some v ∧ k ∈ (r_chunk <$> live_rows d).
Proof.
  unfold kept_pool. rewrite map_lookup_filter_Some. unfold unreachable; simpl.
  split; intros [? Hk]; (split; [done|]); [by apply dec_stable|by intros Hn].
Qed.

Lemma enc_rows_chunk h seq cs c : c ∈ cs → as_bytes (c_hash c) ∈ (r_chunk <$> enc_rows h seq cs).
Proof.
  revert seq. induction cs as [|x cs IH]; intros seq; [by intros ?%elem_of_nil|].
  intros [->|Hc]%elem_of_cons; simpl; [by left|right; by apply IH].
Qed.

(** The manifest of a blob whose source row exists survives, readable. *)
Lemma collect_keeps_blob d p h bytes sb v :
  content_chunks d = Some p → source_blobs d = Some sb → sb !! as_bytes h = Some v →
  blob_ok d h bytes →
  blob_ok {| content_chunks := Some (kept_pool d p); blob_manifest := Some (live_rows d);
             source_blobs := source_blobs d |} h bytes.
Proof.
  intros Hp Hsb Hv (q & rows & Hq & Hr & Hrows & Hheld). assert (q = p) as -> by congruence.
  assert (rows_of (live_rows d) h = enc_rows h 0 (chunks_of 0 bytes)) as Hl.
  { unfold live_rows, rows_of. rewrite Hr. cbn [default from_option id].
    rewrite list_filter_filter_l; [done|]. intros x E. unfold dead_row. rewrite Hsb, E, Hv. done. }
  eexists _, _. cbn [content_chunks blob_manifest]. split_and!; [done|done|done|].
  intros c Hc. destruct (Hheld c Hc) as [w Hw]. exists w. rewrite <- Hw.
  cbn [bs_get SqliteBlobStore_store] in *. unfold SqliteBlobStore_get in *.
  destruct (p !! as_bytes (c_hash c)) as [x|] eqn:L; [|done].
  rewrite (proj2 (kept_lookup d p (as_bytes (c_hash c)) x)); [done|]. split; [done|].
  assert (as_bytes (c_hash c) ∈ (r_chunk <$> rows_of (live_rows d) h)) as Hin
    by (rewrite Hl; by apply enc_rows_chunk).
  apply list_elem_of_fmap in Hin as (r & -> & [_ ?]%list_elem_of_filter).
  by apply list_elem_of_fmap_2.
Qed.

(** C12: collection is safe and complete.  It succeeds on every database with
    a chunk pool; afterwards a chunk remains exactly when it was there and a
    manifest row of a blob that still has its source row references it; every
    complete manifest of such a blob is still complete, so every range of it
    still reads back; and a database without the pool is refused untouched. *)
Theorem gc_keeps_exactly_the_reachable d :
  match content_chunks d with
  | None => collect_unreachable_chunks d false = Err MissingTables
  | Some p => ∃ report d' p', collect_unreachable_chunks d false = Ok (report, d') ∧
      content_chunks d' = Some p' ∧ source_blobs d' = source_blobs d ∧
      (∀ k v, p' !! k = Some v ↔ p !! k = Some v ∧
         ∃ rows r, blob_manifest d = Some rows ∧ r ∈ rows ∧ r_chunk r = k ∧ ¬ dead_row (source_blobs d) r) ∧
      (∀ h bytes sb v, source_blobs d = Some sb → sb !! as_bytes h = Some v →
         blob_ok d h bytes → blob_ok d' h bytes)
  end.
Proof.
  destruct (content_chunks d) as [p|] eqn:Hp.
  2:{ unfold collect_unreachable_chunks. by rewrite Hp. }
  destruct (collect_ok d p false Hp) as [_ Hc]. rewrite Hc. eexists _, _, _.
  split; [done|]. cbn [content_chunks source_blobs]. split_and!; [done|done| |].
  - intros k v. rewrite kept_lookup, list_elem_of_fmap. split.
    + intros (? & r & -> & [Hr Hin]%list_elem_of_filter). split; [done|].
      destruct (blob_manifest d) as [rows|]; [|by apply elem_of_nil in Hin]. eauto 10.
    + intros (? & rows & r & Hm & Hin & <- & Hd). split; [done|]. exists r. split; [done|].
      apply list_elem_of_filter. by rewrite Hm.
  - intros h bytes sb v Hsb Hv Hb. eapply collect_keeps_blob; eauto.
Qed.

(** The accounting balances and a dry run tells the truth.  A dry run
    leaves the database exactly as it was, and predicts to the row and the byte
    what the real run deletes and reaps; what the real run deletes and leaves
    adds up to what was there. *)
Theorem gc_accounting d p :
  content_chunks d = Some p →
  ∃ dry real d', collect_unreachable_chunks d true = Ok (dry, d) ∧
    collect_unreachable_chunks d false = Ok (real, d') ∧
    unreachable_chunk_rows dry = deleted_chunk_rows real ∧
    unreachable_chunk_bytes dry = deleted_chunk_bytes real ∧
    reaped_blob_manifest_rows dry = reaped_blob_manifest_rows real ∧
    reaped_blob_manifest_blobs dry = reaped_blob_manifest_blobs real ∧
    deleted_chunk_rows dry = 0 ∧ remaining_chunk_rows dry = before_chunk_rows real ∧
    before_chunk_rows real = deleted_chunk_rows real + remaining_chunk_rows real ∧
    before_chunk_bytes real = deleted_chunk_bytes real + remaining_chunk_bytes real ∧
    remaining_chunk_rows real = N.of_nat (size (kept_pool d p)).
Proof.
  intros Hp. destruct (collect_ok d p true Hp) as [Hb Hdry].
  destruct (collect_ok d p false Hp) as [_ Hreal]. rewrite Hdry, Hreal.
  eexists _, _, _. split; [done|]. split; [done|].
  cbn [unreachable_chunk_rows unreachable_chunk_bytes deleted_chunk_rows deleted_chunk_bytes
       reaped_blob_manifest_rows reaped_blob_manifest_blobs remaining_chunk_rows
       remaining_chunk_bytes before_chunk_rows before_chunk_bytes].
  rewrite size_totals, Hb. cbn [fst snd]. done.
Qed.
End safety.

(** One live blob, one deleted one, and a chunk nobody references. *)
Definition demo_gc_db : db := {|
  content_chunks := Some {[ [x01] := [xaa]; [x02] := [xbb; xbb]; [x03] := [xcc] ]};
  blob_manifest := Some [
    {| r_blob := [x11]; r_seq := 0; r_chunk := [x01]; r_offset := 0; r_len := 1 |};
    {| r_blob := [x22]; r_seq := 0; r_chunk := [x02]; r_offset := 0; r_len := 2 |} ];
  source_blobs := Some {[ [x11] := [xaa] ]} |}.

Lemma gc_accounting_witness :
  ∃ dry real d', collect_unreachable_chunks demo_gc_db true = Ok (dry, demo_gc_db) ∧
    collect_unreachable_chunks demo_gc_db false = Ok (real, d') ∧
    unreachable_chunk_rows dry = deleted_chunk_rows real.
Proof.
  destruct (gc_accounting demo_gc_db _ eq_refl) as (dry & real & d' & ? & ? & ? & _). eauto 10.
Defined.
