(* ===== verification/Activation.v ===== *)
(** * Activating chunked storage for every eligible blob

    [rs/ll-open/fs/src/activation.rs]: the explicit backfill that walks
    [source_blobs] in pages, one transaction per page, then proves the
    committed set complete, repairing stragglers one by one.

    The walk is modelled on a database no one else is writing; progress
    callbacks and the check of column names are left out.  An error drops the
    open transaction, so each function that commits returns the database as
    last committed beside its result. *)

From S2P Require Import Prelude Substrate Cdc ChunkPool BlobChunked.
From Stdlib Require Import NArith ZArith Lia.
Local Open Scope N_scope.

Record BlobActivationReport := {
  eligible_blobs : N; populated_blobs : N; already_fresh_blobs : N;
  skipped_sub_floor_blobs : N; processed_source_bytes : N;
  manifest_rows : N; unique_chunk_rows : N; unique_chunk_bytes : N;
}.

(** The running counts of the walk. *)
Record counts := { n_visited : N; n_populated : N; n_fresh : N; n_bytes : N }.
Definition counts0 : counts := {| n_visited := 0; n_populated := 0; n_fresh := 0; n_bytes := 0 |}.

Inductive BlobActivation := Gone | AlreadyFresh | Populated (source_bytes : N).

(** SQLite compares BLOBs with [memcmp]. *)
Definition bytes_le (a b : list byte) : Prop := bytes_leb a b = true.
#[global] Instance bytes_le_dec : RelDecision bytes_le := λ a b, decide (bytes_leb a b = true).

Definition chunk_floor : N := MIN_CHUNK.

(** [SELECT blob_hash FROM source_blobs WHERE byte_len >= floor ORDER BY blob_hash] *)
Definition eligible_keys (sb : gmap (list byte) (list byte)) : list (list byte) :=
  merge_sort bytes_le (fst <$> filter (λ x, chunk_floor ≤ len (snd x)) (map_to_list sb)).

(** [query_blob_activation_page]: [AND blob_hash > cursor], [LIMIT batch_size]. *)
Definition after_cursor (last_hash : option (list byte)) (k : list byte) : Prop :=
  match last_hash with Some c => ¬ bytes_le k c | None => True end.
#[global] Instance after_cursor_dec last_hash k : Decision (after_cursor last_hash k).
Proof. unfold after_cursor. destruct last_hash; apply _. Defined.

Definition query_blob_activation_page (d : db) (last_hash : option (list byte)) (batch_size : N)
    : result blob_error (list (list byte)) :=
  sb ← table (source_blobs d);
  mret (takeN batch_size (filter (after_cursor last_hash) (eligible_keys sb))).

Definition decode_blob_hash (key : list byte) : result blob_error Hash :=
  ok_or (Hash_try_from key) BadKeyLength.

Definition count_add (a b : N) : result blob_error N := ok_or (checked_add a b) CountOverflow.

Section activation.
Context `{Blake3, Gear}.

Definition activate_blob_in_tx (d : db) (key : list byte) : result blob_error (BlobActivation * db) :=
  h ← decode_blob_hash key;
  fresh ← has_blob_chunked d h;
  if fresh : bool then Ok (AlreadyFresh, d) else
  sb ← table (source_blobs d);
  match sb !! as_bytes h with
  | None => Ok (Gone, d)
  | Some bytes =>
      '(_, d') ← store_blob_chunked_in_transaction d h bytes;
      fresh ← has_blob_chunked d' h;
      _ ← ensure fresh NotMadeFresh;
      mret (Populated (len bytes), d')
  end.

(** The [match] both loops run on an outcome. *)
Definition tally (o : BlobActivation) (c : counts) : result blob_error counts :=
  match o with
  | Gone => Ok c
  | AlreadyFresh =>
      v ← count_add (n_visited c) 1; f ← count_add (n_fresh c) 1;
      mret {| n_visited := v; n_populated := n_populated c; n_fresh := f; n_bytes := n_bytes c |}
  | Populated b =>
      v ← count_add (n_visited c) 1; p ← count_add (n_populated c) 1; s ← count_add (n_bytes c) b;
      mret {| n_visited := v; n_populated := p; n_fresh := n_fresh c; n_bytes := s |}
  end.

(** The rows of one page, in its transaction. *)
Fixpoint activate_rows (rows : list (list byte)) (c : counts) (d : db) : result blob_error (counts * db) :=
  match rows with
  | [] => Ok (c, d)
  | k :: rows =>
      '(o, d) ← activate_blob_in_tx d k;
      c ← tally o c;
      activate_rows rows c d
  end.

(** The page loop.  Every turn moves the cursor past at least one key, so the
    number of keys is enough fuel. *)
Fixpoint page_loop (fuel : nat) (batch_size : N) (last_hash : option (list byte)) (c : counts) (d : db)
    : result blob_error counts * db :=
  match query_blob_activation_page d last_hash batch_size with
  | Ok rows =>
      match last rows, fuel with
      | None, _ => (Ok c, d)
      | Some _, O => (Panic, d)
      | Some k, S fuel =>
          match activate_rows rows c d with
          | Ok (c, d) => page_loop fuel batch_size (Some k) c d
          | Err e => (Err e, d)
          | Panic => (Panic, d)
          end
      end
  | Err e => (Err e, d)
  | Panic => (Panic, d)
  end.

(** The rows of one page of the completeness scan. *)
Fixpoint first_incomplete_row (d : db) (rows : list (list byte))
    : result blob_error (option (list byte)) :=
  match rows with
  | [] => Ok None
  | k :: rows =>
      h ← decode_blob_hash k;
      fresh ← has_blob_chunked d h;
      if fresh : bool then first_incomplete_row d rows else Ok (Some k)
  end.

Fixpoint first_incomplete_blob (fuel : nat) (d : db) (last_hash : option (list byte)) (batch_size : N)
    : result blob_error (option (list byte)) :=
  rows ← query_blob_activation_page d last_hash batch_size;
  match last rows, fuel with
  | None, _ => Ok None
  | Some _, O => Panic
  | Some k, S fuel =>
      found ← first_incomplete_row d rows;
      match found with
      | Some b => Ok (Some b)
      | None => first_incomplete_blob fuel d (Some k) batch_size
      end
  end.

Definition final_report (c : counts) (d : db) : result blob_error BlobActivationReport :=
  sb ← table (source_blobs d);
  rows ← table (blob_manifest d);
  p ← table (content_chunks d);
  let blobs := map_to_list sb in
  mret {|
    eligible_blobs := len (filter (λ x, chunk_floor ≤ len (snd x)) blobs);
    populated_blobs := n_populated c; already_fresh_blobs := n_fresh c;
    skipped_sub_floor_blobs := len (filter (λ x, len (snd x) < chunk_floor) blobs);
    processed_source_bytes := n_bytes c;
    manifest_rows := len rows;
    unique_chunk_rows := N.of_nat (size p);
    unique_chunk_bytes := foldr (λ x acc, len (snd x) + acc) 0 (map_to_list p) |}.

(** The convergence loop. *)
Fixpoint converge_loop (fuel : nat) (batch_size : N) (c : counts) (d : db)
    : result blob_error BlobActivationReport * db :=
  match first_incomplete_blob (S (length (default [] (eligible_keys <$> source_blobs d)))) d None batch_size with
  | Ok None => (final_report c d, d)
  | Ok (Some k) =>
      match fuel with
      | O => (Panic, d)
      | S fuel =>
          match activate_blob_in_tx d k with
          | Ok (o, d') =>
              match tally o c with
              | Ok c => converge_loop fuel batch_size c d'
              | Err e => (Err e, d')
              | Panic => (Panic, d')
              end
          | Err e => (Err e, d)
          | Panic => (Panic, d)
          end
      end
  | Err e => (Err e, d)
  | Panic => (Panic, d)
  end.

Definition activate_chunked_source_blobs (batch_size : N) (d : db)
    : result blob_error BlobActivationReport * db :=
  if batch_size =? 0 then (Err BatchSizeZero, d) else
  if negb (batch_size <=? i64_max) then (Err ExceedsInteger, d) else
  match source_blobs d with
  | None => (Err MissingTables, d)
  | Some sb =>
      let d := create_blob_chunked_schema d in
      let fuel := S (length (eligible_keys sb)) in
      match page_loop fuel batch_size None counts0 d with
      | (Ok c, d) => converge_loop fuel batch_size c d
      | (Err e, d) => (Err e, d)
      | (Panic, d) => (Panic, d)
      end
  end.
End activation.

(** ** The keyset cursor *)

#[global] Instance bytes_le_total : Total bytes_le.
Proof. intros a b. apply bytes_leb_total. Qed.
#[global] Instance bytes_le_trans : Transitive bytes_le.
Proof. intros a b c. apply bytes_leb_trans. Qed.
#[global] Instance bytes_le_antisym : AntiSymm (=) bytes_le.
Proof. intros a b. apply bytes_leb_antisym. Qed.

Lemma eligible_keys_elem sb k :
  k ∈ eligible_keys sb ↔ ∃ v, sb !! k = Some v ∧ chunk_floor ≤ len v.
Proof.
  unfold eligible_keys. rewrite merge_sort_Permutation, list_elem_of_fmap. split.
  - intros ([k' v] & -> & [Hv Hin]%list_elem_of_filter). apply elem_of_map_to_list in Hin. eauto.
  - intros (v & Hv & Hf). exists (k, v). split; [done|]. apply list_elem_of_filter.
    split; [done|]. by apply elem_of_map_to_list.
Qed.

Lemma eligible_keys_sorted sb : StronglySorted bytes_le (eligible_keys sb) ∧ NoDup (eligible_keys sb).
Proof.
  split.
  - apply Sorted_StronglySorted; [apply _|]. apply Sorted_merge_sort, _.
  - unfold eligible_keys. rewrite merge_sort_Permutation.
    pose proof (NoDup_fst_map_to_list sb) as Hn. induction (map_to_list sb) as [|x l IH]; [constructor|].
    rewrite fmap_cons in Hn. apply NoDup_cons in Hn as [Hx Hn]. rewrite filter_cons.
    case_decide; [|auto]. rewrite fmap_cons. constructor; [|auto].
    intros (y & E & [_ Hy]%list_elem_of_filter)%list_elem_of_fmap. apply Hx. rewrite E.
    by apply list_elem_of_fmap_2.
Qed.

Lemma StronglySorted_app_inv (l k : list (list byte)) :
  StronglySorted bytes_le (l ++ k) → ∀ x y, x ∈ l → y ∈ k → bytes_le x y.
Proof.
  induction l as [|a l IH]; intros Hs x y Hx Hy; [by apply elem_of_nil in Hx|].
  apply StronglySorted_inv in Hs as [Hs Hall]. apply elem_of_cons in Hx as [->|Hx]; [|by eapply IH].
  rewrite Forall_forall in Hall. apply Hall. apply elem_of_app. by right.
Qed.

(** The page after a page is what follows it in key order. *)
Lemma next_page (E ks rows rest : list (list byte)) cursor k :
  StronglySorted bytes_le E → NoDup E → ks = filter (after_cursor cursor) E →
  ks = rows ++ rest → last rows = Some k → filter (after_cursor (Some k)) E = rest.
Proof.
  intros Hs Hn Hks Happ Hlast.
  assert (StronglySorted bytes_le ks) as Hs' by (rewrite Hks; by apply StronglySorted_filter).
  assert (NoDup ks) as Hn' by (rewrite Hks; by apply NoDup_filter).
  apply last_Some in Hlast as [rows' ->].
  assert (filter (after_cursor (Some k)) E = filter (after_cursor (Some k)) ks) as ->.
  { rewrite Hks. symmetry. apply list_filter_filter_l. intros x Hx.
    destruct cursor as [c|]; [|done]. simpl in *. intros Hxc. apply Hx.
    assert (k ∈ ks) as Hk by (rewrite Happ; set_solver).
    rewrite Hks in Hk. apply list_elem_of_filter in Hk as [Hk _]. simpl in Hk.
    destruct (total bytes_le x k) as [|Hkx]; [done|]. destruct Hk. by etrans. }
  rewrite Happ in *. rewrite <- app_assoc in *. rewrite filter_app.
  rewrite filter_none.
  2:{ intros x Hx. simpl. intros Hno. apply Hno.
      eapply (StronglySorted_app_inv _ _ Hs'); [done|set_solver]. }
  cbn [app]. rewrite filter_cons_False by (simpl; intros Hno; apply Hno; apply bytes_leb_refl).
  apply filter_all. intros x Hx. simpl. intros Hle.
  apply NoDup_app in Hn' as (_ & _ & Hn'). cbn [app] in Hn'. apply NoDup_cons in Hn' as [Hk _].
  rewrite app_assoc in Hs'. assert (bytes_le k x) as Hkx.
  { eapply (StronglySorted_app_inv _ _ Hs'); [set_solver|done]. }
  apply Hk. by rewrite (bytes_leb_antisym k x Hkx Hle).
Qed.

(** ** The walk *)

Section walk.
Context `{B3 : Blake3} `{G : Gear} `{GL : !GearLaws}.

(** A database the walk can run on: tables in place, the pool uncorrupted, and
    manifest rows that decode. *)
Definition walkable (sb : gmap (list byte) (list byte)) (d : db) : Prop :=
  source_blobs d = Some sb ∧
  (∃ p, content_chunks d = Some p ∧ pool_clean p) ∧
  ∃ rows, blob_manifest d = Some rows ∧ ∀ r, r ∈ rows → ∃ c, decode_row r = Ok c.

(** What the contract of [source_blobs] says of an eligible row. *)
Definition addressed (sb : gmap (list byte) (list byte)) : Prop :=
  ∀ k v, sb !! k = Some v → chunk_floor ≤ len v → k = as_bytes (blake3 v) ∧ len v ≤ i64_max.

Lemma decode_rows_total rows :
  (∀ r, r ∈ rows → ∃ c, decode_row r = Ok c) → ∃ cs, decode_rows rows = Ok cs.
Proof.
  induction rows as [|r rows IH]; intros Hr; [by eexists|].
  destruct (Hr r ltac:(by left)) as [c Hc]. destruct IH as [cs Hcs]; [intros; apply Hr; by right|].
  cbn [decode_rows]. rewrite Hc. cbn [mbind result_bind]. rewrite Hcs. by eexists.
Qed.

Lemma tile_end_no_panic o cs : tile_end o cs ≠ Panic.
Proof.
  revert o. induction cs as [|c cs IH]; intros o; [done|]. cbn [tile_end]. unfold ensure, checked_add, ok_or.
  repeat case_match; cbn [mbind result_bind]; first [done|apply IH].
Qed.

Lemma has_total sb d h : walkable sb d → ∃ b, has_blob_chunked d h = Ok b.
Proof.
  intros (Hs & _ & rows & Hr & Hdec). unfold has_blob_chunked, table. rewrite Hs.
  cbn [ok_or mbind result_bind]. destruct (sb !! as_bytes h) as [v|]; [|by eexists].
  unfold select_blob_manifest, table. rewrite Hr. cbn [ok_or mbind result_bind].
  destruct (decode_rows_total (merge_sort seq_le (rows_of rows h))) as [cs Hcs].
  { intros r Hin. rewrite merge_sort_Permutation in Hin.
    apply list_elem_of_filter in Hin as [_ Hin]. by apply Hdec. }
  rewrite Hcs. cbn [mbind result_bind]. destruct cs; [by eexists|]. unfold Manifest_parse.
  pose proof (tile_end_no_panic 0 (c :: cs)). destruct (tile_end 0 (c :: cs)); try done; by eexists.
Qed.

(** Freshness of one blob is read from its own rows and source row alone. *)
Lemma has_frame d d' rows rows' h :
  source_blobs d' = source_blobs d → blob_manifest d = Some rows → blob_manifest d' = Some rows' →
  rows_of rows' h = rows_of rows h → has_blob_chunked d' h = has_blob_chunked d h.
Proof.
  intros Hs Hr Hr' E.
  assert (select_blob_manifest d' h = select_blob_manifest d h) as Esel.
  { unfold select_blob_manifest, table. rewrite Hr, Hr'. cbn [ok_or mbind result_bind]. by rewrite E. }
  unfold has_blob_chunked. by rewrite Hs, Esel.
Qed.

Lemma rows_of_store rows h k cs :
  h ≠ k → rows_of (filter (λ r, r_blob r ≠ as_bytes h) rows ++ enc_rows h 0 cs) k = rows_of rows k.
Proof.
  intros Hn. unfold rows_of. rewrite filter_app, list_filter_filter_l.
  - fold (rows_of (enc_rows h 0 cs) k). rewrite rows_of_enc_other by done. apply app_nil_r.
  - intros x -> E. by apply as_bytes_inj in E.
Qed.

Lemma enc_rows_decode h seq cs r : r ∈ enc_rows h seq cs → ∃ c, decode_row r = Ok c.
Proof.
  revert seq. induction cs as [|c cs IH]; intros seq; [by intros ?%elem_of_nil|].
  intros [->|Hin]%elem_of_cons; [exists c; apply decode_row_of|by eapply IH].
Qed.

(** One blob of the contract is made fresh, disturbing no other. *)
Lemma store_walk sb d k v :
  walkable sb d → addressed sb → sb !! k = Some v → chunk_floor ≤ len v →
  ∃ n d', store_blob_chunked_in_transaction d (blake3 v) v = Ok (n, d') ∧ walkable sb d' ∧
    has_blob_chunked d' (blake3 v) = Ok true ∧
    ∀ h, h ≠ blake3 v → has_blob_chunked d' h = has_blob_chunked d h.
Proof.
  intros (Hs & (p & Hp & Hclean) & rows & Hr & Hdec) Ha Hk Hf.
  destruct (Ha k v Hk Hf) as [-> Hl].
  assert (∃ n d', store_blob_chunked_in_transaction d (blake3 v) v = Ok (n, d') ∧
    ∃ p', content_chunks d' = Some p' ∧ pool_clean p') as (n & d' & Hst & p' & Hp' & Hc').
  { unfold store_blob_chunked_in_transaction, content_hash. rewrite bool_decide_true by done.
    cbn [ensure mbind result_bind]. rewrite chunk_ok. cbn [lift_cdc mbind result_bind].
    unfold Manifest_parse. rewrite (tile_end_ok v) by auto using chunks_tile, i64_u64.
    cbn [lift_cdc mbind result_bind mret result_ret m_source_len]. rewrite N.eqb_refl.
    unfold table. rewrite Hp, Hr. cbn [ensure mbind result_bind ok_or].
    destruct (put_spans_total (blake3 v) v 0 0 (chunks_of 0 v) p
      (filter (λ r, r_blob r ≠ as_bytes (blake3 v)) rows)) as (p' & rows' & -> & Hc'); try done.
    - apply chunks_tile.
    - pose proof (contig_len _ _ _ (tiles_contig _ _ _ (chunks_tile v))). lia.
    - intros r [Hne _]%list_elem_of_filter. done.
    - eexists _, _. split; [done|]. by eexists. }
  pose proof (store_ok_inv _ _ _ _ _ Hst) as (_ & _ & Hsrc & p0 & rows0 & p1 & Hp0 & Hr0 & _ & Hr1 & _).
  simplify_eq. pose proof (store_blob_ok _ _ _ _ _ Hst) as Hok.
  assert (has_blob_chunked d' (blake3 v) = Ok true) as Hfresh.
  { eapply has_blob_ok; [done|done| |done]. by rewrite Hsrc. }
  exists n, d'. split_and!; [done| |done|].
  - split; [by rewrite Hsrc|]. split; [by eexists|]. eexists. split; [done|].
    intros r [[_ Hin]%list_elem_of_filter|Hin]%elem_of_app; [by apply Hdec|by eapply enc_rows_decode].
  - intros h Hne. eapply has_frame; [done..|]. by apply rows_of_store.
Qed.

(** Whether a key has a complete manifest, and the keys that do not. *)
Definition fresh_key (d : db) (k : list byte) : bool :=
  match Hash_try_from k with
  | Some h => match has_blob_chunked d h with Ok b => b | _ => false end
  | None => false
  end.
Definition stale (d : db) (ks : list (list byte)) : list (list byte) :=
  filter (λ k, fresh_key d k = false) ks.

Lemma fresh_key_as_bytes d h : fresh_key d (as_bytes h) = true ↔ has_blob_chunked d h = Ok true.
Proof.
  unfold fresh_key. rewrite Hash_try_from_as_bytes. destruct (has_blob_chunked d h); naive_solver.
Qed.

Lemma stale_ext d d' ks : (∀ k, k ∈ ks → fresh_key d' k = fresh_key d k) → stale d' ks = stale d ks.
Proof.
  induction ks as [|k ks IH]; intros Hk; [done|]. unfold stale in *. rewrite !filter_cons, Hk by by left.
  rewrite IH; [done|]. intros x Hx. apply Hk. by right.
Qed.

(** The bytes behind a list of keys. *)
Definition bytes_behind (sb : gmap (list byte) (list byte)) (ks : list (list byte)) : N :=
  foldr (λ k acc, len (default [] (sb !! k)) + acc) 0 ks.

Lemma bytes_behind_app sb l k : bytes_behind sb (l ++ k) = bytes_behind sb l + bytes_behind sb k.
Proof. unfold bytes_behind. induction l as [|x l IH]; simpl; [done|]. rewrite IH. lia. Qed.

Lemma stale_cons d k ks : stale d (k :: ks) = if fresh_key d k then stale d ks else k :: stale d ks.
Proof. unfold stale. rewrite filter_cons. by destruct (fresh_key d k). Qed.

Lemma stale_le sb d ks :
  len (stale d ks) ≤ len ks ∧ bytes_behind sb (stale d ks) ≤ bytes_behind sb ks ∧
  len (filter (λ k, fresh_key d k = true) ks) + len (stale d ks) = len ks.
Proof.
  induction ks as [|k ks (IH1 & IH2 & IH3)]; [done|]. rewrite stale_cons, filter_cons.
  destruct (fresh_key d k); rewrite !len_cons; cbn [bytes_behind foldr]; fold (bytes_behind sb ks);
    fold (bytes_behind sb (stale d ks)); simpl; rewrite ?len_cons; lia.
Qed.

Lemma activate_blob_walk sb d k v :
  walkable sb d → addressed sb → sb !! k = Some v → chunk_floor ≤ len v →
  ∃ d', activate_blob_in_tx d k = Ok (if fresh_key d k then AlreadyFresh else Populated (len v), d') ∧
    walkable sb d' ∧ fresh_key d' k = true ∧ ∀ k', k' ≠ k → fresh_key d' k' = fresh_key d k'.
Proof.
  intros Hw Ha Hk Hf. pose proof (Ha k v Hk Hf) as [Ek _].
  assert (decode_blob_hash k = Ok (blake3 v)) as Hd
    by (unfold decode_blob_hash; by rewrite Ek, Hash_try_from_as_bytes).
  unfold activate_blob_in_tx. rewrite Hd. cbn [mbind result_bind].
  destruct (has_total sb d (blake3 v) Hw) as [b Hb].
  assert (fresh_key d k = b) as -> by (unfold fresh_key; by rewrite Ek, Hash_try_from_as_bytes, Hb).
  rewrite Hb. cbn [mbind result_bind]. destruct b.
  { exists d. split_and!; [done|done| |done]. rewrite Ek. by apply fresh_key_as_bytes. }
  unfold table. rewrite (proj1 Hw). cbn [ok_or mbind result_bind]. rewrite <- Ek, Hk.
  destruct (store_walk sb d k v Hw Ha Hk Hf) as (n & d' & Hst & Hw' & Hh & Hm).
  rewrite Hst. cbn [mbind result_bind]. rewrite Hh. cbn [ensure mbind result_bind].
  exists d'. split_and!; [done|done|rewrite Ek; by apply fresh_key_as_bytes|].
  intros k' Hne. unfold fresh_key. destruct (Hash_try_from k') as [h|] eqn:E; [|done].
  rewrite Hm; [done|]. intros ->. apply Hne. rewrite Ek. symmetry. by apply Hash_try_from_Some.
Qed.

(** What the walk over some keys adds to the counts, by the keys that were stale
    before it. *)
Record counted (sb : gmap (list byte) (list byte)) (d : db) (ks : list (list byte)) (c c' : counts) : Prop := {
  co_visited : n_visited c' = n_visited c + len ks;
  co_populated : n_populated c' = n_populated c + len (stale d ks);
  co_fresh : n_fresh c' + len (stale d ks) = n_fresh c + len ks;
  co_bytes : n_bytes c' = n_bytes c + bytes_behind sb (stale d ks);
}.

(** What the walk over some keys does to the database. *)
Definition walked (sb : gmap (list byte) (list byte)) (ks : list (list byte)) (d d' : db) : Prop :=
  walkable sb d' ∧ (∀ k, k ∈ ks → fresh_key d' k = true) ∧
  ∀ k, k ∉ ks → fresh_key d' k = fresh_key d k.

Lemma walked_app sb l k d d1 d2 :
  walked sb l d d1 → walked sb k d1 d2 → walked sb (l ++ k) d d2.
Proof.
  intros (_ & Hl & Hol) (Hw & Hk & Hok). split_and!; [done| |].
  - intros x [Hx|Hx]%elem_of_app; [|auto]. destruct (decide (x ∈ k)); [auto|]. rewrite Hok by done. auto.
  - intros x Hx. rewrite elem_of_app in Hx. rewrite Hok, Hol by tauto. done.
Qed.

Lemma counted_app sb l k d d1 c c1 c2 :
  NoDup (l ++ k) → walked sb l d d1 → counted sb d l c c1 → counted sb d1 k c1 c2 →
  counted sb d (l ++ k) c c2.
Proof.
  intros (_ & Hd & _)%NoDup_app (_ & _ & Ho) [] [].
  assert (stale d1 k = stale d k) as E.
  { apply stale_ext. intros x Hx. apply Ho. intros Hl. by apply (Hd x). }
  rewrite E in *. split; unfold stale in *; rewrite ?filter_app, ?len_app, ?bytes_behind_app; lia.
Qed.

Lemma counted_nil sb d c : counted sb d [] c c.
Proof. split; change (stale d []) with (@nil (list byte)); rewrite ?len_nil; cbn [bytes_behind foldr]; lia. Qed.

Lemma count_add_ok a b : a + b ≤ u64_max → count_add a b = Ok (a + b).
Proof. intros. unfold count_add, checked_add. by rewrite (proj2 (N.leb_le _ _)). Qed.

(** Counts that may still grow by the walk over some keys. *)
Definition room (sb : gmap (list byte) (list byte)) (ks : list (list byte)) (c : counts) : Prop :=
  n_populated c + n_fresh c = n_visited c ∧ n_visited c + len ks ≤ u64_max ∧
  n_bytes c + bytes_behind sb ks ≤ u64_max.

Lemma room_after sb d l k c c1 : room sb (l ++ k) c → counted sb d l c c1 → room sb k c1.
Proof.
  intros (Hp & Hv & Hb) []. rewrite len_app in Hv. rewrite bytes_behind_app in Hb.
  destruct (stale_le sb d l) as (H1 & H2 & _). split_and!; lia.
Qed.

Lemma room_prefix sb l k c : room sb (l ++ k) c → room sb l c.
Proof.
  intros (Hp & Hv & Hb). rewrite len_app in Hv. rewrite bytes_behind_app in Hb. split_and!; lia.
Qed.

Lemma activate_one_walk sb d k v c :
  walkable sb d → addressed sb → sb !! k = Some v → chunk_floor ≤ len v → room sb [k] c →
  ∃ o d' c', activate_blob_in_tx d k = Ok (o, d') ∧ tally o c = Ok c' ∧
    walked sb [k] d d' ∧ counted sb d [k] c c'.
Proof.
  intros Hw Ha Hk Hf (Hp & Hv & Hb). cbn [bytes_behind foldr] in Hb. rewrite Hk in Hb. simpl in Hb.
  rewrite len_cons, len_nil in Hv.
  destruct (activate_blob_walk sb d k v Hw Ha Hk Hf) as (d' & Hact & Hw' & Hfk & Hot).
  assert (walked sb [k] d d') as Hwd.
  { split_and!; [done|by intros x ->%list_elem_of_singleton|]. intros x Hx. apply Hot. set_solver. }
  pose proof (stale_cons d k [] : stale d [k] = if fresh_key d k then [] else [k]) as Hst.
  destruct (fresh_key d k) eqn:E; eexists _, d', _; (split; [exact Hact|]); cbn [tally];
    rewrite !count_add_ok by lia; cbn [mbind result_bind]; (split; [done|split; [done|]]);
    split; rewrite ?Hst; cbn [n_visited n_populated n_fresh n_bytes bytes_behind foldr];
    rewrite ?Hk, ?len_cons, ?len_nil; simpl; lia.
Qed.

Lemma activate_rows_walk sb ks c d :
  walkable sb d → addressed sb → NoDup ks →
  (∀ k, k ∈ ks → ∃ v, sb !! k = Some v ∧ chunk_floor ≤ len v) → room sb ks c →
  ∃ c' d', activate_rows ks c d = Ok (c', d') ∧ walked sb ks d d' ∧ counted sb d ks c c'.
Proof.
  intros Hw Ha. revert c d Hw. induction ks as [|k ks IH]; intros c d Hw Hnd Hk Hroom.
  { exists c, d. split_and!; [done|split_and!; [done|by intros ? ?%elem_of_nil|done]|].
    apply counted_nil. }
  destruct (Hk k ltac:(by left)) as (v & Hkv & Hf).
  assert (room sb [k] c) as Hr1.
  { eapply (room_prefix sb [k] ks). exact Hroom. }
  destruct (activate_one_walk sb d k v c Hw Ha Hkv Hf Hr1) as (o & d1 & c1 & Hact & Ht & Hw1 & Hc1).
  cbn [activate_rows]. rewrite Hact. cbn [mbind result_bind]. rewrite Ht. cbn [mbind result_bind].
  apply NoDup_cons in Hnd as Hnd'.
  destruct (IH c1 d1) as (c' & d' & -> & Hw2 & Hc2); [apply Hw1|apply Hnd'|intros; apply Hk; by right|by eapply (room_after sb d [k])|].
  exists c', d'. split_and!; [done|by eapply (walked_app sb [k])|by eapply (counted_app sb [k])].
Qed.

Lemma query_page sb d cursor batch :
  source_blobs d = Some sb →
  query_blob_activation_page d cursor batch =
    Ok (takeN batch (filter (after_cursor cursor) (eligible_keys sb))).
Proof. intros Hs. unfold query_blob_activation_page, table. by rewrite Hs. Qed.

(** The next page is not empty while keys remain. *)
Lemma page_last (ks : list (list byte)) batch :
  0 < batch → ks ≠ [] → ∃ k, last (takeN batch ks) = Some k.
Proof.
  intros Hb Hne. destruct (last (takeN batch ks)) as [k|] eqn:E; [by eexists|].
  apply last_None in E. apply (f_equal len) in E. rewrite len_takeN, len_nil in E.
  destruct ks; [done|]. rewrite len_cons in E. lia.
Qed.

Lemma page_loop_walk sb batch fuel cursor ks c d :
  0 < batch → walkable sb d → addressed sb →
  filter (after_cursor cursor) (eligible_keys sb) = ks → (length ks < fuel)%nat → room sb ks c →
  ∃ c' d', page_loop fuel batch cursor c d = (Ok c', d') ∧ walked sb ks d d' ∧ counted sb d ks c c'.
Proof.
  intros Hbatch Hw Ha. revert cursor ks c d Hw.
  induction fuel as [|fuel IH]; intros cursor ks c d Hw Hks Hf Hroom; [lia|].
  cbn [page_loop]. rewrite (query_page sb) by apply Hw. rewrite Hks.
  destruct (decide (ks = [])) as [Ek|Hne].
  { subst ks. rewrite Ek in *. unfold takeN. rewrite take_nil. cbn [last]. exists c, d.
    split_and!; [done|split_and!; [done|by intros ? ?%elem_of_nil|done]|].
    apply counted_nil. }
  destruct (page_last ks batch Hbatch Hne) as [k Hlast]. rewrite Hlast.
  set (rows := takeN batch ks) in *. set (rest := dropN batch ks).
  assert (ks = rows ++ rest) as Happ by (symmetry; apply takeN_dropN).
  assert (rows ≠ []) as Hr by (by intros E; rewrite E in Hlast).
  destruct (eligible_keys_sorted sb) as [Hs Hn].
  assert (NoDup (rows ++ rest)) as Hnd by (rewrite <- Happ, <- Hks; by apply NoDup_filter).
  rewrite Happ in Hroom.
  destruct (activate_rows_walk sb rows c d) as (c1 & d1 & -> & Hw1 & Hc1); [done|done| | | |].
  { by apply NoDup_app in Hnd as [? _]. }
  { intros x Hx. apply eligible_keys_elem. assert (x ∈ ks) as Hin by (rewrite Happ; set_solver).
    rewrite <- Hks in Hin. by apply list_elem_of_filter in Hin as [_ ?]. }
  { by eapply room_prefix. }
  destruct (IH (Some k) rest c1 d1) as (c' & d' & -> & Hw2 & Hc2); [apply Hw1| | |by eapply room_after|].
  { by eapply next_page. }
  { rewrite Happ, length_app in Hf. destruct rows; [done|]. simpl in Hf. lia. }
  exists c', d'. rewrite Happ. split_and!; [done|by eapply walked_app|by eapply counted_app].
Qed.

Definition fresh_keys (d : db) (ks : list (list byte)) : Prop :=
  ∀ k, k ∈ ks → ∃ h, k = as_bytes h ∧ has_blob_chunked d h = Ok true.

Lemma first_incomplete_row_none d rows : fresh_keys d rows → first_incomplete_row d rows = Ok None.
Proof.
  induction rows as [|k rows IH]; intros Hf; [done|]. cbn [first_incomplete_row].
  destruct (Hf k ltac:(by left)) as (h & -> & Hh). unfold decode_blob_hash.
  rewrite Hash_try_from_as_bytes. cbn [ok_or mbind result_bind]. rewrite Hh.
  cbn [mbind result_bind]. apply IH. intros x Hx. apply Hf. by right.
Qed.

Lemma first_incomplete_none sb batch fuel cursor ks d :
  0 < batch → walkable sb d → filter (after_cursor cursor) (eligible_keys sb) = ks →
  (length ks < fuel)%nat → fresh_keys d ks → first_incomplete_blob fuel d cursor batch = Ok None.
Proof.
  intros Hbatch Hw. revert cursor ks.
  induction fuel as [|fuel IH]; intros cursor ks Hks Hf Hfr; [lia|].
  cbn [first_incomplete_blob]. rewrite (query_page sb) by apply Hw. rewrite Hks. cbn [mbind result_bind].
  destruct (decide (ks = [])) as [->|Hne].
  { unfold takeN. by rewrite take_nil. }
  destruct (page_last ks batch Hbatch Hne) as [k Hlast]. rewrite Hlast.
  assert (ks = takeN batch ks ++ dropN batch ks) as Happ by (symmetry; apply takeN_dropN).
  rewrite first_incomplete_row_none by (intros x Hx; apply Hfr; rewrite Happ; set_solver).
  cbn [mbind result_bind]. destruct (eligible_keys_sorted sb) as [Hs Hn].
  apply (IH _ (dropN batch ks)).
  - by eapply next_page.
  - assert (takeN batch ks ≠ []) as Hr by (by intros E; rewrite E in Hlast).
    rewrite Happ, length_app in Hf. destruct (takeN batch ks); [done|]. simpl in Hf. lia.
  - intros x Hx. apply Hfr. rewrite Happ. set_solver.
Qed.

(** C11: activation terminates and completes.  Over a [source_blobs] table
    that keeps its contract, with an uncorrupted pool, manifest rows that decode
    and no other writer, for any batch size the walk returns; every blob at or
    above the 8 KiB floor then has a complete manifest; no other blob's
    completeness changed and the source rows are untouched.  The report is
    exact: populated are the eligible blobs that were not complete before, with
    their bytes, already fresh those that were, skipped the rows below the floor,
    and the remaining numbers are those of the tables left behind. *)
Theorem activation_completes batch sb d :
  0 < batch → batch ≤ i64_max → addressed sb → walkable sb (create_blob_chunked_schema d) →
  len (eligible_keys sb) ≤ u64_max → bytes_behind sb (eligible_keys sb) ≤ u64_max →
  let d0 := create_blob_chunked_schema d in
  let todo := stale d0 (eligible_keys sb) in
  ∃ report d' rows pool, activate_chunked_source_blobs batch d = (Ok report, d') ∧
    source_blobs d' = Some sb ∧ blob_manifest d' = Some rows ∧ content_chunks d' = Some pool ∧
    (∀ k v, sb !! k = Some v → chunk_floor ≤ len v → has_blob_chunked d' (blake3 v) = Ok true) ∧
    (∀ k, k ∉ eligible_keys sb → fresh_key d' k = fresh_key d0 k) ∧
    report = {|
      eligible_blobs := len (eligible_keys sb);
      populated_blobs := len todo;
      already_fresh_blobs := len (filter (λ k, fresh_key d0 k = true) (eligible_keys sb));
      skipped_sub_floor_blobs := len (filter (λ x, len (snd x) < chunk_floor) (map_to_list sb));
      processed_source_bytes := bytes_behind sb todo;
      manifest_rows := len rows;
      unique_chunk_rows := N.of_nat (size pool);
      unique_chunk_bytes := foldr (λ x acc, len (snd x) + acc) 0 (map_to_list pool) |}.
Proof.
  intros Hb1 Hb2 Ha Hw Hn Hby d0 todo. pose proof Hw as (Hsb & _). cbn [source_blobs create_blob_chunked_schema
    ensure_blob_manifest_infra] in Hsb.
  unfold activate_chunked_source_blobs. rewrite (proj2 (N.eqb_neq _ _)) by lia.
  rewrite (proj2 (N.leb_le _ _) Hb2), Hsb. cbn [negb].
  destruct (page_loop_walk sb batch (S (length (eligible_keys sb))) None (eligible_keys sb) counts0
    d0) as (c & d1 & Hloop & (Hw1 & Hf1 & Ho1) & [Hv Hp Hfr Hb]); try done; [by apply filter_all|lia|].
  fold d0. rewrite Hloop.
  assert (∀ k v, sb !! k = Some v → chunk_floor ≤ len v → has_blob_chunked d1 (blake3 v) = Ok true) as Hall.
  { intros k v Hk Hf. destruct (Ha k v Hk Hf) as [E _]. apply fresh_key_as_bytes. rewrite <- E.
    apply Hf1, eligible_keys_elem. eauto. }
  assert (fresh_keys d1 (eligible_keys sb)) as Hfk.
  { intros k (v & Hk & Hf)%eligible_keys_elem. exists (blake3 v). destruct (Ha k v Hk Hf) as [E _]. eauto. }
  cbn [converge_loop]. pose proof Hw1 as (Hsb1 & (p & Hpool & _) & rows & Hr & _).
  assert ((eligible_keys <$> source_blobs d1) = Some (eligible_keys sb)) as -> by (by rewrite Hsb1).
  cbn [default from_option id]. rewrite (first_incomplete_none sb batch _ None (eligible_keys sb));
    [|done|done|by apply filter_all|lia|done].
  unfold final_report, table. rewrite Hsb1, Hr, Hpool. cbn [ok_or mbind result_bind].
  eexists _, _, _, _. split; [done|]. split_and!; [done..|].
  assert (len (filter (λ x, chunk_floor ≤ len (snd x)) (map_to_list sb)) = len (eligible_keys sb)) as ->.
  { unfold eligible_keys, len. by rewrite merge_sort_Permutation, length_fmap. }
  destruct (stale_le sb d0 (eligible_keys sb)) as (_ & _ & Hsum). fold todo in Hp, Hfr, Hb, Hsum.
  f_equal; cbn [counts0 n_populated n_fresh n_bytes] in *; lia.
Qed.
End walk.

(** ** One eligible blob in a fresh database *)

Section examples.
#[local] Instance length_blake3 : Blake3 := {|
  blake3 := λ l, vreplicate 32 (byte_of_N (len l));
  blake3_derive_key := λ _ l, vreplicate 32 (byte_of_N (len l)) |}.
#[local] Existing Instances zero_gear zero_gear_laws.

Definition demo_source : list byte := replicate 9000 x07.
Definition demo_sources : gmap (list byte) (list byte) :=
  {[ as_bytes (blake3 demo_source) := demo_source ]}.
Definition demo_arena : db :=
  {| content_chunks := None; blob_manifest := None; source_blobs := Some demo_sources |}.

Lemma activation_completes_witness :
  ∃ report d', activate_chunked_source_blobs 256 demo_arena = (Ok report, d') ∧
    has_blob_chunked d' (blake3 demo_source) = Ok true ∧
    populated_blobs report = 1 ∧ processed_source_bytes report = 9000.
Proof.
  destruct (activation_completes 256 demo_sources demo_arena)
    as (report & d' & rows & pool & Hr & _ & _ & _ & Hall & _ & Hrep).
  - done.
  - done.
  - intros k v Hk _. unfold demo_sources in Hk. apply lookup_singleton_Some in Hk as [<- <-].
    by vm_compute.
  - split; [done|]. split.
    + exists ∅. split; [done|]. intros k v E. by rewrite lookup_empty in E.
    + exists []. split; [done|]. by intros r ?%elem_of_nil.
  - by vm_compute.
  - by vm_compute.
  - exists report, d'. split_and!; [done|eapply Hall; [apply lookup_singleton_eq|by vm_compute]| |];
      rewrite Hrep; by vm_compute.
Defined.
End examples.
