(* ===== verification/Verified.v ===== *)
(** * Serving the arena page by page

    [rs/ll-open/fs/src/verified.rs]: a session over a mapped arena that checks
    each 1 KiB page against the published root the first time it is served.
    Anyone may write to the mapping at any time, so every operation takes the
    mapping as it looks at each access; nothing relates two looks. *)

From S2P Require Import Prelude Substrate Layout Outboard.
From Stdlib Require Import NArith Lia.
Local Open Scope N_scope.

Inductive verified_error :=
| HeaderInvalid (e : ArenaHeaderError)
| DataExceedsBuffer | RootMissing | RootMismatch
| PageOutOfRange | Proof (e : outboard_error) | PageRefused (e : outboard_error).

(** [VerifiedArena]; the bitmap is the source's vector of 64-bit words. *)
Record VerifiedArena := {
  data_offset : N;
  data_len : N;
  va_root : Hash;
  outboard : Outboard;
  verified : list N;
  verify_calls : N;
  verify_failures : N;
}.

Definition set_bitmap (bm : list N) (a : VerifiedArena) : VerifiedArena := {|
  data_offset := data_offset a; data_len := data_len a; va_root := va_root a;
  outboard := outboard a; verified := bm; verify_calls := verify_calls a;
  verify_failures := verify_failures a |}.
Definition count_call (a : VerifiedArena) : VerifiedArena := {|
  data_offset := data_offset a; data_len := data_len a; va_root := va_root a;
  outboard := outboard a; verified := verified a; verify_calls := wadd64 (verify_calls a) 1;
  verify_failures := verify_failures a |}.
Definition count_failure (a : VerifiedArena) : VerifiedArena := {|
  data_offset := data_offset a; data_len := data_len a; va_root := va_root a;
  outboard := outboard a; verified := verified a; verify_calls := verify_calls a;
  verify_failures := wadd64 (verify_failures a) 1 |}.

Definition pages (a : VerifiedArena) : N := div_ceil (data_len a) CHUNK_LEN.

(** [page_span] *)
Definition page_start (index : N) : N := index * CHUNK_LEN.
Definition page_stop (a : VerifiedArena) (index : N) : N :=
  N.min (page_start index + CHUNK_LEN) (data_len a).

(** [is_verified], [mark_verified] *)
Definition is_verified (a : VerifiedArena) (index : N) : result verified_error bool :=
  w ← index_checked (index / 64) (verified a);
  mret (negb (N.land w (N.shiftl 1 (index mod 64)) =? 0)).
Definition mark_verified (a : VerifiedArena) (index : N) : VerifiedArena :=
  set_bitmap (alter (λ w, N.lor w (N.shiftl 1 (index mod 64))) (N.to_nat (index / 64)) (verified a)) a.

Section session.
Context `{Blake3, Hazmat}.

(** [VerifiedArena::open], from the mapped file and the published root. *)
Definition VerifiedArena_open (file : list byte) (root_bytes : list byte)
    : result verified_error VerifiedArena :=
  hb ← slice_checked 0 HEADER_BYTES file;
  let header := header_of_bytes hb in
  let file_size := len file in
  offset ← match validate_header header file_size with
           | Ok o => Ok o | Err e => Err (HeaderInvalid e) | Panic => Panic end;
  let n := data_size header in
  _ ← ensure (n <=? buffer_size file_size) DataExceedsBuffer;
  let zero := bool_decide (root_bytes = as_bytes Hash_ZERO) in
  _ ← ensure (negb ((0 <? n) && zero)) RootMissing;
  root ← match Hash_try_from root_bytes with Some h => Ok h | None => Panic end;
  data ← slice_checked offset (offset + n) file;
  ob ← match build data with Ok ob => Ok ob | Err e => Err (Proof e) | Panic => Panic end;
  _ ← ensure (zero || bool_decide (fst (Outboard.root ob) = root)) RootMismatch;
  mret {| data_offset := offset; data_len := n; va_root := root; outboard := ob;
          verified := replicate (N.to_nat (div_ceil (div_ceil n CHUNK_LEN) 64)) 0;
          verify_calls := 0; verify_failures := 0 |}.

(** [verify_arena_root] ([rs/ll-open/fs/src/lib.rs]): the one check the copying
    load path makes, on the active buffer. *)
Definition verify_arena_root (root_bytes : list byte) (header : ArenaHeader) (buf : list byte)
    : result verified_error (list byte) :=
  let n := data_size header in
  _ ← ensure (n <=? len buf) DataExceedsBuffer;
  data ← slice_checked 0 n buf;
  if n =? 0 then Ok data else
  _ ← ensure (negb (bool_decide (root_bytes = as_bytes Hash_ZERO))) RootMissing;
  _ ← ensure (bool_decide (as_bytes (content_hash data) = root_bytes)) RootMismatch;
  Ok data.

(** [SqliteGraph::from_arena], up to the bytes it hands to
    [sqlite3_deserialize]. *)
Definition from_arena (file : list byte) (root_bytes : list byte) : result verified_error (list byte) :=
  hb ← slice_checked 0 HEADER_BYTES file;
  let header := header_of_bytes hb in
  let file_size := len file in
  offset ← match validate_header header file_size with
           | Ok o => Ok o | Err e => Err (HeaderInvalid e) | Panic => Panic end;
  buf ← slice_checked offset (offset + buffer_size file_size) file;
  verify_arena_root root_bytes header buf.

(** [fault_page]; [live] is the payload as mapped now. *)
Definition fault_page (live : list byte) (index : N) (a : VerifiedArena)
    : result verified_error (option (list byte)) * VerifiedArena :=
  if negb (index <? pages a) then (Err PageOutOfRange, a) else
  match is_verified a index with
  | Ok true => (Ok None, a)
  | Ok false =>
      match slice_checked (E := verified_error) (page_start index) (page_stop a index) live with
      | Ok snapshot =>
          match prove (outboard a) index with
          | Ok proof =>
              let a := count_call a in
              match verify_chunk (va_root a) (data_len a) index snapshot proof with
              | Ok _ => (Ok (Some snapshot), mark_verified a index)
              | Err e => (Err (PageRefused e), count_failure a)
              | Panic => (Panic, a)
              end
          | Err e => (Err (Proof e), a)
          | Panic => (Panic, a)
          end
      | Err e => (Err e, a)
      | Panic => (Panic, a)
      end
  | Err e => (Err e, a)
  | Panic => (Panic, a)
  end.

Definition verify_page (live : list byte) (index : N) (a : VerifiedArena)
    : result verified_error unit * VerifiedArena :=
  let '(r, a) := fault_page live index a in ((λ _, tt) <$> r, a).

(** Pass 1 of [read_at]: [live i] is the payload when page [i] is faulted. *)
Fixpoint fault_pages (live : N → list byte) (idx : list N) (a : VerifiedArena)
    : result verified_error (list (N * list byte)) * VerifiedArena :=
  match idx with
  | [] => (Ok [], a)
  | i :: idx =>
      match fault_page (live i) i a with
      | (Ok o, a) =>
          let '(r, a) := fault_pages live idx a in
          ((λ l, match o with Some s => (i, s) :: l | None => l end) <$> r, a)
      | (Err e, a) => (Err e, a)
      | (Panic, a) => (Panic, a)
      end
  end.

(** Pass 2: each page from its snapshot, or from the mapping as it is then. *)
Fixpoint copy_pages (a : VerifiedArena) (live : N → list byte) (snapshots : list (N * list byte))
    (offset stop : N) (idx : list N) (buf : list byte) : result verified_error (list byte) :=
  match idx with
  | [] => Ok buf
  | i :: idx =>
      let lo := N.max (page_start i) offset in
      let hi := N.min (page_stop a i) stop in
      page ← match list_find (λ x, fst x = i) snapshots with
             | Some (_, (_, s)) => Ok s
             | None => slice_checked (page_start i) (page_stop a i) (live i)
             end;
      piece ← slice_checked (lo - page_start i) (hi - page_start i) page;
      _ ← assert_ (hi - offset <=? len buf);
      copy_pages a live snapshots offset stop idx (splice (lo - offset) piece buf)
  end.

(** [read_at]: the count, the destination and the session it leaves.  [live1]
    is the mapping during the first pass, [live2] during the second. *)
Definition read_at (live1 live2 : N → list byte) (offset : N) (buf : list byte) (a : VerifiedArena)
    : result verified_error N * list byte * VerifiedArena :=
  if (data_len a <=? offset) || bool_decide (buf = []) then (Ok 0, buf, a) else
  let stop := N.min (sat_add offset (len buf)) (data_len a) in
  let first := offset / CHUNK_LEN in
  let last := (stop - 1) / CHUNK_LEN in
  match fault_pages live1 (range first (last + 1)) a with
  | (Ok snapshots, a) =>
      match copy_pages a live2 snapshots offset stop (range first (last + 1)) buf with
      | Ok buf' => (Ok (stop - offset), buf', a)
      | Err e => (Err e, buf, a)
      | Panic => (Panic, buf, a)
      end
  | (Err e, a) => (Err e, buf, a)
  | (Panic, a) => (Panic, buf, a)
  end.

Definition read_all (live1 live2 : N → list byte) (a : VerifiedArena)
    : result verified_error (list byte) * VerifiedArena :=
  let '(r, buf, a) := read_at live1 live2 0 (replicate (N.to_nat (data_len a)) x00) a in
  ((λ _, buf) <$> r, a).
End session.

(** ** [dirty_span] *)

(** [prev.iter().zip(next).take_while(|(a, b)| a == b).count()] *)
Fixpoint common_prefix (l k : list byte) : N :=
  match l, k with
  | a :: l, b :: k => if bool_decide (a = b) then 1 + common_prefix l k else 0
  | _, _ => 0
  end.

Definition dirty_span (prev next : list byte) : N * N :=
  let prefix := common_prefix prev next in
  if negb (len prev =? len next) then (prefix, len next) else
  let suffix := common_prefix (reverse (dropN prefix prev)) (reverse (dropN prefix next)) in
  (prefix, len next - suffix).

(** ** The bitmap *)

Lemma land_bit w b : (N.land w (N.shiftl 1 b) =? 0) = negb (N.testbit w b).
Proof.
  destruct (N.eqb_spec (N.land w (N.shiftl 1 b)) 0) as [E|E]; destruct (N.testbit w b) eqn:Ht; try done.
  - apply (f_equal (λ x, N.testbit x b)) in E. rewrite N.land_spec, Ht, N.shiftl_spec_high' in E by lia.
    by rewrite N.sub_diag, N.bits_0 in E.
  - exfalso. apply E. apply N.bits_inj_0. intros j. rewrite N.land_spec.
    destruct (decide (j = b)) as [->|Hne]; [by rewrite Ht|].
    destruct (N.lt_ge_cases j b); [by rewrite N.shiftl_spec_low, andb_false_r|].
    rewrite N.shiftl_spec_high' by lia. rewrite (N.bits_above_log2 1); [by rewrite andb_false_r|].
    simpl. lia.
Qed.

Lemma lor_bit w b j : N.testbit (N.lor w (N.shiftl 1 b)) j = N.testbit w j || (j =? b).
Proof.
  rewrite N.lor_spec. f_equal. rewrite N.shiftl_1_l. by rewrite N.pow2_bits_eqb, N.eqb_sym.
Qed.

(** The bit of a page, [false] outside the map. *)
Definition bit (a : VerifiedArena) (i : N) : bool :=
  match verified a !! N.to_nat (i / 64) with Some w => N.testbit w (i mod 64) | None => false end.

Lemma div_ceil_gt i n b : 0 < b → i < n → i / b < div_ceil n b.
Proof.
  intros Hb Hi. unfold div_ceil. replace (n + b - 1) with (n - 1 + 1 * b) by lia.
  rewrite N.div_add by lia. enough (i / b ≤ (n - 1) / b) by lia. apply N.Div0.div_le_mono. lia.
Qed.

Definition bitmap_ok (a : VerifiedArena) : Prop := len (verified a) = div_ceil (pages a) 64.

Lemma is_verified_bit a i : bitmap_ok a → i < pages a → is_verified a i = Ok (bit a i).
Proof.
  intros Hb Hi. unfold is_verified, index_checked, bit.
  destruct (verified a !! N.to_nat (i / 64)) as [w|] eqn:E.
  - cbn [mbind result_bind mret result_ret]. f_equal. by rewrite land_bit, negb_involutive.
  - exfalso. apply lookup_ge_None in E. pose proof (div_ceil_gt i (pages a) 64 ltac:(done) Hi).
    unfold bitmap_ok, len in Hb. lia.
Qed.

Lemma bit_mark a i j :
  bitmap_ok a → i < pages a → bit (mark_verified a i) j = bit a j || (j =? i).
Proof.
  intros Hb Hi. unfold bit, mark_verified; cbn [verified set_bitmap].
  pose proof (div_ceil_gt i (pages a) 64 ltac:(done) Hi) as Hlt.
  assert (∃ w, verified a !! N.to_nat (i / 64) = Some w) as [w Hw].
  { apply lookup_lt_is_Some. unfold bitmap_ok, len in Hb. lia. }
  destruct (decide (j / 64 = i / 64)) as [E|E].
  - rewrite E, list_lookup_alter_eq, Hw. simpl. rewrite lor_bit. f_equal.
    destruct (N.eqb_spec (j mod 64) (i mod 64)) as [Em|Em], (N.eqb_spec j i) as [->|Hn]; try done.
    exfalso. apply Hn. rewrite (N.div_mod' j 64), (N.div_mod' i 64). by rewrite E, Em.
  - rewrite list_lookup_alter_ne by lia. rewrite (proj2 (N.eqb_neq j i)) by congruence.
    by rewrite orb_false_r.
Qed.

(** ** A session over the payload it was opened on *)

Section gate.
Context `{B3 : Blake3} `{HZ : Hazmat} `{BL : !HazmatLaws}.

Record session_ok (d0 : list byte) (a : VerifiedArena) : Prop := {
  so_len : data_len a = len d0;
  so_bound : len d0 ≤ u64_max;
  so_root : len d0 = 0 ∨ va_root a = blake3 d0;
  so_outboard : outboard_ok d0 (outboard a);
  so_bitmap : bitmap_ok a;
}.

Lemma pages_nch d0 a : session_ok d0 a → pages a = nch d0.
Proof. intros []. unfold pages, nch. by rewrite so_len0. Qed.

(** The page as the source cuts it is the tree's chunk. *)
Lemma page_slice d0 a live i :
  session_ok d0 a → len live = len d0 → i < pages a →
  slice_checked (E := verified_error) (page_start i) (page_stop a i) live = Ok (chunk_of live i).
Proof.
  intros Hs Hl Hi. rewrite (pages_nch d0 a Hs) in Hi.
  pose proof (div_ceil_bounds (len d0)) as [Hb _]. fold (nch d0) in Hb.
  unfold page_start, page_stop. rewrite (so_len _ _ Hs), <- Hl in *. unfold page_start.
  rewrite slice_checked_ok by (unfold CHUNK_LEN in *; lia). f_equal. unfold chunk_of.
  replace ((i + 1) * CHUNK_LEN) with (i * CHUNK_LEN + CHUNK_LEN) by lia.
  rewrite N.min_comm. apply slice_clamp.
Qed.

(** A page that verified although it differs: the collision it rests on. *)
Definition page_forged (d0 : list byte) (ob : Outboard) (live : list byte) (i : N) : Prop :=
  ∃ proof, prove ob i = Ok proof ∧
    path_collision d0 i (chunk_of live i) proof.

(** The page as mapped then is the page the root commits to, or a collision. *)
Definition attested (d0 : list byte) (ob : Outboard) (live : list byte) (i : N) : Prop :=
  chunk_of live i = chunk_of d0 i ∨ page_forged d0 ob live i.

Lemma verify_fold_no_panic rt cv proof : proof ≠ [] → verify_fold rt cv proof ≠ Panic.
Proof.
  revert cv. induction proof as [|st proof IH]; intros cv Hne; [done|]. cbn [verify_fold].
  destruct (sibling_is_left st); destruct proof; try apply ensure_not_panic; by apply IH.
Qed.

Lemma verify_no_panic rt n i bytes proof : verify_chunk rt n i bytes proof ≠ Panic.
Proof.
  unfold verify_chunk, ensure. repeat case_match; cbn [mbind result_bind]; try done;
    match goal with H : negb (bool_decide (_ = [])) = true |- _ =>
      apply negb_true_iff, bool_decide_eq_false_1 in H; by apply verify_fold_no_panic end.
Qed.

Lemma session_mark d0 a i :
  session_ok d0 a → session_ok d0 (mark_verified (count_call a) i).
Proof.
  intros []. split; try done. unfold bitmap_ok, mark_verified, len in *. cbn [verified set_bitmap count_call].
  by rewrite length_alter.
Qed.

(** The gate, on every branch. *)
Lemma fault_page_cases d0 a live i :
  session_ok d0 a → len live = len d0 → i < pages a →
  (bit a i = true ∧ fault_page live i a = (Ok None, a)) ∨
  (bit a i = false ∧
   fault_page live i a = (Ok (Some (chunk_of live i)), mark_verified (count_call a) i) ∧
   attested d0 (outboard a) live i) ∨
  (bit a i = false ∧ chunk_of live i ≠ chunk_of d0 i ∧
   ∃ e, fault_page live i a = (Err (PageRefused e), count_failure (count_call a))).
Proof.
  intros Hs Hl Hi. pose proof Hs as [Elen Hu Hroot Hob Hbm].
  unfold fault_page. rewrite (proj2 (N.ltb_lt _ _) Hi). cbn [negb].
  rewrite is_verified_bit by done. destruct (bit a i) eqn:Hbit; [by left|right].
  rewrite (page_slice d0 a live i) by done. pose proof Hi as Hi'. rewrite (pages_nch d0 a Hs) in Hi'.
  assert (va_root a = blake3 d0) as Hr.
  { destruct Hroot as [E|]; [|done]. unfold nch in Hi'. rewrite E in Hi'. change (div_ceil 0 CHUNK_LEN) with 0 in Hi'. lia. }
  destruct (prove_verifies d0 (outboard a) i Hob ltac:(lia)) as (proof & Hp & Hv). rewrite Hp.
  cbn [va_root data_len count_call]. rewrite Hr, Elen.
  destruct (verify_chunk (blake3 d0) (len d0) i (chunk_of live i) proof) as [u|e|] eqn:E.
  - left. destruct u. split_and!; [done..|]. destruct (verify_sound _ _ _ _ E); [by left|right].
    by exists proof.
  - right. split; [done|]. split; [|by exists e]. intros Heq. rewrite Heq in E. congruence.
  - by apply verify_no_panic in E.
Qed.

(** *** The first pass *)

Definition snapshot_of (snaps : list (N * list byte)) (i : N) : option (list byte) :=
  (λ x, snd (snd x)) <$> list_find (λ x, fst x = i) snaps.

Lemma snapshot_of_nil i : snapshot_of [] i = None.
Proof. done. Qed.

Lemma snapshot_of_cons j s snaps i :
  snapshot_of ((j, s) :: snaps) i = if decide (j = i) then Some s else snapshot_of snaps i.
Proof.
  unfold snapshot_of. cbn [list_find fst]. destruct (decide (j = i)); [done|].
  destruct (list_find _ snaps) as [[k x]|]; done.
Qed.

Lemma fault_pages_spec d0 live idx a r a' :
  session_ok d0 a → (∀ i, len (live i) = len d0) → NoDup idx → (∀ i, i ∈ idx → i < pages a) →
  fault_pages live idx a = (r, a') →
  session_ok d0 a' ∧ outboard a' = outboard a ∧ (∀ i, i ∉ idx → bit a' i = bit a i) ∧
  (∀ i, bit a' i = true → bit a i = true ∨ attested d0 (outboard a) (live i) i) ∧
  match r with
  | Ok snaps =>
      (∀ i, i ∉ idx → snapshot_of snaps i = None) ∧
      ∀ i, i ∈ idx → bit a' i = true ∧
        if bit a i then snapshot_of snaps i = None
        else snapshot_of snaps i = Some (chunk_of (live i) i) ∧
             attested d0 (outboard a) (live i) i
  | Err _ => ∃ i, i ∈ idx ∧ chunk_of (live i) i ≠ chunk_of d0 i
  | Panic => False
  end.
Proof.
  intros Hs Hl. revert a r Hs. induction idx as [|i idx IH]; intros a r Hs Hn Hi Hf.
  { simpl in Hf. simplify_eq. split_and!; [done|done|done|by left|done|]. by intros i ?%elem_of_nil. }
  apply NoDup_cons in Hn as [Hni Hn]. cbn [fault_pages] in Hf.
  destruct (fault_page_cases d0 a (live i) i Hs (Hl i) (Hi i ltac:(by left)))
    as [[Hb E]|[(Hb & E & Hv)|(Hb & Hne & e & E)]]; rewrite E in Hf.
  - destruct (fault_pages live idx a) as [r1 a1] eqn:E1. simplify_eq.
    destruct (IH a r1 Hs Hn) as (Hs1 & Ho1 & Hout & Hearn & Hr); [intros; apply Hi; by right|done|].
    split_and!; [done|done|intros; apply Hout; set_solver|done|].
    destruct r1 as [snaps|e|]; simpl; [|naive_solver set_solver|done].
    destruct Hr as [Hnone Hin]. split; [intros; apply Hnone; set_solver|].
    intros j [->|Hj]%elem_of_cons; [|by apply Hin]. rewrite Hb, Hout by done. auto.
  - destruct (fault_pages live idx _) as [r1 a1] eqn:E1. simplify_eq.
    pose proof (session_mark d0 a i Hs) as Hsm.
    destruct (IH _ r1 Hsm Hn) as (Hs1 & Ho1 & Hout & Hearn & Hr); [intros; apply Hi; by right|done|].
    assert (∀ j, bit (mark_verified (count_call a) i) j = bit a j || (j =? i)) as Hbm.
    { intros j. apply (bit_mark (count_call a) i j); [apply Hs|]. apply Hi. by left. }
    split_and!; [done|done| | |].
    { intros j Hj. rewrite Hout by set_solver. rewrite Hbm, (proj2 (N.eqb_neq j i)) by set_solver.
      apply orb_false_r. }
    { intros j Hj. destruct (Hearn j Hj) as [Hj'|]; [|by right].
      rewrite Hbm in Hj'. apply orb_true_iff in Hj' as [| ->%N.eqb_eq]; auto. }
    destruct r1 as [snaps|e|]; simpl; [|naive_solver set_solver|done].
    destruct Hr as [Hnone Hin]. split.
    + intros j Hj. rewrite snapshot_of_cons, decide_False by set_solver. apply Hnone. set_solver.
    + intros j [->|Hj]%elem_of_cons.
      * rewrite Hb, snapshot_of_cons, decide_True by done.
        split; [rewrite Hout, Hbm, N.eqb_refl by done; apply orb_true_r|done].
      * assert (j ≠ i) as Hji by set_solver. rewrite snapshot_of_cons, decide_False by done.
        specialize (Hin j Hj). rewrite Hbm, (proj2 (N.eqb_neq j i)), orb_false_r in Hin by done. done.
  - simplify_eq. split_and!; [by destruct Hs|done|done|by left|]. exists i. split; [by left|done].
Qed.

(** *** The second pass *)

(** Page contents that fit the payload assemble into one. *)
Lemma assemble_pages L (f : N → list byte) :
  (∀ i, i < div_ceil L CHUNK_LEN → len (f i) = N.min CHUNK_LEN (L - i * CHUNK_LEN)) →
  ∃ dv, len dv = L ∧ ∀ i, i < div_ceil L CHUNK_LEN → chunk_of dv i = f i.
Proof.
  intros Hf. set (n := div_ceil L CHUNK_LEN) in *.
  pose proof (div_ceil_bounds L) as [Hb1 Hb2]. fold n in Hb1, Hb2.
  assert (∀ m, m ≤ n → ∃ dv, len dv = N.min L (m * CHUNK_LEN) ∧ ∀ i, i < m → chunk_of dv i = f i) as Hm.
  { induction m as [|m IH] using N.peano_ind; intros Hm.
    - exists []. split; [rewrite len_nil; lia|lia].
    - destruct IH as (dv & Hl & Hc); [lia|]. exists (dv ++ f m). specialize (Hf m ltac:(lia)).
      assert (len dv = m * CHUNK_LEN) as Hl' by (unfold CHUNK_LEN in *; lia). split.
      + rewrite len_app, Hf, Hl. unfold CHUNK_LEN in *. lia.
      + intros i Hi. destruct (decide (i = m)) as [->|Hne].
        * unfold chunk_of, slice. rewrite dropN_app_r, Hl', N.sub_diag, dropN_0 by lia.
          apply takeN_ge. rewrite Hf. lia.
        * rewrite <- (Hc i) by lia. unfold chunk_of.
          rewrite <- (slice_takeN _ _ (m * CHUNK_LEN) (dv ++ f m)) by (unfold CHUNK_LEN; lia).
          by rewrite <- Hl', takeN_app_len. }
  destruct (Hm n ltac:(lia)) as (dv & Hl & Hc). exists dv. split; [lia|done].
Qed.

Lemma splice_append (done_ piece buf : list byte) n :
  len done_ = n → n + len piece ≤ len buf →
  splice n piece (done_ ++ dropN n buf) = (done_ ++ piece) ++ dropN (n + len piece) buf.
Proof.
  intros <- Hl. unfold splice. rewrite takeN_app_len, dropN_app_r by lia.
  rewrite dropN_dropN, <- app_assoc. do 3 f_equal. lia.
Qed.

Lemma range_cons lo hi : lo < hi → range lo hi = lo :: range (lo + 1) hi.
Proof.
  intros Hlt. unfold range. replace (N.to_nat (hi - lo)) with (S (N.to_nat (hi - (lo + 1)))) by lia.
  cbn [seq]. rewrite fmap_cons, N.add_0_r. f_equal. rewrite <- fmap_S_seq, <- list_fmap_compose.
  apply list_fmap_ext. intros i x _. simpl. lia.
Qed.

(** How far into the payload the copy is before page [j]. *)
Definition copied (offset stop j : N) : N := N.max offset (N.min stop (j * CHUNK_LEN)).

Lemma copy_pages_ok a live snaps offset stop dv buf m j :
  data_len a = len dv → offset < stop → stop ≤ len dv → stop - offset ≤ len buf →
  (∀ i, offset / CHUNK_LEN ≤ i → i ≤ (stop - 1) / CHUNK_LEN →
     match snapshot_of snaps i with
     | Some s => s = chunk_of dv i
     | None => slice_checked (E := verified_error) (page_start i) (page_stop a i) (live i) = Ok (chunk_of dv i)
     end) →
  offset / CHUNK_LEN ≤ j → j + N.of_nat m = (stop - 1) / CHUNK_LEN + 1 →
  copy_pages a live snaps offset stop (range j ((stop - 1) / CHUNK_LEN + 1))
    (slice offset (copied offset stop j) dv ++ dropN (copied offset stop j - offset) buf)
  = Ok (slice offset stop dv ++ dropN (stop - offset) buf).
Proof.
  intros Hlen Hos Hsd Hbuf Hpages. pose proof (chunk_floor (stop - 1)) as [Hl1 Hl2].
  pose proof (chunk_floor offset) as [Ho1 Ho2]. set (L := (stop - 1) / CHUNK_LEN) in *.
  revert j. induction m as [|m IH]; intros j Hj Hm.
  { replace j with (L + 1) by lia. unfold range at 1. rewrite N.sub_diag. cbn [N.to_nat seq fmap list_fmap copy_pages].
    replace (copied offset stop (L + 1)) with stop by (unfold copied, CHUNK_LEN in *; lia). done. }
  assert (j ≤ L) as HjL by lia. rewrite range_cons by lia. cbn [copy_pages].
  set (lo := N.max (page_start j) offset). set (hi := N.min (page_stop a j) stop).
  assert (copied offset stop j = lo) as Elo
    by (unfold copied, lo, page_start, CHUNK_LEN in *; lia).
  assert (copied offset stop (j + 1) = hi) as Ehi.
  { unfold copied, hi, page_stop, page_start. rewrite Hlen. unfold CHUNK_LEN in *. lia. }
  assert (lo ≤ hi ∧ hi ≤ stop ∧ page_start j ≤ lo ∧ hi ≤ page_start j + CHUNK_LEN ∧ offset ≤ lo)
    as (H1 & H2 & H3 & H4 & H5).
  { unfold lo, hi, page_stop, page_start. rewrite Hlen. unfold CHUNK_LEN in *. lia. }
  specialize (Hpages j Hj HjL).
  assert ((match list_find (λ x, fst x = j) snaps with
           | Some (_, (_, s)) => Ok s
           | None => slice_checked (page_start j) (page_stop a j) (live j)
           end : result verified_error (list byte)) = Ok (chunk_of dv j)) as ->.
  { unfold snapshot_of in Hpages. destruct (list_find _ snaps) as [[k [x y]]|]; simpl in Hpages; by subst. }
  cbn [mbind result_bind].
  assert (len (chunk_of dv j) = N.min CHUNK_LEN (len dv - j * CHUNK_LEN)) as Hcl.
  { unfold chunk_of, slice. rewrite len_takeN, len_dropN. f_equal. lia. }
  rewrite slice_checked_ok; [|lia|rewrite Hcl; unfold page_start in *; lia]. cbn [mbind result_bind].
  assert (slice (lo - page_start j) (hi - page_start j) (chunk_of dv j) = slice lo hi dv) as ->.
  { unfold chunk_of. rewrite slice_slice by (unfold page_start in *; lia).
    unfold page_start in *. f_equal; lia. }
  rewrite Elo. assert (len (slice offset lo dv) = lo - offset) as Hls by (rewrite len_slice; lia).
  assert (len (slice lo hi dv) = hi - lo) as Hlp by (rewrite len_slice; lia).
  unfold assert_. rewrite (proj2 (N.leb_le _ _)) by (rewrite len_app, Hls, len_dropN; lia).
  cbn [mbind result_bind]. rewrite splice_append by lia. rewrite slice_app, Hlp by lia.
  replace (lo - offset + (hi - lo)) with (hi - offset) by lia. rewrite <- Ehi. apply IH; lia.
Qed.

(** ** Properties *)

Lemma first_pages_in d0 a offset stop i :
  session_ok d0 a → offset < stop → stop ≤ len d0 →
  i ∈ range (offset / CHUNK_LEN) ((stop - 1) / CHUNK_LEN + 1) → i < pages a.
Proof.
  intros Hs Ho Hst [_ Hi]%elem_of_range. rewrite (pages_nch d0 a Hs). unfold nch.
  pose proof (div_ceil_gt (stop - 1) (len d0) CHUNK_LEN ltac:(done)). lia.
Qed.

Lemma NoDup_range lo hi : NoDup (range lo hi).
Proof. unfold range. apply NoDup_fmap_2; [intros x y E; lia|apply NoDup_seq]. Qed.

(** The payload as a read serves it: pages already verified from the mapping of
    the second pass, the pages [R] the read faults from that of the first. *)
Lemma served_view d0 a (live1 live2 : N → list byte) (R : list N) :
  data_len a = len d0 → (∀ i, len (live1 i) = len d0) → (∀ i, len (live2 i) = len d0) →
  ∃ dv, len dv = len d0 ∧ ∀ i, i < pages a →
    chunk_of dv i = if bit a i then chunk_of (live2 i) i
                    else if decide (i ∈ R) then chunk_of (live1 i) i else chunk_of d0 i.
Proof.
  intros Elen Hl1 Hl2. unfold pages. rewrite Elen. apply assemble_pages. intros i Hi.
  assert (∀ l, len l = len d0 → len (chunk_of l i) = N.min CHUNK_LEN (len d0 - i * CHUNK_LEN)) as Hc.
  { intros l <-. unfold chunk_of, slice. rewrite len_takeN, len_dropN. f_equal. lia. }
  destruct (bit a i); [|case_decide]; by apply Hc.
Qed.

(** The second pass assembles that view. *)
Lemma second_pass d0 a a1 live1 live2 snaps offset stop dv buf :
  session_ok d0 a → session_ok d0 a1 → (∀ i, len (live2 i) = len d0) → len dv = len d0 →
  offset < stop → stop ≤ len d0 → stop - offset ≤ len buf →
  let R := range (offset / CHUNK_LEN) ((stop - 1) / CHUNK_LEN + 1) in
  (∀ i, i ∈ R → if bit a i then snapshot_of snaps i = None
                else snapshot_of snaps i = Some (chunk_of (live1 i) i)) →
  (∀ i, i < pages a →
    chunk_of dv i = if bit a i then chunk_of (live2 i) i
                    else if decide (i ∈ R) then chunk_of (live1 i) i else chunk_of d0 i) →
  copy_pages a1 live2 snaps offset stop R buf
  = Ok (slice offset stop dv ++ dropN (stop - offset) buf).
Proof.
  intros Hs Hs1 Hl2 Hdv Hos Hsd Hbuf R Hin Hpages.
  assert (∀ i, i ∈ R → i < pages a) as HR by (intros i Hi; by eapply first_pages_in).
  assert (offset / CHUNK_LEN ≤ (stop - 1) / CHUNK_LEN) by (apply N.Div0.div_le_mono; lia).
  pose proof (chunk_floor offset) as [Hf1 _].
  rewrite <- (copy_pages_ok a1 live2 snaps offset stop dv buf
    (N.to_nat ((stop - 1) / CHUNK_LEN + 1 - offset / CHUNK_LEN)) (offset / CHUNK_LEN));
    [|by rewrite (so_len _ _ Hs1)|done|lia|done| |lia|lia].
  - f_equal. replace (copied offset stop (offset / CHUNK_LEN)) with offset by (unfold copied; lia).
    by rewrite slice_empty, N.sub_diag.
  - intros i Hi1 Hi2. assert (i ∈ R) as Hir by (apply elem_of_range; lia).
    specialize (Hin i Hir). rewrite (Hpages i (HR i Hir)). destruct (bit a i) eqn:Hb'; rewrite Hin.
    + apply (page_slice d0); [done|done|].
      rewrite (pages_nch d0 a1 Hs1), <- (pages_nch d0 a Hs). by apply HR.
    + by rewrite decide_True.
Qed.

Lemma read_at_spec d0 a live1 live2 offset buf r buf' a' :
  session_ok d0 a → (∀ i, len (live1 i) = len d0) → (∀ i, len (live2 i) = len d0) →
  read_at live1 live2 offset buf a = (r, buf', a') →
  session_ok d0 a' ∧ outboard a' = outboard a ∧
  (∀ i, bit a' i = true → bit a i = true ∨ attested d0 (outboard a) (live1 i) i) ∧
  match r with
  | Ok n => n = N.min (len buf) (len d0 - offset) ∧
      ((∃ i, i < pages a ∧ bit a i = false ∧ chunk_of (live1 i) i ≠ chunk_of d0 i ∧
             page_forged d0 (outboard a) (live1 i) i) ∨
       ∃ dv, len dv = len d0 ∧ buf' = slice offset (offset + n) dv ++ dropN n buf ∧
         ∀ i, i < pages a → chunk_of dv i = if bit a i then chunk_of (live2 i) i else chunk_of d0 i)
  | Err _ => buf' = buf ∧ ∃ i, i < pages a ∧ chunk_of (live1 i) i ≠ chunk_of d0 i
  | Panic => False
  end.
Proof.
  intros Hs Hl1 Hl2 Hr. pose proof Hs as [Elen Hu _ _ _]. unfold read_at in Hr. rewrite Elen in Hr.
  destruct ((len d0 <=? offset) || bool_decide (buf = [])) eqn:Hedge.
  { destruct (served_view d0 a live1 live2 [] Elen Hl1 Hl2) as (dv & Hdv & Hpages).
    simplify_eq. do 2 (split; [done|]). split; [by left|]. split.
    { apply orb_true_iff in Hedge as [?%N.leb_le | ->%bool_decide_eq_true_1]; [lia|unfold len; simpl; lia]. }
    right. exists dv. split_and!; [done| |].
    - unfold slice. by replace (offset + 0 - offset) with 0 by lia.
    - intros i Hi. rewrite Hpages, decide_False by (done || set_solver). done. }
  apply orb_false_iff in Hedge as [Ho%N.leb_gt Hb%bool_decide_eq_false_1].
  assert (0 < len buf) as Hbl by (destruct buf; [done|rewrite len_cons; lia]).
  replace (N.min (sat_add offset (len buf)) (len d0)) with (N.min (offset + len buf) (len d0)) in Hr
    by (unfold sat_add; lia).
  set (stop := N.min (offset + len buf) (len d0)) in *.
  assert (offset < stop ∧ stop ≤ len d0) as [Hos Hsd] by (unfold stop; lia).
  set (R := range (offset / CHUNK_LEN) ((stop - 1) / CHUNK_LEN + 1)) in *.
  assert (∀ i, i ∈ R → i < pages a) as HR by (intros i Hi; by eapply first_pages_in).
  destruct (fault_pages live1 R a) as [r1 a1] eqn:Ef.
  destruct (fault_pages_spec d0 live1 R a r1 a1 Hs Hl1 (NoDup_range _ _) HR Ef)
    as (Hs1 & Ho1 & Hout & Hearn & Hcase).
  destruct r1 as [snaps|e|]; [|simplify_eq; split_and!; [done|done|done|done|naive_solver]|done].
  destruct Hcase as [Hnone Hin]. destruct (served_view d0 a live1 live2 R Elen Hl1 Hl2) as (dv & Hdv & Hpages).
  unfold R in Hr, Hin, Hpages. rewrite (second_pass d0 a a1 live1 live2 snaps offset stop dv buf) in Hr;
    [|done|done|done|done|done|done|unfold stop; lia| |done].
  2:{ intros i Hi. specialize (Hin i Hi) as [_ Hi']. destruct (bit a i); [done|apply Hi']. }
  fold R in Hr, Hin, Hpages.
  simplify_eq. split_and!; [done|done|done|unfold stop; lia|].
  destruct (decide (Forall (λ i, bit a i = true ∨ chunk_of (live1 i) i = chunk_of d0 i) R)) as [Hall|Hno].
  - right. exists dv. split_and!; [done|by replace (offset + (stop - offset)) with stop by lia|].
    intros i Hi. rewrite (Hpages i Hi). destruct (bit a i) eqn:Hb'; [done|]. case_decide as Hir; [|done].
    rewrite Forall_forall in Hall. destruct (Hall i Hir); [congruence|done].
  - left. apply not_Forall_Exists in Hno; [|intros ?; apply _].
    apply Exists_exists in Hno as (i & Hir & Hne). assert (bit a i ≠ true ∧ chunk_of (live1 i) i ≠ chunk_of d0 i) as [Hb1 Hne'] by naive_solver.
    destruct (Hin i Hir) as [_ Hi]. apply not_true_is_false in Hb1. rewrite Hb1 in Hi.
    destruct Hi as [_ [Heq|Hforge]]; [done|]. exists i. auto.
Qed.

(** *** Histories of a session *)

Inductive op :=
| OpRead (live1 live2 : N → list byte) (offset : N) (buf : list byte)
| OpVerify (live : list byte) (index : N).

Definition step (o : op) (a : VerifiedArena) : VerifiedArena :=
  match o with
  | OpRead live1 live2 offset buf => snd (read_at live1 live2 offset buf a)
  | OpVerify live index => snd (verify_page live index a)
  end.
Definition run (ops : list op) (a : VerifiedArena) : VerifiedArena := foldl (λ a o, step o a) a ops.

(** The payload as [o] found it when it faulted page [i]. *)
Definition saw (o : op) (i : N) : list byte :=
  match o with OpRead live1 _ _ _ => live1 i | OpVerify live _ => live end.

(** The mapping keeps its length: arenas are only rewritten in place. *)
Definition mapped (n : N) (o : op) : Prop :=
  match o with
  | OpRead live1 live2 _ _ => ∀ i, len (live1 i) = n ∧ len (live2 i) = n
  | OpVerify live _ => len live = n
  end.

Lemma fault_page_out live i a : pages a ≤ i → fault_page live i a = (Err PageOutOfRange, a).
Proof. intros Hi. unfold fault_page. by rewrite (proj2 (N.ltb_ge _ _) Hi). Qed.

Lemma step_spec d0 o a :
  session_ok d0 a → mapped (len d0) o →
  session_ok d0 (step o a) ∧ outboard (step o a) = outboard a ∧
  ∀ i, bit (step o a) i = true → bit a i = true ∨ attested d0 (outboard a) (saw o i) i.
Proof.
  intros Hs Hm. destruct o as [live1 live2 off buf|live j]; simpl in Hm |- *.
  - destruct (read_at live1 live2 off buf a) as [[r b] a'] eqn:E. simpl.
    destruct (read_at_spec d0 a live1 live2 off buf r b a') as (? & ? & ? & _); try done; apply Hm.
  - unfold verify_page. destruct (N.lt_ge_cases j (pages a)) as [Hj|Hj];
      [|rewrite fault_page_out by done; by auto].
    destruct (fault_page_cases d0 a live j Hs Hm Hj) as [[Hb E]|[(Hb & E & Hv)|(Hb & Hne & e & E)]];
      rewrite E; simpl; [by auto| |split_and!; [by destruct Hs|done|by auto]].
    split_and!; [by apply session_mark|done|]. intros i Hi.
    pose proof (bit_mark (count_call a) j i (so_bitmap _ _ Hs) Hj) as Hbm. rewrite Hbm in Hi.
    apply orb_true_iff in Hi as [| ->%N.eqb_eq]; auto.
Qed.

Lemma run_spec d0 ops a :
  session_ok d0 a → Forall (mapped (len d0)) ops →
  session_ok d0 (run ops a) ∧ outboard (run ops a) = outboard a ∧
  ∀ i, bit (run ops a) i = true →
    bit a i = true ∨ ∃ o, o ∈ ops ∧ attested d0 (outboard a) (saw o i) i.
Proof.
  revert a. induction ops as [|o ops IH]; intros a Hs Hm; simpl; [by auto|].
  inversion Hm as [|?? Ho Hm']; subst. destruct (step_spec d0 o a Hs Ho) as (Hs1 & Ho1 & Hb1).
  destruct (IH (step o a) Hs1 Hm') as (Hs2 & Ho2 & Hb2). rewrite Ho1 in *.
  split_and!; [done|done|]. intros i Hi. destruct (Hb2 i Hi) as [Hi1|(o' & Ho' & Ha)].
  - destruct (Hb1 i Hi1); [by left|right; exists o; split; [by left|done]].
  - right. exists o'. split; [by right|done].
Qed.

(** *** Opening *)

Definition zero_root : list byte := as_bytes Hash_ZERO.

Definition open_admits (payload root_bytes : list byte) : Prop :=
  if bool_decide (root_bytes = zero_root) then payload = [] else root_bytes = as_bytes (blake3 payload).

Lemma session_fresh d0 off rt ob :
  len d0 ≤ u64_max → (len d0 = 0 ∨ rt = blake3 d0) → outboard_ok d0 ob →
  let a := {| data_offset := off; data_len := len d0; va_root := rt; outboard := ob;
              verified := replicate (N.to_nat (div_ceil (div_ceil (len d0) CHUNK_LEN) 64)) 0;
              verify_calls := 0; verify_failures := 0 |} in
  session_ok d0 a ∧ ∀ i, bit a i = false.
Proof.
  intros Hu Hr Hob a. split.
  - split; try done. unfold bitmap_ok, pages, a, len. simpl. rewrite length_replicate. unfold len. lia.
  - intros i. unfold bit, a. cbn [verified]. destruct (replicate _ _ !! _) as [w|] eqn:E; [|done].
    apply lookup_replicate in E as [-> _]. done.
Qed.

(** Everything [open] can answer on a mapped file of at least a header. *)
Lemma open_spec file rb :
  HEADER_BYTES ≤ len file → len file ≤ u64_max → len rb = 32 →
  match VerifiedArena_open file rb with
  | Ok a => ∃ payload, arena_image file = Some payload ∧ open_admits payload rb ∧
              session_ok payload a ∧ ∀ i, bit a i = false
  | Err e => match arena_image file with
             | None => True
             | Some payload => ¬ open_admits payload rb
             end
  | Panic => False
  end.
Proof.
  intros Hf Hu Hrb. unfold VerifiedArena_open, arena_image, open_admits, zero_root.
  rewrite slice_checked_ok by (unfold HEADER_BYTES in *; lia). cbn [mbind result_bind].
  rewrite (proj2 (N.leb_le _ _) Hf). cbn [negb]. rewrite <- takeN_header_slice.
  set (h := header_of_bytes (takeN HEADER_BYTES file)).
  destruct (validate_header h (len file)) as [off|e|] eqn:Ev; cbn [mbind result_bind];
    [|done|by unfold validate_header in Ev; repeat case_match].
  apply validate_header_Ok in Ev as (_ & _ & Hact & Hsz & Hoff).
  destruct (N.leb_spec (data_size h) (buffer_size (len file))) as [Hfit|Hfit];
    cbn [ensure mbind result_bind]; [|done].
  assert (off + data_size h ≤ len file) as Hin.
  { pose proof (buffer_size_twice (len file) Hsz). assert (active_buffer h * buffer_size (len file) ≤ 1 * buffer_size (len file)) by (by apply N.mul_le_mono_r). lia. }
  set (payload := slice off (off + data_size h) file).
  assert (len payload = data_size h) as Hpl by (unfold payload; rewrite len_slice by done; lia).
  destruct (build_ok payload) as (ob & Hb & Hob); [lia|].
  destruct (Hash_try_from rb) as [rt|] eqn:Ert.
  2:{ exfalso. unfold Hash_try_from in Ert. case_decide; [done|]. unfold len in Hrb. lia. }
  pose proof (Hash_try_from_Some _ _ Ert) as Hrt. destruct (root_ok payload ob Hob) as [Hroot _].
  fold payload. rewrite slice_checked_ok by lia. fold payload.
  destruct (bool_decide_reflect (rb = as_bytes Hash_ZERO)) as [Hz|Hz].
  - destruct (N.ltb_spec 0 (data_size h)) as [Hn|Hn]; cbn [andb negb ensure mbind result_bind].
    { intros Hp. rewrite Hp, len_nil in Hpl. lia. }
    rewrite Hb. cbn [mbind result_bind orb ensure mret result_ret]. exists payload.
    rewrite <- Hpl. destruct (session_fresh payload off rt ob) as [Hs Hbits]; [lia|left; lia|done|].
    split_and!; [done| |done|done]. apply nil_length_inv. unfold len in *. lia.
  - rewrite andb_false_r. cbn [negb ensure mbind result_bind]. rewrite Hb. cbn [mbind result_bind orb].
    rewrite Hroot. destruct (bool_decide_reflect (blake3 payload = rt)) as [<-|Hne];
      cbn [ensure mbind result_bind mret result_ret].
    + exists payload. rewrite <- Hpl.
      destruct (session_fresh payload off (blake3 payload) ob) as [Hs Hbits]; [lia|by right|done|].
      by split_and!.
    + intros E. apply Hne, as_bytes_inj. by rewrite Hrt.
Qed.

(** *** An untampered mapping *)

Definition untampered (d0 : list byte) (live : N → list byte) : Prop := ∀ i, live i = d0.

Lemma fault_pages_known d0 live idx a :
  session_ok d0 a → (∀ i, i ∈ idx → i < pages a) → (∀ i, i ∈ idx → bit a i = true) →
  fault_pages live idx a = (Ok [], a).
Proof.
  intros Hs Hi Hb. induction idx as [|i idx IH]; [done|]. cbn [fault_pages]. unfold fault_page.
  rewrite (proj2 (N.ltb_lt _ _) (Hi i ltac:(by left))). cbn [negb].
  rewrite (is_verified_bit a i (so_bitmap _ _ Hs) (Hi i ltac:(by left))).
  rewrite (Hb i ltac:(by left)), IH; [done|..]; intros; [apply Hi|apply Hb]; by right.
Qed.

Lemma chunks_determine (d1 d2 : list byte) :
  len d1 = len d2 → (∀ i, i < nch d2 → chunk_of d1 i = chunk_of d2 i) → d1 = d2.
Proof.
  intros Hl Hc. pose proof (div_ceil_bounds (len d2)) as [_ Hb]. fold (nch d2) in Hb.
  assert (∀ m, m ≤ nch d2 → takeN (m * CHUNK_LEN) d1 = takeN (m * CHUNK_LEN) d2) as Ht.
  { induction m as [|m IH] using N.peano_ind; intros Hm; [done|].
    assert (∀ d : list byte, takeN (N.succ m * CHUNK_LEN) d
      = takeN (m * CHUNK_LEN) d ++ chunk_of d m) as Hd.
    { intros d. unfold chunk_of, slice. rewrite <- (takeN_dropN (m * CHUNK_LEN) (takeN (N.succ m * CHUNK_LEN) d)).
      rewrite takeN_takeN. f_equal; [f_equal; unfold CHUNK_LEN; lia|].
      rewrite takeN_dropN_comm. do 2 f_equal. unfold CHUNK_LEN; lia. }
    rewrite !Hd, IH, Hc by lia. done. }
  specialize (Ht (nch d2) ltac:(lia)). rewrite !takeN_ge in Ht by lia. done.
Qed.

(** After a successful read every page it touched is verified. *)
Lemma read_again d0 a live1 live2 offset buf n b a' live3 live4 buf2 :
  session_ok d0 a → (∀ i, len (live1 i) = len d0) → len buf2 = len buf → session_ok d0 a' →
  read_at live1 live2 offset buf a = (Ok n, b, a') →
  snd (read_at live3 live4 offset buf2 a') = a'.
Proof.
  intros Hs Hl Hl2 Hs' Hr. pose proof (so_len _ _ Hs) as E. pose proof (so_len _ _ Hs') as E'.
  unfold read_at in Hr |- *. rewrite E in Hr. rewrite E', Hl2.
  destruct ((len d0 <=? offset) || bool_decide (buf2 = [])) eqn:Hedge; [done|].
  apply orb_false_iff in Hedge as [Ho Hb2%bool_decide_eq_false_1]. rewrite Ho in Hr.
  rewrite (bool_decide_eq_false_2 (buf = [])) in Hr by (destruct buf, buf2; done). cbn [orb] in Hr.
  apply N.leb_gt in Ho. assert (0 < len buf) as Hbl by (destruct buf2; [done|rewrite <- Hl2, len_cons; lia]).
  set (stop := N.min (sat_add offset (len buf)) (len d0)) in *.
  assert (offset < stop ∧ stop ≤ len d0) as [Hos Hsd].
  { pose proof (so_bound _ _ Hs). unfold stop, sat_add. lia. }
  set (R := range (offset / CHUNK_LEN) ((stop - 1) / CHUNK_LEN + 1)) in *.
  destruct (fault_pages live1 R a) as [r1 a1] eqn:Ef.
  destruct (fault_pages_spec d0 live1 R a r1 a1 Hs Hl (NoDup_range _ _)) as (_ & _ & _ & _ & Hcase);
    [intros i Hi; by eapply first_pages_in|done|].
  destruct r1 as [snaps|e|]; [|done|done].
  assert (a1 = a') as -> by (destruct (copy_pages _ _ _ _ _ _ _); by simplify_eq).
  rewrite (fault_pages_known d0); [cbv iota beta; by repeat case_match|done| |].
  - intros i Hi. by eapply first_pages_in.
  - intros i Hi. by apply (proj2 Hcase i Hi).
Qed.

(** C10: the verify-on-fault gate.  After any history of reads and page
    checks over a mapping that anyone may rewrite at any moment, [read_at]
    fails only by refusing a page that was tampered with, and then leaves the
    destination untouched; it never panics; and the bytes it serves come, page
    by page, from the payload the root commits to, or from the mapping of a page
    that an earlier call of this session verified (or a page it verified now
    collides under BLAKE3 with the committed one). *)
Theorem verified_reads_are_attested file rb a0 ops live1 live2 offset buf r buf' a' :
  HEADER_BYTES ≤ len file → len file ≤ u64_max → len rb = 32 →
  VerifiedArena_open file rb = Ok a0 →
  ∃ payload, arena_image file = Some payload ∧
    (Forall (mapped (len payload)) (OpRead live1 live2 offset buf :: ops) →
     let a := run ops a0 in
     read_at live1 live2 offset buf a = (r, buf', a') →
     match r with
     | Ok n => n = N.min (len buf) (len payload - offset) ∧
         ((∃ i, i < pages a ∧ bit a i = false ∧ chunk_of (live1 i) i ≠ chunk_of payload i ∧
                page_forged payload (outboard a0) (live1 i) i) ∨
          ∃ served, len served = len payload ∧
            buf' = slice offset (offset + n) served ++ dropN n buf ∧
            ∀ i, i < pages a →
              chunk_of served i = chunk_of payload i ∨
              (chunk_of served i = chunk_of (live2 i) i ∧
               ∃ o, o ∈ ops ∧ attested payload (outboard a0) (saw o i) i))
     | Err _ => buf' = buf ∧ ∃ i, i < pages a ∧ chunk_of (live1 i) i ≠ chunk_of payload i
     | Panic => False
     end).
Proof.
  intros Hf Hu Hrb Ho. pose proof (open_spec file rb Hf Hu Hrb) as Hsp. rewrite Ho in Hsp.
  destruct Hsp as (payload & Him & _ & Hs0 & Hbits). exists payload. split; [done|].
  intros Hm a Hr. inversion Hm as [|?? Hread Hops]; subst.
  destruct (run_spec payload ops a0 Hs0 Hops) as (Hs & Hob & Hearn). fold a in Hs, Hob, Hearn.
  destruct (read_at_spec payload a live1 live2 offset buf r buf' a') as (_ & _ & _ & Hres);
    [done|apply Hread|apply Hread|done|].
  destruct r as [n|e|]; [|done|done]. destruct Hres as [Hn [Hforge|(dv & Hl & Hb & Hp)]].
  { split; [done|left]. by rewrite <- Hob. }
  split; [done|right]. exists dv. split_and!; [done|done|]. intros i Hi. rewrite (Hp i Hi).
  destruct (bit a i) eqn:Hbit; [|by left]. right. split; [done|].
  destruct (Hearn i Hbit) as [Hc|?]; [by rewrite Hbits in Hc|done].
Qed.

(** Over an untampered mapping the gate is transparent.  A read returns
    exactly the requested bytes of the payload and clips at its end, and the
    same range read again leaves the session as it is: no page is hashed twice,
    whatever the mapping has become. *)
Theorem verified_read_transparent d0 a live1 live2 live3 live4 offset buf buf2 :
  session_ok d0 a → untampered d0 live1 → untampered d0 live2 → len buf2 = len buf →
  let n := N.min (len buf) (len d0 - offset) in
  ∃ a', read_at live1 live2 offset buf a
          = (Ok n, slice offset (offset + n) d0 ++ dropN n buf, a') ∧
    session_ok d0 a' ∧ snd (read_at live3 live4 offset buf2 a') = a'.
Proof.
  intros Hs H1 H2 Hl2 n. destruct (read_at live1 live2 offset buf a) as [[r b] a'] eqn:E.
  destruct (read_at_spec d0 a live1 live2 offset buf r b a' Hs) as (Hs' & Hob & _ & Hres);
    [intros i; by rewrite H1|intros i; by rewrite H2|done|].
  destruct r as [m|e|];
    [|destruct Hres as (_ & i & _ & Hne); by rewrite H1 in Hne|done].
  destruct Hres as [-> [(i & _ & _ & Hne & _)|(dv & Hl & -> & Hp)]]; [by rewrite H1 in Hne|].
  fold n. exists a'. rewrite (chunks_determine dv d0 Hl).
  2:{ intros i Hi. rewrite <- (pages_nch d0 a Hs) in Hi. rewrite (Hp i Hi), H2. by destruct (bit a i). }
  split_and!; [done|done|]. eapply read_again; [exact Hs| |exact Hl2|done|exact E]. intros i. by rewrite H1.
Qed.

(** *** The span of a flip *)

Lemma common_prefix_bounds l k : common_prefix l k ≤ len l ∧ common_prefix l k ≤ len k.
Proof.
  revert k. induction l as [|x l IH]; intros [|y k]; cbn [common_prefix]; rewrite ?len_nil, ?len_cons; try lia.
  case_bool_decide; [destruct (IH k); lia|lia].
Qed.

Lemma common_prefix_takeN l k n :
  n ≤ len l → n ≤ len k → takeN n l = takeN n k ↔ n ≤ common_prefix l k.
Proof.
  revert k n. induction l as [|x l IH]; intros [|y k] n; cbn [common_prefix];
    rewrite ?len_nil, ?len_cons; intros Hl Hk; try (split; [lia|by replace n with 0 by lia]).
  destruct (N.eq_0_gt_0_cases n) as [->|Hn]; [split; [lia|done]|].
  unfold takeN. replace (N.to_nat n) with (S (N.to_nat (n - 1))) by lia. cbn [take].
  specialize (IH k (n - 1) ltac:(lia) ltac:(lia)). unfold takeN in IH.
  case_bool_decide as Hxy; [subst; split; [intros [= E]; apply IH in E; lia|intros; f_equal; apply IH; lia]|].
  split; [by intros [= ? _]|lia].
Qed.

Lemma takeN_reverse {A} n (l : list A) : n ≤ len l → takeN n (reverse l) = reverse (dropN (len l - n) l).
Proof.
  intros Hn. rewrite <- (takeN_dropN (len l - n) l) at 1. rewrite reverse_app.
  rewrite takeN_app_l by (unfold len, dropN in *; rewrite length_reverse, length_drop; lia).
  apply takeN_ge. unfold len, dropN in *. rewrite length_reverse, length_drop. lia.
Qed.

(** Bytes after [e] agree exactly when the reversed lists share that prefix. *)
Lemma common_suffix_dropN l k e :
  len l = len k → e ≤ len l →
  dropN e l = dropN e k ↔ len l - e ≤ common_prefix (reverse l) (reverse k).
Proof.
  intros Hl He. assert (∀ j : list byte, len (reverse j) = len j) as Hr
    by (intros; unfold len; by rewrite length_reverse).
  rewrite <- common_prefix_takeN by (rewrite Hr; lia). rewrite !takeN_reverse by lia.
  replace (len l - (len l - e)) with e by lia. replace (len k - (len l - e)) with e by lia.
  split; [by intros ->|]. intros E. by apply (inj reverse) in E.
Qed.

Lemma dirty_span_spec prev next :
  let '(s, e) := dirty_span prev next in
  s ≤ e ∧ e ≤ len next ∧ truthful prev next s e.
Proof.
  unfold dirty_span. pose proof (common_prefix_bounds prev next) as [H1 H2].
  set (p := common_prefix prev next) in *.
  assert (takeN p prev = takeN p next) as Ht by (by apply common_prefix_takeN).
  destruct (N.eqb_spec (len prev) (len next)) as [El|El]; cbn [negb].
  2:{ split_and!; [lia|lia|]. split; [done|]. intros. congruence. }
  set (sf := common_prefix _ _).
  assert (sf ≤ len next - p) as Hs.
  { unfold sf. etransitivity; [apply common_prefix_bounds|]. unfold len, dropN.
    rewrite length_reverse, length_drop. unfold len. lia. }
  split_and!; [lia|lia|]. split; [done|]. intros _.
  assert (dropN (len next - sf - p) (dropN p prev) = dropN (len next - sf - p) (dropN p next)) as E.
  { apply common_suffix_dropN; rewrite ?len_dropN; [lia|lia|]. fold sf. lia. }
  rewrite !dropN_dropN in E. by replace (p + (len next - sf - p)) with (len next - sf) in E by lia.
Qed.

Lemma dirty_span_least prev next s' e' :
  s' ≤ len prev → s' ≤ len next → e' ≤ len next → truthful prev next s' e' →
  s' ≤ fst (dirty_span prev next) ∧
  (len prev = len next → snd (dirty_span prev next) ≤ N.max s' (N.max (fst (dirty_span prev next)) e')).
Proof.
  intros H1 H2 H3 [Ht Hd]. apply common_prefix_takeN in Ht; [|done..].
  unfold dirty_span. destruct (N.eqb_spec (len prev) (len next)) as [El|El]; cbn [negb fst snd];
    (split; [done|]); [|done]. intros _. specialize (Hd El).
  pose proof (common_prefix_bounds prev next) as [Hp1 Hp2]. set (p := common_prefix prev next) in *.
  set (x := N.max p e'). assert (dropN (x - p) (dropN p prev) = dropN (x - p) (dropN p next)) as E.
  { rewrite !dropN_dropN. replace (p + (x - p)) with (e' + (x - e')) by (unfold x; lia).
    rewrite <- !dropN_dropN. by rewrite Hd. }
  apply common_suffix_dropN in E; rewrite ?len_dropN in *; unfold x in *; lia.
Qed.

(** The writer's half.  The span derived from the old and the new bytes
    is in range and truthful, so [Outboard::update] accepts it and its root is
    BLAKE3 of the new payload; and no truthful range starts later or, at equal
    lengths, ends earlier. *)
Theorem dirty_span_feeds_outboard prev next ob :
  outboard_ok prev ob → len next ≤ u64_max →
  let s := fst (dirty_span prev next) in
  let e := snd (dirty_span prev next) in
  (∃ n m ob', update next s e ob = Ok (n, m, ob') ∧ outboard_ok next ob' ∧
     fst (Outboard.root ob') = blake3 next) ∧
  ∀ s' e', s' ≤ len prev → s' ≤ len next → e' ≤ len next → truthful prev next s' e' →
    s' ≤ s ∧ (len prev = len next → e ≤ N.max s e').
Proof.
  intros Hob Hu s e. pose proof (dirty_span_spec prev next) as Hsp.
  destruct (dirty_span prev next) as [s0 e0] eqn:E. destruct Hsp as (H1 & H2 & Ht). simpl in s, e. split.
  - destruct (update_ok prev next ob s0 e0) as (n & m & ob' & Hup & Hok); [done..|].
    exists n, m, ob'. split_and!; [done|done|]. by apply root_ok.
  - intros s' e' Hs1 Hs2 He Ht'. pose proof (dirty_span_least prev next s' e' Hs1 Hs2 He Ht') as [Ha Hb].
    rewrite E in Ha, Hb. simpl in *. split; [done|]. intros El. specialize (Hb El). subst s e. lia.
Qed.

Lemma from_arena_spec file rb :
  HEADER_BYTES ≤ len file →
  from_arena file rb ≠ Panic ∧
  ∀ d, from_arena file rb = Ok d ↔
    arena_image file = Some d ∧ (d = [] ∨ rb ≠ zero_root ∧ rb = as_bytes (blake3 d)).
Proof.
  intros Hf. unfold from_arena, arena_image, zero_root, verify_arena_root.
  rewrite slice_checked_ok by (unfold HEADER_BYTES in *; lia). cbn [mbind result_bind].
  rewrite (proj2 (N.leb_le _ _) Hf). cbn [negb]. rewrite <- takeN_header_slice.
  set (h := header_of_bytes (takeN HEADER_BYTES file)).
  destruct (validate_header h (len file)) as [off|e|] eqn:Ev; cbn [mbind result_bind];
    [|split; [done|by split; [|intros [? _]]]|by unfold validate_header in Ev; repeat case_match].
  apply validate_header_Ok in Ev as (_ & _ & Hact & Hsz & Hoff).
  assert (off + buffer_size (len file) ≤ len file) as Hin.
  { pose proof (buffer_size_twice (len file) Hsz).
    assert (active_buffer h * buffer_size (len file) ≤ 1 * buffer_size (len file)) by (by apply N.mul_le_mono_r). lia. }
  rewrite slice_checked_ok by lia. cbn [mbind result_bind].
  assert (len (slice off (off + buffer_size (len file)) file) = buffer_size (len file)) as Hbl
    by (rewrite len_slice by done; lia).
  rewrite Hbl. destruct (N.leb_spec (data_size h) (buffer_size (len file))) as [Hfit|Hfit];
    cbn [ensure mbind result_bind]; [|split; [done|by split; [|intros [? _]]]].
  rewrite slice_checked_ok by lia. cbn [mbind result_bind]. rewrite slice_slice by lia. rewrite N.add_0_r.
  set (payload := slice off (off + data_size h) file).
  assert (len payload = data_size h) as Hpl by (unfold payload; rewrite len_slice by lia; lia).
  destruct (N.eqb_spec (data_size h) 0) as [Hz|Hz].
  - assert (payload = []) as -> by (apply nil_length_inv; unfold len in Hpl; lia).
    split; [done|]. intros d. split; [intros [= <-]; auto|by intros [[= <-] _]].
  - assert (payload ≠ []) as Hne by (intros E; rewrite E, len_nil in Hpl; lia). unfold content_hash.
    destruct (bool_decide_reflect (rb = as_bytes Hash_ZERO)) as [Hr|Hr]; cbn [negb ensure mbind result_bind];
      [split; [done|]; intros d; split; [done|intros [[= <-] [?|[? _]]]; done]|].
    destruct (bool_decide_reflect (as_bytes (blake3 payload) = rb)) as [<-|He]; cbn [ensure mbind result_bind];
      (split; [done|]); intros d; split; try done; [by intros [= <-]; auto|by intros [[= <-] _]|].
    intros [[= <-] [?|[_ ?]]]; [done|congruence].
Qed.

(** Both load paths are fail-closed and total.  On a mapped file of at
    least a header, [open] accepts exactly when the header validates, the payload
    fits its buffer, and the published root is the payload's hash, the zero root
    standing for an empty payload only; the session starts with no page verified.
    [from_arena] hands out exactly the payload, under the same condition except
    that an empty payload needs no root.  Neither panics. *)
Theorem open_fail_closed file rb :
  HEADER_BYTES ≤ len file → len file ≤ u64_max → len rb = 32 →
  VerifiedArena_open file rb ≠ Panic ∧
  ((∃ a, VerifiedArena_open file rb = Ok a) ↔
   ∃ payload, arena_image file = Some payload ∧ open_admits payload rb) ∧
  (∀ a, VerifiedArena_open file rb = Ok a → ∀ i, i < pages a → is_verified a i = Ok false) ∧
  from_arena file rb ≠ Panic ∧
  (∀ d, from_arena file rb = Ok d ↔
     arena_image file = Some d ∧ (d = [] ∨ rb ≠ zero_root ∧ rb = as_bytes (blake3 d))).
Proof.
  intros Hf Hu Hrb. pose proof (open_spec file rb Hf Hu Hrb) as Hsp.
  destruct (from_arena_spec file rb Hf) as [Hfp Hfo].
  destruct (VerifiedArena_open file rb) as [a|e|]; [|..|done].
  - destruct Hsp as (payload & Him & Had & Hs & Hbits).
    split_and!; [done|split; intros _; by eauto| |done|done].
    intros a' [= <-] i Hi. rewrite is_verified_bit by (apply Hs || done). by rewrite Hbits.
  - split_and!; [done| |done|done|done]. split; [by intros [a ?]|]. intros (payload & Him & Had).
    by rewrite Him in Hsp.
Qed.
End gate.

(** ** A small session *)

#[local] Existing Instances sum_blake3 sum_hazmat sum_laws.

Definition demo_payload : list byte := [x03; x04; x05].
Definition demo_file : list byte :=
  header_to_bytes {| magic := MAGIC; version := VERSION; active_buffer := 1; padding := [x00; x00];
                     sequence := 7; data_size := 3 |}
  ++ replicate (N.to_nat (HEADER_SIZE - HEADER_BYTES)) x00
  ++ replicate 8 x00 ++ demo_payload ++ replicate 5 x00.
Definition demo_root : list byte := as_bytes (blake3 demo_payload).
Definition demo_ops : list op := [OpVerify demo_payload 0].
Definition demo_tampered : N → list byte := λ _, [x09; x09; x09].

Definition demo_session : VerifiedArena :=
  match VerifiedArena_open demo_file demo_root with
  | Ok a => a
  | _ => {| data_offset := 0; data_len := 0; va_root := Hash_ZERO;
            outboard := {| levels := []; ob_len := 0; small_root := None |};
            verified := []; verify_calls := 0; verify_failures := 0 |}
  end.

Lemma demo_opens : VerifiedArena_open demo_file demo_root = Ok demo_session.
Proof. vm_compute. reflexivity. Qed.

(** A page verified by an earlier call is then served as it is mapped. *)
Lemma verified_reads_are_attested_witness :
  ∃ payload n buf', arena_image demo_file = Some payload ∧
    read_at demo_tampered demo_tampered 1 (replicate 4 x00) (run demo_ops demo_session)
      = (Ok n, buf', run demo_ops demo_session) ∧
    n = N.min 4 (len payload - 1).
Proof.
  destruct (verified_reads_are_attested demo_file demo_root demo_session demo_ops demo_tampered
    demo_tampered 1 (replicate 4 x00) (Ok 2) [x09; x09; x00; x00] (run demo_ops demo_session))
    as (payload & Him & Hr); [by vm_compute|by vm_compute|by vm_compute|exact demo_opens|].
  assert (arena_image demo_file = Some demo_payload) as Him' by (vm_compute; reflexivity).
  rewrite Him' in Him. injection Him as <-. exists demo_payload, 2, [x09; x09; x00; x00].
  split; [exact Him'|]. split; [vm_compute; reflexivity|].
  apply Hr; [|vm_compute; reflexivity]. repeat constructor.
Defined.

Lemma demo_session_ok : session_ok demo_payload demo_session.
Proof.
  pose proof (open_spec demo_file demo_root) as Hsp. rewrite demo_opens in Hsp.
  destruct Hsp as (payload & Him & _ & Hs & _); [by vm_compute..|].
  assert (arena_image demo_file = Some demo_payload) as Him' by (vm_compute; reflexivity).
  rewrite Him' in Him. by injection Him as <-.
Qed.

Lemma verified_read_transparent_witness :
  ∃ a', read_at (λ _, demo_payload) (λ _, demo_payload) 1 (replicate 4 x00) demo_session
          = (Ok 2, [x04; x05; x00; x00], a') ∧
    snd (read_at demo_tampered demo_tampered 1 (replicate 4 x07) a') = a'.
Proof.
  destruct (verified_read_transparent demo_payload demo_session (λ _, demo_payload) (λ _, demo_payload)
    demo_tampered demo_tampered 1 (replicate 4 x00) (replicate 4 x07)) as (a' & Hr & _ & Ha);
    [exact demo_session_ok|done|done|done|].
  exists a'. split; [exact Hr|exact Ha].
Defined.

Lemma open_fail_closed_witness :
  VerifiedArena_open demo_file (as_bytes Hash_ZERO) = Err RootMissing ∧
  ¬ (∃ payload, arena_image demo_file = Some payload ∧ open_admits payload (as_bytes Hash_ZERO)).
Proof.
  destruct (open_fail_closed demo_file (as_bytes Hash_ZERO)) as (_ & Hiff & _); [by vm_compute..|].
  assert (VerifiedArena_open demo_file (as_bytes Hash_ZERO) = Err RootMissing) as E
    by (vm_compute; reflexivity).
  split; [exact E|]. rewrite <- Hiff, E. by intros [a ?].
Defined.

Lemma dirty_span_feeds_outboard_witness :
  dirty_span (replicate 20 x01) (splice 5 [x02; x01; x03] (replicate 20 x01)) = (5, 8) ∧
  ∃ ob n m ob', build (replicate 20 x01) = Ok ob ∧
    update (splice 5 [x02; x01; x03] (replicate 20 x01)) 5 8 ob = Ok (n, m, ob').
Proof.
  split; [vm_compute; reflexivity|].
  destruct (build_ok (replicate 20 x01)) as (ob & Hb & Hok); [done|].
  destruct (dirty_span_feeds_outboard (replicate 20 x01) (splice 5 [x02; x01; x03] (replicate 20 x01)) ob Hok)
    as [(n & m & ob' & Hu & _) _]; [by vm_compute|].
  exists ob, n, m, ob'. split; [exact Hb|exact Hu].
Defined.
