(* ===== verification/Text.v ===== *)
(** * Strings and UTF-8

    [String::from_utf8_lossy] and [str::from_utf8] of the Rust standard library, over
    bytes, as the overlay and the merge use them; strings as their bytes,
    integers in decimal, and bytes in hexadecimal. *)

From S2P Require Import Prelude Substrate.
From stdpp Require Import pretty.
From Stdlib Require Import NArith Lia.
Local Open Scope N_scope.

Definition in_range (lo hi : N) (b : byte) : bool := (lo <=? Byte.to_N b) && (Byte.to_N b <=? hi).
Definition continuation (b : byte) : bool := in_range 128 191 b.
(** U+FFFD, which replaces each maximal ill-formed subsequence. *)
Definition replacement : list byte := [xef; xbf; xbd].
(** The second bytes a three- and a four-byte sequence may have. *)
Definition second_of_3 (b0 b1 : byte) : bool :=
  (in_range 224 224 b0 && in_range 160 191 b1) || (in_range 225 236 b0 && continuation b1)
  || (in_range 237 237 b0 && in_range 128 159 b1) || (in_range 238 239 b0 && continuation b1).
Definition second_of_4 (b0 b1 : byte) : bool :=
  (in_range 240 240 b0 && in_range 144 191 b1) || (in_range 241 243 b0 && continuation b1)
  || (in_range 244 244 b0 && in_range 128 143 b1).

Fixpoint utf8_lossy (l : list byte) : list byte :=
  match l with
  | [] => []
  | b0 :: l1 =>
      if in_range 0 127 b0 then b0 :: utf8_lossy l1
      else if in_range 194 223 b0 then
        match l1 with
        | b1 :: l2 => if continuation b1 then b0 :: b1 :: utf8_lossy l2 else replacement ++ utf8_lossy l1
        | [] => replacement
        end
      else if in_range 224 239 b0 then
        match l1 with
        | b1 :: l2 =>
            if second_of_3 b0 b1 then
              match l2 with
              | b2 :: l3 => if continuation b2 then b0 :: b1 :: b2 :: utf8_lossy l3
                            else replacement ++ utf8_lossy l2
              | [] => replacement
              end
            else replacement ++ utf8_lossy l1
        | [] => replacement
        end
      else if in_range 240 244 b0 then
        match l1 with
        | b1 :: l2 =>
            if second_of_4 b0 b1 then
              match l2 with
              | b2 :: l3 =>
                  if continuation b2 then
                    match l3 with
                    | b3 :: l4 => if continuation b3 then b0 :: b1 :: b2 :: b3 :: utf8_lossy l4
                                  else replacement ++ utf8_lossy l3
                    | [] => replacement
                    end
                  else replacement ++ utf8_lossy l2
              | [] => replacement
              end
            else replacement ++ utf8_lossy l1
        | [] => replacement
        end
      else replacement ++ utf8_lossy l1
  end.

(** Well-formed UTF-8. *)
Definition is_utf8 (l : list byte) : Prop := utf8_lossy l = l.
(** [std::str::from_utf8(l).is_ok()]: nothing is replaced. *)
Definition from_utf8_ok (l : list byte) : bool := bool_decide (utf8_lossy l = l).

(** ** Strings as bytes *)

(** [s.as_bytes()], and the string over valid bytes. *)
Definition bytes_of (s : string) : list byte := String.list_byte_of_string s.
Definition string_of (l : list byte) : string := String.string_of_list_byte l.
Lemma string_of_bytes_of s : string_of (bytes_of s) = s.
Proof. apply String.string_of_list_byte_of_string. Qed.
Lemma bytes_of_string_of l : bytes_of (string_of l) = l.
Proof. apply String.list_byte_of_string_of_list_byte. Qed.
Lemma bytes_of_inj s t : bytes_of s = bytes_of t → s = t.
Proof. intros H. by rewrite <- (string_of_bytes_of s), H, string_of_bytes_of. Qed.
Lemma bytes_of_app s t : bytes_of (s +:+ t) = bytes_of s ++ bytes_of t.
Proof. induction s as [| c s IH]; [done |]. change (bytes_of (String c s +:+ t)) with (Ascii.byte_of_ascii c :: bytes_of (s +:+ t)). by rewrite IH. Qed.

(** [n.to_string()] *)
Definition decimal (n : N) : list byte := bytes_of (pretty n).
Lemma decimal_inj n m : decimal n = decimal m → n = m.
Proof. intros H%bytes_of_inj. by apply (inj pretty) in H. Qed.
Definition is_digit (b : byte) : Prop := 48 ≤ Byte.to_N b ≤ 57.
Lemma decimal_digits n : Forall is_digit (decimal n).
Proof.
  unfold decimal, pretty, pretty_N. case_decide as Hz; [constructor; [vm_compute; split; discriminate | constructor] |].
  assert (∀ s, Forall is_digit (bytes_of s) → Forall is_digit (bytes_of (pretty_N_go n s))) as Hgo; [| by apply Hgo].
  clear Hz. induction (N.lt_wf_0 n) as [n _ IH]. intros s Hs. destruct (decide (0 < n)) as [Hn | Hn].
  - rewrite pretty_N_go_step by done. apply IH; [apply N.div_lt; lia |]. constructor; [| done].
    pose proof (N.mod_lt n 10 ltac:(lia)) as Hm. unfold pretty_N_char.
    generalize (n mod 10) Hm. intros d Hd. destruct d as [| d]; [vm_compute; split; discriminate |].
    do 4 (destruct d as [d | d |]; try (vm_compute; split; discriminate); try lia).
  - assert (n = 0) as -> by lia. done.
Qed.

(** ** Hexadecimal *)

(** [hex::decode]: pairs of digits of either case. *)
Definition hex_value (b : byte) : option N :=
  let n := Byte.to_N b in
  if (48 <=? n) && (n <=? 57) then Some (n - 48)
  else if (97 <=? n) && (n <=? 102) then Some (n - 87)
  else if (65 <=? n) && (n <=? 70) then Some (n - 55)
  else None.
Fixpoint hex_decode (l : list byte) : option (list byte) :=
  match l with
  | [] => Some []
  | a :: b :: l =>
      hi ← hex_value a; lo ← hex_value b; rest ← hex_decode l;
      mret (byte_of_N (16 * hi + lo) :: rest)
  | [_] => None
  end.
Lemma hex_decode_bytes l : hex_decode (bytes_of (hex_bytes l)) = Some l.
Proof.
  induction l as [| b l IH]; [done |]. change (hex_bytes (b :: l)) with (hex_byte b +:+ hex_bytes l).
  rewrite bytes_of_app.
  assert (∃ x y, bytes_of (hex_byte b) = [x; y] ∧ (hi ← hex_value x; lo ← hex_value y; Some (byte_of_N (16 * hi + lo))) = Some b)
    as (x & y & -> & Hb) by (do 2 eexists; split; [reflexivity | by destruct b]).
  simpl. destruct (hex_value x) as [hi |]; simpl in *; [| done]. destruct (hex_value y) as [lo |]; simpl in *; [| done].
  injection Hb as ->. by rewrite IH.
Qed.
