(* ===== verification/Sign.v ===== *)
(** * Keys and signatures

    [rs/ll-open/sign/src/root_signer.rs] and [kid.rs]: the substrate's Ed25519 signer
    and the canonical id of a key.  Ed25519 and SHA-256 are parameters. *)

From S2P Require Import Prelude Substrate Text.
From Stdlib Require Import NArith Lia.
Local Open Scope N_scope.

Class Ed25519 := {
  VerifyingKey : Type;
  pk_bytes : VerifyingKey → list byte;
  ed_verify : list byte → list byte → VerifyingKey → bool;
  sha256 : list byte → list byte;
}.

Definition ED25519_SPKI_PREFIX : list byte :=
  [x30; x2a; x30; x05; x06; x03; x2b; x65; x70; x03; x21; x00].
Definition ed25519_spki_der `{Ed25519} (pk : VerifyingKey) : list byte := ED25519_SPKI_PREFIX ++ pk_bytes pk.
Definition canonical_kid `{Ed25519} (pk : VerifyingKey) : list byte :=
  bytes_of (hex_bytes (takeN 16 (sha256 (ed25519_spki_der pk)))).
Definition is_kid_char (b : byte) : bool :=
  let n := Byte.to_N b in ((48 <=? n) && (n <=? 57)) || ((97 <=? n) && (n <=? 102)).
Definition is_canonical_kid_shape (s : list byte) : bool := (len s =? 32) && forallb is_kid_char s.

(** [Ed25519RootSigner::verify] is over the 32 bytes of the digest. *)
Definition verify_digest `{Ed25519} (h : Hash) (sig : list byte) (pk : VerifyingKey) : bool :=
  ed_verify (as_bytes h) sig pk.


(** [Ed25519RootSigner]: a signing key, its public half and its signatures. *)
Class Ed25519Signer `{Ed25519} := {
  SigningKey : Type;
  from_seed : list byte → SigningKey;
  verifying_key : SigningKey → VerifyingKey;
  sign_message : SigningKey → list byte → list byte;
}.
Class Ed25519Laws `{Ed25519Signer} := {
  sign_message_length sk m : length (sign_message sk m) = 64%nat;
  sign_message_verifies sk m : ed_verify m (sign_message sk m) (verifying_key sk) = true;
}.
Definition sign_hash `{Ed25519Signer} (sk : SigningKey) (h : Hash) : list byte := sign_message sk (as_bytes h).

Lemma sign_hash_verifies `{Ed25519Laws} sk h : verify_digest h (sign_hash sk h) (verifying_key sk) = true.
Proof. apply sign_message_verifies. Qed.
