(* ===== verification/Envelope.v ===== *)
(** * Signed statements

    [rs/ll-open/envelope/src/lib.rs]: the DSSE pre-authentication encoding, signatures
    over it, and in-toto statements in signed envelopes.  JSON and base64 are library
    code: classes over the wire structures, with the round trips a serializer has. *)

From S2P Require Import Prelude Substrate Text Sign.
From stdpp Require Import pretty.
From Stdlib Require Import NArith Lia.
Local Open Scope N_scope.

Definition PAYLOAD_TYPE : string := "application/vnd.in-toto+json".
Definition STATEMENT_TYPE : string := "https://in-toto.io/Statement/v1".

(** ** Wire structures *)

Record SignatureWire := { sw_keyid : string; sw_sig : string }.
Record EnvelopeWire := { ew_payload_type : string; ew_payload : string; ew_signatures : list SignatureWire }.
Record SubjectWire := { bw_name : string; bw_digest : gmap string string }.

(** [serde_json] over the two structures, and the [base64] engine; an error is
    its message. *)
Class Wire := {
  JsonValue : Type;
  StatementWire : Type := (string * list SubjectWire * string * JsonValue)%type;
  envelope_to_vec : EnvelopeWire → list byte;
  envelope_from_slice : list byte → result string EnvelopeWire;
  statement_to_vec : StatementWire → list byte;
  statement_from_slice : list byte → result string StatementWire;
  b64_encode : list byte → string;
  b64_decode : string → result string (list byte);
}.
Class WireLaws `{Wire} := {
  envelope_roundtrip w : envelope_from_slice (envelope_to_vec w) = Ok w;
  statement_roundtrip w : statement_from_slice (statement_to_vec w) = Ok w;
  b64_roundtrip l : b64_decode (b64_encode l) = Ok l;
}.

Inductive ParseError :=
| WrongPayloadType (got : string)
| WrongStatementType (got : string)
| NoSignatures
| PayloadEncoding (e : string)
| SignatureEncoding
| Json (e : string).
Inductive VerifyError := VSignatureInvalid | VPayload (e : ParseError).

(** ** Pre-authentication encoding *)

Definition space : byte := x20.
Definition pae (payload_type : string) (payload : list byte) : list byte :=
  bytes_of "DSSEv1 "
  ++ decimal (len (bytes_of payload_type)) ++ [space] ++ bytes_of payload_type ++ [space]
  ++ decimal (len payload) ++ [space] ++ payload.

Section signatures.
Context `{Ed25519}.

Definition sign_payload `{!Ed25519Signer} (payload_type : string) (payload : list byte) (signer : SigningKey) : list byte :=
  sign_message signer (pae payload_type payload).
Definition verify_payload (payload_type : string) (payload sig : list byte) (key : VerifyingKey) : bool :=
  ed_verify (pae payload_type payload) sig key.
End signatures.

(** ** Statements *)

Record Subject := { sub_name : string; sub_digest : gmap string string }.
Definition with_digest (name algorithm digest : string) : Subject :=
  {| sub_name := name; sub_digest := {[ algorithm := digest ]} |}.
Definition sha256_of `{Ed25519} (name : string) (artifact_bytes : list byte) : Subject :=
  with_digest name "sha256" (hex_bytes (sha256 artifact_bytes)).
Definition subject_digest (s : Subject) (algorithm : string) : option string := sub_digest s !! algorithm.
Definition sha256_hex (s : Subject) : option string := subject_digest s "sha256".
Definition subject_from_wire (w : SubjectWire) : Subject := {| sub_name := bw_name w; sub_digest := bw_digest w |}.
Definition subject_to_wire (s : Subject) : SubjectWire := {| bw_name := sub_name s; bw_digest := sub_digest s |}.

Record Statement `{Wire} := { st_subject : list Subject; st_predicate_type : string; st_predicate : JsonValue }.
Record SignatureEntry := { se_keyid : string; se_sig : list byte }.
Record Envelope := { env_payload : list byte; env_signatures : list SignatureEntry }.

Section envelopes.
Context `{Ed25519, Wire}.

Definition statement_to_json_vec (s : Statement) : list byte :=
  statement_to_vec (STATEMENT_TYPE, subject_to_wire <$> st_subject s, st_predicate_type s, st_predicate s).
Definition statement_from_json_slice (bytes : list byte) : result ParseError Statement :=
  '(statement_type, subject, predicate_type, predicate) ← map_err Json (statement_from_slice bytes);
  if negb (bool_decide (statement_type = STATEMENT_TYPE)) then Err (WrongStatementType statement_type)
  else mret {| st_subject := subject_from_wire <$> subject; st_predicate_type := predicate_type; st_predicate := predicate |}.

Definition envelope_sign `{!Ed25519Signer} (statement : Statement) (signer : SigningKey) : Envelope :=
  let payload := statement_to_json_vec statement in
  {| env_payload := payload;
     env_signatures := [{| se_keyid := string_of (canonical_kid (verifying_key signer));
                           se_sig := sign_payload PAYLOAD_TYPE payload signer |}] |}.
Definition envelope_to_json_vec (e : Envelope) : list byte :=
  envelope_to_vec {| ew_payload_type := PAYLOAD_TYPE; ew_payload := b64_encode (env_payload e);
                     ew_signatures := (λ s, {| sw_keyid := se_keyid s; sw_sig := b64_encode (se_sig s) |}) <$> env_signatures e |}.
(** [try_into::<[u8; 64]>] *)
Definition signature_of (w : SignatureWire) : result ParseError SignatureEntry :=
  sig ← map_err (λ _, SignatureEncoding) (b64_decode (sw_sig w));
  if (length sig =? 64)%nat then mret {| se_keyid := sw_keyid w; se_sig := sig |} else Err SignatureEncoding.
Fixpoint collect_results {E A B} (f : A → result E B) (l : list A) : result E (list B) :=
  match l with
  | [] => mret []
  | a :: l => b ← f a; bs ← collect_results f l; mret (b :: bs)
  end.
Definition envelope_from_json_slice (bytes : list byte) : result ParseError Envelope :=
  wire ← map_err Json (envelope_from_slice bytes);
  if negb (bool_decide (ew_payload_type wire = PAYLOAD_TYPE)) then Err (WrongPayloadType (ew_payload_type wire))
  else match ew_signatures wire with
       | [] => Err NoSignatures
       | sigs =>
           payload ← map_err PayloadEncoding (b64_decode (ew_payload wire));
           signatures ← collect_results signature_of sigs;
           mret {| env_payload := payload; env_signatures := signatures |}
       end.
Definition keyids (e : Envelope) : list string := se_keyid <$> env_signatures e.
Definition envelope_verify (e : Envelope) (key : VerifyingKey) : result VerifyError Statement :=
  if existsb (λ s, negb (verify_payload PAYLOAD_TYPE (env_payload e) (se_sig s) key)) (env_signatures e)
  then Err VSignatureInvalid
  else map_err VPayload (statement_from_json_slice (env_payload e)).

(** ** What is signed *)

Lemma digits_then_space (l l' r r' : list byte) :
  Forall is_digit l → Forall is_digit l' → l ++ space :: r = l' ++ space :: r' → l = l' ∧ r = r'.
Proof.
  intros Hl. revert l'. induction Hl as [| b l Hb _ IH]; intros [| b' l'] Hl'; intros Heq; simplify_eq/=; [done | | |].
  - inversion Hl' as [| ? ? Hd]. exfalso. revert Hd. unfold is_digit, space. vm_compute. intros [? ?]. done.
  - exfalso. revert Hb. unfold is_digit, space. vm_compute. intros [? ?]. done.
  - inversion Hl'. destruct (IH l') as [-> ->]; done.
Qed.

(** The encoding a signature covers binds the payload type and the payload: no
    encoding is a prefix of another, so a signature over one record is over no
    other record of any type. *)
Theorem pae_is_prefix_free t b t' b' : pae t b `prefix_of` pae t' b' → t = t' ∧ b = b'.
Proof.
  intros [k Hk]. unfold pae in Hk. rewrite <- !app_assoc in Hk. apply app_inv_head in Hk. cbn [app] in Hk.
  apply digits_then_space in Hk as [Hlt Hk]; [| apply decimal_digits..]. apply decimal_inj in Hlt.
  unfold len in Hlt.
  apply app_inj_1 in Hk as [Ht Hk]; [| lia]. cbn [app] in Hk. injection Hk as Hk.
  apply digits_then_space in Hk as [Hlb Hk]; [| apply decimal_digits..]. apply decimal_inj in Hlb.
  split; [symmetry; by apply bytes_of_inj |]. apply (f_equal length) in Hk as Hk'. rewrite length_app in Hk'. unfold len in Hlb.
  destruct k; [by rewrite app_nil_r in Hk | simpl in Hk'; lia].
Qed.

Lemma statement_json_roundtrip `{!WireLaws} (st : Statement) : statement_from_json_slice (statement_to_json_vec st) = Ok st.
Proof.
  unfold statement_from_json_slice, statement_to_json_vec. rewrite statement_roundtrip. cbn [map_err]. rewrite bind_Ok.
  rewrite bool_decide_true by done. simpl. destruct st as [subs ty pr]. simpl. unfold mret, result_ret. do 2 f_equal.
  rewrite <- list_fmap_compose. rewrite <- (list_fmap_id subs) at 2. apply list_fmap_ext. by intros i [] _.
Qed.
Lemma collect_encoded `{!WireLaws} sigs :
  Forall (λ s, length (se_sig s) = 64%nat) sigs →
  collect_results signature_of ((λ s, {| sw_keyid := se_keyid s; sw_sig := b64_encode (se_sig s) |}) <$> sigs) = Ok sigs.
Proof.
  induction 1 as [| x sigs Hl _ IH]; [done |].
  assert (signature_of {| sw_keyid := se_keyid x; sw_sig := b64_encode (se_sig x) |} = Ok x) as Hx.
  { unfold signature_of. cbn [sw_sig sw_keyid]. rewrite b64_roundtrip. cbn [map_err]. rewrite bind_Ok, Hl. by destruct x. }
  rewrite fmap_cons. cbn [collect_results]. by rewrite Hx, bind_Ok, IH.
Qed.
Lemma envelope_json_roundtrip `{!WireLaws} (e : Envelope) :
  env_signatures e ≠ [] → Forall (λ s, length (se_sig s) = 64%nat) (env_signatures e) →
  envelope_from_json_slice (envelope_to_json_vec e) = Ok e.
Proof.
  intros Hne Hall. unfold envelope_from_json_slice, envelope_to_json_vec. rewrite envelope_roundtrip. cbn [map_err]. rewrite bind_Ok.
  cbn [ew_payload_type ew_signatures ew_payload]. rewrite bool_decide_true by done. cbn [negb].
  pose proof (collect_encoded _ Hall) as Hc. destruct (env_signatures e) as [| s sigs] eqn:Es; [done |]. csimpl in *.
  rewrite b64_roundtrip. cbn [map_err]. rewrite bind_Ok, Hc, bind_Ok. destruct e. simpl in *. by subst.
Qed.

Lemma envelope_verify_ok (e : Envelope) key st :
  envelope_verify e key = Ok st →
  Forall (λ s, ed_verify (pae PAYLOAD_TYPE (env_payload e)) (se_sig s) key = true) (env_signatures e)
  ∧ statement_from_json_slice (env_payload e) = Ok st.
Proof.
  unfold envelope_verify, verify_payload. case_match eqn:Hex; [done |]. intros Hv.
  split; [| by destruct (statement_from_json_slice (env_payload e)); simplify_eq/=].
  apply Forall_forall. intros s Hs. destruct (ed_verify _ _ key) eqn:E; [done |]. rewrite <- Hex.
  apply List.existsb_exists. exists s. split; [by apply list_elem_of_In | by rewrite E].
Qed.
Lemma collect_results_length {E A B} (f : A → result E B) l bs : collect_results f l = Ok bs → length bs = length l.
Proof.
  revert bs. induction l as [| a l IH]; intros bs; cbn [collect_results]; [by intros [= <-] |]. intros Hc. result_inv. subst.
  simpl. f_equal. by apply IH.
Qed.
Lemma collect_results_Forall2 {E A B} (f : A → result E B) l bs : collect_results f l = Ok bs → Forall2 (λ a b, f a = Ok b) l bs.
Proof.
  revert bs. induction l as [| a l IH]; intros bs; cbn [collect_results]; [intros [= <-]; constructor |]. intros Hc. result_inv. subst.
  constructor; [done | by apply IH].
Qed.
Lemma envelope_parsed_signed bytes e : envelope_from_json_slice bytes = Ok e → env_signatures e ≠ [].
Proof.
  unfold envelope_from_json_slice. intros Hp. result_inv. case_match; [done |]. destruct (ew_signatures _) as [| w ws]; [done |].
  result_inv. subst. cbn [env_signatures]. match goal with Hc : collect_results _ _ = Ok _ |- _ => apply collect_results_length in Hc end.
  intros Hn. by rewrite Hn in *.
Qed.

(** A signed statement comes back: the envelope a signer makes, written and
    parsed again, verifies under the signer's key and returns the statement
    that was signed; and whatever an envelope's hints say, what verifies under a key
    carries only signatures of that key over the statement's encoding. *)
Theorem signed_statement_roundtrip `{!WireLaws, !Ed25519Signer, !Ed25519Laws} (st : Statement) (sk : SigningKey) :
  envelope_from_json_slice (envelope_to_json_vec (envelope_sign st sk)) = Ok (envelope_sign st sk)
  ∧ envelope_verify (envelope_sign st sk) (verifying_key sk) = Ok st
  ∧ (∀ e key st', envelope_verify e key = Ok st' →
       Forall (λ s, ed_verify (pae PAYLOAD_TYPE (env_payload e)) (se_sig s) key = true) (env_signatures e)
       ∧ statement_from_json_slice (env_payload e) = Ok st').
Proof.
  split_and!.
  - apply envelope_json_roundtrip; [done |]. constructor; [apply sign_message_length | constructor].
  - unfold envelope_verify, envelope_sign, verify_payload, sign_payload. cbn [env_payload env_signatures existsb se_sig].
    rewrite sign_message_verifies. cbn [negb orb]. by rewrite statement_json_roundtrip.
  - intros e key st'. apply envelope_verify_ok.
Qed.
End envelopes.

Lemma pae_is_prefix_free_witness : [x01; x02] = [x01; x02] ∧ pae "t" [x01; x02] `prefix_of` pae "t" [x01; x02].
Proof.
  split; [| reflexivity].
  exact (proj2 (pae_is_prefix_free "t" [x01; x02] "t" [x01; x02] (PreOrder_Reflexive _))).
Defined.

(** ** A serializer to run with

    Any countable value as the bits of its code, base64 as the identity. *)
Fixpoint bits_of (p : positive) : list byte :=
  match p with xI p => x01 :: bits_of p | xO p => x00 :: bits_of p | xH => [] end.
Fixpoint of_bits (l : list byte) : positive :=
  match l with [] => xH | b :: l => if bool_decide (b = x01) then xI (of_bits l) else xO (of_bits l) end.
Lemma of_bits_of p : of_bits (bits_of p) = p.
Proof. induction p as [p IH | p IH |]; simpl; [by rewrite IH.. | done]. Qed.
Definition demo_to_vec `{Countable A} (a : A) : list byte := bits_of (encode a).
Definition demo_from_slice `{Countable A} (l : list byte) : result string A :=
  match decode (of_bits l) with Some a => Ok a | None => Err "not a value"%string end.
Lemma demo_roundtrip `{Countable A} (a : A) : demo_from_slice (demo_to_vec a) = Ok a.
Proof. unfold demo_from_slice, demo_to_vec. by rewrite of_bits_of, decode_encode. Qed.

#[global] Instance SignatureWire_eq_dec : EqDecision SignatureWire.
Proof. solve_decision. Defined.
#[global] Instance SignatureWire_countable : Countable SignatureWire.
Proof. refine (inj_countable' (λ s, (sw_keyid s, sw_sig s)) (λ p, {| sw_keyid := p.1; sw_sig := p.2 |}) _). by intros []. Defined.
#[global] Instance EnvelopeWire_eq_dec : EqDecision EnvelopeWire.
Proof. solve_decision. Defined.
#[global] Instance EnvelopeWire_countable : Countable EnvelopeWire.
Proof.
  refine (inj_countable' (λ e, (ew_payload_type e, ew_payload e, ew_signatures e))
    (λ p, {| ew_payload_type := p.1.1; ew_payload := p.1.2; ew_signatures := p.2 |}) _). by intros [].
Defined.
#[global] Instance SubjectWire_eq_dec : EqDecision SubjectWire.
Proof. solve_decision. Defined.
#[global] Instance SubjectWire_countable : Countable SubjectWire.
Proof. refine (inj_countable' (λ s, (bw_name s, bw_digest s)) (λ p, {| bw_name := p.1; bw_digest := p.2 |}) _). by intros []. Defined.

Definition bits_wire : Wire := {|
  JsonValue := unit;
  envelope_to_vec := demo_to_vec; envelope_from_slice := demo_from_slice;
  statement_to_vec := demo_to_vec; statement_from_slice := demo_from_slice;
  b64_encode := string_of; b64_decode := λ s, Ok (bytes_of s) |}.
Lemma bits_wire_laws : @WireLaws bits_wire.
Proof.
  split; [intros w; exact (demo_roundtrip w).. |]. intros l. exact (f_equal Ok (bytes_of_string_of l)).
Qed.
Definition flat_keys : Ed25519 :=
  {| VerifyingKey := unit; pk_bytes := λ _, []; ed_verify := λ _ sig _, bool_decide (sig = replicate 64 x05); sha256 := λ l, l |}.
Definition flat_signer : @Ed25519Signer flat_keys := {|
  SigningKey := unit; from_seed := λ _, tt; verifying_key := λ _, tt : @VerifyingKey flat_keys; sign_message := λ _ _, replicate 64 x05 |}.
Lemma flat_laws : @Ed25519Laws flat_keys flat_signer.
Proof. split; [done |]. intros sk m. cbn. by rewrite bool_decide_true. Qed.

Definition demo_statement : @Statement bits_wire := @Build_Statement bits_wire [with_digest "issuer" "blake3" "run-1"] "t" tt.
Lemma signed_statement_roundtrip_witness :
  @envelope_verify flat_keys bits_wire (@envelope_sign flat_keys bits_wire flat_signer demo_statement tt) tt = Ok demo_statement.
Proof.
  exact (proj1 (proj2 (@signed_statement_roundtrip flat_keys bits_wire bits_wire_laws flat_signer flat_laws demo_statement tt))).
Defined.
