(* ===== verification/Staging.v ===== *)
(** * The staging overlay

    [rs/ll-open/fs/src/staging.rs]: a copy-on-write overlay that keeps edits in a
    shadow table until they are committed.  The live graph is any implementation
    of the [Graph] trait; the shadow table is its rows in insertion order, [id]
    being the primary key.  [HashMap] iteration order, which the source leaves
    open, is taken as row order.  Methods of the overlay run one at a time, except
    [commit], whose two critical sections are separate definitions.  [MemoryGraph] of
    [graph.rs] is an instance of the live graph and of the law on file contents the
    refinement theorem needs.  The limit SQLite puts on the length of a text (a billion bytes
    by default), at which a write fails in the source, is not modelled. *)

From S2P Require Import Prelude Text.
From Stdlib Require Import NArith Lia Ascii.
Local Open Scope N_scope.

(** ** SQLite's [LIKE] *)

Definition ascii_lower (c : ascii) : ascii :=
  let n := N_of_ascii c in if (65 <=? n) && (n <=? 90) then ascii_of_N (n + 32) else c.
Fixpoint skip_continuation (s : string) : string :=
  match s with
  | String c s' => if (128 <=? N_of_ascii c) && (N_of_ascii c <=? 191) then skip_continuation s' else s
  | EmptyString => EmptyString
  end.
(** One character of a string, at least one byte. *)
Definition skip_char (c : ascii) (s : string) : string :=
  if 192 <=? N_of_ascii c then skip_continuation s else s.

(** ['%'] matches any sequence, ['_'] one character, letters match either case. *)
Fixpoint like_fuel (fuel : nat) (pattern s : string) : bool :=
  match fuel with
  | O => false
  | S fuel =>
      match pattern with
      | EmptyString => bool_decide (s = EmptyString)
      | String p ps =>
          if bool_decide (p = "%"%char) then
            like_fuel fuel ps s
            || match s with String c s' => like_fuel fuel pattern (skip_char c s') | EmptyString => false end
          else if bool_decide (p = "_"%char) then
            match s with String c s' => like_fuel fuel ps (skip_char c s') | EmptyString => false end
          else
            match s with
            | String c s' => bool_decide (ascii_lower p = ascii_lower c) && like_fuel fuel ps s'
            | EmptyString => false
            end
      end
  end.
Definition like (pattern s : string) : bool :=
  like_fuel (S (String.length pattern + String.length s)) pattern s.

(** ** Data *)

Record Node := {
  nd_id : string;
  nd_name : string;
  nd_is_dir : bool;
  nd_size : N;
  nd_mtime : Z;
}.

Inductive staging_error := LiveError | PrimaryKeyConflict.

(** The part of the [Graph] trait the overlay uses of the live graph;
    [g_read_content] returns the bytes it puts at the front of a buffer of the
    given length. *)
Class Graph (L : Type) := {
  g_get_node : L → string → result staging_error (option Node);
  g_lookup_child : L → string → string → result staging_error (option Node);
  g_list_children : L → string → result staging_error (list Node);
  g_read_content : L → string → N → N → result staging_error (list byte);
  g_batch_splice : list (string * option (list byte)) → L → result staging_error unit * L;
}.

(** A row of [shadow_nodes]. *)
Record shadow_row := {
  sh_id : string;
  sh_parent : string;
  sh_name : string;
  sh_kind : Z;
  sh_size : Z;
  sh_mtime : Z;
  sh_record : option (list byte);
  sh_tombstone : bool;
}.

Definition find_row (id : string) (rows : list shadow_row) : option shadow_row :=
  snd <$> list_find (λ r, sh_id r = id) rows.
(** [UPDATE shadow_nodes SET … WHERE …] *)
Definition update_where (p : shadow_row → bool) (f : shadow_row → shadow_row) (rows : list shadow_row)
    : list shadow_row := (λ r, if p r then f r else r) <$> rows.

Definition set_record (rec : option (list byte)) (size now : Z) (r : shadow_row) : shadow_row := {|
  sh_id := sh_id r; sh_parent := sh_parent r; sh_name := sh_name r; sh_kind := sh_kind r;
  sh_size := size; sh_mtime := now; sh_record := rec; sh_tombstone := sh_tombstone r |}.
Definition set_tombstone (now : Z) (r : shadow_row) : shadow_row := {|
  sh_id := sh_id r; sh_parent := sh_parent r; sh_name := sh_name r; sh_kind := sh_kind r;
  sh_size := sh_size r; sh_mtime := now; sh_record := sh_record r; sh_tombstone := true |}.

(** [n as i64] *)
Definition as_i64 (n : N) : Z :=
  if n <=? i64_max then Z.of_N n else (Z.of_N n - 18446744073709551616)%Z.

Definition node_of (r : shadow_row) : Node := {|
  nd_id := sh_id r; nd_name := sh_name r; nd_is_dir := bool_decide (sh_kind r = 1%Z);
  nd_size := Z.to_N (Z.max (sh_size r) 0); nd_mtime := sh_mtime r |}.
Definition entry_of (r : shadow_row) : option Node := if sh_tombstone r then None else Some (node_of r).

(** [parent_id_of]: everything before the last ['/']. *)
Fixpoint before_last_slash (s : string) : option string :=
  match s with
  | EmptyString => None
  | String c s =>
      match before_last_slash s with
      | Some p => Some (String c p)
      | None => if bool_decide (c = "/"%char) then Some EmptyString else None
      end
  end.
Definition parent_id_of (id : string) : string := default EmptyString (before_last_slash id).

(** ** Operations *)

Section operations.
Context {L : Type} `{G : Graph L}.

Record StagingGraph := { live : L; shadow : list shadow_row }.

Definition with_shadow (rows : list shadow_row) (st : StagingGraph) : StagingGraph :=
  {| live := live st; shadow := rows |}.

Definition StagingGraph_new (l : L) : StagingGraph := {| live := l; shadow := [] |}.

Definition dirty_nodes (st : StagingGraph) : list string :=
  sh_id <$> filter (λ r, sh_tombstone r = false) (shadow st).
Definition tombstone_nodes (st : StagingGraph) : list string :=
  sh_id <$> filter (λ r, sh_tombstone r = true) (shadow st).
Definition staged_record (st : StagingGraph) (id : string) : option (list byte) :=
  match find_row id (shadow st) with
  | Some r => if sh_tombstone r then None else sh_record r
  | None => None
  end.
Definition is_tombstone (st : StagingGraph) (id : string) : bool :=
  match find_row id (shadow st) with Some r => sh_tombstone r | None => false end.
Definition discard (st : StagingGraph) : StagingGraph := with_shadow [] st.

(** The first half of [commit], under the lock: what is staged. *)
Definition commit_edits (st : StagingGraph) : list (string * option (list byte)) :=
  ((λ r, (sh_id r, sh_record r)) <$> filter (λ r, sh_tombstone r = false) (shadow st))
  ++ ((λ r, (sh_id r, None)) <$> filter (λ r, sh_tombstone r = true) (shadow st)).
(** The second half, after the lock was dropped. *)
Definition commit_apply (edits : list (string * option (list byte))) (st : StagingGraph)
    : result staging_error unit * StagingGraph :=
  if bool_decide (edits = []) then (Ok tt, st) else
  match g_batch_splice edits (live st) with
  | (Ok _, l) => (Ok tt, discard {| live := l; shadow := shadow st |})
  | (Err e, l) => (Err e, {| live := l; shadow := shadow st |})
  | (Panic, l) => (Panic, {| live := l; shadow := shadow st |})
  end.
Definition commit (st : StagingGraph) : result staging_error unit * StagingGraph :=
  commit_apply (commit_edits st) st.

(** What [cow_into_shadow] copies of a live node. *)
Definition cow_record (st : StagingGraph) (id : string) (node : Node)
    : result staging_error (option (list byte)) :=
  if negb (nd_is_dir node) && (0 <? nd_size node) then
    buf ← g_read_content (live st) id (nd_size node + 1) 0;
    mret (if 0 <? len buf then Some (utf8_lossy buf) else None)
  else mret None.
Definition cow_into_shadow (id : string) (st : StagingGraph) : result staging_error bool * StagingGraph :=
  match find_row id (shadow st) with
  | Some _ => (Ok true, st)
  | None =>
      match (node ← g_get_node (live st) id;
             match node with
             | None => mret None
             | Some node => rec ← cow_record st id node; mret (Some (node, rec))
             end) with
      | Ok None => (Ok false, st)
      | Ok (Some (node, rec)) =>
          (Ok true, with_shadow (shadow st ++ [{|
             sh_id := id; sh_parent := parent_id_of id; sh_name := nd_name node;
             sh_kind := if nd_is_dir node then 1%Z else 0%Z; sh_size := as_i64 (nd_size node);
             sh_mtime := nd_mtime node; sh_record := rec; sh_tombstone := false |}]) st)
      | Err e => (Err e, st)
      | Panic => (Panic, st)
      end
  end.

Definition get_node (st : StagingGraph) (id : string) : result staging_error (option Node) :=
  if bool_decide (id = EmptyString) then
    Ok (Some {| nd_id := EmptyString; nd_name := EmptyString; nd_is_dir := true; nd_size := 0; nd_mtime := 0 |})
  else
    match find_row id (shadow st) with
    | Some r => Ok (entry_of r)
    | None => g_get_node (live st) id
    end.

Definition lookup_child (st : StagingGraph) (parent_id name : string) : result staging_error (option Node) :=
  match list_find (λ r, sh_parent r = parent_id ∧ sh_name r = name) (shadow st) with
  | Some (_, r) => Ok (entry_of r)
  | None =>
      found ← g_lookup_child (live st) parent_id name;
      mret match found with
           | Some node => if is_tombstone st (nd_id node) then None else Some node
           | None => None
           end
  end.

Definition list_children (st : StagingGraph) (parent_id : string) : result staging_error (list Node) :=
  let shadow_map := filter (λ r, sh_parent r = parent_id) (shadow st) in
  live_children ← g_list_children (live st) parent_id;
  let overlaid := omap (λ child, match find_row (nd_id child) shadow_map with
                                 | Some r => entry_of r
                                 | None => Some child
                                 end) live_children in
  let shadow_only := omap (λ r, if bool_decide (sh_id r ∈ (nd_id <$> live_children)) then None else entry_of r)
                       shadow_map in
  mret (overlaid ++ shadow_only).

(** [read_content] into a buffer of [n] bytes: the bytes at its front. *)
Definition read_content (st : StagingGraph) (id : string) (n offset : N) : result staging_error (list byte) :=
  match find_row id (shadow st) with
  | Some r =>
      match (if sh_tombstone r then None else sh_record r) with
      | Some bytes =>
          if len bytes <=? offset then Ok [] else
          slice_checked offset (N.min (wadd64 offset n) (len bytes)) bytes
      | None => Ok []
      end
  | None => g_read_content (live st) id n offset
  end.

(** The patch [write_content] makes: extend with zeros, then overwrite.  [resize]
    beyond [isize::MAX] bytes panics, as does an inverted range. *)
Definition patched (old data : list byte) (off : N) : result staging_error (list byte) :=
  let stop := wadd64 off (len data) in
  _ ← assert_ ((stop <=? len old) || (stop <=? i64_max));
  let content := if len old <? stop then old ++ replicate (N.to_nat (stop - len old)) x00 else old in
  _ ← assert_ ((off <=? stop) && (stop <=? len content));
  mret (splice off data content).

Definition write_content (now : Z) (id : string) (data : list byte) (offset : N) (st : StagingGraph)
    : result staging_error N * StagingGraph :=
  match cow_into_shadow id st with
  | (Ok _, st) =>
      match patched (default [] (staged_record st id)) data offset with
      | Ok content =>
          (Ok (len data),
           with_shadow (update_where (λ r, bool_decide (sh_id r = id))
             (set_record (Some (utf8_lossy content)) (as_i64 (len content)) now) (shadow st)) st)
      | Err e => (Err e, st)
      | Panic => (Panic, st)
      end
  | (Err e, st) => (Err e, st)
  | (Panic, st) => (Panic, st)
  end.

Definition create_node (now : Z) (parent_id name : string) (is_dir : bool) (st : StagingGraph)
    : result staging_error string * StagingGraph :=
  let id := (if bool_decide (parent_id = EmptyString) then name else parent_id +:+ "/" +:+ name)%string in
  match find_row id (shadow st) with
  | Some _ => (Err PrimaryKeyConflict, st)
  | None =>
      (Ok id, with_shadow (shadow st ++ [{|
         sh_id := id; sh_parent := parent_id; sh_name := name; sh_kind := if is_dir then 1%Z else 0%Z;
         sh_size := 0; sh_mtime := now; sh_record := None; sh_tombstone := false |}]) st)
  end.

(** The walk of [remove_node] over the live graph; the head of the list is the
    top of the stack. *)
Fixpoint collect_live (fuel : nat) (l : L) (stack : list string) : result staging_error (list Node * list string) :=
  match fuel, stack with
  | _, [] => Ok ([], [])
  | O, _ => Panic
  | S fuel, pid :: stack =>
      node ← g_get_node l pid;
      match node with
      | None => collect_live fuel l stack
      | Some node =>
          children ← (if nd_is_dir node then g_list_children l pid else mret []);
          rest ← collect_live fuel l (reverse (nd_id <$> children) ++ stack);
          mret (node :: fst rest, pid :: snd rest)
      end
  end.

(** [INSERT … ON CONFLICT(id) DO UPDATE SET tombstone = 1, mtime = ?6] *)
Definition upsert_tombstone (now : Z) (rows : list shadow_row) (x : string * Node) : list shadow_row :=
  let '(id, node) := x in
  match find_row id rows with
  | Some _ => update_where (λ r, bool_decide (sh_id r = id)) (set_tombstone now) rows
  | None => rows ++ [{|
      sh_id := id; sh_parent := parent_id_of id; sh_name := nd_name node;
      sh_kind := if nd_is_dir node then 1%Z else 0%Z; sh_size := as_i64 (nd_size node);
      sh_mtime := now; sh_record := None; sh_tombstone := true |}]
  end.

Definition remove_node (fuel : nat) (now : Z) (id : string) (st : StagingGraph)
    : result staging_error unit * StagingGraph :=
  match collect_live fuel (live st) [id] with
  | Ok (nodes, ids) =>
      let rows := foldl (upsert_tombstone now) (shadow st) (zip ids nodes) in
      (Ok tt, with_shadow (update_where (λ r, like (id +:+ "/%") (sh_id r) && negb (sh_tombstone r))
                             (set_tombstone now) rows) st)
  | Err e => (Err e, st)
  | Panic => (Panic, st)
  end.

Definition truncate (now : Z) (id : string) (st : StagingGraph) : result staging_error unit * StagingGraph :=
  match cow_into_shadow id st with
  | (Ok _, st) =>
      (Ok tt, with_shadow (update_where (λ r, bool_decide (sh_id r = id)) (set_record None 0 now) (shadow st)) st)
  | (Err e, st) => (Err e, st)
  | (Panic, st) => (Panic, st)
  end.
End operations.
Arguments StagingGraph L : clear implicits.

(** ** The in-memory graph *)

Record MemoryGraph := {
  mg_nodes : gmap string Node;
  mg_children : gmap string (list string);
  mg_content : gmap string (list byte);
}.

Definition MemoryGraph_new : MemoryGraph := {|
  mg_nodes := {[ EmptyString := {| nd_id := EmptyString; nd_name := EmptyString; nd_is_dir := true;
                                   nd_size := 0; nd_mtime := 0 |} ]};
  mg_children := ∅;
  mg_content := ∅ |}.

Definition add_node (node : Node) (parent_id : string) (content : option (list byte)) (g : MemoryGraph)
    : MemoryGraph :=
  let id := nd_id node in {|
  mg_nodes := <[id := node]> (mg_nodes g);
  mg_children := if bool_decide (id = parent_id) then mg_children g
                 else <[parent_id := default [] (mg_children g !! parent_id) ++ [id]]> (mg_children g);
  mg_content := match content with Some data => <[id := data]> (mg_content g) | None => mg_content g end |}.

Definition mg_list_children (g : MemoryGraph) (parent_id : string) : list Node :=
  match mg_children g !! parent_id with
  | Some child_ids => omap (λ cid, mg_nodes g !! cid) child_ids
  | None => []
  end.
Definition mg_lookup_child (g : MemoryGraph) (parent_id name : string) : option Node :=
  match mg_children g !! parent_id with
  | Some child_ids => snd <$> list_find (λ node, nd_name node = name) (omap (λ cid, mg_nodes g !! cid) child_ids)
  | None => None
  end.
Definition mg_read_content (g : MemoryGraph) (id : string) (n offset : N) : result staging_error (list byte) :=
  match mg_content g !! id with
  | Some data =>
      if len data <=? offset then Ok [] else
      slice_checked offset (N.min (wadd64 offset n) (len data)) data
  | None => Ok []
  end.

(** [batch_splice] is the trait's default, which refuses. *)
#[export] Instance MemoryGraph_Graph : Graph MemoryGraph := {
  g_get_node g id := Ok (mg_nodes g !! id);
  g_lookup_child g parent name := Ok (mg_lookup_child g parent name);
  g_list_children g parent := Ok (mg_list_children g parent);
  g_read_content := mg_read_content;
  g_batch_splice _ g := (Err LiveError, g);
}.

(** ** What a live graph promises of its files *)

Class GraphFiles (L : Type) `{!Graph L} := {
  g_content : L → string → option (list byte);
  g_content_node l id c : g_content l id = Some c →
    len c < i64_max ∧ ∃ node, g_get_node l id = Ok (Some node) ∧ nd_is_dir node = false ∧ nd_size node = len c;
  g_content_read l id c n off : g_content l id = Some c → n ≤ i64_max →
    g_read_content l id n off = Ok (slice off (N.min (off + n) (len c)) c);
}.

(** Reading a range of bytes the way both graphs do. *)
Lemma read_clamped {E} (bytes : list byte) (n off : N) :
  len bytes < i64_max → n ≤ i64_max →
  (if len bytes <=? off then Ok [] else slice_checked off (N.min (wadd64 off n) (len bytes)) bytes)
  = (Ok (slice off (N.min (off + n) (len bytes)) bytes) : result E _).
Proof.
  intros Hb Hn. destruct (N.leb_spec (len bytes) off) as [Hle | Hlt].
  - unfold slice. by replace (N.min (off + n) (len bytes) - off) with 0 by lia.
  - rewrite wadd64_small by (unfold i64_max, u64_max in *; lia).
    unfold slice_checked. rewrite !(proj2 (N.leb_le _ _)) by lia. done.
Qed.

(** The memory graph keeps it for every file whose node has the content's size. *)
Definition mg_file (g : MemoryGraph) (id : string) : option (list byte) :=
  let c := default [] (mg_content g !! id) in
  match mg_nodes g !! id with
  | Some node => if negb (nd_is_dir node) && (nd_size node =? len c) && (len c <? i64_max) then Some c else None
  | None => None
  end.
#[export, program] Instance MemoryGraph_Files : GraphFiles MemoryGraph := { g_content := mg_file }.
Next Obligation.
  intros g id c. unfold mg_file. simpl. destruct (mg_nodes g !! id) as [node |] eqn:E; [| done].
  case_match eqn:Hc; [| done]. intros [= <-].
  rewrite !andb_true_iff, negb_true_iff, N.eqb_eq, N.ltb_lt in Hc. destruct_and!. eauto.
Qed.
Next Obligation.
  intros g id c n off. unfold mg_file, g_read_content. simpl.
  destruct (mg_nodes g !! id) as [node |]; [| done]. case_match eqn:Hc; [| done]. intros [= <-] Hn.
  rewrite !andb_true_iff, N.ltb_lt in Hc. destruct_and!. unfold mg_read_content.
  destruct (mg_content g !! id) as [data |]; simpl in *; [by apply read_clamped |].
  unfold slice, takeN, dropN. by rewrite drop_nil, take_nil.
Qed.

(** ** Fuel *)

Lemma length_skip_char c s : (String.length (skip_char c s) ≤ String.length s)%nat.
Proof.
  unfold skip_char. case_match; [| done]. clear. induction s as [| c s IH]; simpl; [done |]. case_match; simpl; lia.
Qed.
(** The fuel of [like] is enough: every step shortens the pattern or the string. *)
Lemma like_fuel_enough f1 f2 pattern s :
  (String.length pattern + String.length s < f1)%nat → (String.length pattern + String.length s < f2)%nat →
  like_fuel f1 pattern s = like_fuel f2 pattern s.
Proof.
  revert f2 pattern s. induction f1 as [| f1 IH]; intros [| f2] pattern s H1 H2; try lia. simpl.
  destruct pattern as [| p ps]; [done |]. simpl in *. repeat case_bool_decide.
  - f_equal; [apply IH; lia |]. destruct s as [| c s]; [done |]. simpl in *.
    pose proof (length_skip_char c s). apply IH; simpl; lia.
  - destruct s as [| c s]; [done |]. simpl in *. pose proof (length_skip_char c s). apply IH; lia.
  - destruct s as [| c s]; [done |]. simpl in *. rewrite (IH f2) by lia. done.
Qed.

Section walk.
Context {L : Type} `{G : Graph L}.

(** Over a live graph that is a finite forest (a directory weighs more than its
    children together) the walk of [remove_node] ends within the weight of its
    stack. *)
Lemma collect_live_ends (l : L) (weight : string → nat) fuel stack :
  (∀ id, g_get_node l id ≠ Panic ∧ g_list_children l id ≠ Panic) →
  (∀ id, (0 < weight id)%nat) →
  (∀ id children, g_list_children l id = Ok children →
     (sum_list_with weight (nd_id <$> children) < weight id)%nat) →
  (sum_list_with weight stack ≤ fuel)%nat →
  collect_live fuel l stack ≠ Panic.
Proof.
  intros Hp Hpos Hw. revert stack. induction fuel as [| fuel IH]; intros [| pid stack] Hf; simpl in *; try done.
  - specialize (Hpos pid). lia.
  - destruct (Hp pid) as [Hg Hl]. specialize (Hpos pid).
    destruct (g_get_node l pid) as [[node |] | |]; simpl; [| apply IH; lia | done | done].
    assert (∀ ids, (sum_list_with weight ids < weight pid)%nat →
      collect_live fuel l (reverse ids ++ stack) ≠ Panic) as Hrest.
    { intros ids Hc. apply IH. rewrite sum_list_with_app, sum_list_with_reverse. lia. }
    destruct (nd_is_dir node); simpl.
    + destruct (g_list_children l pid) as [children | |] eqn:Hc; simpl; [| done..].
      specialize (Hrest _ (Hw _ _ Hc)). by destruct (collect_live fuel l _).
    + specialize (Hrest [] Hpos). by destruct (collect_live fuel l _).
Qed.
End walk.

(** ** Rows *)

Lemma find_row_id id rows r : find_row id rows = Some r → sh_id r = id.
Proof.
  unfold find_row. rewrite fmap_Some. intros ([i x] & H & ->). by apply list_find_Some in H as (_ & ? & _).
Qed.
Lemma find_row_cons id r rows :
  find_row id (r :: rows) = if decide (sh_id r = id) then Some r else find_row id rows.
Proof.
  unfold find_row. simpl. case_decide; [done |].
  destruct (list_find (λ r, sh_id r = id) rows) as [[? ?] |]; done.
Qed.
Lemma find_row_snoc id r rows :
  find_row id (rows ++ [r])
  = match find_row id rows with Some x => Some x | None => if decide (sh_id r = id) then Some r else None end.
Proof.
  induction rows as [| x rows IH]; [by rewrite app_nil_l, find_row_cons |].
  rewrite <- app_comm_cons, !find_row_cons, IH. by destruct (decide (sh_id x = id)).
Qed.
Lemma find_row_update p f id rows :
  (∀ r, sh_id (f r) = sh_id r) →
  find_row id (update_where p f rows) = (λ r, if p r then f r else r) <$> find_row id rows.
Proof.
  intros Hf. induction rows as [| x rows IH]; [done |].
  change (update_where p f (x :: rows)) with ((if p x then f x else x) :: update_where p f rows).
  rewrite !find_row_cons, IH.
  assert (sh_id (if p x then f x else x) = sh_id x) as -> by (destruct (p x); auto). by case_decide.
Qed.
(** Only the row of [id] sees an update of [id]. *)
Lemma find_row_update_id f id j rows :
  (∀ r, sh_id (f r) = sh_id r) →
  find_row j (update_where (λ r, bool_decide (sh_id r = id)) f rows)
  = if decide (j = id) then f <$> find_row j rows else find_row j rows.
Proof.
  intros Hf. rewrite find_row_update by done.
  destruct (find_row j rows) as [r |] eqn:E; simpl; [| by case_decide].
  apply find_row_id in E. subst. case_decide; case_bool_decide; done.
Qed.
Lemma set_record_id rec size now r : sh_id (set_record rec size now r) = sh_id r.
Proof. done. Qed.
Lemma set_tombstone_id now r : sh_id (set_tombstone now r) = sh_id r.
Proof. done. Qed.
#[export] Hint Resolve set_record_id set_tombstone_id : leyline.

(** [id] stays a primary key. *)
Lemma NoDup_update p f rows :
  (∀ r, sh_id (f r) = sh_id r) → sh_id <$> update_where p f rows = sh_id <$> rows.
Proof.
  intros Hf. unfold update_where. rewrite <- list_fmap_compose. apply list_fmap_ext.
  intros ? r _. simpl. destruct (p r); auto.
Qed.
Lemma find_row_None id rows : find_row id rows = None ↔ id ∉ (sh_id <$> rows).
Proof.
  unfold find_row. rewrite fmap_None, list_find_None, Forall_forall, list_elem_of_fmap. naive_solver.
Qed.
Lemma NoDup_snoc_row rows r :
  NoDup (sh_id <$> rows) → find_row (sh_id r) rows = None → NoDup (sh_id <$> (rows ++ [r])).
Proof.
  intros ? Hn%find_row_None. rewrite fmap_app. apply NoDup_app. split_and!; [done | | apply NoDup_singleton].
  intros x Hx ->%list_elem_of_singleton. done.
Qed.

(** ** Files as the overlay shows them *)

(** Reference: bytes [off .. off + len data] replaced, a gap filled with zeros. *)
Definition write_at (c data : list byte) (off : N) : list byte :=
  takeN off (c ++ replicate (N.to_nat (off - len c)) x00) ++ data ++ dropN (off + len data) c.

Lemma len_replicate {A} n (x : A) : len (replicate n x) = N.of_nat n.
Proof. unfold len. by rewrite length_replicate. Qed.
Lemma patched_write_at c data off :
  len c < i64_max → off + len data < i64_max → patched c data off = Ok (write_at c data off).
Proof.
  intros Hc Hs. unfold patched. cbv zeta. rewrite wadd64_small by (unfold i64_max, u64_max in *; lia).
  rewrite orb_true_intro by (rewrite !N.leb_le; lia). unfold assert_. rewrite bind_Ok.
  unfold write_at, splice.
  destruct (N.ltb_spec (len c) (off + len data)) as [Hlt | Hle].
  - assert (len (c ++ replicate (N.to_nat (off + len data - len c)) x00) = off + len data) as Hlen.
    { rewrite len_app, len_replicate. lia. }
    rewrite !(proj2 (N.leb_le _ _)) by lia. simpl. unfold mret, result_ret.
    rewrite (dropN_ge (off + len data)) by lia. rewrite (dropN_ge _ c) by lia.
    do 2 f_equal.
    replace (N.to_nat (off + len data - len c)) with
      (N.to_nat (off - len c) + N.to_nat (off + len data - len c - (off - len c)))%nat by lia.
    rewrite replicate_add, (assoc_L (++)), takeN_app_l; [done |].
    rewrite len_app, len_replicate. lia.
  - rewrite !(proj2 (N.leb_le _ _)) by lia. simpl. unfold mret, result_ret.
    replace (off - len c) with 0 by lia. by rewrite app_nil_r.
Qed.
Lemma len_write_at c data off : len (write_at c data off) = N.max (len c) (off + len data).
Proof.
  unfold write_at. rewrite !len_app, len_takeN, len_app, len_dropN, len_replicate. lia.
Qed.

Section files.
Context {L : Type} `{G : Graph L, GF : !GraphFiles L}.
Implicit Types (st : StagingGraph L) (c data : list byte).

(** The contents the overlay presents: a staged file, else the live one. *)
Definition row_content (r : shadow_row) : option (list byte) :=
  if sh_tombstone r || negb (bool_decide (sh_kind r = 0%Z)) then None else Some (default [] (sh_record r)).
Definition content st (id : string) : option (list byte) :=
  match find_row id (shadow st) with
  | Some r => row_content r
  | None => g_content (live st) id
  end.
(** Staged sizes and bounds agree with the staged bytes. *)
Definition sized st : Prop := ∀ id r c,
  find_row id (shadow st) = Some r → row_content r = Some c →
  len c < i64_max ∧ sh_size r = Z.of_N (len c).

Lemma row_content_Some r c :
  row_content r = Some c ↔ sh_tombstone r = false ∧ sh_kind r = 0%Z ∧ c = default [] (sh_record r).
Proof. unfold row_content. destruct (sh_tombstone r); simpl; [naive_solver |]. case_bool_decide; naive_solver. Qed.

Lemma content_small st id c : sized st → content st id = Some c → len c < i64_max.
Proof.
  unfold content. intros Hs. destruct (find_row id (shadow st)) as [r |] eqn:E; intros Hc.
  - by eapply Hs.
  - by apply g_content_node in Hc as [? _].
Qed.

Lemma read_content_view st id c n off :
  sized st → content st id = Some c → n ≤ i64_max →
  read_content st id n off = Ok (slice off (N.min (off + n) (len c)) c).
Proof.
  intros Hs Hc Hn. pose proof (content_small _ _ _ Hs Hc). revert Hc. unfold content, read_content.
  destruct (find_row id (shadow st)) as [r |]; [| by intros; apply g_content_read].
  intros (-> & _ & ->)%row_content_Some. destruct (sh_record r) as [bytes |]; simpl in *.
  - by apply read_clamped.
  - unfold slice, takeN, dropN. by rewrite drop_nil, take_nil.
Qed.

Lemma get_node_view st id c :
  sized st → content st id = Some c → id ≠ EmptyString →
  ∃ node, get_node st id = Ok (Some node) ∧ nd_is_dir node = false ∧ nd_size node = len c.
Proof.
  unfold content, get_node. intros Hs Hc Hne. rewrite bool_decide_false by done.
  destruct (find_row id (shadow st)) as [r |] eqn:E.
  - destruct (Hs _ _ _ E Hc) as [_ Hsz]. apply row_content_Some in Hc as (Ht & Hk & ->).
    unfold entry_of. rewrite Ht. eexists. split; [done |]. simpl. rewrite Hk, Hsz. split; [done | lia].
  - apply g_content_node in Hc as [_ ?]. done.
Qed.

(** Copy-on-write changes no content and stages the file. *)
Lemma cow_view st id c :
  sized st → content st id = Some c → is_utf8 c →
  ∃ st' r, cow_into_shadow id st = (Ok true, st') ∧ live st' = live st ∧ find_row id (shadow st') = Some r
    ∧ row_content r = Some c ∧ (∀ j, j ≠ id → find_row j (shadow st') = find_row j (shadow st)) ∧ sized st'.
Proof.
  unfold content, cow_into_shadow. intros Hs Hc Hu.
  destruct (find_row id (shadow st)) as [r |] eqn:E; [by exists st, r |].
  pose proof (g_content_node _ _ _ Hc) as (Hlt & node & -> & Hdir & Hsize).
  assert (∃ rec, cow_record st id node = Ok rec ∧ default [] rec = c) as (rec & Hrec & Hdef).
  { unfold cow_record. rewrite Hdir, Hsize. destruct (N.ltb_spec 0 (len c)) as [Hpos | Hz]; simpl.
    - rewrite (g_content_read _ _ c) by (done || unfold i64_max in *; lia). rewrite N.add_0_l, N.min_r by lia.
      rewrite slice_full, bind_Ok, (proj2 (N.ltb_lt _ _)), Hu by done. by eexists.
    - exists None. destruct c; [done |]. rewrite len_cons in Hz. lia. }
  rewrite bind_Ok, Hrec, bind_Ok. simpl. do 2 eexists. split; [done |]. simpl.
  rewrite find_row_snoc, E, decide_True by done. split_and!; [done | done | | |].
  - apply row_content_Some. simpl. by rewrite Hdir.
  - intros j Hj. rewrite find_row_snoc, decide_False by done. by case_match.
  - intros j r' c'. simpl. rewrite find_row_snoc.
    destruct (find_row j (shadow st)) eqn:Ej; [intros [= <-]; eauto |]. case_decide; [| done].
    intros [= <-] (_ & _ & ->)%row_content_Some. simpl. rewrite Hdef, Hsize. split; [done |].
    unfold as_i64. by rewrite (proj2 (N.leb_le _ _)) by lia.
Qed.

(** What replacing the record of a staged file does to the view. *)
Lemma set_record_view st id r rec now c :
  sized st → find_row id (shadow st) = Some r → sh_tombstone r = false → sh_kind r = 0%Z →
  default [] rec = c → len c < i64_max →
  let st' := with_shadow (update_where (λ r, bool_decide (sh_id r = id))
               (set_record rec (Z.of_N (len c)) now) (shadow st)) st in
  content st' id = Some c ∧ (∀ j, j ≠ id → content st' j = content st j) ∧ sized st'.
Proof.
  intros Hs Hr Ht Hk Hdef Hlt st'.
  assert (∀ j, find_row j (shadow st') = if decide (j = id)
             then set_record rec (Z.of_N (len c)) now <$> find_row j (shadow st) else find_row j (shadow st)) as Hf
    by (intros; by apply find_row_update_id).
  assert (row_content (set_record rec (Z.of_N (len c)) now r) = Some c) as Hrc by (by apply row_content_Some).
  split_and!.
  - unfold content. by rewrite Hf, decide_True, Hr by done.
  - intros j Hj. unfold content. by rewrite Hf, decide_False by done.
  - intros j r' c'. rewrite Hf. case_decide; [| apply Hs]. subst. rewrite Hr. intros [= <-].
    rewrite Hrc. by intros [= <-].
Qed.

Lemma content_of_rows st st' j :
  live st' = live st → find_row j (shadow st') = find_row j (shadow st) → content st' j = content st j.
Proof. unfold content. by intros -> ->. Qed.

(** One text write, and one truncation. *)
Lemma write_content_view now st id c data off :
  sized st → content st id = Some c → is_utf8 c → off + len data < i64_max → is_utf8 (write_at c data off) →
  ∃ st', write_content now id data off st = (Ok (len data), st') ∧ live st' = live st
    ∧ content st' id = Some (write_at c data off) ∧ (∀ j, j ≠ id → content st' j = content st j) ∧ sized st'.
Proof.
  intros Hs Hc Hu Hoff Hw. pose proof (content_small _ _ _ Hs Hc).
  destruct (cow_view st id c) as (st1 & r & Hcow & Hlive & Hr & Hrc & Hother & Hs1); [done.. |].
  apply row_content_Some in Hrc as (Ht & Hk & Hrec).
  assert (default [] (staged_record st1 id) = c) as Hst by (unfold staged_record; by rewrite Hr, Ht).
  assert (len (write_at c data off) < i64_max) by (rewrite len_write_at; lia).
  unfold write_content. rewrite Hcow, Hst, patched_write_at, Hw by done. eexists. split; [done |].
  unfold as_i64. rewrite (proj2 (N.leb_le _ _)) by lia.
  destruct (set_record_view st1 id r (Some (write_at c data off)) now (write_at c data off))
    as (H1 & H2 & H3); [done.. |].
  split_and!; [done | done | | done]. intros j Hj. rewrite H2 by done. apply content_of_rows; auto.
Qed.
Lemma truncate_view now st id c :
  sized st → content st id = Some c → is_utf8 c →
  ∃ st', truncate now id st = (Ok tt, st') ∧ live st' = live st
    ∧ content st' id = Some [] ∧ (∀ j, j ≠ id → content st' j = content st j) ∧ sized st'.
Proof.
  intros Hs Hc Hu.
  destruct (cow_view st id c) as (st1 & r & Hcow & Hlive & Hr & Hrc & Hother & Hs1); [done.. |].
  apply row_content_Some in Hrc as (Ht & Hk & _).
  unfold truncate. rewrite Hcow. eexists. split; [done |].
  destruct (set_record_view st1 id r None now []) as (H1 & H2 & H3); [done.. |].
  split_and!; [done | done | | done]. intros j Hj. rewrite H2 by done. apply content_of_rows; auto.
Qed.

(** *** Sequences of edits *)

Inductive edit :=
| EWrite (now : Z) (id : string) (data : list byte) (off : N)
| ETruncate (now : Z) (id : string).

Definition run_edit (e : edit) st : result staging_error unit * StagingGraph L :=
  match e with
  | EWrite now id data off => let '(r, st) := write_content now id data off st in ((λ _, tt) <$> r, st)
  | ETruncate now id => truncate now id st
  end.
Fixpoint run_edits (es : list edit) st : result staging_error unit * StagingGraph L :=
  match es with
  | [] => (Ok tt, st)
  | e :: es => match run_edit e st with
               | (Ok _, st) => run_edits es st
               | stop => stop
               end
  end.

(** The specification: a map from names to bytes, edited in place.  [None] when
    the edit is not of a text file, or leaves the machine's range. *)
Definition text (c : list byte) : bool := bool_decide (utf8_lossy c = c).
Definition put (id : string) (c : list byte) (m : string → option (list byte)) : string → option (list byte) :=
  λ j, if decide (j = id) then Some c else m j.
Definition spec_edit (e : edit) (m : string → option (list byte)) : option (string → option (list byte)) :=
  match e with
  | EWrite _ id data off =>
      c ← m id;
      if text c && (off + len data <? i64_max) && text (write_at c data off)
      then Some (put id (write_at c data off) m) else None
  | ETruncate _ id => c ← m id; if text c then Some (put id [] m) else None
  end.
Fixpoint spec_edits (es : list edit) (m : string → option (list byte)) : option (string → option (list byte)) :=
  match es with
  | [] => Some m
  | e :: es => m ← spec_edit e m; spec_edits es m
  end.

(** The overlay simulates one edit of the specification. *)
Lemma run_edit_simulates e st m m' :
  sized st → (∀ j, content st j = m j) → spec_edit e m = Some m' →
  ∃ st', run_edit e st = (Ok tt, st') ∧ live st' = live st ∧ sized st' ∧ ∀ j, content st' j = m' j.
Proof.
  intros Hs Hm. destruct e as [now id data off | now id]; simpl.
  - rewrite bind_Some. intros (c & Hc & H). rewrite <- Hm in Hc. case_match eqn:Hb; [| done].
    injection H as <-. unfold text in Hb. rewrite !andb_true_iff, !bool_decide_eq_true, N.ltb_lt in Hb.
    destruct Hb as [[Hu Hoff] Hw].
    destruct (write_content_view now st id c data off) as (st' & -> & Hl & Hid & Hj & Hs'); [done.. |].
    exists st'. split_and!; [done.. |]. intros j. unfold put. case_decide; [by subst | by rewrite Hj, Hm].
  - rewrite bind_Some. intros (c & Hc & H). rewrite <- Hm in Hc. case_match eqn:Hb; [| done].
    injection H as <-. apply bool_decide_eq_true in Hb.
    destruct (truncate_view now st id c) as (st' & -> & Hl & Hid & Hj & Hs'); [done.. |].
    exists st'. split_and!; [done.. |]. intros j. unfold put. case_decide; [by subst | by rewrite Hj, Hm].
Qed.
Lemma run_edits_simulates es st m m' :
  sized st → (∀ j, content st j = m j) → spec_edits es m = Some m' →
  ∃ st', run_edits es st = (Ok tt, st') ∧ live st' = live st ∧ sized st' ∧ ∀ j, content st' j = m' j.
Proof.
  revert st m. induction es as [| e es IH]; simpl; intros st m Hs Hm.
  - intros [= <-]. by exists st.
  - rewrite bind_Some. intros (m1 & He & Hes).
    destruct (run_edit_simulates e st m m1) as (st1 & -> & Hl1 & Hs1 & Hm1); [done.. |].
    destruct (IH st1 m1) as (st' & -> & Hl & ? & ?); [done.. |].
    exists st'. split_and!; [done | congruence | done..].
Qed.

(** C35: a fresh overlay over any lawful live graph refines a map from names to
    bytes.  Whatever text writes and truncations the map admits, in any order,
    the overlay accepts them all and leaves the live graph alone; afterwards
    every file reads back as the map says, on every range, with the node's size
    equal to the content's length. *)
Theorem overlay_refines_files (l : L) es m' :
  spec_edits es (g_content l) = Some m' →
  ∃ st, run_edits es (StagingGraph_new l) = (Ok tt, st) ∧ live st = l
    ∧ ∀ id c, m' id = Some c →
        (∀ n off, n ≤ i64_max → read_content st id n off = Ok (slice off (N.min (off + n) (len c)) c))
        ∧ (id ≠ EmptyString →
           ∃ node, get_node st id = Ok (Some node) ∧ nd_is_dir node = false ∧ nd_size node = len c).
Proof.
  intros Hes. destruct (run_edits_simulates es (StagingGraph_new l) (g_content l) m')
    as (st & Hrun & Hl & Hs & Hm); [by intros ? | done | done |].
  exists st. split_and!; [done | done |]. intros id c Hc. rewrite <- Hm in Hc. split.
  - intros n off Hn. by apply read_content_view.
  - by apply get_node_view.
Qed.
End files.

(** ** Committing *)

Section committing.
Context {L : Type} `{G : Graph L}.
Implicit Types st : StagingGraph L.

(** Everything a caller may do to an overlay. *)
Inductive op :=
| OWrite (now : Z) (id : string) (data : list byte) (off : N)
| OCreate (now : Z) (parent name : string) (is_dir : bool)
| ORemove (fuel : nat) (now : Z) (id : string)
| OTruncate (now : Z) (id : string)
| ODiscard
| OCommit.
Definition run_op (o : op) st : StagingGraph L :=
  match o with
  | OWrite now id data off => snd (write_content now id data off st)
  | OCreate now parent name is_dir => snd (create_node now parent name is_dir st)
  | ORemove fuel now id => snd (remove_node fuel now id st)
  | OTruncate now id => snd (truncate now id st)
  | ODiscard => discard st
  | OCommit => snd (commit st)
  end.

Definition keyed st : Prop := NoDup (sh_id <$> shadow st).

Lemma keyed_update p f st :
  (∀ r, sh_id (f r) = sh_id r) → keyed st → keyed (with_shadow (update_where p f (shadow st)) st).
Proof. intros Hf. unfold keyed. simpl. by rewrite NoDup_update. Qed.
Lemma cow_keyed id st : keyed st → keyed (snd (cow_into_shadow id st)).
Proof.
  intros Hk. unfold cow_into_shadow. destruct (find_row id (shadow st)) eqn:E; [done |].
  case_match; try done. case_match; [case_match; subst |]; try done. by apply NoDup_snoc_row.
Qed.
Lemma upsert_keyed now rows x :
  NoDup (sh_id <$> rows) → NoDup (sh_id <$> upsert_tombstone now rows x).
Proof.
  destruct x as [id node]. simpl. destruct (find_row id rows) eqn:E; intros Hk.
  - by rewrite NoDup_update.
  - by apply NoDup_snoc_row.
Qed.
(** [id] stays a primary key under every operation. *)
Lemma run_op_keyed o st : keyed st → keyed (run_op o st).
Proof.
  intros Hk. destruct o as [now id data off | now parent name is_dir | fuel now id | now id | |]; simpl.
  - unfold write_content. pose proof (cow_keyed id st Hk) as Hc. destruct (cow_into_shadow id st) as [[ | |] st1];
      try done. case_match; try done. by apply keyed_update.
  - unfold create_node. case_match eqn:E; [done |]. by apply NoDup_snoc_row.
  - unfold remove_node. case_match; try done. case_match. subst. unfold keyed. simpl. rewrite NoDup_update by done.
    revert Hk. unfold keyed. generalize (shadow st).
    induction (zip _ _) as [| x xs IH]; simpl; intros rows Hk; [done |]. by apply IH, upsert_keyed.
  - unfold truncate. pose proof (cow_keyed id st Hk) as Hc. destruct (cow_into_shadow id st) as [[ | |] st1];
      try done. by apply keyed_update.
  - constructor.
  - unfold commit, commit_apply. case_bool_decide; [done |].
    destruct (g_batch_splice _ _) as [[ | |] l]; [constructor | done..].
Qed.

Lemma run_ops_keyed os st : keyed st → keyed (foldl (flip run_op) st os).
Proof. revert st. induction os as [| o os IH]; simpl; intros st Hk; [done |]. by apply IH, run_op_keyed. Qed.

(** The row found under a key is the only one with it. *)
Lemma find_row_elem rows r : NoDup (sh_id <$> rows) → r ∈ rows → find_row (sh_id r) rows = Some r.
Proof.
  induction rows as [| x rows IH]; simpl; [by intros _ ?%not_elem_of_nil |].
  intros [Hx Hn]%NoDup_cons [-> | Hr]%elem_of_cons; rewrite find_row_cons; [by rewrite decide_True |].
  rewrite decide_False; [by apply IH |]. intros He. apply Hx. rewrite He. by apply list_elem_of_fmap_2.
Qed.

Lemma commit_edits_fst st :
  (commit_edits st).*1 = dirty_nodes st ++ tombstone_nodes st.
Proof. unfold commit_edits. rewrite fmap_app, <- !list_fmap_compose. done. Qed.
Lemma commit_edits_nil st : commit_edits st = [] ↔ shadow st = [].
Proof.
  unfold commit_edits. split; [| by intros ->]. intros H.
  destruct (shadow st) as [| r rows]; [done |]. apply app_nil in H as [H1 H2].
  apply fmap_nil_inv in H1, H2. destruct (sh_tombstone r) eqn:E.
  - by rewrite filter_cons_True in H2 by done.
  - by rewrite filter_cons_True in H1 by done.
Qed.
Lemma commit_edits_NoDup st : keyed st → NoDup (commit_edits st).*1.
Proof.
  intros Hk. rewrite commit_edits_fst. apply NoDup_app.
  assert (∀ P (HP : ∀ r, Decision (P r)), NoDup (sh_id <$> filter P (shadow st))) as Hf.
  { intros P HP. eapply sublist_NoDup; [exact Hk |]. apply fmap_sublist, sublist_filter. }
  split_and!; [apply Hf | | apply Hf].
  intros x (r & -> & [Hr Hin]%list_elem_of_filter)%list_elem_of_fmap
           (r' & Heq & [Hr' Hin']%list_elem_of_filter)%list_elem_of_fmap.
  apply find_row_elem in Hin, Hin'; [| done..]. rewrite <- Heq in Hin'. congruence.
Qed.
Lemma commit_edits_elem st id rec :
  keyed st → (id, rec) ∈ commit_edits st ↔
    (id ∈ dirty_nodes st ∧ rec = staged_record st id) ∨ (is_tombstone st id = true ∧ rec = None).
Proof.
  intros Hk. unfold commit_edits, dirty_nodes. rewrite elem_of_app, !list_elem_of_fmap. split.
  - intros [(r & [= -> ->] & [Hr Hin]%list_elem_of_filter) | (r & [= -> ->] & [Hr Hin]%list_elem_of_filter)].
    + left. unfold staged_record. rewrite (find_row_elem _ _ Hk Hin), Hr. split; [| done].
      exists r. split; [done |]. by apply list_elem_of_filter.
    + right. unfold is_tombstone. by rewrite (find_row_elem _ _ Hk Hin).
  - intros [[(r & -> & [Hr Hin]%list_elem_of_filter) ->] | [Ht ->]].
    + left. exists r. unfold staged_record. rewrite (find_row_elem _ _ Hk Hin), Hr. split; [done |].
      by apply list_elem_of_filter.
    + right. unfold is_tombstone in Ht. destruct (find_row id (shadow st)) as [r |] eqn:E; [| done].
      exists r. pose proof (find_row_id _ _ _ E) as <-. split; [done |]. apply list_elem_of_filter.
      split; [done |]. unfold find_row in E. apply fmap_Some in E as ([i x] & E & ->).
      apply list_find_Some in E as (E & _). by apply list_elem_of_lookup_2 in E.
Qed.

Lemma commit_apply_cases st edits :
  edits ≠ [] → commit_apply edits st
  = let '(r, l) := g_batch_splice edits (live st) in
    (r, if is_ok r then StagingGraph_new l else {| live := l; shadow := shadow st |}).
Proof.
  intros Hne. unfold commit_apply. rewrite bool_decide_false by done.
  by destruct (g_batch_splice edits (live st)) as [[[] | |] l].
Qed.

(** Commit after any sequence of operations.  The batch names each staged
    node once, with its staged record, or with none when it is deleted; an
    overlay with nothing staged does not touch the live graph; otherwise the
    batch goes to the live graph in one call, whose success empties the overlay
    and whose failure keeps everything staged, for a retry with the same batch. *)
Theorem commit_exact (l : L) (os : list op) :
  let st := foldl (flip run_op) (StagingGraph_new l) os in
  let edits := commit_edits st in
  NoDup edits.*1
  ∧ (∀ id rec, (id, rec) ∈ edits ↔
       (id ∈ dirty_nodes st ∧ rec = staged_record st id) ∨ (is_tombstone st id = true ∧ rec = None))
  ∧ (shadow st = [] → commit st = (Ok tt, st))
  ∧ (shadow st ≠ [] →
       (∀ l', g_batch_splice edits (live st) = (Ok tt, l') → commit st = (Ok tt, StagingGraph_new l'))
       ∧ (∀ r l', g_batch_splice edits (live st) = (r, l') → r ≠ Ok tt →
            ∃ st', commit st = (r, st') ∧ live st' = l' ∧ commit_edits st' = edits
              ∧ ∀ id, is_tombstone st' id = is_tombstone st id ∧ staged_record st' id = staged_record st id)).
Proof.
  intros st edits. assert (keyed st) as Hk by (apply run_ops_keyed; constructor).
  split_and!; [by apply commit_edits_NoDup | intros; by apply commit_edits_elem | |].
  - intros He%commit_edits_nil. unfold commit, commit_apply. by rewrite He.
  - intros Hne. assert (edits ≠ []) as Hed by (by rewrite <- commit_edits_nil in Hne).
    unfold commit. fold edits. rewrite commit_apply_cases by done. split.
    + by intros l' ->.
    + intros r l' -> Hr. destruct r as [[] | e |]; [done | |]; by eexists.
Qed.
End committing.

Section races.
Context {L : Type} `{G : Graph L, GF : !GraphFiles L}.

Lemma run_edits_keyed es (st st' : StagingGraph L) :
  keyed st → run_edits es st = (Ok tt, st') → keyed st'.
Proof.
  revert st. induction es as [| e es IH]; simpl; intros st Hk; [by intros [= <-] |].
  destruct (run_edit e st) as [[[] | |] st1] eqn:He; [| done..]. apply IH.
  destruct e as [now id data off | now id]; simpl in He.
  - pose proof (run_op_keyed (OWrite now id data off) st Hk) as H. simpl in H.
    destruct (write_content now id data off st). by injection He as _ ->.
  - pose proof (run_op_keyed (OTruncate now id) st Hk) as H. simpl in H. by rewrite He in H.
Qed.

(** Commit drops the lock between collecting the batch and clearing the
    table, so a write that another thread stages in between is acknowledged and
    readable, is in no batch, and is gone when commit reports success. *)
Theorem commit_drops_concurrent_write now id c data off (l : L) es m :
  spec_edits es (g_content l) = Some m → m id = Some c → text c = true →
  off + len data < i64_max → text (write_at c data off) = true → write_at c data off ≠ c →
  ∃ st st', run_edits es (StagingGraph_new l) = (Ok tt, st)
    ∧ write_content now id data off st = (Ok (len data), st')
    ∧ read_content st' id i64_max 0 = Ok (write_at c data off)
    ∧ (id, Some (write_at c data off)) ∉ commit_edits st
    ∧ ∀ l', commit_edits st ≠ [] → g_batch_splice (commit_edits st) l = (Ok tt, l') →
        commit_apply (commit_edits st) st' = (Ok tt, StagingGraph_new l').
Proof.
  intros Hes Hid Htc Hoff Htw Hne.
  destruct (run_edits_simulates es (StagingGraph_new l) (g_content l) m)
    as (st & Hrun & Hl & Hs & Hm); [by intros ? | done | done |].
  rewrite <- Hm in Hid.
  apply bool_decide_eq_true in Htc, Htw.
  destruct (write_content_view now st id c data off) as (st' & Hw & Hl' & Hc' & _ & Hs'); [done.. |].
  exists st, st'. split_and!; [done | done | | |].
  - rewrite (read_content_view _ _ _ _ _ Hs' Hc') by done. pose proof (content_small _ _ _ Hs' Hc').
    by rewrite N.add_0_l, N.min_r, slice_full by lia.
  - assert (keyed st) as Hk by (eapply run_edits_keyed; [| done]; constructor).
    rewrite commit_edits_elem by done. intros [[Hd Hrec] | [_ [=]]]. apply Hne.
    unfold content, staged_record in *. destruct (find_row id (shadow st)) as [r |] eqn:E; [| done].
    apply row_content_Some in Hid as (Ht & _ & ->). rewrite Ht in Hrec.
    destruct (sh_record r) as [b |]; [| done]. by injection Hrec.
  - intros l' Hed Hsplice. rewrite commit_apply_cases, Hl', Hl by done. simpl. by rewrite Hsplice.
Qed.

(** ** Where the overlay departs from a filesystem *)

(** A truncated file and a removed one look the same in the batch: both are
    edits without text, which the trait documents as deletions. *)
Lemma truncation_commits_as_removal now id c (l : L) :
  g_content l id = Some c → is_utf8 c →
  ∃ st1 st2, truncate now id (StagingGraph_new l) = (Ok tt, st1) ∧ content st1 id = Some []
    ∧ remove_node 2 now id (StagingGraph_new l) = (Ok tt, st2) ∧ content st2 id = None
    ∧ commit_edits st1 = [(id, None)] ∧ commit_edits st2 = [(id, None)].
Proof.
  intros Hc Hu. pose proof (g_content_node _ _ _ Hc) as (Hlt & node & Hget & Hdir & Hsize).
  assert (∃ rec, cow_record (StagingGraph_new l) id node = Ok rec) as [rec Hrec].
  { unfold cow_record. rewrite Hdir. case_match; simpl; [| eauto].
    rewrite (g_content_read _ _ c); eauto. rewrite Hsize. unfold i64_max in *. lia. }
  unfold truncate, cow_into_shadow, remove_node. simpl. rewrite Hget. simpl. rewrite Hrec, Hdir. simpl.
  do 2 eexists. split_and!; [done | | done | | |].
  - unfold content. simpl. rewrite bool_decide_true by done. rewrite find_row_cons.
    rewrite decide_True by done. apply row_content_Some. simpl. by rewrite Hdir.
  - unfold content. simpl. rewrite andb_false_r, find_row_cons. by rewrite decide_True.
  - unfold commit_edits. simpl. by rewrite bool_decide_true.
  - unfold commit_edits. simpl. by rewrite andb_false_r.
Qed.

(** A write to a node that is nowhere reports success and stages nothing. *)
Lemma write_to_unknown_node now id data off (st : StagingGraph L) :
  find_row id (shadow st) = None → g_get_node (live st) id = Ok None → off + len data < i64_max →
  write_content now id data off st = (Ok (len data), st).
Proof.
  intros Hf Hg Hoff. unfold write_content, cow_into_shadow, staged_record. rewrite Hf, Hg. simpl. rewrite Hf. simpl.
  rewrite patched_write_at by (done || unfold i64_max in *; simpl in *; lia). f_equal.
  destruct st as [lv rows]. unfold with_shadow. simpl. f_equal. simpl in Hf.
  apply find_row_None in Hf. unfold update_where. rewrite <- (list_fmap_id rows) at 2.
  apply list_fmap_ext. intros i r Hr. simpl. rewrite bool_decide_false; [done |].
  intros <-. apply Hf. by eapply list_elem_of_fmap_2, list_elem_of_lookup_2.
Qed.

(** A deleted name cannot be created again before the commit. *)
Lemma create_after_remove_conflicts now parent name is_dir (st : StagingGraph L) :
  is_tombstone st (if bool_decide (parent = EmptyString) then name else parent +:+ "/" +:+ name) = true →
  create_node now parent name is_dir st = (Err PrimaryKeyConflict, st).
Proof. unfold is_tombstone, create_node. by case_match. Qed.
End races.

(** ** Concrete runs *)

Definition ascii_bytes (s : string) : list byte := String.list_byte_of_string s.
Definition file_node (id : string) (c : list byte) : Node := {|
  nd_id := id; nd_name := id; nd_is_dir := false; nd_size := len c; nd_mtime := 0 |}.
Definition sample : MemoryGraph :=
  add_node (file_node "a" (ascii_bytes "hello")) "" (Some (ascii_bytes "hello"))
  (add_node (file_node "b" (ascii_bytes "kept")) "" (Some (ascii_bytes "kept")) MemoryGraph_new).

(** A staged node that the live graph lacks survives its removal. *)
Example remove_of_created_is_lost :
  let '(_, st) := create_node 1 "" "new" false (StagingGraph_new sample) in
  let '(r, st) := remove_node 10 2 "new" st in
  r = Ok tt ∧ dirty_nodes st = ["new"%string] ∧ is_tombstone st "new" = false.
Proof. by vm_compute. Qed.
(** Removing [a_b] also deletes what is staged below [axb]: the id is a pattern. *)
Example remove_matches_wildcards :
  let '(_, st) := create_node 1 "axb" "f" false (StagingGraph_new sample) in
  let '(_, st) := remove_node 10 2 "a_b" st in
  tombstone_nodes st = ["axb/f"%string].
Proof. by vm_compute. Qed.
(** Bytes that are not UTF-8 are not kept. *)
Example binary_write_is_altered :
  let '(r, st) := write_content 1 "a" [xff] 0 (StagingGraph_new sample) in
  r = Ok 1 ∧ read_content st "a" 3 0 = Ok [xef; xbf; xbd]
  ∧ (nd_size <$> default None (match get_node st "a" with Ok n => Some n | _ => None end)) = Some 5.
Proof. by vm_compute. Qed.

(** A live graph that accepts batches, for the runs that commit. *)
Record SpliceGraph := { sg : MemoryGraph }.
Definition splice_edit (g : MemoryGraph) (e : string * option (list byte)) : MemoryGraph :=
  match e with
  | (id, Some c) => add_node (file_node id c) id (Some c) g
  | (id, None) => {| mg_nodes := delete id (mg_nodes g); mg_children := mg_children g;
                     mg_content := delete id (mg_content g) |}
  end.
#[export] Instance SpliceGraph_Graph : Graph SpliceGraph := {
  g_get_node g := g_get_node (sg g);
  g_lookup_child g := g_lookup_child (sg g);
  g_list_children g := g_list_children (sg g);
  g_read_content g := g_read_content (sg g);
  g_batch_splice edits g := (Ok tt, {| sg := foldl splice_edit (sg g) edits |});
}.
#[export] Instance SpliceGraph_Files : GraphFiles SpliceGraph := {
  g_content g := g_content (sg g);
  g_content_node g := g_content_node (sg g);
  g_content_read g := g_content_read (sg g);
}.

Definition sample_edits : list edit :=
  [EWrite 1 "a" (ascii_bytes "J") 0; ETruncate 2 "b"; EWrite 3 "a" (ascii_bytes "!") 6].

Lemma overlay_refines_files_witness :
  ∃ st, run_edits sample_edits (StagingGraph_new sample) = (Ok tt, st) ∧ live st = sample
    ∧ read_content st "a" 100 0 = Ok (ascii_bytes "Jello" ++ [x00] ++ ascii_bytes "!")
    ∧ read_content st "b" 100 0 = Ok [].
Proof.
  destruct (overlay_refines_files sample sample_edits
    (put "a" (ascii_bytes "Jello" ++ [x00] ++ ascii_bytes "!")
      (put "b" [] (put "a" (ascii_bytes "Jello") (g_content sample))))) as (st & Hrun & Hl & Hread).
  { reflexivity. }
  exists st. split_and!; [exact Hrun | exact Hl | |].
  - destruct (Hread "a"%string (ascii_bytes "Jello" ++ [x00] ++ ascii_bytes "!")) as [H _]; [reflexivity |].
    rewrite H by (unfold i64_max; lia). vm_compute. reflexivity.
  - destruct (Hread "b"%string []) as [H _]; [reflexivity |]. rewrite H by (unfold i64_max; lia). vm_compute. reflexivity.
Defined.

Lemma commit_drops_concurrent_write_witness :
  ∃ st st', run_edits [ETruncate 1 "b"] (StagingGraph_new {| sg := sample |}) = (Ok tt, st)
    ∧ write_content 2 "a" (ascii_bytes "J") 0 st = (Ok 1, st')
    ∧ read_content st' "a" i64_max 0 = Ok (ascii_bytes "Jello")
    ∧ ∃ st'', commit_apply (commit_edits st) st' = (Ok tt, st'')
        ∧ read_content st'' "a" 100 0 = Ok (ascii_bytes "hello").
Proof.
  destruct (commit_drops_concurrent_write 2 "a" (ascii_bytes "hello") (ascii_bytes "J") 0 {| sg := sample |}
    [ETruncate 1 "b"] (put "b" [] (g_content {| sg := sample |}))) as (st & st' & Hrun & Hw & Hr & _ & Hc).
  - reflexivity.
  - reflexivity.
  - reflexivity.
  - reflexivity.
  - reflexivity.
  - discriminate.
  - exists st, st'. split_and!; [exact Hrun | exact Hw | exact Hr |].
    assert (commit_edits st = [("b"%string, None)]) as He.
    { vm_compute in Hrun. injection Hrun as <-. reflexivity. }
    rewrite He in Hc |- *. eexists. split; [apply Hc; [discriminate | reflexivity] |]. vm_compute. reflexivity.
Defined.

Lemma commit_exact_witness :
  ∃ l', commit (foldl (flip run_op) (StagingGraph_new {| sg := sample |}) [OWrite 1 "a" (ascii_bytes "J") 0])
        = (Ok tt, StagingGraph_new l')
    ∧ g_read_content l' "a" 100 0 = Ok (ascii_bytes "Jello").
Proof.
  destruct (commit_exact {| sg := sample |} [OWrite 1 "a" (ascii_bytes "J") 0]) as (_ & _ & _ & H).
  destruct H as [H _]; [discriminate |].
  eexists. split; [apply H; reflexivity |]. vm_compute. reflexivity.
Defined.
