(* ===== verification/Limits.v ===== *)
(** * Execution requests and resource ceilings

    [rs/ll-open/runtime/src/model.rs] and [error.rs]: the values that cross the
    execution boundary and the checks on them.  Strings are their UTF-8 bytes,
    so [len()] is [String.length]; [u64] fields are [N]. *)

From S2P Require Import Prelude.
From stdpp Require Import pretty.
From Stdlib Require Import NArith Lia Ascii.
Local Open Scope N_scope.

(** ** [error.rs] *)

Inductive ErrorCode :=
| InvalidSpec | InvalidGrant | Unauthenticated | Unauthorized | IdentityPolicyMismatch
| UnsupportedBackend | NotProvisioned | ResourceConflict | ResourceExhausted | BackendFailed
| Cancelled_ | Internal.

Record ExecutionError := { code : ErrorCode; retryable : bool; detail : string }.

#[global] Instance ErrorCode_eq_dec : EqDecision ErrorCode.
Proof. solve_decision. Defined.
#[global] Instance ExecutionError_eq_dec : EqDecision ExecutionError.
Proof. solve_decision. Defined.

Definition invalid (d : string) : ExecutionError :=
  {| code := InvalidSpec; retryable := false; detail := d |}.
Definition unsupported (d : string) : ExecutionError :=
  {| code := UnsupportedBackend; retryable := false; detail := d |}.
Definition identity_mismatch (d : string) : ExecutionError :=
  {| code := IdentityPolicyMismatch; retryable := false; detail := d |}.
Definition not_provisioned (d : string) : ExecutionError :=
  {| code := NotProvisioned; retryable := true; detail := d |}.
Definition backend_error (d : string) : ExecutionError :=
  {| code := BackendFailed; retryable := false; detail := d |}.
Definition internal (d : string) : ExecutionError :=
  {| code := Internal; retryable := false; detail := d |}.

(** ** Limits *)

Inductive CeilingMechanism := Unenforced | Supervisor | Hypervisor | Cgroup.

#[global] Instance CeilingMechanism_eq_dec : EqDecision CeilingMechanism.
Proof. solve_decision. Defined.

Definition is_enforced (m : CeilingMechanism) : bool :=
  match m with Unenforced => false | _ => true end.

Record EnforcedCeilings := {
  enf_wall_time : CeilingMechanism;
  enf_output_bytes : CeilingMechanism;
  enf_memory : CeilingMechanism;
  enf_cpu : CeilingMechanism;
  enf_pids : CeilingMechanism;
}.

Definition DEFAULT_CPU_PERIOD_US : N := 100000.

Definition wall_clock_only : EnforcedCeilings := {|
  enf_wall_time := Supervisor; enf_output_bytes := Unenforced; enf_memory := Unenforced;
  enf_cpu := Unenforced; enf_pids := Unenforced |}.
Definition hypervisor_backed : EnforcedCeilings := {|
  enf_wall_time := Supervisor; enf_output_bytes := Unenforced; enf_memory := Hypervisor;
  enf_cpu := Hypervisor; enf_pids := Unenforced |}.

Record MemoryLimits := { memory_limit : N }.
Record CpuLimits := { quota : N; period : N }.
Record PidsLimits := { pids_limit : N }.
Record ResourceLimits := {
  wall_time_ms : N;
  output_bytes : N;
  memory : MemoryLimits;
  cpu : CpuLimits;
  pids : PidsLimits;
}.

#[global] Instance MemoryLimits_eq_dec : EqDecision MemoryLimits.
Proof. solve_decision. Defined.
#[global] Instance CpuLimits_eq_dec : EqDecision CpuLimits.
Proof. solve_decision. Defined.
#[global] Instance PidsLimits_eq_dec : EqDecision PidsLimits.
Proof. solve_decision. Defined.
#[global] Instance ResourceLimits_eq_dec : EqDecision ResourceLimits.
Proof. solve_decision. Defined.

(** [MemoryLimits::hypervisor_ram_mib] *)
Definition MIB : N := 1024 * 1024.
Definition hypervisor_ram_mib (m : MemoryLimits) : result ExecutionError (option N) :=
  if memory_limit m =? 0 then Ok None else
  if negb (memory_limit m mod MIB =? 0) then
    Err (unsupported "grant limit memory.limit is not a whole MiB, which is the unit the hypervisor sizes the guest in")
  else
  if memory_limit m / MIB <=? u32_max then Ok (Some (memory_limit m / MIB))
  else Err (unsupported "grant limit memory.limit exceeds what the hypervisor can size").

Definition effective_period (c : CpuLimits) : N :=
  if period c =? 0 then DEFAULT_CPU_PERIOD_US else period c.

(** [CpuLimits::hypervisor_vcpus] *)
Definition hypervisor_vcpus (c : CpuLimits) : result ExecutionError (option N) :=
  if quota c =? 0 then Ok None else
  let p := effective_period c in
  if negb (quota c mod p =? 0) then
    Err (unsupported "grant limit cpu.quota is not a whole multiple of cpu.period, and the hypervisor sizes whole vCPUs")
  else
  if quota c / p <=? u8_max then Ok (Some (quota c / p))
  else Err (unsupported "grant limit cpu.quota exceeds what the hypervisor can size").

(** [CpuLimits::cgroup_max] *)
Definition cgroup_max (c : CpuLimits) : result ExecutionError (option string) :=
  if quota c =? 0 then Ok None else
  let p := effective_period c in
  if negb ((1000 <=? p) && (p <=? 1000000)) then
    Err (unsupported "grant limit cpu.period is outside cgroup v2's 1000..=1000000 microseconds")
  else
  if quota c <? 1000 then
    Err (unsupported "grant limit cpu.quota is below cgroup v2's 1000-microsecond minimum")
  else Ok (Some (pretty (quota c) +:+ " " +:+ pretty p)%string).

(** [ResourceLimits::validate] *)
Definition limits_validate (l : ResourceLimits) : result ExecutionError unit :=
  if (quota (cpu l) =? 0) && negb (period (cpu l) =? 0) then
    Err (invalid "cpu.period without cpu.quota names no ceiling")
  else Ok tt.

(** The first entry of a [for] loop over [(name, …)] that a test refuses. *)
Fixpoint first_refused {A} (refuse : A → option ExecutionError) (l : list A)
    : result ExecutionError unit :=
  match l with
  | [] => Ok tt
  | x :: l => match refuse x with Some e => Err e | None => first_refused refuse l end
  end.

(** [EnforcedCeilings::check] *)
Definition ceilings (enf : EnforcedCeilings) (l : ResourceLimits) : list (string * N * CeilingMechanism) := [
  ("wallTimeMs", wall_time_ms l, enf_wall_time enf);
  ("outputBytes", output_bytes l, enf_output_bytes enf);
  ("memory.limit", memory_limit (memory l), enf_memory enf);
  ("cpu.quota", quota (cpu l), enf_cpu enf);
  ("pids.limit", pids_limit (pids l), enf_pids enf) ]%string.
Definition refuse_unenforced (x : string * N * CeilingMechanism) : option ExecutionError :=
  let '(name, requested, mechanism) := x in
  if negb (requested =? 0) && negb (is_enforced mechanism)
  then Some (unsupported ("grant limit " +:+ name +:+ " cannot be enforced by the selected backend"))
  else None.
Definition check (enf : EnforcedCeilings) (l : ResourceLimits) : result ExecutionError unit :=
  _ ← limits_validate l;
  _ ← first_refused refuse_unenforced (ceilings enf l);
  _ ← (if bool_decide (enf_memory enf = Hypervisor)
       then (λ _, tt) <$> hypervisor_ram_mib (memory l) else Ok tt);
  match enf_cpu enf with
  | Hypervisor => (λ _, tt) <$> hypervisor_vcpus (cpu l)
  | Cgroup => (λ _, tt) <$> cgroup_max (cpu l)
  | Unenforced | Supervisor => Ok tt
  end.

(** [ResourceLimits::narrows]; products are taken in [u128]. *)
Definition wmul128 (a b : N) : N := (a * b) mod 2 ^ 128.
Definition compared (resolved requested : ResourceLimits) : list (string * N * N) := [
  ("wallTimeMs", wall_time_ms requested, wall_time_ms resolved);
  ("outputBytes", output_bytes requested, output_bytes resolved);
  ("memory.limit", memory_limit (memory requested), memory_limit (memory resolved));
  ("pids.limit", pids_limit (pids requested), pids_limit (pids resolved)) ]%string.
Definition refuse_wider (x : string * N * N) : option ExecutionError :=
  let '(name, requested, resolved) := x in
  if negb (requested =? 0) && ((resolved =? 0) || (requested <? resolved))
  then Some (invalid ("grant limit " +:+ name +:+ " widens the requested limit"))
  else None.
Definition narrows (self requested : ResourceLimits) : result ExecutionError unit :=
  _ ← first_refused refuse_wider (compared self requested);
  if negb (quota (cpu requested) =? 0) then
    let widens := (quota (cpu self) =? 0)
      || (wmul128 (quota (cpu requested)) (effective_period (cpu self))
          <? wmul128 (quota (cpu self)) (effective_period (cpu requested))) in
    if widens then Err (invalid "grant limit cpu.quota widens the requested limit") else Ok tt
  else Ok tt.

(** ** Requests *)

Record DigestRef := { algorithm : string; value : string }.

#[global] Instance DigestRef_eq_dec : EqDecision DigestRef.
Proof. solve_decision. Defined.

(** [byte.is_ascii_hexdigit() && !byte.is_ascii_uppercase()] *)
Definition lower_hex (c : ascii) : bool :=
  let n := N_of_ascii c in
  (((48 <=? n) && (n <=? 57)) || ((97 <=? n) && (n <=? 102)) || ((65 <=? n) && (n <=? 70)))
  && negb ((65 <=? n) && (n <=? 90)).

Fixpoint string_all (p : ascii → bool) (s : string) : bool :=
  match s with EmptyString => true | String c s => p c && string_all p s end.

Definition validate_blake3 (d : DigestRef) : result ExecutionError unit :=
  if negb (bool_decide (algorithm d = "blake3-256"%string))
  then Err (invalid "rootfs digest algorithm must be blake3-256")
  else if negb (String.length (value d) =? 64)%nat || negb (string_all lower_hex (value d))
  then Err (invalid "rootfs digest must be 64 lowercase hexadecimal characters")
  else Ok tt.

(** [Path::components] on Unix: the path is cut at every ['/']; empty pieces and
    pieces that are ["."] vanish, except a leading ["."], and a leading ['/'] is
    the root. *)
Inductive Component := RootDir | CurDir | ParentDir | Normal (name : string).

Fixpoint split_slash (s : string) : list string :=
  match s with
  | EmptyString => [EmptyString]
  | String c s =>
      if bool_decide (c = "/"%char) then EmptyString :: split_slash s
      else match split_slash s with
           | p :: ps => String c p :: ps
           | [] => [String c EmptyString]
           end
  end.
Definition parse_single_component (piece : string) : option Component :=
  if bool_decide (piece = EmptyString) then None
  else if bool_decide (piece = "."%string) then None
  else if bool_decide (piece = ".."%string) then Some ParentDir
  else Some (Normal piece).
Definition is_absolute (s : string) : bool :=
  match s with String c _ => bool_decide (c = "/"%char) | EmptyString => false end.
Definition components (s : string) : list Component :=
  (if is_absolute s then [RootDir]
   else match split_slash s with
        | p :: _ => if bool_decide (p = "."%string) then [CurDir] else []
        | [] => []
        end)
  ++ omap parse_single_component (split_slash s).
Definition is_normal (c : Component) : bool := match c with Normal _ => true | _ => false end.

(** [validate_guest_path]; [catalog.rs] has the same function with its own
    message. *)
Definition guest_path_ok (v : string) : bool :=
  negb (bool_decide (v = EmptyString) || is_absolute v
        || existsb (λ part, negb (is_normal part)) (components v)).
Definition validate_guest_path (v : string) : result ExecutionError unit :=
  if negb (guest_path_ok v)
  then Err (invalid "executable must be a non-empty guest-relative path without traversal")
  else Ok tt.

Inductive WorkspaceOperation := Read | List_ | Query | Mutate | Commit.

#[global] Instance WorkspaceOperation_eq_dec : EqDecision WorkspaceOperation.
Proof. solve_decision. Defined.

Record WorkspaceGrant := {
  wg_name : string;
  wg_graph_root : string;
  expected_generation : N;
  operations : list WorkspaceOperation;
}.

#[global] Instance WorkspaceGrant_eq_dec : EqDecision WorkspaceGrant.
Proof. solve_decision. Defined.

Record ExecutionRequest := {
  run_id : string;
  replay_key : string;
  rootfs : DigestRef;
  executable : string;
  arguments : list string;
  public_environment : gmap string string;
  allowed_egress : list string;
  limits : ResourceLimits;
  confinement_digest : string;
  confinement_manifest : option string;
  workspaces : list WorkspaceGrant;
}.

(** [ExecutionRequest::validate] *)
Definition request_validate (r : ExecutionRequest) : result ExecutionError unit :=
  _ ← ensure (negb (bool_decide (run_id r = EmptyString))) (invalid "run_id must not be empty");
  _ ← ensure (negb (bool_decide (replay_key r = EmptyString))) (invalid "replay_key must not be empty");
  _ ← validate_blake3 (rootfs r);
  _ ← validate_guest_path (executable r);
  _ ← ensure (negb (wall_time_ms (limits r) =? 0)) (invalid "wall_time_ms must be non-zero");
  _ ← limits_validate (limits r);
  ensure (bool_decide (allowed_egress r = []))
    (unsupported "the configured execution backend does not yet support egress grants").

(** ** What the checks mean *)

Lemma first_refused_ok {A} (refuse : A → option ExecutionError) l :
  first_refused refuse l = Ok tt ↔ Forall (λ x, refuse x = None) l.
Proof.
  induction l as [|x l IH]; simpl; [by split|]. rewrite Forall_cons.
  destruct (refuse x); [|rewrite IH; naive_solver]. split; [done|naive_solver].
Qed.

Lemma first_refused_total {A} (refuse : A → option ExecutionError) l :
  first_refused refuse l ≠ Panic.
Proof. induction l as [|x l IH]; simpl; [done|]. by destruct (refuse x). Qed.

Lemma effective_period_pos c : 0 < effective_period c.
Proof. unfold effective_period. destruct (N.eqb_spec (period c) 0); [done|lia]. Qed.

(** A quotient that fits is accepted exactly when nothing is lost by it. *)
Lemma whole_multiple n d max :
  0 < d → (∃ k, k ≤ max ∧ n = k * d) ↔ n mod d = 0 ∧ n / d ≤ max.
Proof.
  intros Hd. split.
  - intros (k & Hk & ->). rewrite N.Div0.mod_mul, N.div_mul by lia. done.
  - intros [Hm Hq]. exists (n / d). split; [done|]. rewrite (N.div_mod' n d) at 1. lia.
Qed.

(** The shape [hypervisor_ram_mib] and [hypervisor_vcpus] share. *)
Lemma exact_units_spec n d max (e1 e2 : ExecutionError) o :
  0 < d →
  (if n =? 0 then Ok None else if negb (n mod d =? 0) then Err e1
   else if n / d <=? max then Ok (Some (n / d)) else Err e2) = Ok o ↔
  n = default 0 o * d ∧ default 0 o ≤ max ∧ (o = None ↔ n = 0).
Proof.
  intros Hd. pose proof (whole_multiple n d max Hd) as Hw.
  destruct (N.eqb_spec n 0) as [E|E].
  { split; [intros [= <-]; simpl; split_and!; lia || done|]. intros (_ & _ & Ho). f_equal. symmetry. by apply Ho. }
  assert (n = default 0 o * d ∧ default 0 o ≤ max ∧ (o = None ↔ n = 0) →
          n mod d = 0 ∧ n / d ≤ max ∧ o = Some (n / d)) as Hfwd.
  { intros (En & Hk & Ho). destruct o as [k|]; simpl in En, Hk; [|by destruct E; apply Ho].
    destruct (proj1 Hw) as [? ?]; [by exists k|]. split_and!; [done|done|]. by rewrite En, N.div_mul by lia. }
  destruct (N.eqb_spec (n mod d) 0) as [Em|Em]; cbn [negb]; [|split; [done|naive_solver]].
  destruct (N.leb_spec (n / d) max) as [Hq|Hq]; [|split; [done|intros (_ & ? & _)%Hfwd; lia]].
  split; [intros [= <-]; simpl|intros (_ & _ & ->)%Hfwd; done].
  split_and!; [rewrite (N.div_mod' n d) at 1; lia|done|split; [done|by intros ->]].
Qed.

(** The hypervisor is sized to exactly the ceiling, never rounded. *)
Lemma hypervisor_ram_mib_spec m o :
  hypervisor_ram_mib m = Ok o ↔
  memory_limit m = default 0 o * MIB ∧ default 0 o ≤ u32_max ∧ (o = None ↔ memory_limit m = 0).
Proof. by apply exact_units_spec. Qed.

Lemma hypervisor_vcpus_spec c o :
  hypervisor_vcpus c = Ok o ↔
  quota c = default 0 o * effective_period c ∧ default 0 o ≤ u8_max ∧ (o = None ↔ quota c = 0).
Proof. apply exact_units_spec, effective_period_pos. Qed.

Lemma cgroup_max_spec c :
  (∃ o, cgroup_max c = Ok o) ↔
  quota c = 0 ∨ 1000 ≤ effective_period c ≤ 1000000 ∧ 1000 ≤ quota c.
Proof.
  unfold cgroup_max. destruct (N.eqb_spec (quota c) 0); [naive_solver|].
  destruct (N.leb_spec 1000 (effective_period c)), (N.leb_spec (effective_period c) 1000000),
    (N.ltb_spec (quota c) 1000); simpl; (split; [intros [o ?]; try done; right; lia|]);
    intros [?|?]; try lia; eauto.
Qed.

(** *** [check] *)

(** A ceiling request some tier can hold a run to, exactly as written. *)
Definition enforceable (enf : EnforcedCeilings) (l : ResourceLimits) : Prop :=
  (quota (cpu l) = 0 → period (cpu l) = 0) ∧
  (∀ name requested mechanism, (name, requested, mechanism) ∈ ceilings enf l →
     requested ≠ 0 → mechanism ≠ Unenforced) ∧
  (enf_memory enf = Hypervisor → ∃ mib, mib ≤ u32_max ∧ memory_limit (memory l) = mib * MIB) ∧
  (enf_cpu enf = Hypervisor → ∃ vcpus, vcpus ≤ u8_max ∧
     quota (cpu l) = vcpus * effective_period (cpu l)) ∧
  (enf_cpu enf = Cgroup → quota (cpu l) = 0 ∨
     1000 ≤ effective_period (cpu l) ≤ 1000000 ∧ 1000 ≤ quota (cpu l)).

Lemma fmap_ok_tt {E A} (r : result E A) : (λ _, tt) <$> r = Ok tt ↔ ∃ a, r = Ok a.
Proof. destruct r as [a|e|]; unfold fmap; simpl; split; try done; [eauto|by intros [? ?]..]. Qed.

Lemma limits_validate_ok l :
  limits_validate l = Ok tt ↔ (quota (cpu l) = 0 → period (cpu l) = 0).
Proof.
  unfold limits_validate. destruct (N.eqb_spec (quota (cpu l)) 0), (N.eqb_spec (period (cpu l)) 0);
    simpl; naive_solver.
Qed.

Lemma refuse_unenforced_none name requested mechanism :
  refuse_unenforced (name, requested, mechanism) = None ↔ (requested ≠ 0 → mechanism ≠ Unenforced).
Proof.
  simpl. destruct (N.eqb_spec requested 0), mechanism; simpl; naive_solver.
Qed.

Lemma ram_ok m : (∃ o, hypervisor_ram_mib m = Ok o) ↔ ∃ mib, mib ≤ u32_max ∧ memory_limit m = mib * MIB.
Proof.
  setoid_rewrite hypervisor_ram_mib_spec. split.
  - intros (o & -> & ? & _). eauto.
  - intros (k & Hk & E). destruct (decide (k = 0)) as [->|]; [exists None|exists (Some k)]; simpl;
      split_and!; try done. split; [done|]. unfold MIB in *. lia.
Qed.

Lemma vcpus_ok c : (∃ o, hypervisor_vcpus c = Ok o) ↔
  ∃ v, v ≤ u8_max ∧ quota c = v * effective_period c.
Proof.
  setoid_rewrite hypervisor_vcpus_spec. pose proof (effective_period_pos c). split.
  - intros (o & -> & ? & _). eauto.
  - intros (k & Hk & E). destruct (decide (k = 0)) as [->|]; [exists None|exists (Some k)]; simpl;
      split_and!; try done. split; [done|]. nia.
Qed.

Lemma then_ok {E} (m k : result E unit) : (_ ← m; k) = Ok tt ↔ m = Ok tt ∧ k = Ok tt.
Proof. destruct m as [[]|e|]; unfold mbind; simpl; naive_solver. Qed.

Lemma then_total {E} (m k : result E unit) : m ≠ Panic → k ≠ Panic → (_ ← m; k) ≠ Panic.
Proof. by destruct m. Qed.

Lemma check_iff enf l : check enf l = Ok tt ↔ enforceable enf l.
Proof.
  unfold check, enforceable. rewrite !then_ok, limits_validate_ok, first_refused_ok, Forall_forall.
  rewrite <- ram_ok, <- vcpus_ok, <- cgroup_max_spec, <- !fmap_ok_tt.
  assert ((∀ x, x ∈ ceilings enf l → refuse_unenforced x = None) ↔
    ∀ name requested mechanism, (name, requested, mechanism) ∈ ceilings enf l →
      requested ≠ 0 → mechanism ≠ Unenforced) as ->.
  { split; [intros Ha name r m Hin; by apply refuse_unenforced_none with name, Ha|].
    intros Ha [[name r] m] Hin. apply refuse_unenforced_none. by apply (Ha name). }
  case_bool_decide; destruct (enf_cpu enf); naive_solver.
Qed.

Lemma hypervisor_ram_total m : hypervisor_ram_mib m ≠ Panic.
Proof. unfold hypervisor_ram_mib. by repeat case_match. Qed.
Lemma hypervisor_vcpus_total c : hypervisor_vcpus c ≠ Panic.
Proof. unfold hypervisor_vcpus. by repeat case_match. Qed.
Lemma cgroup_max_total c : cgroup_max c ≠ Panic.
Proof. unfold cgroup_max. by repeat case_match. Qed.

Lemma fmap_total {E A B} (f : A → B) (r : result E A) : r ≠ Panic → f <$> r ≠ Panic.
Proof. by destruct r. Qed.

Lemma check_total enf l : check enf l ≠ Panic.
Proof.
  unfold check. apply then_total; [unfold limits_validate; by case_match|].
  apply then_total; [apply first_refused_total|]. apply then_total.
  - case_bool_decide; [apply fmap_total, hypervisor_ram_total|done].
  - destruct (enf_cpu enf); try done; apply fmap_total; [apply hypervisor_vcpus_total|apply cgroup_max_total].
Qed.

(** [EnforcedCeilings::check] accepts exactly the limits the tier can
    hold a run to: every non-zero ceiling has a mechanism, memory and CPU under
    a hypervisor are whole MiB and whole vCPUs that fit its argument types,
    CPU under a cgroup is in the kernel's range; the sizes the accepted limits
    give the hypervisor multiply back to the ceilings as granted; and the check
    never panics. *)
Theorem check_exact enf l :
  check enf l ≠ Panic ∧ (check enf l = Ok tt ↔ enforceable enf l) ∧
  (check enf l = Ok tt → enf_memory enf = Hypervisor →
     ∃ o, hypervisor_ram_mib (memory l) = Ok o ∧ default 0 o * MIB = memory_limit (memory l)) ∧
  (check enf l = Ok tt → enf_cpu enf = Hypervisor →
     ∃ o, hypervisor_vcpus (cpu l) = Ok o ∧ default 0 o * effective_period (cpu l) = quota (cpu l)).
Proof.
  rewrite check_iff. split_and!; [apply check_total|done| |].
  - intros (_ & _ & Hm & _) E. apply ram_ok in Hm as [o Ho]; [|done]. exists o. split; [done|].
    by apply hypervisor_ram_mib_spec in Ho as [-> _].
  - intros (_ & _ & _ & Hc & _) E. apply vcpus_ok in Hc as [o Ho]; [|done]. exists o. split; [done|].
    by apply hypervisor_vcpus_spec in Ho as [-> _].
Qed.

(** *** [narrows] *)

(** [r] leaves the dimension free, or [s] is a ceiling no higher than it. *)
Definition within (requested resolved : N) : Prop :=
  requested = 0 ∨ (resolved ≠ 0 ∧ resolved ≤ requested).

(** CPU ceilings compare as bandwidth, [quota / period]. *)
Definition cpu_within (requested resolved : CpuLimits) : Prop :=
  quota requested = 0 ∨
  (quota resolved ≠ 0 ∧
   quota resolved * effective_period requested ≤ quota requested * effective_period resolved).

Definition limits_within (requested resolved : ResourceLimits) : Prop :=
  within (wall_time_ms requested) (wall_time_ms resolved) ∧
  within (output_bytes requested) (output_bytes resolved) ∧
  within (memory_limit (memory requested)) (memory_limit (memory resolved)) ∧
  within (pids_limit (pids requested)) (pids_limit (pids resolved)) ∧
  cpu_within (cpu requested) (cpu resolved).

(** The CPU fields fit [u64]. *)
Definition cpu_wf (c : CpuLimits) : Prop := quota c ≤ u64_max ∧ period c ≤ u64_max.

Lemma wmul128_exact a b : a ≤ u64_max → b ≤ u64_max → wmul128 a b = a * b.
Proof. intros Ha Hb. unfold wmul128. apply N.mod_small. unfold u64_max in *. change (2 ^ 128) with (18446744073709551616 * 18446744073709551616). nia. Qed.

Lemma effective_period_bound c : cpu_wf c → effective_period c ≤ u64_max.
Proof. intros [_ ?]. unfold effective_period. by case_match. Qed.

Lemma refuse_wider_none name r s : refuse_wider (name, r, s) = None ↔ within r s.
Proof.
  unfold within. simpl. destruct (N.eqb_spec r 0), (N.eqb_spec s 0), (N.ltb_spec r s); simpl;
    split; try done; try (intros _; by auto); intros; destruct_or?; lia || done.
Qed.

Lemma narrows_iff self req :
  cpu_wf (cpu self) → cpu_wf (cpu req) → narrows self req = Ok tt ↔ limits_within req self.
Proof.
  intros Hs Hr. unfold narrows. rewrite then_ok, first_refused_ok. unfold compared.
  rewrite !Forall_cons, !refuse_wider_none. unfold limits_within, cpu_within.
  pose proof (effective_period_bound _ Hs). pose proof (effective_period_bound _ Hr).
  destruct Hs, Hr. rewrite !wmul128_exact by done.
  destruct (N.eqb_spec (quota (cpu req)) 0); cbn [negb].
  - split; [intros [(? & ? & ? & ? & _) _]; auto 10|naive_solver].
  - destruct (N.eqb_spec (quota (cpu self)) 0), (N.ltb_spec (quota (cpu req) * effective_period (cpu self))
      (quota (cpu self) * effective_period (cpu req))); cbn [orb];
      (split; [intros [(? & ? & ? & ? & _) ?]; try done; split_and!; try done; right; lia|]);
      intros (? & ? & ? & ? & [?|[? ?]]); try lia; done || (split_and!; done || by apply Forall_nil).
Qed.

Lemma within_trans a b c : within a b → within b c → within a c.
Proof. unfold within. lia. Qed.

Lemma cpu_within_trans a b c : cpu_within a b → cpu_within b c → cpu_within a c.
Proof.
  unfold cpu_within. intros [?|[Hb H1]]; [by left|]. intros [?|[Hc H2]]; [done|]. right. split; [done|].
  pose proof (effective_period_pos b). nia.
Qed.

(** A resolved grant narrows a request exactly when every dimension the
    request bounds is bounded no wider, CPU as bandwidth and free of overflow;
    so every set of limits narrows itself, and narrowing composes along a chain
    of delegations. *)
Theorem narrows_is_a_preorder a b c :
  cpu_wf (cpu a) → cpu_wf (cpu b) → cpu_wf (cpu c) →
  (narrows b a = Ok tt ↔ limits_within a b) ∧
  narrows a a = Ok tt ∧
  (narrows b a = Ok tt → narrows c b = Ok tt → narrows c a = Ok tt).
Proof.
  intros Ha Hb Hc. rewrite !narrows_iff by done. split_and!; [done| |].
  - unfold limits_within, within, cpu_within.
    split_and!; lia || (destruct (decide (quota (cpu a) = 0)); [by left|right; lia]).
  - unfold limits_within. intros (?&?&?&?&?) (?&?&?&?&?).
    split_and!; eauto using within_trans, cpu_within_trans.
Qed.

(** *** Guest paths *)

(** Where a path leads, lexically, from the directory [base]. *)
Definition walk (base : list string) (c : Component) : list string :=
  match c with
  | RootDir => []
  | CurDir => base
  | ParentDir => removelast base
  | Normal name => base ++ [name]
  end.

(** A name that is one step down and nothing else. *)
Definition plain (name : string) : Prop :=
  name ≠ EmptyString ∧ name ≠ "."%string ∧ name ≠ ".."%string ∧
  string_all (λ c, negb (bool_decide (c = "/"%char))) name = true.

Lemma split_slash_pieces s :
  Forall (λ p, string_all (λ c, negb (bool_decide (c = "/"%char))) p = true) (split_slash s).
Proof.
  induction s as [|c s IH]; cbn [split_slash]; [by constructor|]. case_bool_decide; [by constructor|].
  destruct (split_slash s) as [|p ps]; [|inversion IH; subst];
    (constructor; [simpl; rewrite bool_decide_eq_false_2 by done; simpl|]); done.
Qed.

Lemma split_slash_cons s : ∃ p ps, split_slash s = p :: ps ∧
  (p = EmptyString ↔ s = EmptyString ∨ is_absolute s = true).
Proof.
  destruct s as [|c s]; cbn [split_slash is_absolute]; [eexists _, _; split; [done|]; split; by auto|].
  destruct (decide (c = "/"%char)) as [->|Hc].
  { rewrite bool_decide_eq_true_2 by done. eexists _, _; split; [done|]; split; by auto. }
  rewrite bool_decide_eq_false_2 by done.
  destruct (split_slash s); eexists _, _; (split; [done|]; split; [done|by intros [?|?]]).
Qed.

Lemma parse_single_component_normal piece c :
  parse_single_component piece = Some c →
  c = ParentDir ∧ piece = ".."%string ∨
  c = Normal piece ∧ piece ≠ EmptyString ∧ piece ≠ "."%string ∧ piece ≠ ".."%string.
Proof. unfold parse_single_component. repeat case_bool_decide; naive_solver. Qed.

(** The pieces [components] keeps. *)
Definition kept (pieces : list string) : list string :=
  filter (λ p, p ≠ EmptyString ∧ p ≠ "."%string) pieces.

Lemma omap_components_normal pieces :
  ".."%string ∉ pieces → omap parse_single_component pieces = Normal <$> kept pieces.
Proof.
  unfold kept. induction pieces as [|p ps IH]; intros Hn; [done|]. apply not_elem_of_cons in Hn as [Hp Hn].
  rewrite filter_cons. cbn [omap list_omap]. unfold parse_single_component at 1.
  repeat case_bool_decide; subst; try done;
    [rewrite decide_False by naive_solver; by apply IH..|].
  rewrite decide_True by done. cbn [fmap list_fmap]. f_equal. by apply IH.
Qed.

Lemma existsb_normal names : existsb (λ part, negb (is_normal part)) (Normal <$> names) = false.
Proof. induction names; simpl; auto. Qed.

Lemma components_relative v :
  is_absolute v = false → head (split_slash v) ≠ Some "."%string →
  components v = omap parse_single_component (split_slash v).
Proof.
  intros Ha Hh. unfold components. rewrite Ha. destruct (split_slash v) as [|p ps]; [done|].
  rewrite bool_decide_eq_false_2; [done|]. intros ->. by apply Hh.
Qed.

Lemma guest_path_ok_spec v :
  (guest_path_ok v = true ↔
     v ≠ EmptyString ∧ is_absolute v = false ∧ ".."%string ∉ split_slash v ∧
     head (split_slash v) ≠ Some "."%string) ∧
  (guest_path_ok v = true →
     ∃ names, names ≠ [] ∧ Forall plain names ∧ components v = Normal <$> names).
Proof.
  set (good := v ≠ EmptyString ∧ is_absolute v = false ∧ ".."%string ∉ split_slash v ∧
     head (split_slash v) ≠ Some "."%string).
  assert (good → components v = Normal <$> kept (split_slash v)) as Hgood.
  { intros (_ & Ha & Hn & Hh). by rewrite components_relative, omap_components_normal. }
  assert (guest_path_ok v = true ↔ good) as Hiff.
  { unfold guest_path_ok. rewrite negb_true_iff, !orb_false_iff, bool_decide_eq_false. split.
    - intros [[Hv Ha] He]. split_and!; [done|done|intros Hin|intros Hh].
      + rewrite <- not_true_iff_false, existsb_exists in He. apply He. exists ParentDir.
        split; [|done]. apply list_elem_of_In. unfold components. apply elem_of_app. right.
        apply list_elem_of_omap. by exists ".."%string.
      + rewrite <- not_true_iff_false, existsb_exists in He. apply He. exists CurDir. split; [|done].
        unfold components. rewrite Ha. destruct (split_slash v) as [|p ps]; [done|]. injection Hh as ->.
        by left.
    - intros Hg. rewrite (Hgood Hg), existsb_normal. by destruct Hg as (? & ? & _). }
  split; [done|]. intros Hok%Hiff. exists (kept (split_slash v)). split_and!; [..|by apply Hgood].
  - destruct Hok as (Hv & Ha & Hn & Hh). destruct (split_slash_cons v) as (p & ps & Es & Hp).
    rewrite Es in Hh |- *. unfold kept. rewrite filter_cons_True; [done|].
    split; [intros [?|?]%Hp; congruence|]. intros ->. by apply Hh.
  - apply Forall_forall. intros n [[H1 H2] Hin]%list_elem_of_filter. split_and!; [done|done| |].
    + intros ->. by destruct Hok as (_ & _ & Hn & _).
    + by eapply Forall_forall in Hin; [|apply split_slash_pieces].
Qed.

(** An executable path is accepted exactly when it is relative, does not
    begin with a ["."] piece and has no [".."] piece; and then it leads, from
    any directory, strictly below that directory, through plain names only. *)
Theorem guest_path_confined v base :
  (validate_guest_path v = Ok tt ↔
     v ≠ EmptyString ∧ is_absolute v = false ∧ ".."%string ∉ split_slash v ∧
     head (split_slash v) ≠ Some "."%string) ∧
  (validate_guest_path v = Ok tt →
     ∃ names, names ≠ [] ∧ Forall plain names ∧ components v = Normal <$> names ∧
       foldl walk base (components v) = base ++ names).
Proof.
  destruct (guest_path_ok_spec v) as [Hiff Hnames].
  assert (validate_guest_path v = Ok tt ↔ guest_path_ok v = true) as ->.
  { unfold validate_guest_path. by destruct (guest_path_ok v). }
  split; [done|]. intros Hok. destruct (Hnames Hok) as (names & Hne & Hpl & Hc).
  exists names. split_and!; [done..|]. rewrite Hc. clear. revert base.
  induction names as [|n names IH]; intros base; simpl; [by rewrite app_nil_r|].
  by rewrite IH, <- app_assoc.
Qed.

(** ** Examples *)

Definition demo_limits : ResourceLimits := {|
  wall_time_ms := 2000; output_bytes := 0; memory := {| memory_limit := 536870912 |};
  cpu := {| quota := 200000; period := 0 |}; pids := {| pids_limit := 0 |} |}.

(** The libkrun profile takes whole vCPUs only. *)
Lemma check_exact_witness :
  check hypervisor_backed demo_limits = Ok tt ∧
  ∃ o, hypervisor_vcpus (cpu demo_limits) = Ok o ∧ default 0 o * 100000 = 200000.
Proof.
  assert (check hypervisor_backed demo_limits = Ok tt) as Hc by (vm_compute; reflexivity).
  split; [exact Hc|]. destruct (check_exact hypervisor_backed demo_limits) as (_ & _ & _ & Hv).
  exact (Hv Hc eq_refl).
Defined.

Definition half_limits : ResourceLimits := {|
  wall_time_ms := 1000; output_bytes := 0; memory := {| memory_limit := 268435456 |};
  cpu := {| quota := 10000; period := 10000 |}; pids := {| pids_limit := 32 |} |}.

Lemma narrows_is_a_preorder_witness :
  narrows half_limits demo_limits = Ok tt ∧ limits_within demo_limits half_limits.
Proof.
  assert (narrows half_limits demo_limits = Ok tt) as Hn by (vm_compute; reflexivity).
  split; [exact Hn|].
  apply (narrows_is_a_preorder demo_limits half_limits half_limits); [split; vm_compute; discriminate..|].
  exact Hn.
Defined.

Lemma guest_path_confined_witness :
  validate_guest_path "bin//agent/" = Ok tt ∧ validate_guest_path "bin/../../etc" ≠ Ok tt ∧
  ∃ names, components "bin//agent/" = Normal <$> names ∧
    foldl walk ["run"; "rootfs"]%string (components "bin//agent/") = ["run"; "rootfs"]%string ++ names.
Proof.
  split; [vm_compute; reflexivity|]. split; [vm_compute; discriminate|].
  destruct (guest_path_confined "bin//agent/" ["run"; "rootfs"]%string) as [_ Hp].
  destruct Hp as (names & _ & _ & Hc & Hw); [vm_compute; reflexivity|]. by exists names.
Defined.
