(* ===== verification/Service.v ===== *)
(** * The execution service

    [rs/ll-open/runtime/src/service.rs] and [catalog.rs]: one lifecycle for every
    transport.  The backend is a parameter (a trait the embedder implements), and
    so is JSON encoding ([serde_json]).

    Each operation of the service takes its state lock more than once and calls
    the backend in between.  The pieces that run under one lock are definitions
    of their own; the operations compose them in the source's order; and
    [step] lets the pieces of many calls interleave. *)

From S2P Require Import Prelude Substrate Limits.
From Stdlib Require Import NArith Lia.
Local Open Scope N_scope.

(** ** Data ([model.rs], [authorization.rs]) *)

Inductive BackendClass := Native | MicroVm.

#[global] Instance BackendClass_eq_dec : EqDecision BackendClass.
Proof. solve_decision. Defined.

Record BackendCapabilities := {
  cap_backend_id : string;
  backend_class : BackendClass;
  available : bool;
  unavailable_reason : option string;
  enforced : EnforcedCeilings;
}.

Inductive WorkerChannel := WorkspaceShare (workspace graph_root : string).

Record BackendRun := { started_backend_id : string; started_channels : list WorkerChannel }.

Inductive BackendRunStatus := RunSucceeded | RunFailed (e : ExecutionError).

Inductive RunState :=
| Accepted | Provisioning | Ready | Running | Succeeded | Failed | Cancelled | Cleaning | Cleaned.

#[global] Instance RunState_eq_dec : EqDecision RunState.
Proof. solve_decision. Defined.

Record RunEventRecord := {
  ev_sequence : N;
  ev_state : RunState;
  timestamp_ms : N;
  detail_digest : option string;
}.

Record RunRecord := {
  rec_run_id : string;
  rec_replay_key : string;
  rec_state : RunState;
  rec_backend_id : string;
}.

Record RunInspection := { ins_run_id : string; ins_state : RunState; ins_events : list RunEventRecord }.

Record ReceiptContext := {
  rc_spec_digest : string;
  rc_grant_digest : string;
  rc_confinement_digest : string;
  rc_backend_class : BackendClass;
  rc_input_roots : list string;
}.

Record BackendEvidenceDocument := { bed_backend_id : string; bed_channels : list WorkerChannel }.

Record RunReceiptData := {
  rr_run_id : string;
  rr_terminal_state : RunState;
  rr_event_log_root : string;
  rr_context : ReceiptContext;
  rr_backend_id : string;
  rr_backend_evidence : BackendEvidenceDocument;
  rr_enforced : EnforcedCeilings;
  rr_started_at : N;
  rr_completed_at : N;
}.

Record ArtifactIdentity := { art_digest : string; art_media_type : string }.
Record WorkspaceInput := { wi_name : string; wi_graph_root : string }.
Record SchemaIntent := {
  in_executable : ArtifactIdentity;
  in_arguments : list string;
  in_public_environment : gmap string string;
  in_workspace_inputs : list WorkspaceInput;
  in_requested_limits : ResourceLimits;
}.
Record AuthorizedExecution := {
  au_run_id : string;
  au_grant_id : string;
  au_replay_key : string;
  au_spec_digest : string;
  au_grant_digest : string;
  au_confinement_digest : string;
  au_confinement_manifest : option string;
  au_backend : BackendClass;
  au_allowed_egress : list string;
  au_intent : SchemaIntent;
  au_limits : ResourceLimits;
  au_workspaces : list WorkspaceGrant;
}.

#[global] Instance WorkspaceInput_eq_dec : EqDecision WorkspaceInput.
Proof. solve_decision. Defined.
#[global] Instance ArtifactIdentity_eq_dec : EqDecision ArtifactIdentity.
Proof. solve_decision. Defined.
#[global] Instance ArtifactIdentity_countable : Countable ArtifactIdentity.
Proof.
  refine (inj_countable' (λ a, (art_digest a, art_media_type a))
            (λ p, {| art_digest := fst p; art_media_type := snd p |}) _).
  by intros [].
Defined.

Record ServiceState := {
  runs : gmap string RunRecord;
  replay : gmap string string;
  starting : gmap string string;
  events : gmap string (list RunEventRecord);
  receipts : gmap string ReceiptContext;
  channels : gmap string (list WorkerChannel);
  provisioned : bool;
  provisioned_backend : option string;
}.

Definition ServiceState_default : ServiceState := {|
  runs := ∅; replay := ∅; starting := ∅; events := ∅; receipts := ∅; channels := ∅;
  provisioned := false; provisioned_backend := None |}.

Definition set_starting (m : gmap string string) (s : ServiceState) : ServiceState := {|
  runs := runs s; replay := replay s; starting := m; events := events s; receipts := receipts s;
  channels := channels s; provisioned := provisioned s; provisioned_backend := provisioned_backend s |}.
Definition set_receipts (m : gmap string ReceiptContext) (s : ServiceState) : ServiceState := {|
  runs := runs s; replay := replay s; starting := starting s; events := events s; receipts := m;
  channels := channels s; provisioned := provisioned s; provisioned_backend := provisioned_backend s |}.
Definition set_provisioned (id : string) (s : ServiceState) : ServiceState := {|
  runs := runs s; replay := replay s; starting := starting s; events := events s; receipts := receipts s;
  channels := channels s; provisioned := true; provisioned_backend := Some id |}.
Definition set_run (id : string) (r : RunRecord) (evs : list RunEventRecord) (s : ServiceState) : ServiceState := {|
  runs := <[id := r]> (runs s); replay := replay s; starting := starting s;
  events := <[id := evs]> (events s); receipts := receipts s;
  channels := channels s; provisioned := provisioned s; provisioned_backend := provisioned_backend s |}.
Definition with_state (st : RunState) (r : RunRecord) : RunRecord := {|
  rec_run_id := rec_run_id r; rec_replay_key := rec_replay_key r; rec_state := st;
  rec_backend_id := rec_backend_id r |}.

(** [event_with_detail], [event]; [now] is the wall clock. *)
Definition event_with_detail (now sequence : N) (st : RunState) (d : option string) : RunEventRecord :=
  {| ev_sequence := sequence; ev_state := st; timestamp_ms := now; detail_digest := d |}.
Definition event (now sequence : N) (st : RunState) : RunEventRecord :=
  event_with_detail now sequence st None.

(** ** What runs under one lock *)

Definition conflict (retry : bool) (d : string) : ExecutionError :=
  {| code := ResourceConflict; retryable := retry; detail := d |}.

(** The first critical section of [start]: the run the replay key already names,
    or [None] once the identities are reserved. *)
Definition reserve (req : ExecutionRequest) (s : ServiceState)
    : result ExecutionError (option RunRecord) * ServiceState :=
  match replay s !! replay_key req with
  | Some id =>
      match runs s !! id with
      | Some r => (Ok (Some r), s)
      | None => (Err (internal "replay index references a missing run"), s)
      end
  | None =>
      if existsb (λ p, bool_decide (snd p = replay_key req)) (map_to_list (starting s))
      then (Err (conflict true ("replay key is already starting: " +:+ replay_key req)), s)
      else if bool_decide (is_Some (runs s !! run_id req))
      then (Err (conflict false ("run_id already exists: " +:+ run_id req)), s)
      else if bool_decide (is_Some (starting s !! run_id req))
      then (Err (conflict true ("run_id is already starting: " +:+ run_id req)), s)
      else (Ok None, set_starting (<[run_id req := replay_key req]> (starting s)) s)
  end.

(** [self.state.write().starting.remove(..)] when the backend refused. *)
Definition release (id : string) (s : ServiceState) : ServiceState :=
  set_starting (delete id (starting s)) s.

Definition started_record (req : ExecutionRequest) (b : BackendRun) : RunRecord := {|
  rec_run_id := run_id req; rec_replay_key := replay_key req; rec_state := Running;
  rec_backend_id := started_backend_id b |}.

Definition opening_events (now : N → N) : list RunEventRecord :=
  [event (now 1) 1 Accepted; event (now 2) 2 Provisioning; event (now 3) 3 Ready; event (now 4) 4 Running].

(** The last critical section of [start]; [now i] is the clock at event [i]. *)
Definition commit_start (now : N → N) (req : ExecutionRequest) (b : BackendRun) (s : ServiceState)
    : RunRecord * ServiceState :=
  let r := started_record req b in
  (r, {| runs := <[run_id req := r]> (runs s);
         replay := <[replay_key req := run_id req]> (replay s);
         starting := delete (run_id req) (starting s);
         events := <[rec_run_id r := opening_events now]> (events s);
         receipts := receipts s;
         channels := <[run_id req := started_channels b]> (channels s);
         provisioned := provisioned s; provisioned_backend := provisioned_backend s |}).

Definition active_state (st : RunState) : bool :=
  match st with Accepted | Provisioning | Ready | Running => true | _ => false end.
Definition terminal_state (st : RunState) : bool :=
  match st with Cancelled | Succeeded | Failed => true | _ => false end.

(** The read of [refresh_run]. *)
Definition is_active (id : string) (s : ServiceState) : bool :=
  match runs s !! id with Some r => active_state (rec_state r) | None => false end.

Definition log_of (id : string) (s : ServiceState) : list RunEventRecord := default [] (events s !! id).
(** [state.events.get(run_id).map_or(1, |events| events.len() as u64 + 1)] *)
Definition next_sequence (id : string) (s : ServiceState) : N := len (log_of id s) + 1.

(** The write of [refresh_run]. *)
Definition commit_completion (now : N) (id : string) (terminal : RunState) (d : option string)
    (s : ServiceState) : result ExecutionError unit * ServiceState :=
  match runs s !! id with
  | None => (Err (internal "run disappeared during completion refresh"), s)
  | Some r =>
      if negb (active_state (rec_state r)) then (Ok tt, s)
      else (Ok tt, set_run id (with_state terminal r)
                     (log_of id s ++ [event_with_detail now (next_sequence id s) terminal d]) s)
  end.

(** The write of [cancel]. *)
Definition commit_cancel (now : N) (id : string) (s : ServiceState)
    : result ExecutionError RunRecord * ServiceState :=
  match runs s !! id with
  | None => (Err (internal "run disappeared during cancellation"), s)
  | Some r =>
      (Ok (with_state Cancelled r),
       set_run id (with_state Cancelled r)
         (log_of id s ++ [event now (next_sequence id s) Cancelled]) s)
  end.

(** The write of [cleanup]. *)
Definition commit_cleanup (now1 now2 : N) (id : string) (s : ServiceState)
    : result ExecutionError RunRecord * ServiceState :=
  match runs s !! id with
  | None => (Err (internal "run disappeared during cleanup"), s)
  | Some r =>
      let next := next_sequence id s in
      (Ok (with_state Cleaned r),
       set_run id (with_state Cleaned r)
         (log_of id s ++ [event now1 next Cleaning; event now2 (next + 1) Cleaned]) s)
  end.

(** ** The operations *)

(** The [Backend] trait, over the backend's own state. *)
Class Backend (W : Type) := {
  capabilities : W → BackendCapabilities;
  be_provision : W → result ExecutionError BackendCapabilities * W;
  be_start : ExecutionRequest → W → result ExecutionError BackendRun * W;
  be_poll : string → W → result ExecutionError (option BackendRunStatus) * W;
  be_cancel : string → W → result ExecutionError bool * W;
}.

(** The trait's default [provision] and [poll]. *)
Definition default_provision (c : BackendCapabilities) : result ExecutionError BackendCapabilities :=
  if available c then Ok c
  else Err (unsupported match unavailable_reason c with
                        | Some reason => "requested execution backend is unavailable: " +:+ reason
                        | None => "requested execution backend is unavailable"
                        end).
Definition default_poll : result ExecutionError (option BackendRunStatus) := Ok None.

Section operations.
Context `{B3 : Blake3} {W : Type} `{BE : Backend W}.
(** [serde_json::to_vec] *)
Variable encode_error : ExecutionError → result string (list byte).
Variable encode_events : list RunEventRecord → result string (list byte).
(** The clock at event [i] of the current call. *)
Variable now : N → N.

Definition service : Type := ServiceState * W.

Definition digest_name (bytes : list byte) : string := ("blake3-256:" +:+ Hash_display (blake3 bytes))%string.

Definition provision (class : BackendClass) (key : string) (sv : service)
    : result ExecutionError BackendCapabilities * service :=
  let '(s, w) := sv in
  if bool_decide (key = EmptyString)
  then (Err (invalid "provision idempotency key must not be empty"), sv) else
  match be_provision w with
  | (Ok c, w) =>
      if negb (bool_decide (backend_class c = class))
      then (Err (unsupported "requested backend class is unavailable"), (s, w))
      else (Ok c, (set_provisioned (cap_backend_id c) s, w))
  | (Err e, w) => (Err e, (s, w))
  | (Panic, w) => (Panic, (s, w))
  end.

(** [start]: the request checks, the reservation, the backend, the commit. *)
Definition start (req : ExecutionRequest) (sv : service)
    : result ExecutionError RunRecord * service :=
  let '(s, w) := sv in
  match (_ ← request_validate req; check (enforced (capabilities w)) (limits req)) with
  | Ok _ =>
      match reserve req s with
      | (Ok (Some r), s) => (Ok r, (s, w))
      | (Ok None, s) =>
          match be_start req w with
          | (Ok b, w) => let '(r, s) := commit_start now req b s in (Ok r, (s, w))
          | (Err e, w) => (Err e, (release (run_id req) s, w))
          | (Panic, w) => (Panic, (s, w))
          end
      | (Err e, s) => (Err e, (s, w))
      | (Panic, s) => (Panic, (s, w))
      end
  | Err e => (Err e, sv)
  | Panic => (Panic, sv)
  end.

(** What a backend's report means for the run. *)
Definition outcome_of (o : BackendRunStatus) : result ExecutionError (RunState * option string) :=
  match o with
  | RunSucceeded => Ok (Succeeded, None)
  | RunFailed e =>
      match encode_error e with
      | Ok bytes => Ok (Failed, Some (digest_name bytes))
      | Err encode => Err (internal ("encode backend failure detail: " +:+ encode))
      | Panic => Panic
      end
  end.

Definition refresh_run (id : string) (sv : service) : result ExecutionError unit * service :=
  let '(s, w) := sv in
  if negb (is_active id s) then (Ok tt, sv) else
  match be_poll id w with
  | (Ok None, w) => (Ok tt, (s, w))
  | (Ok (Some o), w) =>
      match outcome_of o with
      | Ok (terminal, d) =>
          let '(r, s) := commit_completion (now (next_sequence id s)) id terminal d s in (r, (s, w))
      | Err e => (Err e, (s, w))
      | Panic => (Panic, (s, w))
      end
  | (Err e, w) => (Err e, (s, w))
  | (Panic, w) => (Panic, (s, w))
  end.

Definition status (id : string) (sv : service) : result ExecutionError (option RunRecord) * service :=
  match refresh_run id sv with
  | (Ok _, sv) => (Ok (runs (fst sv) !! id), sv)
  | (Err e, sv) => (Err e, sv)
  | (Panic, sv) => (Panic, sv)
  end.

Definition inspect (id : string) (after : N) (sv : service) : result ExecutionError RunInspection * service :=
  match refresh_run id sv with
  | (Ok _, sv) =>
      (match runs (fst sv) !! id with
       | None => Err (invalid "run_id not found")
       | Some r => Ok {| ins_run_id := rec_run_id r; ins_state := rec_state r;
                         ins_events := filter (λ e, after < ev_sequence e) (log_of id (fst sv)) |}
       end, sv)
  | (Err e, sv) => (Err e, sv)
  | (Panic, sv) => (Panic, sv)
  end.

Definition cancel (id : string) (sv : service) : result ExecutionError RunRecord * service :=
  match refresh_run id sv with
  | (Ok _, (s, w)) =>
      match runs s !! id with
      | None => (Err (invalid "run_id not found"), (s, w))
      | Some existing =>
          if terminal_state (rec_state existing) then (Ok existing, (s, w)) else
          match be_cancel id w with
          | (Ok true, w) => let '(r, s) := commit_cancel (now (next_sequence id s)) id s in (r, (s, w))
          | (Ok false, w) => (Err (backend_error "backend no longer owns the active run"), (s, w))
          | (Err e, w) => (Err e, (s, w))
          | (Panic, w) => (Panic, (s, w))
          end
      end
  | (Err e, sv) => (Err e, sv)
  | (Panic, sv) => (Panic, sv)
  end.

Definition cleanup (id : string) (sv : service) : result ExecutionError RunRecord * service :=
  match refresh_run id sv with
  | (Ok _, (s, w)) =>
      match runs s !! id with
      | None => (Err (invalid "run_id not found"), (s, w))
      | Some existing =>
          if bool_decide (rec_state existing = Cleaned) then (Ok existing, (s, w)) else
          match be_cancel id w with
          | (Ok _, w) =>
              let next := next_sequence id s in
              let '(r, s) := commit_cleanup (now next) (now (next + 1)) id s in (r, (s, w))
          | (Err e, w) => (Err e, (s, w))
          | (Panic, w) => (Panic, (s, w))
          end
      end
  | (Err e, sv) => (Err e, sv)
  | (Panic, sv) => (Panic, sv)
  end.

Definition receipt_of (a : AuthorizedExecution) : ReceiptContext := {|
  rc_spec_digest := au_spec_digest a; rc_grant_digest := au_grant_digest a;
  rc_confinement_digest := au_confinement_digest a; rc_backend_class := au_backend a;
  rc_input_roots := wi_graph_root <$> in_workspace_inputs (au_intent a) |}.

(** The checks of [start_authorized_with_verifier] on what the resolver made. *)
Definition bound_to (a : AuthorizedExecution) (req : ExecutionRequest) : result ExecutionError unit :=
  _ ← ensure (bool_decide (run_id req = au_run_id a))
    (identity_mismatch "resolver returned a run_id different from the authorized identity");
  _ ← ensure (bool_decide (replay_key req = au_replay_key a))
    (identity_mismatch "resolver returned a replay key different from the authorized grant");
  _ ← ensure (bool_decide (allowed_egress req = au_allowed_egress a))
    (identity_mismatch "resolver changed the grant's allowed egress");
  _ ← ensure (bool_decide (confinement_digest req = au_confinement_digest a))
    (identity_mismatch "resolver changed the grant's confinement digest");
  ensure (bool_decide (workspaces req = au_workspaces a))
    (identity_mismatch "resolver changed the grant's workspaces").

(** [start_authorized_with_verifier], from the verdict [authorize_with_verifier]
    gave on the spec and the grant, with any resolver. *)
Definition start_authorized (verdict : result ExecutionError AuthorizedExecution)
    (resolve : AuthorizedExecution → result ExecutionError ExecutionRequest) (sv : service)
    : result ExecutionError RunRecord * service :=
  if negb (provisioned (fst sv))
  then (Err (not_provisioned "execution backend must be explicitly provisioned before start"), sv) else
  match (a ← verdict; req ← resolve a; _ ← bound_to a req; mret (a, req)) with
  | Ok (a, req) =>
      match start req sv with
      | (Ok r, (s, w)) =>
          (Ok r, (set_receipts (<[rec_run_id r := receipt_of a]> (receipts s)) s, w))
      | (Err e, sv) => (Err e, sv)
      | (Panic, sv) => (Panic, sv)
      end
  | Err e => (Err e, sv)
  | Panic => (Panic, sv)
  end.

Definition collect (id : string) (sv : service) : result ExecutionError RunReceiptData * service :=
  match refresh_run id sv with
  | (Ok _, (s, w)) =>
      (match runs s !! id with
       | None => Err (invalid "run_id not found")
       | Some r =>
           _ ← ensure (terminal_state (rec_state r))
             (invalid "run is not terminal; cancel or await completion before collect");
           let evs := log_of id s in
           bytes ← match encode_events evs with
                   | Ok bytes => Ok bytes
                   | Err error => Err (internal ("encode event log: " +:+ error))
                   | Panic => Panic
                   end;
           context ← ok_or (receipts s !! id) (invalid "run has no schema receipt context");
           let started := match head evs with Some e => timestamp_ms e | None => 0 end in
           let completed := match last evs with Some e => timestamp_ms e | None => started end in
           chans ← ok_or (channels s !! id) (internal "run has no recorded worker channels");
           mret {| rr_run_id := rec_run_id r; rr_terminal_state := rec_state r;
                   rr_event_log_root := digest_name bytes; rr_context := context;
                   rr_backend_id := rec_backend_id r;
                   rr_backend_evidence := {| bed_backend_id := rec_backend_id r; bed_channels := chans |};
                   rr_enforced := enforced (capabilities w);
                   rr_started_at := started; rr_completed_at := completed |}
       end, (s, w))
  | (Err e, sv) => (Err e, sv)
  | (Panic, sv) => (Panic, sv)
  end.
End operations.

(** ** Interleavings

    Calls in flight, each between two of its critical sections.  What the
    backend answers, when, and in which order the locks are taken is arbitrary. *)

Inductive thread :=
| TStart (req : ExecutionRequest) (ctx : option ReceiptContext)
| TReceipt (id : string) (ctx : ReceiptContext)
| TPoll (id : string) (terminal : RunState) (d : option string)
| TCancel (id : string)
| TCleanup (id : string).

Definition config : Type := ServiceState * gmap nat thread.

(** After a successful [start], a call that came through [start_authorized]
    still has the receipt context to record. *)
Definition after_start (t : nat) (r : RunRecord) (ctx : option ReceiptContext) (ths : gmap nat thread)
    : gmap nat thread :=
  match ctx with Some c => <[t := TReceipt (rec_run_id r) c]> ths | None => delete t ths end.

Inductive step : config → config → Prop :=
| StepProvision s ths backend_id :
    step (s, ths) (set_provisioned backend_id s, ths)
| StepReplay s ths t req ctx r :
    ths !! t = None → reserve req s = (Ok (Some r), s) →
    step (s, ths) (s, after_start t r ctx ths)
| StepReserve s s' ths t req ctx :
    ths !! t = None → reserve req s = (Ok None, s') →
    step (s, ths) (s', <[t := TStart req ctx]> ths)
| StepStartFailed s ths t req ctx :
    ths !! t = Some (TStart req ctx) →
    step (s, ths) (release (run_id req) s, delete t ths)
| StepStarted s s' ths t req ctx now b r :
    ths !! t = Some (TStart req ctx) → commit_start now req b s = (r, s') →
    step (s, ths) (s', after_start t r ctx ths)
| StepReceipt s ths t id ctx :
    ths !! t = Some (TReceipt id ctx) →
    step (s, ths) (set_receipts (<[id := ctx]> (receipts s)) s, delete t ths)
| StepPoll s ths t id terminal d :
    ths !! t = None → is_active id s = true → terminal = Succeeded ∨ terminal = Failed →
    step (s, ths) (s, <[t := TPoll id terminal d]> ths)
| StepCompleted s s' ths t id terminal d now res :
    ths !! t = Some (TPoll id terminal d) → commit_completion now id terminal d s = (res, s') →
    step (s, ths) (s', delete t ths)
| StepCancel s ths t id r :
    ths !! t = None → runs s !! id = Some r → terminal_state (rec_state r) = false →
    step (s, ths) (s, <[t := TCancel id]> ths)
| StepCancelled s s' ths t id now res :
    ths !! t = Some (TCancel id) → commit_cancel now id s = (res, s') →
    step (s, ths) (s', delete t ths)
| StepCleanup s ths t id r :
    ths !! t = None → runs s !! id = Some r → rec_state r ≠ Cleaned →
    step (s, ths) (s, <[t := TCleanup id]> ths)
| StepCleaned s s' ths t id now1 now2 res :
    ths !! t = Some (TCleanup id) → commit_cleanup now1 now2 id s = (res, s') →
    step (s, ths) (s', delete t ths)
| StepAbandon s ths t id :
    ths !! t = Some (TCancel id) ∨ ths !! t = Some (TCleanup id) →
    step (s, ths) (s, delete t ths).

Definition initial : config := (ServiceState_default, ∅).
Definition reachable (c : config) : Prop := rtc step initial c.

(** ** The invariant *)

(** A well-formed log: numbered from 1 without gaps, opened by the four events
    of [start], ending in the run's state. *)
Record log_ok (r : RunRecord) (evs : list RunEventRecord) : Prop := {
  log_numbered : ∀ i e, evs !! i = Some e → ev_sequence e = N.of_nat i + 1;
  log_opening : take 4 (ev_state <$> evs) = [Accepted; Provisioning; Ready; Running];
  log_last : ev_state <$> last evs = Some (rec_state r);
}.

Record inv (c : config) : Prop := {
  inv_thread : ∀ t req ctx, snd c !! t = Some (TStart req ctx) →
    starting (fst c) !! run_id req = Some (replay_key req);
  inv_thread_unique : ∀ t1 t2 r1 r2 c1 c2,
    snd c !! t1 = Some (TStart r1 c1) → snd c !! t2 = Some (TStart r2 c2) →
    run_id r1 = run_id r2 → t1 = t2;
  inv_owner : ∀ id k, starting (fst c) !! id = Some k →
    ∃ t req ctx, snd c !! t = Some (TStart req ctx) ∧ run_id req = id;
  inv_starting : ∀ id k, starting (fst c) !! id = Some k →
    runs (fst c) !! id = None ∧ replay (fst c) !! k = None;
  inv_starting_inj : ∀ id1 id2 k,
    starting (fst c) !! id1 = Some k → starting (fst c) !! id2 = Some k → id1 = id2;
  inv_replay : ∀ k id, replay (fst c) !! k = Some id ↔
    ∃ r, runs (fst c) !! id = Some r ∧ rec_replay_key r = k;
  inv_run : ∀ id r, runs (fst c) !! id = Some r →
    rec_run_id r = id ∧ is_Some (channels (fst c) !! id) ∧
    ∃ evs, events (fst c) !! id = Some evs ∧ log_ok r evs;
  inv_events : ∀ id evs, events (fst c) !! id = Some evs → is_Some (runs (fst c) !! id);
}.

Lemma inv_initial : inv initial.
Proof.
  split; simpl; intros *; rewrite ?lookup_empty; try done.
  split; [by intros|by intros (r & Hr & _)].
Qed.

(** Whether a thread is a start in flight. *)
Definition is_start (th : option thread) : bool := match th with Some (TStart _ _) => true | _ => false end.

(** Threads that are no start may come and go. *)
Lemma inv_threads s ths ths' :
  inv (s, ths) →
  (∀ t req ctx, ths' !! t = Some (TStart req ctx) ↔ ths !! t = Some (TStart req ctx)) →
  inv (s, ths').
Proof.
  intros [Ht Hu How Hs Hsi Hr Hrun Hev] Hsub. split; simpl in *; try done.
  - intros t req ctx Hth%Hsub. by eapply Ht.
  - intros t1 t2 r1 r2 c1 c2 H1%Hsub H2%Hsub. by eapply Hu.
  - intros id k Hst. destruct (How id k Hst) as (t & req & ctx & Hth & E). exists t, req, ctx. by rewrite Hsub.
Qed.

Lemma inv_delete_thread s ths t : inv (s, ths) → is_start (ths !! t) = false → inv (s, delete t ths).
Proof.
  intros Hi Hns. apply (inv_threads s ths); [done|]. intros t' req ctx. rewrite lookup_delete_Some.
  split; [by intros []|]. intros Hth. split; [|done]. intros <-. by rewrite Hth in Hns.
Qed.

Lemma inv_add_thread s ths t th :
  inv (s, ths) → is_start (ths !! t) = false → is_start (Some th) = false → inv (s, <[t := th]> ths).
Proof.
  intros Hi Hfree Hns. apply (inv_threads s ths); [done|]. intros t' req ctx.
  rewrite lookup_insert_Some. split; [intros [[_ ->]|[_ E]]; done|].
  intros Hth. right. split; [|done]. intros <-. by rewrite Hth in Hfree.
Qed.

(** Changing only the receipts or the provisioning flag keeps it too. *)
Lemma inv_same s s' ths :
  inv (s, ths) → runs s' = runs s → replay s' = replay s → starting s' = starting s →
  events s' = events s → channels s' = channels s → inv (s', ths).
Proof.
  intros [] E1 E2 E3 E4 E5. split; simpl in *; rewrite ?E1, ?E2, ?E3, ?E4, ?E5; done.
Qed.

(** *** Logs *)

Lemma log_ok_append r evs st now d :
  log_ok r evs →
  log_ok (with_state st r) (evs ++ [event_with_detail now (len evs + 1) st d]).
Proof.
  intros [Hn Ho Hl]. split.
  - intros i e [He|[Hi He]]%lookup_app_Some; [by apply Hn|].
    apply list_lookup_singleton_Some in He as [Hi' <-]. simpl. unfold len. lia.
  - rewrite fmap_app, take_app_le; [done|]. apply (f_equal length) in Ho.
    rewrite length_take in Ho. cbn [length] in Ho. lia.
  - by rewrite last_snoc.
Qed.

Lemma log_ok_opening now r : rec_state r = Running → log_ok r (opening_events now).
Proof.
  intros E. split; [|done|by rewrite E]. intros i e Hi.
  do 4 (destruct i as [|i]; [by injection Hi as <-|]). done.
Qed.

(** A state change with its event appended keeps the invariant. *)
Lemma inv_set_run s ths id r r' evs' :
  inv (s, ths) → runs s !! id = Some r → rec_run_id r' = rec_run_id r →
  rec_replay_key r' = rec_replay_key r → log_ok r' evs' → inv (set_run id r' evs' s, ths).
Proof.
  intros [Ht Hu How Hs Hsi Hr Hrun Hev] Hid E1 E2 Hlog. destruct (Hrun id r Hid) as (Eid & Hch & _).
  split; simpl in *; try done.
  - intros i k Hi. destruct (Hs i k Hi) as [Hnone Hk]. split; [|done].
    rewrite lookup_insert_None. split; [done|]. intros <-. by rewrite Hid in Hnone.
  - intros k i. rewrite Hr. split; intros (r0 & Hr0 & Ek).
    + destruct (decide (i = id)) as [->|Hne]; [|exists r0; by rewrite lookup_insert_ne].
      exists r'. rewrite lookup_insert_eq. rewrite Hid in Hr0. injection Hr0 as <-. by rewrite E2.
    + destruct (decide (i = id)) as [->|Hne]; [|exists r0; by rewrite lookup_insert_ne in Hr0].
      rewrite lookup_insert_eq in Hr0. injection Hr0 as <-. exists r. by rewrite <- E2.
  - intros i r0 Hr0. destruct (decide (i = id)) as [->|Hne].
    + rewrite lookup_insert_eq in Hr0. injection Hr0 as <-. split_and!; [by rewrite E1|done|].
      exists evs'. by rewrite lookup_insert_eq.
    + rewrite lookup_insert_ne in Hr0 by done. rewrite lookup_insert_ne by done. by apply Hrun.
  - intros i evs [[<- _]|[Hne Hi]]%lookup_insert_Some; [by rewrite lookup_insert_eq|].
    rewrite lookup_insert_ne by done. by eapply Hev.
Qed.

(** *** The critical sections *)

Lemma reserve_none req s s' :
  reserve req s = (Ok None, s') →
  s' = set_starting (<[run_id req := replay_key req]> (starting s)) s ∧
  replay s !! replay_key req = None ∧ runs s !! run_id req = None ∧
  starting s !! run_id req = None ∧ ∀ id, starting s !! id ≠ Some (replay_key req).
Proof.
  unfold reserve. destruct (replay s !! replay_key req) as [id|]; [by destruct (runs s !! id)|].
  destruct (existsb _ _) eqn:Ex; [done|].
  case_bool_decide as Hr; [done|]. case_bool_decide as Hs; [done|]. intros [= <-].
  split_and!; [done|done|by apply eq_None_not_Some..|].
  intros id Hid. apply not_true_iff_false in Ex. apply Ex, existsb_exists.
  exists (id, replay_key req). split; [by apply list_elem_of_In, elem_of_map_to_list|].
  by apply bool_decide_eq_true.
Qed.

Lemma inv_reserve s s' ths t req ctx :
  inv (s, ths) → ths !! t = None → reserve req s = (Ok None, s') → inv (s', <[t := TStart req ctx]> ths).
Proof.
  intros [Ht Hu How Hs Hsi Hr Hrun Hev] Hfree (-> & Hk & Hid & Hst & Hval)%reserve_none. split; simpl in *; try done.
  - intros t' req' ctx' [[<- [= <- <-]]|[Hne Ht']]%lookup_insert_Some; [by rewrite lookup_insert_eq|].
    rewrite lookup_insert_ne; [by eapply Ht|]. intros E. apply Ht in Ht'. congruence.
  - intros t1 t2 r1 r2 c1 c2 [[<- [= <- <-]]|[Hne1 H1]]%lookup_insert_Some
      [[<- [= <- <-]]|[Hne2 H2]]%lookup_insert_Some E; [done|..|by eapply Hu].
    + apply Ht in H2. congruence.
    + apply Ht in H1. congruence.
  - intros i k [[<- <-]|[Hne Hi]]%lookup_insert_Some; [exists t, req, ctx; by rewrite lookup_insert_eq|].
    destruct (How i k Hi) as (t' & req' & ctx' & Ht' & E). exists t', req', ctx'.
    rewrite lookup_insert_ne by congruence. done.
  - intros i k [[<- <-]|[Hne Hi]]%lookup_insert_Some; [done|by apply Hs].
  - intros i1 i2 k [[<- <-]|[Hne1 H1]]%lookup_insert_Some [[<- E]|[Hne2 H2]]%lookup_insert_Some;
      [done|by apply Hval in H2| |by eapply Hsi]. subst k. by apply Hval in H1.
Qed.

Lemma inv_release s ths t req ctx :
  inv (s, ths) → ths !! t = Some (TStart req ctx) → inv (release (run_id req) s, delete t ths).
Proof.
  intros [Ht Hu How Hs Hsi Hr Hrun Hev] Hth. split; simpl in *; try done.
  - intros t' req' ctx' [Hne H']%lookup_delete_Some. rewrite lookup_delete_ne; [by eapply Ht|].
    intros E. apply Hne. by eapply Hu.
  - intros t1 t2 r1 r2 c1 c2 [_ H1]%lookup_delete_Some [_ H2]%lookup_delete_Some. by eapply Hu.
  - intros i k [Hne Hi]%lookup_delete_Some. destruct (How i k Hi) as (t' & req' & ctx' & Ht' & E).
    exists t', req', ctx'. rewrite lookup_delete_ne by congruence. done.
  - intros i k [_ Hi]%lookup_delete_Some. by apply Hs.
  - intros i1 i2 k [_ H1]%lookup_delete_Some [_ H2]%lookup_delete_Some. by eapply Hsi.
Qed.

(** The commit of a start finds its identities still free. *)
Lemma commit_start_fresh s ths t req ctx :
  inv (s, ths) → ths !! t = Some (TStart req ctx) →
  runs s !! run_id req = None ∧ replay s !! replay_key req = None ∧
  ∀ id r, runs s !! id = Some r → rec_replay_key r ≠ replay_key req.
Proof.
  intros Hi Hth. pose proof (inv_thread _ Hi t req ctx Hth) as Hst. simpl in Hst.
  destruct (inv_starting _ Hi _ _ Hst) as [H1 H2]. simpl in *. split_and!; [done|done|].
  intros id r Hr E. assert (replay s !! replay_key req = Some id) as Hc by (apply (inv_replay _ Hi); eauto).
  congruence.
Qed.

Lemma inv_commit_start s ths t req ctx now b :
  inv (s, ths) → ths !! t = Some (TStart req ctx) →
  inv (snd (commit_start now req b s), delete t ths).
Proof.
  intros Hi Hth. destruct (commit_start_fresh s ths t req ctx Hi Hth) as (Hid & Hk & Hkeys).
  destruct Hi as [Ht Hu How Hs Hsi Hr Hrun Hev]. split; simpl in *.
  - intros t' req' ctx' [Hne H']%lookup_delete_Some. rewrite lookup_delete_ne; [by eapply Ht|].
    intros E. apply Hne. by eapply Hu.
  - intros t1 t2 r1 r2 c1 c2 [_ H1]%lookup_delete_Some [_ H2]%lookup_delete_Some. by eapply Hu.
  - intros i k [Hne Hi]%lookup_delete_Some. destruct (How i k Hi) as (t' & req' & ctx' & Ht' & E).
    exists t', req', ctx'. rewrite lookup_delete_ne by congruence. done.
  - intros i k [Hne Hi]%lookup_delete_Some. destruct (Hs i k Hi) as [Hn1 Hn2].
    rewrite lookup_insert_ne by done. split; [done|]. rewrite lookup_insert_ne; [done|].
    intros E. apply Hne. eapply Hsi; [|exact Hi]. rewrite <- E. by eapply Ht.
  - intros i1 i2 k [_ H1]%lookup_delete_Some [_ H2]%lookup_delete_Some. by eapply Hsi.
  - intros k i. rewrite lookup_insert_Some, Hr. split.
    + intros [[<- <-]|[Hne (r0 & Hr0 & Ek)]].
      * exists (started_record req b). by rewrite lookup_insert_eq.
      * exists r0. rewrite lookup_insert_ne by congruence. done.
    + intros (r0 & [[<- <-]|[Hne Hr0]]%lookup_insert_Some & Ek); [by left|right].
      split; [|by eauto]. intros E. subst k. by apply Hkeys in Hr0.
  - intros i r0 [[<- <-]|[Hne Hr0]]%lookup_insert_Some.
    + split_and!; [done|by rewrite lookup_insert_eq|]. exists (opening_events now).
      rewrite lookup_insert_eq. split; [done|]. by apply log_ok_opening.
    + rewrite !lookup_insert_ne by done. by apply Hrun.
  - intros i evs [[<- _]|[Hne Hi]]%lookup_insert_Some; [by rewrite lookup_insert_eq|].
    rewrite lookup_insert_ne by done. by eapply Hev.
Qed.

Lemma log_of_run s ths id r :
  inv (s, ths) → runs s !! id = Some r → events s !! id = Some (log_of id s) ∧ log_ok r (log_of id s).
Proof.
  intros Hi Hr. destruct (inv_run _ Hi id r Hr) as (_ & _ & evs & He & Hl). simpl in He.
  unfold log_of. by rewrite He.
Qed.

Lemma inv_completion s ths now id terminal d :
  inv (s, ths) → inv (snd (commit_completion now id terminal d s), ths).
Proof.
  intros Hi. unfold commit_completion. destruct (runs s !! id) as [r|] eqn:Hr; [|done].
  destruct (active_state (rec_state r)); [|done]. cbn [negb snd]. destruct (log_of_run s ths id r Hi Hr) as [_ Hl].
  apply (inv_set_run s ths id r); try done. by apply log_ok_append.
Qed.

Lemma inv_cancel s ths now id : inv (s, ths) → inv (snd (commit_cancel now id s), ths).
Proof.
  intros Hi. unfold commit_cancel. destruct (runs s !! id) as [r|] eqn:Hr; [|done].
  cbn [snd]. destruct (log_of_run s ths id r Hi Hr) as [_ Hl].
  apply (inv_set_run s ths id r); try done. by apply log_ok_append.
Qed.

Lemma inv_cleanup s ths now1 now2 id : inv (s, ths) → inv (snd (commit_cleanup now1 now2 id s), ths).
Proof.
  intros Hi. unfold commit_cleanup. destruct (runs s !! id) as [r|] eqn:Hr; [|done].
  cbn [snd]. destruct (log_of_run s ths id r Hi Hr) as [_ Hl].
  apply (inv_set_run s ths id r); try done. unfold next_sequence.
  pose proof (log_ok_append _ _ Cleaning now1 None Hl) as Hl1.
  pose proof (log_ok_append _ _ Cleaned now2 None Hl1) as Hl2.
  rewrite <- app_assoc in Hl2. by rewrite len_app in Hl2.
Qed.

Lemma inv_after_start s ths t r ctx : inv (s, delete t ths) → inv (s, after_start t r ctx ths).
Proof.
  intros Hi. unfold after_start. destruct ctx as [c|]; [|done].
  rewrite <- insert_delete_eq. apply inv_add_thread; [done| |done]. by rewrite lookup_delete_eq.
Qed.

Lemma inv_step c c' : inv c → step c c' → inv c'.
Proof.
  intros Hi Hstep. destruct Hstep as [| ??? req ctx r Hf Hr | | | ????? ctx now b r Ht Hc | ????? Ht
    | ?????? Hf | ???? id terminal d now res Ht Hc | ????? Hf | ????? now res Ht Hc | ????? Hf
    | ????? now1 now2 res Ht Hc | ???? Ht].
  - by eapply inv_same.
  - apply inv_after_start, inv_delete_thread; [done|by rewrite Hf].
  - by eapply inv_reserve.
  - by eapply inv_release.
  - apply inv_after_start. replace s' with (snd (commit_start now req b s)) by (by rewrite Hc).
    by eapply inv_commit_start.
  - apply inv_delete_thread; [by eapply inv_same|by rewrite Ht].
  - apply inv_add_thread; [done|by rewrite Hf|done].
  - apply inv_delete_thread; [|by rewrite Ht].
    replace s' with (snd (commit_completion now id terminal d s)) by (by rewrite Hc). by apply inv_completion.
  - apply inv_add_thread; [done|by rewrite Hf|done].
  - apply inv_delete_thread; [|by rewrite Ht].
    replace s' with (snd (commit_cancel now id s)) by (by rewrite Hc). by apply inv_cancel.
  - apply inv_add_thread; [done|by rewrite Hf|done].
  - apply inv_delete_thread; [|by rewrite Ht].
    replace s' with (snd (commit_cleanup now1 now2 id s)) by (by rewrite Hc). by apply inv_cleanup.
  - apply inv_delete_thread; [done|]. by destruct Ht as [-> | ->].
Qed.

Lemma inv_steps c c' : inv c → rtc step c c' → inv c'.
Proof. intros Hi Hr. revert Hi. induction Hr; eauto using inv_step. Qed.

Lemma reachable_config_inv c : reachable c → inv c.
Proof. apply inv_steps, inv_initial. Qed.

(** *** History only grows *)

(** Runs keep their identity and their backend, logs keep what they say. *)
Definition grows (s s' : ServiceState) : Prop :=
  (∀ id r, runs s !! id = Some r → ∃ r', runs s' !! id = Some r' ∧
     rec_replay_key r' = rec_replay_key r ∧ rec_backend_id r' = rec_backend_id r) ∧
  (∀ id evs, events s !! id = Some evs → ∃ tail, events s' !! id = Some (evs ++ tail)) ∧
  (∀ k id, replay s !! k = Some id → replay s' !! k = Some id).

#[global] Instance grows_preorder : PreOrder grows.
Proof.
  split.
  - intros s. split_and!; [eauto|intros id evs He; exists []; by rewrite app_nil_r|done].
  - intros s1 s2 s3 (H1 & H2 & H3) (K1 & K2 & K3). split_and!; [| |eauto].
    + intros id r Hr. destruct (H1 id r Hr) as (r2 & Hr2 & E & F).
      destruct (K1 id r2 Hr2) as (r3 & Hr3 & E' & F'). exists r3. split_and!; congruence.
    + intros id evs He. destruct (H2 id evs He) as [t1 H]. destruct (K2 id _ H) as [t2 K].
      exists (t1 ++ t2). by rewrite app_assoc.
Qed.

Lemma grows_same s s' : runs s' = runs s → events s' = events s → replay s' = replay s → grows s s'.
Proof.
  intros E1 E2 E3. unfold grows. rewrite E1, E2, E3.
  split_and!; [eauto|intros id evs He; exists []; by rewrite app_nil_r|done].
Qed.

Lemma grows_set_run s id r st tail :
  runs s !! id = Some r → grows s (set_run id (with_state st r) (log_of id s ++ tail) s).
Proof.
  intros Hr. split_and!; [| |done].
  - intros i r0 Hr0. simpl. destruct (decide (i = id)) as [->|Hne].
    + rewrite lookup_insert_eq. exists (with_state st r). rewrite Hr in Hr0. injection Hr0 as <-. done.
    + rewrite lookup_insert_ne by done. eauto.
  - intros i evs He. simpl. destruct (decide (i = id)) as [->|Hne].
    + rewrite lookup_insert_eq. exists tail. unfold log_of. by rewrite He.
    + rewrite lookup_insert_ne by done. exists []. by rewrite app_nil_r.
Qed.

Lemma grows_commit_start s ths t req ctx now b :
  inv (s, ths) → ths !! t = Some (TStart req ctx) → grows s (snd (commit_start now req b s)).
Proof.
  intros Hi Hth. destruct (commit_start_fresh s ths t req ctx Hi Hth) as (Hid & Hk & _).
  assert (events s !! run_id req = None) as He.
  { destruct (events s !! run_id req) eqn:E; [|done]. apply (inv_events _ Hi) in E as [? E]. simpl in E. congruence. }
  split_and!; simpl.
  - intros i r Hr. exists r. rewrite lookup_insert_ne by congruence. done.
  - intros i evs Hev. exists []. rewrite lookup_insert_ne, app_nil_r by congruence. done.
  - intros k i Hi'. by rewrite lookup_insert_ne by congruence.
Qed.

Lemma step_grows c c' : inv c → step c c' → grows (fst c) (fst c').
Proof.
  intros Hi Hstep. destruct Hstep; cbn [fst]; try by apply grows_same.
  - apply reserve_none in H0 as (-> & _). by apply grows_same.
  - replace s' with (snd (commit_start now req b s)) by (by rewrite H0). by eapply grows_commit_start.
  - unfold commit_completion in H0. destruct (runs s !! id) eqn:Hr; simplify_eq; [|done].
    destruct (active_state _); cbn [negb] in H0; simplify_eq; [|done]. by apply grows_set_run.
  - unfold commit_cancel in H0. destruct (runs s !! id) eqn:Hr; simplify_eq; [|done]. by apply grows_set_run.
  - unfold commit_cleanup in H0. destruct (runs s !! id) eqn:Hr; simplify_eq; [|done]. by apply grows_set_run.
Qed.

Lemma steps_grow c c' : inv c → rtc step c c' → grows (fst c) (fst c').
Proof.
  intros Hi Hr. revert Hi. induction Hr as [|c1 c2 c3 H12 H23 IH]; intros Hi; [done|].
  etransitivity; [by eapply step_grows|]. by eapply IH, inv_step.
Qed.

(** *** Reading a log from a cursor *)

Lemma numbered_cursor (evs : list RunEventRecord) (k base : N) :
  (∀ i e, evs !! i = Some e → ev_sequence e = base + N.of_nat i + 1) →
  filter (λ e, base + k < ev_sequence e) evs = dropN k evs.
Proof.
  revert k base. induction evs as [|e evs IH]; intros k base Hn; [by destruct (N.to_nat k) eqn:E; unfold dropN; rewrite E|].
  pose proof (Hn 0%nat e eq_refl) as He.
  assert (∀ i e', evs !! i = Some e' → ev_sequence e' = (base + 1) + N.of_nat i + 1) as Hn'.
  { intros i e' Hi. rewrite (Hn (S i) e' Hi). lia. }
  destruct (N.eq_0_gt_0_cases k) as [->|Hk].
  - rewrite dropN_0. apply filter_all. intros e' [i Hi]%list_elem_of_lookup. rewrite (Hn i e' Hi). lia.
  - rewrite filter_cons_False by lia. specialize (IH (k - 1) (base + 1) Hn').
    replace (base + 1 + (k - 1)) with (base + k) in IH by lia. rewrite IH. unfold dropN.
    by replace (N.to_nat k) with (S (N.to_nat (k - 1))) by lia.
Qed.

(** ** The operations are interleavings of their critical sections *)

Inductive call :=
| CallProvision (class : BackendClass) (key : string)
| CallStart (req : ExecutionRequest)
| CallStartAuthorized (verdict : result ExecutionError AuthorizedExecution)
    (resolve : AuthorizedExecution → result ExecutionError ExecutionRequest)
| CallStatus (id : string)
| CallInspect (id : string) (after : N)
| CallCancel (id : string)
| CallCleanup (id : string)
| CallCollect (id : string).

Section refinement.
Context `{B3 : Blake3} {W : Type} `{BE : Backend W}.
Variable encode_error : ExecutionError → result string (list byte).
Variable encode_events : list RunEventRecord → result string (list byte).
Variable now : N → N.

(** A backend whose [start] returns. *)
Definition start_returns : Prop := ∀ req w, fst (be_start (W := W) req w) ≠ Panic.

Definition exec (c : call) (sv : service (W := W)) : service (W := W) :=
  match c with
  | CallProvision class key => snd (provision class key sv)
  | CallStart req => snd (start now req sv)
  | CallStartAuthorized verdict resolve => snd (start_authorized now verdict resolve sv)
  | CallStatus id => snd (status encode_error now id sv)
  | CallInspect id after => snd (inspect encode_error now id after sv)
  | CallCancel id => snd (cancel encode_error now id sv)
  | CallCleanup id => snd (cleanup encode_error now id sv)
  | CallCollect id => snd (collect encode_error encode_events now id sv)
  end.

Lemma refresh_steps id s w ths t :
  ths !! t = None → rtc step (s, ths) (fst (snd (refresh_run encode_error now id (s, w))), ths).
Proof.
  intros Hfree. unfold refresh_run. destruct (is_active id s) eqn:Ha; [|done]. cbn [negb].
  destruct (be_poll id w) as [[[o|]|e|] w'] eqn:Ep; try done.
  destruct (outcome_of encode_error o) as [[terminal d]|e|] eqn:Eo; try done.
  destruct (commit_completion _ id terminal d s) as [res s'] eqn:Ec. cbn [fst snd].
  eapply rtc_l; [apply (StepPoll s ths t id terminal d); try done|].
  { unfold outcome_of in Eo. destruct o; [naive_solver|].
    destruct (encode_error e); simplify_eq; by right. }
  eapply rtc_l; [by eapply (StepCompleted s s' _ t id terminal d); [apply lookup_insert_eq|]|].
  by rewrite delete_insert_id.
Qed.

Lemma start_steps req s w ths t ctx :
  start_returns → ths !! t = None →
  match start now req (s, w) with
  | (Ok r, (s', _)) => rtc step (s, ths) (s', after_start t r ctx ths)
  | (_, (s', _)) => rtc step (s, ths) (s', ths)
  end.
Proof.
  intros Hret Hfree. unfold start. destruct (_ ← _; _) as [[]|e|]; try done.
  destruct (reserve req s) as [[[r|]|e|] s'] eqn:Er.
  - assert (s' = s) as ->.
    { unfold reserve in Er. repeat case_match; by simplify_eq. }
    apply rtc_once. by eapply StepReplay.
  - specialize (Hret req w). destruct (be_start req w) as [[b|e|] w'] eqn:Eb; [|..|done].
    + destruct (commit_start now req b s') as [r s2] eqn:Ec.
      eapply rtc_l; [by apply (StepReserve s s' ths t req ctx)|].
      eapply rtc_l; [by eapply (StepStarted s' s2 _ t req ctx now b r); [apply lookup_insert_eq|]|].
      destruct ctx as [c|]; cbn [after_start]; [by rewrite insert_insert_eq|].
      by rewrite delete_insert_id, delete_id.
    + eapply rtc_l; [by apply (StepReserve s s' ths t req ctx)|].
      eapply rtc_l; [by eapply (StepStartFailed s' _ t req ctx); apply lookup_insert_eq|].
      by rewrite delete_insert_id.
  - assert (s' = s) as -> by (unfold reserve in Er; repeat case_match; by simplify_eq). done.
  - unfold reserve in Er. repeat case_match; by simplify_eq.
Qed.

Lemma cancel_steps id s w ths t :
  ths !! t = None → rtc step (s, ths) (fst (snd (cancel encode_error now id (s, w))), ths).
Proof.
  intros Hfree. unfold cancel. pose proof (refresh_steps id s w ths t Hfree) as Hr.
  destruct (refresh_run encode_error now id (s, w)) as [[u|e|] [s1 w1]]; try done.
  cbn [fst snd] in Hr. etransitivity; [exact Hr|]. destruct (runs s1 !! id) as [r|] eqn:Er; [|done].
  destruct (terminal_state (rec_state r)) eqn:Et; [done|].
  destruct (be_cancel id w1) as [[[]|e|] w2]; try done.
  destruct (commit_cancel _ id s1) as [res s2] eqn:Ec. cbn [fst snd].
  eapply rtc_l; [by eapply (StepCancel s1 ths t id r)|].
  eapply rtc_l; [by eapply (StepCancelled s1 s2 _ t id); [apply lookup_insert_eq|]|].
  by rewrite delete_insert_id.
Qed.

Lemma cleanup_steps id s w ths t :
  ths !! t = None → rtc step (s, ths) (fst (snd (cleanup encode_error now id (s, w))), ths).
Proof.
  intros Hfree. unfold cleanup. pose proof (refresh_steps id s w ths t Hfree) as Hr.
  destruct (refresh_run encode_error now id (s, w)) as [[u|e|] [s1 w1]]; try done.
  cbn [fst snd] in Hr. etransitivity; [exact Hr|]. destruct (runs s1 !! id) as [r|] eqn:Er; [|done].
  case_bool_decide as Et; [done|]. destruct (be_cancel id w1) as [[b|e|] w2]; try done.
  destruct (commit_cleanup _ _ id s1) as [res s2] eqn:Ec. cbn [fst snd].
  eapply rtc_l; [by eapply (StepCleanup s1 ths t id r)|].
  eapply rtc_l; [by eapply (StepCleaned s1 s2 _ t id); [apply lookup_insert_eq|]|].
  by rewrite delete_insert_id.
Qed.

Lemma exec_steps c s w ths t :
  start_returns → ths !! t = None → rtc step (s, ths) (fst (exec c (s, w)), ths).
Proof.
  intros Hret Hfree. destruct c as [class key|req|verdict resolve|id|id after|id|id|id]; cbn [exec].
  - unfold provision. case_bool_decide; [done|].
    destruct (be_provision w) as [[c|e|] w']; try done.
    case_bool_decide; [|done]. apply rtc_once. by constructor.
  - pose proof (start_steps req s w ths t None Hret Hfree) as Hs. cbn [after_start] in Hs.
    rewrite delete_id in Hs by done. by destruct (start now req (s, w)) as [[r|e|] [s' w']].
  - unfold start_authorized. cbn [fst]. destruct (provisioned s); [|done]. cbn [negb].
    destruct (verdict ≫= _) as [[a req]|e|]; try done.
    pose proof (start_steps req s w ths t (Some (receipt_of a)) Hret Hfree) as Hs.
    destruct (start now req (s, w)) as [[r|e|] [s' w']]; try done. cbn [after_start] in Hs. cbn [fst snd].
    etransitivity; [exact Hs|]. eapply rtc_l; [eapply StepReceipt, lookup_insert_eq|].
    by rewrite delete_insert_id.
  - pose proof (refresh_steps id s w ths t Hfree) as Hr. unfold status.
    by destruct (refresh_run encode_error now id (s, w)) as [[u|e|] [s1 w1]].
  - pose proof (refresh_steps id s w ths t Hfree) as Hr. unfold inspect.
    by destruct (refresh_run encode_error now id (s, w)) as [[u|e|] [s1 w1]].
  - by apply cancel_steps with t.
  - by apply cleanup_steps with t.
  - pose proof (refresh_steps id s w ths t Hfree) as Hr. unfold collect.
    by destruct (refresh_run encode_error now id (s, w)) as [[u|e|] [s1 w1]].
Qed.

Lemma calls_reachable cs w s w' :
  start_returns → foldl (λ sv c, exec c sv) (ServiceState_default, w) cs = (s, w') → reachable (s, ∅).
Proof.
  intros Hret. unfold reachable, initial. generalize ServiceState_default. revert w.
  induction cs as [|c cs IH]; intros w s0 Hf; [simpl in Hf; by simplify_eq|]. simpl in Hf.
  pose proof (exec_steps c s0 w ∅ 0%nat Hret (lookup_empty _)) as Hc.
  destruct (exec c (s0, w)) as [s1 w1]. cbn [fst] in Hc. etransitivity; [exact Hc|]. by eapply IH.
Qed.
End refinement.

(** ** Properties *)

(** C9: whatever calls interleave, no two starts in flight share a run id or
    a replay key, none in flight names a run that exists or reuses its replay
    key, and no two runs share a replay key: the backend is never asked twice
    for one identity at once, nor again once it started. *)
Theorem start_identities_unique s ths :
  reachable (s, ths) →
  (∀ t1 t2 r1 r2 c1 c2, ths !! t1 = Some (TStart r1 c1) → ths !! t2 = Some (TStart r2 c2) →
     run_id r1 = run_id r2 ∨ replay_key r1 = replay_key r2 → t1 = t2) ∧
  (∀ t req ctx, ths !! t = Some (TStart req ctx) →
     runs s !! run_id req = None ∧ ∀ id r, runs s !! id = Some r → rec_replay_key r ≠ replay_key req) ∧
  (∀ id1 id2 r1 r2, runs s !! id1 = Some r1 → runs s !! id2 = Some r2 →
     rec_replay_key r1 = rec_replay_key r2 → id1 = id2).
Proof.
  intros Hi%reachable_config_inv. split_and!.
  - intros t1 t2 r1 r2 c1 c2 H1 H2 [E|E]; [by eapply (inv_thread_unique _ Hi)|].
    pose proof (inv_thread _ Hi _ _ _ H1) as K1. pose proof (inv_thread _ Hi _ _ _ H2) as K2.
    rewrite E in K1. pose proof (inv_starting_inj _ Hi _ _ _ K1 K2) as Eid.
    by eapply (inv_thread_unique _ Hi).
  - intros t req ctx Ht. by destruct (commit_start_fresh s ths t req ctx Hi Ht) as (? & _ & ?).
  - intros id1 id2 r1 r2 H1 H2 E.
    assert (replay s !! rec_replay_key r1 = Some id1) as K1 by (apply (inv_replay _ Hi); eauto).
    assert (replay s !! rec_replay_key r2 = Some id2) as K2 by (apply (inv_replay _ Hi); eauto).
    congruence.
Qed.

(** C16: however calls interleave, a run keeps its replay key and backend for
    ever, its log only grows, numbered 1, 2, 3, ... with no gap, opened by
    accepted, provisioning, ready, running, its last event being the run's
    state; so reading from a cursor returns exactly the events after it. *)
Theorem run_history_append_only s ths s' ths' id r :
  reachable (s, ths) → rtc step (s, ths) (s', ths') → runs s !! id = Some r →
  ∃ r' tail, runs s' !! id = Some r' ∧ rec_run_id r' = id ∧
    rec_replay_key r' = rec_replay_key r ∧ rec_backend_id r' = rec_backend_id r ∧
    log_of id s' = log_of id s ++ tail ∧ log_ok r' (log_of id s') ∧
    ∀ k, filter (λ e, k < ev_sequence e) (log_of id s') = dropN k (log_of id s').
Proof.
  intros Hi%reachable_config_inv Hst Hr. pose proof (inv_steps _ _ Hi Hst) as Hi'.
  destruct (steps_grow _ _ Hi Hst) as (Hruns & Hev & _). cbn [fst] in *.
  destruct (Hruns id r Hr) as (r' & Hr' & E1 & E2).
  destruct (log_of_run s ths id r Hi Hr) as [He _]. destruct (Hev _ _ He) as [tail Ht].
  destruct (log_of_run s' ths' id r' Hi' Hr') as [He' Hl'].
  exists r', tail. split_and!; try done; [by apply (inv_run _ Hi')|congruence|].
  intros k. apply (numbered_cursor _ k 0). intros i e Hie. by rewrite (log_numbered _ _ Hl' i e Hie).
Qed.

Lemma reserve_replay req s r s1 ths :
  inv (s, ths) → reserve req s = (Ok (Some r), s1) →
  s1 = s ∧ runs s !! rec_run_id r = Some r ∧ rec_replay_key r = replay_key req.
Proof.
  intros Hi. unfold reserve. destruct (replay s !! replay_key req) as [id|] eqn:Ek; [|by repeat case_match].
  apply (inv_replay _ Hi) in Ek as (r0 & Hr0 & E). cbn [fst] in Hr0. rewrite Hr0. intros [= <- <-].
  split_and!; [done| |done]. by rewrite (proj1 (inv_run _ Hi _ _ Hr0)).
Qed.

Lemma release_reserved req s :
  starting s !! run_id req = None →
  release (run_id req) (set_starting (<[run_id req := replay_key req]> (starting s)) s) = s.
Proof. intros Hn. unfold release. destruct s; simpl in *. by rewrite delete_insert_id. Qed.

Lemma reserve_conflict req s e s1 ths :
  inv (s, ths) → reserve req s = (Err e, s1) →
  s1 = s ∧ code e = ResourceConflict ∧
  if retryable e
  then ∃ t req' ctx, ths !! t = Some (TStart req' ctx) ∧
         (run_id req' = run_id req ∨ replay_key req' = replay_key req)
  else is_Some (runs s !! run_id req).
Proof.
  intros Hi. unfold reserve. destruct (replay s !! replay_key req) as [id|] eqn:Ek.
  { apply (inv_replay _ Hi) in Ek as (r0 & Hr0 & _). cbn [fst] in Hr0. by rewrite Hr0. }
  destruct (existsb _ _) eqn:Ex.
  { intros [= <- <-]. split_and!; [done..|]. apply existsb_exists in Ex as ([id k] & Hin & Eq).
    apply bool_decide_eq_true in Eq. simpl in Eq. apply list_elem_of_In, elem_of_map_to_list in Hin.
    destruct (inv_owner _ Hi id k Hin) as (t & req' & ctx & Ht & E). exists t, req', ctx. split; [done|right].
    pose proof (inv_thread _ Hi t req' ctx Ht) as Hst. rewrite E in Hst. simpl in Hst. congruence. }
  case_bool_decide as Hr; [by intros [= <- <-]|]. case_bool_decide as Hs; [|done].
  intros [= <- <-]. split_and!; [done..|]. destruct Hs as [k Hk].
  destruct (inv_owner _ Hi _ k Hk) as (t & req' & ctx & Ht & E). exists t, req', ctx. auto.
Qed.

Section service_properties.
Context `{B3 : Blake3} {W : Type} `{BE : Backend W}.
Variable encode_error : ExecutionError → result string (list byte).
Variable encode_events : list RunEventRecord → result string (list byte).
Variable now : N → N.

(** Run one after another, with any backend whose [start] returns, the
    operations only ever reach states of the interleaving system; an operation
    run to its end beside calls in flight is a sequence of its steps. *)
Theorem operations_refine_interleavings c cs s (w : W) s' w' ths t :
  start_returns (W := W) → ths !! t = None →
  rtc step (s, ths) (fst (exec encode_error encode_events now c (s, w)), ths) ∧
  (foldl (λ sv c, exec encode_error encode_events now c sv) (ServiceState_default, w) cs = (s', w') →
   reachable (s', ∅) ∧ starting s' = ∅).
Proof.
  intros Hret Hfree. split; [by eapply exec_steps|]. intros Hf.
  assert (reachable (s', ∅)) as Hre by (by eapply calls_reachable). split; [done|].
  apply map_empty. intros id. apply eq_None_not_Some. intros [k Hk].
  by destruct (inv_owner _ (reachable_config_inv _ Hre) id k Hk) as (? & ? & ? & ? & _).
Qed.

(** [start] on an acceptable request, on every branch.  A replay key
    already used returns that run as it now stands and touches nothing; a
    conflict with a run, or with a start in flight (then marked retryable),
    touches nothing; otherwise the backend is asked once, and its refusal leaves
    the state exactly as it was, the identities free again, while its success
    records a running run with the four opening events. *)
Theorem start_exactly_once req s (w : W) ths :
  reachable (s, ths) →
  request_validate req = Ok tt → check (enforced (capabilities w)) (limits req) = Ok tt →
  match start now req (s, w) with
  | (Ok r, (s', w')) =>
      (runs s !! rec_run_id r = Some r ∧ rec_replay_key r = replay_key req ∧ s' = s ∧ w' = w) ∨
      (∃ b, be_start req w = (Ok b, w') ∧ runs s !! run_id req = None ∧
         (∀ id r', runs s !! id = Some r' → rec_replay_key r' ≠ replay_key req) ∧
         r = started_record req b ∧ runs s' = <[run_id req := r]> (runs s) ∧
         starting s' = starting s ∧ log_of (run_id req) s' = opening_events now)
  | (Err e, (s', w')) =>
      s' = s ∧
      (be_start req w = (Err e, w') ∨
       w' = w ∧ code e = ResourceConflict ∧
       if retryable e
       then ∃ t req' ctx, ths !! t = Some (TStart req' ctx) ∧
              (run_id req' = run_id req ∨ replay_key req' = replay_key req)
       else is_Some (runs s !! run_id req))
  | (Panic, _) => fst (be_start req w) = Panic
  end.
Proof.
  intros Hi%reachable_config_inv Hv Hc. unfold start. rewrite Hv, Hc. cbn [mbind result_bind].
  destruct (reserve req s) as [[[r|]|e|] s1] eqn:Er.
  - destruct (reserve_replay req s r s1 ths Hi Er) as (-> & Hr & Hk). by left.
  - pose proof Er as (-> & Hk & Hid & Hst & Hval)%reserve_none.
    destruct (be_start req w) as [[b|e|] w'] eqn:Eb; [right|split; [by apply release_reserved|by left]|done].
    exists b. split_and!; try done.
    + intros id r' Hr' E. assert (replay s !! replay_key req = Some id) by (apply (inv_replay _ Hi); eauto). congruence.
    + simpl. by rewrite delete_insert_id.
    + unfold log_of. simpl. by rewrite lookup_insert_eq.
  - destruct (reserve_conflict req s e s1 ths Hi Er) as (-> & ? & ?). auto.
  - unfold reserve in Er. repeat case_match; by simplify_eq.
Qed.

(** A second authorized start whose grant reuses a replay key returns the
    first run and then files its own receipt context under that run's id: the
    receipt collected for the run names the second spec and grant, although the
    backend ran the first and [run_id] is derived from the spec. *)
Theorem replayed_grant_rewrites_receipt a resolve req s (w : W) ths id r :
  reachable (s, ths) → provisioned s = true →
  runs s !! id = Some r → rec_replay_key r = au_replay_key a →
  resolve a = Ok req → bound_to a req = Ok tt →
  request_validate req = Ok tt → check (enforced (capabilities w)) (limits req) = Ok tt →
  ∃ s', start_authorized now (Ok a) resolve (s, w) = (Ok r, (s', w)) ∧
    receipts s' = <[id := receipt_of a]> (receipts s) ∧ runs s' = runs s.
Proof.
  intros Hi%reachable_config_inv Hp Hr Hk Hres Hb Hv Hc.
  assert (replay_key req = au_replay_key a) as Ek.
  { unfold bound_to in Hb. result_inv. by match goal with
      H : bool_decide (replay_key req = _) = true |- _ => apply bool_decide_eq_true in H end. }
  assert (reserve req s = (Ok (Some r), s)) as Er.
  { assert (replay s !! replay_key req = Some id) as Hrep by (apply (inv_replay _ Hi); exists r; by rewrite Ek).
    unfold reserve. by rewrite Hrep, Hr. }
  unfold start_authorized, start. cbn [fst]. rewrite Hp. cbn [negb].
  rewrite bind_Ok, Hres, bind_Ok, Hb, bind_Ok. cbn [mret result_ret].
  rewrite Hv, Hc, bind_Ok, Er. eexists. split; [done|]. simpl.
  by rewrite (proj1 (inv_run _ Hi _ _ Hr)).
Qed.

(** Cancelling a run that was cleaned up is an error, not a no-op, with a
    backend that reports it no longer owns the run. *)
Lemma cancel_after_cleanup_is_an_error id s (w w' : W) r :
  runs s !! id = Some r → rec_state r = Cleaned → be_cancel id w = (Ok false, w') →
  cancel encode_error now id (s, w)
  = (Err (backend_error "backend no longer owns the active run"), (s, w')).
Proof.
  intros Hr Hst Hc. unfold cancel, refresh_run, is_active. rewrite Hr, Hst. cbn [active_state negb].
  by rewrite Hr, Hst, Hc.
Qed.
End service_properties.

(** ** A small service *)

(** A backend that starts everything, never reports, and owns a run until it is
    cancelled. *)
#[local] Instance demo_backend : Backend (gset string) := {|
  capabilities := λ _, {| cap_backend_id := "demo"; backend_class := Native; available := true;
                          unavailable_reason := None; enforced := wall_clock_only |};
  be_provision := λ w, (default_provision {| cap_backend_id := "demo"; backend_class := Native;
    available := true; unavailable_reason := None; enforced := wall_clock_only |}, w);
  be_start := λ req w, (Ok {| started_backend_id := "demo"; started_channels := [] |}, {[run_id req]} ∪ w);
  be_poll := λ _ w, (default_poll, w);
  be_cancel := λ id w, (Ok (bool_decide (id ∈ w)), w ∖ {[id]});
|}.

Definition demo_digest : string :=
  "0123456789abcdef0123456789abcdef0123456789abcdef0123456789abcdef".
Definition demo_request (id key : string) : ExecutionRequest := {|
  run_id := id; replay_key := key; rootfs := {| algorithm := "blake3-256"; value := demo_digest |};
  executable := "bin/agent"; arguments := []; public_environment := ∅; allowed_egress := [];
  limits := {| wall_time_ms := 1000; output_bytes := 0; memory := {| memory_limit := 0 |};
               cpu := {| quota := 0; period := 0 |}; pids := {| pids_limit := 0 |} |};
  confinement_digest := EmptyString; confinement_manifest := None; workspaces := [] |}.

#[local] Existing Instance toy_blake3.

Definition demo_encode {A} (_ : A) : result string (list byte) := Ok [].
Definition demo_exec (c : call) (sv : ServiceState * gset string) : ServiceState * gset string :=
  exec demo_encode demo_encode (λ i, i) c sv.

(** One run started and running. *)
Definition demo_calls : list call :=
  [CallProvision Native "p"; CallStart (demo_request "run-1" "key-1")].
Definition demo_service : ServiceState * gset string :=
  foldl (λ sv c, demo_exec c sv) (ServiceState_default, ∅) demo_calls.

Lemma demo_start_returns : start_returns (W := gset string).
Proof. by intros req w. Qed.

Lemma demo_reachable : reachable (fst demo_service, ∅).
Proof.
  eapply (calls_reachable demo_encode demo_encode (λ i, i) demo_calls ∅ _ (snd demo_service));
    [exact demo_start_returns|]. by destruct demo_service eqn:E.
Qed.

(** A second start reserved and waiting for the backend. *)
Definition demo_flight : config :=
  (snd (reserve (demo_request "run-2" "key-2") (fst demo_service)),
   {[0%nat := TStart (demo_request "run-2" "key-2") None]}).

Lemma demo_flight_reachable : reachable demo_flight.
Proof.
  eapply rtc_r; [exact demo_reachable|].
  apply (StepReserve (fst demo_service) _ ∅ 0%nat (demo_request "run-2" "key-2") None); [done|].
  vm_compute. reflexivity.
Qed.

Lemma start_identities_unique_witness :
  runs (fst demo_flight) !! "run-2"%string = None ∧
  ∀ id r, runs (fst demo_flight) !! id = Some r → rec_replay_key r ≠ "key-2"%string.
Proof.
  destruct (start_identities_unique (fst demo_flight) (snd demo_flight) demo_flight_reachable) as (_ & Hf & _).
  exact (Hf 0%nat (demo_request "run-2" "key-2") None eq_refl).
Defined.

Lemma demo_second_start :
  runs (fst demo_service) !! "run-2"%string = None ∧
  ∃ sv, start (λ i, i) (demo_request "run-2" "key-2") (fst demo_service, snd demo_service)
    = (Ok (started_record (demo_request "run-2" "key-2")
             {| started_backend_id := "demo"; started_channels := [] |}), sv).
Proof. split; [vm_compute; reflexivity|]. eexists. vm_compute. reflexivity. Qed.

Lemma start_exactly_once_witness :
  ∃ b w' s', be_start (demo_request "run-2" "key-2") (snd demo_service) = (Ok b, w') ∧
    runs s' = <["run-2"%string := started_record (demo_request "run-2" "key-2") b]> (runs (fst demo_service)).
Proof.
  pose proof (start_exactly_once (λ i, i) (demo_request "run-2" "key-2") (fst demo_service)
    (snd demo_service) ∅ demo_reachable eq_refl eq_refl) as Hs.
  destruct demo_second_start as [Hnone [[s' w'] E]]. rewrite E in Hs.
  destruct Hs as [(Hr & _)|(b & Hb & _ & _ & Eb & Hruns & _)].
  - exfalso. cbn [rec_run_id started_record run_id demo_request] in Hr. rewrite Hnone in Hr. discriminate Hr.
  - exists b, w', s'. split; [exact Hb|]. rewrite Hruns, Eb. reflexivity.
Defined.

Lemma run_history_append_only_witness :
  ∃ r' tail, runs (fst (demo_exec (CallCleanup "run-1") demo_service)) !! "run-1"%string = Some r' ∧
    rec_state r' = Cleaned ∧ ev_state <$> tail = [Cleaning; Cleaned] ∧
    log_of "run-1" (fst (demo_exec (CallCleanup "run-1") demo_service))
      = log_of "run-1" (fst demo_service) ++ tail.
Proof.
  destruct (run_history_append_only (fst demo_service) ∅
    (fst (demo_exec (CallCleanup "run-1") demo_service)) ∅ "run-1"
    (started_record (demo_request "run-1" "key-1") {| started_backend_id := "demo"; started_channels := [] |}))
    as (r' & tail & Hr & _ & _ & _ & Hl & _); [exact demo_reachable| |vm_compute; reflexivity|].
  - exact (exec_steps demo_encode demo_encode (λ i, i) (CallCleanup "run-1") (fst demo_service)
      (snd demo_service) ∅ 0%nat demo_start_returns eq_refl).
  - exists r', tail. split; [exact Hr|]. split; [|split; [|exact Hl]].
    + vm_compute in Hr. injection Hr as <-. reflexivity.
    + apply (f_equal (λ l, ev_state <$> drop 4 l)) in Hl. vm_compute in Hl. by rewrite Hl.
Defined.

Lemma operations_refine_interleavings_witness :
  rtc step (fst demo_service, snd demo_flight)
    (fst (demo_exec (CallCancel "run-1") demo_service), snd demo_flight).
Proof.
  apply (operations_refine_interleavings demo_encode demo_encode (λ i, i) (CallCancel "run-1") []
    (fst demo_service) (snd demo_service) ServiceState_default ∅ (snd demo_flight) 1%nat
    demo_start_returns eq_refl).
Defined.

(** Another grant, over another spec, that reuses the replay key. *)
Definition demo_grant : AuthorizedExecution := {|
  au_run_id := "run-9"; au_grant_id := "grant-9"; au_replay_key := "key-1";
  au_spec_digest := "spec-9"; au_grant_digest := "grant-9"; au_confinement_digest := EmptyString;
  au_confinement_manifest := None; au_backend := Native; au_allowed_egress := [];
  au_intent := {| in_executable := {| art_digest := "a"; art_media_type := "m" |}; in_arguments := [];
                  in_public_environment := ∅; in_workspace_inputs := [];
                  in_requested_limits := limits (demo_request "run-9" "key-1") |};
  au_limits := limits (demo_request "run-9" "key-1"); au_workspaces := [] |}.

Lemma replayed_grant_rewrites_receipt_witness :
  ∃ r s', start_authorized (λ i, i) (Ok demo_grant) (λ a, Ok (demo_request (au_run_id a) (au_replay_key a)))
      (fst demo_service, snd demo_service) = (Ok r, (s', snd demo_service)) ∧
    rec_run_id r = "run-1"%string ∧ au_run_id demo_grant ≠ rec_run_id r ∧
    receipts s' !! "run-1"%string = Some (receipt_of demo_grant).
Proof.
  destruct (replayed_grant_rewrites_receipt (λ i, i) demo_grant
    (λ a, Ok (demo_request (au_run_id a) (au_replay_key a))) (demo_request "run-9" "key-1")
    (fst demo_service) (snd demo_service) ∅ "run-1"
    (started_record (demo_request "run-1" "key-1") {| started_backend_id := "demo"; started_channels := [] |}))
    as (s' & Hs & Hrc & _);
    [exact demo_reachable|vm_compute; reflexivity|vm_compute; reflexivity|reflexivity|reflexivity
    |vm_compute; reflexivity|vm_compute; reflexivity|vm_compute; reflexivity|].
  eexists _, s'. split; [exact Hs|]. split; [reflexivity|]. split; [discriminate|].
  rewrite Hrc. apply lookup_insert_eq.
Defined.

(** A cancel that the backend confirmed can commit after a cleanup that
    overtook it, since neither write looks at the state again: the log then
    reads cleaning, cleaned, cancelled, and the run stands as cancelled. *)
Theorem cancel_overtaken_by_cleanup :
  ∃ s r, reachable (s, ∅) ∧ runs s !! "run-1"%string = Some r ∧ rec_state r = Cancelled ∧
    ev_state <$> log_of "run-1" s
    = [Accepted; Provisioning; Ready; Running; Cleaning; Cleaned; Cancelled].
Proof.
  set (s0 := fst demo_service). set (s1 := snd (commit_cleanup 5 6 "run-1" s0)).
  exists (snd (commit_cancel 7 "run-1" s1)). eexists. split; [|vm_compute; done].
  unfold reachable. etransitivity; [exact demo_reachable|]. fold s0.
  eapply rtc_l; [eapply (StepCancel s0 ∅ 1%nat "run-1"); [done|vm_compute; reflexivity|done]|].
  eapply rtc_l; [eapply (StepCleanup s0 _ 2%nat "run-1"); [done|vm_compute; reflexivity|done]|].
  eapply rtc_l; [eapply (StepCleaned s0 s1 _ 2%nat "run-1" 5 6); [apply lookup_insert_eq|vm_compute; reflexivity]|].
  eapply rtc_l; [eapply (StepCancelled s1 (snd (commit_cancel 7 "run-1" s1)) _ 1%nat "run-1" 7);
    [rewrite lookup_delete_ne, lookup_insert_ne, lookup_insert_eq by done; reflexivity|vm_compute; reflexivity]|].
  rewrite delete_insert_id, delete_insert_id by done. apply rtc_refl.
Qed.
