(* ===== verification/Catalog.v ===== *)
(** * The trusted execution catalog

    [rs/ll-open/runtime/src/catalog.rs]: the shipped [ExecutionResolver], a table
    from artifact identities to content-addressed root filesystems and
    guest-relative entry points. *)

From S2P Require Import Prelude Substrate Limits Service.
From Stdlib Require Import NArith.
Local Open Scope N_scope.

(** [ArtifactKey] is the artifact's identity. *)
Abbreviation ArtifactKey := ArtifactIdentity.

Record CatalogEntry := {
  ce_rootfs : DigestRef;
  ce_executable : string;
  ce_workspace_inputs : list WorkspaceInput;
}.

Abbreviation CatalogBuilder := (list (ArtifactKey * CatalogEntry)).
Abbreviation CatalogResolver := (gmap ArtifactKey CatalogEntry).

(** [CatalogBuilder::entry] *)
Definition builder_entry (b : CatalogBuilder) (artifact_digest media_type : string) (rootfs : DigestRef)
    (executable : string) (workspace_inputs : list WorkspaceInput) : CatalogBuilder :=
  b ++ [({| art_digest := artifact_digest; art_media_type := media_type |},
         {| ce_rootfs := rootfs; ce_executable := executable; ce_workspace_inputs := workspace_inputs |})].

(** The catalog's own [validate_guest_path]. *)
Definition catalog_validate_guest_path (v : string) : result ExecutionError unit :=
  if negb (guest_path_ok v)
  then Err (invalid "catalog executable must be a guest-relative path without traversal")
  else Ok tt.

(** [CatalogBuilder::build] *)
Fixpoint build_loop (es : CatalogBuilder) (acc : CatalogResolver) : result ExecutionError CatalogResolver :=
  match es with
  | [] => Ok acc
  | (key, entry) :: es =>
      _ ← ensure (negb (bool_decide (art_digest key = EmptyString)
                        || bool_decide (art_media_type key = EmptyString)))
        (invalid "catalog artifact identity must not be empty");
      _ ← validate_blake3 (ce_rootfs entry);
      _ ← catalog_validate_guest_path (ce_executable entry);
      _ ← ensure (bool_decide (acc !! key = None))
        {| code := ResourceConflict; retryable := false;
           detail := "catalog contains duplicate artifact identity" |};
      build_loop es (<[key := entry]> acc)
  end.
Definition catalog_build (b : CatalogBuilder) : result ExecutionError CatalogResolver := build_loop b ∅.

(** [CatalogResolver::from_json], from the parsed document. *)
Record CatalogEntryDocument := {
  doc_artifact_digest : string;
  doc_media_type : string;
  doc_rootfs : DigestRef;
  doc_executable : string;
  doc_workspace_inputs : list (string * string);
}.
Definition from_document (document : list CatalogEntryDocument) : result ExecutionError CatalogResolver :=
  catalog_build (foldl (λ b e,
    builder_entry b (doc_artifact_digest e) (doc_media_type e) (doc_rootfs e) (doc_executable e)
      ((λ w, {| wi_name := fst w; wi_graph_root := snd w |}) <$> doc_workspace_inputs e)) [] document).

(** [ExecutionResolver::resolve] *)
Definition resolve (c : CatalogResolver) (a : AuthorizedExecution) : result ExecutionError ExecutionRequest :=
  entry ← ok_or (c !! in_executable (au_intent a))
    (identity_mismatch "execution artifact is not present in the trusted catalog");
  _ ← ensure (bool_decide (ce_workspace_inputs entry = in_workspace_inputs (au_intent a)))
    (identity_mismatch "execution workspace identity is not present in the trusted catalog");
  let request := {|
    run_id := au_run_id a; replay_key := au_replay_key a;
    rootfs := ce_rootfs entry; executable := ce_executable entry;
    arguments := in_arguments (au_intent a);
    public_environment := in_public_environment (au_intent a);
    allowed_egress := au_allowed_egress a; limits := au_limits a;
    confinement_digest := au_confinement_digest a;
    confinement_manifest := au_confinement_manifest a;
    workspaces := au_workspaces a |} in
  _ ← request_validate request;
  mret request.

(** ** Properties *)

(** What [build] admits. *)
Definition entry_ok (key : ArtifactKey) (e : CatalogEntry) : Prop :=
  art_digest key ≠ EmptyString ∧ art_media_type key ≠ EmptyString ∧
  validate_blake3 (ce_rootfs e) = Ok tt ∧ guest_path_ok (ce_executable e) = true.

Lemma catalog_path_ok v : catalog_validate_guest_path v = Ok tt ↔ guest_path_ok v = true.
Proof. unfold catalog_validate_guest_path. by destruct (guest_path_ok v). Qed.

Lemma build_loop_spec es acc c :
  build_loop es acc = Ok c →
  Forall (λ p, entry_ok (fst p) (snd p)) es ∧ NoDup (fst <$> es) ∧
  (∀ key, key ∈ fst <$> es → acc !! key = None) ∧
  ∀ key e, c !! key = Some e ↔ acc !! key = Some e ∨ (key, e) ∈ es.
Proof.
  revert acc. induction es as [|[key entry] es IH]; intros acc Hb; cbn [build_loop] in Hb.
  { injection Hb as <-. split_and!; [constructor|constructor|by intros ? ?%elem_of_nil|].
    intros key e. rewrite elem_of_nil. naive_solver. }
  apply bind_ok in Hb as ([] & Hne%ensure_ok & Hb). apply bind_ok in Hb as ([] & Hblake & Hb).
  apply bind_ok in Hb as ([] & Hp%catalog_path_ok & Hb).
  apply bind_ok in Hb as ([] & Hnew%ensure_ok%bool_decide_eq_true & Hb).
  apply negb_true_iff, orb_false_iff in Hne as [Hd%bool_decide_eq_false Hm%bool_decide_eq_false].
  destruct (IH _ Hb) as (Hf & Hnd & Hfree & Hc).
  assert (key ∉ fst <$> es) as Hnin.
  { intros Hin. specialize (Hfree key Hin). by rewrite lookup_insert_eq in Hfree. }
  split_and!.
  - by constructor.
  - rewrite fmap_cons. by constructor.
  - rewrite fmap_cons. intros k [->|Hk]%elem_of_cons; [done|].
    specialize (Hfree k Hk). by apply lookup_insert_None in Hfree as [? _].
  - intros k e. rewrite Hc, elem_of_cons, lookup_insert_Some.
    destruct (decide (key = k)) as [->|Hk]; naive_solver.
Qed.

Lemma bound_to_ok a req :
  bound_to a req = Ok tt ↔
  run_id req = au_run_id a ∧ replay_key req = au_replay_key a ∧ allowed_egress req = au_allowed_egress a ∧
  confinement_digest req = au_confinement_digest a ∧ workspaces req = au_workspaces a.
Proof. unfold bound_to. by rewrite !then_ok, !ensure_ok, !bool_decide_eq_true. Qed.

(** The shipped resolver carries the grant and chooses nothing of it.
    What it resolves satisfies every check the service makes on a resolver, runs
    under the grant's own limits, and takes its root filesystem and entry point
    from the one catalog entry for the artifact, which [build] admitted as a
    valid digest and a path that stays inside the guest. *)
Theorem resolve_carries_grant b c a req :
  catalog_build b = Ok c → resolve c a = Ok req →
  bound_to a req = Ok tt ∧ request_validate req = Ok tt ∧ limits req = au_limits a ∧
  confinement_manifest req = au_confinement_manifest a ∧
  ∃ e, (in_executable (au_intent a), e) ∈ b ∧
    (∀ e', (in_executable (au_intent a), e') ∈ b → e' = e) ∧
    rootfs req = ce_rootfs e ∧ executable req = ce_executable e ∧
    entry_ok (in_executable (au_intent a)) e ∧
    ce_workspace_inputs e = in_workspace_inputs (au_intent a).
Proof.
  intros Hb Hr. apply build_loop_spec in Hb as (Hf & Hnd & _ & Hc). unfold resolve in Hr.
  apply bind_ok in Hr as (e & He & Hr). apply bind_ok in Hr as ([] & Hw%ensure_ok%bool_decide_eq_true & Hr).
  apply bind_ok in Hr as ([] & Hv & Hr). injection Hr as <-.
  destruct (c !! in_executable (au_intent a)) as [e0|] eqn:Hl; [|done]. injection He as ->.
  assert ((in_executable (au_intent a), e) ∈ b) as Hin.
  { apply Hc in Hl as [Hl|]; [|done]. by rewrite lookup_empty in Hl. }
  split_and!; [by apply bound_to_ok|done|done|done|]. exists e. split_and!; try done.
  - intros e' Hin'. assert (c !! in_executable (au_intent a) = Some e') as Hl' by (apply Hc; by right). congruence.
  - by apply (proj1 (Forall_forall _ _) Hf _ Hin).
Qed.

(** ** A one-entry catalog *)

Definition demo_catalog : CatalogBuilder :=
  builder_entry [] "a" "m" {| algorithm := "blake3-256"; value := demo_digest |} "bin/agent" [].

Lemma demo_resolves : ∃ c req, catalog_build demo_catalog = Ok c ∧ resolve c demo_grant = Ok req.
Proof. eexists _, _. split; reflexivity. Qed.

Lemma resolve_carries_grant_witness :
  ∃ c req, catalog_build demo_catalog = Ok c ∧ resolve c demo_grant = Ok req ∧
    bound_to demo_grant req = Ok tt ∧ limits req = au_limits demo_grant.
Proof.
  destruct demo_resolves as (c & req & Hb & Hr).
  destruct (resolve_carries_grant demo_catalog c demo_grant req Hb Hr) as (H1 & _ & H2 & _).
  exists c, req. split_and!; [exact Hb|exact Hr|exact H1|exact H2].
Defined.
