(* ===== verification/Authorization.v ===== *)
(** * Authorizing a run

    [rs/ll-open/runtime/src/authorization.rs]: a spec is intent, a grant is the only
    object that turns it into a run.  The generated Cap'n Proto readers are records
    whose fallible fields are [rd] values; message framing and canonicalization are
    the class [Capnp].  Confinement documents are the class [Confinement]. *)

From S2P Require Import Prelude Substrate Text Sign Limits Service Envelope.
From stdpp Require Import pretty.
From Stdlib Require Import NArith Lia Ascii.
Local Open Scope N_scope.

Definition EXECUTION_SCHEMA_VERSION : string := "cloister/execution/v1".
Definition EXECUTION_CAPABILITY : string := "urn:signet:cap:execute:run".
Definition APAS_PREDICATE_TYPE : string := "https://rosary.dev/Handoff/v1".
Definition GRANT_SIGNATURE_PAYLOAD_TYPE : string := "application/vnd.cloister.execution.run-grant+capnp".
Definition GRANT_SIGNATURE_ALGORITHM : string := "ed25519".
Definition RUN_ID_DOMAIN : list byte := bytes_of "cloister/execution/v1/run-id".
Definition RUN_ID_PREFIX : string := "run-".
Definition RUN_BINDING_ALGORITHM : string := "blake3".

(** ** Readers *)

(** A field read from a message, or the reader's error. *)
Inductive rd (A : Type) := Got (a : A) | Bad (error : string).
Arguments Got {A}. Arguments Bad {A}.
(** Texts in errors: the [Display] of a UTF-8 error and the [Debug] of a string. *)
Class Fmt := { utf8_error : list byte → string; debug_str : string → string }.

Record digest_ref := { dr_algorithm : rd (list byte); dr_value : rd (list byte) }.
Record evidence_ref := { er_media_type : rd (list byte); er_digest : rd digest_ref }.
Record artifact_ref := { ar_digest : rd digest_ref; ar_media_type : rd (list byte) }.
Record key_value := { kv_key : rd (list byte); kv_value : rd (list byte) }.
(** A ceiling struct: its data section and the size of its pointer section. *)
Record limit_struct := { ls_data : list byte; ls_pointers : N }.
Record resource_limits := {
  rl_struct : limit_struct; rl_memory : rd limit_struct; rl_cpu : rd limit_struct; rl_pids : rd limit_struct }.
Record workspace_intent := { wsi_name : rd (list byte); wsi_graph_root : rd digest_ref }.
Inductive wire_operation := WireRead | WireList | WireQuery | WireMutate | WireCommit.
Record workspace_grant := {
  wsg_name : rd (list byte); wsg_graph_root : rd digest_ref; wsg_expected_generation : N;
  wsg_operations : rd (list (rd wire_operation)) }.
Record capability_grant := { cap_grant : rd (list byte); cap_interface : rd (list byte) }.
Record grant_signature := { gs_algorithm : rd (list byte); gs_key_id : rd (list byte); gs_value : rd (list byte) }.
Inductive CancellationMode := ExplicitOnly | CancelOnDisconnect.
Inductive wire_backend := WireNative | WireMicroVm.

(** Lists that are only counted are their length. *)
Record run_spec := {
  sp_schema_version : rd (list byte);
  sp_executable : rd artifact_ref;
  sp_arguments : rd (list (rd (list byte)));
  sp_workspace_inputs : rd (list workspace_intent);
  sp_public_environment : rd (list key_value);
  sp_secret_handles : rd N;
  sp_requested_interfaces : rd (list (rd (list byte)));
  sp_requested_limits : rd resource_limits;
  sp_outputs : rd N;
  sp_cancellation_mode : rd CancellationMode;
  sp_has_compatibility_runtime : bool;
}.
Record run_grant := {
  gr_grant_id : rd (list byte);
  gr_issuer_evidence : rd evidence_ref;
  gr_expires_at_unix_ms : N;
  gr_replay_key : rd (list byte);
  gr_run_spec_digest : rd digest_ref;
  gr_workload_identity_evidence : rd evidence_ref;
  gr_actor_provenance_evidence : rd evidence_ref;
  gr_capabilities : rd (list capability_grant);
  gr_confinement_digest : rd digest_ref;
  gr_backend_class : rd wire_backend;
  gr_limits : rd resource_limits;
  gr_workspaces : rd (list workspace_grant);
  gr_allowed_egress : rd (list (rd (list byte)));
  gr_credential_broker_refs : rd N;
  gr_signature : option (rd grant_signature);
  gr_confinement_manifest : rd (list byte);
}.

(** Messages: framing, the two roots, copying a grant into a builder, clearing its
    signature there, and the canonical form. *)
Class Capnp := {
  message : Type;
  capnp_read : list byte → rd message;
  spec_root : message → rd run_spec;
  grant_root : message → rd run_grant;
  copy_grant : message → rd message;
  init_signature : message → rd message;
  canonicalize : message → rd (list byte);
}.
(** [ConfinementManifest::parse] and [confinement_digest]. *)
Class Confinement := {
  ConfinementManifest : Type;
  manifest_parse : string → result ExecutionError ConfinementManifest;
  manifest_digest : ConfinementManifest → result ExecutionError string;
}.

Definition got {A} (what : string) (r : rd A) : result ExecutionError A :=
  match r with Got a => Ok a | Bad e => Err (invalid (what +:+ ": " +:+ e)) end.
Definition field_of {A} (field : string) (r : rd A) : result ExecutionError A := got ("invalid " +:+ field) r.

(** ** Evidence *)

Inductive EvidenceField := Issuer | WorkloadIdentity | ActorProvenance.
#[global] Instance EvidenceField_eq_dec : EqDecision EvidenceField.
Proof. solve_decision. Defined.
Definition EvidenceField_as_str (f : EvidenceField) : string :=
  match f with
  | Issuer => "issuerEvidence"
  | WorkloadIdentity => "workloadIdentityEvidence"
  | ActorProvenance => "actorProvenanceEvidence"
  end.
Record EvidenceBinding := { eb_run_id : string; eb_spec_digest : string }.
Record EvidenceRef := { ev_media_type : string; ev_digest : string }.
Record GrantSignature := { sg_algorithm : string; sg_key_id : string; sg_value : list byte }.
Record SignedGrant := { sgn_signing_bytes : list byte; sgn_signature : option GrantSignature }.
(** [trait EvidenceVerifier] *)
Record EvidenceVerifier := {
  ev_verify : EvidenceField → EvidenceBinding → EvidenceRef → result ExecutionError unit;
  ev_verify_grant : SignedGrant → result ExecutionError unit;
}.

Inductive EvidenceRejection :=
| NoTrustKeys | GrantUnsigned | GrantSignatureMalformed | SignatureInvalid | UntrustedSigner | EvidenceMediaType
| EvidenceDigestMalformed | EvidenceMissing | EvidenceIntegrity | EnvelopeMalformed | PredicateMismatch
| RoleNotAsserted | RunIdentityMalformed | RunNotAuthorized.
Definition ALL : list EvidenceRejection :=
  [NoTrustKeys; GrantUnsigned; GrantSignatureMalformed; SignatureInvalid; UntrustedSigner; EvidenceMediaType;
   EvidenceDigestMalformed; EvidenceMissing; EvidenceIntegrity; EnvelopeMalformed; PredicateMismatch;
   RoleNotAsserted; RunIdentityMalformed; RunNotAuthorized].
Definition rejection_as_str (r : EvidenceRejection) : string :=
  match r with
  | NoTrustKeys => "no-trust-keys"
  | GrantUnsigned => "grant-unsigned"
  | GrantSignatureMalformed => "grant-signature-malformed"
  | SignatureInvalid => "signature-invalid"
  | UntrustedSigner => "untrusted-signer"
  | EvidenceMediaType => "evidence-media-type"
  | EvidenceDigestMalformed => "evidence-digest-malformed"
  | EvidenceMissing => "evidence-missing"
  | EvidenceIntegrity => "evidence-integrity"
  | EnvelopeMalformed => "envelope-malformed"
  | PredicateMismatch => "predicate-mismatch"
  | RoleNotAsserted => "role-not-asserted"
  | RunIdentityMalformed => "run-identity-malformed"
  | RunNotAuthorized => "run-not-authorized"
  end.
Definition rejection_error (r : EvidenceRejection) (context : string) : ExecutionError := {|
  code := match r with EvidenceMediaType => UnsupportedBackend | _ => Unauthenticated end;
  retryable := false;
  detail := rejection_as_str r +:+ ": " +:+ context |}.
(** [split_once(": ")]: the text before the first occurrence. *)
Fixpoint before_colon (s : string) : option string :=
  match s with
  | EmptyString => None
  | String c rest =>
      match c, rest with
      | ":"%char, String " "%char _ => Some EmptyString
      | _, _ => String c <$> before_colon rest
      end
  end.
Definition rejection_of (e : ExecutionError) : option EvidenceRejection :=
  token ← before_colon (detail e);
  List.find (λ r, bool_decide (rejection_as_str r = token) && bool_decide (code (rejection_error r "") = code e)) ALL.

Definition is_run_id (v : string) : bool :=
  match v with
  | String "r" (String "u" (String "n" (String "-" hex))) =>
      (String.length hex =? 64)%nat
      && string_all (λ c, let n := N_of_ascii c in ((48 <=? n) && (n <=? 57)) || ((97 <=? n) && (n <=? 102))) hex
  | _ => false
  end.

(** ** The verifier over a content-addressed store *)

Section dsse.
Context `{Blake3, Ed25519, Wire, Fmt}.
(** [EvidenceStore::load], and the trust set. *)
Context (load : string → result ExecutionError (list byte)) (trust_keys : list VerifyingKey).

Definition ParseError_display (e : ParseError) : string :=
  match e with
  | WrongPayloadType got => "payloadType must be " +:+ debug_str PAYLOAD_TYPE +:+ ", got " +:+ debug_str got
  | WrongStatementType got => "statement _type must be " +:+ debug_str STATEMENT_TYPE +:+ ", got " +:+ debug_str got
  | NoSignatures => "envelope has no signatures — an unsigned record is an UnsignedStatement, never an empty-signature envelope"
  | PayloadEncoding e => "payload is not canonical base64url (no pad): " +:+ e
  | SignatureEncoding => "signature must be base64url (no pad) of exactly 64 bytes"
  | Json e => "malformed JSON: " +:+ e
  end.

Definition trusted_kids : list (list byte) := canonical_kid <$> trust_keys.
Definition unverified (hints : list string) : EvidenceRejection :=
  if existsb (λ hint, is_canonical_kid_shape (bytes_of hint) && bool_decide (bytes_of hint ∈ trusted_kids)) hints
  then SignatureInvalid else UntrustedSigner.

(** The first trusted key that verifies the envelope. *)
Fixpoint first_verified (field : string) (envelope : Envelope) (keys : list VerifyingKey) : result ExecutionError (option Statement) :=
  match keys with
  | [] => Ok None
  | key :: keys =>
      match envelope_verify envelope key with
      | Ok verified => Ok (Some verified)
      | Err (VPayload e) =>
          Err (rejection_error EnvelopeMalformed (field +:+ " DSSE payload is not a statement: " +:+ ParseError_display e))
      | Err VSignatureInvalid => first_verified field envelope keys
      | Panic => Panic
      end
  end.
(** The subjects named for the role; [asserts] is whether one was seen. *)
Fixpoint find_subject (field : string) (run : string) (asserts : bool) (subjects : list Subject) : result ExecutionError unit :=
  match subjects with
  | [] =>
      Err (if asserts then rejection_error RunNotAuthorized (field +:+ " does not authorize this run")
           else rejection_error RoleNotAsserted (field +:+ " statement asserts no " +:+ field +:+ " subject"))
  | subject :: subjects =>
      if negb (bool_decide (sub_name subject = field)) then find_subject field run asserts subjects
      else match subject_digest subject RUN_BINDING_ALGORITHM with
           | None => find_subject field run true subjects
           | Some claimed =>
               if negb (is_run_id claimed)
               then Err (rejection_error RunIdentityMalformed (field +:+ " subject digest is not a run identity"))
               else if bool_decide (claimed = run) then Ok tt
               else find_subject field run true subjects
           end
  end.

Definition dsse_verify (f : EvidenceField) (binding : EvidenceBinding) (evidence : EvidenceRef) : result ExecutionError unit :=
  let field := EvidenceField_as_str f in
  match trust_keys with
  | [] => Err (rejection_error NoTrustKeys (field +:+ " DSSE signature is not trusted"))
  | _ =>
      if negb (bool_decide (ev_media_type evidence = "application/vnd.in-toto+json"%string))
      then Err (rejection_error EvidenceMediaType (field +:+ " is not an APAS in-toto evidence envelope"))
      else
        bytes ← load (ev_digest evidence);
        if negb (bool_decide (digest_name bytes = ev_digest evidence))
        then Err (rejection_error EvidenceIntegrity (field +:+ " CAS digest does not match evidence bytes"))
        else
          envelope ← map_err (λ e, rejection_error EnvelopeMalformed
                                    (field +:+ " DSSE envelope is invalid: " +:+ ParseError_display e))
                       (envelope_from_json_slice bytes);
          found ← first_verified field envelope trust_keys;
          statement ← ok_or found (rejection_error (unverified (keyids envelope)) (field +:+ " DSSE signature is not trusted"));
          if negb (bool_decide (st_predicate_type statement = APAS_PREDICATE_TYPE))
          then Err (rejection_error PredicateMismatch (field +:+ " DSSE predicate is not APAS Handoff/v1"))
          else find_subject field (eb_run_id binding) false (st_subject statement)
  end.
Definition dsse_verify_grant (grant : SignedGrant) : result ExecutionError unit :=
  match trust_keys with
  | [] => Err (rejection_error NoTrustKeys "RunGrant signature cannot be checked against an empty trust set")
  | _ =>
      signature ← ok_or (sgn_signature grant) (rejection_error GrantUnsigned "RunGrant carries no issuer signature");
      if negb (bool_decide (sg_algorithm signature = GRANT_SIGNATURE_ALGORITHM))
      then Err (rejection_error GrantSignatureMalformed
                  ("RunGrant signature algorithm " +:+ debug_str (sg_algorithm signature) +:+ " is not supported"))
      else if negb (len (sg_value signature) =? 64)
      then Err (rejection_error GrantSignatureMalformed
                  ("RunGrant ed25519 signature must be 64 bytes, got " +:+ pretty (len (sg_value signature))))
      else if existsb (verify_payload GRANT_SIGNATURE_PAYLOAD_TYPE (sgn_signing_bytes grant) (sg_value signature)) trust_keys
      then Ok tt
      else Err (rejection_error (unverified [sg_key_id signature]) "RunGrant signature is not by a trusted issuer")
  end.
Definition CasDsseEvidenceVerifier : EvidenceVerifier :=
  {| ev_verify := dsse_verify; ev_verify_grant := dsse_verify_grant |}.
End dsse.

Definition MetadataOnlyEvidenceVerifier : EvidenceVerifier :=
  {| ev_verify := λ _ _ _, Ok tt; ev_verify_grant := λ _, Ok tt |}.
Definition unauthenticated (d : string) : ExecutionError := {| code := Unauthenticated; retryable := false; detail := d |}.
Definition RejectUnverifiedEvidence : EvidenceVerifier := {|
  ev_verify := λ f _ _, Err (unauthenticated ("no trusted verifier configured for " +:+ EvidenceField_as_str f));
  ev_verify_grant := λ _, Err (unauthenticated "no trusted verifier configured for RunGrant.signature") |}.

(** ** Reading fields *)

Section reading.
Context `{Blake3, Capnp, Fmt}.

Definition read_message (bytes : list byte) (name : string) : result ExecutionError message :=
  got ("invalid " +:+ name +:+ " message") (capnp_read bytes).
Definition text (v : rd (list byte)) (field : string) : result ExecutionError string :=
  bytes ← field_of field v;
  if from_utf8_ok bytes then mret (string_of bytes)
  else Err (invalid (field +:+ " is not UTF-8: " +:+ utf8_error bytes)).
Definition nonempty (v : string) (field : string) : result ExecutionError string :=
  if bool_decide (v = EmptyString) then Err (invalid (field +:+ " must not be empty")) else mret v.
Definition grant_signing_bytes (grant_bytes : list byte) : result ExecutionError (list byte) :=
  m ← read_message grant_bytes "RunGrant";
  _ ← got "invalid RunGrant root" (grant_root m);
  b ← got "cannot copy RunGrant" (copy_grant m);
  b ← got "invalid RunGrant root" (init_signature b);
  got "cannot canonicalize RunGrant" (canonicalize b).
Definition read_grant_signature (grant : run_grant) : result ExecutionError (option GrantSignature) :=
  match gr_signature grant with
  | None => mret None
  | Some s =>
      signature ← field_of "RunGrant.signature" s;
      algorithm ← text (gs_algorithm signature) "RunGrant.signature.algorithm";
      key_id ← text (gs_key_id signature) "RunGrant.signature.keyId";
      value ← field_of "RunGrant.signature.value" (gs_value signature);
      mret (Some {| sg_algorithm := algorithm; sg_key_id := key_id; sg_value := value |})
  end.
Definition run_id_material (canonical_spec_digest grant_id replay_key : string) : list byte :=
  RUN_ID_DOMAIN ++ [x00]
  ++ (f ← [bytes_of canonical_spec_digest; bytes_of grant_id; bytes_of replay_key]; u64_le (len f) ++ f).
Definition derive_run_id (canonical_spec_digest grant_id replay_key : string) : string :=
  RUN_ID_PREFIX +:+ Hash_display (content_hash (run_id_material canonical_spec_digest grant_id replay_key)).
Definition canonical_digest (bytes : list byte) : result ExecutionError string :=
  m ← read_message bytes "RunSpec";
  canonical ← got "cannot canonicalize RunSpec" (canonicalize m);
  mret (digest_name canonical).
Definition read_digest (v : rd digest_ref) (field : string) : result ExecutionError string :=
  digest ← field_of field v;
  algorithm ← text (dr_algorithm digest) (field +:+ ".algorithm");
  value ← text (dr_value digest) (field +:+ ".value");
  if negb (bool_decide (algorithm = "blake3-256"%string)) || negb (String.length value =? 64)%nat || negb (string_all lower_hex value)
  then Err (invalid (field +:+ " must be a lowercase blake3-256 digest"))
  else mret (algorithm +:+ ":" +:+ value).
Definition validate_evidence (v : rd evidence_ref) (f : EvidenceField) (binding : EvidenceBinding) (verifier : EvidenceVerifier)
    : result ExecutionError unit :=
  let field := EvidenceField_as_str f in
  evidence ← field_of field v;
  media_type ← text (er_media_type evidence) (field +:+ ".mediaType");
  media_type ← nonempty media_type field;
  digest ← read_digest (er_digest evidence) (field +:+ ".digest");
  ev_verify verifier f binding {| ev_media_type := media_type; ev_digest := digest |}.

(** ** Ceilings *)

Definition RESOURCE_LIMITS_DATA_WORDS : N := 2.
Definition PRE_OCI_LIMIT_WORDS : list string := ["wallTimeMs"; "memoryBytes"; "cpuMillis"; "outputBytes"]%string.
(** [chunks_exact(8).enumerate()] *)
Fixpoint words_from (fuel : nat) (word : N) (data : list byte) : list (N * list byte) :=
  match fuel with
  | O => []
  | S fuel => if len data <? 8 then [] else (word, takeN 8 data) :: words_from fuel (word + 1) (dropN 8 data)
  end.
Definition data_words (data : list byte) : list (N * list byte) := words_from (length data) 0 data.
Definition refuse_unread_ceilings (raw : limit_struct) (known_words : N) (top_level : bool) (field : string)
    : result ExecutionError unit :=
  let data := ls_data raw in
  let pre_oci := top_level && (ls_pointers raw =? 0) && (RESOURCE_LIMITS_DATA_WORDS * 8 <? len data) in
  let first_word := if pre_oci then 1 else known_words in
  match List.find (λ x, negb (forallb (λ b, bool_decide (b = x00)) x.2)) (drop (N.to_nat first_word) (data_words data)) with
  | None => Ok tt
  | Some (word, _) =>
      Err (match (if pre_oci then PRE_OCI_LIMIT_WORDS !! N.to_nat word else None) with
           | Some name => invalid (field +:+ " uses the removed pre-OCI ResourceLimits layout and sets " +:+ name
                                   +:+ "; use memory.limit, cpu.quota/cpu.period and outputBytes")
           | None => invalid (field +:+ " carries a value in data word " +:+ pretty word
                              +:+ ", which this reader does not know; an unread ceiling would be unenforced, so it is refused")
           end)
  end.
(** A [UInt64] field of a data section that may be shorter than the schema. *)
Definition get_u64 (word : N) (s : limit_struct) : N :=
  if 8 * word + 8 <=? len (ls_data s) then le_value (slice (8 * word) (8 * word + 8) (ls_data s)) else 0.
Definition read_limits (v : rd resource_limits) (field : string) : result ExecutionError ResourceLimits :=
  limits ← field_of field v;
  _ ← refuse_unread_ceilings (rl_struct limits) RESOURCE_LIMITS_DATA_WORDS true field;
  memory ← field_of (field +:+ ".memory") (rl_memory limits);
  _ ← refuse_unread_ceilings memory 1 false (field +:+ ".memory");
  cpu ← field_of (field +:+ ".cpu") (rl_cpu limits);
  _ ← refuse_unread_ceilings cpu 2 false (field +:+ ".cpu");
  pids ← field_of (field +:+ ".pids") (rl_pids limits);
  _ ← refuse_unread_ceilings pids 1 false (field +:+ ".pids");
  let l := {| wall_time_ms := get_u64 0 (rl_struct limits); output_bytes := get_u64 1 (rl_struct limits);
              memory := {| memory_limit := get_u64 0 memory |};
              cpu := {| quota := get_u64 0 cpu; period := get_u64 1 cpu |};
              pids := {| pids_limit := get_u64 0 pids |} |} in
  _ ← map_err (λ e, invalid ("invalid " +:+ field +:+ ": " +:+ detail e)) (limits_validate l);
  mret l.
Definition validate_limits (requested resolved : rd resource_limits) : result ExecutionError ResourceLimits :=
  requested ← read_limits requested "requestedLimits";
  resolved ← read_limits resolved "grant limits";
  _ ← narrows resolved requested;
  mret resolved.

(** ** Workspaces *)

Definition workspace_operation (o : wire_operation) : WorkspaceOperation :=
  match o with WireRead => Read | WireList => List_ | WireQuery => Query | WireMutate => Mutate | WireCommit => Commit end.
Definition read_requested_workspace (w : workspace_intent) : result ExecutionError (string * string) :=
  name ← text (wsi_name w) "workspaceInputs.name";
  root ← read_digest (wsi_graph_root w) "workspaceInputs.graphRoot";
  mret (name, root).
Definition read_workspace_grant (w : workspace_grant) : result ExecutionError WorkspaceGrant :=
  name ← text (wsg_name w) "grant workspace name";
  graph_root ← read_digest (wsg_graph_root w) "grant workspace graphRoot";
  operations ← got ("invalid operations for " +:+ name) (wsg_operations w);
  match operations with
  | [] => Err (invalid ("grant workspace " +:+ name +:+ " has no authorized operations"))
  | _ =>
      operations ← collect_results (λ o, workspace_operation <$> got ("invalid operation for " +:+ name) o) operations;
      mret {| wg_name := name; wg_graph_root := graph_root; expected_generation := wsg_expected_generation w;
              operations := operations |}
  end.
Definition workspaces_match (requested resolved : list (string * string)) : bool :=
  (length requested =? length resolved)%nat
  && forallb (λ entry, bool_decide (entry ∈ resolved)) requested
  && forallb (λ entry, (length (filter (λ candidate, candidate.1 = entry.1) resolved) =? 1)%nat) resolved.
Definition validate_workspaces (requested : rd (list workspace_intent)) (resolved : rd (list workspace_grant))
    : result ExecutionError (list WorkspaceGrant) :=
  requested ← field_of "workspaceInputs" requested;
  resolved ← field_of "grant workspaces" resolved;
  requested ← collect_results read_requested_workspace requested;
  grants ← collect_results read_workspace_grant resolved;
  if workspaces_match requested ((λ g, (wg_name g, wg_graph_root g)) <$> grants) then mret grants
  else Err (invalid "grant workspaces must exactly match RunSpec.workspaceInputs").
End reading.

(** ** The intent of a spec *)

Section intent.
Context `{Fmt}.

Definition check_interface (interface : rd (list byte)) : result ExecutionError unit :=
  interface ← text interface "requestedInterfaces entry";
  if negb (bool_decide (interface = EXECUTION_SCHEMA_VERSION))
  then Err (unsupported ("requested interface is not supported by this LLO execution surface: " +:+ interface))
  else Ok tt.
Fixpoint read_environment (env : gmap string string) (entries : list key_value) : result ExecutionError (gmap string string) :=
  match entries with
  | [] => mret env
  | entry :: entries =>
      key ← text (kv_key entry) "environment key";
      key ← nonempty key "environment key";
      value ← text (kv_value entry) "environment value";
      match env !! key with
      | Some _ => Err (invalid ("duplicate public environment key: " +:+ key))
      | None => read_environment (<[key := value]> env) entries
      end
  end.
Definition read_workspace_input (w : workspace_intent) : result ExecutionError WorkspaceInput :=
  name ← text (wsi_name w) "workspaceInputs.name";
  name ← nonempty name "workspace name";
  root ← read_digest (wsi_graph_root w) "workspaceInputs.graphRoot";
  mret {| wi_name := name; wi_graph_root := root |}.
Definition read_intent (spec : run_spec) : result ExecutionError SchemaIntent :=
  interfaces ← field_of "requestedInterfaces" (sp_requested_interfaces spec);
  _ ← collect_results check_interface interfaces;
  handles ← field_of "secretHandles" (sp_secret_handles spec);
  _ ← ensure (handles =? 0) (unsupported "secret handles require a credential broker integration");
  outputs ← field_of "outputs" (sp_outputs spec);
  _ ← ensure (outputs =? 0) (unsupported "declared outputs require the collect/output backend");
  mode ← field_of "cancellationMode" (sp_cancellation_mode spec);
  _ ← ensure (match mode with ExplicitOnly => true | CancelOnDisconnect => false end)
        (unsupported "cancel-on-disconnect is not supported by this execution surface");
  _ ← ensure (negb (sp_has_compatibility_runtime spec))
        (unsupported "compatibility runtime selection is not supported by this execution surface");
  executable ← field_of "executable" (sp_executable spec);
  media_type ← text (ar_media_type executable) "executable.mediaType";
  media_type ← nonempty media_type "executable.mediaType";
  arguments ← field_of "arguments" (sp_arguments spec);
  arguments ← collect_results (λ v, text v "arguments entry") arguments;
  environment ← field_of "publicEnvironment" (sp_public_environment spec);
  environment ← read_environment ∅ environment;
  inputs ← field_of "workspaceInputs" (sp_workspace_inputs spec);
  inputs ← collect_results read_workspace_input inputs;
  requested ← read_limits (sp_requested_limits spec) "requestedLimits";
  digest ← read_digest (ar_digest executable) "executable.digest";
  mret {| in_executable := {| art_digest := digest; art_media_type := media_type |};
          in_arguments := arguments; in_public_environment := environment;
          in_workspace_inputs := inputs; in_requested_limits := requested |}.
End intent.

(** ** Authorization *)

Record AuthorizationPolicy := {
  now_unix_ms : option N;
  required_backend : BackendClass;
  required_confinement_digest : option string;
}.
Definition AuthorizationPolicy_default : AuthorizationPolicy :=
  {| now_unix_ms := None; required_backend := MicroVm; required_confinement_digest := None |}.
Definition BackendClass_debug (b : BackendClass) : string := match b with Native => "Native" | MicroVm => "MicroVm" end.
Definition backend_of (b : wire_backend) : BackendClass := match b with WireNative => Native | WireMicroVm => MicroVm end.

Section authorize.
Context `{Blake3, Capnp, Fmt, Confinement}.
(** [current_unix_ms()] at the call. *)
Context (clock : N).

Definition read_confinement_manifest (grant : run_grant) (confinement_digest : string) : result ExecutionError (option string) :=
  carried ← text (gr_confinement_manifest grant) "RunGrant.confinementManifest";
  if bool_decide (carried = EmptyString) then mret None
  else
    parsed ← map_err (λ e, invalid ("RunGrant.confinementManifest is not a valid confinement/v1 document: " +:+ detail e))
               (manifest_parse carried);
    carried_digest ← manifest_digest parsed;
    if negb (bool_decide (carried_digest = confinement_digest))
    then Err (identity_mismatch ("RunGrant carries a confinement manifest digesting to                      "
                                 +:+ carried_digest +:+ ", but confinementDigest names                      " +:+ confinement_digest))
    else mret (Some carried).
Definition read_capability (c : capability_grant) : result ExecutionError bool :=
  name ← text (cap_grant c) "capability.grant";
  interface ← text (cap_interface c) "capability.interface";
  mret (bool_decide (name = EXECUTION_CAPABILITY) && bool_decide (interface = EXECUTION_SCHEMA_VERSION)).

Definition authorize_with_verifier (spec_bytes grant_bytes : list byte) (policy : AuthorizationPolicy) (verifier : EvidenceVerifier)
    : result ExecutionError AuthorizedExecution :=
  spec_message ← read_message spec_bytes "RunSpec";
  grant_message ← read_message grant_bytes "RunGrant";
  spec ← got "invalid RunSpec root" (spec_root spec_message);
  grant ← got "invalid RunGrant root" (grant_root grant_message);
  schema_version ← text (sp_schema_version spec) "RunSpec.schemaVersion";
  _ ← ensure (bool_decide (schema_version = EXECUTION_SCHEMA_VERSION))
        (invalid ("unsupported execution schema version: " +:+ schema_version));
  signing_bytes ← grant_signing_bytes grant_bytes;
  signature ← read_grant_signature grant;
  _ ← ev_verify_grant verifier {| sgn_signing_bytes := signing_bytes; sgn_signature := signature |};
  grant_id ← text (gr_grant_id grant) "RunGrant.grantId";
  grant_id ← nonempty grant_id "grantId";
  replay_key ← text (gr_replay_key grant) "RunGrant.replayKey";
  replay_key ← nonempty replay_key "replayKey";
  let now := default clock (now_unix_ms policy) in
  _ ← ensure (now <? gr_expires_at_unix_ms grant) (invalid "RunGrant has expired");
  spec_digest ← canonical_digest spec_bytes;
  grant_digest ← canonical_digest grant_bytes;
  bound_digest ← read_digest (gr_run_spec_digest grant) "RunGrant.runSpecDigest";
  _ ← ensure (bool_decide (bound_digest = spec_digest)) (invalid "RunGrant.runSpecDigest does not bind the supplied RunSpec");
  let run_id := derive_run_id spec_digest grant_id replay_key in
  let binding := {| eb_run_id := run_id; eb_spec_digest := spec_digest |} in
  _ ← validate_evidence (gr_issuer_evidence grant) Issuer binding verifier;
  _ ← validate_evidence (gr_workload_identity_evidence grant) WorkloadIdentity binding verifier;
  _ ← validate_evidence (gr_actor_provenance_evidence grant) ActorProvenance binding verifier;
  confinement_digest ← read_digest (gr_confinement_digest grant) "RunGrant.confinementDigest";
  confinement_manifest ← read_confinement_manifest grant confinement_digest;
  _ ← ensure (match required_confinement_digest policy with
              | Some required => bool_decide (required = confinement_digest)
              | None => true
              end) (identity_mismatch "RunGrant confinement digest does not match the enforcement policy");
  limits ← validate_limits (sp_requested_limits spec) (gr_limits grant);
  workspaces ← validate_workspaces (sp_workspace_inputs spec) (gr_workspaces grant);
  intent ← read_intent spec;
  capabilities ← field_of "capabilities" (gr_capabilities grant);
  capabilities ← collect_results read_capability capabilities;
  _ ← ensure (existsb id capabilities) (invalid "RunGrant lacks the execution/v1 run capability");
  class ← field_of "backend class" (gr_backend_class grant);
  let backend := backend_of class in
  _ ← ensure (bool_decide (backend = required_backend policy))
        (unsupported ("grant requires " +:+ BackendClass_debug backend +:+ ", policy requires "
                      +:+ BackendClass_debug (required_backend policy)));
  egress ← field_of "allowedEgress" (gr_allowed_egress grant);
  allowed_egress ← collect_results (λ v, text v "allowedEgress entry") egress;
  brokers ← field_of "credentialBrokerRefs" (gr_credential_broker_refs grant);
  _ ← ensure (brokers =? 0) (unsupported "credential broker authority requires a broker integration");
  mret {| au_run_id := run_id; au_grant_id := grant_id; au_replay_key := replay_key; au_spec_digest := spec_digest;
          au_grant_digest := grant_digest; au_confinement_digest := confinement_digest;
          au_confinement_manifest := confinement_manifest; au_backend := backend; au_allowed_egress := allowed_egress;
          au_intent := intent; au_limits := limits; au_workspaces := workspaces |}.
Definition authorize (spec_bytes grant_bytes : list byte) (policy : AuthorizationPolicy) : result ExecutionError AuthorizedExecution :=
  authorize_with_verifier spec_bytes grant_bytes policy RejectUnverifiedEvidence.
End authorize.

(** ** Ceilings: what is not read is refused *)

Lemma words_from_lookup fuel word (data : list byte) (i : nat) :
  (length data ≤ fuel)%nat → 8 * N.of_nat i + 8 ≤ len data →
  words_from fuel word data !! i = Some (word + N.of_nat i, slice (8 * N.of_nat i) (8 * N.of_nat i + 8) data).
Proof.
  revert word data i. induction fuel as [| fuel IH]; intros word data i Hf Hi.
  { unfold len in Hi. lia. }
  cbn [words_from]. destruct (N.ltb_spec (len data) 8) as [Hl | Hl]; [lia |]. destruct i as [| i].
  - cbn [lookup list_lookup]. rewrite N.add_0_r. do 2 f_equal.
  - cbn [lookup list_lookup]. rewrite IH.
    + do 2 f_equal; [lia |]. unfold slice. rewrite dropN_dropN. f_equal; [lia |]. f_equal. lia.
    + unfold dropN. rewrite length_drop. unfold len in Hl. lia.
    + rewrite len_dropN. lia.
Qed.
Lemma le_value_zeros (l : list byte) : forallb (λ b, bool_decide (b = x00)) l = true → le_value l = 0.
Proof.
  induction l as [| b l IH]; [done |]. cbn [forallb le_value]. intros [Hb%bool_decide_eq_true Hl]%andb_true_iff.
  by rewrite Hb, (IH Hl).
Qed.
(** Whatever words a struct has beyond those the reader decodes, they are zero. *)
Lemma refuse_unread_words raw known top field w :
  let pre := top && (ls_pointers raw =? 0) && (RESOURCE_LIMITS_DATA_WORDS * 8 <? len (ls_data raw)) in
  refuse_unread_ceilings raw known top field = Ok tt → (if pre then 1 else known) ≤ w → get_u64 w raw = 0.
Proof.
  unfold refuse_unread_ceilings. set (pre := top && _ && _). set (first := if pre then 1 else known). cbv zeta.
  intros Hr Hw. unfold get_u64. destruct (N.leb_spec (8 * w + 8) (len (ls_data raw))) as [Hlen | Hlen]; [| done].
  destruct (List.find _ _) as [[word x] |] eqn:Hf; [done |].
  pose proof (words_from_lookup (length (ls_data raw)) 0 (ls_data raw) (N.to_nat w) ltac:(lia)) as Hl.
  rewrite N2Nat.id in Hl. specialize (Hl Hlen). apply le_value_zeros, negb_false_iff.
  apply (List.find_none _ _ Hf (w, slice (8 * w) (8 * w + 8) (ls_data raw))), list_elem_of_In.
  apply (list_elem_of_lookup_2 _ (N.to_nat w - N.to_nat first)%nat).
  rewrite lookup_drop. replace (N.to_nat first + _)%nat with (N.to_nat w) by lia. exact Hl.
Qed.
Lemma refuse_unread_spec raw known top field w :
  refuse_unread_ceilings raw known top field = Ok tt → known ≠ 0 → known ≤ w → get_u64 w raw = 0.
Proof. intros Hr Hk Hw. eapply refuse_unread_words; [exact Hr |]. destruct (_ && _); lia. Qed.
(** The layout without a pointer section has no ceiling but the first. *)
Lemma refuse_pre_oci raw field :
  refuse_unread_ceilings raw RESOURCE_LIMITS_DATA_WORDS true field = Ok tt → ls_pointers raw = 0 → 16 < len (ls_data raw) →
  get_u64 1 raw = 0.
Proof.
  intros Hr Hp Hl. eapply refuse_unread_words; [exact Hr |]. rewrite Hp. cbn [andb N.eqb].
  destruct (N.ltb_spec (RESOURCE_LIMITS_DATA_WORDS * 8) (len (ls_data raw))) as [_ | Hn]; [simpl; lia |].
  unfold RESOURCE_LIMITS_DATA_WORDS in Hn. lia.
Qed.
(** [l] is every word of the message: what it does not show is zero, and the layout
    without a pointer section shows nothing but the first word. *)
Definition fully_read (v : rd resource_limits) (l : ResourceLimits) : Prop :=
  ∃ top mem cpu_ pids_, v = Got {| rl_struct := top; rl_memory := Got mem; rl_cpu := Got cpu_; rl_pids := Got pids_ |}
    ∧ l = {| wall_time_ms := get_u64 0 top; output_bytes := get_u64 1 top; memory := {| memory_limit := get_u64 0 mem |};
             cpu := {| quota := get_u64 0 cpu_; period := get_u64 1 cpu_ |}; pids := {| pids_limit := get_u64 0 pids_ |} |}
    ∧ (∀ w, 2 ≤ w → get_u64 w top = 0 ∧ get_u64 w cpu_ = 0) ∧ (∀ w, 1 ≤ w → get_u64 w mem = 0 ∧ get_u64 w pids_ = 0)
    ∧ (ls_pointers top = 0 → 16 < len (ls_data top) → get_u64 1 top = 0)
    ∧ limits_validate l = Ok tt.
Lemma read_limits_spec `{Fmt} v field l : read_limits v field = Ok l → fully_read v l.
Proof.
  intros Hr. unfold read_limits in Hr. result_inv.
  assert (∀ A (x : rd A) f a, field_of f x = Ok a → x = Got a) as Hgot.
  { intros A [x | e] f y; unfold field_of; cbn; [by intros [= ->] | done]. }
  repeat match goal with Hx : field_of _ _ = Ok _ |- _ => apply Hgot in Hx end.
  match goal with Hm : map_err _ (limits_validate ?x) = Ok _ |- _ => assert (limits_validate x = Ok tt) as Hv by
    (destruct (limits_validate x) as [[] | |]; [done | discriminate Hm | discriminate Hm]) end.
  destruct a as [top mem cp pd]. simpl in *. subst. do 4 eexists. split_and!; try done.
  - intros w Hw. split; (eapply refuse_unread_spec; [done | done | exact Hw]).
  - intros w Hw. split; (eapply refuse_unread_spec; [done | done | exact Hw]).
  - intros Hp Hl. by eapply refuse_pre_oci.
Qed.
Lemma get_u64_bound w s : get_u64 w s ≤ u64_max.
Proof.
  unfold get_u64. destruct (N.leb_spec (8 * w + 8) (len (ls_data s))) as [Hl | Hl]; [| unfold u64_max; lia].
  pose proof (le_value_bound (slice (8 * w) (8 * w + 8) (ls_data s))) as Hb. rewrite len_slice in Hb by lia.
  replace (8 * w + 8 - 8 * w) with 8 in Hb by lia. unfold u64_max. change (2 ^ (8 * 8)) with 18446744073709551616 in Hb. lia.
Qed.

(** ** Workspaces: exactly the requested ones *)

Lemma filter_one_NoDup (l : list (string * string)) :
  Forall (λ e, length (filter (λ c : string * string, c.1 = e.1) l) = 1%nat) l → NoDup l.*1.
Proof.
  intros Hall. rewrite Forall_forall in Hall. induction l as [| x l IH]; [constructor |]. csimpl. apply NoDup_cons. split.
  - intros (y & Hxy & Hy)%list_elem_of_fmap. specialize (Hall x (list_elem_of_here _ _)).
    rewrite filter_cons, decide_True in Hall by done. simpl in Hall. injection Hall as Hnil.
    apply nil_length_inv in Hnil. apply (not_elem_of_nil y). rewrite <- Hnil. by apply list_elem_of_filter.
  - apply IH. intros e He. specialize (Hall e (list_elem_of_further _ _ _ He)).
    rewrite filter_cons in Hall. case_decide as Hx; [| done]. simpl in Hall. injection Hall as Hnil. apply nil_length_inv in Hnil.
    exfalso. apply (not_elem_of_nil e). rewrite <- Hnil. by apply list_elem_of_filter.
Qed.
Lemma workspaces_match_spec requested resolved :
  workspaces_match requested resolved = true →
  length requested = length resolved ∧ requested ⊆ resolved ∧ NoDup resolved.*1 ∧ (NoDup requested → requested ≡ₚ resolved).
Proof.
  unfold workspaces_match. intros [[Hlen%Nat.eqb_eq Hin]%andb_true_iff Hone]%andb_true_iff.
  assert (requested ⊆ resolved) as Hsub.
  { intros e He. rewrite List.forallb_forall in Hin. by apply list_elem_of_In, Hin, bool_decide_eq_true in He. }
  assert (NoDup resolved.*1) as Hnd.
  { apply filter_one_NoDup, Forall_forall. intros e He. rewrite List.forallb_forall in Hone.
    by apply list_elem_of_In, Hone, Nat.eqb_eq in He. }
  split_and!; [done.. |]. intros Hndr. apply submseteq_length_Permutation; [by apply NoDup_submseteq | lia].
Qed.

(** A request that names a workspace twice is matched by a grant that holds it once
    and another one that was not requested. *)
Lemma duplicate_request_admits_another (a b : string * string) :
  a.1 ≠ b.1 → workspaces_match [a; a] [a; b] = true.
Proof.
  intros Hne. unfold workspaces_match. cbn [length Nat.eqb forallb andb].
  rewrite !(bool_decide_true (a ∈ [a; b])) by left. cbn [andb].
  rewrite !filter_cons, !filter_nil. repeat case_decide; try done; congruence.
Qed.

(** ** What the verifier ensures *)

Section attested.
Context `{Blake3, Ed25519, Wire, Fmt} (load : string → result ExecutionError (list byte)) (trust_keys : list VerifyingKey).

(** A stored envelope, signed by a trusted key, whose statement asserts the role
    [f] for the run. *)
Definition attested (f : EvidenceField) (run : string) (digest : string) : Prop :=
  ∃ bytes envelope key st sub, load digest = Ok bytes ∧ digest_name bytes = digest
    ∧ envelope_from_json_slice bytes = Ok envelope ∧ env_signatures envelope ≠ []
    ∧ key ∈ trust_keys
    ∧ Forall (λ s, ed_verify (pae PAYLOAD_TYPE (env_payload envelope)) (se_sig s) key = true) (env_signatures envelope)
    ∧ statement_from_json_slice (env_payload envelope) = Ok st ∧ st_predicate_type st = APAS_PREDICATE_TYPE
    ∧ sub ∈ st_subject st ∧ sub_name sub = EvidenceField_as_str f ∧ subject_digest sub RUN_BINDING_ALGORITHM = Some run.

Lemma first_verified_ok field envelope keys st :
  first_verified field envelope keys = Ok (Some st) → ∃ key, key ∈ keys ∧ envelope_verify envelope key = Ok st.
Proof.
  induction keys as [| key keys IH]; [done |]. cbn [first_verified].
  destruct (envelope_verify envelope key) as [st' | [| e] |] eqn:E; [| | done..].
  - intros [= ->]. exists key. split; [left | done].
  - intros Hf. destruct (IH Hf) as (k & ? & ?). exists k. split; [by right | done].
Qed.
Lemma find_subject_ok field run asserts subjects :
  find_subject field run asserts subjects = Ok tt →
  ∃ sub, sub ∈ subjects ∧ sub_name sub = field ∧ subject_digest sub RUN_BINDING_ALGORITHM = Some run.
Proof.
  revert asserts. induction subjects as [| sub subjects IH]; intros asserts; cbn [find_subject]; [by destruct asserts |].
  assert (∀ a, find_subject field run a subjects = Ok tt →
    ∃ s, s ∈ sub :: subjects ∧ sub_name s = field ∧ subject_digest s RUN_BINDING_ALGORITHM = Some run) as Hrest.
  { intros a Ha. destruct (IH a Ha) as (s & ? & ? & ?). exists s. split_and!; [by right | done..]. }
  case_bool_decide as Hn; simpl; [| apply Hrest]. destruct (subject_digest sub _) as [claimed |] eqn:Ed; [| apply Hrest].
  destruct (is_run_id claimed); simpl; [| done]. case_bool_decide as Hc; [| apply Hrest]. intros _. subst.
  exists sub. split_and!; [left | done..].
Qed.
Lemma dsse_verify_ok f binding ev : dsse_verify load trust_keys f binding ev = Ok tt → attested f (eb_run_id binding) (ev_digest ev).
Proof.
  unfold dsse_verify. destruct trust_keys as [| k0 ks] eqn:Ek; [done |]. rewrite <- Ek. case_match; [done |]. intros Hv.
  apply bind_ok in Hv as (bytes & Hload & Hv). case_bool_decide as Hdig; simpl in Hv; [| done].
  apply bind_ok in Hv as (envelope & Henv & Hv). apply bind_ok in Hv as (found & Hfound & Hv).
  apply bind_ok in Hv as (st & Hst & Hv). destruct found as [st' |]; [| done]. injection Hst as ->.
  case_bool_decide as Hpred; simpl in Hv; [| done]. apply find_subject_ok in Hv as (sub & Hin & Hname & Hrun).
  assert (envelope_from_json_slice bytes = Ok envelope) as Hparse by (destruct (envelope_from_json_slice bytes); by simplify_eq/=).
  apply first_verified_ok in Hfound as (key & Hkey & Hver). apply envelope_verify_ok in Hver as [Hsigs Hstm].
  exists bytes, envelope, key, st, sub. split_and!; try done. by eapply envelope_parsed_signed.
Qed.
(** The grant's signature is by a trusted key, over the grant without it. *)
Lemma dsse_verify_grant_ok g :
  dsse_verify_grant trust_keys g = Ok tt →
  ∃ sig key, sgn_signature g = Some sig ∧ sg_algorithm sig = GRANT_SIGNATURE_ALGORITHM ∧ key ∈ trust_keys
    ∧ ed_verify (pae GRANT_SIGNATURE_PAYLOAD_TYPE (sgn_signing_bytes g)) (sg_value sig) key = true.
Proof.
  unfold dsse_verify_grant. destruct trust_keys as [| k0 ks] eqn:Ek; [done |]. rewrite <- Ek. intros Hv.
  apply bind_ok in Hv as (sig & Hsig & Hv). case_bool_decide as Halg; simpl in Hv; [| done].
  case_match; [done |]. case_match eqn:Hex; [| done]. apply List.existsb_exists in Hex as (key & Hin & Hver).
  exists sig, key. split_and!; [| done | by apply list_elem_of_In | done].
  by destruct (sgn_signature g); simplify_eq/=.
Qed.
End attested.

(** ** What an authorization ensures *)

Section authorized.
Context `{Blake3, Capnp, Fmt, Confinement}.

Definition evidence_of (grant : run_grant) (f : EvidenceField) : rd evidence_ref :=
  match f with
  | Issuer => gr_issuer_evidence grant
  | WorkloadIdentity => gr_workload_identity_evidence grant
  | ActorProvenance => gr_actor_provenance_evidence grant
  end.
Lemma validate_evidence_ok v f binding verifier :
  validate_evidence v f binding verifier = Ok tt →
  ∃ ev, ev_verify verifier f binding ev = Ok tt
    ∧ ∃ r, v = Got r ∧ read_digest (er_digest r) (EvidenceField_as_str f +:+ ".digest") = Ok (ev_digest ev).
Proof.
  unfold validate_evidence. intros Hv. result_inv. eexists. split; [done |]. destruct v as [r |]; [| done].
  exists r. split; [done |]. match goal with Hg : field_of _ _ = Ok _ |- _ => by injection Hg as -> end.
Qed.
Lemma nonempty_ok v field w : nonempty v field = Ok w → w = v ∧ v ≠ EmptyString.
Proof. unfold nonempty. case_bool_decide; [done |]. by intros [= ->]. Qed.

(** The workspaces granted are those of the intent. *)
Lemma workspaces_of_intent l inputs reqs :
  collect_results read_workspace_input l = Ok inputs → collect_results read_requested_workspace l = Ok reqs →
  reqs = (λ i, (wi_name i, wi_graph_root i)) <$> inputs.
Proof.
  revert inputs reqs. induction l as [| w l IH]; intros inputs reqs; cbn [collect_results]; intros Hi Hr; result_inv; subst; [done |].
  csimpl. f_equal; [| by apply IH].
  match goal with Hx : read_workspace_input w = Ok _, Hy : read_requested_workspace w = Ok _ |- _ =>
    unfold read_workspace_input in Hx; unfold read_requested_workspace in Hy end.
  result_inv. subst. simpl. match goal with Hn : nonempty _ _ = Ok _ |- _ => apply nonempty_ok in Hn as [-> _] end. congruence.
Qed.
Lemma validate_workspaces_ok l rl ws inputs :
  validate_workspaces (Got l) rl = Ok ws → collect_results read_workspace_input l = Ok inputs →
  NoDup (wg_name <$> ws)
  ∧ ((λ i, (wi_name i, wi_graph_root i)) <$> inputs) ⊆ ((λ g, (wg_name g, wg_graph_root g)) <$> ws)
  ∧ (NoDup inputs → ((λ i, (wi_name i, wi_graph_root i)) <$> inputs) ≡ₚ ((λ g, (wg_name g, wg_graph_root g)) <$> ws)).
Proof.
  intros Hv Hi. unfold validate_workspaces in Hv. cbn in Hv.
  apply bind_ok in Hv as (gl & _ & Hv). apply bind_ok in Hv as (reqs & Hreqs & Hv). apply bind_ok in Hv as (gs & Hgs & Hv).
  rewrite (workspaces_of_intent l inputs reqs Hi Hreqs) in Hv. case_match eqn:Hm; [| done]. injection Hv as ->.
  apply workspaces_match_spec in Hm as (_ & Hsub & Hnd & Hperm). rewrite <- list_fmap_compose in Hnd.
  split_and!; [exact Hnd | exact Hsub |]. intros Hndi. apply Hperm. apply NoDup_fmap; [| done].
  by intros [] [] [= -> ->].
Qed.

Lemma read_intent_inputs spec intent :
  read_intent spec = Ok intent →
  ∃ l, sp_workspace_inputs spec = Got l ∧ collect_results read_workspace_input l = Ok (in_workspace_inputs intent)
    ∧ read_limits (sp_requested_limits spec) "requestedLimits" = Ok (in_requested_limits intent).
Proof.
  intros Hr. unfold read_intent in Hr. result_inv. subst. cbn [in_workspace_inputs in_requested_limits].
  destruct (sp_workspace_inputs spec) as [l |]; [| done]. exists l. split; [done |].
  match goal with Hg : field_of "workspaceInputs" _ = Ok _ |- _ => injection Hg as -> end. done.
Qed.
Lemma validate_limits_ok req res requested l :
  validate_limits req res = Ok l → read_limits req "requestedLimits" = Ok requested →
  limits_within requested l ∧ fully_read req requested ∧ fully_read res l.
Proof.
  unfold validate_limits. intros Hv Hr. rewrite Hr, bind_Ok in Hv. result_inv. subst.
  apply read_limits_spec in Hr. match goal with Hx : read_limits res _ = Ok _ |- _ => apply read_limits_spec in Hx as Hres end.
  split_and!; [| done..]. destruct Hr as (? & ? & ? & ? & _ & -> & _), Hres as (? & ? & ? & ? & _ & -> & _).
  by apply narrows_iff; [split; apply get_u64_bound.. |].
Qed.

Lemma read_confinement_manifest_ok grant digest doc :
  read_confinement_manifest grant digest = Ok (Some doc) →
  ∃ m, manifest_parse doc = Ok m ∧ manifest_digest m = Ok digest.
Proof.
  unfold read_confinement_manifest. intros Hr. apply bind_ok in Hr as (carried & _ & Hr). case_match; [done |].
  apply bind_ok in Hr as (m & Hm & Hr). apply bind_ok in Hr as (d & Hdig & Hr). case_bool_decide as Hd; simpl in Hr; [| done].
  injection Hr as <-. exists m. subst. split; [| done]. by destruct (manifest_parse carried); simplify_eq/=.
Qed.

(** The facts an authorization rests on, for any verifier. *)
Record granted (clock : N) (spec : run_spec) (grant : run_grant) (policy : AuthorizationPolicy) (verifier : EvidenceVerifier)
    (spec_bytes grant_bytes : list byte) (a : AuthorizedExecution) : Prop := {
  gd_issuer : ∃ signing signature, grant_signing_bytes grant_bytes = Ok signing ∧ read_grant_signature grant = Ok signature
    ∧ ev_verify_grant verifier {| sgn_signing_bytes := signing; sgn_signature := signature |} = Ok tt;
  gd_fresh : default clock (now_unix_ms policy) < gr_expires_at_unix_ms grant;
  gd_bound : canonical_digest spec_bytes = Ok (au_spec_digest a)
    ∧ read_digest (gr_run_spec_digest grant) "RunGrant.runSpecDigest" = Ok (au_spec_digest a);
  gd_grant : canonical_digest grant_bytes = Ok (au_grant_digest a);
  gd_run : au_run_id a = derive_run_id (au_spec_digest a) (au_grant_id a) (au_replay_key a);
  gd_evidence : ∀ f, ∃ ev, ev_verify verifier f {| eb_run_id := au_run_id a; eb_spec_digest := au_spec_digest a |} ev = Ok tt
    ∧ ∃ r, evidence_of grant f = Got r ∧ read_digest (er_digest r) (EvidenceField_as_str f +:+ ".digest") = Ok (ev_digest ev);
  gd_limits : limits_within (in_requested_limits (au_intent a)) (au_limits a)
    ∧ fully_read (sp_requested_limits spec) (in_requested_limits (au_intent a)) ∧ fully_read (gr_limits grant) (au_limits a);
  gd_workspaces : NoDup (wg_name <$> au_workspaces a)
    ∧ ((λ i, (wi_name i, wi_graph_root i)) <$> in_workspace_inputs (au_intent a))
        ⊆ ((λ g, (wg_name g, wg_graph_root g)) <$> au_workspaces a)
    ∧ (NoDup (in_workspace_inputs (au_intent a)) →
       ((λ i, (wi_name i, wi_graph_root i)) <$> in_workspace_inputs (au_intent a))
         ≡ₚ ((λ g, (wg_name g, wg_graph_root g)) <$> au_workspaces a));
  gd_backend : au_backend a = required_backend policy;
  gd_confined : (∀ d, required_confinement_digest policy = Some d → au_confinement_digest a = d)
    ∧ ∀ doc, au_confinement_manifest a = Some doc →
        ∃ m, manifest_parse doc = Ok m ∧ manifest_digest m = Ok (au_confinement_digest a);
}.

Lemma authorize_granted clock spec_bytes grant_bytes policy verifier a :
  authorize_with_verifier clock spec_bytes grant_bytes policy verifier = Ok a →
  ∃ sm gm spec grant, capnp_read spec_bytes = Got sm ∧ spec_root sm = Got spec
    ∧ capnp_read grant_bytes = Got gm ∧ grant_root gm = Got grant
    ∧ granted clock spec grant policy verifier spec_bytes grant_bytes a.
Proof.
  intros Ha. unfold authorize_with_verifier in Ha.
  apply bind_ok in Ha as (sm & Hsm & Ha). apply bind_ok in Ha as (gm & Hgm & Ha).
  apply bind_ok in Ha as (spec & Hspec & Ha). apply bind_ok in Ha as (grant & Hgrant & Ha).
  assert (∀ A (x : rd A) w y, got w x = Ok y → x = Got y) as Hgot by (intros A [x | e] w y; [by intros [= ->] | done]).
  apply Hgot in Hsm, Hgm, Hspec, Hgrant. exists sm, gm, spec, grant. split_and!; [done.. |]. clear Hsm Hgm Hspec Hgrant.
  result_inv. subst.
  repeat match goal with Hb : bool_decide _ = true |- _ => apply bool_decide_eq_true in Hb end.
  repeat match goal with Hn : nonempty _ _ = Ok _ |- _ => apply nonempty_ok in Hn as [-> _] end.
  match goal with Hi : read_intent _ = Ok _ |- _ => destruct (read_intent_inputs _ _ Hi) as (l & Hl & Hinputs & Hreq) end.
  split; cbn [au_spec_digest au_grant_digest au_run_id au_grant_id au_replay_key au_intent au_limits au_workspaces au_backend
    au_confinement_digest au_confinement_manifest].
  - eauto.
  - by apply N.ltb_lt.
  - subst. done.
  - done.
  - done.
  - intros []; by eapply validate_evidence_ok.
  - by eapply validate_limits_ok.
  - rewrite Hl in *. by eapply validate_workspaces_ok.
  - done.
  - split; [| intros doc ->; by eapply read_confinement_manifest_ok].
    intros d Hd. rewrite Hd in *.
    repeat match goal with Hb : bool_decide _ = true |- _ => apply bool_decide_eq_true in Hb end. done.
Qed.

(** ** Run identities *)

Lemma u64_field_inj (f f' r r' : list byte) :
  len f ≤ u64_max → len f' ≤ u64_max → u64_le (len f) ++ f ++ r = u64_le (len f') ++ f' ++ r' → f = f' ∧ r = r'.
Proof.
  intros Hf Hf' Heq. apply app_inj_1 in Heq as [Hl Heq]; [| unfold u64_le; by rewrite !length_le_bytes].
  apply u64_le_inj in Hl; [| done..]. apply app_inj_1 in Heq; [done |]. unfold len in Hl. lia.
Qed.
Lemma run_id_material_inj d g k d' g' k' :
  Forall (λ s, len (bytes_of s) ≤ u64_max) [d; g; k; d'; g'; k'] →
  run_id_material d g k = run_id_material d' g' k' → d = d' ∧ g = g' ∧ k = k'.
Proof.
  rewrite !Forall_cons. intros (? & ? & ? & ? & ? & ? & _) Heq. unfold run_id_material in Heq.
  apply app_inv_head in Heq. apply app_inv_head in Heq. cbn [mbind list_bind] in Heq. rewrite <- !app_assoc in Heq.
  apply u64_field_inj in Heq as [Hd Heq]; [| done..]. apply u64_field_inj in Heq as [Hg Heq]; [| done..].
  apply u64_field_inj in Heq as [Hk _]; [| done..]. split_and!; by apply bytes_of_inj.
Qed.
Lemma derive_run_id_inj d g k d' g' k' :
  derive_run_id d g k = derive_run_id d' g' k' → blake3 (run_id_material d g k) = blake3 (run_id_material d' g' k').
Proof.
  unfold derive_run_id, RUN_ID_PREFIX. intros Heq. injection Heq as Heq. unfold Hash_display, content_hash in Heq.
  by apply as_bytes_inj, hex_bytes_inj.
Qed.

(** A run identity names its authority.  Two authorizations that yield one run
    identity bind one spec digest, one grant id and one replay key, and their specs
    have one canonical form, unless two explicit inputs of the hash collide. *)
Theorem run_identity_names_authority clock clock' sb gb sb' gb' policy policy' v v' a a' :
  authorize_with_verifier clock sb gb policy v = Ok a → authorize_with_verifier clock' sb' gb' policy' v' = Ok a' →
  Forall (λ s, len (bytes_of s) ≤ u64_max)
    [au_spec_digest a; au_grant_id a; au_replay_key a; au_spec_digest a'; au_grant_id a'; au_replay_key a'] →
  au_run_id a = au_run_id a' →
  collision blake3 (run_id_material (au_spec_digest a) (au_grant_id a) (au_replay_key a))
    (run_id_material (au_spec_digest a') (au_grant_id a') (au_replay_key a'))
  ∨ (au_spec_digest a = au_spec_digest a' ∧ au_grant_id a = au_grant_id a' ∧ au_replay_key a = au_replay_key a'
     ∧ ∃ m m' c c', capnp_read sb = Got m ∧ capnp_read sb' = Got m' ∧ canonicalize m = Got c ∧ canonicalize m' = Got c'
         ∧ (c = c' ∨ collision blake3 c c')).
Proof.
  intros (sm & gm & spec & grant & Hsm & _ & _ & _ & Hg)%authorize_granted (sm' & gm' & spec' & grant' & Hsm' & _ & _ & _ & Hg')%authorize_granted Hlen Hrun.
  rewrite (gd_run _ _ _ _ _ _ _ _ Hg), (gd_run _ _ _ _ _ _ _ _ Hg') in Hrun. apply derive_run_id_inj in Hrun.
  destruct (eq_or_collision _ _ _ Hrun) as [Heq | Hcol]; [right | by left].
  apply run_id_material_inj in Heq as (Hd & Hgi & Hk); [| done]. split_and!; [done.. |].
  destruct (gd_bound _ _ _ _ _ _ _ _ Hg) as [Hcd _], (gd_bound _ _ _ _ _ _ _ _ Hg') as [Hcd' _].
  unfold canonical_digest, read_message in Hcd, Hcd'. rewrite Hsm in Hcd. rewrite Hsm' in Hcd'. cbn in Hcd, Hcd'.
  destruct (canonicalize sm) as [c |] eqn:Ec; [| done]. destruct (canonicalize sm') as [c' |] eqn:Ec'; [| done].
  injection Hcd as Hcd. injection Hcd' as Hcd'. exists sm, sm', c, c'. split_and!; try done.
  apply eq_or_collision. rewrite <- Hcd, <- Hcd' in Hd. unfold digest_name in Hd. injection Hd as Hd.
  by apply as_bytes_inj, hex_bytes_inj.
Qed.

(** C7: with the built-in verifier every authorized run is attested.  The grant
    carries a signature by a trusted key over its canonical bytes without that
    signature, it has not expired and it names the digest of the supplied spec; each
    of the three roles is asserted for this very run by a stored statement that a
    trusted key signed; the ceilings are within the request and no word of either
    message is left unread; the granted workspaces have distinct names, include the
    requested ones and are exactly those when none is requested twice; and the backend
    and confinement are those the policy requires. *)
Theorem authorized_run_is_attested `{!Ed25519, !Wire} load trust_keys clock sb gb policy a :
  authorize_with_verifier clock sb gb policy (CasDsseEvidenceVerifier load trust_keys) = Ok a →
  ∃ sm gm spec grant, capnp_read sb = Got sm ∧ spec_root sm = Got spec ∧ capnp_read gb = Got gm ∧ grant_root gm = Got grant
    ∧ granted clock spec grant policy (CasDsseEvidenceVerifier load trust_keys) sb gb a
    ∧ (∃ signing sig key, grant_signing_bytes gb = Ok signing ∧ read_grant_signature grant = Ok (Some sig) ∧ key ∈ trust_keys
         ∧ ed_verify (pae GRANT_SIGNATURE_PAYLOAD_TYPE signing) (sg_value sig) key = true)
    ∧ (∀ f, ∃ digest, attested load trust_keys f (au_run_id a) digest
         ∧ ∃ r, evidence_of grant f = Got r ∧ read_digest (er_digest r) (EvidenceField_as_str f +:+ ".digest") = Ok digest).
Proof.
  intros (sm & gm & spec & grant & Hsm & Hspec & Hgm & Hgrant & Hg)%authorize_granted.
  exists sm, gm, spec, grant. split_and!; [done.. | |].
  - destruct (gd_issuer _ _ _ _ _ _ _ _ Hg) as (signing & signature & Hsign & Hread & Hver).
    apply dsse_verify_grant_ok in Hver as (sig & key & Hsig & _ & Hin & Hed). cbn in Hsig, Hed. subst.
    by exists signing, sig, key.
  - intros f. destruct (gd_evidence _ _ _ _ _ _ _ _ Hg f) as (ev & Hver & Hr). apply dsse_verify_ok in Hver.
    by exists (ev_digest ev).
Qed.

(** A rejection is recovered from the error that reports it, whatever the
    context says. *)
Theorem rejection_roundtrip r context : rejection_of (rejection_error r context) = Some r.
Proof. destruct r; reflexivity. Qed.
End authorized.

(** ** An authorization to run

    A spec that asks for nothing, the grant that binds it, three statements. *)
Definition demo_hash : Blake3 :=
  {| blake3 := λ l, vreplicate 32 (hd x00 l); blake3_derive_key := λ _ l, vreplicate 32 (hd x00 l) |}.
Definition demo_fmt : Fmt := {| utf8_error := λ _, ""%string; debug_str := λ s, s |}.
Definition demo_keys : Ed25519 :=
  {| VerifyingKey := unit; pk_bytes := λ _, []; ed_verify := λ _ sig _, bool_decide (sig = replicate 64 x05); sha256 := λ l, l |}.
Definition hex_of (b : byte) : string := hex_bytes (replicate 32 b).
Definition demo_digest (b : byte) : rd digest_ref :=
  Got {| dr_algorithm := Got (bytes_of "blake3-256"); dr_value := Got (bytes_of (hex_of b)) |}.
Definition demo_evidence : rd evidence_ref :=
  Got {| er_media_type := Got (bytes_of "application/vnd.in-toto+json"); er_digest := demo_digest x44 |}.
Definition empty_struct : limit_struct := {| ls_data := []; ls_pointers := 0 |}.
Definition demo_resource_limits (ms : byte) : rd resource_limits :=
  Got {| rl_struct := {| ls_data := [ms; x00; x00; x00; x00; x00; x00; x00]; ls_pointers := 3 |};
         rl_memory := Got empty_struct; rl_cpu := Got empty_struct; rl_pids := Got empty_struct |}.
Definition demo_spec : run_spec := {|
  sp_schema_version := Got (bytes_of EXECUTION_SCHEMA_VERSION);
  sp_executable := Got {| ar_digest := demo_digest x45; ar_media_type := Got (bytes_of "application/x-rootfs") |};
  sp_arguments := Got []; sp_workspace_inputs := Got [{| wsi_name := Got (bytes_of "w"); wsi_graph_root := demo_digest x46 |}];
  sp_public_environment := Got []; sp_secret_handles := Got 0; sp_requested_interfaces := Got [];
  sp_requested_limits := demo_resource_limits x09; sp_outputs := Got 0; sp_cancellation_mode := Got ExplicitOnly;
  sp_has_compatibility_runtime := false |}.
Definition demo_run_grant : run_grant := {|
  gr_grant_id := Got (bytes_of "grant-1"); gr_issuer_evidence := demo_evidence; gr_expires_at_unix_ms := 50;
  gr_replay_key := Got (bytes_of "key-1"); gr_run_spec_digest := demo_digest x11;
  gr_workload_identity_evidence := demo_evidence; gr_actor_provenance_evidence := demo_evidence;
  gr_capabilities := Got [{| cap_grant := Got (bytes_of EXECUTION_CAPABILITY); cap_interface := Got (bytes_of EXECUTION_SCHEMA_VERSION) |}];
  gr_confinement_digest := demo_digest x47; gr_backend_class := Got WireMicroVm; gr_limits := demo_resource_limits x05;
  gr_workspaces := Got [{| wsg_name := Got (bytes_of "w"); wsg_graph_root := demo_digest x46; wsg_expected_generation := 0;
                           wsg_operations := Got [Got WireRead] |}];
  gr_allowed_egress := Got []; gr_credential_broker_refs := Got 0;
  gr_signature := Some (Got {| gs_algorithm := Got (bytes_of GRANT_SIGNATURE_ALGORITHM); gs_key_id := Got [];
                               gs_value := Got (replicate 64 x05) |});
  gr_confinement_manifest := Got [] |}.
(** The spec is [11], the grant [22]. *)
Definition demo_capnp : Capnp := {|
  message := byte; capnp_read := λ l, match l with b :: _ => Got b | [] => Bad "empty" end;
  spec_root := λ b, if bool_decide (b = x11) then Got demo_spec else Bad "not a spec";
  grant_root := λ b, if bool_decide (b = x22) then Got demo_run_grant else Bad "not a grant";
  copy_grant := Got; init_signature := Got; canonicalize := λ b, Got [b] |}.
Definition demo_confinement : Confinement :=
  {| ConfinementManifest := unit; manifest_parse := λ _, Ok tt; manifest_digest := λ _, Ok (""%string) |}.
Definition demo_run : string := (RUN_ID_PREFIX +:+ hex_of x63)%string.
Definition demo_wire : Wire := {|
  JsonValue := unit;
  envelope_to_vec := λ _, []; statement_to_vec := λ _, [];
  envelope_from_slice := λ _, Ok {| ew_payload_type := PAYLOAD_TYPE; ew_payload := "p"; ew_signatures := [{| sw_keyid := ""; sw_sig := "s" |}] |};
  statement_from_slice := λ _, Ok (STATEMENT_TYPE,
    (λ f, {| bw_name := EvidenceField_as_str f; bw_digest := {[ RUN_BINDING_ALGORITHM := demo_run ]} |}) <$> [Issuer; WorkloadIdentity; ActorProvenance],
    APAS_PREDICATE_TYPE, tt);
  b64_encode := λ _, ""%string; b64_decode := λ s, if bool_decide (s = "s"%string) then Ok (replicate 64 x05) else Ok [x01] |}.
Definition demo_policy : AuthorizationPolicy :=
  {| now_unix_ms := None; required_backend := MicroVm; required_confinement_digest := Some ("blake3-256:" +:+ hex_of x47)%string |}.
#[local] Existing Instances demo_hash demo_fmt demo_keys demo_capnp demo_confinement demo_wire.
Definition demo_authorize (clock : N) : result ExecutionError AuthorizedExecution :=
  authorize_with_verifier clock [x11] [x22] demo_policy (CasDsseEvidenceVerifier (λ _, Ok [x44]) [tt]).

(** At 49 the grant is valid, at 50 it has expired. *)
Lemma authorized_run_is_attested_witness :
  demo_authorize 50 = Err (invalid "RunGrant has expired") ∧
  ∃ a, demo_authorize 49 = Ok a ∧ au_run_id a = demo_run ∧ wall_time_ms (au_limits a) = 5
    ∧ ∃ digest, attested (λ _, Ok [x44]) [tt] ActorProvenance (au_run_id a) digest.
Proof.
  split; [vm_compute; reflexivity |].
  assert ((λ a, (au_run_id a, wall_time_ms (au_limits a))) <$> demo_authorize 49 = Ok (demo_run, 5)) as Hok by (vm_compute; reflexivity).
  destruct (demo_authorize 49) as [a | |] eqn:E; [| discriminate Hok | discriminate Hok]. injection Hok as Hrun Hms.
  exists a. split; [reflexivity | split; [exact Hrun | split; [exact Hms |]]].
  destruct (authorized_run_is_attested _ _ _ _ _ _ _ E) as (sm & gm & spec & grant & _ & _ & _ & _ & _ & _ & Hev).
  destruct (Hev ActorProvenance) as (digest & Hat & _). exists digest. exact Hat.
Defined.

Lemma run_identity_names_authority_witness :
  ∃ a a', demo_authorize 49 = Ok a ∧ demo_authorize 7 = Ok a' ∧ au_grant_id a = au_grant_id a'.
Proof.
  assert (∀ t, t = 49 ∨ t = 7 → (λ a, (au_run_id a, au_spec_digest a, au_grant_id a, au_replay_key a)) <$> demo_authorize t
    = Ok (demo_run, ("blake3-256:" +:+ hex_of x11)%string, "grant-1"%string, "key-1"%string)) as Hok
    by (intros t [-> | ->]; vm_compute; reflexivity).
  pose proof (Hok 49 (or_introl eq_refl)) as H1. pose proof (Hok 7 (or_intror eq_refl)) as H2. clear Hok.
  destruct (demo_authorize 49) as [a | |] eqn:E; [| discriminate H1 | discriminate H1].
  destruct (demo_authorize 7) as [a' | |] eqn:E'; [| discriminate H2 | discriminate H2].
  injection H1 as Hr Hs Hg Hk. injection H2 as Hr' Hs' Hg' Hk'.
  exists a, a'. split; [reflexivity | split; [reflexivity |]].
  destruct (run_identity_names_authority _ _ _ _ _ _ _ _ _ _ _ _ E E') as [[Hne _] | (_ & Hgid & _)].
  - rewrite Hs, Hg, Hk, Hs', Hg', Hk'. repeat constructor; vm_compute; discriminate.
  - rewrite Hr, Hr'. reflexivity.
  - exfalso. apply Hne. rewrite Hs, Hg, Hk, Hs', Hg', Hk'. reflexivity.
  - exact Hgid.
Defined.
