(* ===== verification/Ordered.v ===== *)
(** * Vectors kept in order

    What the sources use of [std] for vectors that are kept sorted: [Ord] on
    integers, strings and pairs, [binary_search_by], and [Vec::insert]. *)

From S2P Require Import Prelude.
From Stdlib Require Import Lia Ascii.
Local Open Scope nat_scope.

(** ** Orders *)

(** [Ord::cmp] as the code relies on it. *)
Class Cmp (K : Type) := cmp : K → K → comparison.
Class CmpLaws (K : Type) `{Cmp K} := {
  cmp_eq (a b : K) : cmp a b = Eq ↔ a = b;
  cmp_flip (a b : K) : cmp b a = CompOpp (cmp a b);
  cmp_lt_trans (a b c : K) : cmp a b = Lt → cmp b c = Lt → cmp a c = Lt;
}.

#[global] Instance N_cmp : Cmp N := N.compare.
#[global] Instance N_cmp_laws : CmpLaws N.
Proof.
  split; unfold cmp, N_cmp.
  - intros a b. apply N.compare_eq_iff.
  - intros a b. apply N.compare_antisym.
  - intros a b c. rewrite !N.compare_lt_iff. apply N.lt_trans.
Qed.

(** [str] is compared by its bytes. *)
#[global] Instance string_cmp : Cmp string := String.compare.
Lemma ascii_cmp_trans (a b c : ascii) : Ascii.compare a b = Lt → Ascii.compare b c = Lt → Ascii.compare a c = Lt.
Proof. unfold Ascii.compare. rewrite !N.compare_lt_iff. apply N.lt_trans. Qed.
#[global] Instance string_cmp_laws : CmpLaws string.
Proof.
  split; unfold cmp, string_cmp.
  - intros a b. split; [apply String.compare_eq_iff | intros ->].
    induction b as [| c b IH]; [done |]. cbn [String.compare]. unfold Ascii.compare. by rewrite N.compare_refl.
  - intros a b. apply String.compare_antisym.
  - intros a. induction a as [| x a IH]; intros [| y b] [| z c]; cbn [String.compare]; try done.
    destruct (Ascii.compare x y) eqn:Exy, (Ascii.compare y z) eqn:Eyz; try done; intros Hab Hbc.
    + apply Ascii.compare_eq_iff in Exy, Eyz. subst. unfold Ascii.compare. rewrite N.compare_refl. by apply (IH b c).
    + apply Ascii.compare_eq_iff in Exy. subst. by rewrite Eyz.
    + apply Ascii.compare_eq_iff in Eyz. subst. by rewrite Exy.
    + by rewrite (ascii_cmp_trans x y z).
Qed.

(** Tuples are compared lexicographically. *)
#[global] Instance prod_cmp `{Cmp A, Cmp B} : Cmp (A * B) := λ p q,
  match cmp p.1 q.1 with Eq => cmp p.2 q.2 | c => c end.
Lemma cmp_refl `{CmpLaws K} (a : K) : cmp a a = Eq.
Proof. by apply cmp_eq. Qed.
Lemma cmp_pair `{Cmp A, Cmp B} (a a' : A) (b b' : B) :
  cmp (a, b) (a', b') = match cmp a a' with Eq => cmp b b' | c => c end.
Proof. done. Qed.
#[global] Instance prod_cmp_laws `{CmpLaws A, CmpLaws B} : CmpLaws (A * B).
Proof.
  split.
  - intros [a b] [a' b']. rewrite cmp_pair. destruct (cmp a a') eqn:E.
    + apply cmp_eq in E as ->. rewrite cmp_eq. naive_solver.
    + split; [done |]. intros [= -> ->]. by rewrite cmp_refl in E.
    + split; [done |]. intros [= -> ->]. by rewrite cmp_refl in E.
  - intros [a b] [a' b']. rewrite !cmp_pair, (cmp_flip a a'). destruct (cmp a a'); cbn; [apply cmp_flip | done..].
  - intros [a b] [a' b'] [a'' b'']. rewrite !cmp_pair.
    destruct (cmp a a') eqn:E1, (cmp a' a'') eqn:E2; try done; intros Hlt Hlt'.
    + apply cmp_eq in E1, E2. subst. rewrite cmp_refl. by apply (cmp_lt_trans b b').
    + apply cmp_eq in E1. subst. by rewrite E2.
    + apply cmp_eq in E2. subst. by rewrite E1.
    + by rewrite (cmp_lt_trans a a' a'').
Qed.

(** ** [binary_search_by] *)

(** The loop halves [size] and keeps the answer at or above [base]. *)
Fixpoint search_loop {A} (f : A → comparison) (l : list A) (fuel base size : nat) : nat :=
  match fuel with
  | O => base
  | S fuel =>
      if size <=? 1 then base
      else
        let half := size / 2 in
        let mid := base + half in
        search_loop f l fuel (match f <$> l !! mid with Some Gt => base | _ => mid end) (size - half)
  end.
(** [Ok] is where an equal element is, [Err] where one can be inserted. *)
Definition binary_search_by {A} (f : A → comparison) (l : list A) : result nat nat :=
  match l with
  | [] => Err 0
  | _ =>
      let base := search_loop f l (length l) 0 (length l) in
      match f <$> l !! base with
      | Some Eq => Ok base
      | Some Lt => Err (S base)
      | _ => Err base
      end
  end.
(** [Vec::insert], which panics past the end. *)
Definition vec_insert {E A} (at_ : nat) (x : A) (l : list A) : result E (list A) :=
  if at_ <=? length l then Ok (take at_ l ++ x :: drop at_ l) else Panic.

(** The elements below, at and above what is searched, in this order. *)
Definition ordered_for {A} (f : A → comparison) (l : list A) : Prop :=
  ∀ i j x y, i < j → l !! i = Some x → l !! j = Some y → (f x = Gt → f y = Gt) ∧ (f y = Lt → f x = Lt).

Lemma search_loop_inv {A} (f : A → comparison) (l : list A) fuel base size :
  ordered_for f l → 1 ≤ size → base + size ≤ length l → size ≤ fuel →
  (base = 0 ∨ ∀ x, l !! base = Some x → f x ≠ Gt) →
  (∀ j x, base + size ≤ j → l !! j = Some x → f x = Gt) →
  let b := search_loop f l fuel base size in
  b < length l ∧ (b = 0 ∨ ∀ x, l !! b = Some x → f x ≠ Gt) ∧ ∀ j x, b < j → l !! j = Some x → f x = Gt.
Proof.
  intros Ho. revert base size. induction fuel as [| fuel IH]; intros base size Hsz Hb Hf Hlo Hhi; [lia |].
  cbn [search_loop]. destruct (Nat.leb_spec size 1) as [H1 | H1].
  { split_and!; [lia | done |]. intros j x Hj. apply Hhi. lia. }
  assert (1 ≤ size / 2 ∧ size / 2 < size) as [Hh Hh'] by (split; [apply Nat.div_le_lower_bound; lia | apply Nat.div_lt; lia]).
  pose proof (Nat.Div0.mul_div_le size 2) as Hhalf.
  destruct (lookup_lt_is_Some_2 l (base + size / 2)) as [m Hm]; [lia |]. rewrite Hm. cbn [fmap option_fmap option_map].
  assert (f m = Gt ∨ f m ≠ Gt) as [Eg | Eg] by (destruct (f m); auto).
  - rewrite Eg. apply IH; [lia.. | done |].
    intros j x Hj Hx. destruct (decide (j = base + size / 2)) as [-> | Hne]; [congruence |].
    assert (j < base + size ∨ base + size ≤ j) as [? | ?] by lia; [| by eapply Hhi].
    destruct (Ho (base + size / 2) j m x) as [Hgt _]; [lia | done.. |]. by apply Hgt.
  - replace (match f m with Gt => base | _ => base + size / 2 end) with (base + size / 2) by (by destruct (f m)).
    apply IH; [lia.. | |].
    + right. congruence.
    + intros j x Hj. apply Hhi. lia.
Qed.

(** What a search returns on an ordered vector. *)
Lemma binary_search_spec {A} (f : A → comparison) (l : list A) : ordered_for f l →
  match binary_search_by f l with
  | Ok i => ∃ x, l !! i = Some x ∧ f x = Eq
  | Err at_ => at_ ≤ length l ∧ (∀ x, x ∈ take at_ l → f x = Lt) ∧ ∀ x, x ∈ drop at_ l → f x = Gt
  | Panic => False
  end.
Proof.
  intros Ho. unfold binary_search_by. destruct l as [| x0 l0]; [split_and!; [done | set_solver..] |].
  set (l := x0 :: l0) in *. set (b := search_loop f l (length l) 0 (length l)).
  destruct (search_loop_inv f l (length l) 0 (length l)) as (Hb & Hlo & Hhi); [done | subst l; cbn; lia | lia | lia | by left | |].
  { intros j x Hj Hx. apply lookup_lt_Some in Hx. lia. }
  fold b in Hb, Hlo, Hhi. destruct (lookup_lt_is_Some_2 l b Hb) as [m Hm]. rewrite Hm. cbn [fmap option_fmap option_map].
  destruct (f m) eqn:Em.
  - eauto.
  - split_and!; [lia | |].
    + intros x (i & Hi)%list_elem_of_lookup. apply lookup_take_Some in Hi as [Hi Hlt].
      destruct (decide (i = b)) as [-> | Hne]; [congruence |]. destruct (Ho i b x m) as [_ Hl]; [lia | done.. |]. by apply Hl.
    + intros x (i & Hi)%list_elem_of_lookup. rewrite lookup_drop in Hi. apply (Hhi (S b + i)); [lia | done].
  - assert (b = 0) as Hb0 by (destruct Hlo as [| Hn]; [done |]; by destruct (Hn m Hm)). split_and!; [lia | |].
    + rewrite Hb0. set_solver.
    + intros x (i & Hi)%list_elem_of_lookup. rewrite lookup_drop, Hb0 in Hi. rewrite Hb0 in Hm.
      destruct (decide (i = 0)) as [-> | Hne]; [cbn in Hi, Hm; congruence |]. apply (Hhi i); [lia | done].
Qed.
(** On any vector the insertion point is in range. *)
Lemma search_loop_bound {A} (f : A → comparison) (l : list A) fuel base size :
  1 ≤ size → base + size ≤ length l → search_loop f l fuel base size < length l.
Proof.
  revert base size. induction fuel as [| fuel IH]; intros base size Hs Hb; cbn [search_loop]; [lia |].
  destruct (Nat.leb_spec size 1); [lia |].
  assert (1 ≤ size / 2 ∧ size / 2 < size) as [Hh Hh'] by (split; [apply Nat.div_le_lower_bound; lia | apply Nat.div_lt; lia]).
  apply IH; [lia |]. repeat case_match; lia.
Qed.
Lemma binary_search_bound {A} (f : A → comparison) (l : list A) :
  match binary_search_by f l with Ok i => i < length l | Err at_ => at_ ≤ length l | Panic => False end.
Proof.
  unfold binary_search_by. destruct l as [| x l]; [done |].
  pose proof (search_loop_bound f (x :: l) (length (x :: l)) 0 (length (x :: l)) ltac:(cbn; lia) ltac:(lia)) as Hb.
  destruct (f <$> _) as [[] |]; lia.
Qed.

(** ** Vectors sorted by a key *)

Section sorted.
Context `{CmpLaws K} {A : Type} (key : A → K).

Definition key_lt (a b : A) : Prop := cmp (key a) (key b) = Lt.
Definition search_key (k : K) (l : list A) : result nat nat := binary_search_by (λ held, cmp (key held) k) l.

#[global] Instance key_lt_trans : Transitive key_lt.
Proof. intros a b c. apply cmp_lt_trans. Qed.
Lemma key_lt_irrefl a : ¬ key_lt a a.
Proof. unfold key_lt. by rewrite cmp_refl. Qed.
#[global] Instance key_lt_antisym : AntiSymm (=) key_lt.
Proof. intros a b Hab Hba. destruct (key_lt_irrefl a). by transitivity b. Qed.

Lemma sorted_lookup l i j x y : StronglySorted key_lt l → i < j → l !! i = Some x → l !! j = Some y → key_lt x y.
Proof.
  intros Hs. revert i j. induction Hs as [| a l Hs IH Ha]; intros [| i] [| j] Hij Hx Hy; try done; try lia.
  - cbn in Hx. simplify_eq. rewrite Forall_forall in Ha. apply Ha. by eapply list_elem_of_lookup_2.
  - apply (IH i j); [lia | done..].
Qed.
Lemma sorted_ordered_for k l : StronglySorted key_lt l → ordered_for (λ held, cmp (key held) k) l.
Proof.
  intros Hs i j x y Hij Hx Hy. pose proof (sorted_lookup l i j x y Hs Hij Hx Hy) as Hxy. unfold key_lt in Hxy. split.
  - intros Hg. rewrite (cmp_flip k (key y)). rewrite (cmp_flip k (key x)) in Hg.
    assert (cmp k (key x) = Lt) as Hk by (by destruct (cmp k (key x))). by rewrite (cmp_lt_trans k (key x) (key y)).
  - intros Hl. by apply (cmp_lt_trans (key x) (key y) k).
Qed.
(** A search on a sorted vector decides whether the key is held. *)
Lemma search_found k l i : StronglySorted key_lt l → search_key k l = Ok i → ∃ x, l !! i = Some x ∧ key x = k.
Proof.
  intros Hs Hi. pose proof (binary_search_spec _ _ (sorted_ordered_for k l Hs)) as Hspec. unfold search_key in Hi. rewrite Hi in Hspec.
  destruct Hspec as (x & Hx & Hk). exists x. split; [done |]. by apply cmp_eq.
Qed.
Lemma search_insert k l at_ : StronglySorted key_lt l → search_key k l = Err at_ →
  at_ ≤ length l ∧ (∀ x, x ∈ take at_ l → cmp (key x) k = Lt) ∧ ∀ x, x ∈ drop at_ l → cmp k (key x) = Lt.
Proof.
  intros Hs Hi. pose proof (binary_search_spec _ _ (sorted_ordered_for k l Hs)) as Hspec. unfold search_key in Hi. rewrite Hi in Hspec.
  destruct Hspec as (Hle & Hlt & Hgt). split_and!; [done.. |]. intros x Hx. rewrite (cmp_flip (key x) k). by rewrite (Hgt x Hx).
Qed.
Lemma search_total k l : ∃ i, search_key k l = Ok i ∨ search_key k l = Err i.
Proof.
  unfold search_key. pose proof (binary_search_bound (λ held, cmp (key held) k) l). destruct (binary_search_by _ l); naive_solver.
Qed.
Lemma search_decides k l : StronglySorted key_lt l → is_ok (search_key k l) = true ↔ k ∈ key <$> l.
Proof.
  intros Hs. rewrite list_elem_of_fmap. destruct (search_total k l) as [i [Hi | Hi]]; rewrite Hi; cbn [is_ok].
  - split; [intros _ | done]. destruct (search_found k l i Hs Hi) as (x & Hx & Hk). exists x. split; [done |]. by eapply list_elem_of_lookup_2.
  - split; [done |]. intros (x & -> & Hx). destruct (search_insert _ l i Hs Hi) as (_ & Hlt & Hgt).
    rewrite <- (take_drop i l), elem_of_app in Hx. exfalso. destruct Hx as [Hx | Hx]; [apply Hlt in Hx | apply Hgt in Hx]; by rewrite cmp_refl in Hx.
Qed.

(** Inserting where the search says keeps the order. *)
Lemma insert_sorted k l at_ x l' {E} : StronglySorted key_lt l → key x = k → search_key k l = Err at_ →
  vec_insert (E := E) at_ x l = Ok l' → StronglySorted key_lt l' ∧ l' ≡ₚ x :: l.
Proof.
  intros Hs <- Hi Hv. destruct (search_insert _ l at_ Hs Hi) as (Hle & Hlt & Hgt). unfold vec_insert in Hv.
  destruct (Nat.leb_spec at_ (length l)); [| lia]. injection Hv as <-. split.
  - pose proof Hs as Hs'. rewrite <- (take_drop at_ l) in Hs'. apply StronglySorted_app in Hs' as (Hcross & Ht & Hd).
    apply StronglySorted_app. split_and!; [| done |].
    + intros a b Ha. rewrite elem_of_cons. intros [-> | Hb]; [by apply Hlt | by apply Hcross].
    + constructor; [done |]. rewrite Forall_forall. exact Hgt.
  - rewrite <- Permutation_middle, take_drop. done.
Qed.
Lemma sorted_NoDup l : StronglySorted key_lt l → NoDup (key <$> l).
Proof.
  induction 1 as [| a l Hs IH Ha]; [constructor |]. rewrite fmap_cons. constructor; [| done].
  rewrite list_elem_of_fmap. intros (b & Hk & Hb). rewrite Forall_forall in Ha. pose proof (Ha b Hb) as Hl.
  unfold key_lt in Hl. by rewrite Hk, cmp_refl in Hl.
Qed.
Lemma sorted_unique l l' : StronglySorted key_lt l → StronglySorted key_lt l' → l ≡ₚ l' → l = l'.
Proof. apply StronglySorted_unique. apply key_lt_antisym. Qed.
(** A key above every held one goes to the end. *)
Lemma search_above k l : StronglySorted key_lt l → (∀ x, x ∈ l → cmp (key x) k = Lt) → search_key k l = Err (length l).
Proof.
  intros Hs Hall. destruct (search_total k l) as [i [Hi | Hi]]; rewrite Hi.
  - destruct (search_found k l i Hs Hi) as (x & Hx & <-). apply list_elem_of_lookup_2, Hall in Hx. by rewrite cmp_refl in Hx.
  - destruct (search_insert k l i Hs Hi) as (Hle & _ & Hgt). f_equal. destruct (decide (i = length l)) as [-> | Hne]; [done |].
    destruct (lookup_lt_is_Some_2 l i) as [x Hx]; [lia |].
    assert (x ∈ drop i l) as Hd by (apply (list_elem_of_lookup_2 _ 0); by rewrite lookup_drop, Nat.add_0_r).
    apply Hgt in Hd. apply list_elem_of_lookup_2, Hall in Hx. by rewrite cmp_flip, Hx in Hd.
Qed.
End sorted.
