(* ===== verification/Confinement.v ===== *)
(** * Confinement manifests

    [rs/ll-open/runtime/src/confinement.rs]: the policy a grant names by digest.
    JSON values are an inductive; their text is the class [JsonText], the part of
    [serde_json] the module calls.  [u16] fields are [N]; [String]s are their bytes. *)

From S2P Require Import Prelude Substrate Text Limits Service Envelope Authorization Ordered.
From stdpp Require Import pretty.
From Stdlib Require Import NArith Lia Ascii.
Local Open Scope N_scope.

Definition CONFINEMENT_SCHEMA_VERSION : string := "cloister/confinement/v1".

(** ** [serde_json] *)

(** A number is an unsigned one, or its text.  An object keeps its keys in the order
    they were inserted in. *)
Inductive Json :=
| JNull
| JBool (b : bool)
| JUInt (n : N)
| JNumber (repr : string)
| JString (s : string)
| JArray (items : list Json)
| JObject (entries : list (string * Json)).

(** [from_str] on a [Value], [to_string_pretty], and [Display]. *)
Class JsonText := {
  json_from_str : string → result string Json;
  to_string_pretty : Json → result string string;
  json_display : Json → string;
}.

Definition obj_get (entries : list (string * Json)) (k : string) : option Json :=
  snd <$> List.find (λ e, bool_decide (e.1 = k)) entries.
(** [Value::get] on anything but an object is [None]. *)
Definition json_get (v : Json) (k : string) : option Json :=
  match v with JObject entries => obj_get entries k | _ => None end.
Definition as_str (v : Json) : option string := match v with JString s => Some s | _ => None end.
Definition as_array (v : Json) : option (list Json) := match v with JArray items => Some items | _ => None end.
Definition as_u64 (v : Json) : option N := match v with JUInt n => Some n | _ => None end.

(** [BTreeMap::insert] *)
Fixpoint bt_insert (k : string) (v : Json) (m : list (string * Json)) : list (string * Json) :=
  match m with
  | [] => [(k, v)]
  | (k', v') :: rest =>
      match cmp k k' with
      | Lt => (k, v) :: m
      | Eq => (k, v) :: rest
      | Gt => (k', v') :: bt_insert k v rest
      end
  end.
Definition json_object (entries : list (string * Json)) : Json := JObject entries.

(** ** Grants *)

Inductive FsGrant := ReadOnly (path : string) | ReadWrite (path : string).
Definition fs_path (g : FsGrant) : string := match g with ReadOnly p => p | ReadWrite p => p end.
Inductive UnixSocketGrant := Connect (path : string) | Bind (path : string) | ConnectBind (path : string).
Definition socket_path (g : UnixSocketGrant) : string := match g with Connect p => p | Bind p => p | ConnectBind p => p end.
Definition socket_mode (g : UnixSocketGrant) : string :=
  match g with Connect _ => "connect" | Bind _ => "bind" | ConnectBind _ => "connect-bind" end.
Definition permits_bind (g : UnixSocketGrant) : bool := match g with Bind _ | ConnectBind _ => true | _ => false end.
Definition permits_connect (g : UnixSocketGrant) : bool := match g with Connect _ | ConnectBind _ => true | _ => false end.

Definition DEFAULT_BIND_ADDRESS : string := "127.0.0.1".
Record PortGrant := { pg_bind : N; pg_address : option string }.
Definition effective_address (g : PortGrant) : string := default DEFAULT_BIND_ADDRESS (pg_address g).
Definition canonical_order (g : PortGrant) : N * string := (pg_bind g, effective_address g).
Definition port_canonical_value (g : PortGrant) : Json :=
  let block := bt_insert "bind" (JUInt (pg_bind g)) [] in
  let block := match pg_address g with Some address => bt_insert "address" (JString address) block | None => block end in
  json_object block.

Definition scalar_or_list (values : list Json) : Json :=
  match values with [v] => v | _ => JArray values end.
Definition one_or_many (value : Json) (clause : string) : result ExecutionError (list Json) :=
  match value with
  | JArray [] =>
      Err (invalid ("confinement/v1 " +:+ clause +:+ " is an empty list, which declares nothing; "
                    +:+ "omit the clause instead — an omitted clause is already the refusal"))
  | JArray items => mret items
  | single => mret [single]
  end.

#[global] Instance FsGrant_eq_dec : EqDecision FsGrant.
Proof. solve_decision. Defined.
#[global] Instance UnixSocketGrant_eq_dec : EqDecision UnixSocketGrant.
Proof. solve_decision. Defined.
#[global] Instance PortGrant_eq_dec : EqDecision PortGrant.
Proof. solve_decision. Defined.

(** ** The manifest and its builders *)

Record ConfinementManifest := {
  credential_source : option string;
  fs_allow : list FsGrant;
  allow_hosts : list string;
  ports : list PortGrant;
  unix_sockets : list UnixSocketGrant;
  connect_local : list N;
}.
Definition manifest_new : ConfinementManifest :=
  {| credential_source := None; fs_allow := []; allow_hosts := []; ports := []; unix_sockets := []; connect_local := [] |}.

Definition set_credential_source (v : option string) (m : ConfinementManifest) : ConfinementManifest :=
  {| credential_source := v; fs_allow := fs_allow m; allow_hosts := allow_hosts m; ports := ports m;
     unix_sockets := unix_sockets m; connect_local := connect_local m |}.
Definition set_fs_allow (v : list FsGrant) (m : ConfinementManifest) : ConfinementManifest :=
  {| credential_source := credential_source m; fs_allow := v; allow_hosts := allow_hosts m; ports := ports m;
     unix_sockets := unix_sockets m; connect_local := connect_local m |}.
Definition set_allow_hosts (v : list string) (m : ConfinementManifest) : ConfinementManifest :=
  {| credential_source := credential_source m; fs_allow := fs_allow m; allow_hosts := v; ports := ports m;
     unix_sockets := unix_sockets m; connect_local := connect_local m |}.
Definition set_ports (v : list PortGrant) (m : ConfinementManifest) : ConfinementManifest :=
  {| credential_source := credential_source m; fs_allow := fs_allow m; allow_hosts := allow_hosts m; ports := v;
     unix_sockets := unix_sockets m; connect_local := connect_local m |}.
Definition set_unix_sockets (v : list UnixSocketGrant) (m : ConfinementManifest) : ConfinementManifest :=
  {| credential_source := credential_source m; fs_allow := fs_allow m; allow_hosts := allow_hosts m; ports := ports m;
     unix_sockets := v; connect_local := connect_local m |}.
Definition set_connect_local (v : list N) (m : ConfinementManifest) : ConfinementManifest :=
  {| credential_source := credential_source m; fs_allow := fs_allow m; allow_hosts := allow_hosts m; ports := ports m;
     unix_sockets := unix_sockets m; connect_local := v |}.

(** [s.split(c)] *)
Fixpoint split_on (c : ascii) (s : string) : list string :=
  match s with
  | EmptyString => [EmptyString]
  | String d s =>
      if bool_decide (d = c) then EmptyString :: split_on c s
      else match split_on c s with
           | p :: ps => String d p :: ps
           | [] => [String d EmptyString]
           end
  end.
(** [s.starts_with(c)] and [s.ends_with(c)] *)
Definition starts_with_char (c : ascii) (s : string) : bool :=
  match s with String d _ => bool_decide (d = c) | EmptyString => false end.
Fixpoint ends_with_char (c : ascii) (s : string) : bool :=
  match s with
  | EmptyString => false
  | String d EmptyString => bool_decide (d = c)
  | String _ s => ends_with_char c s
  end.
Definition is_alphanumeric (c : ascii) : bool :=
  let n := N_of_ascii c in
  ((48 <=? n) && (n <=? 57)) || ((65 <=? n) && (n <=? 90)) || ((97 <=? n) && (n <=? 122)).

Definition SCHEMES : list string :=
  ["keychain://"; "secret-tool://"; "keyring://"; "file://"; "op://"; "apple-password://"]%string.
(** [SCHEMES.join(", ")] and [differing.join(", ")] *)
Definition join_comma (l : list string) : string :=
  match l with [] => EmptyString | s :: l => foldl (λ acc t, acc +:+ ", " +:+ t) s l end.
Definition scheme_ok (uri : string) : bool :=
  existsb (λ scheme, String.prefix scheme uri && (String.length scheme <? String.length uri)%nat) SCHEMES.
(** The path rule that filesystem and socket grants share. *)
Definition traverses (path : string) : bool := existsb (λ component, bool_decide (component = ".."%string)) (split_on "/" path).
Definition strip_wildcard (host : string) : string :=
  match host with String "*" (String "." labels) => labels | _ => host end.
Definition label_ok (label : string) : bool :=
  negb (bool_decide (label = EmptyString)) && negb (starts_with_char "-" label) && negb (ends_with_char "-" label)
  && string_all (λ c, is_alphanumeric c || bool_decide (c = "-"%char)) label.
Definition host_ok (host : string) : bool :=
  let labels := strip_wildcard host in
  negb (bool_decide (labels = EmptyString)) && forallb label_ok (split_on "." labels).

Section builders.
Context `{Fmt}.

Definition debug_opt (o : option string) : string :=
  match o with Some s => "Some(" +:+ debug_str s +:+ ")" | None => "None" end.

Definition with_credential_source (m : ConfinementManifest) (uri : string) : result ExecutionError ConfinementManifest :=
  if negb (scheme_ok uri)
  then Err (invalid ("confinement/v1 §5 credentialSource " +:+ debug_str uri +:+ " does not use one of the schemes the spec closes over ("
                     +:+ join_comma SCHEMES +:+ "), each with a non-empty remainder."))
  else mret (set_credential_source (Some uri) m).
Definition with_fs_grant (m : ConfinementManifest) (grant : FsGrant) : result ExecutionError ConfinementManifest :=
  let path := fs_path grant in
  if negb (starts_with_char "/" path)
  then Err (invalid ("confinement/v1 §2 fs.allow path " +:+ debug_str path +:+ " must be absolute"))
  else if traverses path
  then Err (invalid ("confinement/v1 §2 fs.allow path " +:+ debug_str path +:+ " must not traverse with `..`"))
  else mret (set_fs_allow (fs_allow m ++ [grant]) m).
Definition with_allowed_host (m : ConfinementManifest) (host : string) : result ExecutionError ConfinementManifest :=
  if negb (host_ok host)
  then Err (invalid ("confinement/v1 §3 network.allowHosts entry " +:+ debug_str host
                     +:+ " is not a hostname with at most one leading `*.` wildcard"))
  else mret (set_allow_hosts (allow_hosts m ++ [host]) m).
Definition with_port_bind (m : ConfinementManifest) (bind : N) (address : option string)
    : result ExecutionError ConfinementManifest :=
  if bind <? 1024
  then Err (invalid ("confinement/v1 §4 port.bind must be 1024-65535, got " +:+ pretty bind
                     +:+ ". Privileged ports are out of scope in v1, and 0 is nono's macOS `localhost:*` wildcard — a value whose compiled meaning is every port rather than one."))
  else
    let grant := {| pg_bind := bind; pg_address := address |} in
    match search_key canonical_order (canonical_order grant) (ports m) with
    | Ok index =>
        match ports m !! index with
        | Some held =>
            Err (invalid ("confinement/v1 §4 port grants " +:+ pretty bind +:+ " on " +:+ effective_address grant +:+ " twice (declared as "
                          +:+ debug_opt (pg_address held) +:+ " and " +:+ debug_opt (pg_address grant) +:+ "); a document names each socket once"))
        | None => Panic
        end
    | Err at_ => ports ← vec_insert at_ grant (ports m); mret (set_ports ports m)
    | Panic => Panic
    end.
Definition with_unix_socket (m : ConfinementManifest) (grant : UnixSocketGrant) : result ExecutionError ConfinementManifest :=
  let path := socket_path grant in
  if negb (starts_with_char "/" path)
  then Err (invalid ("confinement/v1 §6 unixSocket.allow path " +:+ debug_str path +:+ " must be absolute"))
  else if traverses path
  then Err (invalid ("confinement/v1 §6 unixSocket.allow path " +:+ debug_str path +:+ " must not traverse with `..`"))
  else mret (set_unix_sockets (unix_sockets m ++ [grant]) m).
Definition with_connect_local (m : ConfinementManifest) (port : N) : result ExecutionError ConfinementManifest :=
  if port =? 0
  then Err (invalid "confinement/v1 §3 network.connectLocal must name a port in 1-65535; 0 is not an address a workload can dial, and on some mechanisms it compiles to a wildcard")
  else
    match search_key id port (connect_local m) with
    | Ok _ => Err (invalid ("confinement/v1 §3 network.connectLocal declares " +:+ pretty port +:+ " twice; a document names each port once"))
    | Err at_ => held ← vec_insert at_ port (connect_local m); mret (set_connect_local held m)
    | Panic => Panic
    end.

(** ** Meet *)

Definition meet (m other : ConfinementManifest) : result ExecutionError ConfinementManifest :=
  let differing :=
    (if bool_decide (fs_allow m = fs_allow other) then [] else ["§2 fs.allow"%string])
    ++ (if bool_decide (allow_hosts m = allow_hosts other) then [] else ["§3 network.allowHosts"%string])
    ++ (if bool_decide (credential_source m = credential_source other) then [] else ["§5 credentialSource"%string])
    ++ (if bool_decide (unix_sockets m = unix_sockets other) then [] else ["§6 unixSocket.allow"%string]) in
  match differing with
  | _ :: _ =>
      Err (invalid ("confinement/v1 meet is defined for §4 port and §3 network.connectLocal only; the operands differ in "
                    +:+ join_comma differing +:+ ", which v1 gives no meet for"))
  | [] =>
      mret (set_connect_local (filter (λ port, is_ok (search_key id port (connect_local other)) = true) (connect_local m))
             (set_ports (filter (λ grant, existsb (λ theirs, bool_decide (theirs = grant)) (ports other) = true) (ports m)) m))
  end.
End builders.

(** ** Canonical form *)

Definition fs_value (g : FsGrant) : Json :=
  match g with
  | ReadOnly path => JString path
  | ReadWrite path => json_object (bt_insert "path" (JString path) (bt_insert "mode" (JString "rw") []))
  end.
Definition socket_value (g : UnixSocketGrant) : Json :=
  match g with
  | Connect path => JString path
  | Bind path | ConnectBind path => json_object (bt_insert "path" (JString path) (bt_insert "mode" (JString (socket_mode g)) []))
  end.
Definition network_value (m : ConfinementManifest) : list (string * Json) :=
  let network := [] in
  let network := match allow_hosts m with
                 | [] => network
                 | _ => bt_insert "allowHosts" (JArray (JString <$> allow_hosts m)) network
                 end in
  match connect_local m with
  | [] => network
  | _ => bt_insert "connectLocal" (scalar_or_list (JUInt <$> connect_local m)) network
  end.
Definition canonical_root (m : ConfinementManifest) : list (string * Json) :=
  let root := bt_insert "version" (JString CONFINEMENT_SCHEMA_VERSION) [] in
  let root := match credential_source m with
              | Some source => bt_insert "credentialSource" (JString source) root
              | None => root
              end in
  let root := match fs_allow m with
              | [] => root
              | _ => bt_insert "fs" (json_object (bt_insert "allow" (JArray (fs_value <$> fs_allow m)) [])) root
              end in
  let root := match allow_hosts m, connect_local m with
              | [], [] => root
              | _, _ => bt_insert "network" (json_object (network_value m)) root
              end in
  let root := match unix_sockets m with
              | [] => root
              | _ => bt_insert "unixSocket" (json_object (bt_insert "allow" (JArray (socket_value <$> unix_sockets m)) [])) root
              end in
  let root := match ports m with
              | [] => root
              | _ => bt_insert "port" (scalar_or_list (port_canonical_value <$> ports m)) root
              end in
  root.
Definition canonical_value (m : ConfinementManifest) : Json := json_object (canonical_root m).

(** ** Parsing *)

Section parse.
Context `{Blake3, Fmt, JsonText}.

(** A literal in quotation marks. *)
Definition quoted (s : string) : string := String (ascii_of_N 34) (s +:+ String (ascii_of_N 34) EmptyString).
Definition known_key (key : string) : bool :=
  bool_decide (key ∈ ["version"; "credentialSource"; "fs"; "network"; "port"; "unixSocket"]%string).
Definition check_keys (entries : list (string * Json)) : result ExecutionError unit :=
  fold_result (λ _ e,
    ensure (known_key e.1) (invalid ("unknown confinement/v1 dimension " +:+ debug_str e.1
                                     +:+ "; refusing rather than digesting a clause nothing reads"))) tt entries.
Definition check_version (entries : list (string * Json)) : result ExecutionError unit :=
  match obj_get entries "version" ≫= as_str with
  | Some other =>
      ensure (bool_decide (other = CONFINEMENT_SCHEMA_VERSION))
        (invalid ("confinement manifest declares version " +:+ debug_str other +:+ ", but this reader implements "
                  +:+ CONFINEMENT_SCHEMA_VERSION))
  | None => Err (invalid "a confinement manifest must declare its `version`")
  end.

Definition parse_credential (entries : list (string * Json)) (m : ConfinementManifest) : result ExecutionError ConfinementManifest :=
  match obj_get entries "credentialSource" with
  | None => mret m
  | Some source =>
      source ← ok_or (as_str source) (invalid "credentialSource must be a string");
      with_credential_source m source
  end.

Definition fs_entry (entry : Json) : result ExecutionError FsGrant :=
  match entry with
  | JString path => mret (ReadOnly path)
  | JObject map =>
      path ← ok_or (obj_get map "path" ≫= as_str) (invalid "an fs.allow object needs a `path`");
      let mode := obj_get map "mode" ≫= as_str in
      if bool_decide (mode = Some "rw"%string) then mret (ReadWrite path)
      else Err (invalid ("fs.allow mode must be " +:+ quoted "rw" +:+ " when present, got " +:+ debug_opt mode))
  | other => Err (invalid ("an fs.allow entry must be a string or an object, got " +:+ json_display other))
  end.
Definition parse_fs (entries : list (string * Json)) (m : ConfinementManifest) : result ExecutionError ConfinementManifest :=
  match obj_get entries "fs" with
  | None => mret m
  | Some fs =>
      allow ← ok_or (json_get fs "allow" ≫= as_array) (invalid "fs must carry an `allow` array");
      fold_result (λ m entry, grant ← fs_entry entry; with_fs_grant m grant) m allow
  end.

Definition socket_entry (entry : Json) : result ExecutionError UnixSocketGrant :=
  match entry with
  | JString path => mret (Connect path)
  | JObject map =>
      path ← ok_or (obj_get map "path" ≫= as_str) (invalid "a unixSocket.allow object needs a `path`");
      let mode := obj_get map "mode" ≫= as_str in
      if bool_decide (mode = Some "bind"%string) then mret (Bind path)
      else if bool_decide (mode = Some "connect-bind"%string) then mret (ConnectBind path)
      else Err (invalid ("unixSocket.allow mode must be " +:+ quoted "bind" +:+ " or " +:+ quoted "connect-bind"
                         +:+ " when present (connect-only is the bare-string form), got " +:+ debug_opt mode))
  | other => Err (invalid ("a unixSocket.allow entry must be a string or an object, got " +:+ json_display other))
  end.
Definition parse_sockets (entries : list (string * Json)) (m : ConfinementManifest) : result ExecutionError ConfinementManifest :=
  match obj_get entries "unixSocket" with
  | None => mret m
  | Some unix_socket =>
      allow ← ok_or (json_get unix_socket "allow" ≫= as_array) (invalid "unixSocket must carry an `allow` array");
      fold_result (λ m entry, grant ← socket_entry entry; with_unix_socket m grant) m allow
  end.

(** [u16::try_from] *)
Definition u16_max : N := 65535.
Definition host_step (m : ConfinementManifest) (host : Json) : result ExecutionError ConfinementManifest :=
  host ← ok_or (as_str host) (invalid "an allowHosts entry must be a string");
  with_allowed_host m host.
Definition local_step (m : ConfinementManifest) (port : Json) : result ExecutionError ConfinementManifest :=
  port ← ok_or (as_u64 port) (invalid "network.connectLocal must be an integer port or a list of them");
  _ ← ensure (port <=? u16_max) (invalid ("network.connectLocal " +:+ pretty port +:+ " exceeds the 16-bit port space"));
  with_connect_local m port.
Definition parse_hosts (network : Json) (m : ConfinementManifest) : result ExecutionError ConfinementManifest :=
  match json_get network "allowHosts" with
  | None => mret m
  | Some hosts =>
      hosts ← ok_or (as_array hosts) (invalid "network.allowHosts must be an array");
      fold_result host_step m hosts
  end.
Definition parse_local (network : Json) (m : ConfinementManifest) : result ExecutionError ConfinementManifest :=
  match json_get network "connectLocal" with
  | None => mret m
  | Some ports =>
      ports ← one_or_many ports "§3 network.connectLocal";
      fold_result local_step m ports
  end.
Definition parse_network (entries : list (string * Json)) (m : ConfinementManifest) : result ExecutionError ConfinementManifest :=
  match obj_get entries "network" with
  | None => mret m
  | Some network =>
      if negb (bool_decide (is_Some (json_get network "allowHosts"))) && negb (bool_decide (is_Some (json_get network "connectLocal")))
      then Err (invalid "confinement/v1 §3 `network` must carry `allowHosts`, `connectLocal`, or both — an empty block declares nothing and an omitted one is already the refusal")
      else
        m ← parse_hosts network m;
        parse_local network m
  end.

Definition is_object (v : Json) : bool := match v with JObject _ => true | _ => false end.
Definition port_step (m : ConfinementManifest) (port : Json) : result ExecutionError ConfinementManifest :=
  _ ← ensure (is_object port) (invalid "a §4 port grant must be an object carrying `bind`");
  bind ← ok_or (json_get port "bind" ≫= as_u64) (invalid "port must carry an integer `bind`");
  _ ← ensure (bind <=? u16_max) (invalid ("port.bind " +:+ pretty bind +:+ " exceeds the 16-bit port space"));
  with_port_bind m bind (json_get port "address" ≫= as_str).
Definition parse_ports (entries : list (string * Json)) (m : ConfinementManifest) : result ExecutionError ConfinementManifest :=
  match obj_get entries "port" with
  | None => mret m
  | Some ports =>
      ports ← one_or_many ports "§4 port";
      fold_result port_step m ports
  end.

Definition parse_object (entries : list (string * Json)) : result ExecutionError ConfinementManifest :=
  _ ← check_keys entries;
  _ ← check_version entries;
  m ← parse_credential entries manifest_new;
  m ← parse_fs entries m;
  m ← parse_sockets entries m;
  m ← parse_network entries m;
  parse_ports entries m.
Definition parse (document : string) : result ExecutionError ConfinementManifest :=
  value ← map_err (λ e, invalid ("invalid confinement JSON: " +:+ e)) (json_from_str document);
  match value with
  | JObject entries => parse_object entries
  | _ => Err (invalid "a confinement/v1 manifest must be a JSON object")
  end.

(** ** Digests *)

Definition to_canonical_json (m : ConfinementManifest) : result ExecutionError string :=
  map_err (λ e, invalid ("cannot canonicalize: " +:+ e)) (to_string_pretty (canonical_value m)).
Definition confinement_digest (m : ConfinementManifest) : result ExecutionError string :=
  canonical ← to_canonical_json m;
  mret (digest_name (bytes_of canonical)).
Definition assert_matches (m : ConfinementManifest) (committed : string) : result ExecutionError unit :=
  actual ← confinement_digest m;
  if bool_decide (actual = committed) then mret tt
  else Err (identity_mismatch ("confinement drift: the policy this backend compiles digests to " +:+ actual
                               +:+ ", but the grant commits to " +:+ committed)).

(** What [Authorization] asks of manifests. *)
#[global] Instance manifest_confinement : Confinement := {|
  Authorization.ConfinementManifest := ConfinementManifest;
  manifest_parse := parse;
  manifest_digest := confinement_digest;
|}.
End parse.

(** ** JSON values that have a text *)

(** Strings are UTF-8, integers fit [u64], keys are distinct, and containers nest at
    most [d] deep ([from_str] refuses deeper texts). *)
Definition text_ok (s : string) : Prop := is_utf8 (bytes_of s).
Definition RECURSION_LIMIT : nat := 127.
Inductive json_wf : nat → Json → Prop :=
| wf_null d : json_wf d JNull
| wf_bool d b : json_wf d (JBool b)
| wf_uint d n : n ≤ u64_max → json_wf d (JUInt n)
| wf_number d repr : text_ok repr → json_wf d (JNumber repr)
| wf_string d s : text_ok s → json_wf d (JString s)
| wf_array d items : Forall (json_wf d) items → json_wf (S d) (JArray items)
| wf_object d entries : NoDup (entries.*1) → Forall (λ e, text_ok e.1 ∧ json_wf d e.2) entries → json_wf (S d) (JObject entries).
(** No number but unsigned ones: a fraction may be printed in another spelling. *)
Fixpoint integral (v : Json) : bool :=
  match v with
  | JNumber _ => false
  | JArray items => forallb integral items
  | JObject entries => forallb (λ e, integral e.2) entries
  | _ => true
  end.
(** What the module relies on: a value whose numbers are unsigned ones prints, what is printed
    parses to the value, and parsing yields values that have a text. *)
Class JsonTextLaws `{JsonText} := {
  pretty_total v : json_wf RECURSION_LIMIT v → integral v = true → ∃ s, to_string_pretty v = Ok s;
  pretty_parses v s : json_wf RECURSION_LIMIT v → integral v = true → to_string_pretty v = Ok s → json_from_str s = Ok v;
  parsed_wf s v : json_from_str s = Ok v → json_wf RECURSION_LIMIT v;
  from_str_total s : json_from_str s ≠ Panic;
}.
(** README section 7: keys ascend at every level, and nothing absent is spelled out. *)
Inductive json_canonical : Json → Prop :=
| can_uint n : json_canonical (JUInt n)
| can_string s : json_canonical (JString s)
| can_array items : items ≠ [] → Forall json_canonical items → json_canonical (JArray items)
| can_object entries : entries ≠ [] → StronglySorted (key_lt fst) entries → Forall (λ e, json_canonical e.2) entries →
    json_canonical (JObject entries).

(** ** Manifests the builders make *)

Definition path_ok (path : string) : Prop := starts_with_char "/" path = true ∧ traverses path = false ∧ text_ok path.
Record manifest_wf (m : ConfinementManifest) : Prop := {
  mw_credential : ∀ uri, credential_source m = Some uri → scheme_ok uri = true ∧ text_ok uri;
  mw_fs : Forall (λ g, path_ok (fs_path g)) (fs_allow m);
  mw_hosts : Forall (λ h, host_ok h = true ∧ text_ok h) (allow_hosts m);
  mw_ports : StronglySorted (key_lt canonical_order) (ports m);
  mw_binds : Forall (λ g, 1024 ≤ pg_bind g ≤ u16_max ∧ ∀ a, pg_address g = Some a → text_ok a) (ports m);
  mw_sockets : Forall (λ g, path_ok (socket_path g)) (unix_sockets m);
  mw_local_sorted : StronglySorted (key_lt id) (connect_local m);
  mw_local : Forall (λ p, 1 ≤ p ≤ u16_max) (connect_local m);
}.

(** ** Objects *)

Lemma obj_get_insert k v m k' : obj_get (bt_insert k v m) k' = if decide (k = k') then Some v else obj_get m k'.
Proof.
  unfold obj_get. induction m as [| [k1 v1] m IH]; cbn [bt_insert List.find fst].
  - case_bool_decide; by case_decide.
  - destruct (cmp k k1) eqn:E; cbn [List.find fst].
    + apply cmp_eq in E as ->. repeat case_bool_decide; by case_decide.
    + case_bool_decide; by case_decide.
    + destruct (bool_decide_reflect (k1 = k')) as [-> | Hne]; [| done].
      case_decide; [| done]. subst. by rewrite cmp_refl in E.
Qed.
Lemma bt_insert_elem k v m e : e ∈ bt_insert k v m → e = (k, v) ∨ e ∈ m.
Proof.
  induction m as [| [k1 v1] m IH]; cbn [bt_insert]; [set_solver |].
  destruct (cmp k k1); rewrite !elem_of_cons; naive_solver.
Qed.
Lemma bt_insert_sorted k v m : StronglySorted (key_lt fst) m → StronglySorted (key_lt fst) (bt_insert k v m).
Proof.
  induction m as [| [k1 v1] m IH]; intros Hs; cbn [bt_insert]; [by repeat constructor |].
  apply StronglySorted_inv in Hs as Hs'. destruct Hs' as [Hs' Hall]. destruct (cmp k k1) eqn:E.
  - apply cmp_eq in E as ->. by constructor.
  - constructor; [done |]. constructor; [done |]. apply (Forall_impl _ _ _ Hall). intros [k2 v2] H12.
    by apply (cmp_lt_trans k k1 k2).
  - constructor; [by apply IH |]. apply Forall_forall. intros e [-> | He]%bt_insert_elem.
    + unfold key_lt. cbn. by rewrite (cmp_flip k k1), E.
    + by apply (proj1 (Forall_forall _ _) Hall).
Qed.
Lemma bt_insert_nonempty k v m : bt_insert k v m ≠ [].
Proof. destruct m as [| [k1 v1] m]; cbn; [done |]. by destruct (cmp k k1). Qed.

(** ** The canonical value is canonical *)

Definition value_ok (d : nat) (v : Json) : Prop := json_wf d v ∧ json_canonical v.
Lemma value_ok_integral d v : value_ok d v → integral v = true.
Proof.
  revert v. induction d as [| d IH]; intros v [Hw Hc]; inversion Hc as [| | ? _ Hi | ? _ _ He]; subst; try done; inversion Hw as [| | | | | ? ? Hwi | ? ? _ Hwe]; subst;
    cbn [integral]; apply forallb_forall; intros x Hx%list_elem_of_In; apply IH; split.
  - by apply (proj1 (Forall_forall _ _) Hwi).
  - by apply (proj1 (Forall_forall _ _) Hi).
  - by apply (proj1 (Forall_forall _ _) Hwe).
  - by apply (proj1 (Forall_forall _ _) He).
Qed.
Definition entries_ok (d : nat) (m : list (string * Json)) : Prop :=
  StronglySorted (key_lt fst) m ∧ Forall (λ e, text_ok e.1 ∧ value_ok d e.2) m.
Lemma entries_ok_nil d : entries_ok d [].
Proof. by repeat constructor. Qed.
Lemma entries_ok_insert d k v m : entries_ok d m → text_ok k → value_ok d v → entries_ok d (bt_insert k v m).
Proof.
  intros [Hs Hf] Hk Hv. split; [by apply bt_insert_sorted |]. apply Forall_forall. intros e [-> | He]%bt_insert_elem; [done |].
  by apply (proj1 (Forall_forall _ _) Hf).
Qed.
Lemma value_ok_object d m : m ≠ [] → entries_ok d m → value_ok (S d) (json_object m).
Proof.
  intros Hne [Hs Hf]. split; constructor; try done.
  - by apply (sorted_NoDup fst).
  - apply (Forall_impl _ _ _ Hf). by intros e (? & ? & ?).
  - apply (Forall_impl _ _ _ Hf). by intros e (? & ? & ?).
Qed.
Lemma value_ok_array d l : l ≠ [] → Forall (value_ok d) l → value_ok (S d) (JArray l).
Proof.
  intros Hne Hf. split; constructor; try done; apply (Forall_impl _ _ _ Hf); by intros v (? & ?).
Qed.
Lemma value_ok_string d s : text_ok s → value_ok d (JString s).
Proof. intros Hs. split; by constructor. Qed.
Lemma value_ok_list d l : l ≠ [] → (∀ d', Forall (value_ok (S d')) l) → value_ok (S (S d)) (scalar_or_list l).
Proof.
  intros Hne Hf. destruct l as [| v [| w l]]; [done | |]; cbn [scalar_or_list].
  - by apply (Forall_cons_1 _ _ _ (Hf (S d))).
  - apply value_ok_array; [done | apply Hf].
Qed.
Create HintDb confinement.
#[export] Hint Resolve entries_ok_nil entries_ok_insert value_ok_object value_ok_array value_ok_string value_ok_list
  bt_insert_nonempty : confinement.
#[export] Hint Extern 1 (text_ok _) => (vm_compute; reflexivity) : confinement.

Lemma port_value_ok d g : 1024 ≤ pg_bind g ≤ u16_max → (∀ a, pg_address g = Some a → text_ok a) →
  value_ok (S d) (port_canonical_value g).
Proof.
  intros Hb Ha. unfold port_canonical_value.
  assert (value_ok d (JUInt (pg_bind g))) as Hn by (split; constructor; unfold u16_max, u64_max in *; lia).
  destruct (pg_address g) as [a |]; apply value_ok_object; auto with confinement.
Qed.
Lemma fs_value_ok d g : path_ok (fs_path g) → value_ok (S d) (fs_value g).
Proof. intros (_ & _ & Ht). destruct g; cbn [fs_value fs_path] in *; auto 8 with confinement. Qed.
Lemma socket_value_ok d g : path_ok (socket_path g) → value_ok (S d) (socket_value g).
Proof. intros (_ & _ & Ht). destruct g; cbn [socket_value socket_mode socket_path] in *; auto 8 with confinement. Qed.

Lemma fmap_ok {A} (P : A → Prop) (f : A → Json) d l :
  (∀ a, P a → value_ok d (f a)) → Forall P l → Forall (value_ok d) (f <$> l).
Proof. intros Hf Hl. apply Forall_fmap. by apply (Forall_impl _ _ _ Hl). Qed.

Lemma entries_ok_opt {A} d (l : list A) k v r :
  entries_ok d r → text_ok k → (l ≠ [] → value_ok d v) → entries_ok d (match l with [] => r | _ => bt_insert k v r end).
Proof. intros Hr Hk Hv. destruct l; auto with confinement. Qed.

Lemma network_ok d m : manifest_wf m → entries_ok (S (S d)) (network_value m).
Proof.
  intros Hm. unfold network_value. apply entries_ok_opt; [apply entries_ok_opt | auto with confinement |]; [auto with confinement.. | |]; intros Hne.
  - apply value_ok_array; [by destruct (allow_hosts m) |].
    apply (fmap_ok _ _ _ _ (λ x Hx, value_ok_string _ x (proj2 Hx)) (mw_hosts m Hm)).
  - apply value_ok_list; [by destruct (connect_local m) |]. intros d'. refine (fmap_ok _ _ _ _ _ (mw_local m Hm)).
    intros x Hx. split; constructor. unfold u16_max, u64_max in *. lia.
Qed.
Lemma network_nonempty m : allow_hosts m ≠ [] ∨ connect_local m ≠ [] → network_value m ≠ [].
Proof.
  unfold network_value. destruct (allow_hosts m), (connect_local m); intros [?|?]; try done; apply bt_insert_nonempty.
Qed.
Lemma canonical_root_ok d m : manifest_wf m → entries_ok (S (S (S d))) (canonical_root m).
Proof.
  intros Hm. unfold canonical_root.
  apply entries_ok_opt; [apply entries_ok_opt | auto with confinement |]; [| auto with confinement | |].
  - assert (∀ r, entries_ok (S (S (S d))) r → entries_ok (S (S (S d)))
      (match allow_hosts m, connect_local m with [], [] => r | _, _ => bt_insert "network" (json_object (network_value m)) r end)) as Hnet.
    { intros r Hr. pose proof (network_nonempty m) as Hne. pose proof (network_ok d m Hm).
      destruct (allow_hosts m), (connect_local m); [done | |..]; auto 8 with confinement. }
    apply Hnet, entries_ok_opt; [| auto with confinement |].
    + destruct (credential_source m) as [uri |] eqn:Ec; [| auto with confinement].
      destruct (mw_credential m Hm uri Ec). auto 8 with confinement.
    + intros Hne. apply value_ok_object, entries_ok_insert; [auto with confinement.. |]. apply value_ok_array; [by destruct (fs_allow m) |].
      apply (fmap_ok _ _ _ _ (fs_value_ok d) (mw_fs m Hm)).
  - intros Hne. apply value_ok_object, entries_ok_insert; [auto with confinement.. |]. apply value_ok_array; [by destruct (unix_sockets m) |].
    apply (fmap_ok _ _ _ _ (socket_value_ok d) (mw_sockets m Hm)).
  - intros Hne. apply value_ok_list; [by destruct (ports m) |]. intros d'.
    refine (fmap_ok _ _ _ _ _ (mw_binds m Hm)). intros g [Hb Ha]. by apply port_value_ok.
Qed.
Lemma canonical_root_nonempty m : canonical_root m ≠ [].
Proof. unfold canonical_root. repeat case_match; apply bt_insert_nonempty. Qed.
Lemma canonical_value_ok m : manifest_wf m → value_ok RECURSION_LIMIT (canonical_value m).
Proof. intros Hm. apply value_ok_object; [apply canonical_root_nonempty | by apply (canonical_root_ok 123)]. Qed.

(** ** Parsing what was printed *)

(** Reading a key of the root. *)
Ltac root_get :=
  unfold canonical_root; cbv zeta;
  repeat match goal with |- context [match ?x with _ => _ end] =>
    match x with credential_source _ => destruct x | fs_allow _ => destruct x | allow_hosts _ => destruct x
               | connect_local _ => destruct x | unix_sockets _ => destruct x | ports _ => destruct x end end;
  rewrite !obj_get_insert; repeat (first [rewrite decide_True by done | rewrite decide_False by done]); reflexivity.
Lemma root_version m : obj_get (canonical_root m) "version" = Some (JString CONFINEMENT_SCHEMA_VERSION).
Proof. root_get. Qed.
Lemma root_credential m : obj_get (canonical_root m) "credentialSource" = JString <$> credential_source m.
Proof. root_get. Qed.
Lemma root_fs m : obj_get (canonical_root m) "fs"
  = match fs_allow m with [] => None | _ => Some (json_object (bt_insert "allow" (JArray (fs_value <$> fs_allow m)) [])) end.
Proof. root_get. Qed.
Lemma root_sockets m : obj_get (canonical_root m) "unixSocket"
  = match unix_sockets m with [] => None | _ => Some (json_object (bt_insert "allow" (JArray (socket_value <$> unix_sockets m)) [])) end.
Proof. root_get. Qed.
Lemma root_network m : obj_get (canonical_root m) "network"
  = match allow_hosts m, connect_local m with [], [] => None | _, _ => Some (json_object (network_value m)) end.
Proof. root_get. Qed.
Lemma root_ports m : obj_get (canonical_root m) "port"
  = match ports m with [] => None | _ => Some (scalar_or_list (port_canonical_value <$> ports m)) end.
Proof. root_get. Qed.
Lemma root_keys m : Forall (λ e, known_key e.1 = true) (canonical_root m).
Proof.
  assert (∀ k v r, known_key k = true → Forall (λ e, known_key e.1 = true) r → Forall (λ e, known_key e.1 = true) (bt_insert k v r)) as Hins.
  { intros k v r Hk Hr. apply Forall_forall. intros e [-> | He]%bt_insert_elem; [done |]. by apply (proj1 (Forall_forall _ _) Hr). }
  unfold canonical_root. repeat case_match; repeat (apply Hins; [by vm_compute |]); constructor.
Qed.

Lemma one_or_many_scalar l clause : l ≠ [] → Forall (λ v, as_array v = None) l → one_or_many (scalar_or_list l) clause = Ok l.
Proof.
  intros Hne Hf. destruct l as [| v [| w l]]; [done | | done]. apply Forall_cons in Hf as [Hv _].
  cbn [scalar_or_list]. by destruct v.
Qed.
Lemma vec_insert_end {E A} (l : list A) x : vec_insert (E := E) (length l) x l = Ok (l ++ [x]).
Proof. unfold vec_insert. by rewrite Nat.leb_refl, firstn_all, drop_all. Qed.

Section roundtrip.
Context `{Blake3, Fmt, JsonText}.

Lemma parse_credential_root m m0 : manifest_wf m →
  parse_credential (canonical_root m) m0
  = Ok (match credential_source m with Some uri => set_credential_source (Some uri) m0 | None => m0 end).
Proof.
  intros Hm. unfold parse_credential. rewrite root_credential. destruct (credential_source m) as [uri |] eqn:E; [| done].
  cbn. unfold with_credential_source. by destruct (mw_credential m Hm uri E) as [-> _].
Qed.
Lemma fold_fs gs m : Forall (λ g, path_ok (fs_path g)) gs →
  fold_result (λ m entry, grant ← fs_entry entry; with_fs_grant m grant) m (fs_value <$> gs) = Ok (set_fs_allow (fs_allow m ++ gs) m).
Proof.
  intros Hf. revert m. induction Hf as [| g gs (Ha & Ht & _) _ IH]; intros m; cbn [fold_result fmap list_fmap].
  - rewrite app_nil_r. by destruct m.
  - assert (fs_entry (fs_value g) = Ok g) as -> by (by destruct g). rewrite bind_Ok. unfold with_fs_grant. rewrite Ha, Ht.
    change (mret ?x) with (@Ok ExecutionError _ x). cbn [negb]. rewrite bind_Ok, IH. cbn. by rewrite <- app_assoc.
Qed.
Lemma fold_sockets gs m : Forall (λ g, path_ok (socket_path g)) gs →
  fold_result (λ m entry, grant ← socket_entry entry; with_unix_socket m grant) m (socket_value <$> gs)
  = Ok (set_unix_sockets (unix_sockets m ++ gs) m).
Proof.
  intros Hf. revert m. induction Hf as [| g gs (Ha & Ht & _) _ IH]; intros m; cbn [fold_result fmap list_fmap].
  - rewrite app_nil_r. by destruct m.
  - assert (socket_entry (socket_value g) = Ok g) as -> by (by destruct g). rewrite bind_Ok. unfold with_unix_socket. rewrite Ha, Ht.
    change (mret ?x) with (@Ok ExecutionError _ x). cbn [negb]. rewrite bind_Ok, IH. cbn. by rewrite <- app_assoc.
Qed.
Lemma fold_hosts hs m : Forall (λ h, host_ok h = true ∧ text_ok h) hs →
  fold_result host_step m (JString <$> hs) = Ok (set_allow_hosts (allow_hosts m ++ hs) m).
Proof.
  intros Hf. revert m. induction Hf as [| h hs [Ho _] _ IH]; intros m; cbn [fold_result fmap list_fmap].
  - rewrite app_nil_r. by destruct m.
  - assert (host_step m (JString h) = Ok (set_allow_hosts (allow_hosts m ++ [h]) m)) as ->
      by (unfold host_step, with_allowed_host; cbn; by rewrite Ho).
    rewrite bind_Ok, IH. cbn. by rewrite <- app_assoc.
Qed.
Lemma fold_local qs m : StronglySorted (key_lt id) (connect_local m ++ qs) → Forall (λ p, 1 ≤ p ≤ u16_max) qs →
  fold_result local_step m (JUInt <$> qs) = Ok (set_connect_local (connect_local m ++ qs) m).
Proof.
  intros Hs Hf. revert m Hs. induction Hf as [| q qs Hq _ IH]; intros m Hs; cbn [fold_result fmap list_fmap].
  - rewrite app_nil_r. by destruct m.
  - pose proof Hs as (Hcross & Hl & _)%StronglySorted_app.
    assert (local_step m (JUInt q) = Ok (set_connect_local (connect_local m ++ [q]) m)) as ->.
    { unfold local_step. cbn [as_u64 ok_or]. rewrite bind_Ok. unfold ensure. destruct (N.leb_spec q u16_max); [| lia]. rewrite bind_Ok.
      unfold with_connect_local. destruct (N.eqb_spec q 0); [lia |].
      rewrite (search_above id) by (first [done | intros x Hx; apply (Hcross x q); [done | left]]). by rewrite vec_insert_end. }
    rewrite bind_Ok, IH; cbn; by rewrite <- app_assoc.
Qed.
Lemma port_step_value m g : 1024 ≤ pg_bind g ≤ u16_max → port_step m (port_canonical_value g) = with_port_bind m (pg_bind g) (pg_address g).
Proof.
  intros Hb. unfold port_step. assert (is_object (port_canonical_value g) = true) as -> by (by destruct g as [b []]).
  assert (json_get (port_canonical_value g) "bind" ≫= as_u64 = Some (pg_bind g)) as -> by (by destruct g as [b []]).
  assert (json_get (port_canonical_value g) "address" ≫= as_str = pg_address g) as -> by (by destruct g as [b []]).
  cbn [ensure ok_or]. rewrite !bind_Ok. unfold ensure. destruct (N.leb_spec (pg_bind g) u16_max); [done | lia].
Qed.
Lemma fold_ports gs m : StronglySorted (key_lt canonical_order) (ports m ++ gs) →
  Forall (λ g, 1024 ≤ pg_bind g ≤ u16_max ∧ ∀ a, pg_address g = Some a → text_ok a) gs →
  fold_result port_step m (port_canonical_value <$> gs) = Ok (set_ports (ports m ++ gs) m).
Proof.
  intros Hs Hf. revert m Hs. induction Hf as [| g gs [Hg _] _ IH]; intros m Hs; cbn [fold_result fmap list_fmap].
  - rewrite app_nil_r. by destruct m.
  - pose proof Hs as (Hcross & Hl & _)%StronglySorted_app. rewrite port_step_value by done.
    assert (with_port_bind m (pg_bind g) (pg_address g) = Ok (set_ports (ports m ++ [g]) m)) as ->.
    { unfold with_port_bind. destruct (N.ltb_spec (pg_bind g) 1024); [lia |].
      replace {| pg_bind := pg_bind g; pg_address := pg_address g |} with g by (by destruct g). cbv zeta.
      rewrite (search_above canonical_order) by (first [done | intros x Hx; apply (Hcross x g); [done | left]]). by rewrite vec_insert_end. }
    rewrite bind_Ok, IH; cbn; by rewrite <- app_assoc.
Qed.

(** The stages, on what the canonical form of [m] holds. *)
Lemma parse_fs_root m m0 : manifest_wf m → fs_allow m0 = [] → parse_fs (canonical_root m) m0 = Ok (set_fs_allow (fs_allow m) m0).
Proof.
  intros Hm Hm0. unfold parse_fs. rewrite root_fs. destruct (fs_allow m) as [| g gs] eqn:E.
  - destruct m0. cbn in *. by subst.
  - rewrite <- E. cbn [json_get json_object]. rewrite obj_get_insert, decide_True by done. change (Some (JArray ?l) ≫= as_array) with (Some l). cbn [ok_or]. rewrite bind_Ok.
    rewrite fold_fs by apply (mw_fs m Hm). by rewrite Hm0.
Qed.
Lemma parse_sockets_root m m0 : manifest_wf m → unix_sockets m0 = [] →
  parse_sockets (canonical_root m) m0 = Ok (set_unix_sockets (unix_sockets m) m0).
Proof.
  intros Hm Hm0. unfold parse_sockets. rewrite root_sockets. destruct (unix_sockets m) as [| g gs] eqn:E.
  - destruct m0. cbn in *. by subst.
  - rewrite <- E. cbn [json_get json_object]. rewrite obj_get_insert, decide_True by done. change (Some (JArray ?l) ≫= as_array) with (Some l). cbn [ok_or]. rewrite bind_Ok.
    rewrite fold_sockets by apply (mw_sockets m Hm). by rewrite Hm0.
Qed.
Lemma network_hosts m : json_get (json_object (network_value m)) "allowHosts"
  = match allow_hosts m with [] => None | _ => Some (JArray (JString <$> allow_hosts m)) end.
Proof. cbn [json_get json_object]. unfold network_value. destruct (allow_hosts m), (connect_local m); by rewrite ?obj_get_insert. Qed.
Lemma network_local m : json_get (json_object (network_value m)) "connectLocal"
  = match connect_local m with [] => None | _ => Some (scalar_or_list (JUInt <$> connect_local m)) end.
Proof. cbn [json_get json_object]. unfold network_value. destruct (allow_hosts m), (connect_local m); by rewrite ?obj_get_insert. Qed.
Lemma parse_hosts_root m m0 : manifest_wf m → allow_hosts m0 = [] →
  parse_hosts (json_object (network_value m)) m0 = Ok (set_allow_hosts (allow_hosts m) m0).
Proof.
  intros Hm Hm0. unfold parse_hosts. rewrite network_hosts. destruct (allow_hosts m) as [| h hs] eqn:E.
  - destruct m0. cbn in *. by subst.
  - rewrite <- E. cbn [as_array ok_or]. rewrite bind_Ok, fold_hosts by apply (mw_hosts m Hm). by rewrite Hm0.
Qed.
Lemma parse_local_root m m0 : manifest_wf m → connect_local m0 = [] →
  parse_local (json_object (network_value m)) m0 = Ok (set_connect_local (connect_local m) m0).
Proof.
  intros Hm Hm0. unfold parse_local. rewrite network_local. destruct (connect_local m) as [| q qs] eqn:E.
  - destruct m0. cbn in *. by subst.
  - rewrite <- E, one_or_many_scalar; [| by rewrite E | apply Forall_fmap, Forall_true; done].
    rewrite bind_Ok, fold_local; rewrite ?Hm0; [done | apply (mw_local_sorted m Hm) | apply (mw_local m Hm)].
Qed.
Lemma parse_network_root m m0 : manifest_wf m → allow_hosts m0 = [] → connect_local m0 = [] →
  parse_network (canonical_root m) m0 = Ok (set_connect_local (connect_local m) (set_allow_hosts (allow_hosts m) m0)).
Proof.
  intros Hm Hh0 Hl0. unfold parse_network. rewrite root_network.
  assert (parse_hosts (json_object (network_value m)) m0 ≫= parse_local (json_object (network_value m))
    = Ok (set_connect_local (connect_local m) (set_allow_hosts (allow_hosts m) m0))) as Hboth.
  { rewrite parse_hosts_root, bind_Ok by done. by apply parse_local_root. }
  pose proof (network_hosts m) as Hh. pose proof (network_local m) as Hl.
  destruct (allow_hosts m) eqn:Eh, (connect_local m) eqn:El.
  - destruct m0. cbn in *. by subst.
  - rewrite (bool_decide_true (is_Some (json_get _ "connectLocal"))) by (rewrite Hl; eauto). by rewrite andb_false_r.
  - rewrite (bool_decide_true (is_Some (json_get _ "allowHosts"))) by (rewrite Hh; eauto). done.
  - rewrite (bool_decide_true (is_Some (json_get _ "allowHosts"))) by (rewrite Hh; eauto). done.
Qed.
Lemma parse_ports_root m m0 : manifest_wf m → ports m0 = [] → parse_ports (canonical_root m) m0 = Ok (set_ports (ports m) m0).
Proof.
  intros Hm Hm0. unfold parse_ports. rewrite root_ports. destruct (ports m) as [| g gs] eqn:E.
  - destruct m0. cbn in *. by subst.
  - rewrite <- E, one_or_many_scalar; [| by rewrite E | apply Forall_fmap, Forall_true; done].
    rewrite bind_Ok, fold_ports; rewrite ?Hm0; [done | apply (mw_ports m Hm) | apply (mw_binds m Hm)].
Qed.
Lemma parse_object_root m : manifest_wf m → parse_object (canonical_root m) = Ok m.
Proof.
  intros Hm. unfold parse_object.
  assert (check_keys (canonical_root m) = Ok tt) as ->.
  { unfold check_keys. generalize (root_keys m). induction (canonical_root m) as [| e l IH]; [done |].
    intros [He Hl]%Forall_cons. cbn [fold_result]. rewrite He. cbn [ensure]. rewrite bind_Ok. by apply IH. }
  assert (check_version (canonical_root m) = Ok tt) as -> by (unfold check_version; by rewrite root_version).
  rewrite !bind_Ok, parse_credential_root by done. rewrite bind_Ok.
  rewrite parse_fs_root, bind_Ok by (try done; by destruct (credential_source m)).
  rewrite parse_sockets_root, bind_Ok by (try done; by destruct (credential_source m)).
  rewrite parse_network_root, bind_Ok by (try done; by destruct (credential_source m)).
  rewrite parse_ports_root by (try done; by destruct (credential_source m)).
  destruct m as [[uri |] ? ? ? ? ?]; done.
Qed.

Lemma printed_parses `{!JsonTextLaws} m : manifest_wf m → ∃ doc, to_canonical_json m = Ok doc ∧ parse doc = Ok m.
Proof.
  intros Hm. pose proof (canonical_value_ok m Hm) as Hv. pose proof (value_ok_integral _ _ Hv) as Hi. destruct Hv as [Hwf _].
  destruct (pretty_total _ Hwf Hi) as [doc Hdoc]. exists doc. unfold to_canonical_json, parse. rewrite Hdoc. rewrite (pretty_parses _ _ Hwf Hi Hdoc).
  split; [done |]. cbn [map_err]. rewrite bind_Ok. by apply parse_object_root.
Qed.
End roundtrip.

(** ** Builders and parsing keep the invariant *)

Definition jtext (v : Json) : Prop := ∃ d, json_wf d v.
Lemma jtext_json_get v k w : jtext v → json_get v k = Some w → jtext w.
Proof.
  intros [d Hd] Hg. destruct v as [| | | | | | entries]; try done. inversion Hd as [| | | | | | d' ? _ Hf]; subst. cbn in Hg.
  unfold obj_get in Hg. destruct (List.find _ entries) as [e |] eqn:E; [| done]. injection Hg as <-.
  apply find_some in E as [Hin _]. apply list_elem_of_In in Hin. exists d'. by apply (proj1 (Forall_forall _ _) Hf) in Hin as [_ ?].
Qed.
Lemma jtext_get entries k w : jtext (JObject entries) → obj_get entries k = Some w → jtext w.
Proof. intros Hj Hg. by apply (jtext_json_get (JObject entries) k). Qed.
Lemma jtext_str v s : jtext v → as_str v = Some s → text_ok s.
Proof. intros [d Hd] Hs. destruct v; try done. injection Hs as <-. by inversion Hd. Qed.
Lemma jtext_array v l x : jtext v → as_array v = Some l → x ∈ l → jtext x.
Proof.
  intros [d Hd] Hl Hx. destruct v; try done. injection Hl as <-. inversion Hd as [| | | | | d' ? Hf |]; subst. exists d'.
  by apply (proj1 (Forall_forall _ _) Hf).
Qed.
Lemma jtext_many v clause l x : jtext v → one_or_many v clause = Ok l → x ∈ l → jtext x.
Proof.
  intros Hv Hl Hx. unfold one_or_many in Hl. destruct v as [| | | | | [| y items] |]; try (injection Hl as <-); try done;
    try (apply list_elem_of_singleton in Hx; by subst). by apply (jtext_array (JArray (y :: items)) (y :: items) x).
Qed.
Lemma jtext_bind_str o s : (∀ v, o = Some v → jtext v) → o ≫= as_str = Some s → text_ok s.
Proof. intros Ho Hs. destruct o as [v |]; [| done]. cbn in Hs. by apply (jtext_str v); [apply Ho |]. Qed.
Lemma jtext_bind_array o l x : (∀ v, o = Some v → jtext v) → o ≫= as_array = Some l → x ∈ l → jtext x.
Proof. intros Ho Hs. destruct o as [v |]; [| done]. cbn in Hs. apply (jtext_array v l x); [by apply Ho | done]. Qed.
Lemma ok_or_ok {E A} (o : option A) (e : E) a : ok_or o e = Ok a → o = Some a.
Proof. destruct o; cbn; congruence. Qed.

Section builders_wf.
Context `{Fmt}.
#[local] Ltac builder :=
  match goal with Hok : (if ?b then Err _ else _) = Ok _ |- _ => let E := fresh "E" in destruct b eqn:E; [discriminate Hok |] end.

Lemma manifest_new_wf : manifest_wf manifest_new.
Proof. split; cbn; try done; constructor. Qed.
Lemma with_credential_source_wf m uri m' : manifest_wf m → text_ok uri → with_credential_source m uri = Ok m' → manifest_wf m'.
Proof.
  intros Hm Hu Hok. unfold with_credential_source in Hok. builder. injection Hok as <-. destruct Hm. split; cbn; try done.
  intros u [= <-]. split; [| done]. by apply negb_false_iff.
Qed.
Lemma with_fs_grant_wf m g m' : manifest_wf m → text_ok (fs_path g) → with_fs_grant m g = Ok m' → manifest_wf m'.
Proof.
  intros Hm Hu Hok. unfold with_fs_grant in Hok. builder. builder. injection Hok as <-. destruct Hm. split; cbn; try done.
  apply Forall_app. split; [done |]. constructor; [| constructor]. split_and!; [by apply negb_false_iff | done..].
Qed.
Lemma with_unix_socket_wf m g m' : manifest_wf m → text_ok (socket_path g) → with_unix_socket m g = Ok m' → manifest_wf m'.
Proof.
  intros Hm Hu Hok. unfold with_unix_socket in Hok. builder. builder. injection Hok as <-. destruct Hm. split; cbn; try done.
  apply Forall_app. split; [done |]. constructor; [| constructor]. split_and!; [by apply negb_false_iff | done..].
Qed.
Lemma with_allowed_host_wf m h m' : manifest_wf m → text_ok h → with_allowed_host m h = Ok m' → manifest_wf m'.
Proof.
  intros Hm Hu Hok. unfold with_allowed_host in Hok. builder. injection Hok as <-. destruct Hm. split; cbn; try done.
  apply Forall_app. split; [done |]. constructor; [| constructor]. split; [by apply negb_false_iff | done].
Qed.

(** What a list builder does: it refuses a key that is held, and otherwise adds the
    element in its place. *)
Lemma with_port_bind_ok m bind address m' : StronglySorted (key_lt canonical_order) (ports m) →
  with_port_bind m bind address = Ok m' →
  1024 ≤ bind ∧ canonical_order {| pg_bind := bind; pg_address := address |} ∉ canonical_order <$> ports m
  ∧ ∃ ps, m' = set_ports ps m ∧ StronglySorted (key_lt canonical_order) ps
      ∧ ps ≡ₚ {| pg_bind := bind; pg_address := address |} :: ports m.
Proof.
  intros Hs Hok. unfold with_port_bind in Hok. destruct (N.ltb_spec bind 1024) as [| Hb]; [done |]. cbv zeta in Hok.
  set (g := {| pg_bind := bind; pg_address := address |}) in *.
  pose proof (search_decides canonical_order (canonical_order g) (ports m) Hs) as Hdec.
  destruct (search_key _ _ _) as [i | at_ |] eqn:E; [by destruct (ports m !! i) | | done].
  apply bind_ok in Hok as (ps & Hv & [= <-]). destruct (insert_sorted _ _ _ _ _ _ Hs eq_refl E Hv) as [Hs' Hp].
  split_and!; [done | | by exists ps]. intros Hin. by apply Hdec in Hin.
Qed.
Lemma with_connect_local_ok m port m' : StronglySorted (key_lt id) (connect_local m) → with_connect_local m port = Ok m' →
  port ≠ 0 ∧ port ∉ connect_local m
  ∧ ∃ ps, m' = set_connect_local ps m ∧ StronglySorted (key_lt id) ps ∧ ps ≡ₚ port :: connect_local m.
Proof.
  intros Hs Hok. unfold with_connect_local in Hok. destruct (N.eqb_spec port 0) as [| Hb]; [done |].
  pose proof (search_decides id port (connect_local m) Hs) as Hdec. rewrite list_fmap_id in Hdec.
  destruct (search_key _ _ _) as [i | at_ |] eqn:E; [done | | done].
  apply bind_ok in Hok as (ps & Hv & [= <-]). destruct (insert_sorted _ _ _ _ _ _ Hs eq_refl E Hv) as [Hs' Hp].
  split_and!; [done | | by exists ps]. intros Hin. by apply Hdec in Hin.
Qed.
Lemma with_port_bind_wf m bind address m' : manifest_wf m → bind ≤ u16_max → (∀ a, address = Some a → text_ok a) →
  with_port_bind m bind address = Ok m' → manifest_wf m'.
Proof.
  intros Hm Hb Ha Hok. apply with_port_bind_ok in Hok as (Hlow & _ & ps & -> & Hs & Hp); [| apply Hm].
  destruct Hm. split; cbn; try done. rewrite Hp. constructor; [| done]. cbn. split; [lia | done].
Qed.
Lemma with_connect_local_wf m port m' : manifest_wf m → port ≤ u16_max → with_connect_local m port = Ok m' → manifest_wf m'.
Proof.
  intros Hm Hb Hok. apply with_connect_local_ok in Hok as (Hlow & _ & ps & -> & Hs & Hp); [| apply Hm].
  destruct Hm. split; cbn; try done. rewrite Hp. constructor; [lia | done].
Qed.
End builders_wf.

Section parsed.
Context `{Blake3, Fmt, JsonText}.

Lemma parse_credential_wf entries m m' : jtext (JObject entries) → manifest_wf m → parse_credential entries m = Ok m' → manifest_wf m'.
Proof.
  intros Hj Hm Hok. unfold parse_credential in Hok. destruct (obj_get entries _) as [v |] eqn:E; [| result_inv; by subst].
  apply bind_ok in Hok as (s & Hs%ok_or_ok & Hok). eapply with_credential_source_wf; [done | | done].
  eapply jtext_str; [by eapply jtext_get | done].
Qed.
Lemma fs_entry_text v g : jtext v → fs_entry v = Ok g → text_ok (fs_path g).
Proof.
  intros Hj Hok. destruct v as [| | | | s | | map]; try done.
  - injection Hok as <-. by apply (jtext_str (JString s)).
  - cbn [fs_entry] in Hok. apply bind_ok in Hok as (p & Hp%ok_or_ok & Hok). case_bool_decide; [| done]. injection Hok as <-.
    eapply jtext_bind_str; [| done]. intros v Hv. by apply (jtext_get map "path").
Qed.
Lemma socket_entry_text v g : jtext v → socket_entry v = Ok g → text_ok (socket_path g).
Proof.
  intros Hj Hok. destruct v as [| | | | s | | map]; try done.
  - injection Hok as <-. by apply (jtext_str (JString s)).
  - cbn [socket_entry] in Hok. apply bind_ok in Hok as (p & Hp%ok_or_ok & Hok).
    assert (text_ok p) as Ht by (eapply jtext_bind_str; [| done]; intros v Hv; by apply (jtext_get map "path")).
    case_bool_decide; [by injection Hok as <- |]. case_bool_decide; [by injection Hok as <- | done].
Qed.
Lemma parse_fs_wf entries m m' : jtext (JObject entries) → manifest_wf m → parse_fs entries m = Ok m' → manifest_wf m'.
Proof.
  intros Hj Hm Hok. unfold parse_fs in Hok. destruct (obj_get entries _) as [v |] eqn:E; [| result_inv; by subst].
  apply bind_ok in Hok as (l & Hl%ok_or_ok & Hok). revert Hok. apply (fold_result_inv manifest_wf); [done |].
  intros m1 e m2 He Hm1 (g & Hg & Hw)%bind_ok. eapply with_fs_grant_wf; [done | | done]. eapply fs_entry_text; [| done].
  eapply jtext_bind_array; [| done..]. intros w Hw'. eapply jtext_json_get; [| done]. by eapply jtext_get.
Qed.
Lemma parse_sockets_wf entries m m' : jtext (JObject entries) → manifest_wf m → parse_sockets entries m = Ok m' → manifest_wf m'.
Proof.
  intros Hj Hm Hok. unfold parse_sockets in Hok. destruct (obj_get entries _) as [v |] eqn:E; [| result_inv; by subst].
  apply bind_ok in Hok as (l & Hl%ok_or_ok & Hok). revert Hok. apply (fold_result_inv manifest_wf); [done |].
  intros m1 e m2 He Hm1 (g & Hg & Hw)%bind_ok. eapply with_unix_socket_wf; [done | | done]. eapply socket_entry_text; [| done].
  eapply jtext_bind_array; [| done..]. intros w Hw'. eapply jtext_json_get; [| done]. by eapply jtext_get.
Qed.
Lemma parse_network_wf entries m m' : jtext (JObject entries) → manifest_wf m → parse_network entries m = Ok m' → manifest_wf m'.
Proof.
  intros Hj Hm Hok. unfold parse_network in Hok. destruct (obj_get entries _) as [v |] eqn:E; [| result_inv; by subst].
  destruct (negb _ && negb _); [done |]. apply bind_ok in Hok as (m1 & Hh & Hl).
  assert (jtext v) as Hv by (by eapply jtext_get). assert (manifest_wf m1) as Hm1.
  { unfold parse_hosts in Hh. destruct (json_get v "allowHosts") as [h |] eqn:Eh; [| result_inv; by subst].
    apply bind_ok in Hh as (l & Hl'%ok_or_ok & Hh). revert Hh. apply (fold_result_inv manifest_wf); [done |].
    intros m2 e m3 He Hm2 (s & Hs%ok_or_ok & Hw)%bind_ok. eapply with_allowed_host_wf; [done | | done].
    eapply jtext_str; [| done]. eapply jtext_array; [| done..]. by eapply jtext_json_get. }
  unfold parse_local in Hl. destruct (json_get v "connectLocal") as [p |] eqn:Ep; [| result_inv; by subst].
  apply bind_ok in Hl as (l & _ & Hl). revert Hl. apply (fold_result_inv manifest_wf); [done |].
  intros m2 e m3 He Hm2 Hw. unfold local_step in Hw. result_inv. eapply with_connect_local_wf; [done | | done]. by apply N.leb_le.
Qed.
Lemma parse_ports_wf entries m m' : jtext (JObject entries) → manifest_wf m → parse_ports entries m = Ok m' → manifest_wf m'.
Proof.
  intros Hj Hm Hok. unfold parse_ports in Hok. destruct (obj_get entries _) as [v |] eqn:E; [| result_inv; by subst].
  apply bind_ok in Hok as (l & Hl & Hok). revert Hok. apply (fold_result_inv manifest_wf); [done |].
  intros m1 e m2 He Hm1 Hw. unfold port_step in Hw. result_inv. eapply with_port_bind_wf; [done | by apply N.leb_le | | done].
  intros a Ha. eapply jtext_bind_str; [| done]. intros w. apply jtext_json_get.
  eapply jtext_many; [| done..]. by eapply jtext_get.
Qed.
Lemma parse_wf `{!JsonTextLaws} doc m : parse doc = Ok m → manifest_wf m.
Proof.
  intros Hok. unfold parse in Hok. apply bind_ok in Hok as (v & Hv & Hok).
  destruct (json_from_str doc) as [v' | |] eqn:Ev; [| done..]. injection Hv as ->.
  destruct v as [| | | | | | entries]; try done. assert (jtext (JObject entries)) as Hj by (eexists; by eapply parsed_wf).
  unfold parse_object in Hok. result_inv.
  eapply parse_ports_wf, Hok; [done |]. eapply parse_network_wf; [done | | done]. eapply parse_sockets_wf; [done | | done].
  eapply parse_fs_wf; [done | | done]. eapply parse_credential_wf; [done | apply manifest_new_wf | done].
Qed.

(** No builder panics: the index is in range and so is the insertion point. *)
Lemma vec_insert_no_panic {E A} at_ (x : A) l : (at_ ≤ length l)%nat → vec_insert (E := E) at_ x l ≠ Panic.
Proof. intros Hle. unfold vec_insert. apply Nat.leb_le in Hle. by rewrite Hle. Qed.
Lemma with_port_bind_no_panic m bind address : with_port_bind m bind address ≠ Panic.
Proof.
  unfold with_port_bind. destruct (bind <? 1024); [done |]. cbv zeta.
  set (g := {| pg_bind := bind; pg_address := address |}).
  pose proof (binary_search_bound (λ held, cmp (canonical_order held) (canonical_order g)) (ports m)) as Hb.
  unfold search_key. destruct (binary_search_by _ _) as [i | at_ |]; [| | done].
  - by destruct (lookup_lt_is_Some_2 _ _ Hb) as [held ->].
  - pose proof (vec_insert_no_panic (E := ExecutionError) at_ g (ports m) Hb). by destruct (vec_insert _ _ _).
Qed.
Lemma with_connect_local_no_panic m port : with_connect_local m port ≠ Panic.
Proof.
  unfold with_connect_local. destruct (port =? 0); [done |].
  pose proof (binary_search_bound (λ held, cmp (id held) port) (connect_local m)) as Hb.
  unfold search_key. destruct (binary_search_by _ _) as [i | at_ |]; [done | | done].
  pose proof (vec_insert_no_panic (E := ExecutionError) at_ port (connect_local m) Hb). by destruct (vec_insert _ _ _).
Qed.
End parsed.

Section theorems.
Context `{Blake3, Fmt, JsonText}.

Lemma bind_not_panic {E A B} (r : result E A) (f : A → result E B) : r ≠ Panic → (∀ a, f a ≠ Panic) → r ≫= f ≠ Panic.
Proof. intros Hr Hf. destruct r; [apply Hf | done..]. Qed.
Lemma parse_no_panic `{!JsonTextLaws} doc : parse doc ≠ Panic.
Proof.
  assert (∀ A (o : option A) (e : ExecutionError), ok_or o e ≠ Panic) as Hok by (by intros ? []).
  assert (∀ v c, one_or_many v c ≠ Panic) as Hmany by (intros [| | | | | [] |] c; done).
  assert (∀ v, fs_entry v ≠ Panic) as Hfs.
  { intros []; try done. apply bind_not_panic; [apply Hok |]. intros p. cbv zeta. by case_match. }
  assert (∀ v, socket_entry v ≠ Panic) as Hso.
  { intros []; try done. apply bind_not_panic; [apply Hok |]. intros p. cbv zeta. repeat case_match; done. }
  apply bind_not_panic.
  { pose proof (from_str_total doc). by destruct (json_from_str doc). }
  intros [| | | | | | entries]; try done.
  unfold parse_object, check_keys, check_version, parse_credential, parse_fs, parse_sockets, parse_network, parse_hosts, parse_local, parse_ports,
    host_step, local_step, port_step, with_credential_source, with_fs_grant, with_unix_socket, with_allowed_host.
  pose proof with_port_bind_no_panic. pose proof with_connect_local_no_panic.
  repeat first
    [ done | apply Hok | apply Hmany | apply Hfs | apply Hso | apply ensure_not_panic | apply with_port_bind_no_panic
    | apply with_connect_local_no_panic | apply bind_not_panic; [| intros ?] | apply fold_no_panic; intros ? ? | case_match ].
Qed.

(** C33: parsing never panics, and a parsed manifest is one the builders make: its
    credential scheme is closed over, its paths are absolute and do not traverse, its
    hosts are well formed, its listeners are unprivileged and name each socket once in
    canonical order, and its local ports ascend without repetition. *)
Theorem parsed_manifest_wf `{!JsonTextLaws} doc : parse doc ≠ Panic ∧ ∀ m, parse doc = Ok m → manifest_wf m.
Proof. split; [apply parse_no_panic | intros m; apply parse_wf]. Qed.

(** C31: a manifest and its document are one.  Every manifest the builders can make has
    a canonical text, whose keys ascend at every level and where nothing absent is
    spelled out, and parsing it gives exactly the manifest back; so does parsing the
    canonical text of whatever was parsed. *)
Theorem manifest_document_roundtrip `{!JsonTextLaws} m : manifest_wf m ∨ (∃ doc, parse doc = Ok m) →
  json_canonical (canonical_value m) ∧ ∃ text, to_canonical_json m = Ok text ∧ parse text = Ok m.
Proof.
  intros Hm. assert (manifest_wf m) as Hwf by (destruct Hm as [| (doc & Hdoc)]; [done | by eapply parse_wf]).
  split; [by apply canonical_value_ok | by apply printed_parses].
Qed.

(** ** The order of declarations *)

(** Declaring listeners one after the other. *)
Definition bind_all (m : ConfinementManifest) (gs : list PortGrant) : result ExecutionError ConfinementManifest :=
  fold_result (λ m g, with_port_bind m (pg_bind g) (pg_address g)) m gs.
Lemma bind_all_ok gs m m' : StronglySorted (key_lt canonical_order) (ports m) → bind_all m gs = Ok m' →
  ∃ ps, m' = set_ports ps m ∧ StronglySorted (key_lt canonical_order) ps ∧ ps ≡ₚ gs ++ ports m.
Proof.
  revert m. induction gs as [| g gs IH]; intros m Hs; cbn [bind_all fold_result].
  - intros [= <-]. exists (ports m). split_and!; [by destruct m | done..].
  - intros (m1 & Hb1 & Hb2)%bind_ok. apply with_port_bind_ok in Hb1 as (_ & _ & ps & -> & Hs1 & Hp1); [| done].
    apply IH in Hb2 as (ps' & -> & Hs2 & Hp2); [| done]. exists ps'. split_and!; [by destruct m | done |].
    cbn in Hp2. rewrite Hp2, Hp1. destruct g. cbn. by rewrite <- Permutation_middle.
Qed.
Lemma bind_all_total gs m : StronglySorted (key_lt canonical_order) (ports m) → Forall (λ g, 1024 ≤ pg_bind g) gs →
  NoDup (canonical_order <$> gs ++ ports m) → ∃ m', bind_all m gs = Ok m'.
Proof.
  revert m. induction gs as [| g gs IH]; intros m Hs Hf Hnd; cbn [bind_all fold_result]; [eauto |].
  apply Forall_cons in Hf as [Hg Hf]. assert (∃ m1, with_port_bind m (pg_bind g) (pg_address g) = Ok m1) as [m1 E1].
  { unfold with_port_bind. destruct (N.ltb_spec (pg_bind g) 1024); [lia |]. cbv zeta.
    replace {| pg_bind := pg_bind g; pg_address := pg_address g |} with g by (by destruct g).
    pose proof (search_decides canonical_order (canonical_order g) (ports m) Hs) as Hdec.
    pose proof (search_total canonical_order (canonical_order g) (ports m)) as [i [Hi | Hi]]; rewrite Hi in *.
    - exfalso. rewrite <- app_comm_cons, fmap_cons, NoDup_cons in Hnd. destruct Hnd as [Hnin _]. apply Hnin. rewrite fmap_app, elem_of_app. right. by apply Hdec.
    - destruct (search_insert _ _ _ _ Hs Hi) as [Hle _]. unfold vec_insert. apply Nat.leb_le in Hle. rewrite Hle. eauto. }
  rewrite E1, bind_Ok. apply with_port_bind_ok in E1 as (_ & _ & ps & -> & Hs1 & Hp1); [| done].
  apply IH; [done.. |]. cbn. rewrite Hp1. replace {| pg_bind := pg_bind g; pg_address := pg_address g |} with g by (by destruct g).
  by rewrite <- Permutation_middle.
Qed.
(** The order of the calls does not reach the manifest, nor its digest. *)
Lemma bind_order_irrelevant m gs gs' m' : StronglySorted (key_lt canonical_order) (ports m) → gs ≡ₚ gs' →
  bind_all m gs = Ok m' → bind_all m gs' = Ok m'.
Proof.
  intros Hs Hp Hok. apply bind_all_ok in Hok as Hok'; [| done]. destruct Hok' as (ps & -> & Hs1 & Hp1).
  assert (Forall (λ g, 1024 ≤ pg_bind g) gs) as Hf.
  { clear Hp Hp1. revert m Hs Hok. induction gs as [| g gs IH]; intros m Hs; cbn [bind_all fold_result]; [done |].
    intros (m1 & Hb1 & Hb2)%bind_ok. apply with_port_bind_ok in Hb1 as (Hg & _ & ps1 & -> & Hs2 & _); [| done].
    constructor; [done |]. apply (IH (set_ports ps1 m)); [done |]. etrans; [exact Hb2 |]. by destruct m. }
  destruct (bind_all_total gs' m) as [m2 E2]; [done | by rewrite <- Hp | |].
  { rewrite <- Hp, <- Hp1. by apply sorted_NoDup. }
  rewrite E2. apply bind_all_ok in E2 as (ps2 & -> & Hs2 & Hp2); [| done]. do 2 f_equal.
  apply (sorted_unique canonical_order); [done.. |]. by rewrite Hp2, Hp1, Hp.
Qed.

(** ** Meet *)

(** Permitting no more: the same policy in every dimension without a meet, and no
    grant of the other two that the wider one does not hold. *)
Definition within (m m' : ConfinementManifest) : Prop :=
  fs_allow m = fs_allow m' ∧ allow_hosts m = allow_hosts m' ∧ credential_source m = credential_source m'
  ∧ unix_sockets m = unix_sockets m' ∧ ports m ⊆ ports m' ∧ connect_local m ⊆ connect_local m'.
Lemma within_antisym m m' : manifest_wf m → manifest_wf m' → within m m' → within m' m → m = m'.
Proof.
  intros Hm Hm' (Hf & Hh & Hc & Hs & Hp & Hl) (_ & _ & _ & _ & Hp' & Hl').
  assert (∀ A K `{CmpLaws K} (key : A → K) (l l' : list A), StronglySorted (key_lt key) l → StronglySorted (key_lt key) l' →
    l ⊆ l' → l' ⊆ l → l = l') as Heq.
  { intros A K ? ? key l l' Hsl Hsl' H12 H21. apply (sorted_unique key); [done.. |].
    apply NoDup_Permutation; [by apply (NoDup_fmap_1 key), sorted_NoDup.. | set_solver]. }
  destruct m, m'; cbn in *. subst. f_equal.
  - by apply (Heq _ _ _ _ canonical_order); [apply Hm | apply Hm' | |].
  - by apply (Heq _ _ _ _ id); [apply Hm | apply Hm' | |].
Qed.
Lemma meet_spec m other : manifest_wf m → manifest_wf other →
  match meet m other with
  | Ok c => fs_allow c = fs_allow m ∧ allow_hosts c = allow_hosts m ∧ credential_source c = credential_source m
      ∧ unix_sockets c = unix_sockets m
      ∧ fs_allow m = fs_allow other ∧ allow_hosts m = allow_hosts other ∧ credential_source m = credential_source other
      ∧ unix_sockets m = unix_sockets other
      ∧ ports c = filter (.∈ ports other) (ports m) ∧ connect_local c = filter (.∈ connect_local other) (connect_local m)
  | Err _ => ¬ (fs_allow m = fs_allow other ∧ allow_hosts m = allow_hosts other ∧ credential_source m = credential_source other
      ∧ unix_sockets m = unix_sockets other)
  | Panic => False
  end.
Proof.
  intros Hm Ho. unfold meet. repeat case_bool_decide; cbn [app]; try naive_solver.
  cbn. split_and!; try done; apply list_filter_iff; intros x.
  - rewrite existsb_exists. setoid_rewrite bool_decide_eq_true. setoid_rewrite <- list_elem_of_In. naive_solver.
  - rewrite (search_decides id) by apply Ho. by rewrite list_fmap_id.
Qed.
Lemma filter_wf m ps qs : manifest_wf m → ∀ P Q `{∀ x, Decision (P x), ∀ x, Decision (Q x)},
  ps = filter P (ports m) → qs = filter Q (connect_local m) → manifest_wf (set_connect_local qs (set_ports ps m)).
Proof.
  intros [] P Q ? ? -> ->. split; cbn; try done.
  - by apply StronglySorted_filter.
  - apply Forall_forall. intros g [_ Hg]%list_elem_of_filter. by apply (proj1 (Forall_forall _ _) mw_binds0).
  - by apply StronglySorted_filter.
  - apply Forall_forall. intros g [_ Hg]%list_elem_of_filter. by apply (proj1 (Forall_forall _ _) mw_local0).
Qed.
Lemma meet_wf m other c : manifest_wf m → manifest_wf other → meet m other = Ok c → manifest_wf c.
Proof.
  intros Hm Ho Hok. pose proof (meet_spec m other Hm Ho) as Hs. rewrite Hok in Hs. unfold meet in Hok.
  destruct (_ ++ _) in Hok; [| done]. injection Hok as <-. by eapply filter_wf.
Qed.
Lemma meet_glb m other c : manifest_wf m → manifest_wf other → meet m other = Ok c →
  within c m ∧ within c other ∧ ∀ d, within d m → within d other → within d c.
Proof.
  intros Hm Ho Hok. pose proof (meet_spec m other Hm Ho) as Hs. rewrite Hok in Hs.
  destruct Hs as (Hf & Hh & Hc & Hs & Hf' & Hh' & Hc' & Hs' & Hp & Hl).
  unfold within. rewrite Hp, Hl. split_and!; try congruence; try (intros x [? ?]%list_elem_of_filter; done).
  intros d (? & ? & ? & ? & Hpd & Hld) (_ & _ & _ & _ & Hpd' & Hld'). split_and!; try congruence.
  - intros x Hx. apply list_elem_of_filter. auto.
  - intros x Hx. apply list_elem_of_filter. auto.
Qed.

(** C32: meet is the greatest lower bound.  It never panics, it is defined exactly when
    some policy is within both operands, what it returns is well formed, within both
    and above every policy within both, and it is commutative and idempotent. *)
Theorem meet_is_greatest_lower_bound m other : manifest_wf m → manifest_wf other →
  meet m other ≠ Panic
  ∧ ((∃ c, meet m other = Ok c) ↔ ∃ d, within d m ∧ within d other)
  ∧ (∀ c, meet m other = Ok c → manifest_wf c ∧ within c m ∧ within c other ∧ (∀ d, within d m → within d other → within d c)
       ∧ meet other m = Ok c)
  ∧ meet m m = Ok m.
Proof.
  intros Hm Ho. pose proof (meet_spec m other Hm Ho) as Hs.
  assert (∀ a b, manifest_wf a → manifest_wf b → (∃ d, within d a ∧ within d b) → ∃ c, meet a b = Ok c) as Hdef.
  { intros a b Ha Hb (d & (? & ? & ? & ? & _) & (? & ? & ? & ? & _)). pose proof (meet_spec a b Ha Hb) as Hab.
    destruct (meet a b) as [c | |]; [by exists c | | done]. destruct Hab. split_and!; congruence. }
  split_and!.
  - intros Hp. by rewrite Hp in Hs.
  - split; [| by apply Hdef]. intros (c & Hc). exists c. by destruct (meet_glb m other c Hm Ho Hc) as (? & ? & _).
  - intros c Hc. destruct (meet_glb m other c Hm Ho Hc) as (H1' & H2' & Hg). split; [by eapply (meet_wf m other) |]. split; [done |]. split; [done |]. split; [done |].
    destruct (Hdef other m Ho Hm) as [c' Hc']; [by exists c |]. destruct (meet_glb other m c' Ho Hm Hc') as (H3' & H4' & Hg').
    rewrite Hc'. f_equal. apply within_antisym; [by eapply (meet_wf other m) | by eapply (meet_wf m other) | by apply Hg | by apply Hg'].
  - assert (within m m) as Hr by done. destruct (Hdef m m Hm Hm) as [c Hc]; [by exists m |]. rewrite Hc. f_equal.
    destruct (meet_glb m m c Hm Hm Hc) as (? & _ & Hg). apply within_antisym; [by eapply (meet_wf m m) | done | done | by apply Hg].
Qed.

(** ** Digests *)

Lemma digest_name_inj l l' : digest_name l = digest_name l' → l = l' ∨ collision blake3 l l'.
Proof. unfold digest_name. intros [= Hd]. apply eq_or_collision. by apply as_bytes_inj, hex_bytes_inj. Qed.
Lemma digest_names_manifest `{!JsonTextLaws} m m' d : manifest_wf m → manifest_wf m' →
  confinement_digest m = Ok d → confinement_digest m' = Ok d →
  ∃ doc doc', to_canonical_json m = Ok doc ∧ to_canonical_json m' = Ok doc'
    ∧ (m = m' ∨ collision blake3 (bytes_of doc) (bytes_of doc')).
Proof.
  intros Hm Hm' Hd Hd'. unfold confinement_digest in Hd, Hd'.
  destruct (printed_parses m Hm) as (doc & Hdoc & Hp).
  destruct (printed_parses m' Hm') as (doc' & Hdoc' & Hp').
  rewrite Hdoc, bind_Ok in Hd. rewrite Hdoc', bind_Ok in Hd'. injection Hd as Hd. injection Hd' as Hd'.
  exists doc, doc'. split_and!; [done.. |]. rewrite <- Hd' in Hd. destruct (digest_name_inj _ _ Hd) as [Heq | Hcol]; [left | by right].
  apply bytes_of_inj in Heq. congruence.
Qed.

(** The policy a grant carries is the policy that is enforced.  When an authorized
    grant carries a confinement document and a backend's manifest matches the digest the
    grant commits to, the document parses to exactly that manifest, unless the canonical
    texts of the two are an explicit collision of the hash. *)
Theorem carried_policy_is_enforced `{!JsonTextLaws, !Capnp} clock sb gb policy verifier a doc m :
  authorize_with_verifier clock sb gb policy verifier = Ok a → au_confinement_manifest a = Some doc →
  manifest_wf m → assert_matches m (au_confinement_digest a) = Ok tt →
  parse doc = Ok m
  ∨ ∃ carried text text', parse doc = Ok carried ∧ to_canonical_json carried = Ok text ∧ to_canonical_json m = Ok text'
      ∧ collision blake3 (bytes_of text) (bytes_of text').
Proof.
  intros Ha Hdoc Hm Hmatch. destruct (authorize_granted _ _ _ _ _ _ Ha) as (? & ? & ? & ? & _ & _ & _ & _ & Hg).
  destruct (gd_confined _ _ _ _ _ _ _ _ Hg) as [_ Hc]. destruct (Hc doc Hdoc) as (carried & Hparse & Hdig). cbn in Hparse, Hdig.
  unfold assert_matches in Hmatch. apply bind_ok in Hmatch as (actual & Hact & Hmatch). case_bool_decide; [| done]. subst.
  pose proof (parse_wf doc carried Hparse) as Hwf.
  destruct (digest_names_manifest carried m _ Hwf Hm Hdig Hact) as (t & t' & Ht & Ht' & [-> | Hcol]); [by left | right].
  by exists carried, t, t'.
Qed.
End theorems.

(** ** What nested objects may hold *)

(** A key of a listener that nothing reads is dropped, and an address that is not a
    string is read as an omitted one. *)
Lemma nested_keys_are_dropped `{Fmt} m bind k v : k ≠ "bind"%string → k ≠ "address"%string →
  port_step m (JObject [("bind"%string, JUInt bind); (k, v)]) = port_step m (JObject [("bind"%string, JUInt bind)]).
Proof.
  intros Hb Ha. unfold port_step. cbn [json_get is_object]. unfold obj_get. cbn [List.find fst].
  rewrite (bool_decide_true ("bind"%string = "bind"%string)), (bool_decide_false ("bind"%string = "address"%string)),
    (bool_decide_false (k = "address"%string)) by done. done.
Qed.
Lemma mistyped_address_is_default `{Fmt} m bind v : as_str v = None →
  port_step m (JObject [("bind"%string, JUInt bind); ("address"%string, v)]) = port_step m (JObject [("bind"%string, JUInt bind)]).
Proof.
  intros Hv. unfold port_step. cbn [json_get is_object]. unfold obj_get. cbn [List.find fst].
  rewrite (bool_decide_true ("bind"%string = "bind"%string)), (bool_decide_false ("bind"%string = "address"%string)),
    (bool_decide_true ("address"%string = "address"%string)) by done. cbn [fmap option_fmap option_map snd mbind option_bind]. by rewrite Hv.
Qed.

(** ** A text for JSON, and a grant that carries a manifest *)

Fixpoint json_wfb (d : nat) (v : Json) : bool :=
  match v with
  | JNull | JBool _ => true
  | JUInt n => n <=? u64_max
  | JNumber s | JString s => from_utf8_ok (bytes_of s)
  | JArray items => match d with O => false | S d => forallb (json_wfb d) items end
  | JObject entries =>
      match d with
      | O => false
      | S d => bool_decide (NoDup (entries.*1)) && forallb (λ e, from_utf8_ok (bytes_of e.1) && json_wfb d e.2) entries
      end
  end.
Lemma json_wfb_spec d v : json_wfb d v = true ↔ json_wf d v.
Proof.
  assert (∀ s, from_utf8_ok (bytes_of s) = true ↔ text_ok s) as Ht by (intros s; apply bool_decide_eq_true).
  revert v. induction d as [| d IH]; intros [| b | n | s | s | items | entries]; cbn [json_wfb]; rewrite ?Ht.
  all: try (split; [intros _; constructor | done]).
  all: try (split; [intros Hv; constructor; by try apply N.leb_le | intros Hv; inversion Hv; by try apply N.leb_le]).
  all: try (split; [done | intros Hv; inversion Hv]).
  - rewrite forallb_forall. split.
    + intros Hv. constructor. apply Forall_forall. intros w Hw. apply IH, Hv. by apply list_elem_of_In.
    + intros Hv w Hw. inversion Hv as [| | | | | ? ? Hf |]; subst. apply IH. apply (proj1 (Forall_forall _ _) Hf). by apply list_elem_of_In.
  - rewrite andb_true_iff, bool_decide_eq_true, forallb_forall. split.
    + intros [Hnd Hv]. constructor; [done |]. apply Forall_forall. intros e He. apply list_elem_of_In in He. apply Hv in He.
      apply andb_true_iff in He as [He1 He2]. split; [by apply Ht | by apply IH].
    + intros Hv. inversion Hv as [| | | | | | ? ? Hnd Hf]; subst. split; [done |]. intros e He. apply list_elem_of_In in He.
      destruct (proj1 (Forall_forall _ _) Hf e He). apply andb_true_iff. split; [by apply Ht | by apply IH].
Qed.

Fixpoint json_tree (v : Json) : gen_tree (N + string) :=
  match v with
  | JNull => GenNode 0 []
  | JBool b => GenNode (if b then 1 else 2) []
  | JUInt n => GenNode 3 [GenLeaf (inl n)]
  | JNumber s => GenNode 4 [GenLeaf (inr s)]
  | JString s => GenNode 5 [GenLeaf (inr s)]
  | JArray items => GenNode 6 (json_tree <$> items)
  | JObject entries => GenNode 7 ((λ e, GenNode 8 [GenLeaf (inr e.1); json_tree e.2]) <$> entries)
  end.
Fixpoint tree_json (t : gen_tree (N + string)) : Json :=
  match t with
  | GenNode 1 _ => JBool true
  | GenNode 2 _ => JBool false
  | GenNode 3 [GenLeaf (inl n)] => JUInt n
  | GenNode 4 [GenLeaf (inr s)] => JNumber s
  | GenNode 5 [GenLeaf (inr s)] => JString s
  | GenNode 6 items => JArray (tree_json <$> items)
  | GenNode 7 entries =>
      JObject ((λ t, match t with GenNode 8 [GenLeaf (inr k); v] => (k, tree_json v) | _ => (EmptyString, JNull) end) <$> entries)
  | _ => JNull
  end.
Lemma tree_json_tree d v : json_wf d v → tree_json (json_tree v) = v.
Proof.
  revert v. induction d as [| d IH]; intros v Hv; inversion Hv as [| ? b | | | | ? ? Hf | ? ? _ Hf]; subst; try done; try (by destruct b).
  - clear Hv. cbn [json_tree tree_json]. f_equal. rewrite <- list_fmap_compose. induction Hf as [| w l Hw _ IHl]; [done |].
    cbn. rewrite IH by done. by f_equal.
  - clear Hv. cbn [json_tree tree_json]. f_equal. rewrite <- list_fmap_compose. induction Hf as [| [k w] l [_ Hw] _ IHl]; [done |].
    cbn. rewrite IH by done. by f_equal.
Qed.

Definition bits_text : JsonText := {|
  json_from_str := λ s,
    match demo_from_slice (A := gen_tree (N + string)) (bytes_of s) with
    | Ok t => if json_wfb RECURSION_LIMIT (tree_json t) then Ok (tree_json t) else Err "not a value"%string
    | _ => Err "not a value"%string
    end;
  to_string_pretty := λ v, Ok (string_of (demo_to_vec (json_tree v)));
  json_display := λ _, ""%string |}.
Lemma bits_text_laws : @JsonTextLaws bits_text.
Proof.
  split; cbn [json_from_str to_string_pretty bits_text].
  - eauto.
  - intros v s Hv _ [= <-]. rewrite bytes_of_string_of, demo_roundtrip, (tree_json_tree RECURSION_LIMIT) by done.
    by rewrite (proj2 (json_wfb_spec _ _) Hv).
  - intros s v. destruct (demo_from_slice _) as [t | |]; [| done..].
    destruct (json_wfb _ _) eqn:E; [| done]. intros [= <-]. by apply json_wfb_spec.
  - intros s. destruct (demo_from_slice _); [| done..]. by destruct (json_wfb _ _).
Qed.

#[local] Existing Instances demo_hash demo_fmt demo_keys demo_wire bits_text bits_text_laws.
Definition demo_manifest : ConfinementManifest := {|
  credential_source := Some "op://vault"%string;
  fs_allow := [ReadOnly "/usr/"; ReadWrite "/work/"];
  allow_hosts := ["*.example.com"%string];
  ports := [{| pg_bind := 8080; pg_address := None |}; {| pg_bind := 8080; pg_address := Some "::1"%string |}];
  unix_sockets := [Connect "/run/proxy"; Bind "/run/own"];
  connect_local := [443; 8443] |}.
Lemma demo_manifest_wf : manifest_wf demo_manifest.
Proof.
  split; cbn.
  - intros uri [= <-]. by split.
  - by repeat constructor.
  - by repeat constructor.
  - by repeat constructor.
  - repeat constructor; cbn; unfold u16_max; try lia; intros a; [done | by intros [= <-]].
  - by repeat constructor.
  - by repeat constructor.
  - repeat constructor; unfold u16_max; lia.
Qed.
Definition demo_document : string := match to_canonical_json demo_manifest with Ok text => text | _ => EmptyString end.

Lemma manifest_document_roundtrip_witness :
  ∃ text, to_canonical_json demo_manifest = Ok text ∧ parse text = Ok demo_manifest.
Proof. destruct (manifest_document_roundtrip demo_manifest) as [_ Ht]; [left; apply demo_manifest_wf | exact Ht]. Defined.

(** A listener declared twice under the two spellings of its address is refused. *)
Definition twice_document : string :=
  match to_string_pretty (JObject [("version"%string, JString CONFINEMENT_SCHEMA_VERSION);
    ("port"%string, JArray [JObject [("bind"%string, JUInt 8080)]; JObject [("address"%string, JString DEFAULT_BIND_ADDRESS); ("bind"%string, JUInt 8080)]])])
  with Ok text => text | _ => EmptyString end.
Lemma parsed_manifest_wf_witness :
  is_ok (parse twice_document) = false ∧ parse demo_document = Ok demo_manifest ∧ manifest_wf demo_manifest.
Proof.
  split; [vm_compute; reflexivity |].
  assert (parse demo_document = Ok demo_manifest) as Hp by (vm_compute; reflexivity). split; [exact Hp |].
  destruct (parsed_manifest_wf demo_document) as [_ Hwf]. exact (Hwf _ Hp).
Defined.

Definition other_manifest : ConfinementManifest :=
  set_connect_local [80; 443] (set_ports [{| pg_bind := 8080; pg_address := Some DEFAULT_BIND_ADDRESS |}; {| pg_bind := 8080; pg_address := Some "::1"%string |}] demo_manifest).
Lemma other_manifest_wf : manifest_wf other_manifest.
Proof.
  destruct demo_manifest_wf. split; cbn; try done.
  - by repeat constructor.
  - repeat constructor; cbn; unfold u16_max; try lia; intros a; by intros [= <-].
  - by repeat constructor.
  - repeat constructor; unfold u16_max; lia.
Qed.
(** The two spellings of the default address do not meet. *)
Lemma meet_is_greatest_lower_bound_witness :
  ∃ c, meet demo_manifest other_manifest = Ok c ∧ connect_local c = [443]
    ∧ ports c = [{| pg_bind := 8080; pg_address := Some "::1"%string |}] ∧ meet other_manifest demo_manifest = Ok c.
Proof.
  destruct (meet_is_greatest_lower_bound demo_manifest other_manifest demo_manifest_wf other_manifest_wf) as (_ & _ & Hmeet & _).
  eexists. split; [vm_compute; reflexivity |]. split; [reflexivity | split; [reflexivity |]].
  destruct (Hmeet _ eq_refl) as (_ & _ & _ & _ & Hc). exact Hc.
Defined.

(** The grant of [Authorization] with the document, and a runner without a policy of
    its own. *)
Definition carrying_grant : run_grant := {|
  gr_grant_id := gr_grant_id demo_run_grant; gr_issuer_evidence := demo_evidence; gr_expires_at_unix_ms := 50;
  gr_replay_key := gr_replay_key demo_run_grant; gr_run_spec_digest := demo_digest x11;
  gr_workload_identity_evidence := demo_evidence; gr_actor_provenance_evidence := demo_evidence;
  gr_capabilities := gr_capabilities demo_run_grant;
  gr_confinement_digest := demo_digest (hd x00 (bytes_of demo_document)); gr_backend_class := Got WireMicroVm;
  gr_limits := gr_limits demo_run_grant; gr_workspaces := gr_workspaces demo_run_grant;
  gr_allowed_egress := Got []; gr_credential_broker_refs := Got 0; gr_signature := gr_signature demo_run_grant;
  gr_confinement_manifest := Got (bytes_of demo_document) |}.
Definition carrying_capnp : Capnp := {|
  message := byte; capnp_read := λ l, match l with b :: _ => Got b | [] => Bad "empty" end;
  spec_root := λ b, if bool_decide (b = x11) then Got demo_spec else Bad "not a spec";
  grant_root := λ b, if bool_decide (b = x22) then Got carrying_grant else Bad "not a grant";
  copy_grant := Got; init_signature := Got; canonicalize := λ b, Got [b] |}.
Definition open_policy : AuthorizationPolicy := {| now_unix_ms := None; required_backend := MicroVm; required_confinement_digest := None |}.
#[local] Existing Instance carrying_capnp.
Definition carrying_authorize : result ExecutionError AuthorizedExecution :=
  authorize_with_verifier 49 [x11] [x22] open_policy (CasDsseEvidenceVerifier (λ _, Ok [x44]) [tt]).
Lemma carried_policy_is_enforced_witness :
  ∃ a, carrying_authorize = Ok a ∧ assert_matches demo_manifest (au_confinement_digest a) = Ok tt ∧ parse demo_document = Ok demo_manifest.
Proof.
  assert ((λ a, (au_confinement_manifest a, au_confinement_digest a)) <$> carrying_authorize
    = Ok (Some demo_document, ("blake3-256:" +:+ hex_of (hd x00 (bytes_of demo_document)))%string)) as Hok by (vm_compute; reflexivity).
  destruct carrying_authorize as [a | |] eqn:E; [| discriminate Hok | discriminate Hok]. injection Hok as Hdoc Hdig.
  assert (assert_matches demo_manifest (au_confinement_digest a) = Ok tt) as Hm by (rewrite Hdig; vm_compute; reflexivity).
  exists a. split; [reflexivity | split; [exact Hm |]].
  destruct (carried_policy_is_enforced _ _ _ _ _ _ _ _ E Hdoc demo_manifest_wf Hm) as [Hp | (c & t & t' & Hp & Ht & Ht' & Hne & _)]; [exact Hp | exfalso].
  apply Hne. assert (Ok c = Ok demo_manifest :> result ExecutionError _) as Hc by (rewrite <- Hp; vm_compute; reflexivity).
  injection Hc as ->. rewrite Ht in Ht'. by injection Ht' as ->.
Defined.
