(* ===== verification/CasEvidence.v ===== *)
(** * The operator's evidence verifier

    [rs/ll-open/runtime/src/cas_evidence.rs]: trust keys read from files and an evidence
    store over [FsBlobStore], composed into the verifier of [Authorization].  Files and
    directories are functions of their paths; standard base64 and the decoding of a
    curve point are the class [KeyCodec]. *)

From S2P Require Import Prelude Substrate BlobStores Text Sign Envelope Limits Service Authorization.
From stdpp Require Import pretty.
From Stdlib Require Import NArith Lia Ascii.
Local Open Scope N_scope.

Definition EVIDENCE_DIGEST_PREFIX : string := "blake3-256:".

Inductive EvidenceConfigError :=
| BadEvidenceStore (path : string)
| ConfigNoTrustKeys
| BadTrustKey (path reason : string)
| DuplicateTrustKey (path kid : string).

(** ** Text *)

(** The characters of a UTF-8 text, by their first byte. *)
Definition char_width (b : byte) : nat :=
  let n := Byte.to_N b in
  if n <? 128 then 1%nat else if n <? 224 then 2%nat else if n <? 240 then 3%nat else 4%nat.
Fixpoint chars_of (fuel : nat) (l : list byte) : list (list byte) :=
  match fuel, l with
  | S fuel, b :: _ => take (char_width b) l :: chars_of fuel (drop (char_width b) l)
  | _, _ => []
  end.
Definition chars (l : list byte) : list (list byte) := chars_of (length l) l.
(** [char::is_whitespace]: the characters with the property White_Space. *)
Definition is_whitespace (c : list byte) : bool :=
  match c with
  | [b] => in_range 9 13 b || bool_decide (b = x20)
  | [xc2; b] => bool_decide (b = x85) || bool_decide (b = xa0)
  | [xe1; x9a; x80] => true
  | [xe2; x80; b] => in_range 128 138 b || bool_decide (b = xa8) || bool_decide (b = xa9) || bool_decide (b = xaf)
  | [xe2; x81; x9f] => true
  | [xe3; x80; x80] => true
  | _ => false
  end.
Fixpoint skip_while {A} (p : A → bool) (l : list A) : list A :=
  match l with x :: l' => if p x then skip_while p l' else l | [] => [] end.
(** [str::trim] *)
Definition trim (l : list byte) : list byte :=
  concat (reverse (skip_while is_whitespace (reverse (skip_while is_whitespace (chars l))))).
(** [s.split_whitespace().collect::<String>()] *)
Definition without_whitespace (l : list byte) : list byte := concat (filter (λ c, is_whitespace c = false) (chars l)).
Fixpoint strip_prefix (p l : list byte) : option (list byte) :=
  match p, l with
  | [], l => Some l
  | a :: p, b :: l => if bool_decide (a = b) then strip_prefix p l else None
  | _, [] => None
  end.
Definition strip_suffix (s l : list byte) : option (list byte) := reverse <$> strip_prefix (reverse s) (reverse l).
Fixpoint contains (needle l : list byte) : bool :=
  bool_decide (is_Some (strip_prefix needle l)) || match l with [] => false | _ :: l => contains needle l end.
Definition is_hexdigit (b : byte) : bool := in_range 48 57 b || in_range 65 70 b || in_range 97 102 b.

(** ** Trust keys *)

Class KeyCodec `{Ed25519} := {
  std_base64_decode : list byte → result string (list byte);
  verifying_key_from_bytes : list byte → result string VerifyingKey;
}.
(** [VerifyingKey] keeps the 32 bytes it was made from. *)
Class KeyCodecLaws `{KeyCodec} := {
  from_bytes_keeps raw k : verifying_key_from_bytes raw = Ok k → pk_bytes k = raw;
}.

Section keys.
Context `{Ed25519, !KeyCodec}.

Record TrustKey := { tk_key : VerifyingKey; tk_kid : list byte }.
Definition TrustKey_new (key : VerifyingKey) : TrustKey := {| tk_key := key; tk_kid := canonical_kid key |}.

Definition PEM_BEGIN : list byte := bytes_of "-----BEGIN PUBLIC KEY-----".
Definition PEM_END : list byte := bytes_of "-----END PUBLIC KEY-----".
Definition pem_public_key_der (text : list byte) : result string (list byte) :=
  body ← ok_or (rest ← strip_prefix PEM_BEGIN text; strip_suffix PEM_END rest) "PEM block must be exactly one PUBLIC KEY"%string;
  if contains (bytes_of "-----") body then Err "PEM block must be exactly one PUBLIC KEY"%string
  else map_err (λ e, "PUBLIC KEY is not base64: " +:+ e)%string (std_base64_decode (without_whitespace body)).
(** The 32 bytes a file names. *)
Definition raw_key (text : list byte) : result string (list byte) :=
  if bool_decide (is_Some (strip_prefix (bytes_of "-----BEGIN") text)) then
    der ← pem_public_key_der text;
    ok_or (key ← strip_prefix ED25519_SPKI_PREFIX der; if len key =? 32 then Some key else None)
      "PUBLIC KEY is not a canonical RFC 8410 Ed25519 SubjectPublicKeyInfo"%string
  else if negb (len text =? 64) || negb (forallb is_hexdigit text)
  then Err "trust key must be 64 hex characters or a PEM PUBLIC KEY block"%string
  else ok_or (hex_decode text) "trust key is not hex"%string.
Definition parse_trust_key (contents : list byte) : result string TrustKey :=
  if negb (from_utf8_ok contents) then Err "trust key file is not UTF-8"%string
  else
    let text := trim contents in
    if len text =? 0 then Err "trust key file is empty"%string
    else
      raw ← raw_key text;
      key ← map_err (λ e, "not a valid Ed25519 public key: " +:+ e)%string (verifying_key_from_bytes raw);
      mret (TrustKey_new key).

(** [std::fs::read], with its error's text. *)
Context (read_file : string → result string (list byte)).
Definition load_trust_key (path : string) : result EvidenceConfigError TrustKey :=
  contents ← map_err (BadTrustKey path) (read_file path);
  map_err (BadTrustKey path) (parse_trust_key contents).
Definition key_step (acc : gset (list byte) * list TrustKey) (path : string)
    : result EvidenceConfigError (gset (list byte) * list TrustKey) :=
  let '(seen, keys) := acc in
  key ← load_trust_key path;
  if bool_decide (tk_kid key ∈ seen) then Err (DuplicateTrustKey path (string_of (tk_kid key)))
  else mret ({[ tk_kid key ]} ∪ seen, keys ++ [key]).
Definition load_trust_keys (paths : list string) : result EvidenceConfigError (list TrustKey) :=
  match paths with
  | [] => Err ConfigNoTrustKeys
  | _ => snd <$> fold_result key_step (∅, []) paths
  end.
End keys.
Arguments TrustKey {_}.

(** ** The evidence store *)

Section store.
Context `{Blake3, Fmt}.

Definition lower_hexdigit (b : byte) : bool := in_range 48 57 b || in_range 97 102 b.
Definition parse_evidence_digest (digest : string) : option Hash :=
  hex ← strip_prefix (bytes_of EVIDENCE_DIGEST_PREFIX) (bytes_of digest);
  if negb (len hex =? 64) || negb (forallb lower_hexdigit hex) then None
  else hex_decode hex ≫= Hash_try_from.

(** [root.is_dir()] and [FsBlobStore::new], which asks again. *)
Context (dirs : string → option FsBlobStore) (store_display : store_error → string).
Definition CasEvidenceStore_open (root : string) : result EvidenceConfigError FsBlobStore :=
  ok_or (dirs root) (BadEvidenceStore root).
Definition evidence_insert (ft : put_fault) (bytes : list byte) (s : FsBlobStore) : result store_error string * FsBlobStore :=
  let '(r, s) := FsBlobStore_put ft bytes s in
  ((λ h, EVIDENCE_DIGEST_PREFIX +:+ Hash_display h) <$> r, s).
Definition evidence_load (s : FsBlobStore) (digest : string) : result ExecutionError (list byte) :=
  hash ← ok_or (parse_evidence_digest digest)
           (rejection_error EvidenceDigestMalformed (debug_str digest +:+ " is not a blake3-256 evidence digest"));
  match FsBlobStore_get s hash with
  | Ok (Some bytes) => Ok bytes
  | Ok None => Err (rejection_error EvidenceMissing ("no evidence stored under " +:+ digest))
  | Err error => Err (rejection_error EvidenceIntegrity ("evidence " +:+ digest +:+ " is not readable as stored: " +:+ store_display error))
  | Panic => Panic
  end.

Context `{Ed25519, !KeyCodec, Wire} (read_file : string → result string (list byte)).
(** The verifier reads the directory as it is when it runs. *)
Definition operator_verifier (evidence_store : string) (trust_key_paths : list string)
    : result EvidenceConfigError (FsBlobStore → EvidenceVerifier) :=
  keys ← load_trust_keys read_file trust_key_paths;
  _ ← CasEvidenceStore_open evidence_store;
  mret (λ store, CasDsseEvidenceVerifier (evidence_load store) (tk_key <$> keys)).
End store.

(** ** Hexadecimal names *)

Lemma strip_prefix_app p l : strip_prefix p (p ++ l) = Some l.
Proof. induction p as [| b p IH]; [done |]. cbn. by rewrite bool_decide_true. Qed.
Lemma strip_prefix_Some p l r : strip_prefix p l = Some r → l = p ++ r.
Proof.
  revert l. induction p as [| a p IH]; intros [| b l]; cbn; try congruence.
  case_bool_decide; [| done]. intros Hr. subst. f_equal. by apply IH.
Qed.
Lemma strip_suffix_Some s l r : strip_suffix s l = Some r → l = r ++ s.
Proof.
  unfold strip_suffix. destruct (strip_prefix _ _) as [r' |] eqn:E; [| done]. intros [= <-]. apply strip_prefix_Some in E.
  apply (f_equal reverse) in E. by rewrite reverse_involutive, reverse_app, !reverse_involutive in E.
Qed.
Lemma lower_hex_value b v : lower_hexdigit b = true → hex_value b = Some v → v < 16 ∧ byte_of_ascii (hex_digit v) = b.
Proof. destruct b; cbn; try discriminate; intros _ [= <-]; split; first [reflexivity | lia]. Qed.
Lemma hex_pair hi lo : hi < 16 → lo < 16 →
  bytes_of (hex_byte (byte_of_N (16 * hi + lo))) = [byte_of_ascii (hex_digit hi); byte_of_ascii (hex_digit lo)].
Proof.
  intros Hhi Hlo. unfold hex_byte. rewrite to_N_byte_of_N.
  assert ((16 * hi + lo) mod 256 = 16 * hi + lo) as -> by (apply N.mod_small; lia).
  assert ((16 * hi + lo) / 16 = hi) as -> by (rewrite N.mul_comm, N.div_add_l by lia; rewrite (N.div_small lo) by lia; lia).
  assert ((16 * hi + lo) mod 16 = lo) as -> by (rewrite N.mul_comm, N.add_comm, N.Div0.mod_add; by apply N.mod_small).
  done.
Qed.
(** Lower-case digits decode to what prints them, two to a byte. *)
Lemma hex_decode_lower (n : nat) l bs : (length l ≤ n)%nat → forallb lower_hexdigit l = true → hex_decode l = Some bs →
  bytes_of (hex_bytes bs) = l.
Proof.
  revert l bs. induction n as [| n IH]; intros [| a [| b l]] bs Hn Hf Hd; cbn in Hn; try lia; try (by injection Hd as <-); try done.
  cbn [forallb] in Hf. apply andb_true_iff in Hf as [Ha Hf]. apply andb_true_iff in Hf as [Hb Hf].
  cbn [hex_decode] in Hd. destruct (hex_value a) as [hi |] eqn:Ea; [| done]. destruct (hex_value b) as [lo |] eqn:Eb; [| done].
  cbn [mbind option_bind] in Hd. destruct (hex_decode l) as [rest |] eqn:El; [| done]. injection Hd as <-.
  apply lower_hex_value in Ea as [Hhi Ea]; [| done]. apply lower_hex_value in Eb as [Hlo Eb]; [| done].
  change (hex_bytes (?x :: ?y)) with (hex_byte x +:+ hex_bytes y). rewrite bytes_of_app, hex_pair by done.
  rewrite Ea, Eb. cbn. do 2 f_equal. apply IH; [lia | done..].
Qed.
Lemma hex_decode_total (n : nat) l : (length l = 2 * n)%nat → forallb is_hexdigit l = true →
  ∃ bs, hex_decode l = Some bs ∧ length bs = n.
Proof.
  assert (∀ b, is_hexdigit b = true → ∃ v, hex_value b = Some v) as Hv by (intros []; cbn; first [discriminate | eauto]).
  revert l. induction n as [| n IH]; intros [| a [| b l]] Hn Hf; cbn in Hn; try lia; [by exists [] |].
  cbn [forallb] in Hf. apply andb_true_iff in Hf as [Ha Hf]. apply andb_true_iff in Hf as [Hb Hf].
  destruct (Hv a Ha) as [hi Ea], (Hv b Hb) as [lo Eb], (IH l) as (bs & El & Hl); [lia | done |].
  cbn [hex_decode]. rewrite Ea, Eb, El. cbn. eexists. split; [done |]. cbn. lia.
Qed.
Lemma hex_bytes_lower l : forallb lower_hexdigit (bytes_of (hex_bytes l)) = true.
Proof.
  induction l as [| b l IH]; [done |]. change (hex_bytes (b :: l)) with (hex_byte b +:+ hex_bytes l).
  rewrite bytes_of_app, forallb_app, IH, andb_true_r. by destruct b.
Qed.
Lemma hex_bytes_len l : len (bytes_of (hex_bytes l)) = 2 * len l.
Proof.
  induction l as [| b l IH]; [done |]. change (hex_bytes (b :: l)) with (hex_byte b +:+ hex_bytes l).
  rewrite bytes_of_app, len_app, IH, len_cons. change (len (bytes_of (hex_byte b))) with 2. lia.
Qed.

(** An evidence digest names one address and has one spelling. *)
Lemma parse_evidence_digest_spec d h : parse_evidence_digest d = Some h ↔ d = (EVIDENCE_DIGEST_PREFIX +:+ Hash_display h)%string.
Proof.
  unfold parse_evidence_digest. split.
  - destruct (strip_prefix _ _) as [hex |] eqn:E; [| done]. cbn [mbind option_bind]. apply strip_prefix_Some in E.
    destruct (negb (len hex =? 64)); [done |]. destruct (forallb lower_hexdigit hex) eqn:Ef; [| done]. cbn [orb negb].
    destruct (hex_decode hex) as [bs |] eqn:Ed; [| done]. cbn. intros Hh%Hash_try_from_Some.
    apply bytes_of_inj. rewrite E, bytes_of_app. f_equal. unfold Hash_display. rewrite Hh. symmetry. by eapply hex_decode_lower.
  - intros ->. rewrite bytes_of_app, strip_prefix_app. cbn [mbind option_bind]. unfold Hash_display.
    rewrite hex_bytes_len, len_as_bytes, hex_bytes_lower, hex_decode_bytes. cbn. apply Hash_try_from_as_bytes.
Qed.

(** ** What the store serves *)

Section served.
Context `{Blake3, Fmt} (store_display : store_error → string).
#[local] Abbreviation load := (evidence_load store_display).

Lemma digest_name_display bytes : digest_name bytes = (EVIDENCE_DIGEST_PREFIX +:+ Hash_display (blake3 bytes))%string.
Proof. done. Qed.
Lemma evidence_load_ok s d bytes : load s d = Ok bytes → digest_name bytes = d ∧ FsBlobStore_get s (blake3 bytes) = Ok (Some bytes).
Proof.
  unfold evidence_load. destruct (parse_evidence_digest d) as [h |] eqn:E; [| done]. cbn [ok_or]. rewrite bind_Ok.
  apply parse_evidence_digest_spec in E as ->. destruct (FsBlobStore_get s h) as [[v |] | |] eqn:Eg; try done. intros [= <-].
  pose proof (fs_get_verified s h v Eg) as <-. done.
Qed.
Lemma evidence_load_at s h : load s (EVIDENCE_DIGEST_PREFIX +:+ Hash_display h)
  = match FsBlobStore_get s h with
    | Ok (Some bytes) => Ok bytes
    | Ok None => Err (rejection_error EvidenceMissing ("no evidence stored under " +:+ (EVIDENCE_DIGEST_PREFIX +:+ Hash_display h)))
    | Err error => Err (rejection_error EvidenceIntegrity ("evidence " +:+ (EVIDENCE_DIGEST_PREFIX +:+ Hash_display h)
                     +:+ " is not readable as stored: " +:+ store_display error))
    | Panic => Panic
    end.
Proof. unfold evidence_load. by rewrite (proj2 (parse_evidence_digest_spec _ h) eq_refl). Qed.

(** Inserting several envelopes, whichever call of each fails. *)
Definition insert_all (jobs : list (put_fault * list byte)) (s : FsBlobStore) : FsBlobStore :=
  foldl (λ s job, snd (evidence_insert job.1 job.2 s)) s jobs.
Lemma insert_all_keeps jobs s h v : FsBlobStore_get s h = Ok (Some v) → FsBlobStore_get (insert_all jobs s) h = Ok (Some v).
Proof.
  revert s. induction jobs as [| [ft b] jobs IH]; intros s Hg; [done |]. cbn [insert_all foldl]. apply IH. cbn.
  unfold evidence_insert. destruct (FsBlobStore_put ft b s) as [r s'] eqn:E. cbn.
  destruct (FsBlobStore_laws ft) as [_ _ _ Hkeep _]. by apply (Hkeep b s r s' h v E).
Qed.

(** An envelope that was inserted is served under its digest, after any further
    inserts that succeed or fail; what is served under a digest has that digest, so it
    is the envelope unless the two are an explicit collision; a digest that names no
    address is refused as malformed, and one under which nothing is stored as missing. *)
Theorem evidence_store_roundtrip ft bytes s d s' jobs : evidence_insert ft bytes s = (Ok d, s') →
  d = digest_name bytes
  ∧ (∃ v, load (insert_all jobs s') d = Ok v ∧ (v = bytes ∨ collision blake3 v bytes))
  ∧ (∀ s d v, load s d = Ok v → digest_name v = d)
  ∧ (∀ s d, (∀ h, d ≠ EVIDENCE_DIGEST_PREFIX +:+ Hash_display h)%string →
       ∃ e, load s d = Err e ∧ rejection_of e = Some EvidenceDigestMalformed)
  ∧ (∀ s h, FsBlobStore_get s h = Ok None →
       ∃ e, load s (EVIDENCE_DIGEST_PREFIX +:+ Hash_display h) = Err e ∧ rejection_of e = Some EvidenceMissing).
Proof.
  intros Hins. unfold evidence_insert in Hins. destruct (FsBlobStore_put ft bytes s) as [r s1] eqn:E.
  destruct r as [h | |]; try done. injection Hins as <- <-. destruct (FsBlobStore_laws ft) as [Hver Hname Hput _ _].
  cbn [bs_put bs_get FsBlobStore_store] in *. pose proof (Hname _ _ _ _ E) as ->. split_and!.
  - done.
  - destruct (Hput _ _ _ _ E) as (v & Hv). exists v. pose proof (Hver _ _ _ Hv) as Hh.
    split; [| by apply eq_or_collision]. rewrite evidence_load_at. by rewrite (insert_all_keeps jobs _ _ v Hv).
  - intros s2 d v Hl. by apply evidence_load_ok in Hl as [? _].
  - intros s2 d Hd. unfold evidence_load. destruct (parse_evidence_digest d) as [h |] eqn:Ep; cbn [ok_or].
    + apply parse_evidence_digest_spec in Ep. by destruct (Hd h).
    + eexists. split; [reflexivity |]. reflexivity.
  - intros s2 h Hn. rewrite evidence_load_at, Hn. eexists. split; [reflexivity |]. reflexivity.
Qed.
End served.

(** ** What is trusted *)

Section trusted.
Context `{Ed25519, !KeyCodec, !KeyCodecLaws} (read_file : string → result string (list byte)).

(** A key file names its key: 64 digits of the 32 bytes, or the canonical DER. *)
Definition names_key (contents : list byte) (k : VerifyingKey) : Prop :=
  length (pk_bytes k) = 32%nat
  ∧ (hex_decode (trim contents) = Some (pk_bytes k)
     ∨ ∃ body, trim contents = PEM_BEGIN ++ body ++ PEM_END ∧ std_base64_decode (without_whitespace body) = Ok (ed25519_spki_der k)).
Lemma raw_key_ok text raw : raw_key text = Ok raw →
  length raw = 32%nat ∧ (hex_decode text = Some raw
    ∨ ∃ body, text = PEM_BEGIN ++ body ++ PEM_END ∧ std_base64_decode (without_whitespace body) = Ok (ED25519_SPKI_PREFIX ++ raw)).
Proof.
  unfold raw_key. case_bool_decide.
  - intros (der & Hder & Hraw)%bind_ok. destruct (strip_prefix ED25519_SPKI_PREFIX der) as [key |] eqn:Ek; [| done].
    cbn [mbind option_bind] in Hraw. destruct (N.eqb_spec (len key) 32) as [Hlen |]; [| done]. injection Hraw as <-.
    apply strip_prefix_Some in Ek as ->. split; [unfold len in Hlen; lia |]. right.
    unfold pem_public_key_der in Hder. destruct (strip_prefix PEM_BEGIN text) as [rest |] eqn:Eb; [| done]. cbn [mbind option_bind] in Hder.
    destruct (strip_suffix PEM_END rest) as [body |] eqn:Ee; [| done]. cbn [ok_or] in Hder. rewrite bind_Ok in Hder.
    destruct (contains _ body); [done |]. apply strip_prefix_Some in Eb as ->. apply strip_suffix_Some in Ee as ->.
    exists body. split; [done |]. by destruct (std_base64_decode _); simplify_eq/=.
  - destruct (N.eqb_spec (len text) 64) as [Hlen |]; [| done]. destruct (forallb is_hexdigit text) eqn:Ef; [| done]. cbn [negb orb].
    destruct (hex_decode_total 32 text) as (bs & Hbs & Hl); [unfold len in Hlen; lia | done |]. rewrite Hbs. intros [= <-]. auto.
Qed.
Lemma parse_trust_key_ok contents k : parse_trust_key contents = Ok k → names_key contents (tk_key k) ∧ tk_kid k = canonical_kid (tk_key k).
Proof.
  unfold parse_trust_key. destruct (negb _); [done |]. cbv zeta. destruct (len (trim contents) =? 0); [done |].
  intros (raw & Hraw & (key & Hkey & [= <-])%bind_ok)%bind_ok. destruct (verifying_key_from_bytes raw) as [key' | |] eqn:E; try done.
  injection Hkey as ->. apply from_bytes_keeps in E. apply raw_key_ok in Hraw as [Hl Hr]. subst. split; [| done]. by split.
Qed.
Lemma keys_fold paths seen keys r : fold_result (key_step read_file) (seen, keys) paths = Ok r →
  ∃ more, r.2 = keys ++ more ∧ Forall2 (λ p k, load_trust_key read_file p = Ok k) paths more
    ∧ NoDup (tk_kid <$> more) ∧ ∀ k, k ∈ more → tk_kid k ∉ seen.
Proof.
  revert seen keys. induction paths as [| p paths IH]; intros seen keys; cbn [fold_result].
  - intros [= <-]. exists []. rewrite app_nil_r. split_and!; [done | constructor | constructor | set_solver].
  - intros ([seen' keys'] & Hs & Hf)%bind_ok. unfold key_step in Hs. apply bind_ok in Hs as (k & Hk & Hs).
    case_bool_decide as Hn; [done |]. injection Hs as <- <-. apply IH in Hf as (more & -> & H2 & Hnd & Hfresh).
    exists (k :: more). split_and!; [by rewrite <- app_assoc | by constructor | |].
    + rewrite fmap_cons. constructor; [| done]. rewrite list_elem_of_fmap. intros (k' & Hkk & Hin). specialize (Hfresh k' Hin). set_solver.
    + intros k' [-> | Hin]%elem_of_cons; [done |]. specialize (Hfresh k' Hin). set_solver.
Qed.
Lemma keys_fold_total paths ks seen keys : Forall2 (λ p k, load_trust_key read_file p = Ok k) paths ks → NoDup (tk_kid <$> ks) →
  (∀ k, k ∈ ks → tk_kid k ∉ seen) → ∃ seen', fold_result (key_step read_file) (seen, keys) paths = Ok (seen', keys ++ ks).
Proof.
  intros H2. revert seen keys. induction H2 as [| p k paths ks Hk _ IH]; intros seen keys Hnd Hfresh; cbn [fold_result].
  - exists seen. by rewrite app_nil_r.
  - rewrite fmap_cons, NoDup_cons in Hnd. destruct Hnd as [Hnin Hnd]. assert (tk_kid k ∉ seen) as Hk0 by (apply Hfresh; left).
    assert (key_step read_file (seen, keys) p = Ok ({[tk_kid k]} ∪ seen, keys ++ [k])) as ->
      by (unfold key_step; rewrite Hk, bind_Ok; by rewrite bool_decide_false).
    rewrite bind_Ok.
    destruct (IH ({[tk_kid k]} ∪ seen) (keys ++ [k])) as [seen' E]; [done | | exists seen'; by rewrite E, <- app_assoc].
    intros k' Hin. assert (tk_kid k' ≠ tk_kid k) as Hne by (intros Heq; apply Hnin; rewrite <- Heq; by apply list_elem_of_fmap_2).
    assert (tk_kid k' ∉ seen) by (apply Hfresh; by right). set_solver.
Qed.
(** The keys are the files' keys in their order, and no kid repeats. *)
Lemma load_trust_keys_ok paths ks : load_trust_keys read_file paths = Ok ks ↔
  paths ≠ [] ∧ Forall2 (λ p k, load_trust_key read_file p = Ok k) paths ks ∧ NoDup (tk_kid <$> ks).
Proof.
  unfold load_trust_keys. split.
  - destruct paths as [| p paths]; [done |]. destruct (fold_result _ _ _) as [[seen keys] | |] eqn:E; try done. intros [= <-].
    apply keys_fold in E as (more & Heq & H2 & Hnd & _). cbn in Heq. subst. by split_and!.
  - intros (Hne & H2 & Hnd). destruct paths as [| p paths]; [done |].
    destruct (keys_fold_total _ _ ∅ [] H2 Hnd) as [seen E]; [set_solver |]. by rewrite E.
Qed.
End trusted.

(** ** The operator's daemon *)

Section operator.
Context `{Blake3, Fmt, Ed25519, !KeyCodec, !KeyCodecLaws, Wire}.
Context (dirs : string → option FsBlobStore) (store_display : store_error → string) (read_file : string → result string (list byte)).

Definition trusts (p : string) (k : TrustKey) : Prop :=
  tk_kid k = canonical_kid (tk_key k)
  ∧ ∃ contents, read_file p = Ok contents ∧ parse_trust_key contents = Ok k ∧ names_key contents (tk_key k).
Lemma load_trust_key_ok p k : load_trust_key read_file p = Ok k ↔ trusts p k.
Proof.
  unfold load_trust_key. split.
  - intros (c & Hc & Hk)%bind_ok. destruct (read_file p) as [c' | |] eqn:Er; try done. injection Hc as ->.
    destruct (parse_trust_key c) as [k' | |] eqn:E; try done. injection Hk as ->.
    destruct (parse_trust_key_ok _ _ E). split; [done |]. by exists c.
  - intros (_ & c & -> & Hk & _). cbn [map_err]. rewrite bind_Ok. by rewrite Hk.
Qed.
Lemma operator_verifier_ok dir paths v :
  operator_verifier dirs store_display read_file dir paths = Ok v ↔
  ∃ ks, v = (λ store, CasDsseEvidenceVerifier (evidence_load store_display store) (tk_key <$> ks))
    ∧ is_Some (dirs dir) ∧ paths ≠ [] ∧ NoDup (tk_kid <$> ks) ∧ Forall2 trusts paths ks.
Proof.
  unfold operator_verifier, CasEvidenceStore_open. split.
  - intros (ks & Hks & Hv)%bind_ok. apply bind_ok in Hv as (s & Hs & Hv). injection Hv as <-. apply load_trust_keys_ok in Hks as (Hne & Hks2 & Hnd).
    exists ks. split_and!; try done; [by destruct (dirs dir); eauto |]. by apply (Forall2_impl _ _ _ _ Hks2), load_trust_key_ok.
  - intros (ks & -> & [s Hs] & Hne & Hnd & Hks2). rewrite (proj2 (load_trust_keys_ok read_file paths ks)), bind_Ok; [by rewrite Hs |].
    split_and!; [done | | done]. apply (Forall2_impl _ _ _ _ Hks2). intros p k. apply load_trust_key_ok.
Qed.

(** A trusted key is the key of a file. *)
Lemma trusted_file paths ks key : Forall2 trusts paths ks → key ∈ tk_key <$> ks →
  ∃ p contents, p ∈ paths ∧ read_file p = Ok contents ∧ names_key contents key.
Proof.
  intros Hks2 (k & -> & Hin)%list_elem_of_fmap. apply list_elem_of_lookup in Hin as [i Hi].
  destruct (Forall2_lookup_r _ _ _ _ _ Hks2 Hi) as (p & Hp & _ & c & Hr & _ & Hn).
  exists p, c. split; [by eapply list_elem_of_lookup_2 | done].
Qed.

(** The operator's verifier fails closed.  It is made exactly when the evidence
    directory exists, there is at least one key file, every file names a key and no two
    name the same kid; it then trusts the files' keys in their order and nothing else,
    each kid being the canonical one of its key.  A file names a key by the 64 digits of
    its 32 bytes or by the one canonical DER. *)
Theorem operator_verifier_fails_closed dir paths v :
  operator_verifier dirs store_display read_file dir paths = Ok v ↔
  ∃ ks, v = (λ store, CasDsseEvidenceVerifier (evidence_load store_display store) (tk_key <$> ks))
    ∧ is_Some (dirs dir) ∧ paths ≠ [] ∧ NoDup (tk_kid <$> ks)
    ∧ Forall2 (λ p k, tk_kid k = canonical_kid (tk_key k)
        ∧ ∃ contents, read_file p = Ok contents ∧ parse_trust_key contents = Ok k ∧ names_key contents (tk_key k)) paths ks.
Proof. apply operator_verifier_ok. Qed.

(** C14: what the operator's daemon runs is attested by what the operator trusts.  A run
    it authorizes has a grant signed by the key of one of the configured files, and for
    each role an envelope that the evidence directory holds intact under the digest the
    grant names, signed by the key of one of those files over a statement that asserts
    the role for this very run. *)
Theorem operator_run_is_attested `{!Capnp, !Confinement} dir paths v store clock sb gb policy a :
  operator_verifier dirs store_display read_file dir paths = Ok v →
  authorize_with_verifier clock sb gb policy (v store) = Ok a →
  ∃ gm grant, capnp_read gb = Got gm ∧ grant_root gm = Got grant
  ∧ (∃ signing sig p contents key, grant_signing_bytes gb = Ok signing ∧ read_grant_signature grant = Ok (Some sig)
     ∧ p ∈ paths ∧ read_file p = Ok contents ∧ names_key contents key
     ∧ ed_verify (pae GRANT_SIGNATURE_PAYLOAD_TYPE signing) (sg_value sig) key = true)
  ∧ ∀ f, ∃ r bytes envelope p contents key st sub,
      evidence_of grant f = Got r ∧ read_digest (er_digest r) (EvidenceField_as_str f +:+ ".digest") = Ok (digest_name bytes)
      ∧ FsBlobStore_get store (blake3 bytes) = Ok (Some bytes) ∧ envelope_from_json_slice bytes = Ok envelope
      ∧ p ∈ paths ∧ read_file p = Ok contents ∧ names_key contents key ∧ env_signatures envelope ≠ []
      ∧ Forall (λ s, ed_verify (pae PAYLOAD_TYPE (env_payload envelope)) (se_sig s) key = true) (env_signatures envelope)
      ∧ statement_from_json_slice (env_payload envelope) = Ok st ∧ st_predicate_type st = APAS_PREDICATE_TYPE
      ∧ sub ∈ st_subject st ∧ sub_name sub = EvidenceField_as_str f ∧ subject_digest sub RUN_BINDING_ALGORITHM = Some (au_run_id a).
Proof.
  intros (ks & -> & _ & _ & _ & Hks2)%operator_verifier_ok (sm & gm & spec & grant & _ & _ & Hgm & Hgrant & Hg)%authorize_granted.
  exists gm, grant. split; [done |]. split; [done |]. split.
  - destruct (gd_issuer _ _ _ _ _ _ _ _ Hg) as (signing & signature & Hsign & Hread & Hver).
    apply dsse_verify_grant_ok in Hver as (sig & key & Hsig & _ & Hin & Hed). cbn in Hsig, Hed. subst.
    destruct (trusted_file _ _ _ Hks2 Hin) as (p & c & ? & ? & ?). by exists signing, sig, p, c, key.
  - intros f. destruct (gd_evidence _ _ _ _ _ _ _ _ Hg f) as (ev & Hver & r & Hr & Hd). apply dsse_verify_ok in Hver.
    destruct Hver as (bytes & envelope & key & st & sub & Hload & Hname & Henv & Hne & Hin & Hsig & Hst & Hpred & Hsub & Hf & Hrun).
    destruct (trusted_file _ _ _ Hks2 Hin) as (p & c & ? & ? & ?). apply evidence_load_ok in Hload as [_ Hget].
    exists r, bytes, envelope, p, c, key, st, sub. rewrite Hname. by split_and!.
Qed.
End operator.

(** ** A daemon to run

    One key file of 64 digits and a newline, and a directory that holds one envelope. *)
Definition byte_keys : Ed25519 :=
  {| VerifyingKey := list byte; pk_bytes := λ k, k; ed_verify := λ _ sig _, bool_decide (sig = replicate 64 x05); sha256 := λ l, l |}.
Definition byte_codec : @KeyCodec byte_keys :=
  {| std_base64_decode := λ l, ok_or (hex_decode l) "not digits"%string; verifying_key_from_bytes := λ raw, Ok (E := string) (raw : @VerifyingKey byte_keys) |}.
Lemma byte_codec_laws : @KeyCodecLaws byte_keys byte_codec.
Proof. split. by intros raw k [= ->]. Qed.
#[local] Existing Instances demo_hash demo_fmt byte_keys byte_codec byte_codec_laws demo_wire demo_capnp demo_confinement.

Definition key_files (p : string) : result string (list byte) :=
  if bool_decide (p = "issuer.hex"%string) then Ok (bytes_of (hex_of xab) ++ [x0a])
  else if bool_decide (p = "issuer.pem"%string)
  then Ok (PEM_BEGIN ++ [x0a] ++ bytes_of (hex_bytes (ED25519_SPKI_PREFIX ++ replicate 32 xab)) ++ [x0a] ++ PEM_END)
  else Err "No such file"%string.
Definition empty_dir : FsBlobStore := {| fs_files := ∅; fs_pid := 7; fs_nonce := 0 |}.
Definition demo_dirs (p : string) : option FsBlobStore := if bool_decide (p = "evidence"%string) then Some empty_dir else None.
Definition demo_display (e : store_error) : string := "i/o"%string.
Definition demo_store : FsBlobStore := snd (evidence_insert NoFault [x44] empty_dir).

Lemma evidence_store_roundtrip_witness :
  ∃ v, evidence_load demo_display (insert_all [(FailRename, [x45]); (NoFault, [x46])] demo_store) ("blake3-256:" +:+ hex_of x44)%string = Ok v.
Proof.
  assert (evidence_insert NoFault [x44] empty_dir = (Ok ("blake3-256:" +:+ hex_of x44)%string, demo_store)) as Hins by (vm_compute; reflexivity).
  destruct (evidence_store_roundtrip demo_display _ _ _ _ _ [(FailRename, [x45]); (NoFault, [x46])] Hins) as (_ & (v & Hv & _) & _).
  exists v. exact Hv.
Defined.

(** A missing directory, no key file, a missing file and a repeated key are refused. *)
Lemma operator_verifier_fails_closed_witness :
  operator_verifier demo_dirs demo_display key_files "missing" ["issuer.hex"%string] = Err (BadEvidenceStore "missing")
  ∧ operator_verifier demo_dirs demo_display key_files "evidence" [] = Err ConfigNoTrustKeys
  ∧ operator_verifier demo_dirs demo_display key_files "evidence" ["absent"%string] = Err (BadTrustKey "absent" "No such file")
  ∧ ∃ v ks, operator_verifier demo_dirs demo_display key_files "evidence" ["issuer.hex"%string] = Ok v
      ∧ v = (λ store, CasDsseEvidenceVerifier (evidence_load demo_display store) (tk_key <$> ks)).
Proof.
  split; [vm_compute; reflexivity |]. split; [reflexivity |]. split; [vm_compute; reflexivity |].
  assert (is_ok (operator_verifier demo_dirs demo_display key_files "evidence" ["issuer.hex"%string]) = true) as Hok by (vm_compute; reflexivity).
  destruct (operator_verifier demo_dirs demo_display key_files "evidence" ["issuer.hex"%string]) as [v | |] eqn:E; [| discriminate Hok | discriminate Hok].
  destruct (proj1 (operator_verifier_fails_closed _ _ _ _ _ v) E) as (ks & Hv & _). exists v, ks. split; [reflexivity | exact Hv].
Defined.

Definition operator_authorize (store : FsBlobStore) : result EvidenceConfigError (result ExecutionError AuthorizedExecution) :=
  (λ v, authorize_with_verifier 49 [x11] [x22] demo_policy (v store))
  <$> operator_verifier demo_dirs demo_display key_files "evidence" ["issuer.hex"%string].
(** With the envelope in the directory the run is attested, without it refused. *)
Lemma operator_run_is_attested_witness :
  (∃ e, operator_authorize empty_dir = Ok (Err e) ∧ rejection_of e = Some EvidenceMissing)
  ∧ ∃ v a, operator_verifier demo_dirs demo_display key_files "evidence" ["issuer.hex"%string] = Ok v
      ∧ authorize_with_verifier 49 [x11] [x22] demo_policy (v demo_store) = Ok a
      ∧ ∃ p key contents, p ∈ ["issuer.hex"%string] ∧ key_files p = Ok contents ∧ names_key contents key.
Proof.
  split; [eexists; split; vm_compute; reflexivity |].
  assert (match operator_authorize demo_store with Ok r => is_ok r | _ => false end = true) as Hok by (vm_compute; reflexivity).
  unfold operator_authorize in Hok.
  destruct (operator_verifier demo_dirs demo_display key_files "evidence" ["issuer.hex"%string]) as [v | |] eqn:E; [| discriminate Hok | discriminate Hok].
  change (is_ok (authorize_with_verifier 49 [x11] [x22] demo_policy (v demo_store)) = true) in Hok.
  destruct (authorize_with_verifier 49 [x11] [x22] demo_policy (v demo_store)) as [a | |] eqn:Ea; [| discriminate Hok | discriminate Hok].
  exists v, a. split; [reflexivity | split; [exact Ea |]].
  destruct (operator_run_is_attested _ _ _ _ _ _ _ _ _ _ _ _ E Ea) as (_ & _ & _ & _ & (_ & _ & p & c & key & _ & _ & Hp & Hr & Hn & _) & _).
  exists p, key, c. split; [exact Hp | split; [exact Hr | exact Hn]].
Defined.
(** The two spellings of one key are one kid. *)
Example both_spellings_repeat :
  operator_verifier demo_dirs demo_display key_files "evidence" ["issuer.hex"; "issuer.pem"]%string
  = Err (DuplicateTrustKey "issuer.pem" "302a300506032b6570032100abababab").
Proof. vm_compute. reflexivity. Qed.
