(* ===== verification/Merkle.v ===== *)
(** * Inclusion proofs over leaf hashes

    [rs/ll-open/sheaf/src/merkle.rs]: the Merkle tree with domain separation that the
    sheaf cache and the wire path share: root, leaf hash, inclusion proofs and their
    verification.  An odd last node is promoted without hashing. *)

From S2P Require Import Prelude Substrate.
From Stdlib Require Import NArith Lia.

Definition TAG_LEAF : byte := x00.
Definition TAG_INTERNAL : byte := x01.
Definition TAG_EMPTY : byte := x02.

Record MerkleProof := { siblings : list (Hash * bool) }.

Section merkle.
Context `{Blake3}.

(** The bytes each kind of node hashes. *)
Definition leaf_frame (data : list byte) : list byte := TAG_LEAF :: data.
Definition internal_frame (left right : Hash) : list byte := TAG_INTERNAL :: as_bytes left ++ as_bytes right.
Definition empty_frame : list byte := TAG_EMPTY :: [x65; x6d; x70; x74; x79].

Definition combine (left right : Hash) : Hash := content_hash (internal_frame left right).
Definition hash_node (data : list byte) : Hash := content_hash (leaf_frame data).

(** One pass over [level.chunks(2)]. *)
Fixpoint next_level (level : list Hash) : list Hash :=
  match level with
  | l :: r :: rest => combine l r :: next_level rest
  | _ => level
  end.
Fixpoint root_loop (fuel : nat) (level : list Hash) : list Hash :=
  match fuel with
  | O => level
  | S fuel => if (1 <? length level)%nat then root_loop fuel (next_level level) else level
  end.
Definition compute_merkle_root (leaf_hashes : list Hash) : result unit Hash :=
  match leaf_hashes with
  | [] => Ok (content_hash empty_frame)
  | [leaf] => Ok leaf
  | _ => match root_loop (length leaf_hashes) leaf_hashes with root :: _ => Ok root | [] => Panic end
  end.

(** One turn of the proof loop: the sibling of [pos], if it has one. *)
Definition proof_step (level : list Hash) (pos : nat) : result unit (list (Hash * bool)) :=
  if Nat.even pos then
    if (pos + 1 <? length level)%nat
    then match level !! (pos + 1)%nat with Some s => Ok [(s, false)] | None => Panic end
    else Ok []
  else match level !! (pos - 1)%nat with Some s => Ok [(s, true)] | None => Panic end.
Fixpoint proof_loop (fuel : nat) (level : list Hash) (pos : nat) : result unit (list (Hash * bool)) :=
  match fuel with
  | O => Ok []
  | S fuel =>
      if (1 <? length level)%nat then
        here ← proof_step level pos;
        above ← proof_loop fuel (next_level level) (pos / 2);
        mret (here ++ above)
      else Ok []
  end.
Definition merkle_proof (leaf_hashes : list Hash) (index : nat) : result unit MerkleProof :=
  _ ← assert_ (index <? length leaf_hashes)%nat;
  siblings ← proof_loop (length leaf_hashes) leaf_hashes index;
  mret {| siblings := siblings |}.

Definition fold_sibling (current : Hash) (s : Hash * bool) : Hash :=
  if s.2 then combine s.1 current else combine current s.1.
Definition verify_merkle_proof (leaf : Hash) (proof : MerkleProof) (root : Hash) : bool :=
  bool_decide (foldl fold_sibling leaf (siblings proof) = root).

(** ** Levels *)

Lemma length_next_level l : length (next_level l) = ((length l + 1) / 2)%nat.
Proof.
  assert (∀ n l, (length l ≤ n)%nat → length (next_level l) = ((length l + 1) / 2)%nat) as Hn; [| by apply (Hn (length l))].
  induction n as [| n IH]; intros [| a [| b l']]; cbn [next_level length]; intros Hl; try done; try lia.
  rewrite IH by lia. replace (S (S (length l')) + 1)%nat with (length l' + 1 + 1 * 2)%nat by lia. rewrite Nat.div_add by lia. lia.
Qed.
Lemma next_level_shrinks l : (1 < length l)%nat → (length (next_level l) < length l ∧ 1 ≤ length (next_level l))%nat.
Proof.
  intros Hl. rewrite length_next_level. split; [apply Nat.div_lt_upper_bound; lia | apply Nat.div_le_lower_bound; lia].
Qed.
(** A node of the next level is two of this one, or one that was promoted. *)
Lemma next_level_lookup l (i : nat) : next_level l !! i
  = match l !! (2 * i)%nat, l !! (2 * i + 1)%nat with Some a, Some b => Some (combine a b) | Some a, None => Some a | None, _ => None end.
Proof.
  revert l. induction i as [| i IH]; intros [| a [| b l]]; try done.
  replace (2 * S i)%nat with (S (S (2 * i))) by lia. replace (S (S (2 * i)) + 1)%nat with (S (S (2 * i + 1))) by lia. cbn. apply IH.
Qed.

Lemma root_loop_single fuel level : (1 ≤ length level ≤ fuel)%nat → ∃ root, root_loop fuel level = [root].
Proof.
  revert level. induction fuel as [| fuel IH]; intros level Hl; [lia |]. cbn [root_loop].
  destruct (Nat.ltb_spec 1 (length level)) as [Hgt | Hle]; [apply IH; pose proof (next_level_shrinks level Hgt); lia |].
  destruct level as [| a [| b level]]; cbn in *; [lia | eauto | lia].
Qed.
Lemma compute_merkle_root_loop ls : ls ≠ [] → ∃ root, compute_merkle_root ls = Ok root ∧ root_loop (length ls) ls = [root].
Proof.
  intros Hne. destruct (root_loop_single (length ls) ls) as [root Hr]; [destruct ls; [done | cbn; lia] |]. exists root. split; [| done].
  unfold compute_merkle_root. destruct ls as [| a [| b ls]]; [done | by injection Hr as -> | by rewrite Hr].
Qed.

(** ** Completeness *)

Lemma fold_step level pos here x y : (1 < length level)%nat → level !! pos = Some x → proof_step level pos = Ok here →
  next_level level !! (pos / 2)%nat = Some y → foldl fold_sibling x here = y.
Proof.
  intros Hl Hx Hs. rewrite next_level_lookup. unfold proof_step in Hs. destruct (Nat.even pos) eqn:Ee.
  - apply Nat.even_spec in Ee as [k ->]. replace (2 * k / 2)%nat with k by (rewrite Nat.mul_comm, Nat.div_mul; lia). rewrite Hx.
    destruct (Nat.ltb_spec (2 * k + 1) (length level)) as [Hlt | Hge].
    + destruct (level !! (2 * k + 1)%nat) as [r |]; [| done]. injection Hs as <-. by intros [= <-].
    + rewrite (lookup_ge_None_2 level (2 * k + 1)) by lia. injection Hs as <-. by intros [= <-].
  - assert (Nat.odd pos = true) as Ho by (unfold Nat.odd; by rewrite Ee). apply Nat.odd_spec in Ho as [k ->].
    replace ((2 * k + 1) / 2)%nat with k by (rewrite Nat.mul_comm, Nat.div_add_l by lia; cbn; lia).
    replace (2 * k + 1 - 1)%nat with (2 * k)%nat in Hs by lia. rewrite Hx.
    destruct (level !! (2 * k)%nat) as [l |]; [| done]. injection Hs as <-. by intros [= <-].
Qed.
Lemma proof_step_ok level pos : (pos < length level)%nat → ∃ here, proof_step level pos = Ok here ∧ (length here ≤ 1)%nat.
Proof.
  intros Hp. unfold proof_step. destruct (Nat.even pos).
  - destruct (Nat.ltb_spec (pos + 1) (length level)) as [Hlt | _]; [| exists []; split; [done | cbn; lia]].
    destruct (lookup_lt_is_Some_2 level (pos + 1) Hlt) as [s ->]. exists [(s, false)]. split; [done | cbn; lia].
  - destruct (lookup_lt_is_Some_2 level (pos - 1)) as [s ->]; [lia |]. exists [(s, true)]. split; [done | cbn; lia].
Qed.
Lemma proof_loop_ok fuel level pos x root : (pos < length level ≤ fuel)%nat → level !! pos = Some x → root_loop fuel level = [root] →
  ∃ sibs, proof_loop fuel level pos = Ok sibs ∧ foldl fold_sibling x sibs = root
    ∧ ∀ k, (length level ≤ 2 ^ k)%nat → (length sibs ≤ k)%nat.
Proof.
  revert level pos x. induction fuel as [| fuel IH]; intros level pos x Hp Hx Hr; [lia |]. cbn [root_loop proof_loop] in *.
  destruct (Nat.ltb_spec 1 (length level)) as [Hgt | Hle].
  - pose proof (next_level_shrinks level Hgt) as [Hs1 Hs2]. destruct (proof_step_ok level pos) as (here & Hh & Hh1); [lia |].
    assert (pos / 2 < length (next_level level))%nat as Hp2.
    { rewrite length_next_level. apply Nat.div_lt_upper_bound; [lia |]. pose proof (Nat.div_mod_eq (length level + 1) 2).
      pose proof (Nat.mod_upper_bound (length level + 1) 2). lia. }
    destruct (lookup_lt_is_Some_2 _ _ Hp2) as [y Hy]. destruct (IH (next_level level) (pos / 2) y) as (above & Ha & Hf & Hk); [lia | done.. |].
    exists (here ++ above). rewrite Hh, bind_Ok, Ha, bind_Ok. split_and!; [done | |].
    + rewrite foldl_app. by rewrite (fold_step level pos here x y).
    + intros [| k] Hl; [cbn in Hl; lia |]. rewrite length_app. assert (length above ≤ k)%nat; [| lia]. apply Hk.
      rewrite length_next_level. cbn in Hl. apply Nat.lt_succ_r, Nat.div_lt_upper_bound; lia.
  - exists []. assert (pos = 0)%nat as -> by lia. destruct level as [| a [| b level]]; cbn in *; try lia. simplify_eq. split_and!; [done.. |]. lia.
Qed.

(** ** Soundness *)

(** What a verification hashes on the way up. *)
Definition sibling_frame (current : Hash) (s : Hash * bool) : list byte :=
  if s.2 then internal_frame s.1 current else internal_frame current s.1.
Fixpoint fold_frames (current : Hash) (sibs : list (Hash * bool)) : list (list byte) :=
  match sibs with [] => [] | s :: sibs => sibling_frame current s :: fold_frames (fold_sibling current s) sibs end.
Definition call_frames (data : list byte) (p : MerkleProof) : list (list byte) :=
  leaf_frame data :: fold_frames (hash_node data) (siblings p).
(** The tree of the leaves, and what it hashes. *)
Inductive mtree := MLeaf (data : list byte) | MNode (l r : mtree).
Fixpoint mhash (t : mtree) : Hash := match t with MLeaf d => hash_node d | MNode l r => combine (mhash l) (mhash r) end.
Fixpoint mleaves (t : mtree) : list (list byte) := match t with MLeaf d => [d] | MNode l r => mleaves l ++ mleaves r end.
Fixpoint mframes (t : mtree) : list (list byte) :=
  match t with
  | MLeaf d => [leaf_frame d]
  | MNode l r => internal_frame (mhash l) (mhash r) :: mframes l ++ mframes r
  end.
Fixpoint pair_up (ts : list mtree) : list mtree := match ts with l :: r :: rest => MNode l r :: pair_up rest | _ => ts end.
Fixpoint tree_loop (fuel : nat) (ts : list mtree) : list mtree :=
  match fuel with O => ts | S fuel => if (1 <? length ts)%nat then tree_loop fuel (pair_up ts) else ts end.
Definition tree_frames (ds : list (list byte)) : list (list byte) :=
  match ds with [] => [empty_frame] | _ => tree_loop (length ds) (MLeaf <$> ds) ≫= mframes end.

Lemma pair_up_hash ts : mhash <$> pair_up ts = next_level (mhash <$> ts).
Proof.
  assert (∀ n ts, (length ts ≤ n)%nat → mhash <$> pair_up ts = next_level (mhash <$> ts)) as Hn; [| by apply (Hn (length ts))].
  induction n as [| n IH]; intros [| a [| b ts']]; cbn; intros Hl; try done; try lia. f_equal. apply IH. lia.
Qed.
Lemma pair_up_leaves ts : pair_up ts ≫= mleaves = ts ≫= mleaves.
Proof.
  assert (∀ n ts, (length ts ≤ n)%nat → pair_up ts ≫= mleaves = ts ≫= mleaves) as Hn; [| by apply (Hn (length ts))].
  induction n as [| n IH]; intros [| a [| b ts']]; cbn; intros Hl; try done; try lia. rewrite IH by lia. by rewrite app_assoc.
Qed.
Lemma tree_loop_hash fuel ts : mhash <$> tree_loop fuel ts = root_loop fuel (mhash <$> ts).
Proof.
  revert ts. induction fuel as [| fuel IH]; intros ts; [done |]. cbn [tree_loop root_loop]. rewrite length_fmap.
  destruct (1 <? length ts)%nat; [| done]. by rewrite IH, pair_up_hash.
Qed.
Lemma tree_loop_leaves fuel ts : tree_loop fuel ts ≫= mleaves = ts ≫= mleaves.
Proof.
  revert ts. induction fuel as [| fuel IH]; intros ts; [done |]. cbn [tree_loop]. destruct (1 <? length ts)%nat; [| done].
  by rewrite IH, pair_up_leaves.
Qed.
(** The root is the hash of one tree over exactly the leaves. *)
Lemma root_tree ds root : ds ≠ [] → compute_merkle_root (hash_node <$> ds) = Ok root →
  ∃ t, mhash t = root ∧ mleaves t = ds ∧ tree_frames ds = mframes t.
Proof.
  intros Hne Hroot. destruct (compute_merkle_root_loop (hash_node <$> ds)) as (r & Hr & Hloop); [by destruct ds |].
  rewrite Hroot in Hr. injection Hr as <-. rewrite length_fmap in Hloop.
  assert (hash_node <$> ds = mhash <$> (MLeaf <$> ds)) as Hm by (by rewrite <- list_fmap_compose). rewrite Hm, <- tree_loop_hash in Hloop.
  pose proof (tree_loop_leaves (length ds) (MLeaf <$> ds)) as Hl.
  destruct (tree_loop (length ds) (MLeaf <$> ds)) as [| t [| t' ts]] eqn:E; try done. injection Hloop as Ht. exists t.
  split_and!; [done | |].
  - cbn in Hl. rewrite app_nil_r in Hl. rewrite Hl. clear. induction ds as [| d ds IH]; [done |]. cbn. by f_equal.
  - unfold tree_frames. destruct ds; [done |]. rewrite E. cbn. by rewrite app_nil_r.
Qed.

Definition collides (xs ys : list (list byte)) : Prop := ∃ x y, x ∈ xs ∧ y ∈ ys ∧ collision blake3 x y.
Lemma collides_mono xs xs' ys ys' : collides xs ys → xs ⊆ xs' → ys ⊆ ys' → collides xs' ys'.
Proof. intros (x & y & Hx & Hy & Hc) Hxs Hys. exists x, y. auto. Qed.
Lemma internal_frame_inj l r l' r' : internal_frame l r = internal_frame l' r' → l = l' ∧ r = r'.
Proof.
  unfold internal_frame. intros [= Heq]. apply app_inj_1 in Heq as [? ?]; [| by rewrite !length_as_bytes]. by split; apply as_bytes_inj.
Qed.
Lemma frame_hash x s : content_hash (sibling_frame x s) = fold_sibling x s.
Proof. unfold sibling_frame, fold_sibling. by destruct s.2. Qed.
Lemma sibling_frame_inj x y s : sibling_frame x s = sibling_frame y s → x = y.
Proof. unfold sibling_frame. by destruct s.2; intros [? ?]%internal_frame_inj. Qed.

Lemma last_frame x sibs s : sibling_frame (foldl fold_sibling x sibs) s ∈ fold_frames x (sibs ++ [s]).
Proof. revert x. induction sibs as [| s' sibs IH]; intros x; [left |]. right. apply IH. Qed.

(** Two values that fold to one root through the same siblings are one. *)
Lemma fold_inj sibs x y : foldl fold_sibling x sibs = foldl fold_sibling y sibs →
  x = y ∨ collides (fold_frames x sibs) (fold_frames y sibs).
Proof.
  revert x y. induction sibs as [| s sibs IH]; intros x y; cbn [foldl fold_frames]; [by left |]. intros [Heq | Hc]%IH.
  - rewrite <- !frame_hash in Heq. destruct (eq_or_collision blake3 _ _ Heq) as [Hf | Hc]; [left; by eapply sibling_frame_inj |].
    right. exists (sibling_frame x s), (sibling_frame y s). split_and!; [left | left | done].
  - right. eapply collides_mono; [done | by right..].
Qed.
(** A value that folds to the hash of a tree is a node of it. *)
Lemma fold_to_tree sibs x t : foldl fold_sibling x sibs = mhash t →
  (∃ t', mhash t' = x ∧ mleaves t' ⊆ mleaves t ∧ mframes t' ⊆ mframes t) ∨ collides (fold_frames x sibs) (mframes t).
Proof.
  revert x t. induction sibs as [| s sibs IH] using rev_ind; intros x t; [intros Hx; left; by exists t |].
  rewrite foldl_app. cbn [foldl]. set (y := foldl fold_sibling x sibs). intros Hy. rewrite <- frame_hash in Hy.
  pose proof (last_frame x sibs s : sibling_frame y s ∈ fold_frames x (sibs ++ [s])) as Hin.
  assert (fold_frames x sibs ⊆ fold_frames x (sibs ++ [s])) as Hsub.
  { clear. revert x. induction sibs as [| s' sibs IH]; intros x; cbn; [set_solver |]. specialize (IH (fold_sibling x s')). set_solver. }
  destruct t as [d | l r].
  - right. exists (sibling_frame y s), (leaf_frame d). split_and!; [done | left |]. split; [| done].
    unfold sibling_frame, internal_frame, leaf_frame. by destruct s.2.
  - destruct (eq_or_collision blake3 (sibling_frame y s) (internal_frame (mhash l) (mhash r)) Hy) as [Hf | Hc].
    + assert (y = mhash l ∨ y = mhash r) as [Hyl | Hyr].
      { unfold sibling_frame in Hf. destruct s.2; apply internal_frame_inj in Hf as [? ?]; auto. }
      * destruct (IH x l Hyl) as [(t' & ? & ? & ?) | Hc]; [left; exists t'; cbn; set_solver |].
        right. eapply collides_mono; [done.. | cbn; set_solver].
      * destruct (IH x r Hyr) as [(t' & ? & ? & ?) | Hc]; [left; exists t'; cbn; set_solver |].
        right. eapply collides_mono; [done.. | cbn; set_solver].
    + right. exists (sibling_frame y s), (internal_frame (mhash l) (mhash r)). split_and!; [done | left | done].
Qed.

(** Nothing folds to the root of no leaves. *)
Lemma empty_root x sibs : foldl fold_sibling (hash_node x) sibs = content_hash empty_frame →
  collides (leaf_frame x :: fold_frames (hash_node x) sibs) [empty_frame].
Proof.
  induction sibs as [| s sibs _] using rev_ind.
  - intros Hx. exists (leaf_frame x), empty_frame. split_and!; [left | left | by split].
  - rewrite foldl_app. cbn [foldl]. rewrite <- frame_hash. set (y := foldl fold_sibling (hash_node x) sibs). intros Hy.
    exists (sibling_frame y s), empty_frame. split_and!; [right | left | split; [| done]].
    + apply last_frame.
    + unfold sibling_frame, internal_frame, empty_frame. by destruct s.2.
Qed.

(** Inclusion proofs are exact.  The root always exists; every leaf has a proof of
    at most logarithmic length that verifies it, and asking past the end panics; a proof
    made for a position verifies only the content at that position, and any proof at all
    verifies only content of some leaf, unless two explicit inputs of the hash collide,
    one of them hashed by the verification. *)
Theorem inclusion_proofs_exact (ds : list (list byte)) : ∃ root, compute_merkle_root (hash_node <$> ds) = Ok root
  ∧ (∀ i d, ds !! i = Some d → ∃ p, merkle_proof (hash_node <$> ds) i = Ok p ∧ verify_merkle_proof (hash_node d) p root = true
       ∧ ∀ k, (length ds ≤ 2 ^ k)%nat → (length (siblings p) ≤ k)%nat)
  ∧ (∀ i, (length ds ≤ i)%nat → merkle_proof (hash_node <$> ds) i = Panic)
  ∧ (∀ i d p x, ds !! i = Some d → merkle_proof (hash_node <$> ds) i = Ok p → verify_merkle_proof (hash_node x) p root = true →
       x = d ∨ collides (call_frames x p) (call_frames d p))
  ∧ (∀ p x, verify_merkle_proof (hash_node x) p root = true → x ∈ ds ∨ collides (call_frames x p) (tree_frames ds)).
Proof.
  assert (∃ root, compute_merkle_root (hash_node <$> ds) = Ok root) as [root Hroot].
  { destruct ds as [| d ds]; [by eexists |]. destruct (compute_merkle_root_loop (hash_node <$> d :: ds)) as (r & Hr & _); eauto. }
  assert (∀ i d, ds !! i = Some d → ∃ p, merkle_proof (hash_node <$> ds) i = Ok p ∧ foldl fold_sibling (hash_node d) (siblings p) = root
    ∧ ∀ k, (length ds ≤ 2 ^ k)%nat → (length (siblings p) ≤ k)%nat) as Hcomplete.
  { intros i d Hd. pose proof (lookup_lt_Some _ _ _ Hd) as Hi.
    destruct (compute_merkle_root_loop (hash_node <$> ds)) as (r & Hr & Hloop); [by destruct ds |].
    rewrite Hroot in Hr. injection Hr as <-.
    destruct (proof_loop_ok (length (hash_node <$> ds)) (hash_node <$> ds) i (hash_node d) root) as (sibs & Hs & Hf & Hk);
      [rewrite length_fmap; lia | by rewrite list_lookup_fmap, Hd | done |].
    exists {| siblings := sibs |}. unfold merkle_proof. rewrite Hs, length_fmap. destruct (Nat.ltb_spec i (length ds)); [| lia].
    rewrite length_fmap in Hk. done. }
  exists root. split_and!; [done | | | |].
  - intros i d Hd. destruct (Hcomplete i d Hd) as (p & Hp & Hf & Hk). exists p. split_and!; [done | | done]. by apply bool_decide_eq_true.
  - intros i Hi. unfold merkle_proof. rewrite length_fmap. by destruct (Nat.ltb_spec i (length ds)); [lia |].
  - intros i d p x Hd Hp Hv%bool_decide_eq_true. destruct (Hcomplete i d Hd) as (p' & Hp' & Hf & _). rewrite Hp in Hp'. injection Hp' as <-.
    rewrite <- Hf in Hv. apply fold_inj in Hv as [Heq | Hc]; [| right; eapply collides_mono; [done | by right..]].
    destruct (eq_or_collision blake3 (leaf_frame x) (leaf_frame d) Heq) as [[= ->] | Hc]; [by left | right].
    exists (leaf_frame x), (leaf_frame d). split_and!; [left | left | done].
  - intros p x Hv%bool_decide_eq_true. destruct (decide (ds = [])) as [-> | Hne].
    + right. injection Hroot as <-. apply empty_root in Hv. eapply collides_mono; [done | | done]. done.
    + destruct (root_tree ds root Hne Hroot) as (t & <- & <- & ->). apply fold_to_tree in Hv as [(t' & Ht' & Hl & Hfr) | Hc];
        [| right; eapply collides_mono; [done | by right | done]].
      destruct t' as [d | l r].
      * destruct (eq_or_collision blake3 (leaf_frame d) (leaf_frame x) Ht') as [[= ->] | [Hne' Heq]]; [left; apply Hl; left | right].
        exists (leaf_frame x), (leaf_frame d). split_and!; [left | apply Hfr; left | by split].
      * right. exists (leaf_frame x), (internal_frame (mhash l) (mhash r)). split_and!; [left | apply Hfr; left | by split].
Qed.
End merkle.
