(* ===== verification/Topology.v ===== *)
(** * The restriction graph

    [rs/ll-open/sheaf/src/topology.rs]: regions, undirected edges and the bounded walk. *)

From S2P Require Import Prelude.
From Stdlib Require Import NArith Lia.
Local Open Scope N_scope.

(** [type RegionId = u32] *)
Abbreviation RegionId := N.

Record Edge := { e_source : RegionId; e_target : RegionId; e_label : option string }.
Record RestrictionGraph := { regions : gset RegionId; edges : list Edge; adjacency : gmap RegionId (list RegionId) }.

Definition new : RestrictionGraph := {| regions := ∅; edges := []; adjacency := ∅ |}.
Definition add_region (id : RegionId) (g : RestrictionGraph) : RestrictionGraph :=
  {| regions := {[ id ]} ∪ regions g; edges := edges g; adjacency := adjacency g |}.
(** [adjacency.entry(k).or_default().push(v)] *)
Definition push_adjacent (k v : RegionId) (m : gmap RegionId (list RegionId)) : gmap RegionId (list RegionId) :=
  <[k := default [] (m !! k) ++ [v]]> m.
Definition add_edge (source target : RegionId) (label : option string) (g : RestrictionGraph) : RestrictionGraph := {|
  regions := {[ target ]} ∪ ({[ source ]} ∪ regions g);
  edges := edges g ++ [{| e_source := source; e_target := target; e_label := label |}];
  adjacency := push_adjacent target source (push_adjacent source target (adjacency g)) |}.
Definition neighbors (g : RestrictionGraph) (id : RegionId) : list RegionId := default [] (adjacency g !! id).
Definition region_count (g : RestrictionGraph) : nat := size (regions g).
Definition edge_count (g : RestrictionGraph) : nat := length (edges g).

(** The stack is written with its top first: pushing the neighbours in order reverses them. *)
Fixpoint bfs_loop (g : RestrictionGraph) (max_depth : N) (fuel : nat) (visited : gset RegionId)
    (frontier : list (RegionId * N)) (result : list RegionId) : option (list RegionId) :=
  match fuel with
  | O => None
  | S fuel =>
      match frontier with
      | [] => Some result
      | (region, depth) :: rest =>
          if decide (region ∈ visited) then bfs_loop g max_depth fuel visited rest result
          else
            let visited := {[ region ]} ∪ visited in
            let pushed := if depth <? max_depth
                          then (λ n, (n, depth + 1)) <$> filter (λ n, n ∉ visited) (neighbors g region)
                          else [] in
            bfs_loop g max_depth fuel visited (rev pushed ++ rest) (result ++ [region])
      end
  end.
Definition degree_sum (g : RestrictionGraph) (seen : gset RegionId) : nat :=
  sum_list_with (λ x, if decide (x.1 ∈ seen) then 0%nat else length x.2) (map_to_list (adjacency g)).
Definition bfs_fuel (g : RestrictionGraph) : nat := S (S (degree_sum g ∅)).
Definition bfs (g : RestrictionGraph) (start : RegionId) (max_depth : N) : option (list RegionId) :=
  bfs_loop g max_depth (bfs_fuel g) ∅ [(start, 0)] [].

(** A walk of [d] edges. *)
Inductive walk (g : RestrictionGraph) (start : RegionId) : N → RegionId → Prop :=
| walk_here : walk g start 0 start
| walk_step d r n : walk g start d r → n ∈ neighbors g r → walk g start (d + 1) n.

Lemma sum_list_with_split {A} (f h : A → nat) (l : list A) (x : A) (n : nat) :
  NoDup l → x ∈ l → (∀ y, y ∈ l → y ≠ x → h y = f y) → (h x + n = f x)%nat →
  (sum_list_with h l + n = sum_list_with f l)%nat.
Proof.
  induction l as [| y l IH]; [by intros _ ?%not_elem_of_nil |]. intros [Hy Hnd]%NoDup_cons Hx Hsame Hn. cbn.
  apply elem_of_cons in Hx as [-> | Hx].
  - assert (sum_list_with h l = sum_list_with f l) as ->; [| lia].
    assert (∀ z, z ∈ l → h z = f z) as Hl by (intros z Hz; apply Hsame; [by right | congruence]). clear -Hl.
    induction l as [| z l IH]; [done |]. cbn. rewrite Hl by left. rewrite IH; [done |]. intros ??. apply Hl. by right.
  - rewrite (Hsame y) by (by left || congruence). rewrite <- (IH Hnd Hx); [lia | | done].
    intros z Hz. apply Hsame. by right.
Qed.
Lemma degree_sum_visit g seen r : r ∉ seen →
  (degree_sum g ({[ r ]} ∪ seen) + length (neighbors g r) = degree_sum g seen)%nat.
Proof.
  intros Hr. unfold degree_sum, neighbors. destruct (adjacency g !! r) as [ns |] eqn:Hns; cbn.
  - apply (sum_list_with_split _ _ _ (r, ns)).
    + apply NoDup_map_to_list.
    + by apply elem_of_map_to_list.
    + intros [k v] Hin Hne. cbn. assert (k ≠ r) by (intros ->; apply elem_of_map_to_list in Hin; congruence).
      do 2 case_decide; set_solver.
    + cbn. rewrite decide_True by set_solver. by rewrite decide_False.
  - rewrite Nat.add_0_r. assert (∀ x, x ∈ map_to_list (adjacency g) → x.1 ≠ r) as Hne
      by (intros [k v] Hin%elem_of_map_to_list; cbn; congruence).
    induction (map_to_list (adjacency g)) as [| x l IH]; [done |]. cbn.
    rewrite IH by (intros y Hy; apply Hne; by right). f_equal. specialize (Hne x ltac:(left)).
    do 2 case_decide; set_solver.
Qed.
Lemma bfs_loop_spec g start max_depth fuel visited frontier result :
  (length frontier + degree_sum g visited < fuel)%nat →
  NoDup result → (∀ x, x ∈ result ↔ x ∈ visited) →
  (∀ x, x ∈ result → ∃ d, walk g start d x ∧ d <= max_depth) →
  (∀ x d, (x, d) ∈ frontier → walk g start d x ∧ d <= max_depth) →
  ∃ out, bfs_loop g max_depth fuel visited frontier result = Some out ∧ NoDup out ∧
    (∀ x, x ∈ result → x ∈ out) ∧ (∀ x d, (x, d) ∈ frontier → x ∈ out) ∧
    (∀ x, x ∈ out → ∃ d, walk g start d x ∧ d <= max_depth).
Proof.
  revert visited frontier result. induction fuel as [| fuel IH]; intros visited frontier result Hf Hnd Hv Hres Hfr; [lia |].
  cbn [bfs_loop]. destruct frontier as [| [r d] rest].
  { exists result. split_and!; [done | done | done | by intros ?? ?%not_elem_of_nil | done]. }
  destruct (Hfr r d) as [Hw Hd]; [left |]. destruct (decide (r ∈ visited)) as [Hin | Hout].
  - destruct (IH visited rest result) as (out & -> & ? & Hsub & Hfo & Hall);
      [cbn in Hf; lia | done | done | done | intros; apply Hfr; by right |].
    exists out. split_and!; try done. intros x dx [[= -> ->] | Hx]%elem_of_cons; [by apply Hsub, Hv | by eapply Hfo].
  - set (pushed := if d <? max_depth then _ else _).
    assert (length pushed ≤ length (neighbors g r))%nat as Hlen.
    { unfold pushed. destruct (d <? max_depth); [| cbn; lia]. rewrite length_fmap. apply length_filter. }
    assert (∀ x dx, (x, dx) ∈ pushed → walk g start dx x ∧ dx <= max_depth) as Hp.
    { unfold pushed. destruct (N.ltb_spec d max_depth); [| by intros ?? ?%not_elem_of_nil].
      intros x dx (n & [= -> ->] & Hn)%list_elem_of_fmap. apply list_elem_of_filter in Hn as [_ Hn].
      split; [by econstructor | lia]. }
    destruct (IH ({[ r ]} ∪ visited) (rev pushed ++ rest) (result ++ [r])) as (out & -> & ? & Hsub & Hfo & Hall).
    + rewrite length_app, length_rev. cbn in Hf. pose proof (degree_sum_visit g visited r Hout). lia.
    + apply NoDup_app. split; [done |]. split; [| apply NoDup_singleton]. intros x Hx. rewrite Hv in Hx. set_solver.
    + intros x. rewrite elem_of_app, Hv. set_solver.
    + intros x [Hx | ->%list_elem_of_singleton]%elem_of_app; eauto.
    + intros x dx [Hx | Hx]%elem_of_app; [| apply Hfr; by right]. apply Hp. by apply list_elem_of_In, in_rev, list_elem_of_In in Hx.
    + exists out. split_and!; try done; [set_solver |].
      intros x dx [[= -> ->] | Hx]%elem_of_cons; [apply Hsub; set_solver |]. eapply Hfo. apply elem_of_app. by right.
Qed.
(** The walk ends; what it reports is within the bound, once each, the start included. *)
Lemma bfs_sound g start max_depth :
  ∃ out, bfs g start max_depth = Some out ∧ NoDup out ∧ start ∈ out ∧
    ∀ x, x ∈ out → ∃ d, walk g start d x ∧ d <= max_depth.
Proof.
  unfold bfs. destruct (bfs_loop_spec g start max_depth (bfs_fuel g) ∅ [(start, 0)] []) as (out & -> & ? & _ & Hin & ?).
  - unfold bfs_fuel. cbn. lia.
  - constructor.
  - set_solver.
  - by intros ? ?%not_elem_of_nil.
  - intros x d [= -> ->]%list_elem_of_singleton. split; [constructor | lia].
  - exists out. split_and!; [done | done | apply (Hin start 0); left | done].
Qed.
(** The frontier is a stack, so a region can first be taken at a depth that is not its
    distance, and then its neighbours are cut off: region 3 is two hops from 0. *)
Definition detour : RestrictionGraph :=
  add_edge 1 3 None (add_edge 2 1 None (add_edge 0 2 None (add_edge 0 1 None new))).
Lemma bfs_misses_region : bfs detour 0 2 = Some [0; 2; 1] ∧ walk detour 0 2 3.
Proof.
  split; [by vm_compute |]. apply (walk_step _ _ 1 1); [apply (walk_step _ _ 0 0); [constructor |] |].
  all: vm_compute; set_solver.
Qed.
