(* ===== verification/Complex.v ===== *)
(** * The cell complex

    [rs/ll-open/sheaf/src/complex.rs] and [sparse.rs]: the complex of nodes, edges and faces,
    topology deltas, and the violations its first coboundary finds.  [f32] is IEEE binary32 as the Standard Library specifies it, with one NaN.
    A [HashMap] is a finite map; where the code looks at its iteration order, the order is
    the class [HashIter].  A failed [assert!] or [expect] is [Panic]. *)

From S2P Require Import Prelude Substrate.
From Stdlib Require Import NArith Lia.
From Stdlib Require Import SpecFloat.
Local Open Scope N_scope.

(** [type RegionId = u32] *)
Abbreviation RegionId := N.

(** ** Single and double precision *)

Definition f32 : Type := spec_float.
Definition f_zero : f32 := S754_zero false.
Definition f_neg_zero : f32 := S754_zero true.
Definition f_nan : f32 := S754_nan.
Definition f_one : f32 := binary_round 24 128 false 1 0.
Definition f_minus_one : f32 := SFopp f_one.
Definition f_add : f32 → f32 → f32 := SFadd 24 128.
Definition f_sub : f32 → f32 → f32 := SFsub 24 128.
Definition f_mul : f32 → f32 → f32 := SFmul 24 128.
Definition f_abs : f32 → f32 := SFabs.
Definition f_opp : f32 → f32 := SFopp.
Definition f_sqrt : f32 → f32 := SFsqrt 24 128.
(** [a > b] and [a < b]; false when a side is NaN. *)
Definition f_gt (a b : f32) : bool := SFltb b a.
Definition f_lt (a b : f32) : bool := SFltb a b.
Definition f_eqb : f32 → f32 → bool := SFeqb.
(** [Iterator::sum] of floats starts at negative zero. *)
Definition f_sum (l : list f32) : f32 := foldl f_add f_neg_zero l.

Definition f64 : Type := spec_float.
Definition d_zero : f64 := S754_zero false.
Definition d_neg_zero : f64 := S754_zero true.
Definition d_one : f64 := binary_round 53 1024 false 1 0.
Definition d_add : f64 → f64 → f64 := SFadd 53 1024.
Definition d_sub : f64 → f64 → f64 := SFsub 53 1024.
Definition d_mul : f64 → f64 → f64 := SFmul 53 1024.
Definition d_div : f64 → f64 → f64 := SFdiv 53 1024.
Definition d_sum (l : list f64) : f64 := foldl d_add d_neg_zero l.
(** [n as f64] *)
Definition d_of_N (n : N) : f64 := match n with 0 => d_zero | Npos p => binary_round 53 1024 false p 0 end.

Definition wadd32 (a b : N) : N := (a + b) mod (u32_max + 1).

(** [HashMap::iter]: every entry once, in an order the map chooses. *)
Class HashIter := {
  hash_iter : ∀ {V : Type}, gmap N V → list (N * V);
  hash_iter_perm : ∀ (V : Type) (m : gmap N V), hash_iter m ≡ₚ map_to_list m;
}.
Lemma elem_of_hash_iter `{HashIter} {V} (m : gmap N V) k v : (k, v) ∈ hash_iter m ↔ m !! k = Some v.
Proof. rewrite hash_iter_perm. apply elem_of_map_to_list. Qed.

(** ** The cell complex *)

Definition upto (n : N) : list N := N.of_nat <$> seq 0 (N.to_nat n).

(** A dense matrix, column by column. *)
Record DMatrix := { nrows : N; ncols : N; m_data : list f32 }.
Definition matrix_ok (m : DMatrix) : Prop := len (m_data m) = nrows m * ncols m.
(** [DMatrix::zeros] with the entries [f] says; [(i, j)] is row [i], column [j]. *)
Definition from_fn (r c : N) (f : N → N → f32) : DMatrix :=
  {| nrows := r; ncols := c; m_data := j ← upto c; i ← upto r; [f i j] |}.
Definition m_get (m : DMatrix) (i j : N) : f32 := default f_zero (m_data m !! N.to_nat (j * nrows m + i)).

(** A [RestrictionMap] is its matrix. *)
Abbreviation RestrictionMap := DMatrix.
(** Writing outside the matrix panics. *)
Definition project_dim (stalk_dim coord : N) : result unit RestrictionMap :=
  _ ← assert_ (coord <? stalk_dim);
  mret (from_fn 1 stalk_dim (λ _ j, if j =? coord then f_one else f_zero)).
Definition identity_map (dim : N) : RestrictionMap := from_fn dim dim (λ i j, if i =? j then f_one else f_zero).
Definition project_dim_range (stalk_dim agreement_dim : N) : result unit RestrictionMap :=
  _ ← assert_ (agreement_dim <=? stalk_dim);
  mret (from_fn agreement_dim stalk_dim (λ i j, if i =? j then f_one else f_zero)).
(** A later weight of a coordinate replaces an earlier one. *)
Definition weighted (stalk_dim : N) (coords_weights : list (N * f32)) : result unit RestrictionMap :=
  _ ← assert_ (forallb (λ cw, cw.1 <? stalk_dim) coords_weights);
  mret (from_fn 1 stalk_dim (λ _ j, foldl (λ v cw, if cw.1 =? j then cw.2 else v) f_zero coords_weights)).

Record Cell := { c_id : N; c_dimension : N; c_stalk : list f32; c_label : option string; c_is_virtual : bool }.
Record Cell2 := { f_id : N; f_edges : list (N * f32); f_dimension : N }.
Record Violation := { v_edge_id : N; v_dimension_index : N; v_margin : f32; v_is_virtual : bool }.
Record RegionDelta := { rd_added : list (N * list f32); rd_removed : list N; rd_updated_stalks : list (N * list f32) }.
Record EdgeSpec := { es_source : N; es_target : N; es_agreement_dim : N; es_label : option string;
  es_map_source : RestrictionMap; es_map_target : RestrictionMap }.
Record EdgeDelta := { ed_added : list EdgeSpec; ed_removed : list (N * N) }.
Record TopologyDelta := { td_regions : RegionDelta; td_edges : EdgeDelta }.
Definition TopologyDelta_new : TopologyDelta := {|
  td_regions := {| rd_added := []; rd_removed := []; rd_updated_stalks := [] |};
  td_edges := {| ed_added := []; ed_removed := [] |} |}.

Record CellComplex := {
  nodes : list N;
  edges : list N;
  faces : list N;
  cells : gmap N Cell;
  face_cells : gmap N Cell2;
  restriction_maps : gmap (N * N) RestrictionMap;
  incidence : gmap N (N * N);
  node_stalk_dim : N;
}.
Definition CellComplex_new (node_stalk_dim : N) : CellComplex := {|
  nodes := []; edges := []; faces := []; cells := ∅; face_cells := ∅; restriction_maps := ∅; incidence := ∅;
  node_stalk_dim := node_stalk_dim |}.
Definition with_cells (v : gmap N Cell) (cx : CellComplex) : CellComplex := {|
  nodes := nodes cx; edges := edges cx; faces := faces cx; cells := v; face_cells := face_cells cx;
  restriction_maps := restriction_maps cx; incidence := incidence cx; node_stalk_dim := node_stalk_dim cx |}.

Definition set_node_stalk (id : N) (data : list f32) (cx : CellComplex) : result unit CellComplex :=
  _ ← assert_ (len data =? node_stalk_dim cx);
  match cells cx !! id with
  | None => Panic
  | Some cell =>
      _ ← assert_ (c_dimension cell =? 0);
      mret (with_cells (<[id := {| c_id := c_id cell; c_dimension := c_dimension cell; c_stalk := data;
                                   c_label := c_label cell; c_is_virtual := c_is_virtual cell |}]> (cells cx)) cx)
  end.
Definition add_node (id : N) (data : list f32) (cx : CellComplex) : result unit CellComplex :=
  _ ← assert_ (len data =? node_stalk_dim cx);
  _ ← match cells cx !! id with Some existing => assert_ (c_dimension existing =? 0) | None => mret tt end;
  mret {| nodes := nodes cx ++ [id]; edges := edges cx; faces := faces cx;
          cells := <[id := {| c_id := id; c_dimension := 0; c_stalk := data; c_label := None; c_is_virtual := false |}]> (cells cx);
          face_cells := face_cells cx; restriction_maps := restriction_maps cx; incidence := incidence cx;
          node_stalk_dim := node_stalk_dim cx |}.
Definition add_edge (edge_id source target agreement_dim : N) (label : option string) (map_source map_target : RestrictionMap)
    (is_virtual : bool) (cx : CellComplex) : result unit CellComplex :=
  _ ← assert_ (ncols map_source =? node_stalk_dim cx);
  _ ← assert_ (ncols map_target =? node_stalk_dim cx);
  _ ← assert_ (nrows map_source =? agreement_dim);
  _ ← assert_ (nrows map_target =? agreement_dim);
  _ ← match cells cx !! edge_id with Some existing => assert_ (c_dimension existing =? 1) | None => mret tt end;
  mret {| nodes := nodes cx; edges := edges cx ++ [edge_id]; faces := faces cx;
          cells := <[edge_id := {| c_id := edge_id; c_dimension := 1; c_stalk := replicate (N.to_nat agreement_dim) f_zero;
                                   c_label := label; c_is_virtual := is_virtual |}]> (cells cx);
          face_cells := face_cells cx;
          restriction_maps := <[(target, edge_id) := map_target]> (<[(source, edge_id) := map_source]> (restriction_maps cx));
          incidence := <[edge_id := (source, target)]> (incidence cx);
          node_stalk_dim := node_stalk_dim cx |}.
Definition bounds_face (edge_id : N) (face : Cell2) : bool := existsb (λ e, e.1 =? edge_id) (f_edges face).
Definition dead_face (edge_id : N) (cx : CellComplex) (f : N) : bool :=
  match face_cells cx !! f with Some face => bounds_face edge_id face | None => false end.
Definition remove_edge_by_id (edge_id : N) (cx : CellComplex) : CellComplex := {|
  nodes := nodes cx;
  edges := filter (λ e, e ≠ edge_id) (edges cx);
  faces := filter (λ f, dead_face edge_id cx f = false) (faces cx);
  cells := delete edge_id (cells cx);
  face_cells := filter (λ x, bounds_face edge_id x.2 = false) (face_cells cx);
  restriction_maps := match incidence cx !! edge_id with
                      | Some (u, v) => delete (v, edge_id) (delete (u, edge_id) (restriction_maps cx))
                      | None => restriction_maps cx
                      end;
  incidence := delete edge_id (incidence cx);
  node_stalk_dim := node_stalk_dim cx |}.
Definition touches (id : N) (uv : N * N) : bool := (uv.1 =? id) || (uv.2 =? id).
Definition joins (source target : N) (uv : N * N) : bool :=
  ((uv.1 =? source) && (uv.2 =? target)) || ((uv.1 =? target) && (uv.2 =? source)).
Definition from_to (source target : N) (uv : N * N) : bool := (uv.1 =? source) && (uv.2 =? target).

Section complex_ops.
Context `{HashIter}.

Definition remove_node (id : N) (cx : CellComplex) : list N * CellComplex :=
  match cells cx !! id with
  | None => ([], cx)
  | Some _ =>
      let touching := fst <$> filter (λ x, touches id x.2 = true) (hash_iter (incidence cx)) in
      let cx := foldl (λ cx eid, remove_edge_by_id eid cx) cx touching in
      (touching,
       {| nodes := filter (λ n, n ≠ id) (nodes cx); edges := edges cx; faces := faces cx; cells := delete id (cells cx);
          face_cells := face_cells cx; restriction_maps := restriction_maps cx; incidence := incidence cx;
          node_stalk_dim := node_stalk_dim cx |})
  end.
Definition find_edge (p : N * N → bool) (cx : CellComplex) : option N :=
  fst <$> find (λ x, p x.2) (hash_iter (incidence cx)).
Definition remove_edge (source target : N) (cx : CellComplex) : option (N * CellComplex) :=
  eid ← find_edge (joins source target) cx; Some (eid, remove_edge_by_id eid cx).

(** [image[i] += tgt[i,j] * xt - src[i,j] * xs], column after column; for a complex that is
    [wf] every index is in range. *)
Definition column_step (f_src f_tgt : RestrictionMap) (image : list f32) (j : N) (xs xt : f32) : list f32 :=
  imap (λ i v, f_add v (f_sub (f_mul (m_get f_tgt (N.of_nat i) j) xt) (f_mul (m_get f_src (N.of_nat i) j) xs))) image.
Fixpoint columns (f_src f_tgt : RestrictionMap) (j : N) (x_src x_tgt image : list f32) : list f32 :=
  match x_src, x_tgt with
  | xs :: x_src, xt :: x_tgt => columns f_src f_tgt (j + 1) x_src x_tgt (column_step f_src f_tgt image j xs xt)
  | _, _ => image
  end.
Definition edge_violation_squared (cx : CellComplex) (source target : N) : option f32 :=
  edge_id ← find_edge (from_to source target) cx;
  f_src ← restriction_maps cx !! (source, edge_id);
  f_tgt ← restriction_maps cx !! (target, edge_id);
  c_src ← cells cx !! source;
  c_tgt ← cells cx !! target;
  let x_src := c_stalk c_src in
  let x_tgt := c_stalk c_tgt in
  if negb (len x_src =? node_stalk_dim cx) || negb (len x_tgt =? node_stalk_dim cx) then None
  else
    let agreement_dim := nrows f_src in
    if negb (nrows f_tgt =? agreement_dim) then None
    else
      let image := columns f_src f_tgt 0 x_src x_tgt (replicate (N.to_nat agreement_dim) f_zero) in
      Some (f_sum ((λ v, f_mul v v) <$> image)).

(** *** Topology deltas *)

Definition EDGE_ID_BASE : N := 1000000.
Definition delta_remove_edge (st : gset N * CellComplex) (p : N * N) : gset N * CellComplex :=
  let '(touched, cx) := st in
  match remove_edge p.1 p.2 cx with
  | Some (_, cx) => ({[ p.2 ]} ∪ ({[ p.1 ]} ∪ touched), cx)
  | None => (touched, cx)
  end.
Definition delta_remove_region (st : gset N * CellComplex) (rid : N) : gset N * CellComplex :=
  let '(touched, cx) := st in
  let '(dropped_edges, cx) := remove_node rid cx in
  let touched := foldl (λ t eid, match incidence cx !! eid with
                                 | Some (u, v) => {[ v ]} ∪ ({[ u ]} ∪ t)
                                 | None => t
                                 end) touched dropped_edges in
  ({[ rid ]} ∪ touched, cx).
Definition delta_add_region (st : gset N * CellComplex) (r : N * list f32) : result unit (gset N * CellComplex) :=
  let '(touched, cx) := st in
  let '(rid, data) := r in
  cx ← match cells cx !! rid with None => add_node rid data cx | Some _ => set_node_stalk rid data cx end;
  mret ({[ rid ]} ∪ touched, cx).
Definition delta_add_edge (st : gset N * CellComplex) (e : N * EdgeSpec) : result unit (gset N * CellComplex) :=
  let '(touched, cx) := st in
  let '(edge_id, spec) := e in
  cx ← add_edge edge_id (es_source spec) (es_target spec) (es_agreement_dim spec) (es_label spec)
         (es_map_source spec) (es_map_target spec) false cx;
  mret ({[ es_target spec ]} ∪ ({[ es_source spec ]} ∪ touched), cx).
Definition delta_update_stalk (st : gset N * CellComplex) (r : N * list f32) : result unit (gset N * CellComplex) :=
  let '(touched, cx) := st in
  let '(rid, data) := r in
  match cells cx !! rid with
  | Some _ => cx ← set_node_stalk rid data cx; mret ({[ rid ]} ∪ touched, cx)
  | None => mret (touched, cx)
  end.
Definition next_edge_id (cx : CellComplex) : N :=
  match edges cx with [] => EDGE_ID_BASE | _ => N.max (wadd32 (foldr N.max 0 (edges cx)) 1) EDGE_ID_BASE end.
Definition numbered (start : N) (specs : list EdgeSpec) : list (N * EdgeSpec) :=
  imap (λ i s, (wadd32 start (N.of_nat i), s)) specs.
Definition apply_delta (delta : TopologyDelta) (cx : CellComplex) : result unit (list N * CellComplex) :=
  let st := foldl delta_remove_edge (∅, cx) (ed_removed (td_edges delta)) in
  let st := foldl delta_remove_region st (rd_removed (td_regions delta)) in
  st ← fold_result delta_add_region st (rd_added (td_regions delta));
  let next := next_edge_id st.2 in
  st ← fold_result delta_add_edge st (numbered next (ed_added (td_edges delta)));
  '(touched, cx) ← fold_result delta_update_stalk st (rd_updated_stalks (td_regions delta));
  mret (merge_sort N.le (elements touched), cx).
End complex_ops.

(** *** Faces *)

Definition oriented (cx : CellComplex) (e : N * f32) : option (N * N) :=
  '(s, t) ← incidence cx !! e.1; Some (if f_gt e.2 f_zero then (s, t) else (t, s)).
Fixpoint check_face_edges (cx : CellComplex) (seen : list N) (es : list (N * f32)) : result unit unit :=
  match es with
  | [] => mret tt
  | (eid, sign) :: es =>
      _ ← assert_ (bool_decide (eid ∉ seen));
      _ ← assert_ (bool_decide (is_Some (incidence cx !! eid)));
      _ ← assert_ (f_eqb sign f_one || f_eqb sign f_minus_one);
      check_face_edges cx (eid :: seen) es
  end.
(** The end of the walk from [cursor]. *)
Fixpoint follow (cx : CellComplex) (cursor : N) (es : list (N * f32)) : result unit N :=
  match es with
  | [] => mret cursor
  | e :: es =>
      match oriented cx e with
      | None => Panic
      | Some (s, t) => _ ← assert_ (cursor =? s); follow cx t es
      end
  end.
Definition add_face (face_id : N) (es : list (N * f32)) (dim : N) (cx : CellComplex) : result unit CellComplex :=
  _ ← check_face_edges cx [] es;
  match es with
  | [] => Panic
  | e :: _ =>
      match oriented cx e with
      | None => Panic
      | Some (start, _) =>
          cursor ← follow cx start es;
          _ ← assert_ (cursor =? start);
          mret {| nodes := nodes cx; edges := edges cx; faces := faces cx ++ [face_id]; cells := cells cx;
                  face_cells := <[face_id := {| f_id := face_id; f_edges := es; f_dimension := dim |}]> (face_cells cx);
                  restriction_maps := restriction_maps cx; incidence := incidence cx; node_stalk_dim := node_stalk_dim cx |}
      end
  end.

(** *** The first coboundary *)

Definition EPS : f32 := S754_finite false 13743895 (-37).
Definition SPARSE_EPS : f32 := S754_finite false 14411519 (-57).
(** [expect] *)
Definition expect {A} (o : option A) : result unit A := match o with Some a => Ok a | None => Panic end.
(** Row offsets of the edges, in order; an id listed twice keeps its last offset. *)
Fixpoint edge_offsets (cx : CellComplex) (es : list N) (c1_dim : N) (m : gmap N N) : result unit (N * gmap N N) :=
  match es with
  | [] => mret (c1_dim, m)
  | e :: es => cell ← expect (cells cx !! e); edge_offsets cx es (c1_dim + len (c_stalk cell)) (<[e := c1_dim]> m)
  end.
Definition node_offsets (cx : CellComplex) : gmap N N :=
  foldl (λ m x, <[x.2 := N.of_nat x.1 * node_stalk_dim cx]> m) ∅ (imap pair (nodes cx)).
Definition entries (m : DMatrix) (sgn : f32 → f32) (row_start col_start : N) : list (N * N * f32) :=
  r ← upto (nrows m); c ← upto (ncols m);
  let val := sgn (m_get m r c) in
  if f_gt (f_abs val) SPARSE_EPS then [(row_start + r, col_start + c, val)] else [].
Definition edge_triplets (cx : CellComplex) (rows cols : gmap N N) (edge_id : N) : result unit (list (N * N * f32)) :=
  '(u, v) ← expect (incidence cx !! edge_id);
  row_start ← expect (rows !! edge_id);
  u_col ← expect (cols !! u);
  v_col ← expect (cols !! v);
  f_u ← expect (restriction_maps cx !! (u, edge_id));
  f_v ← expect (restriction_maps cx !! (v, edge_id));
  mret (entries f_u f_opp row_start u_col ++ entries f_v id row_start v_col).
(** A coordinate matrix: its shape and its triplets in the order they were pushed. *)
Record CooMatrix := { coo_rows : N; coo_cols : N; triplets : list (N * N * f32) }.
Definition build_delta_0 (cx : CellComplex) : result unit CooMatrix :=
  '(c1_dim, rows) ← edge_offsets cx (edges cx) 0 ∅;
  ts ← fold_result (λ acc e, t ← edge_triplets cx rows (node_offsets cx) e; mret (acc ++ t)) [] (edges cx);
  mret {| coo_rows := c1_dim; coo_cols := len (nodes cx) * node_stalk_dim cx; triplets := ts |}.
Definition global_section (cx : CellComplex) : result unit (list f32) :=
  fold_result (λ acc n, cell ← expect (cells cx !! n); mret (acc ++ c_stalk cell)) [] (nodes cx).

(** [CscMatrix::from]: the columns of a coordinate matrix. *)
Class Csc := {
  csc_col : CooMatrix → N → list (N * f32);
  csc_col_rows : ∀ m c r v, (r, v) ∈ csc_col m c → ∃ v', (r, c, v') ∈ triplets m;
}.
Section coboundary.
Context `{Csc}.

(** [y[row_idx] += val * x_val] *)
Definition axpy (x_val : f32) (y : list f32) (e : N * f32) : result unit (list f32) :=
  y_r ← index_checked e.1 y; mret (<[N.to_nat e.1 := f_add y_r (f_mul e.2 x_val)]> y).
Definition spmv_col (a : CooMatrix) (x : list f32) (y : list f32) (col_idx : N) : result unit (list f32) :=
  x_val ← index_checked col_idx x;
  if f_gt (f_abs x_val) f_zero then fold_result (axpy x_val) y (csc_col a col_idx) else mret y.
Definition spmv (a : CooMatrix) (x : list f32) : result unit (list f32) :=
  fold_result (spmv_col a x) (replicate (N.to_nat (coo_rows a)) f_zero) (upto (coo_cols a)).
Definition edge_violations (bounds : list f32) (st : N * list Violation) (e : N * Cell) : result unit (N * list Violation) :=
  let '(row_offset, vs) := st in
  let dim := len (c_stalk e.2) in
  vs ← fold_result (λ vs i, val ← index_checked (row_offset + i) bounds;
                     mret (if f_gt (f_abs val) EPS
                           then vs ++ [{| v_edge_id := e.1; v_dimension_index := i; v_margin := val; v_is_virtual := c_is_virtual e.2 |}]
                           else vs)) vs (upto dim);
  mret (row_offset + dim, vs).
Definition detect_violations (cx : CellComplex) : result unit (list Violation) :=
  delta ← build_delta_0 cx;
  x ← global_section cx;
  _ ← assert_ (coo_cols delta =? len x);
  bounds ← spmv delta x;
  st ← fold_result (λ st e, cell ← expect (cells cx !! e); edge_violations bounds st (e, cell)) (0, []) (edges cx);
  mret st.2.
End coboundary.

Example EPS_is : EPS = SFdiv 24 128 f_one (binary_round 24 128 false 10000 0).
Proof. by vm_compute. Qed.

(** ** Well-formed complexes *)

(** A face walks back to where it starts. *)
Definition closed (cx : CellComplex) (es : list (N * f32)) : Prop :=
  ∃ e es' s t, es = e :: es' ∧ oriented cx e = Some (s, t) ∧ follow cx s es = Ok s.
Definition map_ok (cx : CellComplex) (e : N) (m : DMatrix) : Prop :=
  matrix_ok m ∧ ncols m = node_stalk_dim cx ∧ ∃ c, cells cx !! e = Some c ∧ nrows m = len (c_stalk c).
Record wf (cx : CellComplex) : Prop := {
  wf_nodes n : n ∈ nodes cx ↔ ∃ c, cells cx !! n = Some c ∧ c_dimension c = 0;
  wf_edges e : e ∈ edges cx ↔ ∃ c, cells cx !! e = Some c ∧ c_dimension c = 1;
  wf_dim i c : cells cx !! i = Some c → c_dimension c = 0 ∨ c_dimension c = 1;
  wf_stalk i c : cells cx !! i = Some c → c_dimension c = 0 → len (c_stalk c) = node_stalk_dim cx;
  wf_inc e : e ∈ edges cx ↔ is_Some (incidence cx !! e);
  wf_ends e u v : incidence cx !! e = Some (u, v) → u ∈ nodes cx ∧ v ∈ nodes cx;
  wf_maps e u v n : incidence cx !! e = Some (u, v) → n = u ∨ n = v →
    ∃ m, restriction_maps cx !! (n, e) = Some m ∧ map_ok cx e m;
  wf_orphan n e m : restriction_maps cx !! (n, e) = Some m → ∃ u v, incidence cx !! e = Some (u, v) ∧ (n = u ∨ n = v);
  wf_faces f : f ∈ faces cx ↔ is_Some (face_cells cx !! f);
  wf_closed f face : face_cells cx !! f = Some face → closed cx (f_edges face);
}.

Lemma follow_ext cx cx' cursor es :
  (∀ e, e ∈ es.*1 → incidence cx' !! e = incidence cx !! e) → follow cx' cursor es = follow cx cursor es.
Proof.
  revert cursor. induction es as [| e es IH]; intros cursor Hi; [done |]. cbn [follow].
  assert (oriented cx' e = oriented cx e) as -> by (unfold oriented; rewrite Hi; [done | left]).
  destruct (oriented cx e) as [[s t] |]; [| done]. rewrite IH; [done |]. intros. apply Hi. by right.
Qed.
Lemma closed_ext cx cx' es :
  (∀ e, e ∈ es.*1 → incidence cx' !! e = incidence cx !! e) → closed cx es → closed cx' es.
Proof.
  intros Hi (e & es' & s & t & -> & Ho & Hf). exists e, es', s, t. split; [done |].
  rewrite (follow_ext cx cx') by done. split; [| done]. unfold oriented. rewrite Hi; [done | left].
Qed.
Lemma follow_known cx cursor es c : follow cx cursor es = Ok c → ∀ e, e ∈ es.*1 → is_Some (incidence cx !! e).
Proof.
  revert cursor. induction es as [| x es IH]; intros cursor; cbn [follow]; [by intros _ ? ?%not_elem_of_nil |].
  unfold oriented. destruct (incidence cx !! x.1) as [[s t] |] eqn:Hx; cbn; [| done].
  intros Hf e [-> | He]%elem_of_cons; [by rewrite Hx |].
  destruct (f_gt x.2 f_zero); apply bind_ok in Hf as (? & _ & Hf); eauto.
Qed.
Lemma closed_known cx es : closed cx es → ∀ e, e ∈ es.*1 → is_Some (incidence cx !! e).
Proof. intros (e & es' & s & t & -> & _ & Hf). by eapply follow_known. Qed.
Lemma not_bounds e face : bounds_face e face = false ↔ e ∉ (f_edges face).*1.
Proof.
  unfold bounds_face. rewrite <- not_true_iff_false, existsb_exists. split; intros Hn.
  - intros (x & -> & Hx)%list_elem_of_fmap. apply Hn. exists x. rewrite <- list_elem_of_In. split; [done | apply N.eqb_refl].
  - intros (x & Hx & Heq%N.eqb_eq). apply Hn, list_elem_of_fmap. exists x. by rewrite list_elem_of_In.
Qed.
Lemma node_not_edge cx i : wf cx → i ∈ nodes cx → i ∉ edges cx.
Proof. intros Hwf (c & Hc & Hd)%(wf_nodes _ Hwf) (c' & Hc' & Hd')%(wf_edges _ Hwf). congruence. Qed.
Lemma new_wf d : wf (CellComplex_new d).
Proof.
  split; cbn; intros *; rewrite ?lookup_empty; try done;
    (split; [by intros ?%not_elem_of_nil | by intros (? & ? & ?) || by intros [? ?]]).
Qed.

Lemma wf_set_node_stalk cx i data cx' : wf cx → set_node_stalk i data cx = Ok cx' → wf cx'.
Proof.
  intros Hwf Hs. unfold set_node_stalk in Hs. apply bind_ok in Hs as (? & Hl & Hs).
  destruct (cells cx !! i) as [c |] eqn:Hc; [| done]. apply bind_ok in Hs as (? & Hd & [= <-]).
  unfold assert_ in *. destruct (N.eqb_spec (len data) (node_stalk_dim cx)) as [Hlen |]; [| done].
  destruct (N.eqb_spec (c_dimension c) 0) as [Hdim |]; [| done].
  assert (i ∉ edges cx) as Hne by (apply node_not_edge; [done |]; apply (wf_nodes _ Hwf); eauto).
  destruct Hwf as [Hn He Hdm Hst Hin Hen Hma Hor Hfa Hcl]. split; cbn; try done.
  - intros n. rewrite Hn. destruct (decide (n = i)) as [-> |]; [rewrite lookup_insert_eq | by rewrite lookup_insert_ne].
    split; intros (c' & Hc' & Hd'); eexists; split; eauto.
  - intros e. rewrite He. destruct (decide (e = i)) as [-> |]; [rewrite lookup_insert_eq | by rewrite lookup_insert_ne].
    split; intros (c' & Hc' & Hd'); simplify_eq; cbn in *; congruence.
  - intros j c' [[<- <-] | [? ?]]%lookup_insert_Some; cbn; eauto.
  - intros j c' [[<- <-] | [? ?]]%lookup_insert_Some; cbn; eauto.
  - intros e u v n Hi Hends. destruct (Hma e u v n Hi Hends) as (m & Hm & Hok & Hnc & ce & Hce & Hnr).
    exists m. split; [done |]. split; [done |]. split; [done |]. exists ce. split; [| done]. cbn. rewrite lookup_insert_ne; [done |].
    intros <-. apply Hne, Hin. eauto.
  - intros f face Hf%Hcl. by apply (closed_ext cx).
Qed.
Lemma wf_add_node cx i data cx' : wf cx → add_node i data cx = Ok cx' → wf cx'.
Proof.
  intros Hwf Hs. unfold add_node in Hs. apply bind_ok in Hs as (? & Hl & Hs).
  apply bind_ok in Hs as (? & Hd & [= <-]). unfold assert_ in *.
  destruct (N.eqb_spec (len data) (node_stalk_dim cx)) as [Hlen |]; [| done].
  assert (i ∉ edges cx) as Hne.
  { intros (c & Hc & Hdim)%(wf_edges _ Hwf). rewrite Hc, Hdim in Hd. done. }
  destruct Hwf as [Hn He Hdm Hst Hin Hen Hma Hor Hfa Hcl]. split; cbn; try done.
  - intros n. rewrite elem_of_app, list_elem_of_singleton, Hn. destruct (decide (n = i)) as [-> | Hni].
    + rewrite lookup_insert_eq. split; [intros _; by eexists | by right].
    + rewrite lookup_insert_ne by done. naive_solver.
  - intros e. rewrite He. destruct (decide (e = i)) as [-> |]; [rewrite lookup_insert_eq | by rewrite lookup_insert_ne].
    split; [intros Hx%He; done | intros (c' & [= <-] & Hd'); done].
  - intros j c' [[<- <-] | [? ?]]%lookup_insert_Some; cbn; eauto.
  - intros j c' [[<- <-] | [? ?]]%lookup_insert_Some; cbn; eauto.
  - intros e u v Hi. destruct (Hen e u v Hi). rewrite !elem_of_app. tauto.
  - intros e u v n Hi Hends. destruct (Hma e u v n Hi Hends) as (m & Hm & Hok & Hnc & ce & Hce & Hnr).
    exists m. split; [done |]. split; [done |]. split; [done |]. exists ce. split; [| done]. cbn. rewrite lookup_insert_ne; [done |].
    intros <-. apply Hne, Hin. eauto.
  - intros f face Hf%Hcl. by apply (closed_ext cx).
Qed.
Lemma wf_add_edge cx e s t dim label ms mt virt :
  wf cx → cells cx !! e = None → s ∈ nodes cx → t ∈ nodes cx →
  matrix_ok ms → matrix_ok mt → ncols ms = node_stalk_dim cx → ncols mt = node_stalk_dim cx → nrows ms = dim → nrows mt = dim →
  ∃ cx', add_edge e s t dim label ms mt virt cx = Ok cx' ∧ wf cx' ∧ nodes cx' = nodes cx ∧ edges cx' = edges cx ++ [e] ∧
    node_stalk_dim cx' = node_stalk_dim cx ∧ (∀ i, i ≠ e → cells cx' !! i = cells cx !! i).
Proof.
  intros Hwf Hfresh Hs Ht Hms Hmt Hcs Hct Hrs Hrt. unfold add_edge, assert_.
  rewrite Hcs, Hct, Hrs, Hrt, !N.eqb_refl, Hfresh. cbn. eexists. split; [done |].
  assert (e ∉ edges cx) as Hne by (intros (c & Hc & _)%(wf_edges _ Hwf); congruence).
  assert (incidence cx !! e = None) as Hie.
  { destruct (incidence cx !! e) eqn:Hie; [| done]. exfalso. apply Hne, (wf_inc _ Hwf). eauto. }
  assert (e ∉ nodes cx) as Hnn by (intros (c & Hc & _)%(wf_nodes _ Hwf); congruence).
  split_and!; cbn; [| done | done | done | intros; by rewrite lookup_insert_ne].
  destruct Hwf as [Hn He Hdm Hst Hin Hen Hma Hor Hfa Hcl]. split; cbn.
  - intros n. rewrite Hn. destruct (decide (n = e)) as [-> |]; [rewrite lookup_insert_eq | by rewrite lookup_insert_ne].
    split; [intros ?%Hn; done | by intros (c' & [= <-] & Hd')].
  - intros n. rewrite elem_of_app, list_elem_of_singleton, He. destruct (decide (n = e)) as [-> | Hni].
    + rewrite lookup_insert_eq. split; [intros _; by eexists | by right].
    + rewrite lookup_insert_ne by done. naive_solver.
  - intros j c' [[<- <-] | [? ?]]%lookup_insert_Some; cbn; eauto.
  - intros j c' [[<- <-] | [? ?]]%lookup_insert_Some; cbn; eauto. done.
  - intros n. rewrite elem_of_app, list_elem_of_singleton, Hin. destruct (decide (n = e)) as [-> | Hni].
    + rewrite lookup_insert_eq. split; [intros _; by eexists | by right].
    + rewrite lookup_insert_ne by done. naive_solver.
  - intros n u v [[<- [= <- <-]] | [? ?]]%lookup_insert_Some; eauto.
  - assert (map_ok {| nodes := nodes cx; edges := edges cx ++ [e]; faces := faces cx;
        cells := <[e := {| c_id := e; c_dimension := 1; c_stalk := replicate (N.to_nat dim) f_zero; c_label := label; c_is_virtual := virt |}]> (cells cx);
        face_cells := face_cells cx; restriction_maps := <[(t, e) := mt]> (<[(s, e) := ms]> (restriction_maps cx));
        incidence := <[e := (s, t)]> (incidence cx); node_stalk_dim := node_stalk_dim cx |} e mt ∧ nrows ms = nrows mt) as [Hmok Hrr].
    { split; [| congruence]. split; [done |]. split; [done |]. eexists. cbn. rewrite lookup_insert_eq. split; [done |]. cbn.
      unfold len. rewrite length_replicate. lia. }
    intros x u v n [[<- [= <- <-]] | [Hx Hi]]%lookup_insert_Some Hends.
    + destruct (decide (n = t)) as [-> | Hnt].
      * exists mt. by rewrite lookup_insert_eq.
      * destruct Hends as [-> | ->]; [| done]. exists ms. rewrite lookup_insert_ne by congruence. rewrite lookup_insert_eq. split; [done |].
        destruct Hmok as (_ & _ & c & Hc & Hr). split; [done |]. split; [done |]. exists c. by rewrite Hrr.
    + destruct (Hma x u v n Hi Hends) as (m & Hm & Hok & Hnc & ce & Hce & Hnr). exists m.
      rewrite !lookup_insert_ne by congruence. split; [done |]. split; [done |]. split; [done |]. exists ce. cbn.
      by rewrite lookup_insert_ne.
  - intros n x m [[[= <- <-] <-] | [Hx [[[= <- <-] <-] | [Hx' Hm]]%lookup_insert_Some]]%lookup_insert_Some.
    + exists s, t. rewrite lookup_insert_eq. auto.
    + exists s, t. rewrite lookup_insert_eq. auto.
    + destruct (Hor n x m Hm) as (u & v & Hi & Hends). exists u, v. rewrite lookup_insert_ne; [done |]. intros <-. congruence.
  - done.
  - intros f face Hf. apply Hcl in Hf. apply (closed_ext cx); [| done].
    intros x Hx. cbn. rewrite lookup_insert_ne; [done |]. intros <-. destruct (closed_known _ _ Hf e Hx). congruence.
Qed.

Lemma wf_remove_edge_by_id cx e : wf cx → e ∉ nodes cx → wf (remove_edge_by_id e cx).
Proof.
  intros Hwf Hnn. destruct Hwf as [Hn He Hdm Hst Hin Hen Hma Hor Hfa Hcl]. split; cbn.
  - intros n. rewrite Hn. destruct (decide (n = e)) as [-> |]; [rewrite lookup_delete_eq | by rewrite lookup_delete_ne].
    split; [intros ?%Hn; done | by intros (? & ? & ?)].
  - intros x. rewrite list_elem_of_filter, He. destruct (decide (x = e)) as [-> |].
    + rewrite lookup_delete_eq. split; [by intros [? _] | by intros (? & ? & ?)].
    + rewrite lookup_delete_ne by done. tauto.
  - intros i c [_ Hc]%lookup_delete_Some. eauto.
  - intros i c [_ Hc]%lookup_delete_Some. eauto.
  - intros x. rewrite list_elem_of_filter, Hin. destruct (decide (x = e)) as [-> |].
    + rewrite lookup_delete_eq. split; [by intros [? _] | by intros [? ?]].
    + rewrite lookup_delete_ne by done. tauto.
  - intros x u v [_ Hi]%lookup_delete_Some. eauto.
  - intros x u v n [Hx Hi]%lookup_delete_Some Hends. destruct (Hma x u v n Hi Hends) as (m & Hm & Hok & Hnc & ce & Hce & Hnr).
    exists m. split.
    + destruct (incidence cx !! e) as [[a b] |]; [| done]. by rewrite !lookup_delete_ne by congruence.
    + split; [done |]. split; [done |]. exists ce. cbn. by rewrite lookup_delete_ne.
  - intros n x m Hm. assert (restriction_maps cx !! (n, x) = Some m ∧ (x = e → False)) as [Hm' Hx].
    { destruct (incidence cx !! e) as [[a b] |] eqn:Hie.
      - apply lookup_delete_Some in Hm as [H1 Hm]. apply lookup_delete_Some in Hm as [H2 Hm]. split; [done |].
        intros ->. destruct (Hor n e m Hm) as (u & v & Hi & [-> | ->]); congruence.
      - split; [done |]. intros ->. destruct (Hor n e m Hm) as (u & v & Hi & _). congruence. }
    destruct (Hor n x m Hm') as (u & v & Hi & Hends). exists u, v. rewrite lookup_delete_ne by congruence. done.
  - intros f. rewrite list_elem_of_filter, Hfa. unfold dead_face. split.
    + intros [Hd [face Hf]]. rewrite Hf in Hd. exists face. by apply map_lookup_filter_Some.
    + intros [face [Hf Hb]%map_lookup_filter_Some]. rewrite Hf. eauto.
  - intros f face [Hf Hb]%map_lookup_filter_Some. cbn in Hb. apply Hcl in Hf. apply (closed_ext cx); [| done].
    apply not_bounds in Hb. intros x Hx. cbn. rewrite lookup_delete_ne; [done |]. by intros <-.
Qed.
Lemma remove_edges_spec cx l :
  let cx' := foldl (λ cx eid, remove_edge_by_id eid cx) cx l in
  nodes cx' = nodes cx ∧ node_stalk_dim cx' = node_stalk_dim cx ∧
  (∀ e, e ∈ edges cx' ↔ e ∈ edges cx ∧ e ∉ l) ∧
  (∀ e, incidence cx' !! e = if decide (e ∈ l) then None else incidence cx !! e) ∧
  (∀ i, cells cx' !! i = if decide (i ∈ l) then None else cells cx !! i).
Proof.
  cbn. revert cx. induction l as [| x l IH]; intros cx; cbn [foldl].
  - split_and!; try done. intros e. set_solver.
  - destruct (IH (remove_edge_by_id x cx)) as (-> & -> & He & Hi & Hc). split_and!; try done.
    + intros e. rewrite He. cbn. rewrite list_elem_of_filter. set_solver.
    + intros e. rewrite Hi. cbn. destruct (decide (e = x)) as [-> | Hne].
      * rewrite lookup_delete_eq. do 2 case_decide; set_solver.
      * rewrite lookup_delete_ne by done. do 2 case_decide; set_solver.
    + intros i. rewrite Hc. cbn. destruct (decide (i = x)) as [-> | Hne].
      * rewrite lookup_delete_eq. do 2 case_decide; set_solver.
      * rewrite lookup_delete_ne by done. do 2 case_decide; set_solver.
Qed.
Lemma wf_remove_edges cx l : wf cx → (∀ e, e ∈ l → e ∉ nodes cx) → wf (foldl (λ cx eid, remove_edge_by_id eid cx) cx l).
Proof.
  revert cx. induction l as [| x l IH]; intros cx Hwf Hl; [done |]. cbn [foldl]. apply IH.
  - apply wf_remove_edge_by_id; [done |]. apply Hl. left.
  - intros e He. cbn. apply Hl. by right.
Qed.

Section removal.
Context `{HashIter}.

Definition touching (cx : CellComplex) (id : N) : list N := fst <$> filter (λ x, touches id x.2 = true) (hash_iter (incidence cx)).
Lemma elem_of_touching cx i e : e ∈ touching cx i ↔ ∃ u v, incidence cx !! e = Some (u, v) ∧ (u = i ∨ v = i).
Proof.
  unfold touching. rewrite list_elem_of_fmap. split.
  - intros ([x [u v]] & -> & Hx). apply list_elem_of_filter in Hx as [Ht Hx%elem_of_hash_iter]. exists u, v. split; [done |].
    unfold touches in Ht. cbn in Ht. apply orb_true_iff in Ht as [?%N.eqb_eq | ?%N.eqb_eq]; auto.
  - intros (u & v & Hi & Hend). exists (e, (u, v)). split; [done |]. apply list_elem_of_filter. rewrite elem_of_hash_iter. split; [| done].
    unfold touches. cbn. destruct Hend as [-> | ->]; rewrite N.eqb_refl; [done | apply orb_true_r].
Qed.
Lemma remove_node_spec cx i :
  wf cx → i ∉ edges cx →
  let cx' := (remove_node i cx).2 in
  wf cx' ∧ node_stalk_dim cx' = node_stalk_dim cx ∧ (∀ n, n ∈ nodes cx' ↔ n ∈ nodes cx ∧ n ≠ i) ∧
  (∀ e, e ∈ edges cx' → e ∈ edges cx).
Proof.
  intros Hwf Hie cx'. unfold cx', remove_node. destruct (cells cx !! i) as [c |] eqn:Hc; cbn.
  2: { split_and!; try done. intros n. split; [| tauto]. intros Hn. split; [done |]. intros ->. apply (wf_nodes _ Hwf) in Hn as (? & ? & ?). congruence. }
  fold (touching cx i).
  assert (∀ e, e ∈ touching cx i → e ∉ nodes cx) as Hl.
  { intros e (u & v & Hi & _)%elem_of_touching Hn. apply (node_not_edge _ _ Hwf Hn), (wf_inc _ Hwf). eauto. }
  destruct (remove_edges_spec cx (touching cx i)) as (Hnodes & Hdim & Hedges & Hinc & Hcells).
  pose proof (wf_remove_edges cx (touching cx i) Hwf Hl) as Hwf1.
  set (cx1 := foldl _ cx (touching cx i)) in *. split_and!; cbn.
  2: done. 2: { intros n. rewrite list_elem_of_filter, Hnodes. tauto. } 2: { intros e He. by apply Hedges. }
  assert (i ∉ edges cx1) as Hie1 by (rewrite Hedges; tauto).
  assert (∀ e u v, incidence cx1 !! e = Some (u, v) → u ≠ i ∧ v ≠ i) as Haway.
  { intros e u v Hi. rewrite Hinc in Hi. case_decide as Ht; [done |]. rewrite elem_of_touching in Ht. naive_solver. }
  destruct Hwf1 as [Hn He Hdm Hst Hin Hen Hma Hor Hfa Hcl]. split; cbn.
  - intros n. rewrite list_elem_of_filter, Hn. destruct (decide (n = i)) as [-> |].
    + rewrite lookup_delete_eq. split; [by intros [? _] | by intros (? & ? & ?)].
    + rewrite lookup_delete_ne by done. tauto.
  - intros e. rewrite He. destruct (decide (e = i)) as [-> |]; [rewrite lookup_delete_eq | by rewrite lookup_delete_ne].
    split; [by intros ?%He | by intros (? & ? & ?)].
  - intros j c' [_ Hj]%lookup_delete_Some. eauto.
  - intros j c' [_ Hj]%lookup_delete_Some. eauto.
  - done.
  - intros e u v Hi. destruct (Hen e u v Hi). destruct (Haway e u v Hi). rewrite !list_elem_of_filter. tauto.
  - intros e u v n Hi Hends. destruct (Hma e u v n Hi Hends) as (m & Hm & Hok & Hnc & ce & Hce & Hnr). exists m. split; [done |].
    split; [done |]. split; [done |]. exists ce. cbn. rewrite lookup_delete_ne; [done |]. intros <-. apply Hie1, Hin. eauto.
  - done.
  - done.
  - intros f face Hf%Hcl. by apply (closed_ext cx1).
Qed.
(** The edges a removed region drops are looked up after they are gone, so their far ends
    are never reported: only the region itself is. *)
Lemma removed_region_reports_itself_only touched cx rid :
  (delta_remove_region (touched, cx) rid).1 = {[ rid ]} ∪ touched.
Proof.
  unfold delta_remove_region, remove_node. destruct (cells cx !! rid) as [c |]; [| done]. fold (touching cx rid).
  destruct (remove_edges_spec cx (touching cx rid)) as (_ & _ & _ & Hinc & _). cbn. set (cx1 := foldl _ cx _) in *.
  assert (∀ l (t : gset N), (∀ e, e ∈ l → e ∈ touching cx rid) →
    foldl (λ t eid, match incidence cx1 !! eid with Some (u, v) => {[v]} ∪ ({[u]} ∪ t) | None => t end) t l = t) as Hfold.
  { induction l as [| e l IH]; intros t Hl; [done |]. cbn. rewrite Hinc, decide_True by (apply Hl; left). apply IH.
    intros. apply Hl. by right. }
  by rewrite Hfold.
Qed.
Lemma find_edge_some p cx e : find_edge p cx = Some e → ∃ uv, incidence cx !! e = Some uv ∧ p uv = true.
Proof.
  unfold find_edge. destruct (find _ _) as [[x uv] |] eqn:Hf; cbn; [| done]. intros [= <-].
  apply find_some in Hf as [Hin Hp]. apply list_elem_of_In, elem_of_hash_iter in Hin. eauto.
Qed.
Lemma find_edge_none p cx : find_edge p cx = None ↔ ∀ e uv, incidence cx !! e = Some uv → p uv = false.
Proof.
  unfold find_edge. destruct (find _ _) as [[x uv] |] eqn:Hf; cbn.
  - split; [done |]. intros Hall. apply find_some in Hf as [Hin Hp]. apply list_elem_of_In, elem_of_hash_iter in Hin.
    specialize (Hall x uv Hin). cbn in Hp. congruence.
  - split; [| done]. intros _ e uv Hi. apply (find_none _ _ Hf (e, uv)). by apply list_elem_of_In, elem_of_hash_iter.
Qed.
Lemma wf_remove_edge cx s t e cx' :
  wf cx → remove_edge s t cx = Some (e, cx') →
  wf cx' ∧ nodes cx' = nodes cx ∧ node_stalk_dim cx' = node_stalk_dim cx ∧ (∀ x, x ∈ edges cx' → x ∈ edges cx).
Proof.
  intros Hwf (eid & Hf & [= <- <-])%bind_Some. apply find_edge_some in Hf as (uv & Hi & _).
  split_and!; [| done | done | intros x; cbn; rewrite list_elem_of_filter; tauto].
  apply wf_remove_edge_by_id; [done |]. intros Hn. apply (node_not_edge _ _ Hwf Hn), (wf_inc _ Hwf). eauto.
Qed.
End removal.

(** ** Deltas keep the complex well formed *)

Section delta.
Context `{HashIter}.

(** Regions below the base, edges at or above it. *)
Definition partitioned (cx : CellComplex) : Prop :=
  (∀ n, n ∈ nodes cx → n < EDGE_ID_BASE) ∧ (∀ e, e ∈ edges cx → EDGE_ID_BASE <= e).
Definition sound (cx : CellComplex) : Prop := wf cx ∧ partitioned cx.
Definition spec_ok (dim : N) (live : N → Prop) (spec : EdgeSpec) : Prop :=
  live (es_source spec) ∧ live (es_target spec) ∧
  matrix_ok (es_map_source spec) ∧ matrix_ok (es_map_target spec) ∧
  ncols (es_map_source spec) = dim ∧ ncols (es_map_target spec) = dim ∧
  nrows (es_map_source spec) = es_agreement_dim spec ∧ nrows (es_map_target spec) = es_agreement_dim spec.
(** The regions present once the removals and additions of the delta are done. *)
Definition live_after (cx : CellComplex) (d : RegionDelta) (n : N) : Prop :=
  (n ∈ nodes cx ∧ n ∉ rd_removed d) ∨ n ∈ (rd_added d).*1.
Record delta_ok (cx : CellComplex) (delta : TopologyDelta) : Prop := {
  do_removed rid : rid ∈ rd_removed (td_regions delta) → rid < EDGE_ID_BASE;
  do_added rid data : (rid, data) ∈ rd_added (td_regions delta) → rid < EDGE_ID_BASE ∧ len data = node_stalk_dim cx;
  do_edges spec : spec ∈ ed_added (td_edges delta) → spec_ok (node_stalk_dim cx) (live_after cx (td_regions delta)) spec;
  do_updated rid data : (rid, data) ∈ rd_updated_stalks (td_regions delta) → rid < EDGE_ID_BASE ∧ len data = node_stalk_dim cx;
  do_room : (∀ e, e ∈ edges cx → e + len (ed_added (td_edges delta)) < u32_max) ∧
            EDGE_ID_BASE + len (ed_added (td_edges delta)) < u32_max;
}.

Lemma sound_region_not_edge cx rid : sound cx → rid < EDGE_ID_BASE → rid ∉ edges cx.
Proof. intros [_ [_ Hp]] Hlt He%Hp. lia. Qed.
Lemma sound_small_cell cx rid c : sound cx → rid < EDGE_ID_BASE → cells cx !! rid = Some c → c_dimension c = 0.
Proof.
  intros Hs Hlt Hc. destruct (wf_dim _ (proj1 Hs) rid c Hc) as [? | Hd]; [done |].
  exfalso. apply (sound_region_not_edge cx rid Hs Hlt), (wf_edges _ (proj1 Hs)). eauto.
Qed.
Lemma set_node_stalk_ok cx rid data c :
  sound cx → rid < EDGE_ID_BASE → len data = node_stalk_dim cx → cells cx !! rid = Some c →
  ∃ cx', set_node_stalk rid data cx = Ok cx' ∧ sound cx' ∧ nodes cx' = nodes cx ∧ edges cx' = edges cx ∧
    node_stalk_dim cx' = node_stalk_dim cx.
Proof.
  intros Hs Hlt Hl Hc. pose proof (sound_small_cell _ _ _ Hs Hlt Hc) as Hd.
  assert (∃ cx', set_node_stalk rid data cx = Ok cx' ∧ nodes cx' = nodes cx ∧ edges cx' = edges cx ∧ node_stalk_dim cx' = node_stalk_dim cx)
    as (cx' & Hset & Hn & He & Hdim).
  { unfold set_node_stalk, assert_. rewrite Hl, N.eqb_refl, Hc, Hd. cbn. by eexists. }
  exists cx'. split_and!; try done. split; [by eapply wf_set_node_stalk, Hset; destruct Hs |].
  unfold partitioned. rewrite Hn, He. apply Hs.
Qed.

Lemma removals_sound l st :
  sound st.2 →
  let st' := foldl delta_remove_edge st l in
  sound st'.2 ∧ nodes st'.2 = nodes st.2 ∧ node_stalk_dim st'.2 = node_stalk_dim st.2 ∧ (∀ e, e ∈ edges st'.2 → e ∈ edges st.2).
Proof.
  revert st. induction l as [| p l IH]; intros [t cx] Hs; [done |]. cbn [foldl delta_remove_edge].
  destruct (remove_edge p.1 p.2 cx) as [[e cx'] |] eqn:Hr; [| apply IH; done].
  destruct (wf_remove_edge cx _ _ _ _ (proj1 Hs) Hr) as (Hwf & Hn & Hd & He).
  destruct (IH ({[p.2]} ∪ ({[p.1]} ∪ t), cx')) as (Hs' & Hn' & Hd' & He'); cbn in *.
  { split; [done |]. unfold partitioned. rewrite Hn. destruct Hs as [_ [? Hp]]. split; [done |]. cbn in *. eauto. }
  split_and!; [done | congruence | congruence | eauto].
Qed.
Lemma region_removals_sound l st :
  sound st.2 → (∀ rid, rid ∈ l → rid < EDGE_ID_BASE) →
  let st' := foldl delta_remove_region st l in
  sound st'.2 ∧ (∀ n, n ∈ nodes st'.2 ↔ n ∈ nodes st.2 ∧ n ∉ l) ∧ node_stalk_dim st'.2 = node_stalk_dim st.2 ∧
  (∀ e, e ∈ edges st'.2 → e ∈ edges st.2).
Proof.
  revert st. induction l as [| rid l IH]; intros [t cx] Hs Hl.
  { cbn. split_and!; try done. intros n. set_solver. }
  destruct (remove_node_spec cx rid) as (Hwf & Hd & Hn & He); [apply Hs | apply (sound_region_not_edge cx rid Hs), Hl; left |].
  cbn [foldl]. unfold delta_remove_region at 2 4 6 8. destruct (remove_node rid cx) as [dropped cx'] eqn:Hr. cbn in *.
  match goal with |- context [foldl delta_remove_region (?t', cx') l] =>
    destruct (IH (t', cx')) as (Hs' & Hn' & Hd' & He'); cbn in * end.
  - split; [done |]. destruct Hs as [_ [Hp1 Hp2]]. split; cbn in *; [intros n [? _]%Hn; auto | intros e ?%He; auto].
  - intros. apply Hl. by right.
  - split_and!; [done | | congruence | intros e ?%He'; auto]. intros n. rewrite Hn', Hn. set_solver.
Qed.
Lemma additions_sound l st :
  sound st.2 → (∀ rid data, (rid, data) ∈ l → rid < EDGE_ID_BASE ∧ len data = node_stalk_dim st.2) →
  ∃ st', fold_result delta_add_region st l = Ok st' ∧ sound st'.2 ∧
    (∀ n, n ∈ nodes st'.2 ↔ n ∈ nodes st.2 ∨ n ∈ l.*1) ∧ node_stalk_dim st'.2 = node_stalk_dim st.2 ∧ edges st'.2 = edges st.2.
Proof.
  revert st. induction l as [| [rid data] l IH]; intros [t cx] Hs Hl.
  { eexists. split; [done |]. split_and!; try done. intros n. set_solver. }
  destruct (Hl rid data) as [Hlt Hlen]; [left |]. cbn in *.
  assert (∃ cx', match cells cx !! rid with None => add_node rid data cx | Some _ => set_node_stalk rid data cx end = Ok cx' ∧
    sound cx' ∧ (∀ n, n ∈ nodes cx' ↔ n ∈ nodes cx ∨ n = rid) ∧ edges cx' = edges cx ∧ node_stalk_dim cx' = node_stalk_dim cx)
    as (cx' & Hstep & Hs' & Hn & He & Hd).
  { destruct (cells cx !! rid) as [c |] eqn:Hc.
    - destruct (set_node_stalk_ok cx rid data c) as (cx' & -> & ? & Hn & ? & ?); try done. exists cx'. split_and!; try done.
      intros n. rewrite Hn. split; [by left |]. intros [? | ->]; [done |]. apply (wf_nodes _ (proj1 Hs)). exists c. split; [done |].
      exact (sound_small_cell cx rid c Hs Hlt Hc).
    - assert (∃ cx', add_node rid data cx = Ok cx' ∧ nodes cx' = nodes cx ++ [rid] ∧ edges cx' = edges cx ∧ node_stalk_dim cx' = node_stalk_dim cx)
        as (cx' & Hadd & Hn & He & Hd).
      { unfold add_node, assert_. rewrite Hlen, N.eqb_refl, Hc. cbn. by eexists. }
      exists cx'. split_and!; try done.
      + split; [by eapply wf_add_node, Hadd; destruct Hs |]. unfold partitioned. rewrite Hn, He. destruct Hs as [_ [Hp1 Hp2]].
        split; [| done]. intros n [? | ->%list_elem_of_singleton]%elem_of_app; auto.
      + intros n. rewrite Hn. set_solver. }
  unfold fold_result. fold (@fold_result unit). unfold delta_add_region at 1.
  rewrite Hstep, !bind_Ok.
  destruct (IH ({[rid]} ∪ t, cx')) as (st' & Hst & ? & Hn' & Hd' & He'); cbn in *; [done | |].
  { intros r dt Hin. rewrite Hd. apply Hl. by right. }
  exists st'. split; [exact Hst |]. split_and!; [done | | congruence | congruence]. intros n. rewrite Hn', Hn. set_solver.
Qed.
Lemma edge_additions_sound specs start st live :
  sound st.2 → (∀ n, live n → n ∈ nodes st.2) → (∀ spec, spec ∈ specs → spec_ok (node_stalk_dim st.2) live spec) →
  (∀ e, e ∈ edges st.2 → e < start) → EDGE_ID_BASE <= start → start + len specs <= u32_max →
  ∃ st', fold_result delta_add_edge st (numbered start specs) = Ok st' ∧ sound st'.2 ∧ nodes st'.2 = nodes st.2 ∧
    node_stalk_dim st'.2 = node_stalk_dim st.2.
Proof.
  revert start st. induction specs as [| spec specs IH]; intros start [t cx] Hs Hlive Hok Hfresh Hbase Hroom; [by eexists |].
  cbn [snd] in *. rewrite len_cons in Hroom.
  assert (numbered start (spec :: specs) = (start, spec) :: numbered (start + 1) specs) as ->.
  { unfold numbered. cbn. f_equal.
    - unfold wadd32. cbn. rewrite N.add_0_r, N.mod_small by lia. done.
    - apply imap_ext. intros i s _. unfold compose, wadd32.
      assert (start + N.of_nat (S i) = start + 1 + N.of_nat i) as -> by lia. done. }
  destruct (Hok spec) as (Hsrc & Htgt & Hms & Hmt & Hcs & Hct & Hrs & Hrt); [left |].
  destruct (wf_add_edge cx start (es_source spec) (es_target spec) (es_agreement_dim spec) (es_label spec) (es_map_source spec)
    (es_map_target spec) false) as (cx' & Hadd & Hwf & Hn & He & Hd & _); auto; [apply Hs | |].
  { destruct (cells cx !! start) as [c |] eqn:Hc; [| done]. exfalso. destruct Hs as [Hwf [Hp1 _]].
    destruct (wf_dim _ Hwf start c Hc) as [Hdim | Hdim].
    - assert (start ∈ nodes cx) as ?%Hp1 by (apply (wf_nodes _ Hwf); eauto). lia.
    - assert (start ∈ edges cx) as ?%Hfresh by (apply (wf_edges _ Hwf); eauto). lia. }
  assert (delta_add_edge (t, cx) (start, spec) = Ok ({[es_target spec]} ∪ ({[es_source spec]} ∪ t), cx')) as Hstep
    by (unfold delta_add_edge; by rewrite Hadd).
  cbn [fold_result]. rewrite Hstep, bind_Ok.
  destruct (IH (start + 1) ({[es_target spec]} ∪ ({[es_source spec]} ∪ t), cx')) as (st' & Hst & ? & Hn' & Hd'); cbn in *.
  - split; [done |]. unfold partitioned. rewrite Hn, He. destruct Hs as [_ [Hp1 Hp2]]. split; [done |].
    intros e [? | ->%list_elem_of_singleton]%elem_of_app; auto.
  - intros n. rewrite Hn. auto.
  - intros s Hin. rewrite Hd. apply Hok. by right.
  - intros e. rewrite He. intros [?%Hfresh | ->%list_elem_of_singleton]%elem_of_app; lia.
  - lia.
  - lia.
  - exists st'. split; [exact Hst |]. split_and!; [done | congruence | congruence].
Qed.
Lemma updates_sound l st :
  sound st.2 → (∀ rid data, (rid, data) ∈ l → rid < EDGE_ID_BASE ∧ len data = node_stalk_dim st.2) →
  ∃ st', fold_result delta_update_stalk st l = Ok st' ∧ sound st'.2 ∧ nodes st'.2 = nodes st.2.
Proof.
  revert st. induction l as [| [rid data] l IH]; intros [t cx] Hs Hl; [by eexists |].
  destruct (Hl rid data) as [Hlt Hlen]; [left |]. cbn in *.
  destruct (cells cx !! rid) as [c |] eqn:Hc.
  - destruct (set_node_stalk_ok cx rid data c) as (cx' & Hset & Hs' & Hn & He & Hd); try done.
    rewrite Hset, !bind_Ok. destruct (IH ({[rid]} ∪ t, cx')) as (st' & Hst & ? & Hn'); cbn in *; [done | |].
    + intros r dt Hin. rewrite Hd. apply Hl. by right.
    + exists st'. split; [exact Hst |]. split; [done | congruence].
  - apply (IH (t, cx)); [done |]. intros r dt Hin. apply Hl. by right.
Qed.
Lemma foldr_max_ge (l : list N) e : e ∈ l → e <= foldr N.max 0 l.
Proof. induction l as [| x l IH]; [by intros ?%not_elem_of_nil |]. cbn. intros [-> | ?%IH]%elem_of_cons; lia. Qed.
Lemma foldr_max_lt (l : list N) b : 0 < b → (∀ e, e ∈ l → e < b) → foldr N.max 0 l < b.
Proof. intros Hb. induction l as [| x l IH]; cbn; [done |]. intros Hl. specialize (Hl x ltac:(left)) as Hx. apply N.max_lub_lt; [done |]. apply IH. intros. apply Hl. by right. Qed.
Lemma apply_delta_sound cx delta :
  sound cx → delta_ok cx delta → ∃ touched cx', apply_delta delta cx = Ok (touched, cx') ∧ sound cx' ∧
    (∀ n, n ∈ nodes cx' ↔ live_after cx (td_regions delta) n).
Proof.
  intros Hs [Hrem Hadd Hedg Hupd [Hroom1 Hroom2]]. unfold apply_delta.
  destruct (removals_sound (ed_removed (td_edges delta)) (∅, cx) Hs) as (Hs1 & Hn1 & Hd1 & He1). cbn in *.
  set (st1 := foldl delta_remove_edge _ _) in *.
  destruct (region_removals_sound (rd_removed (td_regions delta)) st1 Hs1 Hrem) as (Hs2 & Hn2 & Hd2 & He2). cbn in *.
  set (st2 := foldl delta_remove_region _ _) in *.
  destruct (additions_sound (rd_added (td_regions delta)) st2 Hs2) as (st3 & -> & Hs3 & Hn3 & Hd3 & He3).
  { rewrite Hd2, Hd1. exact Hadd. }
  rewrite bind_Ok.
  assert (∀ n, n ∈ nodes st3.2 ↔ live_after cx (td_regions delta) n) as Hlive.
  { intros n. rewrite Hn3, Hn2, Hn1. done. }
  assert (∀ e, e ∈ edges st3.2 → e ∈ edges cx) as Hsub by (intros e; rewrite He3; auto).
  assert (∀ e, e ∈ edges st3.2 → e < next_edge_id st3.2) as Hnext.
  { intros e He. unfold next_edge_id. destruct (edges st3.2) as [| x l] eqn:Hl; [by apply not_elem_of_nil in He |].
    pose proof (foldr_max_ge (x :: l) e He). unfold wadd32. rewrite N.mod_small; [lia |].
    assert (foldr N.max 0 (x :: l) < u32_max); [| lia]. apply foldr_max_lt; [done |].
    intros y Hy. specialize (Hroom1 y (Hsub y Hy)). lia. }
  destruct (edge_additions_sound (ed_added (td_edges delta)) (next_edge_id st3.2) st3 (live_after cx (td_regions delta)))
    as (st4 & -> & Hs4 & Hn4 & Hd4).
  - done.
  - intros n. apply Hlive.
  - rewrite Hd3, Hd2, Hd1. exact Hedg.
  - done.
  - unfold next_edge_id. destruct (edges st3.2); lia.
  - unfold next_edge_id. destruct (edges st3.2) as [| x l] eqn:Hl; [lia |].
    assert (foldr N.max 0 (x :: l) < u32_max - len (ed_added (td_edges delta))) as Hlt.
    { apply foldr_max_lt; [lia |]. intros y Hy. specialize (Hroom1 y (Hsub y Hy)). lia. }
    unfold wadd32. rewrite N.mod_small by lia. lia.
  - rewrite bind_Ok. destruct (updates_sound (rd_updated_stalks (td_regions delta)) st4 Hs4) as ([t5 cx5] & -> & Hs5 & Hn5).
    { rewrite Hd4, Hd3, Hd2, Hd1. exact Hupd. }
    rewrite bind_Ok. eexists _, cx5. split; [done |]. split; [done |]. intros n. cbn in Hn5. by rewrite Hn5, Hn4.
Qed.
End delta.

(** ** The coboundary of a well-formed complex *)

Lemma elem_of_upto n i : i ∈ upto n ↔ i < n.
Proof.
  unfold upto. rewrite list_elem_of_fmap. split.
  - intros (k & -> & Hk). apply elem_of_seq in Hk. lia.
  - intros Hi. exists (N.to_nat i). split; [lia |]. apply elem_of_seq. lia.
Qed.
Lemma fold_result_total {E A S} (P : S → Prop) (f : S → A → result E S) s l :
  P s → (∀ s a, a ∈ l → P s → ∃ s', f s a = Ok s' ∧ P s') → ∃ s', fold_result f s l = Ok s' ∧ P s'.
Proof.
  revert s. induction l as [| a l IH]; intros s Hs Hf; [by exists s |]. cbn [fold_result].
  destruct (Hf s a) as (s1 & -> & Hs1); [left | done |]. apply IH; [done |]. intros. apply Hf; [by right | done].
Qed.
Lemma expect_some {A} (o : option A) a : o = Some a → expect o = Ok a.
Proof. by intros ->. Qed.
Definition edge_dim (cx : CellComplex) (e : N) : N := match cells cx !! e with Some c => len (c_stalk c) | None => 0 end.
Definition total_dim (cx : CellComplex) (es : list N) : N := foldr (λ e n, edge_dim cx e + n) 0 es.

Lemma edge_offsets_spec cx es c m :
  (∀ e, e ∈ es → is_Some (cells cx !! e)) →
  ∃ m', edge_offsets cx es c m = Ok (c + total_dim cx es, m') ∧
    (∀ e, e ∈ es → ∃ off, m' !! e = Some off ∧ off + edge_dim cx e <= c + total_dim cx es) ∧
    (∀ e, e ∉ es → m' !! e = m !! e).
Proof.
  revert c m. induction es as [| x es IH]; intros c m Hes.
  { exists m. cbn. rewrite N.add_0_r. split_and!; [done | by intros ? ?%not_elem_of_nil | done]. }
  destruct (Hes x) as [cell Hc]; [left |]. cbn [edge_offsets total_dim foldr]. unfold expect. rewrite Hc, bind_Ok.
  assert (edge_dim cx x = len (c_stalk cell)) as Hd by (unfold edge_dim; by rewrite Hc). rewrite Hd.
  destruct (IH (c + len (c_stalk cell)) (<[x := c]> m)) as (m' & -> & Hin & Hout); [intros; apply Hes; by right |].
  exists m'. rewrite N.add_assoc. split; [done |]. fold (total_dim cx es). split.
  - intros e He. destruct (decide (e ∈ es)) as [Hees | Hees]; [by apply Hin |]. apply elem_of_cons in He as [-> | ?]; [| done].
    exists c. rewrite Hout, lookup_insert_eq by done. split; [done |]. rewrite Hd. lia.
  - intros e He. apply not_elem_of_cons in He as [Hne He]. rewrite Hout by done. by rewrite lookup_insert_ne.
Qed.
Lemma node_offsets_spec cx n :
  n ∈ nodes cx → ∃ off, node_offsets cx !! n = Some off ∧ off + node_stalk_dim cx <= len (nodes cx) * node_stalk_dim cx.
Proof.
  unfold node_offsets. intros Hn.
  assert (∀ l k (m : gmap N N), (∀ x off, m !! x = Some off → off + node_stalk_dim cx <= (N.of_nat k) * node_stalk_dim cx) →
    ∀ x, x ∈ l ∨ is_Some (m !! x) → ∃ off,
      foldl (λ m x, <[x.2 := N.of_nat x.1 * node_stalk_dim cx]> m) m (imap (λ i, pair (k + i)%nat) l) !! x = Some off ∧
      off + node_stalk_dim cx <= N.of_nat (k + length l) * node_stalk_dim cx) as Hgen.
  { induction l as [| y l IH]; intros k m Hm x Hx; cbn.
    - destruct Hx as [?%not_elem_of_nil | [off Ho]]; [done |]. exists off. rewrite Nat.add_0_r. eauto.
    - rewrite Nat.add_0_r. replace (k + S (length l))%nat with (S k + length l)%nat by lia.
      erewrite imap_ext; [apply (IH (S k)) |].
      + intros z off [[<- <-] | [_ Hz]]%lookup_insert_Some; [lia |]. specialize (Hm z off Hz). nia.
      + destruct Hx as [[-> | ?]%elem_of_cons | ?]; [right | by left | right].
        * rewrite lookup_insert_eq. eauto.
        * destruct (decide (x = y)) as [-> |]; [rewrite lookup_insert_eq | rewrite lookup_insert_ne by done]; eauto.
      + intros i z _. unfold compose. cbn. do 2 f_equal. lia. }
  apply (Hgen (nodes cx) 0%nat ∅); [intros *; by rewrite lookup_empty | by left].
Qed.
Lemma entries_bounds m sgn rs cs r c v : (r, c, v) ∈ entries m sgn rs cs → r < rs + nrows m ∧ c < cs + ncols m.
Proof.
  unfold entries. intros (i & Hin & Hi%elem_of_upto)%list_elem_of_bind. apply list_elem_of_bind in Hin as (j & Hin & Hj%elem_of_upto).
  destruct (f_gt _ _); [| by apply not_elem_of_nil in Hin]. apply list_elem_of_singleton in Hin as [= -> -> ->]. lia.
Qed.
Lemma build_delta_0_spec cx :
  wf cx → ∃ d, build_delta_0 cx = Ok d ∧ coo_rows d = total_dim cx (edges cx) ∧ coo_cols d = len (nodes cx) * node_stalk_dim cx ∧
    ∀ r c v, (r, c, v) ∈ triplets d → r < coo_rows d ∧ c < coo_cols d.
Proof.
  intros Hwf. unfold build_delta_0.
  destruct (edge_offsets_spec cx (edges cx) 0 ∅) as (rows & -> & Hrows & _).
  { intros e (c & Hc & _)%(wf_edges _ Hwf). eauto. }
  rewrite bind_Ok, N.add_0_l in *.
  set (P := λ ts : list (N * N * f32), ∀ r c v, (r, c, v) ∈ ts → r < total_dim cx (edges cx) ∧ c < len (nodes cx) * node_stalk_dim cx).
  destruct (fold_result_total P (λ acc e, t ← edge_triplets cx rows (node_offsets cx) e; mret (acc ++ t)) [] (edges cx)) as (ts & -> & Hts).
  - by intros r c v ?%not_elem_of_nil.
  - intros acc e He Hacc. destruct (proj1 (wf_inc _ Hwf e) He) as [[u v] Hi].
    destruct (Hrows e He) as (off & Hoff & Hle). destruct (wf_ends _ Hwf e u v Hi) as [Hu Hv].
    destruct (node_offsets_spec cx u Hu) as (uo & Huo & Hule). destruct (node_offsets_spec cx v Hv) as (vo & Hvo & Hvle).
    destruct (wf_maps _ Hwf e u v u Hi (or_introl eq_refl)) as (mu & Hmu & _ & Hcu & ce & Hce & Hru).
    destruct (wf_maps _ Hwf e u v v Hi (or_intror eq_refl)) as (mv & Hmv & _ & Hcv & ce' & Hce' & Hrv).
    assert (edge_triplets cx rows (node_offsets cx) e = Ok (entries mu f_opp off uo ++ entries mv id off vo)) as ->.
    { unfold edge_triplets, expect. by rewrite Hi, bind_Ok, Hoff, bind_Ok, Huo, bind_Ok, Hvo, bind_Ok, Hmu, bind_Ok, Hmv, bind_Ok. }
    rewrite bind_Ok. eexists. split; [done |]. unfold edge_dim in Hle. rewrite Hce in Hle.
    intros r c x [Hin | [Hin | Hin]%elem_of_app]%elem_of_app; [by apply Hacc in Hin | |]; apply entries_bounds in Hin.
    + rewrite Hru, Hcu in Hin. lia.
    + rewrite Hrv, Hcv in Hin. assert (ce' = ce) as -> by congruence. lia.
  - rewrite bind_Ok. eexists. split; [done |]. split_and!; [done | done |]. cbn. intros r c v Hin. by apply Hts in Hin.
Qed.
Lemma global_section_spec cx : wf cx → ∃ x, global_section cx = Ok x ∧ len x = len (nodes cx) * node_stalk_dim cx.
Proof.
  intros Hwf. unfold global_section.
  assert (∀ l acc, (∀ n, n ∈ l → n ∈ nodes cx) → ∃ x,
    fold_result (λ acc n, cell ← expect (cells cx !! n); mret (acc ++ c_stalk cell)) acc l = Ok x ∧
    len x = len acc + len l * node_stalk_dim cx) as Hgen.
  { induction l as [| n l IH]; intros acc Hl; [exists acc; split; [done |]; unfold len; cbn; lia |]. cbn [fold_result].
    destruct (proj1 (wf_nodes _ Hwf n) (Hl n ltac:(left))) as (c & Hc & Hd). rewrite (expect_some _ _ Hc), !bind_Ok.
    destruct (IH (acc ++ c_stalk c)) as (x & Hx & Hlen); [intros; apply Hl; by right |]. exists x. split; [exact Hx |].
    rewrite Hlen, len_app, len_cons, (wf_stalk _ Hwf n c Hc Hd). lia. }
  destruct (Hgen (nodes cx) []) as (x & Hx & Hlen); [done |]. exists x. split; [done |]. rewrite Hlen. unfold len. cbn. lia.
Qed.
Lemma index_checked_ok {A} i (l : list A) : i < len l → ∃ a, index_checked (E:=unit) i l = Ok a.
Proof.
  intros Hi. unfold index_checked. destruct (l !! N.to_nat i) as [a |] eqn:Ha; [eauto |]. apply lookup_ge_None in Ha. unfold len in Hi. lia.
Qed.

Section detect.
Context `{Csc}.

Lemma spmv_spec a x :
  coo_cols a <= len x → (∀ r c v, (r, c, v) ∈ triplets a → r < coo_rows a) →
  ∃ y, spmv a x = Ok y ∧ len y = coo_rows a.
Proof.
  intros Hx Hrows. unfold spmv. apply (fold_result_total (λ y, len y = coo_rows a)).
  - unfold len. rewrite length_replicate. lia.
  - intros y c Hc%elem_of_upto Hy. unfold spmv_col. destruct (index_checked_ok c x) as [xv ->]; [lia |]. rewrite bind_Ok.
    destruct (f_gt _ _); [| by exists y]. apply (fold_result_total (λ y, len y = coo_rows a)); [done |].
    intros y' [r v] Hin Hy'. apply csc_col_rows in Hin as (v' & Hin%Hrows). unfold axpy. cbn.
    destruct (index_checked_ok r y') as [yr ->]; [lia |]. rewrite bind_Ok. eexists. split; [done |]. unfold len. by rewrite length_insert.
Qed.
Lemma edge_violations_spec cx bounds off vs e cell (Q : Violation → Prop) :
  off + len (c_stalk cell) <= len bounds → (∀ v, v ∈ vs → Q v) →
  (∀ i m, i < len (c_stalk cell) → Q {| v_edge_id := e; v_dimension_index := i; v_margin := m; v_is_virtual := c_is_virtual cell |}) →
  cells cx !! e = Some cell →
  ∃ vs', edge_violations bounds (off, vs) (e, cell) = Ok (off + len (c_stalk cell), vs') ∧ ∀ v, v ∈ vs' → Q v.
Proof.
  intros Hb Hvs HQ Hc. unfold edge_violations. cbn [snd fst].
  destruct (fold_result_total (E:=unit) (λ vs, ∀ v, v ∈ vs → Q v) (λ vs i, val ← index_checked (off + i) bounds;
      mret (if f_gt (f_abs val) EPS
            then vs ++ [{| v_edge_id := e; v_dimension_index := i; v_margin := val; v_is_virtual := c_is_virtual cell |}] else vs))
    vs (upto (len (c_stalk cell)))) as (vs' & -> & Hvs'); [done | |].
  - intros s i Hi%elem_of_upto Hs. destruct (index_checked_ok (off + i) bounds) as [val ->]; [lia |]. rewrite bind_Ok.
    eexists. split; [done |]. destruct (f_gt _ _); [| done]. intros v [? | ->%list_elem_of_singleton]%elem_of_app; auto.
  - rewrite bind_Ok. by exists vs'.
Qed.
(** On a well-formed complex the detection never panics, and each violation it reports is a
    coordinate of an edge. *)
Lemma detect_violations_total cx :
  wf cx → ∃ vs, detect_violations cx = Ok vs ∧
    ∀ v, v ∈ vs → v_edge_id v ∈ edges cx ∧ v_dimension_index v < edge_dim cx (v_edge_id v).
Proof.
  intros Hwf. unfold detect_violations. destruct (build_delta_0_spec cx Hwf) as (d & -> & Hr & Hc & Hb).
  destruct (global_section_spec cx Hwf) as (x & -> & Hx). rewrite !bind_Ok. unfold assert_. rewrite Hc, Hx, N.eqb_refl, bind_Ok.
  destruct (spmv_spec d x) as (y & -> & Hy); [lia | intros r c v Hin; exact (proj1 (Hb r c v Hin)) |]. rewrite bind_Ok.
  assert (∀ es off vs, (∀ e, e ∈ es → e ∈ edges cx) → off + total_dim cx es = len y →
    (∀ v, v ∈ vs → v_edge_id v ∈ edges cx ∧ v_dimension_index v < edge_dim cx (v_edge_id v)) →
    ∃ st, fold_result (λ st e, cell ← expect (cells cx !! e); edge_violations y st (e, cell)) (off, vs) es = Ok st ∧
      ∀ v, v ∈ st.2 → v_edge_id v ∈ edges cx ∧ v_dimension_index v < edge_dim cx (v_edge_id v)) as Hgen.
  { induction es as [| e es IH]; intros off vs Hes Hoff Hvs; [by exists (off, vs) |]. cbn [fold_result].
    destruct (proj1 (wf_edges _ Hwf e) (Hes e ltac:(left))) as (cell & Hcell & _). rewrite (expect_some _ _ Hcell), bind_Ok.
    cbn [total_dim foldr] in Hoff. fold (total_dim cx es) in Hoff.
    assert (edge_dim cx e = len (c_stalk cell)) as Hed by (unfold edge_dim; by rewrite Hcell). rewrite Hed in Hoff.
    destruct (edge_violations_spec cx y off vs e cell (λ v, v_edge_id v ∈ edges cx ∧ v_dimension_index v < edge_dim cx (v_edge_id v)))
      as (vs' & -> & Hvs'); [lia | done | | done |].
    - intros i m Hi. cbn. rewrite Hed. split; [apply Hes; left | done].
    - rewrite bind_Ok. apply IH; [intros; apply Hes; by right | lia | done]. }
  destruct (Hgen (edges cx) 0 []) as (st & -> & Hst); [done | lia | by intros ? ?%not_elem_of_nil |].
  rewrite bind_Ok. by exists st.2.
Qed.
End detect.

(** A topology delta whose region ids are below the edge base, whose stalks have the
    complex's dimension and whose new edges join regions that are there once its regions are
    applied, always applies to a sound complex; the result is sound, its regions are exactly
    the survivors and the new ones, and detecting its violations never panics and names only
    coordinates of its edges. *)
Theorem delta_keeps_complex_analysable `{HashIter} `{Csc} (cx : CellComplex) (delta : TopologyDelta) :
  sound cx → delta_ok cx delta →
  ∃ touched cx' vs, apply_delta delta cx = Ok (touched, cx') ∧ sound cx' ∧
    (∀ n, n ∈ nodes cx' ↔ live_after cx (td_regions delta) n) ∧
    detect_violations cx' = Ok vs ∧
    ∀ v, v ∈ vs → v_edge_id v ∈ edges cx' ∧ v_dimension_index v < edge_dim cx' (v_edge_id v).
Proof.
  intros Hs Hd. destruct (apply_delta_sound cx delta Hs Hd) as (touched & cx' & Happ & Hs' & Hn).
  destruct (detect_violations_total cx' (proj1 Hs')) as (vs & Hv & Hin). by exists touched, cx', vs.
Qed.

(** A map that iterates in the order of its keys, and columns read off the triplets. *)
Definition key_order : HashIter.
Proof. refine {| hash_iter V m := map_to_list m |}. done. Defined.
Definition plain_columns : Csc.
Proof.
  refine {| csc_col m c := omap (λ t : N * N * f32, if t.1.2 =? c then Some (t.1.1, t.2) else None) (triplets m) |}.
  intros m c r v ([[r' c'] v'] & Hin & Heq)%list_elem_of_omap. cbn in *. destruct (N.eqb_spec c' c) as [-> |]; [| done].
  injection Heq as -> ->. by exists v.
Defined.
Definition pair_delta : TopologyDelta := {|
  td_regions := {| rd_added := [(0, [f_one]); (1, [f_zero])]; rd_removed := []; rd_updated_stalks := [] |};
  td_edges := {| ed_added := [{| es_source := 0; es_target := 1; es_agreement_dim := 1; es_label := None;
                                 es_map_source := identity_map 1; es_map_target := identity_map 1 |}]; ed_removed := [] |} |}.
Lemma delta_keeps_complex_analysable_witness :
  ∃ touched cx' vs, @apply_delta key_order pair_delta (CellComplex_new 1) = Ok (touched, cx') ∧ sound cx' ∧
    (∀ n, n ∈ nodes cx' ↔ live_after (CellComplex_new 1) (td_regions pair_delta) n) ∧
    @detect_violations plain_columns cx' = Ok vs ∧
    ∀ v, v ∈ vs → v_edge_id v ∈ edges cx' ∧ v_dimension_index v < edge_dim cx' (v_edge_id v).
Proof.
  apply (@delta_keeps_complex_analysable key_order plain_columns).
  - split; [apply new_wf |]. split; by intros ? ?%not_elem_of_nil.
  - split; cbn.
    + by intros ? ?%not_elem_of_nil.
    + intros rid data Hin. repeat (apply elem_of_cons in Hin as [Hin | Hin]; [injection Hin as -> ->; by vm_compute |]).
      by apply not_elem_of_nil in Hin.
    + intros spec ->%list_elem_of_singleton. split_and!; try (by vm_compute); right; cbn; set_solver.
    + by intros ?? ?%not_elem_of_nil.
    + split; [by intros ? ?%not_elem_of_nil | by vm_compute].
Defined.

(** Region 1 loses its only edge, and the delta that removes region 0 does not report it. *)
Example dropped_edge_end_unreported :
  (r ← @apply_delta key_order pair_delta (CellComplex_new 1);
   r ← @apply_delta key_order {| td_regions := {| rd_added := []; rd_removed := [0]; rd_updated_stalks := [] |};
                                 td_edges := {| ed_added := []; ed_removed := [] |} |} r.2;
   mret (r.1, edges r.2)) = Ok ([0], []).
Proof. by vm_compute. Qed.
(** Removing the id of an edge as a region drops its cell and keeps its incidence: the next
    coboundary panics. *)
Example edge_id_removed_as_region :
  (r ← @apply_delta key_order pair_delta (CellComplex_new 1);
   let cx := (@remove_node key_order EDGE_ID_BASE r.2).2 in
   mret (edges cx, build_delta_0 cx)) = Ok ([EDGE_ID_BASE], Panic).
Proof. by vm_compute. Qed.
