(* ===== verification/Sheaf.v ===== *)
(** * The sheaf cache

    [rs/ll-open/sheaf/src/cache.rs], [region.rs] and [learn.rs]: regions with content
    digests, restriction edges between them, the cascade that decides which regions a change
    reaches, the reaper, and the co-change tracker.  Stalks are [StalkDigest]s, as the daemon
    stores them; an attached complex is the [CellComplex] of [Complex]. *)

From S2P Require Import Prelude Substrate Text Partition Complex.
From Stdlib Require Import NArith Lia.
From Stdlib Require Import SpecFloat.
Local Open Scope N_scope.

(** ** Region hashes *)

Definition REGION_SCHEME : string := "leyline/sheaf-region/v1".
Section region.
Context `{Blake3}.

Definition region_spec (parser_id : Hash) : PartitionSpec :=
  {| domain := RowSet; scheme := bytes_of REGION_SCHEME; params := as_bytes parser_id; canon_version := 1 |}.
Definition region_entries (member_node_hashes : list Hash) : list Entry :=
  (λ h, {| addr := h; ea := 0; eb := 0 |}) <$> member_node_hashes.
Definition region_hash (parser_id : Hash) (member_node_hashes : list Hash) : Hash :=
  address (region_spec parser_id) (region_entries member_node_hashes).
End region.

Definition xor_byte (x y : byte) : byte := byte_of_N (N.lxor (Byte.to_N x) (Byte.to_N y)).
Definition boundary_hash (a b : Hash) : Hash := vzip_with xor_byte a b.

(** ** The cache *)

(** [DELTA0_EPS]: 1e-4 *)
Definition DELTA0_EPS : f32 := S754_finite false 13743895 (-37).

Inductive StalkDigest := DigestHash (h : Hash) | DigestChanged.
#[global] Instance StalkDigest_eq_dec : EqDecision StalkDigest.
Proof. solve_decision. Defined.
Record RestrictionEdge := { re_weights : list f64; re_boundary_hash : Hash; re_co_change_rate : f64; re_revert_rate : f64 }.
Record CacheEntry (V : Type) := { ce_value : V; ce_generation : N; ce_valid : bool }.
Arguments ce_value {V}. Arguments ce_generation {V}. Arguments ce_valid {V}. Arguments Build_CacheEntry {V}.
Definition HEURISTIC_CASCADE_DEPTH : N := 3.

Section cache.
Context `{HashIter} {V : Type}.

Record SheafCache := {
  stalks : gmap RegionId StalkDigest;
  restrictions : gmap (RegionId * RegionId) RestrictionEdge;
  cache_entries : gmap RegionId (CacheEntry V);
  generation : N;
  complex : option CellComplex;
  delta_zero_baseline : gmap (RegionId * RegionId) f32;
  cascade_budget : N;
  cascade_truncations : N;
}.
Definition cache_new : SheafCache := {|
  stalks := ∅; restrictions := ∅; cache_entries := ∅; generation := 0; complex := None; delta_zero_baseline := ∅;
  cascade_budget := usize_max; cascade_truncations := 0 |}.

Definition set_stalks v c := {| stalks := v; restrictions := restrictions c; cache_entries := cache_entries c; generation := generation c;
  complex := complex c; delta_zero_baseline := delta_zero_baseline c; cascade_budget := cascade_budget c; cascade_truncations := cascade_truncations c |}.
Definition set_restrictions v c := {| stalks := stalks c; restrictions := v; cache_entries := cache_entries c; generation := generation c;
  complex := complex c; delta_zero_baseline := delta_zero_baseline c; cascade_budget := cascade_budget c; cascade_truncations := cascade_truncations c |}.
Definition set_entries v c := {| stalks := stalks c; restrictions := restrictions c; cache_entries := v; generation := generation c;
  complex := complex c; delta_zero_baseline := delta_zero_baseline c; cascade_budget := cascade_budget c; cascade_truncations := cascade_truncations c |}.
Definition set_generation v c := {| stalks := stalks c; restrictions := restrictions c; cache_entries := cache_entries c; generation := v;
  complex := complex c; delta_zero_baseline := delta_zero_baseline c; cascade_budget := cascade_budget c; cascade_truncations := cascade_truncations c |}.
Definition set_complex_field v c := {| stalks := stalks c; restrictions := restrictions c; cache_entries := cache_entries c; generation := generation c;
  complex := v; delta_zero_baseline := delta_zero_baseline c; cascade_budget := cascade_budget c; cascade_truncations := cascade_truncations c |}.
Definition set_baseline v c := {| stalks := stalks c; restrictions := restrictions c; cache_entries := cache_entries c; generation := generation c;
  complex := complex c; delta_zero_baseline := v; cascade_budget := cascade_budget c; cascade_truncations := cascade_truncations c |}.
Definition set_budget v c := {| stalks := stalks c; restrictions := restrictions c; cache_entries := cache_entries c; generation := generation c;
  complex := complex c; delta_zero_baseline := delta_zero_baseline c; cascade_budget := v; cascade_truncations := cascade_truncations c |}.
Definition set_truncations v c := {| stalks := stalks c; restrictions := restrictions c; cache_entries := cache_entries c; generation := generation c;
  complex := complex c; delta_zero_baseline := delta_zero_baseline c; cascade_budget := cascade_budget c; cascade_truncations := v |}.

(** *** Keys in order *)

Definition keys_of (c : SheafCache) : list (RegionId * RegionId) := (map_to_list (restrictions c)).*1.
(** The keys [(region, b)] follow each other in the map, by [b]. *)
Definition neighbours (c : SheafCache) (region : RegionId) : list RegionId :=
  merge_sort N.le (snd <$> filter (λ k, k.1 = region) (keys_of c)).
Definition violation (cx : CellComplex) (a b : RegionId) : option f32 :=
  match edge_violation_squared cx a b with Some n => Some n | None => edge_violation_squared cx b a end.

(** *** Building *)

Definition set_cascade_budget (budget : N) (c : SheafCache) : SheafCache := set_budget budget c.
(** Each pair is written once, so the order of the pairs does not matter. *)
Definition refresh_baseline (c : SheafCache) : SheafCache :=
  match complex c with
  | None => c
  | Some cx =>
      let pairs := filter (λ k, k.1 <= k.2) (keys_of c) in
      set_baseline (foldl (λ m k, <[k := default f_zero (violation cx k.1 k.2)]> m) (delta_zero_baseline c) pairs) c
  end.
Definition refresh_baseline_subset (regions : list RegionId) (c : SheafCache) : SheafCache :=
  match complex c, regions with
  | None, _ | _, [] => c
  | Some cx, _ =>
      let pairs := filter (λ k, k.1 <= k.2 ∧ (k.1 ∈ regions ∨ k.2 ∈ regions)) (keys_of c) in
      set_baseline (foldl (λ m k, match violation cx k.1 k.2 with Some n => <[k := n]> m | None => delete k m end)
                      (delta_zero_baseline c) pairs) c
  end.
Definition drop_region (region : RegionId) (c : SheafCache) : list RegionId * SheafCache :=
  let keep := λ k : RegionId * RegionId, k.1 ≠ region ∧ k.2 ≠ region in
  (neighbours c region,
   set_baseline (filter (λ x, keep x.1) (delta_zero_baseline c))
     (set_restrictions (filter (λ x, keep x.1) (restrictions c))
       (set_entries (delete region (cache_entries c)) (set_stalks (delete region (stalks c)) c)))).
Definition drop_restriction (a b : RegionId) (c : SheafCache) : bool * SheafCache :=
  let there := restrictions c !! (a, b) in
  let back := delete (a, b) (restrictions c) !! (b, a) in
  (bool_decide (is_Some there) || bool_decide (is_Some back),
   set_baseline (delete (N.min a b, N.max a b) (delta_zero_baseline c))
     (set_restrictions (delete (b, a) (delete (a, b) (restrictions c))) c)).
Definition bump_generation (c : SheafCache) : N * SheafCache :=
  let g := wadd64 (generation c) 1 in (g, set_generation g c).
Definition with_complex (cx : CellComplex) (c : SheafCache) : SheafCache := set_complex_field (Some cx) c.
Definition set_complex (cx : CellComplex) (c : SheafCache) : SheafCache := set_baseline ∅ (set_complex_field (Some cx) c).
Definition set_stalk_value (region : RegionId) (data : list f32) (c : SheafCache) : result unit SheafCache :=
  match complex c with
  | Some cx =>
      match cells cx !! region with
      | Some cell => if c_dimension cell =? 0
                     then cx ← set_node_stalk region data cx; mret (set_complex_field (Some cx) c)
                     else mret c
      | None => mret c
      end
  | None => mret c
  end.
Definition set_stalk (region : RegionId) (stalk : StalkDigest) (c : SheafCache) : SheafCache :=
  set_stalks (<[region := stalk]> (stalks c)) c.
Definition set_restriction (a b : RegionId) (edge : RestrictionEdge) (c : SheafCache) : SheafCache :=
  set_restrictions (<[(b, a) := edge]> (<[(a, b) := edge]> (restrictions c))) c.
Definition put (region : RegionId) (value : V) (c : SheafCache) : SheafCache :=
  set_entries (<[region := {| ce_value := value; ce_generation := generation c; ce_valid := true |}]> (cache_entries c)) c.
Definition get (region : RegionId) (c : SheafCache) : option V :=
  e ← cache_entries c !! region; if ce_valid e then Some (ce_value e) else None.
Definition total_count (c : SheafCache) : nat := size (cache_entries c).
Definition valid_count (c : SheafCache) : nat := size (filter (λ x, ce_valid x.2 = true) (cache_entries c)).

(** *** The boundary check *)

Definition moved (current : f32) (baseline : f32) : bool := f_gt (f_abs (f_sub (f_sqrt current) (f_sqrt baseline))) DELTA0_EPS.
Definition check_boundary_changed (c : SheafCache) (a b : RegionId) (edge : RestrictionEdge) : bool :=
  let hash_a := stalks c !! a in
  let hash_b := stalks c !! b in
  if bool_decide (hash_a = Some DigestChanged) || bool_decide (hash_b = Some DigestChanged) then true
  else
    let xor_changed :=
      match hash_a, hash_b with
      | Some (DigestHash ha), Some (DigestHash hb) => negb (bool_decide (boundary_hash ha hb = re_boundary_hash edge))
      | _, _ => true
      end in
    if negb xor_changed then false
    else
      match complex c with
      | None => true
      | Some cx =>
          match violation cx a b with
          | None => true
          | Some current =>
              match delta_zero_baseline c !! (N.min a b, N.max a b) with
              | Some baseline => moved current baseline
              | None => f_gt (f_sqrt current) DELTA0_EPS
              end
          end
      end.

(** *** The cascade *)

Definition invalidate (e : CacheEntry V) : CacheEntry V :=
  {| ce_value := ce_value e; ce_generation := ce_generation e; ce_valid := false |}.
Record cascade := {
  frontier : list (RegionId * N);
  visited : gset RegionId;
  invalidated : list RegionId;
  casc_entries : gmap RegionId (CacheEntry V);
}.
Definition visit (c : SheafCache) (region depth : N) (st : cascade) (neighbor : RegionId) : cascade :=
  if bool_decide (neighbor ∈ visited st) then st
  else
    let fires := match restrictions c !! (region, neighbor) with
                 | Some edge => check_boundary_changed c region neighbor edge
                 | None => false
                 end in
    if fires then
      {| frontier := frontier st ++ [(neighbor, depth + 1)]; visited := {[ neighbor ]} ∪ visited st;
         invalidated := invalidated st ++ [neighbor]; casc_entries := alter invalidate neighbor (casc_entries st) |}
    else
      {| frontier := frontier st; visited := {[ neighbor ]} ∪ visited st;
         invalidated := invalidated st; casc_entries := casc_entries st |}.
(** The loop; the flag says whether the budget cut it short.  [None] is a loop that
    was still running when the fuel ended. *)
Fixpoint cascade_loop (c : SheafCache) (fuel : nat) (expansions : N) (st : cascade) : option (bool * cascade) :=
  match fuel with
  | O => None
  | S fuel =>
      match frontier st with
      | [] => Some (false, st)
      | (region, depth) :: rest =>
          let st := {| frontier := rest; visited := visited st; invalidated := invalidated st; casc_entries := casc_entries st |} in
          match complex c with
          | Some _ =>
              if cascade_budget c <=? expansions then Some (true, st)
              else cascade_loop c fuel (expansions + 1) (foldl (visit c region depth) st (neighbours c region))
          | None =>
              if HEURISTIC_CASCADE_DEPTH <=? depth then cascade_loop c fuel expansions st
              else cascade_loop c fuel expansions (foldl (visit c region depth) st (neighbours c region))
          end
      end
  end.
Definition cascade_fuel (c : SheafCache) (changed : list RegionId) : nat := S (length changed + size (restrictions c)).
Definition cascade_start (c : SheafCache) (changed : list RegionId) : cascade := {|
  frontier := (λ r, (r, 0)) <$> changed; visited := list_to_set changed; invalidated := changed;
  casc_entries := foldl (λ m r, alter invalidate r m) (cache_entries c) changed |}.
Definition on_change (changed : list RegionId) (c : SheafCache) : option (list RegionId * SheafCache) :=
  let c := set_generation (wadd64 (generation c) 1) c in
  '(cut, st) ← cascade_loop c (cascade_fuel c changed) 0 (cascade_start c changed);
  mret (invalidated st,
        set_truncations (if cut : bool then wadd64 (cascade_truncations c) 1 else cascade_truncations c)
          (set_entries (casc_entries st) c)).

(** *** Defect and weights *)

(** Keys of a map in the order of its iteration. *)
Definition key_le (k l : RegionId * RegionId) : Prop := k.1 < l.1 ∨ k.1 = l.1 ∧ k.2 <= l.2.
#[export] Instance key_le_dec k l : Decision (key_le k l).
Proof. unfold key_le. apply _. Defined.
Definition ordered_keys (c : SheafCache) : list (RegionId * RegionId) := merge_sort key_le (keys_of c).
Definition disagrees (c : SheafCache) (a b : RegionId) (edge : RestrictionEdge) : bool :=
  match stalks c !! a, stalks c !! b with
  | Some (DigestHash ha), Some (DigestHash hb) => negb (bool_decide (boundary_hash ha hb = re_boundary_hash edge))
  | Some _, Some _ => true
  | _, _ => false
  end.
Definition defect (c : SheafCache) : f64 :=
  foldl (λ total k,
    if k.2 <=? k.1 then total
    else match restrictions c !! k with
         | Some edge => if disagrees c k.1 k.2 edge then d_add total (d_sub d_one (re_co_change_rate edge)) else total
         | None => total
         end) d_zero (ordered_keys c).
Definition weight_of (stalk_values : list (list f64)) (scale : f64) (d : N) : result unit f64 :=
  col ← fold_result (λ acc s, v ← index_checked d s; mret (acc ++ [v])) [] stalk_values;
  let n := d_of_N (len stalk_values) in
  let mean := d_div (d_sum col) n in
  let mean_sq := d_div (d_sum ((λ v, d_mul v v) <$> col)) n in
  let variance := d_sub mean_sq (d_mul mean mean) in
  mret (d_div d_one (d_add d_one (d_mul variance scale))).
Definition derive_restriction_weights (stalk_values : list (list f64)) (scale : f64) : result unit (list f64) :=
  match stalk_values with
  | [] => mret []
  | s0 :: _ => fold_result (λ acc d, w ← weight_of stalk_values scale d; mret (acc ++ [w])) [] (upto (len s0))
  end.

(** *** The reaper *)

Definition edge_moved (cx : CellComplex) (c : SheafCache) (a b : RegionId) : bool :=
  match violation cx a b with
  | Some current => moved current (default f_zero (delta_zero_baseline c !! (N.min a b, N.max a b)))
  | None => false
  end.
Definition reap_seed (cx : CellComplex) (c : SheafCache) (st : gset RegionId * f32) (k : RegionId * RegionId) : gset RegionId * f32 :=
  if k.2 <=? k.1 then st
  else match violation cx k.1 k.2 with
       | Some n => (if edge_moved cx c k.1 k.2 then {[ k.2 ]} ∪ ({[ k.1 ]} ∪ st.1) else st.1, f_add st.2 n)
       | None => st
       end.
Record reaping := { r_frontier : list RegionId; r_visited : gset RegionId; reclaim : gset RegionId }.
Definition reap_visit (cx : CellComplex) (c : SheafCache) (region : RegionId) (st : reaping) (n : RegionId) : reaping :=
  if bool_decide (n ∈ r_visited st) then st
  else
    let visited := {[ n ]} ∪ r_visited st in
    if edge_moved cx c region n
    then {| r_frontier := r_frontier st ++ [n]; r_visited := visited; reclaim := {[ n ]} ∪ reclaim st |}
    else {| r_frontier := r_frontier st; r_visited := visited; reclaim := reclaim st |}.
Fixpoint reap_loop (cx : CellComplex) (c : SheafCache) (fuel : nat) (expansions : N) (st : reaping) : option (bool * reaping) :=
  match fuel with
  | O => None
  | S fuel =>
      match r_frontier st with
      | [] => Some (false, st)
      | region :: rest =>
          let st := {| r_frontier := rest; r_visited := r_visited st; reclaim := reclaim st |} in
          if cascade_budget c <=? expansions then Some (true, st)
          else reap_loop cx c fuel (expansions + 1) (foldl (reap_visit cx c region) st (neighbours c region))
      end
  end.
Definition reap (c : SheafCache) : option (list RegionId * f32 * SheafCache) :=
  match complex c with
  | None => Some ([], f_nan, c)
  | Some cx =>
      let '(seeds, total_defect) := foldl (reap_seed cx c) (∅, f_zero) (ordered_keys c) in
      let fuel := S (size seeds + size (restrictions c)) in
      '(cut, st) ← reap_loop cx c fuel 0 {| r_frontier := merge_sort N.le (elements seeds); r_visited := seeds; reclaim := seeds |};
      mret (merge_sort N.le (elements (reclaim st)), total_defect,
            set_truncations (if cut : bool then wadd64 (cascade_truncations c) 1 else cascade_truncations c) c)
  end.
End cache.
Arguments SheafCache V : clear implicits.

(** ** The co-change tracker *)

Record CoChangeTracker := { rates : gmap (RegionId * RegionId) f64; counts : gmap (RegionId * RegionId) N; alpha : f64 }.
(** [(0.0..1.0).contains(&alpha)] *)
Definition tracker_new (alpha : f64) : result unit CoChangeTracker :=
  _ ← assert_ (SFleb d_zero alpha && SFltb alpha d_one);
  mret {| rates := ∅; counts := ∅; alpha := alpha |}.
(** [0.1] *)
Definition tracker_default : CoChangeTracker :=
  {| rates := ∅; counts := ∅; alpha := d_div d_one (d_of_N 10) |}.
Definition normalize_pair (a b : RegionId) : RegionId * RegionId := if a <=? b then (a, b) else (b, a).
Definition observe_edge (changed : gset RegionId) (t : CoChangeTracker) (e : RegionId * RegionId) : CoChangeTracker :=
  let '(a, b) := e in
  let key := normalize_pair a b in
  let signal := if bool_decide (a ∈ changed) && bool_decide (b ∈ changed) then d_one else d_zero in
  let rate := default d_zero (rates t !! key) in
  {| rates := <[key := d_add (d_mul (d_sub d_one (alpha t)) rate) (d_mul (alpha t) signal)]> (rates t);
     counts := <[key := wadd64 (default 0 (counts t !! key)) 1]> (counts t);
     alpha := alpha t |}.
Definition observe (changed : list RegionId) (all_edges : list (RegionId * RegionId)) (t : CoChangeTracker) : CoChangeTracker :=
  foldl (observe_edge (list_to_set changed)) t all_edges.
Definition rate (t : CoChangeTracker) (a b : RegionId) : f64 := default d_zero (rates t !! normalize_pair a b).
Definition observations (t : CoChangeTracker) (a b : RegionId) : N := default 0 (counts t !! normalize_pair a b).
Definition tracker_edge_count (t : CoChangeTracker) : nat := size (rates t).

(** ** What the cascade reaches *)

Section reach.
Context `{HashIter} {V : Type} (c : SheafCache V).

(** The edge is there and its check says changed. *)
Definition gate (a b : RegionId) : bool :=
  match restrictions c !! (a, b) with Some edge => check_boundary_changed c a b edge | None => false end.
Definition connected (a b : RegionId) : Prop := is_Some (restrictions c !! (a, b)).
#[global] Instance connected_dec a b : Decision (connected a b).
Proof. unfold connected. apply _. Defined.
Definition targets : gset RegionId := list_to_set (keys_of c).*2.

Lemma keys_of_elem k : k ∈ keys_of c ↔ is_Some (restrictions c !! k).
Proof.
  unfold keys_of. rewrite list_elem_of_fmap. split.
  - intros ([k' e] & -> & Hin). apply elem_of_map_to_list in Hin. by exists e.
  - intros [e He]. exists (k, e). split; [done |]. by apply elem_of_map_to_list.
Qed.
Lemma neighbours_connected r n : n ∈ neighbours c r ↔ connected r n.
Proof.
  unfold neighbours, connected. rewrite merge_sort_Permutation, list_elem_of_fmap. split.
  - intros ([a b] & Hb & Hin). apply list_elem_of_filter in Hin as [Ha Hin%keys_of_elem]. cbn in *. by subst.
  - intros He. exists (r, n). split; [done |]. apply list_elem_of_filter. by rewrite keys_of_elem.
Qed.
Lemma connected_target r n : connected r n → n ∈ targets.
Proof.
  intros He. unfold targets. rewrite elem_of_list_to_set, list_elem_of_fmap. exists (r, n). by rewrite keys_of_elem.
Qed.
Lemma gate_connected r n : gate r n = true → connected r n.
Proof. unfold gate, connected. destruct (restrictions c !! (r, n)); [eauto | done]. Qed.
Lemma size_list_to_set_le (l : list RegionId) : (size (list_to_set (C:=gset RegionId) l) ≤ length l)%nat.
Proof.
  induction l as [| x l IH]; [by rewrite list_to_set_nil, size_empty |]. rewrite list_to_set_cons, size_union_alt, size_singleton.
  pose proof (subseteq_size (list_to_set (C:=gset RegionId) l ∖ {[x]}) (list_to_set l)) as Hle. cbn [length].
  etrans; [apply Nat.add_le_mono_l, Hle; set_solver |]. lia.
Qed.
Lemma size_targets : (size targets ≤ size (restrictions c))%nat.
Proof.
  unfold targets, keys_of. etrans; [apply size_list_to_set_le |]. rewrite !length_fmap. by rewrite length_map_to_list.
Qed.

Context (changed : list RegionId).

(** Each region reported so far with its number of hops from a named one.  Which of
    them the cascade expands: as many as the budget allows with a complex, those below the
    hop limit without one. *)
Definition expanded (tr : list (RegionId * N)) : list (RegionId * N) :=
  match complex c with
  | Some _ => takeN (cascade_budget c) tr
  | None => filter (λ x, x.2 < HEURISTIC_CASCADE_DEPTH) tr
  end.
(** The first expanded region with an edge to [n]. *)
Definition examiner (tr : list (RegionId * N)) (n : RegionId) : option (RegionId * N) :=
  head (filter (λ x, connected x.1 n) (expanded tr)).

(** What the expansion of [ex], in order, adds after that of [before]. *)
Definition examined (before : list (RegionId * N)) (n : RegionId) : Prop := Exists (λ x, connected x.1 n) before.
Definition children (before : list (RegionId * N)) (x : RegionId * N) : list (RegionId * N) :=
  (λ n, (n, x.2 + 1)) <$> filter (λ n, n ∉ changed ∧ ¬ examined before n ∧ gate x.1 n = true) (neighbours c x.1).
Fixpoint grow (before ex : list (RegionId * N)) : list (RegionId * N) :=
  match ex with [] => [] | x :: ex => children before x ++ grow (before ++ [x]) ex end.
Definition roots : list (RegionId * N) := (λ r, (r, 0)) <$> changed.

Lemma roots_fst : roots.*1 = changed.
Proof. unfold roots. rewrite <- list_fmap_compose. apply list_fmap_id. Qed.
Lemma grow_snoc before ex x : grow before (ex ++ [x]) = grow before ex ++ children (before ++ ex) x.
Proof.
  revert before. induction ex as [| y ex IH]; intros before; cbn [grow app]; [by rewrite !app_nil_r |].
  by rewrite IH, <- !app_assoc.
Qed.
Lemma filter_same {A} (P Q : A → Prop) `{!∀ x, Decision (P x), !∀ x, Decision (Q x)} (l : list A) :
  (∀ x, x ∈ l → P x ↔ Q x) → filter P l = filter Q l.
Proof.
  induction l as [| x l IH]; intros Hl; [done |]. rewrite !filter_cons, IH by (intros; apply Hl; by right).
  specialize (Hl x ltac:(by left)). by do 2 case_decide; try tauto.
Qed.
Lemma neighbours_nodup x : NoDup (neighbours c x).
Proof.
  unfold neighbours. rewrite merge_sort_Permutation. apply NoDup_fmap_2_strong.
  - intros [a b] [a' b'] [Ha _]%list_elem_of_filter [Ha' _]%list_elem_of_filter. cbn in *. congruence.
  - apply NoDup_filter, NoDup_fst_map_to_list.
Qed.
Lemma children_elem before x n d : (n, d) ∈ children before x ↔
  d = x.2 + 1 ∧ n ∉ changed ∧ ¬ examined before n ∧ gate x.1 n = true.
Proof.
  unfold children. rewrite list_elem_of_fmap. split.
  - intros (m & [= -> ->] & [(? & ? & ?) _]%list_elem_of_filter). done.
  - intros (-> & Hn & He & Hg). exists n. split; [done |]. apply list_elem_of_filter. split; [done |].
    by apply neighbours_connected, gate_connected.
Qed.
(** A region is added by the first one that has an edge to it, if that edge fires. *)
Lemma grow_elem ex before n d : (n, d) ∈ grow before ex ↔
  n ∉ changed ∧ ¬ examined before n ∧ ∃ x, head (filter (λ x, connected x.1 n) ex) = Some x ∧ gate x.1 n = true ∧ d = x.2 + 1.
Proof.
  revert before. induction ex as [| x ex IH]; intros before; cbn [grow].
  { split; [by intros ?%elem_of_nil | by intros (_ & _ & x & ? & _)]. }
  rewrite elem_of_app, children_elem, IH, filter_cons. unfold examined. rewrite Exists_app, Exists_cons, Exists_nil. cbv beta.
  destruct (decide (connected x.1 n)) as [Hc | Hc]; cbn [head].
  - split; [intros [(-> & ? & ? & ?) | (_ & Hn & _)]; [eauto 7 | by destruct Hn; right; left] |].
    intros (? & ? & y & [= <-] & ? & ->). by left.
  - split; [intros [(_ & _ & _ & Hg%gate_connected) | (? & ? & ?)]; [done | tauto] |]. intros (? & ? & ?). right. split_and!; [done | tauto | done].
Qed.
Lemma grow_fst_nodup ex before : NoDup (grow before ex).*1 ∧ ∀ n, n ∈ (grow before ex).*1 → n ∉ changed ∧ ¬ examined before n.
Proof.
  split.
  - revert before. induction ex as [| x ex IH]; intros before; cbn [grow]; [constructor |].
    rewrite fmap_app. apply NoDup_app. split_and!; [| | done].
    + unfold children. rewrite <- list_fmap_compose. apply NoDup_fmap_2; [by intros ? ? |]. apply NoDup_filter, neighbours_nodup.
    + intros n ([n1 d1] & -> & (_ & _ & _ & Hg)%children_elem)%list_elem_of_fmap ([n2 d2] & Hn & (_ & He & _)%grow_elem)%list_elem_of_fmap.
      cbn in *. subst. apply He. apply Exists_app. right. apply Exists_cons. left. by apply gate_connected.
  - intros n ([m d] & -> & (? & ? & _)%grow_elem)%list_elem_of_fmap. done.
Qed.

(** The state of the loop after the entries [seen] were taken from its queue and [ex] of
    them expanded. *)
Record cascade_inv (seen ex : list (RegionId * N)) (st : cascade (V:=V)) : Prop := {
  ci_trace : seen ++ frontier st = roots ++ grow [] ex;
  ci_reported : invalidated st = (seen ++ frontier st).*1;
  ci_visited : ∀ n, n ∈ visited st ↔ n ∈ changed ∨ examined ex n;
  ci_sorted : StronglySorted N.le (seen ++ frontier st).*2;
  ci_level : ∀ x y, x ∈ frontier st → y ∈ frontier st → x.2 <= y.2 + 1;
  ci_entries : ∀ x, casc_entries st !! x = (if decide (x ∈ invalidated st) then invalidate else id) <$> cache_entries c !! x;
}.
Definition rest_of (st : cascade (V:=V)) : list (RegionId * N) := tail (frontier st).
Definition popped (st : cascade (V:=V)) : cascade :=
  {| frontier := rest_of st; visited := visited st; invalidated := invalidated st; casc_entries := casc_entries st |}.
Definition work (st : cascade (V:=V)) : nat := length (frontier st) + size (targets ∖ visited st).

Lemma visit_work x d st n : connected x n → (work (visit c x d st n) ≤ work st)%nat.
Proof.
  intros Hn%connected_target. unfold visit, work. case_bool_decide as Hv; [done |].
  assert (size (targets ∖ visited st) = S (size (targets ∖ ({[n]} ∪ visited st)))) as Hsz.
  { replace (targets ∖ visited st) with ({[n]} ∪ targets ∖ ({[n]} ∪ visited st)).
    - rewrite size_union by set_solver. by rewrite size_singleton.
    - apply leibniz_equiv. intros y. destruct (decide (y = n)) as [-> |]; set_solver. }
  fold (gate x n). destruct (gate x n); cbn; rewrite ?length_app; cbn; lia.
Qed.
Lemma visits_work x d ns st : (∀ n, n ∈ ns → connected x n) → (work (foldl (visit c x d) st ns) ≤ work st)%nat.
Proof.
  revert st. induction ns as [| n ns IH]; intros st Hns; cbn; [done |]. etrans; [apply IH; set_solver |]. apply visit_work. set_solver.
Qed.
(** The neighbours of one region, examined in order. *)
Lemma visits_exact x d ns st : NoDup ns →
  let st' := foldl (visit c x d) st ns in
  let new := filter (λ n, n ∉ visited st ∧ gate x n = true) ns in
  frontier st' = frontier st ++ ((λ n, (n, d + 1)) <$> new) ∧ invalidated st' = invalidated st ++ new
  ∧ (∀ n, n ∈ visited st' ↔ n ∈ visited st ∨ n ∈ ns)
  ∧ ∀ y, casc_entries st' !! y = (if decide (y ∈ new) then invalidate else id) <$> casc_entries st !! y.
Proof.
  revert st. induction ns as [| n ns IH]; intros st Hnd; cbn [foldl].
  { cbn. rewrite !app_nil_r. split_and!; [done.. | set_solver |]. intros y. by destruct (casc_entries st !! y). }
  apply NoDup_cons in Hnd as [Hn Hnd]. destruct (IH (visit c x d st n) Hnd) as (Hf & Hi & Hv & He). cbv zeta.
  assert (filter (λ m, m ∉ visited (visit c x d st n) ∧ gate x m = true) ns = filter (λ m, m ∉ visited st ∧ gate x m = true) ns) as Hnew.
  { apply filter_same. intros m Hm. unfold visit. case_bool_decide; [done |]. fold (gate x n).
    destruct (gate x n); cbn; set_solver. }
  rewrite Hnew in *. rewrite filter_cons, Hf, Hi. unfold visit in *. case_bool_decide as Hvn.
  - rewrite decide_False by tauto. split_and!; [done.. | |]; [| done]. intros m. rewrite Hv. set_solver.
  - fold (gate x n) in *. destruct (gate x n) eqn:Hg; cbn [frontier invalidated visited casc_entries] in *.
    + rewrite decide_True by done. rewrite fmap_cons, <- !app_assoc. split_and!; [done.. | |].
      * intros m. rewrite Hv. set_solver.
      * intros y. rewrite He. set (new := filter _ ns). assert (n ∉ new) as Hnn by (unfold new; rewrite list_elem_of_filter; tauto).
        destruct (decide (y = n)) as [-> | Hne].
        -- rewrite lookup_alter_eq. rewrite (decide_False (P := n ∈ new)) by done. rewrite (decide_True (P := n ∈ n :: new)) by (by left).
           by destruct (casc_entries st !! n).
        -- rewrite lookup_alter_ne by done. do 2 case_decide; set_solver.
    + rewrite decide_False by (by intros [_ ?]). split_and!; [done.. | |]; [| done]. intros m. rewrite Hv. set_solver.
Qed.
Lemma sorted_snoc_new (l new : list (RegionId * N)) d :
  StronglySorted N.le l.*2 → (∀ x, x ∈ l → x.2 <= d) → (∀ x, x ∈ new → x.2 = d) → StronglySorted N.le (l ++ new).*2.
Proof.
  intros Hs Hl Hn. rewrite fmap_app. induction l as [| x l IH]; cbn in *.
  - assert (Forall (λ y, y = d) new.*2) as Hd. { rewrite Forall_fmap. by apply Forall_forall. }
    clear Hn Hl Hs. induction Hd as [| y ys -> Hys IHy]; constructor; [done |]. eapply Forall_impl; [exact Hys |]. intros ? ->. done.
  - apply StronglySorted_inv in Hs as [Hs Hx]. constructor; [apply IH; set_solver |]. apply Forall_app. split; [done |].
    rewrite Forall_fmap. apply Forall_forall. intros y Hy. cbn. rewrite (Hn y Hy). apply Hl. by left.
Qed.
Lemma sorted_app_le (l k : list (RegionId * N)) x y : StronglySorted N.le (l ++ k).*2 → x ∈ l → y ∈ k → x.2 <= y.2.
Proof.
  intros Hs Hx Hy. induction l as [| z l IH]; [by apply elem_of_nil in Hx |]. cbn in Hs. apply StronglySorted_inv in Hs as [Hs Hz].
  apply elem_of_cons in Hx as [-> | Hx]; [| by apply IH]. rewrite Forall_fmap, Forall_forall in Hz. apply Hz, elem_of_app. by right.
Qed.
Lemma skip_inv x d seen ex st :
  cascade_inv seen ex st → frontier st = (x, d) :: rest_of st → cascade_inv (seen ++ [(x, d)]) ex (popped st).
Proof.
  intros [Ht Hr Hv Hs Hl He] Hf. rewrite Hf in Ht, Hr, Hs, Hl. split; cbn; rewrite <- ?app_assoc; try done. set_solver.
Qed.
(** The head of the queue is taken and its neighbours are examined. *)
Lemma expand_inv x d seen ex st :
  cascade_inv seen ex st → frontier st = (x, d) :: rest_of st →
  cascade_inv (seen ++ [(x, d)]) (ex ++ [(x, d)]) (foldl (visit c x d) (popped st) (neighbours c x)).
Proof.
  intros Hinv Hf. destruct (skip_inv _ _ _ _ _ Hinv Hf) as [Ht Hr Hv Hs Hl He]. pose proof (ci_level _ _ _ Hinv) as Hlv. rewrite Hf in Hlv.
  destruct (visits_exact x d (neighbours c x) (popped st) (neighbours_nodup x)) as (Hf' & Hi' & Hv' & He').
  set (new := filter _ (neighbours c x)) in *. set (st' := foldl _ _ _) in *.
  assert ((λ n, (n, d + 1)) <$> new = children ex (x, d)) as Hch.
  { unfold children, new. f_equal. apply filter_same. intros n Hn. cbn [fst]. rewrite Hv. tauto. }
  assert (∀ y, y ∈ seen ++ (x, d) :: rest_of st → y.2 <= d + 1) as Hle.
  { pose proof (ci_sorted _ _ _ Hinv) as Hsrt. rewrite Hf in Hsrt. intros y [Hy | Hy]%elem_of_app.
    - pose proof (sorted_app_le _ _ y (x, d) Hsrt Hy ltac:(by left)). cbn in *. lia.
    - apply (Hlv y (x, d)); [done | by left]. }
  split; rewrite ?Hf', ?Hch.
  - rewrite grow_snoc, app_assoc. rewrite Ht. cbn [app]. by rewrite <- app_assoc.
  - rewrite Hi'. cbn [popped invalidated] in Hr |- *. rewrite Hr, app_assoc, <- Hch, !fmap_app, <- list_fmap_compose. cbn [popped frontier].
    f_equal. unfold compose. cbn. by rewrite list_fmap_id.
  - intros n. rewrite Hv'. cbn [popped visited]. rewrite (Hv n). unfold examined. rewrite Exists_app, Exists_cons, Exists_nil, neighbours_connected. cbn. tauto.
  - rewrite app_assoc. apply (sorted_snoc_new _ _ (d + 1)); [done | | by intros [m e] [-> _]%children_elem].
    intros y Hy. apply Hle. cbn [popped frontier] in Hy. by rewrite <- app_assoc in Hy.
  - assert (∀ y, y ∈ rest_of st ++ children ex (x, d) → d <= y.2 ∧ y.2 <= d + 1) as Hb.
    { intros y [Hy | Hy]%elem_of_app.
      - split; [| apply Hle, elem_of_app; right; by right]. pose proof (ci_sorted _ _ _ Hinv) as Hsrt. rewrite Hf in Hsrt.
        rewrite (cons_middle (x, d)), app_assoc in Hsrt. apply (sorted_app_le _ _ (x, d) y Hsrt); [set_solver | done].
      - destruct y as [m e]. apply children_elem in Hy as [-> _]. cbn. lia. }
    cbn [popped frontier]. intros y z Hy%Hb Hz%Hb. lia.
  - intros y. rewrite He', He. cbn [popped casc_entries invalidated] in *. rewrite Hi'.
    destruct (cache_entries c !! y) as [e |]; [| by repeat case_decide].
    destruct (decide (y ∈ new)), (decide (y ∈ invalidated st)), (decide (y ∈ invalidated st ++ new)) as [Hin | Hin]; rewrite ?elem_of_app in Hin; try tauto; done.
Qed.

(** How many entries a run with a complex has expanded. *)
Definition paced (k : N) (seen ex : list (RegionId * N)) : Prop :=
  match complex c with Some _ => ex = seen ∧ len seen = k ∧ k <= cascade_budget c | None => ex = filter (λ x, x.2 < HEURISTIC_CASCADE_DEPTH) seen end.
Definition cascade_done (cut : bool) (tr : list (RegionId * N)) (st : cascade (V:=V)) : Prop :=
  tr = roots ++ grow [] (expanded tr) ∧ invalidated st = tr.*1 ∧ StronglySorted N.le tr.*2
  ∧ (∀ x, casc_entries st !! x = (if decide (x ∈ invalidated st) then invalidate else id) <$> cache_entries c !! x)
  ∧ cut = match complex c with Some _ => cascade_budget c <? len tr | None => false end.
Lemma cascade_loop_spec fuel k seen ex st :
  cascade_inv seen ex st → paced k seen ex → (work st < fuel)%nat →
  ∃ cut tr st', cascade_loop c fuel k st = Some (cut, st') ∧ cascade_done cut tr st'.
Proof.
  revert k seen ex st. induction fuel as [| fuel IH]; intros k seen ex st Hinv Hp Hw; [lia |]. cbn [cascade_loop].
  destruct (frontier st) as [| [x d] rest] eqn:Hf.
  { exists false, seen, st. split; [done |]. destruct Hinv as [Ht Hr Hv Hs _ He]. rewrite Hf, app_nil_r in *.
    unfold paced in Hp. unfold cascade_done, expanded. destruct (complex c); [destruct Hp as (-> & Hk & Hb) | subst ex]; split_and!; try done.
    - rewrite takeN_ge by lia. done.
    - symmetry. apply N.ltb_ge. lia. }
  assert (frontier st = (x, d) :: rest_of st) as Hf' by (unfold rest_of; by rewrite Hf).
  assert (rest = rest_of st) as -> by (unfold rest_of; by rewrite Hf). fold (popped st).
  assert (S (work (popped st)) = work st) as Hpop by (unfold work; rewrite Hf'; cbn; lia).
  assert ((work (foldl (visit c x d) (popped st) (neighbours c x)) ≤ work (popped st))%nat) as Hvw.
  { apply visits_work. by intros n ?%neighbours_connected. }
  unfold paced in *. destruct (complex c) as [cx |] eqn:Hc.
  - destruct Hp as (-> & Hk & Hb). destruct (N.leb_spec (cascade_budget c) k) as [Hle | Hlt].
    + exists true, (seen ++ frontier st), (popped st). split; [done |]. destruct Hinv as [Ht Hr Hv Hs _ He].
      unfold cascade_done, expanded. rewrite Hc. replace (cascade_budget c) with (len seen) by lia. rewrite takeN_app_len.
      split_and!; try done. symmetry. apply N.ltb_lt. rewrite Hf', len_app, len_cons. lia.
    + apply (IH (k + 1) (seen ++ [(x, d)]) (seen ++ [(x, d)])); [by apply expand_inv | | lia].
      split_and!; [done | rewrite len_app, len_cons, len_nil; lia | lia].
  - subst ex. destruct (N.leb_spec HEURISTIC_CASCADE_DEPTH d) as [Hle | Hlt].
    + eapply (IH k (seen ++ [(x, d)])); [by eapply skip_inv | | lia]. rewrite filter_app. cbn. rewrite decide_False by (cbn; lia). by rewrite app_nil_r.
    + eapply (IH k (seen ++ [(x, d)])); [by eapply expand_inv | | lia]. rewrite filter_app. cbn. by rewrite decide_True.
Qed.
Lemma cascade_start_inv : cascade_inv [] [] (cascade_start c changed).
Proof.
  split; cbn.
  - unfold roots. by rewrite app_nil_r.
  - rewrite <- list_fmap_compose. symmetry. apply list_fmap_id.
  - intros x. rewrite elem_of_list_to_set. unfold examined. rewrite Exists_nil. tauto.
  - apply (sorted_snoc_new [] _ 0); [constructor | by intros ? ?%elem_of_nil | by intros x (y & -> & _)%list_elem_of_fmap].
  - intros x y (? & -> & _)%list_elem_of_fmap (? & -> & _)%list_elem_of_fmap. cbn. lia.
  - intros x. generalize (cache_entries c). induction changed as [| y l IH]; intros m; cbn [foldl].
    + by destruct (m !! x).
    + rewrite IH. destruct (decide (x = y)) as [-> | Hne].
      * rewrite lookup_alter_eq. rewrite (decide_True (P := y ∈ y :: l)) by (apply elem_of_cons; by left).
        case_decide; by destruct (m !! y).
      * rewrite lookup_alter_ne by done. do 2 case_decide; set_solver.
Qed.
Lemma cascade_start_work : (work (cascade_start c changed) < cascade_fuel c changed)%nat.
Proof.
  unfold work, cascade_fuel. cbn. rewrite length_fmap.
  pose proof (subseteq_size (targets ∖ list_to_set changed) targets) as Hs. pose proof size_targets.
  assert (targets ∖ list_to_set changed ⊆ targets) as Hsub by set_solver. specialize (Hs Hsub). lia.
Qed.
(** The regions a finished cascade reports. *)
Lemma trace_elem tr n d : tr = roots ++ grow [] (expanded tr) →
  (n, d) ∈ tr ↔ n ∈ changed ∧ d = 0 ∨ n ∉ changed ∧ ∃ x, examiner tr n = Some x ∧ gate x.1 n = true ∧ d = x.2 + 1.
Proof.
  intros E. rewrite E at 1. rewrite elem_of_app, grow_elem. unfold roots. rewrite list_elem_of_fmap. fold (examiner tr n). split.
  - intros [(y & [= -> ->] & ?) | (? & _ & ?)]; auto.
  - intros [[? ->] | [? ?]]; [left; eauto |]. right. split_and!; [done | | done]. by intros ?%Exists_nil.
Qed.
End reach.

Section cascade_theorems.
Context `{HashIter} {V : Type}.
Implicit Types (c : SheafCache V) (changed : list RegionId).

Lemma on_change_spec c changed :
  ∃ tr c', on_change changed c = Some (tr.*1, c') ∧
    (∃ extra, tr = roots changed ++ extra ∧ NoDup extra.*1) ∧ StronglySorted N.le tr.*2 ∧
    (∀ n d, (n, d) ∈ tr ↔ n ∈ changed ∧ d = 0 ∨ n ∉ changed ∧ ∃ x, examiner c tr n = Some x ∧ gate c x.1 n = true ∧ d = x.2 + 1) ∧
    (∀ x, get x c' = if decide (x ∈ tr.*1) then None else get x c) ∧
    generation c' = wadd64 (generation c) 1 ∧
    (stalks c', restrictions c', complex c', delta_zero_baseline c', cascade_budget c') =
      (stalks c, restrictions c, complex c, delta_zero_baseline c, cascade_budget c) ∧
    cascade_truncations c' = if match complex c with Some _ => cascade_budget c <? len tr | None => false end
                             then wadd64 (cascade_truncations c) 1 else cascade_truncations c.
Proof.
  unfold on_change. set (c1 := set_generation (wadd64 (generation c) 1) c).
  assert (paced c1 0 [] []) as Hp. { unfold paced. destruct (complex c1); [| done]. split_and!; [done | done | lia]. }
  destruct (cascade_loop_spec c1 changed (cascade_fuel c1 changed) 0 [] [] (cascade_start c1 changed))
    as (cut & tr & st & Hloop & Ht & Hi & Hs & He & Hcut); [apply cascade_start_inv | done | apply cascade_start_work |].
  change (λ r, cascade_loop c1 r) with (cascade_loop c1). rewrite Hloop. cbn [mbind option_bind]. rewrite Hi.
  exists tr. eexists. split; [done |]. split; [| split; [done |]; split; [| split; [| split; [done |]; split; [done |]]]].
  - eexists. split; [exact Ht |]. apply grow_fst_nodup.
  - intros n d. apply (trace_elem c1 changed tr n d Ht).
  - intros x. unfold get. cbn. rewrite He, Hi. destruct (decide (x ∈ tr.*1)); cbn; by destruct (cache_entries c !! x).
  - cbn. by rewrite Hcut.
Qed.
(** C36: A reported change always gets an answer, and the answer is exactly determined.  Each
    reported region has a number of hops, and the list is in the order of them.  First come the
    regions the caller named, in order, with none; a region that was not named is reported, once,
    exactly when some expanded region has an edge to it and the boundary check of the edge from
    the first such region says changed, and has one hop more than that region.  Expanded are as
    many reported regions as the budget allows when a complex is attached, and those below three
    hops when none is.  Exactly the reported entries stop being served, the generation moves on
    by one, the truncation counter exactly when the budget left some region unexpanded, and
    nothing else of the cache changes. *)
Theorem on_change_exact c changed :
  ∃ tr c', on_change changed c = Some (tr.*1, c') ∧
    (∃ extra, tr = roots changed ++ extra ∧ NoDup extra.*1) ∧ StronglySorted N.le tr.*2 ∧
    (∀ n d, (n, d) ∈ tr ↔ n ∈ changed ∧ d = 0 ∨ n ∉ changed ∧ ∃ x, examiner c tr n = Some x ∧ gate c x.1 n = true ∧ d = x.2 + 1) ∧
    (∀ x, get x c' = if decide (x ∈ tr.*1) then None else get x c) ∧
    generation c' = wadd64 (generation c) 1 ∧
    (stalks c', restrictions c', complex c', delta_zero_baseline c', cascade_budget c') =
      (stalks c, restrictions c, complex c, delta_zero_baseline c, cascade_budget c) ∧
    cascade_truncations c' = if match complex c with Some _ => cascade_budget c <? len tr | None => false end
                             then wadd64 (cascade_truncations c) 1 else cascade_truncations c.
Proof. apply on_change_spec. Qed.
End cascade_theorems.

(** *** The boundary check *)

Lemma to_N_xor_byte x y : Byte.to_N (xor_byte x y) = N.lxor (Byte.to_N x) (Byte.to_N y).
Proof.
  unfold xor_byte. rewrite to_N_byte_of_N. apply N.mod_small.
  destruct (N.eq_dec (N.lxor (Byte.to_N x) (Byte.to_N y)) 0) as [-> | Hne]; [done |].
  change 256 with (2 ^ 8). apply N.log2_lt_pow2; [lia |]. eapply N.le_lt_trans; [apply N.log2_lxor |].
  assert (∀ z, N.log2 (Byte.to_N z) < 8) as Hlog by (intros z; destruct z; by vm_compute).
  apply N.max_lub_lt; apply Hlog.
Qed.
Lemma xor_byte_inj x1 x2 y : xor_byte x1 y = xor_byte x2 y → x1 = x2.
Proof.
  intros Heq%(f_equal Byte.to_N). rewrite !to_N_xor_byte in Heq. apply byte_to_N_inj.
  apply (f_equal (λ n, N.lxor n (Byte.to_N y))) in Heq. by rewrite !N.lxor_assoc, !N.lxor_nilpotent, !N.lxor_0_r in Heq.
Qed.
Lemma xor_byte_comm x y : xor_byte x y = xor_byte y x.
Proof. unfold xor_byte. by rewrite N.lxor_comm. Qed.
Lemma boundary_hash_inj (a1 a2 b : Hash) : boundary_hash a1 b = boundary_hash a2 b → a1 = a2.
Proof.
  unfold boundary_hash. intros Heq. apply vec_eq. intros i. apply (f_equal (λ v : Hash, v !!! i)) in Heq.
  rewrite !vlookup_zip_with in Heq. by apply xor_byte_inj in Heq.
Qed.
Lemma boundary_hash_comm (a b : Hash) : boundary_hash a b = boundary_hash b a.
Proof. apply vec_eq. intros i. unfold boundary_hash. rewrite !vlookup_zip_with. apply xor_byte_comm. Qed.
Lemma region_entries_perm l1 l2 : region_entries l1 ≡ₚ region_entries l2 → l1 ≡ₚ l2.
Proof.
  intros Hp. apply (fmap_Permutation addr) in Hp. unfold region_entries in Hp. rewrite <- !list_fmap_compose in Hp.
  unfold compose in Hp. cbn in Hp. by rewrite !list_fmap_id in Hp.
Qed.
Lemma region_wf p l : len l ≤ u64_max → decomposition_wf (region_spec p) (region_entries l).
Proof.
  intros Hl. split_and!.
  - done.
  - done.
  - unfold region_spec, len, as_bytes. cbn [params]. rewrite length_vec_to_list. done.
  - unfold region_entries, len. rewrite length_fmap. exact Hl.
  - apply Forall_fmap, Forall_true. intros h. done.
Qed.

(** Without a complex, an edge recorded from the contents of its two regions is
    unchanged exactly as long as the edited region keeps its members: reordering them does
    not fire it, and any other edit of that side alone fires it, unless two explicit inputs
    of the keyed hash collide. *)
Theorem one_sided_edit_fires `{Blake3} `{HashIter} {V} (c : SheafCache V) a b edge p ma ma' mb :
  complex c = None → restrictions c !! (a, b) = Some edge →
  re_boundary_hash edge = boundary_hash (region_hash p ma) (region_hash p mb) →
  stalks c !! a = Some (DigestHash (region_hash p ma')) → stalks c !! b = Some (DigestHash (region_hash p mb)) →
  len ma ≤ u64_max → len ma' ≤ u64_max →
  (ma ≡ₚ ma' → gate c a b = false) ∧
  (gate c a b = false → ma ≡ₚ ma' ∨
     collision (blake3_derive_key PARTITION_CONTEXT) (address_preimage (region_spec p) (region_entries ma))
       (address_preimage (region_spec p) (region_entries ma'))).
Proof.
  intros Hc He Hb Ha Hbs Hl Hl'.
  assert (gate c a b = negb (bool_decide (region_hash p ma' = region_hash p ma))) as Hgate.
  { unfold gate, check_boundary_changed. rewrite He, Ha, Hbs, Hc, Hb.
    rewrite !(bool_decide_false (Some (DigestHash _) = Some DigestChanged)) by done. cbn [orb negb].
    destruct (decide (region_hash p ma' = region_hash p ma)) as [-> | Hne]; [by rewrite !bool_decide_true by done |].
    rewrite (bool_decide_false (_ = region_hash p ma)) by done. rewrite bool_decide_false; [done |].
    by intros ?%boundary_hash_inj. }
  rewrite Hgate. unfold region_hash, address. split.
  - intros Hp. rewrite bool_decide_true; [done |]. f_equal. apply preimage_same; [by apply region_wf.. |]. split; [done |]. cbn.
    unfold region_entries. by rewrite Hp.
  - intros Hf%negb_false_iff%bool_decide_eq_true. symmetry in Hf.
    apply (eq_or_collision (blake3_derive_key PARTITION_CONTEXT)) in Hf as [Hf | ?]; [left | by right].
    apply preimage_same in Hf as [_ Hf]; [| by apply region_wf..]. by apply region_entries_perm.
Qed.
Definition demo_members (b : byte) : list Hash := [vreplicate 32 b].
Definition demo_region (b : byte) : Hash := @region_hash toy_blake3 Hash_ZERO (demo_members b).
Definition demo_edge : RestrictionEdge := {|
  re_weights := []; re_boundary_hash := boundary_hash (demo_region x01) (demo_region x02);
  re_co_change_rate := d_zero; re_revert_rate := d_zero |}.
Definition demo_cache : SheafCache unit :=
  set_stalk 1 (DigestHash (demo_region x02)) (set_stalk 0 (DigestHash (demo_region x01)) (set_restriction 0 1 demo_edge cache_new)).
Lemma one_sided_edit_fires_witness : @gate key_order unit demo_cache 0 1 = false.
Proof.
  refine (proj1 (@one_sided_edit_fires toy_blake3 key_order unit demo_cache 0 1 demo_edge Hash_ZERO (demo_members x01) (demo_members x01)
    (demo_members x02) _ _ _ _ _ _ _) _); done.
Defined.

(** Both sides at once is where the exclusive or is blind: regions that swap their contents. *)
Lemma swapped_contents_unnoticed `{HashIter} {V} (c : SheafCache V) a b edge ha hb :
  restrictions c !! (a, b) = Some edge → re_boundary_hash edge = boundary_hash ha hb →
  stalks c !! a = Some (DigestHash hb) → stalks c !! b = Some (DigestHash ha) → gate c a b = false.
Proof.
  intros He Hb Ha Hbs. unfold gate, check_boundary_changed. rewrite He, Ha, Hbs, Hb, (boundary_hash_comm hb).
  rewrite !(bool_decide_false (Some (DigestHash _) = Some DigestChanged)) by done. by rewrite bool_decide_true.
Qed.

(** *** Order of the roots *)

(** A neighbour counts as visited as soon as one edge to it has been examined, whether the
    edge fired or not.  Regions 0 and 1 both changed and both border 2; only the edge from 1
    fires, its content being unknown.  Naming 0 first hides 2. *)
Definition quiet_edge : RestrictionEdge :=
  {| re_weights := []; re_boundary_hash := boundary_hash Hash_ZERO Hash_ZERO; re_co_change_rate := d_zero; re_revert_rate := d_zero |}.
Definition two_roots : SheafCache unit :=
  set_restriction 1 2 quiet_edge (set_restriction 0 2 quiet_edge
    (set_stalk 2 (DigestHash Hash_ZERO) (set_stalk 1 DigestChanged (set_stalk 0 (DigestHash Hash_ZERO) cache_new)))).
Theorem cascade_depends_on_root_order :
  @gate key_order unit two_roots 1 2 = true ∧
  (fst <$> @on_change key_order unit [0; 1] two_roots) = Some [0; 1] ∧
  (fst <$> @on_change key_order unit [1; 0] two_roots) = Some [1; 0; 2].
Proof. by vm_compute. Qed.

(** ** Well-formed caches *)

Section cache_wf.
Context `{HashIter} {V : Type}.
Implicit Types c : SheafCache V.

(** Edges are stored both ways; a baseline belongs to an edge, its smaller end first. *)
Record cache_wf c : Prop := {
  cw_sym a b : restrictions c !! (a, b) = restrictions c !! (b, a);
  cw_base k : is_Some (delta_zero_baseline c !! k) → k.1 <= k.2 ∧ is_Some (restrictions c !! k);
}.
Lemma cache_new_wf : cache_wf (cache_new (V:=V)).
Proof. split; cbn; [done |]. intros k. rewrite lookup_empty. by intros [? ?]. Qed.
(** An operation that leaves the edges and their baselines alone. *)
Lemma cache_wf_same c c' :
  restrictions c' = restrictions c → delta_zero_baseline c' = delta_zero_baseline c → cache_wf c → cache_wf c'.
Proof. intros Hr Hb [Hs Hk]. split; rewrite ?Hr, ?Hb; eauto. Qed.
(** [(x, y)] is the pair [a], [b] in one of its two orders. *)
Definition is_pair (a b x y : RegionId) : Prop := (x = a ∧ y = b) ∨ (x = b ∧ y = a).
#[export] Instance is_pair_dec a b x y : Decision (is_pair a b x y).
Proof. unfold is_pair. apply _. Defined.
Lemma set_restriction_lookup a b e c x y :
  restrictions (set_restriction a b e c) !! (x, y) = if decide (is_pair a b x y) then Some e else restrictions c !! (x, y).
Proof.
  cbn. rewrite !lookup_insert. unfold is_pair. repeat case_decide; naive_solver.
Qed.
Lemma drop_restriction_lookup a b c x y :
  restrictions (drop_restriction a b c).2 !! (x, y) = if decide (is_pair a b x y) then None else restrictions c !! (x, y).
Proof.
  cbn. rewrite !lookup_delete. unfold is_pair. repeat case_decide; naive_solver.
Qed.
Lemma drop_region_lookup r c x y :
  restrictions (drop_region r c).2 !! (x, y) = if decide (x = r ∨ y = r) then None else restrictions c !! (x, y).
Proof.
  cbn. apply option_eq. intros e. rewrite map_lookup_filter_Some. cbn. case_decide; naive_solver.
Qed.
Lemma set_restriction_wf a b e c : cache_wf c → cache_wf (set_restriction a b e c).
Proof.
  intros [Hs Hk]. split.
  - intros x y. rewrite !set_restriction_lookup, Hs. unfold is_pair. repeat case_decide; naive_solver.
  - intros [x y] [Hle [e' He']]%Hk. split; [done |]. rewrite set_restriction_lookup. case_decide; eauto.
Qed.
Lemma drop_restriction_wf a b c : cache_wf c → cache_wf (drop_restriction a b c).2.
Proof.
  intros [Hs Hk]. split.
  - intros x y. rewrite !drop_restriction_lookup, Hs. unfold is_pair. repeat case_decide; naive_solver.
  - intros [x y] [v Hv]. cbn in Hv. apply lookup_delete_Some in Hv as [Hne Hv]. destruct (Hk (x, y)) as [Hle He]; [eauto |]. split; [done |].
    rewrite drop_restriction_lookup, decide_False; [done |]. cbn in *. intros [[-> ->] | [-> ->]]; apply Hne; f_equal; lia.
Qed.
Lemma drop_region_wf r c : cache_wf c → cache_wf (drop_region r c).2.
Proof.
  intros [Hs Hk]. split; cbn.
  - intros x y. apply option_eq. intros e. rewrite !map_lookup_filter_Some. cbn. rewrite Hs. tauto.
  - intros k [v [Hv Hkeep]%map_lookup_filter_Some]. destruct (Hk k) as [Hle [e He]]; [eauto |]. split; [done |].
    exists e. by apply map_lookup_filter_Some.
Qed.
Lemma refresh_baseline_wf c : cache_wf c → cache_wf (refresh_baseline c).
Proof.
  intros [Hs Hk]. unfold refresh_baseline. destruct (complex c) as [cx |]; [| done]. split; cbn; [done |].
  assert (∀ l (m : gmap (RegionId * RegionId) f32), (∀ k, k ∈ l → k.1 <= k.2 ∧ is_Some (restrictions c !! k)) →
    (∀ k, is_Some (m !! k) → k.1 <= k.2 ∧ is_Some (restrictions c !! k)) →
    ∀ k, is_Some (foldl (λ m k, <[k := default f_zero (violation cx k.1 k.2)]> m) m l !! k) → k.1 <= k.2 ∧ is_Some (restrictions c !! k)) as Hgen.
  { induction l as [| x l IH]; intros m Hl Hm k; [apply Hm |]. cbn. apply IH; [intros; apply Hl; by right |].
    intros y. destruct (decide (y = x)) as [-> |]; [intros _; apply Hl; left |]. rewrite lookup_insert_ne by done. apply Hm. }
  apply Hgen; [| done]. intros k [Hle Hin%keys_of_elem]%list_elem_of_filter. done.
Qed.
Lemma refresh_baseline_subset_wf rs c : cache_wf c → cache_wf (refresh_baseline_subset rs c).
Proof.
  intros Hwf. unfold refresh_baseline_subset. destruct (complex c) as [cx |]; [| done]. destruct rs as [| r rs]; [done |].
  destruct Hwf as [Hs Hk]. split; cbn [set_baseline restrictions delta_zero_baseline]; [done |].
  set (f := λ (m : gmap (RegionId * RegionId) f32) (k : RegionId * RegionId),
    match violation cx k.1 k.2 with Some n => <[k := n]> m | None => delete k m end).
  assert (∀ l (m : gmap (RegionId * RegionId) f32), (∀ k, k ∈ l → k.1 <= k.2 ∧ is_Some (restrictions c !! k)) →
    (∀ k, is_Some (m !! k) → k.1 <= k.2 ∧ is_Some (restrictions c !! k)) →
    ∀ k, is_Some (foldl f m l !! k) → k.1 <= k.2 ∧ is_Some (restrictions c !! k)) as Hgen.
  { induction l as [| x l IH]; intros m Hl Hm k; [apply Hm |]. cbn [foldl]. apply IH; [intros; apply Hl; by right |].
    intros y. destruct (decide (y = x)) as [-> |]; [intros _; apply Hl; left |]. unfold f.
    destruct (violation cx x.1 x.2); [rewrite lookup_insert_ne by done | rewrite lookup_delete_ne by done]; apply Hm. }
  apply Hgen; [| done]. intros k [[Hle _] Hin%keys_of_elem]%list_elem_of_filter. done.
Qed.
Lemma set_complex_wf cx c : cache_wf c → cache_wf (set_complex cx c).
Proof. intros [Hs Hk]. split; cbn; [done |]. intros k. rewrite lookup_empty. by intros [? ?]. Qed.

(** *** The reaper *)

(** Two edges between the same regions agree, in particular when there is one. *)
Lemma violation_sym cx :
  (∀ a b n m, edge_violation_squared cx a b = Some n → edge_violation_squared cx b a = Some m → n = m) →
  ∀ a b, violation cx a b = violation cx b a.
Proof.
  intros Hone a b. unfold violation. specialize (Hone a b).
  destruct (edge_violation_squared cx a b) as [n |], (edge_violation_squared cx b a) as [m |]; [| reflexivity..].
  by rewrite (Hone n m).
Qed.
Lemma ordered_keys_elem c k : k ∈ ordered_keys c ↔ is_Some (restrictions c !! k).
Proof. unfold ordered_keys. rewrite merge_sort_Permutation. apply keys_of_elem. Qed.
Lemma reap_seeds cx c ks st x :
  x ∈ (foldl (reap_seed cx c) st ks).1 ↔
  x ∈ st.1 ∨ ∃ a b, (a, b) ∈ ks ∧ a < b ∧ edge_moved cx c a b = true ∧ (x = a ∨ x = b).
Proof.
  revert st. induction ks as [| [a b] ks IH]; intros st; cbn [foldl].
  { split; [by left |]. by intros [? | (? & ? & ?%not_elem_of_nil & _)]. }
  rewrite IH. assert (x ∈ (reap_seed cx c st (a, b)).1 ↔ x ∈ st.1 ∨ (a < b ∧ edge_moved cx c a b = true ∧ (x = a ∨ x = b))) as ->.
  { unfold reap_seed. cbn. destruct (N.leb_spec b a) as [Hle | Hlt]; [split; [by left |]; intros [? | (? & _)]; [done | lia] |].
    unfold edge_moved. destruct (violation cx a b) as [n |]; cbn; [| naive_solver].
    destruct (moved n _); cbn; set_solver. }
  split.
  - intros [[? | ?] | (a' & b' & Hin & ?)]; [by left | right; exists a, b; split; [left | done] | right; exists a', b'; split; [by right | done]].
  - intros [? | (a' & b' & [[= -> ->] | Hin]%elem_of_cons & ?)]; [by left; left | by left; right | right; eauto].
Qed.
Lemma reap_visits cx c seeds r ns st :
  (∀ n, edge_moved cx c r n = true → n ∈ neighbours c r → n ∈ seeds) → (∀ n, n ∈ ns → n ∈ neighbours c r) →
  seeds ⊆ r_visited st → reclaim st = seeds →
  let st' := foldl (reap_visit cx c r) st ns in
  r_frontier st' = r_frontier st ∧ seeds ⊆ r_visited st' ∧ reclaim st' = seeds.
Proof.
  intros Hm. revert st. induction ns as [| n ns IH]; intros st Hns Hv Hr; cbn [foldl]; [done |].
  unfold reap_visit at 2 4 6. case_bool_decide as Hin; [apply IH; set_solver |].
  destruct (edge_moved cx c r n) eqn:He.
  - exfalso. apply Hin, Hv, Hm; [done | apply Hns; left].
  - apply (IH {| r_frontier := r_frontier st; r_visited := {[n]} ∪ r_visited st; reclaim := reclaim st |}); cbn; set_solver.
Qed.
Lemma reap_loop_spec cx c seeds fuel k st :
  (∀ r n, r ∈ seeds → edge_moved cx c r n = true → n ∈ neighbours c r → n ∈ seeds) →
  (∀ r, r ∈ r_frontier st → r ∈ seeds) → seeds ⊆ r_visited st → reclaim st = seeds → (length (r_frontier st) < fuel)%nat →
  ∃ cut st', reap_loop cx c fuel k st = Some (cut, st') ∧ reclaim st' = seeds.
Proof.
  intros Hm. revert k st. induction fuel as [| fuel IH]; intros k st Hf Hv Hr Hlen; [lia |]. cbn [reap_loop].
  destruct (r_frontier st) as [| r rest] eqn:Hfr; [by exists false, st |].
  destruct (cascade_budget c <=? k); [eexists _, _; split; [done |]; done |].
  destruct (reap_visits cx c seeds r (neighbours c r) {| r_frontier := rest; r_visited := r_visited st; reclaim := reclaim st |})
    as (Hf' & Hv' & Hr'); [intros n; apply Hm, Hf; left | done | done | done |].
  apply IH; [| done | done |].
  - rewrite Hf'. cbn. intros. apply Hf. by right.
  - rewrite Hf'. cbn in *. lia.
Qed.
(** The reaper always answers, and what it reclaims is exactly the ends of the edges
    whose agreement moved from the baseline, in ascending order, each once, whatever the
    budget: its expansion past these regions never adds one. *)
Theorem reap_reports_moved_edges c cx :
  cache_wf c → complex c = Some cx → (∀ a b, violation cx a b = violation cx b a) →
  ∃ reclaimed total c', reap c = Some (reclaimed, total, c') ∧ StronglySorted N.le reclaimed ∧ NoDup reclaimed ∧
    (∀ x, x ∈ reclaimed ↔ ∃ y, x ≠ y ∧ connected c x y ∧ edge_moved cx c x y = true) ∧
    (stalks c', restrictions c', cache_entries c', generation c', complex c', delta_zero_baseline c') =
      (stalks c, restrictions c, cache_entries c, generation c, complex c, delta_zero_baseline c).
Proof.
  intros Hwf Hcx Hsym. unfold reap. rewrite Hcx.
  assert (∀ a b, edge_moved cx c a b = edge_moved cx c b a) as Hms.
  { intros a b. unfold edge_moved. by rewrite Hsym, (N.min_comm a), (N.max_comm a). }
  destruct (foldl (reap_seed cx c) (∅, f_zero) (ordered_keys c)) as [seeds total] eqn:Hseeds.
  assert (∀ x, x ∈ seeds ↔ ∃ y, x ≠ y ∧ connected c x y ∧ edge_moved cx c x y = true) as Hsd.
  { intros x. pose proof (reap_seeds cx c (ordered_keys c) (∅, f_zero) x) as Hs. rewrite Hseeds in Hs. cbn in Hs. rewrite Hs. split.
    - intros [? | (a & b & Hin%ordered_keys_elem & Hlt & Hmv & [-> | ->])]; [set_solver | exists b; split; [lia | done] |].
      exists a. split; [lia |]. rewrite Hms. split; [| done]. unfold connected. by rewrite (cw_sym _ Hwf).
    - intros (y & Hne & Hcn & Hmv). right. destruct (N.lt_ge_cases x y) as [Hlt | Hge].
      + exists x, y. rewrite ordered_keys_elem. auto.
      + exists y, x. rewrite ordered_keys_elem, (cw_sym _ Hwf), Hms. split; [done |]. split; [lia | auto]. }
  destruct (reap_loop_spec cx c seeds (S (size seeds + size (restrictions c))) 0
    {| r_frontier := merge_sort N.le (elements seeds); r_visited := seeds; reclaim := seeds |}) as (cut & st & -> & Hr).
  - intros r n Hr Hmv Hn%neighbours_connected. destruct (decide (r = n)) as [-> | Hne]; [done |]. apply Hsd. exists r.
    split; [congruence |]. split; [unfold connected; by rewrite (cw_sym _ Hwf) | by rewrite Hms].
  - cbn. intros r. by rewrite merge_sort_Permutation, elem_of_elements.
  - done.
  - done.
  - cbn. rewrite merge_sort_Permutation. change (length (elements seeds)) with (size seeds). lia.
  - cbn [mbind option_bind]. rewrite Hr. eexists _, _, _. split; [done |]. split; [| split; [| split; [| by rewrite <- Hcx]]].
    + apply StronglySorted_merge_sort; apply _.
    + rewrite merge_sort_Permutation. apply NoDup_elements.
    + intros x. rewrite merge_sort_Permutation, elem_of_elements. apply Hsd.
Qed.
End cache_wf.

(** One edge from 0 to 1 whose ends disagree, and no baseline yet. *)
Definition node_cell (i : N) (v : f32) : Cell := {| c_id := i; c_dimension := 0; c_stalk := [v]; c_label := None; c_is_virtual := false |}.
Definition apart : CellComplex := {|
  nodes := [0; 1]; edges := [EDGE_ID_BASE]; faces := []; face_cells := ∅;
  cells := {[ 0 := node_cell 0 f_one; 1 := node_cell 1 f_zero ]};
  restriction_maps := {[ (0, EDGE_ID_BASE) := identity_map 1; (1, EDGE_ID_BASE) := identity_map 1 ]};
  incidence := {[ EDGE_ID_BASE := (0, 1) ]}; node_stalk_dim := 1 |}.
Definition apart_cache : SheafCache unit := set_complex apart (set_restriction 0 1 quiet_edge cache_new).
Lemma reap_reports_moved_edges_witness :
  ∃ reclaimed total c', @reap key_order unit apart_cache = Some (reclaimed, total, c') ∧ StronglySorted N.le reclaimed ∧ NoDup reclaimed ∧
    (∀ x, x ∈ reclaimed ↔ ∃ y, x ≠ y ∧ connected apart_cache x y ∧ @edge_moved key_order unit apart apart_cache x y = true) ∧
    (stalks c', restrictions c', cache_entries c', generation c', complex c', delta_zero_baseline c') =
      (stalks apart_cache, restrictions apart_cache, cache_entries apart_cache, generation apart_cache, complex apart_cache, delta_zero_baseline apart_cache).
Proof.
  apply (@reap_reports_moved_edges key_order unit apart_cache apart).
  - apply set_complex_wf, set_restriction_wf, cache_new_wf.
  - done.
  - assert (∀ a b n, @edge_violation_squared key_order apart a b = Some n → a = 0 ∧ b = 1) as Hone.
    { intros a b n (e & He & _)%bind_Some. apply (@find_edge_some key_order) in He as ([u v] & Hi & Hp).
      cbn in Hi. apply lookup_singleton_Some in Hi as [_ [= <- <-]]. unfold from_to in Hp. cbn [fst snd] in Hp.
      apply andb_true_iff in Hp as [?%N.eqb_eq ?%N.eqb_eq]. auto. }
    apply violation_sym. intros a b n m [-> ->]%Hone [Hz _]%Hone. discriminate Hz.
Defined.
Example apart_is_reaped : (λ r, r.1.1) <$> @reap key_order unit apart_cache = Some [0; 1].
Proof. by vm_compute. Qed.
