(* ===== verification/SheafOps.v ===== *)
(** * The daemon's sheaf operations

    [rs/ll-open/cli-lib/src/daemon/sheaf_ops.rs]: the wire hashes, the shared state and the
    operations that set, invalidate and update the topology, over the cache of [Sheaf] and
    the complex of [Complex].  A response is the record of what is put into its builder; the
    JSON encodings, the log and the clock are left out.  Each operation holds the cache lock
    from its first to its last use of the cache, so it is one step, except that
    [op_sheaf_update_topology] writes the edge list in a second one. *)

From S2P Require Import Prelude Substrate Text Partition CasEvidence Complex Sheaf.
From Stdlib Require Import NArith Lia.
From Stdlib Require Import SpecFloat.
Local Open Scope N_scope.

(** ** Wire hashes *)

Inductive WireHashError :=
| WrongLength (field : string) (length : N)
| NotLowercaseHex (field : string) (at_ : N)
| Missing (field : string).
Inductive sheaf_error := BadHash (e : WireHashError) | RootUnreadable.

(** [bytes().position(..)] *)
Fixpoint position (p : byte → bool) (l : list byte) : option N :=
  match l with
  | [] => None
  | b :: l => if p b then Some 0 else N.succ <$> position p l
  end.
Definition parse_hash (field : string) (hex : list byte) : result WireHashError Hash :=
  if negb (len hex =? 64) then Err (WrongLength field (len hex))
  else match position (λ b, negb (lower_hexdigit b)) hex with
       | Some at_ => Err (NotLowercaseHex field at_)
       | None => match hex_decode hex ≫= Hash_try_from with Some h => Ok h | None => Panic end
       end.
Definition stalk_digest (hash : option (list byte)) : result WireHashError StalkDigest :=
  match hash with None => Ok DigestChanged | Some hex => DigestHash <$> parse_hash "hash" hex end.
Definition wire_boundary_hash (hash : option (list byte)) : result WireHashError Hash :=
  match hash with None => Err (Missing "boundary_hash") | Some hex => parse_hash "boundary_hash" hex end.

(** ** Requests *)

Record SheafStalkInput := { si_id : N; si_hash : option (list byte); si_data : list f32 }.
Record SheafRestrictionInput := {
  ri_a : N; ri_b : N; ri_boundary_hash : option (list byte); ri_co_change_rate : f64; ri_revert_rate : f64;
  ri_weights : list f64; ri_agreement_dim : N;
}.
Record StalkUpdateInput := { su_region_id : N; su_stalk : list f32 }.
Record TopologyDeltaInput := {
  ti_added_regions : list SheafStalkInput;
  ti_removed_regions : list N;
  ti_added_edges : list SheafRestrictionInput;
  ti_removed_edges : list (N * N);
  ti_updated_stalks : list StalkUpdateInput;
}.
(** [iter().map(..).collect::<Result<Vec<_>, _>>()]: the first error wins. *)
Fixpoint collect {E A B} (f : A → result E B) (l : list A) : result E (list B) :=
  match l with [] => Ok [] | a :: l => b ← f a; bs ← collect f l; mret (b :: bs) end.
Definition parse_stalks (l : list SheafStalkInput) : result WireHashError (list StalkDigest) := collect (λ s, stalk_digest (si_hash s)) l.
Definition parse_boundaries (l : list SheafRestrictionInput) : result WireHashError (list Hash) :=
  collect (λ e, wire_boundary_hash (ri_boundary_hash e)) l.

(** ** State *)

Inductive EventRoot := Published (hex : string) | Unpublished | Unreadable.
Inductive SheafEvent :=
| TopologySet (regions restrictions : N) (delta_zero_mode : bool)
| TopologyUpdated (affected : list N) (generation prior_generation : N) (defect_after : f32)
| Invalidated (invalidated : list N) (scope : string) (changed_files : list string) (root : EventRoot) (generation prior_generation : N).
Record SheafState := {
  cache : SheafCache unit;
  tracker : CoChangeTracker;
  state_edges : list (N * N);
  emitter : bool;
  region_labels : gmap N string;
  emitted : list SheafEvent;
}.
Definition SheafState_new : SheafState := {|
  cache := cache_new; tracker := tracker_default; state_edges := []; emitter := false; region_labels := ∅; emitted := [] |}.
Definition set_emitter (s : SheafState) : SheafState := {|
  cache := cache s; tracker := tracker s; state_edges := state_edges s; emitter := true; region_labels := region_labels s; emitted := emitted s |}.
Definition put_cache (c : SheafCache unit) (s : SheafState) : SheafState := {|
  cache := c; tracker := tracker s; state_edges := state_edges s; emitter := emitter s; region_labels := region_labels s; emitted := emitted s |}.
Definition put_tracker (t : CoChangeTracker) (s : SheafState) : SheafState := {|
  cache := cache s; tracker := t; state_edges := state_edges s; emitter := emitter s; region_labels := region_labels s; emitted := emitted s |}.
Definition put_edges (e : list (N * N)) (s : SheafState) : SheafState := {|
  cache := cache s; tracker := tracker s; state_edges := e; emitter := emitter s; region_labels := region_labels s; emitted := emitted s |}.
Definition install_region_labels (l : gmap N string) (s : SheafState) : SheafState := {|
  cache := cache s; tracker := tracker s; state_edges := state_edges s; emitter := emitter s; region_labels := l; emitted := emitted s |}.
Definition emit (e : SheafEvent) (s : SheafState) : SheafState := {|
  cache := cache s; tracker := tracker s; state_edges := state_edges s; emitter := emitter s; region_labels := region_labels s;
  emitted := if emitter s then emitted s ++ [e] else emitted s |}.
(** The edges as pairs with the smaller end first, each once; they come out of a hash set, in no order. *)
Definition canonical_edges (c : SheafCache unit) : list (N * N) :=
  elements (list_to_set (C:=gset (N * N)) ((λ k, (N.min k.1 k.2, N.max k.1 k.2)) <$> keys_of c)).
(** [defect as f32] *)
Definition f32_of_f64 (d : f64) : f32 :=
  match d with S754_finite s m e => binary_round 24 128 s m e | _ => d end.
Definition starts_with (p s : string) : bool := String.prefix p s.

Section ops.
Context `{HashIter}.

Definition install_complex (cx : CellComplex) (t : CoChangeTracker) (s : SheafState) : SheafState :=
  install_region_labels ∅ (put_tracker t (put_cache (refresh_baseline (Sheaf.set_complex cx (cache s))) s)).
Definition region_matches (changed_files : list string) (label : string) : bool :=
  existsb (String.eqb label) changed_files || existsb (λ f, starts_with (f +:+ ":sym:") label) changed_files.
Definition regions_touching_files (changed_files : list string) (s : SheafState) : option (list N) :=
  if bool_decide (region_labels s = ∅) then None
  else
    cx ← complex (cache s);
    Some (merge_sort N.le (fst <$> filter (λ x, x.1 ∈ nodes cx ∧ region_matches changed_files x.2 = true)
                                     (map_to_list (region_labels s)))).

(** *** Setting the topology *)

Definition edge_of (r : SheafRestrictionInput) (h : Hash) : RestrictionEdge := {|
  re_weights := match ri_weights r with [] => [d_one] | w => w end; re_boundary_hash := h;
  re_co_change_rate := ri_co_change_rate r; re_revert_rate := ri_revert_rate r |}.
Definition DAEMON_LABEL : string := "daemon".
Definition engages (regions : list SheafStalkInput) (restrictions : list SheafRestrictionInput) (node_stalk_dim : N) : bool :=
  (0 <? node_stalk_dim) && forallb (λ r, si_id r <? EDGE_ID_BASE) regions && negb (bool_decide (regions = []))
  && forallb (λ r, len (si_data r) =? node_stalk_dim) regions && negb (bool_decide (length restrictions = 0%nat))
  && forallb (λ r, (0 <? ri_agreement_dim r) && (ri_agreement_dim r <=? node_stalk_dim)) restrictions.
(** The part of the loop bodies that touches the complex being built, if one is. *)
Definition build_node (cx : option CellComplex) (r : SheafStalkInput) : result sheaf_error (option CellComplex) :=
  match cx with
  | None => Ok None
  | Some cx => match add_node (si_id r) (si_data r) cx with Ok cx => Ok (Some cx) | _ => Panic end
  end.
Definition build_edge (dim : N) (st : option CellComplex * N) (r : SheafRestrictionInput) : result sheaf_error (option CellComplex * N) :=
  match st with
  | (None, seq) => Ok (None, seq)
  | (Some cx, seq) =>
      match project_dim_range dim (ri_agreement_dim r) with
      | Ok f => match add_edge seq (ri_a r) (ri_b r) (ri_agreement_dim r) (Some DAEMON_LABEL) f f false cx with
                | Ok cx => Ok (Some cx, wadd32 seq 1)
                | _ => Panic
                end
      | _ => Panic
      end
  end.
Record set_topology_response := { st_regions : N; st_restrictions : N; st_delta_zero_mode : bool }.
Definition op_sheaf_set_topology (regions : list SheafStalkInput) (restrictions_ : list SheafRestrictionInput) (node_stalk_dim : N)
    (s : SheafState) : result sheaf_error (SheafState * set_topology_response) :=
  digests ← map_err BadHash (parse_stalks regions);
  boundaries ← map_err BadHash (parse_boundaries restrictions_);
  let start := if engages regions restrictions_ node_stalk_dim then Some (CellComplex_new node_stalk_dim) else None in
  let c := foldl (λ c x, set_stalk (si_id x.1) x.2 c) (cache s) (zip regions digests) in
  cx ← fold_result build_node start regions;
  let c := foldl (λ c x, set_restriction (ri_a x.1) (ri_b x.1) (edge_of x.1 x.2) c) c (zip restrictions_ boundaries) in
  st ← fold_result (build_edge node_stalk_dim) (cx, EDGE_ID_BASE) restrictions_;
  let c := match st.1 with Some cx => refresh_baseline (Sheaf.set_complex cx c) | None => c end in
  let mode := match st.1 with Some _ => true | None => false end in
  let s := install_region_labels ∅ (put_edges (canonical_edges c) (put_cache c s)) in
  mret (emit (TopologySet (len regions) (len restrictions_) mode) s,
        {| st_regions := len regions; st_restrictions := len restrictions_; st_delta_zero_mode := mode |}).

(** *** Reporting changes *)

Definition push_stalk (c : SheafCache unit) (x : SheafStalkInput * StalkDigest) : result sheaf_error (SheafCache unit) :=
  let c := set_stalk (si_id x.1) x.2 c in
  match si_data x.1 with
  | [] => mret c
  | data => match set_stalk_value (si_id x.1) data c with Ok c => mret c | _ => Panic end
  end.
Record invalidate_response := { ir_invalidated : list N; ir_generation : N; ir_prior_generation : N }.
(** [root] is what reading the controller's root gives. *)
Definition op_sheaf_invalidate (root : option (option string)) (regions : list N) (stalk_inputs : list SheafStalkInput)
    (s : SheafState) : result sheaf_error (SheafState * invalidate_response) :=
  digests ← map_err BadHash (parse_stalks stalk_inputs);
  root ← ok_or root RootUnreadable;
  let root := match root with Some hex => Published hex | None => Unpublished end in
  c ← fold_result push_stalk (cache s) (zip stalk_inputs digests);
  let prior := generation c in
  match on_change regions c with
  | None => Panic
  | Some (invalidated, c) =>
      let s := put_tracker (observe invalidated (state_edges s) (tracker s)) (put_cache c s) in
      mret (emit (Invalidated invalidated "changed-only" [] root (generation c) prior) s,
            {| ir_invalidated := invalidated; ir_generation := generation c; ir_prior_generation := prior |})
  end.

(** *** Updating the topology *)

Definition touched_by (d : TopologyDeltaInput) : gset N :=
  list_to_set (si_id <$> ti_added_regions d) ∪ list_to_set (ti_removed_regions d)
  ∪ list_to_set (ri_a <$> ti_added_edges d) ∪ list_to_set (ri_b <$> ti_added_edges d)
  ∪ list_to_set (ti_removed_edges d).*1 ∪ list_to_set (ti_removed_edges d).*2
  ∪ list_to_set (su_region_id <$> ti_updated_stalks d).
Definition expand (c : SheafCache unit) (touched : gset N) (affected : gset N) : gset N :=
  affected ∪ list_to_set (r ← elements touched; neighbours c r).
(** The delta on the restriction side of the cache. *)
Definition apply_to_cache (d : TopologyDeltaInput) (digests : list StalkDigest) (boundaries : list Hash) (c : SheafCache unit) : SheafCache unit :=
  let c := foldl (λ c e, (drop_restriction e.1 e.2 c).2) c (ti_removed_edges d) in
  let c := foldl (λ c r, (drop_region r c).2) c (ti_removed_regions d) in
  let c := foldl (λ c x, set_stalk (si_id x.1) x.2 c) c (zip (ti_added_regions d) digests) in
  foldl (λ c x, set_restriction (ri_a x.1) (ri_b x.1) (edge_of x.1 x.2) c) c (zip (ti_added_edges d) boundaries).
Definition update_add_region (dim : N) (cx : CellComplex) (r : SheafStalkInput) : result sheaf_error CellComplex :=
  if EDGE_ID_BASE <=? si_id r then Ok cx
  else if (len (si_data r) =? dim) && (0 <? dim)
       then match add_node (si_id r) (si_data r) cx with Ok cx => Ok cx | _ => Panic end
       else Ok cx.
Definition update_add_edge (dim : N) (cx : CellComplex) (e : SheafRestrictionInput) : result sheaf_error CellComplex :=
  if (dim =? 0) || (ri_agreement_dim e =? 0) || (dim <? ri_agreement_dim e) then Ok cx
  else if negb (bool_decide (is_Some (cells cx !! ri_a e))) || negb (bool_decide (is_Some (cells cx !! ri_b e))) then Ok cx
  else match project_dim_range dim (ri_agreement_dim e) with
       | Ok f => match add_edge (next_edge_id cx) (ri_a e) (ri_b e) (ri_agreement_dim e) (Some DAEMON_LABEL) f f false cx with
                 | Ok cx => Ok cx
                 | _ => Panic
                 end
       | _ => Panic
       end.
Definition update_stalk (dim : N) (cx : CellComplex) (u : StalkUpdateInput) : result sheaf_error CellComplex :=
  if (len (su_stalk u) =? dim) && (0 <? dim) && (su_region_id u <? EDGE_ID_BASE) && bool_decide (is_Some (cells cx !! su_region_id u))
  then match set_node_stalk (su_region_id u) (su_stalk u) cx with Ok cx => Ok cx | _ => Panic end
  else Ok cx.
Definition apply_to_complex (dim : N) (d : TopologyDeltaInput) (cx : CellComplex) : result sheaf_error CellComplex :=
  let cx := foldl (λ cx e, match remove_edge e.1 e.2 cx with Some (_, cx) => cx | None => cx end) cx (ti_removed_edges d) in
  let cx := foldl (λ cx r, (remove_node r cx).2) cx (ti_removed_regions d) in
  cx ← fold_result (update_add_region dim) cx (ti_added_regions d);
  cx ← fold_result (update_add_edge dim) cx (ti_added_edges d);
  fold_result (update_stalk dim) cx (ti_updated_stalks d).
Record update_response := { ur_generation : N; ur_prior_generation : N; ur_defect_after : f32; ur_affected : list N }.
(** Under the cache lock: everything but the edge list, which the caller then has. *)
Definition update_locked (d : TopologyDeltaInput) (node_stalk_dim : N) (s : SheafState) :
    result sheaf_error (SheafState * list (N * N) * update_response) :=
  digests ← map_err BadHash (parse_stalks (ti_added_regions d));
  boundaries ← map_err BadHash (parse_boundaries (ti_added_edges d));
  let touched := touched_by d in
  let affected := expand (cache s) touched touched in
  let c := apply_to_cache d digests boundaries (cache s) in
  c ← match complex c with
      | Some cx => cx ← apply_to_complex node_stalk_dim d cx; mret (set_complex_field (Some cx) c)
      | None => mret c
      end;
  let affected_vec := merge_sort N.le (elements (expand c touched affected)) in
  let c := refresh_baseline_subset affected_vec c in
  let prior := generation c in
  let '(gen, c) := bump_generation c in
  mret (put_cache c s, canonical_edges c,
        {| ur_generation := gen; ur_prior_generation := prior; ur_defect_after := f32_of_f64 (defect c); ur_affected := affected_vec |}).
Definition update_finish (post_edges : list (N * N)) (r : update_response) (s : SheafState) : SheafState :=
  emit (TopologyUpdated (ur_affected r) (ur_generation r) (ur_prior_generation r) (ur_defect_after r)) (put_edges post_edges s).
Definition op_sheaf_update_topology (d : TopologyDeltaInput) (node_stalk_dim : N) (s : SheafState) :
    result sheaf_error (SheafState * update_response) :=
  '(s, post_edges, r) ← update_locked d node_stalk_dim s; mret (update_finish post_edges r s, r).

(** *** Reads *)

Record sheaf_status := { ss_generation : N; ss_valid : N; ss_total : N; ss_defect : f64; ss_tracked_edges : N }.
(** [as u32] *)
Definition as_u32 (n : nat) : N := N.of_nat n mod (u32_max + 1).
Definition op_sheaf_status (s : SheafState) : sheaf_status := {|
  ss_generation := generation (cache s); ss_valid := as_u32 (valid_count (cache s)); ss_total := as_u32 (total_count (cache s));
  ss_defect := defect (cache s); ss_tracked_edges := as_u32 (tracker_edge_count (tracker s)) |}.
Definition op_sheaf_reap (s : SheafState) : option (SheafState * (list N * N * f32)) :=
  '(reclaimable, d, c) ← reap (cache s); Some (put_cache c s, (reclaimable, generation c, d)).

(** The watcher's event after an enrichment: what the labels say, or every known region. *)
Definition emit_watcher_sheaf_invalidate (changed_files : list string) (root : EventRoot) (s : SheafState) : SheafState :=
  let fine := regions_touching_files changed_files s in
  let all_known := match complex (cache s) with Some cx => nodes cx | None => [] end in
  let '(regions, scope) := match fine with Some diff => (diff, "changed-only") | None => (all_known, "all-known") end in
  let prior := generation (cache s) in
  let '(gen, c) := bump_generation (cache s) in
  emit (Invalidated regions scope changed_files root gen prior) (put_cache c s).
End ops.

(** ** The state invariant *)

(** Ids below the base are nodes, ids at or above it are edges. *)
Definition cell_partition (cx : CellComplex) : Prop :=
  ∀ i c, cells cx !! i = Some c → if i <? EDGE_ID_BASE then c_dimension c = 0 else c_dimension c = 1.
Definition state_ok (s : SheafState) : Prop :=
  cache_wf (cache s) ∧ ∀ cx, complex (cache s) = Some cx → cell_partition cx.

Section invariant.
Context `{HashIter}.

Lemma new_partition d : cell_partition (CellComplex_new d).
Proof. intros i c. cbn. by rewrite lookup_empty. Qed.
Lemma sub_partition cx cx' :
  (∀ i c, cells cx' !! i = Some c → cells cx !! i = Some c) → cell_partition cx → cell_partition cx'.
Proof. intros Hsub Hp i c Hc. by apply Hp, Hsub. Qed.
Lemma remove_edge_by_id_sub e cx i c : cells (remove_edge_by_id e cx) !! i = Some c → cells cx !! i = Some c.
Proof. cbn. by intros [_ ?]%lookup_delete_Some. Qed.
Lemma remove_edge_sub s t cx e cx' : remove_edge s t cx = Some (e, cx') →
  node_stalk_dim cx' = node_stalk_dim cx ∧ ∀ i c, cells cx' !! i = Some c → cells cx !! i = Some c.
Proof. intros (? & _ & [= <- <-])%bind_Some. split; [done |]. apply remove_edge_by_id_sub. Qed.
Lemma remove_node_sub r cx :
  node_stalk_dim (remove_node r cx).2 = node_stalk_dim cx ∧
  ∀ i c, cells (remove_node r cx).2 !! i = Some c → cells cx !! i = Some c.
Proof.
  unfold remove_node. destruct (cells cx !! r) as [c0 |] eqn:Hr; [| done]. cbn.
  destruct (remove_edges_spec cx (touching cx r)) as (_ & Hd & _ & _ & Hc). split; [exact Hd |].
  intros i c [_ Hi]%lookup_delete_Some. rewrite Hc in Hi. by case_decide.
Qed.
Lemma add_node_part i data cx :
  cell_partition cx → i < EDGE_ID_BASE → len data = node_stalk_dim cx →
  ∃ cx', add_node i data cx = Ok cx' ∧ cell_partition cx' ∧ node_stalk_dim cx' = node_stalk_dim cx ∧ nodes cx' = nodes cx ++ [i].
Proof.
  intros Hp Hlt Hlen. unfold add_node, assert_. rewrite Hlen, N.eqb_refl, bind_Ok.
  assert (match cells cx !! i with Some existing => if c_dimension existing =? 0 then Ok tt else Panic | None => mret tt end = Ok (E:=unit) tt) as ->.
  { destruct (cells cx !! i) as [c |] eqn:Hc; [| done]. apply Hp in Hc. rewrite (proj2 (N.ltb_lt _ _) Hlt) in Hc. by rewrite Hc. }
  rewrite bind_Ok. eexists. split; [done |]. split; [| done].
  intros j c Hj. cbn in Hj. apply lookup_insert_Some in Hj as [[<- <-] | [_ Hc]]; [| by apply Hp]. by rewrite (proj2 (N.ltb_lt _ _) Hlt).
Qed.
Lemma set_node_stalk_part i data cx c :
  cell_partition cx → i < EDGE_ID_BASE → len data = node_stalk_dim cx → cells cx !! i = Some c →
  ∃ cx', set_node_stalk i data cx = Ok cx' ∧ cell_partition cx' ∧ node_stalk_dim cx' = node_stalk_dim cx.
Proof.
  intros Hp Hlt Hlen Hc. pose proof (Hp i c Hc) as Hd. rewrite (proj2 (N.ltb_lt _ _) Hlt) in Hd.
  unfold set_node_stalk, assert_. rewrite Hlen, N.eqb_refl, bind_Ok, Hc, Hd. eexists. split; [reflexivity |]. split; [| done].
  intros j c' Hj. cbn in Hj. apply lookup_insert_Some in Hj as [[<- <-] | [_ Hc']]; [| by apply Hp]. by rewrite (proj2 (N.ltb_lt _ _) Hlt).
Qed.
Lemma add_edge_part e s t dim f cx :
  cell_partition cx → EDGE_ID_BASE <= e → ncols f = node_stalk_dim cx → nrows f = dim →
  ∃ cx', add_edge e s t dim (Some DAEMON_LABEL) f f false cx = Ok cx' ∧ cell_partition cx' ∧ node_stalk_dim cx' = node_stalk_dim cx ∧ nodes cx' = nodes cx.
Proof.
  intros Hp Hle Hc Hr. unfold add_edge, assert_. rewrite Hc, Hr, !N.eqb_refl, !bind_Ok.
  assert (match cells cx !! e with Some existing => if c_dimension existing =? 1 then Ok tt else Panic | None => mret tt end = Ok (E:=unit) tt) as ->.
  { destruct (cells cx !! e) as [c |] eqn:He; [| done]. apply Hp in He. rewrite (proj2 (N.ltb_ge _ _) Hle) in He. by rewrite He. }
  rewrite bind_Ok. eexists. split; [done |]. split; [| done].
  intros j c Hj. cbn in Hj. apply lookup_insert_Some in Hj as [[<- <-] | [_ Hj]]; [| by apply Hp]. by rewrite (proj2 (N.ltb_ge _ _) Hle).
Qed.
Lemma project_dim_range_ok dim n : n <= dim → ∃ f, project_dim_range dim n = Ok f ∧ ncols f = dim ∧ nrows f = n.
Proof. intros Hle. unfold project_dim_range, assert_. rewrite (proj2 (N.leb_le _ _) Hle), bind_Ok. by eexists. Qed.
Lemma next_edge_id_base cx : EDGE_ID_BASE <= next_edge_id cx.
Proof. unfold next_edge_id. destruct (edges cx); lia. Qed.

(** *** Folds over the cache *)

Lemma set_stalks_spec l (c : SheafCache unit) :
  let c' := foldl (λ c (x : SheafStalkInput * StalkDigest), set_stalk (si_id x.1) x.2 c) c l in
  (∀ x, x ∉ si_id ∘ fst <$> l → stalks c' !! x = stalks c !! x) ∧
  (restrictions c', cache_entries c', generation c', complex c', delta_zero_baseline c') =
    (restrictions c, cache_entries c, generation c, complex c, delta_zero_baseline c).
Proof.
  intros c'. subst c'. revert c. induction l as [| y l IH]; intros c; cbn [foldl]; [done |].
  destruct (IH (set_stalk (si_id y.1) y.2 c)) as [Hs Hr]. split; [| exact Hr].
  intros x [Hne Hx]%not_elem_of_cons. rewrite Hs by done. cbn. by rewrite lookup_insert_ne.
Qed.
Lemma set_restrictions_spec l (c : SheafCache unit) :
  let c' := foldl (λ c (x : SheafRestrictionInput * Hash), set_restriction (ri_a x.1) (ri_b x.1) (edge_of x.1 x.2) c) c l in
  (∀ x y, (∀ e, e ∈ l.*1 → ¬ is_pair (ri_a e) (ri_b e) x y) → restrictions c' !! (x, y) = restrictions c !! (x, y)) ∧
  (cache_wf c → cache_wf c') ∧
  (stalks c', cache_entries c', generation c', complex c', delta_zero_baseline c') =
    (stalks c, cache_entries c, generation c, complex c, delta_zero_baseline c).
Proof.
  intros c'. subst c'. revert c. induction l as [| z l IH]; intros c; cbn [foldl]; [done |].
  destruct (IH (set_restriction (ri_a z.1) (ri_b z.1) (edge_of z.1 z.2) c)) as (Hr & Hw & Hrest). split; [| split; [| exact Hrest]].
  - intros x y Hno. rewrite Hr by (intros e He; apply Hno; by right). rewrite set_restriction_lookup, decide_False; [done |].
    apply Hno. left.
  - intros Hc. apply Hw. by apply set_restriction_wf.
Qed.
Lemma drop_restrictions_spec l (c : SheafCache unit) :
  let c' := foldl (λ c (e : N * N), (drop_restriction e.1 e.2 c).2) c l in
  (∀ x y, (∀ e, e ∈ l → ¬ is_pair e.1 e.2 x y) → restrictions c' !! (x, y) = restrictions c !! (x, y)) ∧
  (∀ k, (∀ e, e ∈ l → k ≠ (N.min e.1 e.2, N.max e.1 e.2)) → delta_zero_baseline c' !! k = delta_zero_baseline c !! k) ∧
  (cache_wf c → cache_wf c') ∧
  (stalks c', cache_entries c', generation c', complex c') = (stalks c, cache_entries c, generation c, complex c).
Proof.
  intros c'. subst c'. revert c. induction l as [| z l IH]; intros c; cbn [foldl]; [done |].
  destruct (IH (drop_restriction z.1 z.2 c).2) as (Hr & Hb & Hw & Hrest). split_and!; [| | | exact Hrest].
  - intros x y Hno. rewrite Hr by (intros e He; apply Hno; by right). rewrite drop_restriction_lookup, decide_False; [done |]. apply Hno. left.
  - intros k Hno. rewrite Hb by (intros e He; apply Hno; by right). cbn. rewrite lookup_delete_ne; [done |]. apply not_eq_sym, Hno. left.
  - intros Hc. apply Hw. by apply drop_restriction_wf.
Qed.
Lemma drop_regions_spec l (c : SheafCache unit) :
  let c' := foldl (λ c r, (drop_region r c).2) c l in
  (∀ x, x ∉ l → stalks c' !! x = stalks c !! x ∧ cache_entries c' !! x = cache_entries c !! x) ∧
  (∀ x y, x ∉ l → y ∉ l → restrictions c' !! (x, y) = restrictions c !! (x, y) ∧ delta_zero_baseline c' !! (x, y) = delta_zero_baseline c !! (x, y)) ∧
  (cache_wf c → cache_wf c') ∧ (generation c', complex c') = (generation c, complex c).
Proof.
  intros c'. subst c'. revert c. induction l as [| z l IH]; intros c; cbn [foldl]; [done |].
  destruct (IH (drop_region z c).2) as (Hs & Hr & Hw & Hrest). split_and!; [| | | exact Hrest].
  - intros x [Hne Hx]%not_elem_of_cons. destruct (Hs x Hx) as [-> ->]. cbn. by rewrite !lookup_delete_ne.
  - intros x y [Hnx Hx]%not_elem_of_cons [Hny Hy]%not_elem_of_cons. destruct (Hr x y Hx Hy) as [-> ->].
    rewrite drop_region_lookup, decide_False by tauto. split; [done |]. cbn. apply option_eq. intros v.
    rewrite map_lookup_filter_Some. cbn. naive_solver.
  - intros Hc. apply Hw. by apply drop_region_wf.
Qed.
End invariant.

Section update.
Context `{HashIter}.

Lemma refresh_baseline_subset_fields rs (c : SheafCache unit) :
  let c' := refresh_baseline_subset rs c in
  (stalks c', restrictions c', cache_entries c', generation c', complex c') =
    (stalks c, restrictions c, cache_entries c, generation c, complex c) ∧
  ∀ k, k.1 ∉ rs → k.2 ∉ rs → delta_zero_baseline c' !! k = delta_zero_baseline c !! k.
Proof.
  intros c'. subst c'. unfold refresh_baseline_subset. destruct (complex c) as [cx |] eqn:Hc; [| by rewrite Hc].
  destruct rs as [| r rs]; [by rewrite Hc |]. cbn [set_baseline stalks restrictions cache_entries generation complex delta_zero_baseline].
  split; [by rewrite Hc |]. intros k Hk1 Hk2.
  assert (∀ l (m : gmap (RegionId * RegionId) f32), k ∉ l →
    foldl (λ m k, match violation cx k.1 k.2 with Some n => <[k := n]> m | None => delete k m end) m l !! k = m !! k) as Hgen.
  { induction l as [| x l IH]; intros m; [done |]. intros [Hne Hin]%not_elem_of_cons. cbn [foldl]. rewrite IH by done.
    destruct (violation cx x.1 x.2); [by rewrite lookup_insert_ne | by rewrite lookup_delete_ne]. }
  apply Hgen. rewrite list_elem_of_filter. tauto.
Qed.
Lemma zip_fst_sub {A B C} (f : A → C) (l : list A) (k : list B) x : x ∈ f ∘ fst <$> zip l k → x ∈ f <$> l.
Proof. intros ([a b] & -> & Hin)%list_elem_of_fmap. apply elem_of_zip_l in Hin. apply list_elem_of_fmap. by exists a. Qed.
Lemma zip_fst_sub' {A B} (l : list A) (k : list B) x : x ∈ (zip l k).*1 → x ∈ l.
Proof. intros ([a b] & -> & Hin)%list_elem_of_fmap. by apply elem_of_zip_l in Hin. Qed.

Lemma untouched d x : x ∉ touched_by d →
  x ∉ si_id <$> ti_added_regions d ∧ x ∉ ti_removed_regions d ∧ x ∉ ri_a <$> ti_added_edges d ∧ x ∉ ri_b <$> ti_added_edges d ∧
  x ∉ (ti_removed_edges d).*1 ∧ x ∉ (ti_removed_edges d).*2.
Proof. unfold touched_by. rewrite !not_elem_of_union, !not_elem_of_list_to_set. tauto. Qed.
Lemma no_added_pair d x y e : x ∉ ri_a <$> ti_added_edges d → x ∉ ri_b <$> ti_added_edges d → e ∈ ti_added_edges d →
  ¬ is_pair (ri_a e) (ri_b e) x y ∧ ¬ is_pair (ri_a e) (ri_b e) y x.
Proof.
  intros Ha Hb He. assert (x ≠ ri_a e) by (intros ->; apply Ha, list_elem_of_fmap; eauto).
  assert (x ≠ ri_b e) by (intros ->; apply Hb, list_elem_of_fmap; eauto). unfold is_pair. naive_solver.
Qed.
Lemma no_removed_pair d x y e : x ∉ (ti_removed_edges d).*1 → x ∉ (ti_removed_edges d).*2 → e ∈ ti_removed_edges d →
  ¬ is_pair e.1 e.2 x y ∧ ¬ is_pair e.1 e.2 y x ∧ (N.min e.1 e.2, N.max e.1 e.2) ≠ (x, y).
Proof.
  intros Ha Hb He. assert (x ≠ e.1) by (intros ->; apply Ha, list_elem_of_fmap; eauto).
  assert (x ≠ e.2) by (intros ->; apply Hb, list_elem_of_fmap; eauto). unfold is_pair. split_and!; [naive_solver.. |].
  intros [= ? _]. lia.
Qed.
Lemma apply_to_cache_spec d ds bs (c : SheafCache unit) :
  let c' := apply_to_cache d ds bs c in
  (cache_wf c → cache_wf c') ∧ generation c' = generation c ∧ complex c' = complex c ∧
  (∀ x, x ∉ touched_by d → stalks c' !! x = stalks c !! x ∧ cache_entries c' !! x = cache_entries c !! x) ∧
  (∀ x y, x ∉ touched_by d → y ∉ ti_removed_regions d →
     restrictions c' !! (x, y) = restrictions c !! (x, y) ∧ delta_zero_baseline c' !! (x, y) = delta_zero_baseline c !! (x, y)) ∧
  (cache_wf c → ∀ x y, x ∉ touched_by d → y ∈ ti_removed_regions d → restrictions c' !! (x, y) = None).
Proof.
  intros c'. subst c'. unfold apply_to_cache.
  destruct (drop_restrictions_spec (ti_removed_edges d) c) as (Hr1 & Hb1 & Hw1 & [= Hs1 He1 Hg1 Hc1]).
  set (c1 := foldl _ c (ti_removed_edges d)) in *.
  destruct (drop_regions_spec (ti_removed_regions d) c1) as (Hs2 & Hr2 & Hw2 & [= Hg2 Hc2]).
  assert (∀ x y, y ∈ ti_removed_regions d →
    restrictions (foldl (λ c r, (drop_region r c).2) c1 (ti_removed_regions d)) !! (x, y) = None) as Hgone.
  { clear. generalize c1. induction (ti_removed_regions d) as [| z l IH]; intros c0 x y; [by intros ?%not_elem_of_nil |]. cbn [foldl].
    intros Hy. destruct (decide (y ∈ l)) as [Hyl | Hyl]; [by apply IH |]. apply elem_of_cons in Hy as [-> | ?]; [| done].
    assert (restrictions (drop_region z c0).2 !! (x, z) = None) as Hz by (rewrite drop_region_lookup, decide_True; tauto).
    revert Hz. generalize ((drop_region z c0).2). clear. induction l as [| w l IH]; intros c0 Hz; [done |]. cbn [foldl]. apply IH.
    rewrite drop_region_lookup. case_decide; [done |]. exact Hz. }
  set (c2 := foldl _ c1 (ti_removed_regions d)) in *.
  destruct (set_stalks_spec (zip (ti_added_regions d) ds) c2) as (Hs3 & [= Hr3 He3 Hg3 Hc3 Hb3]).
  set (c3 := foldl _ c2 (zip (ti_added_regions d) ds)) in *.
  destruct (set_restrictions_spec (zip (ti_added_edges d) bs) c3) as (Hr4 & Hw4 & [= Hs4 He4 Hg4 Hc4 Hb4]).
  set (c4 := foldl _ c3 (zip (ti_added_edges d) bs)) in *.
  split_and!; [| congruence | congruence | | |].
  - intros Hw. apply Hw4. apply (cache_wf_same c2 c3); [done | done |]. auto.
  - intros x Hx%untouched. destruct Hx as (Hxa & Hxr & _). rewrite Hs4, He4, He3. destruct (Hs2 x Hxr) as [Hsx Hex].
    rewrite Hs3 by (intros ?%zip_fst_sub; done). rewrite Hsx, Hex. by rewrite Hs1, He1.
  - intros x y Hx%untouched Hy. destruct Hx as (Hxa & Hxr & Hea & Heb & Hr & Hr'). destruct (Hr2 x y Hxr Hy) as [Hrr Hbb]. split.
    + rewrite Hr4; [| intros e He%zip_fst_sub'; exact (proj1 (no_added_pair d x y e Hea Heb He))]. rewrite Hr3, Hrr. apply Hr1. intros e He. exact (proj1 (no_removed_pair d x y e Hr Hr' He)).
    + rewrite Hb4, Hb3, Hbb. apply Hb1. intros e He. apply not_eq_sym. exact (proj2 (proj2 (no_removed_pair d x y e Hr Hr' He))).
  - intros _ x y Hx%untouched Hy. destruct Hx as (Hxa & Hxr & Hea & Heb & Hr & Hr').
    rewrite Hr4; [| intros e He%zip_fst_sub'; exact (proj1 (no_added_pair d x y e Hea Heb He))]. rewrite Hr3. by apply Hgone.
Qed.

(** *** The complex *)

Lemma update_regions_ok dim cx l :
  cell_partition cx → node_stalk_dim cx = dim →
  ∃ cx', fold_result (update_add_region dim) cx l = Ok cx' ∧ (cell_partition cx' ∧ node_stalk_dim cx' = dim).
Proof.
  intros Hp Hd. apply (fold_result_total (λ cx, cell_partition cx ∧ node_stalk_dim cx = dim)); [done |].
  intros cx1 r _ [Hp1 Hd1]. unfold update_add_region. destruct (N.leb_spec EDGE_ID_BASE (si_id r)) as [? | Hlt]; [by eexists |].
  destruct (N.eqb_spec (len (si_data r)) dim) as [Hl |]; [| by eexists]. destruct (0 <? dim); [| by eexists]. cbn [andb].
  destruct (add_node_part (si_id r) (si_data r) cx1) as (cx2 & -> & ? & ? & _); [done | done | congruence |].
  exists cx2. split; [done |]. split; [done | congruence].
Qed.
Lemma update_edges_ok dim cx l :
  cell_partition cx → node_stalk_dim cx = dim →
  ∃ cx', fold_result (update_add_edge dim) cx l = Ok cx' ∧ (cell_partition cx' ∧ node_stalk_dim cx' = dim).
Proof.
  intros Hp Hd. apply (fold_result_total (λ cx, cell_partition cx ∧ node_stalk_dim cx = dim)); [done |].
  intros cx1 r _ [Hp1 Hd1]. unfold update_add_edge. destruct (N.eqb_spec dim 0); [by eexists |].
  destruct (N.eqb_spec (ri_agreement_dim r) 0); [by eexists |]. destruct (N.ltb_spec dim (ri_agreement_dim r)); [by eexists |].
  cbn [orb]. destruct (negb _ || negb _); [by eexists |].
  destruct (project_dim_range_ok dim (ri_agreement_dim r)) as (f & -> & Hc & Hr); [done |].
  destruct (add_edge_part (next_edge_id cx1) (ri_a r) (ri_b r) (ri_agreement_dim r) f cx1) as (cx2 & -> & ? & ? & _);
    [done | apply next_edge_id_base | congruence | done |].
  exists cx2. split; [done |]. split; [done | congruence].
Qed.
Lemma update_stalks_ok dim cx l :
  cell_partition cx → node_stalk_dim cx = dim →
  ∃ cx', fold_result (update_stalk dim) cx l = Ok cx' ∧ (cell_partition cx' ∧ node_stalk_dim cx' = dim).
Proof.
  intros Hp Hd. apply (fold_result_total (λ cx, cell_partition cx ∧ node_stalk_dim cx = dim)); [done |].
  intros cx1 u _ [Hp1 Hd1]. unfold update_stalk. destruct (N.eqb_spec (len (su_stalk u)) dim); [| by eexists].
  destruct (0 <? dim); [| by eexists]. destruct (N.ltb_spec (su_region_id u) EDGE_ID_BASE); [| by eexists]. cbn [andb].
  case_bool_decide as Hc; [| by eexists]. destruct Hc as [c Hc].
  destruct (set_node_stalk_part (su_region_id u) (su_stalk u) cx1 c) as (cx2 & -> & ? & ?); [done | done | congruence | done |].
  exists cx2. split; [done |]. split; [done | congruence].
Qed.
Lemma apply_to_complex_ok dim d cx :
  cell_partition cx → node_stalk_dim cx = dim →
  ∃ cx', apply_to_complex dim d cx = Ok cx' ∧ cell_partition cx' ∧ node_stalk_dim cx' = dim.
Proof.
  intros Hp Hd. unfold apply_to_complex.
  assert (∀ l cx, cell_partition cx → node_stalk_dim cx = dim →
    let cx' := foldl (λ cx e, match remove_edge e.1 e.2 cx with Some (_, cx) => cx | None => cx end) cx l in
    cell_partition cx' ∧ node_stalk_dim cx' = dim) as H1.
  { induction l as [| e l IH]; intros cx0 Hp0 Hd0; [done |]. cbn [foldl]. destruct (remove_edge e.1 e.2 cx0) as [[x cx1] |] eqn:Hr; [| by apply IH].
    apply remove_edge_sub in Hr as [Hd1 Hsub]. apply IH; [by eapply sub_partition | congruence]. }
  assert (∀ l cx, cell_partition cx → node_stalk_dim cx = dim →
    let cx' := foldl (λ cx r, (remove_node r cx).2) cx l in cell_partition cx' ∧ node_stalk_dim cx' = dim) as H2.
  { induction l as [| r l IH]; intros cx0 Hp0 Hd0; [done |]. cbn [foldl]. destruct (remove_node_sub r cx0) as [Hd1 Hsub].
    apply IH; [by eapply sub_partition | congruence]. }
  destruct (H1 (ti_removed_edges d) cx Hp Hd) as [Hp1 Hd1]. cbn zeta in *. set (cx1 := foldl _ cx _) in *.
  destruct (H2 (ti_removed_regions d) cx1 Hp1 Hd1) as [Hp2 Hd2]. cbn zeta in *. set (cx2 := foldl _ cx1 _) in *.
  destruct (update_regions_ok dim cx2 (ti_added_regions d) Hp2 Hd2) as (cx3 & -> & Hp3 & Hd3). rewrite bind_Ok.
  destruct (update_edges_ok dim cx3 (ti_added_edges d) Hp3 Hd3) as (cx4 & -> & Hp4 & Hd4). rewrite bind_Ok.
  by apply update_stalks_ok.
Qed.
Lemma elem_of_expand c touched affected x :
  x ∈ expand c touched affected ↔ x ∈ affected ∨ ∃ t, t ∈ touched ∧ connected c t x.
Proof.
  unfold expand. rewrite elem_of_union, elem_of_list_to_set, list_elem_of_bind. split.
  - intros [? | (t & Hn%neighbours_connected & Ht%elem_of_elements)]; eauto.
  - intros [? | (t & Ht & Hn)]; [by left | right]. exists t. by rewrite neighbours_connected, elem_of_elements.
Qed.
End update.

Section daemon_theorems.
Context `{HashIter}.

(** An update of the topology whose hashes are well formed and whose stalk dimension is
    the installed one always succeeds and keeps the state invariant.  The affected list is
    ascending and is exactly the regions the delta names and their neighbours before or
    after it; every region outside it keeps its digest, its entry and all its edges, and two
    such regions keep the baseline between them.  The generation moves on by one. *)
Theorem update_reports_what_it_changes s d dim digests boundaries :
  state_ok s → parse_stalks (ti_added_regions d) = Ok digests → parse_boundaries (ti_added_edges d) = Ok boundaries →
  (∀ cx, complex (cache s) = Some cx → node_stalk_dim cx = dim) →
  ∃ s' r, op_sheaf_update_topology d dim s = Ok (s', r) ∧ state_ok s' ∧
    ur_prior_generation r = generation (cache s) ∧ ur_generation r = wadd64 (generation (cache s)) 1 ∧
    generation (cache s') = ur_generation r ∧
    StronglySorted N.le (ur_affected r) ∧
    (∀ x, x ∈ ur_affected r ↔ x ∈ touched_by d ∨ ∃ t, t ∈ touched_by d ∧ (connected (cache s) t x ∨ connected (cache s') t x)) ∧
    (∀ x, x ∉ ur_affected r →
       stalks (cache s') !! x = stalks (cache s) !! x ∧ cache_entries (cache s') !! x = cache_entries (cache s) !! x ∧
       ∀ y, restrictions (cache s') !! (x, y) = restrictions (cache s) !! (x, y) ∧
            (y ∉ ur_affected r → delta_zero_baseline (cache s') !! (x, y) = delta_zero_baseline (cache s) !! (x, y))) ∧
    state_edges s' = canonical_edges (cache s').
Proof.
  intros [Hwf Hpart] Hds Hbs Hdim. unfold op_sheaf_update_topology, update_locked. rewrite Hds, Hbs. cbn [map_err]. rewrite !bind_Ok.
  destruct (apply_to_cache_spec d digests boundaries (cache s)) as (Hw1 & Hg1 & Hc1 & Hst1 & Hr1 & Hr1').
  set (c1 := apply_to_cache d digests boundaries (cache s)) in *. specialize (Hw1 Hwf). specialize (Hr1' Hwf).
  assert (∃ c2, (match complex c1 with Some cx => cx ← apply_to_complex dim d cx; mret (set_complex_field (Some cx) c1) | None => mret c1 end)
      = Ok (E:=sheaf_error) c2 ∧ (stalks c2, restrictions c2, cache_entries c2, generation c2, delta_zero_baseline c2) =
      (stalks c1, restrictions c1, cache_entries c1, generation c1, delta_zero_baseline c1) ∧ ∀ cx, complex c2 = Some cx → cell_partition cx)
    as (c2 & -> & [= Hs2 Hr2 He2 Hg2 Hb2] & Hp2).
  { destruct (complex c1) as [cx |] eqn:Hcx.
    - destruct (apply_to_complex_ok dim d cx) as (cx' & -> & Hp' & _); [apply Hpart; congruence | apply Hdim; congruence |].
      rewrite bind_Ok. eexists. split; [done |]. split; [done |]. cbn. by intros ? [= <-].
    - eexists. split; [done |]. split; [done |]. rewrite Hcx. done. }
  rewrite bind_Ok. set (aff := expand c2 (touched_by d) (expand (cache s) (touched_by d) (touched_by d))).
  set (affv := merge_sort N.le (elements aff)).
  destruct (refresh_baseline_subset_fields affv c2) as ([= Hs3 Hr3 He3 Hg3 Hc3] & Hb3).
  assert (cache_wf (refresh_baseline_subset affv c2)) as Hw3.
  { apply refresh_baseline_subset_wf. by apply (cache_wf_same c1). }
  set (c3 := refresh_baseline_subset affv c2) in *. cbn [bump_generation mbind result_bind mret result_ret].
  assert (∀ x, x ∈ affv ↔ x ∈ aff) as Haff by (intros x; unfold affv; by rewrite merge_sort_Permutation, elem_of_elements).
  assert (∀ x, x ∈ aff ↔ x ∈ touched_by d ∨ ∃ t, t ∈ touched_by d ∧ (connected (cache s) t x ∨ connected c3 t x)) as Haff'.
  { intros x. unfold aff. rewrite !elem_of_expand.
    assert (∀ t, connected c3 t x ↔ connected c2 t x) as Hcc by (intros t; unfold connected; by rewrite Hr3). setoid_rewrite Hcc. naive_solver. }
  eexists _, _. split; [done |]. cbn [ur_prior_generation ur_generation ur_affected].
  split_and!.
  - split; cbn.
    + by apply (cache_wf_same c3).
    + intros cx. rewrite Hc3. apply Hp2.
  - congruence.
  - cbn. congruence.
  - cbn. congruence.
  - apply StronglySorted_merge_sort; apply _.
  - intros x. cbn. rewrite Haff, Haff'. done.
  - intros x Hx. rewrite Haff in Hx. cbn.
    assert (x ∉ touched_by d) as Hxt by (intros ?; apply Hx, Haff'; by left). destruct (Hst1 x Hxt) as [Hsx Hex].
    split_and!; [congruence | congruence |]. intros y. rewrite Hr3, Hr2. split.
    + destruct (decide (y ∈ ti_removed_regions d)) as [Hy | Hy]; [| by apply Hr1].
      rewrite (Hr1' x y Hxt Hy). destruct (restrictions (cache s) !! (x, y)) as [e |] eqn:He; [| done]. exfalso. apply Hx, Haff'. right.
      exists y. split; [unfold touched_by; set_solver |]. left. unfold connected. rewrite (cw_sym _ Hwf), He. eauto.
    + intros Hy. rewrite Haff in Hy. rewrite Hb3 by (cbn; rewrite Haff; done). rewrite Hb2. apply Hr1; [done |]. intros Hrem.
      apply Hy, Haff'. left. unfold touched_by. set_solver.
  - done.
Qed.

Lemma build_nodes_ok dim cx l :
  cell_partition cx → node_stalk_dim cx = dim → (∀ r, r ∈ l → si_id r < EDGE_ID_BASE ∧ len (si_data r) = dim) →
  ∃ cx', fold_result build_node (Some cx) l = Ok (Some cx') ∧ cell_partition cx' ∧ node_stalk_dim cx' = dim ∧
    nodes cx' = nodes cx ++ (si_id <$> l).
Proof.
  revert cx. induction l as [| r l IH]; intros cx Hp Hd Hl.
  { exists cx. rewrite app_nil_r. done. }
  destruct (Hl r) as [Hlt Hlen]; [left |]. cbn [fold_result build_node].
  destruct (add_node_part (si_id r) (si_data r) cx) as (cx1 & -> & Hp1 & Hd1 & Hn1); [done | done | congruence |]. rewrite bind_Ok.
  destruct (IH cx1) as (cx' & Hf & ? & ? & Hn); [done | congruence | intros; apply Hl; by right |].
  exists cx'. split; [exact Hf |]. split_and!; [done | done |]. rewrite Hn, Hn1, <- app_assoc. done.
Qed.
Lemma build_edges_ok dim cx seq l :
  cell_partition cx → node_stalk_dim cx = dim → (∀ r, r ∈ l → ri_agreement_dim r <= dim) →
  EDGE_ID_BASE <= seq → seq + len l <= u32_max →
  ∃ cx' seq', fold_result (build_edge dim) (Some cx, seq) l = Ok (Some cx', seq') ∧ cell_partition cx' ∧ node_stalk_dim cx' = dim ∧
    nodes cx' = nodes cx.
Proof.
  revert cx seq. induction l as [| r l IH]; intros cx seq Hp Hd Hl Hb Hroom; [by exists cx, seq |]. rewrite len_cons in Hroom.
  cbn [fold_result build_edge]. destruct (project_dim_range_ok dim (ri_agreement_dim r)) as (f & -> & Hc & Hr); [apply Hl; left |].
  destruct (add_edge_part seq (ri_a r) (ri_b r) (ri_agreement_dim r) f cx) as (cx1 & -> & Hp1 & Hd1 & Hn1); [done | done | congruence | done |].
  rewrite bind_Ok. assert (wadd32 seq 1 = seq + 1) as -> by (unfold wadd32; rewrite N.mod_small; [done | unfold u32_max in *; lia]).
  destruct (IH cx1 (seq + 1)) as (cx' & seq' & Hf & ? & ? & Hn); [done | congruence | intros; apply Hl; by right | lia | lia |].
  exists cx', seq'. split; [exact Hf |]. split_and!; [done | done | congruence].
Qed.
Lemma build_none l : fold_result build_node None l = Ok None.
Proof. induction l as [| r l IH]; [done |]. exact IH. Qed.
Lemma build_edges_none dim seq l : fold_result (build_edge dim) (None, seq) l = Ok (None, seq).
Proof. induction l as [| r l IH]; [done |]. exact IH. Qed.
Lemma refresh_baseline_fields (c : SheafCache unit) :
  let c' := refresh_baseline c in
  stalks c' = stalks c ∧ restrictions c' = restrictions c ∧ cache_entries c' = cache_entries c ∧ generation c' = generation c ∧
  complex c' = complex c.
Proof. intros c'. subst c'. unfold refresh_baseline. destruct (complex c) eqn:Hc; cbn; by rewrite ?Hc. Qed.

(** Setting the topology succeeds whenever its hashes are well formed, and keeps the
    state invariant.  It attaches a new complex, holding exactly the given regions, exactly
    when the request qualifies for one.  It does not replace what was there: a region or a
    pair the request does not name keeps its digest and its edge, the entries and the
    generation stay, and a request that does not qualify leaves the old complex attached. *)
Theorem set_topology_keeps_the_rest s regions rs dim digests boundaries :
  state_ok s → parse_stalks regions = Ok digests → parse_boundaries rs = Ok boundaries → EDGE_ID_BASE + len rs <= u32_max →
  ∃ s' r, op_sheaf_set_topology regions rs dim s = Ok (s', r) ∧ state_ok s' ∧
    st_delta_zero_mode r = engages regions rs dim ∧
    (if engages regions rs dim
     then ∃ cx, complex (cache s') = Some cx ∧ nodes cx = si_id <$> regions ∧ node_stalk_dim cx = dim
     else complex (cache s') = complex (cache s)) ∧
    (∀ x, x ∉ si_id <$> regions → stalks (cache s') !! x = stalks (cache s) !! x) ∧
    (∀ x y, (∀ e, e ∈ rs → ¬ is_pair (ri_a e) (ri_b e) x y) → restrictions (cache s') !! (x, y) = restrictions (cache s) !! (x, y)) ∧
    cache_entries (cache s') = cache_entries (cache s) ∧ generation (cache s') = generation (cache s) ∧
    state_edges s' = canonical_edges (cache s') ∧ region_labels s' = ∅.
Proof.
  intros [Hwf Hpart] Hds Hbs Hroom. unfold op_sheaf_set_topology. rewrite Hds, Hbs. cbn [map_err]. rewrite !bind_Ok.
  destruct (set_stalks_spec (zip regions digests) (cache s)) as (Hs1 & [= Hr1 He1 Hg1 Hc1 Hb1]). set (c1 := foldl _ (cache s) _) in *.
  destruct (set_restrictions_spec (zip rs boundaries) c1) as (Hr2 & Hw2 & [= Hs2 He2 Hg2 Hc2 Hb2]).
  assert (cache_wf c1) as Hw1 by by apply (cache_wf_same (cache s)). specialize (Hw2 Hw1).
  assert (∀ x y, (∀ e, e ∈ rs → ¬ is_pair (ri_a e) (ri_b e) x y) →
    restrictions (foldl (λ c x, set_restriction (ri_a x.1) (ri_b x.1) (edge_of x.1 x.2) c) c1 (zip rs boundaries)) !! (x, y) = restrictions (cache s) !! (x, y)) as Hr3.
  { intros x y Hno. rewrite Hr2, Hr1; [done |]. intros e He%zip_fst_sub'. by apply Hno. }
  assert (∀ x, x ∉ si_id <$> regions → stalks c1 !! x = stalks (cache s) !! x) as Hs3.
  { intros x Hx. apply Hs1. by intros ?%zip_fst_sub. }
  set (c2 := foldl _ c1 _) in *.
  destruct (engages regions rs dim) eqn:Heng.
  - unfold engages in Heng. rewrite !andb_true_iff, !forallb_forall in Heng. destruct Heng as [[[[[_ Hid] _] Hlen] _] Hag].
    destruct (build_nodes_ok dim (CellComplex_new dim) regions) as (cx & -> & Hp & Hd & Hn); [apply new_partition | done | |].
    { intros r Hr%list_elem_of_In. split; [by apply N.ltb_lt, Hid | by apply N.eqb_eq, Hlen]. }
    rewrite bind_Ok. destruct (build_edges_ok dim cx EDGE_ID_BASE rs) as (cx' & seq & -> & Hp' & Hd' & Hn'); [done | done | | done | done |].
    { intros r Hr%list_elem_of_In%Hag. apply andb_true_iff in Hr as [_ Hr%N.leb_le]. done. }
    rewrite bind_Ok. cbn [fst]. destruct (refresh_baseline_fields (Sheaf.set_complex cx' c2)) as (Hs4 & Hr4 & He4 & Hg4 & Hc4).
    assert (cache_wf (refresh_baseline (Sheaf.set_complex cx' c2))) as Hw4 by by apply refresh_baseline_wf, set_complex_wf.
    set (c3 := refresh_baseline _) in *. clearbody c3. eexists _, _. split; [done |]. split_and!; try done.
    + split; [done |]. cbn. rewrite Hc4. cbn. by intros ? [= <-].
    + exists cx'. cbn. rewrite Hc4, Hn', Hn. done.
    + intros x Hx. cbn. rewrite Hs4. cbn. rewrite Hs2. by apply Hs3.
    + intros x y Hno. cbn. rewrite Hr4. by apply Hr3.
    + cbn. rewrite He4. cbn. congruence.
    + cbn. rewrite Hg4. cbn. congruence.
  - rewrite build_none, bind_Ok, build_edges_none, bind_Ok. cbn [fst]. eexists _, _. split; [done |]. split_and!; try done; cbn.
    + split; [done |]. cbn. rewrite Hc2, Hc1. done.
    + congruence.
    + intros x Hx. rewrite Hs2. by apply Hs3.
    + congruence.
    + congruence.
Qed.
End daemon_theorems.

(** ** Reporting changes *)

Section invalidation.
Context `{HashIter}.

(** The data of a report fits: it is for no node, or has the node's dimension. *)
Definition data_fits (c : SheafCache unit) (x : SheafStalkInput) : Prop :=
  si_data x = [] ∨ ∀ cx cell, complex c = Some cx → cells cx !! si_id x = Some cell → c_dimension cell = 0 → len (si_data x) = node_stalk_dim cx.
Definition node_shape (cx : option CellComplex) : option (N * gmap N N) := (λ cx, (node_stalk_dim cx, c_dimension <$> cells cx)) <$> cx.
Lemma data_fits_shape c c' x : node_shape (complex c') = node_shape (complex c) → data_fits c x → data_fits c' x.
Proof.
  intros Hsh [? | Hf]; [by left | right]. intros cx cell Hcx Hcell Hd. rewrite Hcx in Hsh. cbn in Hsh.
  destruct (complex c) as [cx0 |] eqn:Hc0; [| done]. injection Hsh as Hdim Hcells.
  assert ((c_dimension <$> cells cx0) !! si_id x = Some 0) as Hl by (rewrite <- Hcells, lookup_fmap, Hcell; cbn; by rewrite Hd).
  rewrite lookup_fmap in Hl. apply fmap_Some in Hl as (cell0 & Hcell0 & Hd0). rewrite Hdim. eauto.
Qed.
Lemma push_stalk_ok c x dg :
  cache_wf c → (∀ cx, complex c = Some cx → cell_partition cx) → data_fits c x →
  ∃ c', push_stalk c (x, dg) = Ok c' ∧ cache_wf c' ∧ (∀ cx, complex c' = Some cx → cell_partition cx) ∧
    node_shape (complex c') = node_shape (complex c) ∧ generation c' = generation c ∧ stalks c' = <[si_id x := dg]> (stalks c) ∧
    restrictions c' = restrictions c.
Proof.
  intros Hwf Hp Hf. unfold push_stalk. cbn [fst snd]. set (c1 := set_stalk (si_id x) dg c).
  assert (cache_wf c1) as Hw1 by by apply (cache_wf_same c).
  destruct (si_data x) as [| v data] eqn:Hdata; [by exists c1 |]. unfold set_stalk_value. cbn [set_stalk set_stalks complex].
  change (complex c1) with (complex c). destruct (complex c) as [cx |] eqn:Hcx.
  2: { exists c1. split; [done |]. split; [done |]. change (complex c1) with (complex c). rewrite Hcx. done. }
  assert (complex c1 = Some cx) as Hcx1 by done.
  destruct (cells cx !! si_id x) as [cell |] eqn:Hcell.
  2: { exists c1. split; [done |]. split; [done |]. rewrite Hcx1. split; [by intros ? [= <-]; apply Hp |]. done. }
  destruct (N.eqb_spec (c_dimension cell) 0) as [Hd | Hd].
  2: { exists c1. split; [done |]. split; [done |]. rewrite Hcx1. split; [by intros ? [= <-]; apply Hp |]. done. }
  assert (len (v :: data) = node_stalk_dim cx) as Hlen.
  { destruct Hf as [Hf | Hf]; [congruence |]. rewrite <- Hdata. by eapply Hf. }
  assert (set_node_stalk (si_id x) (v :: data) cx = Ok (with_cells (<[si_id x := {| c_id := c_id cell; c_dimension := c_dimension cell;
      c_stalk := v :: data; c_label := c_label cell; c_is_virtual := c_is_virtual cell |}]> (cells cx)) cx)) as ->.
  { unfold set_node_stalk, assert_. rewrite Hlen, N.eqb_refl, bind_Ok, Hcell. rewrite Hd. done. }
  rewrite bind_Ok. eexists. split; [done |]. split; [by apply (cache_wf_same c1) |]. cbn. split_and!; try done.
  - intros ? [= <-] i c' Hi. cbn in Hi. apply lookup_insert_Some in Hi as [[<- <-] | [_ Hi]]; [| by eapply Hp].
    cbn. by apply (Hp cx eq_refl (si_id x) cell).
  - f_equal. f_equal. rewrite fmap_insert. cbn. apply insert_id. by rewrite lookup_fmap, Hcell.
Qed.
(** A report whose hashes are well formed, whose root is readable and whose data fits
    always succeeds, keeps the invariant, and names the reported regions first. *)
Lemma invalidate_total s root regions inputs digests :
  state_ok s → parse_stalks inputs = Ok digests → (∀ x, x ∈ inputs → data_fits (cache s) x) →
  ∃ s' r, op_sheaf_invalidate (Some root) regions inputs s = Ok (s', r) ∧ state_ok s' ∧
    ir_prior_generation r = generation (cache s) ∧ ir_generation r = wadd64 (generation (cache s)) 1 ∧
    ∃ extra, ir_invalidated r = regions ++ extra.
Proof.
  intros [Hwf Hp] Hds Hfit. unfold op_sheaf_invalidate. rewrite Hds. cbn [map_err ok_or]. rewrite !bind_Ok.
  destruct (fold_result_total (λ c, cache_wf c ∧ (∀ cx, complex c = Some cx → cell_partition cx) ∧
      node_shape (complex c) = node_shape (complex (cache s)) ∧ generation c = generation (cache s)) push_stalk (cache s) (zip inputs digests))
    as (c & -> & Hwc & Hpc & _ & Hgc); [done | |].
  { intros c [x dg] Hin (Hw & Hpp & Hsh & Hg). destruct (push_stalk_ok c x dg) as (c' & -> & ? & ? & Hsh' & Hg' & _); [done | done | |].
    - apply (data_fits_shape (cache s)); [done |]. apply Hfit. by apply elem_of_zip_l in Hin.
    - exists c'. split_and!; [done | done | done | congruence | congruence]. }
  rewrite bind_Ok. destruct (on_change_spec c regions) as (tr & c' & -> & (extra & -> & _) & _ & _ & _ & Hg & [= Hs Hr Hc Hb _] & _).
  eexists _, _. split; [done |]. split_and!; cbn; [| done | congruence |].
  - split; cbn; [by apply (cache_wf_same c) |]. rewrite Hc. done.
  - exists extra.*1. by rewrite fmap_app, roots_fst.
Qed.
End invalidation.

(** ** Examples *)

Definition zero_hex : list byte := bytes_of (hex_bytes (replicate 32 x00)).
Definition in_region (i : N) (v : f32) : SheafStalkInput := {| si_id := i; si_hash := Some zero_hex; si_data := [v] |}.
Definition in_edge (a b : N) : SheafRestrictionInput := {|
  ri_a := a; ri_b := b; ri_boundary_hash := Some zero_hex; ri_co_change_rate := d_zero; ri_revert_rate := d_zero;
  ri_weights := []; ri_agreement_dim := 1 |}.
Definition add_two : TopologyDeltaInput := {|
  ti_added_regions := [in_region 0 f_one; in_region 1 f_zero]; ti_removed_regions := []; ti_added_edges := [in_edge 0 1];
  ti_removed_edges := []; ti_updated_stalks := [] |}.
Lemma new_state_ok : state_ok SheafState_new.
Proof. split; [apply cache_new_wf | done]. Qed.
Lemma update_reports_what_it_changes_witness :
  ∃ s' r, @op_sheaf_update_topology key_order add_two 1 SheafState_new = Ok (s', r) ∧ state_ok s' ∧
    ur_prior_generation r = 0 ∧ ur_generation r = wadd64 0 1.
Proof.
  destruct (@update_reports_what_it_changes key_order SheafState_new add_two 1
    [DigestHash Hash_ZERO; DigestHash Hash_ZERO] [Hash_ZERO]) as (s' & r & H1 & H2 & H3 & H4 & _).
  - exact new_state_ok.
  - by vm_compute.
  - by vm_compute.
  - discriminate.
  - exists s', r. split_and!; assumption.
Defined.
Lemma set_topology_keeps_the_rest_witness :
  ∃ s' r, @op_sheaf_set_topology key_order [in_region 0 f_one; in_region 1 f_zero] [in_edge 0 1] 1 SheafState_new = Ok (s', r) ∧
    state_ok s' ∧ st_delta_zero_mode r = true.
Proof.
  destruct (@set_topology_keeps_the_rest key_order SheafState_new [in_region 0 f_one; in_region 1 f_zero] [in_edge 0 1] 1
    [DigestHash Hash_ZERO; DigestHash Hash_ZERO] [Hash_ZERO]) as (s' & r & H1 & H2 & H3 & _).
  - exact new_state_ok.
  - by vm_compute.
  - by vm_compute.
  - by vm_compute.
  - exists s', r. split_and!; [assumption | assumption |]. rewrite H3. by vm_compute.
Defined.

(** The second topology names neither region 0 nor region 1 and does not qualify for a
    complex: their digests, their edge and the old complex are all still there. *)
Example old_topology_survives :
  (r ← @op_sheaf_set_topology key_order [in_region 0 f_one; in_region 1 f_zero] [in_edge 0 1] 1 SheafState_new;
   r ← @op_sheaf_set_topology key_order [{| si_id := 7; si_hash := None; si_data := [] |}] [] 0 r.1;
   mret (st_delta_zero_mode r.2, size (stalks (cache r.1)), size (restrictions (cache r.1)), bool_decide (is_Some (node_stalk_dim <$> complex (cache r.1)))))
  = Ok (E:=sheaf_error) (false, 3%nat, 2%nat, true).
Proof. by vm_compute. Qed.
(** The guard compares the data with the dimension of the request, the complex asserts its own. *)
Example update_with_other_dimension_panics :
  (r ← @op_sheaf_set_topology key_order [in_region 0 f_one; in_region 1 f_zero] [in_edge 0 1] 1 SheafState_new;
   @op_sheaf_update_topology key_order {| ti_added_regions := [{| si_id := 2; si_hash := None; si_data := [f_one; f_one] |}];
     ti_removed_regions := []; ti_added_edges := []; ti_removed_edges := []; ti_updated_stalks := [] |} 2 r.1) = Panic.
Proof. by vm_compute. Qed.
(** A report with data of another length for an installed region panics. *)
Example invalidate_with_other_dimension_panics :
  (r ← @op_sheaf_set_topology key_order [in_region 0 f_one; in_region 1 f_zero] [in_edge 0 1] 1 SheafState_new;
   @op_sheaf_invalidate key_order (Some None) [0] [{| si_id := 0; si_hash := None; si_data := [f_one; f_one] |}] r.1) = Panic.
Proof. by vm_compute. Qed.
(** Two updates in parallel: the first still holds its edge list when the second has
    finished, and writes it last.  The list then lacks the second update's edge. *)
Definition add_third : TopologyDeltaInput := {|
  ti_added_regions := []; ti_removed_regions := []; ti_added_edges := [in_edge 1 2]; ti_removed_edges := []; ti_updated_stalks := [] |}.
Example edge_list_left_stale :
  (a ← @update_locked key_order add_two 1 SheafState_new;
   let '(s, edges_a, ra) := a in
   b ← @op_sheaf_update_topology key_order add_third 1 s;
   let s := update_finish edges_a ra b.1 in
   mret (state_edges s, canonical_edges (cache s))) = Ok (E:=sheaf_error) ([(0, 1)], [(0, 1); (1, 2)]).
Proof. by vm_compute. Qed.
