(* ===== verification/Share.v ===== *)
(** * The share protocol

    [rs/ll-open/runtime/src/backends/libkrun/share/mod.rs] and [codec.rs]: FUSE requests and
    replies as frames on a byte stream, the server loop and the remote client.  Cap'n Proto
    and its generated accessors are the class [Capnp]: what a builder was given is a value of
    [wrequest] or [wreply], and reading what was written gives it back.  A stream delivers its
    bytes in pieces of any size, may be interrupted between them, and may fail.  It is finite:
    a peer that stays silent with the socket open, on which the remote client waits without a
    timeout, is not a stream of the model. *)

From S2P Require Import Prelude.
From Stdlib Require Import NArith Lia.
Local Open Scope N_scope.

Inductive io_error := InvalidData | UnexpectedEof | Broken.

Definition FUSE_DO_READDIRPLUS : N := 8192.
Definition FUSE_WRITEBACK_CACHE : N := 65536.
Definition FOPEN_DIRECT_IO : N := 1.
Definition FOPEN_KEEP_CACHE : N := 2.
Definition FOPEN_CACHE_DIR : N := 8.
Definition DT_DIR : N := 4.
Definition DT_REG : N := 8.
Definition DT_LNK : N := 10.
Definition LINUX_EIO : Z := 5.
Definition MAX_FRAME : N := 67108864.

(** [std::time::Duration]: fewer than a billion nanoseconds. *)
Record Duration := { d_secs : N; d_nanos : N }.
Definition Duration_ZERO : Duration := {| d_secs := 0; d_nanos := 0 |}.

Record Attr := {
  a_inode : N; a_mode : N; a_nlink : N; a_size : N; a_blocks : N; a_blksize : N; a_atime : Duration; a_mtime : Duration; a_ctime : Duration;
}.
Record Entry := { e_inode : N; e_attr : Attr; e_entry_ttl : Duration; e_attr_ttl : Duration }.
Record DirEntry := { de_inode : N; de_offset : N; de_kind : N; de_name : list byte }.
Inductive Request :=
| RqInit
| RqLookup (parent : N) (name : list byte)
| RqGetattr (inode : N) (handle : option N)
| RqSetattr (inode : N) (handle size mode uid gid : option N)
| RqMkdir (parent : N) (name : list byte)
| RqUnlink (parent : N) (name : list byte)
| RqRmdir (parent : N) (name : list byte)
| RqRename (olddir : N) (oldname : list byte) (newdir : N) (newname : list byte) (flags : N)
| RqOpen (inode flags : N)
| RqCreate (parent : N) (name : list byte) (flags : N)
| RqRead (handle offset size : N)
| RqWrite (handle offset : N) (data : list byte)
| RqFlush (handle : N)
| RqFsync (handle : N)
| RqRelease (handle : N)
| RqOpendir (inode : N)
| RqReaddir (inode offset : N)
| RqReaddirplus (inode offset : N)
| RqSymlink (parent : N) (name target : list byte)
| RqReadlink (inode : N).
Inductive Reply :=
| RpError (errno : Z)
| RpInit (want : N)
| RpEntry (entry : Entry)
| RpAttr (attr : Attr) (ttl : Duration)
| RpOpened (handle flags : N)
| RpCreated (entry : Entry) (handle flags : N)
| RpData (data : list byte)
| RpWritten (size : N)
| RpDone
| RpDir (entries : list DirEntry)
| RpDirPlus (entries : list (DirEntry * Entry)).

(** ** What a header holds *)

Record wtime := { wt_secs : N; wt_nanos : N }.
Record wopt := { wo_set : bool; wo_value : N }.
Record wattr := {
  wa_inode : N; wa_mode : N; wa_nlink : N; wa_size : N; wa_blocks : N; wa_blksize : N; wa_atime : wtime; wa_mtime : wtime; wa_ctime : wtime;
}.
Record wentry := { we_inode : N; we_attr : wattr; we_entry_ttl : wtime; we_attr_ttl : wtime }.
Record wdir_entry := { wd_inode : N; wd_offset : N; wd_kind : N; wd_name : list byte }.
Record wname := { wn_parent : N; wn_name : list byte }.
Inductive wrequest :=
| WqInit
| WqLookup (n : wname)
| WqGetattr (inode : N) (handle : wopt)
| WqSetattr (inode : N) (handle size mode uid gid : wopt)
| WqMkdir (n : wname)
| WqUnlink (n : wname)
| WqRmdir (n : wname)
| WqRename (olddir : N) (oldname : list byte) (newdir : N) (newname : list byte) (flags : N)
| WqOpen (inode flags : N)
| WqCreate (parent : N) (name : list byte) (flags : N)
| WqRead (handle offset size : N)
| WqWrite (handle offset : N)
| WqFlush (handle : N)
| WqFsync (handle : N)
| WqRelease (handle : N)
| WqOpendir (inode : N)
| WqReaddir (inode offset : N)
| WqReaddirplus (inode offset : N)
| WqSymlink (parent : N) (name target : list byte)
| WqReadlink (inode : N).
Inductive wreply :=
| WpError (errno : Z)
| WpInit (want : N)
| WpEntry (entry : wentry)
| WpAttr (attr : wattr) (ttl : wtime)
| WpOpened (handle flags : N)
| WpCreated (entry : wentry) (handle flags : N)
| WpData
| WpWritten (size : N)
| WpDone
| WpDir (entries : list wdir_entry)
| WpDirPlus (entries : list (wdir_entry * wentry)).

(** Serialising a message and reading one back from the front of a slice, and the root as a
    request or a reply ([None] for a malformed message or a kind that is not known).  What is
    written within the size limit reads back, and nothing is left over. *)
Class Capnp := {
  message : Type;
  write_wrequest : wrequest → list byte;
  write_wreply : wreply → list byte;
  read_message : list byte → option (message * list byte);
  get_wrequest : message → option wrequest;
  get_wreply : message → option wreply;
  wrequest_fits : wrequest → Prop;
  wreply_fits : wreply → Prop;
  wrequest_roundtrip w : wrequest_fits w → len (write_wrequest w) <= MAX_FRAME →
    ∃ m, read_message (write_wrequest w) = Some (m, []) ∧ get_wrequest m = Some w;
  wreply_roundtrip w : wreply_fits w → len (write_wreply w) <= MAX_FRAME →
    ∃ m, read_message (write_wreply w) = Some (m, []) ∧ get_wreply m = Some w;
}.

Section codec.
Context `{Capnp}.

Definition read {W} (get : message → option W) (bytes : list byte) : result io_error W :=
  match read_message bytes with
  | None => Err InvalidData
  | Some (m, rest) => match rest with
                      | [] => ok_or (get m) InvalidData
                      | _ => Err InvalidData
                      end
  end.
Definition no_payload (payload : list byte) : result io_error unit :=
  match payload with [] => mret tt | _ => Err InvalidData end.

Definition set_time (t : Duration) : wtime := {| wt_secs := d_secs t; wt_nanos := d_nanos t |}.
Definition time (w : wtime) : result io_error Duration :=
  if 1000000000 <=? wt_nanos w then Err InvalidData else mret {| d_secs := wt_secs w; d_nanos := wt_nanos w |}.
(** An optional that is never initialised reads as its default. *)
Definition set_opt (o : option N) : wopt :=
  match o with Some v => {| wo_set := true; wo_value := v |} | None => {| wo_set := false; wo_value := 0 |} end.
Definition opt (w : wopt) : option N := if wo_set w then Some (wo_value w) else None.
Definition set_attr (a : Attr) : wattr := {|
  wa_inode := a_inode a; wa_mode := a_mode a; wa_nlink := a_nlink a; wa_size := a_size a; wa_blocks := a_blocks a; wa_blksize := a_blksize a;
  wa_atime := set_time (a_atime a); wa_mtime := set_time (a_mtime a); wa_ctime := set_time (a_ctime a) |}.
Definition attr (w : wattr) : result io_error Attr :=
  atime ← time (wa_atime w);
  mtime ← time (wa_mtime w);
  ctime ← time (wa_ctime w);
  mret {| a_inode := wa_inode w; a_mode := wa_mode w; a_nlink := wa_nlink w; a_size := wa_size w; a_blocks := wa_blocks w;
          a_blksize := wa_blksize w; a_atime := atime; a_mtime := mtime; a_ctime := ctime |}.
Definition set_entry (e : Entry) : wentry := {|
  we_inode := e_inode e; we_attr := set_attr (e_attr e); we_entry_ttl := set_time (e_entry_ttl e); we_attr_ttl := set_time (e_attr_ttl e) |}.
Definition entry (w : wentry) : result io_error Entry :=
  a ← attr (we_attr w);
  entry_ttl ← time (we_entry_ttl w);
  attr_ttl ← time (we_attr_ttl w);
  mret {| e_inode := we_inode w; e_attr := a; e_entry_ttl := entry_ttl; e_attr_ttl := attr_ttl |}.
Definition set_dir_entry (e : DirEntry) : wdir_entry :=
  {| wd_inode := de_inode e; wd_offset := de_offset e; wd_kind := de_kind e; wd_name := de_name e |}.
Definition dir_entry (w : wdir_entry) : DirEntry :=
  {| de_inode := wd_inode w; de_offset := wd_offset w; de_kind := wd_kind w; de_name := wd_name w |}.
Definition set_name (parent : N) (name : list byte) : wname := {| wn_parent := parent; wn_name := name |}.

Definition wire_request (r : Request) : wrequest :=
  match r with
  | RqInit => WqInit
  | RqLookup parent name => WqLookup (set_name parent name)
  | RqGetattr inode handle => WqGetattr inode (set_opt handle)
  | RqSetattr inode handle size mode uid gid => WqSetattr inode (set_opt handle) (set_opt size) (set_opt mode) (set_opt uid) (set_opt gid)
  | RqMkdir parent name => WqMkdir (set_name parent name)
  | RqUnlink parent name => WqUnlink (set_name parent name)
  | RqRmdir parent name => WqRmdir (set_name parent name)
  | RqRename olddir oldname newdir newname flags => WqRename olddir oldname newdir newname flags
  | RqOpen inode flags => WqOpen inode flags
  | RqCreate parent name flags => WqCreate parent name flags
  | RqRead handle offset size => WqRead handle offset size
  | RqWrite handle offset _ => WqWrite handle offset
  | RqFlush handle => WqFlush handle
  | RqFsync handle => WqFsync handle
  | RqRelease handle => WqRelease handle
  | RqOpendir inode => WqOpendir inode
  | RqReaddir inode offset => WqReaddir inode offset
  | RqReaddirplus inode offset => WqReaddirplus inode offset
  | RqSymlink parent name target => WqSymlink parent name target
  | RqReadlink inode => WqReadlink inode
  end.
Definition request_header (r : Request) : list byte := write_wrequest (wire_request r).
Definition request_of_wire (w : wrequest) : Request :=
  match w with
  | WqInit => RqInit
  | WqLookup n => RqLookup (wn_parent n) (wn_name n)
  | WqGetattr inode handle => RqGetattr inode (opt handle)
  | WqSetattr inode handle size mode uid gid => RqSetattr inode (opt handle) (opt size) (opt mode) (opt uid) (opt gid)
  | WqMkdir n => RqMkdir (wn_parent n) (wn_name n)
  | WqUnlink n => RqUnlink (wn_parent n) (wn_name n)
  | WqRmdir n => RqRmdir (wn_parent n) (wn_name n)
  | WqRename olddir oldname newdir newname flags => RqRename olddir oldname newdir newname flags
  | WqOpen inode flags => RqOpen inode flags
  | WqCreate parent name flags => RqCreate parent name flags
  | WqRead handle offset size => RqRead handle offset size
  | WqWrite handle offset => RqWrite handle offset []
  | WqFlush handle => RqFlush handle
  | WqFsync handle => RqFsync handle
  | WqRelease handle => RqRelease handle
  | WqOpendir inode => RqOpendir inode
  | WqReaddir inode offset => RqReaddir inode offset
  | WqReaddirplus inode offset => RqReaddirplus inode offset
  | WqSymlink parent name target => RqSymlink parent name target
  | WqReadlink inode => RqReadlink inode
  end.
Definition request (bytes payload : list byte) : result io_error Request :=
  w ← read get_wrequest bytes;
  match request_of_wire w with
  | RqWrite handle offset _ => mret (RqWrite handle offset payload)
  | other => _ ← no_payload payload; mret other
  end.

(** [list_len]: a listing of 2^32 entries or more panics. *)
Definition list_len {A} (l : list A) : result io_error unit := assert_ (len l <=? u32_max).
Definition wire_reply (r : Reply) : result io_error wreply :=
  match r with
  | RpError errno => mret (WpError errno)
  | RpInit want => mret (WpInit want)
  | RpEntry e => mret (WpEntry (set_entry e))
  | RpAttr a ttl => mret (WpAttr (set_attr a) (set_time ttl))
  | RpOpened handle flags => mret (WpOpened handle flags)
  | RpCreated e handle flags => mret (WpCreated (set_entry e) handle flags)
  | RpData _ => mret WpData
  | RpWritten size => mret (WpWritten size)
  | RpDone => mret WpDone
  | RpDir entries => _ ← list_len entries; mret (WpDir (set_dir_entry <$> entries))
  | RpDirPlus entries => _ ← list_len entries; mret (WpDirPlus ((λ x, (set_dir_entry x.1, set_entry x.2)) <$> entries))
  end.
Definition reply_header (r : Reply) : result io_error (list byte) := write_wreply <$> wire_reply r.
Definition pair_of_wire (w : wdir_entry * wentry) : result io_error (DirEntry * Entry) := e ← entry w.2; mret (dir_entry w.1, e).
(** [iter().map(..).collect()]: the first error wins. *)
Fixpoint collect {A B} (f : A → result io_error B) (l : list A) : result io_error (list B) :=
  match l with [] => mret [] | a :: l => b ← f a; bs ← collect f l; mret (b :: bs) end.
Definition reply_of_wire (w : wreply) : result io_error Reply :=
  match w with
  | WpError errno => mret (RpError errno)
  | WpInit want => mret (RpInit want)
  | WpEntry e => e ← entry e; mret (RpEntry e)
  | WpAttr a ttl => a ← attr a; ttl ← time ttl; mret (RpAttr a ttl)
  | WpOpened handle flags => mret (RpOpened handle flags)
  | WpCreated e handle flags => e ← entry e; mret (RpCreated e handle flags)
  | WpData => mret (RpData [])
  | WpWritten size => mret (RpWritten size)
  | WpDone => mret RpDone
  | WpDir entries => mret (RpDir (dir_entry <$> entries))
  | WpDirPlus entries => es ← collect pair_of_wire entries; mret (RpDirPlus es)
  end.
Definition reply (bytes payload : list byte) : result io_error Reply :=
  w ← read get_wreply bytes;
  r ← reply_of_wire w;
  match r with
  | RpData _ => mret (RpData payload)
  | other => _ ← no_payload payload; mret other
  end.

(** ** Frames on a stream *)

(** What the next reads of a stream give. *)
Inductive rd := Bytes (c : list byte) | Interrupted | Failed.
Definition stream : Type := list rd.
(** The buffer filled, the stream ended first (with what had arrived), or it failed. *)
Inductive filling := Filled (bs : list byte) (s : stream) | Ended (bs : list byte) | Failing.
Fixpoint fill (k : N) (acc : list byte) (s : stream) : filling :=
  if k =? 0 then Filled acc s
  else
    match s with
    | [] => Ended acc
    | Interrupted :: s => fill k acc s
    | Failed :: _ => Failing
    | Bytes [] :: _ => Ended acc
    | Bytes c :: s => if len c <=? k then fill (k - len c) (acc ++ c) s
                      else Filled (acc ++ takeN k c) (Bytes (dropN k c) :: s)
    end.
Definition read_exact (k : N) (s : stream) : result io_error (list byte * stream) :=
  match fill k [] s with Filled bs s => Ok (bs, s) | Ended _ => Err UnexpectedEof | Failing => Err Broken end.
Definition frame_len (n : N) : result io_error N := if n <=? MAX_FRAME then Ok n else Err InvalidData.
Definition read_frame (s : stream) : result io_error (option (list byte * list byte) * stream) :=
  match fill 8 [] s with
  | Ended [] => Ok (None, s)
  | Ended _ => Err UnexpectedEof
  | Failing => Err Broken
  | Filled lengths s =>
      header_len ← frame_len (le_value (takeN 4 lengths));
      payload_len ← frame_len (le_value (dropN 4 lengths));
      '(header, s) ← read_exact header_len s;
      '(payload, s) ← read_exact payload_len s;
      mret (Some (header, payload), s)
  end.

(** A writer takes [room] more bytes before it fails. *)
Record writer := { written : list byte; room : option N }.
Definition write_all (bs : list byte) (w : writer) : result io_error writer :=
  match room w with
  | None => Ok {| written := written w ++ bs; room := None |}
  | Some n => if len bs <=? n then Ok {| written := written w ++ bs; room := Some (n - len bs) |} else Err Broken
  end.
Definition frame_bytes (header payload : list byte) : list byte :=
  u32_le (len header) ++ u32_le (len payload) ++ header ++ payload.
Definition write_frame (header payload : list byte) (w : writer) : result io_error writer :=
  _ ← frame_len (len header);
  _ ← frame_len (len payload);
  write_all (frame_bytes header payload) w.

Definition request_payload (r : Request) : list byte := match r with RqWrite _ _ data => data | _ => [] end.
Definition reply_payload (r : Reply) : list byte := match r with RpData data => data | _ => [] end.
Definition write_request (r : Request) (w : writer) : result io_error writer := write_frame (request_header r) (request_payload r) w.
Definition read_request (s : stream) : result io_error (option Request * stream) :=
  '(f, s) ← read_frame s;
  match f with
  | None => mret (None, s)
  | Some (header, payload) => r ← request header payload; mret (Some r, s)
  end.
Definition write_reply (r : Reply) (w : writer) : result io_error writer := header ← reply_header r; write_frame header (reply_payload r) w.
Definition read_reply (s : stream) : result io_error (Reply * stream) :=
  '(f, s) ← read_frame s;
  '(header, payload) ← ok_or f UnexpectedEof;
  r ← reply header payload; mret (r, s).

(** ** Serving and calling *)

Section service.
(** A service and its state; no answer when it panics. *)
Context {S : Type} (call : Request → S → option Reply * S).

(** How the loop ended, what it wrote, and the state it leaves the service in. *)
Fixpoint serve_loop (fuel : nat) (s : stream) (w : writer) (st : S) : option (result io_error unit * writer * S) :=
  match fuel with
  | O => None
  | Datatypes.S fuel =>
      match read_request s with
      | Err e => Some (Err e, w, st)
      | Panic => Some (Panic, w, st)
      | Ok (None, _) => Some (Ok tt, w, st)
      | Ok (Some r, s) =>
          match call r st with
          | (None, st) => Some (Panic, w, st)
          | (Some p, st) =>
              match write_reply p w with
              | Err e => Some (Err e, w, st)
              | Panic => Some (Panic, w, st)
              | Ok w => serve_loop fuel s w st
              end
          end
      end
  end.
Definition stream_bytes (s : stream) : list byte := e ← s; match e with Bytes c => c | _ => [] end.
Definition serve (s : stream) (w : writer) (st : S) : option (result io_error unit * writer * S) :=
  serve_loop (Datatypes.S (length (stream_bytes s))) s w st.
End service.

(** The client's end: what will arrive and what was sent; [None] once it failed. *)
Record connection := { inbound : stream; outbound : writer }.
Definition RemoteFs : Type := option connection.
Definition exchange (r : Request) (c : connection) : result io_error (Reply * connection) :=
  w ← write_request r (outbound c);
  '(p, s) ← read_reply (inbound c);
  mret (p, {| inbound := s; outbound := w |}).
Definition RemoteFs_call (r : Request) (fs : RemoteFs) : result io_error (Reply * RemoteFs) :=
  match fs with
  | None => Ok (RpError LINUX_EIO, None)
  | Some c => match exchange r c with
              | Ok (p, c) => Ok (p, Some c)
              | Err _ => Ok (RpError LINUX_EIO, None)
              | Panic => Panic
              end
  end.
Fixpoint remote_calls (rs : list Request) (fs : RemoteFs) : result io_error (list Reply * RemoteFs) :=
  match rs with
  | [] => Ok ([], fs)
  | r :: rs => '(p, fs) ← RemoteFs_call r fs; '(ps, fs) ← remote_calls rs fs; mret (p :: ps, fs)
  end.
End codec.

(** ** Streams *)

Section streams.

(** A stream that neither fails nor ends before its last piece. *)
Definition alive (s : stream) : Prop := Forall (λ e, match e with Bytes c => c ≠ [] | Interrupted => True | Failed => False end) s.
Lemma stream_bytes_cons e s : stream_bytes (e :: s) = (match e with Bytes c => c | _ => [] end) ++ stream_bytes s.
Proof. done. Qed.
Lemma fill_sound k acc s bs s' :
  fill k acc s = Filled bs s' → acc ++ stream_bytes s = bs ++ stream_bytes s' ∧ len bs = len acc + k.
Proof.
  revert k acc. induction s as [| e s IH]; intros k acc; cbn [fill]; destruct (N.eqb_spec k 0) as [-> | Hk].
  - intros [= <- <-]. split; [done | lia].
  - done.
  - intros [= <- <-]. split; [done | lia].
  - destruct e as [[| b c] | |]; [done | | | done].
    + destruct (N.leb_spec (len (b :: c)) k) as [Hle | Hlt].
      * intros [Heq Hl]%IH. rewrite stream_bytes_cons, app_assoc. split; [done |]. rewrite Hl, len_app. lia.
      * intros [= <- <-]. rewrite !stream_bytes_cons, <- app_assoc. split; [f_equal; by rewrite app_assoc, takeN_dropN |].
        rewrite len_app, len_takeN. lia.
    + intros [Heq Hl]%IH. by rewrite stream_bytes_cons.
Qed.
Lemma fill_alive k acc s bs rest :
  alive s → stream_bytes s = bs ++ rest → len bs = k →
  ∃ s', fill k acc s = Filled (acc ++ bs) s' ∧ alive s' ∧ stream_bytes s' = rest.
Proof.
  revert k acc bs. induction s as [| e s IH]; intros k acc bs Hal Hb Hk.
  - cbn in Hb. symmetry in Hb. apply app_nil in Hb as [-> ->]. cbn in Hk. subst k. exists []. by rewrite app_nil_r.
  - cbn [fill]. destruct (N.eqb_spec k 0) as [-> | Hk0].
    { assert (bs = []) as -> by (destruct bs; [done |]; rewrite len_cons in Hk; lia). exists (e :: s). by rewrite app_nil_r. }
    inversion Hal as [| ?? He Hs]; subst. destruct e as [[| b c] | |]; [done | | | done].
    + rewrite stream_bytes_cons in Hb. destruct (N.leb_spec (len (b :: c)) (len bs)) as [Hle | Hlt].
      * assert (∃ bs', bs = (b :: c) ++ bs' ∧ stream_bytes s = bs' ++ rest) as (bs' & -> & Hb').
        { exists (dropN (len (b :: c)) bs). apply (f_equal (takeN (len (b :: c)))) in Hb as Ht. apply (f_equal (dropN (len (b :: c)))) in Hb as Hd.
          rewrite takeN_app_len, takeN_app_l in Ht by done. rewrite dropN_app_len, dropN_app_l in Hd by done. split; [| done].
          rewrite Ht at 1. by rewrite takeN_dropN. }
        destruct (IH (len ((b :: c) ++ bs') - len (b :: c)) (acc ++ b :: c) bs') as (s' & Hf & ? & ?); [done | done | rewrite len_app; lia |].
        exists s'. rewrite Hf, <- app_assoc. done.
      * exists (Bytes (dropN (len bs) (b :: c)) :: s).
        apply (f_equal (takeN (len bs))) in Hb as Ht. apply (f_equal (dropN (len bs))) in Hb as Hd.
        rewrite takeN_app_len, takeN_app_l in Ht by lia. rewrite dropN_app_len, dropN_app_l in Hd by lia.
        rewrite Ht. split; [done |]. split; [| by rewrite stream_bytes_cons]. constructor; [| done].
        intros Hnil. apply (f_equal len) in Hnil. rewrite len_dropN, len_nil in Hnil. lia.
    + by apply IH.
Qed.
Lemma fill_ended k s : alive s → stream_bytes s = [] → 0 < k → fill k [] s = Ended [].
Proof.
  intros Hal Hb Hk. induction s as [| e s IH]; cbn [fill]; destruct (N.eqb_spec k 0); try lia; [done |].
  inversion Hal as [| ?? He Hs]; subst. rewrite stream_bytes_cons in Hb. apply app_nil in Hb as [Hc Hs'].
  destruct e as [[| b c] | |]; [done | done | by apply IH | done].
Qed.

Lemma u32_back n : n <= MAX_FRAME → le_value (u32_le n) = n.
Proof. intros Hn. unfold u32_le. rewrite le_value_le_bytes. apply N.mod_small. unfold MAX_FRAME in Hn. cbn. lia. Qed.
Lemma len_u32 n : len (u32_le n) = 4.
Proof. apply (len_le_bytes 4). Qed.
Lemma read_frame_alive s header payload rest :
  alive s → len header <= MAX_FRAME → len payload <= MAX_FRAME → stream_bytes s = frame_bytes header payload ++ rest →
  ∃ s', read_frame s = Ok (Some (header, payload), s') ∧ alive s' ∧ stream_bytes s' = rest.
Proof.
  intros Hal Hh Hp Hb. unfold frame_bytes in Hb. rewrite <- !app_assoc in Hb. rewrite app_assoc in Hb.
  destruct (fill_alive 8 [] s (u32_le (len header) ++ u32_le (len payload)) (header ++ payload ++ rest)) as (s1 & Hf1 & Hal1 & Hb1);
    [done | done | by rewrite len_app, !len_u32 |].
  unfold read_frame. rewrite Hf1. cbn [app].
  assert (takeN 4 (u32_le (len header) ++ u32_le (len payload)) = u32_le (len header)) as ->
    by (rewrite <- (len_u32 (len header)) at 1; apply takeN_app_len).
  assert (dropN 4 (u32_le (len header) ++ u32_le (len payload)) = u32_le (len payload)) as ->
    by (rewrite <- (len_u32 (len header)) at 1; apply dropN_app_len).
  rewrite !u32_back by done. unfold frame_len. rewrite (proj2 (N.leb_le _ _) Hh), bind_Ok, (proj2 (N.leb_le _ _) Hp), bind_Ok.
  destruct (fill_alive (len header) [] s1 header (payload ++ rest)) as (s2 & Hf2 & Hal2 & Hb2); [done | done | done |].
  assert (read_exact (len header) s1 = Ok (header, s2)) as -> by (unfold read_exact; by rewrite Hf2). rewrite bind_Ok.
  destruct (fill_alive (len payload) [] s2 payload rest) as (s3 & Hf3 & Hal3 & Hb3); [done | done | done |].
  assert (read_exact (len payload) s2 = Ok (payload, s3)) as -> by (unfold read_exact; by rewrite Hf3). rewrite bind_Ok.
  by exists s3.
Qed.
Lemma read_frame_end s : alive s → stream_bytes s = [] → read_frame s = Ok (None, s).
Proof. intros Hal Hb. unfold read_frame. by rewrite fill_ended. Qed.
Lemma split_4 l : len l = 8 → u32_le (le_value (takeN 4 l)) ++ u32_le (le_value (dropN 4 l)) = l.
Proof.
  intros Hl. assert (length (takeN 4 l) = 4%nat ∧ length (dropN 4 l) = 4%nat) as [H1 H2].
  { unfold takeN, dropN. rewrite length_take, length_drop. unfold len in Hl. lia. }
  unfold u32_le. rewrite <- H1 at 1. rewrite le_bytes_le_value. rewrite <- H2 at 1. rewrite le_bytes_le_value. apply takeN_dropN.
Qed.
Lemma read_frame_sound s header payload s' :
  read_frame s = Ok (Some (header, payload), s') →
  stream_bytes s = frame_bytes header payload ++ stream_bytes s' ∧ len header <= MAX_FRAME ∧ len payload <= MAX_FRAME.
Proof.
  unfold read_frame. destruct (fill 8 [] s) as [lengths s1 | [|] |] eqn:Hf; [| done..].
  apply fill_sound in Hf as [Hb Hl]. cbn [app] in Hb. rewrite len_nil, N.add_0_l in Hl. unfold frame_len.
  destruct (N.leb_spec (le_value (takeN 4 lengths)) MAX_FRAME) as [Hh |]; [| done]. rewrite bind_Ok.
  destruct (N.leb_spec (le_value (dropN 4 lengths)) MAX_FRAME) as [Hp |]; [| done]. rewrite bind_Ok. unfold read_exact.
  destruct (fill (le_value (takeN 4 lengths)) [] s1) as [h s2 | |] eqn:Hf2; [| done..]. rewrite bind_Ok.
  destruct (fill (le_value (dropN 4 lengths)) [] s2) as [p s3 | |] eqn:Hf3; [| done..]. rewrite bind_Ok. intros [= <- <- <-].
  apply fill_sound in Hf2 as [Hb2 Hl2]. apply fill_sound in Hf3 as [Hb3 Hl3]. cbn [app] in *. rewrite len_nil, N.add_0_l in Hl2, Hl3. split; [| lia].
  unfold frame_bytes. rewrite Hb, Hb2, Hb3, Hl2, Hl3. rewrite (app_assoc (u32_le _)), split_4 by lia.
  by rewrite <- !app_assoc.
Qed.
Lemma read_frame_no_panic s : read_frame s ≠ Panic.
Proof.
  unfold read_frame, frame_len, read_exact. destruct (fill 8 [] s) as [l s1 | [|] |]; [| done..].
  destruct (le_value (takeN 4 l) <=? MAX_FRAME); [| done]. rewrite bind_Ok.
  destruct (le_value (dropN 4 l) <=? MAX_FRAME); [| done]. rewrite bind_Ok.
  destruct (fill _ [] s1) as [h s2 | |]; [| done..]. rewrite bind_Ok. destruct (fill _ [] s2); done.
Qed.
End streams.

(** ** The codec *)

Section codec_theorems.
Context `{Capnp}.

Definition duration_ok (d : Duration) : Prop := d_nanos d < 1000000000.
Definition attr_ok (a : Attr) : Prop := duration_ok (a_atime a) ∧ duration_ok (a_mtime a) ∧ duration_ok (a_ctime a).
Definition entry_ok (e : Entry) : Prop := attr_ok (e_attr e) ∧ duration_ok (e_entry_ttl e) ∧ duration_ok (e_attr_ttl e).
Definition reply_ok (r : Reply) : Prop :=
  match r with
  | RpEntry e | RpCreated e _ _ => entry_ok e
  | RpAttr a ttl => attr_ok a ∧ duration_ok ttl
  | RpDirPlus es => Forall (λ x, entry_ok x.2) es
  | _ => True
  end.
(** What fits a frame. *)
Definition request_sendable (r : Request) : Prop :=
  wrequest_fits (wire_request r) ∧ len (request_header r) <= MAX_FRAME ∧ len (request_payload r) <= MAX_FRAME.
Definition reply_sendable (r : Reply) : Prop :=
  reply_ok r ∧ len (reply_payload r) <= MAX_FRAME ∧
  ∃ w, wire_reply r = Ok w ∧ wreply_fits w ∧ len (write_wreply w) <= MAX_FRAME.
Definition request_frame (r : Request) : list byte := frame_bytes (request_header r) (request_payload r).
Definition reply_frame (r : Reply) : list byte :=
  match reply_header r with Ok header => frame_bytes header (reply_payload r) | _ => [] end.

Lemma time_back d : duration_ok d → time (set_time d) = Ok d.
Proof. intros Hd. unfold time, set_time. cbn [wt_nanos wt_secs]. rewrite (proj2 (N.leb_gt _ _) Hd). by destruct d. Qed.
Lemma time_range w d : time w = Ok d → duration_ok d.
Proof. unfold time. destruct (N.leb_spec 1000000000 (wt_nanos w)) as [| Hlt]; [done |]. intros [= <-]. exact Hlt. Qed.
Lemma attr_back a : attr_ok a → attr (set_attr a) = Ok a.
Proof. intros (Ha & Hm & Hc). unfold attr, set_attr. cbn. by rewrite !time_back, !bind_Ok by done; destruct a. Qed.
Lemma attr_range w a : attr w = Ok a → attr_ok a.
Proof. unfold attr. intros H1. result_inv. subst. split_and!; by eapply time_range. Qed.
Lemma entry_back e : entry_ok e → entry (set_entry e) = Ok e.
Proof.
  intros (Ha & Ht & Hu). unfold entry, set_entry. cbn [we_attr we_entry_ttl we_attr_ttl we_inode].
  rewrite (attr_back _ Ha), !(time_back _ Ht), !(time_back _ Hu). by destruct e.
Qed.
Lemma entry_range w e : entry w = Ok e → entry_ok e.
Proof. unfold entry. intros H1. result_inv. subst. split_and!; [by eapply attr_range | by eapply time_range..]. Qed.
Lemma opt_back o : opt (set_opt o) = o.
Proof. by destruct o. Qed.
Lemma dir_entry_back e : dir_entry (set_dir_entry e) = e.
Proof. by destruct e. Qed.
Lemma dir_entries_back (es : list DirEntry) : dir_entry <$> (set_dir_entry <$> es) = es.
Proof. induction es as [| e es IH]; [done |]. by rewrite !fmap_cons, IH, dir_entry_back. Qed.
Lemma collect_back (es : list (DirEntry * Entry)) :
  Forall (λ x, entry_ok x.2) es → collect pair_of_wire ((λ x, (set_dir_entry x.1, set_entry x.2)) <$> es) = Ok es.
Proof.
  induction 1 as [| [d e] es He _ IH]; [done |]. rewrite fmap_cons. cbn [collect fst snd].
  assert (pair_of_wire (set_dir_entry d, set_entry e) = Ok (d, e)) as Hp
    by (unfold pair_of_wire; cbn [fst snd]; rewrite (entry_back e He), bind_Ok; by rewrite dir_entry_back).
  by rewrite Hp, bind_Ok, IH.
Qed.
Lemma read_request_header r : request_sendable r → read get_wrequest (request_header r) = Ok (wire_request r).
Proof.
  intros (Hf & Hl & _). destruct (wrequest_roundtrip (wire_request r)) as (m & Hm & Hg); [done | done |].
  unfold read, request_header. by rewrite Hm, Hg.
Qed.
Lemma request_back r : request_sendable r → request (request_header r) (request_payload r) = Ok r.
Proof.
  intros Hs. unfold request. rewrite read_request_header, bind_Ok by done. destruct r; cbn; rewrite ?opt_back; done.
Qed.
Lemma reply_back r : reply_sendable r → ∃ header, reply_header r = Ok header ∧ len header <= MAX_FRAME ∧ reply header (reply_payload r) = Ok r.
Proof.
  intros (Hok & _ & w & Hw & Hf & Hl). exists (write_wreply w). unfold reply_header. rewrite Hw. split; [done |]. split; [done |].
  destruct (wreply_roundtrip w) as (m & Hm & Hg); [done | done |]. unfold reply, read. rewrite Hm, Hg. cbn [ok_or]. rewrite bind_Ok.
  destruct r; cbn in Hw; result_inv; subst; cbn [reply_of_wire reply_payload no_payload].
  all: try done.
  - rewrite entry_back by done. done.
  - destruct Hok as [Ha Ht]. by rewrite (attr_back _ Ha), (time_back _ Ht).
  - rewrite entry_back by done. done.
  - by rewrite dir_entries_back.
  - rewrite collect_back by done. done.
Qed.
Lemma collect_range ws es : collect pair_of_wire ws = Ok es → Forall (λ x, entry_ok x.2) es.
Proof.
  revert es. induction ws as [| w ws IH]; intros es; cbn [collect]; [by intros [= <-] |].
  intros (x & Hx & Hr)%bind_ok. apply bind_ok in Hr as (xs & Hxs & [= <-]). constructor; [| by apply IH].
  apply bind_ok in Hx as (e & He & [= <-]). by eapply entry_range.
Qed.
Lemma reply_of_wire_range w r : reply_of_wire w = Ok r → reply_ok r.
Proof.
  destruct w; cbn [reply_of_wire]; intros Hr; result_inv; subst; cbn; try done.
  - by eapply entry_range.
  - split; [by eapply attr_range | by eapply time_range].
  - by eapply entry_range.
  - by eapply collect_range.
Qed.
Lemma reply_range header payload r : reply header payload = Ok r → reply_ok r.
Proof.
  unfold reply. intros Hr. apply bind_ok in Hr as (w & _ & Hr). apply bind_ok in Hr as (r0 & Hr0 & Hr).
  apply reply_of_wire_range in Hr0. destruct r0; result_inv; subst; done.
Qed.
Lemma time_no_panic w : time w ≠ Panic.
Proof. unfold time. by destruct (_ <=? _). Qed.
Lemma attr_no_panic w : attr w ≠ Panic.
Proof.
  unfold attr. pose proof (time_no_panic (wa_atime w)). pose proof (time_no_panic (wa_mtime w)). pose proof (time_no_panic (wa_ctime w)).
  destruct (time (wa_atime w)); [rewrite bind_Ok | done..]. destruct (time (wa_mtime w)); [rewrite bind_Ok | done..]. by destruct (time (wa_ctime w)).
Qed.
Lemma entry_no_panic w : entry w ≠ Panic.
Proof.
  unfold entry. pose proof (attr_no_panic (we_attr w)). pose proof (time_no_panic (we_entry_ttl w)). pose proof (time_no_panic (we_attr_ttl w)).
  destruct (attr (we_attr w)); [rewrite bind_Ok | done..]. destruct (time (we_entry_ttl w)); [rewrite bind_Ok | done..]. by destruct (time (we_attr_ttl w)).
Qed.
Lemma collect_no_panic ws : collect pair_of_wire ws ≠ Panic.
Proof.
  induction ws as [| w ws IH]; [done |]. cbn [collect].
  assert (pair_of_wire w ≠ Panic) as Hp.
  { pose proof (entry_no_panic w.2). unfold pair_of_wire. by destruct (entry w.2). }
  destruct (pair_of_wire w); [rewrite bind_Ok | done..]. by destruct (collect pair_of_wire ws).
Qed.
Lemma reply_no_panic header payload : reply header payload ≠ Panic.
Proof.
  unfold reply, read. destruct (read_message header) as [[m [|]] |]; [| done..]. destruct (get_wreply m) as [w |]; [| done].
  cbn [ok_or]. rewrite bind_Ok.
  assert (reply_of_wire w ≠ Panic) as Hw.
  { destruct w; cbn [reply_of_wire]; try done.
    - pose proof (entry_no_panic entry0). by destruct (entry entry0).
    - pose proof (attr_no_panic attr0). destruct (attr attr0); [rewrite bind_Ok | done..]. pose proof (time_no_panic ttl). by destruct (time ttl).
    - pose proof (entry_no_panic entry0). by destruct (entry entry0).
    - pose proof (collect_no_panic entries). by destruct (collect pair_of_wire entries). }
  destruct (reply_of_wire w) as [r | |]; [rewrite bind_Ok | done..]. destruct r; try done; by destruct payload.
Qed.
End codec_theorems.

(** ** Sessions *)

Section sessions.
Context `{Capnp} {S : Type} (call : Request → S → option Reply * S).

(** The service asked directly. *)
Fixpoint answers (rs : list Request) (st : S) : option (list Reply) * S :=
  match rs with
  | [] => (Some [], st)
  | r :: rs =>
      match call r st with
      | (None, st) => (None, st)
      | (Some p, st) => let '(ps, st) := answers rs st in (cons p <$> ps, st)
      end
  end.
Definition fresh_writer : writer := {| written := []; room := None |}.

Lemma write_request_ok r w : request_sendable r → room w = None →
  write_request r w = Ok {| written := written w ++ request_frame r; room := None |}.
Proof.
  intros (_ & Hh & Hp) Hr. unfold write_request, write_frame, frame_len, write_all.
  by rewrite (proj2 (N.leb_le _ _) Hh), bind_Ok, (proj2 (N.leb_le _ _) Hp), bind_Ok, Hr.
Qed.
Lemma write_reply_ok p w : reply_sendable p → room w = None →
  write_reply p w = Ok {| written := written w ++ reply_frame p; room := None |}.
Proof.
  intros Hs Hr. destruct (reply_back p Hs) as (h & Hh & Hl & _). destruct Hs as (_ & Hp & _).
  unfold write_reply, reply_frame, write_frame, frame_len, write_all. rewrite Hh, bind_Ok.
  by rewrite (proj2 (N.leb_le _ _) Hl), bind_Ok, (proj2 (N.leb_le _ _) Hp), bind_Ok, Hr.
Qed.
Lemma read_request_ok s r rest : alive s → request_sendable r → stream_bytes s = request_frame r ++ rest →
  ∃ s', read_request s = Ok (Some r, s') ∧ alive s' ∧ stream_bytes s' = rest.
Proof.
  intros Hal Hs Hb. pose proof Hs as (_ & Hh & Hp). destruct (read_frame_alive s _ _ rest Hal Hh Hp Hb) as (s' & Hf & Hal' & Hb').
  exists s'. split; [| done]. unfold read_request. rewrite Hf, bind_Ok. by rewrite (request_back r Hs).
Qed.
Lemma read_reply_ok s p rest : alive s → reply_sendable p → stream_bytes s = reply_frame p ++ rest →
  ∃ s', read_reply s = Ok (p, s') ∧ alive s' ∧ stream_bytes s' = rest.
Proof.
  intros Hal Hs Hb. destruct (reply_back p Hs) as (h & Hh & Hl & Hr). pose proof Hs as (_ & Hp & _). unfold reply_frame in Hb. rewrite Hh in Hb.
  destruct (read_frame_alive s _ _ rest Hal Hl Hp Hb) as (s' & Hf & Hal' & Hb'). exists s'. split; [| done].
  unfold read_reply. rewrite Hf, bind_Ok. cbn [ok_or]. rewrite bind_Ok. by rewrite Hr.
Qed.
Lemma request_frame_long r : (8 ≤ length (request_frame r))%nat.
Proof. unfold request_frame, frame_bytes. rewrite !length_app. unfold u32_le. rewrite !length_le_bytes. lia. Qed.
Lemma request_frames_long rs : (length rs ≤ length (concat (request_frame <$> rs)))%nat.
Proof.
  induction rs as [| r rs IH]; [done |]. rewrite fmap_cons. cbn [concat length]. rewrite length_app. pose proof (request_frame_long r). lia.
Qed.
Lemma serve_loop_ok rs fuel s w st ps st' :
  answers rs st = (Some ps, st') →
  alive s → room w = None → Forall request_sendable rs → Forall reply_sendable ps →
  stream_bytes s = concat (request_frame <$> rs) → (length rs < fuel)%nat →
  serve_loop call fuel s w st = Some (Ok tt, {| written := written w ++ concat (reply_frame <$> ps); room := None |}, st').
Proof.
  revert rs s w st ps. induction fuel as [| fuel IH]; intros rs s w st ps Hans Hal Hroom Hrs Hps Hb Hf; [lia |]. cbn [serve_loop].
  destruct rs as [| r rs].
  - injection Hans as <- <-. assert (read_request s = Ok (None, s)) as -> by (unfold read_request; by rewrite read_frame_end).
    cbn. rewrite app_nil_r. by destruct w; cbn in *; subst.
  - inversion Hrs as [| ?? Hr Hrs']; subst. rewrite fmap_cons in Hb. cbn [concat] in Hb.
    destruct (read_request_ok s r _ Hal Hr Hb) as (s' & -> & Hal' & Hb').
    cbn [answers] in Hans. destruct (call r st) as [[p |] st1]; [| done]. destruct (answers rs st1) as [[ps1 |] st2] eqn:Hans1; [| done].
    injection Hans as <- <-. inversion Hps as [| ?? Hp Hps']; subst. rewrite write_reply_ok by done.
    rewrite (IH rs s' _ st1 ps1); [| done | done | done | done | done | done | cbn in Hf; lia].
    rewrite fmap_cons. cbn [concat written]. by rewrite <- app_assoc.
Qed.
Lemma remote_calls_ok rs s w st ps st' :
  answers rs st = (Some ps, st') →
  alive s → room w = None → Forall request_sendable rs → Forall reply_sendable ps →
  stream_bytes s = concat (reply_frame <$> ps) →
  ∃ s', remote_calls rs (Some {| inbound := s; outbound := w |}) =
    Ok (ps, Some {| inbound := s'; outbound := {| written := written w ++ concat (request_frame <$> rs); room := None |} |}).
Proof.
  revert s w st ps. induction rs as [| r rs IH]; intros s w st ps Hans Hal Hroom Hrs Hps Hb.
  - injection Hans as <- <-. exists s. cbn. rewrite app_nil_r. by destruct w; cbn in *; subst.
  - inversion Hrs as [| ?? Hr Hrs']; subst. cbn [answers remote_calls] in *. destruct (call r st) as [[p |] st1]; [| done].
    destruct (answers rs st1) as [[ps1 |] st2] eqn:Hans1; [| done]. injection Hans as <- <-. inversion Hps as [| ?? Hp Hps']; subst.
    rewrite fmap_cons in Hb. cbn [concat] in Hb. destruct (read_reply_ok s p _ Hal Hp Hb) as (s' & Hread & Hal' & Hb').
    assert (RemoteFs_call r (Some {| inbound := s; outbound := w |}) =
      Ok (p, Some {| inbound := s'; outbound := {| written := written w ++ request_frame r; room := None |} |})) as ->.
    { unfold RemoteFs_call, exchange. cbn [inbound outbound]. by rewrite write_request_ok, bind_Ok, Hread, bind_Ok. }
    rewrite bind_Ok. destruct (IH s' {| written := written w ++ request_frame r; room := None |} st1 ps1) as (s'' & Hc); try done.
    exists s''. rewrite Hc, bind_Ok. rewrite fmap_cons. cbn [concat written]. by rewrite <- app_assoc.
Qed.
(** A request read is at least the two lengths of its frame, so a session of finitely many
    bytes ends. *)
Lemma read_request_shorter s r s' : read_request s = Ok (Some r, s') → (length (stream_bytes s') < length (stream_bytes s))%nat.
Proof.
  unfold read_request. intros ([f s1] & Hf & Hr)%bind_ok. destruct f as [[h pl] |]; [| done].
  apply bind_ok in Hr as (? & _ & [= _ <-]). apply read_frame_sound in Hf as (-> & _ & _).
  unfold frame_bytes. rewrite !length_app. unfold u32_le. rewrite !length_le_bytes. lia.
Qed.
Lemma serve_loop_ends fuel s w st : (length (stream_bytes s) < fuel)%nat → is_Some (serve_loop call fuel s w st).
Proof.
  revert s w st. induction fuel as [| fuel IH]; intros s w st Hf; [lia |]. cbn [serve_loop].
  destruct (read_request s) as [[[r |] s'] | |] eqn:Hr; [| done..]. apply read_request_shorter in Hr.
  destruct (call r st) as [[p |] st']; [| done]. destruct (write_reply p w); [| done..]. apply IH. lia.
Qed.
Lemma serve_ends s w st : is_Some (serve call s w st).
Proof. apply serve_loop_ends. lia. Qed.
(** What every call of the service keeps, a session keeps, however it ends. *)
Lemma serve_keeps (R : relation S) `{!PreOrder R} s w st r w' st' :
  (∀ r st, R st (call r st).2) → serve call s w st = Some (r, w', st') → R st st'.
Proof.
  intros Hc. unfold serve. generalize (Datatypes.S (length (stream_bytes s))). intros fuel. revert s w st.
  induction fuel as [| fuel IH]; intros s w st; [done |]. cbn [serve_loop].
  destruct (read_request s) as [[[q |] s1] | |]; [| by intros [= _ _ <-]..]. specialize (Hc q st).
  destruct (call q st) as [[p |] st1]; cbn [snd] in Hc; [| by intros [= _ _ <-]].
  destruct (write_reply p w); [| by intros [= _ _ <-]..]. intros Hs. etrans; [exact Hc | by eapply IH].
Qed.

(** C39: The stream is transparent.  However the bytes of a session's request frames are cut
    into pieces and interrupted, the server answers every request in order, ends at the end
    of the stream and leaves the service in the state that asking it directly leaves; and a
    client whose replies arrive, however cut, gets exactly those answers, one per request, and
    has sent exactly those frames. *)
Theorem share_session_transparent rs st ps st' :
  answers rs st = (Some ps, st') → Forall request_sendable rs → Forall reply_sendable ps →
  (∀ s, alive s → stream_bytes s = concat (request_frame <$> rs) →
     ∃ w, serve call s fresh_writer st = Some (Ok tt, w, st') ∧ written w = concat (reply_frame <$> ps)) ∧
  (∀ s, alive s → stream_bytes s = concat (reply_frame <$> ps) →
     ∃ c, remote_calls rs (Some {| inbound := s; outbound := fresh_writer |}) = Ok (ps, Some c) ∧
       written (outbound c) = concat (request_frame <$> rs)).
Proof.
  intros Hans Hrs Hps. split; intros s Hal Hb.
  - unfold serve. rewrite (serve_loop_ok rs _ _ _ _ ps st'); [by eexists | done..|].
    rewrite Hb. pose proof (request_frames_long rs). lia.
  - destruct (remote_calls_ok rs s fresh_writer st ps st' Hans Hal) as (s' & ->); try done. by eexists.
Qed.

(** C40: Whatever the peer sends, a call ends, and never with a guess.  Either the answer is
    the reply of the one frame that stood next on the stream, with its times in range, and
    the request was sent after everything sent before; or the call answers the I/O error and
    the connection is gone, after which every call answers the same without sending. *)
Theorem remote_call_fails_closed r (fs : RemoteFs) :
  ∃ p fs', RemoteFs_call r fs = Ok (p, fs') ∧
    match fs' with
    | None => p = RpError LINUX_EIO ∧ ∀ r', RemoteFs_call r' fs' = Ok (RpError LINUX_EIO, None)
    | Some c' => ∃ c header payload, fs = Some c ∧
        stream_bytes (inbound c) = frame_bytes header payload ++ stream_bytes (inbound c') ∧
        len header <= MAX_FRAME ∧ len payload <= MAX_FRAME ∧
        reply header payload = Ok p ∧ reply_ok p ∧
        written (outbound c') = written (outbound c) ++ request_frame r
    end.
Proof.
  destruct fs as [c |]; [| by exists (RpError LINUX_EIO), None]. unfold RemoteFs_call.
  assert (∀ p c', exchange r c = Ok (p, c') → ∃ header payload,
    stream_bytes (inbound c) = frame_bytes header payload ++ stream_bytes (inbound c') ∧ len header <= MAX_FRAME ∧ len payload <= MAX_FRAME ∧
    reply header payload = Ok p ∧ reply_ok p ∧ written (outbound c') = written (outbound c) ++ request_frame r) as Hok.
  { intros p c'. unfold exchange. intros (w & Hw & He)%bind_ok. apply bind_ok in He as ([p' s'] & Hr & [= <- <-]).
    unfold read_reply in Hr. apply bind_ok in Hr as ([f s1] & Hf & Hr). apply bind_ok in Hr as ([h pl] & Hfo & Hr).
    apply bind_ok in Hr as (p1 & Hp & [= -> ->]). destruct f as [[h' pl'] |]; [| done]. injection Hfo as -> ->.
    apply read_frame_sound in Hf as (Hb & Hl1 & Hl2). exists h, pl. split_and!; try done; [by eapply reply_range |].
    unfold write_request, write_frame in Hw. apply bind_ok in Hw as (? & _ & Hw). apply bind_ok in Hw as (? & _ & Hw).
    unfold write_all in Hw. destruct (room (outbound c)) as [n |]; [| by injection Hw as <-].
    destruct (len _ <=? n); [by injection Hw as <- | done]. }
  destruct (exchange r c) as [[p c'] | e |] eqn:He.
  - exists p, (Some c'). split; [done |]. destruct (Hok p c' eq_refl) as (h & pl & Hrest). by exists c, h, pl.
  - by exists (RpError LINUX_EIO), None.
  - exfalso. clear Hok. unfold exchange in He. destruct (write_request r (outbound c)) as [w | |] eqn:Hw; [| done |].
    + rewrite bind_Ok in He. unfold read_reply in He. destruct (read_frame (inbound c)) as [[[[h pl] |] s] | |] eqn:Hf.
      * rewrite bind_Ok in He. cbn [ok_or] in He. rewrite bind_Ok in He.
        assert (reply h pl ≠ Panic) as Hnp by apply reply_no_panic. destruct (reply h pl); [done | done | congruence].
      * done.
      * done.
      * by apply read_frame_no_panic in Hf.
    + unfold write_request, write_frame, frame_len, write_all in Hw. destruct (len (request_header r) <=? MAX_FRAME); [| done]. rewrite bind_Ok in Hw.
      destruct (len (request_payload r) <=? MAX_FRAME); [| done]. rewrite bind_Ok in Hw. destruct (room (outbound c)); [| done]. by destruct (len _ <=? n).
Qed.
End sessions.

(** Two requests and three replies in one byte each. *)
Module OneByte.
Definition write_request_byte (w : wrequest) : list byte := match w with WqInit => [x00] | _ => [x01] end.
Definition write_reply_byte (w : wreply) : list byte := match w with WpInit _ => [x02] | WpWritten _ => [x03] | _ => [x04] end.
Definition read_byte (bs : list byte) : option (byte * list byte) := match bs with [] => None | b :: rest => Some (b, rest) end.
Definition get_request_byte (b : byte) : option wrequest := match b with x00 => Some WqInit | x01 => Some (WqWrite 3 0) | _ => None end.
Definition get_reply_byte (b : byte) : option wreply := match b with x02 => Some (WpInit 0) | x03 => Some (WpWritten 2) | x04 => Some WpData | _ => None end.
Definition request_fits (w : wrequest) : Prop := w = WqInit ∨ w = WqWrite 3 0.
Definition reply_fits (w : wreply) : Prop := w = WpInit 0 ∨ w = WpWritten 2 ∨ w = WpData.
Lemma request_byte_back w : request_fits w → len (write_request_byte w) <= MAX_FRAME →
  ∃ m, read_byte (write_request_byte w) = Some (m, []) ∧ get_request_byte m = Some w.
Proof. intros [-> | ->] _; by eexists. Qed.
Lemma reply_byte_back w : reply_fits w → len (write_reply_byte w) <= MAX_FRAME →
  ∃ m, read_byte (write_reply_byte w) = Some (m, []) ∧ get_reply_byte m = Some w.
Proof. intros [-> | [-> | ->]] _; by eexists. Qed.
#[export] Instance capnp : Capnp := {
  message := byte; write_wrequest := write_request_byte; write_wreply := write_reply_byte; read_message := read_byte;
  get_wrequest := get_request_byte; get_wreply := get_reply_byte; wrequest_fits := request_fits; wreply_fits := reply_fits;
  wrequest_roundtrip := request_byte_back; wreply_roundtrip := reply_byte_back;
}.
End OneByte.

(** Counting the bytes written. *)
Definition counting_service (r : Request) (n : N) : option Reply * N :=
  match r with RqWrite _ _ data => (Some (RpWritten (len data)), n + len data) | _ => (Some (RpInit 0), n) end.
Definition sample_session : list Request := [RqInit; RqWrite 3 0 [x41; x42]].
(** The bytes of the session in one piece. *)
Definition sample_stream : stream := [Interrupted; Bytes (concat (@request_frame OneByte.capnp <$> sample_session))].
Lemma share_session_transparent_witness :
  ∃ w, @serve OneByte.capnp N counting_service sample_stream fresh_writer 0 = Some (Ok tt, w, 2) ∧ len (written w) = 18.
Proof.
  destruct (@share_session_transparent OneByte.capnp N counting_service sample_session 0 [RpInit 0; RpWritten 2] 2) as [Hs _].
  - reflexivity.
  - constructor; [| constructor; [| constructor]]; (split; [| split; vm_compute; congruence]); [by left | by right].
  - constructor; [| constructor; [| constructor]].
    + split; [done |]. split; [vm_compute; congruence |]. eexists. split; [reflexivity |]. split; [by left | vm_compute; congruence].
    + split; [done |]. split; [vm_compute; congruence |]. eexists. split; [reflexivity |]. split; [by right; left | vm_compute; congruence].
  - destruct (Hs sample_stream) as (w & Hw & Hb); [by repeat constructor | reflexivity |].
    exists w. split; [exact Hw |]. rewrite Hb. reflexivity.
Defined.
