(* ===== verification/Tree.v ===== *)
(** * The store's manifest

    [rs/ll-open/cli-lib/src/tree.rs]: one row of [_tree] per path the store holds,
    a file with a git mode and a blob hash, or a directory.  Rows are decoded on
    every read.  Paths are their UTF-8 bytes; the [_tree], [_parse_diagnostics] and
    [source_blobs] tables are maps from their primary keys, read in key order. *)

From S2P Require Import Prelude Substrate.
From Stdlib Require Import NArith Lia.
Local Open Scope N_scope.

Abbreviation path := (list byte).
Definition slash : byte := x2f.

(** ** Keys in order

    [BTreeMap] iteration, and the primary-key order of the tables. *)

Definition path_le (p q : path) : Prop := bytes_leb p q = true.
#[global] Instance path_le_dec : RelDecision path_le := λ p q, decide (bytes_leb p q = true).
#[global] Instance path_le_trans : Transitive path_le.
Proof. intros ???. apply bytes_leb_trans. Qed.
#[global] Instance path_le_total : Total path_le.
Proof. intros p q. apply bytes_leb_total. Qed.
#[global] Instance path_le_antisym : AntiSymm (=) path_le.
Proof. intros p q. apply bytes_leb_antisym. Qed.

Definition sorted_keys {A} (m : gmap path A) : list path := merge_sort path_le (map_to_list m).*1.
(** [map.iter()] *)
Definition sorted_pairs {A} (m : gmap path A) : list (path * A) :=
  omap (λ p, (λ a, (p, a)) <$> m !! p) (sorted_keys m).

(** ** Modes *)

Inductive Mode := Regular | Executable | Symlink.
Inductive GitMode := GRegular | GExecutable | GSymlink | GDirectory.
#[global] Instance Mode_eq_dec : EqDecision Mode.
Proof. solve_decision. Defined.
#[global] Instance GitMode_eq_dec : EqDecision GitMode.
Proof. solve_decision. Defined.

Definition DIRECTORY_MODE : N := 16384.   (* 0o040000 *)

Definition Mode_git (m : Mode) : N :=
  match m with Regular => 33188 | Executable => 33261 | Symlink => 40960 end.
Definition Mode_from_git (mode : N) : option Mode :=
  if mode =? 33188 then Some Regular
  else if mode =? 33261 then Some Executable
  else if mode =? 40960 then Some Symlink
  else None.

(** [format!("{:o}", n)]; eleven octal digits hold a [u32]. *)
Fixpoint octal_digits (fuel : nat) (n : N) (acc : list byte) : list byte :=
  match fuel with
  | O => acc
  | S fuel =>
      let acc := byte_of_N (48 + n mod 8) :: acc in
      if n / 8 =? 0 then acc else octal_digits fuel (n / 8) acc
  end.
Definition Mode_octal (m : Mode) : list byte := octal_digits 11 (Mode_git m) [].

(** [u32::from_str_radix(text, 8)]: an optional plus sign, then at least one
    digit; overflow is an error. *)
Fixpoint octal_value (acc : N) (text : list byte) : option N :=
  match text with
  | [] => Some acc
  | c :: text =>
      let d := Byte.to_N c in
      if (48 <=? d) && (d <=? 55) && (acc * 8 + (d - 48) <=? u32_max)
      then octal_value (acc * 8 + (d - 48)) text else None
  end.
Definition u32_from_octal (text : list byte) : option N :=
  let digits := match text with c :: rest => if bool_decide (c = x2b) then rest else text | [] => [] end in
  match digits with [] => None | _ => octal_value 0 digits end.
Definition Mode_from_octal (text : list byte) : option Mode := u32_from_octal text ≫= Mode_from_git.

Definition GitMode_of (m : Mode) : GitMode :=
  match m with Regular => GRegular | Executable => GExecutable | Symlink => GSymlink end.
Definition GitMode_git (m : GitMode) : N :=
  match m with
  | GRegular => Mode_git Regular | GExecutable => Mode_git Executable
  | GSymlink => Mode_git Symlink | GDirectory => DIRECTORY_MODE
  end.
Definition GitMode_from_git (mode : N) : option GitMode :=
  if mode =? DIRECTORY_MODE then Some GDirectory else GitMode_of <$> Mode_from_git mode.
Definition file_mode (m : GitMode) : option Mode :=
  match m with
  | GRegular => Some Regular | GExecutable => Some Executable | GSymlink => Some Symlink
  | GDirectory => None
  end.

(** ** Entries and rows *)

Inductive Entry := EFile (mode : Mode) (blob : Hash) | EDir.
#[global] Instance Entry_eq_dec : EqDecision Entry.
Proof. solve_decision. Defined.

Definition Entry_mode (e : Entry) : GitMode :=
  match e with EFile mode _ => GitMode_of mode | EDir => GDirectory end.
Definition Entry_git_mode (e : Entry) : N := GitMode_git (Entry_mode e).
Definition Entry_blob (e : Entry) : option Hash :=
  match e with EFile _ blob => Some blob | EDir => None end.

Record tree_row := {
  tr_mode : N;
  tr_blob : option (list byte);
  tr_mtime : option Z;
  tr_size : option Z;
}.
Record diag_row := {
  dr_blob : list byte;
  dr_projected : bool;
  dr_start_byte : option Z;
  dr_end_byte : option Z;
  dr_start_row : option Z;
  dr_start_col : option Z;
  dr_message : list byte;
}.
Record Diagnostic := {
  d_path : path;
  d_blob : Hash;
  d_projected : bool;
  d_span : option (Z * Z * Z * Z);
  d_message : list byte;
}.

(** The tables of the arena that the manifest lives in. *)
Record store := {
  t_tree : gmap path tree_row;
  t_diag : gmap path diag_row;
  t_blobs : gmap (list byte) (list byte);
}.
Definition with_tree (t : gmap path tree_row) (s : store) : store :=
  {| t_tree := t; t_diag := t_diag s; t_blobs := t_blobs s |}.
Definition with_diag (d : gmap path diag_row) (s : store) : store :=
  {| t_tree := t_tree s; t_diag := d; t_blobs := t_blobs s |}.

Inductive tree_error :=
| NotAGitMode (p : path) (mode : N)
| NoBlobHash (p : path)
| BlobHashLength (p : path) (n : N)
| DiagColumns (p : path)
| DiagHashLength (p : path)
| DiagExists (p : path).

(** ** Reading *)

Definition decode (p : path) (r : tree_row) : result tree_error Entry :=
  git ← ok_or (GitMode_from_git (tr_mode r)) (NotAGitMode p (tr_mode r));
  match file_mode git with
  | None => mret EDir
  | Some mode =>
      bytes ← ok_or (tr_blob r) (NoBlobHash p);
      blob ← ok_or (Hash_try_from bytes) (BlobHashLength p (len bytes));
      mret (EFile mode blob)
  end.

(** Rows decoded one after the other; the first bad row stops the read. *)
Fixpoint decode_rows (rows : list (path * tree_row)) : result tree_error (list (path * Entry)) :=
  match rows with
  | [] => Ok []
  | (p, r) :: rows =>
      e ← decode p r;
      es ← decode_rows rows;
      mret ((p, e) :: es)
  end.

Definition entries (s : store) : result tree_error (gmap path Entry) :=
  list_to_map <$> decode_rows (sorted_pairs (t_tree s)).
Definition entry (s : store) (p : path) : result tree_error (option Entry) :=
  match t_tree s !! p with
  | None => Ok None
  | Some r => Some <$> decode p r
  end.
Definition under (s : store) (dir : path) : result tree_error (list (path * Entry)) :=
  decode_rows (filter (λ x, (dir ++ [slash]) `prefix_of` x.1) (sorted_pairs (t_tree s))).

(** [parents]: the text before each ['/'], outermost first. *)
Definition parents (p : path) : list path :=
  omap (λ i, if bool_decide (p !! i = Some slash) then Some (take i p) else None) (seq 0 (length p)).

Definition stats (s : store) : gmap path (Z * Z) :=
  omap (λ r, match tr_mtime r, tr_size r with Some m, Some n => Some (m, n) | _, _ => None end) (t_tree s).
Definition blob_bytes (s : store) (blob : Hash) : option (list byte) := t_blobs s !! as_bytes blob.

(** ** Writing *)

Definition dir_row : tree_row :=
  {| tr_mode := DIRECTORY_MODE; tr_blob := None; tr_mtime := None; tr_size := None |}.
Definition file_row (mode : Mode) (blob : Hash) (stat : option (Z * Z)) : tree_row := {|
  tr_mode := Mode_git mode; tr_blob := Some (as_bytes blob);
  tr_mtime := fst <$> stat; tr_size := snd <$> stat |}.

Definition put_one_dir (s : store) (p : path) : store := with_tree (<[p := dir_row]> (t_tree s)) s.
Definition put_parents (p : path) (s : store) : store := foldl put_one_dir s (parents p).
Definition put_dir (p : path) (s : store) : store := put_one_dir (put_parents p s) p.
Definition put_file (p : path) (mode : Mode) (blob : Hash) (stat : option (Z * Z)) (s : store) : store :=
  let s := put_parents p s in with_tree (<[p := file_row mode blob stat]> (t_tree s)) s.
Definition remove (p : path) (s : store) : store :=
  with_diag (delete p (t_diag s)) (with_tree (delete p (t_tree s)) s).

Definition diag_row_of (d : Diagnostic) : diag_row := {|
  dr_blob := as_bytes (d_blob d); dr_projected := d_projected d;
  dr_start_byte := (λ '(a, _, _, _), a) <$> d_span d;
  dr_end_byte := (λ '(_, b, _, _), b) <$> d_span d;
  dr_start_row := (λ '(_, _, c, _), c) <$> d_span d;
  dr_start_col := (λ '(_, _, _, e), e) <$> d_span d;
  dr_message := d_message d |}.
(** [DELETE] of the path's row, then [INSERT] of the new one, whose key is the
    diagnostic's own path. *)
Definition set_diagnostic (p : path) (diagnostic : option Diagnostic) (s : store) : result tree_error store :=
  let cleared := delete p (t_diag s) in
  match diagnostic with
  | None => Ok (with_diag cleared s)
  | Some d =>
      match cleared !! d_path d with
      | Some _ => Err (DiagExists (d_path d))
      | None => Ok (with_diag (<[d_path d := diag_row_of d]> cleared) s)
      end
  end.
Definition diagnostic (s : store) (p : path) : result tree_error (option Diagnostic) :=
  match t_diag s !! p with
  | None => Ok None
  | Some r =>
      span ← match dr_start_byte r with
             | None => mret None
             | Some a =>
                 match dr_end_byte r, dr_start_row r, dr_start_col r with
                 | Some b, Some c, Some e => mret (Some (a, b, c, e))
                 | _, _, _ => Err (DiagColumns p)
                 end
             end;
      blob ← ok_or (Hash_try_from (dr_blob r)) (DiagHashLength p);
      mret (Some {| d_path := p; d_blob := blob; d_projected := dr_projected r; d_span := span;
                    d_message := dr_message r |})
  end.

(** ** Order and membership of rows *)

Lemma elem_of_sorted_keys {A} (m : gmap path A) p : p ∈ sorted_keys m ↔ is_Some (m !! p).
Proof.
  unfold sorted_keys. rewrite merge_sort_Permutation, list_elem_of_fmap. split.
  - intros ([q a] & -> & Hin%elem_of_map_to_list). by exists a.
  - intros [a Ha%elem_of_map_to_list]. by exists (p, a).
Qed.
Lemma NoDup_sorted_keys {A} (m : gmap path A) : NoDup (sorted_keys m).
Proof. unfold sorted_keys. rewrite merge_sort_Permutation. apply NoDup_fst_map_to_list. Qed.
Lemma Sorted_sorted_keys {A} (m : gmap path A) : Sorted path_le (sorted_keys m).
Proof. apply Sorted_merge_sort, _. Qed.
Lemma elem_of_sorted_pairs {A} (m : gmap path A) p a : (p, a) ∈ sorted_pairs m ↔ m !! p = Some a.
Proof.
  unfold sorted_pairs. rewrite list_elem_of_omap. split.
  - intros (q & _ & (b & Hb & [= -> ->])%fmap_Some). done.
  - intros Ha. exists p. rewrite Ha. split; [by apply elem_of_sorted_keys; rewrite Ha | done].
Qed.
Lemma sorted_pairs_fst {A} (m : gmap path A) : (sorted_pairs m).*1 = sorted_keys m.
Proof.
  unfold sorted_pairs. pose proof (λ p, proj1 (elem_of_sorted_keys m p)) as Hin.
  induction (sorted_keys m) as [| p ps IH]; [done |]. simpl.
  destruct (Hin p (list_elem_of_here _ _)) as [a Ha]. rewrite Ha. simpl. f_equal. apply IH.
  intros q Hq. apply Hin. by right.
Qed.
(** Iteration depends on the map alone. *)
Lemma sorted_keys_unique {A B : Type} (m : gmap path A) (m' : gmap path B) :
  (∀ p, is_Some (m !! p) ↔ is_Some (m' !! p)) → sorted_keys m = sorted_keys m'.
Proof.
  intros Hdom. apply (Sorted_unique path_le); [apply Sorted_sorted_keys.. |].
  apply NoDup_Permutation; [apply NoDup_sorted_keys.. |]. intros p. by rewrite !elem_of_sorted_keys.
Qed.

(** ** Directories above a path *)

Lemma elem_of_parents d p : d ∈ parents p ↔ ∃ rest, p = d ++ slash :: rest.
Proof.
  unfold parents. rewrite list_elem_of_omap. split.
  - intros (i & _ & Hi). case_bool_decide as Hs; [| done]. injection Hi as <-.
    exists (drop (S i) p). symmetry. by apply take_drop_middle.
  - intros [rest ->]. exists (length d). rewrite elem_of_seq, length_app. simpl. split; [lia |].
    rewrite lookup_app_r, Nat.sub_diag by done. rewrite bool_decide_true by done.
    by rewrite take_app_length.
Qed.
Lemma parents_prefix d p : d ∈ parents p ↔ (d ++ [slash]) `prefix_of` p.
Proof.
  rewrite elem_of_parents. split.
  - intros [rest ->]. exists rest. by rewrite <- (assoc_L (++)).
  - intros [rest ->]. exists rest. by rewrite <- (assoc_L (++)).
Qed.
Lemma parents_trans d e p : d ∈ parents e → e ∈ parents p → d ∈ parents p.
Proof.
  rewrite !elem_of_parents. intros [r ->] [r' ->]. exists (r ++ slash :: r').
  by rewrite <- (assoc_L (++)).
Qed.
Lemma parents_length d p : d ∈ parents p → (length d < length p)%nat.
Proof. rewrite elem_of_parents. intros [r ->]. rewrite length_app. simpl. lia. Qed.
Lemma parents_irrefl p : p ∉ parents p.
Proof. intros ?%parents_length. lia. Qed.
#[export] Hint Resolve parents_irrefl parents_trans : leyline.

(** ** Decoding *)

Lemma Mode_octal_roundtrip m : Mode_from_octal (Mode_octal m) = Some m.
Proof. by destruct m. Qed.
Lemma GitMode_roundtrip m : GitMode_from_git (GitMode_git m) = Some m.
Proof. by destruct m. Qed.
Lemma GitMode_git_inj m m' : GitMode_git m = GitMode_git m' → m = m'.
Proof. intros E. apply (f_equal GitMode_from_git) in E. rewrite !GitMode_roundtrip in E. by injection E. Qed.
Lemma decode_dir_row p : decode p dir_row = Ok EDir.
Proof. done. Qed.
Lemma decode_file_row p mode blob stat : decode p (file_row mode blob stat) = Ok (EFile mode blob).
Proof.
  unfold decode, file_row. cbn [tr_mode tr_blob].
  destruct mode; cbn -[Hash_try_from as_bytes]; by rewrite Hash_try_from_as_bytes.
Qed.

(** A manifest the store's rows decode to. *)
Definition manifest (s : store) (m : gmap path Entry) : Prop := ∀ p, entry s p = Ok (m !! p).

Lemma manifest_lookup s m p r : manifest s m → t_tree s !! p = Some r → ∃ e, decode p r = Ok e ∧ m !! p = Some e.
Proof.
  intros Hm Hr. specialize (Hm p). unfold entry in Hm. rewrite Hr in Hm.
  destruct (decode p r) as [e | |]; simpl in Hm; [| done..]. injection Hm as <-. eauto.
Qed.
Lemma manifest_dom s m p : manifest s m → is_Some (t_tree s !! p) ↔ is_Some (m !! p).
Proof.
  intros Hm. split.
  - intros [r Hr]. destruct (manifest_lookup _ _ _ _ Hm Hr) as (e & _ & ->). eauto.
  - intros [e He]. specialize (Hm p). unfold entry in Hm. destruct (t_tree s !! p); [eauto | congruence].
Qed.

Lemma decode_rows_spec (s : store) m (P : path * tree_row → Prop) (Q : path * Entry → Prop)
    `{!∀ x, Decision (P x), !∀ x, Decision (Q x)} :
  manifest s m → (∀ p r e, P (p, r) ↔ Q (p, e)) →
  decode_rows (filter P (sorted_pairs (t_tree s))) = Ok (filter Q (sorted_pairs m)).
Proof.
  intros Hm HPQ. unfold sorted_pairs.
  rewrite <- (sorted_keys_unique (t_tree s) m) by (intros; by apply manifest_dom).
  induction (sorted_keys (t_tree s)) as [| p ps IH]; [done |]. csimpl.
  destruct (t_tree s !! p) as [r |] eqn:Hr; csimpl.
  - destruct (manifest_lookup _ _ _ _ Hm Hr) as (e & He & ->). csimpl.
    destruct (decide (P (p, r))) as [HP | HP].
    + rewrite !filter_cons_True by (done || by eapply HPQ). cbn [decode_rows]. by rewrite He, bind_Ok, IH.
    + rewrite !filter_cons_False by (done || by rewrite <- HPQ). done.
  - specialize (Hm p). unfold entry in Hm. rewrite Hr in Hm. injection Hm as <-. done.
Qed.

Lemma list_to_map_sorted_pairs (m : gmap path Entry) : list_to_map (sorted_pairs m) = m.
Proof.
  apply map_eq. intros p. destruct (m !! p) as [e |] eqn:He.
  - apply elem_of_list_to_map; [by rewrite sorted_pairs_fst; apply NoDup_sorted_keys |].
    by apply elem_of_sorted_pairs.
  - apply not_elem_of_list_to_map. rewrite sorted_pairs_fst, elem_of_sorted_keys, He. by intros [].
Qed.
Lemma filter_True {A} (l : list A) : filter (λ _, True) l = l.
Proof. by apply filter_all. Qed.

(** [entries] reads the manifest, and fails exactly when some row is not one. *)
Lemma entries_manifest s m : manifest s m → entries s = Ok m.
Proof.
  intros Hm. unfold entries.
  rewrite <- (filter_True (sorted_pairs (t_tree s))), (decode_rows_spec s m (λ _, True) (λ _, True)), filter_True
    by done.
  simpl. by rewrite list_to_map_sorted_pairs.
Qed.
Lemma under_manifest s m dir :
  manifest s m → under s dir = Ok (filter (λ x, (dir ++ [slash]) `prefix_of` x.1) (sorted_pairs m)).
Proof. intros Hm. by apply decode_rows_spec. Qed.
Lemma decode_rows_inv rows es :
  decode_rows rows = Ok es → Forall2 (λ x y, x.1 = y.1 ∧ decode x.1 x.2 = Ok y.2) rows es.
Proof.
  revert es. induction rows as [| [p r] rows IH]; simpl; intros es H; result_inv; subst; constructor; auto.
Qed.
Lemma entries_inv s m : entries s = Ok m → manifest s m.
Proof.
  unfold entries. destruct (decode_rows (sorted_pairs (t_tree s))) as [es | |] eqn:He; simpl; [| done..].
  intros [= <-] p. apply decode_rows_inv in He.
  assert (es.*1 = sorted_keys (t_tree s)) as Hfst.
  { rewrite <- sorted_pairs_fst. clear -He. induction He as [| x y ? ? [E _] _ IH]; csimpl; [done |]. by rewrite E, IH. }
  unfold entry. destruct (t_tree s !! p) as [r |] eqn:Hr.
  - apply elem_of_sorted_pairs in Hr. apply list_elem_of_lookup in Hr as [i Hi].
    destruct (Forall2_lookup_l _ _ _ _ _ He Hi) as ([q e] & Hj & Hp & Hd). simpl in *. subst q.
    rewrite Hd. simpl. do 2 f_equal. symmetry. apply elem_of_list_to_map.
    + rewrite Hfst. apply NoDup_sorted_keys.
    + by eapply list_elem_of_lookup_2.
  - f_equal. symmetry. apply not_elem_of_list_to_map. rewrite Hfst, elem_of_sorted_keys, Hr. by intros [].
Qed.

(** ** Writes as changes of the manifest *)

Definition add_dirs (ds : list path) (m : gmap path Entry) : gmap path Entry := foldl (λ m d, <[d := EDir]> m) m ds.

Lemma lookup_add_dirs ds m p : add_dirs ds m !! p = if bool_decide (p ∈ ds) then Some EDir else m !! p.
Proof.
  revert m. induction ds as [| d ds IH]; intros m; [done |]. simpl. rewrite IH.
  destruct (decide (d = p)) as [-> | Hne].
  - rewrite (bool_decide_true (p ∈ p :: ds)) by left. case_bool_decide; [done | by rewrite lookup_insert_eq].
  - rewrite lookup_insert_ne by done. repeat case_bool_decide; try done; set_solver.
Qed.

Lemma entry_insert s p r q :
  entry (with_tree (<[p := r]> (t_tree s)) s) q = if decide (q = p) then Some <$> decode p r else entry s q.
Proof.
  unfold entry. simpl. case_decide as E; [subst; by rewrite lookup_insert_eq | by rewrite lookup_insert_ne].
Qed.
Lemma manifest_insert s m p r e :
  manifest s m → decode p r = Ok e → manifest (with_tree (<[p := r]> (t_tree s)) s) (<[p := e]> m).
Proof.
  intros Hm Hd q. rewrite entry_insert. case_decide as E.
  - subst. by rewrite lookup_insert_eq, Hd.
  - by rewrite lookup_insert_ne.
Qed.
Lemma manifest_put_dirs s m ds : manifest s m → manifest (foldl put_one_dir s ds) (add_dirs ds m).
Proof. revert s m. induction ds as [| d ds IH]; simpl; intros s m Hm; [done |]. apply IH. by apply manifest_insert. Qed.
Lemma manifest_put_file s m p mode blob stat :
  manifest s m → manifest (put_file p mode blob stat s) (<[p := EFile mode blob]> (add_dirs (parents p) m)).
Proof.
  intros Hm. unfold put_file. apply manifest_insert; [by apply manifest_put_dirs | apply decode_file_row].
Qed.
Lemma manifest_put_dir s m p : manifest s m → manifest (put_dir p s) (<[p := EDir]> (add_dirs (parents p) m)).
Proof. intros Hm. apply manifest_insert; [by apply manifest_put_dirs | done]. Qed.
Lemma manifest_remove s m p : manifest s m → manifest (remove p s) (delete p m).
Proof.
  intros Hm q. specialize (Hm q). unfold entry, remove in *. simpl.
  destruct (decide (q = p)) as [-> | ?]; [by rewrite !lookup_delete_eq | by rewrite !lookup_delete_ne].
Qed.
Lemma manifest_ext s s' m : t_tree s' = t_tree s → manifest s m → manifest s' m.
Proof. intros E Hm p. specialize (Hm p). unfold entry in *. by rewrite E. Qed.
#[export] Hint Resolve manifest_put_file manifest_put_dir manifest_remove : leyline.

(** The directory set is closed under parents. *)
Definition closed (m : gmap path Entry) : Prop :=
  ∀ p d, is_Some (m !! p) → d ∈ parents p → m !! d = Some EDir.
(** No entry lies under [p]. *)
Definition vacant (m : gmap path Entry) (p : path) : Prop := ∀ q, p ∈ parents q → m !! q = None.

Lemma closed_put m p e :
  closed m → (e = EDir ∨ vacant m p) → closed (<[p := e]> (add_dirs (parents p) m)).
Proof.
  intros Hc He q d Hq Hd.
  assert (p ∈ parents q → e = EDir) as Hpq.
  { intros Hp. destruct He as [He | Hv]; [done |]. exfalso.
    rewrite lookup_insert_ne, lookup_add_dirs in Hq by (intros ->; by apply parents_irrefl in Hp).
    case_bool_decide as Hin.
    - apply (parents_irrefl p). by eapply parents_trans.
    - rewrite Hv in Hq by done. by destruct Hq. }
  destruct (decide (d = p)) as [-> | Hdp].
  { rewrite lookup_insert_eq. f_equal. by apply Hpq. }
  rewrite lookup_insert_ne, lookup_add_dirs by done. case_bool_decide as Hin; [done |].
  destruct (decide (q = p)) as [-> | Hqp]; [done |].
  rewrite lookup_insert_ne, lookup_add_dirs in Hq by done. case_bool_decide as Hin'.
  - exfalso. apply Hin. by eapply parents_trans.
  - by eapply Hc.
Qed.
Lemma closed_delete m p : closed m → vacant m p → closed (delete p m).
Proof.
  intros Hc Hv q d [e Hq] Hd. apply lookup_delete_Some in Hq as [Hne Hq].
  rewrite lookup_delete_ne; [eapply Hc; eauto |]. intros ->. rewrite Hv in Hq; done.
Qed.
(** In a closed manifest only directories have entries under them. *)
Lemma closed_vacant m p : closed m → m !! p ≠ Some EDir → vacant m p.
Proof.
  intros Hc Hp q Hq. destruct (m !! q) eqn:E; [| done]. exfalso. apply Hp. eapply Hc; eauto.
Qed.

(** What a read back finds after a write: the entry, its stat, its parents. *)
Lemma put_file_reads_back s p mode blob stat :
  entry (put_file p mode blob stat s) p = Ok (Some (EFile mode blob))
  ∧ stats (put_file p mode blob stat s) !! p = stat
  ∧ (∀ d, d ∈ parents p → entry (put_file p mode blob stat s) d = Ok (Some EDir))
  ∧ (∀ q, q ≠ p → q ∉ parents p → entry (put_file p mode blob stat s) q = entry s q).
Proof.
  assert (∀ ds s q, entry (foldl put_one_dir s ds) q = if bool_decide (q ∈ ds) then Ok (Some EDir) else entry s q)
    as Hds.
  { clear. induction ds as [| d ds IH]; intros s q; [done |]. simpl. rewrite IH. unfold put_one_dir.
    rewrite entry_insert. repeat case_bool_decide; try case_decide; subst; try done; set_solver. }
  unfold put_file, put_parents. split_and!.
  - by rewrite entry_insert, decide_True, decode_file_row by done.
  - unfold stats. rewrite lookup_omap. simpl. rewrite lookup_insert_eq. by destruct stat as [[]|].
  - intros d Hd. rewrite entry_insert, decide_False, Hds by (intros ->; by apply parents_irrefl in Hd).
    by rewrite bool_decide_true.
  - intros q Hq Hd. rewrite entry_insert, decide_False, Hds by done. by rewrite bool_decide_false.
Qed.
Lemma set_diagnostic_reads_back s p d :
  d_path d = p → ∃ s', set_diagnostic p (Some d) s = Ok s' ∧ diagnostic s' p = Ok (Some d) ∧ t_tree s' = t_tree s.
Proof.
  intros <-. unfold set_diagnostic. rewrite lookup_delete_eq. eexists. split_and!; [done | | done].
  unfold diagnostic. simpl. rewrite lookup_insert_eq. unfold diag_row_of. simpl.
  destruct d as [p b pr [[[[]]] |] msg]; simpl; by rewrite Hash_try_from_as_bytes.
Qed.
