(* ===== verification/TreeRoot.v ===== *)
(** * The identity of a tree

    [rs/ll-open/cli-lib/src/tree_root.rs]: the leaves of a manifest (its files and
    its empty directories), the fold that names them ([treeRoot]), the fold that
    names the parser ([parserId]), and the stamp a projection carries.  Both folds
    are partition addresses ([Partition]) over row sets. *)

From S2P Require Import Prelude Substrate Text Partition Tree.
From Stdlib Require Import NArith Lia.
Local Open Scope N_scope.

Definition TREE_ROOT_SCHEME : list byte := bytes_of "leyline/tree-root/v1".
Definition PARSER_ID_SCHEME : list byte := bytes_of "leyline/parser-id/v1".

(** ** The parser's identity *)

Record ParserInputs := {
  ir_schema_version : list byte;
  projection_schema_version : list byte;
  extraction_epoch : list byte;
  injection_epoch : list byte;
  query_set_epoch : list byte;
  grammars : list (list byte * Hash);
}.

Definition scalar `{Blake3} (kind : N) (value : list byte) : Partition.Entry :=
  {| addr := content_hash value; ea := kind; eb := len value |}.
Definition parser_entries `{Blake3} (i : ParserInputs) : list Partition.Entry :=
  [scalar 0 (ir_schema_version i); scalar 1 (projection_schema_version i);
   scalar 2 (extraction_epoch i); scalar 3 (injection_epoch i); scalar 4 (query_set_epoch i)]
  ++ ((λ '(name, digest), {| addr := digest; ea := 5; eb := len name |}) <$> grammars i).
Definition parser_spec : PartitionSpec :=
  {| domain := RowSet; scheme := PARSER_ID_SCHEME; params := []; canon_version := 1 |}.
Definition parser_id_of `{Blake3} (i : ParserInputs) : Hash := address parser_spec (parser_entries i).

(** ** Leaves *)

Record TreeLeaf := { tl_path : path; tl_mode : GitMode; tl_content : Hash }.
#[global] Instance TreeLeaf_eq_dec : EqDecision TreeLeaf.
Proof. solve_decision. Defined.

Definition mode_tag (mode : GitMode) : N :=
  match mode with GRegular => 0 | other => GitMode_git other end.

(** [entries.range(lo..).next()] *)
Definition range_first {A} (m : gmap path A) (lo : path) : option path :=
  head (filter (path_le lo) (sorted_keys m)).
Definition dir_is_empty (m : gmap path Tree.Entry) (p : path) : bool :=
  match range_first m (p ++ [slash]) with
  | Some k => bool_decide (¬ (p ++ [slash]) `prefix_of` k)
  | None => true
  end.
Definition leaf_of `{Blake3} (m : gmap path Tree.Entry) (x : path * Tree.Entry) : option TreeLeaf :=
  match x with
  | (p, EFile mode blob) => Some {| tl_path := p; tl_mode := GitMode_of mode; tl_content := blob |}
  | (p, EDir) =>
      if dir_is_empty m p
      then Some {| tl_path := p; tl_mode := GDirectory; tl_content := content_hash [] |} else None
  end.
Definition leaves_of `{Blake3} (m : gmap path Tree.Entry) : list TreeLeaf := omap (leaf_of m) (sorted_pairs m).

(** ** The fold *)

Definition leaf_le (x y : TreeLeaf) : Prop := path_le (tl_path x) (tl_path y).
#[global] Instance leaf_le_dec : RelDecision leaf_le := λ x y, decide (path_le (tl_path x) (tl_path y)).
#[global] Instance leaf_le_trans : Transitive leaf_le.
Proof. intros x y z. apply path_le_trans. Qed.
#[global] Instance leaf_le_total : Total leaf_le.
Proof. intros x y. apply path_le_total. Qed.

(** The two entries of the leaf of rank [i]. *)
Definition path_entry `{Blake3} (i : nat) (leaf : TreeLeaf) : Partition.Entry :=
  {| addr := content_hash (tl_path leaf); ea := 2 * N.of_nat i; eb := len (tl_path leaf) |}.
Definition content_entry (i : nat) (leaf : TreeLeaf) : Partition.Entry :=
  {| addr := tl_content leaf; ea := 2 * N.of_nat i + 1; eb := mode_tag (tl_mode leaf) |}.
Definition leaf_entries `{Blake3} (sorted : list TreeLeaf) : list Partition.Entry :=
  mjoin (imap (λ i leaf, [path_entry i leaf; content_entry i leaf]) sorted).
Definition tree_spec (parser_id : Hash) : PartitionSpec :=
  {| domain := RowSet; scheme := TREE_ROOT_SCHEME; params := as_bytes parser_id; canon_version := 1 |}.
Definition tree_root_of `{Blake3} (leaves : list TreeLeaf) (parser_id : Hash) : Hash :=
  address (tree_spec parser_id) (leaf_entries (merge_sort leaf_le leaves)).

Definition tree_leaves `{Blake3} (s : store) : result tree_error (list TreeLeaf) := leaves_of <$> entries s.
Definition tree_root `{Blake3} (s : store) (parser_id : Hash) : result tree_error Hash :=
  leaves ← tree_leaves s; mret (tree_root_of leaves parser_id).

(** ** Leaves determine the manifest *)

Lemma path_le_prefix p q : p `prefix_of` q → path_le p q.
Proof.
  intros [r ->]. unfold path_le. induction p as [| b p IH]; simpl; [done |].
  by rewrite N.eqb_refl, IH, orb_true_r.
Qed.
(** Between a prefix and an extension of it there are only extensions of it. *)
Lemma prefix_between p k q : path_le p k → path_le k q → p `prefix_of` q → p `prefix_of` k.
Proof.
  intros Hpk Hkq [r ->]. revert k Hpk Hkq. unfold path_le.
  induction p as [| b p IH]; intros [| c k]; simpl; try done; [intros; apply prefix_nil |].
  rewrite !orb_true_iff, !andb_true_iff, !N.ltb_lt, !N.eqb_eq.
  intros [Hlt | [E1 H1]] [Hlt' | [E2 H2]]; try lia.
  apply byte_to_N_inj in E1 as ->. apply prefix_cons. by apply IH.
Qed.

Lemma range_first_least {A} (m : gmap path A) lo k :
  is_Some (m !! k) → path_le lo k → ∃ k0, range_first m lo = Some k0 ∧ path_le lo k0 ∧ path_le k0 k ∧ is_Some (m !! k0).
Proof.
  intros Hk Hlo. unfold range_first.
  assert (k ∈ filter (path_le lo) (sorted_keys m)) as Hin
    by (apply list_elem_of_filter; by rewrite elem_of_sorted_keys).
  assert (StronglySorted path_le (filter (path_le lo) (sorted_keys m))) as Hs.
  { apply StronglySorted_filter, Sorted_StronglySorted, Sorted_sorted_keys. apply path_le_trans. }
  assert (∀ x, x ∈ filter (path_le lo) (sorted_keys m) → path_le lo x ∧ is_Some (m !! x)) as Hall
    by (intros x; by rewrite list_elem_of_filter, elem_of_sorted_keys).
  destruct (filter (path_le lo) (sorted_keys m)) as [| k0 l]; [by apply not_elem_of_nil in Hin |].
  exists k0. destruct (Hall k0 (list_elem_of_here _ _)) as [Hl Hm]. split_and!; [done | done | | done].
  apply elem_of_cons in Hin as [-> | Hin]; [by destruct (total path_le k0 k0) |].
  inversion Hs as [| ? ? _ Hf]; subst. by eapply Forall_forall in Hf.
Qed.
Lemma range_first_in {A} (m : gmap path A) lo k :
  range_first m lo = Some k → is_Some (m !! k).
Proof.
  unfold range_first. intros Hh. apply elem_of_sorted_keys.
  destruct (filter (path_le lo) (sorted_keys m)) as [| x l] eqn:E; [done |]. injection Hh as ->.
  assert (k ∈ filter (path_le lo) (sorted_keys m)) as Hin by (rewrite E; left).
  by apply list_elem_of_filter in Hin as [_ ?].
Qed.

Lemma dir_is_empty_spec m p : dir_is_empty m p = true ↔ vacant m p.
Proof.
  unfold dir_is_empty, vacant. split.
  - intros Hd q Hq. destruct (m !! q) eqn:E; [| done]. exfalso. apply parents_prefix in Hq.
    destruct (range_first_least m (p ++ [slash]) q) as (k & Hk & H1 & H2 & _);
      [by eexists | by apply path_le_prefix |].
    rewrite Hk in Hd. apply bool_decide_eq_true in Hd. apply Hd. by eapply prefix_between.
  - intros Hv. destruct (range_first m (p ++ [slash])) as [k |] eqn:E; [| done].
    apply bool_decide_eq_true. intros Hp%parents_prefix. apply range_first_in in E as [e He].
    by rewrite Hv in He.
Qed.

Section leaves.
Context `{Blake3}.
Implicit Types m : gmap path Tree.Entry.

Lemma elem_of_leaves m leaf :
  leaf ∈ leaves_of m ↔
  (∃ mode, m !! tl_path leaf = Some (EFile mode (tl_content leaf)) ∧ tl_mode leaf = GitMode_of mode)
  ∨ (m !! tl_path leaf = Some EDir ∧ vacant m (tl_path leaf) ∧ tl_mode leaf = GDirectory
     ∧ tl_content leaf = content_hash []).
Proof.
  unfold leaves_of. rewrite list_elem_of_omap. split.
  - intros ([p e] & Hin%elem_of_sorted_pairs & Hl). destruct e as [mode blob |]; simpl in Hl.
    + injection Hl as <-. simpl. left. eauto.
    + destruct (dir_is_empty m p) eqn:E; [| done]. injection Hl as <-. apply dir_is_empty_spec in E. by right.
  - destruct leaf as [p g c]; simpl. intros [(mode & Hm & ->) | (Hm & Hv & -> & ->)].
    + exists (p, EFile mode c). by rewrite elem_of_sorted_pairs.
    + exists (p, EDir). rewrite elem_of_sorted_pairs. split; [done |]. simpl.
      apply dir_is_empty_spec in Hv. by rewrite Hv.
Qed.
Lemma leaves_paths m : (tl_path <$> leaves_of m) `sublist_of` sorted_keys m.
Proof.
  unfold leaves_of. rewrite <- sorted_pairs_fst. induction (sorted_pairs m) as [| [p e] l IH]; csimpl; [done |].
  destruct e as [mode blob |]; csimpl; [by constructor |]. destruct (dir_is_empty m p); csimpl; by constructor.
Qed.
Lemma NoDup_leaves_paths m : NoDup (tl_path <$> leaves_of m).
Proof. eapply sublist_NoDup; [apply (NoDup_sorted_keys m) | apply leaves_paths]. Qed.

(** Below every directory entry, or at it, there is a leaf. *)
Lemma leaf_below m p :
  is_Some (m !! p) → ∃ leaf, leaf ∈ leaves_of m ∧ (tl_path leaf = p ∨ p ∈ parents (tl_path leaf)).
Proof.
  assert (∃ b, ∀ q, is_Some (m !! q) → (length q < b)%nat) as [b Hb].
  { exists (S (max_list (length <$> sorted_keys m))). intros q Hq. apply elem_of_sorted_keys in Hq.
    assert (length q ≤ max_list (length <$> sorted_keys m))%nat; [| lia].
    apply max_list_elem_of_le. by apply list_elem_of_fmap_2. }
  assert (∃ n, (b - length p ≤ n)%nat) as [n Hn] by eauto.
  revert p Hn. induction n as [| n IH]; intros p Hn Hp; [specialize (Hb p Hp); lia |].
  destruct Hp as [[mode blob |] Hp].
  - exists {| tl_path := p; tl_mode := GitMode_of mode; tl_content := blob |}.
    split; [| by left]. apply elem_of_leaves. left. eauto.
  - destruct (dir_is_empty m p) eqn:E.
    + apply dir_is_empty_spec in E. exists {| tl_path := p; tl_mode := GDirectory; tl_content := content_hash [] |}.
      split; [| by left]. apply elem_of_leaves. by right.
    + assert (∃ q, p ∈ parents q ∧ is_Some (m !! q)) as (q & Hq & Hm).
      { unfold dir_is_empty in E. destruct (range_first m (p ++ [slash])) as [k |] eqn:Ek; [| done].
        apply bool_decide_eq_false, dec_stable in E. apply parents_prefix in E. apply range_first_in in Ek. eauto. }
      destruct (IH q) as (leaf & Hleaf & Hrel); [specialize (Hb q Hm); pose proof (parents_length _ _ Hq); lia | done |].
      exists leaf. split; [done |]. right. destruct Hrel as [-> | Hrel]; [done |]. by eapply parents_trans.
Qed.

(** A closed manifest is its leaves and the directories above them. *)
Lemma manifest_of_leaves m p e :
  closed m →
  m !! p = Some e ↔
  match e with
  | EFile mode blob => {| tl_path := p; tl_mode := GitMode_of mode; tl_content := blob |} ∈ leaves_of m
  | EDir => (∃ leaf, leaf ∈ leaves_of m ∧ tl_path leaf = p ∧ tl_mode leaf = GDirectory)
            ∨ ∃ leaf, leaf ∈ leaves_of m ∧ p ∈ parents (tl_path leaf)
  end.
Proof.
  intros Hc. destruct e as [mode blob |].
  - rewrite elem_of_leaves. simpl. split; [eauto |].
    intros [(mode' & Hm & Hg) | (_ & _ & Hg & _)]; destruct mode; try done; by destruct mode'.
  - split.
    + intros Hp. destruct (leaf_below m p) as (leaf & Hl & [He | Hd]); [by eexists | | by right; eauto].
      left. exists leaf. split_and!; [done.. |]. apply elem_of_leaves in Hl as [(mode & Hm & _) | (_ & _ & ? & _)]; [| done].
      rewrite He in Hm. congruence.
    + intros [(leaf & Hl & <- & Hg) | (leaf & Hl & Hd)]; apply elem_of_leaves in Hl.
      * destruct Hl as [(mode & _ & Hg') | (? & _)]; [rewrite Hg in Hg'; by destruct mode | done].
      * eapply Hc; [| exact Hd]. destruct Hl as [(mode & -> & _) | (-> & _)]; eauto.
Qed.
Lemma leaves_determine m1 m2 : closed m1 → closed m2 → leaves_of m1 ≡ₚ leaves_of m2 → m1 = m2.
Proof.
  intros Hc1 Hc2 Hp. apply map_eq. intros p. apply option_eq. intros e.
  rewrite (manifest_of_leaves m1), (manifest_of_leaves m2) by done.
  destruct e; [by rewrite Hp |]. split; (intros [(l & Hl & ? & ?) | (l & Hl & ?)]; [left | right]; exists l; split_and!; try done;
    by (rewrite Hp || rewrite <- Hp)).
Qed.
End leaves.

(** ** The fold determines the leaves *)

(** What Rust's types give: lengths and ranks fit their words. *)
Definition leaves_fit (leaves : list TreeLeaf) : Prop :=
  2 * len leaves ≤ u64_max ∧ Forall (λ l, len (tl_path l) ≤ u64_max) leaves.

Lemma mode_tag_inj m m' : mode_tag m = mode_tag m' → m = m'.
Proof. by destruct m, m'. Qed.

(** Sorting by path picks one order of leaves with distinct paths. *)
Lemma sort_leaves_unique l k :
  NoDup (tl_path <$> l) → l ≡ₚ k → merge_sort leaf_le l = merge_sort leaf_le k.
Proof.
  intros Hn Hp.
  assert (StronglySorted leaf_le (merge_sort leaf_le l)) as H1
    by (apply Sorted_StronglySorted; [apply leaf_le_trans | apply Sorted_merge_sort, _]).
  assert (StronglySorted leaf_le (merge_sort leaf_le k)) as H2
    by (apply Sorted_StronglySorted; [apply leaf_le_trans | apply Sorted_merge_sort, _]).
  assert (merge_sort leaf_le l ≡ₚ merge_sort leaf_le k) as Hp' by by rewrite !merge_sort_Permutation.
  assert (NoDup (tl_path <$> merge_sort leaf_le l)) as Hn' by (by rewrite merge_sort_Permutation).
  revert H1 H2 Hp' Hn'. generalize (merge_sort leaf_le l) (merge_sort leaf_le k). clear.
  induction l as [| x l IH]; intros [| y k] H1 H2 Hp Hn.
  - done.
  - by apply Permutation_nil_l in Hp.
  - by apply Permutation_nil_r in Hp.
  - inversion H1 as [| ? ? S1 F1]; inversion H2 as [| ? ? S2 F2]; subst.
    csimpl in Hn. apply NoDup_cons in Hn as [Hx Hn].
    assert (x = y) as ->.
    { assert (y ∈ x :: l) as [-> | Hy]%elem_of_cons by (rewrite Hp; left); [done |].
      assert (x ∈ y :: k) as [-> | Hxk]%elem_of_cons by (rewrite <- Hp; left); [done |].
      exfalso. apply Hx. rewrite Forall_forall in F1, F2.
      assert (tl_path x = tl_path y) as -> by (apply (anti_symm path_le); [by apply F1 | by apply F2]).
      by apply list_elem_of_fmap_2. }
    f_equal. apply IH; [done.. | by eapply Permutation_cons_inv | done].
Qed.

Section fold.
Context `{Blake3}.

Lemma elem_of_leaf_entries l e :
  e ∈ leaf_entries l ↔ ∃ i leaf, l !! i = Some leaf ∧ (e = path_entry i leaf ∨ e = content_entry i leaf).
Proof.
  unfold leaf_entries. rewrite list_elem_of_join. split.
  - intros (es & He & (i & leaf & -> & Hi)%elem_of_lookup_imap). exists i, leaf. set_solver.
  - intros (i & leaf & Hi & He). exists [path_entry i leaf; content_entry i leaf]. split; [set_solver |].
    apply elem_of_lookup_imap. eauto.
Qed.
Lemma length_leaf_entries l : len (leaf_entries l) = 2 * len l.
Proof.
  unfold leaf_entries, len. rewrite length_join, fmap_imap, (imap_ext _ (const (const 2%nat))), imap_const by done.
  change (const 2%nat <$> l) with ((λ _, 2%nat) <$> l). rewrite sum_list_fmap_const. lia.
Qed.
Lemma leaf_entries_wf l pid : leaves_fit l → decomposition_wf (tree_spec pid) (leaf_entries l).
Proof.
  intros [Hlen Hpaths]. unfold decomposition_wf, tree_spec. simpl. rewrite length_leaf_entries, len_as_bytes.
  split_and!; [done | done | unfold u64_max; lia | done |]. apply Forall_forall.
  intros e (i & leaf & Hi & He)%elem_of_leaf_entries.
  assert (2 * N.of_nat i + 1 ≤ u64_max) as Hb by (apply lookup_lt_Some in Hi; unfold len in Hlen; lia).
  rewrite Forall_lookup in Hpaths. specialize (Hpaths _ _ Hi).
  destruct He as [-> | ->]; split; simpl; try lia. by destruct (tl_mode leaf).
Qed.

(** Equal entry sets come from leaves that agree, rank by rank, on all but
    the spelling of the path, whose hash and length agree. *)
Lemma leaf_entries_agree l k i x :
  leaf_entries l ≡ₚ leaf_entries k → l !! i = Some x →
  ∃ y, k !! i = Some y ∧ content_hash (tl_path x) = content_hash (tl_path y)
    ∧ tl_mode x = tl_mode y ∧ tl_content x = tl_content y.
Proof.
  intros Hp Hi.
  assert (path_entry i x ∈ leaf_entries k) as (j & y & Hj & Ey)%elem_of_leaf_entries
    by (rewrite <- Hp; apply elem_of_leaf_entries; eauto).
  assert (content_entry i x ∈ leaf_entries k) as (j' & y' & Hj' & Ey')%elem_of_leaf_entries
    by (rewrite <- Hp; apply elem_of_leaf_entries; eauto).
  unfold path_entry, content_entry in *.
  destruct Ey as [[= E1 E2 E3] | [= E1 E2 E3]]; [| lia].
  destruct Ey' as [[= F1 F2 F3] | [= F1 F2 F3]]; [lia |].
  assert (j = i) as -> by lia. assert (j' = i) as -> by lia.
  rewrite Hj in Hj'. injection Hj' as <-. exists y. split_and!; [done | done | by apply mode_tag_inj | done].
Qed.

(** One root, one parser and one list of leaves, or a collision the two folds
    computed. *)
Lemma tree_root_of_binds l k p q :
  leaves_fit l → leaves_fit k → tree_root_of l p = tree_root_of k q →
  (p = q ∧ l ≡ₚ k)
  ∨ collision (blake3_derive_key PARTITION_CONTEXT)
      (address_preimage (tree_spec p) (leaf_entries (merge_sort leaf_le l)))
      (address_preimage (tree_spec q) (leaf_entries (merge_sort leaf_le k)))
  ∨ ∃ x y, x ∈ l ∧ y ∈ k ∧ collision blake3 (tl_path x) (tl_path y).
Proof.
  intros Hl Hk E.
  assert (∀ l, leaves_fit l → leaves_fit (merge_sort leaf_le l)) as Hfit.
  { intros l' [? ?]. split; [unfold len in *; by rewrite merge_sort_Permutation |]. by rewrite merge_sort_Permutation. }
  apply (eq_or_collision (blake3_derive_key PARTITION_CONTEXT)) in E as [E | E]; [| by right; left].
  apply preimage_same in E as [Es Ep]; [| by apply leaf_entries_wf, Hfit..].
  assert (p = q) as <- by (apply as_bytes_inj; by injection Es). simpl in Ep.
  destruct (decide (Forall (λ x, Forall (λ y, ¬ (tl_path x ≠ tl_path y ∧ blake3 (tl_path x) = blake3 (tl_path y))) k) l))
    as [Hno | Hex].
  - left. split; [done |].
    rewrite <- (merge_sort_Permutation leaf_le l), <- (merge_sort_Permutation leaf_le k).
    assert (merge_sort leaf_le l = merge_sort leaf_le k) as ->; [| done].
    assert (∀ i x y, merge_sort leaf_le l !! i = Some x → merge_sort leaf_le k !! i = Some y →
      content_hash (tl_path x) = content_hash (tl_path y) → tl_path x = tl_path y) as Hpath.
    { intros i x y Hx%list_elem_of_lookup_2 Hy%list_elem_of_lookup_2 Eh. rewrite merge_sort_Permutation in Hx, Hy.
      rewrite Forall_forall in Hno. specialize (Hno _ Hx). rewrite Forall_forall in Hno. specialize (Hno _ Hy).
      destruct (decide (tl_path x = tl_path y)); [done |]. exfalso. apply Hno. done. }
    apply list_eq. intros i. apply option_eq. intros x. split; intros Hx.
    + destruct (leaf_entries_agree _ _ _ _ Ep Hx) as (y & Hy & Eh & Em & Ec). rewrite Hy. f_equal.
      specialize (Hpath _ _ _ Hx Hy Eh). destruct x, y; simpl in *; congruence.
    + destruct (leaf_entries_agree _ _ _ _ (symmetry Ep) Hx) as (y & Hy & Eh & Em & Ec). rewrite Hy. f_equal.
      specialize (Hpath _ _ _ Hy Hx (eq_sym Eh)). destruct x, y; simpl in *; congruence.
  - right; right. apply not_Forall_Exists in Hex; [| apply _].
    apply Exists_exists in Hex as (x & Hx & Hex). apply not_Forall_Exists in Hex; [| apply _].
    apply Exists_exists in Hex as (y & Hy & Hex). exists x, y. split_and!; [done.. |].
    by apply dec_stable in Hex.
Qed.
End fold.

(** ** The stamp of a projection *)

Record DerivedFrom := { df_tree_root : Hash; df_parser_id : Hash; df_version : list byte }.

Definition space : byte := x20.
Definition to_meta (d : DerivedFrom) : list byte :=
  bytes_of (Hash_display (df_tree_root d)) ++ [space]
  ++ bytes_of (Hash_display (df_parser_id d)) ++ [space] ++ df_version d.

(** [value.split(' ')] *)
Fixpoint split_spaces (l : list byte) : list (list byte) :=
  match l with
  | [] => [[]]
  | b :: l =>
      match split_spaces l with
      | f :: fs => if bool_decide (b = space) then [] :: f :: fs else (b :: f) :: fs
      | [] => [[b]]
      end
  end.
Inductive meta_error := NotThreeFields | NotHex (field : list byte).
Definition hash_of_hex (field : list byte) : result meta_error Hash :=
  ok_or (hex_decode field ≫= Hash_try_from) (NotHex field).
Definition from_meta (value : list byte) : result meta_error DerivedFrom :=
  match split_spaces value with
  | [tree_root; parser_id; version] =>
      t ← hash_of_hex tree_root;
      p ← hash_of_hex parser_id;
      mret {| df_tree_root := t; df_parser_id := p; df_version := version |}
  | _ => Err NotThreeFields
  end.

Lemma hex_no_space l : space ∉ bytes_of (hex_bytes l).
Proof.
  induction l as [| b l IH]; [by apply not_elem_of_nil |].
  change (hex_bytes (b :: l)) with (hex_byte b +:+ hex_bytes l). rewrite bytes_of_app, not_elem_of_app. split; [| done].
  apply (bool_decide_unpack _). by destruct b.
Qed.
Lemma split_spaces_nonnil l : split_spaces l ≠ [].
Proof. destruct l; simpl; [done |]. repeat case_match; done. Qed.
Lemma split_spaces_app f l : space ∉ f → split_spaces (f ++ space :: l) = f :: split_spaces l.
Proof.
  induction f as [| b f IH]; intros Hf; simpl.
  - pose proof (split_spaces_nonnil l). by destruct (split_spaces l).
  - rewrite not_elem_of_cons in Hf. destruct Hf as [Hb Hf]. rewrite IH by done.
    by rewrite bool_decide_false by congruence.
Qed.
Lemma split_spaces_last f : space ∉ f → split_spaces f = [f].
Proof.
  induction f as [| b f IH]; intros Hf; [done |]. rewrite not_elem_of_cons in Hf. destruct Hf as [Hb Hf].
  simpl. rewrite IH by done. by rewrite bool_decide_false by congruence.
Qed.
(** A stamp reads back, when the version has no space. *)
Lemma derived_from_roundtrip d : space ∉ df_version d → from_meta (to_meta d) = Ok d.
Proof.
  intros Hv. unfold from_meta, to_meta. simpl. unfold Hash_display.
  rewrite split_spaces_app, split_spaces_app, split_spaces_last by (done || apply hex_no_space).
  unfold hash_of_hex. rewrite !hex_decode_bytes. simpl. rewrite !Hash_try_from_as_bytes. by destruct d.
Qed.

(** ** The root names the tree *)

Section commits.
Context `{Blake3}.

(** C30: a tree root names the whole manifest and the parser.  Every readable
    store has one; it depends on the entries alone, never on stat caches,
    diagnostics or blobs; and two stores whose directory sets are closed under
    parents and that have one root hold the same entries under the same parser,
    unless the two folds exhibit a collision: two distinct preimages of the keyed
    hash, or two distinct paths with one hash. *)
Theorem tree_root_names_tree s1 s2 m1 m2 p1 p2 :
  entries s1 = Ok m1 → entries s2 = Ok m2 → closed m1 → closed m2 →
  leaves_fit (leaves_of m1) → leaves_fit (leaves_of m2) →
  ∃ h1 h2, tree_root s1 p1 = Ok h1 ∧ tree_root s2 p2 = Ok h2
    ∧ (m1 = m2 → p1 = p2 → h1 = h2)
    ∧ (h1 = h2 →
       (m1 = m2 ∧ p1 = p2)
       ∨ collision (blake3_derive_key PARTITION_CONTEXT)
           (address_preimage (tree_spec p1) (leaf_entries (merge_sort leaf_le (leaves_of m1))))
           (address_preimage (tree_spec p2) (leaf_entries (merge_sort leaf_le (leaves_of m2))))
       ∨ ∃ q1 q2, is_Some (m1 !! q1) ∧ is_Some (m2 !! q2) ∧ collision blake3 q1 q2).
Proof.
  intros E1 E2 C1 C2 F1 F2. unfold tree_root, tree_leaves. rewrite E1, E2. simpl.
  do 2 eexists. split_and!; [done | done | by intros -> -> |].
  intros [[-> Hp] | [Hc | (x & y & Hx & Hy & Hc)]]%tree_root_of_binds; [left | right; left | right; right | done | done].
  - split; [| done]. by apply leaves_determine.
  - done.
  - exists (tl_path x), (tl_path y). split_and!; [| | done];
      eapply elem_of_sorted_keys, elem_of_sublist, leaves_paths; by apply list_elem_of_fmap_2.
Qed.
End commits.

(** A store with one file in a directory and one empty directory, walked at
    some time. *)
Definition demo_store (stat : Z * Z) : store :=
  put_dir (bytes_of "b")
    (put_file (bytes_of "a/x") Executable (vreplicate 32 x07) (Some stat)
      {| t_tree := ∅; t_diag := ∅; t_blobs := ∅ |}).
Definition demo_manifest : gmap path Tree.Entry :=
  <[bytes_of "b" := EDir]> (add_dirs (parents (bytes_of "b"))
    (<[bytes_of "a/x" := EFile Executable (vreplicate 32 x07)]> (add_dirs (parents (bytes_of "a/x")) ∅))).

Lemma demo_store_entries stat : entries (demo_store stat) = Ok demo_manifest.
Proof. apply entries_manifest, manifest_put_dir, manifest_put_file. by intros p. Qed.
Lemma demo_closed : closed demo_manifest.
Proof.
  apply closed_put; [apply closed_put |]; [by intros p d [? ?] | | by left]. by right.
Qed.

Lemma demo_fits : leaves_fit (@leaves_of toy_blake3 demo_manifest).
Proof.
  split; [vm_compute; discriminate |]. apply Forall_forall. intros x Hx.
  vm_compute in Hx. repeat (apply elem_of_cons in Hx as [-> | Hx]; [vm_compute; discriminate |]).
  by apply not_elem_of_nil in Hx.
Qed.

Lemma tree_root_names_tree_witness :
  ∃ h, @tree_root toy_blake3 (demo_store (3, 4)%Z) (vreplicate 32 x01) = Ok h
    ∧ @tree_root toy_blake3 (demo_store (9, 9)%Z) (vreplicate 32 x01) = Ok h.
Proof.
  destruct (@tree_root_names_tree toy_blake3 (demo_store (3, 4)%Z) (demo_store (9, 9)%Z)
    demo_manifest demo_manifest (vreplicate 32 x01) (vreplicate 32 x01)) as (h1 & h2 & H1 & H2 & Hsame & _).
  - apply demo_store_entries.
  - apply demo_store_entries.
  - apply demo_closed.
  - apply demo_closed.
  - apply demo_fits.
  - apply demo_fits.
  - exists h1. split; [exact H1 | rewrite Hsame by reflexivity; exact H2].
Defined.
