(* ===== verification/HeadVerify.v ===== *)
(** * Reading and verifying a signed head

    [rs/ll-open/cli-lib/src/head_claim.rs], the [verify_with] of [tree_root.rs] in the
    same crate, and [rs/ll-open/sign/src/root_signer.rs] and [kid.rs]: the claim a
    head carries, the signature check over a set of trusted keys, the policy of the
    two readers, and the comparison of the stamp with the arena.  A head is given
    by its Cap'n Proto fields after the message was parsed; opening the files is
    not modelled.  Ed25519 and SHA-256 are parameters. *)

From S2P Require Import Prelude Substrate Text Partition HeadDigest Tree TreeRoot Sign.
From Stdlib Require Import NArith Lia.
Local Open Scope N_scope.

(** ** The verdict *)

Inductive HeadVerdict := Valid | Unsigned | Invalid.

Definition verify_head `{Blake3, Ed25519} (claim : option HeadClaim) (signature kid : list byte)
    (trusted : list VerifyingKey) : HeadVerdict :=
  if bool_decide (signature = []) then Unsigned else
  match claim with
  | None => Invalid
  | Some claim =>
      if negb (bool_decide (kid = [])) && negb (is_canonical_kid_shape kid) then Invalid else
      if negb (len signature =? 64) then Invalid else
      let verifies := verify_digest (head_digest claim) signature in
      let kid_hit := negb (bool_decide (kid = []))
        && existsb verifies (filter (λ pk, canonical_kid pk = kid) trusted) in
      if kid_hit || existsb verifies trusted then Valid else Invalid
  end.

(** ** The claim of a head *)

(** A [Data] field behind a struct pointer: the pointer may not be readable,
    its bytes may not be, an unset field reads as no bytes. *)
Inductive field := Unreadable | ReadError | Bytes (l : list byte).

Record head := {
  h_generation : N;
  h_root_hash : field;
  h_parent_hash : field;
  h_parent_digest : field;
  h_tree_root : field;
  h_parser_id : field;
  h_signature : field;
  h_signer_kid : field;
}.

Inductive head_error :=
| NoField (name : string)
| FieldLength (name : string) (n : N)
| FieldUnread (name : string)
| ZeroParentDigest
| HalfStamped
| RequiredButNoKeys
| SignatureInvalid
| UnsignedRefused
| UnsignedRequired
| BadTree (e : tree_error).

Definition hash_field (name : string) (f : field) : result head_error (option Hash) :=
  match f with
  | Unreadable => Ok None
  | ReadError => Err (FieldUnread name)
  | Bytes l =>
      if bool_decide (l = []) then Ok None else
      h ← ok_or (Hash_try_from l) (FieldLength name (len l));
      mret (if bool_decide (h = Hash_ZERO) then None else Some h)
  end.
Definition stamp_of (h : head) : result head_error (option (Hash * Hash)) :=
  tree ← hash_field "treeRoot" (h_tree_root h);
  parser ← hash_field "parserId" (h_parser_id h);
  match tree, parser with
  | Some tree, Some parser => mret (Some (tree, parser))
  | None, None => mret None
  | _, _ => Err HalfStamped
  end.
Definition required_hash (name : string) (f : field) : result head_error Hash :=
  match f with
  | Bytes l => ok_or (Hash_try_from l) (FieldLength name (len l))
  | _ => Err (NoField name)
  end.
Definition optional_digest (f : field) : result head_error (option Hash) :=
  match f with
  | Unreadable => Ok None
  | ReadError => Err (FieldUnread "parentDigest")
  | Bytes l =>
      if bool_decide (l = []) then Ok None else
      h ← ok_or (Hash_try_from l) (FieldLength "parentDigest" (len l));
      _ ← ensure (bool_decide (h ≠ Hash_ZERO)) ZeroParentDigest;
      mret (Some h)
  end.
Definition claim_of (h : head) : result head_error (option HeadClaim) :=
  root ← required_hash "rootHash" (h_root_hash h);
  parent ← required_hash "parentHash" (h_parent_hash h);
  parent_digest ← optional_digest (h_parent_digest h);
  stamp ← stamp_of h;
  match stamp with
  | None => mret None
  | Some (tree, parser) => mret (HeadClaim_new (h_generation h) root parent parent_digest tree parser)
  end.
Definition digest_of `{Blake3} (h : head) : result head_error (option Hash) :=
  claim ← claim_of h; mret (option_map head_digest claim).

(** [unwrap_or(&[])] *)
Definition data_or_empty (f : field) : list byte := match f with Bytes l => l | _ => [] end.
Definition verdict_of `{Blake3, Ed25519} (h : head) (trusted : list VerifyingKey) : result head_error HeadVerdict :=
  claim ← claim_of h;
  mret (verify_head claim (data_or_empty (h_signature h)) (data_or_empty (h_signer_kid h)) trusted).

(** ** Policy *)

Inductive Reader := Chain | VerifyHead.
Inductive SignatureCheck := CheckVerified | CheckUnsigned | CheckNotChecked.
Record HeadPolicy `{Ed25519} := { trusted : list VerifyingKey; require_signature : bool }.

Definition enforce_signature `{Blake3, Ed25519} (h : head) (reader : Reader) (policy : HeadPolicy)
    : result head_error SignatureCheck :=
  match trusted policy with
  | [] =>
      match reader with
      | VerifyHead => if require_signature policy then Err RequiredButNoKeys else Ok CheckNotChecked
      | Chain => Ok CheckNotChecked
      end
  | _ =>
      verdict ← verdict_of h (trusted policy);
      match verdict with
      | Valid => mret CheckVerified
      | Invalid => Err SignatureInvalid
      | Unsigned =>
          match reader with
          | VerifyHead => Err UnsignedRefused
          | Chain => if require_signature policy then Err UnsignedRequired else mret CheckUnsigned
          end
      end
  end.

(** ** [leyline verify-head] *)

Inductive Verification :=
| VValid (tree_root parser_id : Hash) (signature : SignatureCheck)
| VNotStamped
| VTreeRootMismatch (stamped recomputed : Hash)
| VParserIdMismatch (stamped recomputed : Hash).

(** [current] are the parser inputs of this binary against the arena. *)
Definition verify_with `{Blake3, Ed25519} (h : head) (s : store) (current : ParserInputs) (policy : HeadPolicy)
    : result head_error Verification :=
  signature ← enforce_signature h VerifyHead policy;
  stamp ← stamp_of h;
  match stamp with
  | None => mret VNotStamped
  | Some (stamped_tree, stamped_parser) =>
      let recomputed_parser := parser_id_of current in
      if bool_decide (recomputed_parser ≠ stamped_parser)
      then mret (VParserIdMismatch stamped_parser recomputed_parser) else
      match tree_root s stamped_parser with
      | Ok recomputed_tree =>
          if bool_decide (recomputed_tree ≠ stamped_tree)
          then mret (VTreeRootMismatch stamped_tree recomputed_tree)
          else mret (VValid stamped_tree stamped_parser signature)
      | Err e => Err (BadTree e)
      | Panic => Panic
      end
  end.

(** ** The signature check *)

Section verification.
Context `{B3 : Blake3, ED : Ed25519}.

Lemma existsb_filter {A} (f : A → bool) (P : A → Prop) `{!∀ x, Decision (P x)} l :
  existsb f (filter P l) = true → existsb f l = true.
Proof.
  rewrite !existsb_exists. intros (x & Hx & Hf). exists x. split; [| done].
  apply list_elem_of_In in Hx. apply list_elem_of_In. by apply list_elem_of_filter in Hx as [_ ?].
Qed.

(** The key identifier orders the attempts and decides nothing but its own
    shape: a head is valid exactly when some trusted key verifies its claim. *)
Lemma verify_head_valid claim signature kid trusted :
  verify_head claim signature kid trusted = Valid ↔
  ∃ c, claim = Some c ∧ len signature = 64 ∧ (kid = [] ∨ is_canonical_kid_shape kid = true)
    ∧ ∃ pk, pk ∈ trusted ∧ verify_digest (head_digest c) signature pk = true.
Proof.
  unfold verify_head. split.
  - case_bool_decide as Hs; [done |]. destruct claim as [c |]; [| done].
    destruct (_ && _) eqn:Hk; [done |]. destruct (len signature =? 64) eqn:Hl; simpl; [| done].
    destruct (_ || _) eqn:Hv; [| done]. intros _. exists c. split_and!; [done | by apply N.eqb_eq | |].
    + apply andb_false_iff in Hk as [Hk%negb_false_iff | Hk%negb_false_iff]; [left | by right].
      by apply bool_decide_eq_true in Hk.
    + assert (existsb (verify_digest (head_digest c) signature) trusted = true) as He.
      { apply orb_true_iff in Hv as [[_ Hv]%andb_true_iff | Hv]; [by eapply existsb_filter | done]. }
      apply existsb_exists in He as (pk & Hin & Hpk). exists pk. by rewrite list_elem_of_In.
  - intros (c & -> & Hl & Hk & pk & Hin & Hpk).
    rewrite bool_decide_false by (intros ->; done). rewrite Hl. simpl.
    replace (negb _ && negb _) with false; [| by destruct Hk as [-> | ->]; rewrite ?andb_false_r].
    assert (existsb (verify_digest (head_digest c) signature) trusted = true) as ->; [| by rewrite orb_true_r].
    apply existsb_exists. exists pk. by rewrite <- list_elem_of_In.
Qed.
Lemma verify_head_unsigned claim signature kid trusted :
  verify_head claim signature kid trusted = Unsigned ↔ signature = [].
Proof.
  unfold verify_head. case_bool_decide; [done |]. split; [| done].
  repeat case_match; try done.
Qed.

Lemma stamp_of_claim h c : claim_of h = Ok (Some c) →
  stamp_of h = Ok (Some (HeadDigest.tree_root c, parser_id c)) ∧ generation c = h_generation h.
Proof.
  unfold claim_of. intros H. result_inv. destruct a2 as [[t p] |]; result_inv; [| done].
  unfold HeadClaim_new in H. case_match; [done |]. injection H as <-. done.
Qed.

(** What [verify-head] established when it printed a valid verdict. *)
Lemma verify_with_valid h s current policy t p sg :
  verify_with h s current policy = Ok (VValid t p sg) →
  enforce_signature h VerifyHead policy = Ok sg ∧ stamp_of h = Ok (Some (t, p))
  ∧ parser_id_of current = p ∧ tree_root s p = Ok t.
Proof.
  unfold verify_with. intros H. apply bind_ok in H as (sg' & Hsg & H). apply bind_ok in H as ([[t' p'] |] & Hst & H); [| done].
  case_bool_decide as Hp; [done |].
  destruct (tree_root s p') as [t'' | |] eqn:Ht; [| done..]. case_bool_decide as Ht'; [done |].
  injection H as <- <- <-. subst. done.
Qed.
Lemma enforce_verified h reader policy :
  trusted policy ≠ [] →
  enforce_signature h VerifyHead policy = Ok reader →
  reader = CheckVerified ∧ ∃ c pk, claim_of h = Ok (Some c) ∧ pk ∈ trusted policy
    ∧ len (data_or_empty (h_signature h)) = 64
    ∧ verify_digest (head_digest c) (data_or_empty (h_signature h)) pk = true.
Proof.
  unfold enforce_signature. destruct (trusted policy) as [| k ks]; [done |]. intros _ H.
  apply bind_ok in H as (v & Hv & H). unfold verdict_of in Hv. apply bind_ok in Hv as (c & Hc & Hv).
  injection Hv as Hv. destruct v; [| done..]. injection H as <-. split; [done |].
  apply verify_head_valid in Hv as (c' & -> & Hl & _ & pk & Hpk & Hver). exists c', pk. done.
Qed.

(** Conversely, what is enough for a valid verdict. *)
Lemma enforce_valid h reader policy c :
  trusted policy ≠ [] → claim_of h = Ok (Some c) →
  verify_head (Some c) (data_or_empty (h_signature h)) (data_or_empty (h_signer_kid h)) (trusted policy) = Valid →
  enforce_signature h reader policy = Ok CheckVerified.
Proof.
  intros Ht Hc Hv. unfold enforce_signature, verdict_of. rewrite Hc, bind_Ok, Hv. by destruct (trusted policy).
Qed.
Lemma verify_with_complete h s current policy t p sg :
  enforce_signature h VerifyHead policy = Ok sg → stamp_of h = Ok (Some (t, p)) →
  parser_id_of current = p → tree_root s p = Ok t → verify_with h s current policy = Ok (VValid t p sg).
Proof.
  intros Hs Ht Hp Hr. unfold verify_with. rewrite Hs, bind_Ok, Ht, bind_Ok, Hr.
  by rewrite !bool_decide_false by (intros Hn; by apply Hn).
Qed.

(** ** A verified head attests the tree *)

(** A forgery against what the owners of the keys signed: a signature that
    verifies under a key over a digest of no claim its owner signed. *)
Definition forged (signed : VerifyingKey → list HeadClaim) (pk : VerifyingKey) (d : Hash) (sig : list byte) : Prop :=
  verify_digest d sig pk = true ∧ ∀ c, c ∈ signed pk → head_digest c ≠ d.
(** The tree a signed claim was made for. *)
Definition claims_tree (c : HeadClaim) (m : gmap path Tree.Entry) : Prop :=
  closed m ∧ leaves_fit (leaves_of m) ∧ generation c ≤ u64_max
  ∧ HeadDigest.tree_root c = tree_root_of (leaves_of m) (parser_id c).
(** One claim and one tree behind two claims, or the pair that collides: the two
    head preimages, the two tree preimages, or two paths. *)
Definition same_claim (claim c : HeadClaim) (m m' : gmap path Tree.Entry) : Prop :=
  collision (blake3_derive_key HEAD_DIGEST_CONTEXT) (head_preimage claim) (head_preimage c)
  ∨ (claim = c
     ∧ (m = m'
        ∨ collision (blake3_derive_key PARTITION_CONTEXT)
            (address_preimage (tree_spec (parser_id c)) (leaf_entries (merge_sort leaf_le (leaves_of m))))
            (address_preimage (tree_spec (parser_id c)) (leaf_entries (merge_sort leaf_le (leaves_of m'))))
        ∨ ∃ x y, x ∈ leaves_of m ∧ y ∈ leaves_of m' ∧ collision blake3 (tl_path x) (tl_path y))).

Lemma claim_dec (signed : list HeadClaim) (d : Hash) :
  (∃ c, c ∈ signed ∧ head_digest c = d) ∨ ∀ c, c ∈ signed → head_digest c ≠ d.
Proof.
  destruct (Exists_dec (λ c, head_digest c = d) signed) as [He | Hn].
  - left. by apply Exists_exists in He.
  - right. intros c Hc Hd. apply Hn. apply Exists_exists. eauto.
Qed.

(** C6: with trusted keys configured, a valid verdict of verify-head means the
    arena is one a key owner signed.  The signature was checked: the head carries
    a claim whose digest its 64-byte signature verifies under a trusted key; the
    claim stamps the parser of this binary and the root recomputed from the arena.
    Let [signed] be the claims each owner signed and [tree_at] the tree each was
    made for.  Then the head's claim is one that owner signed, and the arena's
    entries are exactly those of its tree, unless the signature is a forgery or
    one of three explicit pairs collides ([same_claim]). *)
Theorem verified_head_attests_tree (h : head) (s : store) (current : ParserInputs) (policy : HeadPolicy)
    (t p : Hash) (sg : SignatureCheck) (signed : VerifyingKey → list HeadClaim)
    (tree_at : HeadClaim → gmap path Tree.Entry) (m : gmap path Tree.Entry) :
  trusted policy ≠ [] →
  (∀ pk c, pk ∈ trusted policy → c ∈ signed pk → claims_tree c (tree_at c)) →
  h_generation h ≤ u64_max → entries s = Ok m → closed m → leaves_fit (leaves_of m) →
  verify_with h s current policy = Ok (VValid t p sg) →
  let sig := data_or_empty (h_signature h) in
  sg = CheckVerified ∧ p = parser_id_of current ∧ t = tree_root_of (leaves_of m) p ∧
  ∃ claim pk, claim_of h = Ok (Some claim) ∧ HeadDigest.tree_root claim = t ∧ parser_id claim = p
    ∧ pk ∈ trusted policy ∧ len sig = 64 ∧ verify_digest (head_digest claim) sig pk = true
    ∧ (forged signed pk (head_digest claim) sig
       ∨ ∃ c, c ∈ signed pk ∧ same_claim claim c m (tree_at c)).
Proof.
  intros Htr Htrees Hgen Hent Hcl Hfit Hv sig.
  apply verify_with_valid in Hv as (Hsg & Hst & Hp & Ht).
  apply enforce_verified in Hsg as (-> & claim & pk & Hclaim & Hpk & Hlen & Hver); [| done].
  destruct (stamp_of_claim _ _ Hclaim) as [Hst' Hgc]. rewrite Hst in Hst'. injection Hst' as -> ->.
  unfold tree_root, tree_leaves in Ht. rewrite Hent in Ht. injection Ht as Ht.
  split_and!; [done | done | done |]. exists claim, pk. split_and!; [done.. |].
  destruct (claim_dec (signed pk) (head_digest claim)) as [(c & Hc & Hd) | Hno]; [right | by left].
  exists c. split; [done |]. destruct (Htrees pk c Hpk Hc) as (Hcl' & Hfit' & Hg & Hroot). symmetry in Hd.
  apply (eq_or_collision (blake3_derive_key HEAD_DIGEST_CONTEXT)) in Hd as [Hd | Hd]; [right | by left].
  apply head_preimage_inj in Hd as <-; [| by rewrite Hgc | done]. split; [done |].
  rewrite Hroot in Ht. apply tree_root_of_binds in Ht as [[_ Hp'] | Hcol]; [| by right | done | done].
  left. by apply leaves_determine.
Qed.
End verification.

(** ** A head that verifies *)

(** A key that verifies one digest. *)
Definition toy_ed25519 : Ed25519 := {|
  VerifyingKey := Hash; pk_bytes := as_bytes;
  ed_verify := λ msg sig pk, bool_decide (msg = as_bytes pk) && (len sig =? 64); sha256 := λ l, l |}.
Definition demo_inputs : ParserInputs := {|
  ir_schema_version := [x31]; projection_schema_version := [x32]; extraction_epoch := []; injection_epoch := [];
  query_set_epoch := []; grammars := [] |}.
Definition demo_pid : Hash := @parser_id_of toy_blake3 demo_inputs.
Definition demo_root : Hash := @tree_root_of toy_blake3 (@leaves_of toy_blake3 demo_manifest) demo_pid.
Definition demo_claim : HeadClaim := {|
  generation := 1; root_hash := vreplicate 32 x05; parent_hash := Hash_ZERO; parent_digest := None;
  HeadDigest.tree_root := demo_root; parser_id := demo_pid |}.
Definition demo_head : head := {|
  h_generation := 1; h_root_hash := Bytes (as_bytes (vreplicate 32 x05)); h_parent_hash := Bytes (as_bytes Hash_ZERO);
  h_parent_digest := Bytes []; h_tree_root := Bytes (as_bytes demo_root); h_parser_id := Bytes (as_bytes demo_pid);
  h_signature := Bytes (replicate 64 x01); h_signer_kid := Bytes [] |}.
Definition demo_policy : @HeadPolicy toy_ed25519 :=
  @Build_HeadPolicy toy_ed25519 [@head_digest toy_blake3 demo_claim] true.

Lemma demo_nonzero : demo_root ≠ Hash_ZERO ∧ demo_pid ≠ Hash_ZERO.
Proof. split; apply (bool_decide_unpack _); vm_compute; exact I. Qed.
#[local] Opaque demo_root demo_pid.
Lemma hash_field_as_bytes name h : h ≠ Hash_ZERO → hash_field name (Bytes (as_bytes h)) = Ok (Some h).
Proof.
  intros Hz. unfold hash_field. rewrite bool_decide_false.
  - rewrite Hash_try_from_as_bytes. simpl. by rewrite bool_decide_false.
  - intros E. apply (f_equal length) in E. by rewrite length_as_bytes in E.
Qed.
Lemma demo_stamp : stamp_of demo_head = Ok (Some (demo_root, demo_pid)).
Proof.
  destruct demo_nonzero. unfold stamp_of. cbn [demo_head h_tree_root h_parser_id].
  rewrite !hash_field_as_bytes by assumption. reflexivity.
Qed.
Lemma demo_claim_of : claim_of demo_head = Ok (Some demo_claim).
Proof.
  destruct demo_nonzero. unfold claim_of. rewrite demo_stamp.
  cbn [demo_head h_root_hash h_parent_hash h_parent_digest required_hash optional_digest].
  rewrite !Hash_try_from_as_bytes. cbn. unfold HeadClaim_new. rewrite !bool_decide_false by (assumption || discriminate). reflexivity.
Qed.
Lemma demo_enforced :
  @enforce_signature toy_blake3 toy_ed25519 demo_head VerifyHead demo_policy = Ok CheckVerified.
Proof.
  apply (enforce_valid (B3 := toy_blake3) (ED := toy_ed25519) _ _ _ demo_claim);
    [discriminate | apply demo_claim_of |].
  apply verify_head_valid. exists demo_claim. split_and!; [reflexivity | reflexivity | by left |].
  exists (@head_digest toy_blake3 demo_claim). split; [left |].
  apply andb_true_iff. split; [by apply bool_decide_eq_true | reflexivity].
Qed.

Lemma verified_head_attests_tree_witness :
  @verify_with toy_blake3 toy_ed25519 demo_head (demo_store (3, 4)%Z) demo_inputs demo_policy
    = Ok (VValid demo_root demo_pid CheckVerified)
  ∧ ∃ claim, claim_of demo_head = Ok (Some claim)
    ∧ @same_claim toy_blake3 claim demo_claim demo_manifest demo_manifest.
Proof.
  assert (@verify_with toy_blake3 toy_ed25519 demo_head (demo_store (3, 4)%Z) demo_inputs demo_policy
    = Ok (VValid demo_root demo_pid CheckVerified)) as Hv.
  { apply verify_with_complete; [apply demo_enforced | apply demo_stamp | reflexivity |].
    unfold tree_root, tree_leaves. rewrite demo_store_entries. reflexivity. }
  split; [exact Hv |].
  destruct (@verified_head_attests_tree toy_blake3 toy_ed25519 demo_head (demo_store (3, 4)%Z) demo_inputs demo_policy
    demo_root demo_pid CheckVerified (λ _, [demo_claim]) (λ _, demo_manifest) demo_manifest)
    as (_ & _ & _ & claim & pk & Hcl & _ & _ & _ & _ & _ & Hor).
  - discriminate.
  - intros pk c _ ->%list_elem_of_singleton. split_and!; [apply demo_closed | apply demo_fits | discriminate | reflexivity].
  - discriminate.
  - apply demo_store_entries.
  - apply demo_closed.
  - apply demo_fits.
  - exact Hv.
  - exists claim. split; [exact Hcl |]. destruct Hor as [[_ Hno] | (c & ->%list_elem_of_singleton & Hs)]; [| exact Hs].
    destruct (Hno demo_claim); [by left |]. rewrite demo_claim_of in Hcl. congruence.
Defined.
