(* ===== verification/Merge.v ===== *)
(** * The three-way merge of a moved proposal

    [rs/ll-open/cli-lib/src/merge.rs]: the verdict on a merge and the base line
    ranges of a conflict.  The line diff and the text driver of [gix-merge] and
    [imara-diff] are parameters; what is modelled is the refusal of binary sides
    and the clustering of overlapping hunks. *)

From S2P Require Import Prelude Text.
From Stdlib Require Import NArith Lia.
Local Open Scope N_scope.

Record LineRange := { lr_start : N; lr_end : N }.
Inductive Merged := Clean (out : list byte) | Conflict (ranges : list LineRange) | Binary.

(** A hunk of a line diff: the lines it replaces and the lines that replace them. *)
Record LineChange := { ch_from : LineRange; ch_to : LineRange }.
(** The hunks of the line diff [from → to], and the text driver: whether it
    resolved, and its output. *)
Class Differ := {
  changed_lines : list byte → list byte → list LineChange;
  text_driver : list byte → list byte → list byte → bool * list byte;
}.
Definition diff_hunks `{Differ} (from to : list byte) : list LineRange := ch_from <$> changed_lines from to.

Inductive Side := Ours | Theirs.
#[global] Instance Side_eq_dec : EqDecision Side.
Proof. solve_decision. Defined.
Record Hunk := { hk_start : N; hk_end : N; hk_side : Side }.

Definition hunks `{Differ} (base side_bytes : list byte) (side : Side) : list Hunk :=
  (λ r, {| hk_start := lr_start r; hk_end := lr_end r; hk_side := side |}) <$> diff_hunks base side_bytes.

Definition contains (h : Hunk) (x : N) : bool := (hk_start h <=? x) && (x <? hk_end h).
Definition is_empty (h : Hunk) : bool := negb (hk_start h <? hk_end h).
Definition overlaps (left right : Hunk) : bool :=
  negb (bool_decide (hk_side left = hk_side right))
  && (contains right (hk_start left) || (is_empty right && (hk_start right =? hk_start left))).

(** [sort_by_key(|h| h.before.start)], which is stable. *)
Fixpoint insert_hunk (x : Hunk) (l : list Hunk) : list Hunk :=
  match l with
  | [] => [x]
  | y :: l => if hk_start x <=? hk_start y then x :: y :: l else y :: insert_hunk x l
  end.
Definition sort_hunks (l : list Hunk) : list Hunk := foldr insert_hunk [] l.

(** [while let Some(h) = iter.next_if(p) { taken.push(h) }] *)
Fixpoint next_while (p : Hunk → bool) (iter : list Hunk) : list Hunk * list Hunk :=
  match iter with
  | h :: iter' => if p h then let '(l, rest) := next_while p iter' in (h :: l, rest) else ([], iter)
  | [] => ([], [])
  end.

(** The passes of one cluster: [taken], which is not empty, [intersecting] and
    what is left. *)
Fixpoint cluster (passes : nat) (taken inter iter : list Hunk) : list Hunk * list Hunk * list Hunk :=
  match passes with
  | O => (taken, inter, iter)
  | S passes =>
      match last taken with
      | None => (taken, inter, iter)
      | Some lst =>
          let '(found, iter) := next_while (λ h, overlaps h lst) iter in
          let inter := inter ++ found in
          let '(more, iter) := match last inter with
                               | Some last_i => next_while (λ h, overlaps h last_i) iter
                               | None => ([], iter)
                               end in
          if bool_decide (more = []) then (taken, inter, iter)
          else cluster passes (taken ++ more) inter iter
      end
  end.

Definition min_of (l : list N) : option N := match l with [] => None | x :: l => Some (foldr N.min x l) end.
Definition max_of (l : list N) : option N := match l with [] => None | x :: l => Some (foldr N.max x l) end.
Definition hull (l : list Hunk) : LineRange :=
  let start := default 0 (min_of (hk_start <$> l)) in
  {| lr_start := start; lr_end := default start (max_of (hk_end <$> l)) |}.

(** The outer loop; every turn takes at least one hunk, so their number is
    enough fuel. *)
Fixpoint conflict_loop (fuel passes : nat) (iter : list Hunk) : list LineRange :=
  match fuel, iter with
  | S fuel, first :: iter =>
      let '(taken, inter, iter) := cluster passes [first] [] iter in
      if bool_decide (inter = []) then conflict_loop fuel passes iter
      else hull (taken ++ inter) :: conflict_loop fuel passes iter
  | _, _ => []
  end.
Definition cluster_ranges (all : list Hunk) : list LineRange :=
  let all := sort_hunks all in conflict_loop (length all) (length all) all.
Definition conflict_ranges `{Differ} (base ours theirs : list byte) : list LineRange :=
  cluster_ranges (hunks base ours Ours ++ hunks base theirs Theirs).

Definition merge `{Differ} (base ours theirs : list byte) : Merged :=
  if negb (from_utf8_ok base && from_utf8_ok ours && from_utf8_ok theirs) then Binary else
  match text_driver ours base theirs with
  | (true, out) => Clean out
  | (false, _) => Conflict (conflict_ranges base ours theirs)
  end.

(** ** Hunks in order *)

(** Two hunks of one side are apart, the first before the second. *)
Definition before (x y : Hunk) : Prop := hk_end x ≤ hk_start y ∧ hk_start x < hk_start y.
Definition apart (x y : Hunk) : Prop := hk_side x = hk_side y → before x y ∨ before y x.
Definition in_order (x y : Hunk) : Prop := hk_start x ≤ hk_start y ∧ (hk_side x = hk_side y → before x y).

Lemma insert_hunk_perm x l : insert_hunk x l ≡ₚ x :: l.
Proof.
  induction l as [| y l IH]; simpl; [done |]. destruct (hk_start x <=? hk_start y); [done |].
  rewrite IH. apply Permutation_swap.
Qed.
Lemma sort_hunks_perm l : sort_hunks l ≡ₚ l.
Proof. induction l as [| x l IH]; simpl; [done |]. by rewrite insert_hunk_perm, IH. Qed.
Lemma insert_hunk_in_order x l :
  Forall (apart x) l → StronglySorted in_order l → StronglySorted in_order (insert_hunk x l).
Proof.
  induction l as [| y l IH]; intros Ha Hs; simpl.
  - repeat constructor.
  - apply Forall_cons in Ha as [Hxy Ha]. apply StronglySorted_cons in Hs as [Hy Hs].
    destruct (N.leb_spec (hk_start x) (hk_start y)) as [Hle | Hlt]; apply StronglySorted_cons; split.
    + apply Forall_cons. split.
      * split; [done |]. intros E. destruct (Hxy E) as [? | [_ ?]]; [done | lia].
      * rewrite Forall_forall in *. intros z Hz. specialize (Hy z Hz). specialize (Ha z Hz). destruct Hy as [Hyz _].
        split; [lia |]. intros E. destruct (Ha E) as [? | [_ ?]]; [done | lia].
    + by apply StronglySorted_cons.
    + rewrite insert_hunk_perm. apply Forall_cons. split; [| done]. split; [lia |].
      intros E. destruct (Hxy (eq_sym E)) as [[_ ?] | ?]; [lia | done].
    + by apply IH.
Qed.
Lemma sort_hunks_in_order l : StronglySorted apart l → StronglySorted in_order (sort_hunks l).
Proof.
  induction 1 as [| x l Hs IH Ha]; simpl; [constructor |]. apply insert_hunk_in_order; [| done].
  by rewrite sort_hunks_perm.
Qed.

(** ** One cluster *)

Lemma next_while_spec p l a b :
  next_while p l = (a, b) → l = a ++ b ∧ Forall (λ h, p h = true) a ∧ ∀ h, head b = Some h → p h = false.
Proof.
  revert a b. induction l as [| x l IH]; intros a b; simpl.
  - intros [= <- <-]. done.
  - destruct (p x) eqn:Hx.
    + destruct (next_while p l) as [a' b']. intros [= <- <-]. destruct (IH a' b') as (-> & ? & ?); [done |].
      split_and!; [done | by constructor | done].
    + intros [= <- <-]. split_and!; [done | done |]. simpl. by intros h [= <-].
Qed.

Definition on (side : Side) (h : Hunk) : Prop := hk_side h = side.
#[global] Instance on_dec side h : Decision (on side h) := decide (hk_side h = side).

(** The two lists of a cluster are the two sides of what was consumed. *)
Definition split_sides (side : Side) (c taken inter : list Hunk) : Prop :=
  taken = filter (on side) c ∧ inter = filter (λ h, ¬ on side h) c.

Lemma overlaps_side h x : overlaps h x = true → hk_side h ≠ hk_side x.
Proof. unfold overlaps. rewrite andb_true_iff, negb_true_iff, bool_decide_eq_false. by intros [? _]. Qed.
Lemma split_sides_inter side c taken inter found x :
  split_sides side c taken inter → on side x → Forall (λ h, overlaps h x = true) found →
  split_sides side (c ++ found) taken (inter ++ found).
Proof.
  intros [-> ->] Hx Hf. split; rewrite filter_app.
  - rewrite (filter_none (on side) found), app_nil_r; [done |]. intros h Hh Ho. rewrite Forall_forall in Hf.
    apply Hf, overlaps_side in Hh. by rewrite Hx, Ho in Hh.
  - rewrite (filter_all _ found); [done |]. intros h Hh Ho. rewrite Forall_forall in Hf.
    apply Hf, overlaps_side in Hh. by rewrite Hx, Ho in Hh.
Qed.
Lemma side_other (side a b : Side) : a ≠ side → b ≠ a → b = side.
Proof. by destruct side, a, b. Qed.
Lemma split_sides_taken side c taken inter more x :
  split_sides side c taken inter → ¬ on side x → Forall (λ h, overlaps h x = true) more →
  split_sides side (c ++ more) (taken ++ more) inter.
Proof.
  intros [-> ->] Hx Hf.
  assert (∀ h, h ∈ more → on side h) as Hon.
  { intros h Hh. rewrite Forall_forall in Hf. apply Hf, overlaps_side in Hh. by eapply side_other. }
  split; rewrite filter_app.
  - by rewrite (filter_all (on side) more).
  - rewrite (filter_none _ more), app_nil_r; [done |]. intros h Hh Hn. by apply Hn, Hon.
Qed.

Lemma cluster_spec passes side c taken inter iter T I rest :
  (length iter < passes)%nat → split_sides side c taken inter → taken ≠ [] →
  (inter ≠ [] → ∃ h k, h ∈ c ∧ k ∈ c ∧ overlaps h k = true) →
  cluster passes taken inter iter = (T, I, rest) →
  ∃ c', iter = c' ++ rest ∧ split_sides side (c ++ c') T I ∧ T ≠ []
    ∧ (I ≠ [] → ∃ h k, h ∈ c ++ c' ∧ k ∈ c ++ c' ∧ overlaps h k = true)
    ∧ ∀ h x, head rest = Some h → last T = Some x ∨ last I = Some x → overlaps h x = false.
Proof.
  revert c taken inter iter. induction passes as [| passes IH]; intros c taken inter iter Hp Hss Hne Hov H; [lia |].
  simpl in H. destruct (last taken) as [lst |] eqn:Hlast; [| by apply last_None in Hlast].
  destruct (next_while (λ h, overlaps h lst) iter) as [found iter1] eqn:Hf.
  apply next_while_spec in Hf as (-> & Hfound & Hstop1).
  assert (on side lst) as Hlst.
  { apply last_Some in Hlast as [l' Hl]. destruct Hss as [Ht _]. rewrite Ht in Hl.
    assert (lst ∈ filter (on side) c) as [? _]%list_elem_of_filter by (rewrite Hl; set_solver). done. }
  pose proof (split_sides_inter _ _ _ _ _ _ Hss Hlst Hfound) as Hss1.
  assert (inter ++ found ≠ [] → ∃ h k, h ∈ c ++ found ∧ k ∈ c ++ found ∧ overlaps h k = true) as Hov1.
  { intros Hn. destruct found as [| f found].
    - rewrite app_nil_r in Hn. destruct (Hov Hn) as (h & k & ? & ? & ?). exists h, k. set_solver.
    - exists f, lst. apply Forall_cons in Hfound as [Hfo _]. split_and!; [set_solver | | done].
      apply last_Some in Hlast as [l' Hl]. destruct Hss as [Ht _].
      assert (lst ∈ filter (on side) c) as [_ ?]%list_elem_of_filter by (rewrite <- Ht, Hl; set_solver). set_solver. }
  destruct (match last (inter ++ found) with Some last_i => _ | None => _ end) as [more iter2] eqn:Hm.
  assert (iter1 = more ++ iter2 ∧ split_sides side ((c ++ found) ++ more) (taken ++ more) (inter ++ found)
    ∧ ∀ h x, head iter2 = Some h → last (inter ++ found) = Some x → overlaps h x = false) as (-> & Hss2 & Hstop2).
  { destruct (last (inter ++ found)) as [li |] eqn:Hli.
    - apply next_while_spec in Hm as (-> & Hmore & Hs2). split_and!; [done | |].
      + eapply split_sides_taken; [done | | done]. apply last_Some in Hli as [l' Hl]. destruct Hss1 as [_ Hi].
        assert (li ∈ filter (λ h, ¬ on side h) (c ++ found)) as [? _]%list_elem_of_filter; [| done].
        rewrite <- Hi, Hl. set_solver.
      + intros h x Hh [= <-]. by apply Hs2.
    - injection Hm as <- <-. rewrite !app_nil_r. done. }
  case_bool_decide as Hmore.
  - subst more. injection H as <- <- <-. rewrite !app_nil_r in *. exists found. split_and!; [done | done | done | done |].
    intros h x Hh [Hx | Hx]; [| by eapply Hstop2]. rewrite Hlast in Hx. injection Hx as <-. by apply Hstop1.
  - apply IH with (c := (c ++ found) ++ more) in H as (c' & -> & Hss3 & HT & Hov3 & Hend).
    + exists (found ++ more ++ c'). rewrite !(assoc_L (++)) in *. split_and!; done.
    + rewrite !length_app in Hp. destruct more; [done |]. simpl in *. lia.
    + done.
    + by destruct taken.
    + intros Hn. destruct (Hov1 Hn) as (h & k & ? & ? & ?). exists h, k. set_solver.
Qed.

(** ** Clusters do not meet *)

Definition inside (x : Hunk) (n : N) : bool := contains x n || (is_empty x && (hk_start x =? n)).

Lemma overlaps_spec h x : overlaps h x = true ↔ hk_side h ≠ hk_side x ∧ inside x (hk_start h) = true.
Proof. unfold overlaps, inside. by rewrite andb_true_iff, negb_true_iff, bool_decide_eq_false. Qed.
Lemma inside_spec x n : inside x n = true ↔ (hk_start x ≤ n ∧ n < hk_end x) ∨ (hk_end x ≤ hk_start x ∧ hk_start x = n).
Proof.
  unfold inside, contains, is_empty. rewrite orb_true_iff, !andb_true_iff, negb_true_iff, N.leb_le, N.ltb_lt, N.eqb_eq, N.ltb_ge.
  done.
Qed.

Lemma last_of_side (P : Hunk → Prop) `{!∀ h, Decision (P h)} c1 x c2 :
  P x → (∀ y, y ∈ c2 → ¬ P y) → last (filter P (c1 ++ x :: c2)) = Some x.
Proof.
  intros Hx Hc2. rewrite filter_app, filter_cons_True, (filter_none P c2) by done. by rewrite last_snoc.
Qed.

Section straddle.
Context (side : Side) (c T I rest : list Hunk).
Hypothesis Hsides : split_sides side c T I.
Hypothesis Hsorted : StronglySorted in_order (c ++ rest).
Hypothesis Hend : ∀ h x, head rest = Some h → last T = Some x ∨ last I = Some x → overlaps h x = false.

Lemma consumed_in_order x k : x ∈ c → k ∈ rest → in_order x k.
Proof. intros Hx Hk. by eapply StronglySorted_app_1_elem_of. Qed.
Lemma next_not_inside h x : head rest = Some h → x ∈ c → inside x (hk_start h) = false.
Proof.
  intros Hh Hx. assert (h ∈ rest) as Hin by (destruct rest; simplify_eq/=; by left).
  destruct (consumed_in_order x h Hx Hin) as [Hle Hsame].
  destruct (inside x (hk_start h)) eqn:Hi; [exfalso | done]. pose proof Hi as Hi'. apply inside_spec in Hi'.
  destruct (decide (hk_side h = hk_side x)) as [E | E].
  { destruct (Hsame (eq_sym E)). lia. }
  assert (overlaps h x = true) as Hov by by apply overlaps_spec.
  destruct (list_elem_of_split _ _ Hx) as (c1 & c2 & Hc).
  assert (∀ y, y ∈ c2 → hk_side y ≠ hk_side x) as Hlater.
  { intros y Hy Ey. assert (in_order x y) as [_ Hb].
    { rewrite Hc, <- (assoc_L (++)), <- app_comm_cons in Hsorted. apply StronglySorted_app_1_r in Hsorted.
      apply StronglySorted_cons in Hsorted as [Hf _]. rewrite Forall_forall in Hf. apply Hf. set_solver. }
    destruct (Hb (eq_sym Ey)). destruct (consumed_in_order y h) as [? _]; [set_solver | done |]. lia. }
  assert (last T = Some x ∨ last I = Some x) as Hl.
  { destruct Hsides as [-> ->]. rewrite Hc. destruct (decide (on side x)) as [Ho | Ho]; [left | right].
    - apply last_of_side; [done |]. intros y Hy Hoy. apply (Hlater y Hy). by rewrite Hoy, Ho.
    - apply last_of_side; [done |]. intros y Hy Hoy. apply (Hlater y Hy).
      unfold on in *. destruct side, (hk_side x), (hk_side y); done. }
  rewrite (Hend h x Hh Hl) in Hov. done.
Qed.
Lemma ends_before_next x k : x ∈ c → k ∈ rest → hk_end x ≤ hk_start k ∧ overlaps k x = false ∧ overlaps x k = false.
Proof.
  intros Hx Hk.
  assert (∃ h r, rest = h :: r) as (h & r & Er) by (clear -Hk; destruct rest; [by apply not_elem_of_nil in Hk | eauto]).
  assert (inside x (hk_start h) = false) as Hn by (apply next_not_inside; by rewrite ?Er).
  assert (hk_start h ≤ hk_start k) as Hhk.
  { rewrite Er in Hk. apply elem_of_cons in Hk as [-> | Hk]; [done |].
    pose proof (StronglySorted_app_1_r _ _ _ Hsorted) as Hr. rewrite Er in Hr.
    apply StronglySorted_cons in Hr as [Hf _]. rewrite Forall_forall in Hf. by destruct (Hf k Hk). }
  destruct (consumed_in_order x k) as [Hxk _]; [done.. |].
  destruct (consumed_in_order x h) as [Hxh _]; [done | rewrite Er; left |].
  assert (¬ (hk_start x ≤ hk_start h ∧ hk_start h < hk_end x) ∧ ¬ (hk_end x ≤ hk_start x ∧ hk_start x = hk_start h)) as [N1 N2].
  { split; intros ?; apply (diff_true_false); rewrite <- Hn; symmetry; apply inside_spec; auto. }
  split_and!; [lia | |].
  - destruct (overlaps k x) eqn:E; [exfalso | done]. apply overlaps_spec in E as [_ E%inside_spec]. lia.
  - destruct (overlaps x k) eqn:E; [exfalso | done]. apply overlaps_spec in E as [_ E%inside_spec]. lia.
Qed.
End straddle.

(** ** The reported ranges *)

Definition covers (r : LineRange) (h : Hunk) : Prop := lr_start r ≤ hk_start h ∧ hk_end h ≤ lr_end r.
Definition clear_of (r r' : LineRange) : Prop := lr_end r ≤ lr_start r'.

Lemma foldr_min_spec a l :
  (∀ y, y ∈ a :: l → foldr N.min a l ≤ y) ∧ ∀ b, (∀ y, y ∈ a :: l → b ≤ y) → b ≤ foldr N.min a l.
Proof.
  induction l as [| z l [IH1 IH2]]; simpl.
  - split; [intros y ->%list_elem_of_singleton; lia | intros b Hb; apply Hb; left].
  - split.
    + intros y Hy. apply N.min_le_iff. rewrite !elem_of_cons in Hy. destruct Hy as [-> | [-> | Hy]];
        [right; apply IH1; left | left; lia | right; apply IH1; by right].
    + intros b Hb. apply N.min_glb; [apply Hb; right; left |]. apply IH2. intros y Hy. apply Hb. set_solver.
Qed.
Lemma foldr_max_spec a l :
  (∀ y, y ∈ a :: l → y ≤ foldr N.max a l) ∧ ∀ b, (∀ y, y ∈ a :: l → y ≤ b) → foldr N.max a l ≤ b.
Proof.
  induction l as [| z l [IH1 IH2]]; simpl.
  - split; [intros y ->%list_elem_of_singleton; lia | intros b Hb; apply Hb; left].
  - split.
    + intros y Hy. apply N.max_le_iff. rewrite !elem_of_cons in Hy. destruct Hy as [-> | [-> | Hy]];
        [right; apply IH1; left | left; lia | right; apply IH1; by right].
    + intros b Hb. apply N.max_lub; [apply Hb; right; left |]. apply IH2. intros y Hy. apply Hb. set_solver.
Qed.
Lemma hull_covers l h : h ∈ l → covers (hull l) h.
Proof.
  destruct l as [| x l]; [by intros ?%not_elem_of_nil |]. intros Hh. unfold hull, covers. csimpl. split.
  - apply foldr_min_spec. change (hk_start x :: (hk_start <$> l)) with (hk_start <$> (x :: l)). by apply list_elem_of_fmap_2.
  - apply foldr_max_spec. change (hk_end x :: (hk_end <$> l)) with (hk_end <$> (x :: l)). by apply list_elem_of_fmap_2.
Qed.
Lemma hull_least l b e :
  l ≠ [] → (∀ h, h ∈ l → b ≤ hk_start h ∧ hk_end h ≤ e) → b ≤ lr_start (hull l) ∧ lr_end (hull l) ≤ e.
Proof.
  destruct l as [| x l]; [done |]. intros _ Hb. unfold hull. csimpl. split.
  - apply foldr_min_spec. intros y Hy.
    change (hk_start x :: (hk_start <$> l)) with (hk_start <$> (x :: l)) in Hy.
    apply list_elem_of_fmap in Hy as (h & -> & Hh). by apply Hb.
  - apply foldr_max_spec. intros y Hy.
    change (hk_end x :: (hk_end <$> l)) with (hk_end <$> (x :: l)) in Hy.
    apply list_elem_of_fmap in Hy as (h & -> & Hh). by apply Hb.
Qed.
Lemma split_sides_elem side c T I h : split_sides side c T I → h ∈ T ++ I ↔ h ∈ c.
Proof.
  intros [-> ->]. rewrite elem_of_app, !list_elem_of_filter. destruct (decide (on side h)); naive_solver.
Qed.

Lemma conflict_loop_spec fuel passes l :
  StronglySorted in_order l → (length l ≤ fuel)%nat → (length l ≤ passes)%nat →
  let out := conflict_loop fuel passes l in
  (∀ h k, h ∈ l → k ∈ l → overlaps h k = true → ∃ r, r ∈ out ∧ covers r h ∧ covers r k)
  ∧ (∀ r, r ∈ out → ∃ h k, h ∈ l ∧ k ∈ l ∧ overlaps h k = true ∧ covers r h ∧ covers r k)
  ∧ (∀ r b, r ∈ out → (∀ h, h ∈ l → b ≤ hk_start h) → b ≤ lr_start r)
  ∧ StronglySorted clear_of out.
Proof.
  revert l. induction fuel as [| fuel IH]; intros [| first l] Hs Hf Hp; simpl in Hf; try lia.
  1, 2: split_and!; [intros ? ? []%not_elem_of_nil | intros ? []%not_elem_of_nil | intros ? ? []%not_elem_of_nil | constructor].
  simpl. destruct (cluster passes [first] [] l) as [[T I] rest] eqn:Hc.
  apply (cluster_spec _ (hk_side first) [first]) in Hc as (c' & -> & Hsides & HT & Hov & Hend);
    [| simpl in Hp; lia | split; [by rewrite filter_cons_True | rewrite filter_cons_False; [done | by intros Hn; apply Hn]] | done | done].
  change (first :: c' ++ rest) with (([first] ++ c') ++ rest) in *. set (c := [first] ++ c') in *.
  pose proof (ends_before_next _ c T I rest Hsides Hs Hend) as Hclear.
  destruct (IH rest) as (IH1 & IH2 & IH3 & IH4);
    [by apply StronglySorted_app_1_r in Hs | rewrite length_app in Hf; lia | simpl in Hp; rewrite length_app in Hp; lia |].
  assert (∀ h k, h ∈ c ++ rest → k ∈ c ++ rest → overlaps h k = true → (h ∈ c ∧ k ∈ c) ∨ (h ∈ rest ∧ k ∈ rest)) as Hsep.
  { intros h k Hh Hk Ho. apply elem_of_app in Hh, Hk. destruct Hh as [Hh | Hh], Hk as [Hk | Hk]; [by left | | | by right];
      [destruct (Hclear h k) as (_ & _ & E) | destruct (Hclear k h) as (_ & E & _)]; try done; by rewrite E in Ho. }
  case_bool_decide as HI.
  - subst I. assert (∀ h k, h ∈ c → k ∈ c → overlaps h k ≠ true) as Hnone.
    { intros h k Hh Hk Ho%overlaps_side. destruct Hsides as [_ Hi].
      assert (∀ y, y ∈ c → on (hk_side first) y) as Hon.
      { intros y Hy. apply dec_stable. intros Hn. apply (not_elem_of_nil y). rewrite Hi. by apply list_elem_of_filter. }
      apply Ho. by rewrite (Hon h Hh), (Hon k Hk). }
    split_and!; [| | | done].
    + intros h k Hh Hk Ho. destruct (Hsep h k) as [[? ?] | [? ?]]; [done.. | exfalso; by apply (Hnone h k) | by apply IH1].
    + intros r Hr. destruct (IH2 r Hr) as (h & k & ? & ? & ?). exists h, k. set_solver.
    + intros r b Hr Hb. apply (IH3 r); [done |]. set_solver.
  - split_and!.
    + intros h k Hh Hk Ho. destruct (Hsep h k) as [[Hh' Hk'] | [Hh' Hk']]; [done.. | |].
      * exists (hull (T ++ I)). split_and!; [left | apply hull_covers; by eapply split_sides_elem..].
      * destruct (IH1 h k) as (r & ? & ?); [done.. |]. exists r. split; [by right | done].
    + intros r [-> | Hr]%elem_of_cons.
      * destruct (Hov HI) as (h & k & Hh & Hk & Ho). exists h, k.
        split_and!; [set_solver | set_solver | done | apply hull_covers; by eapply split_sides_elem..].
      * destruct (IH2 r Hr) as (h & k & ? & ? & ?). exists h, k. set_solver.
    + intros r b [-> | Hr]%elem_of_cons Hb.
      * apply (hull_least _ b (lr_end (hull (T ++ I)))); [by destruct T |]. intros h Hh. split.
        -- apply Hb, elem_of_app. left. by apply (split_sides_elem _ _ _ _ _ Hsides).
        -- by apply hull_covers.
      * apply (IH3 r); [done |]. set_solver.
    + apply StronglySorted_cons. split; [| done]. apply Forall_forall. intros r Hr. unfold clear_of.
      apply (IH3 r); [done |]. intros k Hk. apply (hull_least _ 0 (hk_start k)); [by destruct T |].
      intros h Hh. split; [lia |]. apply Hclear; [by apply (split_sides_elem _ _ _ _ _ Hsides) | done].
Qed.

(** What the line diff gives: the hunks of one side, in order, with an unchanged
    line between two of them. *)
Definition diff_ordered (l : list LineRange) : Prop := StronglySorted (λ x y, lr_end x ≤ lr_start y ∧ lr_start x < lr_start y) l.

Lemma side_apart (l : list LineRange) side :
  diff_ordered l →
  StronglySorted apart ((λ r, {| hk_start := lr_start r; hk_end := lr_end r; hk_side := side |}) <$> l).
Proof.
  induction 1 as [| x l Hs IH Hf]; [constructor |]. csimpl. apply StronglySorted_cons. split; [| done].
  apply Forall_fmap. eapply Forall_impl; [exact Hf |]. intros y Hy _. left. exact Hy.
Qed.
Lemma hunks_apart `{Differ} base ours theirs :
  diff_ordered (diff_hunks base ours) → diff_ordered (diff_hunks base theirs) →
  StronglySorted apart (hunks base ours Ours ++ hunks base theirs Theirs).
Proof.
  intros Ho Ht. apply StronglySorted_app_2; [| by apply side_apart..].
  intros x y (r & -> & _)%list_elem_of_fmap (r' & -> & _)%list_elem_of_fmap. done.
Qed.

(** A merge never touches sides that are not text, and a conflict reports
    exactly where the two sides meet.  Two hunks of different sides that overlap
    by [gix-merge]'s rule lie inside one reported range; every reported range holds
    two such hunks; and the ranges are in order and do not overlap each other. *)
Theorem merge_reports_overlaps `{Differ} base ours theirs :
  diff_ordered (diff_hunks base ours) → diff_ordered (diff_hunks base theirs) →
  (merge base ours theirs = Binary ↔ ¬ (is_utf8 base ∧ is_utf8 ours ∧ is_utf8 theirs))
  ∧ ∀ ranges, merge base ours theirs = Conflict ranges →
    let all := hunks base ours Ours ++ hunks base theirs Theirs in
    (∀ h k, h ∈ all → k ∈ all → overlaps h k = true → ∃ r, r ∈ ranges ∧ covers r h ∧ covers r k)
    ∧ (∀ r, r ∈ ranges → ∃ h k, h ∈ all ∧ k ∈ all ∧ overlaps h k = true ∧ covers r h ∧ covers r k)
    ∧ StronglySorted clear_of ranges.
Proof.
  intros Ho Ht. unfold merge, from_utf8_ok. split.
  - destruct (negb _) eqn:E.
    + split; [intros _ | done]. intros (? & ? & ?). by rewrite !bool_decide_true in E.
    + split; [by destruct (text_driver ours base theirs) as [[]] |]. intros Hn. exfalso. apply Hn.
      rewrite negb_false_iff, !andb_true_iff, !bool_decide_eq_true in E. by destruct E as [[? ?] ?].
  - intros ranges Hm. set (all := hunks base ours Ours ++ hunks base theirs Theirs). destruct (negb _); [done |]. destruct (text_driver ours base theirs) as [[] out]; [done |].
    assert (conflict_ranges base ours theirs = ranges) as <- by congruence.
    unfold conflict_ranges, cluster_ranges. fold all.
    destruct (conflict_loop_spec (length (sort_hunks all)) (length (sort_hunks all)) (sort_hunks all))
      as (H1 & H2 & _ & H4); [by apply sort_hunks_in_order, hunks_apart | done | done |].
    split_and!; [| | done].
    + intros h k Hh Hk. apply H1; by rewrite sort_hunks_perm.
    + intros r Hr. destruct (H2 r Hr) as (h & k & Hh & Hk & ?). exists h, k. by rewrite sort_hunks_perm in Hh, Hk.
Qed.

(** A chain of alternating overlaps is one conflict. *)
Definition chain_differ : Differ := {|
  changed_lines := λ _ side, (λ r, {| ch_from := r; ch_to := r |}) <$>
    if bool_decide (side = [x6f]) then [{| lr_start := 2; lr_end := 4 |}; {| lr_start := 5; lr_end := 8 |}; {| lr_start := 20; lr_end := 21 |}]
    else [{| lr_start := 3; lr_end := 6 |}; {| lr_start := 7; lr_end := 10 |}; {| lr_start := 30; lr_end := 30 |}];
  text_driver := λ _ _ _, (false, []) |}.
Lemma merge_reports_overlaps_witness :
  @merge chain_differ [x62] [x6f] [x74] = Conflict [{| lr_start := 2; lr_end := 10 |}]
  ∧ StronglySorted clear_of [{| lr_start := 2; lr_end := 10 |}].
Proof.
  split; [vm_compute; reflexivity |].
  destruct (@merge_reports_overlaps chain_differ [x62] [x6f] [x74]) as [_ H].
  - repeat constructor; vm_compute; done.
  - repeat constructor; vm_compute; done.
  - apply (H [{| lr_start := 2; lr_end := 10 |}]). vm_compute. reflexivity.
Defined.
