(* ===== verification/TreeSync.v ===== *)
(** * Bringing the manifest up to what a pass saw

    [rs/ll-open/cli-lib/src/cmd_parse/tree_sync.rs] and the in-memory edits of
    [cmd_parse.rs]: one pass decides a set of paths (from the walked directory, from
    memory, or from a scope of paths) and leaves each as a file entry, a directory
    entry or no entry.  The directory on disk is a function from paths to what the
    calls on them return; the parse's outcomes are an argument. *)

From S2P Require Import Prelude Substrate Tree.
From Stdlib Require Import NArith Lia.
Local Open Scope N_scope.

(** ** What a pass is given *)

Record TreeEdits := {
  modes : gmap path Mode;
  mkdirs : gset path;
  rmdirs : gset path;
}.
Definition no_edits : TreeEdits := {| modes := ∅; mkdirs := ∅; rmdirs := ∅ |}.

Inductive InMemory :=
| Written (files : gmap path (list byte)) (removed : gset path) (edits : TreeEdits)
| WholeTree (files : gmap path (list byte)) (edits : TreeEdits).
Definition mem_files (m : InMemory) : gmap path (list byte) :=
  match m with Written files _ _ | WholeTree files _ => files end.
Definition mem_bytes (m : InMemory) (rel : path) : option (list byte) := mem_files m !! rel.
Definition mem_removes (m : InMemory) (rel : path) : bool :=
  match m with Written _ removed _ => bool_decide (rel ∈ removed) | WholeTree _ _ => false end.
Definition mem_edits (m : InMemory) : TreeEdits :=
  match m with Written _ _ edits | WholeTree _ edits => edits end.

(** Metadata, and what [symlink_metadata] returns. *)
Inductive file_kind := KFile | KSymlink | KDir | KOther.
Record meta := { mt_kind : file_kind; mt_exec : bool; mt_mtime : Z; mt_size : Z }.
Inductive stat_result := Stat (m : meta) | StatNotFound | StatError.
(** The directory: metadata when the scope is taken and when the file is
    stored, contents, link targets. *)
Record Disk := {
  dk_scan : path → stat_result;
  dk_stat : path → stat_result;
  dk_read : path → option (list byte);
  dk_readlink : path → option (list byte);
}.
Definition disk_mode (m : meta) : Mode :=
  match mt_kind m with KSymlink => Symlink | _ => if mt_exec m then Executable else Regular end.
Definition stat_of (m : meta) : Z * Z := (mt_mtime m, mt_size m).

Inductive Seen := SDisk (symlink : bool) | SMemory (bytes : list byte) | SDir | SGone.
#[global] Instance Seen_eq_dec : EqDecision Seen.
Proof. solve_decision. Defined.
(** [Walked] paths are relative to the source directory, as [rel_of] makes them. *)
Inductive Reach :=
| Walked (files symlinks dirs : list path)
| ReachTree
| ReachPaths (paths : list path).

Record SyntaxError := { se_span : Z * Z * Z * Z; se_message : list byte }.
Record Outcomes := {
  projected : gmap path (Hash * option SyntaxError);
  unprojected : gmap path (list byte);
}.

Inductive sync_error := SyncTree (e : tree_error) | SyncLink (rel : path).
Definition lift {A} (r : result tree_error A) : result sync_error A :=
  match r with Ok a => Ok a | Err e => Err (SyncTree e) | Panic => Panic end.

(** ** Deciding the paths *)

Definition removes (memory : option InMemory) (rel : path) : bool :=
  match memory with Some m => mem_removes m rel | None => false end.

Definition see_walked (memory : option InMemory) (symlink : bool) (seen : gmap path Seen) (rel : path) : gmap path Seen :=
  if removes memory rel then seen else <[rel := SDisk symlink]> seen.
Definition see_path (memory : option InMemory) (disk : Disk) (seen : gmap path Seen) (rel : path) : gmap path Seen :=
  if removes memory rel then <[rel := SGone]> seen
  else if bool_decide (is_Some (memory ≫= λ m, mem_bytes m rel)) then seen
  else match dk_scan disk rel with
       | Stat m =>
           match mt_kind m with
           | KSymlink => <[rel := SDisk true]> seen
           | KDir => <[rel := SDir]> seen
           | KFile => <[rel := SDisk false]> seen
           | KOther => <[rel := SGone]> seen
           end
       | StatNotFound => <[rel := SGone]> seen
       | StatError => seen
       end.
Definition see_memory (m : InMemory) (seen : gmap path Seen) : gmap path Seen :=
  let seen := foldl (λ seen '(rel, bytes), if mem_removes m rel then seen else <[rel := SMemory bytes]> seen)
                seen (sorted_pairs (mem_files m)) in
  let seen := foldl (λ seen dir, <[dir := SDir]> seen) seen (elements (mkdirs (mem_edits m))) in
  foldl (λ seen dir, <[dir := SGone]> seen) seen (elements (rmdirs (mem_edits m))).
Definition see_reach (reach : Reach) (memory : option InMemory) (disk : Disk) : gmap path Seen :=
  match reach with
  | Walked files symlinks dirs =>
      let seen := foldl (see_walked memory false) ∅ files in
      let seen := foldl (see_walked memory true) seen symlinks in
      foldl (λ seen dir, <[dir := SDir]> seen) seen dirs
  | ReachTree => ∅
  | ReachPaths paths => foldl (see_path memory disk) ∅ paths
  end.
Definition is_whole (reach : Reach) : bool := match reach with ReachPaths _ => false | _ => true end.
(** A whole pass also removes every entry it did not see. *)
Definition see_unseen (existing : gmap path Entry) (seen : gmap path Seen) : gmap path Seen :=
  seen ∪ ((λ _, SGone) <$> existing).

(** ** Applying them *)

Definition store_blob `{Blake3} (bytes : list byte) (s : store) : Hash * store :=
  let hash := content_hash bytes in
  (hash, match t_blobs s !! as_bytes hash with
         | Some _ => s
         | None => {| t_tree := t_tree s; t_diag := t_diag s; t_blobs := <[as_bytes hash := bytes]> (t_blobs s) |}
         end).

Section passes.
Context `{Blake3}.
(** What [current] reads: the snapshot of a whole pass, else the store. *)
Context (existing : option (gmap path Entry)) (memory : option InMemory) (disk : Disk) (outcomes : Outcomes).

Definition current (s : store) (rel : path) : result sync_error (option Entry) :=
  match existing with
  | Some m => Ok (m !! rel)
  | None => lift (entry s rel)
  end.

Definition gone_step (s : store) (x : path * Seen) : result sync_error store :=
  match x with
  | (rel, SGone) =>
      was ← current s rel;
      match was with
      | None => mret s
      | Some _ =>
          let s := remove rel s in
          us ← lift (under s rel);
          mret (foldl (λ s u, remove u.1 s) s us)
      end
  | _ => mret s
  end.
Definition dir_step (s : store) (x : path * Seen) : result sync_error store :=
  match x with
  | (rel, SDir) =>
      was ← current s rel;
      mret (if bool_decide (was = Some EDir) then s else put_dir rel s)
  | _ => mret s
  end.

(** The mode of a file read from memory: the one asked for, else the one it has. *)
Definition memory_mode (was : option Entry) (rel : path) : Mode :=
  match memory ≫= λ m, modes (mem_edits m) !! rel with
  | Some mode => mode
  | None => match was with Some (EFile mode _) => mode | _ => Regular end
  end.
(** What a file is stored with: its mode, its stat, and its bytes when they are
    not already stored; [None] skips it. *)
Definition file_plan (cached : gmap path (Z * Z)) (was : option Entry) (rel : path) (x : Seen)
    : result sync_error (option (Mode * option (Z * Z) * option (list byte))) :=
  match x with
  | SGone | SDir => mret None
  | SMemory bytes => mret (Some (memory_mode was rel, None, Some bytes))
  | SDisk symlink =>
      match dk_stat disk rel with
      | Stat m =>
          let mode := disk_mode m in
          let unchanged := match was with Some (EFile held _) => bool_decide (held = mode) | _ => false end in
          if unchanged && bool_decide (cached !! rel = Some (stat_of m)) then mret None
          else if symlink then
            target ← ok_or (dk_readlink disk rel) (SyncLink rel);
            mret (Some (mode, Some (stat_of m), Some target))
          else if bool_decide (is_Some (projected outcomes !! rel)) then mret (Some (mode, Some (stat_of m), None))
          else match dk_read disk rel with
               | Some bytes => mret (Some (mode, Some (stat_of m), Some bytes))
               | None => mret None
               end
      | _ => mret None
      end
  end.
Definition file_step (cached : gmap path (Z * Z)) (st : store * gmap path Hash) (x : path * Seen)
    : result sync_error (store * gmap path Hash) :=
  let '(s, stored) := st in
  let '(rel, seen) := x in
  was ← current s rel;
  plan ← file_plan cached was rel seen;
  match plan with
  | None => mret (s, stored)
  | Some (mode, stat, bytes) =>
      match (match bytes, projected outcomes !! rel with
             | Some bytes, _ => Some (store_blob bytes s)
             | None, Some (hash, _) => Some (hash, s)
             | None, None => None
             end) with
      | None => mret (s, stored)
      | Some (blob, s) =>
          s ← (if bool_decide ((was ≫= Entry_blob) = Some blob) then mret s else lift (set_diagnostic rel None s));
          mret (put_file rel mode blob stat s, <[rel := blob]> stored)
      end
  end.

(** The projected outcomes are a hash map: each step touches the row of its own
    path, so their order does not matter. *)
Definition projected_step (s : store) (x : path * (Hash * option SyntaxError)) : result sync_error store :=
  let '(rel, (hash, syntax)) := x in
  lift (set_diagnostic rel ((λ e, {| d_path := rel; d_blob := hash; d_projected := true; d_span := Some (se_span e);
                                     d_message := se_message e |}) <$> syntax) s).
Definition unprojected_step (stored : gmap path Hash) (s : store) (x : path * list byte) : result sync_error store :=
  let '(rel, message) := x in
  blob ← match stored !! rel with
         | Some b => mret (Some b)
         | None => was ← current s rel; mret (was ≫= Entry_blob)
         end;
  match blob with
  | None => mret s
  | Some blob =>
      lift (set_diagnostic rel (Some {| d_path := rel; d_blob := blob; d_projected := false; d_span := None;
                                        d_message := message |}) s)
  end.

Definition apply_seen (seen : gmap path Seen) (s : store) : result sync_error store :=
  let cached := stats s in
  s ← fold_result gone_step s (sorted_pairs seen);
  s ← fold_result dir_step s (sorted_pairs seen);
  '(s, stored) ← fold_result (file_step cached) (s, ∅) (sorted_pairs seen);
  s ← fold_result projected_step s (sorted_pairs (projected outcomes));
  fold_result (unprojected_step stored) s (sorted_pairs (unprojected outcomes)).
End passes.

Definition sync `{Blake3} (reach : Reach) (memory : option InMemory) (disk : Disk) (outcomes : Outcomes) (s : store)
    : result sync_error store :=
  let seen := see_reach reach memory disk in
  let seen := match memory with Some m => see_memory m seen | None => seen end in
  if is_whole reach then
    existing ← lift (entries s);
    apply_seen (Some existing) memory disk outcomes (see_unseen existing seen) s
  else apply_seen None memory disk outcomes seen s.

(** [parse_written_files]: the scope is the written and the removed paths. *)
Definition sync_written `{Blake3} (files : gmap path (list byte)) (removed : gset path) (edits : TreeEdits)
    (disk : Disk) (outcomes : Outcomes) (s : store) : result sync_error store :=
  sync (ReachPaths (sorted_keys files ++ elements removed)) (Some (Written files removed edits)) disk outcomes s.

(** ** Removals *)

Lemma remove_fields p s : t_blobs (remove p s) = t_blobs s.
Proof. done. Qed.
Lemma remove_all_manifest (us : list (path * Entry)) s m :
  manifest s m →
  manifest (foldl (λ s u, remove u.1 s) s us) (foldl (λ m u, delete u.1 m) m us)
  ∧ t_blobs (foldl (λ s u, remove u.1 s) s us) = t_blobs s.
Proof.
  revert s m. induction us as [| u us IH]; simpl; intros s m Hm; [done |].
  destruct (IH (remove u.1 s) (delete u.1 m)) as [? Hb]; [by apply manifest_remove |]. by rewrite Hb.
Qed.
Lemma lookup_delete_all (us : list (path * Entry)) (m : gmap path Entry) p :
  foldl (λ m u, delete u.1 m) m us !! p = if bool_decide (p ∈ us.*1) then None else m !! p.
Proof.
  revert m. induction us as [| u us IH]; intros m; [done |]. csimpl. rewrite IH.
  destruct (decide (p = u.1)) as [-> | Hne].
  - rewrite (bool_decide_true (u.1 ∈ u.1 :: us.*1)) by left. case_bool_decide; [done | by rewrite lookup_delete_eq].
  - rewrite lookup_delete_ne by done. repeat case_bool_decide; set_solver.
Qed.

(** At or below [g]. *)
Definition within (g p : path) : Prop := p = g ∨ g ∈ parents p.
Lemma within_below g d p : within g d → d ∈ parents p → within g p.
Proof. intros [-> | Hg] Hd; right; [done | by eapply parents_trans]. Qed.

(** [m'] is [m] without what satisfies [P]. *)
Definition without (P : path → Prop) (m m' : gmap path Entry) : Prop :=
  (∀ p, P p → m' !! p = None) ∧ (∀ p, ¬ P p → m' !! p = m !! p).
Lemma closed_without (P : path → Prop) m m' :
  (∀ d p, P d → d ∈ parents p → P p) → (∀ p, P p ∨ ¬ P p) → without P m m' → closed m → closed m'.
Proof.
  intros Hup Hdec [Hin Hout] Hc p d Hp Hd. destruct (Hdec p) as [HP | HP].
  - rewrite Hin in Hp by done. by destruct Hp.
  - rewrite Hout in Hp by done. rewrite Hout; [by eapply Hc |]. intros HPd. apply HP. by eapply Hup.
Qed.
Lemma within_dec g p : within g p ∨ ¬ within g p.
Proof. unfold within. destruct (decide (p = g)), (decide (g ∈ parents p)); tauto. Qed.

Section written.
Context `{Blake3} (memory : option InMemory) (disk : Disk) (outcomes : Outcomes).

Lemma current_manifest s m rel : manifest s m → current None s rel = Ok (m !! rel).
Proof. intros Hm. unfold current. by rewrite (Hm rel). Qed.

Lemma gone_step_spec s m g :
  manifest s m → closed m →
  ∃ s' m', gone_step None s (g, SGone) = Ok s' ∧ manifest s' m' ∧ without (within g) m m' ∧ t_blobs s' = t_blobs s.
Proof.
  intros Hm Hc. unfold gone_step. rewrite (current_manifest s m) by done. cbn [mbind result_bind].
  destruct (m !! g) as [e |] eqn:Hg.
  - pose proof (manifest_remove s m g Hm) as Hm1. rewrite (under_manifest _ _ g Hm1). cbn.
    set (us := filter _ _). destruct (remove_all_manifest us _ _ Hm1) as [Hm2 Hb].
    do 2 eexists. split_and!; [done | exact Hm2 | | done].
    assert (∀ p, p ∈ us.*1 ↔ is_Some (delete g m !! p) ∧ g ∈ parents p) as Hus.
    { intros p. rewrite list_elem_of_fmap, parents_prefix. split.
      - intros ([q e'] & -> & [Hpre Hin%elem_of_sorted_pairs]%list_elem_of_filter). split; [by eexists | done].
      - intros [[e' He'] Hpre]. exists (p, e'). split; [done |]. apply list_elem_of_filter.
        by rewrite elem_of_sorted_pairs. }
    split; intros p HP; rewrite lookup_delete_all.
    + case_bool_decide as Hin; [done |]. rewrite Hus in Hin. destruct HP as [-> | HP]; [by rewrite lookup_delete_eq |].
      destruct (delete g m !! p) eqn:E; [| done]. exfalso. apply Hin. split; [by eexists | done].
    + rewrite bool_decide_false, lookup_delete_ne; [done | by intros ->; apply HP; left |].
      rewrite Hus. intros [_ ?]. apply HP. by right.
  - exists s, m. split_and!; [done | done | | done]. split; [| done].
    intros p [-> | Hp]; [done |]. destruct (m !! p) eqn:E; [| done]. exfalso.
    rewrite (Hc p g) in Hg; [done | by eexists | done].
Qed.

Definition dropped (l : list (path * Seen)) (p : path) : Prop := ∃ g, (g, SGone) ∈ l ∧ within g p.
Lemma dropped_dec l p : dropped l p ∨ ¬ dropped l p.
Proof.
  unfold dropped. induction l as [| [g x] l [IH | IH]].
  - right. by intros (? & ?%not_elem_of_nil & _).
  - left. destruct IH as (g' & ? & ?). exists g'. split; [by right | done].
  - destruct (decide (x = SGone)) as [-> | Hx].
    + destruct (within_dec g p) as [Hw | Hw]; [left; exists g; split; [left | done] |].
      right. intros (g' & [[= ->] | ?]%elem_of_cons & ?); [done |]. apply IH. by exists g'.
    + right. intros (g' & [[= -> <-] | ?]%elem_of_cons & ?); [done |]. apply IH. by exists g'.
Qed.

Lemma gone_loop_spec l s m :
  manifest s m → closed m →
  ∃ s' m', fold_result (gone_step None) s l = Ok s' ∧ manifest s' m' ∧ closed m' ∧ without (dropped l) m m'
    ∧ t_blobs s' = t_blobs s.
Proof.
  revert s m. induction l as [| [g x] l IH]; intros s m Hm Hc; cbn [fold_result].
  - exists s, m. split_and!; [done.. | | done]. split; [| done]. by intros p (? & ?%not_elem_of_nil & _).
  - assert (∃ s1 m1, gone_step None s (g, x) = Ok s1 ∧ manifest s1 m1
      ∧ without (λ p, x = SGone ∧ within g p) m m1 ∧ t_blobs s1 = t_blobs s) as (s1 & m1 & -> & Hm1 & Hw1 & Hb1).
    { destruct x; try (exists s, m; split_and!; [done.. | | done]; split; [by intros p [? _] | done]).
      destruct (gone_step_spec s m g Hm Hc) as (s1 & m1 & H1 & H2 & [H3 H4] & H5). exists s1, m1.
      split_and!; [done.. | | done]. split; [intros p [_ ?]; auto | intros p Hn; apply H4; naive_solver]. }
    rewrite bind_Ok. destruct (IH s1 m1) as (s' & m' & Hrun & Hm' & Hc' & [Hw2 Hw3] & Hb2); [done | |].
    { eapply closed_without, Hc; [| | exact Hw1]; [by intros d p [? ?] ?; split; [| by eapply within_below] |].
      intros p. destruct (decide (x = SGone)), (within_dec g p); tauto. }
    exists s', m'. split_and!; [done.. | | congruence]. destruct Hw1 as [Hw1 Hw1']. split.
    + intros p (g' & [[= -> <-] | Hin]%elem_of_cons & Hw); [| apply Hw2; by exists g'].
      destruct (dropped_dec l p) as [Hd | Hd]; [by apply Hw2 |]. rewrite Hw3 by done. by apply Hw1.
    + intros p Hn. rewrite Hw3, Hw1'; [done | |].
      * intros [-> Hw]. apply Hn. exists g. split; [left | done].
      * intros (g' & ? & ?). apply Hn. exists g'. split; [by right | done].
Qed.

(** ** Directories *)

(** A directory [p] is made when it is, or is above, one of [ds]. *)
Definition above (ds : list path) (p : path) : Prop := ∃ d, d ∈ ds ∧ (p = d ∨ p ∈ parents d).
Definition with_dirs (P : path → Prop) (m m' : gmap path Entry) : Prop :=
  (∀ p, P p → m' !! p = Some EDir) ∧ (∀ p, ¬ P p → m' !! p = m !! p).

Lemma dir_step_spec s m d :
  manifest s m → closed m →
  ∃ s' m', dir_step None s (d, SDir) = Ok s' ∧ manifest s' m' ∧ closed m'
    ∧ with_dirs (λ p, p = d ∨ p ∈ parents d) m m' ∧ t_blobs s' = t_blobs s.
Proof.
  intros Hm Hc. unfold dir_step. rewrite (current_manifest s m) by done. cbn [mbind result_bind].
  case_bool_decide as Hd.
  - exists s, m. split_and!; [done.. | | done]. split; [| done]. intros p [-> | Hp]; [done |]. by eapply Hc.
  - exists (put_dir d s), (<[d := EDir]> (add_dirs (parents d) m)).
    split_and!; [done | by apply manifest_put_dir | apply closed_put; [done | by left] | |].
    + split; intros p HP.
      * destruct (decide (p = d)) as [-> | Hn]; [by rewrite lookup_insert_eq |].
        rewrite lookup_insert_ne, lookup_add_dirs, bool_decide_true by naive_solver. done.
      * rewrite lookup_insert_ne, lookup_add_dirs, bool_decide_false by naive_solver. done.
    + assert (∀ ds s, t_blobs (foldl put_one_dir s ds) = t_blobs s) as Hb; [| apply (Hb (parents d))].
      clear. induction ds as [| x ds IH]; intros s; simpl; [done |]. by rewrite IH.
Qed.
Definition seen_dirs (l : list (path * Seen)) : list path :=
  omap (λ x, match x.2 with SDir => Some x.1 | _ => None end) l.

Lemma dir_loop_spec l s m :
  manifest s m → closed m →
  ∃ s' m', fold_result (dir_step None) s l = Ok s' ∧ manifest s' m' ∧ closed m'
    ∧ with_dirs (above (seen_dirs l)) m m' ∧ t_blobs s' = t_blobs s.
Proof.
  revert s m. induction l as [| [d x] l IH]; intros s m Hm Hc; cbn [fold_result].
  - exists s, m. split_and!; [done.. | | done]. split; [| done]. by intros p (? & ?%not_elem_of_nil & _).
  - destruct x.
    1, 2, 4: cbn [dir_step mbind result_bind mret result_ret]; destruct (IH s m Hm Hc) as (s' & m' & ? & ? & ? & ? & ?); by exists s', m'.
    destruct (dir_step_spec s m d Hm Hc) as (s1 & m1 & -> & Hm1 & Hc1 & [H1 H2] & Hb1).
    rewrite bind_Ok. destruct (IH s1 m1 Hm1 Hc1) as (s' & m' & Hrun & Hm' & Hc' & [H3 H4] & Hb2).
    exists s', m'. split_and!; [done.. | | congruence]. split.
    + intros p (d' & [-> | Hin]%elem_of_cons & Hp); [| apply H3; by exists d'].
      destruct (decide (Exists (λ d', p = d' ∨ p ∈ parents d') (seen_dirs l))) as [He | He].
      * apply H3. apply Exists_exists in He as (d' & ? & ?). by exists d'.
      * rewrite H4; [by apply H1 |]. intros (d' & ? & ?). apply He, Exists_exists. by exists d'.
    + intros p Hn. rewrite H4, H2; [done | |].
      * intros Hp. apply Hn. exists d. split; [left | done].
      * intros (d' & ? & ?). apply Hn. exists d'. split; [by right | done].
Qed.

Lemma above_dec ds p : above ds p ∨ ¬ above ds p.
Proof.
  destruct (decide (Exists (λ d, p = d ∨ p ∈ parents d) ds)) as [He | He].
  - left. by apply Exists_exists in He.
  - right. intros Ha. by apply He, Exists_exists.
Qed.

(** ** Files *)

(** Blobs are stored under their hash. *)
Definition blobs_ok (s : store) : Prop := ∀ k b, t_blobs s !! k = Some b → k = as_bytes (blake3 b).
Definition blobs_kept (s s' : store) : Prop := ∀ k b, t_blobs s !! k = Some b → t_blobs s' !! k = Some b.

Lemma store_blob_spec bytes s :
  blobs_ok s → ∃ s', store_blob bytes s = (blake3 bytes, s') ∧ t_tree s' = t_tree s ∧ t_diag s' = t_diag s
    ∧ blobs_ok s' ∧ blobs_kept s s' ∧ is_Some (t_blobs s' !! as_bytes (blake3 bytes)).
Proof.
  intros Hok. unfold store_blob, content_hash. destruct (t_blobs s !! as_bytes (blake3 bytes)) as [b |] eqn:E.
  - exists s. split_and!; [done.. | by intros ??? | by eexists].
  - eexists. split_and!; [done.. | | |]; simpl.
    + intros k b. simpl. destruct (decide (k = as_bytes (blake3 bytes))) as [-> | Hn].
      * rewrite lookup_insert_eq. by intros [= ->].
      * rewrite lookup_insert_ne by done. apply Hok.
    + intros k b Hk. simpl. rewrite lookup_insert_ne; [done |]. intros <-. congruence.
    + rewrite lookup_insert_eq. by eexists.
Qed.

Definition seen_files (l : list (path * Seen)) : list (path * list byte) :=
  omap (λ x, match x.2 with SMemory b => Some (x.1, b) | _ => None end) l.

Lemma file_step_memory cached s stored m rel bytes :
  manifest s m → blobs_ok s →
  ∃ s' stored', file_step None memory disk outcomes cached (s, stored) (rel, SMemory bytes) = Ok (s', stored')
    ∧ manifest s' (<[rel := EFile (memory_mode memory (m !! rel) rel) (blake3 bytes)]> (add_dirs (parents rel) m))
    ∧ blobs_ok s' ∧ blobs_kept s s' ∧ is_Some (t_blobs s' !! as_bytes (blake3 bytes)).
Proof.
  intros Hm Hok. unfold file_step. rewrite (current_manifest s m) by done. rewrite bind_Ok.
  assert (file_plan memory disk outcomes cached (m !! rel) rel (SMemory bytes)
    = Ok (Some (memory_mode memory (m !! rel) rel, None, Some bytes))) as -> by done.
  destruct (store_blob_spec bytes s Hok) as (s1 & Hs1 & Ht & Hd & Hok1 & Hk1 & Hin).
  rewrite bind_Ok, Hs1.
  assert (manifest s1 m) as Hm1 by by eapply manifest_ext.
  assert (∃ s2, (if bool_decide (m !! rel ≫= Entry_blob = Some (blake3 bytes)) then mret s1
    else lift (set_diagnostic rel None s1)) = Ok s2 ∧ t_tree s2 = t_tree s1 ∧ t_blobs s2 = t_blobs s1) as (s2 & -> & Ht2 & Hb2).
  { case_bool_decide; [by exists s1 |]. by eexists. }
  rewrite bind_Ok. do 2 eexists. split; [done |].
  assert (∀ ds s, t_blobs (foldl put_one_dir s ds) = t_blobs s) as Hbd.
  { clear. induction ds as [| x ds IH]; intros s; simpl; [done |]. by rewrite IH. }
  assert (t_blobs (put_file rel (memory_mode memory (m !! rel) rel) (blake3 bytes) None s2) = t_blobs s1) as Hbf.
  { unfold put_file, put_parents. simpl. by rewrite Hbd. }
  split_and!; [apply manifest_put_file; by eapply manifest_ext | | | by rewrite Hbf].
  - unfold blobs_ok. by rewrite Hbf.
  - unfold blobs_kept. by rewrite Hbf.
Qed.

Lemma file_loop_spec cached l s stored m :
  manifest s m → closed m → blobs_ok s →
  (∀ rel b, (rel, SDisk b) ∉ l) → NoDup l.*1 →
  (∀ p b, (p, b) ∈ seen_files l → vacant m p) →
  (∀ p q, p ∈ (seen_files l).*1 → q ∈ (seen_files l).*1 → p ∉ parents q) →
  ∃ s' stored' m', fold_result (file_step None memory disk outcomes cached) (s, stored) l = Ok (s', stored')
    ∧ manifest s' m' ∧ closed m' ∧ blobs_ok s' ∧ blobs_kept s s'
    ∧ (∀ p b, (p, b) ∈ seen_files l → m' !! p = Some (EFile (memory_mode memory (m !! p) p) (blake3 b))
                                     ∧ is_Some (t_blobs s' !! as_bytes (blake3 b)))
    ∧ (∀ p q, q ∈ (seen_files l).*1 → p ∈ parents q → m' !! p = Some EDir)
    ∧ (∀ p, ¬ above (seen_files l).*1 p → m' !! p = m !! p).
Proof.
  revert s stored m. induction l as [| [rel x] l IH]; intros s stored m Hm Hc Hok Hnd Hdup Hvac Hpar; cbn [fold_result].
  { exists s, stored, m. split_and!; try done; [by intros ??? | by intros ? ? ?%not_elem_of_nil..]. }
  csimpl in Hdup. apply NoDup_cons in Hdup as [Hrel Hdup].
  assert (∀ rel b, (rel, SDisk b) ∉ l) as Hnd' by set_solver.
  destruct x as [sl | bytes | |]; [by exfalso; apply (Hnd rel sl); left | | |].
  2, 3: change (file_step None memory disk outcomes cached (s, stored) _) with
    (was ← current None s rel; mret (s, stored)); rewrite (current_manifest s m) by done;
    destruct (IH s stored m) as (s' & st' & m' & ? & ?); try done; by exists s', st', m'.
  change (seen_files ((rel, SMemory bytes) :: l)) with ((rel, bytes) :: seen_files l) in *.
  change (((rel, bytes) :: seen_files l).*1) with (rel :: (seen_files l).*1) in *.
  assert (rel ∉ (seen_files l).*1) as Hnin.
  { intros (y & -> & Hy)%list_elem_of_fmap. apply Hrel. unfold seen_files in Hy.
    apply list_elem_of_omap in Hy as ([q x] & Hq & Hx). destruct x; simplify_eq/=. by apply (list_elem_of_fmap_2 fst) in Hq. }
  destruct (file_step_memory cached s stored m rel bytes Hm Hok) as (s1 & st1 & -> & Hm1 & Hok1 & Hk1 & Hin1).
  rewrite bind_Ok. set (m1 := <[rel := _]> _) in *.
  assert (∀ p, p ≠ rel → p ∉ parents rel → m1 !! p = m !! p) as Hsame.
  { intros p Hn Hp. unfold m1. by rewrite lookup_insert_ne, lookup_add_dirs, bool_decide_false by done. }
  assert (∀ p b, (p, b) ∈ seen_files l → p ≠ rel ∧ p ∉ parents rel) as Hsep.
  { intros p b Hp. apply (list_elem_of_fmap_2 fst) in Hp. simpl in Hp. split; [by intros -> |]. apply Hpar; [by right | left]. }
  destruct (IH s1 st1 m1) as (s' & st' & m' & Hrun & Hm' & Hc' & Hok' & Hk' & Hf & Hd & Ho).
  - done.
  - apply closed_put; [done |]. right. eapply Hvac. left.
  - done.
  - done.
  - done.
  - intros p b Hp q Hq. destruct (Hsep p b Hp) as [Hn1 Hn2]. rewrite Hsame; [eapply Hvac; [by right | done] | |].
    + intros ->. done.
    + intros Hqr. apply Hn2. by eapply parents_trans.
  - intros p q Hp Hq. apply Hpar; by right.
  - exists s', st', m'. split_and!; [done.. | by intros k b Hb; apply Hk', Hk1 | | |].
    + intros p b [[= -> ->] | Hp]%elem_of_cons.
      * rewrite Ho; [unfold m1; rewrite lookup_insert_eq; split; [done |] |].
        -- destruct Hin1 as [b' Hb']. exists b'. by apply Hk'.
        -- intros (q & Hq & [-> | Hpq]); [done |]. eapply Hpar; [| | exact Hpq]; [left | by right].
      * destruct (Hsep p b Hp) as [Hn1 Hn2]. rewrite <- Hsame by done. by apply Hf.
    + intros p q [-> | Hq]%elem_of_cons Hp; [| by eapply Hd].
      destruct (above_dec (seen_files l).*1 p) as [(q & Hq & [-> | Hpq]) | Hn].
      * exfalso. eapply Hpar; [| | exact Hp]; [by right | left].
      * by eapply Hd.
      * rewrite Ho by done. unfold m1. rewrite lookup_insert_ne by (intros <-; by apply parents_irrefl in Hp).
        by rewrite lookup_add_dirs, bool_decide_true.
    + intros p Hn. rewrite Ho, Hsame; [done | | |].
      * intros ->. apply Hn. exists rel. split; [left | by left].
      * intros Hp. apply Hn. exists rel. split; [left | by right].
      * intros (q & Hq & Hp). apply Hn. exists q. split; [by right | done].
Qed.

(** ** Diagnostics leave the manifest alone *)

Lemma diagnostics_keep_tree stored s m ps us :
  manifest s m →
  ∃ s', (s ← fold_result projected_step s ps; fold_result (unprojected_step None stored) s us) = Ok s'
    ∧ t_tree s' = t_tree s ∧ t_blobs s' = t_blobs s.
Proof.
  intros Hm.
  assert (∃ s1, fold_result projected_step s ps = Ok s1 ∧ t_tree s1 = t_tree s ∧ t_blobs s1 = t_blobs s)
    as (s1 & -> & Ht1 & Hb1).
  { clear Hm. revert s. induction ps as [| [rel [hash e]] ps IH]; intros s; cbn [fold_result]; [by exists s |].
    assert (∃ s1, projected_step s (rel, (hash, e)) = Ok s1 ∧ t_tree s1 = t_tree s ∧ t_blobs s1 = t_blobs s)
      as (s1 & -> & Ht & Hb).
    { unfold projected_step, set_diagnostic. destruct e; simpl; [rewrite lookup_delete_eq |]; by eexists. }
    rewrite bind_Ok. destruct (IH s1) as (s' & ? & Ht' & Hb'). exists s'. split_and!; [done | congruence..]. }
  rewrite bind_Ok. assert (manifest s1 m) as Hm1 by by eapply manifest_ext. rewrite <- Ht1, <- Hb1. clear -Hm1.
  revert s1 Hm1. induction us as [| [rel msg] us IH]; intros s Hm; cbn [fold_result]; [by exists s |].
  assert (∃ s1, unprojected_step None stored s (rel, msg) = Ok s1 ∧ t_tree s1 = t_tree s ∧ t_blobs s1 = t_blobs s)
    as (s1 & -> & Ht & Hb).
  { unfold unprojected_step. rewrite (current_manifest s m) by done.
    destruct (match stored !! rel with Some b => _ | None => _ end) as [[blob |] | |] eqn:E; cbn.
    - unfold set_diagnostic. rewrite lookup_delete_eq. by eexists.
    - by exists s.
    - destruct (stored !! rel); done.
    - destruct (stored !! rel); done. }
  rewrite bind_Ok. destruct (IH s1) as (s' & ? & Ht' & Hb'); [by eapply manifest_ext |].
  exists s'. split_and!; [done | congruence..].
Qed.
End written.

(** ** A pass over written files *)

Lemma lookup_mark (x : Seen) (l : list path) (seen : gmap path Seen) p :
  foldl (λ seen d, <[d := x]> seen) seen l !! p = if bool_decide (p ∈ l) then Some x else seen !! p.
Proof.
  revert seen. induction l as [| d l IH]; intros seen; [done |]. cbn [foldl]. rewrite IH.
  destruct (decide (p = d)) as [-> | Hne].
  - rewrite lookup_insert_eq, (bool_decide_true (d ∈ d :: l)) by left. by case_bool_decide.
  - rewrite lookup_insert_ne by done. repeat case_bool_decide; set_solver.
Qed.
Lemma lookup_mark_files (files : gmap path (list byte)) (gone : path → bool) (l : list (path * list byte)) (seen : gmap path Seen) p :
  (∀ q b, (q, b) ∈ l → files !! q = Some b) →
  foldl (λ seen '(rel, bytes), if gone rel then seen else <[rel := SMemory bytes]> seen) seen l !! p
  = if gone p || negb (bool_decide (p ∈ l.*1)) then seen !! p else SMemory <$> files !! p.
Proof.
  revert seen. induction l as [| [q b] l IH]; intros seen Hl; [by rewrite orb_true_r |]. cbn [foldl].
  rewrite IH by (intros; apply Hl; by right). change (((q, b) :: l).*1) with (q :: l.*1).
  destruct (decide (p = q)) as [-> | Hne].
  - rewrite (bool_decide_true (q ∈ q :: l.*1)) by left. destruct (gone q); [done |]. simpl.
    rewrite lookup_insert_eq, (Hl q b) by left. by destruct (bool_decide _).
  - assert ((if gone q then seen else <[q := SMemory b]> seen) !! p = seen !! p) as ->.
    { destruct (gone q); [done | by rewrite lookup_insert_ne]. }
    destruct (gone p); [done |]. simpl. repeat case_bool_decide; set_solver.
Qed.
Lemma lookup_see_paths (files : gmap path (list byte)) (removed : gset path) (edits : TreeEdits) (disk : Disk)
    (l : list path) (seen : gmap path Seen) (p : path) :
  (∀ q, q ∈ l → q ∈ removed ∨ is_Some (files !! q)) →
  foldl (see_path (Some (Written files removed edits)) disk) seen l !! p
  = if bool_decide (p ∈ l ∧ p ∈ removed) then Some SGone else seen !! p.
Proof.
  revert seen. induction l as [| q l IH]; intros seen Hl.
  { rewrite bool_decide_false; [done |]. intros [?%not_elem_of_nil _]. done. }
  cbn [foldl]. rewrite IH by (intros; apply Hl; by right). unfold see_path, removes, mem_removes.
  destruct (decide (q ∈ removed)) as [Hq | Hq]; [rewrite (bool_decide_true (q ∈ removed) Hq) | rewrite (bool_decide_false (q ∈ removed) Hq)].
  - destruct (decide (p = q)) as [-> | Hne].
    + rewrite lookup_insert_eq, (bool_decide_true (q ∈ q :: l ∧ q ∈ removed)) by (split; [left | done]). by case_bool_decide.
    + rewrite lookup_insert_ne by done. repeat case_bool_decide; set_solver.
  - destruct (Hl q) as [? | Hf]; [left | done |]. unfold mem_bytes. cbn [mbind option_bind mem_files].
    rewrite (bool_decide_true _ Hf). destruct (decide (p = q)) as [-> | Hne]; repeat case_bool_decide; set_solver.
Qed.

Lemma seen_written (files : gmap path (list byte)) (removed : gset path) (edits : TreeEdits) (disk : Disk) (p : path) :
  let memory := Written files removed edits in
  see_memory memory (see_reach (ReachPaths (sorted_keys files ++ elements removed)) (Some memory) disk) !! p
  = if bool_decide (p ∈ rmdirs edits) then Some SGone
    else if bool_decide (p ∈ mkdirs edits) then Some SDir
    else if bool_decide (p ∈ removed) then Some SGone
    else SMemory <$> files !! p.
Proof.
  unfold see_memory, see_reach. cbn [mem_edits mem_files mem_removes]. rewrite !lookup_mark.
  rewrite (lookup_mark_files files (λ rel, bool_decide (rel ∈ removed))) by (intros; by apply elem_of_sorted_pairs).
  rewrite lookup_see_paths.
  2: { intros q [Hq%elem_of_sorted_keys | Hq%elem_of_elements]%elem_of_app; [by right | by left]. }
  rewrite sorted_pairs_fst, !(bool_decide_ext (_ ∈ elements _) _ (elem_of_elements _ _)).
  repeat (case_bool_decide; [done |]). rewrite lookup_empty.
  destruct (decide (is_Some (files !! p))) as [Hf | Hf].
  - rewrite (bool_decide_true (p ∈ sorted_keys files)) by (by apply elem_of_sorted_keys).
    repeat case_bool_decide; simpl; set_solver.
  - rewrite (bool_decide_false (p ∈ sorted_keys files)) by (by rewrite elem_of_sorted_keys).
    rewrite orb_true_r. apply eq_None_not_Some in Hf. rewrite Hf. repeat case_bool_decide; set_solver.
Qed.

(** The paths a pass is given are one tree's: disjoint, and nothing is left under
    what leaves. *)
Record fits (files : gmap path (list byte)) (removed : gset path) (edits : TreeEdits) (m : gmap path Entry) : Prop := {
  fit_leaving : dom files ## removed ∪ rmdirs edits;
  fit_mkdirs : mkdirs edits ## removed ∪ rmdirs edits ∪ dom files;
  fit_under : ∀ g p, g ∈ removed ∪ rmdirs edits → g ∈ parents p → is_Some (m !! p) → p ∈ removed ∪ rmdirs edits;
  fit_file : ∀ p q, is_Some (files !! p) → is_Some (files !! q) ∨ q ∈ mkdirs edits → p ∉ parents q;
  fit_dir : ∀ p, is_Some (files !! p) → m !! p ≠ Some EDir;
}.
(** The paths that are made or written, with those above them. *)
Definition made (files : gmap path (list byte)) (edits : TreeEdits) (p : path) : Prop :=
  p ∈ mkdirs edits ∨ ∃ q, (is_Some (files !! q) ∨ q ∈ mkdirs edits) ∧ p ∈ parents q.
Lemma made_dec files edits p : made files edits p ∨ ¬ made files edits p.
Proof.
  unfold made. destruct (decide (p ∈ mkdirs edits)); [by left; left |].
  destruct (decide (set_Exists (λ q, p ∈ parents q) (dom files ∪ mkdirs edits))) as [Hx | Hx].
  - left. right. destruct Hx as (q & Hq & Hp). exists q. split; [| done]. by rewrite <- elem_of_dom, <- elem_of_union.
  - right. intros [? | (q & Hq & Hp)]; [done |]. apply Hx. exists q. split; [| done]. by rewrite elem_of_union, elem_of_dom.
Qed.
(** What the pass leaves at each path. *)
Record settled `{Blake3} (files : gmap path (list byte)) (removed : gset path) (edits : TreeEdits) (m m' : gmap path Entry) : Prop := {
  st_file : ∀ p bytes, files !! p = Some bytes →
    m' !! p = Some (EFile (memory_mode (Some (Written files removed edits)) (m !! p) p) (blake3 bytes));
  st_made : ∀ p, made files edits p → m' !! p = Some EDir;
  st_gone : ∀ p, ¬ made files edits p → p ∈ removed ∪ rmdirs edits → m' !! p = None;
  st_kept : ∀ p, ¬ made files edits p → p ∉ removed ∪ rmdirs edits → files !! p = None → m' !! p = m !! p;
}.

Section written_pass.
Context `{Blake3} (files : gmap path (list byte)) (removed : gset path) (edits : TreeEdits) (disk : Disk)
  (outcomes : Outcomes).
Let memory := Some (Written files removed edits).

(** The seen map of the pass, as lists of what each loop takes. *)
Lemma seen_kinds (seen : gmap path Seen) m :
  fits files removed edits m →
  (∀ p, seen !! p = if bool_decide (p ∈ rmdirs edits) then Some SGone
                    else if bool_decide (p ∈ mkdirs edits) then Some SDir
                    else if bool_decide (p ∈ removed) then Some SGone
                    else SMemory <$> files !! p) →
  let l := sorted_pairs seen in
  (∀ p, (p, SGone) ∈ l ↔ p ∈ removed ∪ rmdirs edits)
  ∧ (∀ p, p ∈ seen_dirs l ↔ p ∈ mkdirs edits)
  ∧ (∀ p b, (p, b) ∈ seen_files l ↔ files !! p = Some b)
  ∧ (∀ p b, (p, SDisk b) ∉ l).
Proof.
  intros [Hlv Hmk _ _ _] Hseen l.
  assert (∀ p x, (p, x) ∈ l ↔ seen !! p = Some x) as Hl by (intros; apply elem_of_sorted_pairs).
  assert (∀ p, p ∈ mkdirs edits → p ∉ removed ∧ p ∉ rmdirs edits) as Hm1 by set_solver.
  assert (∀ p b, files !! p = Some b → p ∉ removed ∧ p ∉ rmdirs edits ∧ p ∉ mkdirs edits) as Hf1.
  { intros p b Hp. apply elem_of_dom_2 in Hp. set_solver. }
  split_and!.
  - intros p. rewrite Hl, Hseen, elem_of_union. specialize (Hm1 p). clear -Hm1.
    repeat case_bool_decide; [by naive_solver.. |]. destruct (files !! p); by naive_solver.
  - intros p. unfold seen_dirs. rewrite list_elem_of_omap. split.
    + intros ([q x] & Hq & Hx). destruct x; simplify_eq/=. apply Hl in Hq. rewrite Hseen in Hq.
      repeat case_bool_decide; try done. destruct (files !! p); done.
    + intros Hp. exists (p, SDir). split; [| done]. rewrite Hl, Hseen. destruct (Hm1 p Hp).
      by rewrite bool_decide_false, bool_decide_true.
  - intros p b. unfold seen_files. rewrite list_elem_of_omap. split.
    + intros ([q x] & Hq & Hx). destruct x; simplify_eq/=. apply Hl in Hq. rewrite Hseen in Hq.
      repeat case_bool_decide; try done. by destruct (files !! p); simplify_eq/=.
    + intros Hp. exists (p, SMemory b). split; [| done]. rewrite Hl, Hseen. destruct (Hf1 p b Hp) as (? & ? & ?).
      by rewrite !bool_decide_false, Hp.
  - intros p b. rewrite Hl, Hseen. repeat case_bool_decide; try done. by destruct (files !! p).
Qed.

(** The pass succeeds and leaves exactly what it was given. *)
Lemma sync_written_spec s m :
  manifest s m → closed m → blobs_ok s → fits files removed edits m →
  ∃ s' m', sync_written files removed edits disk outcomes s = Ok s' ∧ manifest s' m' ∧ closed m'
    ∧ settled files removed edits m m' ∧ blobs_ok s' ∧ blobs_kept s s'
    ∧ (∀ p b, files !! p = Some b → is_Some (t_blobs s' !! as_bytes (blake3 b))).
Proof.
  intros Hm Hc Hok Hfit. unfold sync_written, sync. cbn [is_whole].
  set (seen := see_memory _ _). pose proof (seen_written files removed edits disk) as Hseen.
  destruct (seen_kinds seen m Hfit Hseen) as (Hgone & Hdirs & Hfiles & Hdisk). clear Hseen.
  unfold apply_seen. set (l := sorted_pairs seen) in *.
  assert (NoDup l.*1) as Hdup by (unfold l; rewrite sorted_pairs_fst; apply NoDup_sorted_keys).
  destruct (gone_loop_spec l s m Hm Hc) as (s1 & m1 & -> & Hm1 & Hc1 & [Hw1 Hw2] & Hb1). rewrite bind_Ok.
  destruct (dir_loop_spec l s1 m1 Hm1 Hc1) as (s2 & m2 & -> & Hm2 & Hc2 & [Hd1 Hd2] & Hb2). rewrite bind_Ok.
  assert (∀ p, m1 !! p = if bool_decide (p ∈ removed ∪ rmdirs edits) then None else m !! p) as Hm1e.
  { intros p. case_bool_decide as Hp; [apply Hw1; exists p; split; [by apply Hgone | by left] |].
    destruct (dropped_dec l p) as [Hdr | Hdr]; [| by apply Hw2]. rewrite Hw1 by done.
    destruct Hdr as (g & Hg%Hgone & [-> | Hpar]); [done |]. destruct (m !! p) eqn:E; [| done].
    exfalso. apply Hp. eapply fit_under; [done | exact Hg | exact Hpar | by rewrite E]. }
  assert (∀ p b, files !! p = Some b → m2 !! p = m !! p) as Hm2e.
  { intros p b Hp. rewrite Hd2, Hm1e, bool_decide_false; [done | |].
    - pose proof (fit_leaving _ _ _ _ Hfit). apply elem_of_dom_2 in Hp. set_solver.
    - intros (d & Hd%Hdirs & [-> | Hpar]).
      + pose proof (fit_mkdirs _ _ _ _ Hfit). apply elem_of_dom_2 in Hp. set_solver.
      + eapply fit_file; [done | by eexists | by right | exact Hpar]. }
  assert (∀ p, p ∈ (seen_files l).*1 ↔ is_Some (files !! p)) as Hkeys.
  { intros p. rewrite list_elem_of_fmap. split.
    - intros ([q b] & -> & Hq%Hfiles). by eexists.
    - intros [b Hb%Hfiles]. by exists (p, b). }
  destruct (file_loop_spec (Some (Written files removed edits)) disk outcomes (stats s) l s2 ∅ m2)
    as (s3 & st & m3 & -> & Hm3 & Hc3 & Hok3 & Hk3 & Hf3 & Hp3 & Ho3); try done.
  { unfold blobs_ok. by rewrite Hb2, Hb1. }
  { intros p b Hp%Hfiles. apply closed_vacant; [done |]. rewrite (Hm2e p b Hp).
    eapply fit_dir; [done | by eexists]. }
  { intros p q Hp%Hkeys Hq%Hkeys. eapply fit_file; [done.. | by left]. }
  rewrite bind_Ok. destruct (diagnostics_keep_tree st s3 m3 (sorted_pairs (projected outcomes)) (sorted_pairs (unprojected outcomes)) Hm3)
    as (s4 & -> & Ht4 & Hb4).
  exists s4, m3. split_and!; [done | by eapply manifest_ext | done | | by unfold blobs_ok; rewrite Hb4 | |].
  - assert (∀ p, made files edits p → ¬ is_Some (files !! p)) as Hnf.
    { intros p [Hp | (q & Hq & Hpar)] Hf; [| by eapply fit_file].
      pose proof (fit_mkdirs _ _ _ _ Hfit). apply elem_of_dom in Hf. set_solver. }
    assert (∀ p, ¬ made files edits p → ¬ above (seen_dirs l) p) as Hna.
    { intros p Hp (d & Hd%Hdirs & [-> | Hpar]); apply Hp; [by left |]. right. exists d. split; [by right | done]. }
    split.
    + intros p b Hb. destruct (Hf3 p b) as [-> _]; [by apply Hfiles |]. by rewrite (Hm2e p b Hb).
    + intros p Hmade. destruct (decide (Exists (λ q, p ∈ parents q) (seen_files l).*1)) as [He | He].
      * apply Exists_exists in He as (q & ? & ?). by eapply Hp3.
      * rewrite Ho3.
        -- apply Hd1. destruct Hmade as [Hp | (q & [Hq | Hq] & Hpar)].
           ++ exists p. split; [by apply Hdirs | by left].
           ++ exfalso. apply He, Exists_exists. exists q. split; [by apply Hkeys | done].
           ++ exists q. split; [by apply Hdirs | by right].
        -- intros (q & Hq & [-> | Hpar]); [by apply (Hnf q), Hkeys |]. apply He, Exists_exists. by exists q.
    + intros p Hn Hp. rewrite Ho3, Hd2, Hm1e, bool_decide_true; [done.. | by apply Hna |].
      intros (q & Hq%Hkeys & [-> | Hpar]); [| apply Hn; right; exists q; split; [by left | done]].
      pose proof (fit_leaving _ _ _ _ Hfit). apply elem_of_dom in Hq. set_solver.
    + intros p Hn Hp Hf. rewrite Ho3, Hd2, Hm1e, bool_decide_false; [done.. | by apply Hna |].
      intros (q & Hq%Hkeys & [-> | Hpar]); [rewrite Hf in Hq; by destruct Hq |].
      apply Hn. right. exists q. split; [by left | done].
  - intros k b Hk. rewrite Hb4. apply Hk3. by rewrite Hb2, Hb1.
  - intros p b Hb. rewrite Hb4. by apply (Hf3 p b), Hfiles.
Qed.
End written_pass.
