(* ===== verification/Proposal.v ===== *)
(** * Proposals: the writer of a store

    [rs/ll-open/cli-lib/src/source_write.rs]: a set of path changes, each against
    the base its author read, applied as one change or refused.  What the parse of
    the written files does to its own tables is a parameter; the manifest and the
    blobs are those of [Tree] and [TreeSync], the merge that of [Merge]. *)

From S2P Require Import Prelude Substrate Tree TreeRoot Merge TreeSync.
From Stdlib Require Import NArith Lia.
Local Open Scope N_scope.

(** ** What a writer sends *)

Inductive Grant := Whole | Paths (paths : gset path).
Definition Grant_covers (g : Grant) (p : path) : bool :=
  match g with Whole => true | Paths paths => bool_decide (p ∈ paths) end.
Definition Grant_covers_dir (g : Grant) (dir : path) : bool :=
  match g with
  | Whole => true
  | Paths paths => existsb (λ p, bool_decide ((dir ++ [slash]) `prefix_of` p)) (elements paths)
  end.

Inductive Base := Any | Blob (h : Hash) | Absent.
Inductive Change := Write (bytes : list byte) (mode : option Mode) | Delete | Mkdir | Rmdir.
Record Proposed := { pr_path : path; pr_base : Base; pr_change : Change }.
#[global] Instance Base_eq_dec : EqDecision Base.
Proof. solve_decision. Defined.
#[global] Instance Change_eq_dec : EqDecision Change.
Proof. solve_decision. Defined.

Definition Proposed_write (p : path) (base : Base) (bytes : list byte) : Proposed :=
  {| pr_path := p; pr_base := base; pr_change := Write bytes None |}.
Definition Proposed_write_mode (p : path) (base : Base) (bytes : list byte) (mode : Mode) : Proposed :=
  {| pr_path := p; pr_base := base; pr_change := Write bytes (Some mode) |}.
Definition Proposed_create (p : path) (bytes : list byte) : Proposed := Proposed_write p Absent bytes.
Definition Proposed_delete (p : path) (base : Base) : Proposed :=
  {| pr_path := p; pr_base := base; pr_change := Delete |}.
Definition Proposed_mkdir (p : path) : Proposed := {| pr_path := p; pr_base := Absent; pr_change := Mkdir |}.
Definition Proposed_rmdir (p : path) : Proposed := {| pr_path := p; pr_base := Any; pr_change := Rmdir |}.

(** ** Directories as their components

    [Path::components]: a leading root, then the names; [.] only at the start of a
    relative path. *)

Inductive component := RootDir | CurDir | ParentDir | Normal (name : list byte).
#[global] Instance component_eq_dec : EqDecision component.
Proof. solve_decision. Defined.
Fixpoint split_slash (p : list byte) : list (list byte) :=
  match p with
  | [] => [[]]
  | b :: p =>
      if bool_decide (b = slash) then [] :: split_slash p
      else match split_slash p with c :: cs => (b :: c) :: cs | [] => [[b]] end
  end.
Definition dot : list byte := [x2e].
Definition dotdot : list byte := [x2e; x2e].
Definition component_of (name : list byte) : option component :=
  if bool_decide (name = [] ∨ name = dot) then None
  else if bool_decide (name = dotdot) then Some ParentDir else Some (Normal name).
Definition components (p : path) : list component :=
  match split_slash p with
  | [] => []
  | first :: rest =>
      (if bool_decide (first = []) then match rest with [] => [] | _ => [RootDir] end
       else if bool_decide (first = dot) then [CurDir]
       else option_list (component_of first))
      ++ omap component_of rest
  end.
(** [ancestors().nth(depth)]: a root and the empty path have no parent. *)
Fixpoint nth_ancestor (depth : nat) (p : list component) : option (list component) :=
  match depth with
  | O => Some p
  | S depth =>
      match last p with
      | None | Some RootDir => None
      | Some _ => nth_ancestor depth (removelast p)
      end
  end.

Definition plain_relative (p : path) : bool :=
  negb (bool_decide (p = []))
  && forallb (λ c, negb (bool_decide (c = [])) && negb (bool_decide (c = dot)) && negb (bool_decide (c = dotdot)))
       (split_slash p).

(** ** Refusals *)

Record Stale := { sl_path : path; sl_expected : option Hash; sl_current : option Hash }.
Inductive Refusal :=
| Empty
| OutsideGrant (p : path)
| NoSuchFile (p : path)
| DuplicatePath (p : path)
| NoTreeRoot (p : path)
| DifferentRoots (p : path) (under_ not_ : list component)
| MalformedBase (p : path)
| StaleBases (moved : list Stale)
| MalformedPath (p : path)
| PathConflict (p other : path)
| Conflicts (moved : list Stale) (conflicts : gmap path (list LineRange))
| Exists_ (p : path)
| NotEmpty (p : path)
| NotADirectory (p : path)
| IsADirectory (p : path)
| AliasesExisting (p other : path).
Definition Refusal_path (r : Refusal) : option path :=
  match r with
  | Empty | StaleBases _ | Conflicts _ _ => None
  | OutsideGrant p | NoSuchFile p | DuplicatePath p | NoTreeRoot p | DifferentRoots p _ _ | MalformedBase p
  | MalformedPath p | PathConflict p _ | Exists_ p | NotEmpty p | NotADirectory p | IsADirectory p
  | AliasesExisting p _ => Some p
  end.
Definition Refusal_other (r : Refusal) : option path :=
  match r with PathConflict _ other | AliasesExisting _ other => Some other | _ => None end.
Definition Refusal_moved (r : Refusal) : list Stale :=
  match r with StaleBases moved | Conflicts moved _ => moved | _ => [] end.

(** A refusal, or an untyped error. *)
Inductive internal := ITree (e : tree_error) | ISync (e : sync_error) | IBail | IParse.
Inductive propose_error := Refused (r : Refusal) | Internal (e : internal).
Definition refuse {A} (r : Refusal) : result propose_error A := Err (Refused r).
Definition of_tree {A} (r : result tree_error A) : result propose_error A :=
  match r with Ok a => Ok a | Err e => Err (Internal (ITree e)) | Panic => Panic end.
Definition of_sync {A} (r : result sync_error A) : result propose_error A :=
  match r with Ok a => Ok a | Err e => Err (Internal (ISync e)) | Panic => Panic end.

(** ** The store a proposal is applied to

    The manifest and its blobs, the [_source] rows (the absolute path a projected
    file was read from, when it was recorded) and [_meta.source_root]. *)

Record db := {
  db_store : store;
  db_source : gmap path (option path);
  db_root : option path;
}.

(** What the parse of the written files makes of them: [None] when a step before
    [COMMIT] fails, else its outcomes, the [_source] rows it leaves, the
    root it records, and what failed after [COMMIT]. *)
Record Parsed := {
  pd_outcomes : Outcomes;
  pd_source : gmap path (option path);
  pd_root : path;
  pd_post : option (list byte);
}.
Class Parser := {
  parser_of : Hash;
  project : list component → InMemory → db → option Parsed;
  on_disk : list component → Disk;
}.

Record Accepted := {
  ac_blobs : gmap path Hash;
  ac_removed : gset path;
  ac_merged : gset path;
  ac_mkdirs : gset path;
  ac_rmdirs : gset path;
  ac_tree_root : Hash;
  ac_post_commit_error : option (list byte);
}.

(** ** Deciding *)

Definition covered (g : Grant) (w : Proposed) : bool :=
  match pr_change w with
  | Mkdir | Rmdir => Grant_covers_dir g (pr_path w)
  | Write _ _ | Delete => Grant_covers g (pr_path w)
  end.
Definition granted (g : Grant) (writes : list Proposed) : result propose_error unit :=
  match writes with
  | [] => refuse Empty
  | _ => match List.find (λ w, negb (covered g w)) writes with
         | Some w => refuse (OutsideGrant (pr_path w))
         | None => mret tt
         end
  end.

Record Plan := { pl_path : path; pl_current : option Entry; pl_change : Change }.
Inductive Decided := Planned (p : Plan) | Moved (stale : Stale) (conflicts : option (list LineRange)).

Section decisions.
Context `{Blake3, Differ} (s : store).

(** A write whose base moved. *)
Definition decide_moved (p : path) (current : option Entry) (bytes : list byte) (mode : option Mode) (expected : Hash)
    (held : Mode) (theirs : Hash) : Decided :=
  let stale := {| sl_path := p; sl_expected := Some expected; sl_current := Some theirs |} in
  if bool_decide (held = Symlink) || bool_decide (mode = Some Symlink) then Moved stale None
  else match blob_bytes s expected, blob_bytes s theirs with
       | Some base, Some cur =>
           match merge base bytes cur with
           | Clean merged => Planned {| pl_path := p; pl_current := current; pl_change := Write merged mode |}
           | Conflict ranges => Moved stale (Some ranges)
           | Binary => Moved stale None
           end
       | _, _ => Moved stale None
       end.
Definition decide_one (w : Proposed) : result propose_error Decided :=
  let p := pr_path w in
  current ← of_tree (entry s p);
  let stale expected cur := Moved {| sl_path := p; sl_expected := expected; sl_current := cur |} None in
  let plan change := Planned {| pl_path := p; pl_current := current; pl_change := change |} in
  match pr_change w, pr_base w, current with
  | Delete, Absent, _ | Mkdir, (Any | Blob _), _ | Rmdir, (Absent | Blob _), _ => refuse (MalformedBase p)
  | Mkdir, Absent, None => if plain_relative p then mret (plan Mkdir) else refuse (MalformedPath p)
  | Mkdir, Absent, Some _ => refuse (Exists_ p)
  | Rmdir, Any, None => refuse (NoSuchFile p)
  | Rmdir, Any, Some (EFile _ _) => refuse (NotADirectory p)
  | Rmdir, Any, Some EDir => mret (plan Rmdir)
  | Write bytes mode, Absent, None => if plain_relative p then mret (plan (Write bytes mode)) else refuse (MalformedPath p)
  | Write _ _, Absent, Some EDir => refuse (Exists_ p)
  | Write bytes mode, Absent, Some (EFile held blob) =>
      if bool_decide (content_hash bytes = blob) && match mode with None => true | Some m => bool_decide (m = held) end
      then mret (plan (Write bytes mode)) else mret (stale None (Some blob))
  | (Write _ _ | Delete), _, Some EDir => refuse (IsADirectory p)
  | (Write _ _ | Delete), Any, None => refuse (NoSuchFile p)
  | (Write _ _ | Delete), Blob expected, None => mret (stale (Some expected) None)
  | (Write _ _ | Delete) as change, Any, Some (EFile _ _) => mret (plan change)
  | Delete, Blob expected, Some (EFile _ blob) =>
      if bool_decide (blob = expected) then mret (plan Delete) else mret (stale (Some expected) (Some blob))
  | Write bytes mode, Blob expected, Some (EFile held theirs) =>
      if bool_decide (theirs = expected) then mret (plan (Write bytes mode))
      else mret (decide_moved p current bytes mode expected held theirs)
  end.

Record deciding := {
  dc_seen : gset path;
  dc_moved : list Stale;
  dc_conflicts : gmap path (list LineRange);
  dc_plans : list Plan;
  dc_merged : gset path;
}.
Definition deciding_init : deciding :=
  {| dc_seen := ∅; dc_moved := []; dc_conflicts := ∅; dc_plans := []; dc_merged := ∅ |}.
(** Whether a plan's bytes are not those that were sent. *)
Definition is_merged (w : Proposed) (pl : Plan) : bool :=
  match pl_change pl, pr_change w with
  | Write bytes _, Write sent _ => negb (bool_decide (content_hash bytes = content_hash sent))
  | _, _ => false
  end.
Definition decide_step (d : deciding) (w : Proposed) : result propose_error deciding :=
  let p := pr_path w in
  if bool_decide (p ∈ dc_seen d) then refuse (DuplicatePath p)
  else
    let seen := {[p]} ∪ dc_seen d in
    one ← decide_one w;
    match one with
    | Planned pl =>
        mret {| dc_seen := seen; dc_moved := dc_moved d; dc_conflicts := dc_conflicts d; dc_plans := dc_plans d ++ [pl];
                dc_merged := if is_merged w pl then {[pl_path pl]} ∪ dc_merged d else dc_merged d |}
    | Moved stale ranges =>
        mret {| dc_seen := seen; dc_moved := dc_moved d ++ [stale];
                dc_conflicts := match ranges with
                                | Some ranges => <[sl_path stale := ranges]> (dc_conflicts d)
                                | None => dc_conflicts d
                                end;
                dc_plans := dc_plans d; dc_merged := dc_merged d |}
    end.
Definition decide_writes (writes : list Proposed) : result propose_error (list Plan * gset path) :=
  d ← fold_result decide_step deciding_init writes;
  if negb (bool_decide (dc_conflicts d = ∅)) then refuse (Conflicts (dc_moved d) (dc_conflicts d))
  else match dc_moved d with
       | [] => mret (dc_plans d, dc_merged d)
       | moved => refuse (StaleBases moved)
       end.
End decisions.

(** ** Where the tree is rooted *)

Definition tree_root_dir (abs rel : path) : result propose_error (list component) :=
  let abs := components abs in
  let rel := components rel in
  if negb (bool_decide (rel `suffix_of` abs)) then Err (Internal IBail)
  else ok_or (nth_ancestor (length rel) abs) (Internal IBail).
Definition recorded_root (d : db) : option (list component) := components <$> db_root d.
Definition root_step (d : db) (root : option (list component)) (pl : Plan) : result propose_error (option (list component)) :=
  match db_source d !! pl_path pl with
  | None => mret root
  | Some None => refuse (NoTreeRoot (pl_path pl))
  | Some (Some abs) =>
      file_root ← tree_root_dir abs (pl_path pl);
      match root with
      | None => mret (Some file_root)
      | Some r => if bool_decide (r = file_root) then mret root else refuse (DifferentRoots (pl_path pl) file_root r)
      end
  end.
Definition proposal_root (d : db) (plans : list Plan) : result propose_error (list component) :=
  root ← fold_result (root_step d) None plans;
  match root with
  | Some root => mret root
  | None =>
      match recorded_root d with
      | Some root => mret root
      | None => match plans with pl :: _ => refuse (NoTreeRoot (pl_path pl)) | [] => Panic end
      end
  end.

(** ** The tree it leaves is a tree *)

Definition leaves_store (pl : Plan) : bool := match pl_change pl with Delete | Rmdir => true | _ => false end.
Definition writes_file (pl : Plan) : bool := match pl_change pl with Write _ _ => true | _ => false end.
Definition leaving_of (plans : list Plan) : list path := pl_path <$> filter (λ pl, leaves_store pl = true) plans.
Definition created_of (plans : list Plan) : list Plan := filter (λ pl, pl_current pl = None) plans.
Definition created_files_of (plans : list Plan) : list path :=
  pl_path <$> filter (λ pl, writes_file pl = true) (created_of plans).

Definition check_parent (s : store) (plans : list Plan) (p : path) (_ : unit) (dir : path) : result propose_error unit :=
  held_file ← (if bool_decide (dir ∈ leaving_of plans) then mret false
               else e ← of_tree (entry s dir); mret (match e with Some (EFile _ _) => true | _ => false end));
  if held_file || bool_decide (dir ∈ created_files_of plans) then refuse (PathConflict p dir) else mret tt.
Definition check_created (s : store) (plans : list Plan) (_ : unit) (pl : Plan) : result propose_error unit :=
  fold_result (check_parent s plans (pl_path pl)) tt (parents (pl_path pl)).
Definition check_rmdir (s : store) (plans : list Plan) (_ : unit) (pl : Plan) : result propose_error unit :=
  us ← of_tree (under s (pl_path pl));
  let left := existsb (λ u, negb (bool_decide (u.1 ∈ leaving_of plans))) us in
  let added := existsb (λ c, bool_decide ((pl_path pl ++ [slash]) `prefix_of` pl_path c)) (created_of plans) in
  if left || added then refuse (NotEmpty (pl_path pl)) else mret tt.
Definition check_structure (s : store) (plans : list Plan) : result propose_error unit :=
  _ ← fold_result (check_created s plans) tt (created_of plans);
  fold_result (check_rmdir s plans) tt (filter (λ pl, pl_change pl = Rmdir) plans).

(** ** Applying *)

Record Batch := {
  bt_files : gmap path (list byte);
  bt_blobs : gmap path Hash;
  bt_removed : gset path;
  bt_edits : TreeEdits;
}.
Definition batch_init : Batch := {| bt_files := ∅; bt_blobs := ∅; bt_removed := ∅; bt_edits := no_edits |}.
Definition batch_step `{Blake3} (b : Batch) (pl : Plan) : Batch :=
  let p := pl_path pl in
  let e := bt_edits b in
  match pl_change pl with
  | Write bytes mode =>
      {| bt_files := <[p := bytes]> (bt_files b);
         bt_blobs := <[p := content_hash bytes]> (bt_blobs b);
         bt_removed := bt_removed b;
         bt_edits := {| modes := match mode with Some m => <[p := m]> (modes e) | None => modes e end;
                        mkdirs := mkdirs e; rmdirs := rmdirs e |} |}
  | Delete => {| bt_files := bt_files b; bt_blobs := bt_blobs b; bt_removed := {[p]} ∪ bt_removed b; bt_edits := e |}
  | Mkdir => {| bt_files := bt_files b; bt_blobs := bt_blobs b; bt_removed := bt_removed b;
                bt_edits := {| modes := modes e; mkdirs := {[p]} ∪ mkdirs e; rmdirs := rmdirs e |} |}
  | Rmdir => {| bt_files := bt_files b; bt_blobs := bt_blobs b; bt_removed := bt_removed b;
                bt_edits := {| modes := modes e; mkdirs := mkdirs e; rmdirs := {[p]} ∪ rmdirs e |} |}
  end.
Definition batch_of `{Blake3} (plans : list Plan) : Batch := foldl batch_step batch_init plans.

(** One transaction: an error leaves the store as it was. *)
Definition parse_written_files `{Blake3, Parser} (root : list component) (files : gmap path (list byte))
    (removed : gset path) (edits : TreeEdits) (d : db) : result propose_error (Hash * option (list byte) * db) :=
  match project root (Written files removed edits) d with
  | None => Err (Internal IParse)
  | Some parsed =>
      s ← of_sync (sync_written files removed edits (on_disk root) (pd_outcomes parsed) (db_store d));
      tree_root ← of_tree (TreeRoot.tree_root s parser_of);
      mret (tree_root, pd_post parsed,
            {| db_store := s; db_source := pd_source parsed; db_root := Some (pd_root parsed) |})
  end.

Definition propose_checked `{Blake3, Differ, Parser} (writes : list Proposed) (d : db) : result propose_error (Accepted * db) :=
  '(plans, merged) ← decide_writes (db_store d) writes;
  root ← proposal_root d plans;
  _ ← check_structure (db_store d) plans;
  let b := batch_of plans in
  '(tree_root, post, d) ← parse_written_files root (bt_files b) (bt_removed b) (bt_edits b) d;
  mret ({| ac_blobs := bt_blobs b; ac_removed := bt_removed b; ac_merged := merged; ac_mkdirs := mkdirs (bt_edits b);
           ac_rmdirs := rmdirs (bt_edits b); ac_tree_root := tree_root; ac_post_commit_error := post |}, d).
(** The caller's view: the result, and the store it leaves. *)
Definition propose `{Blake3, Differ, Parser} (g : Grant) (writes : list Proposed) (d : db) : result propose_error Accepted * db :=
  match (_ ← granted g writes; propose_checked writes d) with
  | Ok (accepted, d') => (Ok accepted, d')
  | Err e => (Err e, d)
  | Panic => (Panic, d)
  end.
Definition check `{Blake3, Differ} (g : Grant) (writes : list Proposed) (s : store) : result propose_error unit :=
  _ ← granted g writes;
  '(plans, _) ← decide_writes s writes;
  check_structure s plans.

Definition write `{Blake3, Differ, Parser} (g : Grant) (p : path) (bytes : list byte) (d : db)
    : result propose_error (Hash * Hash * option (list byte)) * db :=
  match propose g [Proposed_write p Any bytes] d with
  | (Ok accepted, d) =>
      (match ac_blobs accepted !! p with
       | Some blob => Ok (blob, ac_tree_root accepted, ac_post_commit_error accepted)
       | None => Panic
       end, d)
  | (Err e, d) => (Err e, d)
  | (Panic, d) => (Panic, d)
  end.

(** ** Renames *)

Definition rename_entry (s : store) (from to : path) (writes : list Proposed) (u : path * Entry)
    : result propose_error (list Proposed) :=
  let moved_to := to ++ drop (length from) u.1 in
  match u.2 with
  | EDir => mret (writes ++ [Proposed_rmdir u.1; Proposed_mkdir moved_to])
  | EFile mode blob =>
      bytes ← ok_or (blob_bytes s blob) (Internal IBail);
      mret (writes ++ [Proposed_delete u.1 (Blob blob); Proposed_write_mode moved_to Absent bytes mode])
  end.
Definition rename_dir (s : store) (from to : path) : result propose_error (list Proposed) :=
  e ← of_tree (entry s from);
  if negb (bool_decide (e = Some EDir)) then Err (Internal IBail)
  else if negb (plain_relative to) || bool_decide ((from ++ [slash]) `prefix_of` to) then Err (Internal IBail)
  else
    target ← of_tree (entry s to);
    writes ← match target with
             | None => mret [Proposed_mkdir to]
             | Some EDir => us ← of_tree (under s to);
                            match us with [] => mret [] | _ => Err (Internal IBail) end
             | Some (EFile _ _) => Err (Internal IBail)
             end;
    us ← of_tree (under s from);
    fold_result (rename_entry s from to) (writes ++ [Proposed_rmdir from]) us.
Definition rename (s : store) (from to : path) : result propose_error (list Proposed) :=
  target ← of_tree (entry s to);
  e ← of_tree (entry s from);
  match e with
  | None => refuse (NoSuchFile from)
  | Some (EFile mode blob) =>
      replaced ← match target with
                 | Some EDir => refuse (IsADirectory to)
                 | Some (EFile _ held) => mret (Blob held)
                 | None => mret Absent
                 end;
      bytes ← ok_or (blob_bytes s blob) (Internal IBail);
      mret [Proposed_delete from (Blob blob); Proposed_write_mode to replaced bytes mode]
  | Some EDir =>
      if bool_decide ((from ++ [slash]) `prefix_of` to) then refuse (MalformedPath to)
      else match target with
           | Some (EFile _ _) => refuse (NotADirectory to)
           | Some EDir => us ← of_tree (under s to);
                          match us with [] => rename_dir s from to | _ => refuse (NotEmpty to) end
           | None => rename_dir s from to
           end
  end.

(** ** What a plan is *)

(** The change that lands for [w] at a path that holds [current]. *)
Definition lands `{Blake3, Differ} (s : store) (current : option Entry) (w : Proposed) (change : Change) : Prop :=
  match pr_change w, pr_base w with
  | Write bytes mode, Any => (∃ held blob, current = Some (EFile held blob)) ∧ change = Write bytes mode
  | Write bytes mode, Blob expected =>
      ∃ held blob, current = Some (EFile held blob)
        ∧ ((blob = expected ∧ change = Write bytes mode)
           ∨ ∃ base theirs merged, blob ≠ expected ∧ held ≠ Symlink ∧ mode ≠ Some Symlink
               ∧ blob_bytes s expected = Some base ∧ blob_bytes s blob = Some theirs
               ∧ merge base bytes theirs = Clean merged ∧ change = Write merged mode)
  | Write bytes mode, Absent =>
      change = Write bytes mode
      ∧ ((current = None ∧ plain_relative (pr_path w) = true)
         ∨ ∃ held, current = Some (EFile held (blake3 bytes)) ∧ (mode = None ∨ mode = Some held))
  | Delete, Any => (∃ held blob, current = Some (EFile held blob)) ∧ change = Delete
  | Delete, Blob expected => (∃ held, current = Some (EFile held expected)) ∧ change = Delete
  | Mkdir, Absent => current = None ∧ plain_relative (pr_path w) = true ∧ change = Mkdir
  | Rmdir, Any => current = Some EDir ∧ change = Rmdir
  | _, _ => False
  end.

Section specs.
Context `{Blake3, Differ}.

Lemma entry_of_tree s m p : manifest s m → of_tree (entry s p) = Ok (m !! p).
Proof. intros Hm. by rewrite (Hm p). Qed.

Lemma decide_one_planned s m w pl :
  manifest s m → decide_one s w = Ok (Planned pl) →
  pl_path pl = pr_path w ∧ pl_current pl = m !! pr_path w ∧ lands s (m !! pr_path w) w (pl_change pl).
Proof.
  intros Hm. unfold decide_one. rewrite (entry_of_tree s m) by done. rewrite bind_Ok. unfold lands.
  destruct (pr_change w) as [bytes mode | | |], (pr_base w) as [| h |], (m !! pr_path w) as [[held blob |] |] eqn:E;
    unfold refuse, decide_moved, content_hash, mret, result_ret; intros Hd; repeat (case_bool_decide || case_match);
    simplify_eq/=; try done; eauto 10.
  split_and!; [done.. |]. exists held, blob. split; [done |]. right. eauto 12.
Qed.

(** Plans are made in order, one for each path. *)
Lemma decide_fold s ws d :
  fold_result (decide_step s) deciding_init ws = Ok d →
  dc_seen d = list_to_set (pr_path <$> ws) ∧ NoDup (pr_path <$> ws)
  ∧ ∃ ones, Forall2 (λ w one, decide_one s w = Ok one) ws ones
    ∧ dc_moved d = omap (λ one, match one with Moved stale _ => Some stale | _ => None end) ones
    ∧ dc_plans d = omap (λ one, match one with Planned pl => Some pl | _ => None end) ones
    ∧ dc_merged d = list_to_set (omap (λ '(w, one), match one with
                      | Planned pl => if is_merged w pl then Some (pl_path pl) else None | _ => None end) (zip ws ones))
    ∧ (dc_moved d = [] → dc_conflicts d = ∅).
Proof.
  revert d. induction ws as [| w ws IH] using rev_ind; intros d.
  { cbn [fold_result]. intros [= <-]. split_and!; [done | constructor |]. exists []. by split_and!. }
  rewrite fold_result_app. destruct (fold_result (decide_step s) deciding_init ws) as [d0 | |] eqn:E0; [| done..].
  rewrite bind_Ok. cbn [fold_result]. destruct (IH d0 eq_refl) as (Hseen & Hnd & ones & H2 & Hmv & Hpl & Hmg & Hcf). clear IH.
  unfold decide_step. case_bool_decide as Hdup; [done |].
  destruct (decide_one s w) as [one | |] eqn:E1; [| done..]. rewrite bind_Ok. intros Hd.
  assert (NoDup (pr_path <$> ws ++ [w])) as Hnd'.
  { rewrite fmap_app, NoDup_app. split_and!; [done | | apply NoDup_singleton]. intros x Hx ->%list_elem_of_singleton.
    apply Hdup. rewrite Hseen. by apply elem_of_list_to_set. }
  pose proof (Forall2_length _ _ _ H2) as Hlen.
  split_and!; [| done |].
  - rewrite fmap_app, list_to_set_app_L. destruct one; cbn in Hd; simplify_eq/=; rewrite Hseen; set_solver.
  - exists (ones ++ [one]). rewrite !omap_app, zip_with_app, omap_app by done.
    split; [apply Forall2_app; [done | by constructor] |].
    destruct one as [pl | stale ranges]; cbn in Hd; simplify_eq/=; rewrite Hmv, Hpl, Hmg, list_to_set_app_L.
    + split_and!; [by rewrite app_nil_r | done | | by rewrite <- Hmv].
      destruct (is_merged w pl); set_solver.
    + split_and!; [done | by rewrite app_nil_r | set_solver |]. intros Hn. by apply app_nil in Hn as [_ ?].
Qed.

Lemma decide_writes_spec s ws plans merged :
  decide_writes s ws = Ok (plans, merged) →
  NoDup (pr_path <$> ws) ∧ Forall2 (λ w pl, decide_one s w = Ok (Planned pl)) ws plans
  ∧ ∀ p, p ∈ merged ↔ ∃ w pl, (w, pl) ∈ zip ws plans ∧ is_merged w pl = true ∧ p = pl_path pl.
Proof.
  unfold decide_writes. destruct (fold_result _ _ _) as [d | |] eqn:E; [| done..]. rewrite bind_Ok.
  destruct (decide_fold s ws d E) as (_ & Hnd & ones & H2 & Hmv & Hpl & Hmg & _). case_match; [done |].
  destruct (dc_moved d) eqn:Hd; [| done]. intros [= <- <-]. rewrite Hpl, Hmg. clear -Hnd H2 Hmv.
  split; [done |]. clear Hnd. induction H2 as [| w one ws ones H1 H2 IH]; [split; [done | set_solver] |].
  destruct one as [pl | ??]; [| done]. cbn in Hmv. destruct (IH Hmv) as [IH1 IH2]. cbn [omap list_omap zip zip_with]. split; [by constructor |].
  intros p. change (omap ?f (?a :: ?b)) with (match f a with Some y => y :: omap f b | None => omap f b end). cbn beta iota.
  destruct (is_merged w pl) eqn:Em; cbn [list_to_set].
  - rewrite elem_of_union, elem_of_singleton, IH2. split.
    + intros [-> | (w' & pl' & ? & ? & ?)]; [exists w, pl | exists w', pl']; split_and!; try done; [left | by right].
    + intros (w' & pl' & [[= -> ->] | ?]%elem_of_cons & ? & ?); [by left | right; by exists w', pl'].
  - rewrite IH2. split.
    + intros (w' & pl' & ? & ? & ?). exists w', pl'. split_and!; try done. by right.
    + intros (w' & pl' & [[= -> ->] | ?]%elem_of_cons & ? & ?); [congruence | by exists w', pl'].
Qed.
End specs.

(** ** What the structure check ensures *)

(** A loop that only checks. *)
Lemma fold_check {E A} (f : unit → A → result E unit) l :
  fold_result f tt l = Ok tt ↔ ∀ a, a ∈ l → f tt a = Ok tt.
Proof.
  induction l as [| a l IH]; cbn [fold_result]; [split; [by intros _ ? ?%not_elem_of_nil | done] |]. split.
  - intros Hf b Hb. destruct (f tt a) as [[] | |] eqn:Ea; [| done..]. rewrite bind_Ok, IH in Hf.
    apply elem_of_cons in Hb as [-> | Hb]; [done | by apply Hf].
  - intros Hf. rewrite (Hf a), bind_Ok by left. apply IH. intros b Hb. apply Hf. by right.
Qed.

Definition structured (m : gmap path Entry) (plans : list Plan) : Prop :=
  (∀ c d, c ∈ plans → pl_current c = None → d ∈ parents (pl_path c) →
     d ∉ created_files_of plans ∧ (d ∈ leaving_of plans ∨ ∀ mode blob, m !! d ≠ Some (EFile mode blob)))
  ∧ (∀ r, r ∈ plans → pl_change r = Rmdir →
     (∀ q, is_Some (m !! q) → pl_path r ∈ parents q → q ∈ leaving_of plans)
     ∧ (∀ c, c ∈ plans → pl_current c = None → pl_path r ∉ parents (pl_path c))).

Lemma check_created_spec s m plans c :
  manifest s m →
  check_created s plans tt c = Ok tt ↔ ∀ d, d ∈ parents (pl_path c) →
    d ∉ created_files_of plans ∧ (d ∈ leaving_of plans ∨ ∀ mode blob, m !! d ≠ Some (EFile mode blob)).
Proof.
  intros Hm. unfold check_created. rewrite fold_check. apply forall_proper; intros d. apply forall_proper; intros _.
  unfold check_parent. rewrite (entry_of_tree s m) by done.
  destruct (decide (d ∈ leaving_of plans)) as [Hl | Hl].
  - rewrite (bool_decide_true _ Hl). unfold mret, result_ret, refuse. rewrite bind_Ok. simpl. case_bool_decide; naive_solver.
  - rewrite (bool_decide_false _ Hl). unfold mret, result_ret, refuse. rewrite !bind_Ok.
    destruct (m !! d) as [[mode blob |] |]; simpl; try case_bool_decide; naive_solver.
Qed.
Lemma existsb_false_iff {A} (f : A → bool) l : existsb f l = false ↔ ∀ a, a ∈ l → f a = false.
Proof.
  induction l as [| a l IH]; simpl; [split; [by intros _ ? ?%not_elem_of_nil | done] |].
  rewrite orb_false_iff, IH. setoid_rewrite elem_of_cons. naive_solver.
Qed.
Lemma check_rmdir_spec s m plans r :
  manifest s m →
  check_rmdir s plans tt r = Ok tt ↔
  (∀ q, is_Some (m !! q) → pl_path r ∈ parents q → q ∈ leaving_of plans)
  ∧ (∀ c, c ∈ plans → pl_current c = None → pl_path r ∉ parents (pl_path c)).
Proof.
  intros Hm. unfold check_rmdir. rewrite (under_manifest s m) by done. cbn [of_tree]. rewrite bind_Ok.
  set (us := filter _ _). set (left := existsb _ us). set (added := existsb _ _).
  assert (left = false ↔ ∀ q, is_Some (m !! q) → pl_path r ∈ parents q → q ∈ leaving_of plans) as Hleft.
  { unfold left. rewrite existsb_false_iff. setoid_rewrite negb_false_iff. setoid_rewrite bool_decide_eq_true. split.
    - intros Hl q [e He] Hq. apply (Hl (q, e)), list_elem_of_filter. rewrite elem_of_sorted_pairs. by rewrite <- parents_prefix.
    - intros Hl [q e] [Hq Hin%elem_of_sorted_pairs]%list_elem_of_filter. apply Hl; [by eexists | by apply parents_prefix]. }
  assert (added = false ↔ ∀ c, c ∈ plans → pl_current c = None → pl_path r ∉ parents (pl_path c)) as Hadded.
  { unfold added. rewrite existsb_false_iff. setoid_rewrite bool_decide_eq_false. unfold created_of.
    setoid_rewrite list_elem_of_filter. setoid_rewrite parents_prefix. naive_solver. }
  rewrite <- Hleft, <- Hadded. destruct left, added; simpl; naive_solver.
Qed.
Lemma check_structure_spec s m plans : manifest s m → check_structure s plans = Ok tt ↔ structured m plans.
Proof.
  intros Hm. unfold check_structure, structured, created_of.
  assert (∀ (a b : result propose_error unit), (_ ← a; b) = Ok tt ↔ a = Ok tt ∧ b = Ok tt) as Hseq.
  { intros [[] | |] b; rewrite ?bind_Ok; naive_solver. }
  rewrite Hseq, !fold_check. setoid_rewrite list_elem_of_filter. setoid_rewrite (check_created_spec s m); [| done].
  setoid_rewrite (check_rmdir_spec s m); [| done].
  split; intros [H1 H2]; (split; [| intros r Hr]).
  - intros c d Hc Hn. by apply (H1 c (conj Hn Hc)).
  - intros Hc. by apply (H2 r (conj Hc Hr)).
  - intros c [Hn Hc] d. by apply (H1 c d).
  - destruct Hr. by apply H2.
Qed.

(** ** What the batch holds *)

Section batch.
Context `{Blake3}.

Definition plans_at (plans : list Plan) (p : path) (change : Change) : Prop :=
  ∃ pl, pl ∈ plans ∧ pl_path pl = p ∧ pl_change pl = change.
Lemma plans_at_snoc plans pl p change :
  plans_at (plans ++ [pl]) p change ↔ plans_at plans p change ∨ (pl_path pl = p ∧ pl_change pl = change).
Proof.
  unfold plans_at. setoid_rewrite elem_of_app. setoid_rewrite list_elem_of_singleton. naive_solver.
Qed.
Lemma plans_at_nil p change : ¬ plans_at [] p change.
Proof. by intros (pl & ?%not_elem_of_nil & _). Qed.
Lemma plans_at_unique plans p c c' :
  NoDup (pl_path <$> plans) → plans_at plans p c → plans_at plans p c' → c = c'.
Proof.
  intros Hnd (pl & Hpl & Hp & <-) (pl' & Hpl' & Hp' & <-).
  assert (pl = pl') as ->; [| done].
  apply list_elem_of_lookup in Hpl as [i Hi], Hpl' as [j Hj].
  assert (i = j) as ->; [| congruence].
  eapply NoDup_lookup; [exact Hnd | by rewrite list_lookup_fmap, Hi | rewrite list_lookup_fmap, Hj; simpl; congruence].
Qed.

Lemma batch_spec plans :
  NoDup (pl_path <$> plans) →
  let b := batch_of plans in
  (∀ p bytes, bt_files b !! p = Some bytes ↔ ∃ mode, plans_at plans p (Write bytes mode))
  ∧ (∀ p mode, modes (bt_edits b) !! p = Some mode ↔ ∃ bytes, plans_at plans p (Write bytes (Some mode)))
  ∧ (∀ p, p ∈ bt_removed b ↔ plans_at plans p Delete)
  ∧ (∀ p, p ∈ mkdirs (bt_edits b) ↔ plans_at plans p Mkdir)
  ∧ (∀ p, p ∈ rmdirs (bt_edits b) ↔ plans_at plans p Rmdir)
  ∧ bt_blobs b = blake3 <$> bt_files b.
Proof.
  unfold batch_of. induction plans as [| pl plans IH] using rev_ind; intros Hnd.
  { cbn. setoid_rewrite lookup_empty. pose proof plans_at_nil. rewrite fmap_empty. split_and!; set_solver. }
  rewrite fmap_app, NoDup_app in Hnd. destruct Hnd as (Hnd & Hnew & _).
  destruct (IH Hnd) as (Hf & Hmo & Hr & Hmk & Hrm & Hb). clear IH.
  assert (∀ c, ¬ plans_at plans (pl_path pl) c) as Hfresh.
  { intros c (pl' & Hpl' & Hp & _). apply (Hnew (pl_path pl)); [| by left]. rewrite <- Hp. by apply list_elem_of_fmap_2. }
  rewrite foldl_app. cbn [foldl]. set (b := foldl batch_step batch_init plans) in *. clearbody b.
  setoid_rewrite plans_at_snoc. unfold batch_step.
  destruct (pl_change pl) as [bytes mode | | |] eqn:Ec;
    cbn [bt_files bt_blobs bt_removed bt_edits modes mkdirs rmdirs];
    (split_and!; [intros p x | intros p x | intros p | intros p | intros p |]);
    rewrite ?elem_of_union, ?elem_of_singleton, ?Hr, ?Hmk, ?Hrm, ?fmap_insert, ?Hb; try done.
  all: try (rewrite Hf; clear; naive_solver). all: try (rewrite Hmo; clear; naive_solver). all: try (clear; naive_solver).
  - destruct (decide (p = pl_path pl)) as [-> | Hne].
    + rewrite lookup_insert_eq. split; [intros [= ->]; eauto |].
      intros (mode' & [Hat | [_ [= -> _]]]); [by apply Hfresh in Hat | done].
    + rewrite lookup_insert_ne, Hf by done. clear -Hne; naive_solver.
  - destruct mode as [mode |]; [| rewrite Hmo; clear; naive_solver].
    destruct (decide (p = pl_path pl)) as [-> | Hne].
    + rewrite lookup_insert_eq. split; [intros [= ->]; eauto |].
      intros (bytes' & [Hat | [_ [= _ ->]]]); [by apply Hfresh in Hat | done].
    + rewrite lookup_insert_ne, Hmo by done. clear -Hne; naive_solver.
Qed.
End batch.

(** ** What an accepted proposal leaves *)

(** What a plan needs of the manifest it was made against. *)
Definition planned_on (m : gmap path Entry) (pl : Plan) : Prop :=
  pl_current pl = m !! pl_path pl ∧
  match pl_change pl with
  | Write _ _ => m !! pl_path pl ≠ Some EDir
  | Delete => ∃ mode blob, m !! pl_path pl = Some (EFile mode blob)
  | Mkdir => m !! pl_path pl = None
  | Rmdir => m !! pl_path pl = Some EDir
  end.
(** Something is created below [p]. *)
Definition creates_below (plans : list Plan) (p : path) : Prop :=
  Exists (λ c, pl_current c = None ∧ p ∈ parents (pl_path c)) plans.
#[global] Instance creates_below_dec plans p : Decision (creates_below plans p).
Proof. unfold creates_below. apply _. Defined.

(** [m'] is [m] with every plan applied, and nothing else: a directory is made
    where one is needed, and no file is replaced by it. *)
Record applied `{Blake3} (plans : list Plan) (m m' : gmap path Entry) : Prop := {
  ap_plan : ∀ pl, pl ∈ plans → m' !! pl_path pl =
    match pl_change pl with
    | Write bytes (Some mode) => Some (EFile mode (blake3 bytes))
    | Write bytes None => Some (EFile match m !! pl_path pl with Some (EFile held _) => held | _ => Regular end (blake3 bytes))
    | Mkdir => Some EDir
    | Rmdir => None
    | Delete => if bool_decide (creates_below plans (pl_path pl)) then Some EDir else None
    end;
  ap_other : ∀ p, p ∉ pl_path <$> plans →
    m' !! p = if bool_decide (creates_below plans p) then Some EDir else m !! p;
  ap_safe : ∀ p mode blob, p ∉ pl_path <$> plans → m !! p = Some (EFile mode blob) → ¬ creates_below plans p;
}.

Lemma plans_at_path plans p c : plans_at plans p c → p ∈ pl_path <$> plans.
Proof. intros (pl & Hpl & <- & _). by apply list_elem_of_fmap_2. Qed.
Lemma elem_of_leaving plans p : p ∈ leaving_of plans ↔ plans_at plans p Delete ∨ plans_at plans p Rmdir.
Proof.
  unfold leaving_of, plans_at. rewrite list_elem_of_fmap. setoid_rewrite list_elem_of_filter. unfold leaves_store. split.
  - intros (pl & -> & Hl & Hpl). destruct (pl_change pl) eqn:E; naive_solver.
  - intros [(pl & Hpl & <- & Hc) | (pl & Hpl & <- & Hc)]; exists pl; by rewrite Hc.
Qed.
Lemma elem_of_created_files plans p bytes mode :
  (∃ pl, pl ∈ plans ∧ pl_path pl = p ∧ pl_change pl = Write bytes mode ∧ pl_current pl = None) → p ∈ created_files_of plans.
Proof.
  intros (pl & Hpl & <- & Hc & Hn). unfold created_files_of, created_of. apply list_elem_of_fmap_2.
  rewrite !list_elem_of_filter. unfold writes_file. by rewrite Hc.
Qed.

Section applying.
Context `{Blake3} (m : gmap path Entry) (plans : list Plan).
Hypothesis Hclosed : closed m.
Hypothesis Hnd : NoDup (pl_path <$> plans).
Hypothesis Hplans : Forall (planned_on m) plans.
Hypothesis Hstr : structured m plans.

Lemma planned_at p c : plans_at plans p c →
  match c with
  | Write _ _ => m !! p ≠ Some EDir
  | Delete => ∃ mode blob, m !! p = Some (EFile mode blob)
  | Mkdir => m !! p = None
  | Rmdir => m !! p = Some EDir
  end.
Proof. intros (pl & Hpl & <- & <-). rewrite Forall_forall in Hplans. by apply Hplans. Qed.
Lemma at_unique p c c' : plans_at plans p c → plans_at plans p c' → c = c'.
Proof. by apply plans_at_unique. Qed.

(** A write or an mkdir whose path is below [p]: either its parent is held
    as a directory, or it is created. *)
Lemma below_written p q :
  ((∃ bytes mode, plans_at plans q (Write bytes mode)) ∨ plans_at plans q Mkdir) → p ∈ parents q →
  m !! p = Some EDir ∨ creates_below plans p.
Proof.
  intros Hq Hp.
  assert (∃ pl, pl ∈ plans ∧ pl_path pl = q) as (pl & Hpl & <-).
  { destruct Hq as [(? & ? & pl & ? & ? & ?) | (pl & ? & ? & ?)]; by exists pl. }
  destruct (m !! pl_path pl) as [e |] eqn:E; [left; eapply Hclosed; [by rewrite E | done] |].
  right. apply Exists_exists. exists pl. split_and!; [done | | done].
  rewrite Forall_forall in Hplans. by rewrite (proj1 (Hplans pl Hpl)).
Qed.
Lemma created_clear p : creates_below plans p →
  p ∉ created_files_of plans ∧ (p ∈ leaving_of plans ∨ ∀ mode blob, m !! p ≠ Some (EFile mode blob)).
Proof. intros (c & Hc & Hn & Hp)%Exists_exists. by eapply Hstr. Qed.
Lemma written_not_above p bytes mode : plans_at plans p (Write bytes mode) → ¬ creates_below plans p.
Proof.
  intros Hp (Hcf & Hl)%created_clear.
  destruct (m !! p) as [[held blob |] |] eqn:E.
  - destruct Hl as [Hl | Hl]; [| naive_solver].
    apply elem_of_leaving in Hl as [Hl | Hl]; by pose proof (at_unique _ _ _ Hp Hl).
  - by apply (planned_at _ _ Hp).
  - apply Hcf, (elem_of_created_files _ _ bytes mode). destruct Hp as (pl & Hpl & <- & Hc). exists pl.
    rewrite Forall_forall in Hplans. by rewrite (proj1 (Hplans pl Hpl)).
Qed.

Let b := batch_of plans.
Lemma plans_fit : fits (bt_files b) (bt_removed b) (bt_edits b) m.
Proof.
  destruct (batch_spec plans Hnd) as (Hf & _ & Hr & Hmk & Hrm & _). fold b in Hf, Hr, Hmk, Hrm. split.
  - intros p [x [mode Hx]%Hf]%elem_of_dom [Hp%Hr | Hp%Hrm]%elem_of_union; by pose proof (at_unique _ _ _ Hx Hp).
  - intros p Hp%Hmk [[Hp'%Hr | Hp'%Hrm]%elem_of_union | [x [mode Hp']%Hf]%elem_of_dom]%elem_of_union;
      by pose proof (at_unique _ _ _ Hp Hp').
  - intros g p Hg Hpar Hs. apply elem_of_union in Hg as [Hg%Hr | Hg%Hrm].
    + pose proof (planned_at _ _ Hg) as (? & ? & He). rewrite (Hclosed p g) in He; done.
    + destruct Hg as (r & Hin & <- & Hc). destruct (proj2 Hstr r Hin Hc) as [Hq _].
      rewrite elem_of_union, Hr, Hrm. by apply elem_of_leaving, Hq.
  - intros p q [x [mode Hx]%Hf] Hq Hpar. destruct (below_written p q) as [Hd | Hd]; [| done | |].
    + destruct Hq as [[y [mo Hy]%Hf] | Hq%Hmk]; eauto.
    + by apply (planned_at _ _ Hx).
    + by eapply written_not_above.
  - intros p [x [mode Hx]%Hf]. by apply (planned_at _ _ Hx).
Qed.

Lemma created_change c : c ∈ plans → pl_current c = None → (∃ bytes mode, pl_change c = Write bytes mode) ∨ pl_change c = Mkdir.
Proof.
  intros Hc Hn. rewrite Forall_forall in Hplans. destruct (Hplans c Hc) as [Hcur Hk]. rewrite Hcur in Hn. rewrite Hn in Hk.
  destruct (pl_change c); naive_solver.
Qed.
Lemma made_plans p :
  made (bt_files b) (bt_edits b) p ↔ plans_at plans p Mkdir ∨ ∃ q, p ∈ parents q
    ∧ ((∃ bytes mode, plans_at plans q (Write bytes mode)) ∨ plans_at plans q Mkdir).
Proof.
  destruct (batch_spec plans Hnd) as (Hf & _ & _ & Hmk & _). fold b in Hf, Hmk. unfold made. rewrite Hmk.
  assert (∀ q, is_Some (bt_files b !! q) ↔ ∃ bytes mode, plans_at plans q (Write bytes mode)) as Hs.
  { intros q. unfold is_Some. by setoid_rewrite Hf. }
  setoid_rewrite Hs. setoid_rewrite Hmk. clear. naive_solver.
Qed.
Lemma creates_below_made p : creates_below plans p → made (bt_files b) (bt_edits b) p.
Proof.
  intros (c & Hc & Hn & Hp)%Exists_exists. apply made_plans. right. exists (pl_path c). split; [done |].
  destruct (created_change c Hc Hn) as [(bytes & mode & Hch) | Hch]; [left; exists bytes, mode | right]; by exists c.
Qed.
Lemma made_creates p : made (bt_files b) (bt_edits b) p → ¬ plans_at plans p Mkdir → m !! p = Some EDir ∨ creates_below plans p.
Proof. intros [? | (q & Hq & Hw)]%made_plans Hn; [done | by eapply below_written]. Qed.
Lemma rmdir_not_made p : plans_at plans p Rmdir → ¬ made (bt_files b) (bt_edits b) p.
Proof.
  intros Hp [Hmk | (q & Hq & Hw)]%made_plans; [by pose proof (at_unique _ _ _ Hp Hmk) |].
  destruct Hp as (r & Hr & <- & Hc). destruct (proj2 Hstr r Hr Hc) as [Hleft Hadd].
  assert (∃ c, c ∈ plans ∧ pl_path c = q) as (c & Hin & <-) by (destruct Hw as [(? & ? & c & ? & ? & ?) | (c & ? & ? & ?)]; by exists c).
  destruct (m !! pl_path c) as [e |] eqn:E.
  - assert (pl_path c ∈ leaving_of plans) as Hl by (by apply Hleft; [rewrite E |]).
    apply elem_of_leaving in Hl as [Hl | Hl]; destruct Hw as [(? & ? & Hw) | Hw]; by pose proof (at_unique _ _ _ Hw Hl).
  - apply (Hadd c Hin); [| done]. rewrite Forall_forall in Hplans. by rewrite (proj1 (Hplans c Hin)).
Qed.

Lemma plans_applied m' : settled (bt_files b) (bt_removed b) (bt_edits b) m m' → applied plans m m'.
Proof.
  intros [Hsf Hsm Hsg Hsk]. destruct (batch_spec plans Hnd) as (Hf & Hmo & Hr & Hmk & Hrm & _).
  fold b in Hf, Hmo, Hr, Hmk, Hrm. split.
  - intros pl Hpl. assert (plans_at plans (pl_path pl) (pl_change pl)) as Hat by by exists pl. revert Hat.
    generalize (pl_path pl) as p, (pl_change pl) as c. intros p c Hat. destruct c as [bytes mode | | |].
    + rewrite (Hsf p bytes) by (apply Hf; eauto). unfold memory_mode. cbn [mbind option_bind mem_edits].
      destruct mode as [mode |].
      * assert (modes (bt_edits b) !! p = Some mode) as -> by (apply Hmo; eauto). done.
      * destruct (modes (bt_edits b) !! p) as [mode |] eqn:E; [| done]. exfalso.
        apply Hmo in E as [bytes' Hat']. by pose proof (at_unique _ _ _ Hat Hat').
    + case_bool_decide as Hcb; [by apply Hsm, creates_below_made |]. apply Hsg; [| apply elem_of_union_l; by apply Hr].
      intros Hm'. destruct (made_creates _ Hm') as [Hd | ?]; [| | done].
      * intros Hat'. by pose proof (at_unique _ _ _ Hat Hat').
      * destruct (planned_at _ _ Hat) as (? & ? & ?). congruence.
    + apply Hsm, made_plans. by left.
    + apply Hsg; [by apply rmdir_not_made | apply elem_of_union_r; by apply Hrm].
  - intros p Hp. assert (∀ c, ¬ plans_at plans p c) as Hno by (by intros c ?%plans_at_path).
    case_bool_decide as Hcb; [by apply Hsm, creates_below_made |].
    destruct (bt_files b !! p) as [x |] eqn:Ex; [by apply Hf in Ex as [? ?%Hno] |].
    destruct (made_dec (bt_files b) (bt_edits b) p) as [Hm' | Hm'].
    + rewrite Hsm by done. destruct (made_creates p Hm') as [-> | ?]; [apply Hno | done..].
    + apply Hsk; [done | | done]. rewrite elem_of_union, Hr, Hrm. intros [? | ?]; by eapply Hno.
  - intros p mode blob Hp Hfile Hcb. destruct (created_clear p Hcb) as [_ [Hl | Hl]]; [| by eapply Hl].
    apply elem_of_leaving in Hl as [Hl | Hl]; by apply plans_at_path in Hl.
Qed.
End applying.

Section accepted.
Context `{Blake3, Differ, Parser}.

(** Every plan is of a change that lands on what its path holds. *)
Definition plan_of (s : store) (m : gmap path Entry) (w : Proposed) (pl : Plan) : Prop :=
  pl_path pl = pr_path w ∧ pl_current pl = m !! pr_path w ∧ lands s (m !! pr_path w) w (pl_change pl).

Lemma lands_planned s m w pl : plan_of s m w pl → planned_on m pl.
Proof.
  intros (Hp & Hc & Hl). unfold planned_on. rewrite Hp. split; [done |]. revert Hl. unfold lands.
  destruct (pr_change w), (pr_base w), (m !! pr_path w) as [[] |]; intros Hl; decompose [and or ex] Hl;
    repeat match goal with Hch : pl_change pl = _ |- _ => rewrite Hch; clear Hch end; by eauto.
Qed.
Lemma decided_plans s m ws plans merged :
  manifest s m → decide_writes s ws = Ok (plans, merged) →
  NoDup (pl_path <$> plans) ∧ Forall (planned_on m) plans ∧ Forall2 (plan_of s m) ws plans.
Proof.
  intros Hm (Hnd & H2 & _)%decide_writes_spec.
  assert (Forall2 (plan_of s m) ws plans) as Hpl.
  { eapply Forall2_impl; [exact H2 |]. intros w pl Hd. by apply decide_one_planned. }
  split_and!; [| | done].
  - assert (pl_path <$> plans = pr_path <$> ws) as ->; [| done].
    clear -Hpl. induction Hpl as [| w pl ws plans (Hp & _) _ IH]; [done |]. csimpl. by rewrite Hp, IH.
  - clear -Hpl. induction Hpl; constructor; [by eapply lands_planned | done].
Qed.

(** A parse that succeeds commits every plan. *)
Lemma commit_plans d m ws plans merged root parsed :
  manifest (db_store d) m → closed m → blobs_ok (db_store d) →
  decide_writes (db_store d) ws = Ok (plans, merged) → check_structure (db_store d) plans = Ok tt →
  let b := batch_of plans in
  project root (Written (bt_files b) (bt_removed b) (bt_edits b)) d = Some parsed →
  ∃ s' m', parse_written_files root (bt_files b) (bt_removed b) (bt_edits b) d
      = Ok (tree_root_of (leaves_of m') parser_of, pd_post parsed,
            {| db_store := s'; db_source := pd_source parsed; db_root := Some (pd_root parsed) |})
    ∧ manifest s' m' ∧ closed m' ∧ applied plans m m' ∧ blobs_ok s' ∧ blobs_kept (db_store d) s'
    ∧ (∀ p bytes mode, plans_at plans p (Write bytes mode) → bt_blobs b !! p = Some (blake3 bytes)
         ∧ is_Some (blob_bytes s' (blake3 bytes))).
Proof.
  intros Hm Hc Hok Hdec Hcs b Hpj. destruct (decided_plans _ _ _ _ _ Hm Hdec) as (Hnd & Hpl & _).
  apply (check_structure_spec _ m) in Hcs; [| done].
  destruct (sync_written_spec _ _ _ (on_disk root) (pd_outcomes parsed) _ m Hm Hc Hok (plans_fit m plans Hc Hnd Hpl Hcs))
    as (s' & m' & Hs & Hm' & Hc' & Hst & Hok' & Hk' & Hb').
  unfold parse_written_files. rewrite Hpj. fold b in Hs. rewrite Hs. cbn [of_sync]. rewrite bind_Ok.
  unfold TreeRoot.tree_root, tree_leaves. rewrite (entries_manifest s' m' Hm'). cbn [fmap result_fmap].
  exists s', m'. split_and!; try done; [by apply plans_applied |].
  destruct (batch_spec plans Hnd) as (Hf & _ & _ & _ & _ & Hbb). fold b in Hf, Hbb.
  intros p bytes mode Hat. assert (bt_files b !! p = Some bytes) as Hp by (apply Hf; eauto).
  rewrite Hbb, lookup_fmap, Hp. split; [done | by eapply Hb'].
Qed.

Lemma granted_covered g ws : granted g ws = Ok tt ↔ ws ≠ [] ∧ Forall (λ w, covered g w = true) ws.
Proof.
  destruct ws as [| w0 ws']; [by split; [| intros []] |]. unfold granted. set (ws := w0 :: ws').
  destruct (List.find _ ws) as [w |] eqn:E; (split; [| intros [_ Hall]]).
  - done.
  - apply List.find_some in E as [Hin Hw]. rewrite Forall_forall in Hall. apply list_elem_of_In, Hall in Hin.
    by rewrite Hin in Hw.
  - intros _. split; [done |]. apply Forall_forall. intros w Hw%list_elem_of_In. by apply negb_false_iff, (List.find_none _ _ E).
  - done.
Qed.

(** The stages an accepted proposal went through. *)
Lemma propose_ok g ws d acc d' :
  propose g ws d = (Ok acc, d') →
  ∃ plans merged root parsed, granted g ws = Ok tt ∧ decide_writes (db_store d) ws = Ok (plans, merged)
    ∧ proposal_root d plans = Ok root ∧ check_structure (db_store d) plans = Ok tt
    ∧ (let b := batch_of plans in project root (Written (bt_files b) (bt_removed b) (bt_edits b)) d = Some parsed
       ∧ parse_written_files root (bt_files b) (bt_removed b) (bt_edits b) d = Ok (ac_tree_root acc, ac_post_commit_error acc, d')
       ∧ ac_blobs acc = bt_blobs b ∧ ac_removed acc = bt_removed b ∧ ac_mkdirs acc = mkdirs (bt_edits b)
       ∧ ac_rmdirs acc = rmdirs (bt_edits b) ∧ ac_merged acc = merged).
Proof.
  unfold propose. destruct (granted g ws) as [[] | |] eqn:Eg; [| done..]. rewrite bind_Ok. unfold propose_checked.
  destruct (decide_writes (db_store d) ws) as [[plans merged] | |] eqn:Ed; [| done..]. rewrite bind_Ok.
  destruct (proposal_root d plans) as [root | |] eqn:Er; [| done..]. rewrite bind_Ok.
  destruct (check_structure (db_store d) plans) as [[] | |] eqn:Ec; [| done..]. rewrite bind_Ok.
  cbv zeta. destruct (parse_written_files root _ _ _ d) as [[[tr post] d1] | |] eqn:Ep; [| done..]. rewrite bind_Ok.
  intros [= <- <-]. exists plans, merged, root.
  pose proof Ep as Ep'. unfold parse_written_files in Ep'.
  destruct (project root _ d) as [parsed |] eqn:Epj; [| done]. by exists parsed.
Qed.

Lemma propose_applied g ws d acc d' m :
  manifest (db_store d) m → closed m → blobs_ok (db_store d) →
  propose g ws d = (Ok acc, d') →
  ∃ plans m', Forall2 (plan_of (db_store d) m) ws plans
    ∧ manifest (db_store d') m' ∧ closed m' ∧ applied plans m m'
    ∧ blobs_ok (db_store d') ∧ blobs_kept (db_store d) (db_store d')
    ∧ (∀ p bytes mode, plans_at plans p (Write bytes mode) → ac_blobs acc !! p = Some (blake3 bytes)
         ∧ is_Some (blob_bytes (db_store d') (blake3 bytes)))
    ∧ ac_tree_root acc = tree_root_of (leaves_of m') parser_of.
Proof.
  intros Hm Hc Hok (plans & merged & root & parsed & _ & Hd & _ & Hcs & Hpj & Hrun & Hb & _)%propose_ok.
  destruct (commit_plans d m ws plans merged root parsed Hm Hc Hok Hd Hcs Hpj)
    as (s' & m' & Hrun' & Hm' & Hc' & Hap & Hok' & Hk & Hw).
  rewrite Hrun' in Hrun. injection Hrun as <- _ <-. rewrite Hb.
  exists plans, m'. split_and!; try done. by apply (decided_plans _ _ _ _ _ Hm Hd).
Qed.

(** C5: an accepted proposal is applied exactly.  On a manifest that is a tree,
    every write landed on what its author's base allows (the blob that was read, a
    clean merge of it with what the path holds, nothing, or the same bytes), the
    manifest that is left is a tree in which each path holds what its plan asked
    and every other path holds what it held, but for the missing directories of
    what was created; every written blob is stored under its hash; and the returned
    root is the root of that manifest. *)
Theorem accepted_proposal_is_applied g ws d acc d' m :
  manifest (db_store d) m → closed m → blobs_ok (db_store d) →
  propose g ws d = (Ok acc, d') →
  ∃ plans m', Forall2 (plan_of (db_store d) m) ws plans
    ∧ manifest (db_store d') m' ∧ closed m' ∧ applied plans m m'
    ∧ blobs_ok (db_store d') ∧ blobs_kept (db_store d) (db_store d')
    ∧ (∀ p bytes mode, plans_at plans p (Write bytes mode) → ac_blobs acc !! p = Some (blake3 bytes)
         ∧ is_Some (blob_bytes (db_store d') (blake3 bytes)))
    ∧ ac_tree_root acc = tree_root_of (leaves_of m') parser_of.
Proof. apply propose_applied. Qed.

Lemma accepted_manifest g ws d acc d' m :
  manifest (db_store d) m → closed m → blobs_ok (db_store d) → propose g ws d = (Ok acc, d') → ∃ m', manifest (db_store d') m'.
Proof.
  intros Hm Hc Hok (plans & merged & root & parsed & _ & Hd & _ & Hcs & Hpj & Hrun & _)%propose_ok.
  destruct (commit_plans d m ws plans merged root parsed Hm Hc Hok Hd Hcs Hpj) as (s' & m' & Hrun' & Hm' & _).
  rewrite Hrun' in Hrun. injection Hrun as _ _ <-. by exists m'.
Qed.

(** ** Nothing panics *)

Lemma decide_writes_no_panic s m ws : manifest s m → decide_writes s ws ≠ Panic.
Proof.
  intros Hm. unfold decide_writes.
  assert (∀ d w, decide_step s d w ≠ Panic) as Hstep.
  { intros d w. unfold decide_step. case_match; [done |].
    assert (decide_one s w ≠ Panic) as Hone.
    { unfold decide_one. rewrite (entry_of_tree s m) by done. rewrite bind_Ok. repeat case_match; done. }
    destruct (decide_one s w) as [[] | |]; done. }
  pose proof (fold_no_panic _ deciding_init ws Hstep) as Hf.
  destruct (fold_result (decide_step s) deciding_init ws); [| done..]. rewrite bind_Ok. repeat case_match; done.
Qed.
Lemma check_structure_no_panic s m plans : manifest s m → check_structure s plans ≠ Panic.
Proof.
  intros Hm. unfold check_structure.
  assert (fold_result (check_created s plans) tt (created_of plans) ≠ Panic) as Hp1.
  { apply fold_no_panic. intros [] c. apply fold_no_panic. intros [] d. unfold check_parent.
    rewrite (entry_of_tree s m) by done. unfold mret, result_ret. rewrite bind_Ok.
    destruct (bool_decide (d ∈ leaving_of plans)); rewrite bind_Ok; destruct (_ || _); done. }
  destruct (fold_result _ _ _); [| done..]. rewrite bind_Ok. apply fold_no_panic. intros [] r. unfold check_rmdir.
  rewrite (under_manifest s m) by done. cbn [of_tree]. rewrite bind_Ok. by case_match.
Qed.
Lemma proposal_root_no_panic d plans : plans ≠ [] → proposal_root d plans ≠ Panic.
Proof.
  intros Hne. unfold proposal_root.
  assert (fold_result (root_step d) None plans ≠ Panic) as Hp1.
  { apply fold_no_panic. intros root pl. unfold root_step, tree_root_dir, ok_or. repeat case_match; try done.
    all: destruct (nth_ancestor _ _); cbn; repeat case_match; done. }
  destruct (fold_result _ _ _) as [[root |] | |]; [done | | done..]. rewrite bind_Ok.
  destruct (recorded_root d), plans; done.
Qed.

Lemma propose_decided g ws d m :
  manifest (db_store d) m → closed m → blobs_ok (db_store d) →
  match check g ws (db_store d) with
  | Ok _ => ∃ plans merged, decide_writes (db_store d) ws = Ok (plans, merged) ∧
      match proposal_root d plans with
      | Ok root => let b := batch_of plans in
          match project root (Written (bt_files b) (bt_removed b) (bt_edits b)) d with
          | Some _ => ∃ acc d', propose g ws d = (Ok acc, d')
          | None => propose g ws d = (Err (Internal IParse), d)
          end
      | Err e => propose g ws d = (Err e, d)
      | Panic => False
      end
  | Err e => ∃ e', propose g ws d = (Err e', d)
      ∧ (e' = e ∨ ∃ plans merged, decide_writes (db_store d) ws = Ok (plans, merged) ∧ proposal_root d plans = Err e')
  | Panic => False
  end.
Proof.
  intros Hm Hc Hok. unfold check, propose, propose_checked.
  destruct (granted g ws) as [[] | |] eqn:Eg.
  2: { eexists. split; [done | by left]. }
  2: { unfold granted in Eg. by repeat case_match. }
  rewrite !bind_Ok. pose proof (decide_writes_no_panic _ _ ws Hm) as Hnp.
  destruct (decide_writes (db_store d) ws) as [[plans merged] | |] eqn:Ed; [| eexists; split; [done | by left] | done].
  rewrite !bind_Ok. pose proof (check_structure_no_panic _ _ plans Hm) as Hnp2.
  assert (plans ≠ []) as Hne.
  { apply granted_covered in Eg as [Hw _]. destruct (decided_plans _ _ _ _ _ Hm Ed) as (_ & _ & H2). intros ->. by inversion H2; subst. }
  pose proof (proposal_root_no_panic d plans Hne) as Hnp3.
  destruct (check_structure (db_store d) plans) as [[] | |] eqn:Ec; [| | done].
  - exists plans, merged. split; [done |]. destruct (proposal_root d plans) as [root | |] eqn:Er; [| done..].
    rewrite bind_Ok. cbv zeta. destruct (project root _ d) as [parsed |] eqn:Ep.
    + destruct (commit_plans d m ws plans merged root parsed Hm Hc Hok Ed Ec Ep) as (s' & m' & -> & _).
      rewrite bind_Ok. by do 2 eexists.
    + unfold parse_written_files. by rewrite Ep.
  - destruct (proposal_root d plans) as [root | |] eqn:Er; [| | done].
    + rewrite bind_Ok. eexists. split; [done | by left].
    + eexists. split; [done |]. right. by exists plans, merged.
Qed.

Lemma propose_no_panic g ws d m : manifest (db_store d) m → closed m → blobs_ok (db_store d) → (propose g ws d).1 ≠ Panic.
Proof.
  intros Hm Hc Hb. pose proof (propose_decided g ws d m Hm Hc Hb) as Hd. destruct (check g ws (db_store d)).
  - destruct Hd as (plans & merged & _ & Hd). destruct (proposal_root d plans); cbv zeta in Hd; [| by rewrite Hd | done].
    destruct (project _ _ d); [destruct Hd as (acc & d' & ->) | rewrite Hd]; done.
  - by destruct Hd as (e' & -> & _).
  - done.
Qed.

(** [check] decides [propose].  A proposal that [check] passes commits whenever
    its root is recorded and the parse of its files succeeds, and otherwise
    leaves the store as it was with that error; a proposal that [check] refuses is
    refused, and nothing is changed; no input makes either panic. *)
Theorem check_decides_propose g ws d m :
  manifest (db_store d) m → closed m → blobs_ok (db_store d) →
  match check g ws (db_store d) with
  | Ok _ => ∃ plans merged, decide_writes (db_store d) ws = Ok (plans, merged) ∧
      match proposal_root d plans with
      | Ok root => let b := batch_of plans in
          match project root (Written (bt_files b) (bt_removed b) (bt_edits b)) d with
          | Some _ => ∃ acc d', propose g ws d = (Ok acc, d')
          | None => propose g ws d = (Err (Internal IParse), d)
          end
      | Err e => propose g ws d = (Err e, d)
      | Panic => False
      end
  | Err e => ∃ e', propose g ws d = (Err e', d)
      ∧ (e' = e ∨ ∃ plans merged, decide_writes (db_store d) ws = Ok (plans, merged) ∧ proposal_root d plans = Err e')
  | Panic => False
  end.
Proof. apply propose_decided. Qed.

(** ** The grant *)

Lemma manifest_functional s m m' p : manifest s m → manifest s m' → m !! p = m' !! p.
Proof. intros Hm Hm'. specialize (Hm p). specialize (Hm' p). congruence. Qed.

Lemma covers_above g p q : p ∈ parents q → Grant_covers g q = true ∨ Grant_covers_dir g q = true → Grant_covers_dir g p = true.
Proof.
  destruct g as [| paths]; [done |]. simpl. rewrite bool_decide_eq_true, !List.existsb_exists.
  setoid_rewrite <- list_elem_of_In. setoid_rewrite elem_of_elements. setoid_rewrite bool_decide_eq_true.
  setoid_rewrite <- parents_prefix. intros Hp [Hq | (x & Hx & Hqx)]; [by exists q |]. exists x. split; [done |]. by eapply parents_trans.
Qed.
Lemma plan_source s m ws plans pl :
  Forall2 (plan_of s m) ws plans → pl ∈ plans → ∃ w, w ∈ ws ∧ plan_of s m w pl.
Proof. intros H2 [i Hi]%list_elem_of_lookup. destruct (Forall2_lookup_r _ _ _ _ _ H2 Hi) as (w & Hw & ?). exists w. split; [by eapply list_elem_of_lookup_2 | done]. Qed.
Lemma plan_target s m ws plans w :
  Forall2 (plan_of s m) ws plans → w ∈ ws → ∃ pl, pl ∈ plans ∧ plan_of s m w pl.
Proof. intros H2 [i Hi]%list_elem_of_lookup. destruct (Forall2_lookup_l _ _ _ _ _ H2 Hi) as (pl & Hw & ?). exists pl. split; [by eapply list_elem_of_lookup_2 | done]. Qed.
(** A plan is of the kind that was proposed. *)
Definition change_kind (c : Change) : nat := match c with Write _ _ => 0 | Delete => 1 | Mkdir => 2 | Rmdir => 3 end.
Lemma lands_kind s cur w c : lands s cur w c → change_kind c = change_kind (pr_change w).
Proof.
  unfold lands. destruct (pr_change w), (pr_base w); intros Hl; decompose [and or ex] Hl; by subst.
Qed.

Lemma propose_confined g ws d acc d' m m' p :
  manifest (db_store d) m → closed m → blobs_ok (db_store d) →
  propose g ws d = (Ok acc, d') → manifest (db_store d') m' →
  m' !! p ≠ m !! p →
  Grant_covers g p = true
  ∨ (Grant_covers_dir g p = true ∧ ((m !! p = None ∧ m' !! p = Some EDir) ∨ (m !! p = Some EDir ∧ m' !! p = None))).
Proof.
  intros Hm Hc Hok (plans & merged & root & parsed & Hg & Hd & _ & Hcs & Hpj & Hrun & Hb & _)%propose_ok Hm' Hne.
  destruct (commit_plans d m ws plans merged root parsed Hm Hc Hok Hd Hcs Hpj) as (s' & m1 & Hrun' & Hm1 & Hc1 & Hap & _).
  rewrite Hrun' in Hrun. injection Hrun as _ _ <-. rewrite (manifest_functional _ _ _ p Hm' Hm1) in *. clear m' Hm'.
  destruct (decided_plans _ _ _ _ _ Hm Hd) as (Hnd & Hpl & H2). rewrite Forall_forall in Hpl.
  apply granted_covered in Hg as [_ Hg]. rewrite Forall_forall in Hg.
  destruct (decide (p ∈ pl_path <$> plans)) as [(pl & -> & Hin)%list_elem_of_fmap | Hout].
  - destruct (plan_source _ _ _ _ _ H2 Hin) as (w & Hw & Hp & _ & Hl). apply Hg in Hw. apply lands_kind in Hl.
    unfold covered in Hw. rewrite <- Hp in Hw. pose proof (ap_plan _ _ _ Hap pl Hin) as Hout. destruct (Hpl pl Hin) as [_ Hk].
    destruct (pl_change pl), (pr_change w); try done; [by left | by left | right | right]; naive_solver.
  - rewrite (ap_other _ _ _ Hap p Hout) in Hne |- *. case_bool_decide as Hcb; [| done].
    pose proof (ap_safe _ _ _ Hap p) as Hsafe. right. split.
    + apply Exists_exists in Hcb as (c & Hin & _ & Hp). destruct (plan_source _ _ _ _ _ H2 Hin) as (w & Hw & Hpw & _).
      apply (covers_above g p (pl_path c) Hp). rewrite Hpw. apply Hg in Hw. unfold covered in Hw.
      destruct (pr_change w); [by left | by left | by right | by right].
    + left. destruct (m !! p) as [[mode blob |] |]; [| done | done]. exfalso. by apply (Hsafe mode blob).
Qed.

(** A grant confines its writer.  Whatever an accepted proposal asked, a path
    whose entry it changed is a path of the grant, or it is a directory above
    a granted path that was made or removed and that held no file. *)
Theorem grant_confines_proposal g ws d acc d' m m' p :
  manifest (db_store d) m → closed m → blobs_ok (db_store d) →
  propose g ws d = (Ok acc, d') → manifest (db_store d') m' →
  m' !! p ≠ m !! p →
  Grant_covers g p = true
  ∨ (Grant_covers_dir g p = true ∧ ((m !! p = None ∧ m' !! p = Some EDir) ∨ (m !! p = Some EDir ∧ m' !! p = None))).
Proof. apply propose_confined. Qed.

(** ** A directory rename *)

Lemma beside a b r r' : a ++ slash :: r = b ++ slash :: r' → a = b ∨ a ∈ parents b ∨ b ∈ parents a.
Proof.
  intros Heq. apply app_eq_inv in Heq as [(k & Hb & Hr) | (k & Hb & Hr)]; (destruct k as [| x k]; [left | right]).
  - rewrite app_nil_r in Hb. done.
  - simplify_eq/=. right. apply elem_of_parents. eauto.
  - rewrite app_nil_r in Hb. done.
  - simplify_eq/=. left. apply elem_of_parents. eauto.
Qed.
Lemma parents_below a r : a ∈ parents (a ++ slash :: r).
Proof. apply elem_of_parents. eauto. Qed.
Lemma parents_rebase a b r r' : a ++ slash :: r ∈ parents (a ++ slash :: r') → b ++ slash :: r ∈ parents (b ++ slash :: r').
Proof.
  rewrite !elem_of_parents. intros [rest Heq]. exists rest. rewrite <- app_assoc in *. apply app_inv_head in Heq. by rewrite Heq.
Qed.
(** The paths above a path of a subtree: of its top, its top, or of the subtree. *)
Lemma parents_of_below p a r :
  p ∈ parents (a ++ slash :: r) → p ∈ parents a ∨ p = a ∨ ∃ r', p = a ++ slash :: r'.
Proof.
  rewrite elem_of_parents. intros [rest Heq]. destruct (beside _ _ _ _ Heq) as [-> | [Ha | Hp]]; [by right; left | | by left].
  apply elem_of_parents in Ha as [r' ->]. right. right. by exists r'.
Qed.

(** What each entry below [from] contributes. *)
Definition moves (s : store) (from to : path) (rest : list byte) (e : Entry) (w : Proposed) : Prop :=
  match e with
  | EDir => w = Proposed_rmdir (from ++ slash :: rest) ∨ w = Proposed_mkdir (to ++ slash :: rest)
  | EFile mode blob => ∃ bytes, blob_bytes s blob = Some bytes
      ∧ (w = Proposed_delete (from ++ slash :: rest) (Blob blob)
         ∨ w = Proposed_write_mode (to ++ slash :: rest) Absent bytes mode)
  end.
Lemma rename_entries s from to us ws ws' :
  (∀ u, u ∈ us → from ∈ parents u.1) →
  fold_result (rename_entry s from to) ws us = Ok ws' →
  (∀ w, w ∈ ws' ↔ w ∈ ws ∨ ∃ rest e, (from ++ slash :: rest, e) ∈ us ∧ moves s from to rest e w)
  ∧ ∀ rest mode blob, (from ++ slash :: rest, EFile mode blob) ∈ us → is_Some (blob_bytes s blob).
Proof.
  revert ws. induction us as [| [q e] us IH]; intros ws Hus; cbn [fold_result].
  { intros [= <-]. split; [| by intros ??? ?%not_elem_of_nil]. intros w. split; [by left |].
    by intros [? | (? & ? & ?%not_elem_of_nil & _)]. }
  assert (∃ rest, q = from ++ slash :: rest) as [rest ->] by (apply elem_of_parents, (Hus (q, e)); left).
  assert (∀ u, u ∈ us → from ∈ parents u.1) as Hus' by (intros; apply Hus; by right).
  destruct (rename_entry s from to ws (from ++ slash :: rest, e)) as [ws1 | |] eqn:E1; [| done..]. rewrite bind_Ok.
  intros Hrun. destruct (IH ws1 Hus' Hrun) as [Hw Hb]. clear IH.
  assert ((∀ w, w ∈ ws1 ↔ w ∈ ws ∨ moves s from to rest e w)
    ∧ ∀ mode blob, e = EFile mode blob → is_Some (blob_bytes s blob)) as [H1' H2'].
  { unfold rename_entry in E1. cbn [fst snd] in E1. rewrite drop_app_length in E1. unfold moves. destruct e as [mode blob |].
    - destruct (blob_bytes s blob) as [bytes |] eqn:Eb; [| done]. cbn [ok_or] in E1. rewrite bind_Ok in E1. injection E1 as <-.
      split; [| by intros ?? [= <- <-]; eexists]. intros w. rewrite elem_of_app, !elem_of_cons.
      split; [intros [? | [? | [? | ?%not_elem_of_nil]]]; eauto 6; done |]. intros [? | (bytes' & [= <-] & [? | ?])]; auto.
    - injection E1 as <-. split; [| done]. intros w. rewrite elem_of_app, !elem_of_cons.
      split; [intros [? | [? | [? | ?%not_elem_of_nil]]]; auto; done |]. intros [? | [? | ?]]; auto. }
  split.
  - intros w. rewrite Hw, H1'. split.
    + intros [[? | ?] | (r & e' & ? & ?)]; [by left | right; exists rest, e | right; exists r, e'];
        (split; [| done]); [by left | by right].
    + intros [? | (r & e' & [[= Hr ->] | ?]%elem_of_cons & ?)]; [by left; left | | right; by exists r, e'].
      apply app_inv_head in Hr as [= ->]. left. by right.
  - intros r mode blob [[= Hr <-] | ?]%elem_of_cons; [by eapply H2' | by eapply Hb].
Qed.

Lemma rename_dir_plan s m from to ws :
  manifest s m → rename_dir s from to = Ok ws →
  m !! from = Some EDir ∧ from ∉ parents to ∧ (m !! to = None ∨ (m !! to = Some EDir ∧ vacant m to))
  ∧ (∀ w, w ∈ ws ↔ (m !! to = None ∧ w = Proposed_mkdir to) ∨ w = Proposed_rmdir from
       ∨ ∃ rest e, m !! (from ++ slash :: rest) = Some e ∧ moves s from to rest e w)
  ∧ (∀ rest mode blob, m !! (from ++ slash :: rest) = Some (EFile mode blob) → is_Some (blob_bytes s blob)).
Proof.
  intros Hm. unfold rename_dir. rewrite !(entry_of_tree s m), bind_Ok by done.
  case_bool_decide as Hd; [| done]. cbn iota delta [negb].
  destruct (negb (plain_relative to) || bool_decide ((from ++ [slash]) `prefix_of` to)) eqn:Hp; [done |].
  apply orb_false_iff in Hp as [_ Hp%bool_decide_eq_false]. rewrite <- parents_prefix in Hp.
  rewrite !(under_manifest s m) by done. cbn [of_tree]. rewrite !bind_Ok.
  set (us' := filter _ (sorted_pairs m)). set (us := filter _ (sorted_pairs m)).
  assert (∀ rest e, (from ++ slash :: rest, e) ∈ us' ↔ m !! (from ++ slash :: rest) = Some e) as Hus.
  { intros rest e. unfold us'. rewrite list_elem_of_filter, elem_of_sorted_pairs, <- parents_prefix. split; [by intros [_ ?] |].
    intros ?. split; [apply parents_below | done]. }
  assert (∀ u, u ∈ us' → from ∈ parents u.1) as Hbelow.
  { intros u [Hu _]%list_elem_of_filter. by apply parents_prefix. }
  intros Hrun.
  assert (∃ pre, fold_result (rename_entry s from to) (pre ++ [Proposed_rmdir from]) us' = Ok ws
    ∧ (∀ w, w ∈ pre ↔ m !! to = None ∧ w = Proposed_mkdir to)
    ∧ (m !! to = None ∨ (m !! to = Some EDir ∧ vacant m to))) as (pre & Hrun' & Hpre & Hto).
  { destruct (m !! to) as [[mode blob |] |] eqn:Et; [done | |].
    - destruct us as [| u us0] eqn:Eu; [| done]. exists []. split_and!; [done | | right; split; [done |]].
      + intros w. split; [by intros ?%not_elem_of_nil | by intros []].
      + intros q Hq. destruct (m !! q) as [e |] eqn:E; [| done]. exfalso.
        assert ((q, e) ∈ us) as Hin. { unfold us. rewrite list_elem_of_filter, elem_of_sorted_pairs. split; [by apply parents_prefix | done]. }
        rewrite Eu in Hin. by apply not_elem_of_nil in Hin.
    - exists [Proposed_mkdir to]. split_and!; [done | | by left]. intros w. rewrite list_elem_of_singleton. naive_solver. }
  destruct (rename_entries s from to us' _ ws Hbelow Hrun') as [Hw Hb].
  split_and!; try done.
  - intros w. rewrite Hw, elem_of_app, Hpre, list_elem_of_singleton. setoid_rewrite Hus. clear. tauto.
  - intros rest mode blob Hr. by eapply Hb, Hus.
Qed.

(** The subtree moves. *)
Section moved.
Context (s : store) (m : gmap path Entry) (plans : list Plan) (ws : list Proposed) (from to : path) (m1 : gmap path Entry).
Hypothesis Hc : closed m.
Hypothesis Hok : blobs_ok s.
Hypothesis Hft : from ≠ to.
Hypothesis H2 : Forall2 (plan_of s m) ws plans.
Hypothesis Hap : applied plans m m1.
Hypothesis Hfrom : m !! from = Some EDir.
Hypothesis Hbel : from ∉ parents to.
Hypothesis Hto : m !! to = None ∨ (m !! to = Some EDir ∧ vacant m to).
Hypothesis Hws : ∀ w, w ∈ ws ↔ (m !! to = None ∧ w = Proposed_mkdir to) ∨ w = Proposed_rmdir from
       ∨ ∃ rest e, m !! (from ++ slash :: rest) = Some e ∧ moves s from to rest e w.
Hypothesis Hbl : ∀ rest mode blob, m !! (from ++ slash :: rest) = Some (EFile mode blob) → is_Some (blob_bytes s blob).

(** Neither directory is inside the other. *)
Lemma target_outside : to ∉ parents from.
Proof.
  intros Hp. destruct Hto as [Hn | [_ Hv]].
  - rewrite (Hc from to) in Hn; [done | by rewrite Hfrom | done].
  - by rewrite (Hv from Hp) in Hfrom.
Qed.
Lemma subtrees_apart r r' : from ++ slash :: r ≠ to ++ slash :: r'.
Proof. intros [? | [? | ?]]%beside; [done | done | by apply target_outside]. Qed.
Lemma from_not_below r : from ≠ to ++ slash :: r.
Proof. intros Heq. apply target_outside. rewrite Heq. apply parents_below. Qed.

(** What is created is [to] or below it, as the entry below [from] was. *)
Lemma created_below c : c ∈ plans → pl_current c = None →
  pl_path c = to ∨ ∃ rest, pl_path c = to ++ slash :: rest ∧ is_Some (m !! (from ++ slash :: rest)).
Proof.
  intros Hin Hn. destruct (plan_source _ _ _ _ _ H2 Hin) as (w & Hw & Hp & Hcur & _). rewrite Hp. rewrite Hcur in Hn.
  apply Hws in Hw as [[_ ->] | [-> | (rest & e & He & Hmv)]]; [by left | by simpl in Hn; congruence |].
  unfold moves in Hmv. destruct e as [mode blob |].
  - destruct Hmv as (bytes & _ & [-> | ->]); [simpl in Hn; congruence |]. right. exists rest. by rewrite He.
  - destruct Hmv as [-> | ->]; [simpl in Hn; congruence |]. right. exists rest. by rewrite He.
Qed.
Lemma creates_only_to p : creates_below plans p → p ∈ parents to ∨ p = to
  ∨ ∃ rest, p = to ++ slash :: rest ∧ m !! (from ++ slash :: rest) = Some EDir.
Proof.
  intros (c & Hin & Hn & Hp)%Exists_exists. destruct (created_below c Hin Hn) as [Hq | (rest & Hq & Hs)]; rewrite Hq in Hp.
  - by left.
  - destruct (parents_of_below _ _ _ Hp) as [? | [? | (r & ->)]]; [by left | by right; left |].
    right. right. exists r. split; [done |]. eapply Hc; [exact Hs |]. by eapply parents_rebase.
Qed.
Lemma from_creates_nothing p : within from p → ¬ creates_below plans p.
Proof.
  intros Hw [Hp | [-> | (r & -> & _)]]%creates_only_to.
  - destruct Hw as [-> | Hw]; [done |]. by apply Hbel; eapply parents_trans.
  - by destruct Hw.
  - destruct Hw as [Hw | Hw]; [by eapply from_not_below |]. apply elem_of_parents in Hw as [r' Hr']. by eapply subtrees_apart.
Qed.

Lemma plan_for w : w ∈ ws → ∃ pl, pl ∈ plans ∧ pl_path pl = pr_path w ∧ change_kind (pl_change pl) = change_kind (pr_change w)
  ∧ lands s (m !! pr_path w) w (pl_change pl).
Proof.
  intros Hw. destruct (plan_target _ _ _ _ _ H2 Hw) as (pl & Hin & Hp & _ & Hl). exists pl. split_and!; try done. by eapply lands_kind.
Qed.
Lemma leaves_from p : is_Some (m !! p) → within from p → m1 !! p = None.
Proof.
  intros [e He] Hw.
  assert (∃ pl, pl ∈ plans ∧ pl_path pl = p ∧ (pl_change pl = Delete ∨ pl_change pl = Rmdir)) as (pl & Hin & Hp & Hk).
  { destruct Hw as [-> | Hw].
    - destruct (plan_for (Proposed_rmdir from)) as (pl & ? & ? & Hk & _); [apply Hws; auto |].
      exists pl. split_and!; try done. destruct (pl_change pl); try done; auto.
    - apply elem_of_parents in Hw as [rest ->]. destruct e as [mode blob |].
      + destruct (Hbl _ _ _ He) as [bytes Hb]. destruct (plan_for (Proposed_delete (from ++ slash :: rest) (Blob blob))) as (pl & ? & ? & Hk & _).
        { apply Hws. right. right. exists rest, (EFile mode blob). split; [done |]. exists bytes. auto. }
        exists pl. split_and!; try done. destruct (pl_change pl); try done; auto.
      + destruct (plan_for (Proposed_rmdir (from ++ slash :: rest))) as (pl & ? & ? & Hk & _).
        { apply Hws. right. right. exists rest, EDir. split; [done |]. by left. }
        exists pl. split_and!; try done. destruct (pl_change pl); try done; auto. }
  pose proof (ap_plan _ _ _ Hap pl Hin) as Hout. rewrite Hp in Hout. destruct Hk as [Hk | Hk]; rewrite Hk in Hout; [| done].
  rewrite bool_decide_false in Hout; [done | by apply from_creates_nothing].
Qed.
Lemma arrives_at rest e : m !! (from ++ slash :: rest) = Some e → m1 !! (to ++ slash :: rest) = Some e.
Proof.
  intros He. destruct e as [mode blob |].
  - destruct (Hbl _ _ _ He) as [bytes Hb].
    destruct (plan_for (Proposed_write_mode (to ++ slash :: rest) Absent bytes mode)) as (pl & Hin & Hp & _ & Hl).
    { apply Hws. right. right. exists rest, (EFile mode blob). split; [done |]. exists bytes. auto. }
    pose proof (ap_plan _ _ _ Hap pl Hin) as Hout. rewrite Hp in Hout. cbn in Hl. destruct Hl as [Hl _]. rewrite Hl in Hout.
    cbn in Hout. rewrite Hout. do 2 f_equal. apply as_bytes_inj. symmetry. by apply Hok.
  - destruct (plan_for (Proposed_mkdir (to ++ slash :: rest))) as (pl & Hin & Hp & Hk & _).
    { apply Hws. right. right. exists rest, EDir. split; [done |]. by right. }
    pose proof (ap_plan _ _ _ Hap pl Hin) as Hout. rewrite Hp in Hout. destruct (pl_change pl); done.
Qed.
(** A path that is neither in the moved subtree nor where it lands is in no plan. *)
Lemma plan_paths p : p ∈ pl_path <$> plans → (p = to ∧ m !! to = None) ∨ (within from p ∧ is_Some (m !! p))
  ∨ ∃ rest, p = to ++ slash :: rest ∧ is_Some (m !! (from ++ slash :: rest)).
Proof.
  intros (pl & -> & Hin)%list_elem_of_fmap. destruct (plan_source _ _ _ _ _ H2 Hin) as (w & Hw & Hp & _). rewrite Hp.
  apply Hws in Hw as [[? ->] | [-> | (rest & e & He & Hmv)]]; [by left | right; left; simpl; split; [by left | by rewrite Hfrom] |].
  right. unfold moves in Hmv. destruct e as [mode blob |]; [destruct Hmv as (bytes & _ & [-> | ->]) | destruct Hmv as [-> | ->]]; simpl.
  1, 3: left; (split; [right; apply parents_below | by rewrite He]).
  all: right; exists rest; by rewrite He.
Qed.

Lemma moved_subtree :
  m1 !! to = Some EDir
  ∧ (∀ rest, m1 !! (to ++ slash :: rest) = m !! (from ++ slash :: rest))
  ∧ (∀ p, within from p → m1 !! p = None)
  ∧ (∀ p, ¬ within from p → ¬ within to p → p ∉ parents to → m1 !! p = m !! p).
Proof.
  split_and!.
  - destruct Hto as [Hn | [Hd Hv]].
    + destruct (plan_for (Proposed_mkdir to)) as (pl & Hin & Hp & Hk & _); [apply Hws; auto |].
      pose proof (ap_plan _ _ _ Hap pl Hin) as Hout. rewrite Hp in Hout. destruct (pl_change pl); done.
    + rewrite (ap_other _ _ _ Hap); [by case_bool_decide |].
      intros [[_ ?] | [[[-> | Hw] _] | (r & Hr & _)]]%plan_paths; [congruence | done | done |].
      apply (f_equal length) in Hr. rewrite length_app in Hr. simpl in Hr. lia.
  - intros rest. destruct (m !! (from ++ slash :: rest)) as [e |] eqn:E; [by apply arrives_at |].
    rewrite (ap_other _ _ _ Hap).
    + rewrite bool_decide_false.
      * destruct (m !! (to ++ slash :: rest)) as [e |] eqn:Et; [| done]. exfalso. destruct Hto as [Hn | [_ Hv]].
        -- rewrite (Hc (to ++ slash :: rest) to) in Hn; [done | by rewrite Et | apply parents_below].
        -- rewrite (Hv (to ++ slash :: rest)) in Et; [done | apply parents_below].
      * intros [Hp | [Hp | (r & Hr & Hd)]]%creates_only_to.
        -- apply parents_length in Hp. rewrite length_app in Hp. simpl in Hp. lia.
        -- apply (f_equal length) in Hp. rewrite length_app in Hp. simpl in Hp. lia.
        -- apply app_inv_head in Hr as [= ->]. congruence.
    + intros [[Hp _] | [[[Hp | Hw] _] | (r & Hr & [e He])]]%plan_paths.
      * apply (f_equal length) in Hp. rewrite length_app in Hp. simpl in Hp. lia.
      * by eapply from_not_below.
      * apply elem_of_parents in Hw as [r Hr]. by eapply subtrees_apart.
      * apply app_inv_head in Hr as [= ->]. congruence.
  - intros p Hw. destruct (m !! p) as [e |] eqn:E; [by apply leaves_from; [rewrite E |] |].
    rewrite (ap_other _ _ _ Hap).
    + rewrite bool_decide_false; [done | by apply from_creates_nothing].
    + intros [[-> _] | [[_ ?] | (r & -> & _)]]%plan_paths.
      * by destruct Hw.
      * rewrite E in *. by destruct (is_Some_None (A := Entry)).
      * destruct Hw as [Hw | Hw]; [by eapply from_not_below |]. apply elem_of_parents in Hw as [r' Hr']. by eapply subtrees_apart.
  - intros p Hf Ht Hpt. rewrite (ap_other _ _ _ Hap).
    + rewrite bool_decide_false; [done |]. intros [? | [-> | (r & -> & _)]]%creates_only_to; [done | by apply Ht; left |].
      apply Ht. right. apply parents_below.
    + intros [[-> _] | [[? _] | (r & -> & _)]]%plan_paths; [by apply Ht; left | done |]. apply Ht. right. apply parents_below.
Qed.
End moved.

(** An accepted directory rename moves the subtree: what was below [from] is
    below [to] with the same modes and blobs, nothing is left at or
    below [from], and no other path changed but the missing directories above
    [to]. *)
Theorem rename_dir_moves_subtree g ws d acc d' m m' from to :
  manifest (db_store d) m → closed m → blobs_ok (db_store d) → from ≠ to →
  rename_dir (db_store d) from to = Ok ws → propose g ws d = (Ok acc, d') → manifest (db_store d') m' →
  m' !! to = Some EDir
  ∧ (∀ rest, m' !! (to ++ slash :: rest) = m !! (from ++ slash :: rest))
  ∧ (∀ p, within from p → m' !! p = None)
  ∧ (∀ p, ¬ within from p → ¬ within to p → p ∉ parents to → m' !! p = m !! p).
Proof.
  intros Hm Hc Hok Hft Hren (plans & merged & root & parsed & _ & Hd & _ & Hcs & Hpj & Hrun & _)%propose_ok Hm'.
  destruct (commit_plans d m ws plans merged root parsed Hm Hc Hok Hd Hcs Hpj) as (s' & m1 & Hrun' & Hm1 & Hc1 & Hap & _).
  rewrite Hrun' in Hrun. injection Hrun as _ _ <-. cbn [db_store] in Hm'.
  assert (m' = m1) as -> by (apply map_eq; intros p; by eapply manifest_functional). clear Hrun' Hm' Hpj.
  destruct (decided_plans _ _ _ _ _ Hm Hd) as (Hnd & Hpl & H2).
  destruct (rename_dir_plan _ _ _ _ _ Hm Hren) as (Hfrom & Hbel & Hto & Hws & Hbl).
  by apply (moved_subtree (db_store d) m plans ws).
Qed.

(** ** A refusal for a moved base *)

Definition base_blob (b : Base) : option Hash := match b with Blob h => Some h | Any | Absent => None end.
(** [st] names [w]'s path, what its author read there and what it holds, which differ. *)
Definition names (m : gmap path Entry) (w : Proposed) (st : Stale) : Prop :=
  sl_path st = pr_path w ∧ sl_expected st = base_blob (pr_base w)
  ∧ sl_current st = m !! pr_path w ≫= Entry_blob ∧ sl_expected st ≠ sl_current st.

Lemma decide_one_moved s m w st ranges :
  manifest s m → decide_one s w = Ok (Moved st ranges) → names m w st.
Proof.
  intros Hm. unfold decide_one. rewrite (entry_of_tree s m) by done. rewrite bind_Ok. unfold names.
  destruct (pr_change w) as [bytes mode | | |], (pr_base w) as [| h |], (m !! pr_path w) as [[held blob |] |] eqn:E;
    unfold refuse, decide_moved, content_hash, mret, result_ret; intros Hd; repeat (case_bool_decide || case_match);
    simplify_eq/=; split_and!; try done; congruence.
Qed.
Lemma decide_one_refusal s m w r : manifest s m → decide_one s w = Err (Refused r) → Refusal_moved r = [].
Proof.
  intros Hm. unfold decide_one. rewrite (entry_of_tree s m) by done. rewrite bind_Ok.
  unfold refuse, mret, result_ret. intros Hd; repeat case_match; by simplify_eq/=.
Qed.
Lemma decide_fold_refusal s m ws d r :
  manifest s m → fold_result (decide_step s) d ws = Err (Refused r) → Refusal_moved r = [].
Proof.
  intros Hm. revert d. induction ws as [| w ws IH]; intros d; cbn [fold_result]; [done |].
  destruct (decide_step s d w) as [d1 | e |] eqn:E1; [apply IH | | done]. intros [= ->].
  unfold decide_step in E1. case_match; [by injection E1 as <- |].
  destruct (decide_one s w) as [[] | |] eqn:E2; try done. injection E1 as ->. by eapply decide_one_refusal.
Qed.

(** A refusal for moved bases names every path that moved.  Each proposed path
    either can land as planned, or is in the refusal's list with the blob
    its author read and the blob it holds, which differ; and the list names
    nothing else. *)
Theorem refusal_names_every_moved_path s m ws r :
  manifest s m → decide_writes s ws = Err (Refused r) → Refusal_moved r ≠ [] →
  Forall (λ w, (∃ pl, decide_one s w = Ok (Planned pl) ∧ plan_of s m w pl) ∨ ∃ st, st ∈ Refusal_moved r ∧ names m w st) ws
  ∧ Forall (λ st, ∃ w, w ∈ ws ∧ names m w st) (Refusal_moved r).
Proof.
  intros Hm Hd Hr. unfold decide_writes in Hd.
  destruct (fold_result (decide_step s) deciding_init ws) as [d | e |] eqn:E; [| | done].
  2: { injection Hd as ->. by apply (decide_fold_refusal s m) in E. }
  rewrite bind_Ok in Hd. destruct (decide_fold s ws d E) as (_ & _ & ones & Hones & Hmv & _).
  assert (Refusal_moved r = dc_moved d) as Hmoved.
  { case_match; [by injection Hd as <- |]. destruct (dc_moved d) eqn:Ed; [done |]. by injection Hd as <-. }
  rewrite Hmoved, Hmv. clear -Hm Hones. split.
  - apply Forall_forall. intros w [i Hi]%list_elem_of_lookup.
    destruct (Forall2_lookup_l _ _ _ _ _ Hones Hi) as (one & Hin%list_elem_of_lookup_2 & Hone).
    destruct one as [pl | st ranges].
    + left. exists pl. split; [done |]. by apply decide_one_planned.
    + right. exists st. split; [| by eapply decide_one_moved]. apply list_elem_of_omap. by exists (Moved st ranges).
  - apply Forall_forall. intros st Hst. apply list_elem_of_omap in Hst as ([| st' ranges] & Hin & [= ->]).
    apply list_elem_of_lookup in Hin as [i Hi]. destruct (Forall2_lookup_r _ _ _ _ _ Hones Hi) as (w & Hw & Hone).
    exists w. split; [by eapply list_elem_of_lookup_2 | by eapply decide_one_moved].
Qed.

(** A rename of an empty directory onto itself is planned as its removal. *)
Lemma rename_onto_itself s m p :
  manifest s m → m !! p = Some EDir → vacant m p → plain_relative p = true → rename s p p = Ok [Proposed_rmdir p].
Proof.
  intros Hm Hp Hv Hpl. unfold rename, rename_dir. rewrite !(entry_of_tree s m), !bind_Ok, Hp, !(under_manifest s m) by done.
  assert (filter (λ x : path * Entry, (p ++ [slash]) `prefix_of` x.1) (sorted_pairs m) = []) as ->.
  { apply elem_of_nil_inv. intros [q e] [Hq He%elem_of_sorted_pairs]%list_elem_of_filter.
    apply parents_prefix in Hq. by rewrite (Hv q Hq) in He. }
  rewrite bool_decide_false. 2: { rewrite <- parents_prefix. apply parents_irrefl. }
  cbn [of_tree]. rewrite !bind_Ok, bool_decide_true, Hpl by done. done.
Qed.
End accepted.

(** ** A store to run on

    A file in a directory and an empty directory; a parse that takes up nothing. *)
Definition demo_blake3 : Blake3 :=
  {| blake3 := λ l, vreplicate 32 (hd x00 l); blake3_derive_key := λ _ l, vreplicate 32 (hd x00 l) |}.
Definition demo_parser : Parser := {|
  parser_of := vreplicate 32 x01;
  project := λ _ _ d, Some {| pd_outcomes := {| projected := ∅; unprojected := ∅ |}; pd_source := db_source d;
                              pd_root := [slash]; pd_post := None |};
  on_disk := λ _, {| dk_scan := λ _, StatNotFound; dk_stat := λ _, StatNotFound; dk_read := λ _, None;
                     dk_readlink := λ _, None |};
|}.
Definition demo_store : store :=
  put_dir [x62] (put_file [x61; x2f; x78] Executable (vreplicate 32 x07) None
    {| t_tree := ∅; t_diag := ∅; t_blobs := {[ as_bytes (vreplicate 32 x07) := [x07; x08] ]} |}).
Definition demo_manifest : gmap path Entry :=
  <[[x62] := EDir]> (add_dirs (parents [x62])
    (<[[x61; x2f; x78] := EFile Executable (vreplicate 32 x07)]> (add_dirs (parents [x61; x2f; x78]) ∅))).
Definition demo_db : db := {| db_store := demo_store; db_source := ∅; db_root := Some [slash] |}.
(** [a/x] leaves and [c/y] is created, [b] is removed. *)
Definition demo_writes : list Proposed :=
  [Proposed_create [x63; x2f; x79] [x09]; Proposed_delete [x61; x2f; x78] (Blob (vreplicate 32 x07)); Proposed_rmdir [x62]].
#[local] Existing Instances demo_blake3 chain_differ demo_parser.

Lemma demo_store_manifest : manifest demo_store demo_manifest.
Proof. apply manifest_put_dir, manifest_put_file. by intros p. Qed.
Lemma demo_store_closed : closed demo_manifest.
Proof. apply closed_put; [apply closed_put |]; [by intros p d [? ?] | | by left]. by right. Qed.
Lemma demo_store_blobs : blobs_ok demo_store.
Proof.
  intros k b. change (t_blobs demo_store) with ({[ as_bytes (vreplicate 32 x07) := [x07; x08] ]} : gmap path (list byte)).
  by intros [<- <-]%lookup_singleton_Some.
Qed.

Lemma accepted_proposal_is_applied_witness :
  ∃ acc d' m', propose Whole demo_writes demo_db = (Ok acc, d') ∧ manifest (db_store d') m' ∧ closed m'.
Proof.
  assert (is_ok (propose Whole demo_writes demo_db).1 = true) as Hok by (vm_compute; reflexivity).
  destruct (propose Whole demo_writes demo_db) as [[acc | |] d'] eqn:E; [| discriminate Hok | discriminate Hok].
  destruct (accepted_proposal_is_applied Whole demo_writes demo_db acc d' demo_manifest demo_store_manifest
    demo_store_closed demo_store_blobs E) as (plans & m' & _ & Hm & Hc & _).
  exists acc, d', m'. split; [reflexivity | split; assumption].
Defined.

Lemma check_decides_propose_witness : ∃ acc d', propose Whole demo_writes demo_db = (Ok acc, d').
Proof.
  pose proof (check_decides_propose Whole demo_writes demo_db demo_manifest demo_store_manifest
    demo_store_closed demo_store_blobs) as H.
  assert (check Whole demo_writes (db_store demo_db) = Ok tt) as Hc by (vm_compute; reflexivity).
  rewrite Hc in H. destruct H as (plans & merged & _ & Hr).
  assert (∀ pl, proposal_root demo_db pl = Ok [RootDir]) as Hroot.
  { intros pl. unfold proposal_root. assert (fold_result (root_step demo_db) None pl = Ok None) as ->; [| reflexivity].
    induction pl as [| x pl IH]; [reflexivity | exact IH]. }
  rewrite Hroot in Hr. exact Hr.
Defined.

(** A writer granted [c/y] alone. *)
Lemma grant_confines_proposal_witness :
  ∃ acc d' m', propose (Paths {[ [x63; x2f; x79] ]}) [Proposed_create [x63; x2f; x79] [x09]] demo_db = (Ok acc, d')
    ∧ manifest (db_store d') m' ∧ (m' !! [x62] = Some EDir).
Proof.
  set (ws := [Proposed_create _ _]). set (g := Paths _).
  assert (is_ok (propose g ws demo_db).1 = true) as Hok by (vm_compute; reflexivity).
  destruct (propose g ws demo_db) as [[acc | |] d'] eqn:E; [| discriminate Hok | discriminate Hok].
  destruct (accepted_manifest g ws demo_db acc d' demo_manifest demo_store_manifest demo_store_closed demo_store_blobs E) as [m' Em].
  exists acc, d', m'. split; [reflexivity | split; [exact Em |]].
  destruct (decide (m' !! [x62] = Some EDir)) as [? | Hne]; [assumption | exfalso].
  destruct (grant_confines_proposal g ws demo_db acc d' demo_manifest m' [x62] demo_store_manifest
    demo_store_closed demo_store_blobs E Em) as [Hc | [Hc _]]; [exact Hne | |]; vm_compute in Hc; discriminate.
Defined.

(** [a] is renamed to [d]. *)
Lemma rename_dir_moves_subtree_witness :
  ∃ ws acc d' m', rename_dir demo_store [x61] [x64] = Ok ws ∧ propose Whole ws demo_db = (Ok acc, d')
    ∧ manifest (db_store d') m' ∧ m' !! [x64; x2f; x78] = Some (EFile Executable (vreplicate 32 x07)) ∧ m' !! [x61; x2f; x78] = None.
Proof.
  assert (is_ok (rename_dir demo_store [x61] [x64]) = true) as Hr by (vm_compute; reflexivity).
  destruct (rename_dir demo_store [x61] [x64]) as [ws | |] eqn:Er; [| discriminate Hr | discriminate Hr].
  assert (is_ok (ws ← rename_dir demo_store [x61] [x64]; (propose Whole ws demo_db).1) = true) as Hok by (vm_compute; reflexivity).
  rewrite Er, bind_Ok in Hok.
  destruct (propose Whole ws demo_db) as [[acc | |] d'] eqn:E; [| discriminate Hok | discriminate Hok].
  destruct (accepted_manifest Whole ws demo_db acc d' demo_manifest demo_store_manifest demo_store_closed demo_store_blobs E) as [m' Em].
  destruct (rename_dir_moves_subtree Whole ws demo_db acc d' demo_manifest m' [x61] [x64] demo_store_manifest
    demo_store_closed demo_store_blobs ltac:(discriminate) Er E Em) as (_ & Hto & Hfrom & _).
  exists ws, acc, d', m'. split; [reflexivity | split; [exact E | split; [exact Em | split]]].
  - exact (Hto [x78]).
  - apply Hfrom. right. apply (parents_below [x61] [x78]).
Defined.

(** A delete of [a/x] by an author who read another blob. *)
Lemma refusal_names_every_moved_path_witness :
  ∃ moved, decide_writes demo_store [Proposed_delete [x61; x2f; x78] (Blob (vreplicate 32 x05)); Proposed_rmdir [x62]]
      = Err (Refused (StaleBases moved))
    ∧ Forall (λ st, sl_expected st ≠ sl_current st) moved ∧ length moved = 1%nat.
Proof.
  exists [{| sl_path := [x61; x2f; x78]; sl_expected := Some (vreplicate 32 x05); sl_current := Some (vreplicate 32 x07) |}].
  assert (decide_writes demo_store [Proposed_delete [x61; x2f; x78] (Blob (vreplicate 32 x05)); Proposed_rmdir [x62]]
    = Err (Refused (StaleBases [{| sl_path := [x61; x2f; x78]; sl_expected := Some (vreplicate 32 x05);
                                   sl_current := Some (vreplicate 32 x07) |}]))) as Hd by (vm_compute; reflexivity).
  split; [exact Hd | split; [| reflexivity]].
  destruct (refusal_names_every_moved_path _ demo_manifest _ _ demo_store_manifest Hd) as [_ Hall]; [discriminate |].
  eapply Forall_impl; [exact Hall |]. intros st (w & _ & _ & _ & _ & Hne). exact Hne.
Defined.

(** [check] does not ask where the tree is rooted: on a store that records no root it
    passes a proposal that [propose] refuses. *)
Lemma check_asks_no_root :
  let d := {| db_store := demo_store; db_source := ∅; db_root := None |} in
  check Whole [Proposed_rmdir [x62]] (db_store d) = Ok tt
  ∧ propose Whole [Proposed_rmdir [x62]] d = (Err (Refused (NoTreeRoot [x62])), d).
Proof. split; vm_compute; reflexivity. Qed.
