(* ===== verification/StateM.v ===== *)
(** * Stateful computations

    A call on an object with interior state: an answer, an error or a panic, and the state it
    leaves in each case.  [within R m] says every run of [m] moves the state along [R]. *)

From S2P Require Import Prelude.

Definition M (S E A : Type) : Type := S → result E A * S.
#[global] Instance M_ret {S E} : MRet (M S E) := λ A a s, (Ok a, s).
#[global] Instance M_bind {S E} : MBind (M S E) := λ A B f m s,
  match m s with (Ok a, s) => f a s | (Err e, s) => (Err e, s) | (Panic, s) => (Panic, s) end.

Section operations.
Context {S E : Type}.
Definition throw {A} (e : E) : M S E A := λ s, (Err e, s).
Definition panic {A} : M S E A := λ s, (Panic, s).
Definition gets {A} (f : S → A) : M S E A := λ s, (Ok (f s), s).
Definition modify (f : S → S) : M S E unit := λ s, (Ok tt, f s).
Definition lift {A} (r : result E A) : M S E A := λ s, (r, s).
Definition reads {A} (f : S → result E A) : M S E A := λ s, (f s, s).
Definition ensureM (c : bool) (e : E) : M S E unit := if c then mret tt else throw e.
(** [Result] inspected instead of returned with [?]. *)
Definition attempt {A} (m : M S E A) : M S E (result E A) :=
  λ s, match m s with (Panic, s) => (Panic, s) | (r, s) => (Ok r, s) end.
(** [map_err]. *)
Definition mapM_err {F A} (f : E → F) (m : M S E A) : M S F A := λ s, let '(r, s) := m s in (map_err f r, s).
Fixpoint foldM {A B} (f : B → A → M S E B) (b : B) (l : list A) : M S E B :=
  match l with [] => mret b | a :: l => b ← f b a; foldM f b l end.
End operations.

(** A computation on a part of the state. *)
Definition zoom {S T E A} (get : S → T) (set : T → S → S) (m : M T E A) : M S E A :=
  λ s, let '(r, t) := m (get s) in (r, set t s).

Section within.
Context {S : Type} (R : relation S) `{!PreOrder R}.
Definition within {E A} (m : M S E A) : Prop := ∀ s, R s (m s).2.

Lemma within_ret {E A} (a : A) : within (mret a : M S E A).
Proof. by intros s. Qed.
Lemma within_throw {E A} (e : E) : within (throw e : M S E A).
Proof. by intros s. Qed.
Lemma within_panic {E A} : within (panic : M S E A).
Proof. by intros s. Qed.
Lemma within_gets {E A} (f : S → A) : within (gets f : M S E A).
Proof. by intros s. Qed.
Lemma within_lift {E A} (r : result E A) : within (lift r).
Proof. by intros s. Qed.
Lemma within_reads {E A} (f : S → result E A) : within (reads f).
Proof. by intros s. Qed.
Lemma within_ensure {E} c (e : E) : within (ensureM c e).
Proof. by intros s; destruct c. Qed.
Lemma within_modify {E} (f : S → S) : (∀ s, R s (f s)) → within (modify f : M S E unit).
Proof. by intros H s; apply H. Qed.
Lemma within_bind {E A B} (m : M S E A) (f : A → M S E B) : within m → (∀ a, within (f a)) → within (m ≫= f).
Proof.
  intros Hm Hf s. unfold mbind, M_bind. specialize (Hm s). destruct (m s) as [[a | |] s1]; cbn [snd] in *; [| done | done].
  etrans; [exact Hm | apply Hf].
Qed.
(** The continuation is only reached with an answer of the first part. *)
Lemma within_bind_ok {E A B} (m : M S E A) (f : A → M S E B) :
  within m → (∀ a s1 s2, m s1 = (Ok a, s2) → within (f a)) → within (m ≫= f).
Proof.
  intros Hm Hf s. unfold mbind, M_bind. specialize (Hm s). destruct (m s) as [[a | |] s1] eqn:Es; cbn [snd] in *; [| done | done].
  etrans; [exact Hm | by eapply (Hf a s s1)].
Qed.
Lemma within_attempt {E A} (m : M S E A) : within m → within (attempt m).
Proof. intros Hm s. specialize (Hm s). unfold attempt. by destruct (m s) as [[] s1]. Qed.
Lemma within_map_err {E F A} (f : E → F) (m : M S E A) : within m → within (mapM_err f m).
Proof. intros Hm s. specialize (Hm s). unfold mapM_err. by destruct (m s). Qed.
Lemma within_fold {E A B} (f : B → A → M S E B) b l : (∀ b a, within (f b a)) → within (foldM f b l).
Proof. intros Hf. revert b. induction l as [| a l IH]; intros b; cbn [foldM]; [apply within_ret | apply within_bind; auto]. Qed.
Lemma within_zoom {T E A} (get : S → T) (set : T → S → S) (m : M T E A) : (∀ t s, R s (set t s)) → within (zoom get set m).
Proof. intros H s. unfold zoom. destruct (m (get s)). apply H. Qed.
End within.

Create HintDb within discriminated.
#[export] Hint Resolve within_ret within_throw within_panic within_gets within_lift within_reads within_ensure within_attempt within_map_err : within.
#[export] Hint Extern 1 (PreOrder _) => typeclasses eauto : within.
(** Walk through a computation, leaving the parts no lemma is known for. *)
Ltac within_step :=
  match goal with
  | |- within _ (_ ≫= _) => apply (within_bind _); [| intros ?]
  | |- within _ (foldM _ _ _) => apply (within_fold _); intros ? ?
  | |- within _ (attempt _) => apply within_attempt
  | |- within _ (mapM_err _ _) => apply within_map_err
  | |- within _ (let '_ := ?x in _) => destruct x
  | |- within _ (match ?x with _ => _ end) => destruct x
  | |- within _ (if ?x then _ else _) => destruct x
  | |- within _ _ => solve [eauto with within]
  end.
Ltac within_tac := intros; repeat within_step.

(** A successful run of a sequence is a run of its parts. *)
Lemma run_bind {S E A B} (m : M S E A) (f : A → M S E B) s b s' :
  (m ≫= f) s = (Ok b, s') ↔ ∃ a s1, m s = (Ok a, s1) ∧ f a s1 = (Ok b, s').
Proof.
  unfold mbind, M_bind. destruct (m s) as [[a | |] s1]; naive_solver.
Qed.
Lemma run_bind_Ok {S E A B} (m : M S E A) (f : A → M S E B) s a s1 : m s = (Ok a, s1) → (m ≫= f) s = f a s1.
Proof. intros H. unfold mbind, M_bind. by rewrite H. Qed.
Lemma run_bind_Err {S E A B} (m : M S E A) (f : A → M S E B) s e s1 : m s = (Err e, s1) → (m ≫= f) s = (Err e, s1).
Proof. intros H. unfold mbind, M_bind. by rewrite H. Qed.
Lemma ensureM_ok {S E} c (e : E) (s s' : S) u : ensureM c e s = (Ok u, s') → c = true ∧ s' = s.
Proof. destruct c; [by intros [= <- <-] | done]. Qed.
Lemma lift_ok {S E A} (r : result E A) (s s' : S) a : lift r s = (Ok a, s') → r = Ok a ∧ s' = s.
Proof. by intros [= -> <-]. Qed.
