(* ===== verification/Derived.v ===== *)
(** * Derived paths

    [rs/ll-open/storefs/src/derived.rs]: the scratch directory a store filesystem keeps build
    output in, outside the store.  The host's file calls are the class [Posix]; every call
    the code makes carries [O_NOFOLLOW] and [O_CLOEXEC]. *)

From S2P Require Import Prelude Text Tree Proposal StateM.
From Stdlib Require Import NArith Lia.
Local Open Scope N_scope.

(** ** The crate's errors and kinds *)

Inductive Errno :=
| EPERM | ENOENT | EIO | EBADF | EACCES | EEXIST | EXDEV | ENOTDIR | EISDIR | EINVAL | ENOSPC | ENAMETOOLONG | ENOSYS | ENOTEMPTY | ELOOP | ESTALE.
Definition Errno_value (e : Errno) : Z :=
  match e with
  | EPERM => 1 | ENOENT => 2 | EIO => 5 | EBADF => 9 | EACCES => 13 | EEXIST => 17 | EXDEV => 18 | ENOTDIR => 20 | EISDIR => 21
  | EINVAL => 22 | ENOSPC => 28 | ENAMETOOLONG => 36 | ENOSYS => 38 | ENOTEMPTY => 39 | ELOOP => 40 | ESTALE => 116
  end%Z.
#[global] Instance Errno_eq_dec : EqDecision Errno.
Proof. solve_decision. Defined.
Inductive Kind := KFile | KDirectory | KSymlink.
#[global] Instance Kind_eq_dec : EqDecision Kind.
Proof. solve_decision. Defined.

(** ** Names that are always generated *)

Definition GENERATED_DIRS : list (list byte) :=
  bytes_of <$> ["target"; "node_modules"; "__pycache__"; "__pypackages__"; "venv"; ".venv"; ".git"]%string.
Fixpoint generated (parts : list (list byte)) (is_dir : bool) : bool :=
  match parts with
  | [] => false
  | part :: rest =>
      let last := match rest with [] => true | _ => false end in
      if (negb last || is_dir) && bool_decide (part ∈ GENERATED_DIRS) then true
      else if last && (bool_decide (bytes_of "._" `prefix_of` part) || bool_decide (part = bytes_of ".DS_Store")) then true
      else generated rest is_dir
  end.
Definition builtin_derived (p : path) (is_dir : bool) : bool := generated (split_slash p) is_dir.

(** ** The host *)

Inductive os_error :=
| OsNOENT | OsEXIST | OsNOTEMPTY | OsNOTDIR | OsISDIR | OsACCES | OsPERM | OsINVAL | OsXDEV | OsLOOP | OsNAMETOOLONG | OsNOSPC | OsDQUOT | OsOther.
Definition errno_of (e : os_error) : Errno :=
  match e with
  | OsNOENT => ENOENT | OsEXIST => EEXIST | OsNOTEMPTY => ENOTEMPTY | OsNOTDIR => ENOTDIR | OsISDIR => EISDIR | OsACCES => EACCES
  | OsPERM => EPERM | OsINVAL => EINVAL | OsXDEV => EXDEV | OsLOOP => ELOOP | OsNAMETOOLONG => ENAMETOOLONG
  | OsNOSPC | OsDQUOT => ENOSPC | OsOther => EIO
  end.
Definition missing (e : os_error) : bool := match e with OsNOENT | OsNOTDIR => true | _ => false end.

Inductive access := O_RDONLY | O_WRONLY | O_RDWR.
Record oflags := { o_access : access; o_directory : bool; o_creat : bool; o_excl : bool }.
Definition READ_DIR : oflags := {| o_access := O_RDONLY; o_directory := true; o_creat := false; o_excl := false |}.
Definition plain (a : access) : oflags := {| o_access := a; o_directory := false; o_creat := false; o_excl := false |}.
Record raw_stat := { st_mode : N; st_size : N; st_secs : Z; st_nanos : Z }.

(** The calls on directories take an open directory and one name in it. *)
Class Posix := {
  os : Type;
  fd : Type;
  (** [create_dir], [set_permissions] and [open] of the [n]th directory name. *)
  make_root : N → os → result os_error fd * os;
  (** How many of those names a process before this one may have left. *)
  leftovers : nat;
  openat : fd → list byte → oflags → N → os → result os_error fd * os;
  mkdirat : fd → list byte → os → result os_error unit * os;
  symlinkat : list byte → fd → list byte → os → result os_error unit * os;
  readlinkat : fd → list byte → os → result os_error (list byte) * os;
  unlinkat : fd → list byte → bool → os → result os_error unit * os;
  renameat : fd → list byte → fd → list byte → os → result os_error unit * os;
  fstatat : fd → list byte → os → result os_error raw_stat * os;
  readdir : fd → os → result os_error (list (list byte)) * os;
  fchmod : fd → N → os → result os_error unit * os;
  fstat : fd → os → result os_error raw_stat * os;
  write_all_at : fd → list byte → N → os → result os_error unit * os;
  read_exact_at : fd → N → N → os → result os_error (list byte) * os;
  ftruncate : fd → N → os → result os_error unit * os;
}.

Record ScratchStat := { ss_kind : Kind; ss_size : N; ss_perm : N; ss_mtime : N }.
(** Times in nanoseconds. *)
Definition stat_of (st : raw_stat) : ScratchStat :=
  let m := N.land (st_mode st) 61440 in
  let kind := if m =? 16384 then KDirectory else if m =? 40960 then KSymlink else KFile in
  {| ss_kind := kind; ss_size := if bool_decide (kind = KDirectory) then 0 else st_size st; ss_perm := N.land (st_mode st) 511;
     ss_mtime := Z.to_N (Z.max (st_secs st) 0) * 1000000000 + Z.to_N (Z.min (Z.max (st_nanos st) 0) 999999999) |}.

Definition DEFAULT_LIMIT : N := 17179869184.

Section scratch.
Context `{Posix}.

(** The directory and its limit; the host and the bytes accounted for change under it. *)
Record Scratch := { sc_root : fd; sc_limit : N }.
Record host := { h_os : os; h_used : N }.
Record ScratchHandle := { sh_file : fd; sh_writable : bool }.
Notation SM := (M host os_error).
Definition sys {A} (call : os → result os_error A * os) : SM A :=
  zoom h_os (λ o h, {| h_os := o; h_used := h_used h |}) call.

(** The names tried, from the process's counter on. *)
Fixpoint create_loop (fuel : nat) (n : N) : SM (fd * N) :=
  match fuel with
  | O => panic
  | S fuel =>
      made ← attempt (sys (make_root n));
      match made with
      | Ok root => mret (root, n + 1)
      | Err OsEXIST => create_loop fuel (n + 1)
      | Err e => throw e
      | Panic => panic
      end
  end.
Definition Scratch_create (limit n : N) : SM (Scratch * N) :=
  '(root, n) ← create_loop (S leftovers) n;
  mret ({| sc_root := root; sc_limit := limit |}, n).

(** A name passed to the host is one component. *)
Definition valid_name (name : list byte) : bool :=
  negb (bool_decide (name = [] ∨ name = dot ∨ name = dotdot ∨ slash ∈ name ∨ x00 ∈ name)).
Definition cname (name : list byte) : SM (list byte) := if valid_name name then mret name else throw OsINVAL.

Definition descend (make : bool) (dir : fd) (part : list byte) : SM fd :=
  name ← cname part;
  next ← attempt (sys (openat dir name READ_DIR 0));
  match next with
  | Ok fd => mret fd
  | Err OsNOENT =>
      if make then
        _ ← sys (mkdirat dir name);
        sys (openat dir name READ_DIR 0)
      else throw OsNOENT
  | Err e => throw e
  | Panic => panic
  end.
Definition parent_of (sc : Scratch) (p : path) (make : bool) : SM (fd * list byte) :=
  let parts := split_slash p in
  dir ← foldM (descend make) (sc_root sc) (removelast parts);
  name ← cname (List.last parts []);
  mret (dir, name).
(** [parent_of] where a missing directory is an answer. *)
Definition found {A} (m : SM A) : SM (option A) :=
  r ← attempt m;
  match r with
  | Ok a => mret (Some a)
  | Err e => if missing e then mret None else throw e
  | Panic => panic
  end.

Definition fstatat_of (dir : fd) (name : list byte) : SM ScratchStat := st ← sys (fstatat dir name); mret (stat_of st).
Definition Scratch_stat (sc : Scratch) (p : path) : SM (option ScratchStat) :=
  at_ ← found (parent_of sc p false);
  match at_ with
  | None => mret None
  | Some (dir, name) => found (fstatat_of dir name)
  end.
Definition read_names (dir : fd) : SM (list (list byte)) :=
  names ← sys (readdir dir);
  mret (filter (λ n, n ≠ dot ∧ n ≠ dotdot) (utf8_lossy <$> names)).
Definition list_one (dir : fd) (out : list (list byte * Kind)) (name : list byte) : SM (list (list byte * Kind)) :=
  c ← cname name;
  st ← attempt (fstatat_of dir c);
  mret (match st with Ok st => out ++ [(name, ss_kind st)] | _ => out end).
Definition Scratch_list (sc : Scratch) (p : path) : SM (list (list byte * Kind)) :=
  dir ← match p with
        | [] => mret (Some (sc_root sc))
        | _ =>
            at_ ← found (parent_of sc p false);
            match at_ with
            | None => mret None
            | Some (dir, name) => found (sys (openat dir name READ_DIR 0))
            end
        end;
  match dir with
  | None => mret []
  | Some dir => names ← read_names dir; foldM (list_one dir) [] names
  end.
Definition Scratch_open (sc : Scratch) (p : path) (flags : oflags) (mode : N) : SM fd :=
  '(dir, name) ← parent_of sc p (o_creat flags);
  sys (openat dir name flags mode).
Definition Scratch_mkdir (sc : Scratch) (p : path) : SM unit :=
  '(dir, name) ← parent_of sc p true;
  sys (mkdirat dir name).
Definition Scratch_symlink (sc : Scratch) (target : list byte) (p : path) : SM unit :=
  '(dir, name) ← parent_of sc p true;
  if bool_decide (x00 ∈ target) then throw OsINVAL else sys (symlinkat target dir name).
(** At most 4096 bytes of the target are read. *)
Definition Scratch_readlink (sc : Scratch) (p : path) : SM (list byte) :=
  '(dir, name) ← parent_of sc p false;
  target ← sys (readlinkat dir name);
  mret (takeN 4096 target).

Definition reserve (sc : Scratch) (bytes : N) : SM unit :=
  used ← gets h_used;
  if sc_limit sc <? sat_add used bytes then throw OsNOSPC
  else modify (λ h, {| h_os := h_os h; h_used := wadd64 used bytes |}).
Definition release_bytes (bytes : N) : SM unit := modify (λ h, {| h_os := h_os h; h_used := h_used h - bytes |}).
(** The bytes of a regular file at a name, which its removal frees. *)
Definition freed_at (dir : fd) (name : list byte) : SM N :=
  st ← attempt (fstatat_of dir name);
  mret (match st with Ok st => if bool_decide (ss_kind st = KFile) then ss_size st else 0 | _ => 0 end).
Definition Scratch_unlink (sc : Scratch) (p : path) : SM unit :=
  '(dir, name) ← parent_of sc p false;
  freed ← freed_at dir name;
  _ ← sys (unlinkat dir name false);
  release_bytes freed.
Definition Scratch_rmdir (sc : Scratch) (p : path) : SM unit :=
  '(dir, name) ← parent_of sc p false;
  sys (unlinkat dir name true).
Definition Scratch_rename (sc : Scratch) (from to : path) : SM unit :=
  '(from_dir, from_name) ← parent_of sc from false;
  '(to_dir, to_name) ← parent_of sc to true;
  freed ← freed_at to_dir to_name;
  _ ← sys (renameat from_dir from_name to_dir to_name);
  release_bytes freed.
Definition Scratch_chmod (sc : Scratch) (p : path) (perm : N) : SM unit :=
  '(dir, name) ← parent_of sc p false;
  fd ← sys (openat dir name (plain O_RDONLY) 0);
  sys (fchmod fd (N.land perm 4095)).
Definition Scratch_write (sc : Scratch) (file : fd) (offset : N) (data : list byte) : SM unit :=
  st ← sys (fstat file);
  let end_ := sat_add offset (len data) in
  _ ← reserve sc (end_ - st_size st);
  r ← attempt (sys (write_all_at file data offset));
  match r with
  | Ok _ => mret tt
  | Err e => _ ← release_bytes (end_ - st_size st); throw e
  | Panic => panic
  end.
Definition Scratch_set_len (sc : Scratch) (file : fd) (size : N) : SM unit :=
  st ← sys (fstat file);
  _ ← reserve sc (size - st_size st);
  _ ← sys (ftruncate file size);
  release_bytes (st_size st - size).
Definition stat_file (file : fd) : SM ScratchStat := st ← sys (fstat file); mret (stat_of st).
End scratch.
Arguments Scratch _ : clear implicits.
Arguments host _ : clear implicits.
Arguments ScratchHandle _ : clear implicits.
Notation SM := (M (host _) os_error).

(** ** Confinement to the scratch directory

    [guard] stops any call on a descriptor that was not opened beneath the root, or with a
    name that is not one component. *)

Definition guard (P : Posix) (beneath : fd → bool) : Posix :=
  let on {A} (ok : bool) (call : os → result os_error A * os) : os → result os_error A * os := if ok then call else λ o, (Panic, o) in {|
  os := os; fd := fd; make_root := make_root; leftovers := leftovers;
  openat := λ d n f m, on (beneath d && valid_name n) (openat d n f m);
  mkdirat := λ d n, on (beneath d && valid_name n) (mkdirat d n);
  symlinkat := λ t d n, on (beneath d && valid_name n) (symlinkat t d n);
  readlinkat := λ d n, on (beneath d && valid_name n) (readlinkat d n);
  unlinkat := λ d n b, on (beneath d && valid_name n) (unlinkat d n b);
  renameat := λ d n d' n', on (beneath d && valid_name n && beneath d' && valid_name n') (renameat d n d' n');
  fstatat := λ d n, on (beneath d && valid_name n) (fstatat d n);
  readdir := λ d, on (beneath d) (readdir d);
  fchmod := λ d p, on (beneath d) (fchmod d p);
  fstat := λ d, on (beneath d) (fstat d);
  write_all_at := λ d b n, on (beneath d) (write_all_at d b n);
  read_exact_at := λ d n k, on (beneath d) (read_exact_at d n k);
  ftruncate := λ d n, on (beneath d) (ftruncate d n) |}.

(** Every answer satisfies [Q], and nothing panics. *)
Definition answers_in {S E A} (Q : A → Prop) (m : M S E A) : Prop :=
  ∀ s, match (m s).1 with Ok a => Q a | Err _ => True | Panic => False end.
Section answers_in.
Context {S E : Type}.
Lemma in_ret {A} (Q : A → Prop) (a : A) : Q a → answers_in Q (mret a : M S E A).
Proof. by intros Hq s. Qed.
Lemma in_throw {A} (Q : A → Prop) (e : E) : answers_in Q (throw e : M S E A).
Proof. by intros s. Qed.
Lemma in_bind {A B} (P : A → Prop) (Q : B → Prop) (m : M S E A) (f : A → M S E B) :
  answers_in P m → (∀ a, P a → answers_in Q (f a)) → answers_in Q (m ≫= f).
Proof.
  intros Hm Hf s. specialize (Hm s). unfold mbind, M_bind. destruct (m s) as [[a | |] s1]; cbn [fst] in *; [by apply Hf | done | done].
Qed.
Lemma in_attempt {A} (Q : A → Prop) (m : M S E A) :
  answers_in Q m → answers_in (λ r, match r with Ok a => Q a | Err _ => True | Panic => False end) (attempt m).
Proof. intros Hm s. specialize (Hm s). unfold attempt. by destruct (m s) as [[] s1]. Qed.
Lemma in_fold {A B} (Q : B → Prop) (f : B → A → M S E B) b l : Q b → (∀ b a, Q b → answers_in Q (f b a)) → answers_in Q (foldM f b l).
Proof.
  intros Hb Hf. revert b Hb. induction l as [| a l IH]; intros b Hb; cbn [foldM]; [by apply in_ret |].
  eapply in_bind; [by apply Hf |]. intros b' Hb'. by apply IH.
Qed.
Lemma in_weaken {A} (P Q : A → Prop) (m : M S E A) : (∀ a, P a → Q a) → answers_in P m → answers_in Q m.
Proof. intros Hpq Hm s. specialize (Hm s). destruct (m s) as [[] ?]; [by apply Hpq | done..]. Qed.
Lemma in_modify (f : S → S) : answers_in (λ _, True) (modify f : M S E unit).
Proof. by intros s. Qed.
End answers_in.

Section confinement.
Context (P : Posix) (beneath : @fd P → bool).
(** Opening a name without following a symbolic link stays beneath, and the host's calls
    return. *)
Context (openat_beneath : ∀ d n f m o d' o', beneath d = true → @openat P d n f m o = (Ok d', o') → beneath d' = true).
Definition returns {A} (call : @os P → result os_error A * @os P) : Prop := ∀ o, (call o).1 ≠ Panic.
Context (host_returns : (∀ d n f m, returns (@openat P d n f m)) ∧ (∀ d n, returns (@mkdirat P d n)) ∧ (∀ t d n, returns (@symlinkat P t d n))
  ∧ (∀ d n, returns (@readlinkat P d n)) ∧ (∀ d n b, returns (@unlinkat P d n b)) ∧ (∀ d n d' n', returns (@renameat P d n d' n'))
  ∧ (∀ d n, returns (@fstatat P d n)) ∧ (∀ d, returns (@readdir P d)) ∧ (∀ d p, returns (@fchmod P d p))).
Notation G := (guard P beneath).
Notation "'sys_ok' c" := (@answers_in _ _ _ (λ _, True) (@sys G _ c)) (at level 10).

Lemma in_sys {A} (call : @os P → result os_error A * @os P) (Q : A → Prop) :
  (∀ o a o', call o = (Ok a, o') → Q a) → returns call → answers_in Q (@sys G A call).
Proof.
  intros Hq Hr h. unfold sys, zoom. specialize (Hr (h_os h)). specialize (Hq (h_os h)).
  destruct (call (h_os h)) as [[a | |] o] eqn:Hc; cbn [fst] in *; [by eapply Hq | done | done].
Qed.
Lemma guard_openat d n f m : beneath d = true → valid_name n = true → answers_in (λ d, beneath d = true) (@sys G _ (@openat G d n f m)).
Proof.
  intros Hd Hn. cbn [openat guard]. rewrite Hd, Hn. apply in_sys; [| by apply host_returns]. intros o a o'. by apply openat_beneath.
Qed.
Definition place (x : @fd P * list byte) : Prop := beneath x.1 = true ∧ valid_name x.2 = true.
Lemma in_cname n : answers_in (λ n, valid_name n = true) (@cname G n).
Proof. unfold cname. destruct (valid_name n) eqn:Hv; [by apply in_ret | apply in_throw]. Qed.
Lemma in_descend make d part : beneath d = true → answers_in (λ d, beneath d = true) (@descend G make d part).
Proof.
  intros Hd. unfold descend. eapply in_bind; [apply in_cname |]. intros n Hn. eapply in_bind; [by apply in_attempt, guard_openat |].
  intros [fd0 | e |] Hr; [by apply in_ret | | done].
  destruct e; try apply in_throw. destruct make; [| apply in_throw]. eapply in_bind; [| intros _ _; by apply guard_openat].
  cbn [mkdirat guard]. rewrite Hd, Hn. apply (in_sys _ (λ _, True)); [done | by apply host_returns].
Qed.
Lemma in_parent_of (sc : Scratch G) p make : beneath (sc_root sc) = true → answers_in place (@parent_of G sc p make).
Proof.
  intros Hr. unfold parent_of. eapply in_bind; [apply (in_fold (λ d, beneath d = true)); [done | intros d part Hd; by apply in_descend] |].
  intros d Hd. eapply in_bind; [apply in_cname |]. intros n Hn. by apply in_ret.
Qed.
Lemma in_found {A} (Q : A → Prop) (m : M (host G) os_error A) : answers_in Q m → answers_in (λ o, ∀ a, o = Some a → Q a) (@found G A m).
Proof.
  intros Hm. unfold found. eapply in_bind; [by apply in_attempt |]. intros [a | e |] Hr; [| | done].
  - apply in_ret. by intros ? [= <-].
  - destruct (missing e); [by apply in_ret | apply in_throw].
Qed.
Ltac placed_call := intros [d n] [Hd Hn]; cbn [fst snd] in Hd, Hn.
Lemma in_fstatat d n : place (d, n) → answers_in (λ _, True) (@fstatat_of G d n).
Proof.
  intros [Hd Hn]. cbn [fst snd] in *. unfold fstatat_of. eapply (in_bind (λ _, True)); [| intros st _; by apply in_ret].
  cbn [fstatat guard]. rewrite Hd, Hn. apply in_sys; [done | by apply host_returns].
Qed.
Lemma in_freed d n : place (d, n) → answers_in (λ _, True) (@freed_at G d n).
Proof. intros Hp. unfold freed_at. eapply in_bind; [by apply in_attempt, in_fstatat |]. intros r _. by apply in_ret. Qed.

(** The operations on paths. *)
Inductive path_op :=
| OpStat (p : path) | OpList (p : path) | OpOpen (p : path) (f : oflags) (m : N) | OpMkdir (p : path) | OpSymlink (target : list byte) (p : path)
| OpReadlink (p : path) | OpUnlink (p : path) | OpRmdir (p : path) | OpRename (from to : path) | OpChmod (p : path) (perm : N).
Definition run_op (sc : Scratch G) (op : path_op) : M (host G) os_error unit :=
  match op with
  | OpStat p => _ ← Scratch_stat sc p; mret tt
  | OpList p => _ ← Scratch_list sc p; mret tt
  | OpOpen p f m => _ ← Scratch_open sc p f m; mret tt
  | OpMkdir p => Scratch_mkdir sc p
  | OpSymlink t p => Scratch_symlink sc t p
  | OpReadlink p => _ ← Scratch_readlink sc p; mret tt
  | OpUnlink p => Scratch_unlink sc p
  | OpRmdir p => Scratch_rmdir sc p
  | OpRename from to => Scratch_rename sc from to
  | OpChmod p perm => Scratch_chmod sc p perm
  end.
Lemma in_done {A} (m : M (host G) os_error A) : answers_in (λ _, True) m → answers_in (λ _, True) (_ ← m; mret tt : M (host G) os_error unit).
Proof. intros Hm. eapply in_bind; [exact Hm |]. intros a _. by apply in_ret. Qed.
Lemma in_list (sc : Scratch G) p : beneath (sc_root sc) = true → answers_in (λ _, True) (@Scratch_list G sc p).
Proof.
  intros Hr. unfold Scratch_list. eapply (in_bind (λ o, ∀ d, o = Some d → beneath d = true)).
  - destruct p as [| c p]; [apply in_ret; by intros ? [= <-] |].
    eapply in_bind; [apply in_found, in_parent_of, Hr |]. intros [[d n] |] Hp; [| by apply in_ret].
    destruct (Hp _ eq_refl) as [Hd Hn]. by apply in_found, guard_openat.
  - intros [d |] Hd; [| by apply in_ret]. specialize (Hd d eq_refl). eapply (in_bind (λ _, True)).
    + unfold read_names. eapply (in_bind (λ _, True)); [| intros ns _; by apply in_ret]. cbn [readdir guard]. rewrite Hd. apply in_sys; [done | by apply host_returns].
    + intros ns _. apply in_fold; [done |]. intros out name _. unfold list_one. eapply in_bind; [apply in_cname |]. intros c Hc.
      eapply in_bind; [by apply in_attempt, in_fstatat |]. intros r _. by apply in_ret.
Qed.

(** Scratch never leaves its directory.  Every operation on a path, whatever the path,
    calls the host only on descriptors opened beneath the scratch directory and with names
    that are one component, never [.] or [..] and without a separator or a zero byte. *)
Theorem scratch_stays_beneath (sc : Scratch G) op : beneath (sc_root sc) = true → answers_in (λ _, True) (run_op sc op).
Proof.
  intros Hr. destruct op; cbn [run_op].
  - apply in_done. unfold Scratch_stat. eapply in_bind; [apply in_found, in_parent_of, Hr |]. intros [[d n] |] Hp; [| by apply in_ret].
    eapply in_weaken; [| apply in_found, in_fstatat, (Hp _ eq_refl)]. done.
  - by apply in_done, in_list.
  - apply in_done. unfold Scratch_open. eapply in_bind; [apply in_parent_of, Hr |]. placed_call. eapply in_weaken; [| by apply guard_openat]. done.
  - unfold Scratch_mkdir. eapply in_bind; [apply in_parent_of, Hr |]. placed_call. cbn [mkdirat guard]. rewrite Hd, Hn. apply in_sys; [done | by apply host_returns].
  - unfold Scratch_symlink. eapply in_bind; [apply in_parent_of, Hr |]. placed_call. destruct (bool_decide _); [apply in_throw |].
    cbn [symlinkat guard]. rewrite Hd, Hn. apply in_sys; [done | by apply host_returns].
  - apply in_done. unfold Scratch_readlink. eapply in_bind; [apply in_parent_of, Hr |]. placed_call. eapply (in_bind (λ _, True)); [| intros t _; by apply in_ret].
    cbn [readlinkat guard]. rewrite Hd, Hn. apply in_sys; [done | by apply host_returns].
  - unfold Scratch_unlink. eapply in_bind; [apply in_parent_of, Hr |]. placed_call. eapply in_bind; [by apply in_freed |]. intros k _.
    eapply (in_bind (λ _, True)); [| intros _ _; apply in_modify]. cbn [unlinkat guard]. rewrite Hd, Hn. apply in_sys; [done | by apply host_returns].
  - unfold Scratch_rmdir. eapply in_bind; [apply in_parent_of, Hr |]. placed_call. cbn [unlinkat guard]. rewrite Hd, Hn. apply in_sys; [done | by apply host_returns].
  - unfold Scratch_rename. eapply in_bind; [apply in_parent_of, Hr |]. placed_call. eapply in_bind; [apply in_parent_of, Hr |]. intros [d' n'] [Hd' Hn']. cbn [fst snd] in Hd', Hn'.
    eapply in_bind; [by apply in_freed |]. intros k _. eapply (in_bind (λ _, True)); [| intros _ _; apply in_modify].
    cbn [renameat guard]. rewrite Hd, Hn, Hd', Hn'. apply in_sys; [done | by apply host_returns].
  - unfold Scratch_chmod. eapply in_bind; [apply in_parent_of, Hr |]. placed_call. eapply in_bind; [by apply guard_openat |]. intros f Hf.
    cbn [fchmod guard]. rewrite Hf. apply in_sys; [done | by apply host_returns].
Qed.
End confinement.

(** ** The limit *)

Section limit.
Context `{Posix} (sc : Scratch _) (Hlimit : sc_limit sc ≤ u64_max).
Definition within_limit : relation (host _) := λ h h', h_used h ≤ sc_limit sc → h_used h' ≤ sc_limit sc.
#[local] Instance within_limit_preorder : PreOrder within_limit.
Proof. split; [by intros h ? | intros h1 h2 h3 H12 H23 Hh; by apply H23, H12]. Qed.
Lemma limit_sys {A} (call : os → result os_error A * os) : within within_limit (sys call).
Proof. intros h Hh. unfold sys, zoom. by destruct (call (h_os h)). Qed.
Lemma limit_reserve n : within within_limit (reserve sc n).
Proof.
  unfold reserve. intros h Hh. unfold mbind, M_bind, gets. destruct (N.ltb_spec (sc_limit sc) (sat_add (h_used h) n)) as [Hlt | Hge]; [done |].
  cbn. unfold sat_add in Hge. pose proof (wadd64_bound (h_used h) n). destruct (decide (h_used h + n ≤ u64_max)) as [Hs | Hs].
  - rewrite wadd64_small by done. lia.
  - assert (u64_max ≤ sc_limit sc) by lia. lia.
Qed.
Lemma limit_release n : within within_limit (release_bytes n).
Proof. intros h Hh. cbn. lia. Qed.
#[local] Hint Resolve limit_sys limit_reserve limit_release : within.
(** What scratch accounts for never passes its limit. *)
Lemma write_within_limit file offset data : within within_limit (Scratch_write sc file offset data).
Proof. unfold Scratch_write. within_tac. Qed.
Lemma set_len_within_limit file size : within within_limit (Scratch_set_len sc file size).
Proof. unfold Scratch_set_len. within_tac. Qed.
End limit.

(** ** A host in memory

    One directory of files; a file that is removed keeps its bytes while it is open. *)
Module Memory.
Record disk := { names : gmap (list byte) N; files : gmap N (list byte); next_file : N }.
Definition root : N := 0.
Definition empty : disk := {| names := ∅; files := ∅; next_file := 1 |}.
Definition file_stat (k : disk) (i : N) : result os_error raw_stat :=
  match files k !! i with
  | Some b => Ok {| st_mode := 33188; st_size := len b; st_secs := 0; st_nanos := 0 |}
  | None => Err OsNOENT
  end.
Definition openat (d : N) (n : list byte) (f : oflags) (_ : N) (k : disk) : result os_error N * disk :=
  match names k !! n with
  | Some i => if o_excl f then (Err OsEXIST, k) else if o_directory f then (Err OsNOTDIR, k) else (Ok i, k)
  | None =>
      if o_creat f then
        let i := next_file k in (Ok i, {| names := <[n := i]> (names k); files := <[i := []]> (files k); next_file := i + 1 |})
      else (Err OsNOENT, k)
  end.
Definition unlinkat (d : N) (n : list byte) (_ : bool) (k : disk) : result os_error unit * disk :=
  match names k !! n with
  | Some _ => (Ok tt, {| names := delete n (names k); files := files k; next_file := next_file k |})
  | None => (Err OsNOENT, k)
  end.
Definition write_all_at (i : N) (data : list byte) (offset : N) (k : disk) : result os_error unit * disk :=
  match files k !! i with
  | Some b =>
      let b := b ++ replicate (N.to_nat (offset + len data - len b)) x00 in
      (Ok tt, {| names := names k; files := <[i := splice offset data b]> (files k); next_file := next_file k |})
  | None => (Err OsOther, k)
  end.
Definition unsupported {A} (k : disk) : result os_error A * disk := (Err OsOther, k).
#[export] Instance host : Posix := {|
  os := disk; fd := N; make_root := λ _ k, (Ok root, k); leftovers := 0; Derived.openat := openat; mkdirat := λ _ _, unsupported;
  symlinkat := λ _ _ _, unsupported; readlinkat := λ _ _, unsupported; Derived.unlinkat := unlinkat; renameat := λ _ _ _ _, unsupported;
  fstatat := λ _ n k, (match names k !! n with Some i => file_stat k i | None => Err OsNOENT end, k);
  readdir := λ _ k, (Ok (map_to_list (names k)).*1, k); fchmod := λ _ _ k, (Ok tt, k); fstat := λ i k, (file_stat k i, k);
  Derived.write_all_at := write_all_at; read_exact_at := λ _ _ _, unsupported; ftruncate := λ _ _, unsupported |}.
Definition scratch : Scratch host := {| sc_root := root; sc_limit := 4 |}.
(** A file created, filled, and removed while it is open; then another. *)
Definition fill_and_remove (name data : list byte) : SM N :=
  f ← Scratch_open scratch name {| o_access := O_RDWR; o_directory := false; o_creat := true; o_excl := true |} 420;
  _ ← Scratch_write scratch f 0 data;
  _ ← Scratch_unlink scratch name;
  mret f.
Definition fill_twice : SM unit :=
  _ ← fill_and_remove [x61] [x01; x02; x03; x04];
  _ ← fill_and_remove [x61] [x05; x06; x07; x08];
  mret tt.
(** Bytes of a removed file are no longer accounted for, though an open handle keeps them. *)
Lemma removed_files_are_not_counted :
  let '(r, h) := fill_twice {| h_os := empty; h_used := 0 |} in
  r = Ok tt ∧ h_used h = 0 ∧ files (h_os h) !! 1 = Some [x01; x02; x03; x04] ∧ files (h_os h) !! 2 = Some [x05; x06; x07; x08].
Proof. vm_compute. repeat split. Qed.
End Memory.

(** Everything the host in memory opens is beneath its one directory. *)
Lemma scratch_stays_beneath_witness :
  let G := guard Memory.host (λ _, true) in
  answers_in (λ _, True) (run_op Memory.host (λ _, true) ({| sc_root := Memory.root; sc_limit := 4 |} : Scratch G) (OpUnlink [x61; x2f; x2e; x2e])).
Proof.
  apply scratch_stays_beneath.
  - intros. reflexivity.
  - repeat split; intros; intros o; cbn; try discriminate.
    + unfold Memory.openat. repeat case_match; discriminate.
    + unfold Memory.unlinkat. repeat case_match; discriminate.
    + unfold Memory.file_stat. repeat case_match; discriminate.
  - reflexivity.
Defined.
