(* ===== verification/StoreFs.v ===== *)
(** * The store filesystem

    [rs/ll-open/storefs/src/lib.rs]: FUSE requests answered from the store and landed as
    proposals.  A store call sees one state of the database; before each, other writers may
    have changed it ([others]) and it may fail ([store_fails]).  Durations are nanoseconds,
    inode and handle numbers are unbounded, and one request runs at a time, as the share's
    server runs them.  The rules of the [ignore] crate, the host's files and what a checkout
    does are parameters. *)

From S2P Require Import Prelude Substrate Text Tree Merge TreeSync Proposal StateM Derived.
From Stdlib Require Import NArith Lia.
Local Open Scope N_scope.

Definition RENAME_NOREPLACE : N := 1.
Definition RENAME_EXCHANGE : N := 2.
Definition O_ACCMODE : N := 3.
Definition O_TRUNC : N := 512.
Definition S_IFREG : N := 32768.
Definition S_IFDIR : N := 16384.
Definition S_IFLNK : N := 40960.
Definition ROOT_INODE : N := 1.
Definition MAX_REMEMBERED_READS : N := 32.
(** The longest [Vec<u8>], and the largest [Duration]. *)
Definition MAX_VEC : N := i64_max.
Definition MAX_DURATION : N := 18446744073709551616 * 1000000000 - 1.

Record Scope := { see : Grant; propose_to : Grant }.
Record Freshness := { settled : N; changed : N; window : N }.
Definition Freshness_default : Freshness := {| settled := 60000000000; changed := 1000000000; window := 60000000000 |}.
(** What the host directory answers: whether it would fold a written path onto another
    entry, what bringing it up to the store takes up from it, and its files. *)
Record Checkout := {
  ck_refuse_aliases : list Proposed → db → result propose_error unit;
  ck_reconcile : list path → db → db;
  ck_read : path → option (list byte);
}.
Record Options := { freshness : Freshness; checkout : option Checkout; derived : option N }.

(** What happens around the filesystem, by the step of its run. *)
Record Env := {
  now : nat → N;
  wall : nat → N;
  origin : N;
  others : nat → db → db;
  store_fails : nat → bool;
}.

(** [GitignoreBuilder] over the lines of a text, and a match of a path relative to it. *)
Inductive Match := NoMatch | Ignore | Whitelist.
Class Gitignore := {
  rules : Type;
  rules_of : list byte → option rules;
  matched : rules → path → bool → Match;
}.

Record Opened := { op_handle : N; op_keep_cache : bool; op_direct_io : bool }.
Record Attr := { at_inode : N; at_kind : Kind; at_size : N; at_perm : N; at_mtime : N }.
Definition Attr_mode (a : Attr) : N :=
  match at_kind a with KFile => S_IFREG + at_perm a | KDirectory => S_IFDIR + at_perm a | KSymlink => S_IFLNK + at_perm a end.
Definition Attr_nlink (a : Attr) : N := match at_kind a with KDirectory => 2 | _ => 1 end.
Record Entry := { en_attr : Attr; en_ttl : N }.
Record DirEntry := { de_inode : N; de_offset : N; de_kind : Kind; de_name : list byte }.
Record SetAttr := { sa_size : option N; sa_mode : option N; sa_uid : option N; sa_gid : option N }.

(** ** A handle's earlier reads *)

Record Reads := { rd_blobs : list Hash; rd_complete : bool; rd_reread : bool }.
Definition Reads_new : Reads := {| rd_blobs := []; rd_complete := true; rd_reread := false |}.
Definition remember (blob : Hash) (base : Base) (r : Reads) : Reads :=
  if bool_decide (blob ∈ rd_blobs r) || bool_decide (base = Blob blob) then r
  else if len (rd_blobs r) =? MAX_REMEMBERED_READS then {| rd_blobs := rd_blobs r; rd_complete := false; rd_reread := rd_reread r |}
  else {| rd_blobs := rd_blobs r ++ [blob]; rd_complete := rd_complete r; rd_reread := rd_reread r |}.
Definition reads_landed (replaced landed : Base) (r : Reads) : Reads :=
  if negb (rd_reread r) then r
  else
    let r := match replaced with Blob b => remember b landed r | _ => r end in
    match landed with
    | Blob l => {| rd_blobs := filter (λ b, b ≠ l) (rd_blobs r); rd_complete := rd_complete r; rd_reread := rd_reread r |}
    | _ => r
    end.
Definition reads_clear (r : Reads) : Reads := {| rd_blobs := []; rd_complete := true; rd_reread := rd_reread r |}.
Definition reads_is_empty (r : Reads) : bool := match rd_blobs r with [] => rd_complete r | _ => false end.

Record Handle := {
  hd_path : path;
  hd_base : Base;
  hd_earlier : Reads;
  hd_bytes : list byte;
  hd_mode : option Mode;
  hd_dirty : bool;
  hd_writable : bool;
}.

(** ** Inodes *)

Record Inodes := { by_path : gmap path N; by_inode : gmap N path; next_inode : N }.
Definition Inodes_new : Inodes := {| by_path := {[ [] := ROOT_INODE ]}; by_inode := {[ ROOT_INODE := [] ]}; next_inode := ROOT_INODE + 1 |}.
Definition inodes_rename (from to : path) (t : Inodes) : Inodes :=
  match by_path t !! from with
  | None => t
  | Some inode =>
      let paths := delete from (by_path t) in
      let inodes := match paths !! to with Some replaced => delete replaced (by_inode t) | None => by_inode t end in
      {| by_path := <[to := inode]> paths; by_inode := <[inode := to]> inodes; next_inode := next_inode t |}
  end.
(** The paths under [from] are taken in path order; a hash map has none. *)
Definition inodes_rename_tree (from to : path) (t : Inodes) : Inodes :=
  let under := filter (λ p, (from ++ [slash]) `prefix_of` p) (sorted_keys (by_path t)) in
  foldl (λ t p, inodes_rename p (to ++ drop (length from) p) t) (inodes_rename from to t) under.
Definition inodes_of (p : path) (t : Inodes) : N * Inodes :=
  match by_path t !! p with
  | Some inode => (inode, t)
  | None => let i := next_inode t in
            (i, {| by_path := <[p := i]> (by_path t); by_inode := <[i := p]> (by_inode t); next_inode := i + 1 |})
  end.

(** ** What the guest was told *)

Definition Seen : Type := option (Kind * option Hash).
Record Served := {
  sv_seen : gmap path Seen;
  sv_changed : gmap path N;
  sv_pages : gmap N Hash;
  sv_listings : gmap N (gmap path Kind);
  sv_told : gmap N N;
  sv_times : gmap path N;
}.
Definition Served_default : Served := {| sv_seen := ∅; sv_changed := ∅; sv_pages := ∅; sv_listings := ∅; sv_told := ∅; sv_times := ∅ |}.
Record Times := { t_wall : N; t_origin : N }.

(** [rsplit_once('/')]'s left part. *)
Definition dir_of (p : path) : option path := last (parents p).
Definition with_parent (p : path) : list path := p :: match p with [] => [] | _ => [default [] (dir_of p)] end.
Definition touch_one (time : Times) (times : gmap path N) (p : path) : result Errno (gmap path N) :=
  let after := default (t_origin time) (times !! p) + 1 in
  _ ← assert_ (after <=? MAX_DURATION);
  mret (<[p := N.max (t_wall time) after]> times).
Definition served_touch (p : path) (time : Times) (sv : Served) : result Errno Served :=
  times ← fold_result (touch_one time) (sv_times sv) (with_parent p);
  mret {| sv_seen := sv_seen sv; sv_changed := sv_changed sv; sv_pages := sv_pages sv; sv_listings := sv_listings sv;
          sv_told := sv_told sv; sv_times := times |}.
Definition record_change (p : path) (now : N) (time : Times) (sv : Served) : result Errno Served :=
  let changed := foldl (λ c q, <[q := now]> c) (sv_changed sv) (with_parent p) in
  served_touch p time {| sv_seen := sv_seen sv; sv_changed := changed; sv_pages := sv_pages sv; sv_listings := sv_listings sv;
                         sv_told := sv_told sv; sv_times := sv_times sv |}.

Record Session := { pending : gmap path (list byte); pending_modes : gmap path Mode }.
Definition Session_default : Session := {| pending := ∅; pending_modes := ∅ |}.
Definition session_drop (p : path) (s : Session) : Session := {| pending := delete p (pending s); pending_modes := delete p (pending_modes s) |}.
Record Stat := { s_kind : Kind; s_size : N; s_blob : option Hash; s_mode : option Mode }.
Definition dir_stat : Stat := {| s_kind := KDirectory; s_size := 0; s_blob := None; s_mode := None |}.
Definition seen_of (s : option Stat) : Seen := (λ s, (s_kind s, s_blob s)) <$> s.

(** ** Bytes and names *)

Definition resize (size : N) (bytes : list byte) : list byte := takeN size bytes ++ replicate (N.to_nat (size - len bytes)) x00.
Definition splice_at (bytes : list byte) (offset : N) (data : list byte) : result Errno (list byte) :=
  let end_ := wadd64 offset (len data) in
  let n := N.max (len bytes) end_ in
  _ ← assert_ (n <=? MAX_VEC);
  _ ← assert_ (offset <=? end_);
  mret (splice offset data (resize n bytes)).
Definition set_size (size : N) (bytes : list byte) : result Errno (list byte) :=
  _ ← assert_ (size <=? MAX_VEC);
  mret (resize size bytes).
Definition join (dir name : path) : path := match dir with [] => name | _ => dir ++ slash :: name end.

(** ** Errors of a save *)

Inductive save_error := SAmbiguous (p : path) | SPropose (e : propose_error) | SStore.
Definition errno_for (e : save_error) : Errno :=
  match e with
  | SAmbiguous _ => ESTALE
  | SPropose (Refused r) =>
      match r with
      | StaleBases moved => if forallb (λ m, match sl_expected m with None => true | Some _ => false end) moved then EEXIST else ESTALE
      | Conflicts _ _ => ESTALE
      | OutsideGrant _ => EACCES
      | NoSuchFile _ => ENOENT
      | Exists_ _ | AliasesExisting _ _ => EEXIST
      | NotEmpty _ => ENOTEMPTY
      | NotADirectory _ | PathConflict _ _ => ENOTDIR
      | IsADirectory _ => EISDIR
      | _ => EIO
      end
  | SPropose (Internal _) | SStore => EIO
  end.
Definition landed (acc : Accepted) (p : path) : result Errno Base := ok_or (Blob <$> ac_blobs acc !! p) EIO.

(** ** Whether a save means the same against every read *)

Definition touches (since e : LineRange) : bool :=
  if lr_start since =? lr_end since then (lr_start e <=? lr_start since) && (lr_start since <=? lr_end e)
  else if lr_start e =? lr_end e then (lr_start since <? lr_start e) && (lr_start e <? lr_end since)
  else (lr_start since <? lr_end e) && (lr_start e <? lr_end since).
Definition blob_of (d : db) (p : path) : result propose_error (option (Hash * list byte)) :=
  e ← of_tree (entry (db_store d) p);
  mret (match e with
        | Some (EFile _ blob) => pair blob <$> blob_bytes (db_store d) blob
        | _ => None
        end).
Definition agree_one `{Differ} (d : db) (p : path) (current : list byte) (edit : list LineRange) (_ : unit) (read : Hash) : result save_error unit :=
  read_bytes ← ok_or (blob_bytes (db_store d) read) (SPropose (Internal IBail));
  if bool_decide (read_bytes = current) then mret tt
  else if existsb (λ change, existsb (touches (ch_to change)) edit) (changed_lines read_bytes current) then Err (SAmbiguous p)
  else mret tt.
Definition agree `{Differ} (d : db) (p : path) (base : Base) (earlier : Reads) (bytes : list byte) : result save_error unit :=
  match base with
  | Blob latest =>
      if reads_is_empty earlier then mret tt
      else
        held ← map_err SPropose (blob_of d p);
        match held with
        | None => mret tt
        | Some (_, current) =>
            _ ← ensure (rd_complete earlier) (SAmbiguous p);
            fold_result (agree_one d p current (ch_from <$> changed_lines current bytes)) tt (latest :: rd_blobs earlier)
        end
  | _ => mret tt
  end.

Section storefs.
Context `{Blake3, Differ, Parser, Posix, Gitignore}.
Context (scope : Scope) (options : Options) (env : Env).

(** ** State *)

Record Opens := { handles : gmap N Handle; scratch_handles : gmap N (ScratchHandle _); next_handle : N }.
(** The scratch directory once it is made, the host's files with what scratch accounts for,
    and the process's count of directories. *)
Record Derivations := { dv_scratch : option (Scratch _); dv_host : host _; dv_next : N }.
Record fs := {
  f_db : db;
  f_inodes : Inodes;
  f_opens : Opens;
  f_session : Session;
  f_served : Served;
  f_scratch : Derivations;
  f_ignores : gmap path (option rules);
  f_tick : nat;
  f_publishes : N;
}.
Definition with_clock (d : db) (o : os) (counter : N) : fs := {|
  f_db := d; f_inodes := Inodes_new; f_opens := {| handles := ∅; scratch_handles := ∅; next_handle := 1 |};
  f_session := Session_default; f_served := Served_default;
  f_scratch := {| dv_scratch := None; dv_host := {| h_os := o; h_used := 0 |}; dv_next := counter |};
  f_ignores := ∅; f_tick := 0; f_publishes := 0 |}.
Definition set_db (d : db) (s : fs) : fs := {|
  f_db := d; f_inodes := f_inodes s; f_opens := f_opens s; f_session := f_session s; f_served := f_served s; f_scratch := f_scratch s;
  f_ignores := f_ignores s; f_tick := f_tick s; f_publishes := f_publishes s |}.
Definition set_inodes (t : Inodes) (s : fs) : fs := {|
  f_db := f_db s; f_inodes := t; f_opens := f_opens s; f_session := f_session s; f_served := f_served s; f_scratch := f_scratch s;
  f_ignores := f_ignores s; f_tick := f_tick s; f_publishes := f_publishes s |}.
Definition set_opens (o : Opens) (s : fs) : fs := {|
  f_db := f_db s; f_inodes := f_inodes s; f_opens := o; f_session := f_session s; f_served := f_served s; f_scratch := f_scratch s;
  f_ignores := f_ignores s; f_tick := f_tick s; f_publishes := f_publishes s |}.
Definition set_session (x : Session) (s : fs) : fs := {|
  f_db := f_db s; f_inodes := f_inodes s; f_opens := f_opens s; f_session := x; f_served := f_served s; f_scratch := f_scratch s;
  f_ignores := f_ignores s; f_tick := f_tick s; f_publishes := f_publishes s |}.
Definition set_served (x : Served) (s : fs) : fs := {|
  f_db := f_db s; f_inodes := f_inodes s; f_opens := f_opens s; f_session := f_session s; f_served := x; f_scratch := f_scratch s;
  f_ignores := f_ignores s; f_tick := f_tick s; f_publishes := f_publishes s |}.
Definition set_scratch (x : Derivations) (s : fs) : fs := {|
  f_db := f_db s; f_inodes := f_inodes s; f_opens := f_opens s; f_session := f_session s; f_served := f_served s; f_scratch := x;
  f_ignores := f_ignores s; f_tick := f_tick s; f_publishes := f_publishes s |}.
Definition set_ignores (x : gmap path (option rules)) (s : fs) : fs := {|
  f_db := f_db s; f_inodes := f_inodes s; f_opens := f_opens s; f_session := f_session s; f_served := f_served s; f_scratch := f_scratch s;
  f_ignores := x; f_tick := f_tick s; f_publishes := f_publishes s |}.
Definition set_tick (x : nat) (s : fs) : fs := {|
  f_db := f_db s; f_inodes := f_inodes s; f_opens := f_opens s; f_session := f_session s; f_served := f_served s; f_scratch := f_scratch s;
  f_ignores := f_ignores s; f_tick := x; f_publishes := f_publishes s |}.
Definition add_publish (s : fs) : fs := {|
  f_db := f_db s; f_inodes := f_inodes s; f_opens := f_opens s; f_session := f_session s; f_served := f_served s; f_scratch := f_scratch s;
  f_ignores := f_ignores s; f_tick := f_tick s; f_publishes := f_publishes s + 1 |}.

Notation FM := (M fs Errno).
Definition tick : FM nat := λ s, (Ok (f_tick s), set_tick (S (f_tick s)) s).
Definition clock_now : FM N := t ← tick; mret (now env t).
Definition Times_of : FM Times := t ← tick; mret {| t_wall := wall env t; t_origin := origin env |}.
Definition served_modify (f : Served → Served) : FM unit := modify (λ s, set_served (f (f_served s)) s).
Definition session_modify (f : Session → Session) : FM unit := modify (λ s, set_session (f (f_session s)) s).
Definition handles_modify (f : gmap N Handle → gmap N Handle) : FM unit :=
  modify (λ s, set_opens {| handles := f (handles (f_opens s)); scratch_handles := scratch_handles (f_opens s); next_handle := next_handle (f_opens s) |} s).
(** A change of what was served that may panic on the times it moves. *)
Definition served_update (f : Served → result Errno Served) : FM unit :=
  sv ← gets f_served;
  sv ← lift (f sv);
  modify (set_served sv).

(** ** The store *)

(** Entering a store call: other writers first, and it may fail. *)
Definition enter {E} (e : E) : M fs E unit := λ s,
  let t := f_tick s in
  let s := set_db (others env t (f_db s)) (set_tick (S t) s) in
  (if store_fails env t then Err e else Ok tt, s).
Definition with_read {E A} (e : E) (f : fs → result E A) : M fs E A := _ ← enter e; reads f.
Definition query {A} (f : fs → result propose_error A) : FM A := mapM_err (λ _, EIO) (with_read (Internal IBail) f).
(** The proposal, under the one writer. *)
Definition propose_write (ws : list Proposed) : M fs save_error Accepted := λ s,
  let '(r, d) := propose (propose_to scope) ws (f_db s) in (map_err SPropose r, set_db d s).
Definition reconcile_with (ck : option Checkout) (paths : list path) : M fs save_error unit :=
  match ck with
  | Some ck => modify (λ s, set_db (ck_reconcile ck paths (f_db s)) s)
  | None => mret tt
  end.

(** ** What a path is *)

Definition child_of (whole : bool) (prefix p : path) (git_mode : N) (out : gmap path Kind) : gmap path Kind :=
  let is_dir := git_mode =? DIRECTORY_MODE in
  let rest := drop (length prefix) p in
  match parents rest with
  | name :: _ => if whole || (negb is_dir && Grant_covers (see scope) p) then <[name := KDirectory]> out else out
  | [] => if is_dir then if whole then <[rest := KDirectory]> out else out
          else if Grant_covers (see scope) p
               then <[rest := if bool_decide (Mode_from_git git_mode = Some Symlink) then KSymlink else KFile]> out
               else out
  end.
Definition pending_child (prefix : path) (out : gmap path Kind) (p : path) : gmap path Kind :=
  let rest := drop (length prefix) p in
  match parents rest with name :: _ => <[name := KDirectory]> out | [] => <[rest := KFile]> out end.
Definition is_whole_grant (g : Grant) : bool := match g with Whole => true | Paths _ => false end.
Definition children (dir : path) (s : fs) : gmap path Kind :=
  let prefix := join dir [] in
  let whole := is_whole_grant (see scope) in
  let rows := filter (λ x, prefix `prefix_of` x.1) (sorted_pairs (t_tree (db_store (f_db s)))) in
  let stored := foldl (λ out x, child_of whole prefix x.1 (tr_mode x.2) out) ∅ rows in
  foldl (pending_child prefix) stored (filter (λ p, prefix `prefix_of` p) (sorted_keys (pending (f_session s)))).
Definition pending_stat (p : path) (s : fs) : option Stat :=
  (λ bytes, {| s_kind := KFile; s_size := len bytes; s_blob := None;
               s_mode := Some (default Regular (pending_modes (f_session s) !! p)) |}) <$> pending (f_session s) !! p.
Definition blob_hash (p : path) (hash : list byte) : result propose_error Hash :=
  ok_or (Hash_try_from hash) (Internal (ITree (BlobHashLength p (len hash)))).
Definition stat_path (p : path) (s : fs) : result propose_error (option Stat) :=
  match p with
  | [] => mret (Some dir_stat)
  | _ =>
      match t_tree (db_store (f_db s)) !! p with
      | Some row =>
          if tr_mode row =? DIRECTORY_MODE then
            if is_whole_grant (see scope) || negb (bool_decide (children p s = ∅)) then mret (Some dir_stat) else mret (pending_stat p s)
          else
            match tr_blob row ≫= λ hash, pair hash <$> t_blobs (db_store (f_db s)) !! hash with
            | Some (hash, bytes) =>
                if Grant_covers (see scope) p then
                  let mode := default Regular (Mode_from_git (tr_mode row)) in
                  h ← blob_hash p hash;
                  mret (Some {| s_kind := if bool_decide (mode = Symlink) then KSymlink else KFile; s_size := len bytes;
                                s_blob := Some h; s_mode := Some mode |})
                else mret (pending_stat p s)
            | None => mret (pending_stat p s)
            end
      | None => mret (pending_stat p s)
      end
  end.

(** ** Serving *)

Definition inode_of (p : path) : FM N := λ s, let '(i, t) := inodes_of p (f_inodes s) in (Ok i, set_inodes t s).
Definition path_of (inode : N) : FM path :=
  p ← gets (λ s, by_inode (f_inodes s) !! inode);
  lift (ok_or p ENOENT).
Definition get_handle (h : N) : FM Handle :=
  open ← gets (λ s, handles (f_opens s) !! h);
  lift (ok_or open EBADF).
Definition put_handle (h : N) (x : Handle) : FM unit := handles_modify (<[h := x]>).
Definition new_handle (x : Handle) : FM N := λ s,
  let o := f_opens s in
  (Ok (next_handle o), set_opens {| handles := <[next_handle o := x]> (handles o); scratch_handles := scratch_handles o; next_handle := next_handle o + 1 |} s).
Definition scratch_handle (h : N) : FM (option (ScratchHandle _)) := gets (λ s, scratch_handles (f_opens s) !! h).
Definition new_scratch_handle (x : ScratchHandle _) : FM N := λ s,
  let o := f_opens s in
  (Ok (next_handle o), set_opens {| handles := handles o; scratch_handles := <[next_handle o := x]> (scratch_handles o); next_handle := next_handle o + 1 |} s).

Definition tell (a : Attr) : FM unit :=
  if bool_decide (at_kind a = KFile) then
    served_modify (λ sv, {| sv_seen := sv_seen sv; sv_changed := sv_changed sv; sv_pages := sv_pages sv; sv_listings := sv_listings sv;
                            sv_told := <[at_inode a := at_size a]> (sv_told sv); sv_times := sv_times sv |})
  else mret tt.
Definition timeout (p : path) : FM N :=
  n ← clock_now;
  at_ ← gets (λ s, sv_changed (f_served s) !! p);
  let recent := match at_ with Some t => n - t <? window (freshness options) | None => false end in
  mret (if recent then changed (freshness options) else settled (freshness options)).
Definition put_seen (p : path) (seen : Seen) (sv : Served) : Served :=
  {| sv_seen := <[p := seen]> (sv_seen sv); sv_changed := sv_changed sv; sv_pages := sv_pages sv; sv_listings := sv_listings sv;
     sv_told := sv_told sv; sv_times := sv_times sv |}.
Definition observe (p : path) (seen : Seen) : FM unit :=
  n ← clock_now;
  time ← Times_of;
  served_update (λ sv,
    let sv' := put_seen p seen sv in
    match sv_seen sv !! p with
    | Some before => if bool_decide (before = seen) then mret sv' else record_change p n time sv'
    | None => mret sv'
    end).
Definition served (p : path) : FM (option Stat) :=
  stat ← query (stat_path p);
  _ ← observe p (seen_of stat);
  mret stat.
Definition mtime (p : path) : FM N := gets (λ s, default (origin env) (sv_times (f_served s) !! p)).
Definition touch (p : path) : FM unit := time ← Times_of; served_update (served_touch p time).
Definition may_propose_under (dir : path) : bool :=
  match propose_to scope with
  | Whole => true
  | Paths paths => existsb (λ p, bool_decide (join dir [] `prefix_of` p)) (elements paths)
  end.
Definition proposes (p : path) : bool := Grant_covers (propose_to scope) p.
Definition attr_of (p : path) (kind : Kind) (size : N) (mode : option Mode) : FM Attr :=
  let perm := match kind with
              | KDirectory => if may_propose_under p then 493 else 365
              | KSymlink => 511
              | KFile => match proposes p, bool_decide (mode = Some Executable) with
                         | true, true => 493 | true, false => 420 | false, true => 365 | false, false => 292
                         end
              end in
  inode ← inode_of p;
  time ← mtime p;
  mret {| at_inode := inode; at_kind := kind; at_size := size; at_perm := perm; at_mtime := time |}.
Definition scratch_attr (p : path) (st : ScratchStat) : FM Attr :=
  inode ← inode_of p;
  mret {| at_inode := inode; at_kind := ss_kind st; at_size := ss_size st;
          at_perm := if bool_decide (ss_kind st = KSymlink) then 511 else ss_perm st; at_mtime := ss_mtime st |}.

(** ** Scratch *)

Definition on_host {A} (m : SM A) : FM A :=
  mapM_err errno_of (zoom (λ s, dv_host (f_scratch s))
    (λ h s, set_scratch {| dv_scratch := dv_scratch (f_scratch s); dv_host := h; dv_next := dv_next (f_scratch s) |} s) m).
Definition scratch_made : FM (option (Scratch _)) := gets (λ s, dv_scratch (f_scratch s)).
Definition scratch : FM (Scratch _) :=
  match derived options with
  | None => throw EIO
  | Some limit =>
      held ← scratch_made;
      match held with
      | Some sc => mret sc
      | None =>
          n ← gets (λ s, dv_next (f_scratch s));
          made ← attempt (on_host (Scratch_create limit n));
          match made with
          | Ok (sc, n) =>
              _ ← modify (λ s, set_scratch {| dv_scratch := Some sc; dv_host := dv_host (f_scratch s); dv_next := n |} s);
              mret sc
          | _ => throw EIO
          end
      end
  end.
Definition scratch_stat (p : path) : FM (option ScratchStat) :=
  match p with
  | [] => mret None
  | _ => made ← scratch_made;
         match made with None => mret None | Some sc => on_host (Scratch_stat sc p) end
  end.
Inductive Located := Stored (s : Stat) | InScratch (s : ScratchStat) | Nowhere.
Definition located (p : path) (stored : option Stat) : FM Located :=
  match stored with
  | Some stat => mret (Stored stat)
  | None => st ← scratch_stat p; mret (match st with Some st => InScratch st | None => Nowhere end)
  end.
Definition locate (p : path) : FM Located := stored ← served p; located p stored.
Definition whereis (p : path) : FM Located := stored ← query (stat_path p); located p stored.
Definition attr (p : path) : FM Attr :=
  at_ ← locate p;
  match at_ with
  | Stored stat => attr_of p (s_kind stat) (s_size stat) (s_mode stat)
  | InScratch st => scratch_attr p st
  | Nowhere => throw ENOENT
  end.
Definition entry_of (p : path) : FM Entry :=
  a ← attr p;
  ttl ← timeout p;
  mret {| en_attr := a; en_ttl := ttl |}.
Definition directory (inode : N) : FM path :=
  p ← path_of inode;
  a ← attr p;
  match at_kind a with KDirectory => mret p | _ => throw ENOTDIR end.
Definition child (parent : N) (name : list byte) : FM path :=
  dir ← directory parent;
  _ ← ensureM (from_utf8_ok name) ENOENT;
  _ ← ensureM (negb (bool_decide (name = [] ∨ slash ∈ name))) ENOENT;
  mret (join dir name).
Definition held (p : path) : FM (option (Base * list byte)) :=
  stored ← query (λ s, blob_of (f_db s) p);
  match stored with
  | Some (hash, bytes) => mret (Some (Blob hash, bytes))
  | None => bytes ← gets (λ s, pending (f_session s) !! p); mret (pair Absent <$> bytes)
  end.
Definition or_enoent {A} (o : option A) : FM A := lift (ok_or o ENOENT).
Definition insert_new {A} (m : gmap path A) (x : path * A) : gmap path A := match m !! x.1 with Some _ => m | None => <[x.1 := x.2]> m end.
Definition listing (dir : path) : FM (gmap path (Kind * bool)) :=
  stored ← query (λ s, mret (children dir s));
  let out : gmap path (Kind * bool) := (λ k, (k, false)) <$> stored in
  made ← scratch_made;
  match made with
  | None => mret out
  | Some sc => names ← on_host (Scratch_list sc dir); mret (foldl insert_new out ((λ x, (x.1, (x.2, true))) <$> names))
  end.
Definition names_under (dir : path) : FM (gmap path Kind) := l ← listing dir; mret (fst <$> l).

(** ** Derived names *)

Definition GITIGNORE : path := bytes_of ".gitignore".
Definition ignore_rules (dir : path) : FM (option rules) :=
  memo ← gets (λ s, f_ignores s !! dir);
  match memo with
  | Some rs => mret rs
  | None =>
      let file := join dir GITIGNORE in
      stored ← query (λ s, blob_of (f_db s) file);
      let bytes := match stored with Some (_, bytes) => Some bytes | None => checkout options ≫= λ ck, ck_read ck file end in
      let rs := bytes ≫= λ bytes, rules_of (utf8_lossy bytes) in
      _ ← modify (λ s, set_ignores (<[dir := rs]> (f_ignores s)) s);
      mret rs
  end.
(** The directories from the nearest up, ending at the root. *)
Fixpoint gitignored_from (p : path) (is_dir : bool) (dirs : list path) : FM bool :=
  match dirs with
  | [] => mret false
  | dir :: dirs =>
      rs ← ignore_rules dir;
      let rel := match dir with [] => p | _ => drop (S (length dir)) p end in
      match rs with
      | Some rs =>
          match matched rs rel is_dir with
          | Ignore => mret true
          | Whitelist => mret false
          | NoMatch => match dir with [] => mret false | _ => gitignored_from p is_dir dirs end
          end
      | None => match dir with [] => mret false | _ => gitignored_from p is_dir dirs end
      end
  end.
Definition gitignored (p : path) (is_dir : bool) : FM bool := gitignored_from p is_dir (reverse (parents p) ++ [[]]).
Definition derived_new (p : path) (is_dir : bool) : FM bool :=
  match derived options with
  | None => mret false
  | Some _ =>
      inside ← (match dir_of p with
                | None => mret false
                | Some dir => at_ ← whereis dir; mret (match at_ with InScratch _ => true | _ => false end)
                end : FM bool);
      match inside with true => mret true | false => if builtin_derived p is_dir then mret true else gitignored p is_dir end
  end.
Definition open_scratch (p : path) (flags : N) (create : bool) : FM N :=
  let writable := negb (N.land flags O_ACCMODE =? 0) in
  let oflags := {| o_access := if writable then O_RDWR else O_RDONLY; o_directory := false; o_creat := create; o_excl := create |} in
  sc ← scratch;
  _ ← (if writable && negb create && negb (N.land flags O_TRUNC =? 0) then
         file ← on_host (Scratch_open sc p (plain O_RDWR) 0);
         on_host (Scratch_set_len sc file 0)
       else mret tt);
  file ← on_host (Scratch_open sc p oflags 420);
  new_scratch_handle {| sh_file := file; sh_writable := writable |}.

(** ** Proposing *)

Definition is_ignore_file (p : path) : bool := bool_decide (p = GITIGNORE) || bool_decide ((slash :: GITIGNORE) `suffix_of` p).
(** The paths written, then the directories above them, for the checkout. *)
Definition named_paths (ws : list Proposed) : list path :=
  let ps := pr_path <$> ws in
  ps ++ sorted_keys (list_to_map ((λ d, (d, tt)) <$> (ps ≫= parents)) : gmap path unit).
Definition stat_landed (out : list (path * Seen)) (p : path) : FM (list (path * Seen)) :=
  stat ← query (stat_path p);
  mret (out ++ [(p, seen_of stat)]).
Definition inode_landed (out : list N) (p : path) : FM (list N) := i ← inode_of p; mret (out ++ [i]).
Definition serve_landed (n : N) (time : Times) (sv : Served) (x : path * Seen) : result Errno Served :=
  record_change x.1 n time (put_seen x.1 x.2 sv).
Definition drop_pages (sv : Served) (inode : N) : Served :=
  {| sv_seen := sv_seen sv; sv_changed := sv_changed sv; sv_pages := delete inode (sv_pages sv); sv_listings := sv_listings sv;
     sv_told := sv_told sv; sv_times := sv_times sv |}.
Definition sorted_set (s : gset path) : list path := merge_sort path_le (elements s).
Definition after_landing (acc : Accepted) : FM unit :=
  _ ← (if existsb is_ignore_file (sorted_keys (ac_blobs acc)) || existsb is_ignore_file (sorted_set (ac_removed acc))
       then modify (set_ignores ∅) else mret tt);
  _ ← modify add_publish;
  n ← clock_now;
  time ← Times_of;
  landed ← foldM stat_landed [] (sorted_keys (ac_blobs acc));
  let landed := landed ++ ((λ p, (p, None)) <$> sorted_set (ac_removed acc)) ++ ((λ p, (p, None)) <$> sorted_set (ac_rmdirs acc))
                ++ ((λ p, (p, Some (KDirectory, None))) <$> sorted_set (ac_mkdirs acc)) in
  merged ← foldM inode_landed [] (sorted_set (ac_merged acc));
  served_update (λ sv, sv ← fold_result (serve_landed n time) sv landed; mret (foldl drop_pages sv merged)).
(** Under the one writer: the check of the caller, the checkout's aliases, the proposal, and
    the checkout brought up to it. *)
Definition write_section (precheck : db → result save_error unit) (ws : list Proposed) : M fs save_error Accepted :=
  _ ← enter SStore;
  _ ← reads (λ s, precheck (f_db s));
  _ ← reads (λ s, match checkout options with Some ck => map_err SPropose (ck_refuse_aliases ck ws (f_db s)) | None => mret tt end);
  acc ← propose_write ws;
  _ ← reconcile_with (checkout options) (named_paths ws);
  mret acc.
Definition propose_after (precheck : db → result save_error unit) (ws : list Proposed) : FM Accepted :=
  acc ← mapM_err errno_for (write_section precheck ws);
  _ ← after_landing acc;
  mret acc.
Definition propose_all (ws : list Proposed) : FM Accepted := propose_after (λ _, mret tt) ws.

Definition write_of (p : path) (base : Base) (bytes : list byte) (mode : option Mode) : Proposed :=
  match mode with Some mode => Proposed_write_mode p base bytes mode | None => Proposed_write p base bytes end.
Definition land (p : path) (base : Base) (earlier : Reads) (bytes : list byte) (mode : option Mode) : FM (Base * option (list byte)) :=
  go ← match base with
       | Absent =>
           held ← gets (λ s, pending (f_session s) !! p);
           match held with
           | None => mret None
           | Some _ =>
               _ ← session_modify (λ x, {| pending := <[p := bytes]> (pending x); pending_modes := pending_modes x |});
               m ← gets (λ s, pending_modes (f_session s) !! p);
               mret (Some (match mode with Some _ => mode | None => m end))
           end
       | _ => mret (Some mode)
       end;
  match go with
  | None => mret (Absent, None)
  | Some mode =>
      acc ← propose_after (λ d, agree d p base earlier bytes) [write_of p base bytes mode];
      _ ← session_modify (session_drop p);
      l ← lift (landed acc p);
      merged ← match l with
               | Blob blob =>
                   if bool_decide (p ∈ ac_merged acc) then
                     bytes ← query (λ s, mret (blob_bytes (db_store (f_db s)) blob));
                     bytes ← lift (ok_or bytes EIO);
                     mret (Some bytes)
                   else mret None
               | _ => mret None
               end;
      mret (l, merged)
  end.
Definition commit (h : N) : FM unit :=
  sh ← scratch_handle h;
  match sh with
  | Some _ => mret tt
  | None =>
      open ← get_handle h;
      if negb (hd_dirty open) then mret tt
      else
        '(base, merged) ← land (hd_path open) (hd_base open) (hd_earlier open) (hd_bytes open) (hd_mode open);
        put_handle h {| hd_path := hd_path open; hd_base := base; hd_earlier := reads_landed (hd_base open) base (hd_earlier open);
                        hd_bytes := default (hd_bytes open) merged; hd_mode := None; hd_dirty := false; hd_writable := hd_writable open |}
  end.

(** ** Reading requests *)

Definition lookup (parent : N) (name : list byte) : FM Entry :=
  p ← child parent name;
  e ← entry_of p;
  _ ← tell (en_attr e);
  mret e.
Definition with_size (size : N) (a : Attr) : Attr :=
  {| at_inode := at_inode a; at_kind := at_kind a; at_size := size; at_perm := at_perm a; at_mtime := at_mtime a |}.
Definition getattr (inode : N) (handle : option N) : FM (Attr * N) :=
  p ← path_of inode;
  a ← attr p;
  open ← gets (λ s, handle ≫= λ h, handles (f_opens s) !! h);
  sh ← gets (λ s, handle ≫= λ h, scratch_handles (f_opens s) !! h);
  a ← match open with
      | Some open => mret (with_size (len (hd_bytes open)) a)
      | None => match sh with
                | Some sh => st ← on_host (stat_file (sh_file sh)); mret (with_size (ss_size st) a)
                | None => mret a
                end
      end;
  _ ← tell a;
  ttl ← timeout p;
  mret (a, ttl).
Definition negative_ttl (parent : N) (name : list byte) : FM N :=
  p ← attempt (child parent name);
  match p with Ok p => timeout p | _ => mret 0 end.
Definition numbered {A} (offset : N) (l : list A) : list (nat * A) := dropN offset (imap pair l).
Definition dirplus_one (dir : path) (out : list (DirEntry * Entry)) (x : nat * (path * (Kind * bool))) : FM (list (DirEntry * Entry)) :=
  let '(i, (name, (kind, in_scratch))) := x in
  let p := join dir name in
  let push kind a :=
    _ ← tell a;
    ttl ← timeout p;
    mret (out ++ [({| de_inode := at_inode a; de_offset := N.of_nat i + 1; de_kind := kind; de_name := name |}, {| en_attr := a; en_ttl := ttl |})]) in
  if in_scratch then
    st ← scratch_stat p;
    match st with
    | None => mret out
    | Some st => a ← scratch_attr p st; push (ss_kind st) a
    end
  else
    match kind with
    | KDirectory => _ ← observe p (Some (KDirectory, None)); a ← attr_of p kind 0 None; push kind a
    | _ =>
        stat ← served p;
        match stat with
        | None => mret out
        | Some stat => a ← attr_of p kind (s_size stat) (s_mode stat); push kind a
        end
    end.
Definition readdirplus (inode offset : N) : FM (list (DirEntry * Entry)) :=
  dir ← directory inode;
  children ← listing dir;
  foldM (dirplus_one dir) [] (numbered offset (sorted_pairs children)).
Definition opendir (inode : N) : FM bool :=
  dir ← directory inode;
  l ← names_under dir;
  time ← Times_of;
  previous ← gets (λ s, sv_listings (f_served s) !! inode);
  let keep_cache := bool_decide (previous = Some l) in
  _ ← served_update (λ sv,
        let sv := {| sv_seen := sv_seen sv; sv_changed := sv_changed sv; sv_pages := sv_pages sv;
                     sv_listings := <[inode := l]> (sv_listings sv); sv_told := sv_told sv; sv_times := sv_times sv |} in
        if match previous with Some _ => true | None => false end && negb keep_cache then served_touch dir time sv else mret sv);
  mret keep_cache.
Definition dir_one (dir : path) (out : list DirEntry) (x : nat * (path * Kind)) : FM (list DirEntry) :=
  i ← inode_of (join dir x.2.1);
  mret (out ++ [{| de_inode := i; de_offset := N.of_nat x.1 + 1; de_kind := x.2.2; de_name := x.2.1 |}]).
Definition readdir (inode offset : N) : FM (list DirEntry) :=
  dir ← directory inode;
  children ← names_under dir;
  foldM (dir_one dir) [] (numbered offset (sorted_pairs children)).
Definition open_pages (inode : N) (base : Base) (writable : bool) (sv : Served) : bool * Served :=
  let with_pages pages := {| sv_seen := sv_seen sv; sv_changed := sv_changed sv; sv_pages := pages; sv_listings := sv_listings sv;
                             sv_told := sv_told sv; sv_times := sv_times sv |} in
  match base, writable with
  | Blob blob, false => (bool_decide (sv_pages sv !! inode = Some blob), with_pages (<[inode := blob]> (sv_pages sv)))
  | _, _ => (false, with_pages (delete inode (sv_pages sv)))
  end.
Definition open (inode flags : N) : FM Opened :=
  p ← path_of inode;
  a ← attr p;
  _ ← ensureM (negb (bool_decide (at_kind a = KDirectory))) EISDIR;
  let writable := negb (N.land flags O_ACCMODE =? 0) in
  _ ← ensureM (negb (writable && negb (proposes p))) EACCES;
  at_ ← whereis p;
  match at_ with
  | InScratch _ =>
      h ← open_scratch p flags false;
      mret {| op_handle := h; op_keep_cache := false; op_direct_io := writable |}
  | _ =>
      x ← held p;
      '(base, bytes) ← or_enoent x;
      let truncate := writable && negb (N.land flags O_TRUNC =? 0) in
      let bytes := if truncate then [] else bytes in
      sv ← gets f_served;
      let '(keep_cache, sv) := open_pages inode base writable sv in
      _ ← modify (set_served sv);
      let stale_size := match sv_told sv !! inode with Some size => negb (size =? len bytes) | None => false end in
      h ← new_handle {| hd_path := p; hd_base := base; hd_earlier := Reads_new; hd_bytes := bytes; hd_mode := None;
                        hd_dirty := truncate; hd_writable := writable |};
      mret {| op_handle := h; op_keep_cache := keep_cache; op_direct_io := writable || stale_size |}
  end.
Definition read (h offset size : N) : FM (list byte) :=
  sh ← scratch_handle h;
  match sh with
  | Some sh =>
      st ← on_host (stat_file (sh_file sh));
      let start := N.min offset (ss_size st) in
      let want := N.min size (ss_size st - start) in
      on_host (sys (read_exact_at (sh_file sh) start want))
  | None =>
      open ← get_handle h;
      let n := len (hd_bytes open) in
      let start := N.min offset n in
      let end_ := N.min (sat_add start size) n in
      lift (slice_checked start end_ (hd_bytes open))
  end.
Definition readlink (inode : N) : FM (list byte) :=
  p ← path_of inode;
  a ← attr p;
  _ ← ensureM (bool_decide (at_kind a = KSymlink)) EINVAL;
  at_ ← whereis p;
  match at_ with
  | InScratch _ => sc ← scratch; on_host (Scratch_readlink sc p)
  | _ => x ← held p; '(_, bytes) ← or_enoent x; mret bytes
  end.
Definition parent (inode : N) : FM N :=
  p ← path_of inode;
  match dir_of p with Some dir => inode_of dir | None => mret ROOT_INODE end.

(** ** Staging requests *)

Definition with_bytes (bytes : list byte) (x : Handle) : Handle :=
  {| hd_path := hd_path x; hd_base := hd_base x; hd_earlier := hd_earlier x; hd_bytes := bytes; hd_mode := hd_mode x; hd_dirty := true; hd_writable := hd_writable x |}.
Definition write_scratch (sh : ScratchHandle _) (offset : N) (data : list byte) : FM N :=
  _ ← ensureM (sh_writable sh) EBADF;
  sc ← scratch;
  _ ← on_host (Scratch_write sc (sh_file sh) offset data);
  mret (len data).
Definition write (h offset : N) (data : list byte) : FM N :=
  sh ← scratch_handle h;
  match sh with
  | Some sh => write_scratch sh offset data
  | None =>
      open ← get_handle h;
      _ ← ensureM (hd_writable open) EBADF;
      bytes ← lift (splice_at (hd_bytes open) offset data);
      _ ← put_handle h (with_bytes bytes open);
      mret (len data)
  end.
Definition write_checked (h offset : N) (data : list byte) : FM N :=
  sh ← scratch_handle h;
  match sh with
  | Some sh => write_scratch sh offset data
  | None =>
      open ← get_handle h;
      _ ← ensureM (hd_writable open) EBADF;
      bytes ← lift (splice_at (hd_bytes open) offset data);
      if bool_decide (bytes = hd_bytes open) then mret (len data)
      else
        let w := write_of (hd_path open) (hd_base open) bytes (hd_mode open) in
        _ ← mapM_err errno_for (with_read SStore (λ s,
              _ ← map_err SPropose (check (propose_to scope) [w] (db_store (f_db s)));
              agree (f_db s) (hd_path open) (hd_base open) (hd_earlier open) bytes));
        _ ← put_handle h (with_bytes bytes open);
        mret (len data)
  end.
Definition reread (h : N) : FM unit :=
  sh ← scratch_handle h;
  match sh with
  | Some _ => mret tt
  | None =>
      open ← get_handle h;
      if hd_dirty open then mret tt
      else
        let earlier := {| rd_blobs := rd_blobs (hd_earlier open); rd_complete := rd_complete (hd_earlier open); rd_reread := true |} in
        let kept base earlier bytes :=
          {| hd_path := hd_path open; hd_base := base; hd_earlier := earlier; hd_bytes := bytes; hd_mode := hd_mode open;
             hd_dirty := hd_dirty open; hd_writable := hd_writable open |} in
        _ ← put_handle h (kept (hd_base open) earlier (hd_bytes open));
        x ← held (hd_path open);
        '(base, bytes) ← or_enoent x;
        if bool_decide (base = hd_base open) then mret tt
        else
          let earlier := match hd_base open with Blob b => remember b base earlier | _ => earlier end in
          put_handle h (kept base earlier bytes)
  end.
Definition settle (h : N) : FM unit :=
  sh ← scratch_handle h;
  match sh with
  | Some _ => mret tt
  | None =>
      open ← get_handle h;
      put_handle h {| hd_path := hd_path open; hd_base := hd_base open; hd_earlier := reads_clear (hd_earlier open); hd_bytes := hd_bytes open;
                      hd_mode := hd_mode open; hd_dirty := hd_dirty open; hd_writable := hd_writable open |}
  end.
Definition discard (h : N) : FM unit :=
  sh ← scratch_handle h;
  match sh with
  | Some _ => mret tt
  | None =>
      open ← get_handle h;
      bytes ← match hd_base open with
              | Blob blob => bytes ← query (λ s, mret (blob_bytes (db_store (f_db s)) blob)); lift (ok_or bytes EIO)
              | _ => mret []
              end;
      put_handle h {| hd_path := hd_path open; hd_base := hd_base open; hd_earlier := hd_earlier open; hd_bytes := bytes;
                      hd_mode := None; hd_dirty := false; hd_writable := hd_writable open |}
  end.
Definition flush (h : N) : FM unit := commit h.
Definition fsync (h : N) : FM unit := commit h.
Definition release (h : N) : FM unit :=
  modify (λ s, set_opens {| handles := delete h (handles (f_opens s)); scratch_handles := delete h (scratch_handles (f_opens s));
                            next_handle := next_handle (f_opens s) |} s).

(** ** Attribute changes *)

Definition setattr_scratch (p : path) (st : ScratchStat) (handle : option N) (set : SetAttr) : FM unit :=
  match sa_mode set, sa_size set with
  | None, None => mret tt
  | _, _ =>
      _ ← ensureM (if bool_decide (ss_kind st = KDirectory) then may_propose_under p else proposes p) EACCES;
      sc ← scratch;
      _ ← match sa_mode set with
          | Some bits => if bool_decide (ss_kind st = KSymlink) then mret tt else on_host (Scratch_chmod sc p bits)
          | None => mret tt
          end;
      match sa_size set with
      | None => mret tt
      | Some size =>
          _ ← ensureM (negb (bool_decide (ss_kind st = KDirectory))) EISDIR;
          sh ← gets (λ s, handle ≫= λ h, scratch_handles (f_opens s) !! h);
          match sh with
          | Some sh => _ ← ensureM (sh_writable sh) EBADF; on_host (Scratch_set_len sc (sh_file sh) size)
          | None => file ← on_host (Scratch_open sc p (plain O_RDWR) 0); on_host (Scratch_set_len sc file size)
          end
      end
  end.
Definition set_mode (p : path) (handle : option N) (bits : N) : FM unit :=
  let mode := if N.land bits 73 =? 0 then Regular else Executable in
  stat ← served p;
  stat ← or_enoent stat;
  if negb (bool_decide (s_kind stat = KFile)) then mret tt
  else
    _ ← ensureM (proposes p) EACCES;
    open ← gets (λ s, handle ≫= λ h, pair h <$> handles (f_opens s) !! h);
    match open with
    | Some (h, Build_Handle path base earlier bytes _ _ true) => put_handle h (Build_Handle path base earlier bytes (Some mode) true true)
    | _ =>
        if bool_decide (s_mode stat = Some mode) then mret tt
        else
          x ← held p;
          x ← or_enoent x;
          match x with
          | (Blob b, bytes) => _ ← propose_all [Proposed_write_mode p (Blob b) bytes mode]; mret tt
          | _ =>
              _ ← session_modify (λ x, {| pending := pending x; pending_modes := <[p := mode]> (pending_modes x) |});
              touch p
          end
    end.
Definition setattr (inode : N) (handle : option N) (set : SetAttr) : FM (Attr * N) :=
  p ← path_of inode;
  _ ← ensureM (match sa_uid set, sa_gid set with None, None => true | _, _ => false end) EPERM;
  at_ ← whereis p;
  match at_ with
  | InScratch st => _ ← setattr_scratch p st handle set; getattr inode handle
  | _ =>
      _ ← match sa_mode set with Some bits => set_mode p handle bits | None => mret tt end;
      _ ← match sa_size set with
          | None => mret tt
          | Some size =>
              a ← attr p;
              _ ← ensureM (negb (bool_decide (at_kind a = KDirectory))) EISDIR;
              match handle with
              | Some h =>
                  open ← get_handle h;
                  _ ← ensureM (hd_writable open) EBADF;
                  bytes ← lift (set_size size (hd_bytes open));
                  put_handle h (with_bytes bytes open)
              | None =>
                  _ ← ensureM (proposes p) EACCES;
                  x ← held p;
                  '(base, bytes) ← or_enoent x;
                  bytes ← lift (set_size size bytes);
                  _ ← land p base Reads_new bytes None;
                  mret tt
              end
          end;
      getattr inode handle
  end.

(** ** Names *)

Definition absent_or_eexist (p : path) : FM unit :=
  at_ ← whereis p;
  match at_ with Nowhere => mret tt | _ => throw EEXIST end.
Definition symlink (parent : N) (name target : list byte) : FM Entry :=
  p ← child parent name;
  _ ← absent_or_eexist p;
  _ ← ensureM (proposes p) EACCES;
  derived ← derived_new p false;
  match derived with
  | true => sc ← scratch; _ ← on_host (Scratch_symlink sc target p); entry_of p
  | false => _ ← propose_all [Proposed_write_mode p Absent target Symlink]; entry_of p
  end.
Definition create (parent : N) (name : list byte) (flags : N) : FM (Entry * N) :=
  p ← child parent name;
  _ ← absent_or_eexist p;
  _ ← ensureM (proposes p) EACCES;
  derived ← derived_new p false;
  match derived with
  | true =>
      h ← open_scratch p flags true;
      e ← entry_of p;
      _ ← tell (en_attr e);
      mret (e, h)
  | false =>
      _ ← session_modify (λ x, {| pending := <[p := []]> (pending x); pending_modes := pending_modes x |});
      _ ← touch p;
      h ← new_handle {| hd_path := p; hd_base := Absent; hd_earlier := Reads_new; hd_bytes := []; hd_mode := None; hd_dirty := true;
                        hd_writable := negb (N.land flags O_ACCMODE =? 0) |};
      e ← entry_of p;
      _ ← tell (en_attr e);
      mret (e, h)
  end.
Definition mkdir (parent : N) (name : list byte) : FM Entry :=
  p ← child parent name;
  _ ← absent_or_eexist p;
  _ ← ensureM (may_propose_under p) EACCES;
  derived ← derived_new p true;
  match derived with
  | true => sc ← scratch; _ ← on_host (Scratch_mkdir sc p); entry_of p
  | false => _ ← propose_all [Proposed_mkdir p]; entry_of p
  end.
Definition unlink (parent : N) (name : list byte) : FM unit :=
  p ← child parent name;
  at_ ← whereis p;
  in_scratch ← (match at_ with
                | Nowhere => throw ENOENT
                | Stored st => if bool_decide (s_kind st = KDirectory) then throw EISDIR else mret false
                | InScratch st => if bool_decide (ss_kind st = KDirectory) then throw EISDIR else mret true
                end : FM bool);
  _ ← ensureM (proposes p) EACCES;
  match in_scratch with
  | true => sc ← scratch; on_host (Scratch_unlink sc p)
  | false =>
      x ← held p;
      match x with
      | Some (Blob b, _) => _ ← propose_all [Proposed_delete p (Blob b)]; mret tt
      | _ => _ ← session_modify (session_drop p); touch p
      end
  end.
Definition rmdir (parent : N) (name : list byte) : FM unit :=
  p ← child parent name;
  at_ ← whereis p;
  in_scratch ← (match at_ with
                | Nowhere => throw ENOENT
                | Stored st => if bool_decide (s_kind st = KDirectory) then mret false else throw ENOTDIR
                | InScratch st => if bool_decide (ss_kind st = KDirectory) then mret true else throw ENOTDIR
                end : FM bool);
  l ← listing p;
  _ ← ensureM (bool_decide (l = ∅)) ENOTEMPTY;
  _ ← ensureM (may_propose_under p) EACCES;
  match in_scratch with
  | true => sc ← scratch; on_host (Scratch_rmdir sc p)
  | false =>
      _ ← propose_all [Proposed_rmdir p];
      made ← scratch_made;
      match made with
      | None => mret tt
      | Some sc =>
          st ← attempt (on_host (Scratch_stat sc p));
          match st with
          | Ok (Some _) => _ ← attempt (on_host (Scratch_rmdir sc p)); mret tt
          | _ => mret tt
          end
      end
  end.

(** ** Renames *)

Definition rename_in_scratch (from to : path) (kind : Kind) : FM unit :=
  let may p := if bool_decide (kind = KDirectory) then may_propose_under p else proposes p in
  _ ← ensureM (may from && may to) EACCES;
  sc ← scratch;
  on_host (Scratch_rename sc from to).
Definition scratch_contents (sc : Scratch _) (from : path) (kind : Kind) : FM (list byte * Mode) :=
  if bool_decide (kind = KSymlink) then target ← on_host (Scratch_readlink sc from); mret (target, Symlink)
  else
    file ← on_host (Scratch_open sc from (plain O_RDONLY) 0);
    st ← on_host (stat_file file);
    bytes ← on_host (sys (read_exact_at file 0 (ss_size st)));
    mret (bytes, if N.land (ss_perm st) 73 =? 0 then Regular else Executable).
Definition target_base (x : option (Base * list byte)) : Base := match x with Some (Blob b, _) => Blob b | _ => Absent end.
Definition rename_out_of_scratch (from to : path) (kind : Kind) (target : option Kind) : FM unit :=
  _ ← ensureM (negb (bool_decide (target = Some KDirectory))) EISDIR;
  _ ← ensureM (proposes from) EACCES;
  sc ← scratch;
  '(bytes, mode) ← scratch_contents sc from kind;
  x ← held to;
  _ ← propose_all [Proposed_write_mode to (target_base x) bytes mode];
  _ ← session_modify (session_drop to);
  on_host (Scratch_unlink sc from).
(** The mode a path is served with, or was given while it is not landed. *)
Definition mode_of (from : path) : FM Mode :=
  stat ← served from;
  match stat ≫= s_mode with
  | Some mode => mret mode
  | None => m ← gets (λ s, pending_modes (f_session s) !! from); mret (default Regular m)
  end.
Definition copy_into_scratch (sc : Scratch _) (to : path) (bytes : list byte) (mode : Mode) : FM unit :=
  if bool_decide (mode = Symlink) then on_host (Scratch_symlink sc bytes to)
  else
    file ← on_host (Scratch_open sc to {| o_access := O_WRONLY; o_directory := false; o_creat := true; o_excl := true |}
                      (if bool_decide (mode = Executable) then 493 else 420));
    r ← attempt (on_host (Scratch_write sc file 0 bytes));
    match r with
    | Err e => _ ← attempt (on_host (Scratch_unlink sc to)); throw e
    | _ => mret tt
    end.
Definition rename_into_scratch (from to : path) (target : option Kind) : FM unit :=
  _ ← ensureM (negb (bool_decide (target = Some KDirectory))) EISDIR;
  _ ← ensureM (proposes from && proposes to) EACCES;
  x ← held from;
  '(base, bytes) ← or_enoent x;
  mode ← mode_of from;
  sc ← scratch;
  _ ← match target with Some _ => on_host (Scratch_unlink sc to) | None => mret tt end;
  _ ← copy_into_scratch sc to bytes mode;
  match base with
  | Blob b =>
      r ← attempt (propose_all [Proposed_delete from (Blob b)]);
      match r with
      | Err e => _ ← attempt (on_host (Scratch_unlink sc to)); throw e
      | _ => mret tt
      end
  | _ => _ ← session_modify (session_drop from); touch from
  end.
Definition moved_path (from to p : path) : path := to ++ drop (length from) p.
Definition move_pending (from to : path) (x : Session) (p : path) : Session :=
  let moved := moved_path from to p in
  {| pending := match pending x !! p with Some b => <[moved := b]> (delete p (pending x)) | None => pending x end;
     pending_modes := match pending_modes x !! p with Some m => <[moved := m]> (delete p (pending_modes x)) | None => pending_modes x end |}.
Definition with_path (p : path) (base : Base) (x : Handle) : Handle :=
  {| hd_path := p; hd_base := base; hd_earlier := hd_earlier x; hd_bytes := hd_bytes x; hd_mode := hd_mode x; hd_dirty := hd_dirty x; hd_writable := hd_writable x |}.
Definition move_under (from to : path) (x : Handle) : Handle :=
  if bool_decide (join from [] `prefix_of` hd_path x) then with_path (moved_path from to (hd_path x)) (hd_base x) x else x.
Definition rename_directory (from to : path) (target : option Kind) : FM unit :=
  _ ← ensureM (negb (bool_decide (join from [] `prefix_of` to))) EINVAL;
  _ ← match target with
      | Some (KFile | KSymlink) => throw ENOTDIR
      | Some KDirectory => l ← listing to; ensureM (bool_decide (l = ∅)) ENOTEMPTY
      | None => mret tt
      end;
  writes ← query (λ s, rename_dir (db_store (f_db s)) from to);
  _ ← propose_all writes;
  made ← scratch_made;
  _ ← match made with
      | None => mret tt
      | Some sc =>
          st ← attempt (on_host (Scratch_stat sc from));
          match st with
          | Ok (Some _) => _ ← attempt (on_host (Scratch_rename sc from to)); mret tt
          | _ => mret tt
          end
      end;
  _ ← session_modify (λ x, foldl (move_pending from to) x (filter (λ p, join from [] `prefix_of` p) (sorted_keys (pending x))));
  handles_modify (fmap (move_under from to)).
Definition rename_file (from to : path) (target : option Kind) : FM unit :=
  _ ← ensureM (negb (bool_decide (target = Some KDirectory))) EISDIR;
  x ← held from;
  '(base, bytes) ← or_enoent x;
  let stored := match base with Blob _ => true | _ => false end in
  mode ← mode_of from;
  y ← held to;
  let writes := (if stored then [Proposed_delete from base] else []) ++ [Proposed_write_mode to (target_base y) bytes mode] in
  acc ← propose_all writes;
  _ ← session_modify (λ x, session_drop to (session_drop from x));
  _ ← (if stored then mret tt else touch from);
  moved ← lift (landed acc to);
  handles_modify (fmap (λ x, if bool_decide (hd_path x = from) then with_path to moved x else x)).
Definition rename (olddir : N) (oldname : list byte) (newdir : N) (newname : list byte) (flags : N) : FM unit :=
  _ ← ensureM (N.ldiff flags RENAME_NOREPLACE =? 0) EINVAL;
  from ← child olddir oldname;
  to ← child newdir newname;
  at_ ← whereis from;
  '(kind, from_derived) ← (match at_ with
                           | Nowhere => throw ENOENT
                           | Stored st => mret (s_kind st, false)
                           | InScratch st => mret (ss_kind st, true)
                           end : FM (Kind * bool));
  if bool_decide (from = to) then mret tt
  else
    over ← whereis to;
    '(target, to_derived) ← (match over with
                             | Nowhere => d ← derived_new to (bool_decide (kind = KDirectory)); mret (None, d)
                             | Stored st => mret (Some (s_kind st), false)
                             | InScratch st => mret (Some (ss_kind st), true)
                             end : FM (option Kind * bool));
    _ ← ensureM (negb (negb (N.land flags RENAME_NOREPLACE =? 0) && match target with Some _ => true | None => false end)) EEXIST;
    _ ← match kind, from_derived, to_derived with
        | KDirectory, false, false => rename_directory from to target
        | (KFile | KSymlink), false, false => rename_file from to target
        | _, true, true => rename_in_scratch from to kind
        | KDirectory, _, _ => throw EXDEV
        | _, true, false => rename_out_of_scratch from to kind target
        | _, false, true => rename_into_scratch from to target
        end;
    modify (λ s, set_inodes (inodes_rename_tree from to (f_inodes s)) s).
End storefs.
Notation FM := (M fs Errno).

(** ** A small instance

    A host that refuses every call, no ignore rules, no other writers, a clock that stands
    still, over the store of [Proposal]'s examples. *)

Module Quiet.
Definition refuses {A} (_ : unit) : result os_error A * unit := (Err OsOther, tt).
#[export] Instance no_host : Posix := {|
  os := unit; fd := unit; leftovers := 0; make_root := λ _, refuses; openat := λ _ _ _ _, refuses; mkdirat := λ _ _, refuses;
  symlinkat := λ _ _ _, refuses; readlinkat := λ _ _, refuses; unlinkat := λ _ _ _, refuses; renameat := λ _ _ _ _, refuses;
  fstatat := λ _ _, refuses; Derived.readdir := λ _, refuses; fchmod := λ _ _, refuses; fstat := λ _, refuses; write_all_at := λ _ _ _, refuses;
  read_exact_at := λ _ _ _, refuses; ftruncate := λ _ _, refuses |}.
#[export] Instance no_rules : Gitignore := {| rules := unit; rules_of := λ _, None; matched := λ _ _ _, NoMatch |}.
#[export] Existing Instances demo_blake3 chain_differ demo_parser.
Definition env : Env := {| now := λ _, 5; wall := λ _, 7; origin := 3; others := λ _ d, d; store_fails := λ _, false |}.
Definition options : Options := {| freshness := Freshness_default; checkout := None; derived := None |}.
Definition start : fs := with_clock demo_db tt 0.
Definition everything : Scope := {| see := Whole; propose_to := Whole |}.
(** May propose one path. *)
Definition narrow : Scope := {| see := Whole; propose_to := Paths {[ [x63; x2f; x79] ]} |}.
(** May propose every path and see none: a grant of [mutate] alone. *)
Definition blind : Scope := {| see := Paths ∅; propose_to := Whole |}.
End Quiet.
