(* ===== verification/StoreFsRuns.v ===== *)
(** * What a request of the store filesystem moves

    Every request of [StoreFs] is built from a few primitive moves of its state.  A preorder
    that holds along each primitive holds along every request ([Moves]); the instances give
    the two facts used of it: the database only moves by store calls of other writers, by
    bringing the checkout up and by accepted proposals of the scope; and inodes stay a
    one-to-one numbering of the paths named so far. *)

From S2P Require Import Prelude Substrate Text Tree Merge TreeSync Proposal StateM Derived StoreFs.
From Stdlib Require Import NArith Lia.
Local Open Scope N_scope.

(** What serving a request moves, before it changes a file. *)
Class Serves `{Blake3, Differ, Parser, Posix, Gitignore} (env : Env) (R : relation fs) := {
  mv_preorder : PreOrder R;
  mv_tick t s : R s (set_tick t s);
  mv_served x s : R s (set_served x s);
  mv_scratch x s : R s (set_scratch x s);
  mv_ignores x s : R s (set_ignores x s);
  mv_publish s : R s (add_publish s);
  mv_inode_of p s : R s (set_inodes (inodes_of p (f_inodes s)).2 s);
  mv_others t s : R s (set_db (others env t (f_db s)) s);
}.
#[global] Existing Instance mv_preorder.
Class Moves `{Blake3, Differ, Parser, Posix, Gitignore} (scope : Scope) (options : Options) (env : Env) (R : relation fs) := {
  mv_serves : Serves env R;
  mv_opens o s : R s (set_opens o s);
  mv_session x s : R s (set_session x s);
  mv_rename from to s : from ≠ [] → to ≠ [] → R s (set_inodes (inodes_rename_tree from to (f_inodes s)) s);
  mv_reconcile ck paths s : checkout options = Some ck → R s (set_db (ck_reconcile ck paths (f_db s)) s);
  mv_propose ws acc d s : propose (propose_to scope) ws (f_db s) = (Ok acc, d) → R s (set_db d s);
}.
#[global] Existing Instance mv_serves.

(** Unfold a definition and walk through it. *)
Ltac walk f := unfold f; within_tac.
#[export] Hint Extern 0 (Serves _ _) => eassumption : within.
#[export] Hint Extern 0 (Moves _ _ _ _) => eassumption : within.

Section serving.
Context `{Blake3, Differ, Parser, Posix, Gitignore}.
Context (scope : Scope) (options : Options) (env : Env) (R : relation fs) `{!Serves env R}.

Lemma w_tick : within R tick.
Proof. intros s. apply mv_tick. Qed.
#[local] Hint Resolve w_tick : within.
Lemma w_served_modify f : within R (served_modify f).
Proof. intros s. apply mv_served. Qed.
#[local] Hint Resolve w_served_modify : within.
Lemma w_set_served x : within R (modify (set_served x) : FM unit).
Proof. intros s. apply mv_served. Qed.
#[local] Hint Resolve w_set_served : within.
Lemma w_set_ignores x : within R (modify (set_ignores x) : FM unit).
Proof. intros s. apply mv_ignores. Qed.
#[local] Hint Resolve w_set_ignores : within.
Lemma w_add_publish : within R (modify add_publish : FM unit).
Proof. intros s. apply mv_publish. Qed.
#[local] Hint Resolve w_add_publish : within.
Lemma w_inode_of p : within R (inode_of p).
Proof. intros s. unfold inode_of. pose proof (mv_inode_of p s) as Hm. by destruct (inodes_of p (f_inodes s)). Qed.
#[local] Hint Resolve w_inode_of : within.
Lemma w_enter {E} (e : E) : within R (enter env e).
Proof.
  intros s. unfold enter. cbn [snd]. etrans; [apply (mv_tick (S (f_tick s)) s) |].
  change (f_db s) with (f_db (set_tick (S (f_tick s)) s)). apply mv_others.
Qed.
#[local] Hint Resolve w_enter : within.
Lemma set_db_same s : set_db (f_db s) s = s.
Proof. by destruct s. Qed.
Lemma w_on_host {A} (m : SM A) : within R (on_host m).
Proof. apply within_map_err, within_zoom. intros h s. apply mv_scratch. Qed.
#[local] Hint Resolve w_on_host : within.
Lemma w_set_made sc n : within R (modify (λ s, set_scratch {| dv_scratch := Some sc; dv_host := dv_host (f_scratch s); dv_next := n |} s) : FM unit).
Proof. intros s. apply mv_scratch. Qed.
#[local] Hint Resolve w_set_made : within.
Lemma w_memo_ignores dir rs : within R (modify (λ s, set_ignores (<[dir := rs]> (f_ignores s)) s) : FM unit).
Proof. intros s. apply mv_ignores. Qed.
#[local] Hint Resolve w_memo_ignores : within.
Lemma w_clock_now : within R (clock_now env).
Proof. walk @clock_now. Qed.
#[local] Hint Resolve w_clock_now : within.
Lemma w_Times_of : within R (Times_of env).
Proof. walk @Times_of. Qed.
#[local] Hint Resolve w_Times_of : within.
Lemma w_served_update f : within R (served_update f).
Proof. walk @served_update. Qed.
#[local] Hint Resolve w_served_update : within.
Lemma w_with_read {E A} (e : E) (f : fs → result E A) : within R (with_read env e f).
Proof. walk @with_read. Qed.
#[local] Hint Resolve w_with_read : within.
Lemma w_query {A} (f : fs → result propose_error A) : within R (query env f).
Proof. walk @query. Qed.
#[local] Hint Resolve w_query : within.
Lemma w_path_of i : within R (path_of i).
Proof. walk @path_of. Qed.
#[local] Hint Resolve w_path_of : within.
Lemma w_get_handle h : within R (get_handle h).
Proof. walk @get_handle. Qed.
#[local] Hint Resolve w_get_handle : within.
Lemma w_scratch_handle h : within R (scratch_handle h).
Proof. walk @scratch_handle. Qed.
#[local] Hint Resolve w_scratch_handle : within.
Lemma w_tell a : within R (tell a).
Proof. walk @tell. Qed.
#[local] Hint Resolve w_tell : within.
Lemma w_timeout p : within R (timeout options env p).
Proof. walk @timeout. Qed.
#[local] Hint Resolve w_timeout : within.
Lemma w_observe p seen : within R (observe env p seen).
Proof. walk @observe. Qed.
#[local] Hint Resolve w_observe : within.
Lemma w_served p : within R (served scope env p).
Proof. walk @served. Qed.
#[local] Hint Resolve w_served : within.
Lemma w_mtime p : within R (mtime env p).
Proof. walk @mtime. Qed.
#[local] Hint Resolve w_mtime : within.
Lemma w_touch p : within R (touch env p).
Proof. walk @touch. Qed.
#[local] Hint Resolve w_touch : within.
Lemma w_attr_of p k n m : within R (attr_of scope env p k n m).
Proof. walk @attr_of. Qed.
#[local] Hint Resolve w_attr_of : within.
Lemma w_scratch_attr p st : within R (scratch_attr p st).
Proof. walk @scratch_attr. Qed.
#[local] Hint Resolve w_scratch_attr : within.
Lemma w_scratch_made : within R scratch_made.
Proof. walk @scratch_made. Qed.
#[local] Hint Resolve w_scratch_made : within.
Lemma w_scratch : within R (scratch options).
Proof. walk @scratch. Qed.
#[local] Hint Resolve w_scratch : within.
Lemma w_scratch_stat p : within R (scratch_stat p).
Proof. walk @scratch_stat. Qed.
#[local] Hint Resolve w_scratch_stat : within.
Lemma w_located p st : within R (located p st).
Proof. walk @located. Qed.
#[local] Hint Resolve w_located : within.
Lemma w_locate p : within R (locate scope env p).
Proof. walk @locate. Qed.
#[local] Hint Resolve w_locate : within.
Lemma w_whereis p : within R (whereis scope env p).
Proof. walk @whereis. Qed.
#[local] Hint Resolve w_whereis : within.
Lemma w_attr p : within R (attr scope env p).
Proof. walk @attr. Qed.
#[local] Hint Resolve w_attr : within.
Lemma w_entry_of p : within R (entry_of scope options env p).
Proof. walk @entry_of. Qed.
#[local] Hint Resolve w_entry_of : within.
Lemma w_directory i : within R (directory scope env i).
Proof. walk @directory. Qed.
#[local] Hint Resolve w_directory : within.
Lemma w_child i n : within R (child scope env i n).
Proof. walk @child. Qed.
#[local] Hint Resolve w_child : within.
Lemma w_held p : within R (held env p).
Proof. walk @held. Qed.
#[local] Hint Resolve w_held : within.
Lemma w_or_enoent {A} (o : option A) : within R (or_enoent o).
Proof. walk @or_enoent. Qed.
#[local] Hint Resolve w_or_enoent : within.
Lemma w_listing d : within R (listing scope env d).
Proof. walk @listing. Qed.
#[local] Hint Resolve w_listing : within.
Lemma w_names_under d : within R (names_under scope env d).
Proof. walk @names_under. Qed.
#[local] Hint Resolve w_names_under : within.
Lemma w_ignore_rules d : within R (ignore_rules options env d).
Proof. walk @ignore_rules. Qed.
#[local] Hint Resolve w_ignore_rules : within.
Lemma w_gitignored p b : within R (gitignored options env p b).
Proof. unfold gitignored. generalize (reverse (parents p) ++ [[]]). intros dirs. induction dirs as [| d dirs IH]; cbn [gitignored_from]; within_tac. Qed.
#[local] Hint Resolve w_gitignored : within.
Lemma w_derived_new p b : within R (derived_new scope options env p b).
Proof. walk @derived_new. Qed.
#[local] Hint Resolve w_derived_new : within.
Lemma w_after_landing acc : within R (after_landing scope env acc).
Proof. unfold after_landing, stat_landed, inode_landed. within_tac. Qed.
#[local] Hint Resolve w_after_landing : within.
Lemma w_lookup i n : within R (lookup scope options env i n).
Proof. walk @lookup. Qed.
#[local] Hint Resolve w_lookup : within.
Lemma w_getattr i h : within R (getattr scope options env i h).
Proof. walk @getattr. Qed.
#[local] Hint Resolve w_getattr : within.
Lemma w_negative_ttl i n : within R (negative_ttl scope options env i n).
Proof. walk @negative_ttl. Qed.
#[local] Hint Resolve w_negative_ttl : within.
Lemma w_readdirplus i o : within R (readdirplus scope options env i o).
Proof. unfold readdirplus, dirplus_one. within_tac. Qed.
#[local] Hint Resolve w_readdirplus : within.
Lemma w_opendir i : within R (opendir scope env i).
Proof. walk @opendir. Qed.
#[local] Hint Resolve w_opendir : within.
Lemma w_readdir i o : within R (readdir scope env i o).
Proof. unfold readdir, dir_one. within_tac. Qed.
#[local] Hint Resolve w_readdir : within.
Lemma w_read h o n : within R (read h o n).
Proof. walk @read. Qed.
#[local] Hint Resolve w_read : within.
Lemma w_readlink i : within R (readlink scope options env i).
Proof. walk @readlink. Qed.
#[local] Hint Resolve w_readlink : within.
Lemma w_parent i : within R (parent i).
Proof. walk @parent. Qed.
#[local] Hint Resolve w_parent : within.
Lemma w_write_scratch sh o d : within R (write_scratch options sh o d).
Proof. walk @write_scratch. Qed.
#[local] Hint Resolve w_write_scratch : within.
Lemma w_setattr_scratch p st h x : within R (setattr_scratch scope options p st h x).
Proof. walk @setattr_scratch. Qed.
#[local] Hint Resolve w_setattr_scratch : within.
Lemma w_absent_or_eexist p : within R (absent_or_eexist scope env p).
Proof. walk @absent_or_eexist. Qed.
#[local] Hint Resolve w_absent_or_eexist : within.
Lemma w_rename_in_scratch a b k : within R (rename_in_scratch scope options a b k).
Proof. walk @rename_in_scratch. Qed.
#[local] Hint Resolve w_rename_in_scratch : within.
Lemma w_scratch_contents sc a k : within R (scratch_contents sc a k).
Proof. walk @scratch_contents. Qed.
#[local] Hint Resolve w_scratch_contents : within.
Lemma w_mode_of p : within R (mode_of scope env p).
Proof. walk @mode_of. Qed.
#[local] Hint Resolve w_mode_of : within.
Lemma w_copy_into_scratch sc p b m : within R (copy_into_scratch sc p b m).
Proof. walk @copy_into_scratch. Qed.
#[local] Hint Resolve w_copy_into_scratch : within.
Lemma join_nonempty dir name : name ≠ [] → join dir name ≠ [].
Proof. destruct dir; cbn; [done |]. by intros _. Qed.
Lemma child_nonempty i n s p s' : child scope env i n s = (Ok p, s') → p ≠ [].
Proof.
  unfold child. intros (dir & s1 & _ & Hr)%run_bind. apply run_bind in Hr as (? & s2 & _ & Hr). apply run_bind in Hr as (? & s3 & Hn & [= <- _]).
  apply join_nonempty. intros ->. by destruct dir.
Qed.
End serving.
#[export] Hint Extern 1 (Serves _ _) => (eapply @mv_serves; eassumption) : within.
#[export] Hint Resolve w_tick w_served_modify w_set_served w_set_ignores w_add_publish w_inode_of w_enter w_on_host w_set_made w_memo_ignores w_clock_now w_Times_of w_served_update w_with_read w_query w_path_of w_get_handle w_scratch_handle w_tell w_timeout w_observe w_served w_mtime w_touch w_attr_of w_scratch_attr w_scratch_made w_scratch w_scratch_stat w_located w_locate w_whereis w_attr w_entry_of w_directory w_child w_held w_or_enoent w_listing w_names_under w_ignore_rules w_gitignored w_derived_new w_after_landing w_lookup w_getattr w_negative_ttl w_readdirplus w_opendir w_readdir w_read w_readlink w_parent w_write_scratch w_setattr_scratch w_absent_or_eexist w_rename_in_scratch w_scratch_contents w_mode_of w_copy_into_scratch : within.

Section moving.
Context `{Blake3, Differ, Parser, Posix, Gitignore}.
Context (scope : Scope) (options : Options) (env : Env) (R : relation fs) `{!Moves scope options env R}.

Lemma w_session_modify f : within R (session_modify f).
Proof. intros s. apply mv_session. Qed.
#[local] Hint Resolve w_session_modify : within.
Lemma w_handles_modify f : within R (handles_modify f).
Proof. intros s. apply mv_opens. Qed.
#[local] Hint Resolve w_handles_modify : within.
Lemma w_new_handle x : within R (new_handle x).
Proof. intros s. apply mv_opens. Qed.
#[local] Hint Resolve w_new_handle : within.
Lemma w_new_scratch_handle x : within R (new_scratch_handle x).
Proof. intros s. apply mv_opens. Qed.
#[local] Hint Resolve w_new_scratch_handle : within.
Lemma w_release h : within R (release h).
Proof. intros s. apply mv_opens. Qed.
#[local] Hint Resolve w_release : within.
Lemma w_propose_write ws : within R (propose_write scope ws).
Proof.
  intros s. unfold propose_write. destruct (propose (propose_to scope) ws (f_db s)) as [r d] eqn:Hp. cbn [snd].
  destruct r as [acc | |]; [by eapply mv_propose | |];
    (unfold propose in Hp; destruct (_ ← granted _ _; propose_checked ws (f_db s)) as [[]| |]; simplify_eq; rewrite set_db_same; reflexivity).
Qed.
#[local] Hint Resolve w_propose_write : within.
Lemma w_reconcile paths : within R (reconcile_with (checkout options) paths).
Proof.
  unfold reconcile_with. destruct (checkout options) as [ck |] eqn:Hck; [| apply within_ret; apply _].
  intros s. by apply mv_reconcile.
Qed.
#[local] Hint Resolve w_reconcile : within.
Lemma w_rename_tree from to : from ≠ [] → to ≠ [] → within R (modify (λ s, set_inodes (inodes_rename_tree from to (f_inodes s)) s) : FM unit).
Proof. intros Hf Ht s. by apply mv_rename. Qed.
#[local] Hint Resolve w_rename_tree : within.
Lemma w_put_handle h x : within R (put_handle h x).
Proof. walk @put_handle. Qed.
#[local] Hint Resolve w_put_handle : within.
Lemma w_open_scratch p f c : within R (open_scratch options p f c).
Proof. walk @open_scratch. Qed.
#[local] Hint Resolve w_open_scratch : within.
Lemma w_write_section pre ws : within R (write_section scope options env pre ws).
Proof. walk @write_section. Qed.
#[local] Hint Resolve w_write_section : within.
Lemma w_propose_after pre ws : within R (propose_after scope options env pre ws).
Proof. walk @propose_after. Qed.
#[local] Hint Resolve w_propose_after : within.
Lemma w_propose_all ws : within R (propose_all scope options env ws).
Proof. walk @propose_all. Qed.
#[local] Hint Resolve w_propose_all : within.
Lemma w_land p b e bs m : within R (land scope options env p b e bs m).
Proof. walk @land. Qed.
#[local] Hint Resolve w_land : within.
Lemma w_commit h : within R (commit scope options env h).
Proof. walk @commit. Qed.
#[local] Hint Resolve w_commit : within.
Lemma w_open i f : within R (open scope options env i f).
Proof. walk @open. Qed.
#[local] Hint Resolve w_open : within.
Lemma w_write h o d : within R (write options h o d).
Proof. walk @write. Qed.
#[local] Hint Resolve w_write : within.
Lemma w_write_checked h o d : within R (write_checked scope options env h o d).
Proof. walk @write_checked. Qed.
#[local] Hint Resolve w_write_checked : within.
Lemma w_reread h : within R (reread env h).
Proof. walk @reread. Qed.
#[local] Hint Resolve w_reread : within.
Lemma w_settle h : within R (settle h).
Proof. walk @settle. Qed.
#[local] Hint Resolve w_settle : within.
Lemma w_discard h : within R (discard env h).
Proof. walk @discard. Qed.
#[local] Hint Resolve w_discard : within.
Lemma w_set_mode p h b : within R (set_mode scope options env p h b).
Proof. walk @set_mode. Qed.
#[local] Hint Resolve w_set_mode : within.
Lemma w_setattr i h x : within R (setattr scope options env i h x).
Proof. walk @setattr. Qed.
#[local] Hint Resolve w_setattr : within.
Lemma w_symlink i n t : within R (symlink scope options env i n t).
Proof. walk @symlink. Qed.
#[local] Hint Resolve w_symlink : within.
Lemma w_create i n f : within R (create scope options env i n f).
Proof. walk @create. Qed.
#[local] Hint Resolve w_create : within.
Lemma w_mkdir i n : within R (mkdir scope options env i n).
Proof. walk @mkdir. Qed.
#[local] Hint Resolve w_mkdir : within.
Lemma w_unlink i n : within R (unlink scope options env i n).
Proof. walk @unlink. Qed.
#[local] Hint Resolve w_unlink : within.
Lemma w_rmdir i n : within R (rmdir scope options env i n).
Proof. walk @rmdir. Qed.
#[local] Hint Resolve w_rmdir : within.
Lemma w_rename_out_of_scratch a b k t : within R (rename_out_of_scratch scope options env a b k t).
Proof. walk @rename_out_of_scratch. Qed.
#[local] Hint Resolve w_rename_out_of_scratch : within.
Lemma w_rename_into_scratch a b t : within R (rename_into_scratch scope options env a b t).
Proof. walk @rename_into_scratch. Qed.
#[local] Hint Resolve w_rename_into_scratch : within.
Lemma w_rename_directory a b t : within R (rename_directory scope options env a b t).
Proof. walk @rename_directory. Qed.
#[local] Hint Resolve w_rename_directory : within.
Lemma w_rename_file a b t : within R (rename_file scope options env a b t).
Proof. walk @rename_file. Qed.
#[local] Hint Resolve w_rename_file : within.
Lemma w_rename d n d' n' f : within R (rename scope options env d n d' n' f).
Proof.
  unfold rename. apply within_bind; [apply _ | apply within_ensure; apply _ | intros _].
  apply within_bind_ok; [apply _ | by eauto with within |]. intros from s1 s2 Hfrom%child_nonempty.
  apply within_bind_ok; [apply _ | by eauto with within |]. intros to s3 s4 Hto%child_nonempty.
  within_tac.
Qed.
#[local] Hint Resolve w_rename : within.
End moving.
#[export] Hint Resolve w_session_modify w_handles_modify w_new_handle w_new_scratch_handle w_release w_propose_write w_reconcile w_rename_tree w_put_handle w_open_scratch w_write_section w_propose_after w_propose_all w_land w_commit w_open w_write w_write_checked w_reread w_settle w_discard w_set_mode w_setattr w_symlink w_create w_mkdir w_unlink w_rmdir w_rename_out_of_scratch w_rename_into_scratch w_rename_directory w_rename_file w_rename : within.

(** ** How the database moves *)

Section evolution.
Context `{Blake3, Differ, Parser, Posix, Gitignore}.
Context (scope : Scope) (options : Options) (env : Env).

Inductive db_step (d d' : db) : Prop :=
| step_others t : d' = others env t d → db_step d d'
| step_reconcile ck paths : checkout options = Some ck → d' = ck_reconcile ck paths d → db_step d d'
| step_propose ws acc : propose (propose_to scope) ws d = (Ok acc, d') → db_step d d'.
Definition evolves : relation db := rtc db_step.
Definition fs_evolves : relation fs := λ s s', evolves (f_db s) (f_db s').
#[global] Instance fs_evolves_moves : Moves scope options env fs_evolves.
Proof.
  split; [split | ..]; try (intros; by apply rtc_refl).
  - split; [intros s; apply rtc_refl | intros s1 s2 s3 H12 H23; unfold fs_evolves, evolves in *; by etrans].
  - intros t s. apply rtc_once. by apply (step_others _ _ t).
  - intros ck paths s Hck. apply rtc_once. by apply (step_reconcile _ _ ck paths).
  - intros ws acc d s Hp. apply rtc_once. by apply (step_propose _ _ ws acc).
Qed.

(** A store that is a tree whose blobs are under their hashes. *)
Definition sound (d : db) (m : gmap path Tree.Entry) : Prop := manifest (db_store d) m ∧ closed m ∧ blobs_ok (db_store d).
Definition no_file (e : option Tree.Entry) : Prop := e = None ∨ e = Some EDir.
(** Only paths of the grant changed, and directories above them where no file was or is. *)
Definition confined (g : Grant) (m m' : gmap path Tree.Entry) : Prop :=
  ∀ p, m' !! p ≠ m !! p → Grant_covers g p = true ∨ (Grant_covers_dir g p = true ∧ no_file (m !! p) ∧ no_file (m' !! p)).
Lemma propose_sound g ws d acc d' m :
  sound d m → propose g ws d = (Ok acc, d') → ∃ m', sound d' m' ∧ confined g m m'.
Proof.
  intros (Hm & Hc & Hb) Hp. destruct (propose_applied _ _ _ _ _ _ Hm Hc Hb Hp) as (plans & m' & _ & Hm' & Hc' & _ & Hb' & _).
  exists m'. split; [done |]. intros p Hne. destruct (propose_confined _ _ _ _ _ _ _ _ Hm Hc Hb Hp Hm' Hne) as [? | (? & [[-> ->] | [-> ->]])];
    [by left | right; unfold no_file; naive_solver..].
Qed.
(** What is not the guest's: another writer, or the checkout brought up to the store. *)
Definition outside_step (d d' : db) : Prop :=
  (∃ t, d' = others env t d) ∨ ∃ ck paths, checkout options = Some ck ∧ d' = ck_reconcile ck paths d.
(** Those keep a store a tree. *)
Definition outside_sound : Prop := ∀ d d' m, outside_step d d' → sound d m → ∃ m', sound d' m'.
(** Every move of the store is one from outside, or the guest's and within its grant. *)
Inductive accounted (g : Grant) : db → gmap path Tree.Entry → db → gmap path Tree.Entry → Prop :=
| ac_end d m : accounted g d m d m
| ac_outside d m d1 m1 d2 m2 : outside_step d d1 → sound d1 m1 → accounted g d1 m1 d2 m2 → accounted g d m d2 m2
| ac_guest d m d1 m1 d2 m2 : confined g m m1 → sound d1 m1 → accounted g d1 m1 d2 m2 → accounted g d m d2 m2.
Lemma confined_trans g m1 m2 m3 : confined g m1 m2 → confined g m2 m3 → confined g m1 m3.
Proof.
  intros H12 H23 p Hne. destruct (decide (m2 !! p = m1 !! p)) as [He | Hd]; [rewrite <- He in *; by apply H23 |].
  destruct (H12 p Hd) as [? | (? & ? & ?)]; [by left |]. destruct (decide (m3 !! p = m2 !! p)) as [-> | Hd']; [by right |].
  destruct (H23 p Hd') as [? | (? & ? & ?)]; [by left | by right].
Qed.
Lemma manifest_unique s m m' : manifest s m → manifest s m' → m = m'.
Proof. intros Hm Hm'. apply map_eq. intros p. specialize (Hm p). specialize (Hm' p). congruence. Qed.
(** Undisturbed, all that changed is within the grant. *)
Lemma accounted_quiet g d m d' m' : (∀ d d', outside_step d d' → d' = d) → sound d m → accounted g d m d' m' → confined g m m'.
Proof.
  intros Hq Hs Ha. induction Ha as [d m | d m d1 m1 d2 m2 Ho Hs1 _ IH | d m d1 m1 d2 m2 Hc Hs1 _ IH]; [by intros p | | by eapply confined_trans, IH].
  apply Hq in Ho as ->. rewrite (manifest_unique _ _ _ (proj1 Hs) (proj1 Hs1)). by apply IH.
Qed.
Lemma evolves_accounted d d' m : outside_sound → evolves d d' → sound d m → ∃ m', sound d' m' ∧ accounted (propose_to scope) d m d' m'.
Proof.
  intros Ho He. revert m. induction He as [d | d d1 d2 Hs _ IH]; intros m Hm; [exists m; split; [done | constructor] |].
  assert (outside_step d d1 → ∃ m', sound d2 m' ∧ accounted (propose_to scope) d m d2 m') as Hout.
  { intros Hx. destruct (Ho d d1 m Hx Hm) as [m1 Hm1]. destruct (IH m1 Hm1) as (m2 & Hm2 & Ha). exists m2. split; [done | by eapply ac_outside]. }
  destruct Hs as [t -> | ck paths Hsome -> | ws acc Hp]; [apply Hout; left; eauto | apply Hout; right; eauto |].
  destruct (propose_sound _ _ _ _ _ _ Hm Hp) as (m1 & Hm1 & H01). destruct (IH m1 Hm1) as (m2 & Hm2 & Ha). exists m2. split; [done | by eapply ac_guest].
Qed.
End evolution.

(** ** How inodes move *)

(** Paths and inodes are numbered one to one, the root keeps its number, and no number is
    given twice. *)
Record inodes_ok (t : Inodes) : Prop := {
  io_inverse : ∀ p i, by_path t !! p = Some i ↔ by_inode t !! i = Some p;
  io_root : by_path t !! [] = Some ROOT_INODE;
  io_next : ∀ i, is_Some (by_inode t !! i) → i < next_inode t;
}.
Lemma inodes_new_ok : inodes_ok Inodes_new.
Proof.
  split; cbn [by_path by_inode next_inode Inodes_new].
  - intros p i. rewrite !lookup_singleton_Some. naive_solver.
  - apply lookup_singleton_eq.
  - intros i [p [<- _]%lookup_singleton_Some]. by vm_compute.
Qed.
Lemma inodes_of_ok p t : inodes_ok t → inodes_ok (inodes_of p t).2.
Proof.
  intros [Hi Hr Hn]. unfold inodes_of. destruct (by_path t !! p) as [i |] eqn:Hp; [done |]. cbn [snd].
  assert (by_inode t !! next_inode t = None) as Hf.
  { destruct (by_inode t !! next_inode t) eqn:Hx; [| done]. specialize (Hn (next_inode t)). rewrite Hx in Hn. specialize (Hn ltac:(done)). lia. }
  split; cbn [by_path by_inode next_inode].
  - intros q j. rewrite !lookup_insert_Some. rewrite <- Hi. split.
    + intros [[<- <-] | [Hpq Hq]]; [by left |]. right. split; [| done]. intros <-. apply Hi in Hq. congruence.
    + intros [[<- <-] | [Hij Hq]]; [by left |]. right. split; [| done]. intros <-. congruence.
  - rewrite lookup_insert_ne; [done |]. intros ->. congruence.
  - intros j [q [[<- _] | [_ Hq]]%lookup_insert_Some]; [lia |]. specialize (Hn j ltac:(by eexists)). lia.
Qed.
Lemma inodes_rename_ok from to t : from ≠ [] → to ≠ [] → inodes_ok t → inodes_ok (inodes_rename from to t).
Proof.
  intros Hf Ht [Hi Hr Hn]. unfold inodes_rename. destruct (by_path t !! from) as [i |] eqn:Hp; [| done].
  assert (∀ j q, (match delete from (by_path t) !! to with Some r => delete r (by_inode t) | None => by_inode t end) !! j = Some q
    ↔ by_path t !! q = Some j ∧ (q = to → from = to)) as Hrest.
  { intros j q. destruct (delete from (by_path t) !! to) as [r |] eqn:Hto.
    - apply lookup_delete_Some in Hto as [Hne Hto]. rewrite lookup_delete_Some, <- Hi. split.
      + intros [Hrj Hq]. split; [done |]. intros ->. congruence.
      + intros [Hq Hqt]. split; [| done]. intros ->. apply Hi in Hq, Hto. assert (q = to) as -> by congruence. by apply Hne, Hqt.
    - rewrite <- Hi. split; [| by intros [? _]]. intros Hq. split; [done |]. intros ->. apply lookup_delete_None in Hto as [? | ?]; congruence. }
  split; cbn [by_path by_inode next_inode].
  - intros q j. rewrite !lookup_insert_Some, lookup_delete_Some, Hrest. split.
    + intros [[<- <-] | [Hq [Hfq Hqj]]]; [by left |]. right. split; [| done]. intros <-. apply Hi in Hqj, Hp. congruence.
    + intros [[<- <-] | [Hij [Hqj Hqt]]]; [by left |]. right.
      assert (from ≠ q) as Hfq by (intros <-; congruence). split; [| done]. intros <-. by apply Hfq, Hqt.
  - rewrite lookup_insert_ne, lookup_delete_ne by done. done.
  - intros j [q [[<- _] | [_ Hq]]%lookup_insert_Some].
    + apply Hn. apply Hi in Hp. by eexists.
    + apply Hrest in Hq as [Hq _]. apply Hn. apply Hi in Hq. by eexists.
Qed.
Lemma inodes_rename_tree_ok from to t : from ≠ [] → to ≠ [] → inodes_ok t → inodes_ok (inodes_rename_tree from to t).
Proof.
  intros Hf Ht Hok. unfold inodes_rename_tree.
  assert (Forall (λ p : path, p ≠ []) (filter (λ p, (from ++ [slash]) `prefix_of` p) (sorted_keys (by_path t)))) as Hall.
  { apply Forall_forall. intros p [[k ->] _]%list_elem_of_filter. by destruct from. }
  revert Hall. generalize (filter (λ p, (from ++ [slash]) `prefix_of` p) (sorted_keys (by_path t))). intros l.
  generalize (inodes_rename_ok from to t Hf Ht Hok). generalize (inodes_rename from to t).
  induction l as [| p l IH]; intros u Hu Hall; cbn [foldl]; [done |]. inversion Hall; subst.
  apply IH; [| done]. apply inodes_rename_ok; [done | | done]. by destruct to.
Qed.

Section numbering.
Context `{Blake3, Differ, Parser, Posix, Gitignore}.
Context (scope : Scope) (options : Options) (env : Env).
Definition keeps_inodes : relation fs := λ s s', inodes_ok (f_inodes s) → inodes_ok (f_inodes s').
#[global] Instance keeps_inodes_moves : Moves scope options env keeps_inodes.
Proof.
  split; [split | ..]; try (intros; by intros ?).
  - split; [by intros s ? | intros s1 s2 s3 H12 H23 ?; by apply H23, H12].
  - intros p s Hok. by apply inodes_of_ok.
  - intros from to s Hf Ht Hok. by apply inodes_rename_tree_ok.
Qed.
End numbering.
