(* ===== verification/StoreShare.v ===== *)
(** * The store behind a guest's share

    [rs/ll-open/storefs/src/share.rs] and [daemon.rs]: [StoreFs] answering the requests of
    [Share], and the scope a workspace grant resolves to.  The theorems follow whole sessions:
    what the guest's bytes can do to the store. *)

From S2P Require Limits.
From S2P Require Import Prelude Share Substrate Text Tree TreeRoot Merge TreeSync Proposal StateM Derived StoreFs StoreFsRuns.
From Stdlib Require Import NArith Lia.
Local Open Scope N_scope.

(** ** Transcribing *)

Definition BLKSIZE : N := 4096.
(** Nanoseconds as a [Duration]. *)
Definition duration (n : N) : Duration := {| d_secs := n / 1000000000; d_nanos := n mod 1000000000 |}.
Definition fopen_bits (bits : list (bool * N)) : N :=
  foldr N.add 0 (snd <$> filter (λ b, b.1 = true) bits).
Definition wire_attr (a : StoreFs.Attr) : Share.Attr := {|
  a_inode := at_inode a; a_mode := Attr_mode a; a_nlink := Attr_nlink a; a_size := at_size a; a_blocks := div_ceil (at_size a) 512;
  a_blksize := BLKSIZE; a_atime := duration (at_mtime a); a_mtime := duration (at_mtime a); a_ctime := duration (at_mtime a) |}.
Definition wire_entry (e : StoreFs.Entry) : Share.Entry := {|
  e_inode := at_inode (en_attr e); e_attr := wire_attr (en_attr e); e_entry_ttl := duration (en_ttl e); e_attr_ttl := duration (en_ttl e) |}.
Definition entry_reply (e : StoreFs.Entry) : Reply := RpEntry (wire_entry e).
Definition wire_dirent (e : StoreFs.DirEntry) : Share.DirEntry := {|
  Share.de_inode := StoreFs.de_inode e; Share.de_offset := StoreFs.de_offset e;
  Share.de_kind := match StoreFs.de_kind e with KFile => DT_REG | KDirectory => DT_DIR | KSymlink => DT_LNK end;
  Share.de_name := StoreFs.de_name e |}.
Definition Attr_default : Share.Attr := {|
  a_inode := 0; a_mode := 0; a_nlink := 0; a_size := 0; a_blocks := 0; a_blksize := 0;
  a_atime := Duration_ZERO; a_mtime := Duration_ZERO; a_ctime := Duration_ZERO |}.

(** ** A run's share

    The daemon once it has started: the stamp its store records, whether reading it fails, and
    its checkout.  A refusal is its code and whether it may be retried. *)
Definition any_of (wanted operations : list Limits.WorkspaceOperation) : bool := existsb (λ o, bool_decide (o ∈ wanted)) operations.
Definition whole_if (granted : bool) : Grant := if granted then Whole else Paths ∅.
Definition scope_for (operations : list Limits.WorkspaceOperation) : Scope := {|
  see := whole_if (any_of [Limits.Read; Limits.List_] operations);
  propose_to := whole_if (any_of [Limits.Mutate; Limits.Commit] operations) |}.
Record DaemonContext := { dc_derived_from : option (list byte); dc_read_fails : bool; dc_checkout : option Checkout }.
Definition DaemonShares_open (fresh : Freshness) (daemon : option DaemonContext) (grant : Limits.WorkspaceGrant)
    : result (Limits.ErrorCode * bool) (Scope * Options) :=
  if negb (Limits.expected_generation grant =? 0) then Err (Limits.IdentityPolicyMismatch, false)
  else
    ctx ← ok_or daemon (Limits.NotProvisioned, true);
    tree_root ← (if dc_read_fails ctx then Err (Limits.Internal, false)
                 else match dc_derived_from ctx with
                      | None => mret None
                      | Some value => map_err (λ _, (Limits.Internal, false)) (d ← from_meta value; mret (Some (df_tree_root d)))
                      end);
    let held := (λ root, ("blake3-256:" +:+ Hash_display root)%string) <$> tree_root in
    if negb (bool_decide (held = Some (Limits.wg_graph_root grant))) then Err (Limits.IdentityPolicyMismatch, false)
    else mret (scope_for (Limits.operations grant), {| freshness := fresh; checkout := dc_checkout ctx; derived := Some DEFAULT_LIMIT |}).

Lemma any_of_two a b l : any_of [a; b] l = true ↔ a ∈ l ∨ b ∈ l.
Proof.
  unfold any_of. rewrite existsb_exists. split.
  - intros (o & Ho%list_elem_of_In & Hin%bool_decide_eq_true_1). set_solver.
  - intros [Hin | Hin]; [exists a | exists b]; (split; [by apply list_elem_of_In |]); apply bool_decide_eq_true_2; set_solver.
Qed.
(** A share opens only on the tree the grant names, with the scope its operations give. *)
Lemma opened_share_is_pinned fresh daemon grant scope options :
  DaemonShares_open fresh daemon grant = Ok (scope, options) →
  ∃ ctx value d, daemon = Some ctx ∧ dc_derived_from ctx = Some value ∧ from_meta value = Ok d ∧
    Limits.wg_graph_root grant = ("blake3-256:" +:+ Hash_display (df_tree_root d))%string ∧ Limits.expected_generation grant = 0 ∧
    (∀ p, Grant_covers (see scope) p = true ↔ Limits.Read ∈ Limits.operations grant ∨ Limits.List_ ∈ Limits.operations grant) ∧
    (∀ p, Grant_covers (propose_to scope) p = true ↔ Limits.Mutate ∈ Limits.operations grant ∨ Limits.Commit ∈ Limits.operations grant).
Proof.
  unfold DaemonShares_open. destruct (N.eqb_spec (Limits.expected_generation grant) 0) as [Hg | Hg]; [| done]. cbn [negb].
  intros (ctx & Hctx & Hr)%bind_ok. destruct daemon as [c |]; [| done]. injection Hctx as ->. apply bind_ok in Hr as (tr & Htr & Hr).
  destruct (dc_read_fails ctx); [done |]. destruct (dc_derived_from ctx) as [value |] eqn:Hv; [| injection Htr as <-; done].
  destruct (from_meta value) as [d | |] eqn:Hd; [| done..]. injection Htr as <-. cbn [fmap option_fmap option_map] in Hr.
  case_bool_decide as Heq; [| done]. injection Heq as Heq. injection Hr as <- <-. exists ctx, value, d. split_and!; try done.
  all: intros p; cbn [see propose_to scope_for]; rewrite <- any_of_two; unfold whole_if.
  all: by destruct (any_of _ _).
Qed.

Section share.
Context `{Blake3, Differ, Parser, Posix, Gitignore}.
Context (scope : Scope) (options : Options) (env : Env).

Definition share_lookup (parent : N) (name : list byte) : FM Reply :=
  r ← attempt (lookup scope options env parent name);
  match r with
  | Ok e => mret (entry_reply e)
  | Err ENOENT =>
      ttl ← negative_ttl scope options env parent name;
      match ttl with
      | 0 => throw ENOENT
      | _ => mret (RpEntry {| e_inode := 0; e_attr := Attr_default; e_entry_ttl := duration ttl; e_attr_ttl := Duration_ZERO |})
      end
  | Err e => throw e
  | Panic => panic
  end.
Definition answer (r : Request) : FM Reply :=
  match r with
  | RqInit => mret (RpInit FUSE_DO_READDIRPLUS)
  | RqLookup parent name => share_lookup parent name
  | RqGetattr inode handle => '(a, ttl) ← getattr scope options env inode handle; mret (RpAttr (wire_attr a) (duration ttl))
  | RqSetattr inode handle size mode uid gid =>
      '(a, ttl) ← setattr scope options env inode handle {| sa_size := size; sa_mode := mode; sa_uid := uid; sa_gid := gid |};
      mret (RpAttr (wire_attr a) (duration ttl))
  | RqMkdir parent name => e ← mkdir scope options env parent name; mret (entry_reply e)
  | RqUnlink parent name => _ ← unlink scope options env parent name; mret RpDone
  | RqRmdir parent name => _ ← rmdir scope options env parent name; mret RpDone
  | RqRename olddir oldname newdir newname flags => _ ← rename scope options env olddir oldname newdir newname flags; mret RpDone
  | RqOpen inode flags =>
      o ← open scope options env inode flags;
      mret (RpOpened (op_handle o) (fopen_bits [(op_keep_cache o, FOPEN_KEEP_CACHE); (op_direct_io o, FOPEN_DIRECT_IO)]))
  | RqCreate parent name flags =>
      '(e, h) ← create scope options env parent name flags;
      mret (RpCreated (wire_entry e) h FOPEN_DIRECT_IO)
  | RqRead handle offset size => data ← read handle offset size; mret (RpData data)
  | RqWrite handle offset data => n ← write options handle offset data; mret (RpWritten (n mod (u32_max + 1)))
  | RqFlush handle => _ ← flush scope options env handle; mret RpDone
  | RqFsync handle => _ ← fsync scope options env handle; mret RpDone
  | RqRelease handle => _ ← release handle; mret RpDone
  | RqOpendir inode =>
      keep ← opendir scope env inode;
      mret (RpOpened 0 (fopen_bits [(true, FOPEN_CACHE_DIR); (keep, FOPEN_KEEP_CACHE)]))
  | RqReaddir inode offset => es ← readdir scope env inode offset; mret (RpDir (wire_dirent <$> es))
  | RqSymlink parent name target => e ← symlink scope options env parent name target; mret (entry_reply e)
  | RqReadlink inode => data ← readlink scope options env inode; mret (RpData data)
  | RqReaddirplus inode offset =>
      es ← readdirplus scope options env inode offset;
      mret (RpDirPlus ((λ x, (wire_dirent x.1, wire_entry x.2)) <$> es))
  end.
(** The adapter as a service: no answer when the request panics. *)
Definition StoreShare_call (r : Request) (s : fs) : option Reply * fs :=
  let '(a, s) := answer r s in
  (match a with Ok p => Some p | Err e => Some (RpError (Errno_value e)) | Panic => None end, s).

Lemma w_share_lookup R `{!Moves scope options env R} i n : within R (share_lookup i n).
Proof. unfold share_lookup. within_tac. Qed.
Lemma w_answer R `{!Moves scope options env R} r : within R (answer r).
Proof.
  destruct r; cbn [answer]; unfold flush, fsync; try by apply w_share_lookup.
  all: within_tac.
Qed.
Lemma call_moves R `{!Moves scope options env R} r s : R s (StoreShare_call r s).2.
Proof. unfold StoreShare_call. pose proof (w_answer R r s) as Hw. by destruct (answer r s). Qed.
End share.

(** ** Sessions *)

Section sessions.
Context `{Capnp, Blake3, Differ, Parser, Posix, Gitignore}.
Context (scope : Scope) (options : Options) (env : Env).
Notation serve_guest := (serve (StoreShare_call scope options env)).

Lemma session_keeps R `{!Moves scope options env R} bytes w s r w' s' : serve_guest bytes w s = Some (r, w', s') → R s s'.
Proof. intros Hs. refine (serve_keeps _ R bytes w s r w' s' _ Hs). intros q st. by apply call_moves. Qed.

(** Whatever bytes a guest sends, its session ends, and the store moved only by what
    other writers did, by bringing the checkout up to it, and by accepted proposals of the
    share's scope; the inodes the guest holds are still a one-to-one numbering of paths. *)
Theorem guest_session_only_proposes (bytes : stream) (w : writer) (s : fs) :
  ∃ r w' s', serve_guest bytes w s = Some (r, w', s') ∧
    evolves scope options env (f_db s) (f_db s') ∧
    (inodes_ok (f_inodes s) → inodes_ok (f_inodes s')).
Proof.
  destruct (serve_ends (StoreShare_call scope options env) bytes w s) as [[[r w'] s'] Hs].
  exists r, w', s'. split; [done |]. split.
  - refine (session_keeps (fs_evolves scope options env) bytes w s r w' s' Hs).
  - refine (session_keeps keeps_inodes bytes w s r w' s' Hs).
Qed.

(** C37: A guest is confined to its scope.  Other writers may write and, where the daemon has a
    source directory, accepted proposals bring the checkout up to the store, as long as both
    leave the store a tree.  Then whatever bytes the guest sends, its session ends and leaves a
    store that is a tree, reached from the first by moves each of which is a write of another
    writer, a reconcile of the checkout, or changes only paths the scope may propose, and
    directories above such a path where no file was or is.  When neither of the first two
    changes anything, that is all that differs in the end. *)
Theorem guest_session_confined (bytes : stream) (w : writer) (s : fs) m :
  outside_sound options env → sound (f_db s) m →
  ∃ r w' s' m', serve (StoreShare_call scope options env) bytes w s = Some (r, w', s') ∧ sound (f_db s') m'
    ∧ accounted options env (propose_to scope) (f_db s) m (f_db s') m'
    ∧ ((∀ d d', outside_step options env d d' → d' = d) → confined (propose_to scope) m m').
Proof.
  intros Ho Hm. destruct (serve_ends (StoreShare_call scope options env) bytes w s) as [[[r w'] s'] Hs].
  pose proof (session_keeps (fs_evolves scope options env) bytes w s r w' s' Hs) as He.
  destruct (evolves_accounted scope options env _ _ m Ho He Hm) as (m' & Hm' & Ha). exists r, w', s', m'.
  do 3 (split; [done |]). intros Hq. by eapply accounted_quiet.
Qed.
End sessions.

Import Quiet.
(** A daemon with a source directory that agrees with the store. *)
Definition mirrored : Options := {|
  freshness := Freshness_default; derived := None;
  checkout := Some {| ck_refuse_aliases := λ _ _, Ok tt; ck_reconcile := λ _ d, d; ck_read := λ _, None |} |}.
Lemma guest_session_confined_witness :
  ∃ r w' s' m', @serve OneByte.capnp fs (StoreShare_call Quiet.narrow mirrored Quiet.env) sample_stream fresh_writer Quiet.start = Some (r, w', s')
    ∧ sound (f_db s') m' ∧ confined (propose_to narrow) demo_manifest m'.
Proof.
  assert (∀ d d', outside_step mirrored Quiet.env d d' → d' = d) as Hq by (intros d d' [[t ->] | (ck & paths & [= <-] & ->)]; reflexivity).
  destruct (@guest_session_confined OneByte.capnp _ _ _ _ _ Quiet.narrow mirrored Quiet.env sample_stream fresh_writer Quiet.start demo_manifest)
    as (r & w' & s' & m' & Hr & Hm' & _ & Hc).
  - intros d d' m ->%Hq Hm. exists m. exact Hm.
  - split; [exact demo_store_manifest | split; [exact demo_store_closed | exact demo_store_blobs]].
  - exists r, w', s', m'. split; [exact Hr | split; [exact Hm' | exact (Hc Hq)]].
Defined.
