(* ===== verification/StoreSave.v ===== *)
(** * Saves

    What FLUSH of [StoreFs] does while no one else writes: the staged bytes land, exactly, or
    the request is refused and nothing changed. *)

From S2P Require Import Prelude Substrate Text Tree Merge TreeSync Proposal StateM Derived StoreFs StoreFsRuns.
From Stdlib Require Import NArith Lia.
Local Open Scope N_scope.

(** ** One write accepted *)

Section one_write.
Context `{Blake3, Differ, Parser}.

(** [m'] is [m] with [e] at [p], but for the missing directories above [p]. *)
Definition placed (p : path) (e : Tree.Entry) (m m' : gmap path Tree.Entry) : Prop :=
  m' !! p = Some e ∧ ∀ q, q ≠ p → m' !! q = m !! q ∨ (m !! q = None ∧ m' !! q = Some EDir ∧ q ∈ parents p).
Definition landed_mode (mode : option Mode) (current : option Tree.Entry) : Mode :=
  match mode, current with Some mode, _ => mode | None, Some (EFile held _) => held | None, _ => Regular end.

Lemma lands_write s cur w c bytes mode : pr_change w = Write bytes mode → lands s cur w c → ∃ bytes', c = Write bytes' mode.
Proof. unfold lands. intros ->. destruct (pr_base w); intros Hl; decompose [and or ex] Hl; subst; by eexists. Qed.

Lemma write_accepted g w bytes mode d acc d' m :
  sound d m → pr_change w = Write bytes mode → propose g [w] d = (Ok acc, d') →
  ∃ bytes' m', lands (db_store d) (m !! pr_path w) w (Write bytes' mode) ∧ sound d' m' ∧ blobs_kept (db_store d) (db_store d')
    ∧ ac_blobs acc = {[pr_path w := blake3 bytes']} ∧ ac_removed acc = ∅ ∧ ac_mkdirs acc = ∅ ∧ ac_rmdirs acc = ∅
    ∧ (∀ q, q ∈ ac_merged acc ↔ q = pr_path w ∧ blake3 bytes' ≠ blake3 bytes)
    ∧ is_Some (blob_bytes (db_store d') (blake3 bytes'))
    ∧ placed (pr_path w) (EFile (landed_mode mode (m !! pr_path w)) (blake3 bytes')) m m'.
Proof.
  intros (Hm & Hc & Hb) Hw (plans & merged & root & parsed & _ & Hd & _ & Hcs & Hpj & Hrun & Hab & Har & Hamk & Harm & Hamg)%propose_ok.
  destruct (commit_plans d m [w] plans merged root parsed Hm Hc Hb Hd Hcs Hpj) as (s' & m' & Hrun' & Hm' & Hc' & Hap & Hb' & Hk & Hblob).
  rewrite Hrun' in Hrun. injection Hrun as _ _ <-. destruct (decided_plans _ _ _ _ _ Hm Hd) as (_ & _ & Hpl).
  apply decide_writes_spec in Hd as (_ & _ & Hmg).
  inversion Hpl as [| ? pl ? ? (Hpp & Hpc & Hl) Hnil]; subst. inversion Hnil; subst.
  destruct (lands_write _ _ _ _ _ _ Hw Hl) as [bytes' Hc1]. rewrite Hc1 in Hl.
  exists bytes', m'. split; [done |]. split; [done |]. split; [done |].
  assert (plans_at [pl] (pr_path w) (Write bytes' mode)) as Hat by (exists pl; split; [by left | done]).
  destruct (Hblob _ _ _ Hat) as [_ Hsome].
  rewrite Hab, Har, Hamk, Harm. unfold batch_of. cbn [foldl]. unfold batch_step. rewrite Hc1, Hpp.
  cbn [bt_blobs bt_removed bt_edits batch_init mkdirs rmdirs no_edits]. do 4 (split; [done |]). split; [| split; [done |]].
  - intros q. rewrite Hmg. cbn [zip zip_with]. unfold is_merged. split.
    + intros (w' & pl' & [= -> ->]%list_elem_of_singleton & Him & ->). rewrite Hc1, Hw in Him. split; [done |].
      apply negb_true_iff, bool_decide_eq_false in Him. done.
    + intros [-> Hne]. exists w, pl. rewrite list_elem_of_singleton, Hc1, Hw. split; [done |]. split; [| done].
      by apply negb_true_iff, bool_decide_eq_false.
  - split.
    + pose proof (ap_plan _ _ _ Hap pl ltac:(by left)) as Hin. rewrite Hc1, Hpp in Hin. rewrite Hin. by destruct mode, (m !! pr_path w) as [[] |].
    + intros q Hq. assert (q ∉ pl_path <$> [pl]) as Hout by (cbn; rewrite list_elem_of_singleton, Hpp; done).
      pose proof (ap_other _ _ _ Hap q Hout) as Ho. pose proof (ap_safe _ _ _ Hap q) as Hs. case_bool_decide as Hcb; [| by left].
      apply Exists_exists in Hcb as (c & ->%list_elem_of_singleton & Hcur & Hpar). rewrite Hpp in Hpar.
      destruct (m !! q) as [[md bl |] |] eqn:Hmq; [| by left | by right].
      exfalso. apply (Hs md bl Hout eq_refl). apply Exists_exists. exists pl. rewrite Hpp. split; [by left | done].
Qed.
End one_write.

(** ** Undisturbed runs *)

Section quiet.
Context `{Blake3, Differ, Parser, Posix, Gitignore}.
Context (scope : Scope) (options : Options) (env : Env).
Context (Hothers : ∀ t d, others env t d = d) (Hfails : ∀ t, store_fails env t = false) (Hck : checkout options = None).

Definition tk (s : fs) : fs := set_tick (S (f_tick s)) s.
Lemma enter_quiet {E} (e : E) s : enter env e s = (Ok tt, tk s).
Proof. unfold enter. rewrite Hothers, Hfails. by destruct s. Qed.
Lemma query_quiet {A} (f : fs → result propose_error A) s : query env f s = (map_err (λ _, EIO) (f (tk s)), tk s).
Proof.
  unfold query, mapM_err, with_read. rewrite (run_bind_Ok _ _ s tt (tk s)) by apply enter_quiet. by unfold reads.
Qed.
Lemma stat_path_ok p s m : sound (f_db s) m → ∃ st, stat_path scope p s = Ok st.
Proof.
  intros (Hm & _). unfold stat_path. destruct p as [| c p]; [by eexists |]. destruct (t_tree (db_store (f_db s)) !! (c :: p)) as [row |] eqn:Hr; [| by eexists].
  destruct (manifest_lookup _ _ _ _ Hm Hr) as (e & He & _). unfold decode in He.
  destruct (N.eqb_spec (tr_mode row) DIRECTORY_MODE) as [Hd | Hd]; [by case_match; eexists |].
  destruct (tr_blob row) as [hash |] eqn:Hh; [| by eexists]. cbn [mbind option_bind].
  destruct (t_blobs (db_store (f_db s)) !! hash) as [bytes |]; [| by eexists]. cbn. destruct (Grant_covers (see scope) (c :: p)); [| by eexists].
  unfold GitMode_from_git in He. rewrite (proj2 (N.eqb_neq _ _) Hd) in He.
  destruct (Mode_from_git (tr_mode row)) as [md |]; [| done]. cbn [fmap option_fmap option_map ok_or] in He. rewrite bind_Ok in He.
  assert (file_mode (GitMode_of md) = Some md) as Hfm by by destruct md. rewrite Hfm in He. cbn [ok_or] in He. rewrite bind_Ok in He.
  unfold blob_hash. destruct (Hash_try_from hash); [by eexists | done].
Qed.
Lemma inodes_landed_ok l : ∀ out s, ∃ is_ t, foldM inode_landed out l s = (Ok is_, set_inodes t s).
Proof.
  induction l as [| p l IH]; intros out s; cbn [foldM].
  - exists out, (f_inodes s). by destruct s.
  - destruct (inodes_of p (f_inodes s)) as [i t] eqn:Hi.
    assert (inode_landed out p s = (Ok (out ++ [i]), set_inodes t s)) as Hone.
    { unfold inode_landed. rewrite (run_bind_Ok _ _ s i (set_inodes t s)); [done |]. unfold inode_of. by rewrite Hi. }
    rewrite (run_bind_Ok _ _ _ _ _ Hone). destruct (IH (out ++ [i]) (set_inodes t s)) as (is_ & t' & ->). by exists is_, t'.
Qed.

(** Every time that was told can still move. *)
Definition timely (s : fs) : Prop := origin env < MAX_DURATION ∧ ∀ p t, sv_times (f_served s) !! p = Some t → t < MAX_DURATION.
Lemma with_parent_nodup p : NoDup (with_parent p).
Proof.
  destruct p as [| c p]; [apply NoDup_singleton |]. unfold with_parent. apply NoDup_cons. split; [| apply NoDup_singleton].
  rewrite list_elem_of_singleton. unfold dir_of. destruct (last (parents (c :: p))) as [d |] eqn:Hl; [| done]. cbn [default].
  intros Hd. apply last_Some_elem_of, elem_of_parents in Hl as [r Hr]. cbn in Hd. rewrite <- Hd in Hr. apply (f_equal length) in Hr. rewrite length_app in Hr. cbn in Hr. lia.
Qed.
Lemma touch_ok time l : ∀ times,
  NoDup l → t_origin time < MAX_DURATION → (∀ p t, times !! p = Some t → p ∈ l → t < MAX_DURATION) →
  ∃ times', fold_result (touch_one time) times l = Ok times'.
Proof.
  induction l as [| p l IH]; intros times Hnd Ho Ht; cbn [fold_result]; [by eexists |]. inversion Hnd as [| ?? Hnin Hnd']; subst.
  assert (touch_one time times p = Ok (<[p := N.max (t_wall time) (default (t_origin time) (times !! p) + 1)]> times)) as ->.
  { unfold touch_one. rewrite (proj2 (N.leb_le _ _)); [done |].
    destruct (times !! p) as [t |] eqn:Hp; cbn; [| lia]. specialize (Ht p t Hp ltac:(by left)). lia. }
  rewrite bind_Ok. apply IH; [done | done |]. intros q t. destruct (decide (p = q)) as [-> | Hne]; [done |].
  rewrite lookup_insert_ne by done. intros Hq Hin. apply (Ht q t Hq). by right.
Qed.
Lemma record_change_ok p n time sv :
  t_origin time < MAX_DURATION → (∀ q t, sv_times sv !! q = Some t → t < MAX_DURATION) → ∃ sv', record_change p n time sv = Ok sv'.
Proof.
  intros Ho Ht. unfold record_change, served_touch. cbn [sv_times]. destruct (touch_ok time (with_parent p) (sv_times sv)) as [times ->];
    [apply with_parent_nodup | done | by eauto |]. by eexists.
Qed.

(** What serving leaves alone. *)
Definition keeps (s s' : fs) : Prop := f_db s' = f_db s ∧ f_opens s' = f_opens s ∧ f_session s' = f_session s.
Lemma keeps_serves : Serves env keeps.
Proof.
  split; try done.
  - split; [done |]. intros s1 s2 s3 (? & ? & ?) (? & ? & ?). repeat split; congruence.
  - intros t s. rewrite Hothers. by destruct s.
Qed.
Lemma sorted_keys_singleton {A} (p : path) (a : A) : sorted_keys ({[p := a]} : gmap path A) = [p].
Proof. unfold sorted_keys. rewrite map_to_list_singleton. done. Qed.
Lemma after_landing_ok p b acc s m :
  sound (f_db s) m → timely s → ac_blobs acc = {[p := b]} → ac_removed acc = ∅ → ac_mkdirs acc = ∅ → ac_rmdirs acc = ∅ →
  ∃ s', after_landing scope env acc s = (Ok tt, s') ∧ keeps s s'.
Proof.
  intros Hs [Ho Ht] Hb Hr Hmk Hrm. pose proof keeps_serves.
  assert (within keeps (after_landing scope env acc)) as Hw by (apply w_after_landing; done). specialize (Hw s).
  assert (∃ s', after_landing scope env acc s = (Ok tt, s')) as [s' Hrun]; [| exists s'; rewrite Hrun in Hw; done]. clear Hw.
  unfold after_landing. rewrite Hb, Hr, Hmk, Hrm. clear Hb Hr Hmk Hrm. rewrite sorted_keys_singleton.
  set (cond := existsb _ _ || existsb _ _). set (s1 := if cond then set_ignores ∅ s else s).
  rewrite (run_bind_Ok _ _ s tt s1) by (by unfold s1; destruct cond).
  rewrite (run_bind_Ok _ _ s1 tt (add_publish s1)) by done. set (s2 := add_publish s1).
  rewrite (run_bind_Ok _ _ s2 (now env (f_tick s2)) (tk s2)) by done. set (s3 := tk s2).
  rewrite (run_bind_Ok _ _ s3 {| t_wall := wall env (f_tick s3); t_origin := origin env |} (tk s3)) by done. set (s4 := tk s3).
  assert (f_db s4 = f_db s ∧ f_served s4 = f_served s) as [Hd4 Hv4] by (unfold s4, s3, s2, s1; by destruct cond). 
  destruct (stat_path_ok p (tk s4) m) as [st Hst]; [by rewrite <- Hd4 in Hs |].
  rewrite (run_bind_Ok _ _ s4 [(p, seen_of st)] (tk s4)).
  2: { cbn [foldM]. rewrite (run_bind_Ok _ _ s4 [(p, seen_of st)] (tk s4)); [done |]. unfold stat_landed.
       rewrite (run_bind_Ok _ _ s4 st (tk s4)); [done |]. rewrite query_quiet. by rewrite Hst. }
  destruct (inodes_landed_ok (sorted_set (ac_merged acc)) [] (tk s4)) as (is_ & t & Hi). rewrite (run_bind_Ok _ _ _ _ _ Hi).
  unfold served_update. cbv zeta. rewrite (run_bind_Ok _ _ (set_inodes t (tk s4)) (f_served s) (set_inodes t (tk s4))) by (unfold gets; cbn; by rewrite <- Hv4).
  assert (sorted_set ∅ = []) as -> by (unfold sorted_set; by rewrite elements_empty). cbn [fmap list_fmap app fold_result].
  unfold serve_landed. destruct (record_change_ok p (now env (f_tick s2)) {| t_wall := wall env (f_tick s3); t_origin := origin env |}
    (put_seen p (seen_of st) (f_served s))) as [sv Hsv]; [done | done |].
  cbn [fst snd]. rewrite Hsv, !bind_Ok. by eexists.
Qed.

Lemma write_section_quiet pre ws s : write_section scope options env pre ws s =
  match pre (f_db s) with
  | Ok _ => let '(r, d) := propose (propose_to scope) ws (f_db s) in (map_err SPropose r, set_db d (tk s))
  | Err e => (Err e, tk s)
  | Panic => (Panic, tk s)
  end.
Proof.
  unfold write_section. rewrite (run_bind_Ok _ _ s tt (tk s)) by apply enter_quiet. rewrite Hck.
  destruct (pre (f_db s)) as [[] | e |] eqn:Hpre.
  - rewrite (run_bind_Ok _ _ (tk s) tt (tk s)) by (unfold reads; by rewrite <- Hpre).
    rewrite (run_bind_Ok _ _ (tk s) tt (tk s)) by done.
    unfold mbind, M_bind, propose_write, reconcile_with. change (f_db (tk s)) with (f_db s).
    by destruct (propose (propose_to scope) ws (f_db s)) as [[acc | |] d].
  - apply run_bind_Err. unfold reads. by rewrite <- Hpre.
  - unfold mbind, M_bind, reads. change (f_db (tk s)) with (f_db s). by rewrite Hpre.
Qed.
Lemma propose_refused g ws d r d' : propose g ws d = (r, d') → is_ok r = false → d' = d.
Proof. unfold propose. destruct (_ ← granted g ws; propose_checked ws d) as [[]| |]; intros [= <- <-] Hr; done. Qed.

(** A write proposed alone, undisturbed: refused with the store as it was, or landed. *)
Lemma propose_after_quiet pre w bytes mode s m :
  sound (f_db s) m → timely s → pr_change w = Write bytes mode → pre (f_db s) ≠ Panic →
  (∃ e s', propose_after scope options env pre [w] s = (Err e, s') ∧ keeps s s') ∨
  (∃ acc d' s', propose_after scope options env pre [w] s = (Ok acc, s') ∧ pre (f_db s) = Ok tt ∧
     propose (propose_to scope) [w] (f_db s) = (Ok acc, d') ∧ keeps (set_db d' s) s').
Proof.
  intros Hs Ht Hw Hnp. unfold propose_after. pose proof (write_section_quiet pre [w] s) as Hws.
  destruct (pre (f_db s)) as [[] | e |] eqn:Hpre; [| | done].
  2: { left. exists (errno_for e), (tk s). split; [| done]. apply run_bind_Err. unfold mapM_err. by rewrite Hws. }
  pose proof Hs as (Hm & Hc & Hb). pose proof (propose_no_panic (propose_to scope) [w] (f_db s) m Hm Hc Hb) as Hpn.
  destruct (propose (propose_to scope) [w] (f_db s)) as [r d'] eqn:Hp. destruct r as [acc | e |]; [| | done].
  - right. destruct (write_accepted _ _ _ _ _ _ _ m Hs Hw Hp) as (bytes' & m' & _ & Hs' & _ & Hab & Har & Hamk & Harm & _).
    destruct (after_landing_ok (pr_path w) (blake3 bytes') acc (set_db d' (tk s)) m') as (s' & Hal & Hk); [done | done | done..|].
    exists acc, d', s'. split; [| done]. rewrite (run_bind_Ok _ _ s acc (set_db d' (tk s))) by (unfold mapM_err; by rewrite Hws).
    by rewrite (run_bind_Ok _ _ _ _ _ Hal).
  - left. exists (errno_for (SPropose e)), (set_db d' (tk s)). split; [apply run_bind_Err; unfold mapM_err; by rewrite Hws |].
    by apply propose_refused in Hp as ->.
Qed.

Lemma agree_no_panic d p base earlier bytes m : sound d m → agree d p base earlier bytes ≠ Panic.
Proof.
  intros (Hm & _). unfold agree. destruct base as [| b |]; [done | | done]. destruct (reads_is_empty earlier); [done |].
  assert (∃ o, blob_of d p = Ok o) as [o ->] by (unfold blob_of; rewrite (entry_of_tree _ _ _ Hm); by eexists).
  cbn [map_err]. rewrite bind_Ok. destruct o as [[h cur] |]; [| done]. destruct (rd_complete earlier); [| done]. cbn [ensure]. rewrite bind_Ok.
  apply fold_no_panic. intros [] read. unfold agree_one. destruct (blob_bytes _ read); [| done]. cbn [ok_or]. rewrite bind_Ok.
  by repeat case_match.
Qed.
Lemma write_of_change p base bytes mode : pr_change (write_of p base bytes mode) = Write bytes mode ∧ pr_path (write_of p base bytes mode) = p
  ∧ pr_base (write_of p base bytes mode) = base.
Proof. by destruct mode. Qed.
(** The mode a save lands: a file not landed yet takes the one its name was given. *)
Definition save_mode (p : path) (base : Base) (mode : option Mode) (s : fs) : option Mode :=
  match base, mode with Absent, None => pending_modes (f_session s) !! p | _, _ => mode end.

(** What a save that landed did to the store. *)
Record saved (p : path) (base : Base) (bytes : list byte) (mode : option Mode) (s : fs) (m : gmap path Tree.Entry) (s' : fs)
    (bytes' : list byte) (m' : gmap path Tree.Entry) : Prop := {
  sv_sound : sound (f_db s') m';
  sv_lands : lands (db_store (f_db s)) (m !! p) (write_of p base bytes (save_mode p base mode s)) (Write bytes' (save_mode p base mode s));
  sv_placed : placed p (EFile (landed_mode (save_mode p base mode s) (m !! p)) (blake3 bytes')) m m';
  sv_readable : ∃ b, blob_bytes (db_store (f_db s')) (blake3 bytes') = Some b ∧ blake3 b = blake3 bytes';
  sv_pending : pending (f_session s') !! p = None;
}.
(** The part of [land] after the session took the bytes. *)
Definition land_proposed (p : path) (base : Base) (earlier : Reads) (bytes : list byte) (mode : option Mode) : FM (Base * option (list byte)) :=
  acc ← propose_after scope options env (λ d, agree d p base earlier bytes) [write_of p base bytes mode];
  _ ← session_modify (session_drop p);
  l ← lift (landed acc p);
  merged ← match l with
           | Blob blob =>
               if bool_decide (p ∈ ac_merged acc) then
                 bytes ← query env (λ s, mret (blob_bytes (db_store (f_db s)) blob));
                 bytes ← lift (ok_or bytes EIO);
                 mret (Some bytes)
               else mret None
           | _ => mret None
           end;
  mret (l, merged).
Lemma land_step p base earlier bytes mode s : (base = Absent → is_Some (pending (f_session s) !! p)) →
  ∃ x, land scope options env p base earlier bytes mode s = land_proposed p base earlier bytes (save_mode p base mode s) (set_session x s).
Proof.
  intros Hpend. unfold land. destruct base as [| b |]; [exists (f_session s); by destruct s | exists (f_session s); by destruct s |].
  destruct (Hpend eq_refl) as [old Hold].
  set (x := {| pending := <[p := bytes]> (pending (f_session s)); pending_modes := pending_modes (f_session s) |}). exists x.
  rewrite (run_bind_Ok _ _ s (Some (save_mode p Absent mode s)) (set_session x s)); [done |].
  rewrite (run_bind_Ok _ _ s (Some old) s) by (unfold gets; by rewrite Hold).
  unfold save_mode. rewrite (run_bind_Ok _ _ s tt (set_session x s)) by done. cbn. by destruct mode.
Qed.
Lemma land_quiet p base earlier bytes mode s m :
  sound (f_db s) m → timely s → (base = Absent → is_Some (pending (f_session s) !! p)) →
  (∃ e s', land scope options env p base earlier bytes mode s = (Err e, s') ∧ f_db s' = f_db s ∧ f_opens s' = f_opens s) ∨
  (∃ merged s' bytes' m', land scope options env p base earlier bytes mode s = (Ok (Blob (blake3 bytes'), merged), s') ∧ f_opens s' = f_opens s
     ∧ agree (f_db s) p base earlier bytes = Ok tt
     ∧ saved p base bytes mode s m s' bytes' m' ∧ blake3 (default bytes merged) = blake3 bytes').
Proof.
  intros Hs Ht Hpend. destruct (land_step p base earlier bytes mode s Hpend) as [x ->]. unfold land_proposed.
  set (mode' := save_mode p base mode s). destruct (write_of_change p base bytes mode') as (Hwc & Hwp & _).
  destruct (propose_after_quiet (λ d, agree d p base earlier bytes) (write_of p base bytes mode') bytes mode' (set_session x s) m)
    as [(e & s' & He & Hd & Ho & _) | (acc & d' & s1 & He & Hag & Hp & Hd & Ho & Hse)]; [done | done | done | by eapply agree_no_panic | |].
  - left. exists e, s'. rewrite (run_bind_Err _ _ _ _ _ He). done.
  - right. destruct (write_accepted _ _ _ _ _ _ _ m Hs Hwc Hp) as (bytes' & m' & Hl & Hs' & _ & Hab & _ & _ & _ & Hmg & [b Hb] & Hpl).
    change (f_db s1 = d') in Hd. rewrite Hwp in Hl, Hab, Hmg, Hpl. pose proof Hs' as (_ & _ & Hbo). pose proof (Hbo _ _ Hb) as Hbb.
    apply as_bytes_inj in Hbb. rewrite (run_bind_Ok _ _ _ _ _ He).
    set (s2 := set_session (session_drop p (f_session s1)) s1). rewrite (run_bind_Ok _ _ s1 tt s2) by done.
    rewrite (run_bind_Ok _ _ s2 (Blob (blake3 bytes')) s2).
    2: { unfold lift, landed. rewrite Hab, lookup_singleton_eq. done. }
    assert (∀ s3, f_db s3 = f_db s1 → f_session s3 = session_drop p (f_session s1) → saved p base bytes mode s m s3 bytes' m') as Hsaved.
    { intros s3 Hd3 Hse3. split; [by rewrite Hd3, Hd | done | done | rewrite Hd3, Hd; by exists b | rewrite Hse3; cbn; apply lookup_delete_eq]. }
    destruct (bool_decide (p ∈ ac_merged acc)) eqn:Hin.
    + rewrite (run_bind_Ok _ _ s2 (Some b) (tk s2)).
      2: { rewrite (run_bind_Ok _ _ s2 (Some b) (tk s2)); [done |]. rewrite query_quiet. cbn. change (f_db (tk s2)) with (f_db s1). by rewrite Hd, Hb. }
      exists (Some b), (tk s2), bytes', m'. split_and!; [done | done | done | by apply Hsaved | done].
    + rewrite (run_bind_Ok _ _ s2 None s2) by done. exists None, s2, bytes', m'. split_and!; [done | done | done | by apply Hsaved |]. cbn.
      apply bool_decide_eq_false in Hin. rewrite Hmg in Hin. destruct (decide (blake3 bytes' = blake3 bytes)); [done | naive_solver].
Qed.

(** FLUSH lands or refuses.  While no one else writes, flushing a handle with staged
    bytes either answers an error and leaves the store and every handle as they were, or
    lands: against its base the file takes the staged bytes, or their clean merge with what
    the store held; every other path keeps its entry but for missing directories above the
    file; and the handle is clean, its base the blob that landed, and serves that blob's
    bytes. *)
Theorem flush_lands_or_refuses h x s m :
  scratch_handles (f_opens s) !! h = None → handles (f_opens s) !! h = Some x → hd_dirty x = true →
  (hd_base x = Absent → is_Some (pending (f_session s) !! hd_path x)) → sound (f_db s) m → timely s →
  (∃ e s', flush scope options env h s = (Err e, s') ∧ f_db s' = f_db s ∧ f_opens s' = f_opens s) ∨
  (∃ s' x' bytes m', flush scope options env h s = (Ok tt, s') ∧ saved (hd_path x) (hd_base x) (hd_bytes x) (hd_mode x) s m s' bytes m'
     ∧ handles (f_opens s') = <[h := x']> (handles (f_opens s)) ∧ hd_path x' = hd_path x
     ∧ hd_dirty x' = false ∧ hd_base x' = Blob (blake3 bytes) ∧ blake3 (hd_bytes x') = blake3 bytes).
Proof.
  intros Hsh Hx Hd Hpend Hs Ht. unfold flush, commit. rewrite (run_bind_Ok _ _ s None s) by (unfold scratch_handle, gets; by rewrite Hsh).
  assert (get_handle h s = (Ok x, s)) as Hg.
  { unfold get_handle. rewrite (run_bind_Ok _ _ s (Some x) s) by (unfold gets; by rewrite Hx). done. }
  rewrite (run_bind_Ok _ _ _ _ _ Hg). rewrite Hd. cbn [negb].
  destruct (land_quiet (hd_path x) (hd_base x) (hd_earlier x) (hd_bytes x) (hd_mode x) s m Hs Ht Hpend)
    as [(e & s' & He & Hdb & Ho) | (merged & s' & bytes & m' & He & Ho & _ & [] & Hb)].
  - left. exists e, s'. rewrite (run_bind_Err _ _ _ _ _ He). done.
  - right. rewrite (run_bind_Ok _ _ _ _ _ He). eexists _, _, bytes, m'. split; [reflexivity |]. split; [done |].
    split; [cbn; by rewrite Ho |]. split; [done |]. split; [done |]. split; [done |]. exact Hb.
Qed.
End quiet.

(** A file opened for writing, written and flushed. *)
Module FlushSample.
Import Quiet.
Definition file : path := [x61; x2f; x78].
Definition session : FM N :=
  a ← lookup everything options env ROOT_INODE [x61];
  e ← lookup everything options env (at_inode (en_attr a)) [x78];
  o ← open everything options env (at_inode (en_attr e)) 1;
  _ ← write options (op_handle o) 1 [x09; x0a];
  mret (op_handle o).
Definition s : fs := (session start).2.
Definition handle : Handle := {|
  hd_path := file; hd_base := Blob (vreplicate 32 x07); hd_earlier := Reads_new; hd_bytes := [x07; x09; x0a]; hd_mode := None;
  hd_dirty := true; hd_writable := true |}.
Lemma timely_s : timely env s.
Proof. split; [by vm_compute |]. intros p t Hp. assert (bool_decide (sv_times (f_served s) = ∅) = true) as Hn by (vm_compute; reflexivity).
  apply bool_decide_eq_true_1 in Hn. rewrite Hn, lookup_empty in Hp. discriminate Hp. Qed.
Lemma sound_s : sound (f_db s) demo_manifest.
Proof. split; [exact demo_store_manifest | split; [exact demo_store_closed | exact demo_store_blobs]]. Qed.
End FlushSample.
Import Quiet.
Lemma flush_lands_or_refuses_witness : ∃ s' x', flush everything options env 1 FlushSample.s = (Ok tt, s') ∧
  handles (f_opens s') !! 1 = Some x' ∧ hd_dirty x' = false.
Proof.
  destruct (flush_lands_or_refuses everything options env (λ _ _, eq_refl) (λ _, eq_refl) eq_refl 1 FlushSample.handle FlushSample.s demo_manifest)
    as [(e & s' & He & _) | (s' & x' & bytes & m' & He & _ & Hh & _ & Hd & _)].
  - vm_compute. reflexivity.
  - vm_compute. reflexivity.
  - reflexivity.
  - discriminate.
  - exact FlushSample.sound_s.
  - exact FlushSample.timely_s.
  - exfalso. assert ((flush everything options env 1 FlushSample.s).1 = Ok tt) as Hr by (vm_compute; reflexivity). by rewrite He in Hr.
  - exists s', x'. split; [exact He |]. split; [| exact Hd]. rewrite Hh. apply lookup_insert_eq.
Defined.
