(* ===== verification/StoreView.v ===== *)
(** * What the guest is shown

    Which paths [StoreFs] lets the guest see, what a handle serves while it is written, and
    which reads a reread handle remembers. *)

From S2P Require Import Prelude Substrate Text Tree Merge TreeSync Proposal StateM Derived StoreFs StoreFsRuns StoreSave.
From Stdlib Require Import NArith Lia.
Local Open Scope N_scope.

(** ** Which paths exist for the guest *)

(** A fold that inserts at some elements leaves a map that is not empty when there is one. *)
Lemma foldl_inserts {X V} (f : gmap path V → X → gmap path V) (inserts : X → bool) l :
  (∀ m x, inserts x = false → f m x = m) → (∀ m x, inserts x = true → f m x ≠ ∅) →
  ∀ m, foldl f m l ≠ ∅ ↔ (m ≠ ∅ ∨ ∃ x, x ∈ l ∧ inserts x = true).
Proof.
  intros Hf Ht. induction l as [| x l IH]; intros m; cbn [foldl]; [set_solver |]. rewrite IH. destruct (inserts x) eqn:Hx.
  - split; [| intros _; left; by apply Ht]. intros _. right. exists x. split; [by left | done].
  - rewrite Hf by done. split; (intros [? | (y & Hy & Hi)]; [by left | right; exists y; split; [| done]]); [by right |].
    apply elem_of_cons in Hy as [-> | Hy]; [congruence | done].
Qed.
Lemma insert_nonempty {V} (m : gmap path V) k v : <[k := v]> m ≠ ∅.
Proof. intros He. apply (f_equal (λ m, m !! k)) in He. by rewrite lookup_insert_eq, lookup_empty in He. Qed.

Section view.
Context `{Blake3, Differ, Parser, Posix, Gitignore}.
Context (scope : Scope).

(** Something the guest may see is below the directory [dir]. *)
Definition shows_below (s : fs) (m : gmap path Tree.Entry) (dir : path) : Prop :=
  (∃ q mode blob, join dir [] `prefix_of` q ∧ m !! q = Some (EFile mode blob) ∧ Grant_covers (see scope) q = true) ∨
  (∃ q, join dir [] `prefix_of` q ∧ is_Some (pending (f_session s) !! q)).
(** What the store shows the guest at [p]. *)
Definition store_shows (s : fs) (m : gmap path Tree.Entry) (p : path) : option Stat :=
  match m !! p with
  | Some EDir => Some dir_stat
  | Some (EFile mode blob) => (λ bytes, {| s_kind := if bool_decide (mode = Symlink) then KSymlink else KFile; s_size := len bytes;
                                           s_blob := Some blob; s_mode := Some mode |}) <$> blob_bytes (db_store (f_db s)) blob
  | None => None
  end.

(** The row behind an entry. *)
Lemma dir_row_of s m p row : manifest s m → t_tree s !! p = Some row → m !! p = Some EDir ↔ tr_mode row = DIRECTORY_MODE.
Proof.
  intros Hm Hr. destruct (manifest_lookup _ _ _ _ Hm Hr) as (e & He & ->). unfold decode, GitMode_from_git in He.
  destruct (N.eqb_spec (tr_mode row) DIRECTORY_MODE) as [Hd | Hd].
  - cbn [ok_or] in He. rewrite bind_Ok in He. cbn in He. by injection He as <-.
  - destruct (Mode_from_git (tr_mode row)) as [md |]; [| done]. cbn [fmap option_fmap option_map ok_or] in He. rewrite bind_Ok in He.
    assert (file_mode (GitMode_of md) = Some md) as Hfm by by destruct md. rewrite Hfm in He.
    apply bind_ok in He as (? & _ & He). apply bind_ok in He as (? & _ & [= <-]). done.
Qed.
Lemma file_row_of s m p row mode blob : manifest s m → t_tree s !! p = Some row → m !! p = Some (EFile mode blob) →
  Mode_from_git (tr_mode row) = Some mode ∧ ∃ hash, tr_blob row = Some hash ∧ Hash_try_from hash = Some blob.
Proof.
  intros Hm Hr Hp. destruct (manifest_lookup _ _ _ _ Hm Hr) as (e & He & Hp'). rewrite Hp in Hp'. injection Hp' as <-. unfold decode, GitMode_from_git in He.
  destruct (tr_mode row =? DIRECTORY_MODE); [done |]. destruct (Mode_from_git (tr_mode row)) as [md |]; [| done].
  cbn [fmap option_fmap option_map ok_or] in He. rewrite bind_Ok in He.
  assert (file_mode (GitMode_of md) = Some md) as Hfm by by destruct md. rewrite Hfm in He.
  apply bind_ok in He as (hash & Hh & He). apply bind_ok in He as (bl & Hb & [= <- <-]). split; [done |].
  destruct (tr_blob row) as [h |]; [| done]. injection Hh as ->. exists hash. split; [done |]. by destruct (Hash_try_from hash); [injection Hb as -> |].
Qed.

Lemma children_shown s m dir : sound (f_db s) m → see scope ≠ Whole → children scope dir s ≠ ∅ ↔ shows_below s m dir.
Proof.
  intros (Hm & _ & _) Hw. unfold children. assert (is_whole_grant (see scope) = false) as -> by by destruct (see scope).
  rewrite (foldl_inserts _ (λ _, true)); [| done |].
  2: { intros o p _. unfold pending_child. destruct (parents _); apply insert_nonempty. }
  rewrite (foldl_inserts _ (λ x, negb (tr_mode x.2 =? DIRECTORY_MODE) && Grant_covers (see scope) x.1)).
  2: { intros o [p row] Hx. cbn [fst snd] in *. unfold child_of. destruct (tr_mode row =? DIRECTORY_MODE), (Grant_covers (see scope) p); cbn in *; try done; by destruct (parents _). }
  2: { intros o [p row] Hx. cbn [fst snd] in *. unfold child_of. apply andb_true_iff in Hx as [Hd%negb_true_iff Hc]. rewrite Hd, Hc. cbn.
       destruct (parents _); apply insert_nonempty. }
  unfold shows_below. split.
  - intros [[? | ([q row] & [Hq Hin]%list_elem_of_filter & Hx)] | (q & [Hq Hin]%list_elem_of_filter & _)]; [done | left | right].
    + cbn [fst snd] in *. apply andb_true_iff in Hx as [Hd%negb_true_iff%N.eqb_neq Hc]. apply elem_of_sorted_pairs in Hin.
      destruct (m !! q) as [[mode blob |] |] eqn:Hmq; [by exists q, mode, blob | by apply (dir_row_of _ _ _ _ Hm Hin) in Hmq |].
      destruct (proj1 (manifest_dom _ _ q Hm) ltac:(by eexists)) as [e He]. congruence.
    + exists q. split; [done |]. by apply elem_of_sorted_keys.
  - intros [(q & mode & blob & Hq & Hmq & Hc) | (q & Hq & Hpq)].
    + left. right. destruct (proj2 (manifest_dom _ _ q Hm) ltac:(by eexists)) as [row Hrow]. exists (q, row). split.
      * apply list_elem_of_filter. split; [done |]. by apply elem_of_sorted_pairs.
      * cbn [fst snd]. rewrite Hc, andb_true_r. apply negb_true_iff, N.eqb_neq. intros Hd%(dir_row_of _ _ _ _ Hm Hrow). congruence.
    + right. exists q. split; [| done]. apply list_elem_of_filter. split; [done |]. by apply elem_of_sorted_keys.
Qed.

(** The store's entry at [p] is in the guest's sight. *)
Definition in_sight (s : fs) (m : gmap path Tree.Entry) (p : path) : Prop :=
  match m !! p with
  | Some EDir => see scope = Whole ∨ shows_below s m p
  | Some (EFile _ blob) => Grant_covers (see scope) p = true ∧ is_Some (blob_bytes (db_store (f_db s)) blob)
  | None => False
  end.
Lemma whole_or_shown s m p : sound (f_db s) m →
  is_whole_grant (see scope) || negb (bool_decide (children scope p s = ∅)) = true ↔ see scope = Whole ∨ shows_below s m p.
Proof.
  intros Hs. destruct (is_whole_grant (see scope)) eqn:Hw; cbn [orb].
  - split; [intros _; left; by destruct (see scope) | done].
  - assert (see scope ≠ Whole) as Hn by by destruct (see scope). rewrite negb_true_iff, bool_decide_eq_false, (children_shown s m p Hs Hn). naive_solver.
Qed.

(** The guest sees its scope.  What a path is for the guest is decided: the root is a
    directory; a file or symbolic link of the store whose path the scope sees, with its kind,
    mode, blob and the length of its bytes; a directory of the store with the whole tree in
    sight or with something in sight below it; and otherwise only a file this session
    created. *)
Theorem guest_sees_its_scope p s m :
  sound (f_db s) m →
  (p = [] → stat_path scope p s = Ok (Some dir_stat)) ∧
  (p ≠ [] → in_sight s m p → stat_path scope p s = Ok (store_shows s m p) ∧ is_Some (store_shows s m p)) ∧
  (p ≠ [] → ¬ in_sight s m p → stat_path scope p s = Ok (pending_stat p s)).
Proof.
  intros Hs. pose proof Hs as (Hm & _). destruct p as [| c p0]; [done |]. set (p := c :: p0). split; [done |].
  assert (stat_path scope p s = match t_tree (db_store (f_db s)) !! p with
      | Some row =>
          if tr_mode row =? DIRECTORY_MODE then
            if is_whole_grant (see scope) || negb (bool_decide (children scope p s = ∅)) then mret (Some dir_stat) else mret (pending_stat p s)
          else
            match tr_blob row ≫= λ hash, pair hash <$> t_blobs (db_store (f_db s)) !! hash with
            | Some (hash, bytes) =>
                if Grant_covers (see scope) p then
                  let mode := default Regular (Mode_from_git (tr_mode row)) in
                  h ← blob_hash p hash;
                  mret (Some {| s_kind := if bool_decide (mode = Symlink) then KSymlink else KFile; s_size := len bytes;
                                s_blob := Some h; s_mode := Some mode |})
                else mret (pending_stat p s)
            | None => mret (pending_stat p s)
            end
      | None => mret (pending_stat p s)
      end) as -> by done.
  clearbody p. unfold in_sight, store_shows. pose proof (manifest_dom _ _ p Hm) as Hdom.
  destruct (t_tree (db_store (f_db s)) !! p) as [row |] eqn:Hr.
  2: { destruct (m !! p); [by destruct (proj2 Hdom ltac:(by eexists)) |]. done. }
  pose proof (dir_row_of _ _ _ _ Hm Hr) as Hdir. destruct (m !! p) as [[mode blob |] |] eqn:Hp; [| | by destruct (proj1 Hdom ltac:(by eexists))].
  - destruct (file_row_of _ _ _ _ _ _ Hm Hr Hp) as (Hmode & hash & Hh & Hb). rewrite (proj2 (N.eqb_neq _ _)) by (intros Hd%Hdir; done).
    rewrite Hh, Hmode. cbn [mbind option_bind default]. unfold blob_bytes. rewrite (Hash_try_from_Some _ _ Hb).
    destruct (t_blobs (db_store (f_db s)) !! hash) as [bytes |].
    + cbn [fmap option_fmap option_map]. unfold blob_hash. rewrite Hb. cbn [ok_or]. destruct (Grant_covers (see scope) p).
      * split; [done |]. intros _ Hn. exfalso. apply Hn. done.
      * split; [by intros _ [? _] | done].
    + cbn. split; [by intros _ [_ [? ?]] | done].
  - rewrite (proj2 (N.eqb_eq _ _)) by (by apply Hdir). pose proof (whole_or_shown s m p Hs) as Hw.
    destruct (is_whole_grant (see scope) || negb (bool_decide (children scope p s = ∅))); split; intros _ Hin.
    + done.
    + exfalso. by apply Hin, Hw.
    + apply Hw in Hin. done.
    + done.
Qed.
End view.

(** ** What a handle serves while it is written *)

(** A file as POSIX has it: a size and the byte at each offset below it. *)
Record rfile := { rf_size : N; rf_at : N → byte }.
Definition rf_of (bytes : list byte) : rfile := {| rf_size := len bytes; rf_at := λ i, default x00 (bytes !! N.to_nat i) |}.
(** Writing past the end leaves zeros in between. *)
Definition rf_write (f : rfile) (w : N * list byte) : rfile := {|
  rf_size := N.max (rf_size f) (w.1 + len w.2);
  rf_at := λ i, if (w.1 <=? i) && (i <? w.1 + len w.2) then default x00 (w.2 !! N.to_nat (i - w.1))
                else if i <? rf_size f then rf_at f i else x00 |}.
Definition rf_range (f : rfile) (lo hi : N) : list byte := (λ i, rf_at f (lo + N.of_nat i)) <$> seq 0 (N.to_nat (hi - lo)).
Definition rf_read (f : rfile) (offset n : N) : list byte :=
  let start := N.min offset (rf_size f) in
  rf_range f start (start + N.min n (rf_size f - start)).
Definition represents (bytes : list byte) (f : rfile) : Prop :=
  len bytes = rf_size f ∧ ∀ i, i < rf_size f → bytes !! N.to_nat i = Some (rf_at f i).

Lemma represents_of bytes : represents bytes (rf_of bytes).
Proof.
  split; [done |]. cbn. intros i Hi. destruct (lookup_lt_is_Some_2 bytes (N.to_nat i)) as [b Hb]; [unfold len in Hi; lia |]. by rewrite Hb.
Qed.
Lemma resize_lookup n bytes i : i < n → resize n bytes !! N.to_nat i = Some (default x00 (bytes !! N.to_nat i)).
Proof.
  intros Hi. unfold resize, takeN. destruct (decide (i < len bytes)) as [Hlt | Hge].
  - rewrite lookup_app_l by (rewrite length_take; unfold len in Hlt; lia). rewrite lookup_take_lt by lia.
    destruct (lookup_lt_is_Some_2 bytes (N.to_nat i)) as [b ->]; [unfold len in Hlt; lia | done].
  - rewrite (lookup_ge_None_2 bytes) by (unfold len in Hge; lia). rewrite lookup_app_r by (rewrite length_take; unfold len in Hge; lia).
    rewrite length_take, lookup_replicate_2; [done |]. unfold len in *. lia.
Qed.
Lemma len_resize n bytes : len (resize n bytes) = n.
Proof. unfold resize. rewrite len_app, len_takeN. unfold len. rewrite length_replicate. lia. Qed.
Lemma splice_at_represents bytes f w : represents bytes f → rf_size f ≤ MAX_VEC → w.1 + len w.2 ≤ MAX_VEC →
  ∃ bytes', splice_at bytes w.1 w.2 = Ok bytes' ∧ represents bytes' (rf_write f w) ∧ rf_size (rf_write f w) ≤ MAX_VEC.
Proof.
  intros [Hl Hat] Hm Hw. unfold splice_at. assert (MAX_VEC ≤ u64_max) as Hmax by by vm_compute.
  rewrite (wadd64_small (w.1) (len w.2)) by (etrans; [exact Hw | exact Hmax]). set (e := w.1 + len w.2) in *. rewrite Hl. set (n := N.max (rf_size f) e).
  rewrite (proj2 (N.leb_le n MAX_VEC)) by lia. cbn [assert_]. rewrite bind_Ok. rewrite (proj2 (N.leb_le w.1 e)) by lia. cbn [assert_]. rewrite bind_Ok.
  assert (w.1 + len w.2 ≤ len (resize n bytes)) as Hfit by (rewrite len_resize; lia).
  eexists. split; [reflexivity |]. split; [| cbn; lia]. split; [by rewrite len_splice, len_resize |]. cbn [rf_size rf_write rf_at].
  fold e n. intros i Hi. unfold splice, takeN, dropN. assert (N.to_nat e = (N.to_nat w.1 + length w.2)%nat) as He by (unfold e, len; lia).
  destruct (N.leb_spec w.1 i) as [Hge | Hlt]; cbn [andb].
  - destruct (N.ltb_spec i e) as [Hin | Hafter].
    + rewrite lookup_app_r by (rewrite length_take; unfold len in *; lia). rewrite length_take.
      replace (N.to_nat i - N.to_nat w.1 `min` length (resize n bytes))%nat with (N.to_nat (i - w.1)) by (unfold len in *; lia).
      rewrite lookup_app_l by (unfold len in *; lia). destruct (lookup_lt_is_Some_2 w.2 (N.to_nat (i - w.1))) as [b ->]; [unfold len in *; lia | done].
    + rewrite app_assoc, lookup_app_r by (rewrite length_app, length_take; unfold len in *; lia). rewrite length_app, length_take, lookup_drop.
      match goal with |- _ !! ?k = _ => replace k with (N.to_nat i) by (unfold e, len in *; lia) end.
      rewrite resize_lookup by lia. destruct (N.ltb_spec i (rf_size f)); [by rewrite Hat | lia].
  - rewrite lookup_app_l by (rewrite length_take; unfold len in *; lia). rewrite lookup_take_lt by lia. rewrite resize_lookup by lia.
    destruct (N.ltb_spec i (rf_size f)) as [? | Hge]; [by rewrite Hat |]. rewrite lookup_ge_None_2; [done |]. unfold len in Hl. lia.
Qed.
Lemma slice_represents bytes f lo hi : represents bytes f → lo ≤ hi → hi ≤ rf_size f → slice lo hi bytes = rf_range f lo hi.
Proof.
  intros [Hl Hat] Hlo Hhi. apply list_eq. intros i. unfold slice, takeN, dropN, rf_range. rewrite list_lookup_fmap.
  destruct (decide (i < N.to_nat (hi - lo))%nat) as [Hi | Hi].
  - rewrite lookup_take_lt, lookup_drop by done. rewrite lookup_seq_lt by lia. cbn.
    replace (N.to_nat lo + i)%nat with (N.to_nat (lo + N.of_nat i)) by lia. apply Hat. lia.
  - rewrite lookup_take_ge by lia. rewrite lookup_seq_ge by lia. done.
Qed.

Section staging.
Context `{Blake3, Differ, Parser, Posix, Gitignore}.
Context (options : Options).
Definition write_step (h : N) (_ : unit) (w : N * list byte) : FM unit := _ ← write options h w.1 w.2; mret tt.

Lemma write_run h x s w f : scratch_handles (f_opens s) !! h = None → handles (f_opens s) !! h = Some x → hd_writable x = true →
  represents (hd_bytes x) f → rf_size f ≤ MAX_VEC → w.1 + len w.2 ≤ MAX_VEC →
  ∃ s' x', write_step h tt w s = (Ok tt, s') ∧ f_db s' = f_db s ∧ scratch_handles (f_opens s') !! h = None ∧ handles (f_opens s') !! h = Some x'
    ∧ hd_writable x' = true ∧ represents (hd_bytes x') (rf_write f w) ∧ rf_size (rf_write f w) ≤ MAX_VEC.
Proof.
  intros Hsh Hx Hw Hr Hm Hfit. destruct (splice_at_represents _ _ _ Hr Hm Hfit) as (bytes & Hsp & Hr' & Hm').
  assert (write options h w.1 w.2 s = (Ok (len w.2), (put_handle h (with_bytes bytes x) s).2)) as Hrun.
  { unfold write. rewrite (run_bind_Ok _ _ s None s) by (unfold scratch_handle, gets; by rewrite Hsh).
    rewrite (run_bind_Ok _ _ s x s) by (unfold get_handle; rewrite (run_bind_Ok _ _ s (Some x) s); [done | unfold gets; by rewrite Hx]).
    rewrite (run_bind_Ok _ _ s tt s) by (by rewrite Hw). rewrite (run_bind_Ok _ _ s bytes s) by (unfold lift; by rewrite Hsp).
    by rewrite (run_bind_Ok _ _ s tt (put_handle h (with_bytes bytes x) s).2). }
  unfold write_step. rewrite (run_bind_Ok _ _ _ _ _ Hrun). eexists _, _. split; [reflexivity |]. split; [done |]. split; [done |].
  split; [cbn; apply lookup_insert_eq |]. done.
Qed.

(** A handle is a file.  Whatever is written through an open handle, wherever, READ then
    serves at every offset what a POSIX file of the opened bytes would hold after the same
    writes, and the store has not changed. *)
Theorem staged_writes_read_back h x s ws :
  scratch_handles (f_opens s) !! h = None → handles (f_opens s) !! h = Some x → hd_writable x = true →
  len (hd_bytes x) ≤ MAX_VEC → Forall (λ w, w.1 + len w.2 ≤ MAX_VEC) ws →
  ∃ s', foldM (write_step h) tt ws s = (Ok tt, s') ∧ f_db s' = f_db s ∧
    ∀ offset n, read h offset n s' = (Ok (rf_read (foldl rf_write (rf_of (hd_bytes x)) ws) offset n), s').
Proof.
  intros Hsh Hx Hw Hm Hws. generalize (represents_of (hd_bytes x)). change (len (hd_bytes x)) with (rf_size (rf_of (hd_bytes x))) in Hm. revert Hm.
  generalize (rf_of (hd_bytes x)). intros f Hm Hr. revert x s f Hsh Hx Hw Hm Hr.
  induction Hws as [| w ws Hfit _ IH]; intros x s f Hsh Hx Hw Hm Hr; cbn [foldM foldl].
  - exists s. split; [done |]. split; [done |]. intros offset n. unfold read. rewrite (run_bind_Ok _ _ s None s) by (unfold scratch_handle, gets; by rewrite Hsh).
    rewrite (run_bind_Ok _ _ s x s) by (unfold get_handle; rewrite (run_bind_Ok _ _ s (Some x) s); [done | unfold gets; by rewrite Hx]).
    unfold lift, rf_read. pose proof Hr as [Hl _]. rewrite Hl. set (start := N.min offset (rf_size f)). unfold sat_add.
    assert (MAX_VEC ≤ u64_max) as Hmax by by vm_compute.
    replace (N.min (N.min (start + n) u64_max) (rf_size f)) with (start + N.min n (rf_size f - start)) by lia.
    rewrite slice_checked_ok by lia. by rewrite (slice_represents _ _ _ _ Hr) by lia.
  - destruct (write_run h x s w f Hsh Hx Hw Hr Hm Hfit) as (s1 & x1 & Hrun & Hd & Hsh1 & Hx1 & Hw1 & Hr1 & Hm1).
    rewrite (run_bind_Ok _ _ _ _ _ Hrun). destruct (IH x1 s1 (rf_write f w) Hsh1 Hx1 Hw1 Hm1 Hr1) as (s' & Hs' & Hd' & Hread).
    exists s'. split; [done |]. split; [congruence | done].
Qed.
End staging.

(** ** Which reads a save is checked against *)

(** How requests move a reread handle's base and memory: a READ takes the store's blob, or a
    save lands one. *)
Inductive base_event := EvReread (base : Base) | EvLanded (base : Base).
Definition ev_base (e : base_event) : Base := match e with EvReread b | EvLanded b => b end.
Definition base_step (st : Base * Reads) (e : base_event) : Base * Reads :=
  let '(base, r) := st in
  match e with
  | EvReread b => if bool_decide (b = base) then (base, r) else (b, match base with Blob x => remember x b r | _ => r end)
  | EvLanded b => (b, reads_landed base b r)
  end.
(** A blob the handle held is its base or remembered, or the memory admits it dropped one. *)
Definition remembers (st : Base * Reads) (blob : Hash) : Prop := rd_complete st.2 = true → st.1 = Blob blob ∨ blob ∈ rd_blobs st.2.
Record memory_ok (st : Base * Reads) : Prop := {
  mo_reread : rd_reread st.2 = true;
  mo_bound : len (rd_blobs st.2) ≤ MAX_REMEMBERED_READS;
  mo_nodup : NoDup (rd_blobs st.2);
}.

Lemma remember_spec blob base r : len (rd_blobs r) ≤ MAX_REMEMBERED_READS → NoDup (rd_blobs r) →
  let r' := remember blob base r in
  len (rd_blobs r') ≤ MAX_REMEMBERED_READS ∧ NoDup (rd_blobs r') ∧ rd_reread r' = rd_reread r ∧
  (rd_complete r' = true → rd_complete r = true ∧ (base = Blob blob ∨ blob ∈ rd_blobs r') ∧ rd_blobs r ⊆ rd_blobs r').
Proof.
  intros Hb Hn. unfold remember. destruct (bool_decide (blob ∈ rd_blobs r)) eqn:Hin; cbn [orb].
  { apply bool_decide_eq_true_1 in Hin. split_and!; [done.. |]. intros ->. split_and!; [done | by right | done]. }
  apply bool_decide_eq_false in Hin. destruct (bool_decide (base = Blob blob)) eqn:He.
  { apply bool_decide_eq_true_1 in He. split_and!; [done.. |]. intros ->. split_and!; [done | by left | done]. }
  destruct (N.eqb_spec (len (rd_blobs r)) MAX_REMEMBERED_READS) as [Hf | Hf]; cbn [rd_blobs rd_complete rd_reread]; split_and!; try done.
  - rewrite len_app, len_cons, len_nil. unfold MAX_REMEMBERED_READS in *. lia.
  - apply NoDup_app. split_and!; [done | set_solver | apply NoDup_singleton].
  - intros Hc. split_and!; [done | right; set_solver | set_solver].
Qed.
Lemma len_filter {A} (P : A → Prop) `{∀ x, Decision (P x)} (l : list A) : len (filter P l) ≤ len l.
Proof. unfold len. pose proof (length_filter P l). lia. Qed.
Lemma base_step_ok st e : memory_ok st → memory_ok (base_step st e) ∧ ev_base e = (base_step st e).1 ∧
  ∀ blob, (st.1 = Blob blob ∨ remembers st blob) → remembers (base_step st e) blob.
Proof.
  intros [Hr Hb Hn]. destruct st as [base r]. cbn [fst snd] in *. unfold remembers. destruct e as [b | b]; cbn [base_step ev_base fst snd].
  - destruct (bool_decide (b = base)) eqn:Heq; cbn [fst snd].
    { apply bool_decide_eq_true_1 in Heq as ->. split_and!; [done | done |]. intros blob [-> | Hm] Hc; [by left | by apply Hm]. }
    clear Heq. destruct base as [| x |]; cbn [fst snd]; [split_and!; [done | done |]; intros blob [? | Hm] Hc; [done | destruct (Hm Hc) as [? | ?]; [done | by right]] | |
      split_and!; [done | done |]; intros blob [? | Hm] Hc; [done | destruct (Hm Hc) as [? | ?]; [done | by right]]].
    destruct (remember_spec x b r Hb Hn) as (Hb' & Hn' & Hr' & Hk). split; [by split; cbn; [rewrite Hr' | ..] |]. split; [done |].
    intros blob Hm Hc. destruct (Hk Hc) as (Hc0 & Hx & Hsub). destruct Hm as [[= ->] | Hm]; [destruct Hx; [by left | by right] |].
    destruct (Hm Hc0) as [[= ->] | Hin]; [destruct Hx; [by left | by right] | right; by apply Hsub].
  - unfold reads_landed. rewrite Hr. cbn [negb].
    assert (∃ r', match base with Blob x => remember x b r | _ => r end = r' ∧ len (rd_blobs r') ≤ MAX_REMEMBERED_READS ∧ NoDup (rd_blobs r') ∧
      rd_reread r' = true ∧ ∀ blob, (base = Blob blob ∨ remembers (base, r) blob) → rd_complete r' = true → b = Blob blob ∨ blob ∈ rd_blobs r') as (r' & -> & Hb' & Hn' & Hr' & Hk).
    { destruct base as [| x |]; eexists; (split; [reflexivity |]); [split_and!; [done.. |]; intros blob [? | Hm] Hc; [done | destruct (Hm Hc) as [? | ?]; [done | by right]] | |
        split_and!; [done.. |]; intros blob [? | Hm] Hc; [done | destruct (Hm Hc) as [? | ?]; [done | by right]]].
      destruct (remember_spec x b r Hb Hn) as (Hb' & Hn' & Hr' & Hk). split_and!; [done | done | congruence |].
      intros blob Hm Hc. destruct (Hk Hc) as (Hc0 & Hx & Hsub). destruct Hm as [[= ->] | Hm]; [done |]. destruct (Hm Hc0) as [[= ->] | Hin]; [done | right; by apply Hsub]. }
    destruct b as [| l |]; cbn [fst snd rd_blobs rd_complete rd_reread].
    + split_and!; [done | done |]. intros blob Hm Hc. by apply Hk.
    + split; [split; cbn; [done | etrans; [apply len_filter | done] | by apply NoDup_filter] |]. split; [done |]. intros blob Hm Hc.
      destruct (Hk blob Hm Hc) as [[= ->] | Hin]; [by left |]. destruct (decide (blob = l)) as [-> | Hne]; [by left |]. right. by apply list_elem_of_filter.
    + split_and!; [done | done |]. intros blob Hm Hc. by apply Hk.
Qed.

(** What an agreed save leaves alone: no line that changed since [read] is one its edit
    replaces. *)
Definition keeps_changes `{Differ} (d : db) (read : Hash) (current bytes : list byte) : Prop :=
  ∃ read_bytes, blob_bytes (db_store d) read = Some read_bytes ∧
    (read_bytes = current ∨ ∀ change edit, change ∈ changed_lines read_bytes current → edit ∈ changed_lines current bytes → touches (ch_to change) (ch_from edit) = false).
Lemma agree_one_ok `{Differ} d p current bytes read :
  agree_one d p current (ch_from <$> changed_lines current bytes) tt read = Ok tt → keeps_changes d read current bytes.
Proof.
  unfold agree_one, keeps_changes. destruct (blob_bytes (db_store d) read) as [rb |]; [| done]. cbn [ok_or]. rewrite bind_Ok.
  intros Ha. exists rb. split; [done |]. destruct (bool_decide (rb = current)) eqn:Heq; [left; by apply bool_decide_eq_true_1 in Heq |]. right.
  intros change edit Hc He. destruct (existsb _ _) eqn:Hex; [done |]. apply not_true_iff_false. intros Ht.
  apply not_true_iff_false in Hex. apply Hex, existsb_exists. exists change. split; [by apply list_elem_of_In |].
  apply existsb_exists. exists (ch_from edit). split; [| done]. apply list_elem_of_In. by apply list_elem_of_fmap_2.
Qed.
Lemma agree_reads `{Differ} d p current bytes l :
  fold_result (agree_one d p current (ch_from <$> changed_lines current bytes)) tt l = Ok tt → ∀ read, read ∈ l → keeps_changes d read current bytes.
Proof.
  induction l as [| x l IH]; [set_solver |]. cbn [fold_result]. intros ([] & Hx & Hl)%bind_ok read [-> | Hin]%elem_of_cons; [by eapply agree_one_ok | by apply IH].
Qed.

Section shared.
Context `{Blake3, Differ, Parser, Posix, Gitignore}.
Context (scope : Scope) (options : Options) (env : Env).

(** The requests on a handle that several clients share. *)
Inductive handle_request := HReread | HWrite (offset : N) (data : list byte) | HWriteChecked (offset : N) (data : list byte) | HDiscard | HCommit.
Definition handle_run (h : N) (q : handle_request) : FM unit :=
  match q with
  | HReread => reread env h
  | HWrite offset data => _ ← write options h offset data; mret tt
  | HWriteChecked offset data => _ ← write_checked scope options env h offset data; mret tt
  | HDiscard => discard env h
  | HCommit => commit scope options env h
  end.
(** A run from one settle to the next, with the states it passes: requests on the handle,
    whatever they answer, and anything else that leaves the handle as it is. *)
Inductive shared_run (h : N) : fs → list fs → fs → Prop :=
| sr_end s : shared_run h s [s] s
| sr_request s q l s' : shared_run h (handle_run h q s).2 l s' → shared_run h s (s :: l) s'
| sr_other s s1 l s' : handles (f_opens s1) !! h = handles (f_opens s) !! h → scratch_handles (f_opens s1) !! h = scratch_handles (f_opens s) !! h →
    shared_run h s1 l s' → shared_run h s (s :: l) s'.
(** In one of the states the handle was at [blob]. *)
Definition was_held (h : N) (l : list fs) (blob : Hash) : Prop := ∃ s x, s ∈ l ∧ handles (f_opens s) !! h = Some x ∧ hd_base x = Blob blob.

(** *** What a request does to the handle *)

Definition keeps_opens : relation fs := λ s s', f_opens s' = f_opens s.
#[global] Instance keeps_opens_serves : Serves env keeps_opens.
Proof. split; try done. split; [done |]. intros s1 s2 s3 H12 H23. unfold keeps_opens in *. congruence. Qed.
Lemma within_opens {E A} (m : M fs E A) s r s' : within keeps_opens m → m s = (r, s') → f_opens s' = f_opens s.
Proof. intros Hw Hr. specialize (Hw s). by rewrite Hr in Hw. Qed.
Lemma w_land_opens p base earlier bytes mode : within keeps_opens (land scope options env p base earlier bytes mode).
Proof.
  assert (∀ f, within keeps_opens (session_modify f)) by done.
  assert (∀ ws, within keeps_opens (propose_write scope ws)) by (intros ws s; unfold propose_write; by destruct (propose _ _ _)).
  assert (∀ ck ps, within keeps_opens (reconcile_with ck ps)) by (by intros [ck |] ps s).
  assert (∀ E (e : E), within keeps_opens (enter env e)) by (intros; apply w_enter, _).
  assert (∀ acc, within keeps_opens (after_landing scope env acc)) by (intros; apply w_after_landing, _).
  assert (∀ A (f : fs → result propose_error A), within keeps_opens (query env f)) by (intros; apply w_query, _).
  unfold land, propose_after, write_section. within_tac.
Qed.

(** [h] is a handle on a file of the store. *)
Definition holds (h : N) (s : fs) (x : Handle) : Prop := scratch_handles (f_opens s) !! h = None ∧ handles (f_opens s) !! h = Some x.
Lemma holds_kept h s s' x : f_opens s' = f_opens s → holds h s x → holds h s' x.
Proof. unfold holds. by intros ->. Qed.
Lemma holds_put h x s y : holds h s y → holds h (put_handle h x s).2 x.
Proof. intros [Hsh _]. split; [done | cbn; apply lookup_insert_eq]. Qed.
Lemma run_handle {A} h s x (f : option (ScratchHandle _) → FM A) :
  holds h s x → (sh ← scratch_handle h; f sh) s = f None s.
Proof. intros [Hsh _]. by rewrite (run_bind_Ok _ _ s None s) by (unfold scratch_handle, gets; by rewrite Hsh). Qed.
Lemma run_get {A} h s x (f : Handle → FM A) : holds h s x → (y ← get_handle h; f y) s = f x s.
Proof.
  intros [_ Hx]. rewrite (run_bind_Ok _ _ s x s); [done |]. unfold get_handle. by rewrite (run_bind_Ok _ _ s (Some x) s) by (unfold gets; by rewrite Hx).
Qed.
(** A computation that leaves the open handles alone, and what follows it. *)
Lemma after_kept {E A B} (m : M fs E A) (f : A → M fs E B) s (Q : fs → Prop) :
  within keeps_opens m → (∀ s', f_opens s' = f_opens s → Q s') → (∀ a s', m s = (Ok a, s') → f_opens s' = f_opens s → Q (f a s').2) → Q ((m ≫= f) s).2.
Proof.
  intros Hw Hend Hgo. unfold mbind, M_bind. destruct (m s) as [r s'] eqn:Hm. pose proof (within_opens _ _ _ _ Hw Hm). destruct r; [by apply Hgo | by apply Hend..].
Qed.

(** The handle's base and memory moved by a read or a save, or stayed. *)
Definition moved (x x' : Handle) : Prop :=
  (hd_base x', hd_earlier x') = (hd_base x, hd_earlier x) ∨ ∃ e, (hd_base x', hd_earlier x') = base_step (hd_base x, hd_earlier x) e.
(** Where the request leaves the handle. *)
Definition moves (h : N) (x : Handle) (s : fs) : Prop := ∃ x', holds h s x' ∧ moved x x'.
Lemma moves_kept h x s s' : holds h s x → f_opens s' = f_opens s → moves h x s'.
Proof. intros Hh Ho. exists x. split; [by eapply holds_kept | by left]. Qed.
Lemma moves_put h x x' s y : holds h s y → moved x x' → moves h x (put_handle h x' s).2.
Proof. intros Hh Hm. exists x'. split; [by eapply holds_put | done]. Qed.
(** A first part that leaves the open handles alone. *)
Lemma moves_after {E A B} h x (m : M fs E A) (f : A → M fs E B) s :
  holds h s x → within keeps_opens m → (∀ a s', m s = (Ok a, s') → holds h s' x → moves h x (f a s').2) → moves h x ((m ≫= f) s).2.
Proof.
  intros Hh Hw Hgo. apply after_kept; [done | intros s' Ho; by eapply moves_kept |]. intros a s' Hm Ho. apply Hgo; [done | by eapply holds_kept].
Qed.
Lemma moves_stay {E A} h x (m : M fs E A) s : holds h s x → within keeps_opens m → moves h x (m s).2.
Proof. intros Hh Hw. eapply moves_kept; [done | apply Hw]. Qed.
(** The answer is dropped. *)
Lemma moves_void {A} h x (m : FM A) s : moves h x (m s).2 → moves h x ((_ ← m; mret tt : FM unit) s).2.
Proof. unfold mbind, M_bind. by destruct (m s) as [[] s']. Qed.

Lemma write_moves h x s o data : holds h s x → moves h x (write options h o data s).2.
Proof.
  intros Hh. unfold write. rewrite (run_handle _ _ _ _ Hh), (run_get _ _ _ _ Hh).
  apply moves_after; [done | by apply within_ensure, _ |]. intros [] s1 _ K1. apply moves_after; [done | by apply within_lift, _ |]. intros bytes s2 _ K2.
  apply (moves_put _ x (with_bytes bytes x) _ _ K2). by left.
Qed.
Lemma write_checked_moves h x s o data : holds h s x → moves h x (write_checked scope options env h o data s).2.
Proof.
  intros Hh. unfold write_checked. rewrite (run_handle _ _ _ _ Hh), (run_get _ _ _ _ Hh).
  apply moves_after; [done | by apply within_ensure, _ |]. intros [] s1 _ K1. apply moves_after; [done | by apply within_lift, _ |]. intros bytes s2 _ K2.
  destruct (bool_decide _); [apply moves_stay; [done | by apply within_ret, _] |].
  apply moves_after; [done | by apply within_map_err, w_with_read, _ |]. intros [] s3 _ K3.
  apply (moves_put _ x (with_bytes bytes x) _ _ K3). by left.
Qed.
Lemma discard_moves h x s : holds h s x → moves h x (discard env h s).2.
Proof.
  intros Hh. unfold discard. rewrite (run_handle _ _ _ _ Hh), (run_get _ _ _ _ Hh).
  apply moves_after; [done | |].
  - destruct (hd_base x); [by apply within_ret, _ | | by apply within_ret, _]. apply within_bind; [apply _ | apply w_query, _ | intros; apply within_lift, _].
  - intros bytes s1 _ K1. eapply moves_put; [exact K1 | by left].
Qed.
Lemma commit_moves h x s : holds h s x → rd_reread (hd_earlier x) = true → moves h x (commit scope options env h s).2.
Proof.
  intros Hh Hr. unfold commit. rewrite (run_handle _ _ _ _ Hh), (run_get _ _ _ _ Hh).
  destruct (negb (hd_dirty x)); [apply moves_stay; [done | by apply within_ret, _] |].
  apply moves_after; [done | apply w_land_opens |]. intros [base merged] s1 _ K1. eapply moves_put; [exact K1 |]. right. by exists (EvLanded base).
Qed.
Definition rereading (x : Handle) : Handle := {|
  hd_path := hd_path x; hd_base := hd_base x; hd_earlier := {| rd_blobs := rd_blobs (hd_earlier x); rd_complete := rd_complete (hd_earlier x); rd_reread := true |};
  hd_bytes := hd_bytes x; hd_mode := hd_mode x; hd_dirty := hd_dirty x; hd_writable := hd_writable x |}.
Lemma reread_starts h x s : holds h s x → hd_dirty x = false → moves h (rereading x) (reread env h s).2.
Proof.
  intros Hh Hd. unfold reread. rewrite (run_handle _ _ _ _ Hh), (run_get _ _ _ _ Hh), Hd. cbv zeta.
  assert ({| hd_path := hd_path x; hd_base := hd_base x; hd_earlier := {| rd_blobs := rd_blobs (hd_earlier x); rd_complete := rd_complete (hd_earlier x); rd_reread := true |};
    hd_bytes := hd_bytes x; hd_mode := hd_mode x; hd_dirty := false; hd_writable := hd_writable x |} = rereading x) as -> by (unfold rereading; by rewrite Hd).
  rewrite (run_bind_Ok _ _ s tt (put_handle h (rereading x) s).2) by done. pose proof (holds_put h (rereading x) s x Hh) as K0. generalize dependent (put_handle h (rereading x) s).2. intros s0 K0.
  apply moves_after; [done | by apply w_held, _ |]. intros o s1 _ K1. apply moves_after; [done | by apply within_lift, _ |]. intros [base bytes] s2 _ K2.
  destruct (bool_decide (base = hd_base x)) eqn:Hb; [apply moves_stay; [done | by apply within_ret, _] |].
  eapply moves_put; [exact K2 |]. right. exists (EvReread base). cbn. rewrite Hb. by destruct (hd_base x).
Qed.
Lemma reread_moves h x s : holds h s x → rd_reread (hd_earlier x) = true → moves h x (reread env h s).2.
Proof.
  intros Hh Hr. destruct (hd_dirty x) eqn:Hd.
  - unfold reread. rewrite (run_handle _ _ _ _ Hh), (run_get _ _ _ _ Hh), Hd. apply moves_stay; [done | by apply within_ret, _].
  - assert (rereading x = x) as Heq by (destruct x as [? ? [? ? ?] ? ? ? ?]; unfold rereading; cbn in *; by subst). rewrite <- Heq at 1. by apply reread_starts.
Qed.
Lemma request_moves h q x s : holds h s x → rd_reread (hd_earlier x) = true → moves h x (handle_run h q s).2.
Proof.
  intros Hh Hr. destruct q; cbn [handle_run]; [by apply reread_moves | by apply moves_void, write_moves | by apply moves_void, write_checked_moves | by apply discard_moves | by apply commit_moves].
Qed.

(** *** What the run remembers *)

Definition memory (x : Handle) : Base * Reads := (hd_base x, hd_earlier x).
Lemma moved_remembers x x' : memory_ok (memory x) → moved x x' →
  memory_ok (memory x') ∧ ∀ blob, hd_base x = Blob blob ∨ remembers (memory x) blob → remembers (memory x') blob.
Proof.
  intros Hok [He | [e He]]; unfold memory in *; rewrite He.
  - split; [done |]. intros blob [Hb | Hm]; [by left | done].
  - destruct (base_step_ok _ e Hok) as (Hok' & _ & Hk). split; [done | exact Hk].
Qed.
Lemma was_held_cons h s l blob x : holds h s x → was_held h (s :: l) blob → hd_base x = Blob blob ∨ was_held h l blob.
Proof. intros [_ Hx] (s1 & y & [-> | Hin]%elem_of_cons & Hy & Hb); [left; by simplify_eq | right; by exists s1, y]. Qed.
Lemma run_remembers h s l s' : shared_run h s l s' → ∀ x, holds h s x → memory_ok (memory x) →
  ∃ x', holds h s' x' ∧ memory_ok (memory x') ∧ ∀ blob, remembers (memory x) blob ∨ was_held h l blob → remembers (memory x') blob.
Proof.
  induction 1 as [s | s q l s' _ IH | s s1 l s' Hx1 Hsh1 _ IH]; intros x Hh Hok.
  - exists x. split; [done |]. split; [done |]. intros blob [? | [Hb | (? & ? & ?%elem_of_nil & _)]%(was_held_cons _ _ _ _ x Hh)]; [done | by left | done].
  - destruct (request_moves h q x s Hh (mo_reread _ Hok)) as (x1 & Hh1 & Hm1). destruct (moved_remembers _ _ Hok Hm1) as [Hok1 Hk].
    destruct (IH x1 Hh1 Hok1) as (x' & Hh' & Hok' & Hall). exists x'. split; [done |]. split; [done |].
    intros blob [? | [? | ?]%(was_held_cons _ _ _ _ x Hh)]; apply Hall; [left; apply Hk; by right | left; apply Hk; by left | by right].
  - assert (holds h s1 x) as Hh1 by (unfold holds; by rewrite Hx1, Hsh1). destruct (IH x Hh1 Hok) as (x' & Hh' & Hok' & Hall). exists x'. split; [done |]. split; [done |].
    intros blob [? | [? | ?]%(was_held_cons _ _ _ _ x Hh)]; apply Hall; [by left | left; by left | by right].
Qed.
(** A save that succeeds passed the check, on the store it landed in. *)
Lemma commit_agreed h x s b : holds h s x → hd_dirty x = true → hd_base x = Blob b → (commit scope options env h s).1 = Ok tt →
  agree (others env (f_tick s) (f_db s)) (hd_path x) (Blob b) (hd_earlier x) (hd_bytes x) = Ok tt.
Proof.
  intros Hh Hd Hb. unfold commit. rewrite (run_handle _ _ _ _ Hh), (run_get _ _ _ _ Hh), Hd. cbn [negb].
  match goal with |- (?m s).1 = _ → _ => destruct (m s) as [r s1] eqn:Hr end. cbn [fst]. intros ->. apply run_bind in Hr as ([base merged] & s0 & Hl & _).
  unfold land in Hl. rewrite Hb, (run_bind_Ok _ _ s (Some (hd_mode x)) s) in Hl by done. apply run_bind in Hl as (acc & s2 & Hp & _).
  unfold propose_after in Hp. apply run_bind in Hp as (acc' & s3 & Hw & _). unfold mapM_err in Hw.
  match type of Hw with (let '(_, _) := ?m s in _) = _ => destruct (m s) as [[a | |] s4] eqn:Hws end; [| done..]. clear Hw. unfold write_section in Hws.
  apply run_bind in Hws as ([] & s5 & Hen & Hws). unfold enter in Hen. destruct (store_fails env (f_tick s)); [done |]. injection Hen as <-.
  apply run_bind in Hws as ([] & s6 & Hag & _). unfold reads in Hag. by injection Hag as Hag _.
Qed.

(** C38: A save through a shared handle undoes no one's edit.  A handle is opened and reread,
    and from then on the requests on it are rereads, writes, discards and saves, in any order
    and with any answers, while other handles and other writers change the store.  When a save of
    it then succeeds, either the handle never left the blob the save is based on, or for
    every blob the handle was ever at, no line that changed between that blob and what the
    store holds is one the save's edit replaces. *)
Theorem save_agrees_with_every_read h x0 s0 l s x b hash current :
  holds h s0 x0 → hd_dirty x0 = false → hd_earlier x0 = Reads_new →
  shared_run h (reread env h s0).2 l s →
  holds h s x → hd_dirty x = true → hd_base x = Blob b → (commit scope options env h s).1 = Ok tt →
  let d := others env (f_tick s) (f_db s) in
  blob_of d (hd_path x) = Ok (Some (hash, current)) →
  len (rd_blobs (hd_earlier x)) ≤ MAX_REMEMBERED_READS ∧
  ((∀ blob, was_held h (s0 :: l) blob → blob = b) ∨ ∀ blob, was_held h (s0 :: l) blob → keeps_changes d blob current (hd_bytes x)).
Proof.
  intros Hh0 Hd0 He0 Hrun Hh Hd Hb Hc d Hblob.
  destruct (reread_starts h x0 s0 Hh0 Hd0) as (x1 & Hh1 & Hm1).
  assert (memory_ok (memory (rereading x0))) as Hok0 by (unfold memory, rereading; rewrite He0; split; [done | by vm_compute | apply NoDup_nil_2]).
  destruct (moved_remembers _ _ Hok0 Hm1) as [Hok1 Hk1]. destruct (run_remembers _ _ _ _ Hrun x1 Hh1 Hok1) as (x' & Hh' & Hok & Hall).
  assert (x' = x) as -> by (destruct Hh as [_ Hx], Hh' as [_ Hx']; congruence). split; [apply Hok |].
  assert (∀ blob, was_held h (s0 :: l) blob → remembers (memory x) blob) as Hrem.
  { intros blob [? | ?]%(was_held_cons _ _ _ _ x0 Hh0); apply Hall; [left; apply Hk1; by left | by right]. }
  pose proof (commit_agreed _ _ _ _ Hh Hd Hb Hc) as Ha. fold d in Ha. unfold agree in Ha. unfold remembers, memory in Hrem. cbn [fst snd] in Hrem. rewrite Hb in Hrem.
  destruct (reads_is_empty (hd_earlier x)) eqn:Hne.
  - left. intros blob Hw. unfold reads_is_empty in Hne. destruct (rd_blobs (hd_earlier x)) eqn:Hbl; [| done]. by destruct (Hrem blob Hw Hne) as [[= ->] | ?%elem_of_nil].
  - right. rewrite Hblob in Ha. cbn [map_err] in Ha. rewrite bind_Ok in Ha. apply bind_ok in Ha as ([] & Hcomp%ensure_ok & Ha).
    intros blob Hw. apply (agree_reads _ _ _ _ _ Ha). destruct (Hrem blob Hw Hcomp) as [[= ->] | Hin]; [by left | by right].
Qed.
End shared.

(** ** A path out of sight that is served

    A guest that may propose but not see [s] is told there is no such file; it creates the
    name, opens it, and reads the file's bytes. *)
Module OutOfSight.
Import Quiet.
Definition name : list byte := [x73].
Definition secret_db : db := {|
  db_store := put_file name Regular (vreplicate 32 x07) None {| t_tree := ∅; t_diag := ∅; t_blobs := {[ as_bytes (vreplicate 32 x07) := [x07; x08] ]} |};
  db_source := ∅; db_root := Some [slash] |}.
Definition s0 : fs := with_clock secret_db tt 0.
Definition peek : FM (list byte) :=
  '(e, _) ← create blind options env ROOT_INODE name 0;
  o ← open blind options env (at_inode (en_attr e)) 0;
  read (op_handle o) 0 100.
Lemma unseen_file_is_served :
  Grant_covers (see blind) name = false ∧ (lookup blind options env ROOT_INODE name s0).1 = Err ENOENT ∧ (peek s0).1 = Ok [x07; x08].
Proof. split; [vm_compute; reflexivity |]. split; vm_compute; reflexivity. Qed.
End OutOfSight.

(** ** Examples *)

Import Quiet.
Lemma guest_sees_its_scope_witness : stat_path narrow [x62] start = Ok (Some dir_stat) ∧ stat_path blind [x62] start = Ok None.
Proof.
  assert (sound (f_db start) demo_manifest) as Hs by exact FlushSample.sound_s.
  destruct (guest_sees_its_scope narrow [x62] start demo_manifest Hs) as (_ & Hin & _).
  destruct (guest_sees_its_scope blind [x62] start demo_manifest Hs) as (_ & _ & Hout).
  split; [destruct Hin as [-> _]; [discriminate | by left | vm_compute; reflexivity] |].
  rewrite Hout; [reflexivity | discriminate |]. unfold in_sight. assert (demo_manifest !! [x62] = Some EDir) as -> by (vm_compute; reflexivity).
  intros [Hw | [(q & mode & blob & _ & _ & Hc) | (q & _ & [bs Hp])]]; [discriminate | | discriminate Hp].
  apply bool_decide_eq_true_1 in Hc. exact (not_elem_of_empty q Hc).
Defined.
Lemma staged_writes_read_back_witness :
  ∃ s', foldM (write_step options 1) tt [(1, [x21; x22]); (5, [x23])] FlushSample.s = (Ok tt, s') ∧ (read 1 0 100 s').1 = Ok [x07; x21; x22; x00; x00; x23].
Proof.
  destruct (staged_writes_read_back options 1 FlushSample.handle FlushSample.s [(1, [x21; x22]); (5, [x23])]) as (s' & Hrun & _ & Hread).
  - vm_compute. reflexivity.
  - vm_compute. reflexivity.
  - reflexivity.
  - vm_compute. discriminate.
  - repeat constructor; vm_compute; discriminate.
  - exists s'. split; [exact Hrun |]. rewrite Hread. vm_compute. reflexivity.
Defined.

(** Two handles on one file: the second saves a change of the first byte while the first is
    open; the first rereads, appends and saves. *)
Module SharedSample.
Fixpoint common {A} `{EqDecision A} (a b : list A) : N :=
  match a, b with x :: a, y :: b => if bool_decide (x = y) then 1 + common a b else 0 | _, _ => 0 end.
(** A line per byte; one change, between the common prefix and the common suffix. *)
#[local] Instance byte_differ : Differ := {|
  changed_lines := λ a b,
    if bool_decide (a = b) then []
    else
      let p := common a b in
      let t := common (reverse (dropN p a)) (reverse (dropN p b)) in
      [{| ch_from := {| lr_start := p; lr_end := len a - t |}; ch_to := {| lr_start := p; lr_end := len b - t |} |}];
  text_driver := λ _ _ _, (false, []) |}.
Definition opened : FM (N * N) :=
  a ← lookup everything options env ROOT_INODE [x61];
  e ← lookup everything options env (at_inode (en_attr a)) [x78];
  mine ← open everything options env (at_inode (en_attr e)) 1;
  theirs ← open everything options env (at_inode (en_attr e)) 1;
  mret (op_handle mine, op_handle theirs).
Definition s0 : fs := (opened start).2.
Definition s1 : fs := (reread env 1 s0).2.
Definition s2 : fs := (flush everything options env 2 (write options 2 0 [x09] s1).2).2.
Definition s3 : fs := (reread env 1 s2).2.
Definition s4 : fs := (write options 1 2 [x0a] s3).2.
Definition read0 : Hash := vreplicate 32 x07.
Definition read1 : Hash := blake3 [x09; x08].
Definition handle (base : Hash) (earlier : Reads) (bytes : list byte) (dirty : bool) : Handle := {|
  hd_path := FlushSample.file; hd_base := Blob base; hd_earlier := earlier; hd_bytes := bytes; hd_mode := None; hd_dirty := dirty; hd_writable := true |}.
Lemma run : shared_run everything options env 1 s1 [s1; s2; s3; s4] s4.
Proof.
  apply sr_other with s2; [vm_compute; reflexivity | vm_compute; reflexivity |].
  apply (sr_request _ _ _ _ s2 HReread). apply (sr_request _ _ _ _ s3 (HWrite 2 [x0a])). apply sr_end.
Qed.
Lemma was_read : was_held 1 [s0; s1; s2; s3; s4] read0.
Proof. exists s0, (handle read0 Reads_new [x07; x08] false). split; [by left |]. split; vm_compute; reflexivity. Qed.
End SharedSample.
Lemma save_agrees_with_every_read_witness :
  @keeps_changes SharedSample.byte_differ (f_db SharedSample.s4) SharedSample.read0 [x09; x08] [x09; x08; x0a].
Proof.
  set (earlier := {| rd_blobs := [SharedSample.read0]; rd_complete := true; rd_reread := true |}).
  destruct (@save_agrees_with_every_read _ SharedSample.byte_differ _ _ _ everything options env 1 (SharedSample.handle SharedSample.read0 Reads_new [x07; x08] false) SharedSample.s0
    [SharedSample.s1; SharedSample.s2; SharedSample.s3; SharedSample.s4] SharedSample.s4
    (SharedSample.handle SharedSample.read1 earlier [x09; x08; x0a] true) SharedSample.read1 SharedSample.read1 [x09; x08]) as [_ [Hone | Hall]].
  - split; vm_compute; reflexivity.
  - reflexivity.
  - reflexivity.
  - exact SharedSample.run.
  - split; vm_compute; reflexivity.
  - reflexivity.
  - reflexivity.
  - vm_compute. reflexivity.
  - vm_compute. reflexivity.
  - exfalso. assert (bool_decide (SharedSample.read0 = SharedSample.read1) = false) as Hne by (vm_compute; reflexivity).
    apply bool_decide_eq_false in Hne. exact (Hne (Hone _ SharedSample.was_read)).
  - exact (Hall _ SharedSample.was_read).
Defined.
