(* ===== verification/Checkout.v ===== *)
(** * The checkout of the source directory

    [rs/ll-open/cli-lib/src/checkout.rs]: the store, the directory and the index compared path
    by path, and the directory and the store each brought up to the side that moved.  The
    directory is a tree of nodes under relative paths; every call that changes it may fail
    ([os_fails], by the number of the call), a write may be torn, and what lies behind a
    symbolic link is a parameter.  No one else writes during a call.  The parse's own tables
    are a parameter, as in [Proposal]. *)

From S2P Require Import Prelude Substrate Text Tree Merge TreeSync Proposal StateM.
From Stdlib Require Import NArith Lia.
Local Open Scope N_scope.

(** ** What reconciling a path does *)

Inductive Action := Nothing | Materialize | Ingest | Converge | InConflict | Remove.
#[global] Instance Action_eq_dec : EqDecision Action.
Proof. solve_decision. Defined.

Definition classify {T} `{EqDecision T} (disk : option T) (stored : T) (index : option T) : Action :=
  let disk_moved := negb (bool_decide (disk = index)) in
  let store_moved := negb (bool_decide (Some stored = index)) in
  match disk_moved, store_moved with
  | false, false => Nothing
  | false, true => Materialize
  | true, false => Ingest
  | true, true => if bool_decide (disk = Some stored) then Converge else InConflict
  end.
Definition classify_unstored {T} `{EqDecision T} (disk index : option T) : Action :=
  match disk, index with
  | None, None => Nothing
  | Some _, None => Ingest
  | None, Some _ => Converge
  | Some d, Some i => if bool_decide (d = i) then Remove else InConflict
  end.

Record Conflict := { cf_path : path; cf_disk : option Entry; cf_stored : option Entry; cf_index : option Entry }.

(** ** Paths under the directory *)

(** [Component::Normal] everywhere, and at least one. *)
Definition inside (rel : path) : bool :=
  negb (bool_decide (components rel = []))
  && forallb (λ c, match c with Normal _ => true | _ => false end) (components rel).
Definition names (rel : path) : list (list byte) :=
  omap (λ c, match c with Normal n => Some n | _ => None end) (components rel).
Fixpoint join (ns : list (list byte)) : path :=
  match ns with [] => [] | [n] => n | n :: ns => n ++ slash :: join ns end.
(** [Path::parent] and [file_name] under the directory; the directory itself is the empty
    path. *)
Definition dir_of (rel : path) : path := join (removelast (names rel)).
Definition file_name (rel : path) : list byte := default [] (last (names rel)).
Definition join2 (dir : path) (name : list byte) : path := if bool_decide (dir = []) then name else dir ++ slash :: name.
Definition staging_path (rel : path) : path :=
  join2 (dir_of rel) (bytes_of "." ++ file_name rel ++ bytes_of ".leyline-checkout").
(** [Path::ancestors], nearest first, down to the directory. *)
Fixpoint ancestors_of (ns : list (list byte)) (fuel : nat) : list path :=
  match fuel with O => [[]] | S fuel => match ns with [] => [[]] | _ => join ns :: ancestors_of (removelast ns) fuel end end.
Definition ancestors (dir : path) : list path := ancestors_of (names dir) (length (names dir)).

(** ** The directory on the host *)

Inductive node := NFile (perm : N) (bytes : list byte) (mtime : Z) | NLink (target : list byte) (mtime : Z) | NDir | NOther.
#[global] Instance node_eq_dec : EqDecision node.
Proof. solve_decision. Defined.
Inductive place := Inside (p : path) | Outside.
#[global] Instance place_eq_dec : EqDecision place.
Proof. solve_decision. Defined.
(** The nodes, the directories made behind a link out of the tree, and the calls made. *)
Record host := { h_nodes : gmap path node; h_outside : list path; h_calls : nat }.
Definition set_nodes (ns : gmap path node) (h : host) : host := {| h_nodes := ns; h_outside := h_outside h; h_calls := h_calls h |}.
Definition set_node (p : path) (n : node) (h : host) : host := set_nodes (<[p := n]> (h_nodes h)) h.

(** The operating system: which calls fail and how much a failed write leaves, the clock, the
    permissions of a new file, what cannot be read, where a path through a symbolic link
    leads and what is there when it leads out of the tree, and what a walk lists. *)
Record Os := {
  os_fails : nat → bool;
  os_torn : nat → nat;
  os_clock : nat → Z;
  os_perm : N;
  os_unreadable : path → bool;
  os_follow : gmap path node → path → option place;
  os_behind : path → option node;
  os_walk : gmap path node → option (list path * list path * list path);
}.

Inductive checkout_error :=
| NotInside (rel : path) | LeadsOutside (rel : path) | IoError | NoBytes (blob : Hash) | TreeError (e : tree_error)
| SyncError (e : sync_error) | ParseFailed | WalkFailed.
Notation HM := (M host checkout_error).

Section host.
Context (os : Os).

(** The place a directory's path leads to, its last name followed too. *)
Definition follow (h : host) (d : path) : option place :=
  if bool_decide (d = []) then Some (Inside [])
  else if bool_decide (d ∈ h_outside h) then Some Outside
  else if existsb (λ q, match h_nodes h !! q with Some (NLink _ _) => true | _ => false end) (parents d ++ [d])
       then os_follow os (h_nodes h) d
       else if bool_decide (is_Some (h_nodes h !! d)) then Some (Inside d) else None.
(** The place a path names, its last name not followed. *)
Definition seat (h : host) (rel : path) : option place :=
  match follow h (dir_of rel) with
  | Some (Inside d) =>
      if bool_decide (d = [] ∨ h_nodes h !! d = Some NDir) then Some (Inside (join2 d (file_name rel))) else None
  | Some Outside => Some Outside
  | None => None
  end.
Definition node_at (h : host) (rel : path) : option node :=
  match seat h rel with
  | Some (Inside p) => h_nodes h !! p
  | Some Outside => os_behind os rel
  | None => None
  end.

(** [symlink_metadata], [read] and [read_link]. *)
Definition meta_of (n : node) : meta :=
  match n with
  | NFile perm bytes mtime =>
      {| mt_kind := KFile; mt_exec := negb (N.land perm 73 =? 0); mt_mtime := mtime; mt_size := Z.of_N (len bytes) |}
  | NLink target mtime => {| mt_kind := KSymlink; mt_exec := true; mt_mtime := mtime; mt_size := Z.of_N (len target) |}
  | NDir => {| mt_kind := KDir; mt_exec := true; mt_mtime := 0; mt_size := 0 |}
  | NOther => {| mt_kind := KOther; mt_exec := false; mt_mtime := 0; mt_size := 0 |}
  end.
Definition symlink_metadata (h : host) (rel : path) : option meta := meta_of <$> node_at h rel.
Definition read (h : host) (rel : path) : option (list byte) :=
  match node_at h rel with
  | Some (NFile _ bytes _) => if os_unreadable os rel then None else Some bytes
  | _ => None
  end.
Definition read_link (h : host) (rel : path) : option (list byte) :=
  match node_at h rel with Some (NLink target _) => Some target | _ => None end.

(** A call that changes the directory, or orders it to the disk. *)
Definition call {A} (f : host → result checkout_error A * host) : HM A := λ h,
  let h' := {| h_nodes := h_nodes h; h_outside := h_outside h; h_calls := S (h_calls h) |} in
  if os_fails os (h_calls h) then (Err IoError, h') else f h'.
Definition now (h : host) : Z := os_clock os (h_calls h).

Definition remove_file (rel : path) : HM unit := call (λ h,
  match seat h rel with
  | Some (Inside p) =>
      match h_nodes h !! p with
      | Some NDir | None => (Err IoError, h)
      | Some _ => (Ok tt, set_nodes (delete p (h_nodes h)) h)
      end
  | Some Outside => (Ok tt, h)
  | None => (Err IoError, h)
  end).
Definition remove_dir (rel : path) : HM unit := call (λ h,
  match seat h rel with
  | Some (Inside p) =>
      match h_nodes h !! p with
      | Some NDir =>
          if bool_decide (map_Forall (λ q _, p ∉ parents q) (h_nodes h)) then (Ok tt, set_nodes (delete p (h_nodes h)) h)
          else (Err IoError, h)
      | _ => (Err IoError, h)
      end
  | Some Outside => (Ok tt, h)
  | None => (Err IoError, h)
  end).
(** [File::create]: the handle is the place of the file. *)
Definition create_at (p : path) (h : host) : result checkout_error place * host :=
  match h_nodes h !! p with
  | None => (Ok (Inside p), set_node p (NFile (os_perm os) [] (now h)) h)
  | Some (NFile perm _ _) => (Ok (Inside p), set_node p (NFile perm [] (now h)) h)
  | Some _ => (Err IoError, h)
  end.
Definition create (rel : path) : HM place := call (λ h,
  match seat h rel with
  | Some (Inside p) =>
      match h_nodes h !! p with
      | Some (NLink _ _) =>
          match follow h p with
          | Some (Inside q) => create_at q h
          | Some Outside => (Ok Outside, h)
          | None => (Err IoError, h)
          end
      | _ => create_at p h
      end
  | Some Outside => (Ok Outside, h)
  | None => (Err IoError, h)
  end).
(** [write_all] on a new handle: a failing call leaves some of the bytes. *)
Definition write_all (f : place) (bytes : list byte) : HM unit := λ h,
  let n := h_calls h in
  let h' := {| h_nodes := h_nodes h; h_outside := h_outside h; h_calls := S n |} in
  let put := λ bs, match f with
                   | Inside p => match h_nodes h !! p with Some (NFile perm _ _) => set_node p (NFile perm bs (now h)) h' | _ => h' end
                   | Outside => h'
                   end in
  if os_fails os n then (Err IoError, put (take (os_torn os n) bytes)) else (Ok tt, put bytes).
Definition file_permissions (f : place) : HM N := call (λ h,
  (Ok match f with
      | Inside p => match h_nodes h !! p with Some (NFile perm _ _) => perm | _ => os_perm os end
      | Outside => os_perm os
      end, h)).
Definition set_permissions (f : place) (perm : N) : HM unit := call (λ h,
  (Ok tt, match f with
          | Inside p => match h_nodes h !! p with Some (NFile _ bytes mtime) => set_node p (NFile perm bytes mtime) h | _ => h end
          | Outside => h
          end)).
Definition symlink (target : list byte) (rel : path) : HM unit := call (λ h,
  match seat h rel with
  | Some (Inside p) =>
      if bool_decide (is_Some (h_nodes h !! p)) then (Err IoError, h) else (Ok tt, set_node p (NLink target (now h)) h)
  | Some Outside => (Ok tt, h)
  | None => (Err IoError, h)
  end).
(** [durable::rename] of a file or a link. *)
Definition rename (from to : path) : HM unit := call (λ h,
  match seat h from, seat h to with
  | Some (Inside p), Some (Inside q) =>
      match h_nodes h !! p, h_nodes h !! q with
      | None, _ | Some NDir, _ | _, Some NDir => (Err IoError, h)
      | Some n, _ => (Ok tt, set_nodes (<[q := n]> (delete p (h_nodes h))) h)
      end
  | _, _ => (Err IoError, h)
  end).
(** [durable::order] and [order_dir]. *)
Definition order : HM unit := call (λ h, (Ok tt, h)).
Definition order_dir (d : path) : HM unit := call (λ h,
  match follow h d with Some _ => (Ok tt, h) | None => (Err IoError, h) end).
(** [create_dir_all]: the missing directories, outermost first. *)
Definition is_dir (h : host) (d : path) : bool :=
  match follow h d with
  | Some (Inside q) => bool_decide (q = [] ∨ h_nodes h !! q = Some NDir)
  | Some Outside => true
  | None => false
  end.
Definition make_one (d : path) : HM unit := λ h,
  if is_dir h d then (Ok tt, h)
  else call (λ h,
    match seat h d with
    | Some (Inside p) =>
        if bool_decide (is_Some (h_nodes h !! p)) then (Err IoError, h) else (Ok tt, set_node p NDir h)
    | Some Outside => (Ok tt, {| h_nodes := h_nodes h; h_outside := d :: h_outside h; h_calls := h_calls h |})
    | None => (Err IoError, h)
    end) h.
Definition create_dir_all (d : path) : HM unit := foldM (λ _ q, make_one q) tt (reverse (ancestors d)).

(** [canonicalize] of a directory, compared with the source directory's. *)
Definition resolves_inside (d : path) : HM bool := call (λ h,
  match follow h d with
  | Some (Inside _) => (Ok true, h)
  | Some Outside => (Ok false, h)
  | None => (Err IoError, h)
  end).

(** ** Writing into the directory *)

Definition checked_target (rel : path) : HM path := if inside rel then mret rel else throw (NotInside rel).
Definition existing_parent (rel : path) : HM path :=
  let parent := dir_of rel in
  _ ← resolves_inside [];
  existing ← gets (λ h, default [] (list_find (λ a, is_Some (follow h a)) (ancestors parent) ≫= λ x, Some x.2));
  within ← resolves_inside existing;
  _ ← ensureM within (LeadsOutside rel);
  _ ← create_dir_all parent;
  within ← resolves_inside parent;
  _ ← ensureM within (LeadsOutside rel);
  mret parent.

(** Execute bits where the read bits are, or none. *)
Definition mode_bits (mode : option Mode) (perm : N) : N :=
  let bits := N.ldiff perm 73 in
  match mode with
  | Some Executable => bits + N.shiftr (N.land bits 292) 2
  | Some _ => bits
  | None => perm
  end.
(** The body, and the removal of what was staged when it fails. *)
Definition or_unstage {A} (staging : path) (m : HM A) : HM A :=
  done ← attempt m;
  match done with
  | Ok a => mret a
  | Err e => _ ← attempt (remove_file staging); throw e
  | Panic => panic
  end.
Definition write_file (rel : path) (bytes : list byte) (mode : option Mode) : HM unit :=
  target ← checked_target rel;
  parent ← existing_parent rel;
  let staging := staging_path target in
  or_unstage staging (
    _ ← attempt (remove_file staging);
    file ← create staging;
    _ ← write_all file bytes;
    held ← gets (λ h, node_at h target);
    perm ← match held with Some (NFile perm _ _) => mret perm | _ => file_permissions file end;
    _ ← set_permissions file (mode_bits mode perm);
    _ ← order;
    _ ← rename staging target;
    order_dir parent).
Definition write_into (rel : path) (bytes : list byte) : HM unit := write_file rel bytes None.
Definition link_into (rel : path) (target : list byte) : HM unit :=
  p ← checked_target rel;
  parent ← existing_parent rel;
  let staging := staging_path p in
  or_unstage staging (
    _ ← attempt (remove_file staging);
    _ ← symlink target staging;
    _ ← rename staging p;
    order_dir parent).
(** The directories are made before the check that refuses them. *)
Definition make_dir (rel : path) : HM unit :=
  target ← checked_target rel;
  _ ← create_dir_all target;
  within ← resolves_inside target;
  _ ← resolves_inside [];
  _ ← ensureM within (LeadsOutside rel);
  order_dir (dir_of target).
Definition remove_from (rel : path) : HM unit :=
  _ ← ensureM (inside rel) (NotInside rel);
  let parent := dir_of rel in
  _ ← resolves_inside [];
  within ← resolves_inside parent;
  _ ← ensureM within (LeadsOutside rel);
  held ← reads (λ h, ok_or (node_at h rel) IoError);
  _ ← match held with NDir => remove_dir rel | _ => remove_file rel end;
  order_dir parent.

(** The bytes of a blob, and an entry of the store in the directory. *)
Definition blob (s : store) (hash : Hash) : result checkout_error (list byte) := ok_or (blob_bytes s hash) (NoBytes hash).
Definition materialize_entry (s : store) (rel : path) (e : Entry) : HM unit :=
  match e with
  | EDir => make_dir rel
  | EFile Symlink target => target ← lift (blob s target); link_into rel target
  | EFile mode held => bytes ← lift (blob s held); write_file rel bytes (Some mode)
  end.
End host.

(** ** The tables of the checkout *)

(** The index before its first version, without modes, and with them. *)
Inductive index_table := NoIndex | HashIndex (rows : gmap path (list byte)) | ModeIndex (rows : gmap path (list byte * N)).
Record conflict_row := { cr_disk : option (list byte); cr_stored : option (list byte); cr_index : option (list byte) }.
Record co := { co_db : db; co_index : index_table; co_conflict : gmap path conflict_row; co_host : host }.
Definition set_host (h : host) (c : co) : co :=
  {| co_db := co_db c; co_index := co_index c; co_conflict := co_conflict c; co_host := h |}.
Definition set_db (d : db) (c : co) : co :=
  {| co_db := d; co_index := co_index c; co_conflict := co_conflict c; co_host := co_host c |}.
Definition set_tables (i : gmap path (list byte * N)) (r : gmap path conflict_row) (c : co) : co :=
  {| co_db := co_db c; co_index := ModeIndex i; co_conflict := r; co_host := co_host c |}.

Definition index_blob (e : Entry) : list byte := match Entry_blob e with Some h => as_bytes h | None => [] end.
(** An index made over a store starts as the store. *)
Definition ensure_index (s : store) (i : index_table) : gmap path (list byte * N) :=
  match i with
  | NoIndex => (λ r, (default [] (tr_blob r), tr_mode r)) <$> t_tree s
  | HashIndex rows => (λ b, (b, 33188)) <$> rows
  | ModeIndex rows => rows
  end.
Definition ensure_tables (c : co) : co := set_tables (ensure_index (db_store (co_db c)) (co_index c)) (co_conflict c) c.
Definition index_rows (c : co) : gmap path (list byte * N) :=
  match co_index c with ModeIndex rows => rows | _ => ∅ end.
(** A row that is no entry is left out. *)
Definition index_entry (row : list byte * N) : option Entry :=
  git ← GitMode_from_git row.2;
  match file_mode git with
  | None => Some EDir
  | Some mode => EFile mode <$> Hash_try_from row.1
  end.
Definition index_entries (c : co) : gmap path Entry := omap index_entry (index_rows c).
Definition set_index (rel : path) (e : option Entry) (i : gmap path (list byte * N)) : gmap path (list byte * N) :=
  match e with Some e => <[rel := (index_blob e, Entry_git_mode e)]> i | None => delete rel i end.

(** ** The parse *)

(** What the extraction passes over the directory make of it: [None] when one fails before
    the tree is synchronised, else the blobs they store, their outcomes and their tables. *)
Record CoParsed := { cp_blobs : gmap (list byte) (list byte); cp_parsed : Parsed }.
Class CheckoutParser := {
  co_project : option (list path) → InMemory → host → db → option CoParsed;
}.

Section reconcile.
Context `{Blake3, CheckoutParser} (os : Os).

Definition disk_of (h : host) : Disk :=
  let stat := λ p, match symlink_metadata os h p with Some m => Stat m | None => StatNotFound end in
  {| dk_scan := stat; dk_stat := stat; dk_read := read os h; dk_readlink := read_link os h |}.
Definition parse_checkout (scope : option (list path)) (kept : gmap path (list byte)) (removed : gset path) (h : host) (d : db)
    : result checkout_error db :=
  reach ← match scope with
          | Some paths => mret (ReachPaths paths)
          | None => '(files, symlinks, dirs) ← ok_or (os_walk os (h_nodes h)) WalkFailed; mret (Walked files symlinks dirs)
          end;
  let memory := Written kept removed no_edits in
  parsed ← ok_or (co_project scope memory h d) ParseFailed;
  let s := db_store d in
  let s := {| t_tree := t_tree s; t_diag := t_diag s; t_blobs := t_blobs s ∪ cp_blobs parsed |} in
  s ← map_err SyncError (sync reach (Some memory) (disk_of h) (pd_outcomes (cp_parsed parsed)) s);
  mret {| db_store := s; db_source := pd_source (cp_parsed parsed); db_root := Some (pd_root (cp_parsed parsed)) |}.

(** ** Looking at the paths *)

Record Work := {
  w_ingest : list path;
  w_converge : list (path * option Entry);
  w_materialize : list (path * Entry);
  w_remove : list path;
  w_conflicts : list Conflict;
  w_hashed : N;
}.
Definition no_work : Work :=
  {| w_ingest := []; w_converge := []; w_materialize := []; w_remove := []; w_conflicts := []; w_hashed := 0 |}.
(** The directory's side of a path: left out (after reading it or not), ingested unread, or
    its entry. *)
Inductive Look := LeftOut (hashed : bool) | New | Looked (disk : option Entry) (hashed : bool).
Definition look_file (h : host) (rel : path) (m : meta) : Look :=
  let mode := disk_mode m in
  match (if bool_decide (mode = Symlink) then read_link os h rel else read os h rel) with
  | Some bytes => Looked (Some (EFile mode (content_hash bytes))) true
  | None => LeftOut true
  end.
Definition look (h : host) (stats : gmap path (Z * Z)) (held indexed : option Entry) (rel : path) : Look :=
  if negb (inside rel) then LeftOut false else
  match symlink_metadata os h rel with
  | None => Looked None false
  | Some m =>
      match mt_kind m with
      | KOther => LeftOut false
      | KDir => match held, indexed with None, None => New | _, _ => Looked (Some EDir) false end
      | _ =>
          match held, indexed with
          | None, None => New
          | Some (EFile mode _), _ =>
              if bool_decide (disk_mode m = mode) && bool_decide (stats !! rel = Some (stat_of m)) then Looked held false
              else look_file h rel m
          | _, _ => look_file h rel m
          end
      end
  end.
Definition add_ingest (rel : path) (w : Work) : Work :=
  {| w_ingest := w_ingest w ++ [rel]; w_converge := w_converge w; w_materialize := w_materialize w; w_remove := w_remove w;
     w_conflicts := w_conflicts w; w_hashed := w_hashed w |}.
Definition add_hashed (n : bool) (w : Work) : Work :=
  {| w_ingest := w_ingest w; w_converge := w_converge w; w_materialize := w_materialize w; w_remove := w_remove w;
     w_conflicts := w_conflicts w; w_hashed := if n then w_hashed w + 1 else w_hashed w |}.
Definition act (rel : path) (disk held indexed : option Entry) (w : Work) : Work :=
  match (match held with Some held => classify disk held indexed | None => classify_unstored disk indexed end) with
  | Nothing => w
  | Materialize =>
      {| w_ingest := w_ingest w; w_converge := w_converge w;
         w_materialize := w_materialize w ++ match held with Some e => [(rel, e)] | None => [] end; w_remove := w_remove w;
         w_conflicts := w_conflicts w; w_hashed := w_hashed w |}
  | Remove =>
      {| w_ingest := w_ingest w; w_converge := w_converge w; w_materialize := w_materialize w; w_remove := w_remove w ++ [rel];
         w_conflicts := w_conflicts w; w_hashed := w_hashed w |}
  | Ingest => add_ingest rel w
  | Converge =>
      {| w_ingest := w_ingest w; w_converge := w_converge w ++ [(rel, held)]; w_materialize := w_materialize w;
         w_remove := w_remove w; w_conflicts := w_conflicts w; w_hashed := w_hashed w |}
  | InConflict =>
      {| w_ingest := w_ingest w; w_converge := w_converge w; w_materialize := w_materialize w; w_remove := w_remove w;
         w_conflicts := w_conflicts w ++ [{| cf_path := rel; cf_disk := disk; cf_stored := held; cf_index := indexed |}];
         w_hashed := w_hashed w |}
  end.
Definition survey_one (h : host) (stored : gmap path Entry) (stats : gmap path (Z * Z)) (index : gmap path Entry) (w : Work)
    (rel : path) : Work :=
  let held := stored !! rel in
  let indexed := index !! rel in
  match look h stats held indexed rel with
  | LeftOut hashed => add_hashed hashed w
  | New => add_ingest rel w
  | Looked disk hashed => act rel disk held indexed (add_hashed hashed w)
  end.
(** The paths of the scope, or everything walked, stored or indexed. *)
Definition paths_of (scope : option (list path)) (h : host) (stored index : gmap path Entry) : result checkout_error (gset path) :=
  match scope with
  | Some paths => mret (list_to_set paths)
  | None =>
      '(files, symlinks, dirs) ← ok_or (os_walk os (h_nodes h)) WalkFailed;
      mret (list_to_set (files ++ symlinks ++ dirs) ∪ dom stored ∪ dom index)
  end.
(** A [BTreeSet] in order. *)
Definition in_order (ps : gset path) : list path := sorted_keys (gset_to_gmap tt ps).

(** ** Bringing the directory up to the store *)

Record Brought := {
  b_advanced : list (path * option Entry);
  b_removed : list path;
  b_materialized : list path;
  b_kept_out : gset path;
  b_unmaterialized : list (path * checkout_error);
}.
Definition nothing_brought : Brought :=
  {| b_advanced := []; b_removed := []; b_materialized := []; b_kept_out := ∅; b_unmaterialized := [] |}.
Definition remove_one (b : Brought) (rel : path) : HM Brought :=
  done ← attempt (remove_from os rel);
  match done with
  | Ok _ => mret {| b_advanced := b_advanced b ++ [(rel, None)]; b_removed := b_removed b ++ [rel];
                    b_materialized := b_materialized b; b_kept_out := b_kept_out b; b_unmaterialized := b_unmaterialized b |}
  | Err e => mret {| b_advanced := b_advanced b; b_removed := b_removed b; b_materialized := b_materialized b;
                     b_kept_out := {[rel]} ∪ b_kept_out b; b_unmaterialized := b_unmaterialized b ++ [(rel, e)] |}
  | Panic => panic
  end.
Definition materialize_one (s : store) (b : Brought) (x : path * Entry) : HM Brought :=
  done ← attempt (materialize_entry os s x.1 x.2);
  match done with
  | Ok _ => mret {| b_advanced := b_advanced b ++ [(x.1, Some x.2)]; b_removed := b_removed b;
                    b_materialized := b_materialized b ++ [x.1]; b_kept_out := b_kept_out b; b_unmaterialized := b_unmaterialized b |}
  | Err e => mret {| b_advanced := b_advanced b; b_removed := b_removed b; b_materialized := b_materialized b;
                     b_kept_out := b_kept_out b; b_unmaterialized := b_unmaterialized b ++ [(x.1, e)] |}
  | Panic => panic
  end.
(** Removals deepest first, then what the store holds. *)
Definition bring (s : store) (w : Work) : HM Brought :=
  b ← foldM remove_one nothing_brought (reverse (merge_sort path_le (w_remove w)));
  foldM (materialize_one s) b (w_materialize w).

(** A conflict keeps the store's side through the parse. *)
Definition keep_one (s : store) (st : gmap path (list byte) * gset path) (c : Conflict)
    : result checkout_error (gmap path (list byte) * gset path) :=
  let '(kept, kept_out) := st in
  match cf_stored c with
  | Some (EFile _ stored) => bytes ← blob s stored; mret (<[cf_path c := bytes]> kept, kept_out)
  | Some EDir => mret (kept, kept_out)
  | None => mret (kept, {[cf_path c]} ∪ kept_out)
  end.

(** ** Reconciling *)

Record Reconciled := {
  rc_parsed : bool;
  rc_materialized : list path;
  rc_removed : list path;
  rc_unmaterialized : list (path * checkout_error);
  rc_conflicts : list Conflict;
  rc_hashed : N;
}.
Definition conflict_row_of (c : Conflict) : conflict_row :=
  {| cr_disk := index_blob <$> cf_disk c; cr_stored := index_blob <$> cf_stored c; cr_index := index_blob <$> cf_index c |}.
(** The one transaction: what was brought up, what was ingested, what converged, and the
    conflicts of the paths looked at. *)
Definition ingest_index (s : store) (i : gmap path (list byte * N)) (rel : path) : result checkout_error (gmap path (list byte * N)) :=
  now ← map_err TreeError (entry s rel);
  mret (set_index rel now i).
Definition record_index (s : store) (w : Work) (b : Brought) (i : gmap path (list byte * N))
    : result checkout_error (gmap path (list byte * N)) :=
  let i := foldl (λ i x, set_index x.1 x.2 i) i (b_advanced b) in
  i ← fold_result (ingest_index s) i (w_ingest w);
  mret (foldl (λ i x, set_index x.1 x.2 i) i (w_converge w)).
Definition record_conflicts (scope : option (list path)) (paths : gset path) (cs : list Conflict) (r : gmap path conflict_row)
    : gmap path conflict_row :=
  let r := match scope with None => ∅ | Some _ => foldl (λ r p, delete p r) r (in_order paths) end in
  foldl (λ r c, <[cf_path c := conflict_row_of c]> r) r cs.

Definition reconcile (scope : option (list path)) : M co checkout_error Reconciled :=
  _ ← modify ensure_tables;
  stored ← reads (λ c, map_err TreeError (entries (db_store (co_db c))));
  st ← gets (λ c, stats (db_store (co_db c)));
  index ← gets index_entries;
  paths ← reads (λ c, paths_of scope (co_host c) stored index);
  w ← gets (λ c, foldl (survey_one (co_host c) stored st index) no_work (in_order paths));
  s ← gets (λ c, db_store (co_db c));
  b ← zoom co_host set_host (bring s w);
  kept ← lift (fold_result (keep_one s) (∅, b_kept_out b) (w_conflicts w));
  let parses := match scope with None => true | Some _ => negb (bool_decide (w_ingest w = [])) end in
  _ ← (if parses then
         d ← reads (λ c, parse_checkout (match scope with None => None | Some _ => Some (w_ingest w) end) kept.1 kept.2
                           (co_host c) (co_db c));
         modify (set_db d)
       else mret tt);
  i ← reads (λ c, record_index (db_store (co_db c)) w b (index_rows c));
  _ ← modify (λ c, set_tables i (record_conflicts scope paths (w_conflicts w) (co_conflict c)) c);
  mret {| rc_parsed := parses; rc_materialized := b_materialized b; rc_removed := reverse (b_removed b);
          rc_unmaterialized := b_unmaterialized b; rc_conflicts := w_conflicts w; rc_hashed := w_hashed w |}.
End reconcile.
