(* ===== verification/CheckoutHost.v ===== *)
(** * What the calls on the source directory leave

    The directory of [Checkout] is a tree.  Whatever calls fail, removing a path and
    materializing an entry keep it one, touch only the path, the name it is staged under and
    missing directories above it, and leave at the path what was there or what was asked. *)

From S2P Require Import Prelude Substrate Text Tree Merge TreeSync Proposal StateM Checkout.
From Stdlib Require Import NArith Lia.
Local Open Scope N_scope.

(** ** Plain paths *)

Definition good (n : list byte) : Prop := n ≠ [] ∧ n ≠ dot ∧ n ≠ dotdot ∧ slash ∉ n.

Lemma split_nonempty p : split_slash p ≠ [].
Proof. destruct p as [| b p]; [done |]. cbn. case_bool_decide; [done |]. by destruct (split_slash p). Qed.
Lemma join_split p : join (split_slash p) = p.
Proof.
  induction p as [| b p IH]; [done |]. cbn [split_slash]. pose proof (split_nonempty p).
  case_bool_decide as Hb; destruct (split_slash p) as [| c cs] eqn:E; try done; cbn in *; rewrite <- IH; [by subst b |].
  by destruct cs.
Qed.
Lemma split_no_slash p n : n ∈ split_slash p → slash ∉ n.
Proof.
  revert n. induction p as [| b p IH]; intros n; cbn [split_slash].
  - intros ->%list_elem_of_singleton. apply not_elem_of_nil.
  - pose proof (split_nonempty p). case_bool_decide as Hb; [intros [-> | ?]%elem_of_cons; [apply not_elem_of_nil | by apply IH] |].
    destruct (split_slash p) as [| c cs]; [done |]. intros [-> | Hin]%elem_of_cons; [| by apply IH; right].
    rewrite not_elem_of_cons. split; [done |]. apply IH. left.
Qed.
Lemma split_app n p : slash ∉ n → split_slash (n ++ slash :: p) = n :: split_slash p.
Proof.
  induction n as [| b n IH]; intros Hn; cbn; [done |].
  apply not_elem_of_cons in Hn as [Hb Hn]. rewrite bool_decide_false, IH by done. done.
Qed.
Lemma split_one n : slash ∉ n → split_slash n = [n].
Proof.
  induction n as [| b n IH]; intros Hn; cbn; [done |]. apply not_elem_of_cons in Hn as [Hb Hn]. by rewrite bool_decide_false, IH.
Qed.
Lemma split_join ns : ns ≠ [] → Forall (λ n, slash ∉ n) ns → split_slash (join ns) = ns.
Proof.
  induction ns as [| n ns IH]; [done |]. intros _ [Hn Hns]%Forall_cons. destruct ns as [| n' ns]; [by apply split_one |].
  change (join (n :: n' :: ns)) with (n ++ slash :: join (n' :: ns)). by rewrite split_app, IH.
Qed.

(** A plain path is the join of its names. *)
Lemma plain_good p : plain_relative p = true ↔ Forall good (split_slash p).
Proof.
  unfold plain_relative. rewrite andb_true_iff, negb_true_iff, bool_decide_eq_false, forallb_forall, Forall_forall. split.
  - intros [_ H] n Hn. specialize (H n ltac:(by apply list_elem_of_In)). apply split_no_slash in Hn.
    rewrite !andb_true_iff, !negb_true_iff, !bool_decide_eq_false in H. unfold good. tauto.
  - intros H. split.
    + intros ->. destruct (H []) as [? _]; [left | done].
    + intros n Hn%list_elem_of_In. destruct (H n Hn) as (? & ? & ? & _). by rewrite !bool_decide_false.
Qed.
Lemma component_of_good n : good n → component_of n = Some (Normal n).
Proof. intros (? & ? & ? & _). unfold component_of. rewrite !bool_decide_false; naive_solver. Qed.
Lemma plain_components p : plain_relative p = true → components p = Normal <$> split_slash p.
Proof.
  rewrite plain_good. unfold components. pose proof (split_nonempty p). destruct (split_slash p) as [| n ns]; [done |].
  intros [Hn Hns]%Forall_cons. rewrite (component_of_good n Hn). destruct Hn as (? & ? & _). rewrite !bool_decide_false by done.
  cbn. f_equal. clear -Hns. induction Hns as [| n ns Hn Hns IH]; [done |]. cbn. by rewrite component_of_good, IH.
Qed.
Lemma plain_names p : plain_relative p = true → names p = split_slash p.
Proof.
  intros Hp. unfold names. rewrite (plain_components p Hp). induction (split_slash p) as [| n ns IH]; [done |]. cbn. by rewrite IH.
Qed.
Lemma plain_inside p : plain_relative p = true → inside p = true.
Proof.
  intros Hp. unfold inside. rewrite (plain_components p Hp). pose proof (split_nonempty p). rewrite andb_true_iff. split.
  - rewrite negb_true_iff, bool_decide_eq_false. by destruct (split_slash p).
  - apply forallb_forall. intros c (n & <- & _)%in_map_iff. done.
Qed.

Lemma join_snoc ns n : ns ≠ [] → join (ns ++ [n]) = join ns ++ slash :: n.
Proof.
  induction ns as [| x ns IH]; [done |]. intros _. destruct ns as [| y ns]; [done |].
  cbn [app]. change (join (x :: y :: ns ++ [n])) with (x ++ slash :: join ((y :: ns) ++ [n])).
  rewrite IH by done. change (join (x :: y :: ns)) with (x ++ slash :: join (y :: ns)). by rewrite <- app_assoc.
Qed.
(** A plain path is one name, or a name in a plain directory. *)
Lemma plain_cases p : plain_relative p = true →
  good (file_name p) ∧ ((dir_of p = [] ∧ p = file_name p) ∨
    (plain_relative (dir_of p) = true ∧ dir_of p ≠ [] ∧ p = dir_of p ++ slash :: file_name p)).
Proof.
  intros Hp. unfold dir_of, file_name. rewrite (plain_names p Hp). apply plain_good in Hp.
  pose proof (join_split p) as Hj. pose proof (split_nonempty p) as Hne.
  destruct (exists_last Hne) as (ns & n & E). rewrite E in *. rewrite removelast_last, last_snoc. cbn [default].
  apply Forall_app in Hp as [Hns [Hn _]%Forall_cons]. split; [done |].
  destruct ns as [| x ns']; [by left |]. right. assert (split_slash (join (x :: ns')) = x :: ns') as Es.
  { apply split_join; [done |]. eapply Forall_impl; [exact Hns |]. by intros y (_ & _ & _ & ?). }
  split_and!.
  - apply plain_good. by rewrite Es.
  - intros E0. rewrite E0 in Es. cbn in Es. injection Es as <- <-. apply Forall_cons in Hns as [(? & _) _]. done.
  - rewrite <- Hj. by rewrite join_snoc.
Qed.
Lemma plain_nonempty p : plain_relative p = true → p ≠ [].
Proof. by intros Hp ->. Qed.
Lemma join2_dir_of p : plain_relative p = true → join2 (dir_of p) (file_name p) = p.
Proof.
  intros Hp. unfold join2. destruct (plain_cases p Hp) as [_ [[E1 E2] | (_ & Hd & E)]].
  - by rewrite E1, bool_decide_true, <- E2.
  - by rewrite bool_decide_false, <- E.
Qed.

(** The directories above a name in a directory. *)
Lemma parents_name n : slash ∉ n → parents n = [].
Proof.
  intros Hn. destruct (parents n) as [| q qs] eqn:E; [done |]. exfalso. assert (q ∈ parents n) as Hq by (rewrite E; left).
  apply elem_of_parents in Hq as (r & ->). apply Hn, elem_of_app. right. left.
Qed.
Lemma parents_in d n q : slash ∉ n → q ∈ parents (d ++ slash :: n) ↔ q = d ∨ q ∈ parents d.
Proof.
  intros Hn. rewrite !elem_of_parents. split.
  - intros (r & E). apply app_eq_inv in E as [(k & -> & E) | (k & -> & E)].
    + destruct k as [| b k]; cbn in E; simplify_eq; [left; by rewrite app_nil_r |]. right. by exists k.
    + destruct k as [| b k]; cbn in E; simplify_eq; [left; by rewrite app_nil_r |].
      exfalso. apply Hn, elem_of_app. right. left.
  - intros [-> | (r & ->)]; [by exists n |]. exists (r ++ slash :: n). by rewrite <- app_assoc.
Qed.
Lemma parents_dir_of p q : plain_relative p = true → q ∈ parents p ↔ dir_of p ≠ [] ∧ (q = dir_of p ∨ q ∈ parents (dir_of p)).
Proof.
  intros Hp. destruct (plain_cases p Hp) as [(_ & _ & _ & Hs) [[E1 E2] | (_ & Hd & E)]].
  - assert (parents p = []) as -> by (rewrite E2; by apply parents_name). rewrite E1.
    split; [by intros ?%not_elem_of_nil | naive_solver].
  - rewrite E at 1. rewrite parents_in by done. naive_solver.
Qed.
Lemma plain_parent p q : plain_relative p = true → q ∈ parents p → plain_relative q = true.
Proof.
  revert q. induction p as [p IH] using (well_founded_induction (well_founded_ltof _ length)). intros q Hp Hq.
  apply (parents_dir_of p q Hp) in Hq as [Hd Hq]. destruct (plain_cases p Hp) as [_ [[E1 _] | (Hpl & _ & E)]]; [done |].
  destruct Hq as [-> | Hq]; [done |]. apply (IH (dir_of p)); [| done..].
  unfold ltof. rewrite E at 2. rewrite length_app. cbn. lia.
Qed.

(** ** The directory as a tree *)

Definition is_link (n : option node) : bool := match n with Some (NLink _ _) => true | _ => false end.
Definition readable (n : node) : Prop := match n with NFile perm _ _ => N.land perm 292 ≠ 0 | _ => True end.
(** Every node has a plain path, directories above it, and a read bit when it is a file. *)
Definition tree_ok (ns : gmap path node) : Prop :=
  ∀ p n, ns !! p = Some n → plain_relative p = true ∧ readable n ∧ ∀ d, d ∈ parents p → ns !! d = Some NDir.
Definition linkless (ns : gmap path node) (p : path) : Prop := ∀ q, q ∈ parents p → is_link (ns !! q) = false.
(** The directory [p] names can hold entries. *)
Definition dir_at (ns : gmap path node) (d : path) : Prop := d = [] ∨ ns !! d = Some NDir.
#[global] Instance dir_at_dec ns d : Decision (dir_at ns d).
Proof. unfold dir_at. apply _. Defined.

Lemma tree_linkless ns p n : tree_ok ns → ns !! p = Some n → linkless ns p.
Proof. intros Ht Hp q Hq. destruct (Ht p n Hp) as (_ & _ & Hd). by rewrite (Hd q Hq). Qed.
Lemma tree_leaf ns p : tree_ok ns → ns !! p ≠ Some NDir → map_Forall (λ q _, p ∉ parents q) ns.
Proof. intros Ht Hn q n Hq Hp. destruct (Ht q n Hq) as (_ & _ & Hd). by apply Hn, Hd. Qed.
Lemma tree_delete ns p : tree_ok ns → map_Forall (λ q _, p ∉ parents q) ns → tree_ok (delete p ns).
Proof.
  intros Ht Hl q n [Hne Hq]%lookup_delete_Some. destruct (Ht q n Hq) as (? & ? & Hd). split_and!; [done.. |].
  intros d Hdq. rewrite lookup_delete_ne; [by apply Hd |]. intros ->. by eapply Hl.
Qed.
Lemma tree_insert ns p n :
  tree_ok ns → plain_relative p = true → readable n → dir_at ns (dir_of p) → (n = NDir ∨ map_Forall (λ q _, p ∉ parents q) ns) →
  tree_ok (<[p := n]> ns).
Proof.
  intros Ht Hp Hr Hd Hn q n' Hq.
  assert (∀ d, d ∈ parents p → d ≠ p ∧ ns !! d = Some NDir) as Habove.
  { intros d Hdp. split; [intros ->; by apply parents_irrefl in Hdp |]. apply (parents_dir_of p d Hp) in Hdp as [Hne Hdp].
    destruct Hd as [? | Hd]; [done |]. destruct Hdp as [-> | Hdp]; [done |]. by destruct (Ht _ _ Hd) as (_ & _ & Hx); apply Hx. }
  destruct (decide (q = p)) as [-> | Hqp].
  - rewrite lookup_insert_eq in Hq. injection Hq as <-. split_and!; [done.. |]. intros d Hdp. destruct (Habove d Hdp).
    by rewrite lookup_insert_ne.
  - rewrite lookup_insert_ne in Hq by done. destruct (Ht q n' Hq) as (? & ? & Hdq). split_and!; [done.. |].
    intros d Hd'. destruct (decide (d = p)) as [-> | ?]; [| rewrite lookup_insert_ne by done; by apply Hdq].
    rewrite lookup_insert_eq. destruct Hn as [-> | Hn]; [done |]. exfalso. by eapply Hn.
Qed.

(** ** Permission bits *)

Lemma testbit_292 i : N.testbit 292 i = (i =? 2) || (i =? 5) || (i =? 8).
Proof.
  destruct (N.lt_ge_cases i 9) as [Hi | Hi].
  - assert (i = 0 ∨ i = 1 ∨ i = 2 ∨ i = 3 ∨ i = 4 ∨ i = 5 ∨ i = 6 ∨ i = 7 ∨ i = 8) as Hc by lia. by repeat destruct Hc as [-> | Hc]; subst.
  - rewrite (N.bits_above_log2 292) by (change (N.log2 292) with 8; lia). symmetry. rewrite !orb_false_iff, !N.eqb_neq. lia.
Qed.
Lemma testbit_73 i : N.testbit 73 i = (i =? 0) || (i =? 3) || (i =? 6).
Proof.
  destruct (N.lt_ge_cases i 9) as [Hi | Hi].
  - assert (i = 0 ∨ i = 1 ∨ i = 2 ∨ i = 3 ∨ i = 4 ∨ i = 5 ∨ i = 6 ∨ i = 7 ∨ i = 8) as Hc by lia. by repeat destruct Hc as [-> | Hc]; subst.
  - rewrite (N.bits_above_log2 73) by (change (N.log2 73) with 6; lia). symmetry. rewrite !orb_false_iff, !N.eqb_neq. lia.
Qed.
Lemma land_zero x y : N.land x y = 0 ↔ ∀ i, N.testbit y i = true → N.testbit x i = false.
Proof.
  split.
  - intros E i Hy. pose proof (f_equal (λ z, N.testbit z i) E) as Hx. cbv beta in Hx. rewrite N.land_spec, Hy, andb_true_r, N.bits_0 in Hx. done.
  - intros H. apply N.bits_inj_0. intros i. rewrite N.land_spec. destruct (N.testbit y i) eqn:E; [by rewrite H | by rewrite andb_false_r].
Qed.
Lemma read_bits x : N.land x 292 = 0 ↔ N.testbit x 2 = false ∧ N.testbit x 5 = false ∧ N.testbit x 8 = false.
Proof.
  rewrite land_zero. setoid_rewrite testbit_292. split; [intros H; split_and!; by apply H |].
  intros (? & ? & ?) i. rewrite !orb_true_iff, !N.eqb_eq. intros [[-> | ->] | ->]; done.
Qed.
Lemma exec_bits x : N.land x 73 = 0 ↔ N.testbit x 0 = false ∧ N.testbit x 3 = false ∧ N.testbit x 6 = false.
Proof.
  rewrite land_zero. setoid_rewrite testbit_73. split; [intros H; split_and!; by apply H |].
  intros (? & ? & ?) i. rewrite !orb_true_iff, !N.eqb_eq. intros [[-> | ->] | ->]; done.
Qed.
(** A mode set on a file with a read bit is the mode the file has. *)
Lemma bits_mode mode perm : mode ≠ Symlink → N.land perm 292 ≠ 0 →
  N.land (mode_bits (Some mode) perm) 292 ≠ 0 ∧ (if N.land (mode_bits (Some mode) perm) 73 =? 0 then Regular else Executable) = mode.
Proof.
  intros Hm Hr. set (bits := N.ldiff perm 73).
  assert (∀ i, N.testbit bits i = N.testbit perm i && negb ((i =? 0) || (i =? 3) || (i =? 6))) as Hb.
  { intros i. unfold bits. by rewrite N.ldiff_spec, testbit_73. }
  destruct mode; [| | done]; cbn [mode_bits]; fold bits.
  - rewrite read_bits, !Hb. rewrite read_bits in Hr. split; [by rewrite !andb_true_r |].
    assert (N.land bits 73 = 0) as -> by (rewrite exec_bits, !Hb; by rewrite !andb_false_r). done.
  - set (x := N.shiftr (N.land bits 292) 2).
    assert (∀ i, N.testbit x i = N.testbit perm (i + 2) && ((i =? 0) || (i =? 3) || (i =? 6))) as Hx.
    { intros i. unfold x. rewrite N.shiftr_spec', N.land_spec, Hb, testbit_292. destruct (N.testbit perm (i + 2)); [| done]. rewrite !andb_true_l.
      destruct (N.lt_ge_cases i 9) as [Hi | Hi].
      - assert (i = 0 ∨ i = 1 ∨ i = 2 ∨ i = 3 ∨ i = 4 ∨ i = 5 ∨ i = 6 ∨ i = 7 ∨ i = 8) as Hc by lia. by repeat destruct Hc as [-> | Hc]; subst.
      - apply eq_bool_prop_intro. rewrite !andb_True, !negb_True, !orb_True. unfold Is_true. repeat case_match; rewrite ?N.eqb_eq in *; lia. }
    assert (N.land bits x = 0) as Hd.
    { apply N.bits_inj_0. intros i. rewrite N.land_spec, Hb, Hx. destruct ((i =? 0) || (i =? 3) || (i =? 6)); by rewrite ?andb_false_r. }
    assert (bits + x = N.lor bits x) as -> by (rewrite N.add_nocarry_lxor by done; by apply N.lxor_lor).
    rewrite read_bits, !N.lor_spec, !Hb, !Hx. rewrite read_bits in Hr. split; [by rewrite !andb_true_r, !andb_false_r, !orb_false_r |].
    assert (N.land (N.lor bits x) 73 ≠ 0) as Hne; [| by apply N.eqb_neq in Hne as ->].
    rewrite exec_bits, !N.lor_spec, !Hb, !Hx. by rewrite !andb_false_r, !andb_true_r, !orb_false_l.
Qed.

(** The calls see a tree as its nodes. *)
Section calls.
Context (os : Os).
Implicit Types (h : host) (p d : path).
Definition clean h : Prop := h_outside h = [].

Lemma follow_plain h d : clean h → linkless (h_nodes h) d → is_link (h_nodes h !! d) = false →
  follow os h d = if bool_decide (d = []) then Some (Inside []) else if bool_decide (is_Some (h_nodes h !! d)) then Some (Inside d) else None.
Proof.
  intros Hc Hl Hd. unfold follow. rewrite Hc. case_bool_decide; [done |]. rewrite bool_decide_false by apply not_elem_of_nil.
  match goal with |- context [existsb ?f ?l] => assert (existsb f l = false) as ->; [| done] end. apply not_true_iff_false. rewrite existsb_exists. intros (q & Hq & Hx).
  apply list_elem_of_In, elem_of_app in Hq as [Hq | ->%list_elem_of_singleton]; [apply Hl in Hq |]; unfold is_link in *; by repeat case_match.
Qed.
Lemma dir_of_linkless ns p : plain_relative p = true → linkless ns p → linkless ns (dir_of p) ∧ is_link (ns !! dir_of p) = false ∨ dir_of p = [].
Proof.
  intros Hp Hl. destruct (decide (dir_of p = [])); [by right |]. left. split.
  - intros q Hq. apply Hl, parents_dir_of; naive_solver.
  - apply Hl, parents_dir_of; naive_solver.
Qed.
Lemma seat_plain h p : clean h → plain_relative p = true → linkless (h_nodes h) p →
  seat os h p = if decide (dir_at (h_nodes h) (dir_of p)) then Some (Inside p) else None.
Proof.
  intros Hc Hp Hl. unfold seat. pose proof (join2_dir_of p Hp) as Hj. destruct (dir_of_linkless _ p Hp Hl) as [[H1 H2] | E].
  - rewrite follow_plain by done. case_bool_decide as E.
    + rewrite bool_decide_true by (by left). rewrite decide_True by (by left). by rewrite <- E, Hj.
    + unfold dir_at. case_bool_decide as Hs; [| rewrite decide_False; [done | intros [? | Hx]; [done | apply Hs; by rewrite Hx]]].
      destruct (decide _) as [Hx | Hx]; [by rewrite bool_decide_true, Hj | by rewrite bool_decide_false].
  - rewrite E in *. change (follow os h []) with (Some (Inside [])). cbv beta iota.
    rewrite bool_decide_true by (by left). rewrite decide_True by (by left). by rewrite Hj.
Qed.
Lemma node_at_plain h p : clean h → tree_ok (h_nodes h) → plain_relative p = true → linkless (h_nodes h) p →
  node_at os h p = h_nodes h !! p.
Proof.
  intros Hc Ht Hp Hl. unfold node_at. rewrite seat_plain by done. case_decide as Hd; [done |].
  destruct (h_nodes h !! p) as [n |] eqn:E; [| done]. exfalso. destruct (Ht p n E) as (_ & _ & Hx). apply Hd.
  destruct (decide (dir_of p = [])) as [? | Hne]; [by left |]. right. apply Hx, parents_dir_of; naive_solver.
Qed.

(** ** Runs of calls *)

Definition post {A} (m : M host checkout_error A) h (Q : result checkout_error A → host → Prop) : Prop := Q (m h).1 (m h).2.
Lemma post_bind {A B} (m : M host checkout_error A) (f : A → M host checkout_error B) h Q :
  post m h (λ r h1, match r with Ok a => post (f a) h1 Q | Err e => Q (Err e) h1 | Panic => Q Panic h1 end) → post (m ≫= f) h Q.
Proof. unfold post, mbind, M_bind. by destruct (m h) as [[] ?]. Qed.
Lemma post_attempt {A} (m : M host checkout_error A) h Q :
  post m h (λ r h1, match r with Panic => Q Panic h1 | _ => Q (Ok r) h1 end) → post (attempt m) h Q.
Proof. unfold post, attempt. by destruct (m h) as [[] ?]. Qed.
Lemma post_mono {A} (m : M host checkout_error A) h (Q Q' : _ → _ → Prop) : post m h Q → (∀ r h', Q r h' → Q' r h') → post m h Q'.
Proof. unfold post. auto. Qed.

(** The same directory, some calls later. *)
Definition same h h' : Prop := h_nodes h' = h_nodes h ∧ h_outside h' = h_outside h.
#[global] Instance same_refl : Reflexive same.
Proof. by split. Qed.
Lemma same_trans h1 h2 h3 : same h1 h2 → same h2 h3 → same h1 h3.
Proof. intros [] []. split; congruence. Qed.
Lemma post_call {A} (f : host → result checkout_error A * host) h Q :
  (∀ h', same h h' → Q (Err IoError) h' ∧ post f h' Q) → post (call os f) h Q.
Proof.
  intros HQ. unfold post, call. set (h' := {| h_nodes := _ |}). destruct (HQ h') as [H1 H2]; [done |]. by destruct (os_fails _ _).
Qed.
(** A call that leaves the directory as it is. *)
Lemma post_still {A} (f : host → result checkout_error A) h Q :
  (∀ h', same h h' → Q (Err IoError) h' ∧ Q (f h') h') → post (call os (λ h, (f h, h))) h Q.
Proof. intros HQ. by apply post_call. Qed.
Lemma follow_same h h' d : same h h' → follow os h' d = follow os h d.
Proof. intros [E1 E2]. unfold follow. by rewrite E1, E2. Qed.
Lemma post_resolves h d Q :
  (∀ h', same h h' → Q (Err IoError) h' ∧ ∀ x, follow os h d = Some x → Q (Ok (bool_decide (x ≠ Outside))) h') →
  post (resolves_inside os d) h Q.
Proof.
  intros HQ. apply post_call. intros h' Hs. destruct (HQ h' Hs) as [H1 H2]. split; [done |]. unfold post.
  rewrite (follow_same h h') by done. destruct (follow os h d) as [[q |] |] eqn:E; cbn; [by apply (H2 _ eq_refl).. | done].
Qed.
Lemma post_order_dir h d Q : (∀ h', same h h' → Q (Err IoError) h' ∧ Q (Ok tt) h') → post (order_dir os d) h Q.
Proof.
  intros HQ. apply post_call. intros h' Hs. destruct (HQ h' Hs). split; [done |]. unfold post. by destruct (follow os h' d).
Qed.
Lemma post_ensure h (b : bool) e Q : (b = true → Q (Ok tt) h) → (b = false → Q (Err e) h) → post (ensureM b e) h Q.
Proof. intros H1 H2. unfold post. destruct b; cbn; auto. Qed.

(** ** Removing a path *)

Definition dropped_at p h h' : Prop :=
  h_nodes h' = h_nodes h ∨ (h_nodes h' = delete p (h_nodes h) ∧ map_Forall (λ q _, p ∉ parents q) (h_nodes h)).
Lemma post_unlink (is_directory : bool) h p Q :
  clean h → tree_ok (h_nodes h) → plain_relative p = true → linkless (h_nodes h) p →
  (∀ r h', r ≠ Panic → clean h' → dropped_at p h h' → (r = Ok tt → h_nodes h' !! p = None) → Q r h') →
  post (if is_directory then remove_dir os p else remove_file os p) h Q.
Proof.
  intros Hc Ht Hp Hl HQ.
  assert (∀ h', same h h' → clean h' ∧ seat os h' p = seat os h p) as Hsame.
  { intros h' [E1 E2]. unfold clean, seat. rewrite E1, E2. split; [done |]. by rewrite (follow_same h h'). }
  destruct is_directory; apply post_call; intros h' Hs; (split; [apply HQ; [done | by apply Hsame | left; apply Hs | done] |]);
    unfold post; destruct (Hsame h' Hs) as [Hc' ->]; rewrite seat_plain by done; destruct Hs as [E1 E2];
    (case_decide; [| apply HQ; [done.. | by left | done]]); rewrite E1; destruct (h_nodes h !! p) as [n |] eqn:E;
    try (apply HQ; [done.. | by left | done]).
  - destruct n; try (apply HQ; [done.. | by left | done]).
    case_bool_decide; [| apply HQ; [done.. | by left | done]]. cbn. apply HQ; [done.. | by right |].
    intros _. cbn. by rewrite lookup_delete_eq.
  - destruct n; try (apply HQ; [done.. | by left | done]); cbn;
      (apply HQ; [done.. | right; split; [done | apply tree_leaf; [done | by rewrite E]] | intros _; cbn; by rewrite lookup_delete_eq]).
Qed.
Lemma clean_same h h' : same h h' → clean h → clean h'.
Proof. intros [_ E]. unfold clean. by rewrite E. Qed.
Definition removed_or_left p h (r : result checkout_error unit) h' : Prop :=
  r ≠ Panic ∧ clean h' ∧ dropped_at p h h' ∧ (r = Ok tt → h_nodes h' !! p = None).
Lemma remove_from_spec h p :
  clean h → tree_ok (h_nodes h) → plain_relative p = true → linkless (h_nodes h) p →
  post (remove_from os p) h (removed_or_left p h).
Proof.
  intros Hc Ht Hp Hl. unfold remove_from. rewrite (plain_inside p Hp).
  assert (∀ h' e, same h h' → removed_or_left p h (Err e) h') as Herr.
  { intros h' e Hs. split_and!; [done | by eapply clean_same | left; apply Hs | done]. }
  apply post_bind, post_ensure; intros Hi; [| done]. clear Hi.
  apply post_bind, post_resolves. intros h1 H1. split; [by apply Herr |]. intros _ _.
  apply post_bind, post_resolves. intros h2 H2. assert (same h h2) as H12 by by eapply same_trans. split; [by apply Herr |]. intros x _.
  apply post_bind, post_ensure; intros _; [| by apply Herr].
  apply post_bind. unfold reads, post at 1. cbn [fst snd]. destruct (ok_or (node_at os h2 p) IoError) as [n | e |] eqn:En; cbn [fst snd];
    [| by apply Herr | by unfold ok_or in En; destruct (node_at os h2 p)].
  apply post_bind. pose proof H12 as [En2 _]. assert (∀ X Y : M host checkout_error unit,
    (match n with NDir => X | _ => Y end) = if (match n with NDir => true | _ => false end) then X else Y) as -> by by destruct n.
  apply post_unlink; rewrite ?En2; [by eapply clean_same | done.. |]. intros r h3 Hr Hc3 Hd3 Hn3.
  assert (∀ h', same h3 h' → dropped_at p h h') as Hd.
  { intros h' [E _]. destruct Hd3 as [E3 | [E3 Hl3]]; [left | right]; rewrite E, E3, ?En2; [done |]. split; [done | by rewrite <- En2]. }
  destruct r as [[] | e |]; [| by split_and!; [done | done | by apply Hd | done] | done].
  apply post_order_dir. intros h4 H4. split; (split_and!; [done | by eapply clean_same | by apply Hd |]); [done |].
  intros _. destruct H4 as [-> _]. by apply Hn3.
Qed.

(** ** Making directories *)

Lemma foldM_app {S E A B} (f : B → A → M S E B) b l1 l2 s :
  foldM f b (l1 ++ l2) s = (foldM f b l1 ≫= λ b, foldM f b l2) s.
Proof.
  revert b s. induction l1 as [| a l1 IH]; intros b s; cbn [foldM app]; [done |]. unfold mbind, M_bind.
  destruct (f b a s) as [[b' | |] s']; [apply IH | done..].
Qed.
Lemma names_nil : names [] = [].
Proof. done. Qed.
Lemma ancestors_plain d : plain_relative d = true → ancestors d = d :: ancestors (dir_of d).
Proof.
  intros Hp. unfold ancestors. pose proof (plain_names d Hp) as En.
  destruct (plain_cases d Hp) as [Hg [[E1 E2] | (Hd & Hne & E)]].
  - rewrite E1, names_nil, En, E2, split_one by apply Hg. done.
  - rewrite (plain_names (dir_of d) Hd). assert (names d = split_slash (dir_of d) ++ [file_name d]) as ->.
    { rewrite En. unfold dir_of at 1, file_name. rewrite En. destruct (exists_last (split_nonempty d)) as (ns & n & Es).
      rewrite Es, removelast_last, last_snoc. cbn [default]. f_equal. rewrite split_join; [done | |].
      - intros ->. unfold dir_of in Hne. by rewrite En, Es in Hne.
      - apply Forall_forall. intros x Hx. apply (split_no_slash d). rewrite Es. set_solver. }
    rewrite length_app, Nat.add_comm. cbn [length Nat.add ancestors_of].
    destruct (split_slash (dir_of d) ++ [file_name d]) eqn:Ex; [by apply app_eq_nil in Ex as [_ ?] |]. rewrite <- Ex.
    rewrite removelast_last. f_equal. rewrite join_snoc by apply split_nonempty. by rewrite join_split, <- E.
Qed.
Definition grown (P : path → Prop) (ns ns' : gmap path node) : Prop :=
  ∀ q, ns' !! q = ns !! q ∨ (P q ∧ ns !! q = None ∧ ns' !! q = Some NDir).
Lemma grown_refl P ns : grown P ns ns.
Proof. by left. Qed.
Lemma grown_link P ns ns' q : grown P ns ns' → is_link (ns' !! q) = is_link (ns !! q).
Proof. intros Hg. destruct (Hg q) as [-> | (_ & -> & ->)]; done. Qed.
Lemma grown_linkless P ns ns' p : grown P ns ns' → linkless ns p → linkless ns' p.
Proof. intros Hg Hl q Hq. rewrite (grown_link _ _ _ _ Hg). by apply Hl. Qed.
Lemma make_one_spec h d :
  clean h → tree_ok (h_nodes h) → plain_relative d = true → linkless (h_nodes h) d → is_link (h_nodes h !! d) = false →
  dir_at (h_nodes h) (dir_of d) →
  post (make_one os d) h (λ r h', r ≠ Panic ∧ clean h' ∧ tree_ok (h_nodes h') ∧ grown (λ q, q = d) (h_nodes h) (h_nodes h')
    ∧ (r = Ok tt → dir_at (h_nodes h') d)).
Proof.
  intros Hc Ht Hp Hl Hd Hdir. unfold make_one, post at 1. pose proof (plain_nonempty d Hp) as Hne.
  unfold is_dir. rewrite follow_plain, (bool_decide_false (d = [])) by done.
  destruct (h_nodes h !! d) as [n |] eqn:E; cbn.
  - case_bool_decide as Hb; cbn.
    + split_and!; [done.. | apply grown_refl |]. intros _. right. rewrite E. destruct Hb as [? | Hb]; [done |]. congruence.
    + apply post_call. intros h' Hs. pose proof Hs as [E1 _].
      split; [split_and!; [done | by eapply clean_same | by rewrite E1 | rewrite E1; apply grown_refl | done] |].
      unfold post. rewrite seat_plain by (rewrite ?E1; try done; by eapply clean_same). rewrite E1, decide_True, E by done. cbn.
      split_and!; [done | by eapply clean_same | by rewrite E1 | rewrite E1; apply grown_refl | done].
  - apply post_call. intros h' Hs. pose proof Hs as [E1 _].
    split; [split_and!; [done | by eapply clean_same | by rewrite E1 | rewrite E1; apply grown_refl | done] |].
    unfold post. rewrite seat_plain by (rewrite ?E1; try done; by eapply clean_same). rewrite E1, decide_True, E by done. cbn. rewrite E1.
    split_and!; [done | by apply (clean_same h h') | apply tree_insert; auto; done | | by intros _; right; rewrite lookup_insert_eq].
    intros q. destruct (decide (q = d)) as [-> | Hq]; [right; by rewrite lookup_insert_eq | left; by rewrite lookup_insert_ne].
Qed.
Lemma create_dir_all_spec d h :
  clean h → tree_ok (h_nodes h) → d = [] ∨ (plain_relative d = true ∧ linkless (h_nodes h) d ∧ is_link (h_nodes h !! d) = false) →
  post (create_dir_all os d) h (λ r h', r ≠ Panic ∧ clean h' ∧ tree_ok (h_nodes h')
    ∧ grown (λ q, q = d ∨ q ∈ parents d) (h_nodes h) (h_nodes h') ∧ (r = Ok tt → dir_at (h_nodes h') d)).
Proof.
  revert h. induction d as [d IH] using (well_founded_induction (well_founded_ltof _ length)). intros h Hc Ht [-> | (Hp & Hl & Hd)].
  { unfold create_dir_all, post. cbn. split_and!; [done.. | apply grown_refl | by left]. }
  unfold create_dir_all. rewrite ancestors_plain, reverse_cons by done. unfold post at 1. rewrite foldM_app.
  apply (post_bind (create_dir_all os (dir_of d))). eapply post_mono.
  { apply IH; [| done.. |].
    - unfold ltof. destruct (plain_cases d Hp) as [(? & _) [[E1 _] | (_ & _ & E)]].
      + rewrite E1. pose proof (plain_nonempty d Hp). destruct d; [done | cbn; lia].
      + rewrite E at 2. rewrite length_app. cbn. lia.
    - destruct (plain_cases d Hp) as [_ [[E1 _] | (Hpd & Hne & _)]]; [by left | right].
      destruct (dir_of_linkless _ d Hp Hl) as [[]|]; done. }
  intros r h1 (Hr & Hc1 & Ht1 & Hg1 & Hd1).
  assert (∀ q, q = dir_of d ∨ q ∈ parents (dir_of d) → dir_of d ≠ [] → q = d ∨ q ∈ parents d) as Hup.
  { intros q Hq Hne. right. apply parents_dir_of; auto. }
  assert (grown (λ q, q = d ∨ q ∈ parents d) (h_nodes h) (h_nodes h1)) as Hg1'.
  { intros q. destruct (Hg1 q) as [? | (Hq & Hq1 & Hq2)]; [by left |]. right. split_and!; [| done..].
    destruct (decide (dir_of d = [])) as [E | Hne]; [| by apply Hup].
    exfalso. rewrite E in Hq. destruct Hq as [-> | Hq]; [| by apply not_elem_of_nil in Hq].
    destruct (Ht1 _ _ Hq2) as (Hx & _). by apply plain_nonempty in Hx. }
  destruct r as [[] | e |]; [| by split_and! | done]. cbn [foldM].
  apply post_bind. eapply post_mono.
  { apply make_one_spec; [done | done | done | by eapply grown_linkless | by rewrite (grown_link _ _ _ _ Hg1) | by apply Hd1]. }
  intros r h2 (Hr2 & Hc2 & Ht2 & Hg2 & Hd2).
  assert (grown (λ q, q = d ∨ q ∈ parents d) (h_nodes h) (h_nodes h2)) as Hg2'.
  { intros q. destruct (Hg2 q) as [E | (-> & E1 & E2)]; [rewrite E; apply Hg1' |]. right. split_and!; [by left | | done].
    destruct (Hg1' d) as [E | (_ & E & _)]; congruence. }
  destruct r as [[] | e |]; [| by split_and! | done]. unfold post. cbn. by split_and!.
Qed.

(** ** Staging *)

Definition STAGED : list byte := bytes_of ".leyline-checkout".
Definition staged p : Prop := STAGED `suffix_of` p.
#[global] Instance staged_dec p : Decision (staged p).
Proof. unfold staged. apply _. Defined.
Definition stage_name (n : list byte) : list byte := bytes_of "." ++ n ++ STAGED.
Lemma join2_plain d n : d = [] ∨ plain_relative d = true → good n →
  plain_relative (join2 d n) = true ∧ dir_of (join2 d n) = d ∧ file_name (join2 d n) = n.
Proof.
  intros Hd Hn. pose proof Hn as (Hne & _ & _ & Hs). assert (∃ ns, split_slash (join2 d n) = ns ++ [n] ∧ Forall good ns ∧ join ns = d) as (ns & E & Hg & Hj).
  { unfold join2. destruct Hd as [-> | Hd].
    - rewrite bool_decide_true, split_one by done. by exists [].
    - rewrite bool_decide_false by (by apply plain_nonempty). exists (split_slash d). apply plain_good in Hd. split_and!; [| done | apply join_split].
      clear -Hs. induction d as [| b d IH]; cbn [split_slash app]; [by rewrite bool_decide_true, split_one |].
      case_bool_decide; [by rewrite IH |]. rewrite IH. pose proof (split_nonempty d). by destruct (split_slash d). }
  assert (plain_relative (join2 d n) = true) as Hp by (apply plain_good; rewrite E; apply Forall_app; by split; [| constructor]).
  split; [done |]. unfold dir_of, file_name. rewrite plain_names, E by done. rewrite removelast_last, last_snoc. by cbn.
Qed.
Lemma stage_name_good n : slash ∉ n → good (stage_name n).
Proof.
  intros Hn. unfold good, stage_name. split_and!.
  - done.
  - intros E%(f_equal length). rewrite !length_app in E. cbn in E. lia.
  - intros E%(f_equal length). rewrite !length_app in E. cbn in E. lia.
  - rewrite !not_elem_of_app. split_and!; [by vm_compute; set_solver | done |]. unfold STAGED. apply (bool_decide_eq_false_1 _). by vm_compute.
Qed.
Lemma staging_plain p : plain_relative p = true →
  plain_relative (staging_path p) = true ∧ dir_of (staging_path p) = dir_of p ∧ file_name (staging_path p) = stage_name (file_name p).
Proof.
  intros Hp. destruct (plain_cases p Hp) as [(_ & _ & _ & Hs) Hd]. apply join2_plain; [| by apply stage_name_good].
  destruct Hd as [[-> _] | (? & _)]; auto.
Qed.
Lemma staging_inj p p' : plain_relative p = true → plain_relative p' = true → staging_path p = staging_path p' → p = p'.
Proof.
  intros Hp Hp' E. destruct (staging_plain p Hp) as (_ & E1 & E2), (staging_plain p' Hp') as (_ & E1' & E2').
  rewrite E in E1, E2. rewrite <- (join2_dir_of p), <- (join2_dir_of p') by done. f_equal; [congruence |].
  rewrite E2 in E2'. unfold stage_name in E2'. apply app_inv_head, app_inv_tail in E2'. done.
Qed.
Lemma staging_staged p : staged (staging_path p).
Proof.
  unfold staged, staging_path, join2. set (n := bytes_of "." ++ _). assert (STAGED `suffix_of` n) as [k ->].
  { unfold n. rewrite app_assoc. by eexists. }
  case_bool_decide; [by exists k |]. exists (dir_of p ++ slash :: k). by rewrite <- app_assoc.
Qed.

(** ** Writing a path through its staged name *)

Section stage.
Context (p : path) (ns : gmap path node).
Hypothesis Hp : plain_relative p = true.
Hypothesis Hnp : ¬ staged p.
Hypothesis Ht : tree_ok ns.
Hypothesis Hl : linkless ns p.
Hypothesis Hdir : dir_at ns (dir_of p).
Notation s := (staging_path p).

(** The directory but for the staged name, where [P] holds. *)
Definition but_staged (P : option node → Prop) h : Prop :=
  clean h ∧ tree_ok (h_nodes h) ∧ (∀ q, q ≠ s → h_nodes h !! q = ns !! q) ∧ P (h_nodes h !! s).
Lemma not_staging : p ≠ s.
Proof using Hnp. intros E. apply Hnp. rewrite E. apply staging_staged. Qed.
Lemma but_staged_same P h h' : same h h' → but_staged P h → but_staged P h'.
Proof. intros [E1 E2] (? & ? & ? & ?). unfold but_staged, clean. by rewrite E1, E2. Qed.
Lemma but_staged_mono (P P' : option node → Prop) h : (∀ n, P n → P' n) → but_staged P h → but_staged P' h.
Proof. intros HP (? & ? & ? & ?). split_and!; auto. Qed.
Lemma above_not_staging q : q = dir_of p ∨ q ∈ parents p → q ≠ s.
Proof using Hp.
  intros Hq ->. destruct (staging_plain p Hp) as (Hps & Eds & _). apply (parents_irrefl s), parents_dir_of; [done |]. rewrite Eds.
  rewrite parents_dir_of in Hq by done. split; [| naive_solver].
  intros E. rewrite E in Hq. destruct Hq as [Hq | [? _]]; [| done]. by apply (plain_nonempty s).
Qed.
Lemma dir_kept P h : but_staged P h → dir_at (h_nodes h) (dir_of p).
Proof using Hp Hdir.
  intros (_ & _ & Hq & _). destruct Hdir as [? | Hd]; [by left |]. right. rewrite Hq; [done |]. apply above_not_staging. by left.
Qed.
Lemma seats P h : but_staged P h → seat os h s = Some (Inside s) ∧ seat os h p = Some (Inside p).
Proof using Hp Hl Hdir.
  intros Hb. pose proof (dir_kept _ _ Hb) as Hd. destruct Hb as (Hc & Ht' & Hq & _). destruct (staging_plain p Hp) as (Hps & Eds & _).
  assert (linkless (h_nodes h) p) as Hlp.
  { intros q Hq'. rewrite Hq by (apply above_not_staging; by right). by apply Hl. }
  assert (linkless (h_nodes h) s) as Hls.
  { intros q Hq'. apply Hlp. apply parents_dir_of; [done |]. rewrite <- Eds. by apply parents_dir_of. }
  rewrite !seat_plain by done. rewrite Eds, !decide_True by done. done.
Qed.
Lemma put_staged P h n : but_staged P h → readable n → h_nodes h !! s ≠ Some NDir → n ≠ NDir → but_staged (λ x, x = Some n) (set_node s n h).
Proof using Hp Hdir.
  intros Hb Hr Hnd Hn. pose proof (dir_kept _ _ Hb) as Hd. destruct Hb as (Hc & Ht' & Hq & _).
  destruct (staging_plain p Hp) as (Hps & Eds & _). split_and!; [done | | |]; cbn.
  - apply tree_insert; [done.. | by rewrite Eds | right; by apply tree_leaf].
  - intros q Hne. rewrite lookup_insert_ne by done. by apply Hq.
  - by rewrite lookup_insert_eq.
Qed.
Lemma post_unstage P h Q :
  but_staged P h → (∀ r h', r ≠ Panic → but_staged (λ x, P x ∨ x = None) h' → Q r h') → post (remove_file os s) h Q.
Proof using Hp Hl Hdir.
  intros Hb HQ. destruct (seats P h Hb) as [Hs _]. apply post_call. intros h' Hh. pose proof (but_staged_same _ _ _ Hh Hb) as Hb'.
  split; [apply HQ; [done | eapply but_staged_mono, Hb'; tauto] |]. unfold post.
  destruct (seats P h' Hb') as [-> _]. pose proof Hb' as (Hc & Ht' & Hq & HP).
  assert (but_staged (λ x, P x ∨ x = None) h') as Hb'' by (eapply but_staged_mono, Hb'; tauto).
  destruct (h_nodes h' !! s) as [n |] eqn:E; [| by apply HQ].
  destruct n; try (by apply HQ); (apply HQ; [done |]); cbn;
    (split_and!; [done | apply tree_delete; [done | apply tree_leaf; [done | by rewrite E]] | intros q Hne; cbn; rewrite lookup_delete_ne by done; by apply Hq |
      right; cbn; by rewrite lookup_delete_eq]).
Qed.
(** What was asked at [p], on top of what was there. *)
Definition rests (ok : node → Prop) h (r : result checkout_error unit) h' : Prop :=
  r ≠ Panic ∧ clean h' ∧ tree_ok (h_nodes h') ∧ (∀ q, q ≠ p → q ≠ s → h_nodes h' !! q = ns !! q)
  ∧ (h_nodes h' !! p = ns !! p ∨ ∃ n, h_nodes h' !! p = Some n ∧ ok n) ∧ (r = Ok tt → ∃ n, h_nodes h' !! p = Some n ∧ ok n).
Lemma rests_staged P ok h h' e : but_staged P h' → rests ok h (Err e) h'.
Proof using Hnp. intros (Hc & Ht' & Hq & _). pose proof not_staging. split_and!; auto; done. Qed.
(** The rename that installs what is staged, and the order after it. *)
Lemma post_install (ok : node → Prop) h0 h n :
  but_staged (λ x, x = Some n) h → ok n → n ≠ NDir → readable n →
  post (_ ← rename os s p; order_dir os (dir_of p)) h (rests ok h0).
Proof using Hp Hl Hdir Hnp.
  intros Hb Hok Hn Hr. pose proof not_staging as Hne. apply post_bind, post_call. intros h1 H1. pose proof (but_staged_same _ _ _ H1 Hb) as Hb1.
  split; [by eapply rests_staged |]. unfold post at 1. destruct (seats _ h1 Hb1) as [-> ->].
  pose proof (dir_kept _ _ Hb1) as Hd. pose proof Hb1 as (Hc & Ht1 & Hq & Es). rewrite Es.
  assert (h_nodes h1 !! p ≠ Some NDir →
    post (order_dir os (dir_of p)) (set_nodes (<[p := n]> (delete s (h_nodes h1))) h1) (rests ok h0)) as Hgo.
  { intros Hx. assert (tree_ok (delete s (h_nodes h1))) as Hds by (apply tree_delete; [done | apply tree_leaf; [done | rewrite Es; congruence]]).
    assert (tree_ok (<[p := n]> (delete s (h_nodes h1)))) as Ht2.
    { apply tree_insert; [done.. | | right; apply tree_leaf; [done | by rewrite lookup_delete_ne]].
      destruct Hd as [? | Hd]; [by left |]. right. rewrite lookup_delete_ne; [done |]. apply not_eq_sym, above_not_staging. by left. }
    apply post_order_dir. intros h2 [E1 E2]. cbn in E1, E2. unfold rests, clean. rewrite E1, E2, lookup_insert_eq.
    split; (split_and!; [done.. | | by right; eexists | by eauto]); intros q Hqp Hqs; rewrite lookup_insert_ne, lookup_delete_ne by done; by apply Hq. }
  destruct n, (h_nodes h1 !! p) as [[] |] eqn:Ep; try done; cbn; try (by eapply rests_staged); by apply Hgo.
Qed.
(** What is staged is removed when something failed. *)
Lemma rests_unstage (ok : node → Prop) h0 (m : M host checkout_error unit) h :
  post m h (rests ok h0) → post (or_unstage os s m) h (rests ok h0).
Proof using Hp Hl Hdir Hnp.
  intros Hm. pose proof not_staging as Hne. unfold or_unstage. apply post_bind, post_attempt. eapply post_mono; [exact Hm |].
  intros r h1 Hr. destruct r as [[] | e |]; [done | | by destruct Hr as [? _]]. apply post_bind, post_attempt.
  destruct Hr as (_ & Hc & Ht1 & Hq & Hpp & _). destruct (staging_plain p Hp) as (Hps & Eds & _).
  assert (linkless (h_nodes h1) s) as Hls.
  { intros q Hqs. rewrite parents_dir_of, Eds in Hqs by done. assert (q ∈ parents p) as Hqp by (by apply parents_dir_of).
    rewrite Hq; [by apply Hl | by intros ->; apply parents_irrefl in Hqp | apply above_not_staging; by right]. }
  apply (post_unlink false); [done.. |]. intros r h2 Hr Hc2 Hd2 _. assert (rests ok h0 (Err e) h2) as Hx; [| by destruct r].
  split_and!; [done | done | | | | done].
  - destruct Hd2 as [-> | [-> ?]]; [done | by apply tree_delete].
  - intros q Hqp Hqs. destruct Hd2 as [-> | [-> ?]]; [| rewrite lookup_delete_ne by done]; by apply Hq.
  - destruct Hd2 as [-> | [-> ?]]; [| rewrite lookup_delete_ne by done]; done.
Qed.

Lemma node_seated P h : but_staged P h → node_at os h p = h_nodes h !! p.
Proof using Hp Hl Hdir. intros Hb. unfold node_at. by destruct (seats P h Hb) as [_ ->]. Qed.
Definition a_file (bytes : list byte → Prop) (perms : N → Prop) (x : option node) : Prop :=
  ∃ perm b t, x = Some (NFile perm b t) ∧ bytes b ∧ perms perm.
Lemma post_create h Q :
  N.land (os_perm os) 292 ≠ 0 → but_staged (λ x, is_link x = false) h →
  (∀ e h', but_staged (λ _, True) h' → Q (Err e) h') →
  (∀ h', but_staged (a_file (λ _, True) (λ _, True)) h' → Q (Ok (Inside s)) h') → post (create os s) h Q.
Proof using Hp Hl Hdir Hnp.
  intros Hperm Hb Herr HQ. apply post_call. intros h1 H1. pose proof (but_staged_same _ _ _ H1 Hb) as Hb1.
  split; [apply Herr; by eapply but_staged_mono |]. unfold post. destruct (seats _ h1 Hb1) as [-> _]. pose proof Hb1 as (_ & Ht1 & _ & Es).
  unfold create_at. destruct (h_nodes h1 !! s) as [[perm b t | | |] |] eqn:E; try done; cbn;
    try (apply Herr; by eapply but_staged_mono); apply HQ; eapply but_staged_mono; try (eapply put_staged; [exact Hb1 | | by rewrite E | done]);
    try (intros x ->; unfold a_file; eauto 10).
  - by destruct (Ht1 _ _ E) as (_ & ? & _).
  - done.
Qed.
Lemma post_write bytes h Q :
  but_staged (a_file (λ _, True) (λ _, True)) h →
  (∀ e h', but_staged (λ _, True) h' → Q (Err e) h') →
  (∀ h', but_staged (a_file (λ b, b = bytes) (λ _, True)) h' → Q (Ok tt) h') → post (write_all os (Inside s) bytes) h Q.
Proof using Hp Hdir.
  intros Hb Herr HQ. unfold post, write_all. set (h' := {| h_nodes := h_nodes h; h_outside := _; h_calls := S _ |}).
  assert (but_staged (a_file (λ _, True) (λ _, True)) h') as Hb' by (by apply (but_staged_same _ h)).
  pose proof Hb as (_ & Ht1 & _ & (perm & b & t & E & _ & _)). rewrite E.
  assert (∀ bs, but_staged (a_file (λ b, b = bs) (λ _, True)) (set_node s (NFile perm bs (now os h)) h')) as Hput.
  { intros bs. eapply but_staged_mono; [| eapply put_staged; [exact Hb' | by destruct (Ht1 _ _ E) as (_ & ? & _) | by cbn; rewrite E | done]].
    intros x ->. unfold a_file. eauto 10. }
  destruct (os_fails os (h_calls h)); cbn; [apply Herr; by eapply but_staged_mono | apply HQ, Hput].
Qed.
(** The permissions a file gets have a read bit. *)
Lemma post_perm bytes h h' Q :
  but_staged (a_file (λ b, b = bytes) (λ _, True)) h → h' = h →
  (∀ e h', but_staged (λ _, True) h' → Q (Err e) h') →
  (∀ perm h', N.land perm 292 ≠ 0 → but_staged (a_file (λ b, b = bytes) (λ _, True)) h' → Q (Ok perm) h') →
  post (match node_at os h' p with Some (NFile perm _ _) => mret perm | _ => file_permissions os (Inside s) end) h Q.
Proof using Hp Hl Hdir.
  intros Hb -> Herr HQ. rewrite (node_seated _ h Hb).
  assert (post (file_permissions os (Inside s)) h Q) as Hf.
  { apply post_still. intros h1 H1. pose proof (but_staged_same _ _ _ H1 Hb) as Hb1. split; [apply Herr; by eapply but_staged_mono |].
    pose proof Hb1 as (_ & Ht1 & _ & (perm & b & t & E & _ & _)). rewrite E. apply HQ; [| done]. by destruct (Ht1 _ _ E) as (_ & ? & _). }
  pose proof Hb as (_ & Ht1 & _ & _). destruct (h_nodes h !! p) as [[] |] eqn:E; try done.
  apply HQ; [| done]. by destruct (Ht1 _ _ E) as (_ & ? & _).
Qed.
Lemma post_chmod bytes perm h Q :
  but_staged (a_file (λ b, b = bytes) (λ _, True)) h → N.land perm 292 ≠ 0 →
  (∀ e h', but_staged (λ _, True) h' → Q (Err e) h') →
  (∀ h' t, but_staged (λ x, x = Some (NFile perm bytes t)) h' → Q (Ok tt) h') → post (set_permissions os (Inside s) perm) h Q.
Proof using Hp Hdir.
  intros Hb Hperm Herr HQ. apply post_call. intros h1 H1. pose proof (but_staged_same _ _ _ H1 Hb) as Hb1.
  split; [apply Herr; by eapply but_staged_mono |]. unfold post. pose proof Hb1 as (_ & _ & _ & (perm' & b & t & E & -> & _)). rewrite E.
  cbn. eapply HQ. eapply put_staged; [exact Hb1 | done | by rewrite E | done].
Qed.
End stage.

(** ** Materializing an entry *)

Lemma grown_mono (P P' : path → Prop) ns ns' : (∀ q, P q → P' q) → grown P ns ns' → grown P' ns ns'.
Proof. intros HP Hg q. destruct (Hg q) as [? | (? & ? & ?)]; [by left | right; auto]. Qed.
Lemma existing_parent_spec h p :
  clean h → tree_ok (h_nodes h) → plain_relative p = true → linkless (h_nodes h) p →
  post (existing_parent os p) h (λ r h', r ≠ Panic ∧ clean h' ∧ tree_ok (h_nodes h')
    ∧ grown (λ q, q ∈ parents p) (h_nodes h) (h_nodes h') ∧ (∀ d, r = Ok d → d = dir_of p ∧ dir_at (h_nodes h') (dir_of p))).
Proof.
  intros Hc Ht Hp Hl. unfold existing_parent. set (Q := λ (r : result checkout_error path) h', _).
  assert (∀ h' e, same h h' → Q (Err e) h') as Herr.
  { intros h' e Hs. pose proof Hs as [E _]. split_and!; [done | by eapply clean_same | by rewrite E | rewrite E; apply grown_refl | done]. }
  apply post_bind, post_resolves. intros h1 H1. split; [by apply Herr |]. intros _ _. apply post_bind. unfold gets, post at 1. cbn [fst snd].
  apply post_bind, post_resolves. intros h2 H2. assert (same h h2) as H12 by by eapply same_trans. split; [by apply Herr |]. intros x _.
  apply post_bind, post_ensure; intros _; [| by apply Herr]. apply post_bind. pose proof H12 as [E2 _]. eapply post_mono.
  { apply create_dir_all_spec; [by eapply clean_same | by rewrite E2 |]. rewrite E2.
    destruct (plain_cases p Hp) as [_ [[E _] | (Hpd & Hne & _)]]; [by left | right].
    destruct (dir_of_linkless _ p Hp Hl) as [[]|]; done. }
  intros r h3 (Hr & Hc3 & Ht3 & Hg3 & Hd3). rewrite E2 in Hg3.
  assert (∀ h' e, same h3 h' → Q (Err e) h') as Herr3.
  { intros h' e Hs. pose proof Hs as [E _]. split_and!; [done | by eapply clean_same | by rewrite E | rewrite E | done].
    intros q. destruct (Hg3 q) as [? | (Hq & Hq1 & Hq2)]; [by left |]. right. split_and!; [| done..].
    apply parents_dir_of; [done |]. split; [| done]. intros E0. rewrite E0 in Hq. destruct Hq as [-> | Hq]; [| by apply not_elem_of_nil in Hq].
    destruct (Ht3 _ _ Hq2) as (Hx & _). by apply plain_nonempty in Hx. }
  destruct r as [[] | e |]; [| by apply Herr3 | done]. apply post_bind, post_resolves. intros h4 H4. split; [by apply Herr3 |]. intros y _.
  apply post_bind, post_ensure; intros _; [| by apply Herr3]. unfold post. cbn. destruct (Herr3 h4 IoError H4) as (_ & ? & ? & ? & _).
  split_and!; [done.. |]. intros d [= <-]. split; [done |]. destruct H4 as [-> _]. by apply Hd3.
Qed.

(** What landing at [p] leaves of the directory. *)
Record landing p (ok : node → Prop) h (r : result checkout_error unit) h' : Prop := {
  ld_ends : r ≠ Panic;
  ld_clean : clean h';
  ld_tree : tree_ok (h_nodes h');
  ld_else : ∀ q, q ≠ p → q ≠ staging_path p →
    h_nodes h' !! q = h_nodes h !! q ∨ (q ∈ parents p ∧ h_nodes h !! q = None ∧ h_nodes h' !! q = Some NDir);
  ld_here : h_nodes h' !! p = h_nodes h !! p ∨ ∃ n, h_nodes h' !! p = Some n ∧ ok n;
  ld_done : r = Ok tt → ∃ n, h_nodes h' !! p = Some n ∧ ok n;
}.
Lemma landing_err p ok h h' e : clean h' → tree_ok (h_nodes h') → grown (λ q, q ∈ parents p) (h_nodes h) (h_nodes h') → landing p ok h (Err e) h'.
Proof.
  intros Hc Ht Hg. split; [done | done | done | by intros q _ _; apply Hg | | done].
  left. destruct (Hg p) as [? | (Hp & _)]; [done |]. by apply parents_irrefl in Hp.
Qed.
Lemma landing_rests p ok h h1 r h2 :
  plain_relative p = true → grown (λ q, q ∈ parents p) (h_nodes h) (h_nodes h1) → rests p (h_nodes h1) ok h1 r h2 → landing p ok h r h2.
Proof.
  intros Hp Hg (Hr & Hc & Ht & Hq & Hh & Hd). split; [done.. | | | done].
  - intros q Hqp Hqs. rewrite Hq by done. apply Hg.
  - destruct Hh as [-> | ?]; [left | by right]. destruct (Hg p) as [? | (Hx & _)]; [done |]. by apply parents_irrefl in Hx.
Qed.
Definition file_with (mode : Mode) (bytes : list byte) (n : node) : Prop :=
  ∃ perm t, n = NFile perm bytes t ∧ (if N.land perm 73 =? 0 then Regular else Executable) = mode.

Section landings.
Context (h : host) (p : path).
Hypothesis Hc : clean h.
Hypothesis Ht : tree_ok (h_nodes h).
Hypothesis Hp : plain_relative p = true.
Hypothesis Hl : linkless (h_nodes h) p.
Hypothesis Hnp : ¬ staged p.
Hypothesis Hs : is_link (h_nodes h !! staging_path p) = false.
Hypothesis Hperm : N.land (os_perm os) 292 ≠ 0.

Lemma stage_ready h1 : tree_ok (h_nodes h1) → clean h1 → grown (λ q, q ∈ parents p) (h_nodes h) (h_nodes h1) →
  but_staged p (h_nodes h1) (λ x, is_link x = false) h1.
Proof using Hs. intros Ht1 Hc1 Hg. split_and!; [done.. |]. by rewrite (grown_link _ _ _ _ Hg). Qed.

Lemma write_file_spec bytes mode : mode ≠ Symlink →
  post (write_file os p bytes (Some mode)) h (landing p (file_with mode bytes) h).
Proof using All.
  intros Hm. unfold write_file, checked_target. rewrite (plain_inside p Hp). apply post_bind. unfold post at 1. cbn [mret M_ret fst snd].
  apply post_bind. eapply post_mono; [by apply existing_parent_spec |]. intros r h1 (Hr & Hc1 & Ht1 & Hg1 & Hd1).
  destruct r as [d | e |]; [| by apply landing_err | done]. destruct (Hd1 d eq_refl) as [-> Hdir]. clear Hd1 Hr.
  assert (linkless (h_nodes h1) p) as Hl1 by by eapply grown_linkless.
  eapply post_mono; [| intros r h2 Hx; eapply landing_rests; [exact Hp | exact Hg1 | exact Hx]].
  apply rests_unstage; [done.. |]. pose proof (stage_ready h1 Ht1 Hc1 Hg1) as Hb1.
  assert (∀ e h', but_staged p (h_nodes h1) (λ _, True) h' → rests p (h_nodes h1) (file_with mode bytes) h1 (Err e) h') as Herr.
  { intros e h' Hb. by eapply rests_staged. }
  apply post_bind, post_attempt. eapply post_unstage; [done.. |]. intros r h2 Hr Hb2.
  assert (but_staged p (h_nodes h1) (λ x, is_link x = false) h2) as Hb2' by (eapply but_staged_mono, Hb2; intros n [? | ->]; done).
  assert (post (file ← create os (staging_path p); _ ← write_all os file bytes; held ← gets (λ h, node_at os h p);
      perm ← match held with Some (NFile perm _ _) => mret perm | _ => file_permissions os file end;
      _ ← set_permissions os file (mode_bits (Some mode) perm); _ ← order os; _ ← rename os (staging_path p) p; order_dir os (dir_of p)) h2
    (rests p (h_nodes h1) (file_with mode bytes) h1)) as Hgo; [| by destruct r].
  apply post_bind. eapply post_create; [done.. | |]. { done. }
  intros h3 Hb3. apply post_bind. eapply post_write; [done.. |]. intros h4 Hb4. apply post_bind. unfold gets, post at 1. cbn [fst snd].
  apply post_bind. eapply post_perm; [done.. |]. intros perm h5 Hperm5 Hb5. destruct (bits_mode mode perm Hm Hperm5) as [Hbits Emode].
  apply post_bind. eapply post_chmod; [done.. |]. intros h6 t Hb6. apply post_bind, post_still. intros h7 H7.
  pose proof (but_staged_same _ _ _ _ _ H7 Hb6) as Hb7. split; [apply Herr; by eapply but_staged_mono |].
  eapply post_install; [done.. | by exists (mode_bits (Some mode) perm), t | done | done].
Qed.
Lemma link_into_spec target : post (link_into os p target) h (landing p (λ n, ∃ t, n = NLink target t) h).
Proof using All.
  unfold link_into, checked_target. rewrite (plain_inside p Hp). apply post_bind. unfold post at 1. cbn [mret M_ret fst snd].
  apply post_bind. eapply post_mono; [by apply existing_parent_spec |]. intros r h1 (Hr & Hc1 & Ht1 & Hg1 & Hd1).
  destruct r as [d | e |]; [| by apply landing_err | done]. destruct (Hd1 d eq_refl) as [-> Hdir]. clear Hd1 Hr.
  assert (linkless (h_nodes h1) p) as Hl1 by by eapply grown_linkless.
  eapply post_mono; [| intros r h2 Hx; eapply landing_rests; [exact Hp | exact Hg1 | exact Hx]].
  apply rests_unstage; [done.. |]. pose proof (stage_ready h1 Ht1 Hc1 Hg1) as Hb1.
  apply post_bind, post_attempt. eapply post_unstage; [done.. |]. intros r h2 Hr Hb2.
  assert (post (_ ← symlink os target (staging_path p); _ ← rename os (staging_path p) p; order_dir os (dir_of p)) h2
    (rests p (h_nodes h1) (λ n, ∃ t, n = NLink target t) h1)) as Hgo; [| by destruct r].
  apply post_bind, post_call. intros h3 H3. pose proof (but_staged_same _ _ _ _ _ H3 Hb2) as Hb3. split; [by eapply rests_staged |].
  unfold post at 1. destruct (seats p (h_nodes h1) Hp Hl1 Hdir _ h3 Hb3) as [-> _]. case_bool_decide as Hn; cbn; [by eapply rests_staged |].
  eapply post_install; [done.. | | by eexists | done | done].
  eapply put_staged; [done | done | exact Hb3 | done | | done]. intros E. apply Hn. by rewrite E.
Qed.
Lemma make_dir_spec : is_link (h_nodes h !! p) = false → post (make_dir os p) h (landing p (λ n, n = NDir) h).
Proof using Hc Ht Hp Hl.
  intros Hn. unfold make_dir, checked_target. rewrite (plain_inside p Hp). apply post_bind. unfold post at 1. cbn [mret M_ret fst snd].
  apply post_bind. eapply post_mono; [apply create_dir_all_spec; auto |]. intros r h1 (Hr & Hc1 & Ht1 & Hg1 & Hd1).
  assert (∀ r' h', r' ≠ Panic → same h1 h' → (r' = Ok tt → r = Ok tt) → landing p (λ n, n = NDir) h r' h') as Hland.
  { intros r' h' Hr' Hs1 Hok. pose proof Hs1 as [E _]. split; [done | by eapply clean_same | by rewrite E | | |]; rewrite E.
    - intros q Hqp _. destruct (Hg1 q) as [? | ([-> | Hq] & ? & ?)]; [by left | done | by right].
    - destruct (Hg1 p) as [? | (_ & _ & ?)]; [by left |]. right. by eexists.
    - intros Ho. destruct (Hd1 (Hok Ho)) as [Hx | ?]; [by apply (plain_nonempty p) in Hx | by eexists]. }
  destruct r as [[] | e |]; [| by apply Hland | done].
  apply post_bind, post_resolves. intros h2 H2. split; [by apply Hland |]. intros x _.
  apply post_bind, post_resolves. intros h3 H3. assert (same h1 h3) as H13 by by eapply same_trans. split; [by apply Hland |]. intros y _.
  apply post_bind, post_ensure; intros _; [| by apply Hland].
  apply post_order_dir. intros h4 H4. split; apply Hland; try done; by eapply same_trans.
Qed.
End landings.
End calls.

(** The entry a node is, and what materializing an entry leaves. *)
Definition node_entry `{Blake3} (n : node) : option Entry :=
  match n with
  | NFile perm bytes _ => Some (EFile (if N.land perm 73 =? 0 then Regular else Executable) (blake3 bytes))
  | NLink target _ => Some (EFile Symlink (blake3 target))
  | NDir => Some EDir
  | NOther => None
  end.
Lemma materialize_spec `{Blake3} os (s : store) h p e :
  clean h → tree_ok (h_nodes h) → plain_relative p = true → linkless (h_nodes h) p → ¬ staged p →
  is_link (h_nodes h !! staging_path p) = false → N.land (os_perm os) 292 ≠ 0 → blobs_ok s → (e = EDir → is_link (h_nodes h !! p) = false) →
  post (materialize_entry os s p e) h (landing p (λ n, node_entry n = Some e) h).
Proof.
  intros Hc Ht Hp Hl Hnp Hs Hperm Hb Hd. unfold materialize_entry.
  assert (∀ blob bytes, Checkout.blob s blob = Ok bytes → blake3 bytes = blob) as Hblob.
  { intros blob bytes. unfold Checkout.blob, blob_bytes, ok_or. case_match eqn:E; [| done]. intros [= ->]. apply Hb in E. by apply as_bytes_inj in E. }
  assert (∀ A (r : result checkout_error A) (f : A → M host checkout_error unit) Q,
    (∀ a, r = Ok a → post (f a) h Q) → (∀ e, Q (Err e) h) → r ≠ Panic → post (a ← lift r; f a) h Q) as Hlift.
  { intros A r f Q H1 H2 H3. apply post_bind. unfold post at 1. destruct r; cbn; auto; done. }
  assert (∀ e' ok, landing p ok h (Err e') h) as Herr by (intros; by apply landing_err; [| | apply grown_refl]).
  assert (∀ b, Checkout.blob s b ≠ Panic) as Hnp' by (intros b; unfold Checkout.blob, ok_or; by destruct (blob_bytes s b)).
  destruct e as [mode blob |].
  - assert (∀ m h1 (ok ok' : node → Prop) r, landing p ok m r h1 → (∀ n, ok n → ok' n) → landing p ok' m r h1) as Himp.
    { intros m h1 ok ok' r [? ? ? ? Hh Hdn] Hi. split; try done; [destruct Hh as [? | (n & ? & ?)]; [by left | right; eauto] |].
      intros Hr. destruct (Hdn Hr) as (n & ? & ?). eauto. }
    destruct (decide (mode = Symlink)) as [-> | Hm].
    + apply Hlift; [| done..]. intros t Et. eapply post_mono; [by apply link_into_spec |]. intros r h1 Hx. eapply Himp; [exact Hx |].
      intros n [t' ->]. cbn. by rewrite (Hblob _ _ Et).
    + assert (post (bytes ← lift (Checkout.blob s blob); write_file os p bytes (Some mode)) h (landing p (λ n, node_entry n = Some (EFile mode blob)) h)) as Hw; [| by destruct mode].
      apply Hlift; [| done..]. intros b Eb. eapply post_mono; [by apply write_file_spec |]. intros r h1 Hx. eapply Himp; [exact Hx |].
      intros n (perm & t & -> & Em). cbn. by rewrite Em, (Hblob _ _ Eb).
  - eapply post_mono; [apply make_dir_spec; auto |]. intros r h1 [? ? ? ? Hh Hdn]. split; try done.
    + destruct Hh as [? | (n & ? & ->)]; [by left | right; by eexists].
    + intros Hr. destruct (Hdn Hr) as (n & ? & ->). by eexists.
Qed.
