(* ===== verification/CheckoutRuns.v ===== *)
(** * Reconciling a checkout loses neither side

    Over [Checkout]: what the directory, the store and the index hold after a reconcile of
    some paths, whatever calls fail, and when the three agree. *)

From S2P Require Import Prelude Substrate Text Tree Merge TreeSync Proposal StateM Checkout CheckoutHost.
From Stdlib Require Import NArith Lia.
Local Open Scope N_scope.

Lemma post_foldM {A B} (f : B → A → M host checkout_error B) (I : list A → B → host → Prop) l b h :
  I [] b h →
  (∀ before a rest b h, l = before ++ a :: rest → I before b h → post (f b a) h (λ r h', ∃ b', r = Ok b' ∧ I (before ++ [a]) b' h')) →
  post (foldM f b l) h (λ r h', ∃ b', r = Ok b' ∧ I l b' h').
Proof.
  intros HI Hf. assert (∀ rest before b h, l = before ++ rest → I before b h → post (foldM f b rest) h (λ r h', ∃ b', r = Ok b' ∧ I l b' h')) as Hgo;
    [| by apply (Hgo l [])]. clear b h HI. induction rest as [| a rest IH]; intros before b h E HI; cbn [foldM].
  - rewrite app_nil_r in E. subst. unfold post. cbn. eauto.
  - apply post_bind. eapply post_mono; [by eapply Hf |]. intros r h' (b' & -> & HI'). apply (IH (before ++ [a])); [| done].
    by rewrite <- app_assoc.
Qed.

(** ** Bringing the directory up to the store *)

Section bring.
Context `{Blake3} (os : Os) (s : store) (h0 : host) (m : gmap path Entry) (w : Work).
Notation rem := (w_remove w).
Notation mat := (w_materialize w).
Hypothesis Hclean : clean h0.
Hypothesis Htree : tree_ok (h_nodes h0).
Hypothesis Hperm : N.land (os_perm os) 292 ≠ 0.
Hypothesis Hblobs : blobs_ok s.
Hypothesis Hclosed : closed m.
Hypothesis Hdirs : ∀ q, m !! q = Some EDir → is_link (h_nodes h0 !! q) = false.
Hypothesis Hnames : ∀ q e, m !! q = Some e → plain_relative q = true ∧ ¬ staged q.
Hypothesis Hstaged : ∀ q, staged q → is_link (h_nodes h0 !! q) = false.
Hypothesis Hrem : ∀ q, q ∈ rem → plain_relative q = true ∧ ¬ staged q ∧ m !! q = None ∧ linkless (h_nodes h0) q.
Hypothesis Hmat : ∀ q e, (q, e) ∈ mat → m !! q = Some e.
Hypothesis Hnodup : NoDup mat.*1.

(** The directory holds the store's entry, at a path it was asked for or where nothing was. *)
Definition brought (h : host) (q : path) : Prop :=
  ∃ e n, m !! q = Some e ∧ h_nodes h !! q = Some n ∧ node_entry n = Some e
    ∧ (q ∈ mat.*1 ∨ (h_nodes h0 !! q = None ∧ e = EDir)).
Definition side (h : host) (q : path) : Prop :=
  h_nodes h !! q = h_nodes h0 !! q ∨ (q ∈ rem ∧ h_nodes h !! q = None) ∨ brought h q.
(** An index entry that advances records what both sides hold. *)
Definition records (h : host) (x : path * option Entry) : Prop :=
  match x.2 with
  | None => x.1 ∈ rem ∧ h_nodes h !! x.1 = None
  | Some e => m !! x.1 = Some e ∧ (h_nodes h !! x.1 ≫= node_entry) = Some e ∧ x.1 ∈ mat.*1
  end.
Definition accounted (b : Brought) (q : path) : Prop := q ∈ (b_advanced b).*1 ∨ q ∈ (b_unmaterialized b).*1.

Definition after_removals (before : list path) (b : Brought) (h : host) : Prop :=
  clean h ∧ tree_ok (h_nodes h) ∧ (∀ q, h_nodes h !! q = h_nodes h0 !! q ∨ (q ∈ rem ∧ h_nodes h !! q = None))
  ∧ Forall (records h) (b_advanced b) ∧ (∀ q, q ∈ b_kept_out b → q ∈ rem) ∧ Forall (accounted b) before.
Definition accounts (b : Brought) (p : path) (b' : Brought) : Prop := accounted b' p ∧ ∀ q, accounted b q → accounted b' q.
Lemma accounts_advanced b p x b' :
  b_advanced b' = b_advanced b ++ [(p, x)] → b_unmaterialized b' = b_unmaterialized b → accounts b p b'.
Proof.
  intros E1 E2. unfold accounts, accounted. rewrite E1, E2, fmap_app. clear. setoid_rewrite elem_of_app.
  split; [left; right; left | naive_solver].
Qed.
Lemma accounts_reported b p e b' :
  b_advanced b' = b_advanced b → b_unmaterialized b' = b_unmaterialized b ++ [(p, e)] → accounts b p b'.
Proof.
  intros E1 E2. unfold accounts, accounted. rewrite E1, E2, fmap_app. clear. setoid_rewrite elem_of_app.
  split; [right; right; left | naive_solver].
Qed.
Lemma accounts_all b p b' l : accounts b p b' → Forall (accounted b) l → Forall (accounted b') (l ++ [p]).
Proof. intros [Hp Hm] Hl. apply Forall_app. split; [by eapply Forall_impl | by constructor]. Qed.
Lemma removals_spec :
  post (foldM (remove_one os) nothing_brought (reverse (merge_sort path_le rem))) h0
    (λ r h', ∃ b, r = Ok b ∧ after_removals (reverse (merge_sort path_le rem)) b h').
Proof using All.
  apply (post_foldM _ after_removals).
  { split_and!; [done | done | by left | constructor | set_solver | constructor]. }
  intros before p rest b h E (Hc & Ht & Hq & Hb & Hk & Ha).
  assert (p ∈ rem) as Hp. { rewrite <- (merge_sort_Permutation path_le rem), <- elem_of_reverse, E. set_solver. }
  destruct (Hrem p Hp) as (Hpl & Hns & Hm & Hl). unfold remove_one. apply post_bind, post_attempt. eapply post_mono.
  { apply remove_from_spec; [done.. |]. intros q Hq'. destruct (Hq q) as [-> | [_ ->]]; [by apply Hl | done]. }
  intros r h' (Hr & Hc' & Hd & Hdone).
  assert (∀ q, h_nodes h' !! q = h_nodes h !! q ∨ (q = p ∧ h_nodes h' !! q = None)) as Hstep.
  { intros q. destruct Hd as [-> | [-> _]]; [by left |]. destruct (decide (q = p)) as [-> | ?]; [right; by rewrite lookup_delete_eq | left].
    by rewrite lookup_delete_ne. }
  assert (tree_ok (h_nodes h')) as Ht' by (destruct Hd as [-> | [-> ?]]; [done | by apply tree_delete]).
  assert (∀ q, h_nodes h' !! q = h_nodes h0 !! q ∨ (q ∈ rem ∧ h_nodes h' !! q = None)) as Hq'.
  { intros q. destruct (Hstep q) as [-> | [-> ->]]; [apply Hq | by right]. }
  assert (Forall (records h') (b_advanced b)) as Hb'.
  { eapply Forall_impl; [exact Hb |]. intros [q [e |]]; unfold records; cbn; destruct (Hstep q) as [-> | [-> ->]]; try done.
    intros (? & _). congruence. }
  destruct r as [[] | e |]; [| | done]; unfold post; cbn; eexists; (split; [done |]); split_and!; try done; cbn.
  - apply Forall_app. split; [done |]. repeat constructor; cbn; [done | by apply Hdone].
  - eapply accounts_all, Ha. by eapply accounts_advanced.
  - intros q [->%elem_of_singleton | Hq'']%elem_of_union; [done | by apply Hk].
  - eapply accounts_all, Ha. by eapply accounts_reported.
Qed.

Definition after_landings (b0 : Brought) (before : list (path * Entry)) (b : Brought) (h : host) : Prop :=
  clean h ∧ tree_ok (h_nodes h) ∧ (∀ q, ¬ staged q → side h q)
  ∧ (∀ q, plain_relative q = true → q ∉ before.*1 → is_link (h_nodes h !! staging_path q) = false)
  ∧ Forall (records h) (b_advanced b) ∧ (∀ q, q ∈ b_kept_out b → q ∈ rem)
  ∧ Forall (accounted b) before.*1 ∧ (∀ q, accounted b0 q → accounted b q).
(** Above a path to materialize there is no link. *)
Lemma landing_linkless h q e : (∀ q, ¬ staged q → side h q) → (q, e) ∈ mat → linkless (h_nodes h) q ∧ (e = EDir → is_link (h_nodes h !! q) = false).
Proof using Hclosed Hdirs Hmat Hnames.
  intros Hs Hq. assert (∀ d, m !! d = Some EDir → is_link (h_nodes h !! d) = false) as Hdir.
  { intros d Hmd. destruct (Hs d) as [-> | [[_ ->] | (e' & n & Em & -> & En & _)]]; [by eapply Hnames | by apply Hdirs | done |].
    destruct n; try done. cbn in En. congruence. }
  pose proof (Hmat q e Hq) as Hm. split; [| by intros ->; apply Hdir].
  intros d Hd. apply Hdir. eapply Hclosed; [by rewrite Hm | done].
Qed.
Lemma landings_spec b0 h1 :
  after_removals (reverse (merge_sort path_le rem)) b0 h1 →
  post (foldM (materialize_one os s) b0 mat) h1 (λ r h', ∃ b, r = Ok b ∧ after_landings b0 mat b h').
Proof using All.
  intros (Hc1 & Ht1 & Hq1 & Hb1 & Hk1 & Ha1). apply (post_foldM _ (after_landings b0)).
  { split_and!; [done | done | | | done | done | constructor | done].
    - intros q _. destruct (Hq1 q); [by left | by right; left].
    - intros q Hp _. destruct (Hq1 (staging_path q)) as [-> | [_ ->]]; [| done]. apply Hstaged, staging_staged. }
  intros before [p e] rest b h E (Hc & Ht & Hs & Hst & Hb & Hk & Ha & Hmono).
  assert ((p, e) ∈ mat) as Hin by (rewrite E; set_solver). pose proof (Hmat p e Hin) as Hm. destruct (Hnames p e Hm) as [Hp Hnp].
  destruct (landing_linkless h p e Hs Hin) as [Hl Hdl].
  assert (p ∉ before.*1) as Hfresh.
  { intros Hx. rewrite E, fmap_app in Hnodup. apply NoDup_app in Hnodup as (_ & Hnd & _). apply (Hnd p Hx). left. }
  unfold materialize_one. cbn [fst snd]. apply post_bind, post_attempt. eapply post_mono; [by apply materialize_spec; auto |].
  intros r h' [Hr Hc' Ht' Helse Hhere Hdone].
  assert (∀ q, ¬ staged q → h_nodes h' !! q = h_nodes h !! q ∨ brought h' q) as Hstep.
  { intros q Hnq. destruct (decide (q = p)) as [-> | Hqp].
    - destruct Hhere as [-> | (n & E1 & E2)]; [by left |]. right. exists e, n. split_and!; try done. left. by apply (list_elem_of_fmap_2 fst _ (p, e)).
    - destruct (Helse q Hqp) as [-> | (Hqp' & En & En')]; [by intros ->; apply Hnq, staging_staged | by left |]. right. exists EDir, NDir.
      assert (m !! q = Some EDir) as Hmq by (eapply Hclosed; [by rewrite Hm | done]). split_and!; [done.. | right; split; [| done]].
      destruct (Hs q Hnq) as [<- | [[Hqr _] | (? & ? & _ & Ex & _)]]; [done | | congruence].
      destruct (Hrem q Hqr) as (_ & _ & Hx & _). congruence. }
  assert (∀ q, ¬ staged q → side h' q) as Hs'.
  { intros q Hnq. destruct (Hstep q Hnq) as [E1 | ?]; [| by right; right]. unfold side, brought. rewrite E1. by apply Hs. }
  assert (∀ q, plain_relative q = true → q ∉ (before ++ [(p, e)]).*1 → is_link (h_nodes h' !! staging_path q) = false) as Hst'.
  { intros q Hq Hnin. rewrite fmap_app, not_elem_of_app in Hnin. destruct Hnin as [Hnin Hqp]. cbn in Hqp. rewrite list_elem_of_singleton in Hqp.
    assert (staging_path q ≠ p) as H1 by (intros <-; apply Hnp, staging_staged).
    assert (staging_path q ≠ staging_path p) as H2 by (by intros ?%staging_inj).
    destruct (Helse _ H1 H2) as [-> | (_ & _ & ->)]; [by apply Hst | done]. }
  assert (Forall (records h') (b_advanced b)) as Hb'.
  { eapply Forall_impl; [exact Hb |]. intros [q [x |]]; unfold records; cbn.
    - intros (E1 & E2 & Hns). destruct (Hstep q) as [-> | (e' & n & E3 & -> & E4 & _)]; [by eapply Hnames | done |]. cbn. split_and!; [done | congruence | done].
    - intros [E1 E2]. split; [done |]. destruct (Hrem q E1) as (_ & Hns & E5 & _).
      destruct (Hstep q Hns) as [-> | (e' & n & E3 & _)]; [done | congruence]. }
  destruct r as [[] | err |]; [| | done]; unfold post; cbn; eexists; (split; [done |]); split_and!; try done; cbn; rewrite ?fmap_app.
  - apply Forall_app. split; [done |]. destruct (Hdone eq_refl) as (n & En & Ee). repeat constructor; cbn; [done | by rewrite En |]. by apply (list_elem_of_fmap_2 fst _ (p, e)).
  - eapply accounts_all, Ha. by eapply accounts_advanced.
  - intros q Hq. apply Hmono in Hq. refine (proj2 (accounts_advanced b p (Some e) _ _ _) q Hq); done.
  - eapply accounts_all, Ha. by eapply accounts_reported.
  - intros q Hq. apply Hmono in Hq. refine (proj2 (accounts_reported b p err _ _ _) q Hq); done.
Qed.
(** The whole: each path holds what it held, or was removed, or holds the store's entry; the
    index entries that advance are true of both sides; every path asked for advanced or is
    reported. *)
Record brought_up (b : Brought) (h : host) : Prop := {
  bu_clean : clean h;
  bu_tree : tree_ok (h_nodes h);
  bu_side : ∀ q, ¬ staged q → side h q;
  bu_records : Forall (records h) (b_advanced b);
  bu_kept_out : ∀ q, q ∈ b_kept_out b → q ∈ rem;
  bu_all : ∀ q, q ∈ rem ∨ q ∈ mat.*1 → accounted b q;
}.
Lemma bring_spec : post (bring os s w) h0 (λ r h', ∃ b, r = Ok b ∧ brought_up b h').
Proof using All.
  unfold bring. apply post_bind. eapply post_mono; [apply removals_spec |]. intros r h1 (b0 & -> & H1).
  eapply post_mono; [by apply landings_spec |]. intros r h2 (b & -> & Hc & Ht & Hs & _ & Hb & Hk & Ha & Hmono). exists b. split; [done |].
  split; try done. intros q [Hq | Hq]; [| by eapply Forall_forall in Ha]. apply Hmono.
  destruct H1 as (_ & _ & _ & _ & _ & Ha1). eapply Forall_forall in Ha1; [exact Ha1 |]. by rewrite elem_of_reverse, merge_sort_Permutation.
Qed.
End bring.

Lemma NoDup_fst_unique {A B} (l : list (A * B)) k v v' : NoDup l.*1 → (k, v) ∈ l → (k, v') ∈ l → v = v'.
Proof.
  induction l as [| [k0 v0] l IH]; intros Hd; [by intros ?%not_elem_of_nil |]. csimpl in Hd. apply NoDup_cons in Hd as [Hn Hd].
  intros [[= -> ->] | H1]%elem_of_cons [[= E] | H2]%elem_of_cons; subst; try done; [| | by apply IH];
    [apply (list_elem_of_fmap_2 fst) in H2 | apply (list_elem_of_fmap_2 fst) in H1]; done.
Qed.

(** ** Taking the directory's changes up *)

Section take_up.
Context `{Blake3} (os : Os) (h : host) (m : gmap path Entry) (ingest : list path) (kept : gmap path (list byte)) (kept_out : gset path)
  (outcomes : Outcomes).
Hypothesis Hclean : clean h.
Hypothesis Htree : tree_ok (h_nodes h).
Hypothesis Hclosed : closed m.
Hypothesis Hingest : ∀ p, p ∈ ingest → plain_relative p = true ∧ linkless (h_nodes h) p ∧ p ∉ kept_out.
Hypothesis Hkept : ∀ p b, kept !! p = Some b → ∃ mode, m !! p = Some (EFile mode (blake3 b)).
(** The parse's blobs are of the bytes the directory holds. *)
Hypothesis Hparse : ∀ p hash syn perm b t, p ∈ ingest → projected outcomes !! p = Some (hash, syn) →
  h_nodes h !! p = Some (NFile perm b t) → hash = blake3 b.
Let memory := Some (Written kept kept_out no_edits).
Let disk := disk_of os h.

Definition on_disk (q : path) : option Entry := h_nodes h !! q ≫= node_entry.
Definition near (q : path) : Prop := ∃ p, p ∈ ingest ∧ (q = p ∨ q ∈ parents p ∨ p ∈ parents q).
(** Every entry is the store's own, or the directory's near a path taken up. *)
Definition moved_to (m' : gmap path Entry) : Prop :=
  ∀ q, m' !! q = m !! q ∨ (near q ∧ (m' !! q = on_disk q ∨ is_Some (kept !! q))).

Lemma disk_node p : p ∈ ingest → node_at os h p = h_nodes h !! p.
Proof using Hclean Htree Hingest. intros Hp. destruct (Hingest p Hp) as (? & ? & _). by apply node_at_plain. Qed.
Lemma on_disk_dir q p n : h_nodes h !! p = Some n → q ∈ parents p → on_disk q = Some EDir.
Proof using Htree. intros Hn Hq. destruct (Htree p n Hn) as (_ & _ & Hd). unfold on_disk. by rewrite (Hd q Hq). Qed.
Lemma on_disk_below q p : h_nodes h !! p ≠ Some NDir → p ∈ parents q → on_disk q = None.
Proof using Htree.
  intros Hn Hp. unfold on_disk. destruct (h_nodes h !! q) as [n |] eqn:E; [| done]. destruct (Htree q n E) as (_ & _ & Hd). by destruct Hn; apply Hd.
Qed.

(** What is seen at a path. *)
Definition sees (p : path) (x : Seen) : Prop :=
  (∃ b, x = SMemory b ∧ kept !! p = Some b) ∨
  (p ∈ ingest ∧ match x, h_nodes h !! p with
                | SDisk false, Some (NFile _ _ _) | SDisk true, Some (NLink _ _) | SDir, Some NDir | SGone, None | SGone, Some NOther => True
                | _, _ => False
                end).
Lemma see_path_sees seen p : p ∈ ingest → map_Forall sees seen → map_Forall sees (see_path memory disk seen p).
Proof using Hclean Htree Hingest.
  intros Hp Hs. destruct (Hingest p Hp) as (_ & _ & Hout). unfold see_path. cbn. rewrite (bool_decide_false (p ∈ kept_out)) by done.
  case_bool_decide; [done |]. unfold symlink_metadata. rewrite (disk_node p Hp).
  destruct (h_nodes h !! p) as [[] |] eqn:E; cbn; (apply map_Forall_insert_2; [right; split; [done | by rewrite E] | done]).
Qed.
Lemma seen_sees : map_Forall sees (see_memory (Written kept kept_out no_edits) (foldl (see_path memory disk) ∅ ingest)).
Proof using Hclean Htree Hingest.
  unfold see_memory. cbn. rewrite !elements_empty. cbn.
  assert (∀ l (seen : gmap path Seen), (∀ p b, (p, b) ∈ l → kept !! p = Some b) → map_Forall sees seen →
    map_Forall sees (foldl (λ seen '(rel, bytes), if bool_decide (rel ∈ kept_out) then seen else <[rel := SMemory bytes]> seen) seen l)) as Hmem.
  { induction l as [| [p b] l IH]; intros seen Hl Hs; [done |]. cbn. apply IH; [intros; apply Hl; by right |]. case_bool_decide; [done |].
    apply map_Forall_insert_2; [left; exists b; split; [done | apply Hl; left] | done]. }
  apply Hmem; [by intros p b ?%elem_of_sorted_pairs |].
  assert (∀ l (seen : gmap path Seen), (∀ p, p ∈ l → p ∈ ingest) → map_Forall sees seen → map_Forall sees (foldl (see_path memory disk) seen l)) as Hpaths.
  { induction l as [| p l IH]; intros seen Hl Hs; [done |]. cbn. apply IH; [intros; apply Hl; by right |]. apply see_path_sees; [apply Hl; left | done]. }
  apply Hpaths; [done | apply map_Forall_empty].
Qed.
(** With nothing kept, every path taken up is seen. *)
Lemma ingest_seen p : kept = ∅ → p ∈ ingest →
  is_Some (see_memory (Written kept kept_out no_edits) (foldl (see_path memory disk) ∅ ingest) !! p).
Proof using Hclean Htree Hingest.
  intros Hk Hp. unfold see_memory. cbn. rewrite !elements_empty, Hk. cbn.
  assert (∀ l (seen : gmap path Seen), (∀ p, p ∈ l → p ∈ ingest) → p ∈ l ∨ is_Some (seen !! p) → is_Some (foldl (see_path memory disk) seen l !! p)) as Hgo;
    [| apply Hgo; auto].
  induction l as [| q l IH]; intros seen Hl Hin; cbn; [destruct Hin as [?%not_elem_of_nil | ?]; done |]. apply IH; [intros; apply Hl; by right |].
  destruct Hin as [[-> | ?]%elem_of_cons | Hs]; [right | by left | right];
    unfold see_path; destruct (Hingest q (Hl q ltac:(left))) as (_ & _ & Hout); cbn; rewrite (bool_decide_false (q ∈ kept_out)) by done;
    rewrite bool_decide_false by (unfold mem_bytes; cbn; rewrite Hk, lookup_empty; by intros [? ?]); unfold symlink_metadata;
    rewrite (disk_node q) by (apply Hl; left); destruct (h_nodes h !! q) as [[] |]; cbn; try (rewrite lookup_insert_eq; by eexists);
    (destruct (decide (q = p)) as [-> | ?]; [rewrite lookup_insert_eq; by eexists | by rewrite lookup_insert_ne]).
Qed.

(** ** Each loop *)

Section loops.
Context (l : list (path * Seen)).
Hypothesis Hl : ∀ p x, (p, x) ∈ l → sees p x.
Hypothesis Hnodup : NoDup l.*1.

Lemma near_self p : p ∈ ingest → near p.
Proof. intros. exists p. auto. Qed.
Lemma sees_ingest p x : sees p x → (∀ b, x ≠ SMemory b) → p ∈ ingest.
Proof. intros [(b & -> & _) | [? _]] Hx; [by destruct (Hx b) | done]. Qed.
Lemma gone_moves m1 : without (dropped l) m m1 → moved_to m1.
Proof using Htree Hl.
  intros [H1 H2] q. destruct (dropped_dec l q) as [Hd | Hd]; [right | left; by apply H2]. rewrite H1 by done.
  destruct Hd as (g & Hg%Hl & Hw). destruct Hg as [(b & ? & _) | [Hg Hx]]; [done |]. destruct Hw as [-> | Hw].
  - split; [by apply near_self |]. left. unfold on_disk. by destruct (h_nodes h !! g) as [[] |].
  - split; [exists g; auto |]. left. symmetry. eapply on_disk_below; [| exact Hw]. intros E. by rewrite E in Hx.
Qed.
Lemma dirs_move m1 m2 : moved_to m1 → with_dirs (above (seen_dirs l)) m1 m2 → moved_to m2.
Proof using Htree Hl.
  intros Hm1 [H1 H2] q. destruct (above_dec (seen_dirs l) q) as [Ha | Ha]; [| rewrite H2 by done; apply Hm1]. right. rewrite H1 by done.
  destruct Ha as (d & Hd & Hq). apply list_elem_of_omap in Hd as ([d' x] & Hin & Hx). destruct x; simplify_eq/=.
  apply Hl in Hin as [(b & ? & _) | [Hg Hx]]; [done |]. destruct (h_nodes h !! d) as [[] |] eqn:E; try done.
  split; [exists d; destruct Hq; auto |]. left. destruct Hq as [-> | Hq]; [unfold on_disk; by rewrite E | by rewrite (on_disk_dir q d NDir)].
Qed.
(** Putting a file of the directory, or the kept bytes of a conflict. *)
Lemma put_moves m1 rel mode hash :
  moved_to m1 → (∃ b, kept !! rel = Some b ∧ hash = blake3 b ∧ mode = memory_mode memory (m1 !! rel) rel)
    ∨ (rel ∈ ingest ∧ on_disk rel = Some (EFile mode hash)) →
  moved_to (<[rel := EFile mode hash]> (add_dirs (parents rel) m1)).
Proof using Htree Hclosed Hkept.
  intros Hm1 Hput q. destruct (decide (q = rel)) as [-> | Hne].
  - rewrite lookup_insert_eq. destruct Hput as [(b & Hb & -> & ->) | [Hin ->]]; [| right; split; [by apply near_self | by left]].
    destruct (Hkept rel b Hb) as [mode0 Hm0]. destruct (Hm1 rel) as [E | [Hn _]]; [left | right; split; [done | right; by eexists]].
    rewrite E, Hm0. unfold memory_mode. cbn. by rewrite lookup_empty.
  - rewrite lookup_insert_ne, lookup_add_dirs by done. case_bool_decide as Hq; [| apply Hm1].
    destruct Hput as [(b & Hb & _) | [Hin Hd]].
    + left. destruct (Hkept rel b Hb) as [mode0 Hm0]. symmetry. eapply Hclosed; [by rewrite Hm0 | done].
    + right. split; [exists rel; auto |]. left. unfold on_disk in Hd. destruct (h_nodes h !! rel) as [n |] eqn:E; [| done].
      by rewrite (on_disk_dir q rel n).
Qed.
(** What a file of the directory is stored as. *)
Lemma file_plan_disk cached was rel sym :
  sees rel (SDisk sym) →
  (file_plan memory disk outcomes cached was rel (SDisk sym) = Ok None
   ∧ (os_unreadable os rel = true ∨ ∃ n hash, h_nodes h !! rel = Some n ∧ was = Some (EFile (disk_mode (meta_of n)) hash)
                                       ∧ cached !! rel = Some (stat_of (meta_of n)))) ∨
  ∃ mode stat bytes, file_plan memory disk outcomes cached was rel (SDisk sym) = Ok (Some (mode, stat, bytes))
    ∧ match bytes with
      | Some b => on_disk rel = Some (EFile mode (blake3 b))
      | None => ∃ hash syn, projected outcomes !! rel = Some (hash, syn) ∧ on_disk rel = Some (EFile mode hash)
      end.
Proof using Hclean Htree Hingest Hparse.
  intros [(b & ? & _) | [Hin Hx]]; [done |]. unfold file_plan, on_disk. cbn. unfold symlink_metadata, read, read_link. rewrite (disk_node rel Hin).
  destruct sym, (h_nodes h !! rel) as [[perm b t | tg t | |] |] eqn:E; try done; cbn;
    (match goal with |- context [if ?c then mret None else _] => destruct c eqn:U end;
     [left; split; [done |]; right; apply andb_true_iff in U as [U1 U2%bool_decide_eq_true];
      destruct was as [[held hash |] |]; try done; apply bool_decide_eq_true in U1 as ->; by do 2 eexists |]); [right; by do 3 eexists |].
  assert ((if negb (N.land perm 73 =? 0) then Executable else Regular) = if N.land perm 73 =? 0 then Regular else Executable) as ->
    by by destruct (N.land perm 73 =? 0).
  destruct (projected outcomes !! rel) as [[hash syn] |] eqn:Hpr.
  - rewrite bool_decide_true by by eexists. right. do 3 eexists. split; [reflexivity |]. exists hash, syn. split; [done |].
    by rewrite (Hparse rel hash syn perm b t Hin Hpr E).
  - rewrite bool_decide_false by by intros [? ?]. destruct (os_unreadable os rel); [left; split; [done | by left] | right; by do 3 eexists].
Qed.
Definition put_as (m1 : gmap path Entry) (rel : path) (x : Seen) (mode : Mode) (hash : Hash) : Prop :=
  (∃ b, x = SMemory b ∧ kept !! rel = Some b ∧ hash = blake3 b ∧ mode = memory_mode memory (m1 !! rel) rel)
  ∨ (rel ∈ ingest ∧ (∃ sym, x = SDisk sym) ∧ on_disk rel = Some (EFile mode hash)).
Lemma file_step_cases cached s stored m1 rel x :
  manifest s m1 → blobs_ok s → sees rel x →
  ∃ s' stored', file_step None memory disk outcomes cached (s, stored) (rel, x) = Ok (s', stored') ∧ blobs_ok s' ∧
    ((manifest s' m1 ∧ file_plan memory disk outcomes cached (m1 !! rel) rel x = Ok None) ∨
     ∃ mode hash, manifest s' (<[rel := EFile mode hash]> (add_dirs (parents rel) m1)) ∧ put_as m1 rel x mode hash).
Proof using Hclean Htree Hingest Hparse.
  intros Hm Hok Hsees. destruct x as [sym | b | |].
  - assert (rel ∈ ingest) as Hin by by eapply sees_ingest.
    unfold file_step. rewrite (current_manifest s m1) by done. rewrite bind_Ok.
    destruct (file_plan_disk cached (m1 !! rel) rel sym Hsees) as [[-> _] | (mode & stat & bytes & -> & Hb)]; rewrite bind_Ok.
    { do 2 eexists. split; [done |]. split; [done |]. by left. }
    clear Hsees. assert (∃ s1 hash, (match bytes, projected outcomes !! rel with
             | Some bytes, _ => Some (store_blob bytes s) | None, Some (hash, _) => Some (hash, s) | None, None => None end) = Some (hash, s1)
           ∧ manifest s1 m1 ∧ blobs_ok s1 ∧ on_disk rel = Some (EFile mode hash)) as (s1 & hash & -> & Hm1 & Hok1 & Hd).
    { destruct bytes as [b |].
      - destruct (store_blob_spec b s Hok) as (s1 & -> & Ht & _ & Hok1 & _). exists s1, (blake3 b). split_and!; [done | by eapply manifest_ext | done | done].
      - destruct Hb as (hash & syn & -> & Hd). by exists s, hash. }
    assert (∃ s2, (if bool_decide (m1 !! rel ≫= Entry_blob = Some hash) then mret s1 else TreeSync.lift (set_diagnostic rel None s1)) = Ok s2
      ∧ t_tree s2 = t_tree s1 ∧ t_blobs s2 = t_blobs s1) as (s2 & -> & Ht2 & Hb2).
    { case_bool_decide; [by exists s1 |]. by eexists. }
    rewrite bind_Ok. do 2 eexists. split; [done |]. split.
    + assert (∀ ds s, t_blobs (foldl put_one_dir s ds) = t_blobs s) as Hbd.
      { clear. induction ds as [| x ds IH]; intros s; simpl; [done |]. by rewrite IH. }
      unfold blobs_ok, put_file, put_parents. cbn. by rewrite Hbd, Hb2.
    + right. exists mode, hash. split; [apply manifest_put_file; by eapply manifest_ext |]. right. split_and!; [done | by eexists | done].
  - destruct Hsees as [(b' & [= <-] & Hb) | [_ Hx]]; [| done].
    destruct (file_step_memory memory disk outcomes cached s stored m1 rel b Hm Hok) as (s' & st' & -> & Hm' & Hok' & _).
    do 2 eexists. split; [done |]. split; [done |]. right. do 2 eexists. split; [done |]. left. by exists b.
  - exists s, stored. unfold file_step. rewrite (current_manifest s m1) by done. split; [done |]. split; [done |]. by left.
  - exists s, stored. unfold file_step. rewrite (current_manifest s m1) by done. split; [done |]. split; [done |]. by left.
Qed.
Lemma put_as_moves m1 rel x mode hash : moved_to m1 → put_as m1 rel x mode hash → moved_to (<[rel := EFile mode hash]> (add_dirs (parents rel) m1)).
Proof using Htree Hclosed Hkept. intros Hm1 [(b & _ & Hb) | (? & _ & ?)]; apply put_moves; [done | left; by exists b | done | by right]. Qed.

(** What the directory holds was taken up, as far as the loop went. *)
Definition taken (before : list (path * Seen)) (m1 : gmap path Entry) : Prop :=
  ∀ p x, (p, x) ∈ l → (∃ sym, x = SDisk sym) → (p, x) ∉ before ∨ m1 !! p = on_disk p.
Definition plain_taken (m1 : gmap path Entry) : Prop :=
  ∀ p x, (p, x) ∈ l → x = SGone ∨ x = SDir → m1 !! p = on_disk p.
Definition honest (cached : gmap path (Z * Z)) : Prop := ∀ p n,
  p ∈ ingest → h_nodes h !! p = Some n → cached !! p = Some (stat_of (meta_of n)) →
  ∀ hash, m !! p = Some (EFile (disk_mode (meta_of n)) hash) → node_entry n = Some (EFile (disk_mode (meta_of n)) hash).
(** A file of the directory that is skipped is what the store holds. *)
Lemma skipped_taken cached m1 rel sym :
  kept = ∅ → honest cached → os_unreadable os rel = false → moved_to m1 → sees rel (SDisk sym) →
  file_plan memory disk outcomes cached (m1 !! rel) rel (SDisk sym) = Ok None → m1 !! rel = on_disk rel.
Proof using Hclean Htree Hingest Hparse.
  intros Hk Hh Hr Hm1 Hsees Hplan. destruct (Hm1 rel) as [Em | [_ [? | [b Hb]]]]; [| done | by rewrite Hk, lookup_empty in Hb].
  assert (rel ∈ ingest) as Hin by by eapply sees_ingest.
  destruct (file_plan_disk cached (m1 !! rel) rel sym Hsees) as [[_ [? | (n & hash & En & Ew & Ec)]] | (mode & stat & bytes & E & _)]; [congruence | | congruence].
  rewrite Ew in Em |- *. unfold on_disk. rewrite En. cbn. symmetry. by apply (Hh rel n Hin En Ec).
Qed.
Lemma file_loop_moves cached before rest s stored m1 :
  l = before ++ rest → manifest s m1 → blobs_ok s → moved_to m1 →
  ∃ s' stored' m2, fold_result (file_step None memory disk outcomes cached) (s, stored) rest = Ok (s', stored')
    ∧ manifest s' m2 ∧ blobs_ok s' ∧ moved_to m2
    ∧ (kept = ∅ → honest cached → (∀ p, p ∈ ingest → os_unreadable os p = false) → taken before m1 → plain_taken m1 → taken l m2 ∧ plain_taken m2).
Proof using All.
  revert before s stored m1. induction rest as [| [rel x] rest IH]; intros before s stored m1 El Hm Hok Hmv; cbn [fold_result].
  { rewrite app_nil_r in El. subst. exists s, stored, m1. by split_and!. }
  assert (sees rel x) as Hsees by (apply Hl; rewrite El; set_solver).
  destruct (file_step_cases cached s stored m1 rel x Hm Hok Hsees) as (s1 & st1 & -> & Hok1 & Hcase). rewrite bind_Ok.
  assert (∃ m2, manifest s1 m2 ∧ moved_to m2 ∧ (kept = ∅ → honest cached → (∀ p, p ∈ ingest → os_unreadable os p = false) →
    taken before m1 → plain_taken m1 → taken (before ++ [(rel, x)]) m2 ∧ plain_taken m2)) as (m2 & Hm2 & Hmv2 & Htk2).
  { destruct Hcase as [[Hm1 Hplan] | (mode & hash & Hm1 & Hput)].
    - exists m1. split_and!; [done.. |]. intros Hk Hh Hr Ht Hpt. split; [| done]. intros p y Hin Hy. destruct (Ht p y Hin Hy) as [Hn | ?]; [| by right].
      destruct (decide ((p, y) = (rel, x))) as [[= -> ->] | Hne]; [right | left; set_solver]. destruct Hy as [sym ->].
      eapply skipped_taken; try done. apply Hr. by eapply sees_ingest.
    - eexists. split_and!; [exact Hm1 | by eapply put_as_moves |]. intros Hk Hh Hr Ht Hpt.
      destruct Hput as [(b & _ & Hb & _) | (Hin & [sym ->] & Hd)]; [by rewrite Hk, lookup_empty in Hb |].
      assert (∀ p y, (p, y) ∈ l → p ≠ rel → m1 !! p = on_disk p → (<[rel := EFile mode hash]> (add_dirs (parents rel) m1)) !! p = on_disk p) as Hoth.
      { intros p y Hp Hne Ep. rewrite lookup_insert_ne, lookup_add_dirs by done. case_bool_decide as Hpr; [| done].
        unfold on_disk in Hd. destruct (h_nodes h !! rel) as [n |] eqn:En; [| done]. by rewrite (on_disk_dir p rel n). }
      assert (∀ y, (rel, y) ∈ l → y = SDisk sym) as Huniq.
      { intros y Hy. assert ((rel, SDisk sym) ∈ l) as Hx by (rewrite El; set_solver). by eapply (NoDup_fst_unique l). }
      split; intros p y Hp Hy; destruct (decide (p = rel)) as [-> | Hne].
      + right. by rewrite lookup_insert_eq.
      + destruct (Ht p y Hp Hy) as [Hn | Ep]; [left | right; by eapply Hoth]. rewrite not_elem_of_app. split; [done |]. by intros [= -> ->]%list_elem_of_singleton.
      + rewrite (Huniq y Hp) in Hy. by destruct Hy.
      + eapply Hoth; [done.. |]. by eapply Hpt. }
  destruct (IH (before ++ [(rel, x)]) s1 st1 m2) as (s' & st' & m3 & Hrun & Hm3 & Hok3 & Hmv3 & Htk3); [by rewrite <- app_assoc | done.. |].
  exists s', st', m3. split_and!; [done.. |]. intros Hk Hh Hr Ht Hpt. destruct (Htk2 Hk Hh Hr Ht Hpt). by apply Htk3.
Qed.
End loops.

(** A scoped pass moves the store only toward the directory, near what it was given; and with
    no conflict to keep and everything readable, each path given is what the directory
    holds. *)
Lemma sync_scoped s :
  manifest s m → blobs_ok s →
  ∃ s' m', sync (ReachPaths ingest) memory disk outcomes s = Ok s' ∧ manifest s' m' ∧ moved_to m'
    ∧ (kept = ∅ → honest (stats s) → (∀ p, p ∈ ingest → os_unreadable os p = false) → ∀ p, p ∈ ingest → m' !! p = on_disk p).
Proof using All.
  intros Hm Hok. unfold sync. cbn [is_whole memory]. pose proof seen_sees as Hsees. cbn [see_reach] in *. set (seen := see_memory _ _) in *.
  unfold apply_seen. set (l := sorted_pairs seen).
  assert (∀ p x, (p, x) ∈ l → sees p x) as Hl by (intros p x Hp%elem_of_sorted_pairs; by apply Hsees).
  assert (NoDup l.*1) as Hdup by (unfold l; rewrite sorted_pairs_fst; apply NoDup_sorted_keys).
  destruct (gone_loop_spec l s m Hm Hclosed) as (s1 & m1 & -> & Hm1 & Hc1 & Hw & Hb1). rewrite bind_Ok.
  destruct (dir_loop_spec l s1 m1 Hm1 Hc1) as (s2 & m2 & -> & Hm2 & Hc2 & Hd & Hb2). rewrite bind_Ok.
  assert (moved_to m2) as Hmv2 by (eapply dirs_move; [done | by apply gone_moves with l | done]).
  destruct (file_loop_moves l Hl Hdup (stats s) [] l s2 ∅ m2 eq_refl Hm2) as (s3 & st & m3 & -> & Hm3 & _ & Hmv3 & Htk); [| done |].
  { unfold blobs_ok. by rewrite Hb2, Hb1. }
  rewrite bind_Ok. destruct (diagnostics_keep_tree st s3 m3 (sorted_pairs (projected outcomes)) (sorted_pairs (unprojected outcomes)) Hm3)
    as (s4 & -> & Ht4 & _).
  exists s4, m3. split_and!; [done | by eapply manifest_ext | done |]. intros Hk Hh Hr p Hp.
  destruct (ingest_seen p Hk Hp) as [x Hx]. assert ((p, x) ∈ l) as Hin by by apply elem_of_sorted_pairs.
  destruct Htk as [Htk Hpl]; [done.. | | |].
  - intros q y _ _. left. apply not_elem_of_nil.
  - intros q y Hq Hy. destruct Hd as [Hd1 Hd2], Hw as [Hw1 Hw2]. pose proof (Hl q y Hq) as [(b & -> & Hb) | [Hqi Hxx]]; [by destruct Hy |].
    destruct Hy as [-> | ->].
    + rewrite Hd2, Hw1; [| exists q; split; [done | by left] |].
      * unfold on_disk. by destruct (h_nodes h !! q) as [[] |].
      * intros (d & Hdd & Hqd). apply list_elem_of_omap in Hdd as ([d' z] & Hz & Ez). destruct z; simplify_eq/=.
        apply Hl in Hz as [(b & ? & _) | [_ Hdz]]; [done |]. destruct (h_nodes h !! d) as [[] |] eqn:Ed; try done.
        destruct Hqd as [-> | Hqd]; [by rewrite Ed in Hxx |]. destruct (Htree d NDir Ed) as (_ & _ & Hdir). by rewrite (Hdir q Hqd) in Hxx.
    + rewrite Hd1; [unfold on_disk; by destruct (h_nodes h !! q) as [[] |] |].
      exists q. split; [| by left]. apply list_elem_of_omap. by exists (q, SDir).
  - destruct x as [sym | b | |].
    + destruct (Htk p (SDisk sym) Hin) as [? | ?]; [by eexists | done | done].
    + apply Hl in Hin as [(b' & _ & Hb) | [_ Hf]]; [by rewrite Hk, lookup_empty in Hb | done].
    + apply (Hpl p SDir Hin). by right.
    + apply (Hpl p SGone Hin). by left.
Qed.
End take_up.
