(* ===== verification/CheckoutSync.v ===== *)
(** * Reconciling: the whole call

    The survey of [Checkout.reconcile] decides each path by which side moved; composed with
    [CheckoutRuns] this gives what the store, the directory and the index hold after a
    reconcile of some paths, however it ends. *)

From S2P Require Import Prelude Substrate Text Tree Merge TreeSync Proposal StateM Checkout CheckoutHost CheckoutRuns.
From Stdlib Require Import NArith Lia.
Local Open Scope N_scope.

(** ** What the survey decides *)

Section survey.
Context `{Blake3} (os : Os) (h : host) (m : gmap path Entry) (st : gmap path (Z * Z)) (idx : gmap path Entry).

Definition verdict (p : path) : option Action :=
  match look os h st (m !! p) (idx !! p) p with
  | LeftOut _ => None
  | New => Some Ingest
  | Looked disk _ => Some match m !! p with Some held => classify disk held (idx !! p) | None => classify_unstored disk (idx !! p) end
  end.
Notation survey := (foldl (survey_one os h m st idx)).
Definition when (a : Action) {A} (f : path → A) (p : path) : list A := if bool_decide (verdict p = Some a) then [f p] else [].
Lemma survey_one_ingest w p : w_ingest (survey_one os h m st idx w p) = w_ingest w ++ when Ingest id p.
Proof.
  unfold when, verdict, survey_one, act. destruct (look os h st (m !! p) (idx !! p) p) as [| | d hs]; cbn;
    [by rewrite app_nil_r | done |]. by destruct (match m !! p with Some _ => _ | None => _ end); cbn; rewrite ?app_nil_r.
Qed.
Lemma survey_one_converge w p : w_converge (survey_one os h m st idx w p) = w_converge w ++ when Converge (λ p, (p, m !! p)) p.
Proof.
  unfold when, verdict, survey_one, act. destruct (look os h st (m !! p) (idx !! p) p) as [| | d hs]; cbn;
    [by rewrite app_nil_r | by rewrite app_nil_r |]. by destruct (match m !! p with Some _ => _ | None => _ end); cbn; rewrite ?app_nil_r.
Qed.
Lemma survey_one_remove w p : w_remove (survey_one os h m st idx w p) = w_remove w ++ when Remove id p.
Proof.
  unfold when, verdict, survey_one, act. destruct (look os h st (m !! p) (idx !! p) p) as [| | d hs]; cbn;
    [by rewrite app_nil_r | by rewrite app_nil_r |]. by destruct (match m !! p with Some _ => _ | None => _ end); cbn; rewrite ?app_nil_r.
Qed.
Lemma survey_one_materialize w p :
  w_materialize (survey_one os h m st idx w p) = w_materialize w ++ when Materialize (λ p, (p, default EDir (m !! p))) p.
Proof.
  unfold when, verdict, survey_one, act. destruct (look os h st (m !! p) (idx !! p) p) as [| | d hs]; cbn;
    [by rewrite app_nil_r | by rewrite app_nil_r |]. destruct (m !! p) as [e |]; cbn; [by destruct (classify _ _ _); cbn; rewrite ?app_nil_r |].
  unfold classify_unstored. destruct d, (idx !! p); try case_bool_decide; cbn; by rewrite ?app_nil_r.
Qed.
Lemma survey_one_conflicts w p : ∃ d, w_conflicts (survey_one os h m st idx w p)
  = w_conflicts w ++ when InConflict (λ p, {| cf_path := p; cf_disk := d; cf_stored := m !! p; cf_index := idx !! p |}) p.
Proof.
  unfold when, verdict, survey_one, act. destruct (look os h st (m !! p) (idx !! p) p) as [| | d hs]; cbn;
    [exists None; by rewrite app_nil_r | exists None; by rewrite app_nil_r |]. exists d.
  by destruct (match m !! p with Some _ => _ | None => _ end); cbn; rewrite ?app_nil_r.
Qed.
Record surveyed (ps : list path) (w : Work) : Prop := {
  sv_ingest : ∀ p, p ∈ w_ingest w ↔ p ∈ ps ∧ verdict p = Some Ingest;
  sv_converge : ∀ p x, (p, x) ∈ w_converge w ↔ p ∈ ps ∧ verdict p = Some Converge ∧ x = m !! p;
  sv_remove : ∀ p, p ∈ w_remove w ↔ p ∈ ps ∧ verdict p = Some Remove;
  sv_materialize : ∀ p e, (p, e) ∈ w_materialize w ↔ p ∈ ps ∧ verdict p = Some Materialize ∧ e = default EDir (m !! p);
  sv_conflicts : ∀ c, c ∈ w_conflicts w → cf_path c ∈ ps ∧ verdict (cf_path c) = Some InConflict ∧ cf_stored c = m !! cf_path c;
  sv_disputed : ∀ p, p ∈ ps → verdict p = Some InConflict → w_conflicts w ≠ [];
  sv_nodup : NoDup ps → NoDup (w_materialize w).*1;
}.
Lemma elem_of_when a {A} (f : path → A) p x : x ∈ when a f p ↔ verdict p = Some a ∧ x = f p.
Proof. unfold when. case_bool_decide; [rewrite list_elem_of_singleton; tauto |]. split; [by intros ?%not_elem_of_nil | tauto]. Qed.
Lemma survey_spec ps : surveyed ps (survey no_work ps).
Proof.
  induction ps as [| p ps IH] using rev_ind; cbn.
  { split; cbn; try (intros; split; [by intros ?%not_elem_of_nil | by intros [?%not_elem_of_nil _]]); by intros ? ?%not_elem_of_nil || constructor. }
  rewrite foldl_snoc. set (w := survey no_work ps) in *. destruct IH as [H1 H2 H3 H4 H5 H6 H7].
  pose proof (survey_one_conflicts w p) as [d Ec]. split.
  - intros q. rewrite survey_one_ingest, !elem_of_app, elem_of_when, list_elem_of_singleton, H1. cbn. naive_solver.
  - intros q x. rewrite survey_one_converge, !elem_of_app, elem_of_when, list_elem_of_singleton, H2. naive_solver.
  - intros q. rewrite survey_one_remove, !elem_of_app, elem_of_when, list_elem_of_singleton, H3. cbn. naive_solver.
  - intros q e. rewrite survey_one_materialize, !elem_of_app, elem_of_when, list_elem_of_singleton, H4. naive_solver.
  - intros c. rewrite Ec, !elem_of_app, elem_of_when. intros [(? & ? & ?)%H5 | [? ->]]; cbn; [naive_solver |]. split_and!; [| done..]. right. left.
  - intros q. rewrite Ec, elem_of_app, list_elem_of_singleton. intros [Hq | ->] Hv.
    + intros [E _]%app_eq_nil. by apply (H6 q).
    + unfold when. rewrite bool_decide_true by done. by intros [_ ?]%app_eq_nil.
  - rewrite survey_one_materialize, fmap_app. intros (Hnd & Hx & _)%NoDup_app. unfold when. case_bool_decide; cbn; [| rewrite app_nil_r; auto].
    apply NoDup_app. split_and!; [auto | | apply NoDup_singleton]. intros q ([q' e] & -> & (Hq & _)%H4)%list_elem_of_fmap Hp%list_elem_of_singleton.
    cbn in Hp. subst q'. apply (Hx p Hq). left.
Qed.

(** A verdict says which side moved. *)
Hypothesis Hclean : clean h.
Hypothesis Htree : tree_ok (h_nodes h).
Notation disk := (λ q, h_nodes h !! q ≫= node_entry).
Definition honest_at (p : path) : Prop := ∀ n hash,
  h_nodes h !! p = Some n → st !! p = Some (stat_of (meta_of n)) → m !! p = Some (EFile (disk_mode (meta_of n)) hash) →
  node_entry n = Some (EFile (disk_mode (meta_of n)) hash).
Definition moved_as (p : path) (a : Action) : Prop :=
  match a with
  | Nothing => disk p = idx !! p ∧ m !! p = idx !! p
  | Materialize => disk p = idx !! p ∧ m !! p ≠ idx !! p ∧ is_Some (m !! p)
  | Ingest => disk p ≠ idx !! p ∧ m !! p = idx !! p
  | Converge => disk p = m !! p ∧ disk p ≠ idx !! p
  | InConflict => disk p ≠ idx !! p ∧ m !! p ≠ idx !! p ∧ disk p ≠ m !! p
  | Remove => disk p = idx !! p ∧ m !! p = None ∧ is_Some (idx !! p)
  end.
Lemma look_file_true n p d hs :
  node_at os h p = Some n → look_file os h p (meta_of n) = Looked d hs → n ≠ NDir → n ≠ NOther → d = node_entry n.
Proof.
  intros En Hl H1 H2. unfold look_file, read, read_link in Hl. rewrite En in Hl. destruct n as [perm b t | tg t | |]; try done; cbn in *.
  - unfold disk_mode in Hl. cbn in Hl. destruct (N.land perm 73 =? 0); cbn in Hl;
      rewrite bool_decide_false in Hl by done; destruct (os_unreadable os p); simplify_eq; done.
  - rewrite bool_decide_true in Hl by done. by simplify_eq.
Qed.
Lemma look_true p d hs : plain_relative p = true → linkless (h_nodes h) p → honest_at p →
  look os h st (m !! p) (idx !! p) p = Looked d hs → d = disk p.
Proof using Hclean Htree.
  intros Hp Hl Hh. unfold look. rewrite (plain_inside p Hp). cbn [negb]. unfold symlink_metadata.
  pose proof (node_at_plain os h p Hclean Htree Hp Hl) as En. rewrite En. destruct (h_nodes h !! p) as [n |] eqn:E; cbn; [| by intros [= <-]].
  assert (∀ d hs, look_file os h p (meta_of n) = Looked d hs → n ≠ NDir → n ≠ NOther → d = node_entry n) as Hfile by (intros; by eapply look_file_true).
  assert (∀ mode blob, m !! p = Some (EFile mode blob) → bool_decide (disk_mode (meta_of n) = mode) && bool_decide (st !! p = Some (stat_of (meta_of n))) = true →
    m !! p = node_entry n) as Hstat.
  { intros mode blob Em [<-%bool_decide_eq_true Es%bool_decide_eq_true]%andb_true_iff. rewrite Em. symmetry. by apply (Hh n blob E Es). }
  destruct n; cbn [meta_of mt_kind].
  - destruct (m !! p) as [[mode blob |] |] eqn:Em, (idx !! p) eqn:Ei; try done; try (intros; by eapply Hfile);
      (destruct (_ && _) eqn:Eb; [intros [= <- <-]; by rewrite <- (Hstat mode blob) | intros; by eapply Hfile]).
  - destruct (m !! p) as [[mode blob |] |] eqn:Em, (idx !! p) eqn:Ei; try done; try (intros; by eapply Hfile);
      (destruct (_ && _) eqn:Eb; [intros [= <- <-]; by rewrite <- (Hstat mode blob) | intros; by eapply Hfile]).
  - destruct (m !! p), (idx !! p); try done; by intros [= <- <-].
  - done.
Qed.
Lemma look_new p : plain_relative p = true → linkless (h_nodes h) p →
  look os h st (m !! p) (idx !! p) p = New → m !! p = None ∧ idx !! p = None ∧ is_Some (disk p).
Proof using Hclean Htree.
  intros Hp Hl. unfold look. rewrite (plain_inside p Hp). cbn [negb]. unfold symlink_metadata.
  rewrite (node_at_plain os h p Hclean Htree Hp Hl). destruct (h_nodes h !! p) as [n |] eqn:E; [| done].
  destruct n; cbn; destruct (m !! p) as [[]|], (idx !! p); try done; repeat case_match; try done; unfold look_file in *; repeat case_match; try done; eauto.
Qed.
Lemma verdict_true p a : plain_relative p = true → linkless (h_nodes h) p → honest_at p → verdict p = Some a → moved_as p a.
Proof using Hclean Htree.
  intros Hp Hl Hh. unfold verdict. destruct (look os h st (m !! p) (idx !! p) p) as [| | d hs] eqn:E; [done | |].
  - intros [= <-]. destruct (look_new p Hp Hl E) as (E1 & E2 & [x Hx]). unfold moved_as. by rewrite E1, E2, Hx.
  - pose proof (look_true p d hs Hp Hl Hh E) as ->. intros [= <-]. unfold moved_as.
    destruct (m !! p) as [e |] eqn:Em.
    + unfold classify. repeat case_bool_decide; cbn; split_and!; try done; try congruence; by eexists.
    + unfold classify_unstored. cbv beta. destruct (h_nodes h !! p ≫= node_entry) as [x |] eqn:Ex, (idx !! p) as [y |] eqn:Ey; try case_bool_decide; cbn;
        rewrite ?Ex, ?Ey; split_and!; try done; try congruence; by eexists.
Qed.
End survey.

(** ** The index *)

Definition entries_of (i : gmap path (list byte * N)) : gmap path Entry := omap index_entry i.
Lemma index_entry_roundtrip e : index_entry (index_blob e, Entry_git_mode e) = Some e.
Proof.
  unfold index_entry, Entry_git_mode. cbn [fst snd]. rewrite GitMode_roundtrip. destruct e as [mode hash |]; [| done].
  destruct mode; cbn; by rewrite Hash_try_from_as_bytes.
Qed.
Lemma entries_of_set rel e i q :
  entries_of (set_index rel e i) !! q = if bool_decide (q = rel) then e else entries_of i !! q.
Proof.
  unfold entries_of, set_index. case_bool_decide as E; [subst | destruct e]; rewrite !lookup_omap; [| by rewrite lookup_insert_ne | by rewrite lookup_delete_ne].
  destruct e as [e |]; [rewrite lookup_insert_eq; cbn; apply index_entry_roundtrip | by rewrite lookup_delete_eq].
Qed.
(** What a list of index changes leaves at a path. *)
Lemma entries_of_fold (l : list (path * option Entry)) i q :
  entries_of (foldl (λ i x, set_index x.1 x.2 i) i l) !! q = entries_of i !! q ∧ q ∉ l.*1
  ∨ (q, entries_of (foldl (λ i x, set_index x.1 x.2 i) i l) !! q) ∈ l.
Proof.
  induction l as [| [p e] l IH] using rev_ind; cbn; [left; split; [done | apply not_elem_of_nil] |].
  rewrite foldl_snoc, entries_of_set, fmap_app. cbn. case_bool_decide as E; [subst; right; apply elem_of_app; right; left |].
  destruct IH as [[-> Hn] | IH]; [left | right; apply elem_of_app; by left]. split; [done |]. rewrite not_elem_of_app, list_elem_of_singleton. done.
Qed.
Lemma entries_of_ingest s m l i :
  manifest s m → ∃ i', fold_result (ingest_index s) i l = Ok i' ∧ ∀ q, entries_of i' !! q = if bool_decide (q ∈ l) then m !! q else entries_of i !! q.
Proof.
  intros Hm. revert i. induction l as [| p l IH]; intros i; cbn [fold_result].
  { exists i. split; [done |]. intros q. by rewrite bool_decide_false by apply not_elem_of_nil. }
  assert (ingest_index s i p = Ok (set_index p (m !! p) i)) as -> by (unfold ingest_index; by rewrite (Hm p)). rewrite bind_Ok.
  destruct (IH (set_index p (m !! p) i)) as (i' & -> & Hi). exists i'. split; [done |]. intros q. rewrite Hi, entries_of_set.
  destruct (decide (q = p)) as [-> | Hn]; [rewrite (bool_decide_true (p ∈ p :: l)) by left; rewrite (bool_decide_true (p = p)) by done; by case_bool_decide |].
  rewrite (bool_decide_false (q = p)) by done. repeat case_bool_decide; set_solver.
Qed.

(** ** Reconciling some paths *)

(** The parse reports the blobs of the bytes it read, and stores blobs under their hash. *)
Class CheckoutParserLaws `{Blake3, CheckoutParser} : Prop := {
  parse_reads : ∀ scope memory h d parsed, co_project (Some scope) memory h d = Some parsed →
    ∀ p hash syn perm b t, p ∈ scope → projected (pd_outcomes (cp_parsed parsed)) !! p = Some (hash, syn) →
    h_nodes h !! p = Some (NFile perm b t) → hash = blake3 b;
  parse_stores : ∀ scope memory h d parsed, co_project scope memory h d = Some parsed →
    ∀ k b, cp_blobs parsed !! k = Some b → k = as_bytes (blake3 b);
}.

Section reconcile.
Context `{Blake3, CheckoutParser, !CheckoutParserLaws} (os : Os).
Implicit Types (c : co) (m : gmap path Entry) (scope : list path).
Notation disk_at c q := (h_nodes (co_host c) !! q ≫= node_entry).
(** Where the two sides last agreed. *)
Definition agreed c : gmap path Entry := index_entries (ensure_tables c).

(** The store is a tree of blobs it holds, the directory is a tree with no link where the
    store or a path has a directory, the names of staging are kept apart, and a stat the
    store recorded tells the bytes. *)
Record ready c m scope : Prop := {
  rd_manifest : manifest (db_store (co_db c)) m;
  rd_closed : closed m;
  rd_names : ∀ q e, m !! q = Some e → plain_relative q = true ∧ ¬ staged q;
  rd_blobs : blobs_ok (db_store (co_db c));
  rd_clean : clean (co_host c);
  rd_tree : tree_ok (h_nodes (co_host c));
  rd_perm : N.land (os_perm os) 292 ≠ 0;
  rd_scope : ∀ p, p ∈ scope → plain_relative p = true ∧ ¬ staged p ∧ linkless (h_nodes (co_host c)) p;
  rd_dirs : ∀ q, m !! q = Some EDir → is_link (h_nodes (co_host c) !! q) = false;
  rd_staged : ∀ q, staged q → is_link (h_nodes (co_host c) !! q) = false;
  rd_honest : ∀ p, p ∈ scope → honest_at (co_host c) m (stats (db_store (co_db c))) p;
}.
Definition takes_up c m (p : path) : Prop := disk_at c p ≠ agreed c !! p ∧ m !! p = agreed c !! p.
Definition disputed c m (p : path) : Prop := disk_at c p ≠ agreed c !! p ∧ m !! p ≠ agreed c !! p ∧ disk_at c p ≠ m !! p.

Section run.
Context (c : co) (m : gmap path Entry) (scope : list path) (Hready : ready c m scope).
Let s0 := db_store (co_db c).
Let idx := agreed c.
Let ps := in_order (list_to_set scope).
Let w := foldl (survey_one os (co_host c) m (stats s0) idx) no_work ps.

Lemma elem_of_ps p : p ∈ ps ↔ p ∈ scope.
Proof using Type. unfold ps, in_order. rewrite elem_of_sorted_keys, lookup_gset_to_gmap. rewrite <- (elem_of_list_to_set (C := gset path)).
  destruct (decide (p ∈ (list_to_set scope : gset path))) as [Hp | Hp]; [rewrite option_guard_True by done | rewrite option_guard_False by done]; naive_solver. Qed.
Lemma work : surveyed os (co_host c) m (stats s0) idx ps w.
Proof using Type. apply survey_spec. Qed.
Lemma moved p a : p ∈ scope → verdict os (co_host c) m (stats s0) idx p = Some a → moved_as (co_host c) m idx p a.
Proof using Hready. intros Hp. destruct (rd_scope _ _ _ Hready p Hp) as (? & ? & ?). destruct Hready. by apply verdict_true; auto. Qed.
Lemma bring_work : ∃ b h', bring os s0 w (co_host c) = (Ok b, h') ∧ brought_up (co_host c) m w b h'.
Proof using Hready.
  pose proof work as Hw. assert (post (bring os s0 w) (co_host c) (λ r h', ∃ b, r = Ok b ∧ brought_up (co_host c) m w b h')) as Hp.
  { apply bring_spec; try apply Hready.
    - intros q (Hq%elem_of_ps & Hv)%(sv_remove _ _ _ _ _ _ _ Hw). destruct (rd_scope _ _ _ Hready q Hq) as (? & ? & ?).
      destruct (moved q Remove Hq Hv) as (_ & ? & _). done.
    - intros q e (Hq%elem_of_ps & Hv & ->)%(sv_materialize _ _ _ _ _ _ _ Hw). destruct (moved q Materialize Hq Hv) as (_ & _ & [e ->]). done.
    - apply (sv_nodup _ _ _ _ _ _ _ Hw). apply NoDup_sorted_keys. }
  unfold post in Hp. destruct (bring os s0 w (co_host c)) as [r h']. destruct Hp as (b & Er & ?). cbn in Er. subst r. by exists b, h'.
Qed.

(** The conflicts kept out of the parse. *)
Lemma keep_spec cs out kept out' :
  (∀ x, x ∈ cs → cf_path x ∈ scope ∧ verdict os (co_host c) m (stats s0) idx (cf_path x) = Some InConflict ∧ cf_stored x = m !! cf_path x) →
  (∀ p, p ∈ out → p ∉ w_ingest w) → fold_result (keep_one s0) (∅, out) cs = Ok (kept, out') →
  (∀ p b, kept !! p = Some b → p ∈ scope ∧ disputed c m p ∧ ∃ mode, m !! p = Some (EFile mode (blake3 b))) ∧ (∀ p, p ∈ out' → p ∉ w_ingest w)
  ∧ (cs = [] → kept = ∅).
Proof using Hready.
  intros Hcs Hout Hrun. split_and!; [| | by intros ->; cbn in Hrun; simplify_eq].
  all: pose proof (fold_result_inv (λ x : gmap path (list byte) * gset path,
    (∀ p b, x.1 !! p = Some b → p ∈ scope ∧ disputed c m p ∧ ∃ mode, m !! p = Some (EFile mode (blake3 b))) ∧ (∀ p, p ∈ x.2 → p ∉ w_ingest w))
    (keep_one s0) (∅, out) (kept, out') cs) as Hinv; cbn in Hinv; apply Hinv; clear Hinv; try done.
  all: intros [k o] x st' Hx [Hk Ho]; destruct (Hcs x Hx) as (Hs & Hv & Est); pose proof (moved _ _ Hs Hv) as Hd; unfold keep_one; rewrite Est.
  all: destruct (m !! cf_path x) as [[mode hash |] |] eqn:Em; [| by intros [= <-] |].
  2, 4: intros [= <-]; cbn; split; [done |]; intros p [->%elem_of_singleton | Hp]%elem_of_union; [| by apply Ho];
    intros (_ & Hv')%(sv_ingest _ _ _ _ _ _ _ work); congruence.
  all: unfold blob, blob_bytes, ok_or; destruct (t_blobs s0 !! as_bytes hash) as [bytes |] eqn:Eb; [| done]; cbn; intros [= <-]; cbn; split; [| done].
  all: intros p b Hp; destruct (decide (p = cf_path x)) as [-> | Hne]; [| rewrite lookup_insert_ne in Hp by done; by apply Hk].
  all: rewrite lookup_insert_eq in Hp; injection Hp as <-; apply (rd_blobs _ _ _ Hready), as_bytes_inj in Eb as ->; eauto.
Qed.

Section parsed.
Context (b : Brought) (h' : host) (Hup : brought_up (co_host c) m w b h').
Lemma ingest_side p : p ∈ w_ingest w →
  h_nodes h' !! p = h_nodes (co_host c) !! p ∨ ∃ e n, m !! p = Some e ∧ h_nodes h' !! p = Some n ∧ node_entry n = Some e.
Proof using Hready Hup.
  intros (Hp & Hv)%(sv_ingest _ _ _ _ _ _ _ work). apply elem_of_ps in Hp. destruct (rd_scope _ _ _ Hready p Hp) as (_ & Hns & _).
  destruct (bu_side _ _ _ _ _ Hup p Hns) as [? | [[Hr _] | (e & n & ? & ? & ? & _)]]; [by left | | right; eauto].
  apply (sv_remove _ _ _ _ _ _ _ work) in Hr as [_ ?]. congruence.
Qed.
Lemma ingest_linkless p : p ∈ w_ingest w → linkless (h_nodes h') p.
Proof using Hready Hup.
  intros Hp. pose proof Hp as (Hps & Hv)%(sv_ingest _ _ _ _ _ _ _ work). apply elem_of_ps in Hps. pose proof (moved p _ Hps Hv) as [Hd Hm].
  destruct (h_nodes h' !! p) as [n |] eqn:E; [by eapply tree_linkless; [apply Hup |] |].
  assert (is_Some (m !! p)) as Hmp.
  { destruct (ingest_side p Hp) as [E' | (e & n & ? & ? & _)]; [| congruence]. rewrite Hm. rewrite <- E', E in Hd.
    destruct (idx !! p) as [e |] eqn:Ei; [by eexists | by destruct Hd]. }
  intros q Hq. assert (m !! q = Some EDir) as Hmq by by eapply (rd_closed _ _ _ Hready).
  destruct (bu_side _ _ _ _ _ Hup q) as [-> | [[_ ->] | (e & n & Em & -> & En & _)]];
    [by eapply (rd_names _ _ _ Hready) | by apply (rd_dirs _ _ _ Hready) | done |].
  destruct n; try done. cbn in En. congruence.
Qed.
Lemma ingest_honest : honest h' m (w_ingest w) (stats s0).
Proof using Hready Hup.
  intros p n Hp En Es hash Em. destruct (ingest_side p Hp) as [E | (e & n' & Ee & En' & Ex)]; [| congruence].
  pose proof Hp as (Hps & _)%(sv_ingest _ _ _ _ _ _ _ work). apply elem_of_ps in Hps. apply (rd_honest _ _ _ Hready p Hps n hash); [congruence | done | done].
Qed.
Lemma parse_work kept out r :
  (∀ p b, kept !! p = Some b → ∃ mode, m !! p = Some (EFile mode (blake3 b))) → (∀ p, p ∈ out → p ∉ w_ingest w) →
  parse_checkout os (Some (w_ingest w)) kept out h' (co_db c) = r →
  r ≠ Panic ∧ ∀ d', r = Ok d' → ∃ m', manifest (db_store d') m' ∧ moved_to h' m (w_ingest w) kept m'
    ∧ (kept = ∅ → (∀ p, p ∈ w_ingest w → os_unreadable os p = false) → ∀ p, p ∈ w_ingest w → m' !! p = on_disk h' p).
Proof using All.
  intros Hk Ho Hr. unfold parse_checkout, mret, result_ret in Hr. cbv beta iota zeta in Hr. rewrite bind_Ok in Hr.
  destruct (co_project (Some (w_ingest w)) (Written kept out no_edits) h' (co_db c)) as [parsed |] eqn:Ep; cbn [ok_or] in Hr; [rewrite bind_Ok in Hr | by subst r].
  set (s := {| t_tree := _ |}) in Hr. destruct (sync_scoped os h' m (w_ingest w) kept out (pd_outcomes (cp_parsed parsed))) with (s := s)
    as (s' & m' & Hs & Hm' & Hmv & Htk); try apply Hup; try done.
  - apply Hready.
  - intros p Hp. pose proof Hp as (Hps & _)%(sv_ingest _ _ _ _ _ _ _ work). apply elem_of_ps in Hps.
    destruct (rd_scope _ _ _ Hready p Hps) as (? & _). split_and!; [done | by apply ingest_linkless |]. intros Hx. by apply (Ho p).
  - intros p hash syn perm bs t Hp. by apply (parse_reads _ _ _ _ _ Ep).
  - apply (manifest_ext s0); [done | apply Hready].
  - intros k v. unfold s. cbn. intros [Hv | [_ Hv]]%lookup_union_Some_raw; [by apply (rd_blobs _ _ _ Hready) | by eapply (parse_stores _ _ _ _ _ Ep)].
  - rewrite Hs in Hr. cbn [map_err] in Hr. rewrite bind_Ok in Hr. subst r. split; [done |]. intros d' [= <-]. exists m'. split_and!; [done.. |]. intros E Hr. apply Htk; [done | | done]. apply ingest_honest.
Qed.
End parsed.

(** How the call ends: with an error after the directory was brought up and nothing else, or
    with the parse and the index recorded. *)
Definition after (d : db) (i : gmap path (list byte * N)) (h' : host) : co :=
  set_tables i (record_conflicts (Some scope) (list_to_set scope) (w_conflicts w) (co_conflict c)) (set_db d (set_host h' (ensure_tables c))).
Record recorded (b : Brought) (h' : host) (d : db) (i : gmap path (list byte * N)) (m' : gmap path Entry) : Prop := {
  rc_manifest : manifest (db_store d) m';
  rc_index : record_index (db_store d) w b (index_rows (ensure_tables c)) = Ok i;
  rc_moved : ∃ kept, moved_to h' m (w_ingest w) kept m' ∧ ∀ p x, kept !! p = Some x → p ∈ scope ∧ disputed c m p;
  rc_taken : w_conflicts w = [] → (∀ p, p ∈ scope → os_unreadable os p = false) → ∀ p, p ∈ w_ingest w → m' !! p = on_disk h' p;
}.
Lemma reconcile_ends : ∃ b h', brought_up (co_host c) m w b h' ∧
  ((∃ e, reconcile os (Some scope) c = (Err e, set_host h' (ensure_tables c))) ∨
   ∃ d i m' rc, reconcile os (Some scope) c = (Ok rc, after d i h') ∧ recorded b h' d i m'
     ∧ rc_conflicts rc = w_conflicts w ∧ rc_unmaterialized rc = b_unmaterialized b).
Proof using All.
  destruct bring_work as (b & h' & Eb & Hup). exists b, h'. split; [done |].
  assert (∀ p, p ∈ b_kept_out b → p ∉ w_ingest w) as Hout.
  { intros p Hp (_ & Hv)%(sv_ingest _ _ _ _ _ _ _ work). apply (bu_kept_out _ _ _ _ _ Hup), (sv_remove _ _ _ _ _ _ _ work) in Hp as [_ ?]. congruence. }
  assert (∀ m' d, manifest (db_store d) m' → ∃ i, record_index (db_store d) w b (index_rows (ensure_tables c)) = Ok i) as Hidx.
  { intros m' d Hm'. unfold record_index. destruct (entries_of_ingest (db_store d) m' (w_ingest w)
      (foldl (λ i x, set_index x.1 x.2 i) (index_rows (ensure_tables c)) (b_advanced b)) Hm') as (i & -> & _). by eexists. }
  assert (reconcile os (Some scope) c =
    (kept ← StateM.lift (fold_result (keep_one s0) (∅, b_kept_out b) (w_conflicts w));
     _ ← (if negb (bool_decide (w_ingest w = [])) then
            d ← reads (λ c, parse_checkout os (Some (w_ingest w)) kept.1 kept.2 (co_host c) (co_db c)); modify (set_db d)
          else mret tt);
     i ← reads (λ c, record_index (db_store (co_db c)) w b (index_rows c));
     _ ← modify (λ x, set_tables i (record_conflicts (Some scope) (list_to_set scope) (w_conflicts w) (co_conflict x)) x);
     mret {| rc_parsed := negb (bool_decide (w_ingest w = [])); rc_materialized := b_materialized b; rc_removed := reverse (b_removed b);
             rc_unmaterialized := b_unmaterialized b; rc_conflicts := w_conflicts w; rc_hashed := w_hashed w |}) (set_host h' (ensure_tables c))) as ->.
  { unfold reconcile. rewrite (run_bind_Ok _ _ _ tt (ensure_tables c)) by done.
    rewrite (run_bind_Ok _ _ _ m (ensure_tables c)). 2: { unfold reads. cbn. by rewrite (entries_manifest _ m) by apply Hready. }
    rewrite (run_bind_Ok _ _ _ (stats s0) (ensure_tables c)) by done. rewrite (run_bind_Ok _ _ _ idx (ensure_tables c)) by done.
    rewrite (run_bind_Ok _ _ _ (list_to_set scope) (ensure_tables c)) by done. rewrite (run_bind_Ok _ _ _ w (ensure_tables c)) by done.
    rewrite (run_bind_Ok _ _ _ s0 (ensure_tables c)) by done.
    rewrite (run_bind_Ok _ _ _ b (set_host h' (ensure_tables c))) by (unfold zoom; change (co_host (ensure_tables c)) with (co_host c); by rewrite Eb). done. }
  destruct (fold_result (keep_one s0) (∅, b_kept_out b) (w_conflicts w)) as [[kept out] | e |] eqn:Ek.
  2: { left. by exists e. }
  2: { exfalso. revert Ek. apply fold_no_panic. intros [k o] x. unfold keep_one, blob, ok_or. by repeat case_match. }
  destruct (keep_spec (w_conflicts w) (b_kept_out b) kept out) as (Hk & Ho & Hk0); [| done.. |].
  { intros x (Hx%elem_of_ps & ?)%(sv_conflicts _ _ _ _ _ _ _ work). done. }
  rewrite (run_bind_Ok _ _ _ (kept, out) (set_host h' (ensure_tables c))) by done.
  case_bool_decide as Hi; cbn [negb fst snd].
  - right. destruct (Hidx m (co_db c)) as [i Ei]; [apply Hready |]. do 4 eexists. split; [| split; [split | split]].
    + rewrite (run_bind_Ok _ _ _ tt (set_host h' (ensure_tables c))) by done.
      rewrite (run_bind_Ok _ _ _ i (set_host h' (ensure_tables c))) by by unfold reads; rewrite <- Ei.
      by rewrite (run_bind_Ok _ _ _ tt (after (co_db c) i h')).
    + apply Hready.
    + done.
    + exists ∅. split; [by left | by intros p x ?%lookup_empty_Some].
    + rewrite Hi. by intros _ _ p ?%not_elem_of_nil.
    + done.
    + done.
  - destruct (parse_work b h' Hup kept out _ ltac:(intros p x Hx; by destruct (Hk p x Hx) as (_ & _ & ?)) Ho eq_refl) as [Hnp Hp].
    destruct (parse_checkout os (Some (w_ingest w)) kept out h' (co_db c)) as [d | e |] eqn:Epc; [| left; exists e | done].
    + right. destruct (Hp d eq_refl) as (m' & Hm' & Hmv & Htk). destruct (Hidx m' d Hm') as [i Ei]. exists d, i, m'. eexists. split; [| split; [split | split]].
      * rewrite (run_bind_Ok _ _ _ tt (set_db d (set_host h' (ensure_tables c)))).
        2: { rewrite (run_bind_Ok _ _ _ d (set_host h' (ensure_tables c))); [done |]. unfold reads. f_equal. exact Epc. }
        rewrite (run_bind_Ok _ _ _ i (set_db d (set_host h' (ensure_tables c)))) by by unfold reads; rewrite <- Ei.
        by rewrite (run_bind_Ok _ _ _ tt (after d i h')).
      * done.
      * done.
      * exists kept. split; [done |]. intros p x Hx. by destruct (Hk p x Hx) as (? & ? & _).
      * intros Hnc Hr. apply Htk; [by apply Hk0 |]. intros p (Hx%elem_of_ps & _)%(sv_ingest _ _ _ _ _ _ _ work). by apply Hr.
      * done.
      * done.
    + rewrite (run_bind_Err _ _ _ e (set_host h' (ensure_tables c))); [done |].
      rewrite (run_bind_Err _ _ _ e (set_host h' (ensure_tables c))); [done |]. unfold reads. f_equal. exact Epc.
Qed.

(** Where each side stands afterwards. *)
Definition near_taken (q : path) : Prop := ∃ p, p ∈ scope ∧ takes_up c m p ∧ (q = p ∨ q ∈ parents p ∨ p ∈ parents q).
Definition store_side (h' : host) (m' : gmap path Entry) (q : path) : Prop :=
  m' !! q = m !! q ∨ (near_taken q ∧ (m' !! q = on_disk h' q ∨ (q ∈ scope ∧ disputed c m q))).
Definition disk_side (h' : host) (q : path) : Prop :=
  h_nodes h' !! q = h_nodes (co_host c) !! q ∨
  (on_disk h' q = m !! q ∧ ((q ∈ scope ∧ disk_at c q = idx !! q) ∨ (h_nodes (co_host c) !! q = None ∧ m !! q = Some EDir))).
Lemma brought_sides b h' q : brought_up (co_host c) m w b h' → ¬ staged q → disk_side h' q.
Proof using Hready.
  intros Hup Hq. pose proof work as Hw. destruct (bu_side _ _ _ _ _ Hup q Hq) as [? | [[Hr E] | (e & n & Em & En & Ee & Hx)]]; [by left | right | right].
  - apply (sv_remove _ _ _ _ _ _ _ Hw) in Hr as [Hp%elem_of_ps Hv]. destruct (moved q _ Hp Hv) as (? & Em & _). unfold on_disk. rewrite E, Em. auto.
  - unfold on_disk. rewrite En, Em. split; [done |]. destruct Hx as [([q' e'] & -> & Hq')%list_elem_of_fmap | [? ->]]; [left | by right].
    apply (sv_materialize _ _ _ _ _ _ _ Hw) in Hq' as (Hp%elem_of_ps & Hv & _). destruct (moved _ _ Hp Hv) as (? & _). done.
Qed.
Lemma recorded_store b h' d i m' q : recorded b h' d i m' → store_side h' m' q.
Proof using Hready.
  intros Hrec. destruct (rc_moved _ _ _ _ _ Hrec) as (kept & Hmv & Hk). destruct (Hmv q) as [? | [(p & Hp & Hq) Hd]]; [by left | right].
  apply (sv_ingest _ _ _ _ _ _ _ work) in Hp as [Hp%elem_of_ps Hv]. split; [exists p; split_and!; [done | by apply (moved p _ Hp Hv) | done] |].
  destruct Hd as [? | [x Hx]]; [by left | right; by apply (Hk q x)].
Qed.
(** A path that is not disputed ends on the store's old side or the directory's new one. *)
Lemma recorded_here b h' d i m' q a :
  brought_up (co_host c) m w b h' → recorded b h' d i m' → q ∈ scope → verdict os (co_host c) m (stats s0) idx q = Some a → a ≠ InConflict →
  m' !! q = m !! q ∨ m' !! q = on_disk h' q.
Proof using Hready.
  intros Hup Hrec Hq Hv Ha. destruct (recorded_store b h' d i m' q Hrec) as [? | [_ [? | [_ (D1 & D2 & D3)]]]]; [by left | by right |].
  pose proof (moved q a Hq Hv) as Hm. destruct a; cbn in Hm; naive_solver.
Qed.
(** What each kind of path leaves in the index. *)
Lemma recorded_index b h' d i m' q :
  brought_up (co_host c) m w b h' → recorded b h' d i m' →
  (entries_of i !! q = idx !! q ∧ q ∉ (w_converge w).*1 ∧ (q ∈ w_ingest w → idx !! q = m' !! q) ∧ (q ∈ (b_advanced b).*1 → q ∈ w_ingest w))
  ∨ (entries_of i !! q = m' !! q ∧ entries_of i !! q = on_disk h' q).
Proof using Hready.
  intros Hup Hrec. pose proof work as Hw. pose proof (rc_index _ _ _ _ _ Hrec) as Hi. unfold record_index in Hi.
  destruct (entries_of_ingest (db_store d) m' (w_ingest w) (foldl (λ i x, set_index x.1 x.2 i) (index_rows (ensure_tables c)) (b_advanced b))
    (rc_manifest _ _ _ _ _ Hrec)) as (i1 & E1 & Hi1). rewrite E1, bind_Ok in Hi. injection Hi as <-.
  assert (∀ a e, q ∈ scope → verdict os (co_host c) m (stats s0) idx q = Some a → a ≠ InConflict → e = m !! q → e = on_disk h' q →
    e = m' !! q ∧ e = on_disk h' q) as Hboth.
  { intros a e Hq Hv Ha Em Ed. split; [| done]. destruct (recorded_here b h' d _ m' q a Hup Hrec Hq Hv Ha) as [-> | ->]; congruence. }
  destruct (entries_of_fold (w_converge w) i1 q) as [[-> Hnc] | Hin]; [| right].
  - rewrite Hi1. case_bool_decide as Hq.
    + apply (sv_ingest _ _ _ _ _ _ _ Hw) in Hq as [Hq%elem_of_ps Hv]. pose proof (moved q _ Hq Hv) as [_ Em].
      destruct (recorded_here b h' d _ m' q Ingest Hup Hrec Hq Hv ltac:(done)) as [E | ->]; [left | by right].
      split_and!; [congruence | done | congruence |]. intros _. apply (sv_ingest _ _ _ _ _ _ _ Hw). split; [by apply elem_of_ps | done].
    + destruct (entries_of_fold (b_advanced b) (index_rows (ensure_tables c)) q) as [[-> Hna] | Hin]; [by left | right].
      pose proof (proj1 (Forall_forall _ _) (bu_records _ _ _ _ _ Hup) _ Hin) as Hrc. unfold records in Hrc. cbn [fst snd] in Hrc.
      destruct (entries_of _ !! q) as [e |] eqn:Ee.
      * destruct Hrc as (Em & Ed & ([q' e'] & -> & Hm)%list_elem_of_fmap). apply (sv_materialize _ _ _ _ _ _ _ Hw) in Hm as (Hq'%elem_of_ps & Hv & _).
        by eapply (Hboth Materialize).
      * destruct Hrc as [Hr Ed]. apply (sv_remove _ _ _ _ _ _ _ Hw) in Hr as [Hq'%elem_of_ps Hv]. destruct (moved q _ Hq' Hv) as (_ & Em & _).
        eapply (Hboth Remove); try done. unfold on_disk. by rewrite Ed.
  - apply (sv_converge _ _ _ _ _ _ _ Hw) in Hin as (Hq%elem_of_ps & Hv & ->). destruct (moved q _ Hq Hv) as [Ed _].
    eapply (Hboth Converge); try done. destruct (rd_scope _ _ _ Hready q Hq) as (_ & Hns & _).
    destruct (brought_sides b h' q Hup Hns) as [E | [E _]]; [| done]. unfold on_disk. by rewrite E, <- Ed.
Qed.

Lemma verdict_total p : p ∈ scope → os_unreadable os p = false → h_nodes (co_host c) !! p ≠ Some NOther →
  is_Some (verdict os (co_host c) m (stats s0) idx p).
Proof using Hready.
  intros Hp Hr Hn. destruct (rd_scope _ _ _ Hready p Hp) as (Hpl & _ & Hl). unfold verdict, look. rewrite (plain_inside p Hpl). cbn [negb].
  unfold symlink_metadata, look_file, read, read_link.
  rewrite (node_at_plain os (co_host c) p) by (done || apply Hready). destruct (h_nodes (co_host c) !! p) as [[perm bs t | tg t | |] |]; try done; cbn;
    try by eexists.
  - unfold disk_mode. cbn. rewrite Hr. destruct (N.land perm 73 =? 0); cbn; destruct (m !! p) as [[]|], (idx !! p); repeat case_match; try done; by eexists.
  - destruct (m !! p) as [[]|], (idx !! p); repeat case_match; try done; by eexists.
  - destruct (m !! p); repeat case_match; try done; by eexists.
Qed.
(** With nothing reported, every path looked at agrees on all three sides. *)
Lemma recorded_agrees b h' d i m' p :
  brought_up (co_host c) m w b h' → recorded b h' d i m' → w_conflicts w = [] → b_unmaterialized b = [] →
  (∀ p, p ∈ scope → os_unreadable os p = false ∧ h_nodes (co_host c) !! p ≠ Some NOther) → p ∈ scope →
  m' !! p = on_disk h' p ∧ entries_of i !! p = m' !! p.
Proof using Hready.
  intros Hup Hrec Hnc Hnu Hread Hp. pose proof work as Hw. destruct (Hread p Hp) as [Hr Hn].
  destruct (verdict_total p Hp Hr Hn) as [a Hv]. pose proof (moved p a Hp Hv) as Hm. destruct (rd_scope _ _ _ Hready p Hp) as (_ & Hns & _).
  assert (a ≠ InConflict) as Ha.
  { intros ->. apply (sv_disputed _ _ _ _ _ _ _ Hw p); [by apply elem_of_ps | done | done]. }
  pose proof (recorded_here b h' d i m' p a Hup Hrec Hp Hv Ha) as Hhere. pose proof (recorded_index b h' d i m' p Hup Hrec) as Hix.
  pose proof (brought_sides b h' p Hup Hns) as Hds.
  assert (on_disk h' p = disk_at c p ∨ on_disk h' p = m !! p) as Hd by (destruct Hds as [E | [? _]]; [left; unfold on_disk; by rewrite E | by right]).
  assert (a = Materialize ∨ a = Remove → on_disk h' p = m !! p ∧ p ∈ (b_advanced b).*1) as Hadv.
  { intros Hmr. assert (accounted b p) as [Hac | Hac].
    - apply (bu_all _ _ _ _ _ Hup). destruct Hmr as [-> | ->]; [right | left].
      + apply (list_elem_of_fmap_2 fst _ (p, default EDir (m !! p))), (sv_materialize _ _ _ _ _ _ _ Hw). split_and!; [by apply elem_of_ps | done | done].
      + apply (sv_remove _ _ _ _ _ _ _ Hw). split; [by apply elem_of_ps | done].
    - split; [| done]. apply list_elem_of_fmap in Hac as ([q x] & Eq & Hin). cbn in Eq. subst q.
      pose proof (proj1 (Forall_forall _ _) (bu_records _ _ _ _ _ Hup) _ Hin) as Hrc. unfold records in Hrc. cbn [fst snd] in Hrc.
      destruct x as [e |]; [destruct Hrc as (E1 & E2 & _); unfold on_disk; congruence |]. destruct Hrc as [Hrm E].
      apply (sv_remove _ _ _ _ _ _ _ Hw) in Hrm as [_ Hvr]. pose proof (moved _ _ Hp Hvr) as (_ & Em & _). unfold on_disk. by rewrite E, Em.
    - by rewrite Hnu in Hac; apply not_elem_of_nil in Hac. }
  assert (m' !! p = on_disk h' p) as Hmd.
  { destruct a; unfold moved_as in Hm; cbv beta in Hm; try done.
    - destruct Hm as [E1 E2]. destruct Hhere as [E3 | E3], Hd as [E4 | E4]; congruence.
    - destruct Hadv as [E _]; [by auto |]. rewrite E in Hhere |- *. by destruct Hhere.
    - apply (rc_taken _ _ _ _ _ Hrec Hnc); [by apply Hread |]. apply (sv_ingest _ _ _ _ _ _ _ Hw). split; [by apply elem_of_ps | done].
    - destruct Hm as [E1 E2]. destruct Hhere as [E3 | E3], Hd as [E4 | E4]; congruence.
    - destruct Hadv as [E _]; [by auto |]. rewrite E in Hhere |- *. by destruct Hhere. }
  split; [done |]. destruct Hix as [(-> & Hcv & Hig & Had) | [? _]]; [| done].
  assert (∀ a', p ∈ w_ingest w → verdict os (co_host c) m (stats s0) idx p = Some a' → a' = Ingest) as Honly.
  { intros a' [_ Hvi]%(sv_ingest _ _ _ _ _ _ _ Hw) Hv'. congruence. }
  destruct a; unfold moved_as in Hm; cbv beta in Hm; try done.
  - destruct Hm as [E1 E2]. destruct Hhere as [E3 | E3], Hd as [E4 | E4]; congruence.
  - destruct Hadv as [_ Hin]; [by auto |]. by specialize (Honly _ (Had Hin) Hv).
  - apply Hig, (sv_ingest _ _ _ _ _ _ _ Hw). split; [by apply elem_of_ps | done].
  - exfalso. apply Hcv, (list_elem_of_fmap_2 fst _ (p, m !! p)), (sv_converge _ _ _ _ _ _ _ Hw). split_and!; [by apply elem_of_ps | done | done].
  - destruct Hadv as [_ Hin]; [by auto |]. by specialize (Honly _ (Had Hin) Hv).
Qed.
End run.

(** C26: Reconciling loses neither side.  Whatever calls on the directory fail, and however
    the call ends: an entry of the store changes only to what the directory holds, at, above
    or below a path the directory changed and the store did not, a disputed path there
    excepted; a node of the directory changes only to the store's entry, at a path the
    directory had not changed, or as a missing directory above one; and the index changes
    only to what both sides then hold. *)
Theorem reconcile_keeps_both_sides c m scope :
  ready c m scope →
  ∃ r c' m', reconcile os (Some scope) c = (r, c') ∧ r ≠ Panic ∧ manifest (db_store (co_db c')) m' ∧
    ∀ q, ¬ staged q → store_side c m scope (co_host c') m' q ∧ disk_side c m scope (co_host c') q
      ∧ (agreed c' !! q = agreed c !! q ∨ (agreed c' !! q = m' !! q ∧ agreed c' !! q = disk_at c' q)).
Proof using All.
  intros Hr. destruct (reconcile_ends c m scope Hr) as (b & h' & Hup & [(e & ->) | (d & i & m' & rc & -> & Hrec & _)]).
  - exists (Err e), (set_host h' (ensure_tables c)), m. split_and!; [done | done | apply Hr |]. intros q Hq.
    split_and!; [by left | by eapply brought_sides | by left].
  - exists (Ok rc), (after c m scope d i h'), m'. split_and!; [done | done | apply Hrec |]. intros q Hq.
    split_and!; [by eapply recorded_store | by eapply brought_sides |].
    destruct (recorded_index c m scope Hr b h' d i m' q Hup Hrec) as [(? & _) | ?]; [by left | by right].
Qed.

(** C27: A reconcile that reports nothing leaves agreement.  When it ends without a conflict
    and with nothing left unmaterialized, and every path could be read, then at each path the
    store, the directory and the index hold the same entry. *)
Theorem reconcile_agrees c m scope rc c' :
  ready c m scope → reconcile os (Some scope) c = (Ok rc, c') → rc_conflicts rc = [] → rc_unmaterialized rc = [] →
  (∀ p, p ∈ scope → os_unreadable os p = false ∧ h_nodes (co_host c) !! p ≠ Some NOther) →
  ∃ m', manifest (db_store (co_db c')) m' ∧ ∀ p, p ∈ scope → m' !! p = disk_at c' p ∧ agreed c' !! p = m' !! p.
Proof using All.
  intros Hr Hrun Hnc Hnu Hread. destruct (reconcile_ends c m scope Hr) as (b & h' & Hup & [(e & E) | (d & i & m' & rc' & E & Hrec & E1 & E2)]);
    rewrite E in Hrun; [done |]. injection Hrun as -> <-. exists m'. split; [apply Hrec |]. intros p Hp.
  apply (recorded_agrees c m scope Hr b h' d i m' p Hup Hrec); [by rewrite <- E1 | by rewrite <- E2 | done | done].
Qed.
End reconcile.

(** ** A small checkout *)

Module Small.
#[export] Existing Instances demo_blake3.
(** A parse that projects nothing. *)
#[export] Instance no_parse : CheckoutParser := {| co_project := λ _ _ _ d, Some {| cp_blobs := ∅; cp_parsed :=
  {| pd_outcomes := {| projected := ∅; unprojected := ∅ |}; pd_source := db_source d; pd_root := []; pd_post := None |} |} |}.
#[export] Instance no_parse_laws : CheckoutParserLaws.
Proof.
  split; unfold co_project; cbn; intros scope memory h d parsed [= <-]; cbn.
  - intros p hash syn perm b t _. by rewrite lookup_empty.
  - intros k b. by rewrite lookup_empty.
Qed.
(** A walk lists every node but hidden ones; a link leads out of the tree. *)
Definition hidden (q : path) : bool := match file_name q with n :: _ => bool_decide (n = x2e) | [] => false end.
Definition listed (f : node → bool) (ns : gmap path node) : list path :=
  omap (λ x, if f x.2 && negb (hidden x.1) then Some x.1 else None) (map_to_list ns).
Definition system (fails : nat → bool) : Os := {|
  os_fails := fails; os_torn := λ _, O; os_clock := λ n, Z.of_nat n; os_perm := 420; os_unreadable := λ _, false;
  os_follow := λ _ d, if bool_decide (parents d = []) then Some Outside else None; os_behind := λ _, None;
  os_walk := λ ns, Some (listed (λ n, match n with NFile _ _ _ => true | _ => false end) ns,
                         listed (λ n, match n with NLink _ _ => true | _ => false end) ns,
                         listed (λ n, match n with NDir => true | _ => false end) ns) |}.
Definition one : list byte := bytes_of "one".
Definition two : list byte := bytes_of "two".
Definition three : list byte := bytes_of "three".
Definition a : path := bytes_of "a".
Definition b : path := bytes_of "b".
Definition ax : path := bytes_of "a/x".
Definition hid : path := bytes_of ".h".
Definition blobs : gmap (list byte) (list byte) :=
  list_to_map [(as_bytes (blake3 one), one); (as_bytes (blake3 two), two); (as_bytes (blake3 three), three)].
Definition store_of (t : list (path * tree_row)) : db :=
  {| db_store := {| t_tree := list_to_map t; t_diag := ∅; t_blobs := blobs |}; db_source := ∅; db_root := None |}.
Definition file (bytes : list byte) : tree_row := file_row Regular (blake3 bytes) None.
Definition checked_out (bytes : list byte) : list byte * N := (as_bytes (blake3 bytes), 33188).
Definition checkout (t : list (path * tree_row)) (i : list (path * (list byte * N))) (ns : list (path * node)) : co :=
  {| co_db := store_of t; co_index := ModeIndex (list_to_map i); co_conflict := ∅;
     co_host := {| h_nodes := list_to_map ns; h_outside := []; h_calls := 0 |} |}.
(** A proposal wrote [a]; a person wrote [b]. *)
Definition start : co :=
  checkout [(a, file two); (b, file one)] [(a, checked_out one); (b, checked_out one)] [(a, NFile 420 one 0); (b, NFile 420 three 0)].
Definition start_tree : gmap path Entry := {[ a := EFile Regular (blake3 two); b := EFile Regular (blake3 one) ]}.
Lemma start_lookup q e : start_tree !! q = Some e → q = a ∨ q = b.
Proof. unfold start_tree. intros [[<- _] | [_ [<- _]%lookup_singleton_Some]]%lookup_insert_Some; auto. Qed.
Lemma start_nodes q n : h_nodes (co_host start) !! q = Some n → (q = a ∧ n = NFile 420 one 0) ∨ (q = b ∧ n = NFile 420 three 0).
Proof.
  cbn. intros [[<- <-] | [_ Hx]]%lookup_insert_Some; [by left | right]. apply lookup_insert_Some in Hx as [[<- <-] | [_ Hx]]; [done |].
  by rewrite lookup_empty in Hx.
Qed.
Lemma start_ready fails : ready (system fails) start start_tree [a; b].
Proof.
  split.
  - intros p. unfold entry. cbn. destruct (decide (p = a)) as [-> | Ha]; [by vm_compute |]. destruct (decide (p = b)) as [-> | Hb]; [by vm_compute |].
    unfold start_tree. rewrite !lookup_insert_ne, !lookup_empty by done. done.
  - intros p d [e [-> | ->]%start_lookup] Hd; by vm_compute in Hd; apply not_elem_of_nil in Hd.
  - intros q e [-> | ->]%start_lookup; (split; [done |]); unfold staged; apply (bool_decide_eq_false_1 _); by vm_compute.
  - intros k bs. cbn. unfold blobs. cbn. intros [[<- <-] | [_ Hx]]%lookup_insert_Some; [done |].
    apply lookup_insert_Some in Hx as [[<- <-] | [_ Hx]]; [done |]. apply lookup_insert_Some in Hx as [[<- <-] | [_ Hx]]; [done |]. by rewrite lookup_empty in Hx.
  - done.
  - intros p n [[-> ->] | [-> ->]]%start_nodes; (split_and!; [done | done |]); intros d Hd; by vm_compute in Hd; apply not_elem_of_nil in Hd.
  - done.
  - intros p [-> | [-> | ?%not_elem_of_nil]%elem_of_cons]%elem_of_cons; try done; (split_and!; [done | unfold staged; apply (bool_decide_eq_false_1 _); by vm_compute |]);
      intros d Hd; by vm_compute in Hd; apply not_elem_of_nil in Hd.
  - intros q Hq. destruct (start_lookup q EDir Hq) as [-> | ->]; by vm_compute in Hq.
  - intros q Hq. destruct (h_nodes (co_host start) !! q) as [n |] eqn:E; [| done]. by apply start_nodes in E as [[-> ->] | [-> ->]].
  - intros p Hp n hash Hn Hs. apply elem_of_cons in Hp as [-> | [-> | ?%not_elem_of_nil]%elem_of_cons]; [by vm_compute in Hs.. | done].
Qed.

End Small.
Import Small.

(** With every third call failing. *)
Lemma reconcile_keeps_both_sides_witness :
  let os := system (λ n, bool_decide (n mod 3 = 2)%nat) in
  ∃ r c' m', reconcile os (Some [a; b]) start = (r, c') ∧ r ≠ Panic ∧ manifest (db_store (co_db c')) m' ∧
    ∀ q, ¬ staged q → store_side start start_tree [a; b] (co_host c') m' q ∧ disk_side start start_tree [a; b] (co_host c') q
      ∧ (agreed c' !! q = agreed start !! q ∨
         (agreed c' !! q = m' !! q ∧ agreed c' !! q = (h_nodes (co_host c') !! q ≫= node_entry))).
Proof. exact (reconcile_keeps_both_sides _ start start_tree [a; b] (start_ready _)). Defined.
Lemma reconcile_agrees_witness :
  ∃ rc c', reconcile (system (λ _, false)) (Some [a; b]) start = (Ok rc, c') ∧ rc_materialized rc = [a] ∧
    ∃ m', manifest (db_store (co_db c')) m' ∧
      ∀ p, p ∈ [a; b] → m' !! p = (h_nodes (co_host c') !! p ≫= node_entry) ∧ agreed c' !! p = m' !! p.
Proof.
  assert (match (reconcile (system (λ _, false)) (Some [a; b]) start).1 with
          | Ok rc => bool_decide (rc_conflicts rc = []) && bool_decide (rc_unmaterialized rc = []) && bool_decide (rc_materialized rc = [a])
          | _ => false
          end = true) as Hr by (vm_compute; reflexivity).
  destruct (reconcile (system (λ _, false)) (Some [a; b]) start) as [r c'] eqn:E. cbn [fst] in Hr. destruct r as [rc | e |]; [| discriminate Hr..].
  rewrite !andb_true_iff, !bool_decide_eq_true in Hr. destruct Hr as [[E1 E2] E3]. exists rc, c'. split; [reflexivity |]. split; [exact E3 |].
  apply (reconcile_agrees (system (λ _, false)) start start_tree [a; b] rc c' (start_ready _) E E1 E2).
  intros p Hp. split; [done |]. intros Hn. by apply start_nodes in Hn as [[_ ?] | [_ ?]].
Defined.

(** ** Where a reconcile departs from its documentation *)

(** The store's entry, and what was reported. *)
Definition held (c : co) (p : path) : option (option Entry) := match entry (db_store (co_db c)) p with Ok e => Some e | _ => None end.
Definition reported (r : result checkout_error Reconciled) : option (list path * list path) :=
  match r with Ok rc => Some ((rc_unmaterialized rc).*1, cf_path <$> rc_conflicts rc) | _ => None end.
(** A whole-directory pass after a materialization that failed takes the directory's old bytes
    up: the accepted proposal is gone from the store. *)
Lemma failed_materialization_undoes_the_proposal :
  let '(r, c') := reconcile (system (λ _, true)) None start in
  reported r = Some ([a], []) ∧ held start a = Some (Some (EFile Regular (blake3 two))) ∧ held c' a = Some (Some (EFile Regular (blake3 one))).
Proof. vm_compute. repeat split. Qed.
(** A path the walk does not list is dropped from the store by the first whole pass, and
    removed from the directory by the second. *)
Definition with_hidden : co := checkout [(hid, file two)] [] [].
Lemma hidden_proposal_is_dropped_then_removed :
  let '(r1, c1) := reconcile (system (λ _, false)) None with_hidden in
  let '(r2, c2) := reconcile (system (λ _, false)) None c1 in
  reported r1 = Some ([], []) ∧ held c1 hid = Some None ∧ is_Some (h_nodes (co_host c1) !! hid)
  ∧ reported r2 = Some ([], []) ∧ h_nodes (co_host c2) !! hid = None.
Proof. vm_compute. split_and!; eauto. Qed.
(** A conflict between the store's file and a directory of new files loses the store's side. *)
Definition file_against_directory : co := checkout [(a, file two)] [(a, checked_out one)] [(a, NDir); (ax, NFile 420 three 0)].
Lemma conflict_with_directory_loses_the_file :
  let '(r, c') := reconcile (system (λ _, false)) None file_against_directory in
  reported r = Some ([], [a]) ∧ held c' a = Some (Some EDir).
Proof. vm_compute. repeat split. Qed.
(** A proposal that turns a file into a directory of files does not land in the directory. *)
Definition file_to_directory : co :=
  checkout [(a, dir_row); (ax, file two)] [(a, checked_out one)] [(a, NFile 420 one 0)].
Lemma file_turned_directory_does_not_land :
  let '(r, c') := reconcile (system (λ _, false)) (Some [a; ax]) file_to_directory in
  reported r = Some ([a; ax], []) ∧ h_nodes (co_host c') !! a = Some (NFile 420 one 0) ∧ h_nodes (co_host c') !! ax = None.
Proof. vm_compute. repeat split. Qed.
(** A directory is made behind a link out of the tree before it is refused. *)
Lemma make_dir_makes_directories_outside :
  let '(r, h') := make_dir (system (λ _, false)) ax {| h_nodes := {[ a := NLink one 0 ]}; h_outside := []; h_calls := 0 |} in
  r = Err (LeadsOutside ax) ∧ h_outside h' = [ax].
Proof. vm_compute. repeat split. Qed.
