(* ===== verification/Sandbox.v ===== *)
(** * From a manifest to a sandbox

    [rs/ll-open/runtime/src/backends/libkrun/confinement.rs]: the manifest a worker compiles,
    the capabilities it applies, and the port map and socket mappings of the microVM tier.
    [nono], the library that applies capabilities, is the class [Nono]: the builders the
    module calls, each of which may refuse.  What the host's file system answers to
    [exists] and [canonicalize] is the class [HostPaths].  Paths are their bytes; the
    conditionally compiled parts read the target as an argument. *)

From S2P Require Import Prelude Substrate Text Limits Service Envelope Authorization Ordered Confinement.
From stdpp Require Import pretty.
From Stdlib Require Import NArith Lia Ascii.
Local Open Scope N_scope.

(** ** [nono] and the host *)

Inductive AccessMode := Access_Read | Access_ReadWrite.
Inductive UnixSocketMode := Mode_Connect | Mode_ConnectBind.
Class Nono := {
  CapabilitySet : Type;
  capabilities_new : CapabilitySet;
  allow_path : string → AccessMode → CapabilitySet → result string CapabilitySet;
  allow_file : string → AccessMode → CapabilitySet → result string CapabilitySet;
  allow_unix_socket_dir : string → UnixSocketMode → CapabilitySet → result string CapabilitySet;
  allow_unix_socket : string → UnixSocketMode → CapabilitySet → result string CapabilitySet;
  platform_rule : string → CapabilitySet → result string CapabilitySet;
  allow_localhost_port : N → CapabilitySet → CapabilitySet;
  allow_tcp_connect : N → CapabilitySet → CapabilitySet;
  proxy_only : N → CapabilitySet → CapabilitySet;
  proxy_only_with_bind : N → list N → CapabilitySet → CapabilitySet;
  block_network : CapabilitySet → CapabilitySet;
  (** [Sandbox::support_info] and [Sandbox::apply_auto] *)
  support_info : bool * string * string;
  apply_auto : CapabilitySet → result string unit;
}.
(** [Path::exists] and [Path::canonicalize]; a resolved path need not be UTF-8. *)
Class HostPaths := { path_exists : string → bool; canonicalize : string → result string string }.

(** [cfg(target_os)] *)
Inductive Target := Linux | Macos | OtherTarget.

(** [path.display()] *)
Definition display (path : string) : string := string_of (utf8_lossy (bytes_of path)).
(** [s.strip_suffix('/')] *)
Definition strip_slash (s : string) : option string :=
  if ends_with_char "/" s then Some (String.substring 0 (String.length s - 1) s) else None.
(** [{:?}] of a list of numbers *)
Definition debug_list (l : list N) : string := "[" +:+ join_comma (pretty <$> l) +:+ "]".

(** ** The compiled manifest *)

Record VmmHostResources := { runtime_files : list string; devices : list string }.
Definition ATTESTED_RUN_ROOTFS : string := "/run/rootfs/".
Inductive Tier := Tier_Native | Tier_MicroVm.

#[global] Instance AccessMode_eq_dec : EqDecision AccessMode.
Proof. solve_decision. Defined.
#[global] Instance UnixSocketMode_eq_dec : EqDecision UnixSocketMode.
Proof. solve_decision. Defined.
#[global] Instance Target_eq_dec : EqDecision Target.
Proof. solve_decision. Defined.
#[global] Instance Tier_eq_dec : EqDecision Tier.
Proof. solve_decision. Defined.
#[global] Instance ConfinementManifest_eq_dec : EqDecision ConfinementManifest.
Proof. solve_decision. Defined.

Section compile.
Context `{Fmt}.

Definition differing_dimensions (a b : ConfinementManifest) : list string :=
  (if bool_decide (fs_allow a = fs_allow b) then [] else ["§2 fs.allow"%string])
  ++ (if bool_decide (allow_hosts a = allow_hosts b) then [] else ["§3 network.allowHosts"%string])
  ++ (if bool_decide (ports a = ports b) then [] else ["§4 port.bind"%string])
  ++ (if bool_decide (credential_source a = credential_source b) then [] else ["§5 credentialSource"%string])
  ++ (if bool_decide (unix_sockets a = unix_sockets b) then [] else ["§6 unixSocket.allow"%string])
  ++ (if bool_decide (connect_local a = connect_local b) then [] else ["§3 network.connectLocal"%string]).

Definition confinement_manifest (runtime_files devices : list string) (authorized : option ConfinementManifest)
    : result ExecutionError ConfinementManifest :=
  manifest ← with_fs_grant manifest_new (ReadWrite ATTESTED_RUN_ROOTFS);
  manifest ← fold_result (λ m path, with_fs_grant m (ReadOnly (display path))) manifest runtime_files;
  manifest ← fold_result (λ m path, with_fs_grant m (ReadWrite (display path))) manifest devices;
  manifest ← match authorized with
             | Some authorized => fold_result (λ m grant, with_port_bind m (pg_bind grant) (pg_address grant)) manifest (ports authorized)
             | None => mret manifest
             end;
  manifest ← match authorized with
             | Some authorized => fold_result with_unix_socket manifest (unix_sockets authorized)
             | None => mret manifest
             end;
  manifest ← match authorized with
             | Some authorized => fold_result with_connect_local manifest (connect_local authorized)
             | None => mret manifest
             end;
  match authorized with
  | Some authorized =>
      if negb (bool_decide (authorized = manifest))
      then Err (invalid ("confinement/v1: the authorized document commits to dimension(s) this tier's compiled policy does not carry ("
             +:+ join_comma (differing_dimensions authorized manifest)
             +:+ "). The compiled document is LLO's own policy plus the §4 listener a grant may originate; a carried clause outside that cannot take effect, and proceeding would refuse the run later as a digest mismatch that names no dimension. Narrow the document to what this tier compiles, or drop the dimension."))
      else mret manifest
  | None => mret manifest
  end.

(** ** Sockets *)

Definition nono_error (error : string) : ExecutionError := backend_error ("apply nono VMM confinement: " +:+ error).

Definition unix_socket_mode `{HostPaths} (grant : UnixSocketGrant) : result ExecutionError UnixSocketMode :=
  let path := socket_path grant in
  if negb (permits_connect grant)
  then Err (invalid ("confinement/v1 §6 unixSocket.allow mode " +:+ debug_str (socket_mode grant) +:+ " for " +:+ debug_str path
         +:+ " is not enforceable through a CapabilitySet: the only modes available are connect and connect-bind, and granting connect-bind would add the connect(2) this mode exists to withhold. Serve-without-dial is a hypervisor-tier construction (a listen=true vsock port mapping), not a sandbox filter."))
  else
    let mode := if permits_bind grant then Mode_ConnectBind else Mode_Connect in
    if negb (permits_bind grant) && negb (ends_with_char "/" path) && negb (path_exists path)
    then Err (invalid ("confinement/v1 §6 unixSocket.allow grants connect(2) on " +:+ debug_str path
           +:+ ", but nothing is bound there yet. A connect grant names an endpoint owned by another process, and it is resolved — not merely recorded — when confinement is applied, so that a symlink planted at the path cannot redirect the grant. Bind the endpoint before starting the confined workload. This is an ordering requirement, not a malformed manifest: the same document compiles once the peer is up."))
    else mret mode.
Definition vmm_unix_socket_mode (grant : UnixSocketGrant) : UnixSocketMode :=
  if permits_bind grant then Mode_ConnectBind else Mode_Connect.
Definition workload_declares_unix_sockets (tier : Tier) (unix_sockets : list UnixSocketGrant) : bool :=
  bool_decide (tier = Tier_Native) && negb (bool_decide (unix_sockets = [])).
Definition vmm_creates_socket (tier : Tier) (grant : UnixSocketGrant) : bool :=
  bool_decide (tier = Tier_MicroVm) && permits_bind grant && negb (ends_with_char "/" (socket_path grant)).

(** [Path::parent] and [Path::file_name]: the last component, trailing separators and
    [.] pieces skipped, and what precedes it. *)
Fixpoint drop_blank (pieces : list string) : list string :=
  match pieces with
  | p :: ps => if (bool_decide (p = EmptyString) || bool_decide (p = "."%string)) && negb (bool_decide (ps = [])) then drop_blank ps else pieces
  | [] => []
  end.
Definition join_slash (pieces : list string) : string :=
  match pieces with [] => EmptyString | p :: ps => foldl (λ acc q, acc +:+ "/" +:+ q) p ps end.
Definition path_parts (path : string) : option (string * string) :=
  match drop_blank (reverse (split_on "/" path)) with
  | [] => None
  | [leaf] => if bool_decide (leaf = EmptyString) then None else Some (EmptyString, leaf)
  | leaf :: above =>
      let above := reverse (drop_blank above) in
      Some (if bool_decide (above = [EmptyString]) then "/"%string else join_slash above, leaf)
  end.
Definition path_parent (path : string) : option string := fst <$> path_parts path.
Definition path_file_name (path : string) : option string :=
  match path_parts path with
  | Some (_, leaf) => if bool_decide (leaf = "."%string) || bool_decide (leaf = ".."%string) then None else Some leaf
  | None => None
  end.
(** [Path::join] of a name *)
Definition path_join (dir name : string) : string := if ends_with_char "/" dir then dir +:+ name else dir +:+ "/" +:+ name.
Definition QUOTE : ascii := ascii_of_N 34.
Definition BACKSLASH : ascii := ascii_of_N 92.
Definition quote (s : string) : string := String QUOTE (s +:+ String QUOTE EmptyString).

Definition socket_create_rule `{HostPaths} (path : string) : result ExecutionError string :=
  resolved ← match canonicalize path with
             | Ok resolved => mret resolved
             | Panic => Panic
             | Err _ =>
                 match path_parent path, path_file_name path with
                 | Some parent, Some leaf =>
                     dir ← map_err (λ error, invalid ("confinement/v1 §6 socket directory " +:+ display parent +:+ ": " +:+ error)) (canonicalize parent);
                     mret (path_join dir leaf)
                 | _, _ => Err (invalid ("confinement/v1 §6 socket path " +:+ display path +:+ " has no parent directory and leaf"))
                 end
             end;
  _ ← ensure (from_utf8_ok (bytes_of resolved)) (invalid ("confinement/v1 §6 socket path " +:+ display resolved +:+ " is not UTF-8"));
  if negb (string_all (λ c, negb (bool_decide (c = QUOTE)) && negb (bool_decide (c = BACKSLASH))) resolved)
  then Err (invalid ("confinement/v1 §6 socket path " +:+ debug_str resolved +:+ " contains a quote or backslash, which a Seatbelt literal would have to escape"))
  else mret ("(allow file-write-create (literal " +:+ quote resolved +:+ "))").

(** ** Capabilities *)

Section capabilities.
Context `{HostPaths, Nono}.

Definition allow_fs (run_rootfs : string) (capabilities : CapabilitySet) (grant : FsGrant) : result ExecutionError CapabilitySet :=
  let '(path, mode) := match grant with ReadOnly path => (path, Access_Read) | ReadWrite path => (path, Access_ReadWrite) end in
  let path := if bool_decide (path = ATTESTED_RUN_ROOTFS) then display run_rootfs +:+ "/" else path in
  match strip_slash path with
  | Some directory => map_err nono_error (allow_path directory mode capabilities)
  | None => map_err nono_error (allow_file path mode capabilities)
  end.
Definition allow_socket (target : Target) (tier : Tier) (capabilities : CapabilitySet) (grant : UnixSocketGrant)
    : result ExecutionError CapabilitySet :=
  let path := socket_path grant in
  mode ← match tier with Tier_Native => unix_socket_mode grant | Tier_MicroVm => mret (vmm_unix_socket_mode grant) end;
  capabilities ← match strip_slash path with
                 | Some directory => map_err nono_error (allow_unix_socket_dir directory mode capabilities)
                 | None => map_err nono_error (allow_unix_socket path mode capabilities)
                 end;
  if bool_decide (target = Macos) && vmm_creates_socket tier grant
  then rule ← socket_create_rule path; map_err nono_error (platform_rule rule capabilities)
  else mret capabilities.
Definition loopback (address : option string) : bool :=
  match address with
  | None => true
  | Some a => bool_decide (a = "127.0.0.1"%string) || bool_decide (a = "localhost"%string) || bool_decide (a = "::1"%string)
  end.
Definition allow_listener (target : Target) (tier : Tier) (capabilities : CapabilitySet) (grant : PortGrant)
    : result ExecutionError CapabilitySet :=
  if negb (loopback (pg_address grant))
  then Err (invalid ("confinement/v1 §4 port.address " +:+ debug_str (default EmptyString (pg_address grant))
         +:+ " is not enforceable on this tier: nono filters by port, not by bind address, so a non-loopback listener compiles to the same rule as a loopback one. §4 requires exposure beyond loopback to be an explicit declaration, and this tier cannot honour that declaration."))
  else if bool_decide (target = Macos) && bool_decide (tier = Tier_Native)
  then Err (invalid ("confinement/v1 §4 port.bind " +:+ pretty (pg_bind grant)
         +:+ " is not enforceable on Seatbelt: macOS cannot filter bind by port, so nono emits an unqualified `(allow network-bind)` and declaring one listener would grant every listener on every address. Run the listener tier on Linux, use §6 unixSocket.allow (which Seatbelt filters per path), or omit the dimension."))
  else mret (allow_localhost_port (pg_bind grant) capabilities).
Definition outbound_rule (port : N) : string := "(allow network-outbound (remote tcp " +:+ quote ("localhost:" +:+ pretty port) +:+ "))".
Definition allow_dial (target : Target) (tier : Tier) (ports : list PortGrant) (connect : N) (further : list N) (capabilities : CapabilitySet)
    : result ExecutionError CapabilitySet :=
  if bool_decide (tier = Tier_MicroVm)
  then Err (invalid ("confinement/v1 §3 network.connectLocal " +:+ debug_list (connect :: further)
         +:+ " is not deliverable on the microVM tier: the workload runs in the guest and reaches the host only over vsock, which pairs a guest port with a host UNIX SOCKET and has no TCP analogue. Carrying it would require socket hijacking, which converts the boundary from channels the guest was given into the guest's sockets being carried out. Declare §6 unixSocket.allow instead — this tier delivers it — and bridge to TCP host-side if the upstream needs it."))
  else if bool_decide (further = [])
  then
    let binds := pg_bind <$> ports in
    mret (if bool_decide (binds = []) then proxy_only connect capabilities else proxy_only_with_bind connect binds capabilities)
  else if bool_decide (target = Linux)
  then mret (foldl (λ c port, allow_tcp_connect port c) (block_network capabilities) (connect :: further))
  else fold_result (λ c port, map_err nono_error (platform_rule (outbound_rule port) c)) (proxy_only connect capabilities) further.

Definition capabilities_from_manifest (target : Target) (manifest : ConfinementManifest) (run_rootfs : string) (tier : Tier)
    : result ExecutionError CapabilitySet :=
  capabilities ← fold_result (allow_fs run_rootfs) capabilities_new (fs_allow manifest);
  _ ← ensure (negb (bool_decide (target = Linux) && workload_declares_unix_sockets tier (unix_sockets manifest)))
        (invalid ("confinement/v1 §6 unixSocket.allow is not enforceable by the Landlock ABI this build targets, so the "
           +:+ pretty (len (unix_sockets manifest))
           +:+ " declared socket grant(s) would compile to nothing while the attested digest committed to them. Per-path AF_UNIX mediation exists upstream as LANDLOCK_ACCESS_FS_RESOLVE_UNIX (ABI 9, kernel 7.1), but the landlock crate here stops at ABI 7 and nono targets ABI 5 and consults unix_socket_capabilities() only in its macOS backend. Use §4 port.bind on this tier, which Landlock does filter per port."));
  capabilities ← fold_result (allow_socket target tier) capabilities (unix_sockets manifest);
  _ ← ensure (bool_decide (allow_hosts manifest = []))
        (invalid ("confinement/v1 §3 network.allowHosts is not enforceable on this tier: nono filters by port, not by hostname, so the "
           +:+ pretty (len (allow_hosts manifest))
           +:+ " declared host(s) would be silently dropped. Route host-scoped egress through the proxy, or omit the dimension."));
  _ ← match credential_source manifest with
      | Some source =>
          Err (invalid ("confinement/v1 §5 credentialSource " +:+ debug_str source
            +:+ " is not enforceable on this tier: the apply_auto path compiles to a CapabilitySet, which carries no credential binding, so the vault would be declared and never applied. Vend credentials through the proxy, or omit the dimension."))
      | None => mret tt
      end;
  capabilities ← fold_result (allow_listener target tier) capabilities (ports manifest);
  match connect_local manifest with
  | connect :: further => allow_dial target tier (ports manifest) connect further capabilities
  | [] => mret (block_network capabilities)
  end.

(** The answer is the set the process is confined by from then on. *)
Definition apply_manifest (target : Target) (manifest : ConfinementManifest) (run_rootfs : string) : result ExecutionError CapabilitySet :=
  let '(is_supported, platform, details) := support_info in
  if negb is_supported
  then Err (backend_error ("nono sandbox is unavailable on " +:+ platform +:+ ": " +:+ details))
  else
    capabilities ← capabilities_from_manifest target manifest run_rootfs Tier_MicroVm;
    _ ← map_err nono_error (apply_auto capabilities);
    mret capabilities.
Definition build_process_capabilities (target : Target) (rootfs : string) (runtime_files devices : list string)
    : result ExecutionError CapabilitySet :=
  manifest ← confinement_manifest runtime_files devices None;
  capabilities_from_manifest target manifest rootfs Tier_MicroVm.
End capabilities.

(** ** Channels of the microVM tier *)

(** [CString::new] *)
Definition c_str (s : string) : option string := if string_all (λ c, negb (bool_decide (c = ascii_of_N 0))) s then Some s else None.
Record VsockUnixMapping := { vm_port : N; vm_host_path : string; vm_listen : bool }.
Definition VSOCK_UNIX_BASE_PORT : N := 65536.
Definition port_entry (grant : PortGrant) : string := pretty (pg_bind grant) +:+ ":" +:+ pretty (pg_bind grant).
Definition guest_port_map (manifest : ConfinementManifest) (tsi_features : N) : result ExecutionError (list string) :=
  if negb (bool_decide (ports manifest = [])) && (tsi_features =? 0)
  then Err (invalid ("confinement/v1 §4 port " +:+ debug_list (pg_bind <$> ports manifest)
         +:+ " is not deliverable on the microVM tier without socket hijacking: the guest's AF_INET bind is not carried anywhere, so the listener could never be reached. Start the worker with --tsi-hijack-inet, or omit the dimension."))
  else
    fold_result (λ acc grant, entry ← ok_or (c_str (port_entry grant)) (invalid "port map entry contains a NUL byte"); mret (acc ++ [entry]))
      [] (ports manifest).
(** [VSOCK_UNIX_BASE_PORT + 2 * index as u32] *)
Definition base_port (index : N) : N :=
  (VSOCK_UNIX_BASE_PORT + (2 * (index mod 2 ^ 32)) mod 2 ^ 32) mod 2 ^ 32.
Definition socket_mappings `{HostPaths} (mappings : list VsockUnixMapping) (entry : nat * UnixSocketGrant)
    : result ExecutionError (list VsockUnixMapping) :=
  let '(index, grant) := entry in
  let path := socket_path grant in
  if ends_with_char "/" path
  then Err (invalid ("confinement/v1 §6 unixSocket.allow " +:+ debug_str path
         +:+ " is a directory grant, and the microVM tier delivers §6 as one vsock↔socket mapping per endpoint — a tree has no endpoint to map. Name the socket leaf, or run this workload on the native tier, where a directory grant compiles to a per-tree filter."))
  else if permits_connect grant && negb (permits_bind grant) && negb (path_exists path)
  then Err (invalid ("confinement/v1 §6 unixSocket.allow grants connect(2) on " +:+ debug_str path
         +:+ ", but nothing is bound there yet. Bind the endpoint before starting the confined workload; the same document compiles once the peer is up."))
  else
    host_path ← ok_or (c_str path) (invalid "§6 socket path contains a NUL byte");
    let base := base_port (N.of_nat index) in
    let mappings := if permits_connect grant then mappings ++ [{| vm_port := base; vm_host_path := host_path; vm_listen := false |}] else mappings in
    mret (if permits_bind grant
          then mappings ++ [{| vm_port := (base + 1) mod 2 ^ 32; vm_host_path := host_path; vm_listen := true |}] else mappings).
Definition vsock_unix_mappings `{HostPaths} (manifest : ConfinementManifest) : result ExecutionError (list VsockUnixMapping) :=
  fold_result socket_mappings [] (imap pair (unix_sockets manifest)).
End compile.

(** ** The compiled manifest is the deployment's policy and the carried document *)

Lemma fold_fmap {E A B S} (f : S → B → result E S) (g : A → B) s l :
  fold_result f s (g <$> l) = fold_result (λ s a, f s (g a)) s l.
Proof. revert s. induction l as [| a l IH]; intros s; cbn [fold_result fmap list_fmap]; [done |]. destruct (f s (g a)); [apply IH | done..]. Qed.
Lemma fold_ext {E A S} (f f' : S → A → result E S) s l : (∀ s a, a ∈ l → f s a = f' s a) → fold_result f s l = fold_result f' s l.
Proof.
  revert s. induction l as [| a l IH]; intros s Hf; cbn [fold_result]; [done |]. rewrite (Hf s a) by left.
  destruct (f' s a); [| done..]. cbn. apply IH. intros s' b Hb. apply Hf. by right.
Qed.

Section manifest.
Context `{Fmt}.

(** A path of the deployment that may be granted, and what the deployment grants. *)
Definition host_path (path : string) : Prop := starts_with_char "/" (display path) = true ∧ traverses (display path) = false.
Definition own_policy (runtime_files devices : list string) : list FsGrant :=
  ReadWrite ATTESTED_RUN_ROOTFS :: ((λ p, ReadOnly (display p)) <$> runtime_files) ++ ((λ p, ReadWrite (display p)) <$> devices).

Lemma fold_paths (ctor : string → FsGrant) ps m m' : (∀ p, fs_path (ctor p) = p) →
  fold_result (λ m path, with_fs_grant m (ctor (display path))) m ps = Ok m'
  ↔ Forall host_path ps ∧ m' = set_fs_allow (fs_allow m ++ ((λ p, ctor (display p)) <$> ps)) m.
Proof.
  intros Hc. revert m. induction ps as [| p ps IH]; intros m; cbn [fold_result fmap list_fmap].
  - rewrite app_nil_r. split; [intros [= <-]; split; [constructor | by destruct m] | intros [_ ->]; by destruct m].
  - rewrite Forall_cons, bind_ok. unfold host_path at 1.
    assert (with_fs_grant m (ctor (display p)) = if negb (starts_with_char "/" (display p))
      then Err (invalid ("confinement/v1 §2 fs.allow path " +:+ debug_str (display p) +:+ " must be absolute"))
      else if traverses (display p) then Err (invalid ("confinement/v1 §2 fs.allow path " +:+ debug_str (display p) +:+ " must not traverse with `..`"))
      else mret (set_fs_allow (fs_allow m ++ [ctor (display p)]) m)) as -> by (unfold with_fs_grant; by rewrite Hc).
    destruct (starts_with_char "/" (display p)), (traverses (display p)); cbn [negb].
    1, 3, 4: by split; [intros (? & ? & ?) | intros [[[? ?] _] _]].
    split.
    + intros (m1 & [= <-] & [Hf ->]%IH). split; [done |]. cbn. by rewrite <- app_assoc.
    + intros [[_ Hf] ->]. eexists. split; [done |]. apply IH. split; [done |]. cbn. by rewrite <- app_assoc.
Qed.
Lemma fold_listeners gs m : StronglySorted (key_lt canonical_order) (ports m ++ gs) →
  Forall (λ g, 1024 ≤ pg_bind g ≤ u16_max ∧ ∀ a, pg_address g = Some a → text_ok a) gs →
  fold_result (λ m grant, with_port_bind m (pg_bind grant) (pg_address grant)) m gs = Ok (set_ports (ports m ++ gs) m).
Proof.
  intros Hs Hf. rewrite <- (fold_ports gs m Hs Hf), fold_fmap. apply fold_ext. intros s g Hg.
  symmetry. apply port_step_value. by apply (proj1 (Forall_forall _ _) Hf).
Qed.
Lemma fold_channels gs m : Forall (λ g, path_ok (socket_path g)) gs →
  fold_result with_unix_socket m gs = Ok (set_unix_sockets (unix_sockets m ++ gs) m).
Proof.
  intros Hf. revert m. induction Hf as [| g gs (Ha & Ht & _) _ IH]; intros m; cbn [fold_result].
  - rewrite app_nil_r. by destruct m.
  - assert (with_unix_socket m g = Ok (set_unix_sockets (unix_sockets m ++ [g]) m)) as -> by (unfold with_unix_socket; by rewrite Ha, Ht).
    rewrite bind_Ok, IH. cbn. by rewrite <- app_assoc.
Qed.
Lemma fold_dials qs m : StronglySorted (key_lt id) (connect_local m ++ qs) → Forall (λ p, 1 ≤ p ≤ u16_max) qs →
  fold_result with_connect_local m qs = Ok (set_connect_local (connect_local m ++ qs) m).
Proof.
  intros Hs Hf. rewrite <- (fold_local qs m Hs Hf), fold_fmap. apply fold_ext. intros s q Hq. unfold local_step. cbn [as_u64 ok_or].
  rewrite bind_Ok. unfold ensure. apply (proj1 (Forall_forall _ _) Hf) in Hq. destruct (N.leb_spec q u16_max); [done | lia].
Qed.

(** What the compiled manifest carries of a document: its listeners, channels and dials. *)
Definition carried (rf dv : list string) (a : ConfinementManifest) : ConfinementManifest :=
  {| credential_source := None; fs_allow := own_policy rf dv; allow_hosts := []; ports := ports a;
     unix_sockets := unix_sockets a; connect_local := connect_local a |}.
Lemma confinement_manifest_carried rf dv (authorized : option ConfinementManifest) m :
  (∀ a, authorized = Some a → manifest_wf a) →
  confinement_manifest rf dv authorized = Ok m ↔
    Forall host_path (rf ++ dv) ∧ m = carried rf dv (default manifest_new authorized) ∧ (∀ a, authorized = Some a → a = m).
Proof.
  intros Hwf. unfold confinement_manifest. rewrite Forall_app.
  change (with_fs_grant manifest_new (ReadWrite ATTESTED_RUN_ROOTFS))
    with (@Ok ExecutionError _ (set_fs_allow [ReadWrite ATTESTED_RUN_ROOTFS] manifest_new)). rewrite bind_Ok.
  assert (∀ rest, ((manifest ← fold_result (λ m path, with_fs_grant m (ReadOnly (display path))) (set_fs_allow [ReadWrite ATTESTED_RUN_ROOTFS] manifest_new) rf;
      manifest ← fold_result (λ m path, with_fs_grant m (ReadWrite (display path))) manifest dv; rest manifest) = Ok m
    ↔ (Forall host_path rf ∧ Forall host_path dv) ∧ rest (set_fs_allow (own_policy rf dv) manifest_new) = Ok m)) as ->.
  { intros rest. rewrite bind_ok. split.
    - intros (m1 & [Hrf ->]%fold_paths & (m2 & [Hdv ->]%fold_paths & Hr)%bind_ok); done.
    - intros ((Hrf & Hdv) & Hr). eexists. split; [by apply fold_paths |]. rewrite bind_ok. eexists. split; [by apply fold_paths | done]. }
  destruct authorized as [a |]; cbn [default].
  - destruct (Hwf a eq_refl) as []. rewrite (fold_listeners (ports a)) by done.
    rewrite bind_Ok, (fold_channels (unix_sockets a)), bind_Ok, (fold_dials (connect_local a)), bind_Ok by done.
    change (set_connect_local _ _) with (carried rf dv a). case_bool_decide as E; cbn [negb].
    + split; [| by intros (? & -> & _)]. intros (? & [= <-]). split; [done |]. split; [done |]. by intros ? [= <-].
    + split; [by intros [_ ?] |]. intros (_ & -> & He). by specialize (He a eq_refl).
  - split; [| by intros (? & -> & _)]. intros (? & [= <-]). split; [done |]. by split.
Qed.

(** The compiled manifest is exact: it exists when the deployment's paths may be granted
    and, of a carried document, every clause is one the deployment itself makes or one it
    takes from the document; and then it is the document. *)
Lemma compiled_manifest_exact rf dv a m : manifest_wf a →
  confinement_manifest rf dv (Some a) = Ok m ↔
    m = a ∧ Forall host_path (rf ++ dv) ∧ fs_allow a = own_policy rf dv ∧ allow_hosts a = [] ∧ credential_source a = None.
Proof.
  intros Ha. rewrite confinement_manifest_carried by (by intros ? [= <-]). cbn. split.
  - intros (Hp & -> & He). specialize (He a eq_refl). split_and!; [done | done |..]; by rewrite He.
  - intros (-> & Hp & E1 & E2 & E3). split_and!; [done | | by intros ? [= <-]]. destruct a; cbn in *. by subst.
Qed.
End manifest.

(** ** The sandbox holds a rule for each grant and nothing else *)

(** The calls on [nono], as data. *)
Inductive Rule :=
| RPath (directory : string) (mode : AccessMode) | RFile (path : string) (mode : AccessMode)
| RSocketDir (directory : string) (mode : UnixSocketMode) | RSocket (path : string) (mode : UnixSocketMode)
| RPlatform (rule : string) | RListen (port : N) | RDial (port : N) | RProxy (port : N) | RProxyBind (port : N) (binds : list N) | RBlock.

Section sandbox.
Context `{Fmt, HostPaths, Nono}.

Definition install (c : CapabilitySet) (r : Rule) : result string CapabilitySet :=
  match r with
  | RPath d mode => allow_path d mode c
  | RFile p mode => allow_file p mode c
  | RSocketDir d mode => allow_unix_socket_dir d mode c
  | RSocket p mode => allow_unix_socket p mode c
  | RPlatform rule => platform_rule rule c
  | RListen port => Ok (allow_localhost_port port c)
  | RDial port => Ok (allow_tcp_connect port c)
  | RProxy port => Ok (proxy_only port c)
  | RProxyBind port binds => Ok (proxy_only_with_bind port binds c)
  | RBlock => Ok (block_network c)
  end.
Definition installed (rules : list Rule) (c : CapabilitySet) : Prop := fold_result install capabilities_new rules = Ok c.

(** A directory when the path ends in a slash; the symbolic root is the run's own. *)
Definition fs_rule (run_rootfs : string) (grant : FsGrant) : Rule :=
  let path := if bool_decide (fs_path grant = ATTESTED_RUN_ROOTFS) then display run_rootfs +:+ "/" else fs_path grant in
  let mode := match grant with ReadOnly _ => Access_Read | ReadWrite _ => Access_ReadWrite end in
  match strip_slash path with Some directory => RPath directory mode | None => RFile path mode end.
Definition channel_rule (grant : UnixSocketGrant) : Rule :=
  let mode := if permits_bind grant then Mode_ConnectBind else Mode_Connect in
  match strip_slash (socket_path grant) with Some directory => RSocketDir directory mode | None => RSocket (socket_path grant) mode end.
(** On Seatbelt the monitor that binds a socket is also let create its node. *)
Definition channel_rules (target : Target) (tier : Tier) (grant : UnixSocketGrant) : list Rule :=
  channel_rule grant ::
  (if bool_decide (target = Macos) && vmm_creates_socket tier grant
   then match socket_create_rule (socket_path grant) with Ok rule => [RPlatform rule] | _ => [] end
   else []).
(** Closed but for the declared dials. *)
Definition network_rules (target : Target) (m : ConfinementManifest) : list Rule :=
  match connect_local m with
  | [] => [RBlock]
  | [port] => [if bool_decide (pg_bind <$> ports m = []) then RProxy port else RProxyBind port (pg_bind <$> ports m)]
  | port :: further =>
      if bool_decide (target = Linux) then RBlock :: (RDial <$> port :: further)
      else RProxy port :: (RPlatform ∘ outbound_rule <$> further)
  end.
Definition sandbox_rules (target : Target) (tier : Tier) (run_rootfs : string) (m : ConfinementManifest) : list Rule :=
  (fs_rule run_rootfs <$> fs_allow m) ++ (unix_sockets m ≫= channel_rules target tier)
  ++ ((λ g, RListen (pg_bind g)) <$> ports m) ++ network_rules target m.

(** What a tier can enforce of a channel, and of a manifest. *)
Record channel_enforceable (target : Target) (tier : Tier) (grant : UnixSocketGrant) : Prop := {
  ce_withhold : tier = Tier_Native → permits_connect grant = true;
  ce_bound : tier = Tier_Native → permits_bind grant = false → ends_with_char "/" (socket_path grant) = false → path_exists (socket_path grant) = true;
  ce_create : target = Macos → vmm_creates_socket tier grant = true → ∃ rule, socket_create_rule (socket_path grant) = Ok rule;
}.
Record enforceable (target : Target) (tier : Tier) (m : ConfinementManifest) : Prop := {
  en_landlock : target = Linux → tier = Tier_Native → unix_sockets m = [];
  en_channels : Forall (channel_enforceable target tier) (unix_sockets m);
  en_hosts : allow_hosts m = [];
  en_credential : credential_source m = None;
  en_loopback : Forall (λ g, loopback (pg_address g) = true) (ports m);
  en_seatbelt : target = Macos → tier = Tier_Native → ports m = [];
  en_dials : tier = Tier_MicroVm → connect_local m = [];
}.

Lemma map_err_ok {E F A} (f : E → F) (r : result E A) a : map_err f r = Ok a ↔ r = Ok a.
Proof. by destruct r; cbn; split; intros; simplify_eq. Qed.
Lemma fold_map_err {E F A S} (f : E → F) (g : S → A → result E S) s l s' :
  fold_result (λ s a, map_err f (g s a)) s l = Ok s' ↔ fold_result g s l = Ok s'.
Proof.
  revert s. induction l as [| a l IH]; intros s; cbn [fold_result]; [by split; intros [= <-] |]. rewrite !bind_ok.
  by setoid_rewrite map_err_ok; setoid_rewrite IH.
Qed.
Lemma bind_singletons {A B} (f : A → B) l : l ≫= (λ a, [f a]) = f <$> l.
Proof. induction l as [| a l IH]; [done |]. rewrite bind_cons, IH. done. Qed.
Lemma ret_ok {A} (P : Prop) (a b : A) : P → mret a = @Ok ExecutionError _ b ↔ P ∧ @Ok string _ a = Ok b.
Proof. intros HP. split; [by intros [= <-] | by intros [_ [= <-]]]. Qed.
Lemma installed_app rules rules' c :
  installed (rules ++ rules') c ↔ ∃ c1, installed rules c1 ∧ fold_result install c1 rules' = Ok c.
Proof. unfold installed. rewrite fold_result_app. apply bind_ok. Qed.
(** A loop over grants installs their rules, when each pass installs its own. *)
Lemma fold_installs {A} (step : CapabilitySet → A → result ExecutionError CapabilitySet) (rules : A → list Rule) (ok : A → Prop) l c c' :
  (∀ c c' a, step c a = Ok c' ↔ ok a ∧ fold_result install c (rules a) = Ok c') →
  fold_result step c l = Ok c' ↔ Forall ok l ∧ fold_result install c (l ≫= rules) = Ok c'.
Proof.
  intros Hstep. revert c. induction l as [| a l IH]; intros c; cbn [fold_result].
  - split; [by intros [= <-] | by intros [_ [= <-]]].
  - rewrite bind_cons, fold_result_app, Forall_cons, !bind_ok. split.
    + intros (c1 & [Ha Hr]%Hstep & [Hl Hs]%IH). split; [done |]. by exists c1.
    + intros ([Ha Hl] & c1 & Hr & Hs). exists c1. split; [by apply Hstep | by apply IH].
Qed.
Lemma allow_fs_installs root c c' grant : allow_fs root c grant = Ok c' ↔ True ∧ fold_result install c [fs_rule root grant] = Ok c'.
Proof.
  unfold allow_fs, fs_rule. destruct grant; cbn [fs_path]; destruct (strip_slash _); rewrite map_err_ok; cbn [fold_result install];
    (rewrite bind_ok; split; [intros ->; eauto | intros (_ & ? & ? & [= <-]); done]).
Qed.
Lemma allow_listener_installs target tier c c' grant :
  allow_listener target tier c grant = Ok c' ↔
    (loopback (pg_address grant) = true ∧ ¬ (target = Macos ∧ tier = Tier_Native)) ∧ fold_result install c [RListen (pg_bind grant)] = Ok c'.
Proof.
  unfold allow_listener. destruct (loopback (pg_address grant)); cbn [negb]; [| by split; [| intros [[? _] _]]].
  cbn [fold_result install]. rewrite bind_Ok. case_bool_decide; case_bool_decide; cbn [andb];
    [by split; [| intros [[_ ?] _]; exfalso; auto] | apply ret_ok; naive_solver..].
Qed.
Lemma socket_mode_enforceable tier grant mode :
  match tier with Tier_Native => unix_socket_mode grant | Tier_MicroVm => mret (vmm_unix_socket_mode grant) end = Ok mode ↔
    mode = (if permits_bind grant then Mode_ConnectBind else Mode_Connect) ∧ (tier = Tier_Native → permits_connect grant = true)
    ∧ (tier = Tier_Native → permits_bind grant = false → ends_with_char "/" (socket_path grant) = false → path_exists (socket_path grant) = true).
Proof.
  destruct tier; [| by split; [intros [= <-] | intros (-> & _)]].
  unfold unix_socket_mode. destruct (permits_connect grant); cbn [negb].
  2: { split; [done | intros (_ & Hx & _)]. by specialize (Hx eq_refl). }
  destruct (permits_bind grant), (ends_with_char "/" (socket_path grant)), (path_exists (socket_path grant)); cbn;
    (split; [by intros [= <-] | intros (-> & _ & Hx)]); first [done | by specialize (Hx eq_refl eq_refl eq_refl)].
Qed.
Lemma allow_socket_installs target tier c c' grant :
  allow_socket target tier c grant = Ok c' ↔ channel_enforceable target tier grant ∧ fold_result install c (channel_rules target tier grant) = Ok c'.
Proof.
  unfold allow_socket, channel_rules. rewrite bind_ok. split.
  - intros (mode & (-> & Hw & Hb)%socket_mode_enforceable & (c1 & Hc1 & Hr)%bind_ok).
    assert (install c (channel_rule grant) = Ok c1) as Hi by (unfold channel_rule; destruct (strip_slash _); by apply map_err_ok in Hc1).
    cbn [fold_result]. rewrite Hi, bind_Ok. destruct (bool_decide_reflect (target = Macos)) as [Ht | Ht]; cbn [andb] in *.
    + destruct (vmm_creates_socket tier grant) eqn:Ev; cbn in *.
      * apply bind_ok in Hr as (rule & Er & Hr%map_err_ok). rewrite Er. split; [split; eauto |]. cbn. by rewrite Hr.
      * injection Hr as ->. split; [split; [done | done | by rewrite Ev] | done].
    + injection Hr as ->. split; [by split | done].
  - intros [[Hw Hb Hcr] (c1 & Hi & Hr)%bind_ok]. eexists. split; [by apply socket_mode_enforceable |]. rewrite bind_ok. exists c1. split.
    + unfold channel_rule in Hi. destruct (strip_slash _); by apply map_err_ok.
    + destruct (bool_decide_reflect (target = Macos)) as [Ht | Ht]; cbn [andb] in *; [| by injection Hr as ->].
      destruct (vmm_creates_socket tier grant) eqn:Ev; [| by injection Hr as ->]. destruct (Hcr Ht eq_refl) as [rule Er]. rewrite Er in *. cbn in *.
      apply map_err_ok. by destruct (platform_rule rule c1).
Qed.
Lemma allow_dial_installs target tier m port further c c' : connect_local m = port :: further →
  allow_dial target tier (ports m) port further c = Ok c' ↔ tier = Tier_Native ∧ fold_result install c (network_rules target m) = Ok c'.
Proof.
  intros El. unfold allow_dial, network_rules. rewrite El. destruct (bool_decide_reflect (tier = Tier_MicroVm)) as [-> | Ht].
  { by split; [| intros [? _]]. }
  assert (tier = Tier_Native) as -> by (by destruct tier). destruct further as [| q further].
  { rewrite bool_decide_eq_true_2 by done. case_bool_decide; cbn [fold_result install]; rewrite bind_Ok; by apply ret_ok. }
  rewrite (bool_decide_eq_false_2 (q :: further = [])) by done. destruct (bool_decide_reflect (target = Linux)).
  - cbn [fold_result install]. rewrite bind_Ok. change (RDial port :: _) with (RDial <$> port :: q :: further). rewrite fold_fmap.
    assert (∀ l c, fold_result (λ c port, install c (RDial port)) c l = Ok (foldl (λ c port, allow_tcp_connect port c) c l)) as ->.
    { intros l. induction l as [| x l IH]; intros c1; cbn; [done | by rewrite IH]. }
    by apply ret_ok.
  - etrans; [exact (fold_map_err nono_error (λ c port, platform_rule (outbound_rule port) c) (proxy_only port c) (q :: further) c') |].
    change (fold_result install c _) with (fold_result install (proxy_only port c) (RPlatform ∘ outbound_rule <$> q :: further)). rewrite fold_fmap.
    split; [by split | by intros [_ ?]].
Qed.

Lemma compiles_to_rules target tier run_rootfs m c :
  capabilities_from_manifest target m run_rootfs tier = Ok c →
  enforceable target tier m ∧ installed (sandbox_rules target tier run_rootfs m) c.
Proof.
  unfold capabilities_from_manifest, sandbox_rules.
  intros (c1 & [_ Hfs]%(fold_installs _ (λ g, [fs_rule run_rootfs g]) (λ _, True) _ _ _ (allow_fs_installs run_rootfs)) & Hr)%bind_ok.
  rewrite bind_singletons in Hfs. apply bind_ok in Hr as ([] & Hlock%ensure_ok & Hr).
  apply bind_ok in Hr as (c2 & [Hch Hs]%(fold_installs _ _ _ _ _ _ (allow_socket_installs target tier)) & Hr).
  apply bind_ok in Hr as ([] & Hh%ensure_ok%bool_decide_eq_true & Hr). apply bind_ok in Hr as ([] & Hcr & Hr).
  apply bind_ok in Hr as (c3 & [Hpo Hl]%(fold_installs _ (λ g, [RListen (pg_bind g)]) _ _ _ _ (allow_listener_installs target tier)) & Hr).
  rewrite bind_singletons in Hl.
  assert ((tier = Tier_MicroVm → connect_local m = []) ∧ fold_result install c3 (network_rules target m) = Ok c) as [Hd Hn].
  { destruct (connect_local m) as [| port further] eqn:El.
    - injection Hr as <-. split; [done |]. unfold network_rules. by rewrite El.
    - apply (allow_dial_installs target tier m port further c3 c El) in Hr as [-> Hr]. done. }
  split.
  + split; try done.
    * intros -> ->. by destruct (unix_sockets m).
    * by destruct (credential_source m).
    * eapply Forall_impl; [exact Hpo |]. by intros g [? _].
    * intros -> ->. destruct (ports m) as [| g gs]; [done |]. apply Forall_cons in Hpo as [[_ Hx] _]. by destruct Hx.
  + unfold installed. by rewrite fold_result_app, Hfs, bind_Ok, fold_result_app, Hs, bind_Ok, fold_result_app, Hl, bind_Ok.
Qed.
Lemma rules_compile target tier run_rootfs m c :
  enforceable target tier m ∧ installed (sandbox_rules target tier run_rootfs m) c →
  capabilities_from_manifest target m run_rootfs tier = Ok c.
Proof.
  unfold capabilities_from_manifest, sandbox_rules.
  intros [[Hlock Hch Hh Hcr Hlo Hsb Hd] Hi]. unfold installed in Hi.
  rewrite fold_result_app in Hi. apply bind_ok in Hi as (c1 & Hfs & Hi). rewrite fold_result_app in Hi. apply bind_ok in Hi as (c2 & Hs & Hi).
  rewrite fold_result_app in Hi. apply bind_ok in Hi as (c3 & Hl & Hn).
  rewrite bind_ok. exists c1. split.
  { apply (fold_installs _ (λ g, [fs_rule run_rootfs g]) (λ _, True) _ _ _ (allow_fs_installs run_rootfs)). rewrite bind_singletons.
    split; [by apply Forall_true | done]. }
  rewrite bind_ok. exists tt. split.
  { apply ensure_ok. unfold workload_declares_unix_sockets. repeat case_bool_decide; try done. naive_solver. }
  rewrite bind_ok. exists c2. split; [by apply (fold_installs _ _ _ _ _ _ (allow_socket_installs target tier)) |].
  rewrite Hh, Hcr. cbn. rewrite bind_ok. exists c3. split.
  { apply (fold_installs _ (λ g, [RListen (pg_bind g)]) _ _ _ _ (allow_listener_installs target tier)). rewrite bind_singletons.
    split; [| done]. apply Forall_forall. intros g Hg. split; [by apply (proj1 (Forall_forall _ _) Hlo) |].
    intros [-> ->]. rewrite (Hsb eq_refl eq_refl) in Hg. by apply not_elem_of_nil in Hg. }
  destruct (connect_local m) as [| port further] eqn:El.
  + unfold network_rules in Hn. rewrite El in Hn. by injection Hn as ->.
  + apply (allow_dial_installs target tier m port further c3 c El). split; [| done]. destruct tier; [done | by discriminate Hd].
Qed.

(** C23: The sandbox a tier applies is its manifest.  On every target and tier, a manifest
    compiles exactly when that tier can enforce each of its clauses and [nono] accepts
    the rules; the rules are one per filesystem grant (the symbolic root standing for the
    run's own tree), one per channel with its mode (and on Seatbelt the creation of a
    socket the monitor binds), one per listener, and a network that is closed but for the
    declared dials. *)
Theorem sandbox_is_the_manifest target tier run_rootfs m c :
  capabilities_from_manifest target m run_rootfs tier = Ok c ↔
    enforceable target tier m ∧ installed (sandbox_rules target tier run_rootfs m) c.
Proof.
  split; [apply compiles_to_rules | apply rules_compile].
Qed.
End sandbox.

(** ** The microVM tier's channels *)

Section channels.
Context `{Fmt, HostPaths}.

Definition deliverable (g : UnixSocketGrant) : Prop :=
  ends_with_char "/" (socket_path g) = false ∧ (permits_bind g = false → path_exists (socket_path g) = true) ∧ c_str (socket_path g) = Some (socket_path g).
Definition dial_mapping (i : N) (g : UnixSocketGrant) : VsockUnixMapping := {| vm_port := VSOCK_UNIX_BASE_PORT + 2 * i; vm_host_path := socket_path g; vm_listen := false |}.
Definition serve_mapping (i : N) (g : UnixSocketGrant) : VsockUnixMapping := {| vm_port := VSOCK_UNIX_BASE_PORT + 2 * i + 1; vm_host_path := socket_path g; vm_listen := true |}.
(** The pair of ports of each grant, in document order. *)
Fixpoint mappings_from (k : N) (gs : list UnixSocketGrant) : list VsockUnixMapping :=
  match gs with
  | [] => []
  | g :: gs => (if permits_connect g then [dial_mapping k g] else []) ++ (if permits_bind g then [serve_mapping k g] else []) ++ mappings_from (k + 1) gs
  end.

Lemma c_str_eq s : is_Some (c_str s) → c_str s = Some s.
Proof. unfold c_str. destruct (string_all _ s); [done | by intros []]. Qed.
Lemma base_port_small i : i < 2 ^ 31 - 2 ^ 15 → base_port i = VSOCK_UNIX_BASE_PORT + 2 * i ∧ (base_port i + 1) mod 2 ^ 32 = VSOCK_UNIX_BASE_PORT + 2 * i + 1.
Proof.
  intros Hi. unfold base_port, VSOCK_UNIX_BASE_PORT in *. change (2 ^ 31) with 2147483648 in Hi. change (2 ^ 15) with 32768 in Hi.
  change (2 ^ 32) with 4294967296. rewrite (N.mod_small i) by lia. rewrite (N.mod_small (2 * i)) by lia.
  rewrite (N.mod_small (65536 + 2 * i)) by lia. rewrite N.mod_small by lia. lia.
Qed.
Lemma socket_mappings_ok i g acc ms : N.of_nat i < 2 ^ 31 - 2 ^ 15 →
  socket_mappings acc (i, g) = Ok ms ↔ deliverable g ∧ ms = acc ++ mappings_from (N.of_nat i) [g].
Proof.
  intros Hi. unfold socket_mappings, deliverable. destruct (base_port_small _ Hi) as [-> Hb]. rewrite Hb.
  destruct (ends_with_char "/" (socket_path g)); [naive_solver |].
  assert (permits_connect g && negb (permits_bind g) && negb (path_exists (socket_path g))
    = negb (permits_bind g) && negb (path_exists (socket_path g))) as -> by (by destruct g).
  destruct (c_str (socket_path g)) as [p |] eqn:Ec; cbn [ok_or].
  2: { destruct (permits_bind g), (path_exists (socket_path g)); cbn; naive_solver. }
  pose proof (c_str_eq _ (mk_is_Some _ _ Ec)) as Ec'. rewrite Ec in Ec'. injection Ec' as ->.
  rewrite bind_Ok. cbn [mappings_from]. rewrite app_nil_r.
  destruct g as [q | q | q]; cbn [permits_bind permits_connect socket_path negb andb]; [destruct (path_exists q); cbn [negb] |..];
    unfold dial_mapping, serve_mapping; cbn [socket_path]; rewrite ?app_nil_r, <- ?app_assoc; cbn [app];
    first [by split; [intros [= <-] | intros [_ ->]] | split; [done | intros [(_ & Hx & _) _]; by specialize (Hx eq_refl)]].
Qed.
Lemma mappings_from_app k gs g : mappings_from k (gs ++ [g]) = mappings_from k gs ++ mappings_from (k + len gs) [g].
Proof.
  revert k. induction gs as [| h gs IH]; intros k; cbn [mappings_from app].
  - unfold len. cbn. by rewrite N.add_0_r.
  - rewrite IH. unfold len. cbn [length]. rewrite Nat2N.inj_succ, <- !app_assoc. cbn [mappings_from]. by replace (k + 1 + N.of_nat (length gs)) with (k + N.succ (N.of_nat (length gs))) by lia.
Qed.
Lemma vsock_mappings_ok m ms : len (unix_sockets m) ≤ 2 ^ 31 - 2 ^ 15 →
  vsock_unix_mappings m = Ok ms ↔ Forall deliverable (unix_sockets m) ∧ ms = mappings_from 0 (unix_sockets m).
Proof.
  unfold vsock_unix_mappings. intros Hlen. revert ms. induction (unix_sockets m) as [| g gs IH] using rev_ind; intros ms; cbn.
  { naive_solver. }
  assert (len gs < 2 ^ 31 - 2 ^ 15) as Hlen'. { unfold len in *. rewrite length_app in Hlen. cbn [length] in Hlen. lia. }
  rewrite imap_app, fold_result_app, bind_ok, Forall_app, Forall_singleton, mappings_from_app. cbn [imap app fold_result].
  rewrite Nat.add_0_r. setoid_rewrite IH; [| lia]. split.
  - intros (ms1 & [Hd ->] & (ms2 & [Hg ->]%socket_mappings_ok & [= <-])%bind_ok); done.
  - intros ((Hd & Hg) & ->). eexists. split; [done |]. rewrite bind_ok. eexists. split; [by apply socket_mappings_ok | done].
Qed.
Lemma mappings_from_elem k gs mp : mp ∈ mappings_from k gs ↔
  ∃ i g, gs !! i = Some g ∧ (permits_connect g = true ∧ mp = dial_mapping (k + N.of_nat i) g ∨ permits_bind g = true ∧ mp = serve_mapping (k + N.of_nat i) g).
Proof.
  revert k. induction gs as [| g gs IH]; intros k; cbn [mappings_from].
  - split; [by intros ?%not_elem_of_nil | by intros (? & ? & ? & _)].
  - rewrite !elem_of_app, IH. split.
    + intros [Hc | [Hb | (i & h & Hi & Hm)]].
      * exists 0%nat, g. rewrite N.add_0_r. destruct (permits_connect g); [| by apply not_elem_of_nil in Hc]. apply list_elem_of_singleton in Hc. auto.
      * exists 0%nat, g. rewrite N.add_0_r. destruct (permits_bind g); [| by apply not_elem_of_nil in Hb]. apply list_elem_of_singleton in Hb. auto.
      * exists (S i), h. split; [done |]. by replace (k + N.of_nat (S i)) with (k + 1 + N.of_nat i) by lia.
    + intros ([| i] & h & Hi & Hm); [injection Hi as <-; rewrite N.add_0_r in Hm |].
      * destruct Hm as [[-> ->] | [-> ->]]; [left; by left | right; left; by left].
      * right; right. exists i, h. split; [done |]. by replace (k + 1 + N.of_nat i) with (k + N.of_nat (S i)) by lia.
Qed.
Lemma mappings_from_bound k gs mp : mp ∈ mappings_from k gs → VSOCK_UNIX_BASE_PORT + 2 * k ≤ vm_port mp.
Proof. intros (i & g & _ & [[_ ->] | [_ ->]])%mappings_from_elem; cbn; lia. Qed.
Lemma mappings_from_NoDup k gs : NoDup (vm_port <$> mappings_from k gs).
Proof.
  revert k. induction gs as [| g gs IH]; intros k; [constructor |]. cbn [mappings_from].
  assert (∀ p, p < VSOCK_UNIX_BASE_PORT + 2 * (k + 1) → p ∉ vm_port <$> mappings_from (k + 1) gs) as Hlow.
  { intros p Hp (mp & -> & Hin%mappings_from_bound)%list_elem_of_fmap. lia. }
  destruct g; cbn [permits_connect permits_bind app fmap list_fmap vm_port dial_mapping serve_mapping]; repeat constructor; try apply IH;
    try (apply Hlow; lia). apply not_elem_of_cons. split; [lia | apply Hlow; lia].
Qed.

(** On the microVM tier every channel of the document has its own ports.  The socket
    mappings exist exactly when each grant names a socket, not a directory, that is bound
    by its owner if the guest only dials it; then the guest's ports are pairwise distinct
    and above every TCP port, and a mapping is there exactly for each grant in document
    order: its even port to dial when it permits dialling, its odd one to serve when it
    permits binding. *)
Theorem vsock_channels_exact m : len (unix_sockets m) ≤ 2 ^ 31 - 2 ^ 15 →
  ((∃ ms, vsock_unix_mappings m = Ok ms) ↔ Forall deliverable (unix_sockets m))
  ∧ ∀ ms, vsock_unix_mappings m = Ok ms →
      NoDup (vm_port <$> ms) ∧ Forall (λ mp, u16_max < vm_port mp < 2 ^ 32) ms
      ∧ ∀ mp, mp ∈ ms ↔ ∃ i g, unix_sockets m !! i = Some g
          ∧ (permits_connect g = true ∧ mp = dial_mapping (N.of_nat i) g ∨ permits_bind g = true ∧ mp = serve_mapping (N.of_nat i) g).
Proof.
  intros Hlen. split.
  - split; [by intros (ms & [? _]%vsock_mappings_ok) | intros Hd; eexists; by apply vsock_mappings_ok].
  - intros ms [Hd ->]%vsock_mappings_ok; [| done]. split_and!; [apply mappings_from_NoDup | | by intros; rewrite mappings_from_elem].
    apply Forall_forall. intros mp Hmp. split; [apply mappings_from_bound in Hmp; unfold VSOCK_UNIX_BASE_PORT, u16_max in *; lia |].
    apply mappings_from_elem in Hmp as (i & g & Hi%lookup_lt_Some & Hm). unfold len in Hlen. change (2 ^ 31) with 2147483648 in Hlen.
    change (2 ^ 15) with 32768 in Hlen. change (2 ^ 32) with 4294967296. destruct Hm as [[_ ->] | [_ ->]]; cbn; unfold VSOCK_UNIX_BASE_PORT; lia.
Qed.

Lemma c_str_bytes s : x00 ∉ bytes_of s → c_str s = Some s.
Proof.
  intros Hs. assert (string_all (λ c, negb (bool_decide (c = ascii_of_N 0))) s = true) as E; [| unfold c_str; by rewrite E].
  induction s as [| c s IH]; [done |]. change (bytes_of (String c s)) with (Ascii.byte_of_ascii c :: bytes_of s) in Hs.
  apply not_elem_of_cons in Hs as [Hc Hs]. cbn [string_all]. rewrite IH by done. rewrite bool_decide_eq_false_2; [done |].
  intros ->. by apply Hc.
Qed.
Lemma port_entry_c_str g : c_str (port_entry g) = Some (port_entry g).
Proof.
  apply c_str_bytes. unfold port_entry. rewrite !bytes_of_app, !not_elem_of_app.
  assert (x00 ∉ bytes_of (pretty (pg_bind g))) as Hd.
  { intros Hin. pose proof (proj1 (Forall_forall _ _) (decimal_digits (pg_bind g)) _ Hin) as Hx. unfold is_digit in Hx. cbn in Hx. lia. }
  split_and!; [done | by intros [?|?%not_elem_of_nil]%elem_of_cons | done].
Qed.
(** A published port is a declared one, under its own number, and every declared one is
    published; without socket hijacking a declared listener is refused. *)
Lemma port_map_exact m tsi ps :
  guest_port_map m tsi = Ok ps ↔ (ports m = [] ∨ tsi ≠ 0) ∧ ps = (λ g, pretty (pg_bind g) +:+ ":" +:+ pretty (pg_bind g)) <$> ports m.
Proof.
  unfold guest_port_map.
  assert (∀ l acc, fold_result (λ acc grant, entry ← ok_or (c_str (port_entry grant)) (invalid "port map entry contains a NUL byte"); mret (acc ++ [entry])) acc l
    = Ok (acc ++ (port_entry <$> l))) as ->.
  { induction l as [| g l IH]; intros acc; cbn [fold_result fmap list_fmap]; [by rewrite app_nil_r |].
    rewrite port_entry_c_str. cbn. rewrite IH. by rewrite <- app_assoc. }
  case_bool_decide as Hp; destruct (N.eqb_spec tsi 0) as [Ht | Ht]; cbn [negb andb app]; split; try by intros [_ ->].
  all: try (intros [= <-]; by auto). by intros [[? | ?] _].
Qed.
End channels.

(** A channel to dial and one to serve, next to a tree that cannot be mapped. *)
Lemma vsock_channels_exact_witness :
  let fmt : Fmt := {| utf8_error := λ _, ""%string; debug_str := λ s, s |} in
  let host : HostPaths := {| path_exists := λ _, true; canonicalize := λ p, Ok p |} in
  let m := set_unix_sockets [Connect "/run/proxy"; ConnectBind "/run/own"] manifest_new in
  (∃ ms, vsock_unix_mappings m = Ok ms ∧ NoDup (vm_port <$> ms) ∧ vm_port <$> ms = [65536; 65538; 65539])
  ∧ ¬ ∃ ms, vsock_unix_mappings (set_unix_sockets [Connect "/run/"] manifest_new) = Ok ms.
Proof.
  intros fmt host m. split.
  - eexists. split; [reflexivity |]. split; [| reflexivity]. apply (vsock_channels_exact m); [vm_compute; discriminate | reflexivity].
  - intros Hms. apply (vsock_channels_exact (set_unix_sockets [Connect "/run/"] manifest_new)) in Hms; [| vm_compute; discriminate].
    apply Forall_cons in Hms as [[Hx _] _]. discriminate Hx.
Defined.
