(* ===== verification/Rootfs.v ===== *)
(** * Root file systems

    [rs/ll-open/runtime/src/backends/libkrun/plan.rs] and [volume.rs]: the content-addressed
    root a run names, its verification, the private copy a worker makes of it, and the plan
    compiled from a request.

    The host is a map from canonical paths (the names from the root) to what is there.  Each
    call on it may fail, the [n]th one as [os_fails n] says; a failing copy leaves some of the
    bytes.  Paths that the code resolves follow links as POSIX does.  The entries the code
    makes lie below a directory it resolved and found empty, so they are made at their
    canonical paths. *)

From S2P Require Import Prelude Substrate Text Limits Ordered Confinement Sandbox StateM.
From stdpp Require Import pretty.
From Stdlib Require Import NArith Lia Ascii.
Local Open Scope N_scope.

(** ** The host *)

Notation hpath := (list string).
Inductive node := NFile (mode : N) (bytes : list byte) | NDir (mode : N) | NLink (target : string) | NOther.
Inductive errno := ENOENT | ENOTDIR | EISDIR | ELOOP | EEXIST | OtherErrno (code : N).
Record host := { h_nodes : gmap hpath node; h_calls : nat }.
Class Os := {
  os_fails : nat → option errno;
  os_torn : nat → nat;
  (** Whether the entry was replaced between its inspection and its opening. *)
  os_replaced : nat → bool;
  (** The order of a listing. *)
  os_order : list string → list string;
  os_order_perm l : os_order l ≡ₚ l;
  os_cwd : hpath;
  (** The permissions a new directory and a new file have. *)
  os_dir_mode : N;
  os_file_mode : N;
  strerror : errno → string;
}.
Definition tick (h : host) : host := {| h_nodes := h_nodes h; h_calls := S (h_calls h) |}.
Definition set_node (p : hpath) (n : node) (h : host) : host := {| h_nodes := <[p := n]> (h_nodes h); h_calls := h_calls h |}.

Definition MAXSYMLINKS : nat := 40.
Definition is_dir_at (ns : gmap hpath node) (p : hpath) : bool :=
  bool_decide (p = []) || match ns !! p with Some (NDir _) => true | _ => false end.
(** Path resolution from [cur], following links. *)
Fixpoint resolve (links : nat) (ns : gmap hpath node) : hpath → list Component → result errno hpath :=
  fix go (cur : hpath) (todo : list Component) {struct todo} : result errno hpath :=
    match todo with
    | [] => Ok cur
    | RootDir :: rest => go [] rest
    | CurDir :: rest => go cur rest
    | ParentDir :: rest => go (removelast cur) rest
    | Normal name :: rest =>
        match ns !! (cur ++ [name]) with
        | None => Err ENOENT
        | Some (NDir _) => go (cur ++ [name]) rest
        | Some (NLink target) =>
            match links with
            | O => Err ELOOP
            | S links => resolve links ns cur (components target ++ rest)
            end
        | Some _ => if bool_decide (rest = []) then Ok (cur ++ [name]) else Err ENOTDIR
        end
    end.
(** [symlink_metadata] of the path of [names] below [dir]. *)
Definition lstat (ns : gmap hpath node) (dir names : hpath) : result errno node :=
  parent ← resolve MAXSYMLINKS ns [] (Normal <$> dir ++ removelast names);
  if is_dir_at ns parent then ok_or (ns !! (parent ++ [default EmptyString (last names)])) ENOENT else Err ENOTDIR.
(** [fs::read] of a resolved path. *)
Definition read_at (ns : gmap hpath node) (p : hpath) : result errno (list byte) :=
  match ns !! p with
  | Some (NFile _ bytes) => Ok bytes
  | Some (NDir _) => Err EISDIR
  | Some _ => Err (OtherErrno 0)
  | None => Err ENOENT
  end.
Definition child_name (dir p : hpath) : option string :=
  if bool_decide (p ≠ [] ∧ removelast p = dir) then last p else None.
Definition children (ns : gmap hpath node) (dir : hpath) : list string := omap (λ x, child_name dir x.1) (map_to_list ns).
Definition is_link (n : node) : bool := match n with NLink _ => true | _ => false end.
Definition is_file (n : node) : bool := match n with NFile _ _ => true | _ => false end.
Definition is_directory (n : node) : bool := match n with NDir _ => true | _ => false end.
Definition node_mode (n : node) : N := match n with NFile mode _ | NDir mode => mode | _ => 0 end.

Definition HM : Type → Type := M host ExecutionError.
Section calls.
Context `{Os}.

Definition invalid_io (action : string) (error : errno) : ExecutionError := invalid (action +:+ ": " +:+ strerror error).
(** One call, which may fail. *)
Definition sys {A} (action : string) (f : host → result errno A * host) : HM A := λ h,
  match os_fails (h_calls h) with
  | Some e => (Err (invalid_io action e), tick h)
  | None => let '(r, h') := f (tick h) in (map_err (invalid_io action) r, h')
  end.
(** One that only looks, and one whose failure is an answer. *)
Definition ask {A} (action : string) (f : gmap hpath node → result errno A) : HM A := sys action (λ h, (f (h_nodes h), h)).
Definition query (f : gmap hpath node → bool) : HM bool := λ h,
  (Ok match os_fails (h_calls h) with Some _ => false | None => f (h_nodes h) end, tick h).
(** [Path::canonicalize] *)
Definition canonicalize_at (ns : gmap hpath node) (p : hpath) : result errno hpath := resolve MAXSYMLINKS ns [] (Normal <$> p).
Definition canonicalize_path (ns : gmap hpath node) (path : string) : result errno hpath :=
  if bool_decide (path = EmptyString) then Err ENOENT else resolve MAXSYMLINKS ns os_cwd (components path).
Definition read_dir (ns : gmap hpath node) (dir : hpath) : result errno (list string) :=
  if is_dir_at ns dir then Ok (os_order (children ns dir)) else if bool_decide (ns !! dir = None) then Err ENOENT else Err ENOTDIR.
(** The node a canonical path names. *)
Definition node_at (ns : gmap hpath node) (p : hpath) : result errno node := ok_or (ns !! p) ENOENT.

(** [fs::create_dir], [OpenOptions::create_new], [io::copy] into it, [fs::set_permissions] *)
Definition make_node (action : string) (p : hpath) (n : node) : HM unit := sys action (λ h,
  if negb (is_dir_at (h_nodes h) (removelast p)) then (Err ENOENT, h)
  else if bool_decide (p = [] ∨ is_Some (h_nodes h !! p)) then (Err EEXIST, h)
  else (Ok tt, set_node p n h)).
Definition create_dir (action : string) (p : hpath) : HM unit := make_node action p (NDir os_dir_mode).
Definition create_new (action : string) (p : hpath) : HM unit := make_node action p (NFile os_file_mode []).
Definition put_bytes (p : hpath) (bytes : list byte) (h : host) : host :=
  match h_nodes h !! p with Some (NFile mode _) => set_node p (NFile mode bytes) h | _ => h end.
Definition copy_bytes (action : string) (p : hpath) (bytes : list byte) : HM unit := λ h,
  match os_fails (h_calls h) with
  | Some e => (Err (invalid_io action e), put_bytes p (take (os_torn (h_calls h)) bytes) (tick h))
  | None => (Ok tt, put_bytes p bytes (tick h))
  end.
Definition set_permissions (action : string) (p : hpath) (mode : N) : HM unit := sys action (λ h,
  match h_nodes h !! p with
  | Some (NFile _ bytes) => (Ok tt, set_node p (NFile mode bytes) h)
  | Some (NDir _) => (Ok tt, set_node p (NDir mode) h)
  | _ => (Err ENOENT, h)
  end).
End calls.

(** ** The manifest of a root *)

Definition ROOTFS_MANIFEST : string := "rootfs.manifest.json".
Record ManifestFile := { mf_path : string; mf_mode : N; mf_blake3 : string }.
Record RootfsManifest := { rm_version : N; rm_files : list ManifestFile }.
(** [serde_json::from_slice] at [RootfsManifest]. *)
Class RootfsJson := {
  manifest_from_slice : list byte → result string RootfsManifest;
  from_slice_total bytes : manifest_from_slice bytes ≠ Panic;
}.
Record ResolvedRootfs := { rr_digest : DigestRef; rr_canonical_path : hpath }.
#[global] Instance ResolvedRootfs_eq_dec : EqDecision ResolvedRootfs.
Proof. solve_decision. Defined.

(** The names of a guest-relative path. *)
Definition path_names (value : string) : hpath := omap (λ c, match c with Normal n => Some n | _ => None end) (components value).
Definition validate_relative_path (value : string) : result ExecutionError unit :=
  if bool_decide (value = EmptyString) || is_absolute value || existsb (λ part, negb (is_normal part)) (components value)
  then Err (invalid ("rootfs manifest path is not guest-relative: " +:+ value))
  else mret tt.

Section verify.
Context `{Blake3, Os, RootfsJson}.

Definition verify_manifest_file (rootfs : hpath) (entry : ManifestFile) : HM unit :=
  metadata ← ask "read rootfs file metadata" (λ ns, lstat ns rootfs (path_names (mf_path entry)));
  _ ← ensureM (negb (is_link metadata)) (invalid ("rootfs manifest entry must not be a symbolic link: " +:+ mf_path entry));
  _ ← ensureM (is_file metadata) (invalid ("rootfs manifest entry is not a regular file: " +:+ mf_path entry));
  canonical ← ask "canonicalize rootfs file" (λ ns, canonicalize_at ns (rootfs ++ path_names (mf_path entry)));
  _ ← ensureM (bool_decide (rootfs `prefix_of` canonical)) (invalid ("rootfs manifest path escapes root: " +:+ mf_path entry));
  _ ← ensureM (N.land (node_mode metadata) 4095 =? mf_mode entry) (invalid ("rootfs mode differs from manifest: " +:+ mf_path entry));
  bytes ← ask "read rootfs file" (λ ns, read_at ns canonical);
  ensureM (bool_decide (Hash_display (blake3 bytes) = mf_blake3 entry))
    (invalid ("rootfs content digest differs from manifest: " +:+ mf_path entry)).

Definition walk_entry (walk : hpath → gset hpath → HM (gset hpath)) (rootfs directory : hpath) (files : gset hpath) (name : string)
    : HM (gset hpath) :=
  let path := directory ++ [name] in
  _ ← ask "enumerate rootfs entry" (λ _, Ok tt);
  metadata ← ask "read rootfs entry metadata" (λ ns, node_at ns path);
  match metadata with
  | NLink _ => throw (invalid "rootfs symbolic links are not supported")
  | NDir _ => walk path files
  | NFile _ _ =>
      let relative := drop (length rootfs) path in
      if negb (bool_decide (rootfs `prefix_of` path)) then throw (invalid "rootfs entry escapes root")
      else if bool_decide (relative = [ROOTFS_MANIFEST]) then mret files
      else mret ({[relative]} ∪ files)
  | NOther => throw (invalid "rootfs contains a non-regular filesystem entry")
  end.
Fixpoint walk (fuel : nat) (rootfs directory : hpath) (files : gset hpath) : HM (gset hpath) :=
  match fuel with
  | O => panic
  | S fuel =>
      entries ← ask "enumerate rootfs" (λ ns, read_dir ns directory);
      foldM (walk_entry (walk fuel rootfs) rootfs directory) files entries
  end.
(** More levels than any path has. *)
Definition depth (ns : gmap hpath node) : nat := S (max_list (length <$> (map_to_list ns).*1)).
Definition collect_rootfs_files (rootfs : hpath) : HM (gset hpath) :=
  fuel ← gets (λ h, depth (h_nodes h));
  walk fuel rootfs rootfs ∅.

Definition declare_file (rootfs : hpath) (declared : gset hpath) (entry : ManifestFile) : HM (gset hpath) :=
  _ ← lift (validate_relative_path (mf_path entry));
  _ ← ensureM (negb (bool_decide (path_names (mf_path entry) ∈ declared))) (invalid ("duplicate rootfs manifest path: " +:+ mf_path entry));
  _ ← verify_manifest_file rootfs entry;
  mret ({[path_names (mf_path entry)]} ∪ declared).
Definition verify_manifest (rootfs : hpath) (digest : DigestRef) : HM unit :=
  metadata ← ask "read rootfs manifest metadata" (λ ns, lstat ns rootfs [ROOTFS_MANIFEST]);
  _ ← ensureM (negb (is_link metadata) && is_file metadata) (invalid "rootfs manifest must be a regular file");
  bytes ← ask "read rootfs manifest" (λ ns, p ← canonicalize_at ns (rootfs ++ [ROOTFS_MANIFEST]); read_at ns p);
  _ ← ensureM (bool_decide (Hash_display (blake3 bytes) = value digest))
        (invalid "rootfs manifest digest does not match requested content identity");
  manifest ← lift (map_err (λ error, invalid ("invalid rootfs manifest: " +:+ error)) (manifest_from_slice bytes));
  _ ← ensureM (rm_version manifest =? 1) (invalid ("unsupported rootfs manifest version: " +:+ pretty (rm_version manifest)));
  declared ← foldM (declare_file rootfs) ∅ (rm_files manifest);
  collected ← collect_rootfs_files rootfs;
  ensureM (bool_decide (collected = declared)) (invalid "rootfs files differ from the content-addressed manifest").

(** [DirectoryRootfsResolver::resolve] *)
Definition resolve_rootfs (cas_root : string) (digest : DigestRef) : HM ResolvedRootfs :=
  _ ← lift (validate_blake3 digest);
  cas_root ← ask "canonicalize rootfs CAS" (λ ns, canonicalize_path ns cas_root);
  rootfs ← ask "resolve rootfs digest" (λ ns, canonicalize_at ns (cas_root ++ [value digest]));
  dir ← (if bool_decide (cas_root `prefix_of` rootfs) then query (λ ns, is_dir_at ns rootfs) else mret false);
  _ ← ensureM dir (invalid "resolved rootfs must be a directory beneath the configured CAS");
  _ ← verify_manifest rootfs digest;
  mret {| rr_digest := digest; rr_canonical_path := rootfs |}.
Definition verify_ephemeral_rootfs (rootfs : ResolvedRootfs) : HM unit := verify_manifest (rr_canonical_path rootfs) (rr_digest rootfs).

(** ** The private copy *)

Definition name_le (a b : string) : Prop := cmp a b ≠ Gt.
#[local] Instance name_le_dec a b : Decision (name_le a b).
Proof. unfold name_le. apply _. Defined.
(** [ensure_same_entry]: [fstat] of what was opened, against what was inspected. *)
Definition ensure_same_entry : HM unit :=
  replaced ← gets (λ h, os_replaced (h_calls h));
  _ ← ask "inspect opened immutable rootfs entry" (λ _, Ok tt);
  ensureM (negb replaced) (invalid "immutable rootfs entry changed during materialization").
Definition permissions_of (n : node) : N := N.land (node_mode n) 4095.
Definition copy_entry (copy : hpath → hpath → HM unit) (source destination : hpath) (name : string) : HM unit :=
  before ← ask "inspect immutable rootfs entry" (λ ns, node_at ns (source ++ [name]));
  _ ← ensureM (negb (is_link before)) (invalid "rootfs symbolic links are not supported");
  _ ← ensureM (is_directory before || is_file before) (invalid "rootfs contains a non-regular filesystem entry");
  opened ← ask "open immutable rootfs entry without following" (λ ns, node_at ns (source ++ [name]));
  _ ← ensure_same_entry;
  let destination_path := destination ++ [name] in
  match opened with
  | NFile _ bytes =>
      _ ← create_new "create ephemeral rootfs file" destination_path;
      _ ← copy_bytes "copy ephemeral rootfs file" destination_path bytes;
      set_permissions "preserve ephemeral rootfs file permissions" destination_path (permissions_of before)
  | _ =>
      _ ← create_dir "create ephemeral rootfs directory" destination_path;
      _ ← copy (source ++ [name]) destination_path;
      set_permissions "preserve ephemeral rootfs directory permissions" destination_path (permissions_of before)
  end.
Fixpoint copy_directory_fd (fuel : nat) (source destination : hpath) : HM unit :=
  match fuel with
  | O => panic
  | S fuel =>
      entries ← ask "enumerate immutable rootfs" (λ ns, read_dir ns source);
      _ ← ask "enumerate immutable rootfs entry" (λ _, Ok tt);
      foldM (λ _ name, copy_entry (copy_directory_fd fuel) source destination name) tt (merge_sort name_le entries)
  end.
Definition copy_directory_contents (source destination : hpath) : HM unit :=
  source_metadata ← ask "open immutable rootfs directory" (λ ns, if is_dir_at ns source then node_at ns source else Err ENOTDIR);
  _ ← ask "inspect opened immutable rootfs" (λ _, Ok tt);
  fuel ← gets (λ h, depth (h_nodes h));
  _ ← copy_directory_fd fuel source destination;
  set_permissions "preserve ephemeral guest rootfs permissions" destination (permissions_of source_metadata).
(** [read_dir(..)?.next().is_some()]: an entry, or a failure to read one. *)
Definition has_entry (names : list string) : HM bool := λ h,
  (Ok match os_fails (h_calls h) with Some _ => true | None => negb (bool_decide (names = [])) end, tick h).
Definition materialize_ephemeral_rootfs (source : ResolvedRootfs) (destination : string) : HM ResolvedRootfs :=
  source_path ← ask "canonicalize immutable rootfs" (λ ns, canonicalize_at ns (rr_canonical_path source));
  destination ← ask "canonicalize ephemeral rootfs destination" (λ ns, canonicalize_path ns destination);
  source_dir ← query (λ ns, is_dir_at ns source_path);
  destination_dir ← (if (source_dir : bool) then query (λ ns, is_dir_at ns destination) else mret false);
  _ ← ensureM destination_dir (invalid "rootfs source and ephemeral destination must be directories");
  _ ← ensureM (negb (bool_decide (source_path `prefix_of` destination) || bool_decide (destination `prefix_of` source_path)))
        (invalid "ephemeral rootfs destination must not overlap the immutable rootfs");
  names ← ask "enumerate ephemeral rootfs destination" (λ ns, read_dir ns destination);
  full ← has_entry names;
  _ ← ensureM (negb full) (invalid "ephemeral rootfs destination must be empty");
  _ ← set_permissions "make ephemeral run directory private" destination 448;
  let guest_root := destination ++ ["rootfs"%string] in
  _ ← create_dir "create ephemeral guest rootfs" guest_root;
  _ ← set_permissions "make rootfs private during materialization" guest_root 448;
  _ ← copy_directory_contents source_path guest_root;
  let materialized := {| rr_digest := rr_digest source; rr_canonical_path := guest_root |} in
  _ ← verify_ephemeral_rootfs materialized;
  mret materialized.

(** ** The plan *)

Definition KRUN_TSI_HIJACK_INET : N := 1.
Record KrunConfig := {
  kc_run_id : string;
  kc_rootfs : ResolvedRootfs;
  kc_executable : string;
  kc_arguments : list string;
  kc_environment : list string;
  kc_workdir : string;
  kc_vcpus : N;
  kc_ram_mib : N;
  kc_wall_time_ms : N;
  kc_tsi_features : N;
  kc_port_map : list string;
  kc_vsock_unix_map : list VsockUnixMapping;
}.
Definition c_string (value field : string) : result ExecutionError string :=
  ok_or (c_str value) (invalid (field +:+ " contains an interior NUL byte")).
Definition c_strings {A} (text : A → string) (field : string) (l : list A) : result ExecutionError (list string) :=
  fold_result (λ acc x, entry ← c_string (text x) field; mret (acc ++ [entry])) [] l.
(** The environment in the order of its [BTreeMap]. *)
Definition entry_le (a b : string * string) : Prop := name_le a.1 b.1.
#[local] Instance entry_le_dec a b : Decision (entry_le a b).
Proof. unfold entry_le. apply _. Defined.
Definition in_key_order (env : gmap string string) : list (string * string) := merge_sort entry_le (map_to_list env).
Definition environment_entry (x : string * string) : string := x.1 +:+ "=" +:+ x.2.
(** [.ok().flatten().unwrap_or(0)] *)
Definition or_unsized (r : result ExecutionError (option N)) : N := match r with Ok (Some n) => n | _ => 0 end.

Definition compile_plan (resolver : DigestRef → HM ResolvedRootfs) (request : ExecutionRequest) : HM KrunConfig :=
  _ ← lift (request_validate request);
  rootfs ← resolver (rootfs request);
  executable_meta ← ask "resolve rootfs executable" (λ ns, lstat ns (rr_canonical_path rootfs) (path_names (executable request)));
  _ ← ensureM (negb (is_link executable_meta)) (invalid "rootfs executable must not be a symbolic link");
  _ ← ensureM (is_file executable_meta) (invalid "rootfs executable must be a manifest-verified regular file");
  exe ← lift (c_string (executable request) "executable");
  args ← lift (c_strings id "argument" (arguments request));
  env ← lift (c_strings environment_entry "environment" (in_key_order (public_environment request)));
  mret {| kc_run_id := run_id request; kc_rootfs := rootfs; kc_executable := exe; kc_arguments := args; kc_environment := env;
          kc_workdir := "/"; kc_vcpus := or_unsized (hypervisor_vcpus (cpu (limits request)));
          kc_ram_mib := or_unsized (hypervisor_ram_mib (memory (limits request))); kc_wall_time_ms := wall_time_ms (limits request);
          kc_tsi_features := 0; kc_port_map := []; kc_vsock_unix_map := [] |}.
End verify.

(** ** Runs of calls that only look *)

Lemma foldM_inv {S E A B} (P : list A → B → S → Prop) (f : B → A → M S E B) l b s b' s' :
  P [] b s → (∀ dn a b s b' s', a ∈ l → P dn b s → f b a s = (Ok b', s') → P (dn ++ [a]) b' s') →
  foldM f b l s = (Ok b', s') → P l b' s'.
Proof.
  intros H0 Hf. assert (∀ l1 dn b s, l1 ⊆ l → P dn b s → foldM f b l1 s = (Ok b', s') → P (dn ++ l1) b' s') as Hgo.
  { induction l1 as [| a l1 IH]; intros dn b1 s1 Hl Hp; cbn [foldM].
    - intros [= <- <-]. by rewrite app_nil_r.
    - intros (b2 & s2 & Ha & Hr)%run_bind. rewrite cons_middle, app_assoc. apply (IH _ b2 s2); [set_solver | | done].
      apply (Hf dn a b1 s1); [set_solver | done | done]. }
  intros Hr. by apply (Hgo l [] b s).
Qed.
Lemma foldM_no_panic {S E A B} (P : S → Prop) (f : B → A → M S E B) l b s :
  P s → (∀ a b s, a ∈ l → P s → (f b a s).1 ≠ Panic ∧ P (f b a s).2) → (foldM f b l s).1 ≠ Panic ∧ P (foldM f b l s).2.
Proof.
  intros Hs Hf. revert b s Hs. induction l as [| a l IH]; intros b s Hs; cbn [foldM]; [done |].
  destruct (Hf a b s) as [Hp Hs']; [left | done |]. unfold mbind, M_bind. destruct (f b a s) as [[b1 | e |] s1]; cbn [fst snd] in *; [| done | done].
  apply IH; [| done]. intros a' b' s' Ha'. apply Hf. by right.
Qed.

(** The host is left as it was. *)
Definition same_nodes (h h' : host) : Prop := h_nodes h' = h_nodes h.
#[global] Instance same_nodes_preorder : PreOrder same_nodes.
Proof. split; [by intros h | intros h1 h2 h3 E1 E2; unfold same_nodes in *; congruence]. Qed.

Section looks.
Context `{Os}.
Lemma ask_ok {A} (action : string) (f : gmap hpath node → result errno A) h a h' :
  ask action f h = (Ok a, h') → f (h_nodes h) = Ok a ∧ h_nodes h' = h_nodes h.
Proof.
  unfold ask, sys. destruct (os_fails (h_calls h)); [done |]. cbn. intros [= E <-]. split; [| done].
  by destruct (f (h_nodes h)); cbn in E; simplify_eq.
Qed.
Lemma ask_looks {A} (action : string) (f : gmap hpath node → result errno A) : within same_nodes (ask action f).
Proof. intros h. unfold ask, sys. by destruct (os_fails (h_calls h)). Qed.
Lemma ask_no_panic {A} (action : string) (f : gmap hpath node → result errno A) h : f (h_nodes h) ≠ Panic → (ask action f h).1 ≠ Panic.
Proof. intros Hf. unfold ask, sys. destruct (os_fails (h_calls h)); [done |]. cbn. by destruct (f (h_nodes h)). Qed.
Lemma query_looks f : within same_nodes (query f).
Proof. by intros h. Qed.
Lemma has_entry_looks names : within same_nodes (has_entry names).
Proof. by intros h. Qed.
End looks.
#[export] Hint Resolve ask_looks query_looks has_entry_looks : within.

(** Take a run of binds apart, carrying that the host is the same. *)
Ltac run_inv :=
  repeat match goal with
  | H : (_ ≫= _) _ = (Ok _, _) |- _ => apply run_bind in H as (? & ? & ? & ?)
  | H : ask _ _ _ = (Ok _, _) |- _ => let E := fresh "En" in apply ask_ok in H as [H E]; cbv beta in H
  | H : ensureM _ _ _ = (Ok _, _) |- _ => let E := fresh "Es" in apply ensureM_ok in H as [H E]; subst
  | H : lift _ _ = (Ok _, _) |- _ => let E := fresh "Es" in apply lift_ok in H as [H E]; subst
  | H : mret _ _ = (Ok _, _) |- _ => injection H as ? ?; subst
  | u : unit |- _ => destruct u
  end.

(** ** Trees *)

(** Every entry is in a directory; the root itself is not an entry. *)
Definition tree_ok (ns : gmap hpath node) : Prop := ns !! [] = None ∧ ∀ p name n, ns !! (p ++ [name]) = Some n → is_dir_at ns p = true.
Lemma tree_prefix ns p q n : tree_ok ns → q ≠ [] → ns !! (p ++ q) = Some n → is_dir_at ns p = true.
Proof.
  intros [_ Ht]. revert n. induction q as [| x q IH] using rev_ind; intros n Hq; [done |]. rewrite app_assoc. intros Hl.
  apply Ht in Hl. destruct q as [| y q]; [by rewrite app_nil_r in Hl |]. unfold is_dir_at in Hl. case_bool_decide as E; [by destruct p |]. rewrite orb_false_l in Hl.
  destruct (ns !! (p ++ y :: q)) as [n' |] eqn:En; [| done]. by apply (IH n').
Qed.
Lemma elem_of_children ns dir name : name ∈ children ns dir ↔ is_Some (ns !! (dir ++ [name])).
Proof.
  unfold children. rewrite list_elem_of_omap. split.
  - intros ([p n] & Hin%elem_of_map_to_list & Hc). unfold child_name in Hc. cbn in Hc. case_bool_decide as Hp; [| done]. destruct Hp as [Hne <-].
    destruct p as [| x p] using rev_ind; [done |]. rewrite last_snoc in Hc. injection Hc as ->. rewrite removelast_last. by exists n.
  - intros [n Hn]. exists (dir ++ [name], n). split; [by apply elem_of_map_to_list |]. unfold child_name. cbn.
    rewrite removelast_last, last_snoc, bool_decide_eq_true_2; [done |]. split; [| done]. by destruct dir.
Qed.
(** Resolution of a path without links goes nowhere else. *)
Lemma resolve_real links ns q cur : tree_ok ns →
  (q = [] ∨ ∃ n, ns !! (cur ++ q) = Some n ∧ is_link n = false) → resolve links ns cur (Normal <$> q) = Ok (cur ++ q).
Proof.
  intros Ht Hq. destruct links; revert cur Hq; induction q as [| x q IH]; intros cur Hq; cbn [fmap list_fmap];
    try (cbn; by rewrite app_nil_r).
  all: destruct Hq as [? | (n & Hn & Hl)]; [done |].
  all: assert (q = [] ∧ ns !! (cur ++ [x]) = Some n ∨ q ≠ [] ∧ ∃ m, ns !! (cur ++ [x]) = Some (NDir m)) as [[-> Hx] | [Hne [m Hx]]].
  1, 4: destruct q as [| y q]; [by left | right; split; [done |]];
    assert (is_dir_at ns (cur ++ [x]) = true) as Hd by (apply (tree_prefix ns (cur ++ [x]) (y :: q) n Ht); [done | by rewrite <- app_assoc]);
    unfold is_dir_at in Hd; rewrite bool_decide_eq_false_2 in Hd by (by destruct cur); cbn in Hd; destruct (ns !! (cur ++ [x])) as [[] |]; naive_solver.
  1, 3: cbn; rewrite Hx; destruct n; done.
  all: cbn; rewrite Hx; replace (cur ++ x :: q) with ((cur ++ [x]) ++ q) by (by rewrite <- app_assoc);
    apply IH; right; exists n; by rewrite <- app_assoc.
Qed.

(** ** What a verified root holds *)

Section verified.
Context `{Blake3, Os, RootfsJson}.

Lemma verify_file_looks root e : within same_nodes (verify_manifest_file root e).
Proof. unfold verify_manifest_file. within_tac. Qed.
Lemma walk_entry_looks rec root dir files name : (∀ dir files, within same_nodes (rec dir files)) → within same_nodes (walk_entry rec root dir files name).
Proof. intros Hrec. unfold walk_entry. cbv zeta. repeat first [apply Hrec | within_step]. Qed.
Lemma walk_looks fuel root dir files : within same_nodes (walk fuel root dir files).
Proof.
  revert dir files. induction fuel as [| fuel IH]; intros dir files; cbn [walk]; [eauto with within |].
  repeat first [apply walk_entry_looks, IH | within_step].
Qed.
Lemma declare_looks root declared e : within same_nodes (declare_file root declared e).
Proof. unfold declare_file. repeat first [apply verify_file_looks | within_step]. Qed.
Lemma verify_looks root d : within same_nodes (verify_manifest root d).
Proof. unfold verify_manifest, collect_rootfs_files. repeat first [apply walk_looks | apply declare_looks | within_step]. Qed.

(** What a walk of [dir] adds to [files]. *)
Record walked (ns : gmap hpath node) (root dir : hpath) (files files' : gset hpath) : Prop := {
  wk_keeps : files ⊆ files';
  wk_sound rel : rel ∈ files' → rel ∈ files ∨ rel ≠ [ROOTFS_MANIFEST] ∧ ∃ mode bytes, ns !! (root ++ rel) = Some (NFile mode bytes);
  wk_cover q n : q ≠ [] → ns !! (dir ++ q) = Some n →
    is_directory n = true ∨ is_file n = true ∧ ∃ rel, dir ++ q = root ++ rel ∧ (rel = [ROOTFS_MANIFEST] ∨ rel ∈ files');
}.
Lemma walk_step_spec fuel ns root dir files name h files' h' : h_nodes h = ns → tree_ok ns → root `prefix_of` dir →
  (∀ dir files files' h h', h_nodes h = ns → root `prefix_of` dir → walk fuel root dir files h = (Ok files', h') → walked ns root dir files files') →
  walk_entry (walk fuel root) root dir files name h = (Ok files', h') →
  files ⊆ files' ∧ (∀ rel, rel ∈ files' → rel ∈ files ∨ rel ≠ [ROOTFS_MANIFEST] ∧ ∃ mode bytes, ns !! (root ++ rel) = Some (NFile mode bytes))
  ∧ ∀ q n, ns !! (dir ++ name :: q) = Some n →
      is_directory n = true ∨ is_file n = true ∧ ∃ rel, dir ++ name :: q = root ++ rel ∧ (rel = [ROOTFS_MANIFEST] ∨ rel ∈ files').
Proof.
  unfold walk_entry. intros Hh Ht Hpre IH (u & h1 & [_ E1]%ask_ok & (n0 & h2 & [Hn E2]%ask_ok & Hr)%run_bind)%run_bind.
  rewrite E1, Hh in Hn. unfold node_at, ok_or in Hn. destruct (ns !! (dir ++ [name])) as [n1 |] eqn:En; [| done]. injection Hn as ->.
  assert (∀ q n, q ≠ [] → ns !! (dir ++ name :: q) = Some n → is_directory n0 = true) as Hdir.
  { intros q n Hq Hl. pose proof (tree_prefix ns (dir ++ [name]) q n Ht Hq) as Hd. rewrite <- app_assoc in Hd. specialize (Hd Hl).
    unfold is_dir_at in Hd. rewrite En, bool_decide_eq_false_2 in Hd by (by destruct dir). by destruct n0. }
  destruct Hpre as [k ->]. destruct n0 as [mode bytes | mode | target |]; [| | done | done].
  - cbv zeta in Hr. rewrite <- app_assoc, drop_app_length in Hr.
    rewrite (bool_decide_eq_true_2 (root `prefix_of` _)) in Hr by (by exists (k ++ [name])). cbn [negb] in Hr.
    assert (files' = if bool_decide (k ++ [name] = [ROOTFS_MANIFEST]) then files else {[k ++ [name]]} ∪ files) as ->.
    { case_bool_decide; by injection Hr as <- _. }
    rewrite <- app_assoc in En. case_bool_decide as Em.
    + split_and!; [done | by left |]. intros [| x q] n Hl; [| by specialize (Hdir (x :: q) n ltac:(done) Hl)].
      rewrite <- app_assoc in Hl. rewrite Hl in En. injection En as ->. right. split; [done |]. exists (k ++ [name]). rewrite <- app_assoc. auto.
    + split_and!; [set_solver | |].
      * intros rel [->%elem_of_singleton | ?]%elem_of_union; [right | by left]. split; [done | by exists mode, bytes].
      * intros [| x q] n Hl; [| by specialize (Hdir (x :: q) n ltac:(done) Hl)].
        rewrite <- app_assoc in Hl. rewrite Hl in En. injection En as ->. right. split; [done |]. exists (k ++ [name]). rewrite <- app_assoc. set_solver.
  - destruct (IH ((root ++ k) ++ [name]) files files' h2 h') as [W1 W2 W3]; [congruence | exists (k ++ [name]); by rewrite <- app_assoc | done |].
    split_and!; [done | done |]. intros [| x q] n Hl; [left; rewrite Hl in En; by injection En as -> |].
    destruct (W3 (x :: q) n) as [? | Hf]; [done | by rewrite <- app_assoc | by left | right]. by rewrite <- app_assoc in Hf.
Qed.
Lemma walk_spec fuel ns root dir files h files' h' : h_nodes h = ns → tree_ok ns → root `prefix_of` dir →
  walk fuel root dir files h = (Ok files', h') → walked ns root dir files files'.
Proof.
  intros Hh Ht. revert dir files files' h h' Hh. induction fuel as [| fuel IH]; intros dir files files' h h' Hh Hpre; cbn [walk]; [done |].
  intros (entries & h1 & [Hd E1]%ask_ok & Hf)%run_bind. unfold read_dir in Hd. destruct (is_dir_at (h_nodes h) dir); [| by case_bool_decide].
  injection Hd as <-.
  eapply (foldM_inv (λ dn fs s, h_nodes s = ns ∧ files ⊆ fs
      ∧ (∀ rel, rel ∈ fs → rel ∈ files ∨ rel ≠ [ROOTFS_MANIFEST] ∧ ∃ mode bytes, ns !! (root ++ rel) = Some (NFile mode bytes))
      ∧ ∀ name q n, name ∈ dn → ns !! (dir ++ name :: q) = Some n →
          is_directory n = true ∨ is_file n = true ∧ ∃ rel, dir ++ name :: q = root ++ rel ∧ (rel = [ROOTFS_MANIFEST] ∨ rel ∈ fs))) in Hf.
  - destruct Hf as (_ & W1 & W2 & W3). split; [done | done |]. intros [| name q] n Hq Hl; [done |]. apply (W3 name q n); [| done].
    rewrite os_order_perm, elem_of_children, Hh. destruct q as [| x q]; [by exists n |].
    pose proof (tree_prefix ns (dir ++ [name]) (x :: q) n Ht ltac:(done)) as Hd. rewrite <- app_assoc in Hd. specialize (Hd Hl).
    unfold is_dir_at in Hd. rewrite bool_decide_eq_false_2 in Hd by (by destruct dir). destruct (ns !! (dir ++ [name])) eqn:E; [by eexists | done].
  - split_and!; [congruence | done | by left | by intros ? ? ? ?%not_elem_of_nil].
  - intros dn name fs s fs' s' _ (Es & W1 & W2 & W3) Hr.
    assert (h_nodes s' = ns) as Es'.
    { pose proof (walk_entry_looks (walk fuel root) root dir fs name (walk_looks fuel root) s) as Hw. rewrite Hr in Hw. unfold same_nodes in Hw. cbn in Hw. congruence. }
    destruct (walk_step_spec fuel ns root dir fs name s fs' s' Es Ht Hpre) as (V1 & V2 & V3); [| exact Hr |].
    { intros dir' fs1 fs2 h2 h3 E2 Hp'. by apply IH. }
    split_and!; [done | set_solver | |].
    + intros rel Hrel. destruct (V2 rel Hrel) as [? | ?]; [by apply W2 | by right].
    + intros nm q n [Hdn | ->%list_elem_of_singleton]%elem_of_app Hl; [| by apply V3].
      destruct (W3 nm q n Hdn Hl) as [? | (Hfile & rel & E & Hor)]; [by left | right]. split; [done |]. exists rel. split; [done |].
      destruct Hor as [? | ?]; [by left | right; set_solver].
Qed.

(** An entry of the manifest, as the host holds it. *)
Definition holds_entry (ns : gmap hpath node) (root : hpath) (e : ManifestFile) : Prop :=
  ∃ mode bytes, ns !! (root ++ path_names (mf_path e)) = Some (NFile mode bytes) ∧ N.land mode 4095 = mf_mode e ∧ Hash_display (blake3 bytes) = mf_blake3 e.
(** A root that is exactly its manifest: the manifest is a file with the digest, every
    entry is a plain directory or a regular file, and the files are the manifest's, each
    once, with its permissions and its content. *)
Record is_rootfs (ns : gmap hpath node) (root : hpath) (digest : DigestRef) (bytes : list byte) (manifest : RootfsManifest) : Prop := {
  ir_manifest : ∃ mode, ns !! (root ++ [ROOTFS_MANIFEST]) = Some (NFile mode bytes);
  ir_digest : Hash_display (blake3 bytes) = value digest;
  ir_parses : manifest_from_slice bytes = Ok manifest;
  ir_version : rm_version manifest = 1;
  ir_plain q n : q ≠ [] → ns !! (root ++ q) = Some n → is_directory n = true ∨ is_file n = true;
  ir_once : NoDup (path_names ∘ mf_path <$> rm_files manifest);
  ir_held : Forall (holds_entry ns root) (rm_files manifest);
  ir_files rel : rel ∈ path_names ∘ mf_path <$> rm_files manifest ↔
    rel ≠ [ROOTFS_MANIFEST] ∧ ∃ mode bytes, ns !! (root ++ rel) = Some (NFile mode bytes);
}.

Lemma lstat_real ns root rel n : tree_ok ns → rel ≠ [] → ns !! (root ++ rel) = Some n → lstat ns root rel = Ok n.
Proof.
  intros Ht Hne Hn. destruct rel as [| x rel _] using rev_ind; [done |]. unfold lstat. rewrite removelast_last, last_snoc. rewrite app_assoc in Hn.
  pose proof (proj2 Ht _ _ _ Hn) as Hd. rewrite resolve_real; [| done |].
  - rewrite bind_Ok. cbn [app]. rewrite Hd. change (default EmptyString (Some x)) with x. by rewrite Hn.
  - unfold is_dir_at in Hd. case_bool_decide as E; [by left | right]. cbn [app]. destruct (ns !! (root ++ rel)) as [[] |]; try done. by eexists.
Qed.
Lemma verify_file_spec ns root e h h' : h_nodes h = ns → tree_ok ns →
  verify_manifest_file root e h = (Ok tt, h') →
  ∀ mode bytes, path_names (mf_path e) ≠ [] → ns !! (root ++ path_names (mf_path e)) = Some (NFile mode bytes) →
  N.land mode 4095 = mf_mode e ∧ Hash_display (blake3 bytes) = mf_blake3 e.
Proof.
  intros <- Ht Hr mode bytes Hne Hl. unfold verify_manifest_file in Hr. run_inv.
  repeat match goal with E : h_nodes ?x = h_nodes h, H : context [h_nodes ?x] |- _ => rewrite E in H end.
  match goal with E : lstat _ _ _ = Ok _ |- _ => rewrite (lstat_real _ _ _ _ Ht Hne Hl) in E; injection E as <- end.
  match goal with E : canonicalize_at _ _ = Ok _ |- _ => unfold canonicalize_at in E; rewrite resolve_real in E by eauto; injection E as <- end.
  match goal with E : read_at _ _ = Ok _ |- _ => unfold read_at in E; cbn [app] in E; rewrite Hl in E; injection E as <- end.
  match goal with E : (_ =? _) = true |- _ => apply N.eqb_eq in E end.
  match goal with E : bool_decide (Hash_display _ = _) = true |- _ => apply bool_decide_eq_true in E end. done.
Qed.
Lemma validate_relative_names v : validate_relative_path v = Ok tt → path_names v ≠ [] ∧ components v = Normal <$> path_names v.
Proof.
  unfold validate_relative_path. destruct (guest_path_ok_spec v) as [_ Hn]. unfold guest_path_ok in Hn.
  destruct (_ || _) eqn:E; [done |]. intros _. destruct (Hn eq_refl) as (names & Hne & _ & Hc).
  assert (path_names v = names) as ->; [| done]. unfold path_names. rewrite Hc. clear. induction names; cbn; congruence.
Qed.
Lemma declare_spec ns root es declared h h' : h_nodes h = ns →
  foldM (declare_file root) ∅ es h = (Ok declared, h') →
  h_nodes h' = ns ∧ (∀ rel, rel ∈ declared ↔ rel ∈ path_names ∘ mf_path <$> es) ∧ NoDup (path_names ∘ mf_path <$> es)
  ∧ Forall (λ e, path_names (mf_path e) ≠ [] ∧ ∃ s s', h_nodes s = ns ∧ verify_manifest_file root e s = (Ok tt, s')) es.
Proof.
  intros Hh. apply (foldM_inv (λ dn declared s, h_nodes s = ns ∧ (∀ rel, rel ∈ declared ↔ rel ∈ path_names ∘ mf_path <$> dn) ∧ NoDup (path_names ∘ mf_path <$> dn)
    ∧ Forall (λ e, path_names (mf_path e) ≠ [] ∧ ∃ s s', h_nodes s = ns ∧ verify_manifest_file root e s = (Ok tt, s')) dn)).
  - split_and!; [done | set_solver | constructor | done].
  - intros dn e fs s fs' s' _ (Es & Hd & Hn & Hf) (u1 & s1 & [Hv ->]%lift_ok & (u2 & s2 & [Hc ->]%ensureM_ok & (u3 & s3 & Hr & [= <- <-])%run_bind)%run_bind)%run_bind.
    destruct u1, u3. apply validate_relative_names in Hv as [Hne _]. apply negb_true_iff, bool_decide_eq_false in Hc.
    pose proof (verify_file_looks root e s) as Hw. rewrite Hr in Hw. unfold same_nodes in Hw. cbn in Hw.
    split_and!; [congruence | |  |].
    + intros rel. rewrite fmap_app, elem_of_union, elem_of_app, Hd, elem_of_singleton. cbn. rewrite list_elem_of_singleton. tauto.
    + rewrite fmap_app. apply NoDup_app. split_and!; [done | | apply NoDup_singleton]. intros rel Hrel ->%list_elem_of_singleton. by apply Hc, Hd.
    + apply Forall_app. split; [done |]. apply Forall_singleton. split; [done |]. by exists s, s3.
Qed.
Lemma resolve_dir ns p : tree_ok ns → is_dir_at ns p = true → resolve MAXSYMLINKS ns [] (Normal <$> p) = Ok p.
Proof.
  intros Ht Hd. rewrite resolve_real; [done | done |]. unfold is_dir_at in Hd. case_bool_decide as E; [by left | right]. cbn [app].
  destruct (ns !! p) as [[] |]; try done. by eexists.
Qed.
(** What the manifest file is, when its metadata and its bytes were read. *)
Lemma manifest_file_real ns root n bytes : tree_ok ns → is_dir_at ns root = true →
  lstat ns root [ROOTFS_MANIFEST] = Ok n → negb (is_link n) && is_file n = true →
  (p ← canonicalize_at ns (root ++ [ROOTFS_MANIFEST]); read_at ns p) = Ok bytes →
  ∃ mode, ns !! (root ++ [ROOTFS_MANIFEST]) = Some (NFile mode bytes).
Proof.
  intros Ht Hd Hl Hf Hb. unfold lstat in Hl. cbn [removelast] in Hl. rewrite app_nil_r, (resolve_dir ns root Ht Hd), bind_Ok, Hd in Hl.
  change (default EmptyString (last [ROOTFS_MANIFEST])) with ROOTFS_MANIFEST in Hl.
  destruct (ns !! (root ++ [ROOTFS_MANIFEST])) as [n' |] eqn:En; [| done]. injection Hl as ->.
  unfold canonicalize_at in Hb. rewrite resolve_real in Hb; [| done | right; exists n; split; [done | by destruct n]].
  rewrite bind_Ok in Hb. unfold read_at in Hb. cbn [app] in Hb. rewrite En in Hb. destruct n; try done. injection Hb as ->. by eexists.
Qed.
Lemma verify_manifest_sound root digest h h' : tree_ok (h_nodes h) → is_dir_at (h_nodes h) root = true → verify_manifest root digest h = (Ok tt, h') →
  ∃ bytes manifest, is_rootfs (h_nodes h) root digest bytes manifest.
Proof.
  intros Ht Hdir Hr. unfold verify_manifest in Hr.
  apply run_bind in Hr as (n & h1 & [Hl E1]%ask_ok & (u1 & h2 & [Hf ->]%ensureM_ok & (bytes & h3 & [Hb E3]%ask_ok & Hr)%run_bind)%run_bind).
  apply run_bind in Hr as (u2 & h4 & [Hh ->]%ensureM_ok & (manifest & h5 & [Hm ->]%lift_ok & (u3 & h6 & [Hv ->]%ensureM_ok & Hr)%run_bind)%run_bind).
  apply run_bind in Hr as (declared & h7 & Hd & (collected & h8 & Hc & [Heq _]%ensureM_ok)%run_bind).
  apply bool_decide_eq_true in Heq, Hh. apply N.eqb_eq in Hv. subst collected. rewrite E1 in Hb.
  apply (declare_spec (h_nodes h)) in Hd as (E7 & Hd & Hnd & Hes); [| congruence].
  unfold collect_rootfs_files in Hc. apply run_bind in Hc as (fuel & h9 & [= <- <-] & Hc).
  apply (walk_spec _ (h_nodes h)) in Hc as [_ Hs Hco]; [| done | done | done].
  assert (∀ rel, rel ∈ path_names ∘ mf_path <$> rm_files manifest → rel ≠ [ROOTFS_MANIFEST] ∧ ∃ mode bytes, h_nodes h !! (root ++ rel) = Some (NFile mode bytes)) as Hin.
  { intros rel Hrel%Hd. by destruct (Hs rel Hrel) as [?%elem_of_empty | ?]. }
  exists bytes, manifest. split; try done.
  - by apply (manifest_file_real _ root n bytes).
  - destruct (manifest_from_slice bytes); cbn in Hm; by simplify_eq.
  - intros q nd Hq Hn. destruct (Hco q nd Hq Hn) as [? | [? _]]; auto.
  - apply Forall_forall. intros e He. pose proof (proj1 (Forall_forall _ _) Hes e He) as [Hne (s & s' & Es & Hv')].
    destruct (Hin (path_names (mf_path e))) as (_ & mode & bs & Hl'); [by apply (list_elem_of_fmap_2 (path_names ∘ mf_path)) |].
    exists mode, bs. split; [done |]. by apply (verify_file_spec (h_nodes h) root e s s').
  - intros rel. split; [apply Hin |]. intros (Hne & mode & bs & Hl'). apply Hd.
    assert (rel ≠ []) as Hr0.
    { intros ->. rewrite app_nil_r in Hl'. unfold is_dir_at in Hdir. rewrite Hl' in Hdir. case_bool_decide; [| done]. subst root. by destruct Ht as [Hnil _]; rewrite Hnil in Hl'. }
    destruct (Hco rel _ Hr0 Hl') as [? | (_ & rel' & ->%(app_inv_head root) & [? | ?])]; done.
Qed.

(** *** Verification ends *)

Lemma bind_safe {S E A B} (m : M S E A) (f : A → M S E B) s :
  (m s).1 ≠ Panic → (∀ a s', m s = (Ok a, s') → (f a s').1 ≠ Panic) → ((m ≫= f) s).1 ≠ Panic.
Proof. intros Hm Hf. unfold mbind, M_bind. destruct (m s) as [[a | e |] s']; cbn in *; [by apply Hf | done | done]. Qed.
Lemma resolve_no_panic links ns cur todo : resolve links ns cur todo ≠ Panic.
Proof.
  revert cur todo. induction links as [| links IH]; intros cur todo; revert cur; induction todo as [| c todo IHt]; intros cur; try done;
    destruct c; cbn; try apply IHt; destruct (ns !! _) as [[] |]; try done; try apply IHt; try apply IH; by case_bool_decide.
Qed.
Lemma lstat_no_panic ns dir names : lstat ns dir names ≠ Panic.
Proof. unfold lstat. apply bind_not_panic; [apply resolve_no_panic |]. intros p. destruct (is_dir_at ns p); [| done]. by destruct (ns !! _). Qed.
Lemma read_at_no_panic ns p : read_at ns p ≠ Panic.
Proof. unfold read_at. by destruct (ns !! p) as [[] |]. Qed.
Lemma node_at_no_panic ns p : node_at ns p ≠ Panic.
Proof. unfold node_at. by destruct (ns !! p). Qed.
Lemma read_dir_no_panic ns p : read_dir ns p ≠ Panic.
Proof. unfold read_dir. destruct (is_dir_at ns p); [done | by case_bool_decide]. Qed.
Lemma ensureM_no_panic {S E} c (e : E) (s : S) : (ensureM c e s).1 ≠ Panic.
Proof. by destruct c. Qed.
Lemma depth_bound ns p n : ns !! p = Some n → (length p < depth ns)%nat.
Proof.
  intros Hp. unfold depth. apply Nat.lt_succ_r, max_list_elem_of_le, (list_elem_of_fmap_2 length), (list_elem_of_fmap_2 fst _ (p, n)). by apply elem_of_map_to_list.
Qed.
Lemma walk_total fuel ns root dir files h : h_nodes h = ns → (1 ≤ fuel)%nat → (depth ns ≤ fuel + length dir)%nat → (walk fuel root dir files h).1 ≠ Panic.
Proof.
  revert dir files h. induction fuel as [| fuel IH]; intros dir files h Hh Hf Hd; [lia |]. cbn [walk].
  apply bind_safe; [apply ask_no_panic, read_dir_no_panic |]. intros entries h1 [_ E1]%ask_ok.
  apply (foldM_no_panic (λ s, h_nodes s = ns)); [congruence |]. intros name fs s _ Es. split.
  2: { pose proof (walk_entry_looks (walk fuel root) root dir fs name (walk_looks fuel root) s) as Hw. unfold same_nodes in Hw. congruence. }
  unfold walk_entry. apply bind_safe; [by apply ask_no_panic |]. intros u s1 [_ Es1]%ask_ok. apply bind_safe; [apply ask_no_panic, node_at_no_panic |].
  intros n s2 [Hn Es2]%ask_ok. rewrite Es1, Es in Hn. unfold node_at in Hn. destruct (ns !! (dir ++ [name])) as [n' |] eqn:En; [| done]. apply depth_bound in En.
  rewrite length_app in En. cbn in En. destruct n; [| | done | done].
  - destruct (negb _); [done | by case_bool_decide].
  - apply IH; [congruence | lia |]. rewrite length_app. cbn. lia.
Qed.
Lemma verify_total root d h : (verify_manifest root d h).1 ≠ Panic.
Proof.
  unfold verify_manifest. apply bind_safe; [apply ask_no_panic, lstat_no_panic |]. intros n h1 _. apply bind_safe; [apply ensureM_no_panic |]. intros _ h2 _.
  apply bind_safe; [apply ask_no_panic, bind_not_panic; [apply resolve_no_panic | intros; apply read_at_no_panic] |]. intros bytes h3 _.
  apply bind_safe; [apply ensureM_no_panic |]. intros _ h4 _. apply bind_safe.
  { cbn. pose proof (from_slice_total bytes). by destruct (manifest_from_slice bytes). }
  intros m h5 _. apply bind_safe; [apply ensureM_no_panic |]. intros _ h6 _. apply bind_safe.
  { apply (foldM_no_panic (λ _, True)); [done |]. intros e fs s _ _. split; [| done]. unfold declare_file, verify_manifest_file.
    apply bind_safe; [cbn; unfold validate_relative_path; by destruct (_ || _) |]. intros _ s1 _. apply bind_safe; [apply ensureM_no_panic |]. intros _ s2 _.
    apply bind_safe; [| done]. apply bind_safe; [apply ask_no_panic, lstat_no_panic |]. intros md s3 _.
    do 2 (apply bind_safe; [apply ensureM_no_panic |]; intros ? ? _). apply bind_safe; [apply ask_no_panic, resolve_no_panic |]. intros c s4 _.
    do 2 (apply bind_safe; [apply ensureM_no_panic |]; intros ? ? _). apply bind_safe; [apply ask_no_panic, read_at_no_panic |]. intros bs s5 _. apply ensureM_no_panic. }
  intros dc h7 _. apply bind_safe; [| intros; apply ensureM_no_panic]. unfold collect_rootfs_files. apply bind_safe; [done |]. intros fuel h8 [= <- <-].
  apply (walk_total _ (h_nodes h7)); [done | unfold depth; lia | lia].
Qed.

(** *** A digest names a root *)

Definition content (ns : gmap hpath node) (root rel : hpath) : option (N * list byte) :=
  match ns !! (root ++ rel) with Some (NFile mode bytes) => Some (N.land mode 4095, bytes) | _ => None end.
Lemma content_some ns root rel x : content ns root rel = Some x → ∃ mode bytes, ns !! (root ++ rel) = Some (NFile mode bytes) ∧ x = (N.land mode 4095, bytes).
Proof. unfold content. destruct (ns !! (root ++ rel)) as [[] |]; naive_solver. Qed.
Lemma rootfs_contents ns ns' root root' d d' bytes manifest : 
  is_rootfs ns root d bytes manifest → is_rootfs ns' root' d' bytes manifest →
  (∀ rel, rel ≠ [ROOTFS_MANIFEST] → content ns root rel = content ns' root' rel)
  ∨ ∃ rel mode mode' b b', ns !! (root ++ rel) = Some (NFile mode b) ∧ ns' !! (root' ++ rel) = Some (NFile mode' b') ∧ collision blake3 b b'.
Proof.
  intros R R'. destruct (decide (Forall (λ e, content ns root (path_names (mf_path e)) = content ns' root' (path_names (mf_path e))) (rm_files manifest))) as [Hall | Hex].
  - left. intros rel Hne.
    assert (∀ x, content ns root rel = Some x ∨ content ns' root' rel = Some x → content ns root rel = content ns' root' rel) as Hin.
    { intros x Hx. assert (rel ∈ path_names ∘ mf_path <$> rm_files manifest) as (e & -> & He)%list_elem_of_fmap.
      - destruct Hx as [(m & b & Hl & _)%content_some | (m & b & Hl & _)%content_some]; [apply (ir_files _ _ _ _ _ R) | apply (ir_files _ _ _ _ _ R')]; eauto.
      - by apply (proj1 (Forall_forall _ _) Hall e). }
    destruct (content ns root rel) as [x |] eqn:E1, (content ns' root' rel) as [y |] eqn:E2; [apply (Hin x); auto | by rewrite <- (Hin x); auto | by rewrite (Hin y); auto | done].
  - right. apply not_Forall_Exists in Hex; [| apply _]. apply Exists_exists in Hex as (e & He & Hne).
    pose proof (proj1 (Forall_forall _ _) (ir_held _ _ _ _ _ R) e He) as (m & b & Hl & Hm & Hb).
    pose proof (proj1 (Forall_forall _ _) (ir_held _ _ _ _ _ R') e He) as (m' & b' & Hl' & Hm' & Hb').
    exists (path_names (mf_path e)), m, m', b, b'. split_and!; [done | done |]. split.
    + intros ->. apply Hne. unfold content. rewrite Hl, Hl', Hm, Hm'. done.
    + rewrite <- Hb' in Hb. by apply as_bytes_inj, hex_bytes_inj.
Qed.

(** Two roots of one digest. *)
Lemma same_digest_contents ns ns' root root' d bytes manifest bytes' manifest' :
  is_rootfs ns root d bytes manifest → is_rootfs ns' root' d bytes' manifest' →
  (∀ rel, rel ≠ [ROOTFS_MANIFEST] → content ns root rel = content ns' root' rel)
  ∨ ∃ rel mode mode' b b', ns !! (root ++ rel) = Some (NFile mode b) ∧ ns' !! (root' ++ rel) = Some (NFile mode' b') ∧ collision blake3 b b'.
Proof.
  intros R R'. assert (blake3 bytes = blake3 bytes') as Hb.
  { pose proof (ir_digest _ _ _ _ _ R) as D. rewrite <- (ir_digest _ _ _ _ _ R') in D. by apply as_bytes_inj, hex_bytes_inj. }
  destruct (eq_or_collision _ _ _ Hb) as [<- | Hc].
  - assert (manifest' = manifest) as ->. { pose proof (ir_parses _ _ _ _ _ R) as P. rewrite (ir_parses _ _ _ _ _ R') in P. by injection P. }
    by eapply rootfs_contents.
  - right. destruct (ir_manifest _ _ _ _ _ R) as [mode Hm], (ir_manifest _ _ _ _ _ R') as [mode' Hm']. by exists [ROOTFS_MANIFEST], mode, mode', bytes, bytes'.
Qed.
End verified.
