(* ===== verification/RootfsCopy.v ===== *)
(** * The private copy of a root

    What [materialize_ephemeral_rootfs] of [Rootfs] leaves, however it ends: nothing outside
    its destination is touched, and on success the copy is the verified root.  Then what a
    digest says of a root, and what a compiled plan says of its request. *)

From S2P Require Import Prelude Substrate Text Limits Authorization Ordered Confinement Sandbox StateM Rootfs.
From stdpp Require Import pretty.
From Stdlib Require Import NArith Lia Ascii.

(** The host stays a tree, its directories stay directories, and everything outside
    [dest] is kept. *)
Record moves (dest : hpath) (h h' : host) : Prop := {
  mv_tree : tree_ok (h_nodes h) → tree_ok (h_nodes h');
  mv_dirs p : is_dir_at (h_nodes h) p = true → is_dir_at (h_nodes h') p = true;
  mv_outside p : ¬ dest `prefix_of` p → h_nodes h' !! p = h_nodes h !! p;
}.
#[global] Instance moves_preorder dest : PreOrder (moves dest).
Proof.
  split; [by intros h |]. intros h1 h2 h3 [T1 D1 S1] [T2 D2 S2]. split; [by auto | by auto |]. intros p Hp. by rewrite S2, S1.
Qed.
Lemma same_moves dest {E A} (m : M host E A) : StateM.within same_nodes m → StateM.within (moves dest) m.
Proof. intros Hm h. specialize (Hm h). unfold same_nodes in Hm. split; rewrite Hm; done. Qed.

Section copy.
Context `{Blake3, Os, RootfsJson}.

Lemma sys_moves dest {A} (action : string) (f : host → result errno A * host) :
  (∀ h, moves dest h (f h).2) → StateM.within (moves dest) (sys action f).
Proof.
  intros Hf h. unfold sys. assert (moves dest h (tick h)) as Ht by done. destruct (os_fails (h_calls h)); [done |].
  specialize (Hf (tick h)). destruct (f (tick h)) as [r h1]. cbn in *. by etrans.
Qed.
Lemma is_dir_insert ns p n q : (∀ m, ns !! p = Some (NDir m) → is_directory n = true) → is_dir_at ns q = true → is_dir_at (<[p := n]> ns) q = true.
Proof.
  intros Hp Hq. unfold is_dir_at in *. destruct (bool_decide (q = [])); [done |]. cbn in *. destruct (decide (p = q)) as [-> | Hne].
  - rewrite lookup_insert. destruct (ns !! q) as [[] |] eqn:E; try done. specialize (Hp _ eq_refl). rewrite decide_True by done. by destruct n.
  - by rewrite lookup_insert_ne.
Qed.
(** Putting a node where a directory holds it, a directory only for a directory. *)
Lemma set_node_moves dest p n h : dest `prefix_of` p → p ≠ [] → is_dir_at (h_nodes h) (removelast p) = true →
  (∀ m, h_nodes h !! p = Some (NDir m) → is_directory n = true) → moves dest h (set_node p n h).
Proof.
  intros Hd Hne Hpar Hk. split; [| intros q; by apply is_dir_insert |].
  - intros [T1 T2]. split; cbn; [by rewrite lookup_insert_ne |]. intros q name n' Hl. apply is_dir_insert; [done |].
    destruct (decide (p = q ++ [name])) as [-> | Hnq]; [by rewrite removelast_last in Hpar |]. rewrite lookup_insert_ne in Hl by done. by eapply T2.
  - intros q Hq. cbn. rewrite lookup_insert_ne; [done |]. by intros ->.
Qed.
(** Changing an entry that is there keeps its kind. *)
Lemma change_node_moves dest p n n' h : dest `prefix_of` p → h_nodes h !! p = Some n → is_directory n = is_directory n' → moves dest h (set_node p n' h).
Proof.
  intros Hd Hl Hk. split; [| intros q; apply is_dir_insert; intros m Hm; rewrite Hm in Hl; by injection Hl as <- |].
  - intros Ht. pose proof Ht as [T1 T2]. assert (p ≠ []) as Hne by (intros ->; congruence). split; cbn; [by rewrite lookup_insert_ne |].
    intros q name n1 Hq. apply is_dir_insert; [intros m Hm; rewrite Hm in Hl; by injection Hl as <- |].
    destruct (decide (p = q ++ [name])) as [-> | Hnq]; [by eapply T2 |]. rewrite lookup_insert_ne in Hq by done. by eapply T2.
  - intros q Hq. cbn. rewrite lookup_insert_ne; [done |]. by intros ->.
Qed.
Lemma make_node_moves dest action p n : dest `prefix_of` p → StateM.within (moves dest) (make_node action p n).
Proof.
  intros Hd. apply sys_moves. intros h. destruct (is_dir_at (h_nodes h) (removelast p)) eqn:E; cbn [negb]; [| done].
  case_bool_decide as Hx; [done |]. apply set_node_moves; [done | naive_solver | done |]. intros m Hm. exfalso. apply Hx. right. eauto.
Qed.
Lemma put_bytes_moves dest p bytes h : dest `prefix_of` p → moves dest h (put_bytes p bytes h).
Proof. intros Hd. unfold put_bytes. destruct (h_nodes h !! p) as [[] |] eqn:E; try done. by eapply change_node_moves. Qed.
Lemma copy_bytes_moves dest action p bytes : dest `prefix_of` p → StateM.within (moves dest) (copy_bytes action p bytes).
Proof. intros Hd h. unfold copy_bytes. destruct (os_fails (h_calls h)); cbn; (etrans; [| by apply put_bytes_moves]); done. Qed.
Lemma set_permissions_moves dest action p mode : dest `prefix_of` p → StateM.within (moves dest) (set_permissions action p mode).
Proof. intros Hd. apply sys_moves. intros h. destruct (h_nodes h !! p) as [[] |] eqn:E; try done; by eapply change_node_moves. Qed.
Lemma same_entry_looks : StateM.within same_nodes ensure_same_entry.
Proof. unfold ensure_same_entry. within_tac. Qed.
Lemma copy_entry_moves dest copy source destination name : dest `prefix_of` destination →
  (∀ source destination, dest `prefix_of` destination → StateM.within (moves dest) (copy source destination)) →
  StateM.within (moves dest) (copy_entry copy source destination name).
Proof.
  intros Hd Hc. assert (dest `prefix_of` destination ++ [name]) as Hp by (by apply prefix_app_r). unfold copy_entry. cbv zeta.
  repeat first [ apply same_moves, same_entry_looks | apply same_moves, ask_looks | apply make_node_moves, Hp | apply copy_bytes_moves, Hp
               | apply set_permissions_moves, Hp | apply Hc, Hp | within_step ].
Qed.
Lemma copy_entries_moves dest fuel source destination : dest `prefix_of` destination → StateM.within (moves dest) (copy_directory_fd fuel source destination).
Proof.
  revert source destination. induction fuel as [| fuel IH]; intros source destination Hd; cbn [copy_directory_fd]; [eauto with within |].
  repeat first [ apply same_moves, ask_looks | apply copy_entry_moves; [exact Hd | exact IH] | within_step ].
Qed.
Lemma copy_contents_moves dest source destination : dest `prefix_of` destination → StateM.within (moves dest) (copy_directory_contents source destination).
Proof.
  intros Hd. unfold copy_directory_contents.
  repeat first [ apply same_moves, ask_looks | apply copy_entries_moves, Hd | apply set_permissions_moves, Hd | within_step ].
Qed.

(** ** Copying ends *)

Lemma sys_no_panic {A} (action : string) (f : host → result errno A * host) h : (∀ h, (f h).1 ≠ Panic) → (sys action f h).1 ≠ Panic.
Proof. intros Hf. unfold sys. destruct (os_fails (h_calls h)); [done |]. specialize (Hf (tick h)). destruct (f (tick h)) as [[] ?]; done. Qed.
Lemma make_node_no_panic action p n h : (make_node action p n h).1 ≠ Panic.
Proof. apply sys_no_panic. intros h'. destruct (negb _); [done | by case_bool_decide]. Qed.
Lemma copy_bytes_no_panic action p bytes h : (copy_bytes action p bytes h).1 ≠ Panic.
Proof. unfold copy_bytes. by destruct (os_fails (h_calls h)). Qed.
Lemma set_permissions_no_panic action p mode h : (set_permissions action p mode h).1 ≠ Panic.
Proof. apply sys_no_panic. intros h'. by destruct (h_nodes h' !! p) as [[] |]. Qed.
Lemma same_entry_no_panic h : (ensure_same_entry h).1 ≠ Panic.
Proof. unfold ensure_same_entry. apply bind_safe; [done |]. intros b s _. apply bind_safe; [by apply ask_no_panic |]. intros. apply ensureM_no_panic. Qed.

(** The source is as it was while the copy grows elsewhere. *)
Definition keeps (source : hpath) (ns : gmap hpath node) (h : host) : Prop := ∀ p, source `prefix_of` p → h_nodes h !! p = ns !! p.
Lemma moves_keeps source dest ns h h' : ¬ source `prefix_of` dest → ¬ dest `prefix_of` source → keeps source ns h → moves dest h h' → keeps source ns h'.
Proof.
  intros H1' H2' Hk [_ _ Hm] p Hp. rewrite Hm; [by apply Hk |]. intros Hd.
  destruct (prefix_weak_total source dest p Hp Hd); done.
Qed.
Lemma within_run {S E A} (R : relation S) (m : M S E A) s r s' : StateM.within R m → m s = (r, s') → R s s'.
Proof. intros Hw Hr. specialize (Hw s). by rewrite Hr in Hw. Qed.
Lemma step_keeps source dest ns {A} (m : HM A) r s s' : ¬ source `prefix_of` dest → ¬ dest `prefix_of` source →
  StateM.within (moves dest) m → m s = (r, s') → keeps source ns s → keeps source ns s'.
Proof. intros ?? Hw Hr Hk. eapply moves_keeps; [done | done | done |]. by eapply within_run. Qed.
Lemma copy_entry_total sr dest ns copy source destination name s :
  ¬ sr `prefix_of` dest → ¬ dest `prefix_of` sr → sr `prefix_of` source → dest `prefix_of` destination → keeps sr ns s →
  (∀ s, keeps sr ns s → is_Some (ns !! (source ++ [name])) → (copy (source ++ [name]) (destination ++ [name]) s).1 ≠ Panic) →
  (copy_entry copy source destination name s).1 ≠ Panic.
Proof.
  intros Hd1 Hd2 Hs Hd Hks Hcopy. assert (dest `prefix_of` destination ++ [name]) as Hp by (by apply prefix_app_r).
  assert (sr `prefix_of` source ++ [name]) as Hps by (by apply prefix_app_r). unfold copy_entry. cbv zeta.
  apply bind_safe; [apply ask_no_panic, node_at_no_panic |]. intros before s1 [_ F1]%ask_ok.
  do 2 (apply bind_safe; [apply ensureM_no_panic |]; intros ? ? [_ ->]%ensureM_ok).
  apply bind_safe; [apply ask_no_panic, node_at_no_panic |]. intros opened s2 [Ho F2]%ask_ok. rewrite F1 in Ho. unfold node_at in Ho. rewrite Hks in Ho by done.
  destruct (ns !! (source ++ [name])) as [n |] eqn:En; [| done].
  assert (keeps sr ns s2) as Hk2 by (intros p Hp'; rewrite F2, F1; by apply Hks).
  apply bind_safe; [apply same_entry_no_panic |]. intros [] s3 E3. apply (step_keeps sr dest ns) in E3; [| done | done | apply same_moves, same_entry_looks | done].
  assert (∀ mode, ((_ ← create_dir "create ephemeral rootfs directory" (destination ++ [name]); _ ← copy (source ++ [name]) (destination ++ [name]);
      set_permissions "preserve ephemeral rootfs directory permissions" (destination ++ [name]) mode) s3).1 ≠ Panic) as Hdir.
  { intros mode. apply bind_safe; [apply make_node_no_panic |]. intros ? s4 E4. apply (step_keeps sr dest ns) in E4; [| done | done | by apply make_node_moves | done].
    apply bind_safe; [by apply Hcopy | intros; apply set_permissions_no_panic]. }
  destruct opened; try apply Hdir. apply bind_safe; [apply make_node_no_panic |]. intros ? s4 _. apply bind_safe; [apply copy_bytes_no_panic |].
  intros; apply set_permissions_no_panic.
Qed.
Lemma copy_total sr dest ns fuel source destination h : ¬ sr `prefix_of` dest → ¬ dest `prefix_of` sr → sr `prefix_of` source → dest `prefix_of` destination →
  keeps sr ns h → (1 ≤ fuel)%nat → (depth ns ≤ fuel + length source)%nat → (copy_directory_fd fuel source destination h).1 ≠ Panic.
Proof.
  intros Hd1 Hd2. revert source destination h. induction fuel as [| fuel IH]; intros source destination h Hs Hd Hk Hf Hlen; [lia |]. cbn [copy_directory_fd].
  apply bind_safe; [apply ask_no_panic, read_dir_no_panic |]. intros entries h1 [_ E1]%ask_ok. apply bind_safe; [by apply ask_no_panic |]. intros _ h2 [_ E2]%ask_ok.
  apply (foldM_no_panic (keeps sr ns)); [intros p Hp'; rewrite E2, E1; by apply Hk |]. intros name u s _ Hks. split.
  - apply (copy_entry_total sr dest ns); [done.. |]. intros s' Hks' [n En]. apply depth_bound in En. rewrite length_app in En. cbn in En.
    apply IH; [by apply prefix_app_r | by apply prefix_app_r | done | lia | rewrite length_app; cbn; lia].
  - eapply (step_keeps sr dest ns); [done | done | apply copy_entry_moves; [exact Hd | apply copy_entries_moves] | apply surjective_pairing | done].
Qed.

(** ** What materialization leaves *)

(** From the point where the destination is known and empty. *)
Definition build (digest : DigestRef) (source_path destination : hpath) : HM ResolvedRootfs :=
  _ ← set_permissions "make ephemeral run directory private" destination 448;
  let guest_root := destination ++ ["rootfs"%string] in
  _ ← create_dir "create ephemeral guest rootfs" guest_root;
  _ ← set_permissions "make rootfs private during materialization" guest_root 448;
  _ ← copy_directory_contents source_path guest_root;
  let materialized := {| rr_digest := digest; rr_canonical_path := guest_root |} in
  _ ← verify_ephemeral_rootfs materialized;
  mret materialized.
Lemma build_moves digest source dest : StateM.within (moves dest) (build digest source dest).
Proof.
  assert (dest `prefix_of` dest ++ ["rootfs"%string]) as Hp by (by apply prefix_app_r). unfold build, verify_ephemeral_rootfs. cbv zeta.
  repeat first [ apply set_permissions_moves; first [done | exact Hp] | apply make_node_moves, Hp | apply copy_contents_moves, Hp
               | apply same_moves, verify_looks | within_step ].
Qed.
Lemma build_total digest source dest h : ¬ source `prefix_of` dest → ¬ dest `prefix_of` source → (build digest source dest h).1 ≠ Panic.
Proof.
  intros Hd1 Hd2. assert (dest `prefix_of` dest ++ ["rootfs"%string]) as Hp by (by apply prefix_app_r). unfold build. cbv zeta.
  apply bind_safe; [apply set_permissions_no_panic |]. intros ? h1 _. apply bind_safe; [apply make_node_no_panic |]. intros ? h2 _.
  apply bind_safe; [apply set_permissions_no_panic |]. intros ? h3 _. apply bind_safe; [| intros; apply bind_safe; [apply verify_total | done]].
  unfold copy_directory_contents. apply bind_safe.
  { apply ask_no_panic. destruct (is_dir_at _ _); [apply node_at_no_panic | done]. }
  intros n h4 [_ E4]%ask_ok. apply bind_safe; [by apply ask_no_panic |]. intros ? h5 [_ E5]%ask_ok. apply bind_safe; [done |]. intros fuel h6 [= <- <-].
  apply bind_safe; [| intros; apply set_permissions_no_panic]. apply (copy_total source dest (h_nodes h5)); [done | done | done | done | done | unfold depth; lia | lia].
Qed.
Lemma build_verified digest source dest h m h' : tree_ok (h_nodes h) → build digest source dest h = (Ok m, h') →
  m = {| rr_digest := digest; rr_canonical_path := dest ++ ["rootfs"%string] |} ∧ is_dir_at (h_nodes h') (rr_canonical_path m) = true
  ∧ ∃ bytes manifest, is_rootfs (h_nodes h') (rr_canonical_path m) digest bytes manifest.
Proof.
  intros Ht Hb. assert (dest `prefix_of` dest ++ ["rootfs"%string]) as Hp by (by apply prefix_app_r). unfold build in Hb. cbv zeta in Hb.
  apply run_bind in Hb as (u1 & h1 & E1 & (u2 & h2 & E2 & (u3 & h3 & E3 & (u4 & h4 & E4 & ([] & h5 & E5 & [= <- <-])%run_bind)%run_bind)%run_bind)%run_bind).
  assert (is_dir_at (h_nodes h2) (dest ++ ["rootfs"%string]) = true) as Hd2.
  { unfold create_dir, make_node, sys in E2. destruct (os_fails (h_calls h1)); [done |]. destruct (negb _); [done |]. case_bool_decide; [done |].
    injection E2 as _ <-. unfold is_dir_at. cbn. rewrite lookup_insert, decide_True by done. by rewrite orb_true_r. }
  apply (within_run (moves dest)) in E1; [| by apply set_permissions_moves]. apply (within_run (moves dest)) in E2; [| by apply make_node_moves].
  apply (within_run (moves dest)) in E3; [| by apply set_permissions_moves]. apply (within_run (moves dest)) in E4; [| by apply copy_contents_moves].
  assert (h_nodes h5 = h_nodes h4) as E45 by (by apply (within_run same_nodes) in E5; [| apply verify_looks]).
  assert (is_dir_at (h_nodes h4) (dest ++ ["rootfs"%string]) = true) as Hd4 by (by apply (mv_dirs _ _ _ E4), (mv_dirs _ _ _ E3)).
  cbn [rr_canonical_path]. rewrite E45. split_and!; [done | done |]. apply (verify_manifest_sound _ _ h4 h5); [| done | exact E5].
  by apply (mv_tree _ _ _ E4), (mv_tree _ _ _ E3), (mv_tree _ _ _ E2), (mv_tree _ _ _ E1).
Qed.
(** Either it is refused with the host as it was, or it builds in an empty directory apart
    from the source. *)
Lemma look_step {A B} (m : HM A) (f : A → HM B) h (P : result ExecutionError B * host → Prop) :
  StateM.within same_nodes m → (m h).1 ≠ Panic →
  (∀ e h', h_nodes h' = h_nodes h → P (Err e, h')) → (∀ a h', m h = (Ok a, h') → h_nodes h' = h_nodes h → P (f a h')) → P ((m ≫= f) h).
Proof.
  intros Hw Hp He Hf. specialize (Hw h). unfold mbind, M_bind. destruct (m h) as [[a | e |] h'] eqn:Em; cbn in *; [by apply Hf | by apply He | done].
Qed.
Definition refused_or_built (source : ResolvedRootfs) (destination : string) (h : host) (out : result ExecutionError ResolvedRootfs * host) : Prop :=
  (∃ e h', out = (Err e, h') ∧ h_nodes h' = h_nodes h)
  ∨ ∃ sp dest h1, canonicalize_at (h_nodes h) (rr_canonical_path source) = Ok sp ∧ canonicalize_path (h_nodes h) destination = Ok dest
      ∧ ¬ sp `prefix_of` dest ∧ ¬ dest `prefix_of` sp ∧ is_dir_at (h_nodes h) dest = true ∧ children (h_nodes h) dest = []
      ∧ h_nodes h1 = h_nodes h ∧ out = build (rr_digest source) sp dest h1.
Lemma materialize_cases source destination h : refused_or_built source destination h (materialize_ephemeral_rootfs source destination h).
Proof.
  assert (∀ e h', h_nodes h' = h_nodes h → refused_or_built source destination h (Err e, h')) as Hno by (intros e h' E; left; eauto).
  unfold materialize_ephemeral_rootfs.
  apply look_step; [apply ask_looks | apply ask_no_panic, resolve_no_panic | done |]. intros sp h1 [Hsp E1]%ask_ok _.
  apply look_step; [apply ask_looks | apply ask_no_panic; unfold canonicalize_path; case_bool_decide; [done | apply resolve_no_panic] | intros; apply Hno; congruence |].
  intros dest h2 [Hdest E2]%ask_ok _. apply look_step; [apply query_looks | done | intros; apply Hno; congruence |]. intros sd h3 [= Hsd <-] _.
  apply look_step; [destruct sd; [apply query_looks | apply within_ret, _] | by destruct sd | intros; apply Hno; cbn in *; congruence |]. intros dd h4 Hdd E4.
  apply look_step; [apply within_ensure, _ | apply ensureM_no_panic | intros; apply Hno; cbn in *; congruence |]. intros [] h5 [Hdd1 ->]%ensureM_ok _.
  apply look_step; [apply within_ensure, _ | apply ensureM_no_panic | intros; apply Hno; cbn in *; congruence |]. intros [] h6 [Hov ->]%ensureM_ok _.
  apply look_step; [apply ask_looks | apply ask_no_panic, read_dir_no_panic | intros; apply Hno; cbn in *; congruence |]. intros names h7 [Hn E7]%ask_ok _.
  apply look_step; [apply has_entry_looks | done | intros; apply Hno; cbn in *; congruence |]. intros full h8 [= Hfull <-] _.
  apply look_step; [apply within_ensure, _ | apply ensureM_no_panic | intros; apply Hno; cbn in *; congruence |]. intros [] h9 [Hf ->]%ensureM_ok _.
  cbn in E4. assert (h_nodes h4 = h_nodes h) as E4' by congruence. rewrite E1 in Hdest. rewrite E4' in Hn. subst dd.
  apply negb_true_iff, orb_false_iff in Hov as [Ho1%bool_decide_eq_false Ho2%bool_decide_eq_false].
  right. exists sp, dest, (tick h7). unfold read_dir in Hn. destruct (is_dir_at (h_nodes h) dest) eqn:Ed; [| by destruct (bool_decide (h_nodes h !! dest = None))]. injection Hn as <-.
  split_and!; try done; [| cbn; congruence].
  destruct (os_fails (h_calls h7)); subst full; [done |]. apply negb_true_iff, negb_false_iff, bool_decide_eq_true in Hf.
  apply Permutation_nil_r. rewrite <- Hf. symmetry. apply os_order_perm.
Qed.

(** C24: The private copy is the verified root.  Materialization always ends; however it
    ends, the host stays a tree and nothing outside the resolved destination is touched,
    the source among it; on success the copy is a directory in a destination that was
    empty, it is exactly the root of the digest that was asked for, and so it holds what
    any other verified root of that digest holds. *)
Theorem materialized_root_is_verified source destination h :
  tree_ok (h_nodes h) →
  let '(r, h') := materialize_ephemeral_rootfs source destination h in
  r ≠ Panic ∧ tree_ok (h_nodes h')
  ∧ (∀ p, h_nodes h' !! p ≠ h_nodes h !! p → ∃ dest sp, canonicalize_path (h_nodes h) destination = Ok dest ∧ dest `prefix_of` p
       ∧ canonicalize_at (h_nodes h) (rr_canonical_path source) = Ok sp ∧ ¬ sp `prefix_of` p)
  ∧ ∀ m, r = Ok m → ∃ dest, canonicalize_path (h_nodes h) destination = Ok dest ∧ children (h_nodes h) dest = []
       ∧ m = {| rr_digest := rr_digest source; rr_canonical_path := dest ++ ["rootfs"%string] |}
       ∧ is_dir_at (h_nodes h') (rr_canonical_path m) = true
       ∧ ∃ bytes manifest, is_rootfs (h_nodes h') (rr_canonical_path m) (rr_digest source) bytes manifest.
Proof.
  intros Ht. destruct (materialize_cases source destination h) as [(e & h' & -> & E) | (sp & dest & h1 & Hsp & Hde & Ho1 & Ho2 & Hdir & Hch & E1 & ->)].
  - split_and!; [done | by rewrite E | by intros p; rewrite E | done].
  - pose proof (build_moves (rr_digest source) sp dest h1) as Hm. pose proof (build_total (rr_digest source) sp dest h1 Ho1 Ho2) as Hp.
    destruct (build (rr_digest source) sp dest h1) as [r h'] eqn:Eb. cbn in Hm, Hp. split_and!; [done | by apply (mv_tree _ _ _ Hm); rewrite E1 | |].
    + intros p Hne. assert (dest `prefix_of` p) as Hd.
      { destruct (decide (dest `prefix_of` p)) as [? | Hn]; [done |]. exfalso. apply Hne. by rewrite (mv_outside _ _ _ Hm p Hn), E1. }
      exists dest, sp. split_and!; [done | done | done |]. intros Hs. destruct (prefix_weak_total sp dest p Hs Hd); done.
    + intros m ->. apply build_verified in Eb as (-> & Hd & Hr); [| by rewrite E1]. by exists dest.
Qed.
End copy.

Section digest.
Context `{Blake3, Os, RootfsJson}.

(** C25: The digest a run names is its root file system.  Verification always ends and
    changes nothing; a root it accepts holds only plain directories and regular files, and
    its files are exactly those of the manifest with that digest, with their permissions
    and content.  So two roots accepted under one digest, wherever they are, hold the same
    files, unless the manifests or two files of the same path are an explicit collision of
    the hash. *)
Theorem digest_names_rootfs h h' root root' d :
  tree_ok (h_nodes h) → tree_ok (h_nodes h') → is_dir_at (h_nodes h) root = true → is_dir_at (h_nodes h') root' = true →
  (verify_manifest root d h).1 ≠ Panic ∧ h_nodes (verify_manifest root d h).2 = h_nodes h
  ∧ ((verify_manifest root d h).1 = Ok tt → ∃ bytes manifest, is_rootfs (h_nodes h) root d bytes manifest)
  ∧ ((verify_manifest root d h).1 = Ok tt → (verify_manifest root' d h').1 = Ok tt →
      (∀ rel, rel ≠ [ROOTFS_MANIFEST] → content (h_nodes h) root rel = content (h_nodes h') root' rel)
      ∨ ∃ rel mode mode' b b', h_nodes h !! (root ++ rel) = Some (NFile mode b) ∧ h_nodes h' !! (root' ++ rel) = Some (NFile mode' b') ∧ collision blake3 b b').
Proof.
  intros Ht Ht' Hd Hd'. split_and!; [apply verify_total | apply (verify_looks root d h) | |].
  - destruct (verify_manifest root d h) as [r h1] eqn:E. cbn. intros ->. by eapply verify_manifest_sound.
  - destruct (verify_manifest root d h) as [r h1] eqn:E, (verify_manifest root' d h') as [r' h1'] eqn:E'. cbn. intros -> ->.
    destruct (verify_manifest_sound _ _ _ _ Ht Hd E) as (bytes & manifest & R), (verify_manifest_sound _ _ _ _ Ht' Hd' E') as (bytes' & manifest' & R').
    by eapply same_digest_contents.
Qed.
End digest.

(** ** The plan's root and executable *)

(** Below a directory, where nothing is a link, resolution goes where the names say. *)
Lemma resolve_app links ns p q cur : (∀ p1 x p2, p = p1 ++ x :: p2 → is_dir_at ns (cur ++ p1 ++ [x]) = true) →
  resolve links ns cur (Normal <$> p ++ q) = resolve links ns (cur ++ p) (Normal <$> q).
Proof.
  revert cur. induction p as [| x p IH]; intros cur Hp; [by rewrite app_nil_r |].
  pose proof (Hp [] x p eq_refl) as Hx. unfold is_dir_at in Hx. rewrite bool_decide_eq_false_2 in Hx by (by destruct cur). cbn [app orb] in Hx.
  assert (resolve links ns cur (Normal <$> (x :: p) ++ q) = resolve links ns (cur ++ [x]) (Normal <$> p ++ q)) as ->.
  { destruct links; cbn; destruct (ns !! (cur ++ [x])) as [[] |]; done. }
  rewrite IH; [by rewrite <- app_assoc |]. intros p1 y p2 ->. rewrite <- app_assoc. apply (Hp (x :: p1) y p2). done.
Qed.
Lemma resolve_plain links ns q cur p : (∀ q n, q ≠ [] → ns !! (cur ++ q) = Some n → is_link n = false) →
  resolve links ns cur (Normal <$> q) = Ok p → p = cur ++ q.
Proof.
  revert cur. induction q as [| x q IH]; intros cur Hl.
  { destruct links; cbn; intros [= <-]; by rewrite app_nil_r. }
  assert (∀ n, ns !! (cur ++ [x]) = Some n → is_link n = false) as Hx by (intros n; by apply Hl).
  assert (resolve links ns (cur ++ [x]) (Normal <$> q) = Ok p → p = cur ++ x :: q) as Hgo.
  { intros Hr. rewrite (IH (cur ++ [x])); [by rewrite <- app_assoc | | done]. intros q' n Hq' Hn. rewrite <- app_assoc in Hn. by apply (Hl (x :: q') n). }
  destruct links; cbn; destruct (ns !! (cur ++ [x])) as [[] |] eqn:E; try done; try (by specialize (Hx _ eq_refl));
    case_bool_decide as Hq; try done; destruct q; try done; by intros [= <-].
Qed.
Lemma dir_prefixes ns root : tree_ok ns → is_dir_at ns root = true → ∀ p1 x p2, root = p1 ++ x :: p2 → is_dir_at ns (p1 ++ [x]) = true.
Proof.
  intros Ht Hd p1 x p2 ->. destruct p2 as [| y p2]; [done |]. unfold is_dir_at in Hd. rewrite bool_decide_eq_false_2 in Hd by (by destruct p1). cbn [orb] in Hd.
  destruct (ns !! (p1 ++ x :: y :: p2)) as [n |] eqn:E; [| done]. apply (tree_prefix ns (p1 ++ [x]) (y :: p2) n Ht); [done |]. by rewrite <- app_assoc.
Qed.
Lemma lstat_plain ns root names n : tree_ok ns → is_dir_at ns root = true → names ≠ [] →
  (∀ q n, q ≠ [] → ns !! (root ++ q) = Some n → is_link n = false) → lstat ns root names = Ok n → ns !! (root ++ names) = Some n.
Proof.
  intros Ht Hd Hne Hl Hs. destruct names as [| x names _] using rev_ind; [done |]. unfold lstat in Hs. rewrite removelast_last, last_snoc in Hs.
  apply bind_ok in Hs as (parent & Hp & Hs). rewrite resolve_app in Hp by (cbn [app]; by apply dir_prefixes). apply resolve_plain in Hp as ->; [| done].
  cbn [app] in Hs. destruct (is_dir_at ns (root ++ names)); [| done]. change (default EmptyString (Some x)) with x in Hs.
  rewrite <- app_assoc in Hs. by destruct (ns !! (root ++ names ++ [x])); simplify_eq/=.
Qed.

Section plan.
Context `{Blake3, Os, RootfsJson}.
Lemma resolve_rootfs_looks cas d : StateM.within same_nodes (resolve_rootfs cas d).
Proof. unfold resolve_rootfs. repeat first [apply verify_looks | within_step]. Qed.
Lemma resolve_rootfs_spec cas d h r h' : tree_ok (h_nodes h) → resolve_rootfs cas d h = (Ok r, h') →
  rr_digest r = d ∧ is_dir_at (h_nodes h) (rr_canonical_path r) = true ∧ ∃ bytes manifest, is_rootfs (h_nodes h) (rr_canonical_path r) d bytes manifest.
Proof.
  intros Ht Hr. unfold resolve_rootfs in Hr.
  apply run_bind in Hr as (u0 & h0 & [_ ->]%lift_ok & (cas' & h1 & [_ E1]%ask_ok & (root & h2 & [_ E2]%ask_ok & (dir & h3 & Hd & Hr)%run_bind)%run_bind)%run_bind).
  apply run_bind in Hr as (u1 & h4 & [Hdir ->]%ensureM_ok & ([] & h5 & Hv & [= <- <-])%run_bind).
  assert (h_nodes h3 = h_nodes h ∧ is_dir_at (h_nodes h) root = true) as [E3 Hroot].
  { case_bool_decide; [| injection Hd as <- <-; done]. unfold query in Hd. injection Hd as Hd <-. cbn. rewrite E2, E1 in *. split; [done |].
    destruct (os_fails (h_calls h2)); subst dir; done. }
  cbn. split_and!; [done | done |]. rewrite <- E3 in Ht, Hroot |- *. by apply (verify_manifest_sound root d h3 h5).
Qed.
Lemma compile_plan_spec cas request h cfg h' : tree_ok (h_nodes h) → compile_plan (resolve_rootfs cas) request h = (Ok cfg, h') →
  h_nodes h' = h_nodes h ∧ rr_digest (kc_rootfs cfg) = rootfs request
  ∧ (∃ bytes manifest, is_rootfs (h_nodes h) (rr_canonical_path (kc_rootfs cfg)) (rootfs request) bytes manifest)
  ∧ (∃ mode bytes, h_nodes h !! (rr_canonical_path (kc_rootfs cfg) ++ path_names (executable request)) = Some (NFile mode bytes))
  ∧ cfg = {| kc_run_id := run_id request; kc_rootfs := kc_rootfs cfg; kc_executable := executable request; kc_arguments := arguments request;
             kc_environment := environment_entry <$> in_key_order (public_environment request); kc_workdir := "/";
             kc_vcpus := or_unsized (hypervisor_vcpus (cpu (limits request))); kc_ram_mib := or_unsized (hypervisor_ram_mib (memory (limits request)));
             kc_wall_time_ms := wall_time_ms (limits request); kc_tsi_features := 0; kc_port_map := []; kc_vsock_unix_map := [] |}.
Proof.
  intros Ht Hr. unfold compile_plan in Hr. apply run_bind in Hr as ([] & h0 & [Hreq ->]%lift_ok & (r & h1 & Hres & Hr)%run_bind).
  destruct (resolve_rootfs_spec _ _ _ _ _ Ht Hres) as (Hdg & Hdir & bytes & manifest & Hroot).
  apply (within_run same_nodes) in Hres; [| apply resolve_rootfs_looks]. unfold same_nodes in Hres.
  apply run_bind in Hr as (n & h2 & [Hl E2]%ask_ok & (u1 & h3 & [Hnl ->]%ensureM_ok & (u2 & h4 & [Hf ->]%ensureM_ok & Hr)%run_bind)%run_bind).
  apply run_bind in Hr as (exe & h5 & [He ->]%lift_ok & (args & h6 & [Ha ->]%lift_ok & (env & h7 & [Hen ->]%lift_ok & [= <- <-])%run_bind)%run_bind).
  cbn [kc_rootfs]. rewrite Hres in Hl.
  assert (∀ A (text : A → string) field l out, c_strings text field l = Ok out → out = text <$> l) as Hcs.
  { intros A text field l out. unfold c_strings. assert (∀ acc, fold_result (λ acc x, entry ← c_string (text x) field; mret (acc ++ [entry])) acc l = Ok out → out = acc ++ (text <$> l)) as Hgo.
    - induction l as [| x l IH]; intros acc; cbn [fold_result fmap list_fmap]; [intros [= <-]; by rewrite app_nil_r |].
      intros (acc' & (e & He' & [= <-])%bind_ok & Hf')%bind_ok. apply IH in Hf' as ->. unfold c_string in He'.
      destruct (c_str (text x)) eqn:Ec; [| done]. rewrite (c_str_eq _ (mk_is_Some _ _ Ec)) in Ec. injection Ec as <-. injection He' as <-. by rewrite <- app_assoc.
    - intros Hx. by apply Hgo in Hx. }
  apply Hcs in Ha as ->, Hen as ->. rewrite list_fmap_id.
  assert (exe = executable request) as ->.
  { unfold c_string in He. destruct (c_str (executable request)) eqn:Ec; [| done]. rewrite (c_str_eq _ (mk_is_Some _ _ Ec)) in Ec. injection Ec as <-. by injection He as <-. }
  split_and!; [congruence | done | by exists bytes, manifest | | done].
  assert (h_nodes h !! (rr_canonical_path r ++ path_names (executable request)) = Some n) as ->; [| destruct n; try done; eauto].
  apply lstat_plain; [done | done | | | done].
  - unfold request_validate in Hreq. apply bind_ok in Hreq as (? & _ & (? & _ & (? & _ & (u & Hg & _)%bind_ok)%bind_ok)%bind_ok).
    unfold validate_guest_path in Hg. destruct (guest_path_ok (executable request)) eqn:Eg; [| done].
    destruct (guest_path_ok_spec (executable request)) as [_ Hn]. destruct (Hn Eg) as (names & Hne & _ & Hc). unfold path_names. rewrite Hc.
    destruct names as [| nm names']; [done |]. cbn. done.
  - intros q nd Hq Hn. destruct (ir_plain _ _ _ _ _ Hroot q nd Hq Hn); by destruct nd.
Qed.
End plan.

(** ** A small root *)

Module SmallRoot.
#[export] Existing Instance demo_hash.
Definition app : list byte := [x01; x02].
Definition manifest_bytes : list byte := bytes_of "{}".
Definition manifest : RootfsManifest :=
  {| rm_version := 1; rm_files := [{| mf_path := "bin/app"; mf_mode := 493; mf_blake3 := Hash_display (blake3 app) |}] |}.
Definition from_slice (bytes : list byte) : result string RootfsManifest :=
  if bool_decide (bytes = manifest_bytes) then Ok manifest else Err "not a manifest"%string.
#[export] Instance one_manifest : RootfsJson.
Proof. refine {| manifest_from_slice := from_slice |}. intros bytes. unfold from_slice. by case_bool_decide. Defined.
Definition system (fails : nat → option errno) : Os.
Proof.
  refine {| os_fails := fails; os_torn := λ _, 1%nat; os_replaced := λ _, false; os_order := λ l, l; os_cwd := []; os_dir_mode := 493; os_file_mode := 420;
            strerror := λ _, "error"%string |}. done.
Defined.
Definition digest : DigestRef := {| algorithm := "blake3-256"; value := Hash_display (blake3 manifest_bytes) |}.
Definition at_root (names : list string) : list string := "cas"%string :: value digest :: names.
Definition nodes : gmap (list string) node := list_to_map [
  (["cas"%string], NDir 493); (at_root [], NDir 493); (at_root [ROOTFS_MANIFEST], NFile 420 manifest_bytes);
  (at_root ["bin"%string], NDir 493); (at_root ["bin"; "app"]%string, NFile 493 app); (["run"%string], NDir 493)].
Definition start : host := {| h_nodes := nodes; h_calls := 0 |}.
Definition tree_okb (ns : gmap (list string) node) : bool :=
  bool_decide (ns !! [] = None) && forallb (λ x, is_dir_at ns (removelast x.1)) (map_to_list ns).
Lemma tree_okb_ok ns : tree_okb ns = true → tree_ok ns.
Proof.
  unfold tree_okb. intros [Hn%bool_decide_eq_true Hf]%andb_true_iff. split; [done |]. intros p name n Hl.
  rewrite forallb_forall in Hf. specialize (Hf (p ++ [name], n)). cbn in Hf. rewrite removelast_last in Hf. apply Hf, list_elem_of_In. by apply elem_of_map_to_list.
Qed.
Lemma start_tree : tree_ok (h_nodes start).
Proof. apply tree_okb_ok. vm_compute. reflexivity. Qed.
Definition source : ResolvedRootfs := {| rr_digest := digest; rr_canonical_path := at_root [] |}.
#[export] Existing Instance system.
End SmallRoot.
Import SmallRoot.

(** A root and its copy verify under one digest and hold the same program. *)
Lemma digest_names_rootfs_witness :
  let os := system (λ _, None) in
  let h' := (materialize_ephemeral_rootfs source "/run" start).2 in
  (verify_manifest (at_root []) digest start).1 = Ok tt ∧ (verify_manifest ["run"; "rootfs"]%string digest h').1 = Ok tt
  ∧ content (h_nodes h') ["run"; "rootfs"]%string ["bin"; "app"]%string = Some (493%N, app)
  ∧ ((∀ rel, rel ≠ [ROOTFS_MANIFEST] → content (h_nodes start) (at_root []) rel = content (h_nodes h') ["run"; "rootfs"]%string rel)
     ∨ ∃ rel mode mode' b b', h_nodes start !! (at_root [] ++ rel) = Some (NFile mode b) ∧ h_nodes h' !! (["run"; "rootfs"]%string ++ rel) = Some (NFile mode' b')
         ∧ collision blake3 b b').
Proof.
  intros os h'. assert ((verify_manifest (at_root []) digest start).1 = Ok tt) as V by (vm_compute; reflexivity).
  assert ((verify_manifest ["run"; "rootfs"]%string digest h').1 = Ok tt) as V' by (vm_compute; reflexivity).
  split; [exact V |]. split; [exact V' |]. split; [vm_compute; reflexivity |].
  refine (proj2 (proj2 (proj2 (digest_names_rootfs start h' (at_root []) ["run"; "rootfs"]%string digest _ _ _ _))) V V').
  - exact start_tree.
  - apply tree_okb_ok. vm_compute. reflexivity.
  - vm_compute. reflexivity.
  - vm_compute. reflexivity.
Defined.
(** With a call that fails on the way, and without one. *)
Lemma materialized_root_is_verified_witness :
  let out fails := @materialize_ephemeral_rootfs demo_hash (system fails) one_manifest source "/run" start in
  (out (λ n, if bool_decide (n = 22%nat) then Some EEXIST else None)).1 = Err (invalid "create ephemeral rootfs file: error")
  ∧ ∃ m h', out (λ _, None) = (Ok m, h') ∧ rr_canonical_path m = ["run"; "rootfs"]%string ∧ tree_ok (h_nodes h')
      ∧ ∃ bytes manifest, is_rootfs (h_nodes h') (rr_canonical_path m) digest bytes manifest.
Proof.
  intros out. split; [vm_compute; reflexivity |].
  assert (bool_decide ((out (λ _, None)).1 = Ok {| rr_digest := digest; rr_canonical_path := ["run"; "rootfs"]%string |}) = true) as Hr by (vm_compute; reflexivity).
  apply bool_decide_eq_true in Hr. pose proof (@materialized_root_is_verified demo_hash (system (λ _, None)) one_manifest source "/run" start start_tree) as Hm.
  fold (out (λ _, None)) in Hm. destruct (out (λ _, None)) as [r h'] eqn:E. cbn [fst] in Hr. subst r. destruct Hm as (_ & Ht & _ & Hm).
  eexists _, h'. split; [reflexivity |]. split; [reflexivity |]. split; [exact Ht |]. destruct (Hm _ eq_refl) as (dest & _ & _ & _ & _ & Hi). exact Hi.
Defined.
