(* ===== verification/Worker.v ===== *)
(** * The workers

    [rs/ll-open/runtime/src/backends/libkrun/worker.rs] and [backends/native.rs]: the process
    that checks, plans, materializes and confines one run, up to the guest.  The state is the
    host and the capabilities the process is confined by; the descriptors it holds and what
    the kernel says of them are the class [Descriptors].  The request arrives as a value: its
    JSON is read by [serde_json]. *)

From S2P Require Import Prelude Substrate Text Limits Service Envelope Authorization Ordered Confinement Sandbox StateM Rootfs RootfsCopy.
From stdpp Require Import pretty.
From Stdlib Require Import NArith ZArith Lia Ascii.
Local Open Scope N_scope.

(** ** Descriptors *)

Definition WORKSPACE_SHARE_FD_ARG : string := "--workspace-share-fd".
Definition WORKSPACE_TAG : string := "work".
Definition WORKSPACE_DIR : string := "/work".
Definition VIRTIOFS_MOUNTS_ENV : string := "KRUN_VIRTIOFS_MOUNTS".

(** What the kernel answers of this process's descriptors: the names [/dev/fd] lists,
    which numbers are open, and whether an open one is a socket. *)
Class Descriptors := {
  dev_fd : result string (list string);
  fd_open : Z → bool;
  fd_socket : Z → result string bool;
}.
(** [str::parse::<i32>] *)
Definition digit_value (c : ascii) : option Z :=
  let n := N_of_ascii c in if (48 <=? n) && (n <=? 57) then Some (Z.of_N n - 48)%Z else None.
Fixpoint parse_digits (acc : Z) (s : string) : option Z :=
  match s with
  | EmptyString => Some acc
  | String c s => match digit_value c with Some d => parse_digits (10 * acc + d)%Z s | None => None end
  end.
Definition in_i32 (z : Z) : option Z := if ((- 2 ^ 31 <=? z) && (z <? 2 ^ 31))%Z then Some z else None.
Definition parse_i32 (s : string) : option Z :=
  match s with
  | EmptyString => None
  | String c rest =>
      if bool_decide (c = "+"%char) then (if bool_decide (rest = EmptyString) then None else parse_digits 0 rest ≫= in_i32)
      else if bool_decide (c = "-"%char) then (if bool_decide (rest = EmptyString) then None else (Z.opp <$> parse_digits 0 rest) ≫= in_i32)
      else parse_digits 0 s ≫= in_i32
  end.
(** [OsStr::to_str] *)
Definition to_str (s : string) : option string := if from_utf8_ok (bytes_of s) then Some s else None.

Record InheritedDescriptor := { id_descriptor : Z; id_channel : WorkerChannel }.
#[global] Instance WorkerChannel_eq_dec' : EqDecision WorkerChannel.
Proof. solve_decision. Defined.
#[global] Instance InheritedDescriptor_eq_dec : EqDecision InheritedDescriptor.
Proof. solve_decision. Defined.

Definition refuse_reserved_environment (request : ExecutionRequest) : result ExecutionError unit :=
  ensure (negb (bool_decide (is_Some (public_environment request !! VIRTIOFS_MOUNTS_ENV))))
    (invalid ("publicEnvironment may not set " +:+ VIRTIOFS_MOUNTS_ENV +:+ ": the worker sets the guest's virtio-fs mounts")).

Section descriptors.
Context `{Fmt, Descriptors}.

Definition workspace_share (request : ExecutionRequest) (fd : option Z) : result ExecutionError (option Z) :=
  match workspaces request, fd with
  | [], None => mret None
  | [], Some _ => Err (invalid "the worker was handed a workspace share, and the run is granted no workspace")
  | [grant], None =>
      Err (invalid ("the run is granted workspace " +:+ debug_str (wg_name grant) +:+ ", and the worker was handed no share"))
  | [_], Some fd =>
      socket ← map_err (λ error, invalid ("workspace share descriptor " +:+ pretty fd +:+ " is not open: " +:+ error)) (fd_socket fd);
      _ ← ensure socket (invalid ("workspace share descriptor " +:+ pretty fd +:+ " is not a socket"));
      mret (Some fd)
  | grants, _ =>
      Err (unsupported ("the microVM tier attaches one workspace as " +:+ WORKSPACE_DIR +:+ "; the run is granted " +:+ pretty (len grants)))
  end.
Definition declared_descriptors (request : ExecutionRequest) (share_fd : option Z) : list InheritedDescriptor :=
  match workspaces request, share_fd with
  | [grant], Some descriptor =>
      [{| id_descriptor := descriptor; id_channel := WorkspaceShare (wg_name grant) (wg_graph_root grant) |}]
  | _, _ => []
  end.
Definition STANDARD_STREAMS : list Z := [0; 1; 2]%Z.
Definition undeclared_descriptors (held : list Z) (declared : list InheritedDescriptor) : list Z :=
  filter (λ fd, fd ∉ STANDARD_STREAMS ∧ fd ∉ (id_descriptor <$> declared)) held.
(** A [BTreeSet]: ascending, each once. *)
Definition held_descriptors : result ExecutionError (list Z) :=
  names ← map_err (λ error, backend_error ("list this worker's open descriptors in /dev/fd: " +:+ error)) dev_fd;
  mret (merge_sort Z.le (remove_dups (filter (λ fd, fd_open fd = true) (omap (λ name, to_str name ≫= parse_i32) names)))).
Definition refuse_undeclared_descriptors (declared : list InheritedDescriptor) : result ExecutionError unit :=
  held ← held_descriptors;
  let undeclared := undeclared_descriptors held declared in
  if bool_decide (undeclared = []) then mret tt
  else Err (identity_mismatch ("the worker holds undeclared inherited descriptor(s) [" +:+ join_comma (pretty <$> undeclared)
         +:+ "]: it declares its standard streams and [" +:+ join_comma ((λ d, pretty (id_descriptor d)) <$> declared) +:+ "], and starts with nothing else")).
End descriptors.

(** [child_descriptor_flags]: the flags the forked child sets; bit 0 is [CLOEXEC]. *)
Definition CLOEXEC : N := 1.
Definition child_descriptor_flags (flags : N) (keep : bool) : N := if keep then N.ldiff flags CLOEXEC else N.lor flags CLOEXEC.

(** ** Options and events *)

Record WorkerOptions := {
  wo_cas_root : string;
  wo_run_root : string;
  wo_runtime_files : list string;
  wo_devices : list string;
  wo_tsi_hijack_inet : bool;
  wo_workspace_share_fd : option Z;
}.
Inductive WorkerEvent :=
| Ready (run_id confinement_digest : string) (inherited : list InheritedDescriptor)
| Failed (error : ExecutionError).

Record parsed_options := {
  po_cas_root : option string; po_run_root : option string; po_runtime_files : list string; po_devices : list string;
  po_tsi_hijack_inet : bool; po_workspace_share_fd : option Z;
}.
Definition no_options : parsed_options :=
  {| po_cas_root := None; po_run_root := None; po_runtime_files := []; po_devices := []; po_tsi_hijack_inet := false; po_workspace_share_fd := None |}.
(** [to_string_lossy] *)
Definition lossy (s : string) : string := display s.
Definition parse_option (o : parsed_options) (argument value : string) : result ExecutionError parsed_options :=
  let unknown := Err (invalid ("unknown or duplicate worker option: " +:+ lossy argument)) in
  if bool_decide (argument = "--cas-root"%string) && bool_decide (po_cas_root o = None)
  then mret {| po_cas_root := Some value; po_run_root := po_run_root o; po_runtime_files := po_runtime_files o; po_devices := po_devices o;
               po_tsi_hijack_inet := po_tsi_hijack_inet o; po_workspace_share_fd := po_workspace_share_fd o |}
  else if bool_decide (argument = "--run-root"%string) && bool_decide (po_run_root o = None)
  then mret {| po_cas_root := po_cas_root o; po_run_root := Some value; po_runtime_files := po_runtime_files o; po_devices := po_devices o;
               po_tsi_hijack_inet := po_tsi_hijack_inet o; po_workspace_share_fd := po_workspace_share_fd o |}
  else if bool_decide (argument = "--runtime-file"%string)
  then mret {| po_cas_root := po_cas_root o; po_run_root := po_run_root o; po_runtime_files := po_runtime_files o ++ [value]; po_devices := po_devices o;
               po_tsi_hijack_inet := po_tsi_hijack_inet o; po_workspace_share_fd := po_workspace_share_fd o |}
  else if bool_decide (argument = "--device"%string)
  then mret {| po_cas_root := po_cas_root o; po_run_root := po_run_root o; po_runtime_files := po_runtime_files o; po_devices := po_devices o ++ [value];
               po_tsi_hijack_inet := po_tsi_hijack_inet o; po_workspace_share_fd := po_workspace_share_fd o |}
  else if bool_decide (argument = WORKSPACE_SHARE_FD_ARG) && bool_decide (po_workspace_share_fd o = None)
  then
    fd ← ok_or (fd ← to_str value ≫= parse_i32; if (0 <=? fd)%Z then Some fd else None)
           (invalid (WORKSPACE_SHARE_FD_ARG +:+ " " +:+ lossy value +:+ " is not a file descriptor number"));
    mret {| po_cas_root := po_cas_root o; po_run_root := po_run_root o; po_runtime_files := po_runtime_files o; po_devices := po_devices o;
            po_tsi_hijack_inet := po_tsi_hijack_inet o; po_workspace_share_fd := Some fd |}
  else unknown.
Fixpoint parse_arguments (o : parsed_options) (arguments : list string) : result ExecutionError parsed_options :=
  match arguments with
  | [] => mret o
  | argument :: rest =>
      if bool_decide (argument = "--tsi-hijack-inet"%string)
      then parse_arguments {| po_cas_root := po_cas_root o; po_run_root := po_run_root o; po_runtime_files := po_runtime_files o; po_devices := po_devices o;
                              po_tsi_hijack_inet := true; po_workspace_share_fd := po_workspace_share_fd o |} rest
      else
        match rest with
        | [] => Err (invalid ("worker option " +:+ lossy argument +:+ " requires a path"))
        | value :: rest => o ← parse_option o argument value; parse_arguments o rest
        end
  end.
Definition WorkerOptions_parse (arguments : list string) : result ExecutionError WorkerOptions :=
  o ← parse_arguments no_options arguments;
  cas_root ← ok_or (po_cas_root o) (invalid "missing --cas-root option");
  run_root ← ok_or (po_run_root o) (invalid "missing --run-root option");
  mret {| wo_cas_root := cas_root; wo_run_root := run_root; wo_runtime_files := po_runtime_files o; wo_devices := po_devices o;
          wo_tsi_hijack_inet := po_tsi_hijack_inet o; wo_workspace_share_fd := po_workspace_share_fd o |}.

(** ** The microVM worker *)

Definition with_environment (env : list string) (workdir exe : string) (c : KrunConfig) : KrunConfig :=
  {| kc_run_id := kc_run_id c; kc_rootfs := kc_rootfs c; kc_executable := exe; kc_arguments := kc_arguments c; kc_environment := env;
     kc_workdir := workdir; kc_vcpus := kc_vcpus c; kc_ram_mib := kc_ram_mib c; kc_wall_time_ms := kc_wall_time_ms c;
     kc_tsi_features := kc_tsi_features c; kc_port_map := kc_port_map c; kc_vsock_unix_map := kc_vsock_unix_map c |}.
Definition with_tsi (features : N) (c : KrunConfig) : KrunConfig :=
  {| kc_run_id := kc_run_id c; kc_rootfs := kc_rootfs c; kc_executable := kc_executable c; kc_arguments := kc_arguments c;
     kc_environment := kc_environment c; kc_workdir := kc_workdir c; kc_vcpus := kc_vcpus c; kc_ram_mib := kc_ram_mib c;
     kc_wall_time_ms := kc_wall_time_ms c; kc_tsi_features := features; kc_port_map := kc_port_map c; kc_vsock_unix_map := kc_vsock_unix_map c |}.
Definition with_rootfs (rootfs : ResolvedRootfs) (c : KrunConfig) : KrunConfig :=
  {| kc_run_id := kc_run_id c; kc_rootfs := rootfs; kc_executable := kc_executable c; kc_arguments := kc_arguments c;
     kc_environment := kc_environment c; kc_workdir := kc_workdir c; kc_vcpus := kc_vcpus c; kc_ram_mib := kc_ram_mib c;
     kc_wall_time_ms := kc_wall_time_ms c; kc_tsi_features := kc_tsi_features c; kc_port_map := kc_port_map c; kc_vsock_unix_map := kc_vsock_unix_map c |}.
Definition with_channels (port_map : list string) (vsock : list VsockUnixMapping) (c : KrunConfig) : KrunConfig :=
  {| kc_run_id := kc_run_id c; kc_rootfs := kc_rootfs c; kc_executable := kc_executable c; kc_arguments := kc_arguments c;
     kc_environment := kc_environment c; kc_workdir := kc_workdir c; kc_vcpus := kc_vcpus c; kc_ram_mib := kc_ram_mib c;
     kc_wall_time_ms := kc_wall_time_ms c; kc_tsi_features := kc_tsi_features c; kc_port_map := port_map; kc_vsock_unix_map := vsock |}.

Definition mount_entry : string := VIRTIOFS_MOUNTS_ENV +:+ "=" +:+ WORKSPACE_TAG +:+ ":" +:+ WORKSPACE_DIR.
Definition mount_workspace (config : KrunConfig) : KrunConfig :=
  with_environment (kc_environment config ++ [mount_entry]) WORKSPACE_DIR
    (if starts_with_char "/" (kc_executable config) then kc_executable config else "/" +:+ kc_executable config) config.

Record PreparedRun := {
  pr_config : KrunConfig;
  pr_share : option Z;
  pr_confinement_digest : string;
  pr_inherited : list InheritedDescriptor;
}.
Definition PreparedRun_ready (run : PreparedRun) : WorkerEvent := Ready (kc_run_id (pr_config run)) (pr_confinement_digest run) (pr_inherited run).
(** A canonical path as text. *)
Definition host_string (p : hpath) : string :=
  if bool_decide (p = []) then "/"%string else foldr (λ name rest, "/" +:+ name +:+ rest) EmptyString p.
(** [ExecutionError]'s [Display] *)
Definition code_debug (c : ErrorCode) : string :=
  match c with
  | InvalidSpec => "InvalidSpec" | InvalidGrant => "InvalidGrant" | Unauthenticated => "Unauthenticated" | Unauthorized => "Unauthorized"
  | IdentityPolicyMismatch => "IdentityPolicyMismatch" | UnsupportedBackend => "UnsupportedBackend" | NotProvisioned => "NotProvisioned"
  | ResourceConflict => "ResourceConflict" | ResourceExhausted => "ResourceExhausted" | BackendFailed => "BackendFailed"
  | Cancelled_ => "Cancelled" | Internal => "Internal"
  end.
Definition error_display (e : ExecutionError) : string := code_debug (code e) +:+ ": " +:+ detail e.

(** ** The native worker's options, events and commands *)

Record NativeOptions := { no_cas_root : string; no_run_root : string; no_runtime_files : list string }.
Record native_parsed := { np_cas_root : option string; np_run_root : option string; np_runtime_files : list string }.
Fixpoint native_arguments (o : native_parsed) (arguments : list string) : result ExecutionError native_parsed :=
  match arguments with
  | [] => mret o
  | [argument] => Err (invalid ("native worker option " +:+ lossy argument +:+ " requires a path"))
  | argument :: value :: rest =>
      if bool_decide (argument = "--cas-root"%string) && bool_decide (np_cas_root o = None)
      then native_arguments {| np_cas_root := Some value; np_run_root := np_run_root o; np_runtime_files := np_runtime_files o |} rest
      else if bool_decide (argument = "--run-root"%string) && bool_decide (np_run_root o = None)
      then native_arguments {| np_cas_root := np_cas_root o; np_run_root := Some value; np_runtime_files := np_runtime_files o |} rest
      else if bool_decide (argument = "--runtime-file"%string)
      then native_arguments {| np_cas_root := np_cas_root o; np_run_root := np_run_root o; np_runtime_files := np_runtime_files o ++ [value] |} rest
      else Err (invalid ("unknown or duplicate native worker option: " +:+ lossy argument))
  end.
Definition NativeOptions_parse (arguments : list string) : result ExecutionError NativeOptions :=
  o ← native_arguments {| np_cas_root := None; np_run_root := None; np_runtime_files := [] |} arguments;
  cas_root ← ok_or (np_cas_root o) (invalid "missing --cas-root option");
  run_root ← ok_or (np_run_root o) (invalid "missing --run-root option");
  mret {| no_cas_root := cas_root; no_run_root := run_root; no_runtime_files := np_runtime_files o |}.
Inductive NativeEvent := NReady (run_id confinement_digest : string) | NFailed (error : ExecutionError).
(** What is executed: [env_clear] and then the plan's entries. *)
Record Command := { cmd_program : string; cmd_arguments : list string; cmd_directory : string; cmd_environment : gmap string string }.
Record ExitStatus := { es_success : bool; es_display : string }.
Fixpoint split_environment_entry (bytes : string) : result ExecutionError (string * string) :=
  match bytes with
  | EmptyString => Err (invalid "native environment entry has no key/value separator")
  | String c rest =>
      if bool_decide (c = "="%char) then mret (EmptyString, rest)
      else '(key, value) ← split_environment_entry rest; mret (String c key, value)
  end.
Definition add_environment (env : gmap string string) (entry : string) : result ExecutionError (gmap string string) :=
  '(key, value) ← split_environment_entry entry; mret (<[key := value]> env).
Definition guest_exit_result (status : ExitStatus) : result ExecutionError unit :=
  if es_success status then mret tt else Err (backend_error ("native guest executable exited with " +:+ es_display status)).

Section worker.
Context `{Blake3, Fmt, JsonText, Os, RootfsJson, HostPaths, Nono, Descriptors} (target : Target).

(** The host, the set the process is confined by, the readiness it reported and the guest
    it started. *)
Record worker := { w_host : host; w_confined : option CapabilitySet; w_reported : option NativeEvent; w_spawned : option Command }.
Definition WM : Type → Type := M worker ExecutionError.
Definition set_host (h : host) (w : worker) : worker :=
  {| w_host := h; w_confined := w_confined w; w_reported := w_reported w; w_spawned := w_spawned w |}.
Definition confine (c : CapabilitySet) (w : worker) : worker :=
  {| w_host := w_host w; w_confined := Some c; w_reported := w_reported w; w_spawned := w_spawned w |}.
Definition report (e : NativeEvent) (w : worker) : worker :=
  {| w_host := w_host w; w_confined := w_confined w; w_reported := Some e; w_spawned := w_spawned w |}.
Definition spawn (c : Command) (w : worker) : worker :=
  {| w_host := w_host w; w_confined := w_confined w; w_reported := w_reported w; w_spawned := Some c |}.
Definition on_host {A} (m : HM A) : WM A := zoom w_host set_host m.

(** The document a grant carries, parsed again at the worker's boundary. *)
Definition carried_document (request : ExecutionRequest) : result ExecutionError (option ConfinementManifest) :=
  match Limits.confinement_manifest request with
  | Some document =>
      m ← map_err (λ error, invalid ("RunGrant.confinementManifest did not survive the worker boundary: " +:+ error_display error)) (parse document);
      mret (Some m)
  | None => mret None
  end.
(** The older entry points of the sandbox: a policy with no document. *)
Definition build_capabilities (config : KrunConfig) (resources : VmmHostResources) : result ExecutionError CapabilitySet :=
  build_process_capabilities target (host_string (rr_canonical_path (kc_rootfs config))) (runtime_files resources) (devices resources).
Definition apply (config : KrunConfig) (resources : VmmHostResources) : result ExecutionError CapabilitySet :=
  manifest ← Sandbox.confinement_manifest (runtime_files resources) (devices resources) None;
  apply_manifest target manifest (host_string (rr_canonical_path (kc_rootfs config))).

Definition prepare (options : WorkerOptions) (request : ExecutionRequest) : WM PreparedRun :=
  _ ← lift (refuse_reserved_environment request);
  share ← lift (workspace_share request (wo_workspace_share_fd options));
  let inherited := declared_descriptors request (wo_workspace_share_fd options) in
  _ ← lift (refuse_undeclared_descriptors inherited);
  config ← on_host (compile_plan (resolve_rootfs (wo_cas_root options)) request);
  let config := if bool_decide (is_Some share) then mount_workspace config else config in
  let config := if wo_tsi_hijack_inet options then with_tsi KRUN_TSI_HIJACK_INET config else config in
  rootfs ← on_host (materialize_ephemeral_rootfs (kc_rootfs config) (wo_run_root options));
  let config := with_rootfs rootfs config in
  _ ← on_host (verify_ephemeral_rootfs (kc_rootfs config));
  authorized ← lift (carried_document request);
  manifest ← lift (Sandbox.confinement_manifest (wo_runtime_files options) (wo_devices options) authorized);
  port_map ← lift (guest_port_map manifest (kc_tsi_features config));
  vsock_unix_map ← lift (vsock_unix_mappings manifest);
  let config := with_channels port_map vsock_unix_map config in
  capabilities ← lift (apply_manifest target manifest (host_string (rr_canonical_path (kc_rootfs config))));
  _ ← modify (confine capabilities);
  digest ← lift (Confinement.confinement_digest manifest);
  mret {| pr_config := config; pr_share := share; pr_confinement_digest := digest; pr_inherited := inherited |}.

(** ** The native worker *)

(** [on_ready] is the caller's; [status] runs a command to its end. *)
Definition execute_with_ready (on_ready : NativeEvent → result ExecutionError unit) (status : Command → result string ExitStatus)
    (options : NativeOptions) (request : ExecutionRequest) : WM unit :=
  _ ← lift (request_validate request);
  config ← on_host (compile_plan (resolve_rootfs (no_cas_root options)) request);
  rootfs ← on_host (materialize_ephemeral_rootfs (kc_rootfs config) (no_run_root options));
  let config := with_rootfs rootfs config in
  _ ← on_host (verify_ephemeral_rootfs (kc_rootfs config));
  authorized ← lift (carried_document request);
  manifest ← lift (Sandbox.confinement_manifest (no_runtime_files options) [] authorized);
  capabilities ← lift (capabilities_from_manifest target manifest (host_string (rr_canonical_path (kc_rootfs config))) Tier_Native);
  _ ← lift (map_err (λ error, backend_error ("apply native nono confinement: " +:+ error)) (apply_auto capabilities));
  _ ← modify (confine capabilities);
  digest ← lift (Confinement.confinement_digest manifest);
  _ ← modify (report (NReady (kc_run_id config) digest));
  _ ← lift (on_ready (NReady (kc_run_id config) digest));
  environment ← lift (fold_result add_environment ∅ (kc_environment config));
  let command := {| cmd_program := host_string (rr_canonical_path (kc_rootfs config)) +:+ "/" +:+ kc_executable config; cmd_arguments := kc_arguments config;
                    cmd_directory := host_string (rr_canonical_path (kc_rootfs config)); cmd_environment := environment |} in
  _ ← modify (spawn command);
  status ← lift (map_err (λ error, backend_error ("start native guest executable: " +:+ error)) (status command));
  lift (guest_exit_result status).
End worker.

(** ** A prepared run is the granted one *)

Lemma elem_of_nil_inv_iff {A} (l : list A) : l = [] ↔ ∀ x, x ∉ l.
Proof. split; [intros -> x; apply not_elem_of_nil | apply elem_of_nil_inv]. Qed.
Lemma undeclared_nil held declared : undeclared_descriptors held declared = [] ↔ ∀ fd, fd ∈ held → fd ∈ STANDARD_STREAMS ∨ fd ∈ id_descriptor <$> declared.
Proof.
  unfold undeclared_descriptors. rewrite elem_of_nil_inv_iff. setoid_rewrite list_elem_of_filter. split; intros Hf fd.
  - intros Hfd. destruct (decide (fd ∈ STANDARD_STREAMS)); [by left |]. destruct (decide (fd ∈ id_descriptor <$> declared)); [by right |]. by destruct (Hf fd).
  - intros [[H1 H2] Hfd]. by destruct (Hf fd Hfd).
Qed.

Section descriptor_lemmas.
Context `{Fmt, Descriptors}.
(** What is open and listed. *)
Definition holds_fd (fd : Z) : Prop := ∃ names name, dev_fd = Ok names ∧ name ∈ names ∧ to_str name ≫= parse_i32 = Some fd ∧ fd_open fd = true.
Lemma held_exact held fd : held_descriptors = Ok held → fd ∈ held ↔ holds_fd fd.
Proof.
  unfold held_descriptors. intros (names & Hn%map_err_ok & [= <-])%bind_ok.
  rewrite merge_sort_Permutation, elem_of_remove_dups, list_elem_of_filter, list_elem_of_omap. unfold holds_fd. split.
  - intros (Ho & name & Hin & Hp). by exists names, name.
  - intros (names' & name & Hn' & Hin & Hp & Ho). rewrite Hn' in Hn. injection Hn as ->. eauto.
Qed.
Lemma one_workspace request fd share : workspace_share request fd = Ok share → (length (workspaces request) ≤ 1)%nat.
Proof. unfold workspace_share. destruct (workspaces request) as [| g [| g' gs]]; cbn; [lia | lia |]. by destruct fd. Qed.
Lemma descriptors_declared request fd share :
  workspace_share request fd = Ok share → refuse_undeclared_descriptors (declared_descriptors request fd) = Ok tt →
  share = fd ∧ (share = None ↔ workspaces request = []) ∧ (∀ d, share = Some d → fd_socket d = Ok true)
  ∧ (∀ d, holds_fd d → d ∈ STANDARD_STREAMS ∨ share = Some d)
  ∧ declared_descriptors request fd
    = match workspaces request, share with
      | g :: _, Some d => [{| id_descriptor := d; id_channel := WorkspaceShare (wg_name g) (wg_graph_root g) |}] | _, _ => [] end.
Proof.
  intros Hs (held & Hh & Hu)%bind_ok. assert (undeclared_descriptors held (declared_descriptors request fd) = []) as Eu.
  { cbv zeta in Hu. destruct (bool_decide _) eqn:E in Hu; [by apply bool_decide_eq_true in E | done]. }
  rewrite undeclared_nil in Eu.
  setoid_rewrite (held_exact held _ Hh) in Eu. clear Hh Hu. unfold workspace_share, declared_descriptors in *.
  destruct (workspaces request) as [| g [| g' gs]], fd as [d |]; try done.
  - injection Hs as <-. split_and!; try done. intros d Hd. destruct (Eu d Hd) as [? | []%not_elem_of_nil]. by left.
  - apply bind_ok in Hs as (b & Hb%map_err_ok & ([] & ->%ensure_ok & [= <-])%bind_ok). split_and!; try done; [by intros ? [= <-] |].
    intros d' Hd. destruct (Eu d' Hd) as [? | ->%list_elem_of_singleton]; auto.
Qed.
End descriptor_lemmas.

(** ** A native guest runs confined *)

Lemma split_entry k v : string_all (λ c, negb (bool_decide (c = "="%char))) k = true → split_environment_entry (environment_entry (k, v)) = Ok (k, v).
Proof.
  unfold environment_entry. cbn [fst snd]. induction k as [| c k IH]; intros Hk.
  - done.
  - cbn [string_all] in Hk. apply andb_true_iff in Hk as [Hc Hk].
    change (String c k +:+ "=" +:+ v) with (String c (k +:+ "=" +:+ v)). cbn [split_environment_entry].
    destruct (bool_decide (c = "="%char)); [done |]. by rewrite IH.
Qed.
Lemma add_entries l : ∀ env, NoDup l.*1 → Forall (λ x, string_all (λ c, negb (bool_decide (c = "="%char))) x.1 = true) l →
  (∀ k, k ∈ l.*1 → env !! k = None) → fold_result add_environment env (environment_entry <$> l) = Ok (list_to_map l ∪ env).
Proof.
  induction l as [| [k v] l IH]; intros env Hnd Hk Hf; cbn [fold_result fmap list_fmap list_to_map foldr]; [by rewrite (left_id_L ∅ (∪)) |].
  apply Forall_cons in Hk as [Hk1 Hk]. apply NoDup_cons in Hnd as [Hn Hnd].
  assert (add_environment env (environment_entry (k, v)) = Ok (<[k := v]> env)) as -> by (unfold add_environment; by rewrite split_entry).
  rewrite bind_Ok, IH; [f_equal | done | done |].
  - change (list_to_map ((k, v) :: l)) with (<[k := v]> (list_to_map l : gmap string string)). rewrite <- insert_union_l, insert_union_r; [done |]. by apply not_elem_of_list_to_map_1.
  - intros k' Hk'. rewrite lookup_insert_ne; [apply Hf; by right |]. intros ->. done.
Qed.
(** Keys without a separator come through the plan as they were. *)
Lemma environment_carried env : (∀ k, is_Some (env !! k) → string_all (λ c, negb (bool_decide (c = "="%char))) k = true) →
  fold_result add_environment ∅ (environment_entry <$> in_key_order env) = Ok env.
Proof.
  intros Hk. assert (in_key_order env ≡ₚ map_to_list env) as Hp by apply merge_sort_Permutation.
  assert (NoDup (in_key_order env).*1) as Hnd by (rewrite Hp; apply NoDup_fst_map_to_list).
  rewrite add_entries; [| done | | done].
  - f_equal. rewrite (right_id_L ∅ (∪)). etrans; [| apply list_to_map_to_list]. by apply list_to_map_proper.
  - rewrite Hp. apply Forall_forall. intros [k v] Hkv%elem_of_map_to_list. apply Hk. by eexists.
Qed.

Section prepared.
Context `{Blake3, Fmt, JsonText, Os, RootfsJson, HostPaths, Nono, Descriptors} (target : Target).

Lemma on_host_ok {A} (m : HM A) w a w' : on_host m w = (Ok a, w') ↔ ∃ h', m (w_host w) = (Ok a, h') ∧ w' = set_host h' w.
Proof.
  unfold on_host, zoom. destruct (m (w_host w)) as [r h'] eqn:E. split; [intros [= -> <-]; eauto |]. by intros (? & [= -> ->] & ->).
Qed.

(** The guest's environment, program and working directory, with and without a workspace. *)
Definition guest_environment (request : ExecutionRequest) (share : option Z) : list string :=
  (environment_entry <$> in_key_order (public_environment request)) ++ (if share then [mount_entry] else []).
Definition guest_program (request : ExecutionRequest) (share : option Z) : string :=
  if share then (if starts_with_char "/" (executable request) then executable request else "/" +:+ executable request) else executable request.
Definition tsi_of (options : WorkerOptions) : N := if wo_tsi_hijack_inet options then KRUN_TSI_HIJACK_INET else 0.

(** The manifest a worker applies and attests: the carried document, or the
    deployment's own policy. *)
Record attested_policy (tier : Tier) (runtime_files devices : list string) (request : ExecutionRequest) (root : hpath) (digest : string)
    (caps : CapabilitySet) (m : ConfinementManifest) : Prop := {
  ap_enforceable : enforceable target tier m;
  ap_installed : installed (sandbox_rules target tier (host_string root) m) caps;
  ap_applied : apply_auto caps = Ok tt;
  ap_attested : Confinement.confinement_digest m = Ok digest;
  ap_document : ∀ doc, Limits.confinement_manifest request = Some doc → parse doc = Ok m;
  ap_policy : m = carried runtime_files devices m;
  ap_undeclared : Limits.confinement_manifest request = None → ports m = [] ∧ unix_sockets m = [] ∧ connect_local m = [];
}.
(** The ports and channels of the machine. *)
Record prepared_channels (options : WorkerOptions) (run : PreparedRun) (m : ConfinementManifest) : Prop := {
  pc_listeners : (ports m = [] ∨ wo_tsi_hijack_inet options = true)
    ∧ kc_port_map (pr_config run) = (λ g, pretty (pg_bind g) +:+ ":" +:+ pretty (pg_bind g)) <$> ports m;
  pc_channels : len (unix_sockets m) ≤ 2 ^ 31 - 2 ^ 15 →
    Forall deliverable (unix_sockets m) ∧ kc_vsock_unix_map (pr_config run) = mappings_from 0 (unix_sockets m);
}.
(** The root of a prepared run, and its program in it. *)
Record prepared_root (run_root : string) (request : ExecutionRequest) (ns ns' : gmap hpath node) (root : hpath) : Prop := {
  pt_private : ∃ dest, canonicalize_path ns run_root = Ok dest ∧ children ns dest = [] ∧ root = dest ++ ["rootfs"%string]
    ∧ ∀ p, ns' !! p ≠ ns !! p → dest `prefix_of` p;
  pt_rootfs : ∃ bytes manifest, is_rootfs ns' root (rootfs request) bytes manifest;
  pt_program : (∃ mode bytes, ns' !! (root ++ path_names (executable request)) = Some (NFile mode bytes))
    ∨ ∃ p p' mode mode' b b', ns !! p = Some (NFile mode b) ∧ ns' !! p' = Some (NFile mode' b') ∧ collision blake3 b b';
}.
(** The machine: everything the request says, and nothing else. *)
Record prepared_machine (options : WorkerOptions) (request : ExecutionRequest) (run : PreparedRun) : Prop := {
  pm_run : kc_run_id (pr_config run) = run_id request;
  pm_root : rr_digest (kc_rootfs (pr_config run)) = rootfs request;
  pm_program : kc_executable (pr_config run) = guest_program request (pr_share run);
  pm_arguments : kc_arguments (pr_config run) = arguments request;
  pm_environment : kc_environment (pr_config run) = guest_environment request (pr_share run);
  pm_reserved : public_environment request !! VIRTIOFS_MOUNTS_ENV = None;
  pm_workdir : kc_workdir (pr_config run) = (if pr_share run then WORKSPACE_DIR else "/"%string);
  pm_vcpus : kc_vcpus (pr_config run) = or_unsized (hypervisor_vcpus (cpu (limits request)));
  pm_ram : kc_ram_mib (pr_config run) = or_unsized (hypervisor_ram_mib (memory (limits request)));
  pm_wall : kc_wall_time_ms (pr_config run) = wall_time_ms (limits request);
  pm_tsi : kc_tsi_features (pr_config run) = tsi_of options;
  pm_share : pr_share run = wo_workspace_share_fd options ∧ (pr_share run = None ↔ workspaces request = []);
  pm_workspaces : (length (workspaces request) ≤ 1)%nat;
  pm_socket fd : pr_share run = Some fd → fd_socket fd = Ok true;
  pm_descriptors fd : holds_fd fd → fd ∈ STANDARD_STREAMS ∨ pr_share run = Some fd;
  pm_declared : pr_inherited run = match workspaces request, pr_share run with
    | g :: _, Some d => [{| id_descriptor := d; id_channel := WorkspaceShare (wg_name g) (wg_graph_root g) |}] | _, _ => [] end;
}.

Lemma materialize_ok source destination h m h' : tree_ok (h_nodes h) → materialize_ephemeral_rootfs source destination h = (Ok m, h') →
  ∃ dest, canonicalize_path (h_nodes h) destination = Ok dest ∧ children (h_nodes h) dest = []
    ∧ m = {| rr_digest := rr_digest source; rr_canonical_path := dest ++ ["rootfs"%string] |}
    ∧ (∀ p, h_nodes h' !! p ≠ h_nodes h !! p → dest `prefix_of` p)
    ∧ ∃ bytes manifest, is_rootfs (h_nodes h') (dest ++ ["rootfs"%string]) (rr_digest source) bytes manifest.
Proof.
  intros Ht Hm. pose proof (materialize_cases source destination h) as Hc. rewrite Hm in Hc.
  destruct Hc as [(e & h1 & [=] & _) | (sp & dest & h1 & _ & Hde & _ & _ & _ & Hch & E1 & Eb)]. symmetry in Eb.
  pose proof (within_run _ _ _ _ _ (build_moves (rr_digest source) sp dest) Eb) as Hmv.
  apply build_verified in Eb as (-> & _ & Hr); [| by rewrite E1]. exists dest. split_and!; try done.
  intros p Hp. destruct (decide (dest `prefix_of` p)) as [? | Hn]; [done |]. destruct Hp. by rewrite (mv_outside _ _ _ Hmv p Hn), E1.
Qed.
Lemma root_prepared cas_root run_root request h cfg h1 r h2 : tree_ok (h_nodes h) →
  compile_plan (resolve_rootfs cas_root) request h = (Ok cfg, h1) →
  materialize_ephemeral_rootfs (kc_rootfs cfg) run_root h1 = (Ok r, h2) →
  prepared_root run_root request (h_nodes h) (h_nodes h2) (rr_canonical_path r) ∧ rr_digest r = rootfs request.
Proof.
  intros Ht (E1 & Hd & (bytes & manifest & R) & (mode & exe & Hexe) & _)%compile_plan_spec Hm; [| done].
  apply materialize_ok in Hm as (dest & Hde & Hch & -> & Hout & (bytes' & manifest' & R')); [| by rewrite E1]. rewrite E1, Hd in *.
  split; [| done]. cbn [rr_canonical_path]. split; [by exists dest | by exists bytes', manifest' |].
  destruct (same_digest_contents _ _ _ _ _ _ _ _ _ R R') as [Hc | (rel & m1 & m2 & b & b' & Hl1 & Hl2 & Hcol)].
  - left. destruct (decide (path_names (executable request) = [ROOTFS_MANIFEST])) as [-> | Hne].
    { destruct (ir_manifest _ _ _ _ _ R') as [mode' Hl]. eauto. }
    specialize (Hc _ Hne). unfold content in Hc. rewrite Hexe in Hc.
    destruct (h_nodes h2 !! _) as [[] |]; try done. eauto.
  - right. by eexists _, _, m1, m2, b, b'.
Qed.
Lemma policy_attested `{!JsonTextLaws} tier runtime_files devices request root digest caps authorized m :
  carried_document request = Ok authorized → Sandbox.confinement_manifest runtime_files devices authorized = Ok m →
  capabilities_from_manifest target m (host_string root) tier = Ok caps → apply_auto caps = Ok tt → Confinement.confinement_digest m = Ok digest →
  attested_policy tier runtime_files devices request root digest caps m.
Proof.
  intros Hdoc Hm [Hen Hin]%compiles_to_rules Hauto Hdig.
  assert (∀ doc, Limits.confinement_manifest request = Some doc → ∃ a, authorized = Some a ∧ parse doc = Ok a) as Hd.
  { intros doc E. unfold carried_document in Hdoc. rewrite E in Hdoc. apply bind_ok in Hdoc as (a & Hpa%map_err_ok & [= <-]). eauto. }
  assert (Limits.confinement_manifest request = None → authorized = None) as Hn by (unfold carried_document in Hdoc; intros E; rewrite E in Hdoc; by injection Hdoc).
  apply confinement_manifest_carried in Hm as (_ & Hc & He).
  2: { intros a ->. destruct (Limits.confinement_manifest request) as [doc |]; [| by specialize (Hn eq_refl)].
       destruct (Hd doc eq_refl) as (? & [= <-] & Hpa). by eapply parse_wf. }
  split; try done.
  - intros doc E. destruct (Hd doc E) as (a & -> & Hpa). by rewrite <- (He a eq_refl).
  - rewrite Hc at 1. rewrite Hc. done.
  - intros E. rewrite (Hn E) in Hc. by rewrite Hc.
Qed.
Lemma apply_manifest_ok m root caps : apply_manifest target m root = Ok caps →
  capabilities_from_manifest target m root Tier_MicroVm = Ok caps ∧ apply_auto caps = Ok tt.
Proof.
  unfold apply_manifest. destruct support_info as [[[] platform] details]; [| done].
  by intros (c & Hc & ([] & Hauto%map_err_ok & [= <-])%bind_ok)%bind_ok.
Qed.

(** A prepared run is the granted one.  When a worker reports a run as prepared, the
    process is confined by the rules of one manifest, the document of the grant if it
    carries one, and that manifest is the one whose digest it attests; the guest's root is
    a private copy, in the run's own directory, of exactly the root the request's digest
    names, and holds the program as a regular file (or two files of the roots collide);
    ports and channels are the manifest's, socket hijacking is the operator's, the guest's
    program, arguments, environment and sizes are the request's; and the process holds
    its standard streams and the granted workspace's share, nothing else. *)
Theorem prepared_run_is_as_granted `{!JsonTextLaws} options request w run w' :
  tree_ok (h_nodes (w_host w)) → prepare target options request w = (Ok run, w') →
  prepared_machine options request run
  ∧ prepared_root (wo_run_root options) request (h_nodes (w_host w)) (h_nodes (w_host w')) (rr_canonical_path (kc_rootfs (pr_config run)))
  ∧ ∃ caps m, w_confined w' = Some caps ∧ prepared_channels options run m
    ∧ attested_policy Tier_MicroVm (wo_runtime_files options) (wo_devices options) request
        (rr_canonical_path (kc_rootfs (pr_config run))) (pr_confinement_digest run) caps m.
Proof.
  intros Ht Hp. unfold prepare in Hp. cbv zeta in Hp.
  apply run_bind in Hp as ([] & ? & [Hres ->]%lift_ok & (share & ? & [Hsh ->]%lift_ok & ([] & ? & [Hund ->]%lift_ok & Hp)%run_bind)%run_bind).
  apply run_bind in Hp as (cfg & ? & (h1 & Hcp & ->)%on_host_ok & (r & ? & (h2 & Hmat & ->)%on_host_ok & ([] & ? & (h3 & Hver & ->)%on_host_ok & Hp)%run_bind)%run_bind).
  apply run_bind in Hp as (authorized & ? & [Hdoc ->]%lift_ok & (m & ? & [Hm ->]%lift_ok & (pm & ? & [Hpm ->]%lift_ok & (vm & ? & [Hvm ->]%lift_ok & Hp)%run_bind)%run_bind)%run_bind).
  apply run_bind in Hp as (caps & ? & [Hap ->]%lift_ok & ([] & ? & [= <-] & (dg & ? & [Hdg ->]%lift_ok & [= <- <-])%run_bind)%run_bind).
  apply one_workspace in Hsh as Hone. destruct (descriptors_declared _ _ _ Hsh Hund) as (-> & Hs1 & Hs2 & Hs3 & Hs4).
  assert (kc_rootfs (if wo_tsi_hijack_inet options
    then with_tsi KRUN_TSI_HIJACK_INET (if bool_decide (is_Some (wo_workspace_share_fd options)) then mount_workspace cfg else cfg)
    else if bool_decide (is_Some (wo_workspace_share_fd options)) then mount_workspace cfg else cfg) = kc_rootfs cfg) as Er by (by destruct (wo_tsi_hijack_inet options); case_bool_decide).
  rewrite Er in Hmat. cbn in Hmat, Hver, Hcp.
  apply (within_run same_nodes) in Hver; [| apply verify_looks]. unfold same_nodes in Hver.
  destruct (root_prepared _ _ request _ _ _ _ _ Ht Hcp Hmat) as [Hroot Hdig].
  apply compile_plan_spec in Hcp as (_ & _ & _ & _ & Hcfg); [| done].
  split_and!.
  - rewrite Hcfg in *. unfold refuse_reserved_environment in Hres. apply ensure_ok, negb_true_iff, bool_decide_eq_false, eq_None_not_Some in Hres.
    split; cbn [pr_config pr_share pr_inherited]; try done; unfold guest_environment, guest_program, tsi_of;
      destruct (wo_tsi_hijack_inet options), (wo_workspace_share_fd options); cbn; rewrite ?app_nil_r; done.
  - cbn. by rewrite Hver.
  - exists caps, m. apply apply_manifest_ok in Hap as [Hca Hau]. split; [done |]. split; [split |].
    + rewrite Hcfg in Hpm. assert (guest_port_map m (tsi_of options) = Ok pm) as [Hp1 Hp2]%port_map_exact.
      { unfold tsi_of. destruct (wo_tsi_hijack_inet options), (wo_workspace_share_fd options); exact Hpm. }
      split; [| done]. destruct Hp1 as [? | Htsi]; [by left | right]. unfold tsi_of in Htsi. by destruct (wo_tsi_hijack_inet options).
    + intros Hlen. by apply vsock_mappings_ok in Hvm.
    + by eapply policy_attested.
Qed.

(** A step that starts no guest either ends the call without one or goes on. *)
Definition no_guest (w w' : worker) : Prop := w_spawned w' = w_spawned w.
#[global] Instance no_guest_preorder : PreOrder no_guest.
Proof. split; [by intros w | by intros w1 w2 w3 H12 H23; etrans]. Qed.
Lemma step_spawns {A B} (m : WM A) (f : A → WM B) w (P : result ExecutionError B * worker → Prop) :
  StateM.within no_guest m → w_spawned w = None → (∀ e w', w_spawned w' = None → P (Err e, w')) → (∀ w', w_spawned w' = None → P (Panic, w')) →
  (∀ a w1, m w = (Ok a, w1) → w_spawned w1 = None → P (f a w1)) → P ((m ≫= f) w).
Proof.
  intros Hw Hn He Hp Hf. specialize (Hw w). unfold no_guest in Hw. unfold mbind, M_bind.
  destruct (m w) as [[a | e |] w1] eqn:Em; cbn in *; rewrite Hn in Hw; auto.
Qed.
Lemma on_host_spawns {A} (m : HM A) : StateM.within no_guest (on_host m).
Proof. by apply within_zoom. Qed.

(** The program a native worker starts. *)
Record native_command (request : ExecutionRequest) (root : hpath) (cmd : Command) : Prop := {
  nc_program : cmd_program cmd = host_string root +:+ "/" +:+ executable request;
  nc_arguments : cmd_arguments cmd = arguments request;
  nc_directory : cmd_directory cmd = host_string root;
  nc_environment : (∀ k, is_Some (public_environment request !! k) → string_all (λ c, negb (bool_decide (c = "="%char))) k = true) →
    cmd_environment cmd = public_environment request;
}.

(** What a native worker did before it starts the guest. *)
Record native_path (on_ready : NativeEvent → result ExecutionError unit) (options : NativeOptions) (request : ExecutionRequest) (w w' : worker)
    (cmd : Command) (root : hpath) (digest : string) (caps : CapabilitySet) (m : ConfinementManifest) : Prop := {
  np_confined : w_confined w' = Some caps;
  np_reported : w_reported w' = Some (NReady (run_id request) digest) ∧ on_ready (NReady (run_id request) digest) = Ok tt;
  np_policy : attested_policy Tier_Native (no_runtime_files options) [] request root digest caps m;
  np_root : prepared_root (no_run_root options) request (h_nodes (w_host w)) (h_nodes (w_host w')) root;
  np_command : native_command request root cmd;
}.
Lemma native_cases `{!JsonTextLaws} on_ready status options request w (P : result ExecutionError unit * worker → Prop) :
  tree_ok (h_nodes (w_host w)) → w_spawned w = None → (∀ e w', w_spawned w' = None → P (Err e, w')) → (∀ w', w_spawned w' = None → P (Panic, w')) →
  (∀ w' cmd root digest caps m, native_path on_ready options request w w' cmd root digest caps m →
     P ((_ ← modify (spawn cmd); st ← lift (map_err (λ error, backend_error ("start native guest executable: " +:+ error)) (status cmd));
         lift (guest_exit_result st)) w')) →
  P (execute_with_ready target on_ready status options request w).
Proof.
  intros Ht Hs He Hp Hgo. unfold execute_with_ready. cbv zeta.
  apply step_spawns; [apply within_lift, _ | done | done | done |]. intros [] w0 [_ ->]%lift_ok _.
  apply step_spawns; [apply on_host_spawns | done | done | done |]. intros cfg w1 (h1 & Hcp & ->)%on_host_ok Hs1.
  apply step_spawns; [apply on_host_spawns | done | done | done |]. intros rt w2 (h2 & Hmat & ->)%on_host_ok Hs2.
  apply step_spawns; [apply on_host_spawns | done | done | done |]. intros [] w3 (h3 & Hver & ->)%on_host_ok Hs3.
  apply step_spawns; [apply within_lift, _ | done | done | done |]. intros authorized w4 [Hdoc ->]%lift_ok _.
  apply step_spawns; [apply within_lift, _ | done | done | done |]. intros m w4 [Hm ->]%lift_ok _.
  apply step_spawns; [apply within_lift, _ | done | done | done |]. intros caps w4 [Hcap ->]%lift_ok _.
  apply step_spawns; [apply within_lift, _ | done | done | done |]. intros [] w4 [Hauto%map_err_ok ->]%lift_ok _.
  apply step_spawns; [by apply within_modify | done | done | done |]. intros [] w4 [= <-] _.
  apply step_spawns; [apply within_lift, _ | done | done | done |]. intros dg w4 [Hdg ->]%lift_ok _.
  apply step_spawns; [by apply within_modify | done | done | done |]. intros [] w4 [= <-] _.
  apply step_spawns; [apply within_lift, _ | done | done | done |]. intros [] w4 [Hready ->]%lift_ok _.
  apply step_spawns; [apply within_lift, _ | done | done | done |]. intros env w4 [Henv ->]%lift_ok _.
  cbn in Hmat, Hver, Hcp, Henv. apply (within_run same_nodes) in Hver; [| apply verify_looks]. unfold same_nodes in Hver.
  destruct (root_prepared _ _ request _ _ _ _ _ Ht Hcp Hmat) as [Hroot _].
  apply compile_plan_spec in Hcp as (_ & _ & _ & _ & Hcfg); [| done]. rewrite Hcfg in Hready, Henv |- *.
  apply (Hgo _ _ (rr_canonical_path rt) dg caps m). split; cbn; [done | done | by eapply policy_attested | by rewrite Hver |].
  split; cbn; [done | done | done |]. intros Hk. cbn in Henv. rewrite environment_carried in Henv by done. by injection Henv.
Qed.

(** C22: A native guest runs only confined and reported.  However the native worker ends, if
    it started a guest then the process was confined by the rules of one manifest, the
    grant's document if it carries one, and had reported that manifest's digest; the
    guest is the request's program out of a private copy of the root its digest names,
    with its arguments, in that root, and with its environment when no key holds a
    separator; and the worker's answer is the guest's exit.  It succeeds only after
    starting one. *)
Theorem native_guest_runs_confined `{!JsonTextLaws} on_ready status options request w :
  tree_ok (h_nodes (w_host w)) → w_spawned w = None →
  let '(r, w') := execute_with_ready target on_ready status options request w in
  (w_spawned w' = None → r ≠ Ok tt)
  ∧ ∀ cmd, w_spawned w' = Some cmd → ∃ root digest caps m,
      w_confined w' = Some caps ∧ w_reported w' = Some (NReady (run_id request) digest) ∧ on_ready (NReady (run_id request) digest) = Ok tt
      ∧ attested_policy Tier_Native (no_runtime_files options) [] request root digest caps m
      ∧ prepared_root (no_run_root options) request (h_nodes (w_host w)) (h_nodes (w_host w')) root
      ∧ native_command request root cmd
      ∧ (r = Ok tt ↔ ∃ st, status cmd = Ok st ∧ es_success st = true).
Proof.
  intros Ht Hs. pattern (execute_with_ready target on_ready status options request w). apply native_cases; [done | done | | |].
  1, 2: intros; split; [done | intros cmd; congruence].
  intros w1 cmd root digest caps m [Hc [Hr Hy] Hpol Hroot Hcmd].
  rewrite (run_bind_Ok _ _ w1 tt (spawn cmd w1)) by done. unfold mbind, M_bind, lift.
  destruct (status cmd) as [st | e |] eqn:Est; cbn [map_err]; [destruct (guest_exit_result st) as [[] | |] eqn:Eg |..];
    (split; [done |]; intros ? [= <-]; exists root, digest, caps, m; split_and!; try done).
  all: unfold guest_exit_result in *.
  - destruct (es_success st) eqn:E; [split; [by exists st | done] | done].
  - destruct (es_success st) eqn:E; [done |]. split; [done |]. intros (st' & ? & ?). congruence.
  - by destruct (es_success st).
  - split; [done |]. intros (st' & ? & _). congruence.
  - split; [done |]. intros (st' & ? & _). congruence.
Qed.
End prepared.

(** ** A small run *)

Module SmallRun.
(** A sandbox that records the rules it is given. *)
Definition recorder : Nono := {|
  CapabilitySet := list Rule; capabilities_new := [];
  allow_path := λ d m c, Ok (c ++ [RPath d m]); allow_file := λ p m c, Ok (c ++ [RFile p m]);
  allow_unix_socket_dir := λ d m c, Ok (c ++ [RSocketDir d m]); allow_unix_socket := λ p m c, Ok (c ++ [RSocket p m]);
  platform_rule := λ r c, Ok (c ++ [RPlatform r]); allow_localhost_port := λ p c, c ++ [RListen p];
  allow_tcp_connect := λ p c, c ++ [RDial p]; proxy_only := λ p c, c ++ [RProxy p];
  proxy_only_with_bind := λ p b c, c ++ [RProxyBind p b]; block_network := λ c, c ++ [RBlock];
  support_info := (true, "linux", "")%string; apply_auto := λ _, Ok tt |}.
Definition paths : HostPaths := {| path_exists := λ _, true; canonicalize := λ p, Ok p |}.
Definition descriptors : Descriptors := {|
  dev_fd := Ok ["0"; "1"; "2"; "3"; "7"; "junk"]%string; fd_open := λ fd, negb (bool_decide (fd = 3%Z)); fd_socket := λ fd, Ok (bool_decide (fd = 7%Z)) |}.
#[export] Existing Instances demo_hash SmallRoot.one_manifest demo_fmt bits_text bits_text_laws recorder paths descriptors.
Definition os : Os := SmallRoot.system (λ _, None).
#[export] Existing Instance os.
Definition options : WorkerOptions := {|
  wo_cas_root := "/cas"; wo_run_root := "/run"; wo_runtime_files := ["/lib/libkrunfw.so"%string]; wo_devices := ["/dev/kvm"%string];
  wo_tsi_hijack_inet := true; wo_workspace_share_fd := Some 7%Z |}.
Definition policy : ConfinementManifest := {|
  credential_source := None; fs_allow := own_policy (wo_runtime_files options) (wo_devices options); allow_hosts := [];
  ports := [{| pg_bind := 7532; pg_address := None |}]; unix_sockets := [Connect "/run/proxy"; Bind "/run/own"]; connect_local := [] |}.
Definition document : string := match to_canonical_json policy with Ok text => text | _ => EmptyString end.
Definition request : ExecutionRequest := {|
  run_id := "run-1"; replay_key := "key-1"; rootfs := SmallRoot.digest; executable := "bin/app"; arguments := ["-v"%string];
  public_environment := {["LANG" := "C"]}%string; allowed_egress := [];
  limits := {| wall_time_ms := 1000; output_bytes := 0; memory := {| memory_limit := 0 |};
               cpu := {| quota := 0; period := 0 |}; pids := {| pids_limit := 0 |} |};
  Limits.confinement_digest := EmptyString; Limits.confinement_manifest := Some document;
  workspaces := [{| wg_name := "ws"; wg_graph_root := "root"; expected_generation := 0; operations := [] |}] |}.
Definition begin : worker := {| w_host := SmallRoot.start; w_confined := None; w_reported := None; w_spawned := None |}.
End SmallRun.
Import SmallRun.

(** The run of the document: two channels, one listener, one share. *)
Lemma prepared_run_is_as_granted_witness :
  ∃ run w', prepare Linux options request begin = (Ok run, w')
    ∧ w_confined w' = Some [RPath "/run/rootfs" Access_ReadWrite; RFile "/lib/libkrunfw.so" Access_Read; RFile "/dev/kvm" Access_ReadWrite;
        RSocket "/run/proxy" Mode_Connect; RSocket "/run/own" Mode_ConnectBind; RListen 7532; RBlock]
    ∧ kc_environment (pr_config run) = ["LANG=C"; "KRUN_VIRTIOFS_MOUNTS=work:/work"]%string ∧ prepared_machine options request run
    ∧ prepared_root (wo_run_root options) request (h_nodes (w_host begin)) (h_nodes (w_host w')) ["run"; "rootfs"]%string.
Proof.
  destruct (prepare Linux options request begin) as [r w'] eqn:E.
  assert (r = fst (prepare Linux options request begin)) as Er by (by rewrite E). vm_compute in Er.
  assert (w_confined w' = w_confined (snd (prepare Linux options request begin))) as Ew by (by rewrite E). vm_compute in Ew.
  destruct r as [run | |]; [| discriminate Er..]. exists run, w'. split; [reflexivity |]. split; [exact Ew |]. split; [by injection Er as -> |].
  destruct (prepared_run_is_as_granted Linux options request begin run w' SmallRoot.start_tree E) as (Hm & Hr & _). split; [exact Hm |].
  injection Er as ->. exact Hr.
Defined.

(** A native run without a document, to the guest's exit. *)
Definition native_options : NativeOptions := {| no_cas_root := "/cas"; no_run_root := "/run"; no_runtime_files := ["/lib/libc.so"%string] |}.
Definition with_public (env : gmap string string) (document : option string) (ws : list WorkspaceGrant) (r : ExecutionRequest) : ExecutionRequest := {|
  run_id := run_id r; replay_key := replay_key r; rootfs := rootfs r; executable := executable r; arguments := arguments r;
  public_environment := env; allowed_egress := allowed_egress r; limits := limits r; Limits.confinement_digest := Limits.confinement_digest r;
  Limits.confinement_manifest := document; workspaces := ws |}.
Definition native_request : ExecutionRequest := with_public {["LANG" := "C"]}%string None [] request.
Definition exits_well (_ : Command) : result string ExitStatus := Ok {| es_success := true; es_display := "exit status: 0" |}.
Lemma native_guest_runs_confined_witness :
  let '(r, w') := execute_with_ready Linux (λ _, Ok tt) exits_well native_options native_request begin in
  r = Ok tt ∧ w_confined w' = Some [RPath "/run/rootfs" Access_ReadWrite; RFile "/lib/libc.so" Access_Read; RBlock]
  ∧ ∃ cmd, w_spawned w' = Some cmd ∧ cmd_program cmd = "/run/rootfs/bin/app"%string
      ∧ prepared_root "/run" native_request (h_nodes (w_host begin)) (h_nodes (w_host w')) ["run"; "rootfs"]%string.
Proof.
  pose proof (native_guest_runs_confined Linux (λ _, Ok tt) exits_well native_options native_request begin SmallRoot.start_tree eq_refl) as Hn.
  destruct (execute_with_ready Linux (λ _, Ok tt) exits_well native_options native_request begin) as [r w'] eqn:E.
  assert ((r, w_confined w', w_spawned w') = (let '(r, w') := execute_with_ready Linux (λ _, Ok tt) exits_well native_options native_request begin in
    (r, w_confined w', w_spawned w'))) as Eq by (by rewrite E). vm_compute in Eq. injection Eq as Er Ec Es.
  split; [exact Er |]. split; [exact Ec |]. eexists. split; [exact Es |]. split; [reflexivity |].
  destruct (proj2 Hn _ Es) as (root & dg & caps & m & _ & _ & _ & _ & Hroot & Hcmd & _).
  assert (root = ["run"; "rootfs"]%string) as <-; [| exact Hroot].
  destruct (pt_private _ _ _ _ _ Hroot) as (dest & Hd & _ & -> & _). vm_compute in Hd. injection Hd as <-. reflexivity.
Defined.

(** A key that holds a separator passes the check of the reserved variable and sets it. *)
Definition escaping_request : ExecutionRequest :=
  with_public {[VIRTIOFS_MOUNTS_ENV +:+ "=other:/etc" := EmptyString]} (Limits.confinement_manifest request) (workspaces request) request.
Lemma separator_sets_reserved :
  refuse_reserved_environment escaping_request = Ok tt
  ∧ (kc_environment ∘ pr_config <$> match (prepare Linux options escaping_request begin).1 with Ok run => Some run | _ => None end)
    = Some [VIRTIOFS_MOUNTS_ENV +:+ "=other:/etc="; mount_entry].
Proof. vm_compute. done. Qed.
