(* ===== verification/Process.v ===== *)
(** * Worker processes

    [rs/ll-open/runtime/src/backends/process.rs]: the readiness line of a worker, and the process
    group of a worker shared by the one thread that reaps it and the threads that may signal
    it.  In the kernel the leader and every other member of the group may fork, exit, or
    (the members) leave the group for a session of their own; a signal to the group ends its
    members, but a fork under way when it arrives still enrols its child.  Each thread moves
    by the calls it makes, under the lock the code takes, and every call may fail. *)

From S2P Require Import Prelude Substrate Text Limits Authorization Ordered Confinement CasEvidence.
From stdpp Require Import pretty.
From Stdlib Require Import NArith Lia Ascii.

(** ** The readiness line *)

Definition READINESS_PREAMBLE_LINES : nat := 64.
(** [str::trim_start], [str::trim_end] *)
Definition trim_start (s : string) : string := string_of (concat (skip_while is_whitespace (chars (bytes_of s)))).
Definition trim_end (s : string) : string := string_of (concat (reverse (skip_while is_whitespace (reverse (chars (bytes_of s)))))).
(** [lines.join(..)] *)
Definition join_bar (lines : list string) : string :=
  match lines with [] => EmptyString | l :: ls => foldl (λ acc x, acc +:+ " | " +:+ x) l ls end.
Definition opens_event (line : string) : bool := starts_with_char "{" (trim_start line).
(** What the successive calls of [read_line] answer; none left is the end of the stream. *)
Fixpoint read_readiness_line_from (preamble : list string) (reader : list (result string string)) : result string (option string) :=
  match reader with
  | [] =>
      if bool_decide (preamble = []) then Ok None
      else Err ("worker closed stderr before readiness, having written only: " +:+ join_bar preamble)
  | Ok line :: reader =>
      if opens_event line then Ok (Some line)
      else
        let preamble := preamble ++ [trim_end line] in
        if (READINESS_PREAMBLE_LINES <? length preamble)%nat
        then Err ("worker wrote more than " +:+ pretty READINESS_PREAMBLE_LINES +:+ " non-event lines before readiness; the last: " +:+ trim_end line)
        else read_readiness_line_from preamble reader
  | Err error :: _ => Err error
  | Panic :: _ => Panic
  end.
Definition read_readiness_line (reader : list (result string string)) : result string (option string) := read_readiness_line_from [] reader.

(** [retry_while_interrupted]: the answers of the successive calls; [None] is one that was
    interrupted. *)
Fixpoint retry_while_interrupted {E} (observe : list (option (result E unit))) : option (result E unit) :=
  match observe with
  | [] => None
  | None :: observe => retry_while_interrupted observe
  | Some r :: _ => Some r
  end.

(** ** The process group *)

Inductive leader := LRunning | LZombie | LGone.
(** The processes of the group besides the leader: at rest, inside a fork, and killed
    inside a fork that will still enrol its child; and those that left the group. *)
Record kernel := { k_leader : leader; k_members : nat; k_forking : nat; k_doomed : nat; k_escaped : nat }.
Definition set_leader (l : leader) (k : kernel) : kernel :=
  {| k_leader := l; k_members := k_members k; k_forking := k_forking k; k_doomed := k_doomed k; k_escaped := k_escaped k |}.
Definition set_members (members forking doomed escaped : nat) (k : kernel) : kernel :=
  {| k_leader := k_leader k; k_members := members; k_forking := forking; k_doomed := doomed; k_escaped := escaped |}.
Inductive ProcessState := Live | Reaped.
(** Where a thread is in [terminate_process_group]: to signal, to wait for the leader's exit
    without reaping it, to signal again. *)
Inductive terminating := TKill | TAwait | TSweep | TEnd.
(** [await_exit_and_reap]: the wait outside the lock, the lock, [kill_group_then_reap]. *)
Inductive reaper := RAwait | RLock | RTerm (t : terminating) | RWait | RUnlock | RDone.
(** [TerminationSignal::terminate] *)
Inductive signaller := SLock | SCheck | STerm (t : terminating) | SUnlock | SDone.
Inductive holder := HReaper | HSignal (i : nat).
(** With what the kernel and an observer can tell: the leader at each signal that was sent,
    whether a wait or the second sweep failed, whether the group was swept after the
    leader's exit, and whether a member was inside a fork at the last such sweep. *)
Record config := {
  c_kernel : kernel; c_state : ProcessState; c_owner : option holder; c_reaper : reaper; c_signals : list signaller;
  c_sent : list leader; c_failed : bool; c_swept : bool; c_midfork : bool;
}.

#[global] Instance leader_eq_dec : EqDecision leader.
Proof. solve_decision. Defined.
#[global] Instance ProcessState_eq_dec : EqDecision ProcessState.
Proof. solve_decision. Defined.
#[global] Instance terminating_eq_dec : EqDecision terminating.
Proof. solve_decision. Defined.
#[global] Instance reaper_eq_dec : EqDecision reaper.
Proof. solve_decision. Defined.
#[global] Instance signaller_eq_dec : EqDecision signaller.
Proof. solve_decision. Defined.
#[global] Instance holder_eq_dec : EqDecision holder.
Proof. solve_decision. Defined.

Definition set_kernel (k : kernel) (c : config) : config :=
  {| c_kernel := k; c_state := c_state c; c_owner := c_owner c; c_reaper := c_reaper c; c_signals := c_signals c; c_sent := c_sent c; c_failed := c_failed c; c_swept := c_swept c; c_midfork := c_midfork c |}.
Definition set_state (s : ProcessState) (c : config) : config :=
  {| c_kernel := c_kernel c; c_state := s; c_owner := c_owner c; c_reaper := c_reaper c; c_signals := c_signals c; c_sent := c_sent c; c_failed := c_failed c; c_swept := c_swept c; c_midfork := c_midfork c |}.
Definition set_owner (o : option holder) (c : config) : config :=
  {| c_kernel := c_kernel c; c_state := c_state c; c_owner := o; c_reaper := c_reaper c; c_signals := c_signals c; c_sent := c_sent c; c_failed := c_failed c; c_swept := c_swept c; c_midfork := c_midfork c |}.
Definition set_reaper (r : reaper) (c : config) : config :=
  {| c_kernel := c_kernel c; c_state := c_state c; c_owner := c_owner c; c_reaper := r; c_signals := c_signals c; c_sent := c_sent c; c_failed := c_failed c; c_swept := c_swept c; c_midfork := c_midfork c |}.
Definition set_signal (i : nat) (s : signaller) (c : config) : config :=
  {| c_kernel := c_kernel c; c_state := c_state c; c_owner := c_owner c; c_reaper := c_reaper c; c_signals := <[i := s]> (c_signals c); c_sent := c_sent c; c_failed := c_failed c; c_swept := c_swept c; c_midfork := c_midfork c |}.
(** A [kill] call, with where the leader is, and what a [SIGKILL] to the group does to the
    other members. *)
Definition note_kill (c : config) : config :=
  {| c_kernel := c_kernel c; c_state := c_state c; c_owner := c_owner c; c_reaper := c_reaper c; c_signals := c_signals c;
     c_sent := c_sent c ++ [k_leader (c_kernel c)]; c_failed := c_failed c; c_swept := c_swept c; c_midfork := c_midfork c |}.
Definition signal_group (sweep : bool) (c : config) : config :=
  let k := c_kernel c in
  {| c_kernel := set_members 0 0 (k_forking k + k_doomed k) (k_escaped k) k; c_state := c_state c; c_owner := c_owner c; c_reaper := c_reaper c;
     c_signals := c_signals c; c_sent := c_sent c; c_failed := c_failed c; c_swept := c_swept c || sweep;
     c_midfork := if sweep then negb (k_forking k + k_doomed k =? 0)%nat else c_midfork c |}.
Definition fail (c : config) : config :=
  {| c_kernel := c_kernel c; c_state := c_state c; c_owner := c_owner c; c_reaper := c_reaper c; c_signals := c_signals c; c_sent := c_sent c; c_failed := true; c_swept := c_swept c; c_midfork := c_midfork c |}.

(** One step of [terminate_process_group]; [fails] makes its call answer an error.  When the
    group cannot be signalled, the leader alone is. *)
Definition terminate_process_group (fails : bool) (t : terminating) (c : config) : option (terminating * config) :=
  match t with
  | TKill => Some (TAwait, if fails then note_kill (note_kill c) else signal_group false (note_kill c))
  | TAwait =>
      if fails then Some (TEnd, fail c)
      else if bool_decide (k_leader (c_kernel c) = LZombie) then Some (TSweep, c) else None
  | TSweep => Some (TEnd, if fails then fail (note_kill c) else signal_group true (note_kill c))
  | TEnd => None
  end.
Definition await_exit_and_reap (fails : bool) (c : config) : option config :=
  match c_reaper c with
  | RAwait =>
      if fails then Some (set_reaper RLock c)
      else if bool_decide (k_leader (c_kernel c) = LZombie) then Some (set_reaper RLock c) else None
  | RLock =>
      if bool_decide (c_owner c = None)
      then Some match c_state c with
                | Live => set_owner (Some HReaper) (set_state Reaped (set_reaper (RTerm TKill) c))
                | Reaped => set_owner (Some HReaper) (set_reaper RUnlock c)
                end
      else None
  | RTerm TEnd => Some (set_reaper RWait c)
  | RTerm t => '(t', c') ← terminate_process_group fails t c; Some (set_reaper (RTerm t') c')
  | RWait =>
      if fails then Some (set_reaper RUnlock (fail c))
      else if bool_decide (k_leader (c_kernel c) = LZombie)
      then Some (set_reaper RUnlock (set_kernel (set_leader LGone (c_kernel c)) c))
      else None
  | RUnlock => Some (set_owner None (set_reaper RDone c))
  | RDone => None
  end.
Definition terminate (i : nat) (fails : bool) (c : config) : option config :=
  pc ← c_signals c !! i;
  match pc with
  | SLock => if bool_decide (c_owner c = None) then Some (set_owner (Some (HSignal i)) (set_signal i SCheck c)) else None
  | SCheck => Some (set_signal i match c_state c with Live => STerm TKill | Reaped => SUnlock end c)
  | STerm TEnd => Some (set_signal i SUnlock c)
  | STerm t => '(t', c') ← terminate_process_group fails t c; Some (set_signal i (STerm t') c')
  | SUnlock => Some (set_owner None (set_signal i SDone c))
  | SDone => None
  end.

(** What the kernel does by itself. *)
Inductive kmove :=
| Fork | Exit          (* the leader forks, exits *)
| MemberFork           (* a member enters a fork *)
| MemberForked         (* a fork of a member returns *)
| DoomedForked         (* a fork whose process was killed in it enrols its child *)
| MemberExit           (* a member at rest exits *)
| MemberLeaves.        (* a member at rest calls [setsid] *)
Definition kstep (m : kmove) (k : kernel) : option kernel :=
  match m, k_members k, k_forking k, k_doomed k with
  | Fork, n, f, d => if bool_decide (k_leader k = LRunning) then Some (set_members (S n) f d (k_escaped k) k) else None
  | Exit, _, _, _ => if bool_decide (k_leader k = LRunning) then Some (set_leader LZombie k) else None
  | MemberFork, S n, f, d => Some (set_members n (S f) d (k_escaped k) k)
  | MemberForked, n, S f, d => Some (set_members (S (S n)) f d (k_escaped k) k)
  | DoomedForked, n, f, S d => Some (set_members (S n) f d (k_escaped k) k)
  | MemberExit, S n, f, d => Some (set_members n f d (k_escaped k) k)
  | MemberLeaves, S n, f, d => Some (set_members n f d (S (k_escaped k)) k)
  | _, _, _, _ => None
  end.
Inductive move := Kernel (m : kmove) | Reap (fails : bool) | Signal (i : nat) (fails : bool).
Definition pstep (m : move) (c : config) : option config :=
  match m with
  | Kernel m => k ← kstep m (c_kernel c); Some (set_kernel k c)
  | Reap fails => await_exit_and_reap fails c
  | Signal i fails => terminate i fails c
  end.
Fixpoint pruns (ms : list move) (c : config) : option config :=
  match ms with [] => Some c | m :: ms => c ← pstep m c; pruns ms c end.
(** A worker just started, with its reaper and any number of handles that may signal it. *)
Definition supervised (members handles : nat) : config := {|
  c_kernel := {| k_leader := LRunning; k_members := members; k_forking := 0; k_doomed := 0; k_escaped := 0 |}; c_state := Live; c_owner := None; c_reaper := RAwait;
  c_signals := replicate handles SLock; c_sent := []; c_failed := false; c_swept := false; c_midfork := false |}.

(** ** What holds in every interleaving *)

Definition reaper_holds (r : reaper) : bool := match r with RTerm _ | RWait | RUnlock => true | _ => false end.
Definition signal_holds (s : signaller) : bool := match s with SLock | SDone => false | _ => true end.
Definition past_sweep (r : reaper) : bool := match r with RTerm TEnd | RWait | RUnlock | RDone => true | _ => false end.
(** No process of the group is left besides the leader, and none is on its way. *)
Definition emptied (k : kernel) : Prop := k_members k = 0%nat ∧ k_forking k = 0%nat ∧ k_doomed k = 0%nat.
Record inv (c : config) : Prop := {
  i_gone : k_leader (c_kernel c) = LGone → c_reaper c = RUnlock ∨ c_reaper c = RDone;
  i_reaped : c_reaper c = RUnlock ∨ c_reaper c = RDone → c_failed c = false → k_leader (c_kernel c) = LGone;
  i_live : c_state c = Live ↔ c_reaper c = RAwait ∨ c_reaper c = RLock;
  i_reaper : c_owner c = Some HReaper ↔ reaper_holds (c_reaper c) = true;
  i_signal i : c_owner c = Some (HSignal i) ↔ ∃ s, c_signals c !! i = Some s ∧ signal_holds s = true;
  i_term i t : c_signals c !! i = Some (STerm t) → c_state c = Live;
  i_reaper_sweeps : c_reaper c = RTerm TSweep → k_leader (c_kernel c) ≠ LRunning;
  i_signal_sweeps i : c_signals c !! i = Some (STerm TSweep) → k_leader (c_kernel c) ≠ LRunning;
  i_sent : Forall (λ l, l ≠ LGone) (c_sent c);
  i_swept : c_swept c = true → k_leader (c_kernel c) ≠ LRunning ∧ (c_midfork c = false → emptied (c_kernel c));
  i_done : past_sweep (c_reaper c) = true → c_failed c = false → c_swept c = true;
}.
Lemma supervised_inv members handles : inv (supervised members handles).
Proof.
  assert (∀ i s, replicate handles SLock !! i = Some s → s = SLock) as Hr by (by intros i s [-> _]%lookup_replicate).
  split; cbn; try done; naive_solver.
Qed.

(** Once the leader has exited and the group is empty, no one is there to fork. *)
Lemma kernel_inv c k : inv c → (k_leader k = LGone ↔ k_leader (c_kernel c) = LGone) →
  (k_leader k = LRunning → k_leader (c_kernel c) = LRunning) → (k_leader (c_kernel c) ≠ LRunning → emptied (c_kernel c) → emptied k) → inv (set_kernel k c).
Proof.
  intros [] Hg Hr Hm. split; cbn; [tauto | tauto | done | done | done | done | naive_solver | naive_solver | done | | done].
  intros Hs. destruct (i_swept0 Hs) as [Hl Hz]. split; [tauto | auto].
Qed.
Lemma kstep_ok m k k' : kstep m k = Some k' →
  (k_leader k' = LGone ↔ k_leader k = LGone) ∧ (k_leader k' = LRunning → k_leader k = LRunning) ∧ (k_leader k ≠ LRunning → emptied k → emptied k').
Proof.
  unfold kstep, emptied. intros Hs. destruct m; [case_bool_decide as El; [injection Hs as <- | done].. | | | | |];
    [cbn; rewrite ?El; split_and!; done.. | | | | |]; repeat case_match; simplify_eq/=; split_and!; (done || lia).
Qed.
Lemma lookup_set_signal i s s' c j x : c_signals c !! i = Some s →
  c_signals (set_signal i s' c) !! j = Some x ↔ (j = i ∧ x = s') ∨ (j ≠ i ∧ c_signals c !! j = Some x).
Proof.
  intros Hi. cbn. destruct (decide (j = i)) as [-> | Hne].
  - rewrite list_lookup_insert_eq by (by eapply lookup_lt_Some). naive_solver.
  - rewrite list_lookup_insert_ne by done. naive_solver.
Qed.

Lemma note_inv c : inv c → k_leader (c_kernel c) ≠ LGone → inv (note_kill c).
Proof. intros [] Hg. split; cbn; try done. rewrite Forall_app, Forall_singleton. done. Qed.
Lemma fail_inv c : inv c → inv (fail c).
Proof. intros []. by split. Qed.
Lemma signal_group_inv sweep c : inv c → (sweep = true → k_leader (c_kernel c) ≠ LRunning) → inv (signal_group sweep c).
Proof.
  intros [] Hs. unfold emptied in *. destruct sweep; split; cbn; rewrite ?orb_true_r, ?orb_false_r; try done.
  - intros _. split; [by apply Hs |]. intros Hz%negb_false_iff%Nat.eqb_eq. split_and!; done.
  - intros Hx. destruct (i_swept0 Hx) as [Hl Hz]. split; [done |]. intros Hm. destruct (Hz Hm) as (_ & Hz1 & Hz2). by rewrite Hz1, Hz2.
Qed.

(** A step inside [terminate_process_group] by a thread that holds the lock. *)
Lemma term_inv fails t t' c c' : terminate_process_group fails t c = Some (t', c') → inv c → k_leader (c_kernel c) ≠ LGone →
  (t = TSweep → k_leader (c_kernel c) ≠ LRunning) →
  inv c' ∧ c_state c' = c_state c ∧ c_owner c' = c_owner c ∧ c_reaper c' = c_reaper c ∧ c_signals c' = c_signals c
  ∧ k_leader (c_kernel c') = k_leader (c_kernel c) ∧ (t' = TSweep → k_leader (c_kernel c') ≠ LRunning) ∧ t' ≠ TKill
  ∧ (t' = TEnd → c_failed c' = false → c_swept c' = true).
Proof.
  intros Ht Hi Hg Hs. destruct t; cbn in Ht; [injection Ht as <- <- | | injection Ht as <- <- | done].
  - destruct fails; [split_and!; try done; by repeat apply note_inv |]. split_and!; try done. by apply signal_group_inv; [apply note_inv |].
  - destruct fails; [injection Ht as <- <- | case_bool_decide as El; [injection Ht as <- <- | done]].
    + split_and!; try done. by apply fail_inv.
    + split_and!; try done. intros _. by rewrite El.
  - destruct fails; [split_and!; try done; by apply fail_inv, note_inv |].
    split_and!; try done; [| intros _ _; cbn; apply orb_true_r]. apply signal_group_inv; [by apply note_inv |]. intros _. by apply Hs.
Qed.
Lemma reaper_pc_inv c r : inv c → (k_leader (c_kernel c) = LGone → r = RUnlock ∨ r = RDone) → (r = RUnlock ∨ r = RDone → c_failed c = false → k_leader (c_kernel c) = LGone) → (c_state c = Live ↔ r = RAwait ∨ r = RLock) →
  (c_owner c = Some HReaper ↔ reaper_holds r = true) → (r = RTerm TSweep → k_leader (c_kernel c) ≠ LRunning) →
  (past_sweep r = true → c_failed c = false → c_swept c = true) → inv (set_reaper r c).
Proof. intros [] Hg Hd Hl Ho Hs Hp. split; done. Qed.
(** Where the reaper is decides the rest. *)
Ltac pcs := intuition congruence.
Lemma reaper_inv fails c c' : inv c → await_exit_and_reap fails c = Some c' → inv c'.
Proof.
  intros Hi Hs. destruct (Hi) as [Hg Hgd Hl Ho Hsig Hterm Hrs Hss Hsent Hsw Hd]. unfold await_exit_and_reap in Hs.
  destruct (c_reaper c) as [| | t | | |] eqn:Er; cbn [reaper_holds past_sweep] in *.
  - assert (c' = set_reaper RLock c) as ->. { destruct fails; [by injection Hs |]. case_bool_decide; [by injection Hs | done]. }
    apply reaper_pc_inv; cbn; try done; by pcs.
  - case_bool_decide as Eo; [| done]. destruct (c_state c) eqn:Es; [| by pcs]. injection Hs as <-.
    rewrite Eo in *. split; cbn; try done; try by pcs.
    + intros i. split; [done | by intros Hx%Hsig].
    + intros i t Ht. assert (None = Some (HSignal i)) by (apply Hsig; eauto). done.
  - assert (k_leader (c_kernel c) ≠ LGone) as Hng by pcs. destruct (decide (t = TEnd)) as [-> | Hne].
    + injection Hs as <-. apply reaper_pc_inv; cbn; try done; by pcs.
    + assert (∃ t' c1, terminate_process_group fails t c = Some (t', c1) ∧ c' = set_reaper (RTerm t') c1) as (t' & c1 & Ht & ->).
      { destruct t; try done; apply bind_Some in Hs as ([t' c1] & ? & [= <-]); eauto. }
      apply term_inv in Ht as (Hi1 & Hst & Hown & Hr & _ & Hld & Hsw1 & _ & Hd1); [| done | done | by intros ->; apply Hrs].
      apply reaper_pc_inv; [done | rewrite Hld; by pcs | by intros [? | ?] | rewrite Hst; by pcs | rewrite Hown; done | by intros [= ->]; apply Hsw1 |].
      destruct t'; cbn; try done. intros _. by apply Hd1.
  - destruct fails; [injection Hs as <-; split; cbn; try done; by pcs |].
    case_bool_decide as El; [| done]. injection Hs as <-. split; cbn; try done; try by pcs.
  - injection Hs as <-. split; cbn; try done; try by pcs.
    intros i. split; [done |]. intros Hx%Hsig. by rewrite (proj2 Ho eq_refl) in Hx.
  - done.
Qed.
Lemma signal_pc_inv c i s s' : inv c → c_signals c !! i = Some s → c_owner c = None ∨ c_owner c = Some (HSignal i) →
  (∀ t, s' = STerm t → c_state c = Live) → (s' = STerm TSweep → k_leader (c_kernel c) ≠ LRunning) →
  inv (set_owner (if signal_holds s' then Some (HSignal i) else None) (set_signal i s' c)).
Proof.
  intros [Hg Hgd Hl Ho Hsig Hterm Hrs Hss Hsent Hsw Hd] Hi Hown Ht Hsweep.
  pose proof (λ j x, lookup_set_signal i s s' c j x Hi) as Hlk. cbn in Hlk.
  assert (reaper_holds (c_reaper c) = false) as Hr by (apply not_true_iff_false; intros E%Ho; destruct Hown; congruence).
  split; cbn; try done.
  - rewrite Hr. by destruct (signal_holds s').
  - intros j. setoid_rewrite Hlk. split.
    + destruct (signal_holds s') eqn:Es; [| done]. intros [= <-]. exists s'. auto.
    + intros (x & [[-> ->] | [Hne Hx]] & Hh); [by rewrite Hh |]. assert (c_owner c = Some (HSignal j)) as E by (apply Hsig; eauto).
      destruct Hown; congruence.
  - intros j t [[-> <-] | [_ Hx]]%Hlk; [by eapply Ht | by eapply Hterm].
  - intros j [[-> <-] | [_ Hx]]%Hlk; [by apply Hsweep | by eapply Hss].
Qed.
Lemma set_owner_id i s' c : c_owner c = (if signal_holds s' then Some (HSignal i) else None) →
  set_owner (if signal_holds s' then Some (HSignal i) else None) (set_signal i s' c) = set_signal i s' c.
Proof. intros <-. done. Qed.
Lemma signal_inv i fails c c' : inv c → terminate i fails c = Some c' → inv c'.
Proof.
  intros Hi Hs. unfold terminate in Hs. apply bind_Some in Hs as (pc & Hpc & Hs).
  assert (signal_holds pc = true → c_owner c = Some (HSignal i)) as Hown by (intros; apply (i_signal _ Hi); eauto).
  destruct pc as [| | t | |]; cbn [signal_holds] in Hown; try specialize (Hown eq_refl).
  - case_bool_decide as Eo; [| done]. injection Hs as <-. apply (signal_pc_inv c i SLock SCheck); auto; done.
  - injection Hs as <-. rewrite <- set_owner_id; [eapply signal_pc_inv; eauto; by destruct (c_state c) |]. rewrite Hown. by destruct (c_state c).
  - assert (c_state c = Live) as El by (by eapply (i_term _ Hi)).
    assert (k_leader (c_kernel c) ≠ LGone) as Hng by (pose proof (i_gone _ Hi); pose proof (i_live _ Hi); by pcs).
    destruct (decide (t = TEnd)) as [-> | Hne].
    + injection Hs as <-. rewrite <- (set_owner_id i SUnlock); [eapply signal_pc_inv; eauto; done | done].
    + assert (∃ t' c1, terminate_process_group fails t c = Some (t', c1) ∧ c' = set_signal i (STerm t') c1) as (t' & c1 & Ht & ->).
      { destruct t; try done; apply bind_Some in Hs as ([t' c1] & ? & [= <-]); eauto. }
      apply term_inv in Ht as (Hi1 & Hst & Hown1 & _ & Hsg & _ & Hsw1 & _ & _); [| done | done | by intros ->; apply (i_signal_sweeps _ Hi i)].
      rewrite <- (set_owner_id i (STerm t')); [| by rewrite Hown1].
      eapply signal_pc_inv; [done | by rewrite Hsg | right; by rewrite Hown1 | by rewrite Hst | by intros [= ->]; apply Hsw1].
  - injection Hs as <-. apply (signal_pc_inv c i SUnlock SDone); auto; done.
  - done.
Qed.
Lemma pstep_inv m c c' : inv c → pstep m c = Some c' → inv c'.
Proof.
  intros Hi Hs. destruct m as [m | |]; cbn in Hs; [| by eapply reaper_inv | by eapply signal_inv].
  apply bind_Some in Hs as (k & (Hg & Hr & He)%kstep_ok & [= <-]). by apply kernel_inv.
Qed.
Lemma pruns_inv ms c c' : inv c → pruns ms c = Some c' → inv c'.
Proof.
  revert c. induction ms as [| m ms IH]; intros c Hi; cbn [pruns]; [by intros [= <-] |].
  intros (c1 & Hc1 & Hc')%bind_Some. by eapply IH, Hc'; eapply pstep_inv.
Qed.

(** *** Every thread gets to its end *)

Definition term_weight (t : terminating) : nat := match t with TKill => 3 | TAwait => 2 | TSweep => 1 | TEnd => 0 end.
Definition reaper_weight (r : reaper) : nat :=
  match r with RAwait => 8 | RLock => 7 | RTerm t => 3 + term_weight t | RWait => 2 | RUnlock => 1 | RDone => 0 end.
Definition signal_weight (s : signaller) : nat :=
  match s with SLock => 7 | SCheck => 6 | STerm t => 2 + term_weight t | SUnlock => 1 | SDone => 0 end.
(** What is left to do for the threads. *)
Definition left_to_do (c : config) : nat := reaper_weight (c_reaper c) + sum_list (signal_weight <$> c_signals c).
Definition is_thread (m : move) : bool := match m with Kernel _ => false | _ => true end.
Lemma sum_insert {A} (w : A → nat) l i s s' : l !! i = Some s → (sum_list (w <$> <[i := s']> l) + w s = sum_list (w <$> l) + w s')%nat.
Proof.
  revert i. induction l as [| x l IH]; intros [| i] Hi; cbn in Hi; [done | done | |].
  - injection Hi as ->. cbn. lia.
  - specialize (IH i Hi). change (<[S i := s']> (x :: l)) with (x :: <[i := s']> l). rewrite !fmap_cons.
    cbn [sum_list_with]. lia.
Qed.
Lemma term_less fails t t' c c' : terminate_process_group fails t c = Some (t', c') →
  (term_weight t' < term_weight t)%nat ∧ c_reaper c' = c_reaper c ∧ c_signals c' = c_signals c.
Proof.
  destruct t; cbn; [intros [= <- <-] | | intros [= <- <-] | done]; [destruct fails | destruct fails; [intros [= <- <-] | case_bool_decide; [intros [= <- <-] | done]] | destruct fails];
    cbn; split_and!; (lia || done).
Qed.
Lemma reap_less fails c c' : await_exit_and_reap fails c = Some c' →
  (left_to_do c' < left_to_do c)%nat.
Proof.
  intros Hs. unfold await_exit_and_reap in Hs. unfold left_to_do. destruct (c_reaper c) as [| | t | | |] eqn:Er.
  - assert (c' = set_reaper RLock c) as ->. { destruct fails; [by injection Hs |]. case_bool_decide; [by injection Hs | done]. } cbn. lia.
  - case_bool_decide; [| done]. destruct (c_state c); injection Hs as <-; cbn; lia.
  - destruct (decide (t = TEnd)) as [-> | Hne]; [injection Hs as <-; cbn; lia |].
    assert (∃ t' c1, terminate_process_group fails t c = Some (t', c1) ∧ c' = set_reaper (RTerm t') c1) as (t' & c1 & (Hw & _ & Es)%term_less & ->).
    { destruct t; try done; apply bind_Some in Hs as ([t' c1] & ? & [= <-]); eauto. }
    cbn. rewrite Es. lia.
  - destruct fails; [injection Hs as <-; cbn; lia |]. case_bool_decide; [| done]. injection Hs as <-. cbn. lia.
  - injection Hs as <-. cbn. lia.
  - done.
Qed.
Lemma signal_less i fails c c' : terminate i fails c = Some c' →
  (left_to_do c' < left_to_do c)%nat.
Proof.
  intros Hs. unfold terminate in Hs. apply bind_Some in Hs as (pc & Hpc & Hs). unfold left_to_do.
  pose proof (λ s', sum_insert signal_weight _ _ _ s' Hpc) as Hsum.
  destruct pc as [| | t | |]; cbn [signal_weight] in Hsum.
  - case_bool_decide; [| done]. injection Hs as <-. specialize (Hsum SCheck). cbn in *. lia.
  - injection Hs as <-. specialize (Hsum (match c_state c with Live => STerm TKill | Reaped => SUnlock end)). cbn in *. destruct (c_state c); cbn in *; lia.
  - destruct (decide (t = TEnd)) as [-> | Hne]; [injection Hs as <-; specialize (Hsum SUnlock); cbn in *; lia |].
    assert (∃ t' c1, terminate_process_group fails t c = Some (t', c1) ∧ c' = set_signal i (STerm t') c1) as (t' & c1 & (Hw & Er & Es)%term_less & ->).
    { destruct t; try done; apply bind_Some in Hs as ([t' c1] & ? & [= <-]); eauto. }
    specialize (Hsum (STerm t')). cbn in *. rewrite Er, Es. lia.
  - injection Hs as <-. specialize (Hsum SDone). cbn in *. lia.
  - done.
Qed.
Lemma pruns_bounded ms c c' : pruns ms c = Some c' → (length (filter (λ m, is_thread m = true) ms) + left_to_do c' ≤ left_to_do c)%nat.
Proof.
  revert c. induction ms as [| m ms IH]; intros c; cbn [pruns]; [intros [= <-]; cbn; lia |]. intros (c1 & Hc1 & Hc')%bind_Some.
  specialize (IH c1 Hc'). rewrite filter_cons. destruct m as [m | fails | i fails]; cbn [is_thread] in *; cbn in Hc1.
  - apply bind_Some in Hc1 as (k & _ & [= <-]). done.
  - apply reap_less in Hc1. rewrite decide_True by done. cbn [length]. lia.
  - apply signal_less in Hc1. rewrite decide_True by done. cbn [length]. lia.
Qed.
Lemma term_enabled t c : k_leader (c_kernel c) = LZombie → t ≠ TEnd → is_Some (terminate_process_group false t c).
Proof. intros Hz Ht. destruct t; cbn; try done. by rewrite bool_decide_eq_true_2. Qed.
Definition finished (c : config) : Prop := c_reaper c = RDone ∧ Forall (λ s, s = SDone) (c_signals c).
Lemma signal_enabled c i s : inv c → k_leader (c_kernel c) ≠ LRunning → c_signals c !! i = Some s → s ≠ SDone →
  c_owner c = None ∨ c_owner c = Some (HSignal i) → is_Some (terminate i false c).
Proof.
  intros Hi Hl Hs Hne Ho. unfold terminate. rewrite Hs. cbn. destruct s as [| | t | |]; try done.
  - destruct Ho as [Ho | Ho]; [by rewrite bool_decide_eq_true_2 |]. apply (i_signal _ Hi) in Ho as (s & Hs' & Hh). by rewrite Hs in Hs'; injection Hs' as <-.
  - destruct (decide (t = TEnd)) as [-> | Ht]; [done |].
    assert (k_leader (c_kernel c) = LZombie) as Hz.
    { pose proof (i_term _ Hi i t Hs) as El. pose proof (i_live _ Hi). pose proof (i_gone _ Hi). destruct (k_leader (c_kernel c)); [done | done | by pcs]. }
    destruct (term_enabled t c Hz Ht) as [[t' c'] E]. destruct t; try done; rewrite E; cbn; eauto.
Qed.
Lemma reaper_enabled c : inv c → k_leader (c_kernel c) ≠ LRunning → c_reaper c ≠ RDone →
  c_owner c = None ∨ c_owner c = Some HReaper → is_Some (await_exit_and_reap false c).
Proof.
  intros Hi Hl Hne Ho. pose proof (i_gone _ Hi) as Hg. pose proof (i_reaper _ Hi) as Hr.
  unfold await_exit_and_reap. destruct (c_reaper c) as [| | t | | |] eqn:Er; cbn in Hr; try done.
  all: assert (k_leader (c_kernel c) = LZombie ∨ c_reaper c = RUnlock) as Hz by (rewrite Er; destruct (k_leader (c_kernel c)); by pcs).
  all: rewrite Er in Hz; destruct Hz as [Hz | Hz]; try done.
  - by rewrite bool_decide_eq_true_2.
  - rewrite bool_decide_eq_true_2; [by destruct (c_state c) |]. by pcs.
  - destruct (decide (t = TEnd)) as [-> | Ht]; [done |]. destruct (term_enabled t c Hz Ht) as [[t' c'] E]. destruct t; try done; rewrite E; cbn; eauto.
  - by rewrite bool_decide_eq_true_2.
Qed.
(** The next steps of the threads, none of their calls failing. *)
Definition thread_moves (c : config) : list move := Reap false :: ((λ i, Signal i false) <$> seq 0 (length (c_signals c))).
Lemma progress c : inv c → finished c ∨ k_leader (c_kernel c) = LRunning ∨ ∃ m, m ∈ thread_moves c ∧ is_Some (pstep m c).
Proof.
  intros Hi. destruct (decide (k_leader (c_kernel c) = LRunning)) as [El | Hl]; [auto |].
  assert (∀ i s, c_signals c !! i = Some s → s ≠ SDone → c_owner c = None ∨ c_owner c = Some (HSignal i) →
    ∃ m, m ∈ thread_moves c ∧ is_Some (pstep m c)) as Hsig.
  { intros i s Hs Hne Ho. exists (Signal i false). split; [| by eapply signal_enabled]. right. apply list_elem_of_fmap.
    exists i. split; [done |]. apply elem_of_seq. apply lookup_lt_Some in Hs. lia. }
  destruct (c_owner c) as [[| i] |] eqn:Eo.
  - right; right. exists (Reap false). split; [by left |]. apply reaper_enabled; [done | done | | auto].
    intros Er. apply (i_reaper _ Hi) in Eo. by rewrite Er in Eo.
  - right; right. apply (i_signal _ Hi) in Eo as (s & Hs & Hh). eapply (Hsig i s); [done | by intros -> | auto].
  - destruct (decide (c_reaper c = RDone)) as [Er | Er].
    + destruct (decide (Forall (λ s, s = SDone) (c_signals c))) as [Hf | Hf]; [by left |]. right; right.
      apply not_Forall_Exists in Hf; [| apply _]. apply Exists_exists in Hf as (s & (i & Hs)%list_elem_of_lookup & Hne). eapply Hsig; eauto.
    + right; right. exists (Reap false). split; [by left |]. apply reaper_enabled; auto.
Qed.

(** C20: The process id of a worker is signalled only while it is the worker's.  However the
    one reaper, any number of signalling handles and the kernel interleave, whatever the
    processes of the group do and whichever calls fail, no signal is sent to a process id that
    was reaped.  When the reaper is done and no wait and no second sweep failed, the worker is
    reaped, and the group is empty, also of a child the worker itself was forking when the first
    signal came, unless another member was inside a fork at the last sweep; processes that left
    the group are not covered.  Once the worker has exited some thread can take a step until all
    are at their end, and in every continuation the threads take boundedly many. *)
Theorem group_killed_before_reap ms members handles c :
  pruns ms (supervised members handles) = Some c →
  Forall (λ l, l ≠ LGone) (c_sent c)
  ∧ (c_reaper c = RDone → c_failed c = false → k_leader (c_kernel c) = LGone ∧ (c_midfork c = false → emptied (c_kernel c)))
  ∧ (finished c ∨ k_leader (c_kernel c) = LRunning ∨ ∃ m c', m ∈ thread_moves c ∧ pstep m c = Some c')
  ∧ (∀ ms' c', pruns ms' c = Some c' → (length (filter (λ m, is_thread m = true) ms') ≤ left_to_do c)%nat).
Proof.
  intros Hr. assert (inv c) as Hi by (eapply pruns_inv, Hr; apply supervised_inv). split_and!.
  - apply (i_sent _ Hi).
  - intros Er Hf. split; [apply (i_reaped _ Hi); auto |]. apply (i_swept _ Hi), (i_done _ Hi); [by rewrite Er | done].
  - destruct (progress c Hi) as [? | [? | (m & Hm & [c' Hc'])]]; eauto 6.
  - intros ms' c' Hc'. apply pruns_bounded in Hc'. lia.
Qed.
(** A signal, a fork of the worker under way, its exit, and the reap. *)
Lemma group_killed_before_reap_witness :
  let ms := [Kernel MemberFork; Kernel MemberForked; Signal 0 false; Signal 0 false; Signal 0 false; Kernel Fork; Kernel Exit; Reap false;
             Signal 0 false; Signal 0 false; Signal 0 false; Signal 0 false] ++ replicate 7 (Reap false) in
  ∃ c, pruns ms (supervised 2 1) = Some c ∧ c_sent c = [LRunning; LZombie; LZombie; LZombie] ∧ k_leader (c_kernel c) = LGone ∧ emptied (c_kernel c).
Proof.
  intros ms. assert (∃ c, pruns ms (supervised 2 1) = Some c ∧ c_sent c = [LRunning; LZombie; LZombie; LZombie] ∧ c_reaper c = RDone ∧ c_failed c = false ∧ c_midfork c = false)
    as (c & Hr & Hs & Hd & Hf & Hm).
  { eexists. split; [vm_compute; reflexivity | done]. }
  exists c. split; [exact Hr |]. split; [exact Hs |]. destruct (group_killed_before_reap ms 2 1 c Hr) as (_ & Hx & _). destruct (Hx Hd Hf) as [Hg He].
  split; [exact Hg | exact (He Hm)].
Defined.
(** A member inside a fork at the last sweep leaves a process behind, and so does one that
    left the group. *)
Lemma sweep_is_best_effort :
  (∃ c, pruns ([Kernel Exit; Kernel MemberFork] ++ replicate 8 (Reap false) ++ [Kernel DoomedForked]) (supervised 1 0) = Some c
     ∧ c_reaper c = RDone ∧ c_failed c = false ∧ k_members (c_kernel c) = 1%nat)
  ∧ ∃ c, pruns ([Kernel MemberLeaves; Kernel Exit] ++ replicate 8 (Reap false)) (supervised 1 0) = Some c
     ∧ c_reaper c = RDone ∧ c_failed c = false ∧ k_escaped (c_kernel c) = 1%nat.
Proof. split; eexists; (split; [vm_compute; reflexivity | done]). Qed.

(** ** The readiness line, exactly *)

Lemma readiness_from preamble reader line : (length preamble ≤ READINESS_PREAMBLE_LINES)%nat →
  read_readiness_line_from preamble reader = Ok (Some line) ↔
  ∃ foreign rest, reader = (Ok <$> foreign) ++ Ok line :: rest ∧ opens_event line = true ∧ Forall (λ l, opens_event l = false) foreign
    ∧ (length preamble + length foreign ≤ READINESS_PREAMBLE_LINES)%nat.
Proof.
  revert preamble. induction reader as [| r reader IH]; intros preamble Hp; cbn [read_readiness_line_from].
  { case_bool_decide; split; [done | | done |]; intros (foreign & ? & Hx & _); by destruct foreign. }
  destruct r as [l | e |]; [| split; [done |]; intros (foreign & ? & Hx & _); by destruct foreign..].
  destruct (opens_event l) eqn:El.
  - split.
    + intros [= ->]. exists [], reader. split_and!; [done | done | constructor | cbn; lia].
    + intros ([| f foreign] & rest & Hx & Ho & Hf & _); [by injection Hx as -> _ |]. injection Hx as -> _. apply Forall_cons in Hf as [Hf _]. congruence.
  - cbv zeta. destruct (Nat.ltb_spec READINESS_PREAMBLE_LINES (length (preamble ++ [trim_end l]))) as [Hlt | Hle]; rewrite length_app in *; cbn [length] in *.
    + split; [done |]. intros ([| f foreign] & rest & Hx & Ho & Hf & Hn); [injection Hx as -> _; congruence |]. cbn in Hn. lia.
    + rewrite IH by (rewrite length_app; cbn; lia). rewrite length_app. cbn [length]. split.
      * intros (foreign & rest & -> & Ho & Hf & Hn). exists (l :: foreign), rest. split_and!; [done | done | by constructor | cbn; lia].
      * intros ([| f foreign] & rest & Hx & Ho & Hf & Hn); [injection Hx as -> _; congruence |]. injection Hx as -> ->. apply Forall_cons in Hf as [_ Hf].
        exists foreign, rest. split_and!; [done | done | done | cbn in Hn; lia].
Qed.
(** The line a worker is believed by is the first of its stream that opens an object, after
    at most [READINESS_PREAMBLE_LINES] others. *)
Lemma readiness_line_exact reader line :
  read_readiness_line reader = Ok (Some line) ↔
  ∃ foreign rest, reader = (Ok <$> foreign) ++ Ok line :: rest ∧ opens_event line = true ∧ Forall (λ l, opens_event l = false) foreign
    ∧ (length foreign ≤ READINESS_PREAMBLE_LINES)%nat.
Proof. apply (readiness_from [] reader line). cbn. lia. Qed.
