(* ===== verification/Cgroup.v ===== *)
(** * Control groups of the native tier

    [rs/ll-open/runtime/src/backends/cgroup.rs]: one directory per run under a root the operator
    delegates, its ceilings as control files, and its teardown.  The state is what has been
    written below the root, the calls made and the pauses taken; the kernel (class
    [Cgroupfs]) says which files a new directory holds, which calls fail, and when a group
    still holds processes. *)

From S2P Require Import Prelude Substrate Text Limits Authorization Ordered Confinement CasEvidence Sandbox StateM.
From stdpp Require Import pretty.
From Stdlib Require Import NArith Lia Ascii.
Local Open Scope N_scope.

Definition CGROUP2_SUPER_MAGIC : N := 1667723888.
Definition KILL_POLLS : nat := 1000.

Class Cgroupfs := {
  cg_files : list string;
  cg_fails : nat → option string;
  (** whether [cgroup.events] says [populated 1] at a call *)
  cg_populated : nat → bool;
  (** [statfs] of a path, and the root's [cgroup.subtree_control] *)
  cg_magic : string → result string N;
  cg_subtree_control : string → result string string;
}.
(** The directories below the root, each with what its files hold. *)
Record cgroups := { cg_dirs : gmap string (gmap string string); cg_calls : nat; cg_pauses : nat }.
Definition CM : Type → Type := M cgroups ExecutionError.

Record CgroupRoot := { cr_path : string; cr_memory : bool; cr_cpu : bool; cr_pids : bool; cr_stand_in : bool }.
Record RunCgroup := { rc_name : string; rc_path : string; rc_stand_in : bool }.

(** [split_whitespace] *)
Fixpoint split_chars (word : list byte) (l : list (list byte)) : list string :=
  match l with
  | [] => if bool_decide (word = []) then [] else [string_of word]
  | c :: l => if is_whitespace c then (if bool_decide (word = []) then [] else [string_of word]) ++ split_chars [] l else split_chars (word ++ c) l
  end.
Definition split_whitespace (s : string) : list string := split_chars [] (chars (bytes_of s)).

Definition alphanumeric (c : ascii) : bool :=
  let n := N_of_ascii c in ((48 <=? n) && (n <=? 57)) || ((65 <=? n) && (n <=? 90)) || ((97 <=? n) && (n <=? 122)).
Definition mechanism (enabled : bool) : CeilingMechanism := if enabled then Cgroup else Unenforced.
Definition enforced (root : CgroupRoot) : EnforcedCeilings := {|
  enf_wall_time := Supervisor; enf_output_bytes := Unenforced; enf_memory := mechanism (cr_memory root);
  enf_cpu := mechanism (cr_cpu root); enf_pids := mechanism (cr_pids root) |}.

Section cgroup.
Context `{Fmt, Cgroupfs}.

Definition filesystem_magic (target : Target) (path : string) : result ExecutionError N :=
  match target with
  | Linux => map_err (λ error, backend_error ("cgroup root " +:+ display path +:+ ": statfs: " +:+ error)) (cg_magic path)
  | _ => Err (backend_error ("cgroup root " +:+ display path +:+ ": cgroup v2 exists only on Linux"))
  end.
Definition inspect (path : string) (stand_in : bool) : result ExecutionError CgroupRoot :=
  controllers ← map_err (λ error, backend_error ("cgroup root " +:+ display path +:+ ": read cgroup.subtree_control: " +:+ error)) (cg_subtree_control path);
  let enabled (name : string) := bool_decide (name ∈ split_whitespace controllers) in
  mret {| cr_path := path; cr_memory := enabled "memory"; cr_cpu := enabled "cpu"; cr_pids := enabled "pids"; cr_stand_in := stand_in |}.
Definition on_filesystem (path : string) (magic : N) : result ExecutionError CgroupRoot :=
  if negb (magic =? CGROUP2_SUPER_MAGIC)
  then Err (backend_error ("cgroup root " +:+ display path +:+ " is not on a cgroup v2 filesystem"))
  else inspect path false.
Definition open (target : Target) (path : string) : result ExecutionError CgroupRoot :=
  magic ← filesystem_magic target path; on_filesystem path magic.

Definition run_cgroup_name (run_id : string) : result ExecutionError string :=
  let valid := negb (bool_decide (run_id = EmptyString)) && negb (bool_decide (run_id = "."%string)) && negb (bool_decide (run_id = ".."%string))
    && string_all (λ c, alphanumeric c || bool_decide (c = "-"%char) || bool_decide (c = "_"%char) || bool_decide (c = "."%char)) run_id in
  if negb valid then Err (invalid ("run_id " +:+ debug_str run_id +:+ " cannot name a cgroup directory")) else mret ("leyline-" +:+ run_id).

(** One call, with the error it is reported as. *)
Definition call {A} (message : string → string) (f : cgroups → result string A * cgroups) : CM A := λ s,
  let s := {| cg_dirs := cg_dirs s; cg_calls := S (cg_calls s); cg_pauses := cg_pauses s |} in
  let '(r, s) := match cg_fails (pred (cg_calls s)) with Some error => (Err error, s) | None => f s end in
  (map_err (λ error, backend_error (message error)) r, s).
Definition set_dirs (d : gmap string (gmap string string)) (s : cgroups) : cgroups :=
  {| cg_dirs := d; cg_calls := cg_calls s; cg_pauses := cg_pauses s |}.
Definition create_dir (name path : string) : CM unit :=
  call (λ error, "create run cgroup " +:+ display path +:+ ": " +:+ error) (λ s,
    if bool_decide (is_Some (cg_dirs s !! name)) then (Err "file exists"%string, s)
    else (Ok tt, set_dirs (<[name := list_to_map ((λ f, (f, EmptyString)) <$> cg_files)]> (cg_dirs s)) s)).
(** [Path::exists], which answers false when it fails. *)
Definition exists_at (name : string) (file : option string) : CM bool := λ s,
  let there := match cg_dirs s !! name, file with Some files, Some f => bool_decide (is_Some (files !! f)) | Some _, None => true | None, _ => false end in
  (Ok match cg_fails (cg_calls s) with Some _ => false | None => there end,
   {| cg_dirs := cg_dirs s; cg_calls := S (cg_calls s); cg_pauses := cg_pauses s |}).
Definition put (name file value : string) (create : bool) (s : cgroups) : result string unit * cgroups :=
  match cg_dirs s !! name with
  | Some files =>
      if create || bool_decide (is_Some (files !! file)) then (Ok tt, set_dirs (<[name := <[file := value]> files]> (cg_dirs s)) s)
      else (Err "no such file"%string, s)
  | None => (Err "no such file"%string, s)
  end.
Definition write (run : RunCgroup) (file value : string) : CM unit :=
  call (λ error, "write " +:+ debug_str value +:+ " to " +:+ display (rc_path run) +:+ "/" +:+ file +:+ ": " +:+ error) (put (rc_name run) file value (rc_stand_in run)).
Definition write_if_present (run : RunCgroup) (file value : string) : CM unit :=
  present ← exists_at (rc_name run) (Some file);
  if (present : bool) then write run file value else mret tt.
Definition place (run : RunCgroup) (pid : N) : CM unit := write run "cgroup.procs" (pretty pid).

Definition pause : CM unit := modify (λ s, {| cg_dirs := cg_dirs s; cg_calls := cg_calls s; cg_pauses := S (cg_pauses s) |}).
(** [read_to_string(events).map(..).unwrap_or(false)] *)
Definition populated : CM bool := λ s,
  (Ok match cg_fails (cg_calls s) with Some _ => false | None => cg_populated (cg_calls s) end,
   {| cg_dirs := cg_dirs s; cg_calls := S (cg_calls s); cg_pauses := cg_pauses s |}).
Fixpoint await_empty (name path : string) (pauses_left : nat) : CM unit :=
  there ← exists_at name (Some "cgroup.events"%string);
  if negb there then mret tt else
  holds ← populated;
  if negb holds then mret tt else
  match pauses_left with
  | O => throw (backend_error ("run cgroup " +:+ display path +:+ " still holds processes after cgroup.kill"))
  | S pauses_left => _ ← pause; await_empty name path pauses_left
  end.
(** The stand-in of the unit tests removes a tree, the kernel a directory. *)
Definition remove_dir (name path : string) : CM unit :=
  call (λ error, "remove run cgroup " +:+ display path +:+ ": " +:+ error) (λ s,
    match cg_dirs s !! name with Some _ => (Ok tt, set_dirs (delete name (cg_dirs s)) s) | None => (Err "no such file"%string, s) end).
Definition remove_run_cgroup (name path : string) : CM unit :=
  there ← exists_at name None;
  if negb there then mret tt else
  killable ← exists_at name (Some "cgroup.kill"%string);
  _ ← (if (killable : bool)
       then call (λ error, "write " +:+ display path +:+ "/cgroup.kill: " +:+ error) (put name "cgroup.kill" "1" true) else mret tt);
  _ ← await_empty name path KILL_POLLS;
  remove_dir name path.
Definition remove (run : RunCgroup) : CM unit := remove_run_cgroup (rc_name run) (rc_path run).
(** [Drop]: the error is dropped with the value. *)
Definition drop_run (run : RunCgroup) : CM unit := _ ← attempt (remove run); mret tt.

Definition write_ceilings (run : RunCgroup) (limits : ResourceLimits) : CM unit :=
  _ ← (if memory_limit (memory limits) =? 0 then mret tt else
       _ ← write run "memory.max" (pretty (memory_limit (memory limits)));
       _ ← write_if_present run "memory.swap.max" "0";
       write_if_present run "memory.oom.group" "1");
  line ← lift (cgroup_max (cpu limits));
  _ ← match line with Some line => write run "cpu.max" line | None => mret tt end;
  if pids_limit (pids limits) =? 0 then mret tt else write run "pids.max" (pretty (pids_limit (pids limits))).
Definition create_run (root : CgroupRoot) (run_id : string) (limits : ResourceLimits) : CM RunCgroup :=
  _ ← lift (check (enforced root) limits);
  name ← lift (run_cgroup_name run_id);
  let path := path_join (cr_path root) name in
  _ ← create_dir name path;
  let run := {| rc_name := name; rc_path := path; rc_stand_in := cr_stand_in root |} in
  written ← attempt (write_ceilings run limits);
  match written with
  | Ok _ => mret run
  | Err error => _ ← drop_run run; throw error
  | Panic => panic
  end.
End cgroup.

(** ** A run's group carries its ceilings *)

(** Nothing but one directory is touched. *)
Definition only (name : string) (s s' : cgroups) : Prop := ∀ d, d ≠ name → cg_dirs s' !! d = cg_dirs s !! d.
#[global] Instance only_preorder name : PreOrder (only name).
Proof. split; [by intros s d | intros s1 s2 s3 H12 H23 d Hd; by rewrite H23, H12]. Qed.

Section lemmas.
Context `{Fmt, Cgroupfs}.

Lemma call_only name {A} message (f : cgroups → result string A * cgroups) : (∀ s, only name s (f s).2) → StateM.within (only name) (call message f).
Proof.
  intros Hf s. unfold call. cbn. destruct (cg_fails (cg_calls s)); [done |]. pose proof (Hf {| cg_dirs := cg_dirs s; cg_calls := S (cg_calls s); cg_pauses := cg_pauses s |}) as Hs.
  destruct (f _) as [r s1]. exact Hs.
Qed.
Lemma put_only name file value create s : only name s (put name file value create s).2.
Proof.
  unfold put. destruct (cg_dirs s !! name); [| done]. destruct (create || _); [| done]. intros d Hd. cbn. by rewrite lookup_insert_ne.
Qed.
Lemma write_only run file value : StateM.within (only (rc_name run)) (write run file value).
Proof. apply call_only. intros s. apply put_only. Qed.
Lemma exists_at_only name d file : StateM.within (only name) (exists_at d file).
Proof. by intros s. Qed.
Lemma populated_only name : StateM.within (only name) populated.
Proof. by intros s. Qed.
Lemma pause_only name : StateM.within (only name) pause.
Proof. by intros s. Qed.
Hint Resolve write_only exists_at_only populated_only pause_only : within.
Lemma await_only name path n : StateM.within (only name) (await_empty name path n).
Proof. induction n; cbn [await_empty]; within_tac. Qed.
Hint Resolve await_only : within.
Lemma remove_only name path : StateM.within (only name) (remove_run_cgroup name path).
Proof.
  unfold remove_run_cgroup. within_tac; apply call_only; intros s; [apply put_only |]. destruct (cg_dirs s !! name); [| done].
  intros d Hd. cbn. by rewrite lookup_delete_ne.
Qed.
Lemma write_ceilings_only run limits : StateM.within (only (rc_name run)) (write_ceilings run limits).
Proof. unfold write_ceilings, write_if_present. within_tac. Qed.

(** What a file of the run's directory holds. *)
Definition file_at (name file : string) (s : cgroups) : option string := files ← cg_dirs s !! name; files !! file.
Definition same_file (name file : string) (s s' : cgroups) : Prop := file_at name file s' = file_at name file s.
#[local] Instance same_file_preorder name file : PreOrder (same_file name file).
Proof. split; [by intros s | intros s1 s2 s3 H12 H23; unfold same_file in *; congruence]. Qed.
Lemma write_ok run file value s s' u : write run file value s = (Ok u, s') → file_at (rc_name run) file s' = Some value.
Proof.
  unfold write, call. cbn. destruct (cg_fails (cg_calls s)); [done |]. unfold put. cbn. destruct (cg_dirs s !! rc_name run) as [files |]; [| done].
  destruct (_ || _); [| done]. intros [= _ <-]. unfold file_at. cbn. rewrite lookup_insert_eq. cbn. by rewrite lookup_insert_eq.
Qed.
Lemma write_other run file file' value : file ≠ file' → StateM.within (same_file (rc_name run) file) (write run file' value).
Proof.
  intros Hne s. unfold write, call. cbn. destruct (cg_fails (cg_calls s)); [done |]. unfold put, same_file, file_at. cbn.
  destruct (cg_dirs s !! rc_name run) as [files |] eqn:E; [| cbn; by rewrite E]. destruct (_ || _); cbn; [| by rewrite E].
  rewrite lookup_insert_eq. cbn. by rewrite lookup_insert_ne.
Qed.
Lemma exists_at_file name file d f : StateM.within (same_file name file) (exists_at d f).
Proof. by intros s. Qed.
Lemma optional_other run file file' value : file ≠ file' → StateM.within (same_file (rc_name run) file) (write_if_present run file' value).
Proof. intros Hne. unfold write_if_present. apply (within_bind _); [apply exists_at_file |]. intros []; [by apply write_other | apply within_ret, _]. Qed.

(** What the kernel is told: each requested ceiling in its file, and nothing in the others. *)
Record carries (limits : ResourceLimits) (fresh : string → option string) (files : string → option string) : Prop := {
  ca_memory : files "memory.max"%string = if memory_limit (memory limits) =? 0 then fresh "memory.max"%string else Some (pretty (memory_limit (memory limits)));
  ca_cpu : files "cpu.max"%string = if quota (cpu limits) =? 0 then fresh "cpu.max"%string
    else Some (pretty (quota (cpu limits)) +:+ " " +:+ pretty (effective_period (cpu limits)))%string;
  ca_pids : files "pids.max"%string = if pids_limit (pids limits) =? 0 then fresh "pids.max"%string else Some (pretty (pids_limit (pids limits)));
}.
Lemma cgroup_max_line c line : cgroup_max c = Ok line →
  line = if quota c =? 0 then None else Some (pretty (quota c) +:+ " " +:+ pretty (effective_period c))%string.
Proof. unfold cgroup_max. destruct (quota c =? 0); [by intros [= <-] |]. destruct (negb _); [done |]. destruct (_ <? _); [done |]. by intros [= <-]. Qed.
Lemma write_ceilings_ok run limits s s' u : write_ceilings run limits s = (Ok u, s') →
  carries limits (λ f, file_at (rc_name run) f s) (λ f, file_at (rc_name run) f s').
Proof.
  intros Hw. unfold write_ceilings in Hw. apply run_bind in Hw as (u1 & s1 & H1 & Hw). apply run_bind in Hw as (line & s2 & [Hline ->]%lift_ok & Hw).
  apply run_bind in Hw as (u2 & s3 & H2 & H3). apply cgroup_max_line in Hline.
  assert (∀ f, f ∉ ["memory.max"; "memory.swap.max"; "memory.oom.group"]%string → same_file (rc_name run) f s s1) as K1.
  { intros f Hf. apply not_elem_of_cons in Hf as [Hf1 [Hf2 [Hf3 _]%not_elem_of_cons]%not_elem_of_cons].
    destruct (memory_limit (memory limits) =? 0); [by injection H1 as _ <- |].
    change s1 with (snd (@Ok ExecutionError _ u1, s1)). rewrite <- H1.
    apply (within_bind _); [by apply write_other |]. intros _. apply (within_bind _); [by apply optional_other |]. intros _. by apply optional_other. }
  assert (∀ f, f ≠ "cpu.max"%string → same_file (rc_name run) f s1 s3) as K2.
  { intros f Hf. destruct line; [| by injection H2 as _ <-]. change s3 with (snd (@Ok ExecutionError _ u2, s3)). rewrite <- H2. by apply write_other. }
  assert (∀ f, f ≠ "pids.max"%string → same_file (rc_name run) f s3 s') as K3.
  { intros f Hf. destruct (pids_limit (pids limits) =? 0); [by injection H3 as _ <- |]. change s' with (snd (@Ok ExecutionError _ u, s')). rewrite <- H3. by apply write_other. }
  unfold same_file in *. split.
  - rewrite K3, K2 by done. destruct (memory_limit (memory limits) =? 0); [by injection H1 as _ <- |].
    apply run_bind in H1 as (v1 & t1 & E1%write_ok & (v2 & t2 & E2 & E3)%run_bind).
    apply (f_equal snd) in E2, E3. cbn in E2, E3. subst t2 s1.
    etrans; [| exact E1]. etrans; [by apply (optional_other run "memory.max") | by apply (optional_other run "memory.max")].
  - rewrite K3 by done. subst line. destruct (quota (cpu limits) =? 0); [injection H2 as _ <-; by rewrite K1 by set_solver | by apply write_ok in H2].
  - destruct (pids_limit (pids limits) =? 0); [injection H3 as _ <-; by rewrite K2, K1 by set_solver | by apply write_ok in H3].
Qed.

Lemma await_bounded name path n s : let '(r, s') := await_empty name path n s in
  r ≠ Panic ∧ (cg_pauses s' ≤ cg_pauses s + n)%nat ∧ cg_dirs s' = cg_dirs s.
Proof.
  revert s. induction n as [| n IH]; intros s; cbn [await_empty]; unfold mbind, M_bind; cbn.
  all: destruct (negb _); [cbn; split_and!; (done || lia) |]; destruct (negb _); [cbn; split_and!; (done || lia) |].
  - cbn. split_and!; (done || lia).
  - unfold mbind, M_bind, pause, modify. cbn.
    pose proof (IH {| cg_dirs := cg_dirs s; cg_calls := S (S (cg_calls s)); cg_pauses := S (cg_pauses s) |}) as Hs.
    destruct (await_empty _ _ _ _) as [r s']. cbn in Hs. destruct Hs as (? & ? & ?). split_and!; (done || lia).
Qed.
(** Teardown ends within its polls, touches nothing else, and a teardown that succeeds
    (and found the directory where it is) has removed it. *)
Lemma remove_exact name path s : let '(r, s') := remove_run_cgroup name path s in
  r ≠ Panic ∧ (cg_pauses s' ≤ cg_pauses s + KILL_POLLS)%nat ∧ only name s s'
  ∧ (r = Ok tt → cg_fails (cg_calls s) = None → cg_dirs s' !! name = None).
Proof.
  destruct (remove_run_cgroup name path s) as [r s'] eqn:Er.
  assert (only name s s') as Ho by (change s' with (snd (r, s')); rewrite <- Er; apply remove_only).
  unfold remove_run_cgroup in Er. revert Er. generalize KILL_POLLS as polls. intros polls Er. unfold mbind at 1, M_bind at 1 in Er. cbn in Er.
  destruct (cg_fails (cg_calls s)) as [e |] eqn:Ef; [injection Er as <- <-; split_and!; (done || (cbn; lia)) |].
  destruct (cg_dirs s !! name) as [files |] eqn:Ed; [| injection Er as <- <-; split_and!; (done || (cbn; lia))].
  cbn [negb] in Er. unfold mbind at 1, M_bind at 1 in Er. cbn in Er.
  set (s1 := {| cg_dirs := cg_dirs s; cg_calls := S (S (cg_calls s)); cg_pauses := cg_pauses s |}) in Er.
  match type of Er with (?m ≫= ?f) s1 = _ => assert ((m s1).1 ≠ Panic ∧ cg_pauses (m s1).2 = cg_pauses s) as [Hp1 Hz1];
    [| unfold mbind at 1, M_bind at 1 in Er; destruct (m s1) as [[u | e |] s2] eqn:E1; cbn in Hp1, Hz1] end.
  { destruct (match cg_fails _ with Some _ => _ | None => _ end); [| done]. unfold call. cbn. unfold put. cbn. rewrite Ed. by destruct (cg_fails (S (S (cg_calls s)))). }
  2: injection Er as <- <-; split_and!; (done || lia).
  2: done.
  pose proof (await_bounded name path polls s2) as Ha. cbv beta in Er. unfold mbind, M_bind in Er.
  destruct (await_empty name path polls s2) as [[v | e |] s3]; destruct Ha as (Ha1 & Ha2 & Ha3); [| injection Er as <- <-; split_and!; (done || lia) | done].
  unfold remove_dir, call in Er. cbn in Er. destruct (cg_fails (cg_calls s3)); [injection Er as <- <-; cbn; split_and!; (done || lia) |].
  destruct (cg_dirs s3 !! name) eqn:E3; injection Er as <- <-; cbn; split_and!; try (done || lia). intros _ _. apply lookup_delete_eq.
Qed.
End lemmas.

Section runs.
Context `{Fmt, Cgroupfs}.

(** One name, without a separator, under the delegated root. *)
Lemma cgroup_name_ok run_id name : run_cgroup_name run_id = Ok name → name = "leyline-" +:+ run_id ∧ run_id ≠ EmptyString
  ∧ string_all (λ c, negb (bool_decide (c = "/"%char))) run_id = true.
Proof.
  unfold run_cgroup_name. destruct (negb _) eqn:E; [done |]. intros [= <-]. apply negb_false_iff in E.
  rewrite !andb_true_iff, negb_true_iff, bool_decide_eq_false in E. destruct E as (((Hne & _) & _) & Hall). split_and!; [done | done |].
  clear Hne. induction run_id as [| c s IH]; [done |]. cbn [string_all] in *. apply andb_true_iff in Hall as [Hc Hall]. rewrite IH by done.
  destruct (bool_decide_reflect (c = "/"%char)) as [-> | _]; [by vm_compute in Hc | done].
Qed.
Lemma bind_no_panic {A B} (m : CM A) (f : A → CM B) s : (m s).1 ≠ Panic → (∀ a s', (f a s').1 ≠ Panic) → ((m ≫= f) s).1 ≠ Panic.
Proof. intros Hm Hf. unfold mbind, M_bind. destruct (m s) as [[a | e |] s1]; cbn in *; auto. Qed.
Lemma write_no_panic run file value s : (write run file value s).1 ≠ Panic.
Proof. unfold write, call, put. cbn. destruct (cg_fails _); [done |]. destruct (cg_dirs s !! _); [| done]. by destruct (_ || _). Qed.
Lemma optional_no_panic run file value s : (write_if_present run file value s).1 ≠ Panic.
Proof. unfold write_if_present. apply bind_no_panic; [done |]. intros [] s'; [apply write_no_panic | done]. Qed.
Lemma write_ceilings_no_panic run limits s : (write_ceilings run limits s).1 ≠ Panic.
Proof.
  unfold write_ceilings. apply bind_no_panic.
  { destruct (_ =? 0); [done |]. apply bind_no_panic; [apply write_no_panic |]. intros _ s1. apply bind_no_panic; [apply optional_no_panic |].
    intros _ s2. apply optional_no_panic. }
  intros _ s1. apply bind_no_panic; [apply cgroup_max_total |]. intros line s2. apply bind_no_panic.
  - destruct line; [apply write_no_panic | done].
  - intros _ s3. destruct (_ =? 0); [done | apply write_no_panic].
Qed.

Lemma create_dir_exact name path s r s' : create_dir name path s = (r, s') →
  r ≠ Panic ∧ (∀ e, r = Err e → cg_dirs s' = cg_dirs s)
  ∧ (r = Ok tt → cg_dirs s !! name = None ∧ cg_dirs s' = <[name := list_to_map ((λ f, (f, EmptyString)) <$> cg_files)]> (cg_dirs s)).
Proof.
  unfold create_dir, call. cbn. destruct (cg_fails (cg_calls s)); [by intros [= <- <-] |].
  destruct (bool_decide_reflect (is_Some (cg_dirs s !! name))) as [? | Hn]; intros [= <- <-]; split_and!; try done. intros _.
  split; [by apply eq_None_not_Some | done].
Qed.

(** The group is gone again, or its teardown was refused. *)
Definition torn_down (name : string) (s s' : cgroups) : Prop :=
  cg_dirs s' = cg_dirs s ∨ ∃ path sd, s' = (remove_run_cgroup name path sd).2 ∧ ((remove_run_cgroup name path sd).1 ≠ Ok tt ∨ cg_fails (cg_calls sd) ≠ None).
Lemma drop_exact run s0 s : cg_dirs s0 !! rc_name run = None → only (rc_name run) s0 s →
  ∃ s', drop_run run s = (Ok tt, s') ∧ only (rc_name run) s0 s' ∧ torn_down (rc_name run) s0 s'.
Proof.
  intros Hnew Ho. unfold drop_run, remove, mbind, M_bind, attempt. pose proof (remove_exact (rc_name run) (rc_path run) s) as Hrm.
  destruct (remove_run_cgroup (rc_name run) (rc_path run) s) as [r s1] eqn:E. destruct Hrm as (Hp & _ & Ho1 & Hg).
  assert (only (rc_name run) s0 s1) as Ho2 by (by etrans). exists s1. split; [by destruct r |]. split; [done |].
  assert (torn_down (rc_name run) s0 s1 ∨ r = Ok tt ∧ cg_fails (cg_calls s) = None) as [? | [-> Hf]]; [| done |].
  { destruct (decide (cg_fails (cg_calls s) = None)) as [Hf |]; [destruct r as [[] | |]; [by right | | done] |]; left; right; exists (rc_path run), s; rewrite E; auto. }
  left. apply map_eq. intros d. destruct (decide (d = rc_name run)) as [-> | Hd]; [by rewrite Hnew, Hg | by apply Ho2].
Qed.

(** The control group of a run is its ceilings.  Creating one touches no other group;
    when it succeeds the limits are ones the delegated controllers enforce exactly as
    written, the directory is new and a single name below the root, and its memory, CPU
    and process files hold the requested ceilings, an unrequested one what the kernel put
    there; when it fails the directory is gone again, unless its teardown was refused;
    and it never panics. *)
Theorem run_cgroup_carries_its_ceilings root run_id limits s :
  let '(r, s') := create_run root run_id limits s in
  let name := "leyline-" +:+ run_id in
  r ≠ Panic ∧ only name s s'
  ∧ (∀ run, r = Ok run → Limits.enforceable (enforced root) limits ∧ rc_name run = name ∧ string_all (λ c, negb (bool_decide (c = "/"%char))) run_id = true
       ∧ cg_dirs s !! name = None
       ∧ carries limits (λ f, (list_to_map ((λ f, (f, EmptyString)) <$> cg_files) : gmap string string) !! f) (λ f, file_at name f s'))
  ∧ (∀ e, r = Err e → torn_down name s s').
Proof.
  destruct (create_run root run_id limits s) as [r s'] eqn:Er. cbv zeta. unfold create_run in Er.
  unfold mbind at 1, M_bind at 1, lift in Er. destruct (check (enforced root) limits) as [[] | e |] eqn:Ec; [| injection Er as <- <-; split_and!; try done; by intros; left | by apply check_total in Ec].
  apply check_iff in Ec. unfold mbind at 1, M_bind at 1 in Er.
  destruct (run_cgroup_name run_id) as [name | e |] eqn:En; [| injection Er as <- <-; split_and!; try done; by intros; left | unfold run_cgroup_name in En; by destruct (negb _)].
  apply cgroup_name_ok in En as (-> & _ & Hslash). set (name := "leyline-" +:+ run_id) in *. cbv zeta in Er.
  set (run := {| rc_name := name; rc_path := path_join (cr_path root) name; rc_stand_in := cr_stand_in root |}) in Er.
  unfold mbind at 1, M_bind at 1 in Er. destruct (create_dir name _ s) as [r1 s1] eqn:Ed.
  apply create_dir_exact in Ed as (Hp1 & He1 & Ho1).
  destruct r1 as [[] | e |]; [| injection Er as <- <-; split_and!; try done; [intros d _; by rewrite (He1 e eq_refl) | intros e' _; left; by eapply He1] | done].
  destruct (Ho1 eq_refl) as [Hnew Hdir]. unfold mbind at 1, M_bind at 1, attempt in Er.
  pose proof (write_ceilings_only run limits s1) as Hw. destruct (write_ceilings run limits s1) as [r2 s2] eqn:Ew. cbn in Hw.
  assert (only name s s2) as Ho2. { etrans; [| exact Hw]. intros d Hd. rewrite Hdir. by rewrite lookup_insert_ne. }
  assert (r2 ≠ Panic) as Hp2. { change r2 with (fst (r2, s2)). rewrite <- Ew. apply write_ceilings_no_panic. }
  destruct r2 as [[] | e |]; [| | done].
  - injection Er as <- <-. split_and!; try done. intros ? [= <-]. apply write_ceilings_ok in Ew. split_and!; try done.
    destruct Ew as [E1 E2 E3]. assert (∀ f, file_at name f s1 = (list_to_map ((λ f, (f, EmptyString)) <$> cg_files) : gmap string string) !! f) as Hf.
    { intros f. unfold file_at. rewrite Hdir, lookup_insert_eq. done. }
    split; [rewrite <- Hf; exact E1 | rewrite <- Hf; exact E2 | rewrite <- Hf; exact E3].
  - destruct (drop_exact run s s2 Hnew Ho2) as (s3 & E3 & Ho3 & Ht3). rewrite (run_bind_Ok _ _ _ _ _ E3) in Er. injection Er as <- <-. by split_and!.
Qed.
End runs.

(** One run under a kernel with every controller, and one whose CPU file is missing. *)
Lemma small_cgroup :
  let fmt : Fmt := {| utf8_error := λ _, ""%string; debug_str := λ s, s |} in
  let kernel files : Cgroupfs := {| cg_files := files; cg_fails := λ _, None; cg_populated := λ _, false; cg_magic := λ _, Ok CGROUP2_SUPER_MAGIC;
    cg_subtree_control := λ _, Ok "cpuset cpu memory pids"%string |} in
  let limits := {| wall_time_ms := 1000; output_bytes := 0; memory := {| memory_limit := 65536 |}; cpu := {| quota := 150000; period := 0 |}; pids := {| pids_limit := 0 |} |} in
  let start := {| cg_dirs := ∅; cg_calls := 0; cg_pauses := 0 |} in
  let run files := match @open (kernel files) Linux "/cg" with Ok root => @create_run fmt (kernel files) root "run-1" limits start | _ => (Panic, start) end in
  let full := run ["memory.max"; "cpu.max"; "pids.max"; "cgroup.events"]%string in
  file_at "leyline-run-1" "memory.max" full.2 = Some "65536"%string ∧ file_at "leyline-run-1" "cpu.max" full.2 = Some "150000 100000"%string
  ∧ file_at "leyline-run-1" "pids.max" full.2 = Some EmptyString
  ∧ (run ["memory.max"]%string).1 ≠ full.1 ∧ cg_dirs (run ["memory.max"]%string).2 = ∅.
Proof. vm_compute. done. Qed.
