(* ===== verification/Lifecycle.v ===== *)
(** * The life of a supervised run

    What [backends/native_backend.rs] and [backends/libkrun/backend.rs] share under
    [rs/ll-open/runtime/src]: the table of active runs, the completions, the supervisor thread of
    each run, and the callers that poll, wait or cancel.  Each caller and each supervisor moves
    by the critical sections it takes; the label says which one. *)

From S2P Require Import Prelude Substrate Text Limits Service.
From Stdlib Require Import NArith Lia.

(** The supervisor of a run: supervising, with a result, with the result published, with the
    waiters notified, with the result sent to whoever cancels. *)
Inductive supervisor :=
| Supervising | Supervised (r : option ExecutionError) | Published (r : option ExecutionError)
| Notified (r : option ExecutionError) | Sent (r : option ExecutionError).
(** [cancel]: waiting for the supervisor, removing the completion, returned. *)
Inductive canceller := CWait (run : nat) (id : string) | CRemove (id : string) | CReturned (r : result ExecutionError bool).
(** [wait_for_completion]: at the top of its loop, waiting on the condition, returned. *)
Inductive waiter := WCheck (id : string) | WBlocked (id : string) | WReturned (r : result ExecutionError BackendRunStatus).

Record lifecycle := {
  l_children : gmap string nat;
  l_completed : gmap string BackendRunStatus;
  l_cleanup_errors : list ExecutionError;
  l_runs : list (string * supervisor);
  l_cancels : list canceller;
  l_waits : list waiter;
  (** every status handed to a poll or a wait, with its run id *)
  l_seen : list (string * BackendRunStatus);
  (** every run id whose completion a cancel removed *)
  l_dropped : list string;
}.
Definition lifecycle_new : lifecycle := {|
  l_children := ∅; l_completed := ∅; l_cleanup_errors := []; l_runs := []; l_cancels := []; l_waits := []; l_seen := []; l_dropped := [] |}.

Definition set_children (x : gmap string nat) (l : lifecycle) : lifecycle :=
  {| l_children := x; l_completed := l_completed l; l_cleanup_errors := l_cleanup_errors l; l_runs := l_runs l; l_cancels := l_cancels l; l_waits := l_waits l; l_seen := l_seen l; l_dropped := l_dropped l |}.
Definition set_completed (x : gmap string BackendRunStatus) (l : lifecycle) : lifecycle :=
  {| l_children := l_children l; l_completed := x; l_cleanup_errors := l_cleanup_errors l; l_runs := l_runs l; l_cancels := l_cancels l; l_waits := l_waits l; l_seen := l_seen l; l_dropped := l_dropped l |}.
Definition set_cleanup_errors (x : list ExecutionError) (l : lifecycle) : lifecycle :=
  {| l_children := l_children l; l_completed := l_completed l; l_cleanup_errors := x; l_runs := l_runs l; l_cancels := l_cancels l; l_waits := l_waits l; l_seen := l_seen l; l_dropped := l_dropped l |}.
Definition set_runs (x : list (string * supervisor)) (l : lifecycle) : lifecycle :=
  {| l_children := l_children l; l_completed := l_completed l; l_cleanup_errors := l_cleanup_errors l; l_runs := x; l_cancels := l_cancels l; l_waits := l_waits l; l_seen := l_seen l; l_dropped := l_dropped l |}.
Definition set_cancels (x : list canceller) (l : lifecycle) : lifecycle :=
  {| l_children := l_children l; l_completed := l_completed l; l_cleanup_errors := l_cleanup_errors l; l_runs := l_runs l; l_cancels := x; l_waits := l_waits l; l_seen := l_seen l; l_dropped := l_dropped l |}.
Definition set_waits (x : list waiter) (l : lifecycle) : lifecycle :=
  {| l_children := l_children l; l_completed := l_completed l; l_cleanup_errors := l_cleanup_errors l; l_runs := l_runs l; l_cancels := l_cancels l; l_waits := x; l_seen := l_seen l; l_dropped := l_dropped l |}.
Definition saw (id : string) (st : BackendRunStatus) (l : lifecycle) : lifecycle :=
  {| l_children := l_children l; l_completed := delete id (l_completed l); l_cleanup_errors := l_cleanup_errors l; l_runs := l_runs l; l_cancels := l_cancels l; l_waits := l_waits l; l_seen := l_seen l ++ [(id, st)]; l_dropped := l_dropped l |}.

Definition drop_completion (id : string) (l : lifecycle) : lifecycle :=
  {| l_children := l_children l; l_completed := delete id (l_completed l); l_cleanup_errors := l_cleanup_errors l; l_runs := l_runs l; l_cancels := l_cancels l; l_waits := l_waits l; l_seen := l_seen l; l_dropped := l_dropped l ++ [id] |}.

(** [Ok] is no error. *)
Definition status_of (r : option ExecutionError) : BackendRunStatus := match r with Some e => RunFailed e | None => RunSucceeded end.
Definition wake (w : waiter) : waiter := match w with WBlocked id => WCheck id | w => w end.

(** *** The supervisor thread *)

(** [supervise_worker] returned; a failure is recorded. *)
Definition supervise (i : nat) (r : option ExecutionError) (l : lifecycle) : option lifecycle :=
  match l_runs l !! i with
  | Some (id, Supervising) =>
      Some (set_cleanup_errors (l_cleanup_errors l ++ match r with Some e => [e] | None => [] end) (set_runs (<[i := (id, Supervised r)]> (l_runs l)) l))
  | _ => None
  end.
(** The run is retired and its completion published under one lock. *)
Definition publish (i : nat) (l : lifecycle) : option lifecycle :=
  match l_runs l !! i with
  | Some (id, Supervised r) =>
      Some (set_children (delete id (l_children l)) (set_completed (<[id := status_of r]> (l_completed l)) (set_runs (<[i := (id, Published r)]> (l_runs l)) l)))
  | _ => None
  end.
Definition notify (i : nat) (l : lifecycle) : option lifecycle :=
  match l_runs l !! i with
  | Some (id, Published r) => Some (set_waits (wake <$> l_waits l) (set_runs (<[i := (id, Notified r)]> (l_runs l)) l))
  | _ => None
  end.
Definition send_finished (i : nat) (l : lifecycle) : option lifecycle :=
  match l_runs l !! i with
  | Some (id, Notified r) => Some (set_runs (<[i := (id, Sent r)]> (l_runs l)) l)
  | _ => None
  end.

(** *** The callers *)

(** The end of [start], under its lock: an active id is refused before a worker exists. *)
Definition insert_run (id : string) (l : lifecycle) : lifecycle :=
  set_children (<[id := length (l_runs l)]> (l_children l)) (set_runs (l_runs l ++ [(id, Supervising)]) l).
Definition register (id : string) (l : lifecycle) : option lifecycle :=
  match l_children l !! id with Some _ => None | None => Some (insert_run id l) end.
Definition poll (id : string) (l : lifecycle) : option lifecycle :=
  match l_completed l !! id with Some st => Some (saw id st l) | None => Some l end.
Definition begin_cancel (id : string) (l : lifecycle) : option lifecycle :=
  match l_children l !! id with
  | Some i => Some (set_children (delete id (l_children l)) (set_cancels (l_cancels l ++ [CWait i id]) l))
  | None => Some (set_cancels (l_cancels l ++ [CReturned (Ok false)]) l)
  end.
Definition cancel (c : nat) (l : lifecycle) : option lifecycle :=
  match l_cancels l !! c with
  | Some (CWait i id) =>
      match l_runs l !! i with
      | Some (_, Sent None) => Some (set_cancels (<[c := CRemove id]> (l_cancels l)) l)
      | Some (_, Sent (Some e)) => Some (set_cancels (<[c := CReturned (Err e)]> (l_cancels l)) l)
      | _ => None
      end
  | Some (CRemove id) => Some (drop_completion id (set_cancels (<[c := CReturned (Ok true)]> (l_cancels l)) l))
  | _ => None
  end.
Definition begin_wait (id : string) (l : lifecycle) : option lifecycle := Some (set_waits (l_waits l ++ [WCheck id]) l).
Definition not_active (id : string) : ExecutionError := invalid ("run_id is not active or pending completion: " +:+ id).
Definition wait_for_completion (w : nat) (l : lifecycle) : option lifecycle :=
  match l_waits l !! w with
  | Some (WCheck id) =>
      match l_completed l !! id with
      | Some st => Some (saw id st (set_waits (<[w := WReturned (Ok st)]> (l_waits l)) l))
      | None =>
          if bool_decide (is_Some (l_children l !! id)) then Some (set_waits (<[w := WBlocked id]> (l_waits l)) l)
          else Some (set_waits (<[w := WReturned (Err (not_active id))]> (l_waits l)) l)
      end
  | _ => None
  end.
Definition take_cleanup_errors (l : lifecycle) : list ExecutionError * lifecycle := (l_cleanup_errors l, set_cleanup_errors [] l).

Inductive action :=
| AStart (id : string) | ASupervise (i : nat) (r : option ExecutionError) | APublish (i : nat) | ANotify (i : nat) | ASend (i : nat)
| APoll (id : string) | ABeginCancel (id : string) | ACancel (c : nat) | ABeginWait (id : string) | AWait (w : nat).
Definition lstep (a : action) (l : lifecycle) : option lifecycle :=
  match a with
  | AStart id => register id l
  | ASupervise i r => supervise i r l
  | APublish i => publish i l
  | ANotify i => notify i l
  | ASend i => send_finished i l
  | APoll id => poll id l
  | ABeginCancel id => begin_cancel id l
  | ACancel c => cancel c l
  | ABeginWait id => begin_wait id l
  | AWait w => wait_for_completion w l
  end.
Fixpoint lruns (acts : list action) (l : lifecycle) : option lifecycle :=
  match acts with [] => Some l | a :: acts => l ← lstep a l; lruns acts l end.

(** ** What holds in every interleaving *)

(** Where a supervisor is. *)
Definition active (s : supervisor) : bool := match s with Supervising | Supervised _ => true | _ => false end.
Definition to_notify (s : supervisor) : bool := match s with Supervising | Supervised _ | Published _ => true | _ => false end.
Definition result_of (s : supervisor) : option (option ExecutionError) := match s with Published r | Notified r | Sent r => Some r | _ => None end.

Record linv (l : lifecycle) : Prop := {
  v_children id i : l_children l !! id = Some i → ∃ s, l_runs l !! i = Some (id, s) ∧ active s = true;
  v_active i id s : l_runs l !! i = Some (id, s) → active s = true → l_children l !! id = Some i ∨ ∃ c, l_cancels l !! c = Some (CWait i id);
  v_blocked w id : l_waits l !! w = Some (WBlocked id) → ∃ i s, l_runs l !! i = Some (id, s) ∧ to_notify s = true;
  v_cancel c i id : l_cancels l !! c = Some (CWait i id) → ∃ s, l_runs l !! i = Some (id, s);
  v_completed id st : l_completed l !! id = Some st → id ∉ (l_seen l).*1 ∧ ∃ i s r, l_runs l !! i = Some (id, s) ∧ result_of s = Some r ∧ st = status_of r;
  v_seen id st : (id, st) ∈ l_seen l → ∃ i s r, l_runs l !! i = Some (id, s) ∧ result_of s = Some r ∧ st = status_of r;
  v_once : NoDup (l_seen l).*1;
  v_kept i id s r : l_runs l !! i = Some (id, s) → result_of s = Some r →
    l_completed l !! id = Some (status_of r) ∨ (id, status_of r) ∈ l_seen l ∨ id ∈ l_dropped l;
}.
Lemma new_linv : linv lifecycle_new.
Proof. split; cbn; intros; try (apply NoDup_nil_2); by (simplify_map_eq || set_solver). Qed.

(** Distinct runs have distinct ids. *)
Definition distinct (l : lifecycle) : Prop := NoDup (l_runs l).*1.
Lemma distinct_eq l i j id s s' : distinct l → l_runs l !! i = Some (id, s) → l_runs l !! j = Some (id, s') → i = j.
Proof.
  intros Hd Hi Hj. eapply NoDup_lookup; [exact Hd | |]; rewrite list_lookup_fmap; [by rewrite Hi | by rewrite Hj].
Qed.
Lemma run_insert l i id s s' j x : l_runs l !! i = Some (id, s) →
  <[i := (id, s')]> (l_runs l) !! j = Some x ↔ (j = i ∧ x = (id, s')) ∨ (j ≠ i ∧ l_runs l !! j = Some x).
Proof.
  intros Hi. destruct (decide (j = i)) as [-> | Hne].
  - rewrite list_lookup_insert_eq by (by eapply lookup_lt_Some). naive_solver.
  - rewrite list_lookup_insert_ne by done. naive_solver.
Qed.
(** The same run after a step of its supervisor. *)
Lemma run_moves l i id s s' j k t : l_runs l !! i = Some (id, s) → l_runs l !! j = Some (k, t) →
  ∃ t', <[i := (id, s')]> (l_runs l) !! j = Some (k, t') ∧ (t' = t ∨ j = i ∧ k = id ∧ t = s ∧ t' = s').
Proof.
  intros Hi Hj. destruct (decide (j = i)) as [-> | Hne].
  - rewrite Hi in Hj. injection Hj as <- <-. exists s'. rewrite list_lookup_insert_eq by (by eapply lookup_lt_Some). split; [done | by right].
  - exists t. rewrite list_lookup_insert_ne by done. split; [done | by left].
Qed.
Lemma sup_linv l i id s s' ws : linv l → l_runs l !! i = Some (id, s) → active s' = active s → result_of s' = result_of s →
  (∀ w k, ws !! w = Some (WBlocked k) → l_waits l !! w = Some (WBlocked k) ∧ (to_notify s = true → to_notify s' = true)) →
  linv (set_waits ws (set_runs (<[i := (id, s')]> (l_runs l)) l)).
Proof.
  intros [V1 V2 V3 V4 V5 V6 V7 V8] Hi Ha Hr Hw.
  assert (∀ j k t, l_runs l !! j = Some (k, t) → ∃ t', <[i := (id, s')]> (l_runs l) !! j = Some (k, t') ∧ active t' = active t ∧ result_of t' = result_of t
    ∧ ((to_notify s = true → to_notify s' = true) → to_notify t = true → to_notify t' = true)) as Hto.
  { intros j k t Hj. destruct (run_moves l i id s s' j k t Hi Hj) as (t' & Hl & [-> | (-> & -> & -> & ->)]); eauto 10. }
  assert (∀ j k t', <[i := (id, s')]> (l_runs l) !! j = Some (k, t') → ∃ t, l_runs l !! j = Some (k, t) ∧ active t' = active t ∧ result_of t' = result_of t) as Hfrom.
  { intros j k t' [[-> [= -> ->]] | [_ Hj]]%(run_insert l i id s); eauto. }
  split; cbn.
  - intros k j (t & (t' & Hl & Hat & _)%Hto & Hx)%V1. exists t'. by rewrite Hat.
  - intros j k t' (t & Hl & Hat & _)%Hfrom Hx. rewrite Hat in Hx. by eapply V2.
  - intros w k Hb. destruct (Hw w k Hb) as [(j & t & (t' & Hl & _ & _ & Hn)%Hto & Hx)%V3 Hsn]. exists j, t'. auto.
  - intros c j k (t & (t' & Hl & _)%Hto)%V4. eauto.
  - intros k st (Hs & j & t & r & (t' & Hl & _ & Hrt & _)%Hto & Hx & ->)%V5. split; [done |]. exists j, t', r. by rewrite Hrt.
  - intros k st (j & t & r & (t' & Hl & _ & Hrt & _)%Hto & Hx & ->)%V6. exists j, t', r. by rewrite Hrt.
  - done.
  - intros j k t' r (t & Hl & _ & Hrt)%Hfrom Hx. rewrite Hrt in Hx. by eapply V8.
Qed.
Lemma errors_linv l x : linv l → linv (set_cleanup_errors x l).
Proof. by intros []. Qed.
Lemma supervise_linv i r l l' : linv l → supervise i r l = Some l' → linv l'.
Proof.
  intros Hv Hs. unfold supervise in Hs. destruct (l_runs l !! i) as [[id []] |] eqn:Hi; try done. injection Hs as <-. apply errors_linv.
  apply (sup_linv l i id Supervising (Supervised r) (l_waits l)); try done.
Qed.
Lemma notify_linv i l l' : linv l → notify i l = Some l' → linv l'.
Proof.
  intros Hv Hs. unfold notify in Hs. destruct (l_runs l !! i) as [[id []] |] eqn:Hi; try done. injection Hs as <-.
  eapply sup_linv; try done. intros w k Hb. rewrite list_lookup_fmap in Hb. by destruct (l_waits l !! w) as [[] |].
Qed.
Lemma send_linv i l l' : linv l → send_finished i l = Some l' → linv l'.
Proof.
  intros Hv Hs. unfold send_finished in Hs. destruct (l_runs l !! i) as [[id []] |] eqn:Hi; try done. injection Hs as <-.
  apply (sup_linv l i id (Notified r) (Sent r) (l_waits l)); try done.
Qed.
(** Publication moves a run from the table to the completions. *)
Lemma publish_linv i l l' : distinct l → linv l → publish i l = Some l' → linv l'.
Proof.
  intros Hd [V1 V2 V3 V4 V5 V6 V7 V8] Hs. unfold publish in Hs. destruct (l_runs l !! i) as [[id [| r | | |]] |] eqn:Hi; try done. injection Hs as <-.
  pose proof (λ j x, run_insert l i id (Supervised r) (Published r) j x Hi) as Hins.
  pose proof (λ j k t, run_moves l i id (Supervised r) (Published r) j k t Hi) as Hmv.
  assert (∀ j s, l_runs l !! j = Some (id, s) → j = i ∧ s = Supervised r) as Hself.
  { intros j s Hj. pose proof (distinct_eq l j i id s (Supervised r) Hd Hj Hi) as ->. rewrite Hi in Hj. by injection Hj as <-. }
  assert (id ∉ (l_seen l).*1) as Hns.
  { intros ([k st] & E & Hin)%list_elem_of_fmap. cbn in E. subst k. apply V6 in Hin as (j & s0 & r' & [-> ->]%Hself & Hx & _). done. }
  split; cbn.
  - intros k j Hk. apply lookup_delete_Some in Hk as [Hne Hk]. apply V1 in Hk as (s & Hl & Ha). destruct (Hmv _ _ _ Hl) as (s' & Hl' & [-> | (_ & -> & _)]); [eauto | done].
  - intros j k s [[-> [= -> ->]] | [Hne Hj]]%Hins Ha; [done |]. destruct (V2 j k s Hj Ha) as [Hc | Hc]; [left | by right].
    rewrite lookup_delete_ne; [done |]. intros ->. by destruct (Hself j s Hj).
  - intros w k (j & s & Hj & Hn)%V3. destruct (Hmv _ _ _ Hj) as (s' & Hl' & [-> | (-> & -> & _ & ->)]); eauto.
  - intros c j k (s & Hj)%V4. destruct (Hmv _ _ _ Hj) as (s' & Hl' & _). eauto.
  - intros k st [[<- <-] | [Hne Hk]]%lookup_insert_Some.
    + split; [done |]. exists i, (Published r), r. split_and!; [| done | done]. apply Hins. by left.
    + destruct (V5 k st Hk) as (Hs & j & s & r' & Hj & Hx & ->). split; [done |]. destruct (Hmv _ _ _ Hj) as (s' & Hl' & [-> | (-> & -> & _)]); [eauto 10 | done].
  - intros k st (j & s & r' & Hj & Hx & ->)%V6. destruct (Hmv _ _ _ Hj) as (s' & Hl' & [-> | (-> & -> & -> & _)]); [eauto 10 | done].
  - done.
  - intros j k s r' [[-> [= -> ->]] | [Hne Hj]]%Hins Hx.
    + injection Hx as <-. left. by rewrite lookup_insert_eq.
    + destruct (decide (k = id)) as [-> | Hk]; [by destruct (Hself j s Hj) |]. rewrite lookup_insert_ne by done. by eapply V8.
Qed.
Lemma saw_linv id st l : linv l → l_completed l !! id = Some st → linv (saw id st l).
Proof.
  intros [V1 V2 V3 V4 V5 V6 V7 V8] Hc. destruct (V5 id st Hc) as (Hns & Hrun). split; cbn; try done.
  - intros k st' [Hne Hk]%lookup_delete_Some. destruct (V5 k st' Hk) as [Hs Hx]. split; [| done]. rewrite fmap_app, not_elem_of_app. split; [done |].
    cbn. by intros ->%list_elem_of_singleton.
  - intros k st' [Hin | [= -> ->]%list_elem_of_singleton]%elem_of_app; [by apply V6 | done].
  - rewrite fmap_app. apply NoDup_app. split_and!; [done | | apply NoDup_singleton]. cbn. intros k Hk ->%list_elem_of_singleton. done.
  - intros i k s r Hi Hr. destruct (V8 i k s r Hi Hr) as [Hk | [Hk | Hk]]; [| by right; left; apply elem_of_app; left | by right; right].
    destruct (decide (k = id)) as [-> | Hne]; [| left; by rewrite lookup_delete_ne]. right; left. rewrite Hc in Hk. injection Hk as ->. apply elem_of_app. right. by left.
Qed.
Lemma waits_linv l ws : linv l →
  (∀ w k, ws !! w = Some (WBlocked k) → l_waits l !! w = Some (WBlocked k) ∨ ∃ i s, l_runs l !! i = Some (k, s) ∧ to_notify s = true) → linv (set_waits ws l).
Proof. intros [V1 V2 V3 V4 V5 V6 V7 V8] Hw. split; cbn; try done. intros w k [Hb | Hb]%Hw; [by eapply V3 | done]. Qed.
Lemma cancels_linv l cs : linv l → (∀ c i id, cs !! c = Some (CWait i id) → ∃ s, l_runs l !! i = Some (id, s)) →
  (∀ i id s, l_runs l !! i = Some (id, s) → active s = true → l_children l !! id = Some i ∨ ∃ c, cs !! c = Some (CWait i id)) → linv (set_cancels cs l).
Proof. intros [V1 V2 V3 V4 V5 V6 V7 V8] Hc Ha. split; done. Qed.
Lemma poll_linv id l l' : linv l → poll id l = Some l' → linv l'.
Proof. intros Hv Hs. unfold poll in Hs. destruct (l_completed l !! id) eqn:E; injection Hs as <-; [by apply saw_linv | done]. Qed.
Lemma wait_linv w l l' : linv l → wait_for_completion w l = Some l' → linv l'.
Proof.
  intros Hv Hs. unfold wait_for_completion in Hs. destruct (l_waits l !! w) as [[id | |] |] eqn:Ew; try done.
  assert (∀ x, (∀ k, x = WBlocked k → ∃ i s, l_runs l !! i = Some (k, s) ∧ to_notify s = true) → linv (set_waits (<[w := x]> (l_waits l)) l)) as Hgo.
  { intros x Hx. apply waits_linv; [done |]. intros w' k Hb. apply list_lookup_insert_Some in Hb as [(_ & -> & _) | [_ Hb]]; [right; by apply Hx | by left]. }
  destruct (l_completed l !! id) as [st |] eqn:Ec; [injection Hs as <-; apply saw_linv; [by apply Hgo | done] |].
  case_bool_decide as Hch; injection Hs as <-; apply Hgo; [| done]. intros k [= <-]. destruct Hch as [i Hi].
  apply (v_children _ Hv) in Hi as (s & Hi & Ha). exists i, s. by destruct s.
Qed.
Lemma begin_wait_linv id l l' : linv l → begin_wait id l = Some l' → linv l'.
Proof.
  intros Hv [= <-]. apply waits_linv; [done |]. intros w k Hb. left. by apply lookup_app_Some in Hb as [? | [_ ?%list_lookup_singleton_Some]]; [| naive_solver].
Qed.
Lemma begin_cancel_linv id l l' : linv l → begin_cancel id l = Some l' → linv l'.
Proof.
  intros Hv Hs. unfold begin_cancel in Hs. destruct (l_children l !! id) as [i |] eqn:Ec; injection Hs as <-.
  - destruct (v_children _ Hv id i Ec) as (s & Hi & Ha). destruct Hv as [V1 V2 V3 V4 V5 V6 V7 V8]. split; cbn; try done.
    + intros k j [_ Hk]%lookup_delete_Some. by apply V1.
    + intros j k t Hj Ht. destruct (V2 j k t Hj Ht) as [Hk | [c Hc]].
      * destruct (decide (k = id)) as [-> | Hne]; [| left; by rewrite lookup_delete_ne]. right. rewrite Ec in Hk. injection Hk as ->.
        exists (length (l_cancels l)). by rewrite lookup_app_r, Nat.sub_diag by done.
      * right. exists c. by apply lookup_app_l_Some.
    + intros c j k [Hc | [_ [_ [= -> ->]]%list_lookup_singleton_Some]]%lookup_app_Some; [by eapply V4 | eauto].
  - apply cancels_linv; [done | |].
    + intros c j k [Hc | [_ [_ [=]]%list_lookup_singleton_Some]]%lookup_app_Some. by eapply (v_cancel _ Hv).
    + intros j k t Hj Ht. destruct (v_active _ Hv j k t Hj Ht) as [? | [c Hc]]; [by left | right]. exists c. by apply lookup_app_l_Some.
Qed.
Lemma cancel_linv c l l' : linv l → cancel c l = Some l' → linv l'.
Proof.
  intros Hv Hs. unfold cancel in Hs. destruct (l_cancels l !! c) as [[i id | id |] |] eqn:Ec; try done.
  - assert (∀ x, (∀ j k, x ≠ CWait j k) → (∃ s, l_runs l !! i = Some (id, s) ∧ active s = false) → linv (set_cancels (<[c := x]> (l_cancels l)) l)) as Hgo.
    { intros x Hx (s & Hi & Ha). apply cancels_linv; [done | |].
      - intros c' j k [(-> & -> & _) | [_ Hc]]%list_lookup_insert_Some; [by destruct (Hx j k) | by eapply (v_cancel _ Hv)].
      - intros j k t Hj Ht. destruct (v_active _ Hv j k t Hj Ht) as [? | [c' Hc]]; [by left | right]. exists c'.
        rewrite list_lookup_insert_ne; [done |]. intros ->. rewrite Ec in Hc. injection Hc as -> ->. rewrite Hi in Hj. injection Hj as ->. congruence. }
    destruct (v_cancel _ Hv c i id Ec) as [s Hi]. rewrite Hi in Hs. destruct s as [| | | | [e |]]; try done; injection Hs as <-; (apply Hgo; [done | eauto]).
  - injection Hs as <-. assert (linv (set_cancels (<[c := CReturned (Ok true)]> (l_cancels l)) l)) as [V1 V2 V3 V4 V5 V6 V7 V8].
    { apply cancels_linv; [done | |].
      - intros c' j k [(_ & [=] & _) | [_ Hc]]%list_lookup_insert_Some. by eapply (v_cancel _ Hv).
      - intros j k t Hj Ht. destruct (v_active _ Hv j k t Hj Ht) as [? | [c' Hc]]; [by left | right]. exists c'.
        rewrite list_lookup_insert_ne; [done |]. intros ->. by rewrite Ec in Hc. }
    cbn in *. split; cbn; try done.
    + intros k st [_ Hk]%lookup_delete_Some. by apply V5.
    + intros j k s r Hj Hr. destruct (V8 j k s r Hj Hr) as [Hk | [Hk | Hk]]; [| by right; left | right; right; apply elem_of_app; by left].
      destruct (decide (k = id)) as [-> | Hne]; [right; right; apply elem_of_app; right; by left | left; by rewrite lookup_delete_ne].
Qed.
Lemma register_linv id l l' : id ∉ (l_runs l).*1 → linv l → register id l = Some l' → linv l'.
Proof.
  intros Hf [V1 V2 V3 V4 V5 V6 V7 V8] Hs. unfold register, insert_run in Hs. destruct (l_children l !! id) eqn:Ec; [done |]. injection Hs as <-.
  assert (∀ j x, l_runs l !! j = Some x → (l_runs l ++ [(id, Supervising)]) !! j = Some x) as Hin by (intros; by apply lookup_app_l_Some).
  assert (∀ j x, (l_runs l ++ [(id, Supervising)]) !! j = Some x → l_runs l !! j = Some x ∨ j = length (l_runs l) ∧ x = (id, Supervising)) as Hout.
  { intros j x [? | [Hge [E <-]%list_lookup_singleton_Some]]%lookup_app_Some; [by left | right]. split; [lia | done]. }
  split; cbn; try done.
  - intros k j [[<- <-] | [Hne Hk]]%lookup_insert_Some.
    + exists Supervising. split; [| done]. by rewrite lookup_app_r, Nat.sub_diag by done.
    + apply V1 in Hk as (s & Hj & Ha). eauto.
  - intros j k s [Hj | [-> [= -> ->]]]%Hout Ha; [| left; by rewrite lookup_insert_eq]. destruct (V2 j k s Hj Ha) as [Hk | Hk]; [left | by right].
    rewrite lookup_insert_ne; [done |]. intros ->. apply Hf. apply list_elem_of_fmap. exists (k, s). split; [done |]. by eapply list_elem_of_lookup_2.
  - intros w k (j & s & Hj & Hn)%V3. eauto.
  - intros c j k (s & Hj)%V4. eauto.
  - intros k st (Hs & j & s & r & Hj & Hx & ->)%V5. eauto 10.
  - intros k st (j & s & r & Hj & Hx & ->)%V6. eauto 10.
  - intros j k s r [Hj | [-> [= -> ->]]]%Hout Hx; [by eapply V8 | done].
Qed.

Definition started (a : action) : list string := match a with AStart id => [id] | _ => [] end.
Lemma runs_fst l i id s s' : l_runs l !! i = Some (id, s) → (<[i := (id, s')]> (l_runs l)).*1 = (l_runs l).*1.
Proof. intros Hi. rewrite list_fmap_insert. apply list_insert_id. by rewrite list_lookup_fmap, Hi. Qed.
Lemma lstep_runs a l l' : lstep a l = Some l' → (l_runs l').*1 = (l_runs l).*1 ++ started a.
Proof.
  destruct a; cbn [lstep started]; rewrite ?app_nil_r.
  - unfold register, insert_run. destruct (l_children l !! id); [done |]. intros [= <-]. cbn. by rewrite fmap_app.
  - unfold supervise. destruct (l_runs l !! i) as [[id []] |] eqn:Hi; try done. intros [= <-]. by eapply runs_fst.
  - unfold publish. destruct (l_runs l !! i) as [[id []] |] eqn:Hi; try done. intros [= <-]. by eapply runs_fst.
  - unfold notify. destruct (l_runs l !! i) as [[id []] |] eqn:Hi; try done. intros [= <-]. by eapply runs_fst.
  - unfold send_finished. destruct (l_runs l !! i) as [[id []] |] eqn:Hi; try done. intros [= <-]. by eapply runs_fst.
  - unfold poll. by destruct (l_completed l !! id); intros [= <-].
  - unfold begin_cancel. by destruct (l_children l !! id); intros [= <-].
  - unfold cancel. destruct (l_cancels l !! c) as [[i id | id |] |]; try done; [| by intros [= <-]].
    destruct (l_runs l !! i) as [[? [| | | | []]] |]; try done; by intros [= <-].
  - by intros [= <-].
  - unfold wait_for_completion. destruct (l_waits l !! w) as [[id | |] |]; try done. destruct (l_completed l !! id); [by intros [= <-] |].
    case_bool_decide; by intros [= <-].
Qed.
Lemma lruns_starts acts l l' : lruns acts l = Some l' → (l_runs l').*1 = (l_runs l).*1 ++ (acts ≫= started).
Proof.
  revert l. induction acts as [| a acts IH]; intros l; cbn [lruns]; [intros [= <-]; by rewrite app_nil_r |].
  intros (l1 & H1%lstep_runs & H2%IH)%bind_Some. by rewrite H2, H1, bind_cons, app_assoc.
Qed.
Lemma lstep_linv a l l' : distinct l' → linv l → lstep a l = Some l' → linv l'.
Proof.
  intros Hd Hv Hs. pose proof (lstep_runs a l l' Hs) as Hr. unfold distinct in Hd. rewrite Hr in Hd.
  destruct a; cbn [lstep started] in *; rewrite ?app_nil_r in Hd;
    [| by eapply supervise_linv | by eapply publish_linv | by eapply notify_linv | by eapply send_linv | by eapply poll_linv | by eapply begin_cancel_linv
     | by eapply cancel_linv | by eapply begin_wait_linv | by eapply wait_linv].
  apply NoDup_app in Hd as (_ & Hd & _). eapply register_linv, Hs; [| done]. intros Hin. by apply (Hd id Hin); left.
Qed.
Lemma lruns_linv acts l l' : linv l → NoDup ((l_runs l).*1 ++ (acts ≫= started)) → lruns acts l = Some l' → linv l'.
Proof.
  revert l. induction acts as [| a acts IH]; intros l Hv Hd; cbn [lruns]; [by intros [= <-] |].
  intros (l1 & H1 & H2)%bind_Some. rewrite bind_cons, app_assoc, <- (lstep_runs a l l1 H1) in Hd.
  eapply IH, H2; [| done]. eapply lstep_linv, H1; [| done]. by apply NoDup_app in Hd as (? & _).
Qed.
Definition supervisor_moves (i : nat) : list action := [ASupervise i None; APublish i; ANotify i; ASend i].
Lemma supervisor_enabled l i id s : l_runs l !! i = Some (id, s) → (∀ r, s ≠ Sent r) → ∃ a, a ∈ supervisor_moves i ∧ is_Some (lstep a l).
Proof.
  intros Hi Hs. unfold supervisor_moves. destruct s as [| r | r | r | r]; [exists (ASupervise i None) | exists (APublish i) | exists (ANotify i) | exists (ASend i) | by destruct (Hs r)];
    (split; [set_solver | cbn; unfold supervise, publish, notify, send_finished; by rewrite Hi]).
Qed.

(** C21: Every run's completion is delivered once, and no caller waits for nothing.  Over
    any interleaving of starts, supervisors, polls, waits and cancels in which no run id is
    started twice, the statuses handed out are each of another run and are the result its
    supervisor published; a published result is in the table, was handed out, or was
    removed by a cancel of that run; an active run is in the table of runs or held by the
    one that cancels it; and whoever waits on the condition or for a cancelled run waits for
    a supervisor that can still move and has not yet notified, or sent, its result. *)
Theorem completions_delivered_once acts l :
  lruns acts lifecycle_new = Some l → NoDup (acts ≫= started) →
  NoDup (l_seen l).*1
  ∧ (∀ id st, (id, st) ∈ l_seen l → ∃ s r, (id, s) ∈ l_runs l ∧ result_of s = Some r ∧ st = status_of r)
  ∧ (∀ id s r, (id, s) ∈ l_runs l → result_of s = Some r → l_completed l !! id = Some (status_of r) ∨ (id, status_of r) ∈ l_seen l ∨ id ∈ l_dropped l)
  ∧ (∀ i id s, l_runs l !! i = Some (id, s) → active s = true → l_children l !! id = Some i ∨ CWait i id ∈ l_cancels l)
  ∧ (∀ id, WBlocked id ∈ l_waits l → ∃ i s a, l_runs l !! i = Some (id, s) ∧ to_notify s = true ∧ a ∈ supervisor_moves i ∧ is_Some (lstep a l))
  ∧ (∀ c i id, l_cancels l !! c = Some (CWait i id) → ∃ a, a ∈ ACancel c :: supervisor_moves i ∧ is_Some (lstep a l)).
Proof.
  intros Hr Hd. assert (linv l) as Hv by (eapply lruns_linv, Hr; [apply new_linv | done]). split_and!.
  - apply (v_once _ Hv).
  - intros id st (i & s & r & Hi & Hx & ->)%(v_seen _ Hv). exists s, r. split_and!; [by eapply list_elem_of_lookup_2 | done | done].
  - intros id s r [i Hi]%list_elem_of_lookup Hx. by eapply (v_kept _ Hv).
  - intros i id s Hi Ha. destruct (v_active _ Hv i id s Hi Ha) as [? | [c Hc]]; [by left | right]. by eapply list_elem_of_lookup_2.
  - intros id [w Hw]%list_elem_of_lookup. apply (v_blocked _ Hv) in Hw as (i & s & Hi & Hn).
    destruct (supervisor_enabled l i id s Hi) as (a & Ha & Hm); [by intros r -> |]. eauto 10.
  - intros c i id Hc. destruct (v_cancel _ Hv c i id Hc) as [s Hi].
    assert ((∃ r, s = Sent r) ∨ ∀ r, s ≠ Sent r) as [(r & ->) | Hn] by (destruct s; eauto).
    + exists (ACancel c). split; [by left |]. cbn. unfold cancel. rewrite Hc, Hi. by destruct r.
    + destruct (supervisor_enabled l i id s Hi) as (a & Ha & Hm); [done |]. exists a. split; [by right | done].
Qed.

(** A run that fails on its own while two callers look. *)
Lemma completions_delivered_once_witness :
  let failure := backend_error "exited with 1" in
  let acts := [AStart "a"; AStart "b"; ABeginWait "a"; AWait 0; ASupervise 0 (Some failure); APublish 0; ANotify 0; AWait 0; APoll "a"]%string in
  ∃ l, lruns acts lifecycle_new = Some l ∧ l_seen l = [("a"%string, RunFailed failure)] ∧ NoDup (l_seen l).*1 ∧ l_children l !! "b"%string = Some 1%nat.
Proof.
  intros failure acts. eexists. split; [vm_compute; reflexivity |]. split; [reflexivity |]. split; [| reflexivity].
  refine (proj1 (completions_delivered_once acts _ _ _)); [vm_compute; reflexivity |]. apply (bool_decide_unpack _). vm_compute. exact I.
Defined.

(** ** Where cancelling goes wrong *)

(** A cancel that answers [true], and a poll that came between the supervisor's publication
    and the cancel's removal: it was told the cancelled run succeeded. *)
Lemma cancelled_run_reported_succeeded :
  ∃ l, lruns [AStart "a"; ABeginCancel "a"; ASupervise 0 None; APublish 0; APoll "a"; ANotify 0; ASend 0; ACancel 0; ACancel 0]%string lifecycle_new = Some l
    ∧ l_cancels l = [CReturned (Ok true)] ∧ l_seen l = [("a"%string, RunSucceeded)].
Proof. eexists. split; [vm_compute; reflexivity | done]. Qed.
(** An id started again while its cancel is under way: the first run's supervisor takes the
    second run out of the table, so it can be neither cancelled nor waited for, and a poll
    hands out the first run's result for it. *)
Lemma restarted_run_loses_its_entry :
  ∃ l, lruns [AStart "a"; ABeginCancel "a"; AStart "a"; ASupervise 0 None; APublish 0; ABeginCancel "a"; APoll "a"]%string lifecycle_new = Some l
    ∧ l_runs l !! 1%nat = Some ("a"%string, Supervising) ∧ l_children l = ∅ ∧ l_cancels l !! 1%nat = Some (CReturned (Ok false))
    ∧ l_seen l = [("a"%string, RunSucceeded)].
Proof. eexists. split; [vm_compute; reflexivity | done]. Qed.
(** A cancel whose run failed first keeps the completion it says it drops. *)
Lemma failed_cancel_keeps_completion :
  let failure := backend_error "exited with 1" in
  ∃ l, lruns [AStart "a"; ABeginCancel "a"; ASupervise 0 (Some failure); APublish 0; ANotify 0; ASend 0; ACancel 0; AStart "a"; APoll "a"]%string lifecycle_new = Some l
    ∧ l_cancels l = [CReturned (Err failure)] ∧ l_runs l !! 1%nat = Some ("a"%string, Supervising) ∧ l_seen l = [("a"%string, RunFailed failure)].
Proof. eexists. split; [vm_compute; reflexivity | done]. Qed.
