(* ===== verification/Backends.v ===== *)
(** * The backends

    [rs/ll-open/runtime/src/backends/native_backend.rs], [backends/libkrun/backend.rs] and the
    supervision of [backends/process.rs]: how a worker is started, what of its readiness is
    believed, and how it ends.  The state is the lifecycle table, the worker processes not yet
    reaped, the run directories and the control groups; what the calls on the host answer is
    the class [Outside].  A worker's command line, what it inherits and what it reports are
    those of [Worker]. *)

From S2P Require Import Prelude Substrate Text Limits Service Envelope Authorization Ordered Confinement CasEvidence Sandbox StateM Rootfs RootfsCopy Worker Process Cgroup Lifecycle.
From stdpp Require Import pretty.
From Stdlib Require Import NArith ZArith Lia Ascii.
Local Open Scope N_scope.

Record SupervisionLabels := { lb_worker : string; lb_ephemeral : string }.
Definition KRUN_LABELS : SupervisionLabels := {| lb_worker := "libkrun worker"; lb_ephemeral := "ephemeral rootfs volume" |}.
Definition NATIVE_LABELS : SupervisionLabels := {| lb_worker := "native worker"; lb_ephemeral := "native ephemeral rootfs" |}.
Record KrunWorkerConfig := {
  kw_worker : string; kw_cas_root : string; kw_ephemeral_root : string; kw_runtime_files : list string; kw_devices : list string; kw_tsi_hijack_inet : bool;
}.
Record NativeWorkerConfig := { nw_worker : string; nw_cas_root : string; nw_ephemeral_root : string; nw_runtime_files : list string }.

(** What waiting for the readiness line gives. *)
Inductive readiness := Reported (stderr : list (result string string)) | TimedOut | Disconnected.
(** What the supervisor receives: the reaper's status, a cancellation, neither in time. *)
Inductive terminal := Exited (status : result string ExitStatus) | CancelRequested | DeadlinePassed | ChannelClosed.

Class Outside := {
  o_fails : nat → option string;
  o_configured : bool;
  (** [hypervisor_entitlement], [None] when the caller vouches *)
  o_entitlement : option (result string unit);
  (** [WorkspaceShares::open] *)
  o_shares : option (string → WorkspaceGrant → result ExecutionError unit);
  (** the worker's end of a socket pair, by the number of the call that made it *)
  o_socket : nat → Z;
  (** [child.id()], by the number of the worker *)
  o_pid : nat → N;
  o_ready : nat → readiness;
  o_krun_event : string → result string WorkerEvent;
  o_native_event : string → result string NativeEvent;
  (** [Instant::now().checked_add(..)] is some *)
  o_deadline : N → bool;
}.
(** The runs, the workers not reaped, the workers whose process group was killed, the run
    directories, the control groups, the calls made and the next number. *)
Record world := { w_life : lifecycle; w_workers : gset nat; w_killed : gset nat; w_roots : gset nat; w_groups : cgroups; w_calls : nat; w_next : nat }.
Definition BM : Type → Type := M world ExecutionError.

(** ** Command lines *)

Definition krun_arguments (config : KrunWorkerConfig) (run_root : string) (share_fd : option Z) : list string :=
  ["--cas-root"%string; kw_cas_root config; "--run-root"%string; run_root]
  ++ (kw_runtime_files config ≫= λ path, ["--runtime-file"%string; path])
  ++ (kw_devices config ≫= λ path, ["--device"%string; path])
  ++ (if kw_tsi_hijack_inet config then ["--tsi-hijack-inet"%string] else [])
  ++ match share_fd with Some fd => [WORKSPACE_SHARE_FD_ARG; pretty fd] | None => [] end.
Definition native_worker_arguments (config : NativeWorkerConfig) (run_root : string) : list string :=
  ["--cas-root"%string; nw_cas_root config; "--run-root"%string; run_root]
  ++ (nw_runtime_files config ≫= λ path, ["--runtime-file"%string; path]).

Section backends.
Context `{Fmt, Outside, Cgroupfs, Descriptors}.

Definition tick (w : world) : world :=
  {| w_life := w_life w; w_workers := w_workers w; w_killed := w_killed w; w_roots := w_roots w; w_groups := w_groups w; w_calls := S (w_calls w); w_next := w_next w |}.
Definition set_life (l : lifecycle) (w : world) : world :=
  {| w_life := l; w_workers := w_workers w; w_killed := w_killed w; w_roots := w_roots w; w_groups := w_groups w; w_calls := w_calls w; w_next := w_next w |}.
Definition set_groups (g : cgroups) (w : world) : world :=
  {| w_life := w_life w; w_workers := w_workers w; w_killed := w_killed w; w_roots := w_roots w; w_groups := g; w_calls := w_calls w; w_next := w_next w |}.
Definition set_roots (r : gset nat) (w : world) : world :=
  {| w_life := w_life w; w_workers := w_workers w; w_killed := w_killed w; w_roots := r; w_groups := w_groups w; w_calls := w_calls w; w_next := w_next w |}.
Definition set_workers (p : gset nat) (w : world) : world :=
  {| w_life := w_life w; w_workers := p; w_killed := w_killed w; w_roots := w_roots w; w_groups := w_groups w; w_calls := w_calls w; w_next := w_next w |}.
Definition set_killed (k : gset nat) (w : world) : world :=
  {| w_life := w_life w; w_workers := w_workers w; w_killed := k; w_roots := w_roots w; w_groups := w_groups w; w_calls := w_calls w; w_next := w_next w |}.
Definition fresh (w : world) : world :=
  {| w_life := w_life w; w_workers := w_workers w; w_killed := w_killed w; w_roots := w_roots w; w_groups := w_groups w; w_calls := w_calls w; w_next := S (w_next w) |}.
(** One call on the host, with the error it is reported as; its number. *)
Definition outside (message : string → string) : BM nat := λ w,
  (match o_fails (w_calls w) with Some error => Err (backend_error (message error)) | None => Ok (w_calls w) end, tick w).
Definition allocate_root : BM nat := λ w, (Ok (w_next w), fresh (set_roots ({[w_next w]} ∪ w_roots w) w)).
Definition allocate_worker : BM nat := λ w, (Ok (w_next w), fresh (set_workers ({[w_next w]} ∪ w_workers w) w)).
Definition new_root (message : string) : BM nat :=
  _ ← outside (λ error, message +:+ ": " +:+ error); allocate_root.
Definition spawn_worker (message : string) : BM nat :=
  _ ← outside (λ error, message +:+ ": " +:+ error); allocate_worker.
(** [terminate_process_group(child.id())], whose steps are [Process]. *)
Definition kill_group (worker : nat) : BM unit := modify (λ w, set_killed ({[worker]} ∪ w_killed w) w).
(** [child.wait()], which fails only for a child that was already waited for. *)
Definition reap_worker (worker : nat) : BM unit := modify (λ w, set_workers (w_workers w ∖ {[worker]}) w).
Definition drop_root (root : nat) : BM unit := modify (λ w, set_roots (w_roots w ∖ {[root]}) w).

(** *** Cleaning up *)

(** [make_tree_removable] walks the tree and reports the first call that fails; the directory is
    then removed as its handle is dropped, if that succeeds. *)
Definition cleanup_tempdir (root : nat) (labels : SupervisionLabels) : BM unit :=
  walked ← attempt (outside (λ error, error));
  match walked with
  | Ok _ => _ ← outside (λ error, "remove " +:+ lb_ephemeral labels +:+ ": " +:+ error); drop_root root
  | Err error => dropped ← attempt (outside id); _ ← (match dropped with Ok _ => drop_root root | _ => mret tt end); throw error
  | Panic => panic
  end.
Definition also_failed (error cleanup_error : ExecutionError) : ExecutionError :=
  {| code := code error; retryable := retryable error; detail := detail error +:+ "; cleanup also failed: " +:+ detail cleanup_error |}.
Definition finish_failed_start (root : nat) (labels : SupervisionLabels) (error : ExecutionError) : BM ExecutionError :=
  cleaned ← attempt (cleanup_tempdir root labels);
  mret match cleaned with Err cleanup_error => also_failed error cleanup_error | _ => error end.
(** The branch of a worker that reports [Failed]: waited for, its group not killed. *)
Definition wait_failed_start (worker root : nat) (labels : SupervisionLabels) (error : ExecutionError) : BM ExecutionError :=
  _ ← reap_worker worker; finish_failed_start root labels error.
Definition abort_failed_start (worker root : nat) (labels : SupervisionLabels) (error : ExecutionError) : BM ExecutionError :=
  _ ← kill_group worker; _ ← reap_worker worker; finish_failed_start root labels error.
Definition cleanup_with_error {A} (root : nat) (labels : SupervisionLabels) (error : ExecutionError) : BM A :=
  error ← finish_failed_start root labels error; throw error.
Definition wall_clock_exceeded : ExecutionError := {| code := ResourceExhausted; retryable := false; detail := "execution exceeded wall-clock limit" |}.
(** What is received, with the worker counted as reaped from then on: the reaper and the
    signals are [Process], where a wait that fails is left to [Drop]. *)
Definition supervise_worker (worker root : nat) (labels : SupervisionLabels) (event : terminal) : BM unit :=
  _ ← reap_worker worker;
  match event with
  | DeadlinePassed => cleanup_with_error root labels wall_clock_exceeded
  | ChannelClosed => cleanup_with_error root labels (backend_error (lb_worker labels +:+ " supervision channel disconnected"))
  | CancelRequested => cleanup_tempdir root labels
  | Exited (Ok status) =>
      if es_success status then cleanup_tempdir root labels
      else cleanup_with_error root labels (backend_error (lb_worker labels +:+ " exited with " +:+ es_display status))
  | Exited (Err error) => cleanup_with_error root labels (backend_error ("wait for " +:+ lb_worker labels +:+ ": " +:+ error))
  | Exited Panic => panic
  end.
(** An error passed through what the branch does with it. *)
Definition guarded {A} (on_error : ExecutionError → BM ExecutionError) (m : BM A) : BM A :=
  r ← attempt m;
  match r with Ok a => mret a | Err error => error ← on_error error; throw error | Panic => panic end.

(** *** What a worker inherits and what it reports *)

(** The descriptors the child marks close-on-exec, and those it keeps. *)
Definition inherit_only (keep : list Z) : result ExecutionError (list (Z * bool)) :=
  held ← held_descriptors;
  mret (((λ fd, (fd, false)) <$> filter (λ fd, fd ∉ STANDARD_STREAMS ∧ fd ∉ keep) held) ++ ((λ fd, (fd, true)) <$> keep)).
Definition debug_channel (c : WorkerChannel) : string :=
  let '(WorkspaceShare workspace graph_root) := c in
  "WorkspaceShare { workspace: " +:+ debug_str workspace +:+ ", graph_root: " +:+ debug_str graph_root +:+ " }".
Definition debug_descriptors (l : list InheritedDescriptor) : string :=
  "[" +:+ join_comma ((λ d, "InheritedDescriptor { descriptor: " +:+ pretty (id_descriptor d) +:+ ", channel: " +:+ debug_channel (id_channel d) +:+ " }") <$> l) +:+ "]".
Definition confinement_drift (applied authorized : string) : ExecutionError :=
  identity_mismatch ("confinement drift: the worker applied a policy digesting to " +:+ applied +:+ ", but the grant authorized " +:+ authorized).
Definition digest_agrees (request : ExecutionRequest) (digest : string) : result ExecutionError unit :=
  ensure (bool_decide (Limits.confinement_digest request = EmptyString) || bool_decide (digest = Limits.confinement_digest request))
    (confinement_drift digest (Limits.confinement_digest request)).
Definition accept_krun (request : ExecutionRequest) (declared : list InheritedDescriptor) (event : WorkerEvent) : result ExecutionError unit :=
  match event with
  | Worker.Ready run digest inherited =>
      if negb (bool_decide (run = run_id request)) then Err (backend_error ("libkrun worker readiness named unexpected run " +:+ run))
      else if negb (bool_decide (inherited = declared))
      then Err (identity_mismatch ("descriptor drift: the worker declares inherited descriptors " +:+ debug_descriptors inherited +:+ ", and was handed " +:+ debug_descriptors declared))
      else digest_agrees request digest
  | Worker.Failed error => Err error
  end.
Definition accept_native (request : ExecutionRequest) (event : NativeEvent) : result ExecutionError unit :=
  match event with
  | NReady run digest =>
      if negb (bool_decide (run = run_id request)) then Err (backend_error ("native worker readiness named unexpected run " +:+ run))
      else digest_agrees request digest
  | NFailed error => Err error
  end.
(** [line.trim()] *)
Definition trimmed (line : string) : string := string_of (CasEvidence.trim (bytes_of line)).
Definition ready_line (worker : string) : BM string :=
  n ← gets w_calls; _ ← modify tick;
  lift match o_ready n with
       | Reported stderr =>
           match read_readiness_line stderr with
           | Ok (Some line) => Ok line
           | Ok None => Err (backend_error (worker +:+ " closed stderr before readiness"))
           | Err error => Err (backend_error ("read " +:+ worker +:+ " readiness: " +:+ error))
           | Panic => Panic
           end
       | TimedOut => Err (backend_error ("timed out waiting for " +:+ worker +:+ " readiness"))
       | Disconnected => Err (backend_error (worker +:+ " readiness channel disconnected"))
       end.
Definition already_active (id : string) : ExecutionError := {| code := ResourceConflict; retryable := false; detail := "run_id already active: " +:+ id |}.

(** ** Starting on the microVM tier *)

Definition krun_availability : result string unit :=
  if negb o_configured then Err "libkrun worker backend is not configured with existing first-party resources"%string
  else default (Ok tt) o_entitlement.
Definition krun_capabilities : BackendCapabilities := {|
  cap_backend_id := "libkrun/1"; backend_class := MicroVm; available := is_ok krun_availability;
  unavailable_reason := match krun_availability with Err reason => Some reason | _ => None end;
  Service.enforced := hypervisor_backed |}.
Definition krun_workspace_share (request : ExecutionRequest) : result ExecutionError (option unit) :=
  match workspaces request with
  | [] => mret None
  | [grant] =>
      shares ← ok_or o_shares (unsupported ("the run is granted workspace " +:+ debug_str (wg_name grant)
                 +:+ ", and this libkrun backend serves no workspace shares (start the daemon with a source tree)"));
      service ← shares (run_id request) grant; mret (Some service)
  | grants => Err (unsupported ("the microVM tier attaches one workspace as /work; the run is granted " +:+ pretty (len grants)))
  end.
(** The socket pair, for a run with a share. *)
Definition share_socket (share : option unit) : BM (option Z) :=
  match share with
  | Some _ => n ← outside (λ error, "create workspace share socket: " +:+ error); mret (Some (o_socket n))
  | None => mret None
  end.
(** The request, its newline and the flush, down the worker's standard input. *)
Definition send_request (unpiped message flush : string) : BM unit :=
  _ ← outside (λ _, unpiped);
  _ ← outside (λ error, message +:+ ": " +:+ error);
  _ ← outside (λ error, message +:+ ": " +:+ error);
  _ ← outside (λ error, flush +:+ ": " +:+ error);
  mret tt.
Definition within_deadline (request : ExecutionRequest) : result ExecutionError unit :=
  ensure (o_deadline (wall_time_ms (limits request))) (invalid "wall-clock limit is too large").
Definition register_run (id : string) : BM unit := modify (λ w, set_life (insert_run id (w_life w)) w).
Definition krun_start (request : ExecutionRequest) : BM BackendRun :=
  _ ← lift (request_validate request);
  _ ← lift (check (Service.enforced krun_capabilities) (limits request));
  _ ← ensureM (negb ((memory_limit (memory (limits request)) =? 0) || (quota (cpu (limits request)) =? 0)))
        (invalid "the microVM tier sizes the guest from memory.limit and cpu.quota; a run must grant both");
  _ ← lift (map_err backend_error krun_availability);
  active ← gets (λ w, bool_decide (is_Some (l_children (w_life w) !! run_id request)));
  _ ← ensureM (negb active) (already_active (run_id request));
  share ← lift (krun_workspace_share request);
  root ← new_root "create ephemeral rootfs volume";
  let finish := finish_failed_start root KRUN_LABELS in
  fd ← guarded finish (share_socket share);
  let declared := declared_descriptors request fd in
  _ ← guarded finish (lift (inherit_only (id_descriptor <$> declared)));
  worker ← guarded finish (spawn_worker "start first-party libkrun worker");
  let abort := abort_failed_start worker root KRUN_LABELS in
  _ ← guarded abort (send_request "first-party libkrun worker stdin was not piped" "send execution request to libkrun worker" "flush execution request to libkrun worker");
  _ ← guarded abort (outside (λ _, "first-party libkrun worker stderr was not piped"%string));
  line ← guarded abort (ready_line "libkrun worker");
  event ← guarded abort (lift (map_err (λ error, backend_error ("invalid libkrun worker readiness event: " +:+ error)) (o_krun_event (trimmed line))));
  let refuse := match event with Worker.Failed _ => wait_failed_start worker root KRUN_LABELS | _ => abort end in
  _ ← guarded refuse (lift (accept_krun request declared event));
  _ ← guarded abort (lift (within_deadline request));
  _ ← register_run (run_id request);
  mret {| started_backend_id := "libkrun/1"; started_channels := id_channel <$> declared |}.

(** ** Starting on the native tier *)

Definition not_configured : string := "native nono worker backend is not configured with existing first-party resources".
Definition native_capabilities (cgroup : option CgroupRoot) : BackendCapabilities := {|
  cap_backend_id := "native-nono/1"; backend_class := Native; available := o_configured;
  unavailable_reason := if o_configured then None else Some not_configured;
  Service.enforced := match cgroup with Some root => Cgroup.enforced root | None => wall_clock_only end |}.
Definition on_groups {A} (m : CM A) : BM A := zoom w_groups set_groups m.
(** Dropped with the call, unless the run keeps it. *)
Definition drop_group (run : option RunCgroup) : BM unit := match run with Some run => on_groups (drop_run run) | None => mret tt end.
Definition native_start (cgroup : option CgroupRoot) (request : ExecutionRequest) : BM (BackendRun * option RunCgroup) :=
  _ ← lift (request_validate request);
  _ ← lift (check (Service.enforced (native_capabilities cgroup)) (limits request));
  _ ← ensureM o_configured (backend_error not_configured);
  _ ← lift match workspaces request with
           | grant :: _ => Err (unsupported ("the run is granted workspace " +:+ debug_str (wg_name grant)
               +:+ ", and the native tier serves no workspace shares; run it on the microVM tier"))
           | [] => mret tt
           end;
  active ← gets (λ w, bool_decide (is_Some (l_children (w_life w) !! run_id request)));
  _ ← ensureM (negb active) (already_active (run_id request));
  run_cgroup ← match cgroup with
               | Some root => run ← on_groups (create_run root (run_id request) (limits request)); mret (Some run)
               | None => mret None
               end;
  let dropping error := _ ← drop_group run_cgroup; mret error in
  root ← guarded dropping (new_root "create native run root");
  let finish error := error ← finish_failed_start root NATIVE_LABELS error; dropping error in
  worker ← guarded finish (spawn_worker "start first-party native worker");
  let abort error := error ← abort_failed_start worker root NATIVE_LABELS error; dropping error in
  _ ← guarded abort match run_cgroup with
                    | Some run => on_groups (place run (o_pid worker))
                    | None => mret tt
                    end;
  _ ← guarded abort (send_request "native worker stdin was not piped" "send native worker request" "flush native worker request");
  _ ← guarded abort (outside (λ _, "native worker stderr was not piped"%string));
  line ← guarded abort (ready_line "native worker");
  event ← guarded abort (lift (map_err (λ error, backend_error ("invalid native worker readiness event: " +:+ error)) (o_native_event (trimmed line))));
  let refuse error := match event with
                      | NFailed _ => error ← wait_failed_start worker root NATIVE_LABELS error; dropping error
                      | _ => abort error
                      end in
  _ ← guarded refuse (lift (accept_native request event));
  _ ← guarded abort (lift (within_deadline request));
  _ ← register_run (run_id request);
  mret ({| started_backend_id := "native-nono/1"; started_channels := [] |}, run_cgroup).
Definition with_cgroup_cleanup (supervised removed : result ExecutionError unit) : result ExecutionError unit :=
  match supervised, removed with
  | Ok _, removed => removed
  | Err error, Err cleanup =>
      Err {| code := code error; retryable := retryable error; detail := detail error +:+ "; cgroup cleanup also failed: " +:+ detail cleanup |}
  | supervised, _ => supervised
  end.
End backends.

(** ** A start leaves a running worker or nothing *)

Section starts.
Context `{Fmt, Outside, Cgroupfs, Descriptors}.

(** Only calls were made. *)
Definition quiet (w w' : world) : Prop :=
  w_life w' = w_life w ∧ w_workers w' = w_workers w ∧ w_roots w' = w_roots w ∧ w_groups w' = w_groups w ∧ w_next w' = w_next w.
#[local] Instance quiet_preorder : PreOrder quiet.
Proof. split; [by intros w | intros w1 w2 w3 (? & ? & ? & ? & ?) (? & ? & ? & ? & ?); repeat split; congruence]. Qed.
Lemma outside_quiet message : StateM.within quiet (outside message).
Proof. by intros w. Qed.
Lemma tick_quiet : StateM.within quiet (modify tick : BM unit).
Proof. by intros w. Qed.
Hint Resolve outside_quiet tick_quiet : within.
Lemma send_request_quiet a b c : StateM.within quiet (send_request a b c).
Proof. unfold send_request. within_tac. Qed.
Lemma ready_line_quiet worker : StateM.within quiet (ready_line worker).
Proof. unfold ready_line. within_tac. Qed.
Lemma share_socket_quiet share : StateM.within quiet (share_socket share).
Proof. unfold share_socket. within_tac. Qed.
Hint Resolve send_request_quiet ready_line_quiet share_socket_quiet : within.

(** Cleaning up touches the run's own directory, and says so when it fails. *)
Definition cleaned (root : nat) (w w' : world) : Prop :=
  w_life w' = w_life w ∧ w_workers w' = w_workers w ∧ w_groups w' = w_groups w ∧ w_next w' = w_next w ∧ (w_roots w' = w_roots w ∖ {[root]} ∨ w_roots w' = w_roots w).
Lemma cleanup_exact root labels w : let '(r, w') := cleanup_tempdir root labels w in
  r ≠ Panic ∧ cleaned root w w' ∧ (r = Ok tt → w_roots w' = w_roots w ∖ {[root]}).
Proof.
  unfold cleanup_tempdir, outside, attempt, drop_root, modify, throw. unfold mbind, M_bind. cbn.
  destruct (o_fails (w_calls w)); cbn; (destruct (o_fails (S (w_calls w))); cbn; repeat split; auto; done).
Qed.
Lemma finish_exact root labels e w : ∃ e' w', finish_failed_start root labels e w = (Ok e', w') ∧ cleaned root w w'
  ∧ (w_roots w' = w_roots w ∖ {[root]} ∨ ∃ c, e' = also_failed e c).
Proof.
  unfold finish_failed_start, attempt, mbind, M_bind. pose proof (cleanup_exact root labels w) as Hc.
  destruct (cleanup_tempdir root labels w) as [[[] | c |] w1]; destruct Hc as (Hp & Hc & Ho); [| | done]; eexists _, w1; (split; [done |]; split; [done |]); eauto.
Qed.
Lemma wait_exact worker root labels e w : ∃ e' w', wait_failed_start worker root labels e w = (Ok e', w')
  ∧ cleaned root (set_workers (w_workers w ∖ {[worker]}) w) w' ∧ (w_roots w' = w_roots w ∖ {[root]} ∨ ∃ c, e' = also_failed e c).
Proof. apply (finish_exact root labels e (set_workers (w_workers w ∖ {[worker]}) w)). Qed.

(** However a run ends, its worker is reaped; it succeeds only as a worker that exited well or
    was cancelled, with its directory removed. *)
Lemma supervise_exact worker root labels event w : let '(r, w') := supervise_worker worker root labels event w in
  w_workers w' = w_workers w ∖ {[worker]} ∧ w_life w' = w_life w
  ∧ (r = Ok tt → (event = CancelRequested ∨ ∃ status, event = Exited (Ok status) ∧ es_success status = true) ∧ w_roots w' = w_roots w ∖ {[root]}).
Proof.
  set (w1 := set_workers (w_workers w ∖ {[worker]}) w).
  assert (∀ e r w2, (cleanup_with_error root labels e w1 : result ExecutionError unit * world) = (r, w2) →
    w_workers w2 = w_workers w ∖ {[worker]} ∧ w_life w2 = w_life w ∧ r ≠ Ok tt) as Herr.
  { intros e r w2. unfold cleanup_with_error. destruct (finish_exact root labels e w1) as (e' & w3 & E & (Hl & Hw & _) & _). rewrite (run_bind_Ok _ _ _ _ _ E). by intros [= <- <-]. }
  assert (∀ r w2, cleanup_tempdir root labels w1 = (r, w2) →
    w_workers w2 = w_workers w ∖ {[worker]} ∧ w_life w2 = w_life w ∧ (r = Ok tt → w_roots w2 = w_roots w ∖ {[root]})) as Hok.
  { intros r w2 E. pose proof (cleanup_exact root labels w1) as Hc. rewrite E in Hc. by destruct Hc as (_ & (? & ? & _) & ?). }
  destruct (supervise_worker worker root labels event w) as [r w2] eqn:E. unfold supervise_worker, reap_worker, modify in E. unfold mbind at 1, M_bind at 1 in E. cbv beta iota in E. fold w1 in E.
  destruct event as [[status | e |] | | |]; [destruct (es_success status) eqn:Es | | injection E as <- <- | | |].
  all: first [apply Herr in E as (Hw & Hl & Hr) | apply Hok in E as (Hw & Hl & Hr) | split; [done |]; split; done].
  all: split; [exact Hw |]; split; [exact Hl |]; intros ->; first [done | split; [eauto 8 | by apply Hr]].
Qed.

(** A step before anything was made. *)
Lemma quiet_step {A B} (m : BM A) (f : A → BM B) w (P : result ExecutionError B * world → Prop) :
  StateM.within quiet m → (∀ w', P (Panic, w')) → (∀ e w1, quiet w w1 → P (Err e, w1)) → (∀ a w1, m w = (Ok a, w1) → quiet w w1 → P (f a w1)) → P ((m ≫= f) w).
Proof. intros Hm Hp He Hf. specialize (Hm w). unfold mbind, M_bind. destruct (m w) as [[a | e |] w1] eqn:Em; cbn [snd] in Hm; [by apply Hf | by apply He | done]. Qed.

(** What a failed start leaves: at most the run directory, named in the error. *)
Definition no_trace (w w' : world) (e : ExecutionError) : Prop :=
  w_life w' = w_life w ∧ w_workers w' = w_workers w
  ∧ (w_roots w' = w_roots w ∨ w_roots w' = {[w_next w]} ∪ w_roots w ∧ ∃ e0 c, e = also_failed e0 c).
(** Process and directory numbers are not used again. *)
Definition numbered (w : world) : Prop := (∀ n, n ∈ w_workers w → n < w_next w)%nat ∧ (∀ n, n ∈ w_roots w → n < w_next w)%nat.
Record rooted (w0 w : world) : Prop := {
  ro_life : w_life w = w_life w0; ro_workers : w_workers w = w_workers w0; ro_roots : w_roots w = {[w_next w0]} ∪ w_roots w0; ro_next : w_next w = S (w_next w0);
}.
Record manned (w0 w : world) : Prop := {
  mn_life : w_life w = w_life w0; mn_workers : w_workers w = {[S (w_next w0)]} ∪ w_workers w0; mn_roots : w_roots w = {[w_next w0]} ∪ w_roots w0;
}.
Lemma quiet_rooted w0 w w' : rooted w0 w → quiet w w' → rooted w0 w'.
Proof. intros [] (? & ? & ? & ? & ?). split; congruence. Qed.
Lemma quiet_manned w0 w w' : manned w0 w → quiet w w' → manned w0 w'.
Proof. intros [] (? & ? & ? & ? & ?). split; congruence. Qed.
Lemma taken_back (x : gset nat) n : n ∉ x → ({[n]} ∪ x) ∖ {[n]} = x.
Proof. set_solver. Qed.
Lemma finish_no_trace w0 w labels e : numbered w0 → rooted w0 w →
  ∃ e' w', finish_failed_start (w_next w0) labels e w = (Ok e', w') ∧ no_trace w0 w' e' ∧ w_groups w' = w_groups w.
Proof.
  intros [_ Hn] [Hl Hw Hr _]. destruct (finish_exact (w_next w0) labels e w) as (e' & w' & E & (Hc1 & Hc2 & Hc3 & _ & Hc) & Hd). exists e', w'. split; [done |]. split; [| done].
  split_and!; [congruence | congruence |].
  assert (w_roots w ∖ {[w_next w0]} = w_roots w0) as Hback. { rewrite Hr. apply taken_back. intros Hx%Hn. lia. }
  destruct Hd as [Hd | (c & ->)]; [left; congruence |]. destruct Hc as [Hc | Hc]; [left; congruence | right]. split; [congruence | eauto].
Qed.
Lemma wait_no_trace w0 w labels e : numbered w0 → manned w0 w →
  ∃ e' w', wait_failed_start (S (w_next w0)) (w_next w0) labels e w = (Ok e', w') ∧ no_trace w0 w' e' ∧ w_groups w' = w_groups w.
Proof.
  intros [Hn1 Hn2] [Hl Hw Hr]. destruct (wait_exact (S (w_next w0)) (w_next w0) labels e w) as (e' & w' & E & (Hc1 & Hc2 & Hc3 & _ & Hc) & Hd). exists e', w'.
  split; [done |]. split; [| done]. cbn in *. split_and!; [congruence | rewrite Hc2, Hw; apply taken_back; intros Hx%Hn1; lia |].
  assert (w_roots w ∖ {[w_next w0]} = w_roots w0) as Hback. { rewrite Hr. apply taken_back. intros Hx%Hn2. lia. }
  destruct Hd as [Hd | (c & ->)]; [left; congruence |]. destruct Hc as [Hc | Hc]; [left; congruence | right]. split; [congruence | eauto].
Qed.
Lemma abort_no_trace w0 w labels e : numbered w0 → manned w0 w →
  ∃ e' w', abort_failed_start (S (w_next w0)) (w_next w0) labels e w = (Ok e', w') ∧ no_trace w0 w' e' ∧ w_groups w' = w_groups w.
Proof.
  intros Hn [Hl Hw Hr]. destruct (wait_no_trace w0 (set_killed ({[S (w_next w0)]} ∪ w_killed w) w) labels e Hn) as (e' & w' & E & Ht & Hg); [done |].
  exists e', w'. split; [exact E |]. by split.
Qed.
Lemma new_root_cases message w {B} (f : nat → BM B) (P : result ExecutionError B * world → Prop) :
  (∀ e w1, quiet w w1 → P (Err e, w1)) → (∀ w1, rooted w w1 → w_groups w1 = w_groups w → P (f (w_next w) w1)) → P ((new_root message ≫= f) w).
Proof. intros He Hf. unfold new_root, outside, allocate_root, mbind, M_bind. cbn. destruct (o_fails (w_calls w)); cbn; [by apply He | by apply Hf]. Qed.
Lemma new_root_guarded on_error message w {B} (f : nat → BM B) (P : result ExecutionError B * world → Prop) :
  (∀ e, P ((e' ← on_error e; throw e') (tick w))) → (∀ w1, rooted w w1 → w_groups w1 = w_groups w → P (f (w_next w) w1)) → P ((guarded on_error (new_root message) ≫= f) w).
Proof.
  intros He Hf. unfold guarded, new_root, outside, allocate_root, attempt, mbind, M_bind. cbn. destruct (o_fails (w_calls w)) as [error |]; cbn; [| by apply Hf].
  match goal with |- context [on_error ?e ?w1] => pose proof (He e) as Hp end. unfold mbind, M_bind in Hp. destruct (on_error _ _) as [[] ?]; apply Hp; done.
Qed.
Lemma spawn_cases on_error message w0 w {B} (f : nat → BM B) (P : result ExecutionError B * world → Prop) : rooted w0 w →
  (∀ e w1, rooted w0 w1 → w_groups w1 = w_groups w → P ((e' ← on_error e; throw e') w1)) →
  (∀ w1, manned w0 w1 → w_groups w1 = w_groups w → P (f (S (w_next w0)) w1)) → P ((guarded on_error (spawn_worker message) ≫= f) w).
Proof.
  intros [Hl Hw Hr Hn] He Hf. unfold guarded, spawn_worker, outside, allocate_worker, attempt, mbind, M_bind. cbn. destruct (o_fails (w_calls w)) as [error |]; cbn.
  - match goal with |- context [on_error ?e ?w1] => pose proof (He e w1) as Hp end. unfold mbind, M_bind in Hp. destruct (on_error _ _) as [[] ?]; apply Hp; done.
  - rewrite Hn. apply Hf; [| done]. split; cbn; congruence.
Qed.

(** A microVM run as it was accepted. *)
Record krun_started (request : ExecutionRequest) (w w' : world) (b : BackendRun) : Prop := {
  ks_sized : Limits.enforceable hypervisor_backed (limits request) ∧ memory_limit (memory (limits request)) ≠ 0 ∧ quota (cpu (limits request)) ≠ 0;
  ks_registered : register (run_id request) (w_life w) = Some (w_life w');
  ks_worker : w_workers w' = {[S (w_next w)]} ∪ w_workers w ∧ w_roots w' = {[w_next w]} ∪ w_roots w;
  ks_ready : ∃ fd line digest, (fd = None ↔ workspaces request = []) ∧ b = {| started_backend_id := "libkrun/1"; started_channels := id_channel <$> declared_descriptors request fd |}
    ∧ opens_event line = true ∧ o_krun_event (trimmed line) = Ok (Worker.Ready (run_id request) digest (declared_descriptors request fd))
    ∧ (Limits.confinement_digest request ≠ EmptyString → digest = Limits.confinement_digest request);
}.
Lemma ready_line_ok worker w line w' : ready_line worker w = (Ok line, w') → opens_event line = true.
Proof.
  unfold ready_line. intros (n & w1 & [= <- <-] & (u & w2 & _ & [Hl _]%lift_ok)%run_bind)%run_bind. destruct (o_ready _) as [stderr | |]; [| done..].
  destruct (read_readiness_line stderr) as [[l |] | |] eqn:E; try done. injection Hl as ->. by apply readiness_line_exact in E as (_ & _ & _ & Ho & _).
Qed.
Lemma digest_agrees_ok request digest : digest_agrees request digest = Ok tt → Limits.confinement_digest request ≠ EmptyString → digest = Limits.confinement_digest request.
Proof. unfold digest_agrees. intros Ho%ensure_ok%orb_true_iff. rewrite !bool_decide_eq_true in Ho. naive_solver. Qed.
Lemma accept_krun_ok request declared event : accept_krun request declared event = Ok tt →
  ∃ digest, event = Worker.Ready (run_id request) digest declared ∧ (Limits.confinement_digest request ≠ EmptyString → digest = Limits.confinement_digest request).
Proof.
  destruct event as [run digest inherited | e]; [| done]. cbn. destruct (bool_decide_reflect (run = run_id request)) as [-> |]; [| done]. cbn.
  destruct (bool_decide_reflect (inherited = declared)) as [-> |]; [| done]. cbn. eauto using digest_agrees_ok.
Qed.
Lemma share_socket_ok request share w fd w' : krun_workspace_share request = Ok share → share_socket share w = (Ok fd, w') → fd = None ↔ workspaces request = [].
Proof.
  unfold krun_workspace_share. destruct (workspaces request) as [| g [| g' gs]]; [intros [= <-] [= <- _]; done | | done].
  intros (shares & _ & (u & _ & [= <-])%bind_ok)%bind_ok. cbn. by intros (n & w1 & _ & [= <- _])%run_bind.
Qed.
(** What the accepted start leaves, whichever way it went. *)
Definition krun_outcome (request : ExecutionRequest) (w : world) (o : result ExecutionError BackendRun * world) : Prop :=
  w_groups o.2 = w_groups w ∧ match o.1 with Ok b => krun_started request w o.2 b | Err e => no_trace w o.2 e | Panic => False end.
Definition krun_post (request : ExecutionRequest) (w : world) (o : result ExecutionError BackendRun * world) : Prop := o.1 = Panic ∨ krun_outcome request w o.
Lemma quiet_no_trace w w' e : quiet w w' → no_trace w w' e.
Proof. intros (? & ? & ? & ? & ?). split_and!; auto. Qed.
Lemma finish_post request w0 w labels e : numbered w0 → rooted w0 w → w_groups w = w_groups w0 →
  krun_post request w0 ((e' ← finish_failed_start (w_next w0) labels e; throw e') w).
Proof. intros Hn Hr Hg. destruct (finish_no_trace w0 w labels e Hn Hr) as (e' & w' & E & Ht & Hg'). rewrite (run_bind_Ok _ _ _ _ _ E). right. split; cbn; [congruence | done]. Qed.
Lemma abort_post request w0 w labels e : numbered w0 → manned w0 w → w_groups w = w_groups w0 →
  krun_post request w0 ((e' ← abort_failed_start (S (w_next w0)) (w_next w0) labels e; throw e') w).
Proof. intros Hn Hr Hg. destruct (abort_no_trace w0 w labels e Hn Hr) as (e' & w' & E & Ht & Hg'). rewrite (run_bind_Ok _ _ _ _ _ E). right. split; cbn; [congruence | done]. Qed.
Lemma wait_post request w0 w labels e : numbered w0 → manned w0 w → w_groups w = w_groups w0 →
  krun_post request w0 ((e' ← wait_failed_start (S (w_next w0)) (w_next w0) labels e; throw e') w).
Proof. intros Hn Hr Hg. destruct (wait_no_trace w0 w labels e Hn Hr) as (e' & w' & E & Ht & Hg'). rewrite (run_bind_Ok _ _ _ _ _ E). right. split; cbn; [congruence | done]. Qed.

(** A step that only computes; the readiness steps, once there is a worker. *)
Lemma lift_step {A B} (r : result ExecutionError A) (f : A → BM B) w (P : result ExecutionError B * world → Prop) :
  (∀ w', P (Panic, w')) → (∀ e, P (Err e, w)) → (∀ a, r = Ok a → P (f a w)) → P ((lift r ≫= f) w).
Proof. intros Hp He Hf. unfold mbind, M_bind, lift. destruct r; [by apply Hf | by apply He | by apply Hp]. Qed.

Lemma ensure_step {B} c e (f : unit → BM B) w (P : result ExecutionError B * world → Prop) : P (Err e, w) → (c = true → P (f tt w)) → P ((ensureM c e ≫= f) w).
Proof. intros He Hf. destruct c; [by apply Hf | apply He]. Qed.
(** One more guarded call, when a failure is known to be cleaned up. *)
Lemma guarded_inv {A B} (inv : world → Prop) on_error (m : BM A) (f : A → BM B) w (P : result ExecutionError B * world → Prop) :
  (∀ w', P (Panic, w')) → (∀ e w1, inv w1 → P ((e' ← on_error e; throw e') w1)) → inv (m w).2 → (∀ a w1, m w = (Ok a, w1) → inv w1 → P (f a w1)) →
  P ((guarded on_error m ≫= f) w).
Proof.
  intros Hp He Hi Hf. unfold guarded, attempt, mbind, M_bind. destruct (m w) as [[a | e |] w1] eqn:Em; cbn [snd] in Hi.
  - by apply Hf.
  - specialize (He e w1 Hi). unfold mbind, M_bind in He. destruct (on_error e w1) as [[e' | e' |] w2]; done.
  - done.
Qed.
Lemma guarded_stage {A B} (inv : world → Prop) on_error (m : BM A) (f : A → BM B) w (P : result ExecutionError B * world → Prop) :
  StateM.within quiet m → (∀ w', P (Panic, w')) → (∀ w1 w2, inv w1 → quiet w1 w2 → inv w2) → (∀ e w1, inv w1 → P ((e' ← on_error e; throw e') w1)) →
  inv w → (∀ a w1, m w = (Ok a, w1) → inv w1 → P (f a w1)) → P ((guarded on_error m ≫= f) w).
Proof. intros Hm Hp Hq He Hi Hf. apply (guarded_inv inv); eauto. Qed.

(** C18: A microVM start leaves one supervised worker or nothing.  When [start] succeeds, the
    hypervisor can impose every ceiling of the request, the run id was free and is now
    registered, exactly one worker process and one run directory are new, and the worker said,
    in a line that opens an event, that it is ready for this run, that it inherited exactly the
    descriptors this process handed it, whose channels the backend reports, and, if the grant
    names a confinement digest, that it applied that policy.  When it fails, at whatever call,
    no run is registered and no worker is left; the run directory is gone, or the error says
    that removing it failed.  The control groups are not touched. *)
Theorem krun_start_exact request w : numbered w →
  match krun_start request w with
  | (Ok b, w') => krun_started request w w' b ∧ w_groups w' = w_groups w
  | (Err e, w') => no_trace w w' e ∧ w_groups w' = w_groups w
  | (Panic, _) => True
  end.
Proof.
  intros Hn. cut (krun_post request w (krun_start request w)).
  { destruct (krun_start request w) as [[b | e |] w']; intros [| [? ?]]; done. }
  assert (∀ w', krun_post request w (Panic, w')) as Hpanic by (by left).
  assert (∀ e w', quiet w w' → krun_post request w (Err e, w')) as Hearly. { intros e w' Hq. right. split; [by destruct Hq as (_ & _ & _ & ? & _) | by apply quiet_no_trace]. }
  set (inv1 w1 := rooted w w1 ∧ w_groups w1 = w_groups w). set (inv2 w1 := manned w w1 ∧ w_groups w1 = w_groups w).
  assert (∀ w1 w2, inv1 w1 → quiet w1 w2 → inv1 w2) as Hq1. { intros w1 w2 [] Hq. split; [by eapply quiet_rooted | destruct Hq as (_ & _ & _ & ? & _); congruence]. }
  assert (∀ w1 w2, inv2 w1 → quiet w1 w2 → inv2 w2) as Hq2. { intros w1 w2 [] Hq. split; [by eapply quiet_manned | destruct Hq as (_ & _ & _ & ? & _); congruence]. }
  assert (∀ e w1, inv1 w1 → krun_post request w ((e' ← finish_failed_start (w_next w) KRUN_LABELS e; throw e') w1)) as Hfin by (intros e w1 []; by apply finish_post).
  assert (∀ e w1, inv2 w1 → krun_post request w ((e' ← abort_failed_start (S (w_next w)) (w_next w) KRUN_LABELS e; throw e') w1)) as Habort by (intros e w1 []; by apply abort_post).
  assert (∀ e w1, inv2 w1 → krun_post request w ((e' ← wait_failed_start (S (w_next w)) (w_next w) KRUN_LABELS e; throw e') w1)) as Hwait by (intros e w1 []; by apply wait_post).
  unfold krun_start. cbv zeta.
  apply lift_step; [done | by intros; apply Hearly | intros [] Hvalid].
  apply lift_step; [done | by intros; apply Hearly | intros [] Henf%check_iff].
  apply ensure_step; [by apply Hearly | intros Hsize].
  apply lift_step; [done | by intros; apply Hearly | intros [] Hav].
  apply quiet_step; [eauto with within | done | by intros; apply Hearly | intros ? ? [= <- <-] _].
  apply ensure_step; [by apply Hearly | intros Hfree].
  apply lift_step; [done | by intros; apply Hearly | intros share Hshare].
  apply new_root_cases; [done |]. intros w1 Hr1 Hg1.
  apply (guarded_stage inv1); [eauto with within | done.. | intros fd w2 Hfd Hw2].
  apply (guarded_stage inv1); [eauto with within | done.. | intros flags w3 _ [Hr3 Hg3]].
  apply (spawn_cases _ _ w); [done | intros e w4 Hr4 Hg4; apply Hfin; split; [done | congruence] | intros w4 Hr4 Hg4].
  assert (inv2 w4) as Hw4 by (split; [done | congruence]).
  apply (guarded_stage inv2); [eauto with within | done.. | intros ? w5 _ Hw5].
  apply (guarded_stage inv2); [eauto with within | done.. | intros ? w6 _ Hw6].
  apply (guarded_stage inv2); [eauto with within | done.. | intros line w7 Hline%ready_line_ok Hw7].
  apply (guarded_stage inv2); [eauto with within | done.. | intros event w8 [Hev%map_err_ok _]%lift_ok Hw8].
  apply (guarded_stage inv2); [eauto with within | done | done | by destruct event; [apply Habort | apply Hwait] | done | intros [] w9 [(digest & -> & Hdig)%accept_krun_ok _]%lift_ok Hw9].
  apply (guarded_stage inv2); [eauto with within | done.. | intros [] w10 _ [[Hl Hw Hr] Hg]].
  right. split; [done |]. cbn in Hfree, Hsize. apply negb_true_iff, orb_false_iff in Hsize as [Hs1%N.eqb_neq Hs2%N.eqb_neq].
  apply negb_true_iff, bool_decide_eq_false, eq_None_not_Some in Hfree. split; cbn.
  - done.
  - unfold register. rewrite Hfree. f_equal. symmetry. cbn [snd]. transitivity (insert_run (run_id request) (w_life w10)); [done | by rewrite Hl].
  - done.
  - exists fd, line, digest. split; [by eapply share_socket_ok |]. done.
Qed.

(** *** The native tier *)

Section native.
Context (cgroup : option CgroupRoot) (request : ExecutionRequest) (w0 : world).
Definition group_name : string := "leyline-" +:+ run_id request.
(** The run's control group, as long as the call holds it. *)
Definition holds_group (run : option RunCgroup) (w : world) : Prop :=
  match cgroup, run with
  | None, None => w_groups w = w_groups w0
  | Some _, Some run => rc_name run = group_name ∧ cg_dirs (w_groups w0) !! group_name = None ∧ only group_name (w_groups w0) (w_groups w)
      ∧ carries (limits request) (λ f, (list_to_map ((λ f, (f, EmptyString)) <$> cg_files) : gmap string string) !! f) (λ f, file_at group_name f (w_groups w))
  | _, _ => False
  end.
Definition group_gone (w : world) : Prop :=
  match cgroup with None => w_groups w = w_groups w0 | Some _ => only group_name (w_groups w0) (w_groups w) ∧ torn_down group_name (w_groups w0) (w_groups w) end.
Definition placed (run : option RunCgroup) (w : world) : Prop :=
  match run with Some _ => file_at group_name "cgroup.procs" (w_groups w) = Some (pretty (o_pid (S (w_next w0)))) | None => True end.
Lemma on_groups_run {A} (m : CM A) w : on_groups m w = let '(r, g) := m (w_groups w) in (r, set_groups g w).
Proof. done. Qed.
Lemma drop_group_exact run w : holds_group run w → ∃ g, drop_group run w = (Ok tt, set_groups g w) ∧ group_gone (set_groups g w).
Proof.
  unfold holds_group, group_gone. destruct cgroup, run as [run |]; try done.
  - intros (En & Hnew & Ho & _). rewrite <- En in *. destruct (drop_exact run _ _ Hnew Ho) as (g & Hd & Hg). exists g. split; [| done]. cbn [drop_group]. by rewrite on_groups_run, Hd.
  - intros E. exists (w_groups w). by destruct w.
Qed.
Lemma place_keeps run pid w : holds_group (Some run) w → holds_group (Some run) (on_groups (place run pid) w).2.
Proof.
  unfold holds_group. destruct cgroup; [| done]. intros (En & Hnew & Ho & [Hm Hc Hp]). rewrite on_groups_run, <- En in *.
  assert (∀ f, f ≠ "cgroup.procs"%string → file_at (rc_name run) f (place run pid (w_groups w)).2 = file_at (rc_name run) f (w_groups w)) as Hs by (intros f Hf; by apply write_other).
  pose proof (write_only run "cgroup.procs" (pretty pid) (w_groups w) : only _ _ (place run pid (w_groups w)).2) as Hw.
  destruct (place run pid (w_groups w)) as [r g]. cbn in *. split_and!; [done | done | by etrans |]. split; by rewrite Hs.
Qed.
Lemma place_ok run pid w u w1 : rc_name run = group_name → on_groups (place run pid) w = (Ok u, w1) → file_at group_name "cgroup.procs" (w_groups w1) = Some (pretty pid).
Proof. intros <-. rewrite on_groups_run. destruct (place run pid (w_groups w)) as [r g] eqn:E. intros [= -> <-]. by apply write_ok in E. Qed.

Record native_started (w : world) (b : BackendRun) (run : option RunCgroup) : Prop := {
  ns_enforced : Limits.enforceable (Service.enforced (native_capabilities cgroup)) (limits request);
  ns_workspaces : workspaces request = [] ∧ b = {| started_backend_id := "native-nono/1"; started_channels := [] |};
  ns_registered : register (run_id request) (w_life w0) = Some (w_life w);
  ns_worker : w_workers w = {[S (w_next w0)]} ∪ w_workers w0 ∧ w_roots w = {[w_next w0]} ∪ w_roots w0;
  ns_group : holds_group run w ∧ placed run w;
  ns_ready : ∃ line digest, opens_event line = true ∧ o_native_event (trimmed line) = Ok (NReady (run_id request) digest)
    ∧ (Limits.confinement_digest request ≠ EmptyString → digest = Limits.confinement_digest request);
}.
Definition native_post (o : result ExecutionError (BackendRun * option RunCgroup) * world) : Prop :=
  match o with (Ok (b, run), w) => native_started w b run | (Err e, w) => no_trace w0 w e ∧ group_gone w | (Panic, _) => True end.
Lemma accept_native_ok event : accept_native request event = Ok tt →
  ∃ digest, event = NReady (run_id request) digest ∧ (Limits.confinement_digest request ≠ EmptyString → digest = Limits.confinement_digest request).
Proof.
  destruct event as [run digest | e]; [| done]. cbn. destruct (bool_decide_reflect (run = run_id request)) as [-> |]; [| done]. cbn. eauto using digest_agrees_ok.
Qed.
(** Created, or not asked for. *)
Lemma group_cases w {B} (f : option RunCgroup → BM B) (P : result ExecutionError B * world → Prop) : w_groups w = w_groups w0 →
  (∀ w', P (Panic, w')) → (∀ e g, group_gone (set_groups g w) → P (Err e, set_groups g w)) → (∀ run g, holds_group run (set_groups g w) → P (f run (set_groups g w))) →
  P ((match cgroup with Some root => run ← on_groups (create_run root (run_id request) (limits request)); mret (Some run) | None => mret None end ≫= f) w).
Proof.
  intros Hg Hp He Hf. unfold group_gone, holds_group in *. destruct cgroup as [root |].
  - pose proof (run_cgroup_carries_its_ceilings root (run_id request) (limits request) (w_groups w0)) as Hc. unfold on_groups, zoom, mbind, M_bind. rewrite Hg.
    destruct (create_run root (run_id request) (limits request) (w_groups w0)) as [[run | e |] g]; destruct Hc as (_ & Ho & Hok & Herr); cbn.
    + destruct (Hok run eq_refl) as (_ & ? & _ & ? & ?). by apply Hf.
    + apply He. split; [done | by eapply Herr].
    + done.
  - specialize (Hf None (w_groups w) Hg). by destruct w.
Qed.
(** The cleanups of the two stages, with the group dropped last. *)
Lemma native_finish run w e : numbered w0 → rooted w0 w → holds_group run w →
  native_post ((e' ← (error ← finish_failed_start (w_next w0) NATIVE_LABELS e; _ ← drop_group run; mret error); throw e') w).
Proof.
  intros Hn Hr Hh. destruct (finish_no_trace w0 w NATIVE_LABELS e Hn Hr) as (e' & w' & E & Ht & Hg).
  assert (holds_group run w') as Hh' by (unfold holds_group in *; by rewrite Hg). destruct (drop_group_exact _ _ Hh') as (g & Ed & Hgone).
  erewrite run_bind_Ok; [| rewrite (run_bind_Ok _ _ _ _ _ E), (run_bind_Ok _ _ _ _ _ Ed); done]. done.
Qed.
Lemma native_abort run w e : numbered w0 → manned w0 w → holds_group run w →
  native_post ((e' ← (error ← abort_failed_start (S (w_next w0)) (w_next w0) NATIVE_LABELS e; _ ← drop_group run; mret error); throw e') w).
Proof.
  intros Hn Hr Hh. destruct (abort_no_trace w0 w NATIVE_LABELS e Hn Hr) as (e' & w' & E & Ht & Hg).
  assert (holds_group run w') as Hh' by (unfold holds_group in *; by rewrite Hg). destruct (drop_group_exact _ _ Hh') as (g & Ed & Hgone).
  erewrite run_bind_Ok; [| rewrite (run_bind_Ok _ _ _ _ _ E), (run_bind_Ok _ _ _ _ _ Ed); done]. done.
Qed.
Lemma native_wait run w e : numbered w0 → manned w0 w → holds_group run w →
  native_post ((e' ← (error ← wait_failed_start (S (w_next w0)) (w_next w0) NATIVE_LABELS e; _ ← drop_group run; mret error); throw e') w).
Proof.
  intros Hn Hr Hh. destruct (wait_no_trace w0 w NATIVE_LABELS e Hn Hr) as (e' & w' & E & Ht & Hg).
  assert (holds_group run w') as Hh' by (unfold holds_group in *; by rewrite Hg). destruct (drop_group_exact _ _ Hh') as (g & Ed & Hgone).
  erewrite run_bind_Ok; [| rewrite (run_bind_Ok _ _ _ _ _ E), (run_bind_Ok _ _ _ _ _ Ed); done]. done.
Qed.
Lemma quiet_gone w e : quiet w0 w → native_post (Err e, w).
Proof. intros Hq. split; [by apply quiet_no_trace |]. destruct Hq as (_ & _ & _ & Hg & _). unfold group_gone. rewrite Hg. destruct cgroup; [| done]. split; [done | by left]. Qed.
Lemma native_new_root run g message (f : nat → BM (BackendRun * option RunCgroup)) : holds_group run (set_groups g w0) →
  (∀ w, rooted w0 w → holds_group run w → native_post (f (w_next w0) w)) →
  native_post ((guarded (λ error, _ ← drop_group run; mret error) (new_root message) ≫= f) (set_groups g w0)).
Proof.
  intros Hh Hf. apply new_root_guarded; [intros e | intros w1 Hr Hg; apply Hf; [by destruct Hr |]; unfold holds_group in *; by rewrite Hg].
  destruct (drop_group_exact run (tick (set_groups g w0)) Hh) as (g' & Ed & Hgone).
  erewrite run_bind_Ok; [| rewrite (run_bind_Ok _ _ _ _ _ Ed); done]. split; [split_and!; [done.. | by left] | done].
Qed.
Lemma place_stage run w {B} on_error (f : unit → BM B) (P : result ExecutionError B * world → Prop) :
  (∀ w', P (Panic, w')) → manned w0 w → holds_group run w → (∀ e w1, manned w0 w1 → holds_group run w1 → P ((e' ← on_error e; throw e') w1)) →
  (∀ w1, manned w0 w1 → holds_group run w1 → placed run w1 → P (f tt w1)) →
  P ((guarded on_error match run with Some run => on_groups (place run (o_pid (S (w_next w0)))) | None => mret tt end ≫= f) w).
Proof.
  intros Hp Hm Hh He Hf. apply (guarded_inv (λ w1, manned w0 w1 ∧ holds_group run w1)); [done | by intros e w1 [] ; apply He | |].
  - destruct run as [run |]; [| done]. split; [| by apply place_keeps]. rewrite on_groups_run. by destruct (place _ _ _), Hm.
  - intros [] w1 Er [Hm1 Hh1]. apply Hf; [done.. |]. unfold placed. destruct run as [run |]; [| done].
    apply place_ok in Er; [done |]. unfold holds_group in Hh. destruct cgroup; [by destruct Hh | done].
Qed.
End native.

(** C19: A native start leaves one supervised worker in its group or nothing.  When [start]
    succeeds, the tier imposes every ceiling of the request, no workspace is granted, the run id
    was free and is now registered, exactly one worker process and one run directory are new,
    the run's control group, where the operator delegated one, is new, carries the ceilings, and
    was given the process id of that very worker, and the worker said it is ready for this run under the
    granted policy.  When it fails, no run is registered, no worker is left, the control group
    is gone or its teardown was refused, no other group was touched, and the run directory is
    gone or the error says that removing it failed. *)
Theorem native_start_exact cgroup request w : numbered w →
  match native_start cgroup request w with
  | (Ok (b, run), w') => native_started cgroup request w w' b run
  | (Err e, w') => no_trace w w' e ∧ group_gone cgroup request w w'
  | (Panic, _) => True
  end.
Proof.
  intros Hn. change (native_post cgroup request w (native_start cgroup request w)). set (P := native_post cgroup request w).
  assert (∀ w', P (Panic, w')) as Hpanic by done. pose proof (λ e w', quiet_gone cgroup request w w' e : _ → P _) as Hearly.
  unfold native_start. cbv zeta.
  apply lift_step; [done | by intros; apply Hearly | intros [] Hvalid].
  apply lift_step; [done | by intros; apply Hearly | intros [] Henf%check_iff].
  apply ensure_step; [by apply Hearly | intros Hconf].
  apply lift_step; [done | by intros; apply Hearly | intros [] Hws].
  apply quiet_step; [eauto with within | done | by intros; apply Hearly | intros ? ? [= <- <-] _].
  apply ensure_step; [by apply Hearly | intros Hfree].
  apply (group_cases cgroup request w); [done | done | by intros e g Hgone; split; [split_and!; [done.. | by left] |] | intros run g Hh].
  assert (∀ w1 w2, holds_group cgroup request w run w1 → w_groups w2 = w_groups w1 → holds_group cgroup request w run w2) as Hsame by (unfold holds_group; by intros ? ? ? ->).
  apply native_new_root; [done | intros w1 Hr1 Hh1].
  apply (spawn_cases _ _ w); [done | intros e w2 Hr2 Hg2; apply native_finish; [done.. | by eapply Hsame] | intros w2 Hm2 Hg2]. apply Hsame in Hg2 as Hh2; [| done].
  apply (place_stage cgroup request w); [done.. | intros e w3 Hm3 Hh3; by apply native_abort | intros w3 Hm3 Hh3 Hp3].
  set (inv3 w1 := manned w w1 ∧ holds_group cgroup request w run w1 ∧ placed request w run w1).
  assert (∀ w1 w2, inv3 w1 → quiet w1 w2 → inv3 w2) as Hq3.
  { intros x y (Hmx & Hhx & Hpx) Hq. pose proof (quiet_manned _ _ _ Hmx Hq) as Hmy. destruct Hq as (_ & _ & _ & Hg & _). split_and!; [done | by eapply Hsame |]. unfold placed in *. by rewrite Hg. }
  assert (∀ e w1, inv3 w1 → P ((e' ← (error ← abort_failed_start (S (w_next w)) (w_next w) NATIVE_LABELS e; _ ← drop_group run; mret error); throw e') w1)) as Habort
    by (intros e ? (? & ? & _); by apply native_abort).
  assert (∀ e w1, inv3 w1 → P ((e' ← (error ← wait_failed_start (S (w_next w)) (w_next w) NATIVE_LABELS e; _ ← drop_group run; mret error); throw e') w1)) as Hwait
    by (intros e ? (? & ? & _); by apply native_wait).
  assert (inv3 w3) as Hw3 by done.
  apply (guarded_stage inv3); [eauto with within | done.. | intros ? w4 _ Hw4].
  apply (guarded_stage inv3); [eauto with within | done.. | intros ? w5 _ Hw5].
  apply (guarded_stage inv3); [eauto with within | done.. | intros line w6 Hline%ready_line_ok Hw6].
  apply (guarded_stage inv3); [eauto with within | done.. | intros event w7 [Hev%map_err_ok _]%lift_ok Hw7].
  apply (guarded_stage inv3); [eauto with within | done | done | by destruct event; [apply Habort | apply Hwait] | done | intros [] w8 [(digest & -> & Hdig)%accept_native_ok _]%lift_ok Hw8].
  apply (guarded_stage inv3); [eauto with within | done.. | intros [] w9 _ ([Hl Hw Hr] & Hh9 & Hp9)].
  cbn in Hfree. apply negb_true_iff, bool_decide_eq_false, eq_None_not_Some in Hfree. split.
  - done.
  - by destruct (workspaces request).
  - unfold register. rewrite Hfree. f_equal. symmetry. transitivity (insert_run (run_id request) (w_life w9)); [done | by rewrite Hl].
  - done.
  - done.
  - by exists line, digest.
Qed.
End starts.

(** ** The command line reaches the worker *)

Lemma parse_pretty_go x : ∀ s, parse_digits 0 (pretty_N_go x s) = parse_digits (Z.of_N x) s.
Proof.
  induction (N.lt_wf_0 x) as [x _ IH]; intros s. destruct (decide (0 < x)) as [Hx | Hx]; [| by replace x with 0 by lia].
  rewrite pretty_N_go_step by done. rewrite IH by (apply N.div_lt; lia). cbn [parse_digits].
  assert (∀ d, d < 10 → digit_value (pretty_N_char d) = Some (Z.of_N d)) as ->.
  - intros d Hd. unfold pretty_N_char. repeat (destruct d as [| d]; try done; try lia).
    do 10 (destruct d as [d | d |]; try done; try lia).
  - f_equal. rewrite N2Z.inj_div, N2Z.inj_mod. pose proof (Z.div_mod (Z.of_N x) 10). lia.
  - apply N.mod_lt. lia.
Qed.
Lemma digits_ascii s : ∀ acc z, parse_digits acc s = Some z → from_utf8_ok (bytes_of s) = true.
Proof.
  intros acc z Hs. apply bool_decide_eq_true. revert acc z Hs. induction s as [| c s IH]; intros acc z; [done |]. cbn [parse_digits]. destruct (digit_value c) eqn:Ec; [| done].
  intros Hs%IH. change (bytes_of (String c s)) with (byte_of_ascii c :: bytes_of s). cbn [utf8_lossy].
  assert (in_range 0 127 (byte_of_ascii c) = true) as ->; [| by rewrite Hs]. by destruct c as [[] [] [] [] [] [] [] []].
Qed.
Lemma parse_digits_i32 s z : s ≠ EmptyString → parse_digits 0 s = Some z → parse_i32 s = in_i32 z.
Proof.
  intros Hs Hp. destruct s as [| c s]; [done |]. unfold parse_i32.
  case_bool_decide as E1; [subst; done |]. case_bool_decide as E2; [subst; done |]. by rewrite Hp.
Qed.
Lemma parse_descriptor fd : (0 ≤ fd < 2 ^ 31)%Z → to_str (pretty fd) ≫= parse_i32 = Some fd.
Proof.
  intros Hfd. assert (parse_digits 0 (pretty fd) = Some fd ∧ pretty fd ≠ EmptyString) as [Hp Hne].
  { destruct fd as [| p | p]; [done | | lia]. change (pretty (Z.pos p)) with (pretty_N_go (N.pos p) EmptyString). rewrite parse_pretty_go. split; [done |].
    intros He. pose proof (parse_pretty_go (N.pos p) EmptyString) as Hx. by rewrite He in Hx. }
  unfold to_str. rewrite (digits_ascii _ _ _ Hp). cbn. rewrite (parse_digits_i32 _ _ Hne Hp). unfold in_i32.
  destruct (Z.leb_spec (- 2 ^ 31) fd), (Z.ltb_spec fd (2 ^ 31)); (done || lia).
Qed.
(** The options a libkrun worker is started with, and a native one. *)
Definition krun_options (config : KrunWorkerConfig) (run_root : string) (share_fd : option Z) : WorkerOptions := {|
  wo_cas_root := kw_cas_root config; wo_run_root := run_root; wo_runtime_files := kw_runtime_files config; wo_devices := kw_devices config;
  wo_tsi_hijack_inet := kw_tsi_hijack_inet config; wo_workspace_share_fd := share_fd |}.
Lemma parse_paths flag add o paths rest :
  flag ≠ "--tsi-hijack-inet"%string → (∀ o value, parse_option o flag value = Ok (add o value)) →
  parse_arguments o ((paths ≫= λ path, [flag; path]) ++ rest) = parse_arguments (foldl add o paths) rest.
Proof.
  intros Hf Hadd. revert o. induction paths as [| path paths IH]; intros o; [done |]. change ((path :: paths) ≫= λ path, [flag; path]) with (flag :: path :: (paths ≫= λ path, [flag; path])).
  cbn [app parse_arguments foldl]. case_bool_decide; [done |]. rewrite Hadd. apply IH.
Qed.
Definition add_runtime (o : parsed_options) (paths : list string) : parsed_options :=
  {| po_cas_root := po_cas_root o; po_run_root := po_run_root o; po_runtime_files := po_runtime_files o ++ paths; po_devices := po_devices o;
     po_tsi_hijack_inet := po_tsi_hijack_inet o; po_workspace_share_fd := po_workspace_share_fd o |}.
Definition add_device (o : parsed_options) (paths : list string) : parsed_options :=
  {| po_cas_root := po_cas_root o; po_run_root := po_run_root o; po_runtime_files := po_runtime_files o; po_devices := po_devices o ++ paths;
     po_tsi_hijack_inet := po_tsi_hijack_inet o; po_workspace_share_fd := po_workspace_share_fd o |}.
Lemma add_runtimes o paths : foldl (λ o p, add_runtime o [p]) o paths = add_runtime o paths.
Proof. revert o. induction paths as [| p paths IH]; intros [a b c d e f]; [unfold add_runtime; cbn; by rewrite app_nil_r |]. cbn. rewrite IH. unfold add_runtime. cbn. by rewrite <- app_assoc. Qed.
Lemma add_devices o paths : foldl (λ o p, add_device o [p]) o paths = add_device o paths.
Proof. revert o. induction paths as [| p paths IH]; intros [a b c d e f]; [unfold add_device; cbn; by rewrite app_nil_r |]. cbn. rewrite IH. unfold add_device. cbn. by rewrite <- app_assoc. Qed.
Lemma worker_reads_its_command_line config run_root fd : (∀ d, fd = Some d → 0 ≤ d < 2 ^ 31)%Z →
  WorkerOptions_parse (krun_arguments config run_root fd) = Ok (krun_options config run_root fd).
Proof.
  intros Hfd. unfold WorkerOptions_parse, krun_arguments. set (rest := (_ ≫= _) ++ _).
  change (parse_arguments no_options _) with (parse_arguments {| po_cas_root := Some (kw_cas_root config); po_run_root := Some run_root; po_runtime_files := []; po_devices := [];
    po_tsi_hijack_inet := false; po_workspace_share_fd := None |} rest). unfold rest.
  rewrite (parse_paths "--runtime-file" (λ o p, add_runtime o [p])) by done. rewrite (parse_paths "--device" (λ o p, add_device o [p])) by done. rewrite add_runtimes, add_devices.
  destruct fd as [d |].
  - pose proof (parse_descriptor d (Hfd d eq_refl)) as Hp. destruct (kw_tsi_hijack_inet config) eqn:Et; cbn -[to_str pretty parse_i32];
      unfold parse_option; cbn -[to_str pretty parse_i32]; rewrite Hp; cbn; (destruct (Z.leb_spec 0 d); [| specialize (Hfd d eq_refl); lia]); cbn; unfold krun_options; by rewrite Et.
  - destruct (kw_tsi_hijack_inet config) eqn:Et; cbn; unfold krun_options; by rewrite Et.
Qed.
Lemma native_paths o paths : native_arguments o (paths ≫= λ path, ["--runtime-file"%string; path]) =
  Ok {| np_cas_root := np_cas_root o; np_run_root := np_run_root o; np_runtime_files := np_runtime_files o ++ paths |}.
Proof.
  revert o. induction paths as [| path paths IH]; intros [a b c]; [cbn; by rewrite app_nil_r |].
  change ((path :: paths) ≫= λ path, ["--runtime-file"%string; path]) with ("--runtime-file"%string :: path :: (paths ≫= λ path, ["--runtime-file"%string; path])).
  transitivity (native_arguments {| np_cas_root := a; np_run_root := b; np_runtime_files := c ++ [path] |} (paths ≫= λ path, ["--runtime-file"%string; path])); [done |].
  rewrite IH. cbn. by rewrite <- app_assoc.
Qed.
Lemma native_worker_reads_its_command_line config run_root :
  NativeOptions_parse (native_worker_arguments config run_root) =
  Ok {| no_cas_root := nw_cas_root config; no_run_root := run_root; no_runtime_files := nw_runtime_files config |}.
Proof.
  unfold NativeOptions_parse, native_worker_arguments. set (rest := nw_runtime_files config ≫= _).
  change (native_arguments _ _) with (native_arguments {| np_cas_root := Some (nw_cas_root config); np_run_root := Some run_root; np_runtime_files := [] |} rest).
  unfold rest. by rewrite native_paths.
Qed.

(** ** Backend and worker together *)

Section composed.
Context `{Blake3, Fmt, JsonText, Os, RootfsJson, HostPaths, Nono, Descriptors} (target : Target).

(** C17: The backend accepts a worker exactly when it confined itself as granted.  A worker
    started with the backend's command line reads the options it was given; when it prepares the
    run, the machine, its root and its program are the request's, the share it serves is the
    descriptor it was handed, and it is confined by one manifest, the document of the grant if
    the request carries one.  The backend takes its readiness if and only if the request names
    no policy or the digest of the applied manifest is the one it names: neither the run's name
    nor the declared descriptors of such a worker are ever refused. *)
Theorem accepted_run_is_as_granted `{!JsonTextLaws} config run_root fd request options w run w' :
  (∀ d, fd = Some d → 0 ≤ d < 2 ^ 31)%Z → tree_ok (h_nodes (w_host w)) →
  WorkerOptions_parse (krun_arguments config run_root fd) = Ok options → prepare target options request w = (Ok run, w') →
  prepared_machine options request run ∧ pr_share run = fd
  ∧ prepared_root run_root request (h_nodes (w_host w)) (h_nodes (w_host w')) (rr_canonical_path (kc_rootfs (pr_config run)))
  ∧ ∃ caps m, w_confined w' = Some caps ∧ prepared_channels options run m
    ∧ attested_policy target Tier_MicroVm (kw_runtime_files config) (kw_devices config) request
        (rr_canonical_path (kc_rootfs (pr_config run))) (pr_confinement_digest run) caps m
    ∧ (accept_krun request (declared_descriptors request fd) (PreparedRun_ready run) = Ok tt ↔
       Limits.confinement_digest request = EmptyString ∨ Confinement.confinement_digest m = Ok (Limits.confinement_digest request)).
Proof.
  intros Hfd Ht Ho Hp. rewrite worker_reads_its_command_line in Ho by done. injection Ho as <-.
  destruct (prepared_run_is_as_granted target _ request w run w' Ht Hp) as (Hm & Hr & caps & m & Hc & Hch & Ha).
  destruct (pm_share _ _ _ Hm) as [Hs _]. split; [done |]. split; [done |]. split; [done |]. exists caps, m. split; [done |]. split; [done |]. split; [done |].
  unfold accept_krun, PreparedRun_ready. rewrite (pm_run _ _ _ Hm), (bool_decide_eq_true_2 (run_id request = _)) by done.
  rewrite (bool_decide_eq_true_2 (pr_inherited run = _)); [| rewrite (pm_declared _ _ _ Hm), Hs; unfold declared_descriptors; cbn; pose proof (pm_workspaces _ _ _ Hm) as Hone;
    destruct (workspaces request) as [| g [| g' gs]], fd; try done; cbn in Hone; lia].
  cbn. unfold digest_agrees. rewrite (ap_attested _ _ _ _ _ _ _ _ _ Ha). split.
  - intros Hx%ensure_ok%orb_true_iff. rewrite !bool_decide_eq_true in Hx. destruct Hx as [? | ->]; [by left | by right].
  - intros Hx. apply ensure_ok, orb_true_iff. rewrite !bool_decide_eq_true. destruct Hx as [? | [= ->]]; [by left | by right].
Qed.
End composed.

(** ** A small host *)

Module SmallHost.
Import SmallRun.
(** Calls fail from the given one on. *)
Definition host_from (first_failure : nat) : Outside := {|
  o_fails := λ n, if (first_failure <=? n)%nat then Some "no"%string else None; o_configured := true; o_entitlement := None;
  o_shares := Some (λ _ _, Ok tt); o_socket := λ _, 7%Z; o_pid := λ worker, N.of_nat (40 + worker);
  o_ready := λ _, Reported [Ok "warming up"; Ok " {ready}"]%string;
  o_krun_event := λ _, Ok (Worker.Ready "run-1" "" [{| id_descriptor := 7%Z; id_channel := WorkspaceShare "ws" "root" |}]);
  o_native_event := λ _, Ok (NReady "run-1" ""); o_deadline := λ _, true |}.
Definition kernel : Cgroupfs := {|
  cg_files := ["memory.max"; "cpu.max"; "pids.max"; "cgroup.events"; "cgroup.procs"]%string; cg_fails := λ _, None; cg_populated := λ _, false;
  cg_magic := λ _, Ok CGROUP2_SUPER_MAGIC; cg_subtree_control := λ _, Ok "cpu memory pids"%string |}.
#[export] Existing Instance kernel.
Definition sized (ws : list WorkspaceGrant) : ExecutionRequest := {|
  run_id := "run-1"; replay_key := "key-1"; rootfs := SmallRoot.digest; executable := "bin/app"; arguments := []; public_environment := ∅; allowed_egress := [];
  limits := demo_limits; Limits.confinement_digest := EmptyString; Limits.confinement_manifest := None; workspaces := ws |}.
Definition share : list WorkspaceGrant := [{| wg_name := "ws"; wg_graph_root := "root"; expected_generation := 0; operations := [] |}].
Definition idle : world := {|
  w_life := lifecycle_new; w_workers := ∅; w_killed := ∅; w_roots := ∅; w_groups := {| cg_dirs := ∅; cg_calls := 0; cg_pauses := 0 |}; w_calls := 0; w_next := 0 |}.
Lemma idle_numbered : numbered idle.
Proof. split; cbn; set_solver. Qed.
Definition config : KrunWorkerConfig := {|
  kw_worker := "/worker"; kw_cas_root := "/cas"; kw_ephemeral_root := "/tmp"; kw_runtime_files := wo_runtime_files options; kw_devices := wo_devices options; kw_tsi_hijack_inet := true |}.
End SmallHost.
Import SmallRun SmallHost.

(** One run goes through, one whose fourth call on the host fails leaves nothing. *)
Lemma krun_start_exact_witness :
  let start n := @krun_start demo_fmt (host_from n) descriptors (sized share) idle in
  (∃ b w', start 100%nat = (Ok b, w') ∧ w_workers w' = {[1%nat]} ∪ ∅ ∧ register "run-1" lifecycle_new = Some (w_life w'))
  ∧ ∃ e w', start 3%nat = (Err e, w') ∧ w_workers w' = ∅ ∧ w_life w' = lifecycle_new.
Proof.
  intros start. split.
  - destruct (start 100%nat) as [r w'] eqn:E. assert (r = fst (start 100%nat)) as Er by (by rewrite E). vm_compute in Er.
    pose proof (@krun_start_exact demo_fmt (host_from 100) descriptors (sized share) idle idle_numbered) as Hk. fold (start 100%nat) in Hk. rewrite E in Hk.
    destruct r as [b | |]; [| discriminate Er..]. destruct Hk as [[_ Hr [Hw _] _] _]. exists b, w'. split; [reflexivity |]. split; [exact Hw | exact Hr].
  - destruct (start 3%nat) as [r w'] eqn:E. assert (r = fst (start 3%nat)) as Er by (by rewrite E). vm_compute in Er.
    pose proof (@krun_start_exact demo_fmt (host_from 3) descriptors (sized share) idle idle_numbered) as Hk. fold (start 3%nat) in Hk. rewrite E in Hk.
    destruct r as [| e |]; [discriminate Er | | discriminate Er]. destruct Hk as [(Hl & Hw & _) _]. exists e, w'. split; [reflexivity |]. split; [exact Hw | exact Hl].
Defined.
(** A worker that names another run has its process group killed, one that reports its own
    failure is only waited for. *)
Lemma failed_worker_group_not_killed :
  let start event := (@krun_start demo_fmt {|
    o_fails := λ _, None; o_configured := true; o_entitlement := None; o_shares := Some (λ _ _, Ok tt); o_socket := λ _, 7%Z; o_pid := λ _, 42;
    o_ready := λ _, Reported [Ok " {}"]%string; o_krun_event := λ _, Ok event; o_native_event := λ _, Err ""%string; o_deadline := λ _, true |} descriptors (sized share) idle).2 in
  elements (w_killed (start (Worker.Ready "other" "" []))) = [1%nat] ∧ w_workers (start (Worker.Ready "other" "" [])) = ∅
  ∧ elements (w_killed (start (Worker.Failed (backend_error "no"%string)))) = [] ∧ w_workers (start (Worker.Failed (backend_error "no"%string))) = ∅.
Proof. split_and!; vm_compute; reflexivity. Qed.
(** The same of a native run under a control group. *)
Lemma native_start_exact_witness :
  let root := {| cr_path := "/cg"; cr_memory := true; cr_cpu := true; cr_pids := true; cr_stand_in := false |} in
  let start n := @native_start demo_fmt (host_from n) kernel (Some root) (sized []) idle in
  (∃ b run w', start 100%nat = (Ok (b, Some run), w') ∧ file_at "leyline-run-1" "memory.max" (w_groups w') = Some "536870912"%string
     ∧ w_workers w' = {[1%nat]} ∪ ∅ ∧ file_at "leyline-run-1" "cgroup.procs" (w_groups w') = Some "41"%string)
  ∧ ∃ e w', start 3%nat = (Err e, w') ∧ w_workers w' = ∅ ∧ w_life w' = lifecycle_new.
Proof.
  intros root start. split.
  - destruct (start 100%nat) as [r w'] eqn:E. assert (r = fst (start 100%nat)) as Er by (by rewrite E). vm_compute in Er.
    pose proof (@native_start_exact demo_fmt (host_from 100) kernel (Some root) (sized []) idle idle_numbered) as Hk. fold (start 100%nat) in Hk. rewrite E in Hk.
    destruct r as [[b [run |]] | |]; [| discriminate Er..]. destruct Hk as [_ _ _ [Hw _] [(_ & _ & _ & [Hm _ _]) Hp] _]. exists b, run, w'.
    split; [reflexivity |]. split; [exact Hm |]. split; [exact Hw | exact Hp].
  - destruct (start 3%nat) as [r w'] eqn:E. assert (r = fst (start 3%nat)) as Er by (by rewrite E). vm_compute in Er.
    pose proof (@native_start_exact demo_fmt (host_from 3) kernel (Some root) (sized []) idle idle_numbered) as Hk. fold (start 3%nat) in Hk. rewrite E in Hk.
    destruct r as [| e |]; [discriminate Er | | discriminate Er]. destruct Hk as [(Hl & Hw & _) _]. exists e, w'. split; [reflexivity |]. split; [exact Hw | exact Hl].
Defined.
(** The document of the small run, whose digest the request does not name. *)
Lemma accepted_run_is_as_granted_witness :
  ∃ run w', WorkerOptions_parse (krun_arguments config "/run" (Some 7%Z)) = Ok options ∧ prepare Linux options request begin = (Ok run, w')
    ∧ pr_share run = Some 7%Z ∧ accept_krun request (declared_descriptors request (Some 7%Z)) (PreparedRun_ready run) = Ok tt.
Proof.
  destruct (prepare Linux options request begin) as [r w'] eqn:E.
  assert (r = fst (prepare Linux options request begin)) as Er by (by rewrite E). vm_compute in Er.
  destruct r as [run | |]; [| discriminate Er..]. clear Er.
  assert (WorkerOptions_parse (krun_arguments config "/run" (Some 7%Z)) = Ok options) as Ho by (vm_compute; reflexivity).
  destruct (accepted_run_is_as_granted Linux config "/run" (Some 7%Z) request options begin run w' ltac:(intros d [= <-]; lia) SmallRoot.start_tree Ho E)
    as (_ & Hs & _ & caps & m & _ & _ & _ & Ha).
  exists run, w'. split; [exact Ho |]. split; [reflexivity |]. split; [exact Hs |]. apply Ha. left. reflexivity.
Defined.
