(* ===== verification/Restriction.v ===== *)
(** * Restriction-addressed reviews

    [rs/ll-open/cache/src/restriction.rs] and [strategy.rs]: an expensive review of a function or
    of a public symbol is kept under a cheap key, a fold over the fact rows the review reads.
    A key is sound when equal keys mean equal reviews.  The rows are those of the fact tables;
    the two review families read them through the indexes that [from_rows] builds.  Reading
    a row outside the table panics, as indexing a vector does. *)

From S2P Require Import Prelude Substrate Partition Text Ordered.
From Stdlib Require Import NArith Lia.
Local Open Scope N_scope.

(** [Ord] as a relation, and [sort] over it; the set iterates in order. *)
Definition cmp_le `{Cmp K} (a b : K) : Prop := cmp a b ≠ Gt.
#[global] Instance cmp_le_dec `{Cmp K} : RelDecision (cmp_le (K := K)).
Proof. intros a b. unfold cmp_le. apply _. Defined.
#[global] Instance cmp_le_total `{CmpLaws K} : Total (cmp_le (K := K)).
Proof. intros a b. unfold cmp_le. rewrite (cmp_flip a b). destruct (cmp a b); cbn; auto. Qed.
#[global] Instance cmp_le_trans `{CmpLaws K} : Transitive (cmp_le (K := K)).
Proof.
  intros a b c. unfold cmp_le. destruct (cmp a b) eqn:E1, (cmp b c) eqn:E2; try done; intros _ _.
  - apply cmp_eq in E1, E2. subst. by rewrite cmp_refl.
  - apply cmp_eq in E1. subst. by rewrite E2.
  - apply cmp_eq in E2. subst. by rewrite E1.
  - by rewrite (cmp_lt_trans a b c).
Qed.
#[global] Instance cmp_le_antisym `{CmpLaws K} : AntiSymm (=) (cmp_le (K := K)).
Proof. intros a b. unfold cmp_le. rewrite (cmp_flip a b). destruct (cmp a b) eqn:E; cbn; try done. by apply cmp_eq in E. Qed.
Definition sort `{Cmp K} (l : list K) : list K := merge_sort cmp_le l.
Definition BTreeSet (l : list string) : list string := sort (elements (list_to_set l : gset string)).

(** ** Rows and keys *)

Definition ROW_CONTEXT : string := "leyline/restriction/v1".
Definition CALL_TARGET_SCHEME : string := "leyline/restriction/call-target/token-eq/v1".
Definition PUBLIC_API_SCHEME : string := "leyline/restriction/public-api/token-eq/v1".
Definition WHOLE_OBJECT_SCHEME : string := "leyline/restriction/whole-object/v1".
Definition WHOLE_INPUT_SCHEME : string := "leyline/restriction/whole-input/v1".

Inductive RowKind := Container | Ref | Import | Def | Api | Qualifier | Visibility | Signature | SigType | TypeDef.
#[global] Instance RowKind_eq_dec : EqDecision RowKind.
Proof. solve_decision. Defined.
Definition kind_value (k : RowKind) : N :=
  match k with
  | Container => 0 | Ref => 1 | Import => 2 | Def => 3 | Api => 4 | Qualifier => 5 | Visibility => 6 | Signature => 7 | SigType => 8 | TypeDef => 9
  end.
Inductive Provenance := PQuery | PRef (i : nat) | PImport (i : nat) | PDef (i : nat) | PSigType (i : nat).
Record Row := { kind : RowKind; fields : list (list byte); provenance : Provenance }.
Definition Row_new (kind : RowKind) (provenance : Provenance) (fields : list (list byte)) : Row :=
  {| kind := kind; fields := fields; provenance := provenance |}.
Definition row_preimage (fields : list (list byte)) : list byte :=
  u64_le (len fields) ++ concat ((λ f, u64_le (len f) ++ f) <$> fields).
Definition opt_field (v : option string) : list byte :=
  match v with None => [x00] | Some s => x01 :: bytes_of s end.

Section keys.
Context `{Blake3}.
Definition row_address (r : Row) : Hash := blake3_derive_key ROW_CONTEXT (row_preimage (fields r)).
Definition row_entry (r : Row) : Entry := {| addr := row_address r; ea := kind_value (kind r); eb := 0 |}.
Definition key_spec (scheme : string) (parser_id : Hash) : PartitionSpec :=
  {| domain := RowSet; Partition.scheme := bytes_of scheme; params := as_bytes parser_id; canon_version := 1 |}.
Definition restriction_key (scheme : string) (parser_id : Hash) (rows : list Row) : Hash :=
  address (key_spec scheme parser_id) (row_entry <$> rows).
End keys.

(** ** The fact tables *)

Record DefRow := { d_token : string; d_source_id : string; d_kind : string }.
Record RefRow := { r_token : string; r_qualifier : option string; r_container : option string; r_source_id : string }.
Record ImportRow := { i_alias : string; i_path : string; i_source_id : string }.
#[global] Instance DefRow_eq_dec : EqDecision DefRow.
Proof. solve_decision. Defined.
(** The derived order: field by field. *)
Definition def_tuple (d : DefRow) : string * (string * string) := (d_token d, (d_source_id d, d_kind d)).
#[global] Instance DefRow_cmp : Cmp DefRow := λ a b, cmp (def_tuple a) (def_tuple b).

Notation index := (gmap string (list nat)).
(** [index.entry(key).or_default().push(i)] *)
Definition push_index (key : string) (i : nat) (m : index) : index := <[key := default [] (m !! key) ++ [i]]> m.
Definition index_by {A} (key : A → option string) (l : list A) : index :=
  foldl (λ m '(i, a), match key a with Some k => push_index k i m | None => m end) ∅ (imap pair l).
Definition index_slice (m : index) (key : string) : list nat := default [] (m !! key).

Record FactSubstrate := {
  defs : list DefRow; refs : list RefRow; imports : list ImportRow;
  def_index : index; refs_by_container : index; imports_by_file : index;
  container_by_fn : gmap string string; parser_id : Hash;
}.
Definition from_rows (defs : list DefRow) (refs : list RefRow) (imports : list ImportRow) (container_by_fn : gmap string string) (parser_id : Hash) : FactSubstrate := {|
  defs := defs; refs := refs; imports := imports;
  def_index := index_by (λ d, Some (d_token d)) defs; refs_by_container := index_by r_container refs; imports_by_file := index_by (λ i, Some (i_source_id i)) imports;
  container_by_fn := container_by_fn; parser_id := parser_id |}.
Definition container_for_fn (sub : FactSubstrate) (name : string) : option string := container_by_fn sub !! name.

(** ** The call-target review *)

(** What a walk returns, and the rows it touched. *)
Definition counted (A : Type) : Type := result unit (A * N).
Definition get {A} (l : list A) (i : nat) : result unit A := match l !! i with Some a => Ok a | None => Panic end.

Definition ref_row (i : nat) (r : RefRow) : Row := Row_new Ref (PRef i) [bytes_of (r_token r); opt_field (r_qualifier r)].
Definition import_row (i : nat) (imp : ImportRow) : Row := Row_new Import (PImport i) [bytes_of (i_alias imp); bytes_of (i_path imp)].
Definition def_row (k : RowKind) (i : nat) (d : DefRow) : Row := Row_new k (PDef i) [bytes_of (d_token d); bytes_of (d_source_id d); bytes_of (d_kind d)].
(** The rows so far, what the refs name, and the count. *)
Record closing := { cl_rows : list Row; cl_tokens : list string; cl_qualifiers : list string; cl_files : list string; cl_touched : N }.
Definition add_ref (sub : FactSubstrate) (c : closing) (i : nat) : result unit closing :=
  r ← get (refs sub) i;
  mret {| cl_rows := cl_rows c ++ [ref_row i r]; cl_tokens := cl_tokens c ++ [r_token r]; cl_qualifiers := cl_qualifiers c ++ option_list (r_qualifier r);
          cl_files := cl_files c ++ [r_source_id r]; cl_touched := cl_touched c + 1 |}.
Definition add_row {A} (table : list A) (row : nat → A → option Row) (c : list Row * N) (i : nat) : counted (list Row) :=
  a ← get table i; mret (c.1 ++ option_list (row i a), c.2 + 1).
Definition call_target_closure (sub : FactSubstrate) (container : string) (rows_touched : N) : counted (list Row) :=
  c ← fold_result (add_ref sub)
        {| cl_rows := [Row_new Container PQuery [bytes_of container]]; cl_tokens := []; cl_qualifiers := []; cl_files := []; cl_touched := rows_touched |}
        (index_slice (refs_by_container sub) container);
  rows ← fold_result (add_row (imports sub) (λ i imp,
           if bool_decide (i_alias imp ∈ cl_tokens c) || bool_decide (i_alias imp ∈ cl_qualifiers c) then Some (import_row i imp) else None))
           (cl_rows c, cl_touched c) (BTreeSet (cl_files c) ≫= index_slice (imports_by_file sub));
  fold_result (add_row (defs sub) (λ i d, Some (def_row Def i d))) rows (BTreeSet (cl_tokens c) ≫= index_slice (def_index sub)).
Definition restriction_for_call_target `{Blake3} (sub : FactSubstrate) (container : string) (rows_touched : N) : counted Hash :=
  c ← call_target_closure sub container rows_touched; mret (restriction_key CALL_TARGET_SCHEME (parser_id sub) c.1, c.2).

Record ResolvedEdge := { e_token : string; e_qualifier : option string; e_via_import : option string; e_candidates : list DefRow }.
#[global] Instance ResolvedEdge_eq_dec : EqDecision ResolvedEdge.
Proof. solve_decision. Defined.
#[global] Instance DefRow_countable : Countable DefRow.
Proof. apply (inj_countable' def_tuple (λ t, {| d_token := t.1; d_source_id := t.2.1; d_kind := t.2.2 |})). by intros []. Defined.
#[global] Instance ResolvedEdge_countable : Countable ResolvedEdge.
Proof.
  apply (inj_countable' (λ e, (e_token e, e_qualifier e, e_via_import e, e_candidates e))
    (λ t, {| e_token := t.1.1.1; e_qualifier := t.1.1.2; e_via_import := t.1.2; e_candidates := t.2 |})). by intros [].
Defined.
Definition names_import (r : RefRow) (imp : ImportRow) : bool :=
  bool_decide (i_source_id imp = r_source_id r) && (bool_decide (i_alias imp = r_token r) || bool_decide (r_qualifier r = Some (i_alias imp))).
(** Both scans read every row of their table. *)
Definition via_import (imports : list ImportRow) (r : RefRow) : option string :=
  foldl (λ via imp, if bool_decide (via = None) && names_import r imp then Some (i_path imp) else via) None imports.
Definition candidates (defs : list DefRow) (token : string) : list DefRow := sort (filter (λ d, d_token d = token) defs).
Definition resolve (sub : FactSubstrate) (r : RefRow) : ResolvedEdge :=
  {| e_token := r_token r; e_qualifier := r_qualifier r; e_via_import := via_import (imports sub) r; e_candidates := candidates (defs sub) (r_token r) |}.
Definition review_call_targets (sub : FactSubstrate) (container : string) (rows_touched : N) : counted (gset ResolvedEdge) :=
  fold_result (λ c i, r ← get (refs sub) i; mret ({[resolve sub r]} ∪ c.1, c.2 + 1 + len (imports sub) + len (defs sub)))
    (∅, rows_touched) (index_slice (refs_by_container sub) container).

(** ** The public-API review *)

Record ApiDefRow := {
  a_token : string; a_qualifier : option string; a_kind : string; a_source_id : string; a_is_public : bool; a_sig_identity : Hash; a_sig_type_tokens : list string;
}.
Definition public_api_closure (sub : FactSubstrate) (api : ApiDefRow) (rows_touched : N) : counted (list Row) :=
  let type_tokens := BTreeSet (a_sig_type_tokens api) in
  let rows := [Row_new Api PQuery [bytes_of (a_token api); bytes_of (a_kind api)]; Row_new Qualifier PQuery [opt_field (a_qualifier api)];
               Row_new Visibility PQuery [[if a_is_public api then x01 else x00]]; Row_new Signature PQuery [as_bytes (a_sig_identity api)]]
              ++ imap (λ i t, Row_new SigType (PSigType i) [bytes_of t]) type_tokens in
  fold_result (add_row (defs sub) (λ i d, Some (def_row TypeDef i d))) (rows, rows_touched) (type_tokens ≫= index_slice (def_index sub)).
Definition restriction_for_public_api `{Blake3} (sub : FactSubstrate) (api : ApiDefRow) (rows_touched : N) : counted Hash :=
  c ← public_api_closure sub api rows_touched; mret (restriction_key PUBLIC_API_SCHEME (parser_id sub) c.1, c.2).
Record PublicSurface := { exported : bool; s_token : string; s_qualifier : option string; s_kind : string; resolved_types : list (string * list DefRow) }.
Definition review_public_api (sub : FactSubstrate) (api : ApiDefRow) (rows_touched : N) : PublicSurface * N :=
  let surface exported types := {| exported := exported; s_token := a_token api; s_qualifier := a_qualifier api; s_kind := a_kind api; resolved_types := types |} in
  if negb (a_is_public api) then (surface false [], rows_touched)
  else
    let type_tokens := BTreeSet (a_sig_type_tokens api) in
    (surface true ((λ t, (t, candidates (defs sub) t)) <$> type_tokens), rows_touched + len type_tokens * len (defs sub)).

(** ** Baselines *)

Definition whole_object_hash `{Blake3} (corpus : list (string * string)) : Hash :=
  restriction_key WHOLE_OBJECT_SCHEME Hash_ZERO ((λ '(path, src), Row_new Container PQuery [bytes_of path; as_bytes (content_hash (bytes_of src))]) <$> corpus).
Definition whole_input_key `{Blake3} (tree_root parser_id : Hash) (target : string) : Hash :=
  let target_row := Row_new Container PQuery [bytes_of target] in
  address (key_spec WHOLE_INPUT_SCHEME parser_id) [{| addr := tree_root; ea := 0; eb := 0 |}; {| addr := row_address target_row; ea := 1; eb := 0 |}].

Inductive Policy := WholeObject | AstShape | Restriction.
#[global] Instance Policy_eq_dec : EqDecision Policy.
Proof. solve_decision. Defined.
Record FixtureResult := { fr_name : string; review_changed : bool; skips : Policy → option bool }.
Record PolicyStats := { false_skips : N; sound_skips : N }.
(** [r.skips[&policy]] panics on a missing entry. *)
Definition stats (results : list FixtureResult) (policy : Policy) : result unit PolicyStats :=
  fold_result (λ s r,
    match skips r policy with
    | None => Panic
    | Some false => mret s
    | Some true => mret (if review_changed r then {| false_skips := false_skips s + 1; sound_skips := sound_skips s |}
                         else {| false_skips := false_skips s; sound_skips := sound_skips s + 1 |})
    end) {| false_skips := 0; sound_skips := 0 |} results.

(** ** The cache *)

Record ReviewInput := { ri_substrate : FactSubstrate; ri_tree_root : Hash; ri_target : string }.
Inductive Strategy := NoCache | WholeInput | RestrictionKey.
Definition strategy_name (s : Strategy) : string :=
  match s with NoCache => "no-cache" | WholeInput => "whole-input" | RestrictionKey => "restriction" end.
Definition strategy_key `{Blake3} (s : Strategy) (input : ReviewInput) (rows_touched : N) : counted (option Hash) :=
  match s with
  | NoCache => mret (None, rows_touched)
  | WholeInput => mret (Some (whole_input_key (ri_tree_root input) (parser_id (ri_substrate input)) (ri_target input)), rows_touched)
  | RestrictionKey => k ← restriction_for_call_target (ri_substrate input) (ri_target input) rows_touched; mret (Some k.1, k.2)
  end.
Section cache.
Context {V : Type}.
Definition ReviewCache := gmap Hash V.
Definition cache_new : ReviewCache := ∅.
Definition cache_get (cache : ReviewCache) (key : option Hash) : option V := key ≫= (cache !!.).
Definition cache_insert (cache : ReviewCache) (key : option Hash) (value : V) : ReviewCache :=
  match key with Some k => <[k := value]> cache | None => cache end.
Definition get_or_compute (cache : ReviewCache) (key : option Hash) (compute : V) : V * bool * ReviewCache :=
  match cache_get cache key with
  | Some v => (v, true, cache)
  | None => (compute, false, cache_insert cache key compute)
  end.
End cache.

(** ** What the walks read *)

(** The table with its positions; the rows an index lists. *)
Definition placed {A} (l : list A) : list (nat * A) := imap pair l.
Lemma placed_lookup {A} (l : list A) i a : (i, a) ∈ placed l ↔ l !! i = Some a.
Proof.
  unfold placed. rewrite list_elem_of_lookup. split.
  - intros (j & Hj). rewrite list_lookup_imap in Hj. destruct (l !! j) eqn:E; [| done]. cbn in Hj. injection Hj as -> ->. done.
  - intros Hi. exists i. by rewrite list_lookup_imap, Hi.
Qed.
Lemma placed_snd {A} (l : list A) : snd <$> placed l = l.
Proof.
  apply list_eq. intros i. unfold placed. rewrite list_lookup_fmap, list_lookup_imap. by destruct (l !! i).
Qed.
Lemma index_from {A} (key : A → option string) (ps : list (nat * A)) m k :
  index_slice (foldl (λ m '(i, a), match key a with Some k => push_index k i m | None => m end) m ps) k =
  index_slice m k ++ (filter (λ p, key p.2 = Some k) ps).*1.
Proof.
  revert m. induction ps as [| [i a] ps IH]; intros m; cbn [foldl]; [by rewrite app_nil_r |]. rewrite IH, filter_cons. cbn [snd].
  destruct (key a) as [k' |]; [| by case_decide]. unfold index_slice, push_index. case_decide as E.
  - injection E as ->. rewrite lookup_insert_eq. cbn. by rewrite <- app_assoc.
  - rewrite lookup_insert_ne by congruence. done.
Qed.
Lemma index_exact {A} (key : A → option string) (l : list A) k : index_slice (index_by key l) k = (filter (λ p, key p.2 = Some k) (placed l)).*1.
Proof. unfold index_by. by rewrite index_from. Qed.
Lemma filter_placed {A} (P : A → Prop) `{∀ a, Decision (P a), ∀ p : nat * A, Decision (P p.2)} (l : list A) : (filter (λ p, P p.2) (placed l)).*2 = filter P l.
Proof.
  rewrite <- (placed_snd l) at 2. induction (placed l) as [| [i a] ps IH]; [done |]. rewrite fmap_cons, !filter_cons. cbn [snd].
  repeat case_decide; try done. cbn. f_equal. apply IH.
Qed.
(** A fold over listed positions is a fold over the rows there. *)
Lemma fold_rows {A S} (table : list A) (f : S → nat → result unit S) (g : S → nat * A → S) (ps : list (nat * A)) s :
  (∀ s i a, (i, a) ∈ ps → table !! i = Some a → f s i = Ok (g s (i, a))) → Forall (λ p, table !! p.1 = Some p.2) ps →
  fold_result f s ps.*1 = Ok (foldl g s ps).
Proof.
  intros Hf Hp. revert s. induction Hp as [| [i a] ps Hi Hp IH]; intros s; [done |]. cbn. rewrite (Hf s i a); [| left | done]. cbn. apply IH.
  intros s' j b Hj. apply Hf. by right.
Qed.
Lemma add_rows {A} (table : list A) row (ps : list (nat * A)) rows n : Forall (λ p, table !! p.1 = Some p.2) ps →
  fold_result (add_row table row) (rows, n) ps.*1 = Ok (rows ++ (ps ≫= λ p, option_list (row p.1 p.2)), n + len ps).
Proof.
  intros Hp. rewrite (fold_rows table _ (λ c p, (c.1 ++ option_list (row p.1 p.2), c.2 + 1))); [| | done].
  - f_equal. clear Hp. revert rows n. induction ps as [| p ps IH]; intros rows n; [cbn; rewrite app_nil_r; f_equal; unfold len; cbn; lia |].
    cbn [foldl]. rewrite IH. cbn [fst snd]. change ((p :: ps) ≫= λ p, option_list (row p.1 p.2)) with (option_list (row p.1 p.2) ++ (ps ≫= λ p, option_list (row p.1 p.2))).
    rewrite app_assoc. f_equal. rewrite len_cons. lia.
  - intros c i a _ Hi. unfold add_row, get. by rewrite Hi.
Qed.
Definition indexed (sub : FactSubstrate) : Prop :=
  def_index sub = index_by (λ d, Some (d_token d)) (defs sub) ∧ refs_by_container sub = index_by r_container (refs sub)
  ∧ imports_by_file sub = index_by (λ i, Some (i_source_id i)) (imports sub).
Lemma from_rows_indexed d r i c p : indexed (from_rows d r i c p).
Proof. done. Qed.
Lemma indexed_slices {A} (key : A → option string) (l : list A) keys :
  keys ≫= index_slice (index_by key l) = (keys ≫= λ k, filter (λ p, key p.2 = Some k) (placed l)).*1.
Proof. induction keys as [| k keys IH]; [done |]. rewrite !bind_cons, fmap_app, IH. by rewrite index_exact. Qed.
Lemma indexed_places {A} (key : A → option string) (l : list A) keys :
  Forall (λ p, l !! p.1 = Some p.2) (keys ≫= λ k, filter (λ p, key p.2 = Some k) (placed l)).
Proof. apply Forall_forall. intros [i a] (k & [_ Hin]%list_elem_of_filter & _)%list_elem_of_bind. by apply placed_lookup. Qed.

(** ** The closures as cells *)

(** What the key commits to of a row. *)
Definition cell : Type := RowKind * list (list byte).
Definition cell_of (r : Row) : cell := (kind r, fields r).
Definition ref_cell (r : RefRow) : cell := (Ref, [bytes_of (r_token r); opt_field (r_qualifier r)]).
Definition import_cell (i : ImportRow) : cell := (Import, [bytes_of (i_alias i); bytes_of (i_path i)]).
Definition def_cell (k : RowKind) (d : DefRow) : cell := (k, [bytes_of (d_token d); bytes_of (d_source_id d); bytes_of (d_kind d)]).

Definition mine (sub : FactSubstrate) (container : string) : list RefRow := filter (λ r, r_container r = Some container) (refs sub).
Definition named (rs : list RefRow) (a : string) : bool := bool_decide (a ∈ r_token <$> rs) || bool_decide (a ∈ rs ≫= λ r, option_list (r_qualifier r)).
Definition import_surface (sub : FactSubstrate) (rs : list RefRow) : list ImportRow :=
  filter (λ i, named rs (i_alias i) = true) (BTreeSet (r_source_id <$> rs) ≫= λ f, filter (λ i, i_source_id i = f) (imports sub)).
Definition targets (sub : FactSubstrate) (tokens : list string) : list DefRow := BTreeSet tokens ≫= λ t, filter (λ d, d_token d = t) (defs sub).
Definition call_target_cells (sub : FactSubstrate) (container : string) : list cell :=
  let rs := mine sub container in
  (Container, [bytes_of container]) :: (ref_cell <$> rs) ++ (import_cell <$> import_surface sub rs) ++ (def_cell Def <$> targets sub (r_token <$> rs)).
Definition public_api_cells (sub : FactSubstrate) (api : ApiDefRow) : list cell :=
  let type_tokens := BTreeSet (a_sig_type_tokens api) in
  [(Api, [bytes_of (a_token api); bytes_of (a_kind api)]); (Qualifier, [opt_field (a_qualifier api)]); (Visibility, [[if a_is_public api then x01 else x00]]);
   (Signature, [as_bytes (a_sig_identity api)])]
  ++ ((λ t, (SigType, [bytes_of t])) <$> type_tokens) ++ (def_cell TypeDef <$> targets sub (a_sig_type_tokens api)).

Lemma filter_bind {A B} (P : B → Prop) `{∀ b, Decision (P b)} (f : A → list B) (l : list A) : filter P (l ≫= f) = l ≫= λ a, filter P (f a).
Proof. induction l as [| a l IH]; [done |]. by rewrite !bind_cons, filter_app, IH. Qed.
Lemma bind_cells {A} (c : A → cell) row (ps : list (nat * A)) : (∀ i a, cell_of <$> option_list (row i a) = [c a]) →
  cell_of <$> (ps ≫= λ p, option_list (row p.1 p.2)) = c <$> ps.*2.
Proof. intros Hr. induction ps as [| [i a] ps IH]; [done |]. rewrite bind_cons, fmap_app, IH. cbn [fst snd]. by rewrite Hr. Qed.
Lemma bind_filtered {A} (P : A → bool) (c : A → cell) row (ps : list (nat * A)) :
  (∀ i a, cell_of <$> option_list (row i a) = if P a then [c a] else []) →
  cell_of <$> (ps ≫= λ p, option_list (row p.1 p.2)) = c <$> filter (λ a, P a = true) ps.*2.
Proof.
  intros Hr. induction ps as [| [i a] ps IH]; [done |]. rewrite bind_cons, fmap_app, IH. cbn [fst snd]. rewrite Hr, fmap_cons, filter_cons. cbn [snd].
  destruct (P a) eqn:E; case_decide; (done || congruence).
Qed.
Lemma read_tables {A} (key : A → string) (l : list A) keys :
  (keys ≫= λ k, filter (λ p, Some (key p.2) = Some k) (placed l)).*2 = keys ≫= λ k, filter (λ a, key a = k) l.
Proof.
  induction keys as [| k keys IH]; [done |]. rewrite !bind_cons, fmap_app, IH. f_equal. rewrite <- (filter_placed (λ a, key a = k)).
  f_equal. apply list_filter_iff. intros p. split; congruence.
Qed.
Lemma closing_refs sub c (ps : list (nat * RefRow)) : Forall (λ p, refs sub !! p.1 = Some p.2) ps →
  fold_result (add_ref sub) c ps.*1 = Ok {|
    cl_rows := cl_rows c ++ ((λ p, ref_row p.1 p.2) <$> ps); cl_tokens := cl_tokens c ++ (r_token <$> ps.*2); cl_qualifiers := cl_qualifiers c ++ (ps.*2 ≫= λ r, option_list (r_qualifier r));
    cl_files := cl_files c ++ (r_source_id <$> ps.*2); cl_touched := cl_touched c + len ps |}.
Proof.
  intros Hp. revert c. induction Hp as [| [i r] ps Hi Hp IH]; intros c.
  - cbn. rewrite !app_nil_r, N.add_0_r. by destruct c.
  - cbn [fst snd] in Hi. change (((i, r) :: ps).*1) with (i :: ps.*1). cbn [fold_result].
    assert (∀ k, (add_ref sub c i ≫= k : result unit closing) = k _) as -> by (intros k; unfold add_ref, get; rewrite Hi; cbn [mbind result_bind mret result_ret]; reflexivity). rewrite IH. cbn [cl_rows cl_tokens cl_qualifiers cl_files cl_touched].
    rewrite !fmap_cons, bind_cons. cbn [snd fst]. rewrite <- !app_assoc, len_cons. do 2 f_equal. lia.
Qed.
Lemma mine_placed sub container : (filter (λ p, r_container p.2 = Some container) (placed (refs sub))).*2 = mine sub container.
Proof. apply (filter_placed (λ r, r_container r = Some container) (refs sub)). Qed.
Lemma call_target_closed sub container n : indexed sub → ∃ rows m, call_target_closure sub container n = Ok (rows, m) ∧ cell_of <$> rows = call_target_cells sub container.
Proof.
  intros (Hd & Hr & Hi). unfold call_target_closure. rewrite Hr, index_exact, closing_refs.
  2: { apply Forall_forall. intros [i r] [_ Hin]%list_elem_of_filter. by apply placed_lookup. }
  cbn [mbind result_bind cl_rows cl_tokens cl_qualifiers cl_files cl_touched app]. rewrite mine_placed. set (rs := mine sub container).
  rewrite Hi, indexed_slices, add_rows by apply (indexed_places (λ i, Some (i_source_id i))). cbn [mbind result_bind].
  rewrite Hd, indexed_slices, add_rows by apply (indexed_places (λ d, Some (d_token d))).
  eexists _, _. split; [done |]. rewrite !fmap_app, fmap_cons, <- app_assoc. unfold call_target_cells. fold rs. cbn [app]. f_equal. f_equal; [| f_equal].
  - rewrite <- list_fmap_compose. transitivity (ref_cell <$> (filter (λ p, r_container p.2 = Some container) (placed (refs sub))).*2).
    { rewrite <- list_fmap_compose. done. }
    by rewrite mine_placed.
  - etransitivity; [apply (bind_filtered (λ i, named rs (i_alias i)) import_cell (λ i imp, if named rs (i_alias imp) then Some (import_row i imp) else None)) |].
    { intros i a. by destruct (named rs (i_alias a)). }
    by rewrite (read_tables i_source_id).
  - etransitivity; [by apply (bind_cells (def_cell Def) (λ i d, Some (def_row Def i d))) |]. by rewrite (read_tables d_token).
Qed.
Lemma public_api_closed sub api n : indexed sub → ∃ rows m, public_api_closure sub api n = Ok (rows, m) ∧ cell_of <$> rows = public_api_cells sub api.
Proof.
  intros (Hd & _ & _). unfold public_api_closure. cbv zeta. rewrite Hd, indexed_slices, add_rows by apply (indexed_places (λ d, Some (d_token d))).
  eexists _, _. split; [done |]. rewrite !fmap_app. unfold public_api_cells. cbv zeta. rewrite <- app_assoc. f_equal. f_equal.
  - apply list_eq. intros i. rewrite !list_lookup_fmap, list_lookup_imap. by destruct (_ !! i).
  - etransitivity; [by apply (bind_cells (def_cell TypeDef) (λ i d, Some (def_row TypeDef i d))) |]. by rewrite (read_tables d_token).
Qed.

(** ** A key commits to its cells *)

(** The ranges Rust's types give the lengths. *)
Definition addressable (cells : list cell) : Prop :=
  len cells ≤ u64_max ∧ Forall (λ c : cell, len c.2 ≤ u64_max ∧ Forall (λ f, len f ≤ u64_max) c.2) cells.
Lemma fields_inj l1 l2 : Forall (λ f : list byte, len f ≤ u64_max) l1 → Forall (λ f : list byte, len f ≤ u64_max) l2 → length l1 = length l2 →
  concat ((λ f, u64_le (len f) ++ f) <$> l1) = concat ((λ f, u64_le (len f) ++ f) <$> l2) → l1 = l2.
Proof.
  intros H1. revert l2. induction H1 as [| f1 l1 Hf1 _ IH]; intros [| f2 l2] H2 Hl; try done. apply Forall_cons in H2 as [Hf2 H2]. cbn. rewrite <- !app_assoc.
  intros [-> E]%prefixed_inj; [| done..]. f_equal. apply IH; [done | by injection Hl | done].
Qed.
Lemma row_preimage_inj f1 f2 : len f1 ≤ u64_max → len f2 ≤ u64_max → Forall (λ f, len f ≤ u64_max) f1 → Forall (λ f, len f ≤ u64_max) f2 →
  row_preimage f1 = row_preimage f2 → f1 = f2.
Proof.
  intros L1 L2 W1 W2 E. unfold row_preimage in E. apply app_inj_len in E as [El E]; [| unfold u64_le; by rewrite !length_le_bytes].
  apply u64_le_inj in El; [| done..]. apply fields_inj; [done | done | unfold len in El; lia | done].
Qed.
(** Equal images of two multisets: equal multisets, or two elements with one image. *)
Lemma fmap_perm_or {A B} `{EqDecision A} (f : A → B) (l1 l2 : list A) : f <$> l1 ≡ₚ f <$> l2 → l1 ≡ₚ l2 ∨ ∃ x y, x ∈ l1 ∧ y ∈ l2 ∧ x ≠ y ∧ f x = f y.
Proof.
  intros (l3 & E & Hp)%(Permutation_map_inv f). change (f <$> l1 = f <$> l3) in E.
  assert (l1 = l3 ∨ ∃ x y, x ∈ l1 ∧ y ∈ l3 ∧ x ≠ y ∧ f x = f y) as [-> | (x & y & Hx & Hy & Hne)]; [| by left; symmetry | right; exists x, y; by rewrite Hp].
  clear Hp. revert l3 E. induction l1 as [| a l1 IH]; intros [| b l3] E; try done; [by left |]. injection E as Eab E.
  destruct (decide (a = b)) as [-> |]; [| right; exists a, b; split_and!; (done || left)].
  destruct (IH _ E) as [-> | (x & y & Hx & Hy & Hne)]; [by left | right; exists x, y; split_and!; (by right) || apply Hne].
Qed.
Lemma kind_value_inj k1 k2 : kind_value k1 = kind_value k2 → k1 = k2.
Proof. by destruct k1, k2. Qed.

Section commits.
Context `{Blake3}.
Definition cell_entry (c : cell) : Entry := {| addr := blake3_derive_key ROW_CONTEXT (row_preimage c.2); ea := kind_value c.1; eb := 0 |}.
(** Two inputs of the hash that the code hashed and that share their digest. *)
Definition key_collision (s1 s2 : string) (p1 p2 : Hash) (c1 c2 : list cell) : Prop :=
  collision (blake3_derive_key PARTITION_CONTEXT) (address_preimage (key_spec s1 p1) (cell_entry <$> c1)) (address_preimage (key_spec s2 p2) (cell_entry <$> c2))
  ∨ ∃ x y, x ∈ c1 ∧ y ∈ c2 ∧ collision (blake3_derive_key ROW_CONTEXT) (row_preimage x.2) (row_preimage y.2).
Lemma key_cells scheme p rows : restriction_key scheme p rows = address (key_spec scheme p) (cell_entry <$> (cell_of <$> rows)).
Proof. unfold restriction_key. by rewrite <- list_fmap_compose. Qed.
Lemma entries_wf cells : Forall entry_wf (cell_entry <$> cells).
Proof. apply Forall_fmap, Forall_true. intros [k f]. split; [by destruct k | done]. Qed.
Lemma key_commits s1 s2 p1 p2 c1 c2 : len (bytes_of s1) ≤ u64_max → len (bytes_of s2) ≤ u64_max → addressable c1 → addressable c2 →
  address (key_spec s1 p1) (cell_entry <$> c1) = address (key_spec s2 p2) (cell_entry <$> c2) →
  s1 = s2 ∧ p1 = p2 ∧ c1 ≡ₚ c2 ∨ key_collision s1 s2 p1 p2 c1 c2.
Proof.
  intros Hs1 Hs2 [Hl1 Hw1] [Hl2 Hw2] E.
  assert (∀ s p c, len (bytes_of s) ≤ u64_max → len c ≤ u64_max → decomposition_wf (key_spec s p) (cell_entry <$> c)) as Hwf.
  { intros s p c Hs Hc. split_and!; [done | done | | | apply entries_wf]; unfold len in *; [cbn [key_spec params]; rewrite length_as_bytes; done | by rewrite length_fmap]. }
  apply address_commits_decomposition in E; [| by apply Hwf..]. destruct E as [[Es Ec] | Hcol]; [| by right; left].
  injection Es as Es Ep. apply bytes_of_inj in Es. apply as_bytes_inj in Ep. cbn in Ec.
  apply fmap_perm_or in Ec as [Ec | ([k1 f1] & [k2 f2] & Hx & Hy & Hne & Ee)]; [by left |]. right; right. exists (k1, f1), (k2, f2). split; [done |]. split; [done |].
  injection Ee as Ea Ek. apply kind_value_inj in Ek as ->. split; [| done]. intros Epre. apply Hne. f_equal.
  rewrite Forall_forall in Hw1, Hw2. destruct (Hw1 _ Hx), (Hw2 _ Hy). by apply row_preimage_inj.
Qed.
End commits.

(** ** Reading the cells back *)

Definition cells_of (k : RowKind) (cells : list cell) : list (list (list byte)) := snd <$> filter (λ c : cell, c.1 = k) cells.
#[global] Instance cells_of_perm k : Proper ((≡ₚ) ==> (≡ₚ)) (cells_of k).
Proof. intros c1 c2 Hp. unfold cells_of. by rewrite Hp. Qed.
Lemma cells_app k c1 c2 : cells_of k (c1 ++ c2) = cells_of k c1 ++ cells_of k c2.
Proof. unfold cells_of. by rewrite filter_app, fmap_app. Qed.
Lemma cells_map {A} k k' (g : A → list (list byte)) (l : list A) : cells_of k ((λ a, (k', g a)) <$> l) = if decide (k' = k) then g <$> l else [].
Proof.
  induction l as [| a l IH]; [by case_decide |]. unfold cells_of in *. rewrite fmap_cons, filter_cons. cbn [fst].
  destruct (decide (k' = k)); [rewrite fmap_cons, IH; done | done].
Qed.
Lemma perm_inj {A B} `{EqDecision A} (f : A → B) (l1 l2 : list A) : (∀ x y, f x = f y → x = y) → f <$> l1 ≡ₚ f <$> l2 → l1 ≡ₚ l2.
Proof. intros Hf [? | (x & y & _ & _ & Hne & E)]%fmap_perm_or; [done | by destruct (Hne (Hf _ _ E))]. Qed.
Lemma opt_field_inj a b : opt_field a = opt_field b → a = b.
Proof. destruct a, b; cbn; try done. intros [= E]. f_equal. by apply bytes_of_inj. Qed.
Definition def_fields (d : DefRow) : list (list byte) := [bytes_of (d_token d); bytes_of (d_source_id d); bytes_of (d_kind d)].
Lemma def_fields_inj a b : def_fields a = def_fields b → a = b.
Proof. destruct a, b. unfold def_fields. cbn. intros [= E1 E2 E3]. f_equal; by apply bytes_of_inj. Qed.
#[global] Instance DefRow_cmp_laws : CmpLaws DefRow.
Proof.
  split; unfold cmp, DefRow_cmp.
  - intros a b. rewrite cmp_eq. destruct a, b; cbn. split; [by intros [= -> -> ->] | by intros [= -> -> ->]].
  - intros a b. apply (cmp_flip (def_tuple a)).
  - intros a b c. apply (cmp_lt_trans (def_tuple a)).
Qed.
Lemma sort_perm `{CmpLaws K} (l1 l2 : list K) : l1 ≡ₚ l2 → sort l1 = sort l2.
Proof. intros Hp. apply (Sorted_unique cmp_le); [apply Sorted_merge_sort, _.. |]. unfold sort. by rewrite !merge_sort_Permutation. Qed.
Lemma BTreeSet_sorted l : sort (BTreeSet l) = BTreeSet l.
Proof. apply sort_perm. unfold BTreeSet, sort. by rewrite merge_sort_Permutation. Qed.
Lemma BTreeSet_perm l1 l2 : BTreeSet l1 ≡ₚ BTreeSet l2 → BTreeSet l1 = BTreeSet l2.
Proof. intros Hp%sort_perm. by rewrite !BTreeSet_sorted in Hp. Qed.
Lemma elem_of_BTreeSet l x : x ∈ BTreeSet l ↔ x ∈ l.
Proof. unfold BTreeSet, sort. rewrite merge_sort_Permutation. set_solver. Qed.
Lemma BTreeSet_nodup l : NoDup (BTreeSet l).
Proof. unfold BTreeSet, sort. rewrite merge_sort_Permutation. apply NoDup_elements. Qed.
(** A table read group by group, and one group of it. *)
Lemma grouped_one {A} (key : A → string) (l : list A) ts t : NoDup ts → t ∈ ts →
  filter (λ a, key a = t) (ts ≫= λ k, filter (λ a, key a = k) l) = filter (λ a, key a = t) l.
Proof.
  intros Hnd Hin. rewrite filter_bind. revert Hnd Hin. induction ts as [| k ts IH]; intros Hnd Hin; [by apply not_elem_of_nil in Hin |].
  apply NoDup_cons in Hnd as [Hk Hnd]. rewrite bind_cons, list_filter_filter.
  assert (∀ k, k ≠ t → filter (λ a, key a = t ∧ key a = k) l = []) as Hother by (intros k' Hk'; apply filter_none; intros a _ [? ?]; congruence).
  destruct (decide (k = t)) as [-> | Hne].
  - assert ((ts ≫= λ k, filter (λ a, key a = t) (filter (λ a, key a = k) l)) = []) as ->.
    { clear IH Hnd Hin. induction ts as [| k' ts IH]; [done |]. apply not_elem_of_cons in Hk as [Hne Hk]. rewrite bind_cons, IH by done. rewrite list_filter_filter, Hother; done. }
    rewrite app_nil_r. apply list_filter_iff. intuition.
  - rewrite Hother, IH by (done || set_solver). done.
Qed.
Lemma candidates_of_targets sub tokens t : t ∈ tokens → candidates (defs sub) t = sort (filter (λ d, d_token d = t) (targets sub tokens)).
Proof. intros Ht. unfold candidates, targets. rewrite (grouped_one d_token); [done | apply BTreeSet_nodup | by apply elem_of_BTreeSet]. Qed.
Lemma targets_perm s1 s2 t1 t2 t : targets s1 t1 ≡ₚ targets s2 t2 → t ∈ t1 → t ∈ t2 → candidates (defs s1) t = candidates (defs s2) t.
Proof. intros Hp H1 H2. rewrite (candidates_of_targets s1 t1 t H1), (candidates_of_targets s2 t2 t H2). apply sort_perm. by rewrite Hp. Qed.

(** ** The public-API key is sound *)

Lemma surface_of_cells s1 a1 s2 a2 n1 n2 : public_api_cells s1 a1 ≡ₚ public_api_cells s2 a2 → (review_public_api s1 a1 n1).1 = (review_public_api s2 a2 n2).1.
Proof.
  intros Hp. pose proof (λ k, cells_of_perm k _ _ Hp) as Hk.
  assert (∀ k s a, cells_of k (public_api_cells s a) =
    (if decide (Api = k) then [[bytes_of (a_token a); bytes_of (a_kind a)]] else []) ++ (if decide (Qualifier = k) then [[opt_field (a_qualifier a)]] else [])
    ++ (if decide (Visibility = k) then [[[if a_is_public a then x01 else x00]]] else []) ++ (if decide (Signature = k) then [[as_bytes (a_sig_identity a)]] else [])
    ++ (if decide (SigType = k) then (λ t, [bytes_of t]) <$> BTreeSet (a_sig_type_tokens a) else [])
    ++ (if decide (TypeDef = k) then def_fields <$> targets s (a_sig_type_tokens a) else [])) as Hc.
  { intros k s a. unfold public_api_cells. cbv zeta. rewrite cells_app, cells_app, (cells_map k SigType (λ t, [bytes_of t])), (cells_map k TypeDef def_fields). by destruct k. }
  pose proof (Hk Api) as H1. pose proof (Hk Qualifier) as H2. pose proof (Hk Visibility) as H3. pose proof (Hk SigType) as H5. pose proof (Hk TypeDef) as H6.
  rewrite !Hc in H1, H2, H3, H5, H6. cbn in H1, H2, H3, H5, H6. rewrite ?app_nil_r in H5.
  apply Permutation_singleton_inj in H1, H2, H3. injection H1 as E1%bytes_of_inj E2%bytes_of_inj. injection H2 as E3%opt_field_inj.
  apply (perm_inj (λ t, [bytes_of t])) in H5; [| by intros x y [= ?%bytes_of_inj]]. apply BTreeSet_perm in H5. apply (perm_inj def_fields) in H6; [| apply def_fields_inj].
  assert (a_is_public a1 = a_is_public a2) as E4 by (by destruct (a_is_public a1), (a_is_public a2)).
  unfold review_public_api. rewrite E1, E2, E3, E4, <- H5. destruct (a_is_public a2); [| done]. cbn. f_equal. apply list_fmap_ext. intros i t Ht. f_equal.
  assert (t ∈ BTreeSet (a_sig_type_tokens a1)) as Hin by (by eapply list_elem_of_lookup_2). eapply targets_perm; [done | by apply elem_of_BTreeSet |]. apply elem_of_BTreeSet. by rewrite <- H5.
Qed.
(** C29: A public-API key is sound.  The key of a symbol's review is always computed; two
    requests with one key were extracted under one derivation and have the same review,
    whatever else differs between their corpora, or the hash collides on two inputs the keys
    were computed from. *)
Theorem public_api_key_sound `{Blake3} s1 a1 s2 a2 n1 n2 : indexed s1 → indexed s2 → addressable (public_api_cells s1 a1) → addressable (public_api_cells s2 a2) →
  ∃ k1 k2 t1 t2, restriction_for_public_api s1 a1 n1 = Ok (k1, t1) ∧ restriction_for_public_api s2 a2 n2 = Ok (k2, t2)
  ∧ (k1 = k2 → parser_id s1 = parser_id s2 ∧ (review_public_api s1 a1 n1).1 = (review_public_api s2 a2 n2).1
       ∨ key_collision PUBLIC_API_SCHEME PUBLIC_API_SCHEME (parser_id s1) (parser_id s2) (public_api_cells s1 a1) (public_api_cells s2 a2)).
Proof.
  intros I1 I2 W1 W2. unfold restriction_for_public_api.
  destruct (public_api_closed s1 a1 n1 I1) as (r1 & t1 & -> & C1). destruct (public_api_closed s2 a2 n2 I2) as (r2 & t2 & -> & C2).
  eexists _, _, t1, t2. split; [done |]. split; [done |]. cbn [fst]. rewrite !key_cells, C1, C2. intros [(_ & Ep & Hp) | ?]%key_commits; [left | by right | done..].
  split; [done | by apply surface_of_cells].
Qed.

(** ** The call-target key is sound where the import is one *)

(** The refs of a container lie in one file, and what a ref can name there leads one way. *)
Definition one_import (sub : FactSubstrate) (container : string) : Prop :=
  (∀ r r', r ∈ mine sub container → r' ∈ mine sub container → r_source_id r = r_source_id r')
  ∧ ∀ r i j, r ∈ mine sub container → i ∈ imports sub → j ∈ imports sub → names_import r i = true → names_import r j = true → i_path i = i_path j.
Lemma via_first l r : via_import l r = i_path <$> head (filter (λ i, names_import r i = true) l).
Proof.
  assert (∀ l v, foldl (λ via imp, if bool_decide (via = None) && names_import r imp then Some (i_path imp) else via) (Some v) l = Some v) as Hs.
  { clear l. intros l v. induction l as [| i l IH]; [done |]. cbn [foldl]. rewrite bool_decide_eq_false_2 by done. apply IH. }
  unfold via_import. induction l as [| i l IH]; [done |]. cbn [foldl]. rewrite bool_decide_eq_true_2 by done. rewrite filter_cons. cbn [andb].
  destruct (names_import r i) eqn:E; case_decide; first [done | apply Hs | apply IH].
Qed.
(** What a ref names among the imports that the key keeps. *)
Definition leads (r : RefRow) (paths : list (string * string)) : list string :=
  snd <$> filter (λ p, p.1 = r_token r ∨ r_qualifier r = Some p.1) paths.
Definition surface_pairs (sub : FactSubstrate) (container : string) : list (string * string) :=
  (λ i, (i_alias i, i_path i)) <$> import_surface sub (mine sub container).
Lemma leads_exact sub container r : (∀ r r', r ∈ mine sub container → r' ∈ mine sub container → r_source_id r = r_source_id r') → r ∈ mine sub container →
  leads r (surface_pairs sub container) = i_path <$> filter (λ i, names_import r i = true) (imports sub).
Proof.
  intros Hone Hr. unfold leads, surface_pairs, import_surface. set (rs := mine sub container) in *.
  assert (BTreeSet (r_source_id <$> rs) = [r_source_id r]) as ->.
  { apply Permutation_singleton_r. apply NoDup_Permutation; [apply BTreeSet_nodup | apply NoDup_singleton |]. intros f. rewrite elem_of_BTreeSet, list_elem_of_singleton, list_elem_of_fmap.
    split; [intros (r' & -> & Hr'); by apply Hone | intros ->; eauto]. }
  rewrite bind_cons, app_nil_r.
  assert (∀ i, names_import r i = true ↔ (i_alias i = r_token r ∨ r_qualifier r = Some (i_alias i)) ∧ named rs (i_alias i) = true ∧ i_source_id i = r_source_id r) as Hn.
  { intros i. unfold names_import, named. rewrite andb_true_iff, !orb_true_iff, !bool_decide_eq_true. split; [| tauto]. intros [-> Hi]. split; [done |]. split; [| done].
    destruct Hi as [-> | Hq]; [left; by apply list_elem_of_fmap_2 | right; apply list_elem_of_bind; exists r; rewrite Hq; split; [left | done]]. }
  induction (imports sub) as [| i l IH]; [done |]. rewrite (filter_cons (λ i, i_source_id i = _)), (filter_cons (λ i, names_import r i = true)). destruct (decide (i_source_id i = r_source_id r)) as [Hs | Hs].
  - rewrite (filter_cons (λ i, named rs (i_alias i) = true)). destruct (decide (named rs (i_alias i) = true)) as [Hm | Hm].
    + rewrite fmap_cons, (filter_cons (λ p : string * string, _)). cbn [fst]. destruct (decide (i_alias i = r_token r ∨ r_qualifier r = Some (i_alias i))) as [Hl | Hl]; case_decide as Hc; rewrite Hn in Hc; try tauto.
      rewrite !fmap_cons, IH. done.
    + case_decide as Hc; [rewrite Hn in Hc; tauto | done].
  - case_decide as Hc; [rewrite Hn in Hc; tauto | done].
Qed.
(** One element, however often it is listed. *)
Lemma head_agree {A} (l1 l2 : list A) : (∀ x y, x ∈ l1 → y ∈ l1 → x = y) → l1 ≡ₚ l2 → head l1 = head l2.
Proof.
  intros Ha Hp. destruct l1 as [| x l1]; [by apply Permutation_nil_l in Hp as -> |]. destruct l2 as [| y l2]; [by apply Permutation_nil_r in Hp |].
  cbn. f_equal. apply Ha; [left |]. rewrite Hp. left.
Qed.
Lemma via_leads sub container r : one_import sub container → r ∈ mine sub container → via_import (imports sub) r = head (leads r (surface_pairs sub container)).
Proof. intros [Hone _] Hr. rewrite via_first, (leads_exact sub container r Hone Hr). by destruct (filter _ _). Qed.
Lemma leads_agree sub container r : one_import sub container → r ∈ mine sub container →
  ∀ x y, x ∈ leads r (surface_pairs sub container) → y ∈ leads r (surface_pairs sub container) → x = y.
Proof.
  intros [Hone Ho] Hr x y. rewrite (leads_exact sub container r Hone Hr), !list_elem_of_fmap.
  intros (i & -> & [Hi Hi']%list_elem_of_filter) (j & -> & [Hj Hj']%list_elem_of_filter). by eapply Ho.
Qed.
Definition names_of (r : RefRow) : string * option string := (r_token r, r_qualifier r).
Lemma review_exact sub container n : indexed sub → ∃ m, review_call_targets sub container n = Ok (list_to_set (resolve sub <$> mine sub container), m)
  ∧ m = n + len (mine sub container) * (1 + len (imports sub) + len (defs sub)).
Proof.
  intros (_ & Hr & _). unfold review_call_targets. rewrite Hr, index_exact.
  set (g c (p : nat * RefRow) := ({[resolve sub p.2]} ∪ c.1 : gset ResolvedEdge, c.2 + 1 + len (imports sub) + len (defs sub))).
  rewrite (fold_rows (refs sub) _ g).
  - assert (∀ ps c, foldl g c ps = (list_to_set (resolve sub <$> ps.*2) ∪ c.1, c.2 + len ps * (1 + len (imports sub) + len (defs sub)))) as ->.
    { induction ps as [| p ps IH]; intros [x k]; cbn [foldl]; [unfold len at 1; cbn; f_equal; [set_solver | lia] |]. rewrite IH. unfold g. cbn [fst snd]. rewrite fmap_cons, fmap_cons, len_cons. cbn [list_to_set]. f_equal; [set_solver | lia]. }
    eexists. split; [rewrite mine_placed; cbn [fst snd]; rewrite (right_id_L ∅ (∪)); done |]. cbn [snd].
    assert (len (filter (λ p, r_container p.2 = Some container) (placed (refs sub))) = len (mine sub container)) as -> by (rewrite <- mine_placed; unfold len; by rewrite length_fmap). done.
  - intros c i r _ Hi. unfold get. by rewrite Hi.
  - apply Forall_forall. intros [i r] [_ Hin]%list_elem_of_filter. by apply placed_lookup.
Qed.
Lemma call_cells k sub container :
  cells_of k (call_target_cells sub container) =
  (if decide (Container = k) then [[bytes_of container]] else []) ++ (if decide (Ref = k) then (λ x : string * option string, [bytes_of x.1; opt_field x.2]) <$> (names_of <$> mine sub container) else [])
  ++ (if decide (Import = k) then (λ x : string * string, [bytes_of x.1; bytes_of x.2]) <$> surface_pairs sub container else [])
  ++ (if decide (Def = k) then def_fields <$> targets sub (r_token <$> mine sub container) else []).
Proof.
  unfold call_target_cells. cbv zeta. change (?x :: ?l) with ([x] ++ l). rewrite !cells_app, (cells_map k Ref (λ r, [bytes_of (r_token r); opt_field (r_qualifier r)])),
    (cells_map k Import (λ i, [bytes_of (i_alias i); bytes_of (i_path i)])), (cells_map k Def def_fields).
  unfold surface_pairs. rewrite <- !list_fmap_compose. f_equal. by destruct k.
Qed.
Lemma edges_incl s1 s2 c : one_import s1 c → one_import s2 c → names_of <$> mine s1 c ≡ₚ names_of <$> mine s2 c → surface_pairs s1 c ≡ₚ surface_pairs s2 c →
  targets s1 (r_token <$> mine s1 c) ≡ₚ targets s2 (r_token <$> mine s2 c) → ∀ e, e ∈ resolve s1 <$> mine s1 c → e ∈ resolve s2 <$> mine s2 c.
Proof.
  intros O1 O2 Hn Hs Ht e (r1 & -> & Hr1)%list_elem_of_fmap.
  assert (names_of r1 ∈ names_of <$> mine s2 c) as (r2 & E & Hr2)%list_elem_of_fmap by (rewrite <- Hn; by apply list_elem_of_fmap_2).
  apply list_elem_of_fmap. exists r2. split; [| done]. unfold names_of in E. injection E as Et Eq. unfold resolve. rewrite <- Et, <- Eq.
  rewrite (via_leads s1 c r1), (via_leads s2 c r2) by done. f_equal.
  - rewrite <- (head_agree (leads r1 (surface_pairs s1 c)) (leads r2 (surface_pairs s2 c))); [done | by apply leads_agree |]. unfold leads. rewrite Et, Eq. by rewrite Hs.
  - eapply targets_perm; [done | by apply list_elem_of_fmap_2 |]. rewrite Et. by apply list_elem_of_fmap_2.
Qed.
Lemma edges_of_cells s1 s2 c1 c2 : one_import s1 c1 → one_import s2 c2 → call_target_cells s1 c1 ≡ₚ call_target_cells s2 c2 →
  c1 = c2 ∧ (list_to_set (resolve s1 <$> mine s1 c1) : gset ResolvedEdge) = list_to_set (resolve s2 <$> mine s2 c2).
Proof.
  intros O1 O2 Hp. pose proof (λ k, cells_of_perm k _ _ Hp) as Hk. pose proof (Hk Container) as E0. pose proof (Hk Ref) as E1. pose proof (Hk Import) as E2. pose proof (Hk Def) as E3.
  rewrite !call_cells in E0, E1, E2, E3. cbn -[fmap] in E0, E1, E2, E3. rewrite ?app_nil_r in E1, E2.
  apply Permutation_singleton_inj in E0. injection E0 as ->%bytes_of_inj. split; [done |].
  apply (perm_inj (λ x : string * option string, [bytes_of x.1; opt_field x.2])) in E1; [| by intros [] [] [= ?%bytes_of_inj ?%opt_field_inj]; subst].
  apply (perm_inj (λ x : string * string, [bytes_of x.1; bytes_of x.2])) in E2; [| by intros [] [] [= ?%bytes_of_inj ?%bytes_of_inj]; cbn in *; subst].
  apply (perm_inj def_fields) in E3; [| apply def_fields_inj].
  apply set_eq. intros e. rewrite !elem_of_list_to_set. split; apply edges_incl; try done; by symmetry.
Qed.
(** A call-target key is sound where imports are not ambiguous.  The key and the review of a
    function are always computed.  Two requests whose refs each lie in one file and whose
    names each lead to one import path there, and which have one key, are of one function
    identity, were extracted under one derivation and have the same resolved call graph, or the
    hash collides on two inputs the keys were computed from. *)
Theorem call_target_key_sound `{Blake3} s1 c1 s2 c2 n1 n2 : indexed s1 → indexed s2 → one_import s1 c1 → one_import s2 c2 →
  addressable (call_target_cells s1 c1) → addressable (call_target_cells s2 c2) →
  ∃ k1 k2 e1 e2 t1 t2 u1 u2, restriction_for_call_target s1 c1 n1 = Ok (k1, t1) ∧ restriction_for_call_target s2 c2 n2 = Ok (k2, t2)
  ∧ review_call_targets s1 c1 n1 = Ok (e1, u1) ∧ review_call_targets s2 c2 n2 = Ok (e2, u2)
  ∧ (k1 = k2 → c1 = c2 ∧ parser_id s1 = parser_id s2 ∧ e1 = e2
       ∨ key_collision CALL_TARGET_SCHEME CALL_TARGET_SCHEME (parser_id s1) (parser_id s2) (call_target_cells s1 c1) (call_target_cells s2 c2)).
Proof.
  intros I1 I2 O1 O2 W1 W2. unfold restriction_for_call_target.
  destruct (call_target_closed s1 c1 n1 I1) as (r1 & t1 & -> & C1). destruct (call_target_closed s2 c2 n2 I2) as (r2 & t2 & -> & C2).
  destruct (review_exact s1 c1 n1 I1) as (u1 & -> & _). destruct (review_exact s2 c2 n2 I2) as (u2 & -> & _).
  eexists _, _, _, _, t1, t2, u1, u2. do 4 (split; [done |]). cbn [fst]. rewrite !key_cells, C1, C2. intros [(_ & Ep & Hp) | ?]%key_commits; [left | by right | done..].
  apply edges_of_cells in Hp as [? ?]; done.
Qed.

(** ** The cache under each strategy *)

(** One request answered as the documentation has it: the key of the strategy, and the review
    computed on a miss only. *)
Definition serve `{Blake3} (s : Strategy) (cache : gmap Hash (gset ResolvedEdge)) (input : ReviewInput) : result unit (gset ResolvedEdge * bool * gmap Hash (gset ResolvedEdge)) :=
  k ← strategy_key s input 0;
  match cache_get cache k.1 with
  | Some _ => mret (get_or_compute cache k.1 ∅)
  | None => e ← review_call_targets (ri_substrate input) (ri_target input) k.2; mret (get_or_compute cache k.1 e.1)
  end.
Fixpoint serve_all `{Blake3} (s : Strategy) (cache : gmap Hash (gset ResolvedEdge)) (inputs : list ReviewInput) : result unit (list (gset ResolvedEdge)) :=
  match inputs with
  | [] => mret []
  | input :: inputs => '(e, _, cache) ← serve s cache input; es ← serve_all s cache inputs; mret (e :: es)
  end.
Definition input_cells (i : ReviewInput) : list cell := call_target_cells (ri_substrate i) (ri_target i).
Definition edges (i : ReviewInput) : gset ResolvedEdge := list_to_set (resolve (ri_substrate i) <$> mine (ri_substrate i) (ri_target i)).
Record reviewable (i : ReviewInput) : Prop := {
  rv_indexed : indexed (ri_substrate i); rv_one_import : one_import (ri_substrate i) (ri_target i); rv_addressable : addressable (input_cells i);
}.

Section served.
Context `{Blake3}.
Definition input_key (i : ReviewInput) : Hash := address (key_spec CALL_TARGET_SCHEME (parser_id (ri_substrate i))) (cell_entry <$> input_cells i).
Definition inputs_collide (i j : ReviewInput) : Prop :=
  key_collision CALL_TARGET_SCHEME CALL_TARGET_SCHEME (parser_id (ri_substrate i)) (parser_id (ri_substrate j)) (input_cells i) (input_cells j).
Lemma serve_exact cache i : indexed (ri_substrate i) → ∃ hit,
  serve RestrictionKey cache i = Ok (match cache !! input_key i with Some v => v | None => edges i end, hit,
    match cache !! input_key i with Some _ => cache | None => <[input_key i := edges i]> cache end).
Proof.
  intros Hi. assert (∃ t, strategy_key RestrictionKey i 0 = Ok (Some (input_key i), t)) as [t Hk].
  { unfold strategy_key, restriction_for_call_target. destruct (call_target_closed _ (ri_target i) 0 Hi) as (rows & t & -> & C). exists t. cbn [mbind result_bind mret result_ret fst snd]. by rewrite key_cells, C. }
  unfold serve. rewrite Hk. cbn [mbind result_bind mret result_ret fst snd]. unfold get_or_compute. change (cache_get cache (Some (input_key i))) with (cache !! input_key i).
  destruct (review_exact (ri_substrate i) (ri_target i) t Hi) as (u & -> & _). cbn [mbind result_bind fst cache_insert].
  destruct (cache !! input_key i); by eexists.
Qed.
Lemma serve_all_sound inputs seen cache : Forall reviewable (seen ++ inputs) → (∀ k v, cache !! k = Some v → ∃ i, i ∈ seen ∧ k = input_key i ∧ v = edges i) →
  ∃ es, serve_all RestrictionKey cache inputs = Ok es ∧ (es = edges <$> inputs ∨ ∃ i j, i ∈ seen ++ inputs ∧ j ∈ inputs ∧ inputs_collide i j).
Proof.
  revert seen cache. induction inputs as [| i inputs IH]; intros seen cache Hv Hc; [eexists; split; [done | by left] |].
  assert (reviewable i) as Ri by (rewrite Forall_forall in Hv; apply Hv; set_solver).
  cbn [serve_all]. destruct (serve_exact cache i (rv_indexed _ Ri)) as [hit ->]. cbn [mbind result_bind mret result_ret].
  destruct (IH (seen ++ [i]) (match cache !! input_key i with Some _ => cache | None => <[input_key i := edges i]> cache end)) as (es & -> & Hes).
  { by rewrite <- app_assoc. }
  { intros k v. destruct (cache !! input_key i) as [w |] eqn:E; [intros (j & ? & ?)%Hc; exists j; set_solver |].
    intros [[<- <-] | [_ Hk]]%lookup_insert_Some; [exists i; set_solver |]. apply Hc in Hk as (j & ? & ?). exists j. set_solver. }
  eexists. split; [done |]. destruct Hes as [-> | (a & b & Ha & Hb & Hcol)]; [| right; exists a, b; set_solver].
  destruct (cache !! input_key i) as [v |] eqn:E; [| by left]. apply Hc in E as (j & Hj & Ek & ->).
  assert (reviewable j) as Rj by (rewrite Forall_forall in Hv; apply Hv; set_solver).
  assert (len (bytes_of CALL_TARGET_SCHEME) ≤ u64_max) as Hlen by done. symmetry in Ek.
  destruct (key_commits _ _ _ _ _ _ Hlen Hlen (rv_addressable _ Rj) (rv_addressable _ Ri) Ek) as [(_ & _ & Hp) | Hcol]; [| right; exists j, i; split; [apply elem_of_app; by left | split; [left | exact Hcol]]].
  left. cbn. f_equal. by apply (edges_of_cells _ _ _ _ (rv_one_import _ Rj) (rv_one_import _ Ri)) in Hp as [_ ?].
Qed.

(** C28: A cache under restriction keys serves reviews.  Whatever corpora the requests come from
    and in whatever order, a cache that starts empty answers every one of them, and each
    answer, whether recalled or computed, is the resolved call graph of that request's own
    function in its own corpus, or the hash collides on two inputs that two of the requests'
    keys were computed from; provided each request's refs lie in one file and lead to one
    import. *)
Theorem cache_serves_reviews inputs : Forall reviewable inputs →
  ∃ es, serve_all RestrictionKey cache_new inputs = Ok es
  ∧ (Forall2 (λ i e, ∃ touched, review_call_targets (ri_substrate i) (ri_target i) 0 = Ok (e, touched)) inputs es
     ∨ ∃ i j, i ∈ inputs ∧ j ∈ inputs ∧ inputs_collide i j).
Proof.
  intros Hv. destruct (serve_all_sound inputs [] ∅ Hv) as (es & E & Hes); [intros k v; by rewrite lookup_empty |]. exists es. split; [done |].
  destruct Hes as [-> | ?]; [left | by right]. clear E. induction Hv as [| i inputs Hi _ IH]; constructor; [| done].
  destruct (review_exact (ri_substrate i) (ri_target i) 0 (rv_indexed _ Hi)) as (u & -> & _). by exists u.
Qed.
End served.

(** ** What the other keys bind *)

Section other_keys.
Context `{Blake3}.
(** A whole-input key names the tree, the derivation and the target. *)
Definition whole_entries (t : Hash) (c : string) : list Entry :=
  [{| addr := t; ea := 0; eb := 0 |}; {| addr := row_address (Row_new Container PQuery [bytes_of c]); ea := 1; eb := 0 |}].
Lemma whole_input_binds t1 p1 c1 t2 p2 c2 : len (bytes_of c1) ≤ u64_max → len (bytes_of c2) ≤ u64_max → whole_input_key t1 p1 c1 = whole_input_key t2 p2 c2 →
  t1 = t2 ∧ p1 = p2 ∧ c1 = c2 ∨ collision (blake3_derive_key ROW_CONTEXT) (row_preimage [bytes_of c1]) (row_preimage [bytes_of c2])
  ∨ collision (blake3_derive_key PARTITION_CONTEXT) (address_preimage (key_spec WHOLE_INPUT_SCHEME p1) (whole_entries t1 c1)) (address_preimage (key_spec WHOLE_INPUT_SCHEME p2) (whole_entries t2 c2)).
Proof.
  intros L1 L2 E. change (address (key_spec WHOLE_INPUT_SCHEME p1) (whole_entries t1 c1) = address (key_spec WHOLE_INPUT_SCHEME p2) (whole_entries t2 c2)) in E.
  assert (∀ p t c, decomposition_wf (key_spec WHOLE_INPUT_SCHEME p) (whole_entries t c)) as Hwf.
  { intros p t c. split_and!; [done | done | | done | repeat constructor; done]. cbn [key_spec params]. unfold len. by rewrite length_as_bytes. }
  apply address_commits_decomposition in E; [| apply Hwf..]. destruct E as [[Es Ee] | Hcol]; [| by right; right].
  injection Es as Ep%as_bytes_inj. cbn [is_ordered domain key_spec] in Ee.
  assert (∀ x, x ∈ whole_entries t1 c1 → x ∈ whole_entries t2 c2) as Hin by (intros x; by rewrite Ee). unfold whole_entries in Hin.
  assert (t1 = t2) as ->. { specialize (Hin _ (list_elem_of_here _ _)). apply elem_of_cons in Hin as [[= ->] | Ht%list_elem_of_singleton]; done. }
  assert (row_address (Row_new Container PQuery [bytes_of c1]) = row_address (Row_new Container PQuery [bytes_of c2])) as Ec.
  { specialize (Hin _ (list_elem_of_further _ _ _ (list_elem_of_here _ _))). apply elem_of_cons in Hin as [Ht | Ht%list_elem_of_singleton]; by injection Ht. }
  unfold row_address in Ec. cbn [fields Row_new] in Ec. apply eq_or_collision in Ec as [Ec | Hcol]; [left | by right; left].
  apply row_preimage_inj in Ec; [| done | done | by repeat constructor..]. injection Ec as Ec%bytes_of_inj. done.
Qed.
Lemma key_same scheme p c1 c2 : c1 ≡ₚ c2 → len (bytes_of scheme) ≤ u64_max → len c1 ≤ u64_max → address (key_spec scheme p) (cell_entry <$> c1) = address (key_spec scheme p) (cell_entry <$> c2).
Proof.
  intros Hp Hs Hl. assert (∀ c, len c ≤ u64_max → decomposition_wf (key_spec scheme p) (cell_entry <$> c)) as Hwf.
  { intros c Hc. split_and!; [done | done | | | apply entries_wf]; unfold len in *; [cbn [key_spec params]; by rewrite length_as_bytes | by rewrite length_fmap]. }
  apply address_commits_decomposition; [by apply Hwf | apply Hwf; unfold len in *; by rewrite <- Hp |]. split; [done |]. cbn. by rewrite Hp.
Qed.

(** ** Where the call-target key is not sound *)

Definition call (qualifier : option string) (token file : string) : RefRow := {| r_token := token; r_qualifier := qualifier; r_container := Some "fn:score"%string; r_source_id := file |}.
Definition use_ (alias path file : string) : ImportRow := {| i_alias := alias; i_path := path; i_source_id := file |}.
Definition score_in (refs : list RefRow) (imports : list ImportRow) : FactSubstrate := from_rows [] refs imports ∅ Hash_ZERO.
(** [use a::Foo; use b::bar;] before and after the two lines change places, for a call
    of [Foo::bar]: one key, two reviews. *)
Definition use_before : FactSubstrate := score_in [call (Some "Foo"%string) "bar" "m.rs"] [use_ "Foo" "a::Foo" "m.rs"; use_ "bar" "b::bar" "m.rs"].
Definition use_after : FactSubstrate := score_in [call (Some "Foo"%string) "bar" "m.rs"] [use_ "bar" "b::bar" "m.rs"; use_ "Foo" "a::Foo" "m.rs"].
(** One import that moves from the one file of a function's refs to the other. *)
Definition file_before : FactSubstrate := score_in [call None "t" "f.rs"; call None "u" "g.rs"] [use_ "t" "a::t" "f.rs"].
Definition file_after : FactSubstrate := score_in [call None "t" "f.rs"; call None "u" "g.rs"] [use_ "t" "a::t" "g.rs"].
Lemma keys_agree s1 s2 c : indexed s1 → indexed s2 → parser_id s1 = parser_id s2 → call_target_cells s1 c ≡ₚ call_target_cells s2 c → len (call_target_cells s1 c) ≤ u64_max →
  ∃ k t1 t2, restriction_for_call_target s1 c 0 = Ok (k, t1) ∧ restriction_for_call_target s2 c 0 = Ok (k, t2).
Proof.
  intros I1 I2 Ep Hp Hl. unfold restriction_for_call_target. destruct (call_target_closed s1 c 0 I1) as (r1 & t1 & -> & C1). destruct (call_target_closed s2 c 0 I2) as (r2 & t2 & -> & C2).
  eexists _, t1, t2. split; [done |]. cbn [mbind result_bind mret result_ret fst snd]. rewrite !key_cells, C1, C2, <- Ep. by rewrite (key_same _ _ _ _ Hp).
Qed.
Lemma api_keys_agree s1 s2 a : indexed s1 → indexed s2 → parser_id s1 = parser_id s2 → public_api_cells s1 a = public_api_cells s2 a →
  ∃ k t1 t2, restriction_for_public_api s1 a 0 = Ok (k, t1) ∧ restriction_for_public_api s2 a 0 = Ok (k, t2).
Proof.
  intros I1 I2 Ep Hp. unfold restriction_for_public_api. destruct (public_api_closed s1 a 0 I1) as (r1 & t1 & -> & C1). destruct (public_api_closed s2 a 0 I2) as (r2 & t2 & -> & C2).
  eexists _, t1, t2. split; [done |]. cbn [mbind result_bind mret result_ret fst snd]. by rewrite !key_cells, C1, C2, <- Ep, Hp.
Qed.
(** The key loses the order of the imports and their files; the review reads both. *)
Lemma edges_differ s1 s2 c e : e ∈ resolve s1 <$> mine s1 c → e ∉ resolve s2 <$> mine s2 c → indexed s1 → indexed s2 →
  ∃ e1 e2 u1 u2, review_call_targets s1 c 0 = Ok (e1, u1) ∧ review_call_targets s2 c 0 = Ok (e2, u2) ∧ e1 ≠ e2.
Proof.
  intros H1 H2 I1 I2. destruct (review_exact s1 c 0 I1) as (u1 & E1 & _), (review_exact s2 c 0 I2) as (u2 & E2 & _). eexists _, _, u1, u2. split; [done |]. split; [done |].
  intros E. apply H2. apply (elem_of_list_to_set (C := gset ResolvedEdge)). rewrite <- E. by apply elem_of_list_to_set.
Qed.
Lemma key_misses_import_order :
  (∃ k t1 t2, restriction_for_call_target use_before "fn:score" 0 = Ok (k, t1) ∧ restriction_for_call_target use_after "fn:score" 0 = Ok (k, t2))
  ∧ ∃ e1 e2 u1 u2, review_call_targets use_before "fn:score" 0 = Ok (e1, u1) ∧ review_call_targets use_after "fn:score" 0 = Ok (e2, u2) ∧ e1 ≠ e2.
Proof.
  split.
  - apply keys_agree; [split_and!; reflexivity.. | reflexivity | | by vm_compute]. vm_compute. apply perm_skip, perm_skip, perm_swap.
  - apply (edges_differ _ _ _ {| e_token := "bar"; e_qualifier := Some "Foo"%string; e_via_import := Some "a::Foo"%string; e_candidates := [] |}); [| | split_and!; reflexivity..].
    + left.
    + apply (bool_decide_eq_false_1 _). vm_compute. reflexivity.
Qed.
Lemma key_misses_import_file :
  (∃ k t1 t2, restriction_for_call_target file_before "fn:score" 0 = Ok (k, t1) ∧ restriction_for_call_target file_after "fn:score" 0 = Ok (k, t2))
  ∧ ∃ e1 e2 u1 u2, review_call_targets file_before "fn:score" 0 = Ok (e1, u1) ∧ review_call_targets file_after "fn:score" 0 = Ok (e2, u2) ∧ e1 ≠ e2.
Proof.
  split.
  - apply keys_agree; [split_and!; reflexivity.. | reflexivity | | by vm_compute]. vm_compute. reflexivity.
  - apply (edges_differ _ _ _ {| e_token := "t"; e_qualifier := None; e_via_import := Some "a::t"%string; e_candidates := [] |}); [| | split_and!; reflexivity..].
    + left.
    + apply (bool_decide_eq_false_1 _). vm_compute. reflexivity.
Qed.
End other_keys.

(** ** What a key costs *)

Lemma grouped_short {A} (key : A → string) ts : NoDup ts → ∀ l : list A, len (ts ≫= λ k, filter (λ a, key a = k) l) ≤ len l.
Proof.
  induction 1 as [| k ts Hk Hnd IH]; intros l; [unfold len; cbn; lia |]. rewrite bind_cons, len_app. specialize (IH (filter (λ a, key a ≠ k) l)).
  assert ((ts ≫= λ k', filter (λ a, key a = k') (filter (λ a, key a ≠ k) l)) = ts ≫= λ k', filter (λ a, key a = k') l) as E.
  { clear IH Hnd. induction ts as [| k' ts IH]; [done |]. apply not_elem_of_cons in Hk as [Hne Hk]. rewrite !bind_cons, IH by done. f_equal. rewrite list_filter_filter. apply list_filter_iff. intros a. split; [tauto | intros ->; auto]. }
  rewrite E in IH. assert (len (filter (λ a, key a = k) l) + len (filter (λ a, key a ≠ k) l) ≤ len l); [| lia].
  clear. induction l as [| a l IH]; [unfold len; cbn; lia |]. rewrite !filter_cons, len_cons. repeat case_decide; rewrite ?len_cons; (lia || done).
Qed.
(** The key of a function with a call reads no more rows than its review. *)
Lemma key_is_cheaper sub container n : indexed sub → ∃ rows m e u,
  call_target_closure sub container n = Ok (rows, m) ∧ review_call_targets sub container n = Ok (e, u) ∧ m ≤ u.
Proof.
  intros Hi. pose proof (review_exact sub container n Hi) as (u & Hu & ->). destruct Hi as (Hd & Hr & Hi).
  unfold call_target_closure. rewrite Hr, index_exact, closing_refs.
  2: { apply Forall_forall. intros [i r] [_ Hin]%list_elem_of_filter. by apply placed_lookup. }
  cbn [mbind result_bind cl_rows cl_tokens cl_qualifiers cl_files cl_touched app]. rewrite mine_placed. set (rs := mine sub container) in *.
  rewrite Hi, indexed_slices, add_rows by apply (indexed_places (λ i, Some (i_source_id i))). cbn [mbind result_bind].
  rewrite Hd, indexed_slices, add_rows by apply (indexed_places (λ d, Some (d_token d))).
  eexists _, _, _, _. split; [done |]. split; [exact Hu |].
  assert (∀ A (l : list (nat * A)), len l = len l.*2) as Hlen by (intros; unfold len; by rewrite length_fmap). rewrite !Hlen, mine_placed, (read_tables i_source_id), (read_tables d_token). fold rs.
  pose proof (grouped_short i_source_id (BTreeSet (r_source_id <$> rs)) (BTreeSet_nodup _) (imports sub)). pose proof (grouped_short d_token (BTreeSet (r_token <$> rs)) (BTreeSet_nodup _) (defs sub)).
  clearbody rs. destruct rs as [| r rs]; [change (BTreeSet (r_source_id <$> [])) with (@nil string); change (BTreeSet (r_token <$> [])) with (@nil string); unfold len; cbn; lia |].
  rewrite len_cons in *. nia.
Qed.

(** ** Small corpora *)

Module SmallCorpus.
Definition def (token file : string) : DefRow := {| d_token := token; d_source_id := file; d_kind := "fn" |}.
(** Two states of a corpus, in which a function that is not called changed. *)
Definition corpus (other : string) : FactSubstrate :=
  from_rows [def "bar" "b.rs"; def other "b.rs"] [call (Some "Foo"%string) "bar" "m.rs"] [use_ "Foo" "a::Foo" "m.rs"] {["score" := "fn:score"]}%string Hash_ZERO.
Definition input (other : string) : ReviewInput := {| ri_substrate := corpus other; ri_tree_root := Hash_ZERO; ri_target := "fn:score" |}.
Lemma corpus_one other : one_import (corpus other) "fn:score".
Proof. split; [by intros r r' ->%list_elem_of_singleton ->%list_elem_of_singleton | by intros r i j _ ->%list_elem_of_singleton ->%list_elem_of_singleton]. Qed.
Lemma input_reviewable other : addressable (call_target_cells (corpus other) "fn:score") → reviewable (input other).
Proof. intros Ha. split; [split_and!; reflexivity | apply corpus_one | exact Ha]. Qed.
Definition api (type : string) : ApiDefRow :=
  {| a_token := "area"; a_qualifier := Some "Widget"%string; a_kind := "fn"; a_source_id := "w.rs"; a_is_public := true; a_sig_identity := Hash_ZERO; a_sig_type_tokens := [type; "i64"; type]%string |}.
End SmallCorpus.
Import SmallCorpus.

Lemma small_addressable other : other = "old"%string ∨ other = "new"%string → addressable (call_target_cells (corpus other) "fn:score").
Proof. intros [-> | ->]; apply (bool_decide_eq_true_1 _); vm_compute; reflexivity. Qed.
(** The second request is of another corpus and is recalled. *)
Lemma cache_serves_reviews_witness :
  ∃ es, @serve_all toy_blake3 RestrictionKey cache_new [input "old"; input "new"] = Ok es
    ∧ (Forall2 (λ i e, ∃ touched, review_call_targets (ri_substrate i) (ri_target i) 0 = Ok (e, touched)) [input "old"; input "new"] es ∨ ∃ i j, i ∈ [input "old"; input "new"] ∧ j ∈ [input "old"; input "new"] ∧ @inputs_collide toy_blake3 i j).
Proof.
  apply (@cache_serves_reviews toy_blake3 [input "old"; input "new"]).
  apply Forall_cons; split; [| apply Forall_cons; split; [| apply Forall_nil; exact I]]; apply input_reviewable, small_addressable; auto.
Defined.
Lemma call_target_key_sound_witness :
  ∃ k1 k2 e1 e2 t1 t2 u1 u2, @restriction_for_call_target toy_blake3 (corpus "old") "fn:score" 0 = Ok (k1, t1) ∧ @restriction_for_call_target toy_blake3 (corpus "new") "fn:score" 0 = Ok (k2, t2)
  ∧ review_call_targets (corpus "old") "fn:score" 0 = Ok (e1, u1) ∧ review_call_targets (corpus "new") "fn:score" 0 = Ok (e2, u2) ∧ k1 = k2.
Proof.
  destruct (@call_target_key_sound toy_blake3 (corpus "old") "fn:score" (corpus "new") "fn:score" 0 0 ltac:(split_and!; reflexivity) ltac:(split_and!; reflexivity) (corpus_one _) (corpus_one _)
    (small_addressable _ (or_introl eq_refl)) (small_addressable _ (or_intror eq_refl))) as (k1 & k2 & e1 & e2 & t1 & t2 & u1 & u2 & H1 & H2 & H3 & H4 & _).
  exists k1, k2, e1, e2, t1, t2, u1, u2. split; [exact H1 |]. split; [exact H2 |]. split; [exact H3 |]. split; [exact H4 |].
  destruct (@keys_agree toy_blake3 (corpus "old") (corpus "new") "fn:score" ltac:(split_and!; reflexivity) ltac:(split_and!; reflexivity) eq_refl
    ltac:(vm_compute; reflexivity) ltac:(by vm_compute)) as (k & v1 & v2 & K1 & K2). congruence.
Defined.
Lemma public_api_key_sound_witness :
  ∃ k1 k2 t1 t2, @restriction_for_public_api toy_blake3 (corpus "old") (api "bar") 0 = Ok (k1, t1) ∧ @restriction_for_public_api toy_blake3 (corpus "new") (api "bar") 0 = Ok (k2, t2) ∧ k1 = k2.
Proof.
  destruct (@public_api_key_sound toy_blake3 (corpus "old") (api "bar") (corpus "new") (api "bar") 0 0 ltac:(split_and!; reflexivity) ltac:(split_and!; reflexivity)
    ltac:(apply (bool_decide_eq_true_1 _); vm_compute; reflexivity) ltac:(apply (bool_decide_eq_true_1 _); vm_compute; reflexivity)) as (k1 & k2 & t1 & t2 & H1 & H2 & _).
  exists k1, k2, t1, t2. split; [exact H1 |]. split; [exact H2 |].
  destruct (@api_keys_agree toy_blake3 (corpus "old") (corpus "new") (api "bar") ltac:(split_and!; reflexivity) ltac:(split_and!; reflexivity) eq_refl
    ltac:(vm_compute; reflexivity)) as (k & v1 & v2 & K1 & K2). congruence.
Defined.
